(* ===== verification/_CoqProject ===== *)
-Q . S2P
Prelude.v
NgxString.v
HttpRequest.v
RequestLine.v
HeaderLine.v
HttpChunked.v
HttpUri.v
HostName.v
StatusLine.v
NgxCodec.v
Sprintf.v
NgxTimes.v
NgxInet.v
HttpArgs.v
RangeFilter.v
RbTree.v
EventTimer.v
NgxHash.v
NgxQueue.v
Locations.v
Checksum.v
LimitReq.v
RadixTree.v
Geo.v
ClientAddr.v
HealthCheck.v
SegmentTree.v
Pool.v
PoolSafety.v
RedisProto.v
RoundRobin.v
ConsistentHash.v
QkUpstream.v
QkRelease.v
QkHandler.v
QkLocation.v
QkSubrequest.v
QkPlugin.v
QkManager.v
