(* ===== verification/Prelude.v ===== *)
(** * A verification library for the QKPack proxy

    The program is a reverse proxy: an nginx (Tengine) server with the modules of
    [src/module_qkpack], which answer HTTP requests from Redis clusters. A request
    passes through these parts.

    - The server core reads the request line, the headers, the URI and the body
      from buffers that fill while the network delivers bytes
      ([src/src/http/ngx_http_parse.c], [src/src/http/ngx_http_request_body.c],
      [src/src/http/modules/ngx_http_chunked_filter_module.c]).
    - The parsers use the string library ([src/src/core/ngx_string.c],
      [src/src/core/ngx_parse.c], [src/src/core/ngx_hash.c]), which configuration
      and response code use too; dates are printed and read by
      [src/src/core/ngx_times.c] and [src/src/http/ngx_http_parse_time.c],
      addresses by [src/src/core/ngx_inet.c].
    - A worker waits for events with a time limit: the timers of connections and
      requests ([src/src/event/ngx_event_timer.c]) are in a red-black tree
      ([src/src/core/ngx_rbtree.c]).
    - The subrequest handler ([module_qkpack/src/qksubrequest]) runs a plugin that
      issues subrequests and waits for them.
    - The upstream handler ([module_qkpack/src/qkupstream/ngx_upstream_handler.c])
      sends a Redis command, decides when the reply is complete
      ([ngx_redis_protocol.c]) and follows [MOVED] and [ASK] redirections.
    - The node balancer ([ngx_http_qkupstream_node_module.c]) picks the Redis node
      and extends the shared registry of upstreams ([ngx_upstream_util.c]);
      without a node it leaves the choice to the round-robin balancer
      ([src/src/http/ngx_http_upstream_round_robin.c]).
    - The plugin module ([module_qkpack/src/qkplugin]) loads the plugins.

    ** Files

    - [Prelude]: bytes and C integers, the return codes, record updates, and
      [scan], the loop every parser of the server is built on: a [switch] over a
      state inside a [for] over the bytes. Its lemmas give termination,
      independence of the fuel, resumption after [NGX_AGAIN], loop invariants and
      runs over a known text, once for all parsers.
    - [NgxString]: [ngx_atoi] and its relatives, [ngx_hextoi], [ngx_sprintf_num],
      comparisons, [ngx_parse_size], [ngx_parse_offset], [ngx_parse_time].
    - [HttpRequest]: the fields of [ngx_http_request_s] the parsers share and the
      bitmap [usual].
    - [RequestLine]: [ngx_http_parse_request_line].
    - [HeaderLine]: [ngx_http_parse_header_line] and the [ngx_hash] functions its
      result is used with.
    - [HttpChunked]: [ngx_http_parse_chunked], the request body filters, the two
      chunked encoders.
    - [HttpUri]: [ngx_http_parse_uri], [ngx_http_parse_complex_uri],
      [ngx_http_split_args].
    - [NgxCodec]: base64, percent and HTML escaping, UTF-8.
    - [Sprintf]: [ngx_vslprintf], the interpreter of formats, on top of
      [ngx_sprintf_num].
    - [NgxTimes]: [ngx_gmtime], [ngx_http_time], [ngx_http_cookie_time] (clients
      of [Sprintf]) and [ngx_http_parse_time].
    - [NgxInet]: [ngx_inet_addr], [ngx_inet6_addr], [ngx_inet6_ntop],
      [ngx_sock_ntop], [ngx_ptocidr], [ngx_parse_url] with
      [ngx_inet_resolve_host], [ngx_cmp_sockaddr]; the module [Sockaddr] has the
      types its clients use.
    - [NgxHash]: [ngx_hash_init] and [ngx_hash_find] over the bytes of the table.
    - [NgxQueue]: [ngx_queue.h] and [ngx_queue.c] on links in memory.
    - [Locations]: the [location] directive, the search tree built from a server's
      locations ([ngx_http.c]) and [ngx_http_core_find_location]; queues are
      lists, as [NgxQueue] justifies.
    - [Checksum]: CRC-32 ([ngx_crc32.h]) and [ngx_murmur_hash2].
    - [Pool]: the memory pools of [ngx_palloc.c] over a map of live blocks;
      [PoolSafety]: their contract with clients, stated for any allocator that
      satisfies the class [MallocSpec].
    - [QkRelease]: [ngx_prealloc_and_delay] and the handler of its event
      ([ngx_upstream_util.c]), a client of [PoolSafety].
    - [QkLocation]: the configuration of a location, [ngx_http_qkupstream_pass],
      the content handler [ngx_http_qkupstream_handler] over all requests of a
      process, and the set-up of the node balancer; a client of [QkHandler] and
      [RoundRobin].
    - [QkManager]: the manager process and its descriptors.
    - [StatusLine]: [ngx_http_parse_status_line].
    - [HttpArgs]: [ngx_http_parse_unsafe_uri], [ngx_http_arg],
      [ngx_http_parse_multi_header_lines], [ngx_http_header].
    - [RangeFilter]: [ngx_http_range_filter_module.c], a client of [Sprintf],
      [NgxTimes] and the buffers of [HttpChunked].
    - [LimitReq]: the request limiter, whose zones are a client of [RbTree] and
      [Checksum].
    - [ClientAddr]: [ngx_http_get_forwarded_addr], the realip and access modules
      and the address of the geo module.
    - [HostName]: [ngx_http_validate_host].
    - [HealthCheck]: [ngx_http_upstream_check_module.c], for one server and any
      number of processes, whose handlers interleave at their accesses to the
      shared memory and its mutex ([ngx_shmtx.c]).
    - [RadixTree]: [ngx_radix_tree.c] on nodes in memory; the class [PrefixMap] is
      its interface, with an instance for each kind of key.
    - [Geo]: the geo module, a client of [PrefixMap] and of the CIDR parser of
      [NgxInet].
    - [SegmentTree]: [ngx_segment_tree.c] over its array.
    - [ConsistentHash]: the consistent hash balancer, built on the three before it
      and the peers of [RoundRobin].
    - [RbTree]: [ngx_rbtree_insert], [ngx_rbtree_delete] and [ngx_rbtree_min] on
      nodes in memory that point to each other.
    - [EventTimer]: the timers, a client of [RbTree].
    - [RedisProto]: [ngx_redis_proto_decode], with [strtol].
    - [RoundRobin]: the peers of an upstream, the smooth weighted round robin with
      its health checks, retries and backup list.
    - [QkUpstream]: the registry of servers and peers, and the node balancer. The
      class [UrlParser] is the interface to [ngx_parse_url], [UrlParserNames]
      states what the registry relies on, and the instance [inet_parser_names]
      shows that the parser of [NgxInet] provides it.
    - [QkHandler]: the upstream handler, a client of [RedisProto] and
      [QkUpstream].
    - [QkSubrequest]: the phases of [ngx_http_qksubrequest_handler].
    - [QkPlugin]: the plugin directive, worker start and publish timer.

    ** How the code is modelled

    A [u_char] is a [Z]; a buffer is a list of them and a pointer into it an
    index, [NULL] being [None]. Integers keep their width: [u16], [u32], [u64],
    [i32] and [i64] reduce a result where the C type does (signed overflow is
    taken as wrap-around, as on the targets nginx supports). A parser keeps the
    source's state names and fields; its result has the code, the new buffer
    position, the saved state and the request. Linked nodes are a finite map from
    addresses to records, changed by a state monad that follows the code statement
    by statement; theorems on them say that this store represents an inductive
    tree and what happens to all other memory. Allocation is a flag or a count of
    the allocations that succeed, so that error paths are reached. A C++ plugin,
    [rand], [getaddrinfo], the clock, event handlers and the body filters
    installed by other modules are arguments. Where C would read uninitialised
    memory or outside a buffer, divide by zero or dereference [NULL], the result
    is [None].

    Fuel appears in these places, and is always enough. [run_scan K] gives [K + 1]
    passes for each byte, [K] bounding how often a byte may be looked at again
    ([run_scan_total]). The loops of the body filters get a pass for each byte and
    two more; a filter that ran out would return [NGX_ERROR], which the theorems
    on them exclude. The loops over a tree, and the one that expires timers, get a
    pass for each node in memory and one more: a path is no longer than that, and
    the theorems give a result. [ngx_vslprintf] gets a pass for each byte of the
    format. [strtol] and the printing of digits recurse on the text or on the 64
    bits of the number.

    ** What is proved

    - Request line: feeding in pieces equals feeding at once (C1); a client's line
      is read back (C2); pointers are ordered and in bounds for every input (C3);
      only documented codes (C4).
    - URI: percent decoding and dot-segment removal against a reference normaliser
      (C5); the output buffer is never overrun (C6).
    - Bodies: decoding what the encoder wrote, in any fragmentation (C9);
      equivalence of the filter with a reader that goes line by line and chunk by
      chunk, 400 and 413 answers and pipelined bytes included (C10); bodies with a
      length (theorem [length_filter_body]); discarding a body skips what reading
      it would store (theorem [discard_skips_body]).
    - Round robin: every peer gets its weight in every cycle and never more than
      its share (C14); retries never repeat a peer (theorem [attempts_distinct]);
      no undefined behaviour and weights in range through choice and release
      (C15); the configured lists are consistent (theorem
      [init_round_robin_consistent]).
    - Red-black tree: insertion (C18) and deletion (C19) end, keep the tree
      red-black and ordered with the right nodes, and leave other memory alone.
    - Timers: they implement a map from events to deadlines, across the
      wrap-around of the clock (C20); expiring calls every due handler in order
      (C32) and ends (C33).
    - Dates: printing and reading are inverse (theorem [http_time_roundtrip]); the
      closed formulas are the calendar (theorem [gmtime_calendar]); the reader
      stays in its input (theorem [parse_time_in_bounds]).
    - Formatted output is truncated and never overruns (theorem
      [vslprintf_truncates]).
    - Addresses: IPv6 texts are read back (theorem [inet6_roundtrip]); printed
      socket addresses are parsed to themselves (theorem [sock_ntop_parse_url]);
      CIDR blocks match exactly their prefix (theorem [ptocidr_matches]).
    - Hash tables: building succeeds inside its arrays and a lookup is the map's
      (C30).
    - Queues: every operation on the links is the one on lists (C31).
    - Location search: the location of a request is the exact, redirected, longest
      or first regex one of the directives, at every level of nesting, and the
      search ends (C8); nested names begin with the outer one (theorem
      [nested_inside]); names of 256 bytes and more are misread (example
      [long_name_matches]).
    - Consistent hashing: the segment tree is a set of positions (C21); the circle
      of virtual nodes is built and searched correctly (theorem [chash_circle]); a
      request gets the owner of its hash or another usable peer whenever there is
      one, after any history (C22).
    - Unsafe URIs: what is accepted is safe, up to one exception (C7); the lookups
      of arguments (theorem [http_arg_correct]) and cookies (theorem
      [cookie_lookup]) are those of the parts they are made of.
    - Status lines: reading back (theorem [parse_rendered_status]) and resumption
      (theorem [status_line_resume]).
    - Ranges: the header is read to the ranges it denotes (C11); for one range
      exactly its bytes are sent, however the body is split (C12), for several the
      multipart body, with the announced length and without overrunning a buffer
      (C13).
    - Request limiter: a request does to the tree and queue of a zone what a leaky
      bucket does for each value (C23), and no sequence of requests exceeds the
      rate (C24).
    - Clients: the address behind trusted proxies, which others cannot change
      (C25), given to the connection and restored (theorem [realip_restores]); the
      first access rule that applies decides (C26), also about the forwarded
      address (theorem [access_of_forwarded]).
    - Host names: what is refused and what is left (theorem
      [validate_host_correct]).
    - Health checks: when a server is down (C16); one process probes at a time,
      with handlers that interleave at every access to the shared memory and its
      mutex (C17); the parser of status lines is that of the upstreams (theorem
      [check_status_line_same]); a process that cannot connect keeps the server
      (theorem [connect_failure_stuck]).
    - Radix trees: creation, insertion, deletion and search are those of a map
      from prefixes with the search for the longest one, and no node is lost
      (C27).
    - Geo variables: the most specific network counts, over any lines of a block
      (C28); a range gives its value to exactly its addresses (theorem
      [geo_range_correct]), and the deletion of a range touches no address outside
      it (theorem [geo_delete_outside]).
    - Memory pools: pieces are apart, nothing is freed twice, everything is given
      back (C29). A peer array that moves is kept (C40) while a client's request
      may read it (C34).
    - QK locations: a request goes to the upstream it names, unless it waits for
      its body while another request of the location names a different one (C37,
      example [waiting_request_rerouted]); settings are inherited from the
      innermost level that has them (theorem [merged_settings]), targets are not
      (theorem [inherited_target_fails]).
    - Manager process: its socket is closed at the end (theorem
      [socket_lifecycle]) and every connection is answered and closed (theorem
      [serve_answers]), once but for one error path (theorem
      [accept_closes_twice]).
    - Checksums: both table-driven CRC-32s are the polynomial division (theorem
      [crc32_correct]).
    - Headers: resumption (theorem [parse_header_line_resume]), bounds of the
      lower-case buffer (theorem [parse_header_line_in_bounds]), reading back a
      header with the hash lookups use (theorem [parse_rendered_header]).
    - Upstreams: consistency of the registry over all sequences of operations
      (C35); a request gets its node, also at its retries (C36).
    - Redis replies: when bulk and multi-bulk replies are taken as complete
      (theorem [bulk_reply_complete], theorem [multibulk_reply_decision]), and the
      same through the handler (C38); redirections (theorem [reinit_request_spec])
      and the forwarding of the body (theorem [filter_forwards_body]).
    - Subrequests: the handler sends the response and destroys the plugin's
      request at most once (C39).
    - Strings and codecs: round trips and sizes (theorem [base64_roundtrip],
      theorem [escape_unescape]); the lemmas of [NgxString] and [NgxCodec] cover
      numbers, sizes, times and UTF-8 too.

    Further lemmas show, on concrete inputs, behaviour that a reader would not
    expect: version numbers and chunk sizes that wrap, overflow tests that miss, a
    base64url text with a padding character, multi-bulk replies accepted without
    their last element, uninitialised locals in the balancer, the first plugin
    loaded several times, a bitmap of tried peers that is too small after a peer
    is added, a request sent to the upstream another one has named while its body
    was on the way, day 0 in a date, octets of addresses that wrap.

    ** What is not modelled

    The event loop, connections, signals and processes; the phases of the HTTP
    core and the upstream engine, but for the start of a QKPack request; the
    configuration parser and variables; the C++ files of the modules; mail, SSL
    and the other stock modules; the recycling of chain links
    ([ngx_chain_update_chains]); the contents of pool memory; threads; floating
    point arithmetic; Win32 branches.

    Planned next: wildcard hashes, the slab allocator and the set-up of the
    request limiter. *)

From Stdlib Require Export ZArith Lia List.
From Stdlib Require Import Strings.String Strings.Ascii Strings.Byte.
From stdpp Require Export base list sets numbers decidable tactics option.

Global Open Scope Z_scope.

(** ** Byte and string literals

    A [u_char] is a [Z] in [0, 256); a C string or an [ngx_str_t] payload is a
    [list Z].  Character constants of the source are written ["G"%ch]. *)

Declare Scope ngx_char_scope.
Delimit Scope ngx_char_scope with ch.

Definition char_of_bytes (l : list Byte.byte) : option Z :=
  match l with
  | [b] => Some (Z.of_N (Byte.to_N b))
  | _ => None
  end.

Definition char_to_bytes (_ : Z) : option (list Byte.byte) := None.

String Notation Z char_of_bytes char_to_bytes : ngx_char_scope.

(** A string constant of the source, without its terminating NUL. *)
Fixpoint bs (s : string) : list Z :=
  match s with
  | EmptyString => []
  | String a s' => Z.of_N (N_of_ascii a) :: bs s'
  end.
Export String.StringSyntax.
Arguments bs s%_string_scope.

Definition LF : Z := 10.
Definition CR : Z := 13.
Definition NUL : Z := 0.
Definition SP : Z := 32.

Definition is_byte (c : Z) : Prop := 0 <= c < 256.
Definition bytes (s : list Z) : Prop := Forall is_byte s.

Example char_lit : ("G"%ch, bs "GET") = (71, [71; 69; 84]).
Proof. reflexivity. Qed.

(** ** Return codes of [ngx_core.h] *)

Definition NGX_OK : Z := 0.
Definition NGX_ERROR : Z := -1.
Definition NGX_AGAIN : Z := -2.
Definition NGX_BUSY : Z := -3.
Definition NGX_DONE : Z := -4.
Definition NGX_DECLINED : Z := -5.
Definition NGX_ABORT : Z := -6.

(** ** Machine integers of the LP64 target

    [ngx_int_t], [off_t], [ssize_t] and [time_t] are signed 64-bit,
    [ngx_uint_t] and [size_t] unsigned 64-bit.  Signed overflow wraps, as the
    generated code does. *)

Definition wrap_u (w x : Z) : Z := x mod 2 ^ w.
Definition wrap_s (w x : Z) : Z := (x + 2 ^ (w - 1)) mod 2 ^ w - 2 ^ (w - 1).

Definition u8 (x : Z) : Z := wrap_u 8 x.
Definition u16 (x : Z) : Z := wrap_u 16 x.
Definition u32 (x : Z) : Z := wrap_u 32 x.
Definition u64 (x : Z) : Z := wrap_u 64 x.
Definition i32 (x : Z) : Z := wrap_s 32 x.
Definition i64 (x : Z) : Z := wrap_s 64 x.

Lemma wrap_u_small w x : 0 <= x < 2 ^ w -> wrap_u w x = x.
Proof. intros; unfold wrap_u; apply Z.mod_small; lia. Qed.

Lemma wrap_u_range w x : 0 <= w -> 0 <= wrap_u w x < 2 ^ w.
Proof. intros; unfold wrap_u; apply Z.mod_pos_bound, Z.pow_pos_nonneg; lia. Qed.

Lemma wrap_s_small w x :
  0 < w -> - 2 ^ (w - 1) <= x < 2 ^ (w - 1) -> wrap_s w x = x.
Proof.
  intros Hw Hx. unfold wrap_s.
  assert (2 ^ w = 2 * 2 ^ (w - 1)) as E.
  { rewrite <- Z.pow_succ_r by lia. f_equal. lia. }
  rewrite Z.mod_small; lia.
Qed.

Lemma wrap_s_range w x :
  0 < w -> - 2 ^ (w - 1) <= wrap_s w x < 2 ^ (w - 1).
Proof.
  intros Hw. unfold wrap_s.
  assert (2 ^ w = 2 * 2 ^ (w - 1)) as E.
  { rewrite <- Z.pow_succ_r by lia. f_equal. lia. }
  pose proof (Z.mod_pos_bound (x + 2 ^ (w - 1)) (2 ^ w)).
  assert (0 < 2 ^ (w - 1)) by (apply Z.pow_pos_nonneg; lia). lia.
Qed.

Lemma i64_small x : - 2 ^ 63 <= x < 2 ^ 63 -> i64 x = x.
Proof. intros; apply (wrap_s_small 64); simpl; lia. Qed.

Lemma i32_small x : - 2 ^ 31 <= x < 2 ^ 31 -> i32 x = x.
Proof. intros; apply (wrap_s_small 32); simpl; lia. Qed.

Lemma i64_range x : - 2 ^ 63 <= i64 x < 2 ^ 63.
Proof. apply (wrap_s_range 64); lia. Qed.

Lemma u64_small x : 0 <= x < 2 ^ 64 -> u64 x = x.
Proof. apply (wrap_u_small 64). Qed.

Lemma u64_range x : 0 <= u64 x < 2 ^ 64.
Proof. apply (wrap_u_range 64); lia. Qed.

Lemma wrap_u_mul_add w a b c :
  wrap_u w (wrap_u w a * b + c) = wrap_u w (a * b + c).
Proof.
  unfold wrap_u. rewrite Zplus_mod, Zmult_mod, Zmod_mod, <- Zmult_mod, <- Zplus_mod.
  reflexivity.
Qed.

Lemma u32_range x : 0 <= u32 x < 2 ^ 32.
Proof. apply (wrap_u_range 32); lia. Qed.

(** [i64] only depends on its argument modulo [2^64]. *)
Lemma i64_congr x y : x mod 2 ^ 64 = y mod 2 ^ 64 -> i64 x = i64 y.
Proof.
  intros H. unfold i64, wrap_s. f_equal.
  rewrite <- Zplus_mod_idemp_l, H, Zplus_mod_idemp_l. reflexivity.
Qed.

Lemma i64_mod x : i64 x mod 2 ^ 64 = x mod 2 ^ 64.
Proof.
  unfold i64, wrap_s. rewrite Zminus_mod_idemp_l. f_equal. lia.
Qed.

Lemma i64_add_l a b : i64 (i64 a + b) = i64 (a + b).
Proof. apply i64_congr. by rewrite Zplus_mod, i64_mod, <- Zplus_mod. Qed.

(** The hint base of the development: a machine integer in range is the number
    it stands for, and the ranges of the results. *)
Create HintDb ngx.
Create Rewrite HintDb ngx.
#[export] Hint Rewrite i64_small u64_small i32_small using lia : ngx.
#[export] Hint Resolve i64_range u64_range u32_range : ngx.

(** Remove the wrap-around of the innermost operations first. *)
Ltac unwrap :=
  repeat match goal with
  | |- context [i64 ?x] => rewrite (i64_small x) by lia
  | |- context [i32 ?x] => rewrite (i32_small x) by lia
  | |- context [u64 ?x] => rewrite (u64_small x) by lia
  end.

(** ** Record update

    [r <| f := v |>] is the assignment [r->f = v].  A record type is made
    updatable by an instance of [Eta] that rebuilds it field by field; the
    setter of a field is read off that term. *)

Class Eta (R : Type) := eta : R -> R.
Class Update {R T : Type} (f : R -> T) := update : (T -> T) -> R -> R.
Arguments update {R T} f {_} _ !_ /.

Ltac solve_update f :=
  match type of f with
  | ?R -> _ =>
      let inst := constr:(_ : Eta R) in
      let e := eval hnf in inst in
      let p := eval pattern f in e in
      lazymatch p with
      | ?g _ => exact (fun h => g (fun r => h (f r)))
      end
  end.

#[export] Hint Extern 0 (Update ?f) => solve_update f : typeclass_instances.

Declare Scope upd_scope.
Delimit Scope upd_scope with upd.
Notation "r <| f := v |>" := (update f (fun _ => v) r)
  (at level 1, left associativity, format "r  <| f  :=  v |>") : upd_scope.
Global Open Scope upd_scope.


(** ** Byte classes

    [tbl[ch >> 5] & (1 << (ch & 0x1f))], the test of a 256-bit table kept as
    eight 32-bit words. *)

Definition bitmap_test (tbl : list Z) (ch : Z) : bool :=
  negb (Z.land (nth (Z.to_nat (Z.shiftr ch 5)) tbl 0)
               (Z.shiftl 1 (Z.land ch 31)) =? 0).

Definition in_range (lo hi c : Z) : bool := (lo <=? c) && (c <=? hi).
Definition is_digit (c : Z) : bool := in_range "0"%ch "9"%ch c.

(** [c = (u_char) (ch | 0x20)] *)
Definition lower20 (ch : Z) : Z := Z.lor ch 32.
Definition is_alpha20 (ch : Z) : bool := in_range "a"%ch "z"%ch (lower20 ch).
Definition is_hex20 (ch : Z) : bool := in_range "a"%ch "f"%ch (lower20 ch).

(** A boolean fact about bytes is checked on the 256 of them. *)
Definition all_bytes : list Z := Z.of_nat <$> seq 0 256.

Lemma byte_forall (P : Z -> bool) :
  forallb P all_bytes = true -> forall c, is_byte c -> P c = true.
Proof.
  rewrite forallb_forall. intros H c [H0 H1]. apply H.
  apply list_elem_of_In, list_elem_of_fmap. exists (Z.to_nat c).
  split; [lia|]. apply elem_of_seq. lia.
Qed.

Lemma range_forall (P : Z -> bool) n :
  forallb P (Z.of_nat <$> seq 0 n) = true -> forall x, 0 <= x < Z.of_nat n -> P x = true.
Proof.
  rewrite forallb_forall. intros H x Hx. apply H, list_elem_of_In, list_elem_of_fmap.
  exists (Z.to_nat x). split; [lia|]. apply elem_of_seq. lia.
Qed.

Lemma range_eq `{EqDecision A} (f g : Z -> A) n :
  forallb (fun x => bool_decide (f x = g x)) (Z.of_nat <$> seq 0 (Z.to_nat n)) = true ->
  forall x, 0 <= x < n -> f x = g x.
Proof.
  intros H x Hx. pose proof (range_forall _ _ H x ltac:(lia)) as Hb.
  by apply bool_decide_eq_true_1 in Hb.
Qed.

(** ** Integers in memory *)

(** The bytes of an integer in memory, the least significant one first. *)
Fixpoint le_bytes (k : nat) (x : Z) : list Z :=
  match k with O => [] | S k' => Z.land x 255 :: le_bytes k' (Z.shiftr x 8) end.

Fixpoint le_value (l : list Z) : Z :=
  match l with [] => 0 | b :: l' => b + Z.shiftl (le_value l') 8 end.

Lemma le_value_range l : bytes l -> 0 <= le_value l < 2 ^ (8 * Z.of_nat (length l)).
Proof.
  induction 1 as [|a l Ha Hl IH]; [done|]. cbn [le_value length]. unfold is_byte in Ha.
  replace (8 * Z.of_nat (S (length l))) with (8 + 8 * Z.of_nat (length l)) by lia.
  rewrite Z.pow_add_r, Z.shiftl_mul_pow2 by lia. change (2 ^ 8) with 256. nia.
Qed.

Lemma le_bytes_value l : bytes l -> le_bytes (length l) (le_value l) = l.
Proof.
  induction 1 as [|a l Ha Hl IH]; [done|]. cbn [le_bytes le_value length].
  rewrite Z.shiftl_mul_pow2 by lia. f_equal.
  - change 255 with (Z.ones 8). rewrite Z.land_ones, Z.mod_add by lia. by apply Z.mod_small.
  - rewrite Z.shiftr_div_pow2, Z.div_add by lia. rewrite (Z.div_small a) by done. by rewrite Z.add_0_l.
Qed.

Lemma le_bytes_bytes k x : bytes (le_bytes k x).
Proof.
  revert x. induction k as [|k IH]; intros x; [constructor|]. constructor; [|apply IH].
  change 255 with (Z.ones 8). rewrite Z.land_ones by lia. apply Z.mod_pos_bound. lia.
Qed.

Lemma length_le_bytes k x : length (le_bytes k x) = k.
Proof. revert x. induction k as [|k IH]; intros x; cbn; [done|]. by rewrite IH. Qed.

Lemma le_value_bytes k x : 0 <= x < 2 ^ (8 * Z.of_nat k) -> le_value (le_bytes k x) = x.
Proof.
  revert x. induction k as [|k IH]; intros x Hx; [cbn in *; lia|]. cbn [le_bytes le_value].
  replace (8 * Z.of_nat (S k)) with (8 + 8 * Z.of_nat k) in Hx by lia. rewrite Z.pow_add_r in Hx by lia.
  change 255 with (Z.ones 8). rewrite Z.land_ones, Z.shiftr_div_pow2 by lia.
  rewrite IH; [|Z.to_euclidean_division_equations; nia].
  rewrite Z.shiftl_mul_pow2 by lia. change (2 ^ 8) with 256. Z.to_euclidean_division_equations; lia.
Qed.

(** The number a list of decimal digits denotes. *)
Definition dec_step (v c : Z) : Z := v * 10 + (c - "0"%ch).
Definition dec_val (l : list Z) : Z := fold_left dec_step l 0.
Definition digits (l : list Z) : Prop := Forall (fun c => is_digit c = true) l.

Lemma is_digit_iff c : is_digit c = true <-> 48 <= c <= 57.
Proof. unfold is_digit, in_range. rewrite andb_true_iff, !Z.leb_le. lia. Qed.

(** A pointer into the buffer is an offset; [None] is [NULL]. *)
Definition ptr : Type := option Z.
Definition ptr_add (p : ptr) (n : Z) : ptr := option_map (fun x => x + n) p.

(** [*p] for an offset inside the buffer. *)
Definition rd (buf : list Z) (p : Z) : option Z :=
  if p <? 0 then None else buf !! Z.to_nat p.

Lemma rd_of_nat buf p : rd buf (Z.of_nat p) = buf !! p.
Proof. unfold rd. rewrite Nat2Z.id. destruct (Z.ltb_spec (Z.of_nat p) 0); [lia|done]. Qed.

Lemma rd_app_l buf ext p : p < Z.of_nat (length buf) -> rd (buf ++ ext) p = rd buf p.
Proof.
  intros Hp. unfold rd. destruct (Z.ltb_spec p 0); [done|].
  apply lookup_app_l. lia.
Qed.

(** ** Byte-driven state machines

    The parsers of [ngx_http_parse.c] share one shape: a loop
    [for (p = b->pos; p < b->last; p++)] around a [switch (state)].  A pass of
    the body either breaks out of the switch ([Next]), does [p--] before the
    break so that the same byte is seen again ([Redo]), or leaves the loop
    through a [return] or a [goto] ([Stop] with a label). *)

Inductive action (S L : Type) : Type :=
| Next (s : S)
| Redo (s : S)
| Stop (l : L) (s : S).
Arguments Next {S L} s.
Arguments Redo {S L} s.
Arguments Stop {S L} l s.

(** How the loop ends: [p] reached [b->last], or a label was taken at [p]. *)
Inductive scanned (S L : Type) : Type :=
| Exhausted (p : nat) (s : S)
| Stopped (l : L) (p : nat) (s : S)
| NoFuel.
Arguments Exhausted {S L} p s.
Arguments Stopped {S L} l p s.
Arguments NoFuel {S L}.

Section Scan.
Context {S L : Type}.
Variable step : list Z -> nat -> Z -> S -> action S L.

Fixpoint scan (fuel : nat) (buf : list Z) (p : nat) (s : S) : scanned S L :=
  match fuel with
  | O => NoFuel
  | Datatypes.S fuel' =>
      match buf !! p with
      | None => Exhausted p s
      | Some c =>
          match step buf p c s with
          | Next s' => scan fuel' buf (Datatypes.S p) s'
          | Redo s' => scan fuel' buf p s'
          | Stop l s' => Stopped l p s'
          end
      end
  end.

(** [K + 1] passes for each byte left, and as many again. *)
Definition scan_fuel (K : nat) (buf : list Z) (p : nat) : nat :=
  (length buf - p) * Datatypes.S K + Datatypes.S K.

Definition run_scan (K : nat) (buf : list Z) (p : nat) (s : S) : scanned S L :=
  scan (scan_fuel K buf p) buf p s.

(** More fuel does not change a result. *)
Lemma scan_mono f f' buf p s :
  (f <= f')%nat -> scan f buf p s <> NoFuel -> scan f' buf p s = scan f buf p s.
Proof.
  revert f' p s; induction f as [|f IH]; intros [|f'] p s Hf Hn;
    simpl in *; try congruence; try lia.
  destruct (buf !! p); [|done].
  destruct (step _ _ _ _); auto with lia.
Qed.

(** Termination: if a repeated byte strictly lowers a rank bounded by [K],
    then [(K + 1)] passes per byte are enough. *)
Lemma scan_total (rank : S -> nat) (K : nat) :
  (forall buf p c s s', step buf p c s = Redo s' -> (rank s' < rank s)%nat) ->
  (forall s, (rank s <= K)%nat) ->
  forall f buf p s,
    ((length buf - p) * Datatypes.S K + rank s < f)%nat ->
    scan f buf p s <> NoFuel.
Proof.
  intros Hredo HK f. induction f as [|f IH]; intros buf p s Hf;
    [by apply Nat.nlt_0_r in Hf|]. simpl.
  destruct (buf !! p) as [c|] eqn:Hc; [|done].
  apply lookup_lt_Some in Hc.
  destruct (step buf p c s) as [s'|s'|l s'] eqn:Hst; [| |done]; apply IH.
  - specialize (HK s'). replace (length buf - p)%nat with
      (Datatypes.S (length buf - Datatypes.S p)) in Hf by lia.
    rewrite Nat.mul_succ_l in Hf. lia.
  - apply Hredo in Hst. lia.
Qed.

(** A loop invariant: kept by every pass, it holds where the loop ends. *)
Lemma scan_inv (P : nat -> S -> Prop) buf :
  (forall p c s s', buf !! p = Some c -> P p s ->
     (step buf p c s = Next s' -> P (Datatypes.S p) s') /\
     (step buf p c s = Redo s' -> P p s')) ->
  forall f p s, P p s ->
    match scan f buf p s with
    | Exhausted q s' => P q s' /\ (p <= q)%nat /\ buf !! q = None
    | Stopped l q s' => exists c s0, buf !! q = Some c /\ P q s0 /\
                          (p <= q)%nat /\ step buf q c s0 = Stop l s'
    | NoFuel => True
    end.
Proof.
  intros HP f. induction f as [|f IH]; intros p s Hs; simpl; [done|].
  destruct (buf !! p) as [c|] eqn:Hc; [|done].
  destruct (step buf p c s) as [s'|s'|l s'] eqn:Hst.
  - destruct (HP p c s s' Hc Hs) as [H1 _]. specialize (IH _ _ (H1 Hst)).
    destruct (scan f buf _ s'); [intuition lia| |done].
    destruct IH as (c' & sq & ? & ? & ? & ?). exists c', sq. intuition lia.
  - destruct (HP p c s s' Hc Hs) as [_ H2]. exact (IH _ _ (H2 Hst)).
  - exists c, s. auto.
Qed.

(** Resuming: when the body only looks at bytes the buffer already has, a
    run that ran out of input continues exactly where the run over the
    extended buffer is, and a run that stopped is not affected. *)
Section Resume.
Hypothesis step_local : forall buf ext p c s,
  buf !! p = Some c -> step (buf ++ ext) p c s = step buf p c s.

Lemma scan_app_stopped f buf ext p s l q s' :
  scan f buf p s = Stopped l q s' ->
  scan f (buf ++ ext) p s = Stopped l q s'.
Proof.
  revert p s. induction f as [|f IH]; intros p s; simpl; [done|].
  destruct (buf !! p) as [c|] eqn:Hc; [|done].
  rewrite (lookup_app_l_Some _ _ _ _ Hc), step_local by done.
  destruct (step buf p c s); auto.
Qed.

Lemma scan_app_exhausted f buf ext p s q s' :
  scan f buf p s = Exhausted q s' ->
  exists f', (f' <= f)%nat /\ scan f (buf ++ ext) p s = scan f' (buf ++ ext) q s'.
Proof.
  revert p s. induction f as [|f IH]; intros p s; simpl; [done|].
  destruct (buf !! p) as [c|] eqn:Hc.
  - rewrite (lookup_app_l_Some _ _ _ _ Hc), step_local by done.
    destruct (step buf p c s); try done; intros H;
      apply IH in H as (f' & ? & ->); exists f'; split; auto with lia.
  - intros [= <- <-]. exists (Datatypes.S f). split; [lia|]. reflexivity.
Qed.

(** The passes over [seg], which follows [pre] in the buffer, when none of
    them leaves the loop or repeats a byte. *)
Fixpoint run_next (pre seg : list Z) (s : S) : option S :=
  match seg with
  | [] => Some s
  | c :: seg' =>
      match step (pre ++ [c]) (length pre) c s with
      | Next s' => run_next (pre ++ [c]) seg' s'
      | _ => None
      end
  end.

Lemma run_next_app pre a b s :
  run_next pre (a ++ b) s = run_next pre a s ≫= run_next (pre ++ a) b.
Proof.
  revert pre s. induction a as [|c a IH]; intros pre s; simpl.
  - by rewrite app_nil_r.
  - destruct (step _ _ _ _); [|done..]. rewrite IH, <- app_assoc. done.
Qed.

Lemma step_pre pre c post s :
  step (pre ++ c :: post) (length pre) c s = step (pre ++ [c]) (length pre) c s.
Proof.
  replace (pre ++ c :: post) with ((pre ++ [c]) ++ post) by (by rewrite <- app_assoc).
  apply step_local. by rewrite lookup_app_r, Nat.sub_diag.
Qed.

Lemma scan_run_next f pre seg post s s' :
  run_next pre seg s = Some s' ->
  scan (length seg + f) (pre ++ seg ++ post) (length pre) s =
  scan f (pre ++ seg ++ post) (length (pre ++ seg)) s'.
Proof.
  revert pre s. induction seg as [|c seg IH]; intros pre s; simpl.
  - intros [= ->]. by rewrite app_nil_r.
  - rewrite lookup_app_r, Nat.sub_diag by done. simpl. rewrite (step_pre _ _ (seg ++ post)).
    destruct (step _ _ _ _); [|done..]. intros H. specialize (IH _ _ H).
    rewrite <- !app_assoc in IH. simpl in IH.
    rewrite <- IH. f_equal. rewrite length_app. simpl. lia.
Qed.

Lemma scan_stop f pre c post s l s' :
  step (pre ++ [c]) (length pre) c s = Stop l s' ->
  scan (Datatypes.S f) (pre ++ c :: post) (length pre) s = Stopped l (length pre) s'.
Proof.
  intros H. simpl. rewrite lookup_app_r, Nat.sub_diag by done. simpl.
  by rewrite (step_pre _ _ post), H.
Qed.

(** The whole loop, with enough fuel for [K] repeats of each byte. *)
Section Total.
Variables (rank : S -> nat) (K : nat).
Hypothesis redo_rank : forall buf p c s s',
  step buf p c s = Redo s' -> (rank s' < rank s)%nat.
Hypothesis rank_le : forall s, (rank s <= K)%nat.

Lemma run_scan_total buf p s : run_scan K buf p s <> NoFuel.
Proof.
  apply (scan_total rank K); [done..|]. unfold scan_fuel.
  specialize (rank_le s). lia.
Qed.

Lemma run_scan_fuel f buf p s :
  scan f buf p s <> NoFuel -> run_scan K buf p s = scan f buf p s.
Proof.
  intros H. pose proof (run_scan_total buf p s) as H'.
  unfold run_scan in *. destruct (Nat.le_ge_cases f (scan_fuel K buf p)).
  - by apply scan_mono.
  - symmetry. by apply scan_mono.
Qed.

Lemma run_scan_resume buf ext p s :
  match run_scan K buf p s with
  | Exhausted q s' => run_scan K (buf ++ ext) p s = run_scan K (buf ++ ext) q s'
  | Stopped l q s' => run_scan K (buf ++ ext) p s = Stopped l q s'
  | NoFuel => False
  end.
Proof.
  pose proof (run_scan_total buf p s) as Hn.
  set (F := Nat.max (scan_fuel K buf p) (scan_fuel K (buf ++ ext) p)).
  assert (scan F buf p s = run_scan K buf p s) as HF
    by (apply scan_mono; [lia|done]).
  assert (scan F (buf ++ ext) p s = run_scan K (buf ++ ext) p s) as HF'
    by (apply scan_mono; [lia|apply run_scan_total]).
  pose proof (run_scan_total (buf ++ ext) p s) as Hn'.
  destruct (run_scan K buf p s) as [q s'|l q s'|] eqn:E; [| |done].
  - destruct (scan_app_exhausted _ _ ext _ _ _ _ HF) as (f' & _ & H).
    rewrite <- HF', H. symmetry. apply run_scan_fuel. congruence.
  - rewrite <- HF'. by apply scan_app_stopped.
Qed.

(** A run over [seg] that stays in the loop, then whatever follows. *)
Lemma run_scan_run_next pre seg post s s' :
  run_next pre seg s = Some s' ->
  run_scan K (pre ++ seg ++ post) (length pre) s =
  run_scan K (pre ++ seg ++ post) (length (pre ++ seg)) s'.
Proof.
  intros H. pose proof (run_scan_total (pre ++ seg ++ post) (length (pre ++ seg)) s').
  erewrite (run_scan_fuel (length seg + scan_fuel K (pre ++ seg ++ post) (length (pre ++ seg)))).
  - by apply scan_run_next.
  - by rewrite (scan_run_next _ _ _ _ _ _ H).
Qed.

Lemma run_scan_stop pre c post s l s' :
  step (pre ++ [c]) (length pre) c s = Stop l s' ->
  run_scan K (pre ++ c :: post) (length pre) s = Stopped l (length pre) s'.
Proof.
  intros H. rewrite (run_scan_fuel 1); rewrite (scan_stop 0 _ _ _ _ _ _ H); done.
Qed.

(** A whole line: a part that stays in the loop, then the byte that ends it. *)
Lemma run_scan_line seg c post s s1 l s2 :
  run_next [] seg s = Some s1 ->
  step (seg ++ [c]) (length seg) c s1 = Stop l s2 ->
  run_scan K (seg ++ c :: post) 0 s = Stopped l (length seg) s2.
Proof.
  intros H1 H2.
  pose proof (run_scan_run_next [] seg (c :: post) s s1 H1) as H.
  simpl in H. rewrite H. by apply run_scan_stop.
Qed.
End Total.
End Resume.
End Scan.

(** ** Tactics *)

(** Open every conjunction and existential of the context. *)
Ltac elim_conj :=
  repeat match goal with
  | H : exists _, _ |- _ => destruct H
  | H : _ /\ _ |- _ => destruct H
  end.

(** Equality of two integer tests. *)
Ltac bool_lia :=
  apply eq_true_iff_eq; rewrite ?Z.ltb_lt, ?Z.leb_le, ?Z.eqb_eq, ?Z.gtb_lt; lia.

(** ** Sums *)

Definition zsum (l : list Z) : Z := foldr Z.add 0 l.
Arguments zsum : simpl never.

Lemma zsum_cons x l : zsum (x :: l) = x + zsum l.
Proof. done. Qed.

Lemma zsum_app a b : zsum (a ++ b) = zsum a + zsum b.
Proof. unfold zsum. induction a as [|x a IH]; cbn in *; lia. Qed.

Lemma zsum_perm a b : a ≡ₚ b -> zsum a = zsum b.
Proof. unfold zsum. induction 1; cbn in *; lia. Qed.

Lemma zsum_insert l i x y : l !! i = Some x -> zsum (<[i := y]> l) = zsum l - x + y.
Proof.
  revert i. induction l as [|z l IH]; intros [|i] H; cbn in H; simplify_eq.
  - change (<[0%nat := y]> (x :: l)) with (y :: l). rewrite !zsum_cons. lia.
  - change (<[S i := y]> (z :: l)) with (z :: <[i := y]> l).
    rewrite !zsum_cons, (IH _ H). lia.
Qed.

(** A sum that is positive has a positive term. *)
Lemma zsum_pos l m : 0 < zsum l -> Forall (fun x => x <= m) l -> 0 < m.
Proof.
  intros Hs H. destruct (Z.le_gt_cases m 0) as [Hm|]; [|lia]. exfalso.
  assert (zsum l <= 0); [|lia]. clear Hs.
  induction H as [|x l Hx H IH]; unfold zsum in *; cbn in *; lia.
Qed.

Lemma zsum_ge m l : Forall (Z.le m) l -> m * Z.of_nat (length l) <= zsum l.
Proof.
  induction 1 as [|x l Hx H IH]; [unfold zsum; cbn; lia|]. rewrite zsum_cons. cbn [length]. lia.
Qed.

(** A term, from the sum and a lower bound of the others. *)
Lemma zsum_term m l i x :
  m <= 0 -> Forall (Z.le m) l -> l !! i = Some x -> x <= zsum l - m * Z.of_nat (length l).
Proof.
  intros Hm H. revert i. induction H as [|y l Hy H IH]; intros [|i] Hi; cbn in Hi; simplify_eq;
    rewrite zsum_cons; cbn [length].
  - pose proof (zsum_ge m l H). lia.
  - specialize (IH i Hi). lia.
Qed.

Lemma zsum_zero l : Forall (Z.le 0) l -> zsum l = 0 -> Forall (eq 0) l.
Proof.
  induction 1 as [|y l Hy H IH]; [constructor|]. rewrite zsum_cons. intros Hs.
  pose proof (zsum_ge 0 l H). constructor; [lia|]. apply IH. lia.
Qed.
