(* ===== verification/NgxString.v ===== *)
(** * Numbers and comparisons of [src/src/core/ngx_string.c], units of
    [src/src/core/ngx_parse.c]

    The text-to-number conversions with the width of their C result, the
    number formatting of [ngx_sprintf], hexadecimal dumps, the case-insensitive
    comparisons, and the size, offset and time values of the configuration. *)

From S2P Require Import Prelude.

Module NgxString.

(** ** Text to number *)

(** The loop of [ngx_atoi] and its copies: [value = value * 10 + digit]
    on a signed 64-bit integer; [None] is the [return NGX_ERROR] on a byte that
    is not a digit. *)
Fixpoint atoi_loop (line : list Z) (value : Z) : option Z :=
  match line with
  | [] => Some value
  | c :: line' =>
      if (c <? "0"%ch) || (c >? "9"%ch) then None
      else atoi_loop line' (i64 (value * 10 + (c - "0"%ch)))
  end.

(** [if (value < 0) return NGX_ERROR; else return value;] *)
Definition non_negative (value : Z) : Z := if value <? 0 then NGX_ERROR else value.

Definition ngx_atoi (line : list Z) : Z :=
  match line with
  | [] => NGX_ERROR
  | _ => match atoi_loop line 0 with None => NGX_ERROR | Some v => non_negative v end
  end.

(** On LP64 [long long], [ssize_t], [off_t] and [time_t] all have 64 bits. *)
Definition ngx_atoll (line : list Z) : Z :=
  match line with
  | [] => NGX_ERROR
  | _ => match atoi_loop line 0 with None => NGX_ERROR | Some v => non_negative v end
  end.

Definition ngx_atosz (line : list Z) : Z :=
  match line with
  | [] => NGX_ERROR
  | _ => match atoi_loop line 0 with None => NGX_ERROR | Some v => non_negative v end
  end.

Definition ngx_atoof (line : list Z) : Z :=
  match line with
  | [] => NGX_ERROR
  | _ => match atoi_loop line 0 with None => NGX_ERROR | Some v => non_negative v end
  end.

Definition ngx_atotm (line : list Z) : Z :=
  match line with
  | [] => NGX_ERROR
  | _ => match atoi_loop line 0 with None => NGX_ERROR | Some v => non_negative v end
  end.

(** [ngx_atofp]: [point] counts the fraction digits still wanted. *)
Fixpoint atofp_loop (line : list Z) (value : Z) (point : nat) (dot : bool)
    : option (Z * nat) :=
  match line with
  | [] => Some (value, point)
  | c :: line' =>
      if (point =? 0)%nat then None
      else if c =? "."%ch then
        if dot then None else atofp_loop line' value point true
      else if (c <? "0"%ch) || (c >? "9"%ch) then None
      else atofp_loop line' (i64 (value * 10 + (c - "0"%ch)))
             (if dot then point - 1 else point)%nat dot
  end.

(** [while (point--) value = value * 10;] *)
Fixpoint scale_up (point : nat) (value : Z) : Z :=
  match point with O => value | S n => scale_up n (i64 (value * 10)) end.

Definition ngx_atofp (line : list Z) (point : nat) : Z :=
  match line with
  | [] => NGX_ERROR
  | _ => match atofp_loop line 0 point false with
         | None => NGX_ERROR
         | Some (v, rest) => non_negative (scale_up rest v)
         end
  end.

(** The value of a hexadecimal digit, the two tests of [ngx_hextoi] and of the
    parsers. *)
Definition hex_digit (ch : Z) : option Z :=
  if is_digit ch then Some (ch - "0"%ch)
  else if is_hex20 ch then Some (lower20 ch - "a"%ch + 10)
  else None.

Fixpoint hextoi_loop (line : list Z) (value : Z) : option Z :=
  match line with
  | [] => Some value
  | ch :: line' =>
      match hex_digit ch with
      | Some d => hextoi_loop line' (i64 (value * 16 + d))
      | None => None
      end
  end.

Definition ngx_hextoi (line : list Z) : Z :=
  match line with
  | [] => NGX_ERROR
  | _ => match hextoi_loop line 0 with None => NGX_ERROR | Some v => non_negative v end
  end.

(** ** Number to text *)

Definition hex_lower : list Z := bs "0123456789abcdef".
Definition hex_upper : list Z := bs "0123456789ABCDEF".

Definition hex_char (tbl : list Z) (d : Z) : Z := nth (Z.to_nat d) tbl 0.

Fixpoint ngx_hex_dump (src : list Z) : list Z :=
  match src with
  | [] => []
  | c :: src' => hex_char hex_lower (Z.shiftr c 4) ::
                 hex_char hex_lower (Z.land c 15) :: ngx_hex_dump src'
  end.

Definition NGX_INT64_LEN : nat := 20.

(** [do { *--p = ui % 10 + '0'; } while (ui /= 10);] writing backwards into
    [temp], whose [NGX_INT64_LEN] bytes are the fuel. *)
Fixpoint dec_digits (fuel : nat) (ui : Z) (acc : list Z) : list Z :=
  match fuel with
  | O => acc
  | S f => let acc := (ui mod 10 + "0"%ch) :: acc in
           if ui / 10 =? 0 then acc else dec_digits f (ui / 10) acc
  end.

(** [do { *--p = hex[ui64 & 0xf]; } while (ui64 >>= 4);] *)
Fixpoint hex_digits (fuel : nat) (tbl : list Z) (ui : Z) (acc : list Z) : list Z :=
  match fuel with
  | O => acc
  | S f => let acc := hex_char tbl (Z.land ui 15) :: acc in
           if Z.shiftr ui 4 =? 0 then acc else hex_digits f tbl (Z.shiftr ui 4) acc
  end.

Definition num_digits (hexadecimal ui64 : Z) : list Z :=
  if hexadecimal =? 0 then
    if ui64 <=? 0xffffffff then dec_digits NGX_INT64_LEN (u32 ui64) []
    else dec_digits NGX_INT64_LEN ui64 []
  else if hexadecimal =? 1 then hex_digits NGX_INT64_LEN hex_lower ui64 []
  else hex_digits NGX_INT64_LEN hex_upper ui64 [].

Arguments num_digits : simpl never.

(** The bytes written at [buf]; [room] is [last - buf]. *)
Definition ngx_sprintf_num (room : nat) (ui64 zero hexadecimal : Z) (width : nat)
    : list Z :=
  let ds := num_digits hexadecimal ui64 in
  let pad := Nat.min (width - length ds) room in
  repeat zero pad ++ take (room - pad) ds.

(** ** Comparisons

    A C string is the list of its bytes before the NUL: reading at its end
    gives 0. *)

(** [ngx_tolower(c)] *)
Definition ngx_tolower (c : Z) : Z :=
  if in_range "A"%ch "Z"%ch c then Z.lor c 32 else c.

Definition ngx_strlow (src : list Z) : list Z := ngx_tolower <$> src.

Fixpoint ngx_strncasecmp (s1 s2 : list Z) (n : nat) : Z :=
  match n with
  | O => 0
  | S n' =>
      let c1 := ngx_tolower (hd 0 s1) in
      let c2 := ngx_tolower (hd 0 s2) in
      if c1 =? c2 then
        if c1 =? 0 then 0 else ngx_strncasecmp (tail s1) (tail s2) n'
      else c1 - c2
  end.

(** [ngx_strcasecmp]: the loop ends at the NUL of [s1] at the latest. *)
Fixpoint ngx_strcasecmp (s1 s2 : list Z) : Z :=
  let c1 := ngx_tolower (hd 0 s1) in
  let c2 := ngx_tolower (hd 0 s2) in
  match s1 with
  | [] => if c1 =? c2 then 0 else c1 - c2
  | _ :: s1' =>
      if c1 =? c2 then if c1 =? 0 then 0 else ngx_strcasecmp s1' (tail s2)
      else c1 - c2
  end.

(** [ngx_memcmp] as the C library defines it: the first difference. *)
Fixpoint memcmp (s1 s2 : list Z) (n : nat) : Z :=
  match n, s1, s2 with
  | S n', c1 :: s1', c2 :: s2' => if c1 =? c2 then memcmp s1' s2' n' else c1 - c2
  | _, _, _ => 0
  end.

Definition ngx_memn2cmp (s1 s2 : list Z) : Z :=
  let n1 := length s1 in
  let n2 := length s2 in
  let n := if (n1 <=? n2)%nat then n1 else n2 in
  let z := if (n1 <=? n2)%nat then -1 else 1 in
  let m := memcmp s1 s2 n in
  if negb (m =? 0) || (n1 =? n2)%nat then m else z.

(** ** Sizes, offsets and times of the configuration *)

(** The last byte chooses the scale and is then not part of the number; the
    caller guarantees that the value is not empty. *)
Definition unit_scale (unit : Z) : option Z :=
  if (unit =? "K"%ch) || (unit =? "k"%ch) then Some 1024
  else if (unit =? "M"%ch) || (unit =? "m"%ch) then Some (1024 * 1024)
  else if (unit =? "G"%ch) || (unit =? "g"%ch) then Some (1024 * 1024 * 1024)
  else None.

Definition ngx_parse_size (line : list Z) : Z :=
  let '(num, scale) := match unit_scale (List.last line 0) with
                       | Some s => (removelast line, s)
                       | None => (line, 1)
                       end in
  let size := ngx_atosz num in
  if size =? NGX_ERROR then NGX_ERROR else i64 (size * scale).

Definition ngx_parse_offset (line : list Z) : Z :=
  let '(num, scale) := match unit_scale (List.last line 0) with
                       | Some s => (removelast line, s)
                       | None => (line, 1)
                       end in
  let offset := ngx_atoof num in
  if offset =? NGX_ERROR then NGX_ERROR else i64 (offset * scale).

Definition NGX_MAX_INT32_VALUE : Z := 0x7fffffff.

(** [enum step] of [ngx_parse_time] *)
Definition st_start : Z := 0.
Definition st_year : Z := 1.
Definition st_month : Z := 2.
Definition st_week : Z := 3.
Definition st_day : Z := 4.
Definition st_hour : Z := 5.
Definition st_min : Z := 6.
Definition st_sec : Z := 7.
Definition st_msec : Z := 8.
Definition st_last : Z := 9.

(** One [case] of the switch: the new step, the largest value and the scale,
    when the unit may follow the previous one. *)
Definition time_unit (ok : bool) (step scale : Z) : option (Z * Z * Z) :=
  if ok then Some (step, NGX_MAX_INT32_VALUE / scale, scale) else None.

(** [switch ( *p++ )]; [ms] says that the byte after an [m] is an [s];
    the configuration values end with a NUL, so at the end of the line it is not. *)
Definition time_switch (is_sec : bool) (step c : Z) (ms : bool) : option (Z * Z * Z) :=
  if c =? "y"%ch then time_unit (step <=? st_start) st_year (60 * 60 * 24 * 365)
  else if c =? "M"%ch then time_unit (step <? st_month) st_month (60 * 60 * 24 * 30)
  else if c =? "w"%ch then time_unit (step <? st_week) st_week (60 * 60 * 24 * 7)
  else if c =? "d"%ch then time_unit (step <? st_day) st_day (60 * 60 * 24)
  else if c =? "h"%ch then time_unit (step <? st_hour) st_hour (60 * 60)
  else if c =? "m"%ch then
    if ms then time_unit (negb is_sec && (step <? st_msec)) st_msec 1
    else time_unit (step <? st_min) st_min 60
  else if c =? "s"%ch then time_unit (step <? st_sec) st_sec 1
  else if c =? " "%ch then time_unit (step <? st_sec) st_last 1
  else None.

(** The code after the switch: the new total, or [NGX_ERROR]. *)
Definition time_add (is_sec : bool) (u : Z * Z * Z) (value total : Z) : option (Z * Z) :=
  let '(step, max, scale) := u in
  let '(max, scale) := if negb (step =? st_msec) && negb is_sec
                       then (max / 1000, scale * 1000) else (max, scale) in
  if u64 value >? max then None
  else
    let total := i64 (total + value * scale) in
    if u64 total >? NGX_MAX_INT32_VALUE then None else Some (step, total).

(** The loop over the line.  [skip] is set while [while (p < last && *p == ' ')]
    runs after a unit. *)
Fixpoint parse_time_loop (is_sec skip valid : bool) (step value total : Z)
    (line : list Z) : Z :=
  match line with
  | [] => if valid then i64 (total + value * (if is_sec then 1 else 1000)) else NGX_ERROR
  | c :: rest =>
      if skip && (c =? " "%ch) then
        parse_time_loop is_sec true valid step value total rest
      else if is_digit c then
        parse_time_loop is_sec false true step (i64 (value * 10 + (c - "0"%ch))) total rest
      else
        match rest with
        | d :: rest' =>
            let ms := (c =? "m"%ch) && (d =? "s"%ch) in
            match time_switch is_sec step c ms with
            | None => NGX_ERROR
            | Some u =>
                match time_add is_sec u value total with
                | None => NGX_ERROR
                | Some (step', total') =>
                    if ms then parse_time_loop is_sec true valid step' 0 total' rest'
                    else parse_time_loop is_sec true valid step' 0 total' rest
                end
            end
        | [] =>
            match time_switch is_sec step c false with
            | None => NGX_ERROR
            | Some u =>
                match time_add is_sec u value total with
                | None => NGX_ERROR
                | Some (step', total') =>
                    parse_time_loop is_sec true valid step' 0 total' rest
                end
            end
        end
  end.

Definition ngx_parse_time (line : list Z) (is_sec : bool) : Z :=
  parse_time_loop is_sec false false (if is_sec then st_start else st_month) 0 0 line.

Example parse_time_ex :
  (ngx_parse_time (bs "1d 2h 30s") true, ngx_parse_time (bs "1m 5ms") false,
   ngx_parse_time (bs "2h 1d") true, ngx_parse_time (bs "10") false)
  = (93630, 60005, NGX_ERROR, 10000).
Proof. vm_compute. reflexivity. Qed.

(** ** Text to number and back *)

Lemma atoi_digit c : is_digit c = true -> (c <? "0"%ch) || (c >? "9"%ch) = false.
Proof. rewrite is_digit_iff. lia. Qed.

Lemma i64_mul_add a b c : i64 (i64 a * b + c) = i64 (a * b + c).
Proof.
  apply i64_congr. rewrite Zplus_mod, Zmult_mod, i64_mod, <- Zmult_mod, <- Zplus_mod.
  reflexivity.
Qed.

(** The loop computes the number modulo [2^64]. *)
Lemma atoi_loop_digits line v :
  digits line -> atoi_loop line (i64 v) = Some (i64 (fold_left dec_step line v)).
Proof.
  revert v. induction line as [|c line IH]; intros v Hd; [done|].
  inversion Hd as [|? ? Hc Hd']; subst. simpl. rewrite atoi_digit by done.
  rewrite i64_mul_add. by apply IH.
Qed.

Lemma atoi_loop_not_digits line v :
  ~ digits line -> atoi_loop line v = None.
Proof.
  revert v. induction line as [|c line IH]; intros v Hd.
  { destruct Hd. constructor. }
  simpl. destruct (is_digit c) eqn:Hc.
  - rewrite atoi_digit by done. apply IH. intros H. apply Hd. by constructor.
  - unfold is_digit, in_range in Hc.
    destruct ((c <? 48) || (c >? 57)) eqn:E; [done|]. lia.
Qed.

Lemma dec_val_nonneg line v : digits line -> 0 <= v -> 0 <= fold_left dec_step line v.
Proof.
  revert v. induction line as [|c line IH]; intros v Hd Hv; [done|].
  inversion Hd as [|? ? Hc Hd']; subst. apply is_digit_iff in Hc.
  simpl. apply IH; [done|]. unfold dec_step. lia.
Qed.

#[export] Instance digits_dec line : Decision (digits line).
Proof. unfold digits. apply _. Defined.

(** What every call of [ngx_atoi] returns: an error for an empty or non-decimal
    text, and otherwise the number reduced to 64 bits, unless that is negative. *)
Lemma ngx_atoi_spec line :
  ngx_atoi line =
  if decide (line <> [] /\ digits line) then non_negative (i64 (dec_val line)) else NGX_ERROR.
Proof.
  unfold ngx_atoi. destruct line as [|c line]; [done|].
  case_decide as H.
  - change 0 with (i64 0) at 1. rewrite atoi_loop_digits by apply H. done.
  - rewrite atoi_loop_not_digits; [done|]. intros Hd. by apply H.
Qed.

(** [ngx_atoi] is exact up to [2^63 - 1]. *)
Lemma ngx_atoi_exact line :
  line <> [] -> digits line -> dec_val line < 2 ^ 63 -> ngx_atoi line = dec_val line.
Proof.
  intros Hne Hd Hlt. rewrite ngx_atoi_spec, decide_True by done.
  pose proof (dec_val_nonneg line 0 Hd (Z.le_refl 0)) as H0. fold (dec_val line) in H0.
  rewrite i64_small by lia. unfold non_negative. destruct (Z.ltb_spec (dec_val line) 0); lia.
Qed.

Lemma dec_val_snoc l c : dec_val (l ++ [c]) = dec_val l * 10 + (c - 48).
Proof. unfold dec_val. by rewrite fold_left_app. Qed.

Lemma dec_digits_acc fuel ui acc : dec_digits fuel ui acc = dec_digits fuel ui [] ++ acc.
Proof.
  revert ui acc. induction fuel as [|f IH]; intros ui acc; simpl; [done|].
  destruct (_ =? 0); [done|]. rewrite IH, (IH _ [_]), <- app_assoc. done.
Qed.

(** With a digit position for each factor of ten, the digits denote the number. *)
Lemma dec_digits_val fuel ui :
  0 <= ui < 10 ^ Z.of_nat fuel -> (0 < fuel)%nat ->
  digits (dec_digits fuel ui []) /\ dec_val (dec_digits fuel ui []) = ui /\
  dec_digits fuel ui [] <> [] /\ (length (dec_digits fuel ui []) <= fuel)%nat.
Proof.
  revert ui. induction fuel as [|f IH]; intros ui Hu Hf; [lia|]. simpl.
  assert (is_digit (ui mod 10 + 48) = true) as Hd
    by (apply is_digit_iff; pose proof (Z.mod_pos_bound ui 10); lia).
  pose proof (Z.div_mod ui 10 ltac:(lia)) as Hdm.
  destruct (Z.eqb_spec (ui / 10) 0) as [E|E].
  - split_and!; [by repeat constructor| |done|simpl; lia].
    unfold dec_val. simpl. unfold dec_step. lia.
  - rewrite dec_digits_acc.
    assert (0 <= ui / 10 < 10 ^ Z.of_nat f) as Hq.
    { split; [apply Z.div_pos; lia|]. apply Z.div_lt_upper_bound; [lia|].
      rewrite Nat2Z.inj_succ, Z.pow_succ_r in Hu by lia. lia. }
    assert (0 < f)%nat as Hf' by (destruct f; [simpl in Hq; lia|lia]).
    destruct (IH (ui / 10) Hq Hf') as (H1 & H2 & H3 & H4). split_and!.
    + apply Forall_app. split; [done|by repeat constructor].
    + rewrite dec_val_snoc, H2. lia.
    + by destruct (dec_digits f (ui / 10) []).
    + rewrite length_app. simpl. lia.
Qed.

Lemma num_digits_dec ui :
  0 <= ui < 2 ^ 64 ->
  digits (num_digits 0 ui) /\ dec_val (num_digits 0 ui) = ui /\
  num_digits 0 ui <> [] /\ (length (num_digits 0 ui) <= NGX_INT64_LEN)%nat.
Proof.
  intros Hu. unfold num_digits. change (0 =? 0) with true. cbv iota.
  destruct (Z.leb_spec ui 0xffffffff) as [Hs|Hs].
  - unfold u32. rewrite wrap_u_small by lia.
    apply dec_digits_val; [change (10 ^ Z.of_nat NGX_INT64_LEN) with (10 ^ 20); lia|].
    unfold NGX_INT64_LEN. lia.
  - apply dec_digits_val; [change (10 ^ Z.of_nat NGX_INT64_LEN) with (10 ^ 20); lia|].
    unfold NGX_INT64_LEN. lia.
Qed.

(** Without padding, and with room for the digits, exactly they are written. *)
Lemma sprintf_num_digits room ui64 zero hexadecimal :
  (length (num_digits hexadecimal ui64) <= room)%nat ->
  ngx_sprintf_num room ui64 zero hexadecimal 0 = num_digits hexadecimal ui64.
Proof.
  intros Hr. unfold ngx_sprintf_num. cbv zeta.
  replace (0 - length (num_digits hexadecimal ui64))%nat with 0%nat by lia.
  cbn [Nat.min repeat app]. rewrite Nat.sub_0_r. by apply take_ge.
Qed.

(** a number printed by [ngx_sprintf("%uL")] is read back by [ngx_atoi]
    whenever it fits a signed 64-bit integer, and a text [ngx_atoi] accepts is
    the number it denotes reduced to 64 bits: below [2^63] it is exact, above it
    the result is a wrapped value or an error. *)
Theorem sprintf_atoi_roundtrip n :
  0 <= n < 2 ^ 63 ->
  ngx_atoi (ngx_sprintf_num NGX_INT64_LEN n "0"%ch 0 0) = n /\
  forall line, ngx_atoi line =
    if decide (line <> [] /\ digits line)
    then let v := i64 (dec_val line) in if v <? 0 then NGX_ERROR else v
    else NGX_ERROR.
Proof.
  intros Hn. split; [|apply ngx_atoi_spec].
  destruct (num_digits_dec n) as (H1 & H2 & H3 & H4); [lia|].
  rewrite sprintf_num_digits by done.
  rewrite ngx_atoi_exact by (done || lia). done.
Qed.

Lemma sprintf_atoi_roundtrip_witness :
  ngx_atoi (ngx_sprintf_num NGX_INT64_LEN 9223372036854775807 "0"%ch 0 0)
    = 9223372036854775807 /\
  forall line, ngx_atoi line =
    if decide (line <> [] /\ digits line)
    then let v := i64 (dec_val line) in if v <? 0 then NGX_ERROR else v
    else NGX_ERROR.
Proof. apply (sprintf_atoi_roundtrip 9223372036854775807). lia. Defined.

(** The sign test alone does not catch every overflow: [2^64 + 1] is read as 1. *)
Example ngx_atoi_overflow : ngx_atoi (bs "18446744073709551617") = 1.
Proof. vm_compute. reflexivity. Qed.

(** ** Hexadecimal *)

Lemma hex_char_digit tbl d :
  tbl = hex_lower \/ tbl = hex_upper -> 0 <= d < 16 ->
  hex_digit (hex_char tbl d) = Some d.
Proof.
  intros Ht Hd.
  assert (forallb (fun d => bool_decide (hex_digit (hex_char hex_lower d) = Some d) &&
                            bool_decide (hex_digit (hex_char hex_upper d) = Some d))
            (Z.of_nat <$> seq 0 16) = true) as H by reflexivity.
  rewrite forallb_forall in H. specialize (H d).
  assert (In d (Z.of_nat <$> seq 0 16)) as Hin.
  { apply list_elem_of_In, list_elem_of_fmap. exists (Z.to_nat d).
    split; [lia|]. apply elem_of_seq. lia. }
  specialize (H Hin). apply andb_true_iff in H as [H1 H2].
  apply bool_decide_eq_true in H1, H2. destruct Ht as [-> | ->]; done.
Qed.

Lemma hextoi_loop_app l1 l2 v :
  hextoi_loop (l1 ++ l2) v = hextoi_loop l1 v ≫= hextoi_loop l2.
Proof.
  revert v. induction l1 as [|c l1 IH]; intros v; simpl; [done|].
  by destruct (hex_digit c).
Qed.

Lemma hex_digits_acc fuel tbl ui acc :
  hex_digits fuel tbl ui acc = hex_digits fuel tbl ui [] ++ acc.
Proof.
  revert ui acc. induction fuel as [|f IH]; intros ui acc; simpl; [done|].
  destruct (_ =? 0); [done|]. rewrite IH, (IH _ [_]), <- app_assoc. done.
Qed.

Lemma shiftr_4 ui : Z.shiftr ui 4 = ui / 16.
Proof. by rewrite Z.shiftr_div_pow2. Qed.

Lemma land_15 ui : Z.land ui 15 = ui mod 16.
Proof. change 15 with (Z.ones 4). by rewrite Z.land_ones. Qed.

Lemma hex_digits_val fuel tbl ui :
  tbl = hex_lower \/ tbl = hex_upper ->
  0 <= ui < 16 ^ Z.of_nat fuel -> ui < 2 ^ 63 -> (0 < fuel)%nat ->
  hextoi_loop (hex_digits fuel tbl ui []) 0 = Some ui /\ hex_digits fuel tbl ui [] <> [] /\
  (length (hex_digits fuel tbl ui []) <= fuel)%nat.
Proof.
  intros Ht. revert ui. induction fuel as [|f IH]; intros ui Hu Hlt Hf; [lia|]. simpl.
  rewrite shiftr_4, land_15.
  pose proof (Z.mod_pos_bound ui 16 ltac:(lia)) as Hm.
  pose proof (Z.div_mod ui 16 ltac:(lia)) as Hdm.
  destruct (Z.eqb_spec (ui / 16) 0) as [E|E].
  - simpl. rewrite hex_char_digit by done. simpl. rewrite i64_small by lia.
    split_and!; [f_equal; lia|done|lia].
  - rewrite hex_digits_acc, hextoi_loop_app.
    assert (0 <= ui / 16 < 16 ^ Z.of_nat f) as Hq.
    { split; [apply Z.div_pos; lia|]. apply Z.div_lt_upper_bound; [lia|].
      rewrite Nat2Z.inj_succ, Z.pow_succ_r in Hu by lia. lia. }
    assert (0 < f)%nat as Hf' by (destruct f; [simpl in Hq; lia|lia]).
    destruct (IH (ui / 16) Hq) as (H1 & H2 & H3); [lia|done|]. rewrite H1. simpl.
    rewrite hex_char_digit by done. rewrite i64_small by lia. split_and!.
    + f_equal. lia.
    + by destruct (hex_digits f tbl (ui / 16) []).
    + rewrite length_app. simpl. lia.
Qed.

(** a number formatted with [%xL] or [%XL] ([hexadecimal] 1 or 2) is what
    [ngx_hextoi] reads back, for every value an [ngx_int_t] can hold; the text
    takes at most [NGX_INT64_LEN] bytes. *)
Theorem sprintf_hextoi_roundtrip room ui zero hexadecimal :
  0 <= ui < 2 ^ 63 -> (NGX_INT64_LEN <= room)%nat -> hexadecimal = 1 \/ hexadecimal = 2 ->
  ngx_hextoi (ngx_sprintf_num room ui zero hexadecimal 0) = ui /\
  (length (ngx_sprintf_num room ui zero hexadecimal 0) <= NGX_INT64_LEN)%nat.
Proof.
  intros Hu Hroom Hh.
  assert (exists tbl, (tbl = hex_lower \/ tbl = hex_upper) /\
            num_digits hexadecimal ui = hex_digits NGX_INT64_LEN tbl ui []) as (tbl & Ht & E)
    by (destruct Hh as [-> | ->]; [exists hex_lower|exists hex_upper]; split;
        [by left|done|by right|done]).
  destruct (hex_digits_val NGX_INT64_LEN tbl ui Ht) as (H1 & H2 & H3);
    [unfold NGX_INT64_LEN; lia|lia|unfold NGX_INT64_LEN; lia|].
  rewrite <- E in *. rewrite sprintf_num_digits by lia. split; [|done].
  unfold ngx_hextoi. rewrite H1. destruct (num_digits hexadecimal ui); [done|].
  unfold non_negative. destruct (Z.ltb_spec ui 0); lia.
Qed.

Lemma sprintf_hextoi_roundtrip_witness :
  ngx_hextoi (ngx_sprintf_num 32 48879 0 2 0) = 48879.
Proof.
  refine (proj1 (sprintf_hextoi_roundtrip 32 48879 0 2 _ _ _)); [lia| |by right].
  unfold NGX_INT64_LEN; lia.
Defined.

(** ** Comparison without case *)

Lemma tolower_byte_nul c : is_byte c -> c <> 0 -> ngx_tolower c <> 0.
Proof.
  intros Hb Hc E.
  pose proof (byte_forall (fun c => (c =? 0) || negb (ngx_tolower c =? 0)) eq_refl c Hb) as H.
  cbv beta in H. rewrite E in H. lia.
Qed.

(** A C string: bytes, none of them NUL. *)
Definition c_string (s : list Z) : Prop := Forall (fun c => is_byte c /\ c <> 0) s.

(** [ngx_strcasecmp] returns 0 exactly on C strings that are equal once
    both are put in lower case by [ngx_strlow]. *)
Theorem strcasecmp_zero s1 s2 :
  c_string s1 -> c_string s2 ->
  ngx_strcasecmp s1 s2 = 0 <-> ngx_strlow s1 = ngx_strlow s2.
Proof.
  intros H1. revert s2. induction H1 as [|c1 s1 [Hb1 Hn1] H1 IH]; intros s2 H2;
    destruct H2 as [|c2 s2 [Hb2 Hn2] H2]; cbn -[ngx_tolower].
  - done.
  - pose proof (tolower_byte_nul c2 Hb2 Hn2). change (ngx_tolower 0) with 0.
    destruct (Z.eqb_spec 0 (ngx_tolower c2)); [lia|]. split; [lia|done].
  - pose proof (tolower_byte_nul c1 Hb1 Hn1). change (ngx_tolower 0) with 0.
    destruct (Z.eqb_spec (ngx_tolower c1) 0); [lia|]. split; [lia|done].
  - pose proof (tolower_byte_nul c1 Hb1 Hn1).
    destruct (Z.eqb_spec (ngx_tolower c1) (ngx_tolower c2)) as [E|E].
    + destruct (Z.eqb_spec (ngx_tolower c1) 0); [lia|]. rewrite (IH s2 H2).
      unfold ngx_strlow. split; [intros ->; by rewrite E | by intros [= _ ?]].
    + split; [lia|]. by intros [= ? _].
Qed.

Lemma strcasecmp_zero_witness :
  ngx_strcasecmp (bs "Set-Cookie") (bs "sET-cOOKIE") = 0.
Proof.
  apply (strcasecmp_zero (bs "Set-Cookie") (bs "sET-cOOKIE"));
    [repeat constructor; done..|reflexivity].
Defined.

(** ** Times of the configuration *)

(** The suffix of the unit of step [k] and its length in seconds (in
    milliseconds for [st_msec]). *)
Definition time_suffix (k : Z) : list Z :=
  nth (Z.to_nat k) [[]; bs "y"; bs "M"; bs "w"; bs "d"; bs "h"; bs "m"; bs "s"; bs "ms"] [].

Definition time_scale (k : Z) : Z :=
  nth (Z.to_nat k) [0; 31536000; 2592000; 604800; 86400; 3600; 60; 1; 1] 0.

(** A part of a time value: its digits, its unit and the spaces after it. *)
Definition time_part : Type := (list Z * Z * nat).

Definition render_part (t : time_part) : list Z :=
  let '(ds, k, n) := t in ds ++ time_suffix k ++ repeat SP n.

Definition render_time (ts : list time_part) : list Z := concat (render_part <$> ts).

Definition part_value (is_sec : bool) (t : time_part) : Z :=
  let '(ds, k, _) := t in
  dec_val ds * (time_scale k * (if is_sec || (k =? st_msec) then 1 else 1000)).

Definition time_value (is_sec : bool) (ts : list time_part) : Z :=
  foldr Z.add 0 (part_value is_sec <$> ts).

(** Units from large to small, milliseconds only where they are accepted. *)
Fixpoint parts_ok (is_sec : bool) (step : Z) (ts : list time_part) : Prop :=
  match ts with
  | [] => True
  | (ds, k, _) :: ts' =>
      ds <> [] /\ digits ds /\ step < k <= (if is_sec then st_sec else st_msec) /\
      parts_ok is_sec k ts'
  end.

Lemma parse_time_spaces is_sec valid step v t n rest :
  parse_time_loop is_sec true valid step v t (repeat SP n ++ rest) =
  parse_time_loop is_sec true valid step v t rest.
Proof. induction n as [|n IH]; [done|]. simpl. exact IH. Qed.

Lemma parse_time_digits is_sec skip valid step v t ds rest :
  digits ds -> ds <> [] ->
  parse_time_loop is_sec skip valid step (i64 v) t (ds ++ rest) =
  parse_time_loop is_sec false true step (i64 (fold_left dec_step ds v)) t rest.
Proof.
  revert skip valid v. induction ds as [|c ds IH]; intros skip valid v Hd Hne; [done|].
  apply Forall_cons_1 in Hd as [Hc Hd]. cbn [app parse_time_loop].
  assert (skip && (c =? 32) = false) as ->
    by (apply is_digit_iff in Hc; destruct skip; simpl; lia).
  rewrite Hc, i64_mul_add. destruct ds as [|c' ds]; [done|]. by apply IH.
Qed.

Lemma time_add_small is_sec step scale v t :
  0 <= v -> 0 <= t -> 0 < scale ->
  t + v * (scale * (if is_sec || (step =? st_msec) then 1 else 1000)) <= NGX_MAX_INT32_VALUE ->
  time_add is_sec (step, NGX_MAX_INT32_VALUE / scale, scale) v t =
  Some (step, t + v * (scale * (if is_sec || (step =? st_msec) then 1 else 1000))).
Proof.
  intros Hv Ht Hs Hle. unfold time_add.
  assert (forall m s, m = NGX_MAX_INT32_VALUE / s -> 0 < s ->
    t + v * s <= NGX_MAX_INT32_VALUE ->
    (if u64 v >? m then None
     else if u64 (i64 (t + v * s)) >? NGX_MAX_INT32_VALUE then None
          else Some (step, i64 (t + v * s))) = Some (step, t + v * s)) as H.
  { intros m s -> Hs' Hle'. unfold NGX_MAX_INT32_VALUE in *.
    assert (v <= 2147483647 / s) by (apply Z.div_le_lower_bound; lia).
    assert (0 <= v * s) by (apply Z.mul_nonneg_nonneg; lia).
    assert (v <= 2147483647) by nia.
    rewrite (i64_small (t + v * s)) by lia. rewrite !u64_small by lia.
    destruct (Z.gtb_spec v (2147483647 / s)); [lia|].
    destruct (Z.gtb_spec (t + v * s) 2147483647); [lia|done]. }
  destruct (step =? st_msec), is_sec; cbn [negb andb orb] in *;
    rewrite ?Z.mul_1_r in *; apply H; try lia.
  rewrite Z.div_div by lia. done.
Qed.

(** One pass of the loop at a unit, the byte after it read as [hd 0 r]. *)
Lemma parse_time_unit_step is_sec valid step v t c r :
  is_digit c = false ->
  parse_time_loop is_sec false valid step v t (c :: r) =
  let ms := (c =? "m"%ch) && (hd 0 r =? "s"%ch) in
  match time_switch is_sec step c ms with
  | None => NGX_ERROR
  | Some u =>
      match time_add is_sec u v t with
      | None => NGX_ERROR
      | Some (step', t') =>
          parse_time_loop is_sec true valid step' 0 t' (if ms then tail r else r)
      end
  end.
Proof.
  intros Hc. cbn [parse_time_loop andb]. rewrite Hc. destruct r as [|d r]; cbn [hd tail].
  - change (0 =? 115) with false. by rewrite andb_false_r.
  - destruct ((c =? 109) && (d =? 115)); destruct (time_switch _ _ _ _); try done;
      by destruct (time_add _ _ _ _) as [[??]|].
Qed.

Lemma time_switch_suffix (is_sec : bool) step k :
  0 <= step < k -> k <= (if is_sec then st_sec else st_msec) ->
  time_switch is_sec step (hd 0 (time_suffix k)) (k =? st_msec) =
    Some (k, NGX_MAX_INT32_VALUE / time_scale k, time_scale k) /\
  is_digit (hd 0 (time_suffix k)) = false /\ 0 < time_scale k /\
  (time_suffix k = [hd 0 (time_suffix k)] /\ k <> st_msec \/
   time_suffix k = bs "ms" /\ k = st_msec).
Proof.
  intros Hk Hle. unfold st_sec, st_msec in Hle.
  assert (k = 1 \/ k = 2 \/ k = 3 \/ k = 4 \/ k = 5 \/ k = 6 \/ k = 7 \/
          k = 8 /\ is_sec = false) as Hc by (destruct is_sec; lia).
  destruct_or! Hc; [subst k..|destruct Hc as [-> ->]];
    (split_and!; [|reflexivity|reflexivity|first [left; by split|right; by split]]);
    match goal with |- context [hd 0 ?l] =>
      let x := eval vm_compute in (hd 0 l) in change (hd 0 l) with x end;
    unfold time_switch, time_unit, st_start, st_month, st_week, st_day, st_hour, st_min,
      st_sec, st_msec; cbn -[Z.leb Z.ltb Z.div time_scale];
    rewrite ?(proj2 (Z.leb_le _ _)), ?(proj2 (Z.ltb_lt _ _)) by lia; reflexivity.
Qed.

(** The unit after the digits of a part, and the spaces that end it. *)
Lemma parse_time_unit (is_sec : bool) step v t k n rest :
  0 <= step < k -> k <= (if is_sec then st_sec else st_msec) ->
  0 <= v -> 0 <= t -> hd 0 (repeat SP n ++ rest) <> "s"%ch ->
  t + v * (time_scale k * (if is_sec || (k =? st_msec) then 1 else 1000))
    <= NGX_MAX_INT32_VALUE ->
  parse_time_loop is_sec false true step v t (time_suffix k ++ repeat SP n ++ rest) =
  parse_time_loop is_sec true true k 0
    (t + v * (time_scale k * (if is_sec || (k =? st_msec) then 1 else 1000))) rest.
Proof.
  intros Hk Hle Hv Ht Hhd Hmax.
  destruct (time_switch_suffix is_sec step k Hk Hle) as (Hsw & Hd & Hpos & Hsuf).
  pose proof (time_add_small is_sec k (time_scale k) v t Hv Ht Hpos Hmax) as Hadd.
  rewrite <- (parse_time_spaces _ _ _ _ _ n rest). set (r := repeat SP n ++ rest) in *.
  destruct Hsuf as [[E Hne]|[E ->]]; rewrite E in Hsw, Hd |- *; cbn [hd app bs] in *.
  - rewrite parse_time_unit_step by done. cbv zeta.
    destruct (Z.eqb_spec (hd 0 r) 115) as [|_]; [done|]. rewrite andb_false_r.
    rewrite (proj2 (Z.eqb_neq k st_msec) Hne) in *. by rewrite Hsw, Hadd.
  - rewrite parse_time_unit_step by done. cbv zeta. cbn [hd tail].
    change (_ && _) with (st_msec =? st_msec). by rewrite Hsw, Hadd.
Qed.

Lemma part_value_nonneg is_sec t step ts :
  parts_ok is_sec step (t :: ts) -> 0 <= step -> 0 <= part_value is_sec t.
Proof.
  destruct t as [[ds k] n]. simpl. intros (Hne & Hd & Hk & _) Hs.
  assert (0 <= dec_val ds) by (by apply dec_val_nonneg).
  destruct (time_switch_suffix is_sec step k) as (_ & _ & Hpos & _); [lia|lia|].
  destruct (is_sec || (k =? st_msec)); nia.
Qed.

Lemma time_value_cons is_sec (t : time_part) ts :
  time_value is_sec (t :: ts) = part_value is_sec t + time_value is_sec ts.
Proof. done. Qed.

Lemma time_value_nonneg is_sec step ts :
  parts_ok is_sec step ts -> 0 <= step -> 0 <= time_value is_sec ts.
Proof.
  revert step. induction ts as [|t ts IH]; intros step Hok Hs; [done|].
  pose proof (part_value_nonneg _ _ _ _ Hok Hs). destruct t as [[ds k] n].
  destruct Hok as (_ & _ & Hk & Hok). specialize (IH k Hok ltac:(lia)).
  rewrite time_value_cons. lia.
Qed.

(** What follows a unit is not an [s]. *)
Lemma render_time_hd is_sec step n ts :
  parts_ok is_sec step ts -> hd 0 (repeat SP n ++ render_time ts) <> "s"%ch.
Proof.
  destruct n; [|done]. destruct ts as [|[[ds k] m] ts]; [done|].
  intros (Hne & Hd & _). destruct ds as [|c ds]; [done|].
  apply Forall_cons_1 in Hd as [Hc _]. apply is_digit_iff in Hc. cbn. lia.
Qed.

Lemma parse_time_loop_render is_sec skip valid step t ts :
  parts_ok is_sec step ts -> 0 <= step -> 0 <= t -> ts <> [] \/ valid = true ->
  t + time_value is_sec ts <= NGX_MAX_INT32_VALUE ->
  parse_time_loop is_sec skip valid step 0 t (render_time ts) = t + time_value is_sec ts.
Proof.
  revert skip valid step t. induction ts as [|[[ds k] n] ts IH];
    intros skip valid step t Hok Hs Ht Hv Hle.
  - destruct Hv as [? | ->]; [done|]. unfold NGX_MAX_INT32_VALUE in Hle.
    cbn in Hle |- *. rewrite i64_small; lia.
  - pose proof (part_value_nonneg _ _ _ _ Hok Hs) as Hp.
    destruct Hok as (Hne & Hd & Hk & Hok).
    pose proof (time_value_nonneg is_sec k ts Hok ltac:(lia)) as Htv.
    rewrite time_value_cons in Hle |- *. unfold render_time. cbn [fmap list_fmap concat render_part].
    rewrite <- !app_assoc. change 0 with (i64 0) at 1.
    rewrite parse_time_digits by done. fold (dec_val ds). fold (render_time ts).
    assert (0 <= dec_val ds) as Hdv by (by apply dec_val_nonneg).
    cbn [part_value] in Hp, Hle |- *.
    set (s := time_scale k * _) in *.
    assert (1 <= s) as Hs1.
    { destruct (time_switch_suffix is_sec step k) as (_ & _ & Hpos & _); [lia|lia|].
      unfold s. destruct (_ || _); lia. }
    rewrite i64_small by (unfold NGX_MAX_INT32_VALUE in Hle; nia).
    rewrite parse_time_unit by (try lia; by eapply render_time_hd). fold s.
    rewrite IH by (auto; lia). lia.
Qed.

(** a time written as numbers with units from large to small, each
    followed by any number of spaces, is read by [ngx_parse_time] as the sum of
    its parts, in seconds or (with [is_sec] clear) in milliseconds, as long as
    the sum fits the 31 bits the function allows. *)
Theorem parse_time_rendered (is_sec : bool) ts :
  parts_ok is_sec (if is_sec then st_start else st_month) ts -> ts <> [] ->
  time_value is_sec ts <= NGX_MAX_INT32_VALUE ->
  ngx_parse_time (render_time ts) is_sec = time_value is_sec ts.
Proof.
  intros Hok Hne Hle. unfold ngx_parse_time.
  rewrite parse_time_loop_render; [lia|done|by destruct is_sec|done|by left|lia].
Qed.

Lemma parse_time_rendered_witness :
  ngx_parse_time (bs "1d  2h30m5ms") false = 95400005.
Proof.
  apply (parse_time_rendered false
           [(bs "1", st_day, 2%nat); (bs "2", st_hour, 0%nat);
            (bs "30", st_min, 0%nat); (bs "5", st_msec, 0%nat)]);
    [|done|done].
  cbn. unfold digits, st_day, st_hour, st_min, st_msec, st_month.
  split_and!; try done; repeat constructor.
Defined.

(** Neither the number without a unit at the end nor the scaled size is checked
    for overflow. *)
Example parse_time_unchecked : ngx_parse_time (bs "9999999999") true = 9999999999.
Proof. vm_compute. reflexivity. Qed.

(** a size or an offset of the configuration is its number times 1, 2^10,
    2^20 or 2^30 for the unit written after it, in either case, when the product
    fits 63 bits. *)
Theorem parse_size_scaled ds u scale :
  ds <> [] -> digits ds -> unit_scale u = Some scale -> dec_val ds * scale < 2 ^ 63 ->
  ngx_parse_size (ds ++ [u]) = dec_val ds * scale /\
  ngx_parse_offset (ds ++ [u]) = dec_val ds * scale /\
  ngx_parse_size ds = dec_val ds /\ ngx_parse_offset ds = dec_val ds.
Proof.
  intros Hne Hd Hu Hlt.
  assert (0 <= dec_val ds) as H0 by (by apply dec_val_nonneg).
  assert (1 <= scale) as Hs
    by (unfold unit_scale in Hu; repeat case_match; simplify_eq; lia).
  assert (dec_val ds < 2 ^ 63) as Hv by nia.
  assert (ngx_atosz ds = dec_val ds) as Ha by (by apply ngx_atoi_exact).
  assert (ngx_atoof ds = dec_val ds) as Hb by (by apply ngx_atoi_exact).
  assert (unit_scale (List.last ds 0) = None) as Hlast.
  { destruct (exists_last Hne) as (l & c & ->). rewrite last_last.
    apply Forall_app in Hd as [_ Hc]. apply Forall_cons_1 in Hc as [Hc _].
    apply is_digit_iff in Hc. unfold unit_scale.
    repeat case_match; try done; lia. }
  unfold ngx_parse_size, ngx_parse_offset.
  rewrite last_last, removelast_last, Hu, Hlast, Ha, Hb.
  unfold NGX_ERROR. destruct (Z.eqb_spec (dec_val ds) (-1)); [lia|].
  unwrap. lia.
Qed.

Lemma parse_size_scaled_witness :
  ngx_parse_size (bs "64k") = 65536 /\ ngx_parse_offset (bs "64k") = 65536 /\
  ngx_parse_size (bs "64") = 64 /\ ngx_parse_offset (bs "64") = 64.
Proof.
  apply (parse_size_scaled (bs "64") "k"%ch 1024); [done|repeat constructor|done|done].
Defined.

(** The multiplication by the scale is not checked: [2^54] kilobytes are 0. *)
Example parse_size_overflow : ngx_parse_size (bs "18014398509481984k") = 0.
Proof. vm_compute. reflexivity. Qed.

End NgxString.
