(* ===== verification/HttpRequest.v ===== *)
(** * The request structure used by the HTTP parsers

    The fields of [struct ngx_http_request_s] that [ngx_http_parse.c] reads or
    writes, and the byte tables the parsers share.  Pointers into the header
    buffer are offsets ([None] is [NULL]); [http_major] and [http_minor] are
    16-bit bit-fields, the [*_uri] flags are one bit. *)

From S2P Require Import Prelude.

(** ** Constants of [ngx_http_request.h] *)

Definition NGX_HTTP_UNKNOWN : Z := 0x0001.
Definition NGX_HTTP_GET : Z := 0x0002.
Definition NGX_HTTP_HEAD : Z := 0x0004.
Definition NGX_HTTP_POST : Z := 0x0008.
Definition NGX_HTTP_PUT : Z := 0x0010.
Definition NGX_HTTP_DELETE : Z := 0x0020.
Definition NGX_HTTP_MKCOL : Z := 0x0040.
Definition NGX_HTTP_COPY : Z := 0x0080.
Definition NGX_HTTP_MOVE : Z := 0x0100.
Definition NGX_HTTP_OPTIONS : Z := 0x0200.
Definition NGX_HTTP_PROPFIND : Z := 0x0400.
Definition NGX_HTTP_PROPPATCH : Z := 0x0800.
Definition NGX_HTTP_LOCK : Z := 0x1000.
Definition NGX_HTTP_UNLOCK : Z := 0x2000.
Definition NGX_HTTP_PATCH : Z := 0x4000.
Definition NGX_HTTP_TRACE : Z := 0x8000.

Definition NGX_HTTP_PARSE_HEADER_DONE : Z := 1.
Definition NGX_HTTP_PARSE_INVALID_METHOD : Z := 10.
Definition NGX_HTTP_PARSE_INVALID_REQUEST : Z := 11.
Definition NGX_HTTP_PARSE_INVALID_09_METHOD : Z := 12.
Definition NGX_HTTP_PARSE_INVALID_HEADER : Z := 13.

Definition NGX_HTTP_LC_HEADER_LEN : nat := 32.

(** The table [usual] of [ngx_http_parse.c] (non-Win32 branch): the bytes that
    never need attention inside a URI. *)
Definition usual : list Z :=
  [0xffffdbfe; 0x7fff37d6; 0xffffffff; 0xffffffff;
   0xffffffff; 0xffffffff; 0xffffffff; 0xffffffff].

Definition is_usual (ch : Z) : bool := bitmap_test usual ch.

(** ** The request line and URI fields *)

Record request_t : Type := mk_request {
  method : Z;
  http_version : Z;
  uri_start : ptr;
  uri_end : ptr;
  uri_ext : ptr;
  args_start : ptr;
  request_start : ptr;
  request_end : ptr;
  method_end : ptr;
  schema_start : ptr;
  schema_end : ptr;
  host_start : ptr;
  host_end : ptr;
  port_end : ptr;
  http_protocol_data : ptr;
  http_minor : Z;
  http_major : Z;
  complex_uri : bool;
  quoted_uri : bool;
  plus_in_uri : bool;
  space_in_uri : bool
}.

#[export] Instance eta_request : Eta request_t := fun r =>
  mk_request (method r) (http_version r) (uri_start r) (uri_end r) (uri_ext r)
    (args_start r) (request_start r) (request_end r) (method_end r)
    (schema_start r) (schema_end r) (host_start r) (host_end r) (port_end r)
    (http_protocol_data r) (http_minor r) (http_major r) (complex_uri r)
    (quoted_uri r) (plus_in_uri r) (space_in_uri r).

(** [ngx_pcalloc] of the request, with [r->method = NGX_HTTP_UNKNOWN] and
    [r->http_version = NGX_HTTP_VERSION_10] set by [ngx_http_create_request]. *)
Definition request_init : request_t :=
  mk_request NGX_HTTP_UNKNOWN 1000 None None None None None None None None None
    None None None None 0 0 false false false false.

(** The bytes between two pointers of the buffer. *)
Definition slice (buf : list Z) (a b : ptr) : list Z :=
  match a, b with
  | Some x, Some y => take (Z.to_nat (y - x)) (drop (Z.to_nat x) buf)
  | _, _ => []
  end.

Lemma slice_mid a b c x y :
  x = Z.of_nat (length a) -> y = x + Z.of_nat (length b) ->
  slice (a ++ b ++ c) (Some x) (Some y) = b.
Proof.
  intros -> ->. simpl. rewrite Nat2Z.id, drop_app_length.
  replace (Z.to_nat _) with (length b) by lia. apply take_app_length.
Qed.
