(* ===== verification/RequestLine.v ===== *)
(** * The HTTP request line parser

    [ngx_http_parse_request_line] of [src/src/http/ngx_http_parse.c]: a state
    machine over the bytes of the client header buffer that can be left when
    the buffer is exhausted ([NGX_AGAIN]) and entered again when more bytes
    have been received.  The switch is split into groups of consecutive states;
    [step] is the whole switch, [parse_request_line] the function with its
    epilogues. *)

From S2P Require Import Prelude HttpRequest.

Module RequestLine.

(** The local [enum state]. *)
Inductive sw : Type :=
| sw_start | sw_method | sw_spaces_before_uri | sw_schema | sw_schema_slash
| sw_schema_slash_slash | sw_host_start | sw_host | sw_host_end
| sw_host_ip_literal | sw_port | sw_host_http_09 | sw_after_slash_in_uri
| sw_check_uri | sw_check_uri_http_09 | sw_uri | sw_http_09 | sw_http_H
| sw_http_HT | sw_http_HTT | sw_http_HTTP | sw_first_major_digit
| sw_major_digit | sw_first_minor_digit | sw_minor_digit
| sw_spaces_after_digit | sw_almost_done.

#[export] Instance sw_eq_dec : EqDecision sw.
Proof. solve_decision. Defined.

(** Where the loop is left other than by [p == b->last]: [return rc], or
    [goto done]. *)
Inductive exit : Type := Ret (rc : Z) | Done.

Definition act : Type := action (sw * request_t) exit.

Definition invalid_request (st : sw) (r : request_t) : act :=
  Stop (Ret NGX_HTTP_PARSE_INVALID_REQUEST) (st, r).

(** [m[i]] for the method name that starts at offset [m]. *)
Definition m_is (buf : list Z) (m i c : Z) : bool :=
  match rd buf (m + i) with Some x => x =? c | None => false end.

(** [ngx_str3_cmp], [ngx_str4cmp], ...: the bytes at [m] are [s]. *)
Fixpoint m_cmp (buf : list Z) (m : Z) (s : list Z) : bool :=
  match s with
  | [] => true
  | c :: s' => m_is buf m 0 c && m_cmp buf (m + 1) s'
  end.

(** [switch (p - m)]: the method, or [None] when [r->method] is left alone. *)
Definition method_of (buf : list Z) (m n : Z) : option Z :=
  if n =? 3 then
    if m_cmp buf m (bs "GET ") then Some NGX_HTTP_GET
    else if m_cmp buf m (bs "PUT ") then Some NGX_HTTP_PUT else None
  else if n =? 4 then
    if m_is buf m 1 "O"%ch then
      if m_cmp buf m (bs "POST") then Some NGX_HTTP_POST
      else if m_cmp buf m (bs "COPY") then Some NGX_HTTP_COPY
      else if m_cmp buf m (bs "MOVE") then Some NGX_HTTP_MOVE
      else if m_cmp buf m (bs "LOCK") then Some NGX_HTTP_LOCK else None
    else if m_cmp buf m (bs "HEAD") then Some NGX_HTTP_HEAD else None
  else if n =? 5 then
    if m_cmp buf m (bs "MKCOL") then Some NGX_HTTP_MKCOL
    else if m_cmp buf m (bs "PATCH") then Some NGX_HTTP_PATCH
    else if m_cmp buf m (bs "TRACE") then Some NGX_HTTP_TRACE else None
  else if n =? 6 then
    if m_cmp buf m (bs "DELETE") then Some NGX_HTTP_DELETE
    else if m_cmp buf m (bs "UNLOCK") then Some NGX_HTTP_UNLOCK else None
  else if n =? 7 then
    if m_cmp buf m (bs "OPTIONS ") then Some NGX_HTTP_OPTIONS else None
  else if n =? 8 then
    if m_cmp buf m (bs "PROPFIND") then Some NGX_HTTP_PROPFIND else None
  else if n =? 9 then
    if m_cmp buf m (bs "PROPPATCH") then Some NGX_HTTP_PROPPATCH else None
  else None.

Definition method_char (ch : Z) : bool :=
  in_range "A"%ch "Z"%ch ch || (ch =? "_"%ch).

(** [case sw_start:] *)
Definition step_start (p ch : Z) (r : request_t) : act :=
  let r := r <| request_start := Some p |> in
  if (ch =? CR) || (ch =? LF) then Next (sw_start, r)
  else if negb (method_char ch) then
    Stop (Ret NGX_HTTP_PARSE_INVALID_METHOD) (sw_start, r)
  else Next (sw_method, r).

(** [case sw_method:] *)
Definition step_method (buf : list Z) (p ch : Z) (r : request_t) : act :=
  if ch =? " "%ch then
    let r := r <| method_end := Some (p - 1) |> in
    let r := match request_start r with
             | Some m =>
                 match method_of buf m (p - m) with
                 | Some v => r <| method := v |>
                 | None => r
                 end
             | None => r
             end in
    Next (sw_spaces_before_uri, r)
  else if negb (method_char ch) then
    Stop (Ret NGX_HTTP_PARSE_INVALID_METHOD) (sw_method, r)
  else Next (sw_method, r).

(** [case sw_spaces_before_uri:] to [case sw_schema_slash_slash:] *)
Definition step_schema (st : sw) (p ch : Z) (r : request_t) : act :=
  match st with
  | sw_spaces_before_uri =>
      if ch =? "/"%ch then
        Next (sw_after_slash_in_uri, r <| uri_start := Some p |>)
      else if is_alpha20 ch then
        Next (sw_schema, r <| schema_start := Some p |>)
      else if ch =? " "%ch then Next (st, r)
      else invalid_request st r
  | sw_schema =>
      if is_alpha20 ch then Next (st, r)
      else if ch =? ":"%ch then
        Next (sw_schema_slash, r <| schema_end := Some p |>)
      else invalid_request st r
  | sw_schema_slash =>
      if ch =? "/"%ch then Next (sw_schema_slash_slash, r)
      else invalid_request st r
  | _ (* sw_schema_slash_slash *) =>
      if ch =? "/"%ch then Next (sw_host_start, r)
      else invalid_request st r
  end.

(** [case sw_host_end:], also reached by fall through from [sw_host]. *)
Definition step_host_end (st : sw) (p ch : Z) (r : request_t) : act :=
  let r := r <| host_end := Some p |> in
  if ch =? ":"%ch then Next (sw_port, r)
  else if ch =? "/"%ch then
    Next (sw_after_slash_in_uri, r <| uri_start := Some p |>)
  else if ch =? " "%ch then
    Next (sw_host_http_09,
          r <| uri_start := ptr_add (schema_end r) 1 |>
            <| uri_end := ptr_add (schema_end r) 2 |>)
  else invalid_request st r.

(** [case sw_host:], also reached by fall through from [sw_host_start]. *)
Definition step_host (p ch : Z) (r : request_t) : act :=
  if is_alpha20 ch then Next (sw_host, r)
  else if is_digit ch || (ch =? "."%ch) || (ch =? "-"%ch) then Next (sw_host, r)
  else step_host_end sw_host p ch r.

(** [case sw_host_start:] *)
Definition step_host_start (p ch : Z) (r : request_t) : act :=
  let r := r <| host_start := Some p |> in
  if ch =? "["%ch then Next (sw_host_ip_literal, r) else step_host p ch r.

(** [case sw_host_ip_literal:] *)
Definition step_host_ip_literal (ch : Z) (r : request_t) : act :=
  if is_digit ch then Next (sw_host_ip_literal, r)
  else if is_alpha20 ch then Next (sw_host_ip_literal, r)
  else if ch =? ":"%ch then Next (sw_host_ip_literal, r)
  else if ch =? "]"%ch then Next (sw_host_end, r)
  else if bool_decide (ch ∈ bs "-._~") then Next (sw_host_ip_literal, r)
  else if bool_decide (ch ∈ bs "!$&'()*+,;=") then Next (sw_host_ip_literal, r)
  else invalid_request sw_host_ip_literal r.

(** [case sw_port:] and [case sw_host_http_09:] *)
Definition step_port (p ch : Z) (r : request_t) : act :=
  if is_digit ch then Next (sw_port, r)
  else if ch =? "/"%ch then
    Next (sw_after_slash_in_uri,
          r <| port_end := Some p |> <| uri_start := Some p |>)
  else if ch =? " "%ch then
    let r := r <| port_end := Some p |> in
    Next (sw_host_http_09,
          r <| uri_start := ptr_add (schema_end r) 1 |>
            <| uri_end := ptr_add (schema_end r) 2 |>)
  else invalid_request sw_port r.

Definition step_host_http_09 (p ch : Z) (r : request_t) : act :=
  if ch =? " "%ch then Next (sw_host_http_09, r)
  else if ch =? CR then Next (sw_almost_done, r <| http_minor := 9 |>)
  else if ch =? LF then Stop Done (sw_host_http_09, r <| http_minor := 9 |>)
  else if ch =? "H"%ch then
    Next (sw_http_H, r <| http_protocol_data := Some p |>)
  else invalid_request sw_host_http_09 r.

(** [case sw_after_slash_in_uri:] *)
Definition step_after_slash_in_uri (p ch : Z) (r : request_t) : act :=
  if is_usual ch then Next (sw_check_uri, r)
  else if ch =? " "%ch then
    Next (sw_check_uri_http_09, r <| uri_end := Some p |>)
  else if ch =? CR then
    Next (sw_almost_done, r <| uri_end := Some p |> <| http_minor := 9 |>)
  else if ch =? LF then
    Stop Done (sw_after_slash_in_uri,
               r <| uri_end := Some p |> <| http_minor := 9 |>)
  else if ch =? "."%ch then Next (sw_uri, r <| complex_uri := true |>)
  else if ch =? "%"%ch then Next (sw_uri, r <| quoted_uri := true |>)
  else if ch =? "/"%ch then Next (sw_uri, r <| complex_uri := true |>)
  else if ch =? "?"%ch then Next (sw_uri, r <| args_start := Some (p + 1) |>)
  else if ch =? "#"%ch then Next (sw_uri, r <| complex_uri := true |>)
  else if ch =? "+"%ch then
    Next (sw_after_slash_in_uri, r <| plus_in_uri := true |>)
  else if ch =? NUL then invalid_request sw_after_slash_in_uri r
  else Next (sw_check_uri, r).

(** [case sw_check_uri:] *)
Definition step_check_uri (p ch : Z) (r : request_t) : act :=
  if is_usual ch then Next (sw_check_uri, r)
  else if ch =? "/"%ch then
    Next (sw_after_slash_in_uri, r <| uri_ext := None |>)
  else if ch =? "."%ch then Next (sw_check_uri, r <| uri_ext := Some (p + 1) |>)
  else if ch =? " "%ch then
    Next (sw_check_uri_http_09, r <| uri_end := Some p |>)
  else if ch =? CR then
    Next (sw_almost_done, r <| uri_end := Some p |> <| http_minor := 9 |>)
  else if ch =? LF then
    Stop Done (sw_check_uri, r <| uri_end := Some p |> <| http_minor := 9 |>)
  else if ch =? "%"%ch then Next (sw_uri, r <| quoted_uri := true |>)
  else if ch =? "?"%ch then Next (sw_uri, r <| args_start := Some (p + 1) |>)
  else if ch =? "#"%ch then Next (sw_uri, r <| complex_uri := true |>)
  else if ch =? "+"%ch then Next (sw_check_uri, r <| plus_in_uri := true |>)
  else if ch =? NUL then invalid_request sw_check_uri r
  else Next (sw_check_uri, r).

(** [case sw_check_uri_http_09:] and [case sw_http_09:], which differ in the
    state a byte after the spaces sends the parser back to ([p--]). *)
Definition step_after_uri (self back : sw) (p ch : Z) (r : request_t) : act :=
  if ch =? " "%ch then Next (self, r)
  else if ch =? CR then Next (sw_almost_done, r <| http_minor := 9 |>)
  else if ch =? LF then Stop Done (self, r <| http_minor := 9 |>)
  else if ch =? "H"%ch then
    Next (sw_http_H, r <| http_protocol_data := Some p |>)
  else Redo (back, r <| space_in_uri := true |>).

Definition step_check_uri_http_09 (p ch : Z) (r : request_t) : act :=
  step_after_uri sw_check_uri_http_09 sw_check_uri p ch r.

Definition step_http_09 (p ch : Z) (r : request_t) : act :=
  step_after_uri sw_http_09 sw_uri p ch r.

(** [case sw_uri:] *)
Definition step_uri (p ch : Z) (r : request_t) : act :=
  if is_usual ch then Next (sw_uri, r)
  else if ch =? " "%ch then Next (sw_http_09, r <| uri_end := Some p |>)
  else if ch =? CR then
    Next (sw_almost_done, r <| uri_end := Some p |> <| http_minor := 9 |>)
  else if ch =? LF then
    Stop Done (sw_uri, r <| uri_end := Some p |> <| http_minor := 9 |>)
  else if ch =? "#"%ch then Next (sw_uri, r <| complex_uri := true |>)
  else if ch =? NUL then invalid_request sw_uri r
  else Next (sw_uri, r).

(** [case sw_http_H:] to [case sw_http_HTTP:] *)
Definition step_http_word (st : sw) (ch : Z) (r : request_t) : act :=
  match st with
  | sw_http_H =>
      if ch =? "T"%ch then Next (sw_http_HT, r) else invalid_request st r
  | sw_http_HT =>
      if ch =? "T"%ch then Next (sw_http_HTT, r) else invalid_request st r
  | sw_http_HTT =>
      if ch =? "P"%ch then Next (sw_http_HTTP, r) else invalid_request st r
  | _ (* sw_http_HTTP *) =>
      if ch =? "/"%ch then Next (sw_first_major_digit, r)
      else invalid_request st r
  end.

(** [case sw_first_major_digit:] to [case sw_spaces_after_digit:] *)
Definition step_version (st : sw) (ch : Z) (r : request_t) : act :=
  match st with
  | sw_first_major_digit =>
      if negb (in_range "1"%ch "9"%ch ch) then invalid_request st r
      else Next (sw_major_digit, r <| http_major := u16 (ch - "0"%ch) |>)
  | sw_major_digit =>
      if ch =? "."%ch then Next (sw_first_minor_digit, r)
      else if negb (is_digit ch) then invalid_request st r
      else Next (sw_major_digit,
                 r <| http_major := u16 (http_major r * 10 + ch - "0"%ch) |>)
  | sw_first_minor_digit =>
      if negb (is_digit ch) then invalid_request st r
      else Next (sw_minor_digit, r <| http_minor := u16 (ch - "0"%ch) |>)
  | sw_minor_digit =>
      if ch =? CR then Next (sw_almost_done, r)
      else if ch =? LF then Stop Done (st, r)
      else if ch =? " "%ch then Next (sw_spaces_after_digit, r)
      else if negb (is_digit ch) then invalid_request st r
      else Next (sw_minor_digit,
                 r <| http_minor := u16 (http_minor r * 10 + ch - "0"%ch) |>)
  | _ (* sw_spaces_after_digit *) =>
      if ch =? " "%ch then Next (st, r)
      else if ch =? CR then Next (sw_almost_done, r)
      else if ch =? LF then Stop Done (st, r)
      else invalid_request st r
  end.

(** [case sw_almost_done:] *)
Definition step_almost_done (p ch : Z) (r : request_t) : act :=
  let r := r <| request_end := Some (p - 1) |> in
  if ch =? LF then Stop Done (sw_almost_done, r)
  else invalid_request sw_almost_done r.

(** [switch (state)] *)
Definition step (buf : list Z) (pos : nat) (ch : Z) (s : sw * request_t) : act :=
  let '(st, r) := s in
  let p := Z.of_nat pos in
  match st with
  | sw_start => step_start p ch r
  | sw_method => step_method buf p ch r
  | sw_spaces_before_uri | sw_schema | sw_schema_slash
  | sw_schema_slash_slash => step_schema st p ch r
  | sw_host_start => step_host_start p ch r
  | sw_host => step_host p ch r
  | sw_host_end => step_host_end sw_host_end p ch r
  | sw_host_ip_literal => step_host_ip_literal ch r
  | sw_port => step_port p ch r
  | sw_host_http_09 => step_host_http_09 p ch r
  | sw_after_slash_in_uri => step_after_slash_in_uri p ch r
  | sw_check_uri => step_check_uri p ch r
  | sw_check_uri_http_09 => step_check_uri_http_09 p ch r
  | sw_uri => step_uri p ch r
  | sw_http_09 => step_http_09 p ch r
  | sw_http_H | sw_http_HT | sw_http_HTT | sw_http_HTTP => step_http_word st ch r
  | sw_first_major_digit | sw_major_digit | sw_first_minor_digit
  | sw_minor_digit | sw_spaces_after_digit => step_version st ch r
  | sw_almost_done => step_almost_done p ch r
  end.

(** What a call leaves behind: its return code, [b->pos], [r->state] and the
    fields of [r]. *)
Record outcome : Type := mk_outcome {
  rc : Z;
  b_pos : nat;
  r_state : sw;
  req : request_t
}.

(** The code after the [done:] label. *)
Definition finish (p : nat) (r : request_t) : outcome :=
  let r := match request_end r with
           | None => r <| request_end := Some (Z.of_nat p) |>
           | Some _ => r
           end in
  let r := r <| http_version := http_major r * 1000 + http_minor r |> in
  mk_outcome
    (if (http_version r =? 9) && negb (method r =? NGX_HTTP_GET)
     then NGX_HTTP_PARSE_INVALID_09_METHOD else NGX_OK)
    (S p) sw_start r.

(** The function: a byte is looked at twice at most, hence [run_scan _ 1]; the state is read from [r->state], which is written back on
    [NGX_AGAIN] and on success only, as [b->pos] is. *)
Definition parse_request_line (buf : list Z) (pos : nat) (st : sw)
    (r : request_t) : outcome :=
  match run_scan step 1 buf pos (st, r) with
  | Exhausted p (st', r') => mk_outcome NGX_AGAIN p st' r'
  | Stopped (Ret code) _ (_, r') => mk_outcome code pos st r'
  | Stopped Done p (_, r') => finish p r'
  | NoFuel => mk_outcome NGX_ABORT pos st r
  end.

Definition parse (buf : list Z) : outcome :=
  parse_request_line buf 0 sw_start request_init.

Definition crlf : list Z := [CR; LF].

Example parse_get :
  let o := parse (bs "GET /a.b?x=1 HTTP/1.1" ++ crlf) in
  (rc o, method (req o), uri_start (req o), uri_end (req o),
   args_start (req o), http_version (req o), b_pos o)
  = (NGX_OK, NGX_HTTP_GET, Some 4, Some 12, Some 9, 1001, 23%nat).
Proof. vm_compute. reflexivity. Qed.

(** ** Locality, termination, resumption *)

Lemma m_is_local buf ext m i c :
  m + i < Z.of_nat (length buf) -> m_is (buf ++ ext) m i c = m_is buf m i c.
Proof. intros H. unfold m_is. by rewrite rd_app_l. Qed.

Lemma m_cmp_local buf ext m s :
  m + Z.of_nat (length s) <= Z.of_nat (length buf) ->
  m_cmp (buf ++ ext) m s = m_cmp buf m s.
Proof.
  revert m. induction s as [|c s IH]; intros m H; [done|]. cbn -[m_is] in *.
  rewrite m_is_local, IH by lia. done.
Qed.

Lemma method_of_local buf ext m n :
  m + n < Z.of_nat (length buf) -> method_of (buf ++ ext) m n = method_of buf m n.
Proof.
  intros H. unfold method_of.
  repeat match goal with
  | |- context [n =? ?k] => destruct (Z.eqb_spec n k) as [->|_]
  end; rewrite ?m_is_local, ?m_cmp_local; simpl; try lia; done.
Qed.

Lemma step_local buf ext p c s :
  buf !! p = Some c -> step (buf ++ ext) p c s = step buf p c s.
Proof.
  intros Hc%lookup_lt_Some. destruct s as [[] r]; try done. simpl.
  unfold step_method. destruct (c =? _); [|done]. simpl.
  destruct (request_start r) as [m|]; [|done].
  rewrite method_of_local by lia. done.
Qed.

(** Only the two states that look for [HTTP/] after a space send a byte back. *)
Definition rank (s : sw * request_t) : nat :=
  match fst s with sw_check_uri_http_09 | sw_http_09 => 1 | _ => 0 end.

Lemma rank_le s : (rank s <= 1)%nat.
Proof. unfold rank. destruct (fst s); lia. Qed.

(** Case analysis of one pass: every state and every test on the byte. *)
Ltac step_cases :=
  unfold step, step_start, step_method, step_schema, step_host_start, step_host,
    step_host_end, step_host_ip_literal, step_port, step_host_http_09,
    step_after_slash_in_uri, step_check_uri, step_check_uri_http_09,
    step_http_09, step_after_uri, step_uri,
    step_http_word, step_version, step_almost_done, invalid_request in *;
  repeat case_match; simplify_eq/=.

Lemma redo_rank buf p c s s' :
  step buf p c s = Redo s' -> (rank s' < rank s)%nat.
Proof. destruct s as [st r]. intros H. step_cases; unfold rank; simpl; lia. Qed.

(** Every [return] inside the loop is one of the two error codes. *)
Lemma ret_code buf p c s code s' :
  step buf p c s = Stop (Ret code) s' ->
  code = NGX_HTTP_PARSE_INVALID_METHOD \/ code = NGX_HTTP_PARSE_INVALID_REQUEST.
Proof. destruct s as [st r]. intros H. step_cases; auto. Qed.

(** ** Pointer invariant

    What is known of [r] when the byte at offset [n] is looked at in state
    [st]: the request starts before [n], the method ends before the URI, a URI
    that is being read starts with a slash, a URI that has been read lies
    before [n]. *)

Definition ptr_in (a : ptr) (lo hi : Z) : Prop :=
  match a with Some x => lo < x <= hi | None => True end.

Definition after_method (r : request_t) (n : Z) : Prop :=
  exists m e, request_start r = Some m /\ method_end r = Some e /\
    0 <= m <= e /\ e + 1 < n.

Definition no_uri (r : request_t) : Prop :=
  args_start r = None /\ uri_ext r = None.

Definition schema_read (buf : list Z) (r : request_t) (k n : Z) : Prop :=
  exists e, method_end r = Some e /\ schema_end r = Some k /\ e < k /\ k + 1 < n /\
    rd buf (k + 1) = Some "/"%ch.

(** The URI starts at a slash after the method and ends in [lo <= v <= hi]. *)
Definition uri_from (buf : list Z) (r : request_t) (u v : Z) : Prop :=
  exists e, method_end r = Some e /\ uri_start r = Some u /\ e < u < v /\
    rd buf u = Some "/"%ch /\ ptr_in (args_start r) u v /\ ptr_in (uri_ext r) u v.

Definition uri_read (buf : list Z) (r : request_t) (hi : Z) : Prop :=
  exists u v, uri_end r = Some v /\ v <= hi /\ uri_from buf r u v.

Definition inv (buf : list Z) (p : nat) (s : sw * request_t) : Prop :=
  let '(st, r) := s in
  let n := Z.of_nat p in
  request_end r = None /\
  match st with
  | sw_start => no_uri r
  | sw_method => no_uri r /\ exists m, request_start r = Some m /\ 0 <= m < n
  | sw_spaces_before_uri => after_method r n /\ no_uri r
  | sw_schema =>
      after_method r n /\ no_uri r
  | sw_schema_slash =>
      after_method r n /\ no_uri r /\
      exists e, method_end r = Some e /\ schema_end r = Some (n - 1) /\ e < n - 1
  | sw_schema_slash_slash => 
      after_method r n /\ no_uri r /\ exists k, n = k + 2 /\ schema_read buf r k n
  | sw_host_start | sw_host | sw_host_end | sw_host_ip_literal | sw_port =>
      after_method r n /\ no_uri r /\ exists k, k + 2 < n /\ schema_read buf r k n
  | sw_after_slash_in_uri | sw_check_uri | sw_uri =>
      after_method r n /\ exists u, uri_from buf r u n
  | _ => after_method r n /\ uri_read buf r (n - 1)
  end.

Lemma rd_some buf p c : buf !! p = Some c -> rd buf (Z.of_nat p) = Some c.
Proof. by rewrite rd_of_nat. Qed.

Ltac inv_unfold :=
  unfold inv, after_method, no_uri, schema_read, uri_read, uri_from, ptr_in,
    ptr_add in *; simpl in *.

Ltac chars := repeat match goal with
  | H : (_ =? _) = true |- _ => apply Z.eqb_eq in H; subst
  | H : (_ =? _) = false |- _ => clear H
  | H : _ || _ = _ |- _ => clear H
  | H : negb _ = _ |- _ => clear H
  | H : is_usual _ = _ |- _ => clear H
  | H : is_alpha20 _ = _ |- _ => clear H
  | H : is_digit _ = _ |- _ => clear H
  | H : bool_decide _ = _ |- _ => clear H
  end.

Ltac solve_inv :=
  elim_conj; simplify_eq/=;
  repeat match goal with
  | H : schema_end ?r = Some _ |- context [schema_end ?r] => rewrite H; simpl
  end;
  repeat (case_match; simplify_eq/=);
  repeat first
    [ match goal with |- _ /\ _ => split end
    | match goal with |- exists _, _ => eexists end
    | eassumption | reflexivity ];
  try lia; try (f_equal; lia).

Lemma inv_step buf p c s s' :
  buf !! p = Some c -> inv buf p s ->
  (step buf p c s = Next s' -> inv buf (S p) s') /\
  (step buf p c s = Redo s' -> inv buf p s').
Proof.
  intros Hc Hi. apply rd_some in Hc.
  destruct s as [st r].
  split; intros Hs; step_cases; chars; inv_unfold; try done; solve_inv.
  rewrite <- Hc. f_equal. lia.
Qed.

Lemma inv_done buf p c s s' :
  buf !! p = Some c -> inv buf p s -> step buf p c s = Stop Done s' ->
  after_method (snd s') (Z.of_nat p) /\ uri_read buf (snd s') (Z.of_nat p) /\
  (request_end (snd s') = None \/
   request_end (snd s') = Some (Z.of_nat p - 1) /\
   uri_read buf (snd s') (Z.of_nat p - 1)).
Proof.
  intros Hc Hi Hs. apply rd_some in Hc.
  destruct s as [st r]. step_cases; chars; inv_unfold; try done.
  all: elim_conj; (split; [|split]); [| |first [left; done | right]].
  all: solve_inv.
Qed.

(** ** Results *)

(** The calls a caller sees as the same: [b->pos] and [r->state] only matter
    when the function has written them. *)
Definition agree (o1 o2 : outcome) : Prop :=
  rc o1 = rc o2 /\ req o1 = req o2 /\
  (rc o1 ∈ [NGX_OK; NGX_AGAIN; NGX_HTTP_PARSE_INVALID_09_METHOD] ->
   b_pos o1 = b_pos o2 /\ r_state o1 = r_state o2).

#[export] Instance agree_equivalence : Equivalence agree.
Proof.
  unfold agree. split.
  - intros o. auto.
  - intros o1 o2 (H1 & H2 & H3). rewrite <- H1, <- H2.
    intuition (symmetry; auto).
  - intros o1 o2 o3 (H1 & H2 & H3) (H1' & H2' & H3'). rewrite H1, H2.
    rewrite H1 in H3. intuition congruence.
Qed.

Lemma finish_rc p r : rc (finish p r) <> NGX_AGAIN.
Proof. unfold finish. simpl. case_match; done. Qed.

Lemma agree_ret code pos pos' st st' r :
  code = NGX_HTTP_PARSE_INVALID_METHOD \/ code = NGX_HTTP_PARSE_INVALID_REQUEST ->
  agree (mk_outcome code pos st r) (mk_outcome code pos' st' r).
Proof.
  intros Hc. unfold agree. simpl. split_and!; [done..|]. intros Hin. exfalso.
  rewrite !elem_of_cons, elem_of_nil in Hin. destruct Hc as [-> | ->];
    destruct Hin as [|[|[|]]]; done.
Qed.

Lemma scan_ret_code buf p s code q s' :
  run_scan step 1 buf p s = Stopped (Ret code) q s' ->
  code = NGX_HTTP_PARSE_INVALID_METHOD \/ code = NGX_HTTP_PARSE_INVALID_REQUEST.
Proof.
  intros H. pose proof (scan_inv step (fun _ _ => True) buf) as Hi.
  specialize (Hi (fun _ _ _ _ _ _ => conj (fun _ => I) (fun _ => I))
                 (scan_fuel 1 buf p) p s I).
  unfold run_scan in H. rewrite H in Hi.
  destruct Hi as (c & s0 & _ & _ & _ & Hst). exact (ret_code _ _ _ _ _ _ Hst).
Qed.

(** C1: feeding the parser in pieces gives what one call on the whole buffer
    gives.  If a call stops for lack of input, a second call on the extended
    buffer that starts at the saved position and state agrees with a single
    call on the extended buffer; if a call returns anything else, more bytes
    after it change nothing. *)
Theorem parse_request_line_resume buf ext pos st r :
  let o := parse_request_line buf pos st r in
  let whole := parse_request_line (buf ++ ext) pos st r in
  if rc o =? NGX_AGAIN
  then agree (parse_request_line (buf ++ ext) (b_pos o) (r_state o) (req o)) whole
  else whole = o.
Proof.
  cbv zeta. unfold parse_request_line at 1 5.
  pose proof (run_scan_resume step step_local rank 1 redo_rank rank_le
                buf ext pos (st, r)) as H.
  destruct (run_scan step 1 buf pos (st, r)) as [q [st' r']|[code|] q [st' r']|] eqn:E;
    [| | |done].
  - simpl. unfold parse_request_line. rewrite E, H. simpl.
    destruct (run_scan step 1 (buf ++ ext) q (st', r'))
      as [? []|[code|] ? []|] eqn:E'; try reflexivity.
    + apply agree_ret. eapply scan_ret_code, E'.
    + by apply (run_scan_total step rank 1 redo_rank rank_le) in E'.
  - unfold parse_request_line. rewrite E, H. simpl.
    destruct (scan_ret_code _ _ _ _ _ _ E) as [-> | ->]; done.
  - unfold parse_request_line. rewrite E, H.
    destruct (Z.eqb_spec (rc (finish q r')) NGX_AGAIN) as [Ha|]; [|done].
    by apply finish_rc in Ha.
Qed.

(** C4: the parser always returns, and only the documented codes: success, more
    input needed, or one of the three request errors. *)
Theorem parse_request_line_codes buf pos st r :
  rc (parse_request_line buf pos st r) ∈
    [NGX_OK; NGX_AGAIN; NGX_HTTP_PARSE_INVALID_METHOD;
     NGX_HTTP_PARSE_INVALID_REQUEST; NGX_HTTP_PARSE_INVALID_09_METHOD].
Proof.
  unfold parse_request_line.
  destruct (run_scan step 1 buf pos (st, r)) as [q []|[code|] q []|] eqn:E.
  - set_solver.
  - simpl. destruct (scan_ret_code _ _ _ _ _ _ E) as [-> | ->]; set_solver.
  - unfold finish. simpl. case_match; set_solver.
  - by apply (run_scan_total step rank 1 redo_rank rank_le) in E.
Qed.

(** C3: after a request line has been accepted (also when it is then refused as
    a 0.9 request that is not a GET), the pointers the caller subtracts are set,
    ordered and inside the consumed part of the buffer, and the URI is a
    non-empty slice that starts with a slash and contains the arguments and the
    extension. *)
Theorem parse_pointers_ordered buf :
  let o := parse buf in
  rc o = NGX_OK \/ rc o = NGX_HTTP_PARSE_INVALID_09_METHOD ->
  exists m e u v q,
    request_start (req o) = Some m /\ method_end (req o) = Some e /\
    uri_start (req o) = Some u /\ uri_end (req o) = Some v /\
    request_end (req o) = Some q /\
    0 <= m <= e /\ e < u < v /\ v <= q < Z.of_nat (b_pos o) /\
    (b_pos o <= length buf)%nat /\ rd buf u = Some "/"%ch /\
    ptr_in (args_start (req o)) u v /\ ptr_in (uri_ext (req o)) u v.
Proof.
  cbv zeta. unfold parse, parse_request_line.
  pose proof (scan_inv step (inv buf) buf (inv_step buf) (scan_fuel 1 buf 0) 0
                (sw_start, request_init) ltac:(done)) as Hi.
  fold (run_scan step 1 buf 0 (sw_start, request_init)) in Hi.
  destruct (run_scan step 1 buf 0 _) as [q []|[code|] q [st r]|] eqn:E.
  - intros [|]; done.
  - apply scan_ret_code in E. destruct E as [-> | ->]; intros [|]; done.
  - intros _. destruct Hi as (c & s0 & Hc & Hs & _ & Hd).
    destruct (inv_done _ _ _ _ _ Hc Hs Hd) as (Hm & Hu & Hq).
    apply lookup_lt_Some in Hc. unfold finish. inv_unfold.
    destruct Hq as [Hq | [Hq Hu']]; elim_conj; rewrite Hq; simplify_eq/=;
      do 5 eexists; split_and!; eauto with lia.
  - by apply (run_scan_total step rank 1 redo_rank rank_le) in E.
Qed.

(** ** What a well-formed request line parses to *)

(** The methods the switch recognises. *)
Definition known_methods : list (list Z * Z) :=
  [(bs "GET", NGX_HTTP_GET); (bs "PUT", NGX_HTTP_PUT); (bs "POST", NGX_HTTP_POST);
   (bs "COPY", NGX_HTTP_COPY); (bs "MOVE", NGX_HTTP_MOVE); (bs "LOCK", NGX_HTTP_LOCK);
   (bs "HEAD", NGX_HTTP_HEAD); (bs "MKCOL", NGX_HTTP_MKCOL);
   (bs "PATCH", NGX_HTTP_PATCH); (bs "TRACE", NGX_HTTP_TRACE);
   (bs "DELETE", NGX_HTTP_DELETE); (bs "UNLOCK", NGX_HTTP_UNLOCK);
   (bs "OPTIONS", NGX_HTTP_OPTIONS); (bs "PROPFIND", NGX_HTTP_PROPFIND);
   (bs "PROPPATCH", NGX_HTTP_PROPPATCH)].

Fixpoint assoc (k : list Z) (l : list (list Z * Z)) : option Z :=
  match l with
  | [] => None
  | (k', v) :: l' => if decide (k = k') then Some v else assoc k l'
  end.
Arguments assoc : simpl never.

Lemma m_is_at pre x y i c :
  x !! i = Some c ->
  forall k, m_is (pre ++ x ++ y) (Z.of_nat (length pre)) (Z.of_nat i) k = (c =? k).
Proof.
  intros H k. unfold m_is. rewrite <- Nat2Z.inj_add, rd_of_nat.
  rewrite lookup_app_r, lookup_app_l by (apply lookup_lt_Some in H; lia).
  replace (length pre + i - length pre)%nat with i by lia. by rewrite H.
Qed.

Lemma m_cmp_at pre x y s :
  length x = length s ->
  m_cmp (pre ++ x ++ y) (Z.of_nat (length pre)) s = bool_decide (x = s).
Proof.
  revert pre s. induction x as [|c x IH]; intros pre [|k s] Hl; simplify_eq/=.
  - reflexivity.
  - change 0 with (Z.of_nat 0). rewrite (m_is_at pre (c :: x) y 0 c) by done.
    replace (pre ++ c :: x ++ y) with ((pre ++ [c]) ++ x ++ y)
      by (by rewrite <- app_assoc).
    replace (Z.of_nat (length pre) + 1) with (Z.of_nat (length (pre ++ [c])))
      by (rewrite length_app; simpl; lia).
    rewrite IH by lia. destruct (Z.eqb_spec c k) as [->|]; simpl.
    + apply bool_decide_ext. naive_solver.
    + symmetry. apply bool_decide_eq_false. naive_solver.
Qed.

Lemma m_cmp_at_sp pre x s :
  length x = length s ->
  m_cmp (pre ++ x ++ [SP]) (Z.of_nat (length pre)) (s ++ [SP]) = bool_decide (x = s).
Proof.
  intros Hl.
  replace (pre ++ x ++ [SP]) with (pre ++ (x ++ [SP]) ++ []) by (by rewrite app_nil_r).
  rewrite m_cmp_at by (rewrite !length_app; simpl; lia).
  apply bool_decide_ext. split; [intros [? _]%app_inj_2; done|by intros ->].
Qed.

(** Decide which of the tested names [name] is; every other test then fails. *)
Ltac assoc_cases :=
  unfold assoc, known_methods;
  repeat match goal with
  | |- context [bool_decide (?n = ?s)] =>
      destruct (bool_decide_reflect (n = s)) as [E|?];
      [first [subst n | cbn in E; injection E as -> -> ->]; first [done | reflexivity]|]
  | |- context [decide (?n = ?s)] =>
      destruct (decide (n = s)) as [E|?];
      [first [subst n | cbn in E; injection E as -> -> ->]; first [done | congruence]|]
  end; reflexivity.

(** The switch on [p - m] is the table: the method is the one whose name is
    exactly the bytes up to the space. *)
Lemma method_of_known pre name :
  method_of (pre ++ name ++ [SP]) (Z.of_nat (length pre)) (Z.of_nat (length name))
  = assoc name known_methods.
Proof.
  unfold method_of.
  repeat match goal with
  | |- context [Z.of_nat (length name) =? ?k] =>
      destruct (Z.eqb_spec (Z.of_nat (length name)) k)
  end.
  all: try change (bs "GET ") with (bs "GET" ++ [SP]);
    try change (bs "PUT ") with (bs "PUT" ++ [SP]);
    try change (bs "OPTIONS ") with (bs "OPTIONS" ++ [SP]).
  all: rewrite ?m_cmp_at_sp, ?m_cmp_at by (simpl; lia).
  2: { destruct name as [|a [|b name']]; [done..|]. change 1 with (Z.of_nat 1).
       rewrite (m_is_at _ (a :: b :: name') _ 1 b) by done.
       destruct (Z.eqb_spec b "O"%ch); assoc_cases. }
  all: assoc_cases.
Qed.

(** The passes over one part of the line, part by part. *)

Lemma run_lead pre lead r :
  Forall (fun c => c = CR \/ c = LF) lead ->
  exists x, run_next step pre lead (sw_start, r) = Some (sw_start, r <| request_start := x |>).
Proof.
  revert pre r. induction lead as [|c lead IH]; intros pre r Hl; simpl.
  - exists (request_start r). by destruct r.
  - inversion Hl as [|? ? Hc Hl']; subst. unfold step_start.
    replace ((c =? CR) || (c =? LF)) with true by (destruct Hc as [-> | ->]; done).
    destruct (IH (pre ++ [c]) (r <| request_start := Some (Z.of_nat (length pre)) |>) Hl')
      as [x ->].
    by exists x.
Qed.

Lemma method_char_plain c :
  method_char c = true -> (c =? CR) || (c =? LF) = false /\ (c =? SP) = false.
Proof.
  unfold method_char, in_range, CR, LF, SP. intros H.
  destruct (Z.eqb_spec c 13) as [->|]; [done|].
  destruct (Z.eqb_spec c 10) as [->|]; [done|].
  destruct (Z.eqb_spec c 32) as [->|]; done.
Qed.

Lemma run_method pre name r :
  Forall (fun c => method_char c = true) name ->
  run_next step pre name (sw_method, r) = Some (sw_method, r).
Proof.
  revert pre. induction name as [|c name IH]; intros pre Hn; simpl; [done|].
  inversion Hn as [|? ? Hc Hn']; subst. unfold step_method.
  change " "%ch with SP. rewrite (proj2 (method_char_plain c Hc)), Hc. by apply IH.
Qed.

Lemma run_name pre name r :
  name <> [] -> Forall (fun c => method_char c = true) name ->
  run_next step pre name (sw_start, r) =
  Some (sw_method, r <| request_start := Some (Z.of_nat (length pre)) |>).
Proof.
  destruct name as [|c name]; intros Hne Hn; [done|].
  inversion Hn as [|? ? Hc Hn']; subst. simpl. unfold step_start.
  rewrite (proj1 (method_char_plain c Hc)), Hc. by apply run_method.
Qed.

(** The bytes of a segment behind its first, and the text behind the last dot *)
Definition seg_byte (c : Z) : Prop := is_usual c = true \/ c = "."%ch.

Fixpoint extension (seg : list Z) : option (list Z) :=
  match seg with
  | [] => None
  | c :: seg' => match extension seg' with Some e => Some e | None => if c =? "."%ch then Some seg' else None end
  end.

(** The pointer to the extension of the bytes [seg] behind [pre] *)
Definition ext_ptr (pre : nat) (seg : list Z) (e0 : ptr) : ptr :=
  match extension seg with Some e => Some (Z.of_nat (pre + length seg - length e)) | None => e0 end.

Lemma extension_length seg e : extension seg = Some e -> (length e < length seg)%nat.
Proof.
  revert e. induction seg as [|c seg IH]; intros e H; [done|]. cbn [extension] in H. cbn [length].
  destruct (extension seg) as [e'|]; [injection H as <-; specialize (IH e' eq_refl); lia|].
  destruct (c =? "."%ch); [injection H as <-; lia|done].
Qed.

Lemma run_seg_bytes pre seg r :
  Forall seg_byte seg ->
  run_next step pre seg (sw_check_uri, r) = Some (sw_check_uri, r <| uri_ext := ext_ptr (length pre) seg (uri_ext r) |>).
Proof.
  revert pre r. induction seg as [|c seg IH]; intros pre r Hs; [by destruct r|].
  apply Forall_cons_1 in Hs as [Hc Hs]. cbn [run_next step]. unfold step_check_uri.
  assert (ext_ptr (length pre) (c :: seg) (uri_ext r) =
    ext_ptr (length (pre ++ [c])) seg (if c =? "."%ch then Some (Z.of_nat (length pre) + 1) else uri_ext r)) as ->.
  { unfold ext_ptr. cbn [extension]. rewrite length_app. cbn [length]. destruct (extension seg) as [e|] eqn:Ee.
    - apply extension_length in Ee. f_equal. lia.
    - destruct (c =? "."%ch); [|done]. f_equal. lia. }
  destruct Hc as [Hc| ->].
  - rewrite Hc, IH by done. replace (c =? "."%ch) with false; [done|]. symmetry. apply Z.eqb_neq. by intros ->.
  - change (is_usual "."%ch) with false. change ("."%ch =? "/"%ch) with false. change ("."%ch =? "."%ch) with true.
    cbv iota. rewrite IH by done. done.
Qed.

(** A path is a list of segments, each after a slash; the last one may be empty, and no other begins with a dot. *)
Definition path (segs : list (list Z)) (last : list Z) : list Z := concat (cons "/"%ch <$> segs) ++ "/"%ch :: last.

Definition plain_seg (seg : list Z) : Prop :=
  exists c seg', seg = c :: seg' /\ is_usual c = true /\ Forall seg_byte seg'.

Lemma extension_usual c seg : is_usual c = true -> extension (c :: seg) = extension seg.
Proof.
  intros Hc. cbn [extension]. destruct (extension seg); [done|].
  replace (c =? "."%ch) with false; [done|]. symmetry. apply Z.eqb_neq. by intros ->.
Qed.

Lemma run_seg pre seg r :
  plain_seg seg ->
  run_next step pre seg (sw_after_slash_in_uri, r) = Some (sw_check_uri, r <| uri_ext := ext_ptr (length pre) seg (uri_ext r) |>).
Proof.
  intros (c & seg' & -> & Hc & Hs). cbn [run_next step]. unfold step_after_slash_in_uri.
  rewrite Hc, run_seg_bytes by done. unfold ext_ptr. rewrite extension_usual, length_app by done. cbn [length].
  destruct (extension seg') as [e|] eqn:Ee; [|done]. apply extension_length in Ee.
  replace (length pre + 1 + length seg' - length e)%nat with (length pre + S (length seg') - length e)%nat by lia. done.
Qed.

(** After a slash the extension is forgotten. *)
Lemma run_segs pre segs r :
  Forall plain_seg segs -> uri_ext r = None ->
  run_next step pre (concat ((fun s => s ++ ["/"%ch]) <$> segs)) (sw_after_slash_in_uri, r) = Some (sw_after_slash_in_uri, r).
Proof.
  intros Hs He. revert pre. induction Hs as [|seg segs Hseg Hs IH]; intros pre; [done|]. cbn [fmap list_fmap concat].
  rewrite <- app_assoc, run_next_app, run_seg by done. cbn [mbind option_bind app run_next step].
  unfold step_check_uri. change (is_usual "/"%ch) with false. change ("/"%ch =? "/"%ch) with true. cbv iota.
  replace (_ <| uri_ext := None |>) with r by (destruct r; cbn in *; by subst). apply IH.
Qed.

Lemma path_slashes segs last : path segs last = "/"%ch :: concat ((fun s => s ++ ["/"%ch]) <$> segs) ++ last.
Proof.
  unfold path. induction segs as [|seg segs IH]; [done|]. cbn [fmap list_fmap concat app]. f_equal.
  rewrite <- !app_assoc. cbn [app]. f_equal. exact IH.
Qed.

(** The last segment of a path *)
Definition last_seg (last : list Z) : Prop := last = [] \/ plain_seg last.

Lemma run_last pre last r :
  last_seg last -> uri_ext r = None ->
  exists st, (st = sw_after_slash_in_uri \/ st = sw_check_uri) /\
    run_next step pre last (sw_after_slash_in_uri, r) = Some (st, r <| uri_ext := ext_ptr (length pre) last None |>).
Proof.
  intros [-> | Hl] He.
  - exists sw_after_slash_in_uri. split; [by left|]. cbn. destruct r; cbn in *; by subst.
  - exists sw_check_uri. split; [by right|]. by rewrite run_seg, He.
Qed.

(** The bytes of a query string that do not need attention in [sw_uri]. *)
Definition query_byte (c : Z) : Prop :=
  c <> SP /\ c <> CR /\ c <> LF /\ c <> NUL /\ c <> "#"%ch.

Lemma run_query pre q r :
  Forall query_byte q -> run_next step pre q (sw_uri, r) = Some (sw_uri, r).
Proof.
  revert pre. induction q as [|c q IH]; intros pre Hq; simpl; [done|].
  inversion Hq as [|? ? (H1 & H2 & H3 & H4 & H5) Hq']; subst.
  unfold step_uri. destruct (is_usual c); [by apply IH|].
  change " "%ch with SP.
  repeat match goal with |- context [c =? ?k] => destruct (Z.eqb_spec c k); [done|] end.
  by apply IH.
Qed.

Lemma run_major pre ds v r :
  digits ds -> http_major r = u16 v ->
  run_next step pre ds (sw_major_digit, r) =
  Some (sw_major_digit, r <| http_major := u16 (fold_left dec_step ds v) |>).
Proof.
  revert pre v r. induction ds as [|c ds IH]; intros pre v r Hd Hv; simpl.
  - rewrite <- Hv. by destruct r.
  - inversion Hd as [|? ? Hc Hd']; subst. rewrite Hc.
    replace (c =? 46) with false by (apply is_digit_iff in Hc; lia). simpl.
    erewrite IH; [reflexivity|done|]. simpl.
    rewrite Hv. unfold u16, dec_step. rewrite <- (wrap_u_mul_add 16 v).
    f_equal. lia.
Qed.

Lemma run_minor pre ds v r :
  digits ds -> http_minor r = u16 v ->
  run_next step pre ds (sw_minor_digit, r) =
  Some (sw_minor_digit, r <| http_minor := u16 (fold_left dec_step ds v) |>).
Proof.
  revert pre v r. induction ds as [|c ds IH]; intros pre v r Hd Hv; simpl.
  - rewrite <- Hv. by destruct r.
  - inversion Hd as [|? ? Hc Hd']; subst. rewrite Hc.
    replace (c =? CR) with false by (apply is_digit_iff in Hc; unfold CR; lia).
    replace (c =? LF) with false by (apply is_digit_iff in Hc; unfold LF; lia).
    replace (c =? 32) with false by (apply is_digit_iff in Hc; lia). simpl.
    erewrite IH; [reflexivity|done|]. simpl.
    rewrite Hv. unfold u16, dec_step. rewrite <- (wrap_u_mul_add 16 v).
    f_equal. lia.
Qed.

Definition query_part (query : option (list Z)) : list Z :=
  match query with Some q => "?"%ch :: q | None => [] end.

Lemma extension_suffix seg e : extension seg = Some e -> exists k, seg = k ++ e.
Proof.
  revert e. induction seg as [|c seg IH]; intros e H; [done|]. cbn [extension] in H.
  destruct (extension seg) as [e'|].
  - injection H as <-. destruct (IH e' eq_refl) as [k ->]. by exists (c :: k).
  - destruct (c =? "."%ch); [injection H as <-; by exists [c]|done].
Qed.

(** A request line as a client writes it: blank lines, the method, the path and
    the query, the version. *)
Definition render (lead name : list Z) (segs : list (list Z)) (last : list Z)
    (query : option (list Z)) (major minor : list Z) : list Z :=
  lead ++ name ++ [SP] ++ path segs last ++ query_part query ++
  bs " HTTP/" ++ major ++ ["."%ch] ++ minor ++ crlf.

Section Rendered.
Context (lead name : list Z) (segs : list (list Z)) (last : list Z) (query : option (list Z)).
Context (major minor : list Z).
Hypothesis lead_ok : Forall (fun c => c = CR \/ c = LF) lead.
Hypothesis name_ok : name <> [] /\ Forall (fun c => method_char c = true) name.
Hypothesis segs_ok : Forall plain_seg segs /\ last_seg last.
Hypothesis query_ok : forall q, query = Some q -> Forall query_byte q.
Hypothesis major_ok : exists d ds, major = d :: ds /\ in_range 49 57 d = true /\ digits ds.
Hypothesis minor_ok : exists d ds, minor = d :: ds /\ digits (d :: ds).

Let start : Z := Z.of_nat (length lead).
Let ustart : Z := Z.of_nat (length lead + length name + 1).
Let pend : Z := ustart + Z.of_nat (length (path segs last)).
Let uend : Z := ustart + Z.of_nat (length (path segs last ++ query_part query)).

Let r_method : request_t :=
  request_init <| request_start := Some start |>
    <| method_end := Some (ustart - 2) |>
    <| method := default NGX_HTTP_UNKNOWN (assoc name known_methods) |>.
Let r_path : request_t :=
  r_method <| uri_start := Some ustart |>
    <| uri_ext := match extension last with Some e => Some (pend - Z.of_nat (length e)) | None => None end |>.
Let r_uri : request_t :=
  r_path <| args_start := match query with Some _ => Some (pend + 1) | None => None end |>.
Let r_version : request_t :=
  r_uri <| uri_end := Some uend |> <| http_protocol_data := Some (uend + 1) |>
    <| http_major := u16 (dec_val major) |> <| http_minor := u16 (dec_val minor) |>.

Lemma rendered_method :
  run_next step [] (lead ++ name ++ [SP]) (sw_start, request_init) =
  Some (sw_spaces_before_uri, r_method).
Proof.
  rewrite run_next_app. destruct (run_lead [] lead request_init lead_ok) as [x ->].
  simpl. rewrite run_next_app, run_name by apply name_ok. simpl.
  unfold step_method. simpl. rewrite length_app.
  replace (Z.of_nat (length lead + length name) - Z.of_nat (length lead))
    with (Z.of_nat (length name)) by lia.
  rewrite <- app_assoc, method_of_known. unfold r_method, ustart, start.
  replace (Z.of_nat (length lead + length name + 1) - 2)
    with (Z.of_nat (length lead + length name) - 1) by lia.
  destruct (assoc name known_methods); reflexivity.
Qed.

Lemma rendered_path pre :
  Z.of_nat (length pre) = ustart ->
  exists st, (st = sw_after_slash_in_uri \/ st = sw_check_uri) /\
    run_next step pre (path segs last) (sw_spaces_before_uri, r_method) = Some (st, r_path).
Proof.
  intros Hl. destruct segs_ok as [Hs Hlast].
  set (mid := concat ((fun s => s ++ ["/"%ch]) <$> segs)).
  assert (length (path segs last) = S (length mid + length last)) as Hlen
    by (rewrite path_slashes; cbn [length]; by rewrite length_app).
  destruct (run_last ((pre ++ ["/"%ch]) ++ mid) last (r_method <| uri_start := Some ustart |>) Hlast) as (st & Hst & E);
    [reflexivity|].
  exists st. split; [done|]. rewrite path_slashes. cbn [run_next step].
  change (run_next step (pre ++ ["/"%ch]) (mid ++ last) (sw_after_slash_in_uri, r_method <| uri_start := Some (Z.of_nat (length pre)) |>) = Some (st, r_path)).
  rewrite Hl, run_next_app. unfold mid. rewrite run_segs by done. fold mid. cbn [mbind option_bind]. rewrite E.
  unfold r_path, ext_ptr. destruct (extension last) as [e|] eqn:Ee; [|done].
  apply extension_length in Ee. rewrite !length_app. cbn [length].
  replace (Z.of_nat (length pre + 1 + length mid + length last - length e)) with (pend - Z.of_nat (length e))
    by (unfold pend; rewrite Hlen; lia). done.
Qed.

Lemma rendered_uri :
  exists st, (st = sw_after_slash_in_uri \/ st = sw_check_uri \/ st = sw_uri) /\
  run_next step (lead ++ name ++ [SP]) (path segs last ++ query_part query)
    (sw_spaces_before_uri, r_method) = Some (st, r_uri).
Proof.
  assert (Z.of_nat (length (lead ++ name ++ [SP])) = ustart) as Hl
    by (rewrite !length_app; unfold ustart; simpl; lia).
  destruct (rendered_path _ Hl) as (st & Hst & E). rewrite run_next_app, E. cbn [mbind option_bind].
  unfold r_uri. destruct query as [q|].
  - exists sw_uri. split; [auto|]. cbn [query_part run_next].
    destruct Hst as [-> | ->]; cbn [step]; unfold step_after_slash_in_uri, step_check_uri;
      change (is_usual "?"%ch) with false; simpl; rewrite length_app, Nat2Z.inj_add, Hl, run_query by auto; reflexivity.
  - exists st. split; [tauto|]. done.
Qed.

Lemma rendered_version pre st r :
  st = sw_after_slash_in_uri \/ st = sw_check_uri \/ st = sw_uri ->
  run_next step pre (bs " HTTP/" ++ major ++ ["."%ch] ++ minor ++ [CR]) (st, r) =
  Some (sw_almost_done,
        r <| uri_end := Some (Z.of_nat (length pre)) |>
          <| http_protocol_data := Some (Z.of_nat (length pre) + 1) |>
          <| http_major := u16 (dec_val major) |>
          <| http_minor := u16 (dec_val minor) |>).
Proof.
  intros Hst.
  destruct major_ok as (d & ds & -> & Hd & Hds).
  destruct minor_ok as (e & es & -> & [He Hes]%Forall_cons_1).
  assert (forall k, run_next step pre (bs " HTTP/" ++ k) (st, r) =
    run_next step (pre ++ bs " HTTP/") k (sw_first_major_digit,
      r <| uri_end := Some (Z.of_nat (length pre)) |>
        <| http_protocol_data := Some (Z.of_nat (length pre) + 1) |>)) as ->.
  { intros k. rewrite run_next_app. destruct Hst as [-> | [-> | ->]]; simpl;
      unfold step_check_uri_http_09, step_http_09, step_after_uri; simpl;
      rewrite length_app, Nat2Z.inj_add; reflexivity. }
  cbn [app run_next step step_version]. rewrite Hd. simpl.
  rewrite run_next_app, (run_major _ ds (d - 48)) by done. simpl.
  rewrite He. simpl.
  rewrite run_next_app, (run_minor _ es (e - 48)) by done. simpl. done.
Qed.

Let line : list Z := lead ++ name ++ [SP] ++ path segs last ++ query_part query ++
  bs " HTTP/" ++ major ++ ["."%ch] ++ minor ++ [CR].

Lemma rendered_run :
  run_next step [] line (sw_start, request_init) = Some (sw_almost_done, r_version).
Proof.
  replace line with
    ((lead ++ name ++ [SP]) ++ (path segs last ++ query_part query) ++
     bs " HTTP/" ++ major ++ ["."%ch] ++ minor ++ [CR]) by (unfold line; by rewrite <- !app_assoc).
  rewrite run_next_app, rendered_method. cbn [mbind option_bind].
  change ([] ++ lead ++ name ++ [SP]) with (lead ++ name ++ [SP]).
  destruct rendered_uri as (st & Hst & Hu).
  rewrite run_next_app, Hu. cbn [mbind option_bind].
  rewrite (rendered_version _ st r_uri Hst). unfold r_version.
  replace (Z.of_nat (length ((lead ++ name ++ [SP]) ++ path segs last ++ query_part query)))
    with uend; [done|].
  unfold uend, ustart. rewrite !length_app. simpl. lia.
Qed.

Let r_done : request_t := r_version <| request_end := Some (Z.of_nat (length line) - 1) |>.

Lemma rendered_outcome : parse (line ++ [LF]) = finish (length line) r_done.
Proof.
  unfold parse, parse_request_line. change 0%nat with (length (@nil Z)).
  pose proof rendered_run as Hr. change (line ++ [LF]) with ([] ++ line ++ [LF]).
  rewrite (run_scan_run_next step step_local rank 1 redo_rank rank_le _ _ _ _ _ Hr).
  change ([] ++ line ++ [LF]) with (line ++ LF :: []).
  change (length ([] ++ line)) with (length line).
  rewrite (run_scan_stop step step_local rank 1 redo_rank rank_le line LF []
             (sw_almost_done, r_version) Done (sw_almost_done, r_done)) by reflexivity.
  reflexivity.
Qed.

Lemma render_line : render lead name segs last query major minor = line ++ [LF].
Proof. unfold render, line, crlf. rewrite <- !app_assoc. done. Qed.

End Rendered.

Lemma parse_pointers_ordered_witness :
  let o := parse (bs "GET /x HTTP/1.0" ++ crlf) in
  exists m e u v q,
    request_start (req o) = Some m /\ method_end (req o) = Some e /\
    uri_start (req o) = Some u /\ uri_end (req o) = Some v /\
    request_end (req o) = Some q /\
    0 <= m <= e /\ e < u < v /\ v <= q < Z.of_nat (b_pos o) /\
    (b_pos o <= length (bs "GET /x HTTP/1.0" ++ crlf))%nat /\
    rd (bs "GET /x HTTP/1.0" ++ crlf) u = Some "/"%ch /\
    ptr_in (args_start (req o)) u v /\ ptr_in (uri_ext (req o)) u v.
Proof. apply (parse_pointers_ordered (bs "GET /x HTTP/1.0" ++ crlf)). left. reflexivity. Defined.


(** [GET / HTTP/1.1] *)
Example root_request :
  rc (parse (render [] (bs "GET") [] [] None (bs "1") (bs "1"))) = NGX_OK /\
  render [] (bs "GET") [] [] None (bs "1") (bs "1") = bs "GET / HTTP/1.1" ++ crlf.
Proof. vm_compute. split; reflexivity. Qed.

End RequestLine.
