(* ===== verification/HeaderLine.v ===== *)
(** * The HTTP header line parser

    [ngx_http_parse_header_line] of [src/src/http/ngx_http_parse.c] with the
    hash and the lower-cased name it accumulates, and the hash functions of
    [src/src/core/ngx_hash.c] it must agree with. *)

From S2P Require Import Prelude NgxString HttpRequest.

Module HeaderLine.
Import NgxString.

(** ** Hashing *)

(** [ngx_hash(key, c)] *)
Definition ngx_hash (key c : Z) : Z := u64 (key * 31 + c).

Definition ngx_hash_key (data : list Z) : Z := fold_left ngx_hash data 0.

Definition ngx_hash_key_lc (data : list Z) : Z :=
  fold_left (fun key c => ngx_hash key (ngx_tolower c)) data 0.

(** [ngx_hash_strlow]: the lower-cased copy and its hash. *)
Fixpoint hash_strlow_loop (src dst : list Z) (key : Z) : list Z * Z :=
  match src with
  | [] => (dst, key)
  | c :: src' =>
      let d := ngx_tolower c in hash_strlow_loop src' (dst ++ [d]) (ngx_hash key d)
  end.

Definition ngx_hash_strlow (src : list Z) : list Z * Z := hash_strlow_loop src [] 0.

(** ** The parser *)

(** [lowcase[ch]]: the lower-case letter, the digit or the dash itself, 0
    for every other byte. *)
Definition lowcase_table : list Z :=
  repeat 0 32 ++
  repeat 0 13 ++ ["-"%ch; 0; 0] ++ bs "0123456789" ++ repeat 0 6 ++
  [0] ++ bs "abcdefghijklmnopqrstuvwxyz" ++ repeat 0 5 ++
  [0] ++ bs "abcdefghijklmnopqrstuvwxyz" ++ repeat 0 5 ++
  repeat 0 128.

Definition lowcase (ch : Z) : Z := nth (Z.to_nat ch) lowcase_table 0.

Inductive sw : Type :=
| sw_start | sw_name | sw_space_before_value | sw_value | sw_space_after_value
| sw_ignore_line | sw_almost_done | sw_header_almost_done.

(** The fields of [r] the function uses; [hash] and [i] are the local copies of
    [r->header_hash] and [r->lowcase_index]. *)
Record header_t : Type := mk_header {
  hash : Z;
  lowcase_index : nat;
  lowcase_header : list Z;
  invalid_header : bool;
  header_name_start : ptr;
  header_name_end : ptr;
  header_start : ptr;
  header_end : ptr
}.

#[export] Instance eta_header : Eta header_t := fun r =>
  mk_header (hash r) (lowcase_index r) (lowcase_header r) (invalid_header r)
    (header_name_start r) (header_name_end r) (header_start r) (header_end r).

Definition header_init : header_t :=
  mk_header 0 0 (repeat 0 NGX_HTTP_LC_HEADER_LEN) false None None None None.

Inductive exit : Type := Invalid | Done | Header_done.

Definition act : Type := action (sw * header_t) exit.

(** [hash = ngx_hash(0, c); r->lowcase_header[0] = c; i = 1;] *)
Definition first_name_char (c : Z) (r : header_t) : header_t :=
  r <| hash := ngx_hash 0 c |>
    <| lowcase_header := <[0%nat := c]> (lowcase_header r) |>
    <| lowcase_index := 1%nat |>.

(** [hash = ngx_hash(hash, c); r->lowcase_header[i++] = c;
     i &= (NGX_HTTP_LC_HEADER_LEN - 1);] *)
Definition next_name_char (c : Z) (r : header_t) : header_t :=
  r <| hash := ngx_hash (hash r) c |>
    <| lowcase_header := <[lowcase_index r := c]> (lowcase_header r) |>
    <| lowcase_index := Nat.land (S (lowcase_index r)) (NGX_HTTP_LC_HEADER_LEN - 1) |>.

(** [case sw_start:] *)
Definition step_start (allow_underscores : bool) (p ch : Z) (r : header_t) : act :=
  let r := r <| header_name_start := Some p |> <| invalid_header := false |> in
  if ch =? CR then Next (sw_header_almost_done, r <| header_end := Some p |>)
  else if ch =? LF then Stop Header_done (sw_start, r <| header_end := Some p |>)
  else
    let c := lowcase ch in
    if negb (c =? 0) then Next (sw_name, first_name_char c r)
    else if ch =? "_"%ch then
      if allow_underscores then Next (sw_name, first_name_char ch r)
      else Next (sw_name, r <| invalid_header := true |>)
    else if ch =? NUL then Stop Invalid (sw_name, r)
    else Next (sw_name, r <| invalid_header := true |>).

(** [ngx_strncmp(r->header_name_start, "HTTP", 4) == 0] *)
Definition name_is_HTTP (buf : list Z) (r : header_t) : bool :=
  match header_name_start r with
  | Some s => bool_decide (rd buf s = Some "H"%ch) && bool_decide (rd buf (s + 1) = Some "T"%ch)
              && bool_decide (rd buf (s + 2) = Some "T"%ch)
              && bool_decide (rd buf (s + 3) = Some "P"%ch)
  | None => false
  end.

Definition name_length (p : Z) (r : header_t) : Z :=
  match header_name_start r with Some s => p - s | None => p end.

(** [case sw_name:]; [upstream] is [r->upstream != NULL]. *)
Definition step_name (upstream allow_underscores : bool) (buf : list Z)
    (p ch : Z) (r : header_t) : act :=
  let c := lowcase ch in
  if negb (c =? 0) then Next (sw_name, next_name_char c r)
  else if ch =? "_"%ch then
    if allow_underscores then Next (sw_name, next_name_char ch r)
    else Next (sw_name, r <| invalid_header := true |>)
  else if ch =? ":"%ch then
    Next (sw_space_before_value, r <| header_name_end := Some p |>)
  else if ch =? CR then
    Next (sw_almost_done, r <| header_name_end := Some p |>
                            <| header_start := Some p |> <| header_end := Some p |>)
  else if ch =? LF then
    Stop Done (sw_name, r <| header_name_end := Some p |>
                          <| header_start := Some p |> <| header_end := Some p |>)
  else if (ch =? "/"%ch) && upstream && (name_length p r =? 4) && name_is_HTTP buf r then
    Next (sw_ignore_line, r)
  else if ch =? NUL then Stop Invalid (sw_name, r)
  else Next (sw_name, r <| invalid_header := true |>).

(** [case sw_space_before_value:] to [case sw_space_after_value:] *)
Definition step_value (st : sw) (p ch : Z) (r : header_t) : act :=
  match st with
  | sw_space_before_value =>
      if ch =? " "%ch then Next (st, r)
      else if ch =? CR then
        Next (sw_almost_done, r <| header_start := Some p |> <| header_end := Some p |>)
      else if ch =? LF then
        Stop Done (st, r <| header_start := Some p |> <| header_end := Some p |>)
      else if ch =? NUL then Stop Invalid (st, r)
      else Next (sw_value, r <| header_start := Some p |>)
  | sw_value =>
      if ch =? " "%ch then Next (sw_space_after_value, r <| header_end := Some p |>)
      else if ch =? CR then Next (sw_almost_done, r <| header_end := Some p |>)
      else if ch =? LF then Stop Done (st, r <| header_end := Some p |>)
      else if ch =? NUL then Stop Invalid (st, r)
      else Next (st, r)
  | _ (* sw_space_after_value *) =>
      if ch =? " "%ch then Next (st, r)
      else if ch =? CR then Next (sw_almost_done, r)
      else if ch =? LF then Stop Done (st, r)
      else if ch =? NUL then Stop Invalid (st, r)
      else Next (sw_value, r)
  end.

(** [case sw_ignore_line:] to [case sw_header_almost_done:] *)
Definition step_end (st : sw) (ch : Z) (r : header_t) : act :=
  match st with
  | sw_ignore_line => if ch =? LF then Next (sw_start, r) else Next (st, r)
  | sw_almost_done =>
      if ch =? LF then Stop Done (st, r)
      else if ch =? CR then Next (st, r)
      else Stop Invalid (st, r)
  | _ (* sw_header_almost_done *) =>
      if ch =? LF then Stop Header_done (st, r) else Stop Invalid (st, r)
  end.

Definition step (upstream allow : bool) (buf : list Z) (pos : nat) (ch : Z)
    (s : sw * header_t) : act :=
  let '(st, r) := s in
  let p := Z.of_nat pos in
  match st with
  | sw_start => step_start allow p ch r
  | sw_name => step_name upstream allow buf p ch r
  | sw_space_before_value | sw_value | sw_space_after_value => step_value st p ch r
  | sw_ignore_line | sw_almost_done | sw_header_almost_done => step_end st ch r
  end.

Record outcome : Type := mk_outcome {
  rc : Z;
  b_pos : nat;
  r_state : sw;
  hdr : header_t
}.

(** The hash and the index are written back on [NGX_AGAIN] and [done:] only. *)
Definition keep_locals (old new : header_t) : header_t :=
  new <| hash := hash old |> <| lowcase_index := lowcase_index old |>.

Definition parse_header_line (upstream allow : bool) (buf : list Z) (pos : nat)
    (st : sw) (r : header_t) : outcome :=
  match run_scan (step upstream allow) 0 buf pos (st, r) with
  | Exhausted p (st', r') => mk_outcome NGX_AGAIN p st' r'
  | Stopped Invalid _ (_, r') =>
      mk_outcome NGX_HTTP_PARSE_INVALID_HEADER pos st (keep_locals r r')
  | Stopped Done p (_, r') => mk_outcome NGX_OK (S p) sw_start r'
  | Stopped Header_done p (_, r') =>
      mk_outcome NGX_HTTP_PARSE_HEADER_DONE (S p) sw_start (keep_locals r r')
  | NoFuel => mk_outcome NGX_ABORT pos st r
  end.

Example parse_host :
  let o := parse_header_line false false (bs "Host:  a b " ++ [CR; LF]) 0 sw_start header_init in
  (rc o, b_pos o, header_name_end (hdr o), header_start (hdr o), header_end (hdr o),
   take (lowcase_index (hdr o)) (lowcase_header (hdr o)))
  = (NGX_OK, 13%nat, Some 4, Some 7, Some 10, bs "host").
Proof. vm_compute. reflexivity. Qed.

(** ** Locality and resumption *)

Lemma header_step_local up al buf ext p c s :
  buf !! p = Some c -> step up al (buf ++ ext) p c s = step up al buf p c s.
Proof.
  intros Hc%lookup_lt_Some. destruct s as [[] r]; try done. simpl. unfold step_name.
  destruct (Z.eqb_spec (name_length (Z.of_nat p) r) 4) as [Hn|];
    [|by rewrite !andb_false_r].
  unfold name_length, name_is_HTTP in *. destruct (header_name_start r); [|done].
  rewrite !rd_app_l by lia. done.
Qed.

Ltac step_cases :=
  unfold step, step_start, step_name, step_value, step_end in *;
  repeat case_match; simplify_eq/=.

Lemma no_redo up al buf p c s s' : step up al buf p c s = Redo s' -> (0 < 0)%nat.
Proof. destruct s as [st r]. intros H. step_cases. Qed.

(** The calls a caller sees as the same: a finished or suspended header line
    with its hash and name index, the end of the header without them, or the
    same error. *)
Definition agree (o1 o2 : outcome) : Prop :=
  rc o1 = rc o2 /\
  keep_locals header_init (hdr o1) = keep_locals header_init (hdr o2) /\
  (rc o1 = NGX_OK \/ rc o1 = NGX_AGAIN -> hdr o1 = hdr o2) /\
  (rc o1 <> NGX_HTTP_PARSE_INVALID_HEADER ->
   b_pos o1 = b_pos o2 /\ r_state o1 = r_state o2).

Lemma agree_refl o : agree o o.
Proof. unfold agree. auto. Qed.

(** a header line received in pieces is parsed as if it had arrived at once:
    the second call continues from the saved position, state, hash and name
    index and agrees with one call over all the bytes, and bytes after a line
    that was accepted or refused do not change the answer. *)
Theorem parse_header_line_resume up al buf ext pos st r :
  let o := parse_header_line up al buf pos st r in
  let whole := parse_header_line up al (buf ++ ext) pos st r in
  if rc o =? NGX_AGAIN
  then agree (parse_header_line up al (buf ++ ext) (b_pos o) (r_state o) (hdr o)) whole
  else whole = o.
Proof.
  cbv zeta. unfold parse_header_line.
  pose proof (run_scan_resume (step up al) (header_step_local up al) (fun _ => 0%nat) 0
                (no_redo up al) (fun _ => Nat.le_refl 0) buf ext pos (st, r)) as H.
  destruct (run_scan (step up al) 0 buf pos (st, r)) as [q [st' r']|[] q [st' r']|] eqn:E;
    simpl; [| | | |done]; rewrite H; try reflexivity.
  destruct (run_scan (step up al) 0 (buf ++ ext) q (st', r')) as [? []|[] ? []|] eqn:E';
    try apply agree_refl.
  - unfold agree. simpl. split_and!; try done. intros [|]; done.
  - unfold agree. simpl. split_and!; try done. intros [|]; done.
  - by apply (run_scan_total (step up al) (fun _ => 0%nat) 0 (no_redo up al)
                (fun _ => Nat.le_refl 0)) in E'.
Qed.

(** ** The lower-cased name stays inside its 32-byte array *)

Definition lc_ok (r : header_t) : Prop :=
  length (lowcase_header r) = NGX_HTTP_LC_HEADER_LEN /\
  (lowcase_index r < NGX_HTTP_LC_HEADER_LEN)%nat.

Lemma land_31 n : (Nat.land n (NGX_HTTP_LC_HEADER_LEN - 1) < NGX_HTTP_LC_HEADER_LEN)%nat.
Proof.
  change (NGX_HTTP_LC_HEADER_LEN - 1)%nat with (Nat.ones 5).
  rewrite Nat.land_ones. apply Nat.mod_upper_bound. discriminate.
Qed.

Lemma lc_ok_first c r : lc_ok r -> lc_ok (first_name_char c r).
Proof. intros [H1 H2]. split; simpl; [by rewrite length_insert|unfold NGX_HTTP_LC_HEADER_LEN; lia]. Qed.

Lemma lc_ok_next c r : lc_ok r -> lc_ok (next_name_char c r).
Proof. intros [H1 H2]. split; [simpl; by rewrite length_insert|apply land_31]. Qed.

Lemma lc_ok_step up al buf p c s :
  lc_ok (snd s) ->
  match step up al buf p c s with
  | Next s' | Redo s' | Stop _ s' => lc_ok (snd s')
  end.
Proof.
  destruct s as [st r]. simpl. intros Hr.
  destruct st; unfold step, step_start, step_name, step_value, step_end;
    repeat match goal with |- context [if ?b then _ else _] => destruct b end;
    simpl; try exact Hr; try (apply lc_ok_first; exact Hr); apply lc_ok_next, Hr.
Qed.

(** whatever the bytes are, the name index stays below 32 and the array keeps
    its 32 bytes, so no write of [r->lowcase_header[i++]] leaves it; and the
    parser returns with one of its four codes. *)
Theorem parse_header_line_in_bounds up al buf pos st r :
  lc_ok r ->
  lc_ok (hdr (parse_header_line up al buf pos st r)) /\
  rc (parse_header_line up al buf pos st r) ∈
    [NGX_OK; NGX_AGAIN; NGX_HTTP_PARSE_HEADER_DONE; NGX_HTTP_PARSE_INVALID_HEADER].
Proof.
  intros Hr.
  pose proof (scan_inv (step up al) (fun _ s => lc_ok (snd s)) buf) as Hi.
  specialize (Hi ltac:(intros p c s s' _ Hs; pose proof (lc_ok_step up al buf p c s Hs);
                       split; intros E; by rewrite E in *) (scan_fuel 0 buf pos) pos (st, r) Hr).
  pose proof (run_scan_total (step up al) (fun _ => 0%nat) 0 (no_redo up al)
                (fun _ => Nat.le_refl 0) buf pos (st, r)) as Ht.
  unfold parse_header_line, run_scan in *.
  destruct (scan _ _ buf pos _) as [q [st' r']|l q [st' r']|]; [| |done].
  - simpl in *. split; [tauto|set_solver].
  - destruct Hi as (c & s0 & _ & Hs & _ & E).
    pose proof (lc_ok_step up al buf q c s0 Hs) as Hl. rewrite E in Hl.
    destruct Hr, Hl. destruct l; simpl; (split; [done|set_solver]).
Qed.

Lemma parse_header_line_in_bounds_witness :
  let o := parse_header_line false true (bs "A_B: c" ++ [LF]) 0 sw_start header_init in
  lc_ok (hdr o) /\ rc o ∈
    [NGX_OK; NGX_AGAIN; NGX_HTTP_PARSE_HEADER_DONE; NGX_HTTP_PARSE_INVALID_HEADER].
Proof.
  apply (parse_header_line_in_bounds false true (bs "A_B: c" ++ [LF]) 0 sw_start header_init).
  split; [reflexivity|]. unfold NGX_HTTP_LC_HEADER_LEN. simpl. lia.
Defined.

(** ** What a well-formed header line parses to *)

Definition name_char (c : Z) : Prop := lowcase c <> 0.

Lemma lowcase_byte c : name_char c -> is_byte c.
Proof.
  unfold name_char, lowcase. intros H.
  destruct (Z.ltb_spec c 0) as [Hc|].
  { replace (Z.to_nat c) with 0%nat in H by lia. done. }
  destruct (Z.ltb_spec c 256) as [|Hc]; [by split|].
  rewrite nth_overflow in H; [done|]. change (length lowcase_table) with 256%nat. lia.
Qed.

Lemma lowcase_tolower c : name_char c -> lowcase c = ngx_tolower c.
Proof.
  intros H. pose proof (lowcase_byte c H) as Hb.
  pose proof (byte_forall (fun c => (lowcase c =? 0) || (lowcase c =? ngx_tolower c))
                eq_refl c Hb) as E. cbv beta in E. unfold name_char in H. lia.
Qed.

Lemma hash_strlow_spec src :
  ngx_hash_strlow src = (ngx_tolower <$> src, ngx_hash_key_lc src).
Proof.
  unfold ngx_hash_strlow, ngx_hash_key_lc.
  assert (forall dst key, hash_strlow_loop src dst key =
    (dst ++ (ngx_tolower <$> src),
     fold_left (fun key c => ngx_hash key (ngx_tolower c)) src key)) as H; [|apply H].
  induction src as [|c src IH]; intros dst key; simpl; [by rewrite app_nil_r|].
  by rewrite IH, <- app_assoc.
Qed.

(** A header name with the lower-cased bytes [done] before it. *)
Lemma run_header_name up al pre name r :
  Forall name_char name ->
  run_next (step up al) pre name (sw_name, r) =
  Some (sw_name, fold_left (fun r c => next_name_char (ngx_tolower c) r) name r).
Proof.
  revert pre r. induction name as [|c name IH]; intros pre r Hn; [done|].
  inversion Hn as [|? ? Hc Hn']; subst. simpl. unfold step_name.
  rewrite (lowcase_tolower c Hc).
  replace (ngx_tolower c =? 0) with false
    by (symmetry; apply Z.eqb_neq; by rewrite <- (lowcase_tolower c Hc)).
  by apply IH.
Qed.

Lemma fold_next_name_pointers name r :
  let r' := fold_left (fun r c => next_name_char (ngx_tolower c) r) name r in
  hash r' = fold_left (fun key c => ngx_hash key (ngx_tolower c)) name (hash r) /\
  header_name_start r' = header_name_start r /\ invalid_header r' = invalid_header r.
Proof.
  revert r. induction name as [|c name IH]; intros r; [done|]. simpl.
  destruct (IH (next_name_char (ngx_tolower c) r)) as (-> & -> & ->). done.
Qed.

(** While the name is shorter than the array, the array holds its lower case. *)
Lemma fold_next_name_lowcase name r done :
  length (lowcase_header r) = NGX_HTTP_LC_HEADER_LEN ->
  lowcase_index r = length done -> take (length done) (lowcase_header r) = done ->
  (length done + length name < NGX_HTTP_LC_HEADER_LEN)%nat ->
  let r' := fold_left (fun r c => next_name_char (ngx_tolower c) r) name r in
  lowcase_index r' = (length done + length name)%nat /\
  take (lowcase_index r') (lowcase_header r') = done ++ (ngx_tolower <$> name).
Proof.
  revert r done. induction name as [|c name IH]; intros r done Hl Hi Ht Hlt; simpl.
  { rewrite Nat.add_0_r, app_nil_r, Hi. done. }
  simpl in Hlt. specialize (IH (next_name_char (ngx_tolower c) r) (done ++ [ngx_tolower c])).
  assert (Nat.land (S (lowcase_index r)) (NGX_HTTP_LC_HEADER_LEN - 1) = S (length done)) as E.
  { change (NGX_HTTP_LC_HEADER_LEN - 1)%nat with (Nat.ones 5).
    rewrite Nat.land_ones, Hi. apply Nat.mod_small. unfold NGX_HTTP_LC_HEADER_LEN in *.
    simpl. lia. }
  destruct IH as [IH1 IH2].
  - simpl. by rewrite length_insert.
  - simpl. rewrite length_app. simpl. rewrite Nat.add_1_r. exact E.
  - simpl. rewrite length_app, Hi, Nat.add_1_r.
    erewrite take_S_r by (apply list_lookup_insert_eq; lia).
    rewrite take_insert_ge, Ht by lia. done.
  - rewrite length_app. simpl. lia.
  - split; [rewrite IH1, length_app; simpl; lia|by rewrite IH2, <- app_assoc].
Qed.

(** The bytes of a value: no control byte that ends or refuses the line. *)
Definition value_byte (c : Z) : Prop := c <> CR /\ c <> LF /\ c <> NUL.

Lemma run_value_step up al pre c st r :
  st = sw_value \/ st = sw_space_after_value -> value_byte c ->
  exists e, run_next (step up al) pre [c] (st, r) =
    Some (if c =? SP then sw_space_after_value else sw_value, r <| header_end := e |>).
Proof.
  intros Hst (H1 & H2 & H3). unfold CR, LF, NUL, SP in *.
  destruct Hst as [-> | ->]; simpl; unfold CR, LF, NUL;
    destruct (Z.eqb_spec c 32) as [->|];
    repeat match goal with
    | |- context [?x =? ?k] => destruct (Z.eqb_spec x k); [lia|]
    end; eexists; try reflexivity;
    instantiate (1 := header_end r); destruct r; reflexivity.
Qed.

Lemma run_value up al pre v st r :
  st = sw_value \/ st = sw_space_after_value -> Forall value_byte v -> v <> [] ->
  List.last v 0 <> SP ->
  exists e, run_next (step up al) pre v (st, r) = Some (sw_value, r <| header_end := e |>).
Proof.
  revert pre st r. induction v as [|c v IH]; intros pre st r Hst Hv Hne Hl; [done|].
  inversion Hv as [|? ? Hc Hv']; subst.
  destruct (run_value_step up al pre c st r Hst Hc) as [e He].
  change (c :: v) with ([c] ++ v). rewrite run_next_app, He. cbn [mbind option_bind].
  destruct v as [|d v].
  - simpl in Hl. destruct (Z.eqb_spec c SP); [congruence|]. by exists e.
  - destruct (IH (pre ++ [c]) (if c =? SP then sw_space_after_value else sw_value)
                (r <| header_end := e |>)) as [e' He']; try done.
    { destruct (c =? SP); auto. }
    exists e'. by rewrite He'.
Qed.

Lemma run_spaces up al pre k st r :
  st = sw_space_before_value \/ st = sw_space_after_value ->
  run_next (step up al) pre (repeat SP k) (st, r) = Some (st, r).
Proof.
  intros Hst. revert pre. induction k as [|k IH]; intros pre; [done|].
  destruct Hst as [-> | ->]; simpl; apply IH.
Qed.

(** A header line as a client writes it. *)
Definition render (name value : list Z) (k j : nat) : list Z :=
  name ++ [":"%ch] ++ repeat SP k ++ value ++ repeat SP j ++ [CR; LF].

Section Rendered.
Context (up al : bool) (name value : list Z) (k j : nat) (r0 : header_t).
Hypothesis lc : length (lowcase_header r0) = NGX_HTTP_LC_HEADER_LEN.
Hypothesis name_ok : name <> [] /\ Forall name_char name.
Hypothesis value_ok : value <> [] /\ Forall value_byte value /\
  hd 0 value <> SP /\ List.last value 0 <> SP.

Let nlen : Z := Z.of_nat (length name).
Let vstart : Z := nlen + 1 + Z.of_nat k.
Let vend : Z := vstart + Z.of_nat (length value).

Let r_name : header_t :=
  fold_left (fun r c => next_name_char (ngx_tolower c) r) (tail name)
    (first_name_char (ngx_tolower (hd 0 name))
       (r0 <| header_name_start := Some 0 |> <| invalid_header := false |>)).

Lemma rendered_name :
  run_next (step up al) [] name (sw_start, r0) = Some (sw_name, r_name).
Proof.
  destruct name_ok as [Hne Hn]. unfold r_name. destruct name as [|c name']; [done|].
  inversion Hn as [|? ? Hc Hn']; subst. simpl. unfold step_start.
  pose proof (lowcase_byte c Hc) as Hb.
  replace (c =? CR) with false by (symmetry; apply Z.eqb_neq; intros ->; by apply Hc).
  replace (c =? LF) with false by (symmetry; apply Z.eqb_neq; intros ->; by apply Hc).
  rewrite (lowcase_tolower c Hc).
  replace (ngx_tolower c =? 0) with false
    by (symmetry; apply Z.eqb_neq; by rewrite <- (lowcase_tolower c Hc)).
  by apply run_header_name.
Qed.

(** The value itself, from the first byte that is not a space. *)
Lemma rendered_value_bytes pre r :
  exists e, run_next (step up al) pre value (sw_space_before_value, r) =
  Some (sw_value, r <| header_start := Some (Z.of_nat (length pre)) |> <| header_end := e |>).
Proof.
  destruct value_ok as (Hne & Hv & Hhd & Hlast).
  destruct value as [|c vs]; [done|]. inversion Hv as [|? ? Hc Hv']; subst.
  simpl in Hhd. destruct Hc as (H1 & H2 & H3).
  change (c :: vs) with ([c] ++ vs). rewrite run_next_app.
  assert (run_next (step up al) pre [c] (sw_space_before_value, r) =
    Some (sw_value, r <| header_start := Some (Z.of_nat (length pre)) |>)) as ->.
  { simpl. unfold CR, LF, NUL, SP in *.
    repeat match goal with
    | |- context [?x =? ?n] => destruct (Z.eqb_spec x n); [lia|]
    end. reflexivity. }
  cbn [mbind option_bind]. destruct vs as [|d vs].
  - exists (header_end r). simpl. by destruct r.
  - apply run_value; auto.
Qed.

(** Trailing spaces and the carriage return: the value ends where they start. *)
Lemma rendered_trailer pre r :
  run_next (step up al) pre (repeat SP j ++ [CR]) (sw_value, r) =
  Some (sw_almost_done, r <| header_end := Some (Z.of_nat (length pre)) |>).
Proof.
  destruct j as [|j']; [done|]. cbn [repeat app run_next step step_value].
  change (SP =? " "%ch) with true. cbn iota.
  rewrite run_next_app, run_spaces by auto. reflexivity.
Qed.

Lemma rendered_value pre r :
  length pre = length name ->
  run_next (step up al) pre ([":"%ch] ++ repeat SP k ++ value ++ repeat SP j ++ [CR])
    (sw_name, r) =
  Some (sw_almost_done, r <| header_name_end := Some nlen |>
                          <| header_start := Some vstart |> <| header_end := Some vend |>).
Proof.
  intros Hpre. rewrite run_next_app.
  replace (run_next (step up al) pre [":"%ch] (sw_name, r)) with
    (Some (sw_space_before_value, r <| header_name_end := Some nlen |>))
    by (simpl; unfold step_name; simpl; by rewrite Hpre).
  cbn [mbind option_bind].
  rewrite run_next_app, run_spaces by auto. cbn [mbind option_bind].
  destruct (rendered_value_bytes ((pre ++ [":"%ch]) ++ repeat SP k)
              (r <| header_name_end := Some nlen |>)) as [e He].
  rewrite run_next_app, He. cbn [mbind option_bind]. rewrite rendered_trailer.
  unfold vend, vstart, nlen. rewrite !length_app, repeat_length, Hpre. simpl.
  repeat f_equal; lia.
Qed.

(** a header line of a client is read back: the name and the value slices are
    the ones written, without the spaces around the value; the hash is
    [ngx_hash_key_lc] of the name, the one header lookups are made with; a name
    shorter than 32 bytes is in [lowcase_header] in lower case, as
    [ngx_hash_strlow] would copy and hash it; the line is
    consumed and not flagged invalid. *)
Theorem parse_rendered_header :
  let buf := render name value k j in
  let o := parse_header_line up al buf 0 sw_start r0 in
  rc o = NGX_OK /\ b_pos o = length buf /\ invalid_header (hdr o) = false /\
  slice buf (header_name_start (hdr o)) (header_name_end (hdr o)) = name /\
  slice buf (header_start (hdr o)) (header_end (hdr o)) = value /\
  hash (hdr o) = ngx_hash_key_lc name /\
  ((length name < NGX_HTTP_LC_HEADER_LEN)%nat ->
   (take (lowcase_index (hdr o)) (lowcase_header (hdr o)), hash (hdr o)) =
   ngx_hash_strlow name).
Proof.
  set (line := name ++ [":"%ch] ++ repeat SP k ++ value ++ repeat SP j ++ [CR]).
  assert (render name value k j = line ++ [LF]) as ->.
  { unfold render, line. rewrite <- !app_assoc. done. }
  set (r1 := r_name <| header_name_end := Some nlen |>
                    <| header_start := Some vstart |> <| header_end := Some vend |>).
  assert (run_next (step up al) [] line (sw_start, r0) = Some (sw_almost_done, r1)) as Hr.
  { unfold line. rewrite run_next_app, rendered_name. cbn [mbind option_bind].
    by rewrite (rendered_value ([] ++ name)). }
  cbv zeta. unfold parse_header_line.
  rewrite (run_scan_line (step up al) (header_step_local up al) (fun _ => 0%nat) 0 (no_redo up al)
             (fun _ => Nat.le_refl 0) line LF [] _ _ Done (sw_almost_done, r1) Hr eq_refl).
  pose proof (fold_next_name_pointers (tail name)
    (first_name_char (ngx_tolower (hd 0 name))
       (r0 <| header_name_start := Some 0 |> <| invalid_header := false |>))) as (Hh & Hs & Hv).
  fold r_name in Hh, Hs, Hv. cbn [rc b_pos hdr]. split_and!.
  - reflexivity.
  - rewrite length_app. simpl. lia.
  - exact Hv.
  - unfold r1. simpl. rewrite Hs. unfold line. rewrite <- app_assoc.
    by apply (slice_mid [] name).
  - change (slice (line ++ [LF]) (Some vstart) (Some vend) = value).
    assert (line ++ [LF] = (name ++ [":"%ch] ++ repeat SP k) ++ value ++
              repeat SP j ++ [CR] ++ [LF]) as -> by (unfold line; by rewrite <- !app_assoc).
    apply slice_mid; unfold vend, vstart, nlen; [|done].
    rewrite !length_app, repeat_length. simpl. lia.
  - unfold r1. simpl. rewrite Hh. destruct name_ok as [Hne _]. by destruct name.
  - intros Hl. destruct name_ok as [Hne _]. rewrite hash_strlow_spec.
    change (hash r1) with (hash r_name). rewrite Hh. unfold r1, r_name. simpl.
    destruct name as [|c name']; [done|]. f_equal.
    apply (fold_next_name_lowcase _ _ [ngx_tolower c]); simpl in *; try lia.
    + by rewrite length_insert.
    + by destruct (lowcase_header r0).
Qed.
End Rendered.

Lemma parse_rendered_header_witness :
  hash (hdr (parse_header_line false false (render (bs "Host") (bs "a b") 1 2) 0
              sw_start header_init)) = ngx_hash_key_lc (bs "Host").
Proof.
  assert (bs "Host" <> [] /\ Forall name_char (bs "Host")) as Hn.
  { split; [discriminate|]. repeat constructor; discriminate. }
  assert (bs "a b" <> [] /\ Forall value_byte (bs "a b") /\
          hd 0 (bs "a b") <> SP /\ List.last (bs "a b") 0 <> SP) as Hv.
  { split_and!; try discriminate. repeat constructor; discriminate. }
  apply (parse_rendered_header false false (bs "Host") (bs "a b") 1 2 header_init eq_refl Hn Hv).
Defined.

(** A name whose first byte is not a name byte does not restart the hash: with
    underscores refused, the hash of [_name] continues the hash of whatever
    header was parsed before. *)
Lemma invalid_first_byte_keeps_hash up name value r0 :
  name <> [] -> Forall name_char name -> value_byte value -> value <> SP ->
  let buf := ["_"%ch] ++ name ++ [":"%ch; value; LF] in
  let o := parse_header_line up false buf 0 sw_start r0 in
  rc o = NGX_OK /\
  hash (hdr o) = fold_left (fun key c => ngx_hash key (ngx_tolower c)) name (hash r0).
Proof.
  intros Hne Hn (H1 & H2 & H3) H4. cbv zeta.
  set (r1 := r0 <| header_name_start := Some 0 |> <| invalid_header := false |>
                <| invalid_header := true |>).
  set (r2 := fold_left (fun r c => next_name_char (ngx_tolower c) r) name r1).
  assert (exists r3, run_next (step up false) [] (["_"%ch] ++ name ++ [":"%ch; value])
            (sw_start, r0) = Some (sw_value, r3) /\ hash r3 = hash r2) as (r3 & Hr & Hh).
  { rewrite run_next_app. change (run_next (step up false) [] ["_"%ch] (sw_start, r0))
      with (Some (sw_name, r1)). cbn [mbind option_bind].
    rewrite run_next_app, run_header_name by done. cbn [mbind option_bind]. fold r2.
    simpl. unfold CR, LF, NUL, SP in *.
    repeat match goal with
    | |- context [?x =? ?n] => destruct (Z.eqb_spec x n); [lia|]
    end. eexists. split; reflexivity. }
  replace (["_"%ch] ++ name ++ [":"%ch; value; LF]) with
    ((["_"%ch] ++ name ++ [":"%ch; value]) ++ LF :: []) by (by rewrite <- !app_assoc).
  unfold parse_header_line.
  rewrite (run_scan_line (step up false) (header_step_local up false) (fun _ => 0%nat) 0
             (no_redo up false) (fun _ => Nat.le_refl 0) _ LF [] _ _ Done
             (sw_value, r3 <| header_end := Some (Z.of_nat (length (["_"%ch] ++ name ++
                                [":"%ch; value]))) |>) Hr eq_refl).
  split; [done|]. simpl. rewrite Hh. exact (proj1 (fold_next_name_pointers name r1)).
Qed.

End HeaderLine.
