(* ===== verification/HttpChunked.v ===== *)
(** * Chunked transfer coding

    The decoder [ngx_http_parse_chunked] of [src/src/http/ngx_http_parse.c], the
    request-body filters of [src/src/http/ngx_http_request_body.c] that call it,
    and the two encoders: [ngx_http_chunked_output_filter] (used for proxied
    requests) and the body filter of [ngx_http_chunked_filter_module.c].

    The pool is a budget of allocations that still succeed; recycled chain links
    are counted as allocations. *)

From S2P Require Import Prelude NgxString.

Module HttpChunked.
Import NgxString.

(** ** The decoder *)

Inductive sw : Type :=
| sw_chunk_start
| sw_chunk_size
| sw_chunk_extension
| sw_chunk_extension_almost_done
| sw_chunk_data
| sw_after_data
| sw_after_data_almost_done
| sw_last_chunk_extension
| sw_last_chunk_extension_almost_done
| sw_trailer
| sw_trailer_almost_done
| sw_trailer_header
| sw_trailer_header_almost_done.

#[export] Instance sw_eq_dec : EqDecision sw.
Proof. solve_decision. Defined.

(** [ngx_http_chunked_t] *)
Record chunked_t : Type := mk_chunked {
  ctx_state : sw;
  ctx_size : Z;
  ctx_length : Z
}.

(** [ngx_pcalloc] of the context: state 0 is [sw_chunk_start]. *)
Definition chunked_init : chunked_t := mk_chunked sw_chunk_start 0 0.

Inductive label : Type := l_data | l_done | l_invalid.

(** The locals of the loop: [state] and [ctx->size]. *)
Definition cstate : Type := (sw * Z).

(** [ctx->size = ctx->size * 16 + digit] on an [off_t]. *)
Definition size_push (size d : Z) : Z := i64 (size * 16 + d).

Definition is_ext_start (ch : Z) : bool :=
  (ch =? ";"%ch) || (ch =? " "%ch) || (ch =? 9).

(** What ends the size of a chunk ([last] when the size is zero). *)
Definition after_size (size ch : Z) : action cstate label :=
  if size =? 0 then
    if ch =? CR then Next (sw_last_chunk_extension_almost_done, size)
    else if ch =? LF then Next (sw_trailer, size)
    else if is_ext_start ch then Next (sw_last_chunk_extension, size)
    else Stop l_invalid (sw_chunk_size, size)
  else
    if ch =? CR then Next (sw_chunk_extension_almost_done, size)
    else if ch =? LF then Next (sw_chunk_data, size)
    else if is_ext_start ch then Next (sw_chunk_extension, size)
    else Stop l_invalid (sw_chunk_size, size).

(** A state that waits for the end of a line and ignores the rest. *)
Definition skip_line (here on_cr on_lf : sw) (size ch : Z) : action cstate label :=
  if ch =? CR then Next (on_cr, size)
  else if ch =? LF then Next (on_lf, size)
  else Next (here, size).

(** A state that accepts only the LF after a CR. *)
Definition want_lf (here on_lf : sw) (size ch : Z) : action cstate label :=
  if ch =? LF then Next (on_lf, size) else Stop l_invalid (here, size).

Definition step (buf : list Z) (p : nat) (ch : Z) (s : cstate) : action cstate label :=
  let '(state, size) := s in
  match state with
  | sw_chunk_start =>
      match hex_digit ch with
      | Some d => Next (sw_chunk_size, d)
      | None => Stop l_invalid s
      end
  | sw_chunk_size =>
      match hex_digit ch with
      | Some d => Next (sw_chunk_size, size_push size d)
      | None => after_size size ch
      end
  | sw_chunk_extension =>
      skip_line sw_chunk_extension sw_chunk_extension_almost_done sw_chunk_data size ch
  | sw_chunk_extension_almost_done =>
      want_lf sw_chunk_extension_almost_done sw_chunk_data size ch
  | sw_chunk_data => Stop l_data s
  | sw_after_data =>
      skip_line sw_after_data sw_after_data_almost_done sw_chunk_start size ch
  | sw_after_data_almost_done => want_lf sw_after_data_almost_done sw_chunk_start size ch
  | sw_last_chunk_extension =>
      skip_line sw_last_chunk_extension sw_last_chunk_extension_almost_done sw_trailer size ch
  | sw_last_chunk_extension_almost_done =>
      want_lf sw_last_chunk_extension_almost_done sw_trailer size ch
  | sw_trailer =>
      if ch =? CR then Next (sw_trailer_almost_done, size)
      else if ch =? LF then Stop l_done s
      else Next (sw_trailer_header, size)
  | sw_trailer_almost_done =>
      if ch =? LF then Stop l_done s else Stop l_invalid s
  | sw_trailer_header =>
      skip_line sw_trailer_header sw_trailer_header_almost_done sw_trailer size ch
  | sw_trailer_header_almost_done =>
      want_lf sw_trailer_header_almost_done sw_trailer size ch
  end.

(** [ctx->length]: the least number of bytes still to come. *)
Definition chunk_length (state : sw) (size : Z) : Z :=
  match state with
  | sw_chunk_start => 3
  | sw_chunk_size => i64 (1 + (if size =? 0 then 1 else size + 4))
  | sw_chunk_extension | sw_chunk_extension_almost_done => i64 (1 + size + 4)
  | sw_chunk_data => i64 (size + 4)
  | sw_after_data | sw_after_data_almost_done => 4
  | sw_last_chunk_extension | sw_last_chunk_extension_almost_done => 2
  | sw_trailer | sw_trailer_almost_done => 1
  | sw_trailer_header | sw_trailer_header_almost_done => 2
  end.

(** The label [data]. *)
Definition epilogue (rc : Z) (pos : nat) (s : cstate) : Z * nat * chunked_t :=
  let '(state, size) := s in
  let len := chunk_length state size in
  ((if (size <? 0) || (len <? 0) then NGX_ERROR else rc), pos, mk_chunked state size len).

(** [if (state == sw_chunk_data && ctx->size == 0) state = sw_after_data;] *)
Definition entry_state (ctx : chunked_t) : sw :=
  if bool_decide (ctx_state ctx = sw_chunk_data) && (ctx_size ctx =? 0)
  then sw_after_data else ctx_state ctx.

(** The return code, [b->pos] and the context after the call. *)
Definition parse_chunked (buf : list Z) (pos : nat) (ctx : chunked_t)
    : Z * nat * chunked_t :=
  match run_scan step 0 buf pos (entry_state ctx, ctx_size ctx) with
  | Exhausted p s => epilogue NGX_AGAIN p s
  | Stopped l_data p s => epilogue NGX_OK p s
  | Stopped l_done p s =>
      (NGX_DONE, S p, mk_chunked sw_chunk_start (snd s) (ctx_length ctx))
  | Stopped l_invalid p s =>
      (NGX_ERROR, pos, mk_chunked (ctx_state ctx) (snd s) (ctx_length ctx))
  | NoFuel => (NGX_ERROR, pos, ctx)
  end.

(** ** The request-body filters *)

Definition NGX_HTTP_SPECIAL_RESPONSE : Z := 300.
Definition NGX_HTTP_BAD_REQUEST : Z := 400.
Definition NGX_HTTP_REQUEST_ENTITY_TOO_LARGE : Z := 413.
Definition NGX_HTTP_INTERNAL_SERVER_ERROR : Z := 500.

(** What the filters use of [ngx_buf_t]: the bytes from [pos] to [last] and
    the flags. *)
Record buf_t : Type := mk_buf {
  data : list Z;
  in_memory : bool;
  in_file : bool;
  flush : bool;
  sync : bool;
  last_buf : bool
}.

Definition ngx_buf_size (b : buf_t) : Z := Z.of_nat (length (data b)).

(** The buffers the filters hand on. *)
Definition data_buf (d : list Z) (last : bool) : buf_t := mk_buf d true false false false last.
Definition eof_buf : buf_t := mk_buf [] false false false false true.

(** [r->request_body] with [r->headers_in.content_length_n], the lingering
    flag, and the budget of the pool. *)
Record body_t : Type := mk_body {
  rest : Z;
  chunked : chunked_t;
  content_length_n : Z;
  lingering_close : bool;
  bufs : list buf_t;
  mem : nat
}.

#[export] Instance eta_body : Eta body_t := fun b =>
  mk_body (rest b) (chunked b) (content_length_n b) (lingering_close b) (bufs b) (mem b).

(** One allocation from the pool. *)
Definition palloc (b : body_t) : option body_t :=
  match mem b with O => None | S m => Some (b <| mem := m |>) end.

Section Filters.
(** The module filters behind [ngx_http_top_input_body_filter] are called
    through a function pointer. *)
Variable top_input_body_filter : buf_t -> Z.

(** [ngx_chain_add_copy]: one link for each buffer; a failed allocation leaves
    the links made so far. *)
Fixpoint ngx_chain_add_copy (b : body_t) (inp : list buf_t) : Z * body_t :=
  match inp with
  | [] => (NGX_OK, b)
  | x :: inp' =>
      match palloc b with
      | None => (NGX_ERROR, b)
      | Some b => ngx_chain_add_copy (b <| bufs := bufs b ++ [x] |>) inp'
      end
  end.

(** The loop over the module filters and the conversion of their codes. *)
Fixpoint input_body_filters (inp : list buf_t) : Z :=
  match inp with
  | [] => NGX_OK
  | x :: inp' =>
      let rc := top_input_body_filter x in
      if rc =? NGX_OK then input_body_filters inp'
      else if (rc <? NGX_HTTP_SPECIAL_RESPONSE) && negb (rc =? NGX_AGAIN)
      then NGX_HTTP_INTERNAL_SERVER_ERROR else rc
  end.

Definition request_body_save_filter (b : body_t) (inp : list buf_t) : Z * body_t :=
  let '(rc, b) := ngx_chain_add_copy b inp in
  if negb (rc =? NGX_OK) then (NGX_HTTP_INTERNAL_SERVER_ERROR, b)
  else (input_body_filters inp, b).

(** How the inner loop over one buffer ends. *)
Inductive buf_result : Type :=
| Break (out : list buf_t) (b : body_t) (pos : nat)
| Return (rc : Z) (b : body_t)
| OutOfFuel.

(** [client_max_body_size && client_max_body_size - content_length_n < size] *)
Definition too_large (client_max_body_size : Z) (b : body_t) (size : Z) : bool :=
  negb (client_max_body_size =? 0) &&
  (i64 (client_max_body_size - content_length_n b) <? size).

(** The data of a chunk: how much of it the buffer has. *)
Definition chunk_take (buf : list Z) (pos : nat) (size : Z) : nat :=
  let avail := (length buf - pos)%nat in
  if Z.of_nat avail >? size then Z.to_nat size else avail.

(** [for ( ;; )] around [ngx_http_parse_chunked]. *)
Fixpoint chunked_buf_loop (fuel : nat) (client_max_body_size : Z) (buf : list Z) (pos : nat)
    (out : list buf_t) (b : body_t) : buf_result :=
  match fuel with
  | O => OutOfFuel
  | S fuel' =>
      let '(rc, pos, ctx) := parse_chunked buf pos (chunked b) in
      let b := b <| chunked := ctx |> in
      if rc =? NGX_OK then
        if too_large client_max_body_size b (ctx_size ctx) then
          Return NGX_HTTP_REQUEST_ENTITY_TOO_LARGE (b <| lingering_close := true |>)
        else
          match palloc b with
          | None => Return NGX_HTTP_INTERNAL_SERVER_ERROR b
          | Some b =>
              let n := chunk_take buf pos (ctx_size ctx) in
              let x := data_buf (take n (drop pos buf)) false in
              let ctx := mk_chunked (ctx_state ctx) (ctx_size ctx - Z.of_nat n)
                                    (ctx_length ctx) in
              let b := b <| chunked := ctx |>
                         <| content_length_n := i64 (content_length_n b + Z.of_nat n) |> in
              chunked_buf_loop fuel' client_max_body_size buf (pos + n) (out ++ [x]) b
          end
      else if rc =? NGX_DONE then
        let b := b <| rest := 0 |> in
        match palloc b with
        | None => Return NGX_HTTP_INTERNAL_SERVER_ERROR b
        | Some b => Break (out ++ [eof_buf]) b pos
        end
      else if rc =? NGX_AGAIN then
        Break out (b <| rest := ctx_length ctx |>) pos
      else Return NGX_HTTP_BAD_REQUEST b
  end.

(** A chunk of data is at least one byte of the buffer, so that its length
    bounds the passes. *)
Definition buf_fuel (buf : list Z) : nat := S (S (length buf)).

(** [for (cl = in; cl; cl = cl->next)]; the third result is what the call
    leaves unread in each buffer ([cl->buf->pos] to [cl->buf->last]). *)
Fixpoint chunked_chain_loop (client_max_body_size : Z) (inp : list (list Z))
    (out : list buf_t) (unread : list (list Z)) (b : body_t) : Z * body_t * list (list Z) :=
  match inp with
  | [] => (request_body_save_filter b out, unread)
  | buf :: inp' =>
      match chunked_buf_loop (buf_fuel buf) client_max_body_size buf 0 out b with
      | Break out b pos =>
          chunked_chain_loop client_max_body_size inp' out (unread ++ [drop pos buf]) b
      | Return rc b => (rc, b, unread)
      | OutOfFuel => (NGX_ERROR, b, unread)
      end
  end.

Definition request_body_chunked_filter (client_max_body_size : Z) (b : body_t)
    (inp : list (list Z)) : Z * body_t * list (list Z) :=
  if rest b =? -1 then
    match palloc b with
    | None => (NGX_HTTP_INTERNAL_SERVER_ERROR, b, [])
    | Some b =>
        chunked_chain_loop client_max_body_size inp [] []
          (b <| chunked := chunked_init |> <| content_length_n := 0 |> <| rest := 3 |>)
    end
  else chunked_chain_loop client_max_body_size inp [] [] b.

(** The filter for a body with a [Content-Length]. *)
Fixpoint length_chain_loop (inp : list (list Z)) (out : list buf_t) (unread : list (list Z))
    (b : body_t) : Z * body_t * list (list Z) :=
  match inp with
  | [] => (request_body_save_filter b out, unread)
  | buf :: inp' =>
      if rest b =? 0 then (request_body_save_filter b out, unread ++ inp)
      else
        match palloc b with
        | None => (NGX_HTTP_INTERNAL_SERVER_ERROR, b, unread)
        | Some b =>
            let size := Z.of_nat (length buf) in
            if size <? rest b then
              length_chain_loop inp' (out ++ [data_buf buf false]) (unread ++ [[]])
                (b <| rest := rest b - size |>)
            else
              let n := Z.to_nat (rest b) in
              length_chain_loop inp' (out ++ [data_buf (take n buf) true])
                (unread ++ [drop n buf]) (b <| rest := 0 |>)
        end
  end.

Definition request_body_length_filter (b : body_t) (inp : list (list Z))
    : Z * body_t * list (list Z) :=
  let b := if rest b =? -1 then b <| rest := content_length_n b |> else b in
  length_chain_loop inp [] [] b.

Definition request_body_filter (is_chunked : bool) (client_max_body_size : Z) (b : body_t)
    (inp : list (list Z)) : Z * body_t * list (list Z) :=
  if is_chunked then request_body_chunked_filter client_max_body_size b inp
  else request_body_length_filter b inp.
End Filters.

(** [ngx_http_discard_request_body_filter]: the same walk over the chunks
    without keeping the data; returns the code, the context, the new
    [content_length_n] and [b->pos]. *)
Fixpoint discard_chunked_loop (fuel : nat) (buf : list Z) (pos : nat) (ctx : chunked_t)
    (content_length_n : Z) : option (Z * chunked_t * Z * nat) :=
  match fuel with
  | O => None
  | S fuel' =>
      let '(rc, pos, ctx) := parse_chunked buf pos ctx in
      if rc =? NGX_OK then
        let n := chunk_take buf pos (ctx_size ctx) in
        discard_chunked_loop fuel' buf (pos + n)
          (mk_chunked (ctx_state ctx) (ctx_size ctx - Z.of_nat n) (ctx_length ctx))
          content_length_n
      else if rc =? NGX_DONE then Some (NGX_OK, ctx, 0, pos)
      else if rc =? NGX_AGAIN then Some (NGX_OK, ctx, ctx_length ctx, pos)
      else Some (NGX_HTTP_BAD_REQUEST, ctx, content_length_n, pos)
  end.

Definition discard_length (buf : list Z) (pos : nat) (content_length_n : Z) : Z * nat :=
  let size := Z.of_nat (length buf - pos) in
  if size >? content_length_n then (0, (pos + Z.to_nat content_length_n)%nat)
  else (content_length_n - size, length buf).

(** [ngx_http_discard_request_body_filter]: [rb] is the context of
    [r->request_body], [NULL] before the first call. *)
Definition discard_request_body_filter (is_chunked : bool) (rb : option chunked_t)
    (mem : nat) (buf : list Z) (content_length_n : Z)
    : option (Z * option chunked_t * Z * nat) :=
  if is_chunked then
    let run ctx :=
      '(rc, ctx, n, pos) ← discard_chunked_loop (buf_fuel buf) buf 0 ctx content_length_n;
      Some (rc, Some ctx, n, pos) in
    match rb with
    | Some ctx => run ctx
    | None => if (mem <? 2)%nat
              then Some (NGX_HTTP_INTERNAL_SERVER_ERROR, None, content_length_n, 0%nat)
              else run chunked_init
    end
  else
    let '(n, pos) := discard_length buf 0 content_length_n in
    Some (NGX_OK, rb, n, pos).

(** ** The encoders *)

Definition CRLF : list Z := [CR; LF].

(** [ngx_sprintf(chunk, "%xO" CRLF, size)]: [x] clears [sign], [O] sets it
    again. *)
Definition sprintf_xO_crlf (size : Z) : list Z :=
  (if size <? 0 then "-"%ch :: num_digits 1 (- size) else num_digits 1 size) ++ CRLF.

(** The first loop: the total size and the buffers that are linked into
    [out]; [None] when a link cannot be allocated. *)
Fixpoint chunk_links (keep : buf_t -> bool) (inp : list buf_t) (mem : nat) (size : Z)
    : option (list buf_t * Z * nat) :=
  match inp with
  | [] => Some ([], size, mem)
  | x :: inp' =>
      let size := i64 (size + ngx_buf_size x) in
      if keep x then
        match mem with
        | O => None
        | S mem => '(out, size, mem) ← chunk_links keep inp' mem size;
                   Some (x :: out, size, mem)
        end
      else chunk_links keep inp' mem size
  end.

(** [cl->buf->last_buf = 0] on the last buffer of the input, which [out]
    shares when it was linked. *)
Definition clear_last (keep : buf_t -> bool) (inp out : list buf_t) : list buf_t :=
  match rev inp, rev out with
  | x :: _, y :: out' =>
      if keep x then
        rev (mk_buf (data y) (in_memory y) (in_file y) (flush y) (sync y) false :: out')
      else out
  | _, _ => out
  end.

Definition LAST_CHUNK : list Z := bs "0" ++ CRLF ++ CRLF.

(** The rest of the function: the size line in front, the end of the chunk or
    of the body behind.  The size line takes a link and, in a fresh buffer, its
    storage. *)
Definition chunk_wrap (keep : buf_t -> bool) (inp out : list buf_t) (size : Z) (mem : nat)
    : option (list buf_t * nat) :=
  '(hdr, mem) ← (if size =? 0 then Some ([], mem)
                 else if (mem <? 2)%nat then None
                 else Some ([data_buf (sprintf_xO_crlf size) false], (mem - 2)%nat));
  let last := match List.last (map Some inp) None with
              | Some x => last_buf x | None => false end in
  if last then
    match mem with
    | O => None
    | S mem =>
        let tl := if size =? 0 then LAST_CHUNK else CRLF ++ LAST_CHUNK in
        Some (hdr ++ clear_last keep inp out ++ [data_buf tl true], mem)
    end
  else if size >? 0 then
    match mem with
    | O => None
    | S mem => Some (hdr ++ out ++ [data_buf CRLF false], mem)
    end
  else Some (hdr ++ out, mem).

(** [keep] of the two encoders *)
Definition keep_output (x : buf_t) : bool := flush x || sync x || (ngx_buf_size x >? 0).
Definition keep_body (x : buf_t) : bool := flush x || sync x || in_memory x || in_file x.

(** [ngx_http_chunked_output_filter]: [None] is [NGX_ERROR]. *)
Definition chunked_output_filter (is_chunked : bool) (inp : list buf_t) (mem : nat)
    : option (list buf_t * nat) :=
  match inp with
  | [] => Some ([], mem)
  | _ => if negb is_chunked then Some (inp, mem)
         else '(out, size, mem) ← chunk_links keep_output inp mem 0;
              chunk_wrap keep_output inp out size mem
  end.

(** [ngx_http_chunked_body_filter]: the chain given to the next filter. *)
Definition chunked_body_filter (is_chunked header_only : bool) (inp : list buf_t) (mem : nat)
    : option (list buf_t * nat) :=
  match inp with
  | [] => Some ([], mem)
  | _ => if negb is_chunked || header_only then Some (inp, mem)
         else '(out, size, mem) ← chunk_links keep_body inp mem 0;
              chunk_wrap keep_body inp out size mem
  end.

(** The bytes a chain puts on the wire. *)
Definition wire (out : list buf_t) : list Z := concat (data <$> out).

Arguments wire : simpl never.

Example encode_ex :
  option_map (fun r => wire (fst r))
    (chunked_output_filter true [data_buf (bs "hello, ") false; data_buf (bs "world") true] 9)
  = Some (bs "c" ++ CRLF ++ bs "hello, world" ++ CRLF ++ bs "0" ++ CRLF ++ CRLF).
Proof. reflexivity. Qed.

Example decode_ex :
  request_body_chunked_filter (fun _ => NGX_OK) 0 (mk_body (-1) chunked_init 0 false [] 9)
    [bs "5;x=y" ++ CRLF ++ bs "he"; bs "llo" ++ CRLF ++ bs "0" ++ CRLF ++ CRLF ++ bs "GET"]
  = (NGX_OK,
     mk_body 0 (mk_chunked sw_chunk_start 0 7) 5 false
       [data_buf (bs "he") false; data_buf (bs "llo") false; eof_buf] 2,
     [[]; bs "GET"]).
Proof. vm_compute. reflexivity. Qed.
(** ** The decoder one byte at a time

    What the coding means, without buffers: the state after each byte, sizes
    without a width, and the bytes of the body so far.  The largest size the
    code accepts leaves room for the five bytes that must follow it. *)

Definition MAX_CHUNK : Z := 2 ^ 63 - 6.

Inductive verdict : Type :=
| More (state : sw) (size : Z) (body : list Z)
| Done (body unread : list Z)
| Bad
| TooLarge
| Overflow.

Fixpoint ideal (max : Z) (input : list Z) (state : sw) (size : Z) (body : list Z)
    : verdict :=
  match input with
  | [] => More state size body
  | c :: input' =>
      match state with
      | sw_chunk_data =>
          if negb (max =? 0) && (max - Z.of_nat (length body) <? size) then TooLarge
          else ideal max input' (if size =? 1 then sw_after_data else sw_chunk_data)
                 (size - 1) (body ++ [c])
      | _ =>
          match step [] 0 c (state, size) with
          | Next (state', size') =>
              if bool_decide (state = sw_chunk_size) && bool_decide (state' = sw_chunk_size) &&
                 match hex_digit c with
                 | Some d => MAX_CHUNK <? size * 16 + d
                 | None => false
                 end
              then Overflow
              else ideal max input' state' size' body
          | Redo _ => Bad
          | Stop l_done _ => Done body input'
          | Stop _ _ => Bad
          end
      end
  end.

(** Reading in two parts. *)
Lemma ideal_app max a b state size body :
  ideal max (a ++ b) state size body =
  match ideal max a state size body with
  | More state' size' body' => ideal max b state' size' body'
  | Done body' unread => Done body' (unread ++ b)
  | v => v
  end.
Proof.
  revert state size body. induction a as [|c a IH]; intros state size body; [done|].
  cbn [app ideal].
  destruct state; try destruct (_ && _); try done;
    try (destruct (step [] 0 c _) as [[state' size']|?|[] ?]; try done;
         try destruct (_ && _); done); by apply IH.
Qed.

(** The sizes the states can have. *)
Definition size_ok (state : sw) (size : Z) : Prop :=
  0 <= size <= MAX_CHUNK /\
  match state with
  | sw_chunk_extension | sw_chunk_extension_almost_done | sw_chunk_data => size <> 0
  | _ => True
  end.

Lemma hex_digit_range c d : is_byte c -> hex_digit c = Some d -> 0 <= d < 16.
Proof.
  intros Hc H.
  pose proof (byte_forall (fun c => match hex_digit c with
                                    | Some d => (0 <=? d) && (d <? 16) | None => true end)
                eq_refl c Hc) as Hb.
  cbv beta in Hb. rewrite H in Hb. lia.
Qed.

(** A pass of the switch outside the data, as [ideal] sees it. *)
Lemma step_size_ok c state size state' size' :
  is_byte c -> size_ok state size ->
  step [] 0 c (state, size) = Next (state', size') ->
  bool_decide (state = sw_chunk_size) && bool_decide (state' = sw_chunk_size) &&
    match hex_digit c with Some d => MAX_CHUNK <? size * 16 + d | None => false end = false ->
  size_ok state' size'.
Proof.
  intros Hb [Hs Hn] Hst Hov. unfold size_ok, MAX_CHUNK in *.
  destruct state; cbn [step] in Hst;
    unfold skip_line, want_lf, after_size, size_push in Hst;
    try destruct (hex_digit c) as [d|] eqn:Hd;
    repeat case_match; simplify_eq; try (split; [lia|]; (done || lia)).
  - pose proof (hex_digit_range _ _ Hb Hd). split; [lia|done].
  - pose proof (hex_digit_range _ _ Hb Hd).
    rewrite !bool_decide_true in Hov by done. cbn [andb] in Hov.
    rewrite i64_small by lia. split; [lia|done].
Qed.

(** The loop of [ngx_http_parse_chunked] stays in step with [ideal]. *)
Lemma scan_ideal max f buf p state size body :
  bytes buf -> size_ok state size -> (length buf - p < f)%nat ->
  ideal max (drop p buf) state size body = Overflow \/
  match scan step f buf p (state, size) with
  | Exhausted q (state', size') =>
      ideal max (drop p buf) state size body = More state' size' body /\
      drop q buf = [] /\ size_ok state' size'
  | Stopped l_data q (state', size') =>
      ideal max (drop p buf) state size body = ideal max (drop q buf) sw_chunk_data size' body /\
      state' = sw_chunk_data /\ (p <= q < length buf)%nat /\ size_ok sw_chunk_data size'
  | Stopped l_done q _ =>
      ideal max (drop p buf) state size body = Done body (drop (S q) buf)
  | Stopped l_invalid q _ => ideal max (drop p buf) state size body = Bad
  | NoFuel => False
  end.
Proof.
  intros Hbytes. revert p state size. induction f as [|f IH]; intros p state size Hok Hf; [lia|].
  cbn [scan]. destruct (buf !! p) as [c|] eqn:Hc.
  2:{ right. apply lookup_ge_None in Hc. rewrite drop_ge by done. split_and!; done || apply Hok. }
  assert (is_byte c) as Hb by (eapply Forall_lookup_1; eauto).
  pose proof (lookup_lt_Some _ _ _ Hc) as Hlt.
  destruct (decide (state = sw_chunk_data)) as [->|Hnd].
  { right. cbn [step]. auto with lia. }
  rewrite (drop_S _ _ _ Hc).
  assert (ideal max (c :: drop (S p) buf) state size body =
    match step [] 0 c (state, size) with
    | Next (state', size') =>
        if bool_decide (state = sw_chunk_size) && bool_decide (state' = sw_chunk_size) &&
           match hex_digit c with Some d => MAX_CHUNK <? size * 16 + d | None => false end
        then Overflow else ideal max (drop (S p) buf) state' size' body
    | Redo _ => Bad
    | Stop l_done _ => Done body (drop (S p) buf)
    | Stop _ _ => Bad
    end) as -> by (by destruct state).
  change (step buf p c (state, size)) with (step [] 0 c (state, size)).
  destruct (step [] 0 c (state, size)) as [[state' size']|?|l s'] eqn:Hst.
  - destruct (_ && _) eqn:Hov; [by left|].
    pose proof (step_size_ok _ _ _ _ _ Hb Hok Hst Hov) as Hok'.
    destruct (IH (S p) state' size' Hok' ltac:(lia)) as [H|H]; [by left|right].
    destruct (scan _ _ _ _ _) as [q [??]|[] q [??]|]; intuition lia.
  - exfalso. destruct state; cbn [step] in Hst;
      unfold skip_line, want_lf, after_size in Hst; repeat case_match; done.
  - right. destruct l, s' as [state' size']; [|done|done].
    exfalso. destruct state; cbn [step] in Hst;
      unfold skip_line, want_lf, after_size in Hst; repeat case_match; done.
Qed.

Lemma chunk_length_ok state size :
  size_ok state size -> 0 < chunk_length state size < 2 ^ 63.
Proof.
  intros [Hs Hn]. unfold MAX_CHUNK in Hs.
  destruct state; cbn [chunk_length]; rewrite ?i64_small; try lia;
    destruct (size =? 0); lia.
Qed.

Lemma epilogue_ok rc q state size :
  size_ok state size ->
  epilogue rc q (state, size) = (rc, q, mk_chunked state size (chunk_length state size)).
Proof.
  intros Hok. pose proof (chunk_length_ok _ _ Hok). destruct Hok as [Hs _].
  unfold epilogue. destruct (Z.ltb_spec size 0); [lia|].
  destruct (Z.ltb_spec (chunk_length state size) 0); [lia|done].
Qed.

Lemma entry_state_ok ctx :
  size_ok (ctx_state ctx) (ctx_size ctx) -> entry_state ctx = ctx_state ctx.
Proof.
  intros [_ Hn]. unfold entry_state. case_bool_decide as E; [|done].
  rewrite E in Hn. destruct (Z.eqb_spec (ctx_size ctx) 0); done.
Qed.

(** What one call of the parser reports, in terms of [ideal]. *)
Inductive parsed (max : Z) (buf : list Z) (pos : nat) (state : sw) (size : Z) (body : list Z)
    : Z * nat * chunked_t -> Prop :=
| parsed_again q state' size' :
    ideal max (drop pos buf) state size body = More state' size' body ->
    drop q buf = [] -> size_ok state' size' ->
    parsed max buf pos state size body
      (NGX_AGAIN, q, mk_chunked state' size' (chunk_length state' size'))
| parsed_ok q size' :
    ideal max (drop pos buf) state size body =
      ideal max (drop q buf) sw_chunk_data size' body ->
    (pos <= q < length buf)%nat -> size_ok sw_chunk_data size' ->
    parsed max buf pos state size body
      (NGX_OK, q, mk_chunked sw_chunk_data size' (chunk_length sw_chunk_data size'))
| parsed_done q size' len :
    ideal max (drop pos buf) state size body = Done body (drop q buf) ->
    parsed max buf pos state size body (NGX_DONE, q, mk_chunked sw_chunk_start size' len)
| parsed_bad q ctx :
    ideal max (drop pos buf) state size body = Bad ->
    parsed max buf pos state size body (NGX_ERROR, q, ctx).

Lemma parse_chunked_ideal max buf pos ctx body :
  bytes buf -> size_ok (entry_state ctx) (ctx_size ctx) ->
  ideal max (drop pos buf) (entry_state ctx) (ctx_size ctx) body = Overflow \/
  parsed max buf pos (entry_state ctx) (ctx_size ctx) body (parse_chunked buf pos ctx).
Proof.
  intros Hb Hok. unfold parse_chunked, run_scan.
  destruct (scan_ideal max (scan_fuel 0 buf pos) buf pos _ _ body Hb Hok) as [H|H];
    [unfold scan_fuel; lia|by left|right].
  destruct (scan _ _ _ _ _) as [q [state' size']|[] q [state' size']|]; [..|done].
  - destruct H as (H1 & H2 & H3). rewrite epilogue_ok by done. by constructor.
  - destruct H as (H1 & -> & H3 & H4). rewrite epilogue_ok by done. by constructor.
  - by constructor.
  - by constructor.
Qed.

(** The data of a chunk, [n] bytes of it at once. *)
Lemma ideal_data max n l rest size body :
  n = length l -> Z.of_nat n <= size -> (0 < n)%nat ->
  ideal max (l ++ rest) sw_chunk_data size body =
  if negb (max =? 0) && (max - Z.of_nat (length body) <? size) then TooLarge
  else ideal max rest (if Z.of_nat n =? size then sw_after_data else sw_chunk_data)
         (size - Z.of_nat n) (body ++ l).
Proof.
  revert n size body. induction l as [|c l IH]; intros n size body -> Hle Hn; [simpl in Hn; lia|].
  cbn [length app ideal] in *. destruct (_ && _) eqn:Etl; [done|].
  destruct l as [|c' l].
  - cbn [length app]. change (Z.of_nat 1) with 1.
    by rewrite (Z.eqb_sym size 1).
  - destruct (Z.eqb_spec size 1); [simpl in Hle; lia|].
    rewrite (IH (length (c' :: l)) (size - 1)) by (simpl in *; lia).
    rewrite length_app, <- app_assoc. cbn [length app].
    replace (max - Z.of_nat (length body + 1) <? size - 1) with
      (max - Z.of_nat (length body) <? size) by bool_lia.
    rewrite Etl.
    replace (Z.of_nat (S (length l)) =? size - 1) with
      (Z.of_nat (S (S (length l))) =? size) by bool_lia.
    by replace (size - 1 - Z.of_nat (S (length l))) with (size - Z.of_nat (S (S (length l)))) by lia.
Qed.

Lemma ideal_body_length max input state size body state' size' body' :
  ideal max input state size body = More state' size' body' ->
  (length body' <= length body + length input)%nat.
Proof.
  revert state size body. induction input as [|c input IH]; intros state size body;
    cbn [ideal length].
  { intros [= _ _ ->]. lia. }
  destruct state; try destruct (_ && _); try done;
    try (destruct (step [] 0 c _) as [[state1 size1]|?|[] ?]; try done;
         try destruct (_ && _)); intros H; try done; apply IH in H;
    rewrite ?length_app in H; cbn [length] in H; lia.
Qed.

(** The body state that corresponds to a state of [ideal]. *)
Definition body_rel (b : body_t) (state : sw) (size : Z) (body : list Z) : Prop :=
  entry_state (chunked b) = state /\ ctx_size (chunked b) = size /\ size_ok state size /\
  content_length_n b = Z.of_nat (length body).

Lemma wire_app a b : wire (a ++ b) = wire a ++ wire b.
Proof. unfold wire. by rewrite fmap_app, concat_app. Qed.

(** What the loop over one buffer does, for each verdict of [ideal]: [new] are
    the buffers it adds to [out]. *)
Definition buf_loop_spec (v : verdict) (buf : list Z) (out : list buf_t) (b : body_t)
    (budget : nat) (body : list Z) (r : buf_result) : Prop :=
  match v with
  | More state' size' body' => exists new b' q,
      r = Break (out ++ new) b' q /\ drop q buf = [] /\ body_rel b' state' size' body' /\
      body' = body ++ wire new /\ rest b' = chunk_length state' size' /\
      bufs b' = bufs b /\ (mem b' + length new)%nat = mem b /\ (length new <= budget)%nat
  | Done body' unread => exists new b' q,
      r = Break (out ++ new) b' q /\ drop q buf = unread /\
      body' = body ++ wire new /\ rest b' = 0 /\
      content_length_n b' = Z.of_nat (length body') /\
      bufs b' = bufs b /\ (mem b' + length new)%nat = mem b /\ (length new <= budget)%nat
  | Bad => exists b', r = Return NGX_HTTP_BAD_REQUEST b'
  | TooLarge => exists b', r = Return NGX_HTTP_REQUEST_ENTITY_TOO_LARGE b'
  | Overflow => True
  end.

Lemma buf_loop_spec_cons v buf out b x b1 budget body r :
  mem b = S (mem b1) -> bufs b1 = bufs b ->
  buf_loop_spec v buf (out ++ [x]) b1 budget (body ++ data x) r ->
  buf_loop_spec v buf out b (S budget) body r.
Proof.
  intros Hm Hb. destruct v as [state' size' body'|body' unread| | |]; [| |done..];
    intros (new & b' & q & H); exists (x :: new), b', q; revert H;
    rewrite <- !app_assoc; cbn [app length]; unfold wire; cbn [fmap list_fmap concat];
    rewrite Hb, Hm; intuition lia.
Qed.

Lemma buf_loop_spec_mono v buf out b budget budget' body r :
  (budget <= budget')%nat ->
  buf_loop_spec v buf out b budget body r -> buf_loop_spec v buf out b budget' body r.
Proof.
  intros HB. destruct v; [| |done..]; intros (new & b' & q' & H);
    exists new, b', q'; intuition lia.
Qed.

Lemma chunk_take_spec buf q size :
  (q < length buf)%nat -> 0 < size ->
  let n := chunk_take buf q size in
  (0 < n)%nat /\ Z.of_nat n <= size /\ (q + n <= length buf)%nat /\
  length (take n (drop q buf)) = n /\ drop q buf = take n (drop q buf) ++ drop (q + n) buf.
Proof.
  intros Hq Hs n. unfold n, chunk_take.
  destruct (Z.gtb_spec (Z.of_nat (length buf - q)) size).
  - rewrite length_take, length_drop, <- drop_drop, take_drop. split_and!; lia || done.
  - rewrite length_take, length_drop, <- drop_drop, take_drop. split_and!; lia || done.
Qed.

(** After a read of [n] bytes of a chunk the context is the one [ideal] has. *)
Lemma chunk_rest size n len :
  size_ok sw_chunk_data size -> (0 < n)%nat -> Z.of_nat n <= size ->
  let ctx := mk_chunked sw_chunk_data (size - Z.of_nat n) len in
  entry_state ctx = (if Z.of_nat n =? size then sw_after_data else sw_chunk_data) /\
  size_ok (entry_state ctx) (ctx_size ctx).
Proof.
  intros [[??] _] Hn Hle. unfold entry_state, size_ok. cbn.
  destruct (Z.eqb_spec (Z.of_nat n) size) as [E|E].
  - rewrite (proj2 (Z.eqb_eq (size - Z.of_nat n) 0)) by lia. cbn. split_and!; try done; lia.
  - rewrite (proj2 (Z.eqb_neq (size - Z.of_nat n) 0)) by lia. rewrite andb_false_r. cbn.
    split_and!; try done; lia.
Qed.

Lemma chunked_buf_loop_ideal fuel max buf pos out b state size body :
  bytes buf -> body_rel b state size body -> 0 <= max < 2 ^ 63 ->
  Z.of_nat (length body + (length buf - pos)) < 2 ^ 63 ->
  (length buf - pos + 1 < fuel)%nat -> (length buf - pos + 1 <= mem b)%nat ->
  buf_loop_spec (ideal max (drop pos buf) state size body) buf out b
    (length buf - pos + 1) body (chunked_buf_loop fuel max buf pos out b).
Proof.
  intros Hbytes. revert pos out b state size body.
  induction fuel as [|fuel IH]; intros pos out b state size body (He & Hz & Hok & Hcl)
    Hmax Hlen Hf Hm; [lia|].
  cbn [chunked_buf_loop]. subst state size.
  destruct (parse_chunked_ideal max buf pos (chunked b) body Hbytes Hok) as [-> | Hp]; [done|].
  destruct Hp as [q state' size' Hi Hd Hok'|q size' Hi Hq Hok'|q size' len Hi|q ctx Hi];
    rewrite Hi; cbn [Z.eqb NGX_OK NGX_DONE NGX_AGAIN NGX_ERROR Z.pos_sub Pos.eqb].
  - exists [], (b <| chunked := mk_chunked state' size' (chunk_length state' size') |>
                  <| rest := chunk_length state' size' |>), q.
    rewrite !app_nil_r. split_and!; try done; cbn; rewrite ?app_nil_r; try lia; try done.
    split_and!; try done. by apply (entry_state_ok (mk_chunked _ _ _)).
  - assert (0 < size') as Hs by (destruct Hok' as [? ?]; lia).
    destruct (chunk_take_spec buf q size' ltac:(lia) Hs) as (Hn0 & Hns & Hqn & Hl & Hd).
    cbn [ctx_size ctx_state ctx_length]. set (n := chunk_take buf q size') in *.
    assert (ideal max (drop q buf) sw_chunk_data size' body =
      if negb (max =? 0) && (max - Z.of_nat (length body) <? size') then TooLarge
      else ideal max (drop (q + n) buf)
             (if Z.of_nat n =? size' then sw_after_data else sw_chunk_data)
             (size' - Z.of_nat n) (body ++ take n (drop q buf))) as ->
      by (rewrite Hd at 1; by apply ideal_data).
    destruct b as [rst ck cl lc bf [|m]]; cbn in Hm; [lia|]. cbn in Hok, Hcl. subst cl.
    unfold too_large, palloc.
    cbn [update eta_body eta content_length_n mem rest chunked lingering_close bufs].
    rewrite i64_small by lia. destruct (negb (max =? 0) && _); [by eexists|].
    replace (length buf - pos + 1)%nat with (S (length buf - pos)) by lia.
    set (b1 := mk_body rst
      (mk_chunked sw_chunk_data (size' - Z.of_nat n) (chunk_length sw_chunk_data size'))
      (i64 (Z.of_nat (length body) + Z.of_nat n)) lc bf m).
    set (x := data_buf (take n (drop q buf)) false).
    eapply (buf_loop_spec_cons _ _ _ _ x b1); [done|done|].
    apply (buf_loop_spec_mono _ _ _ _ (length buf - (q + n) + 1)%nat); [lia|].
    apply IH; [|lia| |lia|cbn; lia].
    + destruct (chunk_rest size' n (chunk_length sw_chunk_data size') Hok' Hn0 Hns) as [He Hok1].
      rewrite <- He. split_and!; try done. cbn. rewrite length_app, Hl, i64_small by lia. lia.
    + cbn. rewrite length_app, Hl. lia.
  - destruct b as [rst ck cl lc bf [|m]]; cbn in Hm; [lia|]. cbn in Hcl. subst cl.
    exists [eof_buf]. do 2 eexists. split; [done|].
    cbn. rewrite ?app_nil_r. split_and!; try done; try lia.
  - by eexists.
Qed.

(** ** Reading a chunked body in pieces *)

Section Feed.
Variable top_input_body_filter : buf_t -> Z.
Hypothesis filters_ok : forall x, top_input_body_filter x = NGX_OK.

Lemma input_body_filters_ok inp : input_body_filters top_input_body_filter inp = NGX_OK.
Proof. induction inp as [|x inp IH]; [done|]. cbn. by rewrite filters_ok. Qed.

Lemma chain_add_copy_ok b inp :
  (length inp <= mem b)%nat ->
  ngx_chain_add_copy b inp =
  (NGX_OK, b <| bufs := bufs b ++ inp |> <| mem := (mem b - length inp)%nat |>).
Proof.
  revert b. induction inp as [|x inp IH]; intros [r c cl lc bf m] Hm; cbn in Hm |- *.
  - by rewrite app_nil_r, Nat.sub_0_r.
  - destruct m as [|m]; [lia|]. cbn. rewrite IH by (cbn; lia). cbn.
    by rewrite <- app_assoc.
Qed.

Lemma save_filter_ok b inp :
  (length inp <= mem b)%nat ->
  request_body_save_filter top_input_body_filter b inp =
  (NGX_OK, b <| bufs := bufs b ++ inp |> <| mem := (mem b - length inp)%nat |>).
Proof.
  intros Hm. unfold request_body_save_filter. rewrite chain_add_copy_ok by done. cbn.
  by rewrite input_body_filters_ok.
Qed.

(** The body between two calls: what has been received is in [bufs]. *)
Definition mid_body (b : body_t) (state : sw) (size : Z) (body : list Z) : Prop :=
  body_rel b state size body /\ wire (bufs b) = body /\ rest b <> 0 /\ rest b <> -1.

(** What a call leaves, for each verdict of [ideal] on its bytes. *)
Definition call_spec (v : verdict) (m : nat) (r : Z * body_t * list (list Z)) : Prop :=
  let '(rc, b', unread) := r in
  match v with
  | More state' size' body' => rc = NGX_OK /\ mid_body b' state' size' body' /\ (m <= mem b')%nat
  | Done body' left_over =>
      rc = NGX_OK /\ rest b' = 0 /\ wire (bufs b') = body' /\ concat unread = left_over /\
      content_length_n b' = Z.of_nat (length body')
  | Bad => rc = NGX_HTTP_BAD_REQUEST
  | TooLarge => rc = NGX_HTTP_REQUEST_ENTITY_TOO_LARGE
  | Overflow => True
  end.

Lemma chunked_chain_one max buf b state size body m :
  bytes buf -> mid_body b state size body -> 0 <= max < 2 ^ 63 ->
  Z.of_nat (length body + length buf) < 2 ^ 63 ->
  (m + 2 * length buf + 2 <= mem b)%nat ->
  call_spec (ideal max buf state size body) m
    (chunked_chain_loop top_input_body_filter max [buf] [] [] b).
Proof.
  intros Hb (Hrel & Hw & Hr0 & Hr1) Hmax Hlen Hm.
  pose proof (chunked_buf_loop_ideal (buf_fuel buf) max buf 0 [] b state size body Hb Hrel Hmax)
    as H.
  rewrite drop_0, Nat.sub_0_r in H.
  specialize (H ltac:(lia) ltac:(unfold buf_fuel; lia) ltac:(lia)).
  cbn [chunked_chain_loop]. destruct (ideal max buf state size body) as
    [state' size' body'|body' left_over| | |]; cbn [buf_loop_spec] in H.
  - destruct H as (new & b' & q & -> & Hd & Hrel' & -> & Hrest & Hbf & Hmem & Hnew).
    cbn [chunked_chain_loop app]. rewrite save_filter_ok by lia. cbn [call_spec].
    pose proof Hrel' as (He & Hz & Hok & Hcl). pose proof (chunk_length_ok _ _ Hok).
    destruct b' as [r' c' cl' lc' bf' m']; cbn in *. subst bf' r'.
    split; [done|]. split; [|lia]. split; [done|]. cbn. rewrite wire_app, Hw.
    split_and!; done || lia.
  - destruct H as (new & b' & q & -> & Hd & -> & Hrest & Hcl & Hbf & Hmem & Hnew).
    cbn [chunked_chain_loop app]. rewrite save_filter_ok by lia. cbn [call_spec concat].
    destruct b' as [r' c' cl' lc' bf' m']; cbn in *. subst bf' r'.
    rewrite wire_app, Hw, app_nil_r. done.
  - by destruct H as (b' & ->).
  - by destruct H as (b' & ->).
  - by destruct (chunked_buf_loop _ _ _ _ _ _) as [? ? ?|? ?|]; [destruct (request_body_save_filter _ _ _)|..].
Qed.

(** One call for each piece that is received, until the body is complete or a
    call fails, as the reading loop of [ngx_http_do_read_client_request_body]
    does. *)
Fixpoint feed (max : Z) (b : body_t) (pieces : list (list Z)) : Z * body_t * list (list Z) :=
  match pieces with
  | [] => (NGX_OK, b, [])
  | x :: pieces' =>
      let '(rc, b, unread) := request_body_filter top_input_body_filter true max b [x] in
      if negb (rc =? NGX_OK) then (rc, b, unread)
      else if rest b =? 0 then (rc, b, unread ++ pieces')
      else feed max b pieces'
  end.

Definition feed_mem (pieces : list (list Z)) : nat :=
  2 * length (concat pieces) + 2 * length pieces.

Lemma feed_mid max b pieces state size body :
  bytes (concat pieces) -> mid_body b state size body -> 0 <= max < 2 ^ 63 ->
  Z.of_nat (length body + length (concat pieces)) < 2 ^ 63 ->
  (feed_mem pieces <= mem b)%nat ->
  call_spec (ideal max (concat pieces) state size body) 0 (feed max b pieces).
Proof.
  revert b state size body. induction pieces as [|x pieces IH];
    intros b state size body Hb Hmid Hmax Hlen Hm.
  { cbn. split_and!; done || lia. }
  unfold feed_mem in *. cbn [concat feed length] in *. rewrite length_app in *.
  apply Forall_app in Hb as [Hbx Hb].
  pose proof Hmid as ((_ & _ & _ & Hcl) & _ & _ & Hr1).
  unfold request_body_filter, request_body_chunked_filter.
  rewrite (proj2 (Z.eqb_neq _ _) Hr1).
  pose proof (chunked_chain_one max x b state size body
    (2 * length (concat pieces) + 2 * length pieces)%nat Hbx Hmid Hmax
    ltac:(lia) ltac:(lia)) as H.
  rewrite ideal_app. destruct (chunked_chain_loop _ _ _ _ _ _) as [[rc b'] unread].
  destruct (ideal max x state size body) as [state' size' body'|body' lo| | |] eqn:Hi;
    cbn [call_spec] in H.
  - destruct H as (-> & Hmid' & Hm'). change (negb (NGX_OK =? NGX_OK)) with false. cbv iota.
    pose proof Hmid' as (_ & _ & Hr & _). rewrite (proj2 (Z.eqb_neq _ _) Hr).
    pose proof (ideal_body_length _ _ _ _ _ _ _ _ Hi).
    apply IH; try done. lia.
  - destruct H as (-> & Hr & Hw & Hu & Hc). cbn [call_spec].
    change (negb (NGX_OK =? NGX_OK)) with false. cbv iota.
    rewrite (proj2 (Z.eqb_eq _ _) Hr). cbn [call_spec]. rewrite concat_app, Hu. done.
  - by subst rc.
  - by subst rc.
  - by destruct (negb _), (rest b' =? 0); try destruct (feed _ _ _) as [[??]?].
Qed.

(** The first call also allocates and resets the context. *)
Lemma feed_first max b pieces :
  bytes (concat pieces) -> pieces <> [] -> rest b = -1 -> bufs b = [] -> 0 <= max < 2 ^ 63 ->
  Z.of_nat (length (concat pieces)) < 2 ^ 63 -> (S (feed_mem pieces) <= mem b)%nat ->
  call_spec (ideal max (concat pieces) sw_chunk_start 0 []) 0 (feed max b pieces).
Proof.
  intros Hb Hne Hr Hbf Hmax Hlen Hm. destruct pieces as [|x pieces]; [done|].
  destruct b as [r c cl lc bf [|m]]; cbn in Hr, Hbf, Hm; [lia|]. subst r bf.
  set (b1 := mk_body 3 chunked_init 0 lc [] m).
  replace (feed max _ (x :: pieces)) with (feed max b1 (x :: pieces)) by done.
  apply feed_mid; try done; try (cbn; lia).
Qed.
End Feed.

(** The reason for the bound: the sign of the size is tested where a buffer ends
    or the data starts, so a size that wraps around twice is accepted when it
    comes in one read and refused when the read ends in the middle. *)
Example chunk_size_wraps :
  fst (fst (parse_chunked (bs "80000000000000010" ++ CRLF ++ bs "x") 0 chunked_init)) = NGX_OK /\
  ctx_size (snd (parse_chunked (bs "80000000000000010" ++ CRLF ++ bs "x") 0 chunked_init)) = 16 /\
  fst (fst (parse_chunked (bs "8000000000000001") 0 chunked_init)) = NGX_ERROR.
Proof. split_and!; vm_compute; reflexivity. Qed.

(** ** The encoders put well-formed chunks on the wire *)

Lemma wire_nil : wire [] = [].
Proof. done. Qed.

Lemma wire_cons x l : wire (x :: l) = data x ++ wire l.
Proof. done. Qed.

(** The value of hexadecimal digits, without a width. *)
Fixpoint hex_fold (ds : list Z) (v : Z) : option Z :=
  match ds with
  | [] => Some v
  | c :: ds' => match hex_digit c with Some d => hex_fold ds' (v * 16 + d) | None => None end
  end.

Lemma hex_fold_app a b v : hex_fold (a ++ b) v = hex_fold a v ≫= hex_fold b.
Proof.
  revert v. induction a as [|c a IH]; intros v; simpl; [done|]. by destruct (hex_digit c).
Qed.

Lemma hex_fold_mono ds v w : bytes ds -> 0 <= v -> hex_fold ds v = Some w -> v <= w.
Proof.
  intros Hb. revert v. induction Hb as [|c ds Hc Hb IH]; intros v Hv; cbn.
  { intros [= ->]. lia. }
  destruct (hex_digit c) as [d|] eqn:Hd; [|done]. intros H.
  pose proof (hex_digit_range _ _ Hc Hd). apply IH in H; lia.
Qed.

Lemma hex_char_byte tbl d : tbl = hex_lower \/ tbl = hex_upper -> 0 <= d < 16 ->
  is_byte (hex_char tbl d).
Proof.
  intros Ht Hd. pose proof (hex_char_digit tbl d Ht Hd) as H. revert H.
  unfold hex_digit, is_hex20, in_range, is_digit, in_range, is_byte, lower20.
  set (c := hex_char tbl d). intros H.
  destruct ((48 <=? c) && (c <=? 57)) eqn:E1; [lia|].
  destruct ((97 <=? Z.lor c 32) && (Z.lor c 32 <=? 102)) eqn:E2; [|done].
  assert (0 <= Z.lor c 32) as Hn by lia. apply Z.lor_nonneg in Hn as [Hn _].
  assert (c <= Z.lor c 32) by (by apply Z.ldiff_le; [lia|]; Z.bitwise; rewrite negb_orb, andb_assoc, andb_negb_r).
  lia.
Qed.

Lemma hex_digits_fold fuel tbl ui :
  tbl = hex_lower \/ tbl = hex_upper ->
  0 <= ui < 16 ^ Z.of_nat fuel -> (0 < fuel)%nat ->
  hex_fold (hex_digits fuel tbl ui []) 0 = Some ui /\ hex_digits fuel tbl ui [] <> [] /\
  bytes (hex_digits fuel tbl ui []).
Proof.
  intros Ht. revert ui. induction fuel as [|f IH]; intros ui Hu Hf; [lia|]. cbn [hex_digits].
  rewrite shiftr_4, land_15.
  pose proof (Z.mod_pos_bound ui 16 ltac:(lia)) as Hm.
  pose proof (Z.div_mod ui 16 ltac:(lia)) as Hdm.
  pose proof (hex_char_byte tbl (ui mod 16) Ht Hm) as Hb.
  destruct (Z.eqb_spec (ui / 16) 0) as [E|E].
  - cbn. rewrite hex_char_digit by done. split_and!; [f_equal; lia|done|apply Forall_singleton, Hb].
  - rewrite hex_digits_acc, hex_fold_app.
    assert (0 <= ui / 16 < 16 ^ Z.of_nat f) as Hq.
    { split; [apply Z.div_pos; lia|]. apply Z.div_lt_upper_bound; [lia|].
      rewrite Nat2Z.inj_succ, Z.pow_succ_r in Hu by lia. lia. }
    assert (0 < f)%nat as Hf' by (destruct f; [simpl in Hq; lia|lia]).
    destruct (IH (ui / 16) Hq Hf') as (H1 & H2 & H3). rewrite H1. cbn.
    rewrite hex_char_digit by done. split_and!.
    + f_equal. lia.
    + by destruct (hex_digits f tbl (ui / 16) []).
    + apply Forall_app. split; [done|apply Forall_singleton, Hb].
Qed.

(** One chunk, and the end of the body. *)
Definition enc (d : list Z) (last : bool) : list Z :=
  (if bool_decide (d = []) then []
   else sprintf_xO_crlf (Z.of_nat (length d)) ++ d ++ CRLF) ++
  (if last then LAST_CHUNK else []).

(** [last_buf] of the last buffer of a chain *)
Definition ends (inp : list buf_t) : bool :=
  match List.last (map Some inp) None with Some x => last_buf x | None => false end.

Lemma chunk_links_spec keep inp mem size out total mem' :
  (forall x, x ∈ inp -> keep x = false -> data x = []) ->
  chunk_links keep inp mem size = Some (out, total, mem') ->
  0 <= size -> size + Z.of_nat (length (wire inp)) < 2 ^ 63 ->
  wire out = wire inp /\ total = size + Z.of_nat (length (wire inp)) /\
  out = List.filter keep inp.
Proof.
  revert mem size out. induction inp as [|x inp IH]; intros mem size out Hk H Hs Hlt.
  { cbn in H. simplify_eq. unfold wire. cbn. split_and!; [done|lia|done]. }
  cbn [chunk_links] in H. unfold ngx_buf_size in H.
  rewrite wire_cons, length_app in *.
  rewrite i64_small in H by lia. cbn [List.filter].
  assert (forall y, y ∈ inp -> keep y = false -> data y = []) as Hk'
    by (intros y Hy; apply Hk; by constructor).
  destruct (keep x) eqn:Hkx.
  - destruct mem as [|mem]; [done|]. destruct (chunk_links keep inp mem _) as [[[o t] m]|] eqn:E;
      [|done]. cbn in H. simplify_eq.
    destruct (IH _ _ _ Hk' E) as (H1 & -> & ->); [lia|lia|].
    split_and!; [|lia|done]. by rewrite wire_cons, H1.
  - destruct (IH _ _ _ Hk' H) as (H1 & H2 & H3); [lia|lia|].
    rewrite (Hk x) in * by (done || by constructor). cbn in *. split_and!; [done|lia|done].
Qed.

Lemma clear_last_wire keep inp out : wire (clear_last keep inp out) = wire out.
Proof.
  unfold clear_last. destruct (rev inp) as [|x ?]; [done|].
  destruct (rev out) as [|y out'] eqn:E; [done|]. destruct (keep x); [|done].
  rewrite <- (rev_involutive out), E. cbn [rev]. by rewrite !wire_app.
Qed.

Lemma chunk_wrap_wire keep inp out m out' m' :
  wire out = wire inp ->
  chunk_wrap keep inp out (Z.of_nat (length (wire inp))) m = Some (out', m') ->
  wire out' = enc (wire inp) (ends inp).
Proof.
  intros Hw. unfold chunk_wrap, enc. fold (ends inp).
  destruct (Z.eqb_spec (Z.of_nat (length (wire inp))) 0) as [E|E].
  - assert (wire inp = []) as E' by (apply nil_length_inv; lia). rewrite E' in *.
    rewrite bool_decide_true by done. cbn [mbind option_bind].
    destruct (ends inp); [destruct m; [done|]|]; intros [= <- <-].
    + rewrite !wire_app, clear_last_wire, Hw. done.
    + done.
  - rewrite bool_decide_false by (intros E'; by rewrite E' in E).
    destruct (m <? 2)%nat; [done|]. cbn [mbind option_bind].
    destruct (ends inp); [destruct (m - 2)%nat; [done|]|].
    + intros [= <- <-]. rewrite wire_cons, wire_app, clear_last_wire, Hw, wire_cons.
      cbn [data data_buf]. by rewrite wire_nil, app_nil_r, <- !app_assoc.
    + destruct (Z.gtb_spec (Z.of_nat (length (wire inp))) 0); [|lia].
      destruct (m - 2)%nat; [done|]. intros [= <- <-]. rewrite wire_cons, wire_app, Hw, wire_cons.
      cbn [data data_buf]. by rewrite wire_nil, !app_nil_r.
Qed.

Lemma output_filter_wire inp m out m' :
  inp <> [] -> Z.of_nat (length (wire inp)) < 2 ^ 63 ->
  chunked_output_filter true inp m = Some (out, m') ->
  wire out = enc (wire inp) (ends inp).
Proof.
  intros Hne Hlt. destruct inp as [|x inp]; [done|]. unfold chunked_output_filter. cbn [negb].
  destruct (chunk_links _ _ _ _) as [[[o t] m1]|] eqn:E; [|done]. cbn [mbind option_bind].
  apply chunk_links_spec in E as (Hw & -> & _); [|..|lia|lia].
  - rewrite Z.add_0_l. by apply chunk_wrap_wire.
  - intros y _ Hk. unfold keep_output, ngx_buf_size in Hk.
    apply nil_length_inv. lia.
Qed.

Lemma ideal_hex max ds tail v w body :
  bytes ds -> 0 <= v -> hex_fold ds v = Some w -> w <= MAX_CHUNK ->
  ideal max (ds ++ tail) sw_chunk_size v body = ideal max tail sw_chunk_size w body.
Proof.
  intros Hb. revert v. induction Hb as [|c ds Hc Hb IH]; intros v Hv Hf Hw.
  { by injection Hf as ->. }
  cbn [app ideal step] in *. cbn [hex_fold] in Hf.
  destruct (hex_digit c) as [d|] eqn:Hd; [|done].
  pose proof (hex_digit_range _ _ Hc Hd).
  pose proof (hex_fold_mono ds (v * 16 + d) w Hb ltac:(lia) Hf). unfold MAX_CHUNK in *.
  rewrite !bool_decide_true by done. cbn [andb].
  destruct (Z.ltb_spec (2 ^ 63 - 6) (v * 16 + d)); [lia|].
  unfold size_push. rewrite i64_small by lia. apply IH; [lia|done..].
Qed.

Lemma ideal_size_crlf max n tail body :
  0 < n ->
  ideal max (CRLF ++ tail) sw_chunk_size n body = ideal max tail sw_chunk_data n body.
Proof.
  intros Hn. cbn [CRLF app ideal step]. change (hex_digit CR) with (@None Z). cbv iota.
  unfold after_size. destruct (Z.eqb_spec n 0); [lia|]. done.
Qed.

Lemma ideal_after_data_crlf max z tail body :
  ideal max (CRLF ++ tail) sw_after_data z body = ideal max tail sw_chunk_start z body.
Proof. done. Qed.

(** [ideal] reads back a chunk of the encoder. *)
Lemma ideal_enc max d tail z body :
  Z.of_nat (length d) <= MAX_CHUNK ->
  max = 0 \/ Z.of_nat (length body + length d) <= max ->
  exists z', ideal max (enc d false ++ tail) sw_chunk_start z body =
             ideal max tail sw_chunk_start z' (body ++ d).
Proof.
  intros Hd Hmax. unfold enc. destruct d as [|c d]; case_bool_decide; try done.
  { exists z. by rewrite !app_nil_r. }
  set (l := c :: d) in *. assert (0 < Z.of_nat (length l)) as Hl by (unfold l; simpl; lia).
  rewrite app_nil_r. unfold sprintf_xO_crlf.
  destruct (Z.ltb_spec (Z.of_nat (length l)) 0); [lia|].
  change (num_digits 1 ?n) with (hex_digits NGX_INT64_LEN hex_lower n []).
  destruct (hex_digits_fold NGX_INT64_LEN hex_lower (Z.of_nat (length l))) as (H1 & H2 & H3);
    [by left|unfold MAX_CHUNK, NGX_INT64_LEN in *; lia|unfold NGX_INT64_LEN; lia|].
  destruct (hex_digits _ _ _ _) as [|h hs]; [done|]. apply Forall_cons_1 in H3 as [Hh Hhs].
  rewrite <- !app_assoc. cbn [hex_fold app] in H1 |- *. cbn [ideal step].
  destruct (hex_digit h) as [dg|] eqn:Eh; [|done].
  pose proof (hex_digit_range _ _ Hh Eh).
  cbn [bool_decide decide_rel sw_eq_dec]. rewrite bool_decide_false by done. cbn [andb].
  rewrite (ideal_hex max hs _ dg _ body Hhs ltac:(lia) H1 Hd).
  rewrite ideal_size_crlf, (ideal_data max (length l) l) by lia.
  replace (negb (max =? 0) && _) with false by
    (destruct Hmax as [-> |]; [done|]; symmetry; apply andb_false_iff; right; lia).
  rewrite Z.eqb_refl, ideal_after_data_crlf. by eexists.
Qed.

Lemma ideal_last_chunk max tail z body :
  ideal max (LAST_CHUNK ++ tail) sw_chunk_start z body = Done body tail.
Proof. done. Qed.

Lemma enc_app_last d : enc d true = enc d false ++ LAST_CHUNK.
Proof. unfold enc. by rewrite app_nil_r. Qed.

Lemma enc_bytes d last : Z.of_nat (length d) <= MAX_CHUNK -> bytes d -> bytes (enc d last).
Proof.
  intros Hl Hd. unfold enc. apply Forall_app. split.
  - case_bool_decide; [constructor|]. apply Forall_app. split.
    + unfold sprintf_xO_crlf. destruct (Z.ltb_spec (Z.of_nat (length d)) 0); [lia|].
      apply Forall_app. split; [|by repeat constructor].
      apply (hex_digits_fold NGX_INT64_LEN hex_lower); [by left|..];
        unfold MAX_CHUNK, NGX_INT64_LEN in *; lia.
    + apply Forall_app. split; [done|]. by repeat constructor.
  - destruct last; by repeat constructor.
Qed.

(** A sequence of calls of the encoder, none of which ends the body. *)
Definition encoded (inp out : list buf_t) : Prop :=
  inp <> [] /\ exists m m', chunked_output_filter true inp m = Some (out, m').

Lemma encoded_wire inp out :
  encoded inp out -> Z.of_nat (length (wire inp)) <= MAX_CHUNK ->
  wire out = enc (wire inp) (ends inp).
Proof.
  intros (Hne & m & m' & H) Hlt. eapply output_filter_wire; [done| |done].
  unfold MAX_CHUNK in Hlt. lia.
Qed.

Lemma ideal_calls max calls outs tail z body :
  Forall2 encoded calls outs -> Forall (fun inp => ends inp = false) calls ->
  Z.of_nat (length (concat (wire <$> calls))) <= MAX_CHUNK ->
  max = 0 \/ Z.of_nat (length body + length (concat (wire <$> calls))) <= max ->
  exists z', ideal max (concat (wire <$> outs) ++ tail) sw_chunk_start z body =
             ideal max tail sw_chunk_start z' (body ++ concat (wire <$> calls)).
Proof.
  intros H. revert z body. induction H as [|inp out calls outs He H IH];
    intros z body Hend Hlen Hmax; cbn [fmap list_fmap concat] in *.
  { exists z. by rewrite app_nil_r. }
  apply Forall_cons_1 in Hend as [Hi Hend]. rewrite length_app in *.
  rewrite (encoded_wire _ _ He), Hi by lia. rewrite <- app_assoc.
  destruct (ideal_enc max (wire inp) (concat (wire <$> outs) ++ tail) z body) as [z1 ->];
    [lia|destruct Hmax; [by left|right; lia]|].
  destruct (IH z1 (body ++ wire inp) Hend) as [z2 ->];
    [lia|rewrite length_app; destruct Hmax; [by left|right; lia]|].
  exists z2. by rewrite <- app_assoc.
Qed.

Lemma encoded_bytes calls outs :
  Forall2 encoded calls outs -> Z.of_nat (length (concat (wire <$> calls))) <= MAX_CHUNK ->
  bytes (concat (wire <$> calls)) -> bytes (concat (wire <$> outs)).
Proof.
  intros H. induction H as [|inp out calls outs He H IH]; intros Hlen Hb; [done|].
  cbn [fmap list_fmap concat] in *. rewrite length_app in Hlen.
  apply Forall_app in Hb as [Hb1 Hb2]. apply Forall_app. split; [|apply IH; [lia|done]].
  rewrite (encoded_wire _ _ He) by lia. apply enc_bytes; [lia|done].
Qed.

(** C9: what [ngx_http_chunked_output_filter] encodes, the request body filter
    decodes.  For a body sent by any number of encoder calls, the last of which
    carries [last_buf], and received in any pieces, the decoder finishes with
    exactly the bytes of the original buffers, their number in
    [content_length_n] and nothing left unread. *)
Theorem chunked_roundtrip top_input_body_filter max calls fin outs out pieces m :
  (forall x, top_input_body_filter x = NGX_OK) ->
  Forall2 encoded calls outs -> Forall (fun inp => ends inp = false) calls ->
  encoded fin out -> ends fin = true ->
  concat pieces = concat (wire <$> outs) ++ wire out -> pieces <> [] ->
  let body := concat (wire <$> calls) ++ wire fin in
  bytes body -> Z.of_nat (length (concat pieces)) <= MAX_CHUNK ->
  Z.of_nat (length body) <= MAX_CHUNK ->
  0 <= max < 2 ^ 63 -> max = 0 \/ Z.of_nat (length body) <= max -> (feed_mem pieces < m)%nat ->
  let '(rc, b, unread) :=
    feed top_input_body_filter max (mk_body (-1) chunked_init 0 false [] m) pieces in
  rc = NGX_OK /\ rest b = 0 /\ wire (bufs b) = body /\
  content_length_n b = Z.of_nat (length body) /\ concat unread = [].
Proof.
  intros Hf Hcalls Hends Hfin Hend Hp Hne body Hb Hlp Hlb Hmax Hle Hm.
  unfold body in *. rewrite length_app in *. apply Forall_app in Hb as [Hb1 Hb2].
  assert (ideal max (concat pieces) sw_chunk_start 0 [] = Done body []) as Hi.
  { rewrite Hp. destruct (ideal_calls max calls outs (wire out) 0 [] Hcalls Hends) as [z ->];
      [lia|cbn; destruct Hle; [by left|right; lia]|].
    rewrite (encoded_wire _ _ Hfin), Hend, enc_app_last by lia.
    destruct (ideal_enc max (wire fin) LAST_CHUNK z (concat (wire <$> calls))) as [z' Hz];
      [lia|destruct Hle; [by left|right; lia]|].
    cbn [app]. rewrite Hz. apply (ideal_last_chunk max []). }
  pose proof (feed_first top_input_body_filter Hf max (mk_body (-1) chunked_init 0 false [] m)
                pieces) as H. rewrite Hi in H.
  destruct (feed _ _ _ _) as [[rc b] unread]. unfold MAX_CHUNK in *.
  destruct H as (-> & Hr & Hw & Hu & Hcl); try done; try (cbn; lia).
  - rewrite Hp. apply Forall_app. split; [by eapply encoded_bytes; [| |]; unfold MAX_CHUNK; eauto; lia|].
    rewrite (encoded_wire _ _ Hfin) by (unfold MAX_CHUNK; lia).
    apply enc_bytes; [unfold MAX_CHUNK; lia|done].
  - unfold body in Hcl. rewrite length_app in Hcl. done.
Qed.

Lemma chunked_roundtrip_witness :
  let '(rc, b, unread) :=
    feed (fun _ => NGX_OK) 0 (mk_body (-1) chunked_init 0 false [] 100)
      [bs "5" ++ [CR]; [LF] ++ bs "hel"; bs "lo" ++ CRLF ++ bs "5" ++ CRLF ++ bs "world";
       CRLF ++ LAST_CHUNK] in
  rc = NGX_OK /\ rest b = 0 /\ wire (bufs b) = bs "helloworld" /\
  content_length_n b = 10 /\ concat unread = [].
Proof.
  refine (chunked_roundtrip (fun _ => NGX_OK) 0 [[data_buf (bs "hello") false]]
    [data_buf (bs "world") true]
    [[data_buf (bs "5" ++ CRLF) false; data_buf (bs "hello") false; data_buf CRLF false]]
    [data_buf (bs "5" ++ CRLF) false; data_buf (bs "world") false;
     data_buf (CRLF ++ LAST_CHUNK) true]
    [bs "5" ++ [CR]; [LF] ++ bs "hel"; bs "lo" ++ CRLF ++ bs "5" ++ CRLF ++ bs "world";
     CRLF ++ LAST_CHUNK] 100 (fun _ => eq_refl) _ _ _ _ _ _ _ _ _ _ _ _).
  - constructor; [|constructor]. split; [done|]. by exists 9%nat, 5%nat.
  - by repeat constructor.
  - split; [done|]. by exists 9%nat, 5%nat.
  - done.
  - done.
  - done.
  - repeat constructor; done.
  - done.
  - done.
  - lia.
  - by left.
  - unfold feed_mem. cbn. lia.
Defined.

(** ** Bodies with a length *)

Lemma wire_one d l : wire [data_buf d l] = d.
Proof. apply app_nil_r. Qed.

Section FeedLength.
Variable top_input_body_filter : buf_t -> Z.
Hypothesis filters_ok : forall x, top_input_body_filter x = NGX_OK.

(** What a call with the chain [inp] makes of a body of which [n] bytes are
    missing. *)
Definition length_spec (n : nat) (inp unread : list (list Z)) (out : list buf_t) (b : body_t)
    (r : Z * body_t * list (list Z)) : Prop :=
  exists b' u,
    r = (NGX_OK, b', unread ++ u) /\ concat u = drop n (concat inp) /\
    wire (bufs b') = wire (bufs b) ++ wire out ++ take n (concat inp) /\
    rest b' = Z.of_nat (n - length (concat inp)) /\
    existsb last_buf (bufs b') = existsb last_buf (bufs b) || existsb last_buf out ||
      bool_decide (0 < n <= length (concat inp))%nat /\
    (mem b <= mem b' + length out + 2 * length inp)%nat.

(** The call ends when the chain or the body does. *)
Lemma length_save n inp unread out b :
  rest b = Z.of_nat n -> (length out <= mem b)%nat -> inp = [] \/ n = 0%nat ->
  length_spec n inp unread out b
    (request_body_save_filter top_input_body_filter b out, unread ++ inp).
Proof.
  intros Hr Hm Hn. rewrite save_filter_ok by done. eexists _, inp. split; [done|].
  destruct b as [r c cl lc bf m]. cbn in *. subst r.
  rewrite wire_app, existsb_app. destruct Hn as [-> | ->]; cbn.
  - rewrite drop_nil, take_nil, app_nil_r, Nat.sub_0_r. split_and!; try done; [|lia].
    rewrite bool_decide_false by lia. by rewrite orb_false_r.
  - rewrite drop_0, take_0, app_nil_r, bool_decide_false, orb_false_r by lia.
    split_and!; done || lia.
Qed.

Lemma length_chain_loop_spec inp out unread b n :
  rest b = Z.of_nat n -> (length out + 2 * length inp <= mem b)%nat ->
  length_spec n inp unread out b
    (length_chain_loop top_input_body_filter inp out unread b).
Proof.
  revert out unread b n. induction inp as [|x inp IH]; intros out unread b n Hr Hm.
  { cbn [length_chain_loop].
    pose proof (length_save n [] unread out b Hr ltac:(simpl in Hm; lia) (or_introl eq_refl)) as H.
    by rewrite app_nil_r in H. }
  cbn [length_chain_loop]. destruct (Z.eqb_spec (rest b) 0) as [E|E].
  { apply length_save; [done|simpl in Hm; lia|right; lia]. }
  destruct b as [r c cl lc bf m]. cbn in Hr, E, Hm. subst r.
  destruct m as [|m]; [lia|]. unfold palloc. cbn. 
  destruct (Z.ltb_spec (Z.of_nat (length x)) (Z.of_nat n)) as [Hx|Hx].
  - edestruct (IH (out ++ [data_buf x false]) (unread ++ [[]])
      (mk_body (Z.of_nat n - Z.of_nat (length x)) c cl lc bf m) (n - length x)%nat)
      as (b' & u & -> & H1 & H2 & H3 & H4 & H5); cbn; [lia|rewrite length_app; cbn; lia|].
    exists b', ([] :: u). rewrite <- app_assoc. split; [done|]. cbn in *.
    rewrite length_app in *. cbn in *.
    rewrite H1, H2, H4, wire_app, <- !app_assoc, existsb_app. cbn.
    rewrite (drop_app_ge x), (take_app_ge x), wire_one, orb_false_r by lia.
    split_and!; try done; [lia| |lia]. f_equal. apply bool_decide_ext. lia.
  - rewrite Nat2Z.id. edestruct (IH (out ++ [data_buf (take n x) true]) (unread ++ [drop n x])
      (mk_body 0 c cl lc bf m) 0%nat)
      as (b' & u & -> & H1 & H2 & H3 & H4 & H5); cbn; [done|rewrite length_app; cbn; lia|].
    exists b', (drop n x :: u). rewrite <- app_assoc. split; [done|]. cbn in *.
    rewrite length_app in *. cbn in *.
    rewrite H1, H2, H3, H4, wire_app, <- !app_assoc, existsb_app. cbn.
    rewrite (drop_app_le x), (take_app_le x), wire_one, take_0, app_nil_r by lia.
    rewrite (bool_decide_true (0 < n <= _)%nat), !orb_true_r by lia. cbn.
    split_and!; done || lia.
Qed.

(** One call for each chain of buffers that is received, until the body is
    complete. *)
Fixpoint feed_length (b : body_t) (calls : list (list (list Z))) : Z * body_t * list (list Z) :=
  match calls with
  | [] => (NGX_OK, b, [])
  | inp :: calls' =>
      let '(rc, b, unread) := request_body_filter top_input_body_filter false 0 b inp in
      if negb (rc =? NGX_OK) then (rc, b, unread)
      else if rest b =? 0 then (rc, b, unread ++ concat calls')
      else feed_length b calls'
  end.

Lemma feed_length_mid calls b n :
  rest b = Z.of_nat n -> (0 < n)%nat -> existsb last_buf (bufs b) = false ->
  (2 * length (concat calls) <= mem b)%nat ->
  let '(rc, b', unread) := feed_length b calls in
  let s := concat (concat calls) in
  rc = NGX_OK /\ wire (bufs b') = wire (bufs b) ++ take n s /\
  rest b' = Z.of_nat (n - length s) /\ concat unread = drop n s /\
  existsb last_buf (bufs b') = bool_decide (n <= length s)%nat.
Proof.
  revert b n. induction calls as [|inp calls IH]; intros b n Hr Hn Hl Hm.
  { cbn. rewrite take_nil, drop_nil, app_nil_r, Nat.sub_0_r, Hl, bool_decide_false by lia. done. }
  cbn [feed_length concat]. unfold request_body_filter, request_body_length_filter.
  cbn [concat] in Hm. rewrite length_app in Hm.
  rewrite (proj2 (Z.eqb_neq (rest b) (-1))) by lia.
  destruct (length_chain_loop_spec inp [] [] b n Hr) as (b1 & u & -> & Hu & Hw & Hr1 & Hb & Hm1);
    [simpl; lia|].
  rewrite Hl, wire_nil in *. cbn [app existsb length negb NGX_OK Z.eqb orb] in *.
  rewrite concat_app, length_app.
  destruct (Z.eqb_spec (rest b1) 0) as [E|E].
  - rewrite Hw, Hb, drop_app_le, take_app_le, concat_app, Hu by lia.
    split_and!; try done; [lia|]. apply bool_decide_ext. lia.
  - rewrite bool_decide_false in Hb by lia.
    specialize (IH b1 (n - length (concat inp))%nat Hr1 ltac:(lia) Hb ltac:(lia)).
    destruct (feed_length b1 calls) as [[rc b'] unread]. cbv zeta in IH.
    destruct IH as (-> & -> & -> & -> & ->).
    rewrite Hw, take_app_ge, drop_app_ge, take_ge, <- app_assoc by lia.
    split_and!; try done; [lia|]. apply bool_decide_ext. lia.
Qed.
End FeedLength.

(** a body with a [Content-Length] of [n] bytes, received in any chains of
    buffers: the filter stores exactly the first [n] bytes of the stream, marks
    the last buffer exactly when they are all there, keeps in [rest] how many
    are missing, and leaves the bytes behind the body unread. *)
Theorem length_filter_body top_input_body_filter calls n ck m :
  (forall x, top_input_body_filter x = NGX_OK) -> (0 < n)%nat -> calls <> [] ->
  (2 * length (concat calls) <= m)%nat ->
  let '(rc, b, unread) :=
    feed_length top_input_body_filter (mk_body (-1) ck (Z.of_nat n) false [] m) calls in
  let s := concat (concat calls) in
  rc = NGX_OK /\ wire (bufs b) = take n s /\ rest b = Z.of_nat (n - length s) /\
  concat unread = drop n s /\ existsb last_buf (bufs b) = bool_decide (n <= length s)%nat.
Proof.
  intros Hf Hn Hc Hm. destruct calls as [|inp calls]; [done|].
  assert (feed_length top_input_body_filter (mk_body (-1) ck (Z.of_nat n) false [] m) (inp :: calls) =
    feed_length top_input_body_filter (mk_body (Z.of_nat n) ck (Z.of_nat n) false [] m)
      (inp :: calls)) as ->.
  { cbn [feed_length]. unfold request_body_filter, request_body_length_filter.
    cbn [rest]. by rewrite (proj2 (Z.eqb_neq (Z.of_nat n) (-1))) by lia. }
  by apply (feed_length_mid top_input_body_filter Hf (inp :: calls)
              (mk_body (Z.of_nat n) ck (Z.of_nat n) false [] m) n).
Qed.

Lemma length_filter_body_witness :
  let '(rc, b, unread) :=
    feed_length (fun _ => NGX_OK) (mk_body (-1) chunked_init 5 false [] 8)
      [[bs "he"]; [bs "l"; bs "loGET"]] in
  rc = NGX_OK /\ wire (bufs b) = bs "hello" /\ rest b = 0 /\ concat unread = bs "GET" /\
  existsb last_buf (bufs b) = true.
Proof.
  apply (length_filter_body (fun _ => NGX_OK) [[bs "he"]; [bs "l"; bs "loGET"]] 5 chunked_init 8
           (fun _ => eq_refl)); [lia|done|cbn; lia].
Defined.

(** ** Bodies that are discarded *)

(** What the loop over one buffer does, for each verdict of [ideal]. *)
Definition discard_spec (v : verdict) (buf : list Z) (len0 : Z)
    (r : option (Z * chunked_t * Z * nat)) : Prop :=
  match v with
  | More state' size' _ => exists ctx' q,
      r = Some (NGX_OK, ctx', chunk_length state' size', q) /\ drop q buf = [] /\
      entry_state ctx' = state' /\ ctx_size ctx' = size' /\ size_ok state' size'
  | Done _ unread => exists ctx' q, r = Some (NGX_OK, ctx', 0, q) /\ drop q buf = unread
  | Bad => exists ctx' q, r = Some (NGX_HTTP_BAD_REQUEST, ctx', len0, q)
  | TooLarge => False
  | Overflow => True
  end.

Lemma discard_chunked_loop_ideal fuel buf pos ctx len0 body :
  bytes buf -> size_ok (entry_state ctx) (ctx_size ctx) -> (length buf - pos + 1 < fuel)%nat ->
  discard_spec (ideal 0 (drop pos buf) (entry_state ctx) (ctx_size ctx) body) buf len0
    (discard_chunked_loop fuel buf pos ctx len0).
Proof.
  intros Hb. revert pos ctx body. induction fuel as [|fuel IH]; intros pos ctx body Hok Hf; [lia|].
  cbn [discard_chunked_loop].
  destruct (parse_chunked_ideal 0 buf pos ctx body Hb Hok) as [-> | Hp]; [done|].
  destruct Hp as [q state' size' Hi Hd Hok'|q size' Hi Hq Hok'|q size' len Hi|q ctx' Hi];
    rewrite Hi; cbn [Z.eqb NGX_OK NGX_DONE NGX_AGAIN NGX_ERROR Z.pos_sub Pos.eqb].
  - eexists _, q. split; [done|]. split; [done|]. split; [|done].
    by apply (entry_state_ok (mk_chunked _ _ _)).
  - assert (0 < size') as Hs by (destruct Hok' as [? ?]; lia).
    destruct (chunk_take_spec buf q size' ltac:(lia) Hs) as (Hn0 & Hns & Hqn & Hl & Hd).
    cbn [ctx_size ctx_state ctx_length]. set (n := chunk_take buf q size') in *.
    destruct (chunk_rest size' n (chunk_length sw_chunk_data size') Hok' Hn0 Hns) as [He Hok1].
    rewrite Hd, (ideal_data 0 n) by done.
    cbn [Z.eqb negb andb]. rewrite <- He. apply IH; [done|lia].
  - by eexists _, q.
  - by eexists _, _.
Qed.

(** One call for each piece, as [ngx_http_read_discarded_request_body] makes:
    until nothing is left to read or a call fails. *)
Fixpoint feed_discard (rb : option chunked_t) (mem : nat) (len : Z) (pieces : list (list Z))
    : option (Z * Z * list (list Z)) :=
  match pieces with
  | [] => Some (NGX_OK, len, [])
  | x :: pieces' =>
      '(rc, rb, len, pos) ← discard_request_body_filter true rb mem x len;
      if negb (rc =? NGX_OK) then Some (rc, len, [])
      else if len =? 0 then Some (rc, len, drop pos x :: pieces')
      else feed_discard rb mem len pieces'
  end.

Definition feed_discard_spec (v : verdict) (r : option (Z * Z * list (list Z))) : Prop :=
  match v with
  | More _ _ _ => exists len, r = Some (NGX_OK, len, []) /\ 0 < len
  | Done _ next => exists unread, r = Some (NGX_OK, 0, unread) /\ concat unread = next
  | Bad => exists len, r = Some (NGX_HTTP_BAD_REQUEST, len, [])
  | TooLarge => False
  | Overflow => True
  end.

Lemma feed_discard_mid pieces ctx mem len body :
  bytes (concat pieces) -> size_ok (entry_state ctx) (ctx_size ctx) ->
  pieces <> [] \/ 0 < len ->
  feed_discard_spec (ideal 0 (concat pieces) (entry_state ctx) (ctx_size ctx) body)
    (feed_discard (Some ctx) mem len pieces).
Proof.
  revert ctx len body. induction pieces as [|x pieces IH]; intros ctx len body Hb Hok Hlen.
  { destruct Hlen; [done|]. cbn. eauto. }
  cbn [concat] in *. apply Forall_app in Hb as [Hx Hb].
  pose proof (discard_chunked_loop_ideal (buf_fuel x) x 0 ctx len body Hx Hok
                ltac:(unfold buf_fuel; lia)) as H.
  rewrite drop_0 in H. rewrite ideal_app. cbn [feed_discard discard_request_body_filter].
  destruct (ideal 0 x (entry_state ctx) (ctx_size ctx) body) as [st sz bd|bd lo| | |];
    cbn [discard_spec] in H.
  - destruct H as (ctx' & q & -> & Hd & <- & <- & Hok').
    pose proof (chunk_length_ok _ _ Hok'). cbn [mbind option_bind].
    change (negb (NGX_OK =? NGX_OK)) with false. cbv iota.
    rewrite (proj2 (Z.eqb_neq _ 0)) by lia. apply IH; [done..|right; lia].
  - destruct H as (ctx' & q & -> & <-). cbn. eexists. split; [done|]. done.
  - destruct H as (ctx' & q & ->). cbn. eauto.
  - done.
  - by destruct (discard_chunked_loop _ _ _ _ _) as [[[[]]]|].
Qed.

(** discarding a chunked body skips exactly the bytes that reading it would
    have stored: for any pieces the discarding calls follow the byte-by-byte
    decoder, wait for more with a positive [content_length_n] where it does,
    answer 400 where it does, and at the end of the body leave the same bytes
    for the next request, as long as no chunk size exceeds [MAX_CHUNK]. *)
Theorem discard_skips_body pieces mem len :
  bytes (concat pieces) -> pieces <> [] -> (2 <= mem)%nat ->
  feed_discard_spec (ideal 0 (concat pieces) sw_chunk_start 0 [])
    (feed_discard None mem len pieces).
Proof.
  intros Hb Hne Hm. destruct pieces as [|x pieces]; [done|].
  pose proof (feed_discard_mid (x :: pieces) chunked_init mem len [] Hb) as H.
  cbn [feed_discard] in *. unfold discard_request_body_filter in *.
  rewrite (proj2 (Nat.ltb_ge mem 2)) by done. by apply H; [|left].
Qed.

Lemma discard_skips_body_witness :
  exists unread,
    feed_discard None 2 9 [bs "3"; CRLF ++ bs "ab"; bs "c" ++ CRLF ++ bs "0" ++ CRLF; CRLF ++ bs "GET"]
      = Some (NGX_OK, 0, unread) /\ concat unread = bs "GET".
Proof.
  exact (discard_skips_body
    [bs "3"; CRLF ++ bs "ab"; bs "c" ++ CRLF ++ bs "0" ++ CRLF; CRLF ++ bs "GET"] 2 9
    ltac:(repeat constructor; done) ltac:(done) ltac:(lia)).
Defined.

(** ** The chunked coding as a text

    A reference reader of a whole text, line by line, which shares nothing with the parser: a
    line ends with LF or CR LF; a chunk is a line that begins with its size in hexadecimal,
    perhaps with an extension, then its data and what is left of that line; after a chunk of size
    zero come the trailer lines and an empty one. *)

(** The rest of a line: the text behind it, a CR without its LF, or not yet its end *)
Inductive eol : Type := Ended (rest : list Z) | Malformed | Incomplete.

Fixpoint end_of_line (l : list Z) : eol :=
  match l with
  | [] => Incomplete
  | c :: l' =>
      if c =? 10 then Ended l'
      else if c =? 13 then match l' with [] => Incomplete | d :: r => if d =? 10 then Ended r else Malformed end
      else end_of_line l'
  end.

Definition hex_value (c : Z) : option Z :=
  if in_range "0"%ch "9"%ch c then Some (c - "0"%ch)
  else if in_range "a"%ch "f"%ch c then Some (c - "a"%ch + 10)
  else if in_range "A"%ch "F"%ch c then Some (c - "A"%ch + 10)
  else None.

(** The number at the beginning of a line, if it has digits, and what follows it *)
Fixpoint read_hex (l : list Z) (v : Z) : Z * list Z :=
  match l with
  | [] => (v, [])
  | c :: l' => match hex_value c with Some d => read_hex l' (v * 16 + d) | None => (v, l) end
  end.

(** The answers; a body that is not complete yet is given as far as it is there. *)
Inductive reading : Type :=
| RMore (body : list Z)
| RDone (body unread : list Z)
| RBad
| RTooLarge
| ROverflow.

(** The trailer: lines up to an empty one *)
Fixpoint read_trailer (fuel : nat) (l body : list Z) : reading :=
  match fuel with
  | O => RMore body
  | S fuel =>
      match l with
      | [] => RMore body
      | c :: _ =>
          match end_of_line l with
          | Incomplete => RMore body
          | Malformed => RBad
          | Ended rest => if (c =? 10) || (c =? 13) then RDone body rest else read_trailer fuel rest body
          end
      end
  end.

(** The data of a chunk and the rest of its line *)
Definition read_data (next : list Z -> list Z -> reading) (max size : Z) (rest body : list Z) : reading :=
  let d := take (Z.to_nat size) rest in
  if negb (bool_decide (d = [])) && negb (max =? 0) && (max <? Z.of_nat (length body) + size) then RTooLarge
  else if Z.of_nat (length d) <? size then RMore (body ++ d)
  else
    match end_of_line (drop (Z.to_nat size) rest) with
    | Incomplete => RMore (body ++ d)
    | Malformed => RBad
    | Ended rest => next rest (body ++ d)
    end.

(** The chunks; [fuel] is at least the length of the text. *)
Fixpoint read_chunks (fuel : nat) (max : Z) (l body : list Z) : reading :=
  match fuel, l with
  | O, _ | _, [] => RMore body
  | S fuel, c :: _ =>
      match hex_value c with
      | None => RBad
      | Some _ =>
          let '(size, rest) := read_hex l 0 in
          if MAX_CHUNK <? size then ROverflow
          else
            match rest with
            | [] => RMore body
            | e :: _ =>
                if negb (existsb (Z.eqb e) (bs "; " ++ [9; 13; 10])) then RBad
                else
                  match end_of_line rest with
                  | Incomplete => RMore body
                  | Malformed => RBad
                  | Ended rest =>
                      if size =? 0 then read_trailer (length rest) rest body
                      else
                        read_data (read_chunks fuel max) max size rest body
                  end
            end
      end
  end.

Definition read_body (max : Z) (text : list Z) : reading := read_chunks (length text) max text [].

(** A verdict of the byte-wise decoder means the answer of the reference. *)
Definition means (v : verdict) (r : reading) : Prop :=
  match v, r with
  | More _ _ body, RMore body' => body = body'
  | Done body unread, RDone body' unread' => body = body' /\ unread = unread'
  | Bad, RBad | TooLarge, RTooLarge => True
  | _, ROverflow => True
  | _, _ => False
  end.

Lemma hex_value_digit c : is_byte c -> hex_digit c = hex_value c.
Proof.
  intros Hc. pose proof (byte_forall (fun c => bool_decide (hex_digit c = hex_value c)) eq_refl c Hc) as H.
  by apply bool_decide_eq_true in H.
Qed.

(** The states that wait for the end of a line *)
Lemma ideal_skip max here on_cr on_lf l size body :
  (forall c, step [] 0 c (here, size) = skip_line here on_cr on_lf size c) ->
  (forall c, step [] 0 c (on_cr, size) = want_lf on_cr on_lf size c) ->
  here <> sw_chunk_size -> on_cr <> sw_chunk_size -> here <> sw_chunk_data -> on_cr <> sw_chunk_data ->
  match end_of_line l with
  | Ended rest => ideal max l here size body = ideal max rest on_lf size body
  | Malformed => ideal max l here size body = Bad
  | Incomplete => exists st, ideal max l here size body = More st size body
  end.
Proof.
  intros Hh Hc N1 N2 N3 N4.
  assert (forall st st' x r, st <> sw_chunk_size -> st <> sw_chunk_data -> step [] 0 x (st, size) = Next (st', size) ->
    ideal max (x :: r) st size body = ideal max r st' size body) as Hn.
  { intros st st' x r M1 M2 E. destruct st; cbn [ideal]; try done; rewrite E; rewrite ?bool_decide_false by done; done. }
  assert (forall st s x r, st <> sw_chunk_size -> st <> sw_chunk_data -> step [] 0 x (st, size) = Stop l_invalid s ->
    ideal max (x :: r) st size body = Bad) as Hb.
  { intros st s x r M1 M2 E. destruct st; cbn [ideal]; try done; rewrite E; done. }
  induction l as [|c l IH]; cbn [end_of_line]; [by eexists|].
  destruct (Z.eqb_spec c 10) as [->|E1].
  { apply Hn; [done..|]. by rewrite Hh. }
  destruct (Z.eqb_spec c 13) as [->|E2].
  - assert (forall r, ideal max (13 :: r) here size body = ideal max r on_cr size body) as Hcr by (intros r; apply Hn; [done..|by rewrite Hh]).
    destruct l as [|d r]; [exists on_cr; by rewrite Hcr|]. rewrite Hcr. destruct (Z.eqb_spec d 10) as [->|E3].
    + apply Hn; [done..|]. by rewrite Hc.
    + apply (Hb on_cr (on_cr, size)); [done..|]. rewrite Hc. unfold want_lf. change LF with 10. by rewrite (proj2 (Z.eqb_neq d 10) E3).
  - assert (ideal max (c :: l) here size body = ideal max l here size body) as ->; [|exact IH].
    apply Hn; [done..|]. rewrite Hh. unfold skip_line. change LF with 10. change CR with 13.
    by rewrite (proj2 (Z.eqb_neq c 13) E2), (proj2 (Z.eqb_neq c 10) E1).
Qed.

Lemma end_of_line_length l rest : end_of_line l = Ended rest -> (length rest < length l)%nat.
Proof.
  induction l as [|c l IH]; cbn [end_of_line length]; [done|]. destruct (c =? 10); [intros [= ->]; lia|].
  destruct (c =? 13); [|intros H; specialize (IH H); lia]. destruct l as [|d r]; [done|]. cbn [length].
  destruct (d =? 10); [intros [= ->]; lia|done].
Qed.

Lemma end_of_line_bytes l rest : bytes l -> end_of_line l = Ended rest -> bytes rest.
Proof.
  induction l as [|c l IH]; cbn [end_of_line]; [done|]. intros Hb. apply Forall_cons_1 in Hb as [_ Hb].
  destruct (c =? 10); [intros [= ->]; done|]. destruct (c =? 13); [|by apply IH]. destruct l as [|d r]; [done|].
  apply Forall_cons_1 in Hb as [_ Hb]. destruct (d =? 10); [intros [= ->]; done|done].
Qed.

Lemma ideal_trailer max fuel l size body :
  (length l <= fuel)%nat -> means (ideal max l sw_trailer size body) (read_trailer fuel l body).
Proof.
  revert l. induction fuel as [|fuel IH]; intros l Hf; [destruct l; [done|cbn in Hf; lia]|].
  destruct l as [|c l]; [done|]. cbn [read_trailer].
  assert (ideal max (c :: l) sw_trailer size body =
    if c =? 13 then ideal max l sw_trailer_almost_done size body
    else if c =? 10 then Done body l else ideal max l sw_trailer_header size body) as ->.
  { cbn [ideal step]. change CR with 13. change LF with 10. destruct (c =? 13); [done|]. by destruct (c =? 10). }
  cbn [end_of_line]. destruct (Z.eqb_spec c 10) as [->|E1]; [done|]. destruct (Z.eqb_spec c 13) as [->|E2].
  - destruct l as [|d r]; [done|]. cbn [ideal step]. change LF with 10. by destruct (d =? 10).
  - cbn [orb]. pose proof (ideal_skip max sw_trailer_header sw_trailer_header_almost_done sw_trailer l size body
      (fun _ => eq_refl) (fun _ => eq_refl) ltac:(done) ltac:(done) ltac:(done) ltac:(done)) as H.
    destruct (end_of_line l) as [rest| |] eqn:Ee; [|rewrite H; done|destruct H as [st ->]; done].
    rewrite H. apply IH. apply end_of_line_length in Ee. cbn [length] in Hf. lia.
Qed.

Lemma ideal_chunk_data (next : list Z -> list Z -> reading) max size rest body :
  0 < size -> bytes rest ->
  (forall rest' z' body', (length rest' <= length rest)%nat -> bytes rest' ->
     means (ideal max rest' sw_chunk_start z' body') (next rest' body')) ->
  means (ideal max rest sw_chunk_data size body) (read_data next max size rest body).
Proof.
  intros Hs Hb Hnext. unfold read_data. destruct rest as [|x rest].
  { rewrite take_nil. cbn [ideal length]. rewrite bool_decide_true by done. cbn [negb andb].
    rewrite (proj2 (Z.ltb_lt _ _)) by lia. by rewrite app_nil_r. }
  set (l := x :: rest) in *. set (d := take (Z.to_nat size) l).
  assert (0 < length d)%nat as Hd by (unfold d, l; rewrite length_take; cbn [length]; lia).
  assert (Z.of_nat (length d) <= size) as Hds by (unfold d; rewrite length_take; lia).
  rewrite bool_decide_false by (intros E; rewrite E in Hd; cbn in Hd; lia). cbn [negb andb].
  assert (ideal max l sw_chunk_data size body = ideal max (d ++ drop (Z.to_nat size) l) sw_chunk_data size body) as ->
    by (unfold d; by rewrite take_drop).
  rewrite (ideal_data max (length d) d) by (done || lia).
  replace (max <? Z.of_nat (length body) + size) with (max - Z.of_nat (length body) <? size) by bool_lia.
  destruct (_ && _); [done|]. destruct (Z.ltb_spec (Z.of_nat (length d)) size) as [Hlt|Hge].
  - assert (drop (Z.to_nat size) l = []) as ->.
    { apply drop_ge. unfold d in Hlt. rewrite length_take in Hlt. lia. }
    rewrite (proj2 (Z.eqb_neq _ _)) by lia. done.
  - rewrite (proj2 (Z.eqb_eq _ _)) by lia.
    pose proof (ideal_skip max sw_after_data sw_after_data_almost_done sw_chunk_start (drop (Z.to_nat size) l) (size - Z.of_nat (length d)) (body ++ d)
      (fun _ => eq_refl) (fun _ => eq_refl) ltac:(done) ltac:(done) ltac:(done) ltac:(done)) as H.
    destruct (end_of_line _) as [rest'| |] eqn:Ee; [|by rewrite H|by destruct H as [st ->]].
    rewrite H. apply Hnext.
    + apply end_of_line_length in Ee. rewrite length_drop in Ee. lia.
    + eapply end_of_line_bytes; [|exact Ee]. by apply Forall_drop.
Qed.

Lemma read_hex_spec l v w rest : bytes l -> read_hex l v = (w, rest) ->
  exists ds, l = ds ++ rest /\ hex_fold ds v = Some w /\ match rest with [] => True | e :: _ => hex_digit e = None end.
Proof.
  intros Hb. revert v. induction Hb as [|c l Hc Hb IH]; intros v H; cbn [read_hex] in H.
  { injection H as <- <-. by exists []. }
  destruct (hex_value c) as [d|] eqn:Ed.
  - destruct (IH _ H) as (ds & -> & E & Hr). exists (c :: ds). split; [done|]. split; [|done].
    cbn [hex_fold]. by rewrite (hex_value_digit c Hc), Ed.
  - injection H as <- <-. exists []. split_and!; [done..|]. by rewrite hex_value_digit.
Qed.

Lemma ideal_number max l v w rest body : bytes l -> 0 <= v -> read_hex l v = (w, rest) -> w <= MAX_CHUNK ->
  ideal max l sw_chunk_size v body = ideal max rest sw_chunk_size w body.
Proof.
  intros Hb Hv H Hw. destruct (read_hex_spec l v w rest Hb H) as (ds & -> & E & _).
  apply Forall_app in Hb as [Hb _]. by apply ideal_hex.
Qed.

(** What follows the size is an extension or the end of the line. *)
Lemma ideal_after_number max e r size body : hex_digit e = None ->
  ideal max (e :: r) sw_chunk_size size body =
  if existsb (Z.eqb e) (bs "; " ++ [9; 13; 10])
  then ideal max (e :: r) (if size =? 0 then sw_last_chunk_extension else sw_chunk_extension) size body else Bad.
Proof.
  intros He. cbn [ideal step]. rewrite He. unfold after_size, is_ext_start.
  change (existsb (Z.eqb e) (bs "; " ++ [9; 13; 10])) with ((e =? 59) || ((e =? 32) || ((e =? 9) || ((e =? 13) || ((e =? 10) || false))))).
  change ";"%ch with 59. change " "%ch with 32. change CR with 13. change LF with 10.
  destruct (size =? 0); cbn [ideal step]; unfold skip_line; change CR with 13; change LF with 10;
    destruct (Z.eqb_spec e 13) as [->|]; try done; destruct (Z.eqb_spec e 10) as [->|]; try done;
    destruct (Z.eqb_spec e 59) as [->|]; try done; destruct (Z.eqb_spec e 32) as [->|]; try done; by destruct (Z.eqb_spec e 9) as [->|].
Qed.

Lemma read_hex_rest l v : (length (read_hex l v).2 <= length l)%nat.
Proof.
  revert v. induction l as [|c l IH]; intros v; cbn [read_hex]; [done|]. destruct (hex_value c); [|done].
  specialize (IH (v * 16 + z)). cbn [length]. lia.
Qed.

(** The byte-wise decoder reads what the reference reads. *)
Lemma ideal_chunks max fuel : forall l z body, (length l <= fuel)%nat -> bytes l ->
  means (ideal max l sw_chunk_start z body) (read_chunks fuel max l body).
Proof.
  induction fuel as [|fuel IH]; intros l z body Hf Hb; [destruct l; [done|cbn in Hf; lia]|].
  destruct l as [|c l]; [done|]. cbn [read_chunks]. pose proof Hb as Hbl. apply Forall_cons_1 in Hb as [Hc Hb].
  cbn [ideal step]. rewrite (hex_value_digit c Hc). cbn [read_hex]. destruct (hex_value c) as [d|] eqn:Ed; [|done].
  rewrite bool_decide_false by done. cbn [andb]. rewrite Z.mul_0_l, Z.add_0_l.
  pose proof (hex_digit_range c d Hc ltac:(by rewrite hex_value_digit)) as Hd.
  pose proof (read_hex_rest l d) as Hlen. destruct (read_hex l d) as [size rest] eqn:Er. cbn [snd] in Hlen.
  destruct (Z.ltb_spec MAX_CHUNK size) as [|Hsz]; [by destruct (ideal _ _ _ _ _)|].
  rewrite (ideal_number max l d size rest body Hb ltac:(lia) Er Hsz).
  destruct (read_hex_spec _ _ _ _ Hb Er) as (ds & -> & Ef & Hn). apply Forall_app in Hb as [Hds Hr].
  pose proof (hex_fold_mono ds d size Hds ltac:(lia) Ef) as H0.
  destruct rest as [|e r]; [done|]. rewrite ideal_after_number by done. destruct (existsb _ _); [|done]. cbn [negb].
  assert (forall here on_cr on_lf, (here = sw_last_chunk_extension /\ on_cr = sw_last_chunk_extension_almost_done /\ on_lf = sw_trailer \/
    here = sw_chunk_extension /\ on_cr = sw_chunk_extension_almost_done /\ on_lf = sw_chunk_data) ->
    match end_of_line (e :: r) with
    | Ended rest => ideal max (e :: r) here size body = ideal max rest on_lf size body
    | Malformed => ideal max (e :: r) here size body = Bad
    | Incomplete => exists st, ideal max (e :: r) here size body = More st size body
    end) as Hskip.
  { intros here on_cr on_lf Hh. apply (ideal_skip max here on_cr on_lf); destruct Hh as [(-> & -> & ->)|(-> & -> & ->)]; done. }
  destruct (Z.eqb_spec size 0) as [Ez|Ez].
  - specialize (Hskip _ _ _ (or_introl (conj eq_refl (conj eq_refl eq_refl)))).
    destruct (end_of_line (e :: r)) as [rest| |]; [rewrite Hskip; by apply ideal_trailer|by rewrite Hskip|by destruct Hskip as [st ->]].
  - specialize (Hskip _ _ _ (or_intror (conj eq_refl (conj eq_refl eq_refl)))).
    destruct (end_of_line (e :: r)) as [rest| |] eqn:Ee; [rewrite Hskip|by rewrite Hskip|by destruct Hskip as [st ->]].
    apply ideal_chunk_data; [lia|by eapply end_of_line_bytes|]. intros rest' z' body' Hl' Hb'. apply IH; [|done].
    apply end_of_line_length in Ee. rewrite length_app in Hlen. cbn [length] in *. rewrite length_app in Hf. cbn [length] in Hf. lia.
Qed.

(** C10: the request body filter is independent of how a chunked body is cut into reads.  For
    any sequence of pieces in whose text no chunk size exceeds [MAX_CHUNK], with filters that
    accept and enough memory, the calls give what the reference reader gives on the whole text: the
    same body in the buffers with its length counted, the unread bytes left for the next request,
    400 for a malformed body and 413 for one that exceeds [client_max_body_size]. *)
Theorem chunked_filter_fragments top_input_body_filter max pieces m :
  (forall x, top_input_body_filter x = NGX_OK) ->
  bytes (concat pieces) -> pieces <> [] -> 0 <= max < 2 ^ 63 ->
  Z.of_nat (length (concat pieces)) < 2 ^ 63 -> (feed_mem pieces < m)%nat ->
  read_body max (concat pieces) <> ROverflow ->
  let '(rc, b, unread) :=
    feed top_input_body_filter max (mk_body (-1) chunked_init 0 false [] m) pieces in
  match read_body max (concat pieces) with
  | RMore body => rc = NGX_OK /\ rest b <> 0 /\ wire (bufs b) = body /\
                  content_length_n b = Z.of_nat (length body)
  | RDone body next => rc = NGX_OK /\ rest b = 0 /\ wire (bufs b) = body /\
                       content_length_n b = Z.of_nat (length body) /\ concat unread = next
  | RBad => rc = NGX_HTTP_BAD_REQUEST
  | RTooLarge => rc = NGX_HTTP_REQUEST_ENTITY_TOO_LARGE
  | ROverflow => False
  end.
Proof.
  intros Hf Hb Hne Hmax Hlen Hm Hov.
  pose proof (feed_first top_input_body_filter Hf max (mk_body (-1) chunked_init 0 false [] m)
                pieces Hb Hne eq_refl eq_refl Hmax Hlen Hm) as H.
  pose proof (ideal_chunks max (length (concat pieces)) (concat pieces) 0 [] (le_n _) Hb) as Hi.
  fold (read_body max (concat pieces)) in Hi. unfold means in Hi.
  destruct (feed _ _ _ _) as [[rc b] unread].
  destruct (ideal _ _ _ _ _), (read_body _ _); try done; cbn in H.
  - subst. destruct H as (-> & ((_ & _ & _ & Hcl) & Hw & Hr & _) & _). done.
  - destruct Hi as [-> ->]. destruct H as (-> & Hr & Hw & Hu & Hcl). done.
Qed.

Lemma chunked_filter_fragments_witness :
  let '(rc, b, unread) :=
    feed (fun _ => NGX_OK) 100 (mk_body (-1) chunked_init 0 false [] 200)
      [bs "3;x"; CRLF ++ bs "ab"; bs "c" ++ CRLF ++ bs "0" ++ CRLF; bs "T: v" ++ CRLF ++ CRLF ++ bs "GET"] in
  rc = NGX_OK /\ rest b = 0 /\ wire (bufs b) = bs "abc" /\
  content_length_n b = 3 /\ concat unread = bs "GET".
Proof.
  refine (chunked_filter_fragments (fun _ => NGX_OK) 100
    [bs "3;x"; CRLF ++ bs "ab"; bs "c" ++ CRLF ++ bs "0" ++ CRLF; bs "T: v" ++ CRLF ++ CRLF ++ bs "GET"] 200
    (fun _ => eq_refl) _ _ _ _ _ _); [repeat constructor; done|done|lia|done| |vm_compute; discriminate].
  unfold feed_mem. cbn. lia.
Defined.

End HttpChunked.
