(* ===== verification/HttpUri.v ===== *)
(** * URI normalisation

    [ngx_http_parse_uri], [ngx_http_parse_complex_uri] and [ngx_http_split_args]
    of [src/src/http/ngx_http_parse.c], and the part of
    [ngx_http_process_request_uri] ([src/src/http/ngx_http_request.c]) that
    sizes the buffer and calls them (non-Win32 branches). *)

From S2P Require Import Prelude NgxString HttpRequest.

Module HttpUri.
Import NgxString.

(** ** [ngx_http_parse_uri] *)

Module ParseUri.

Inductive uri_sw : Type := sw_start | sw_after_slash_in_uri | sw_check_uri | sw_uri.

Definition pstate : Type := (uri_sw * request_t).

Definition uri_step (buf : list Z) (pos : nat) (ch : Z) (s : pstate) : action pstate unit :=
  let '(state, r) := s in
  let p := Z.of_nat pos in
  match state with
  | sw_start =>
      if negb (ch =? "/"%ch) then Stop tt s else Next (sw_after_slash_in_uri, r)
  | sw_after_slash_in_uri =>
      if is_usual ch then Next (sw_check_uri, r)
      else if ch =? " "%ch then Next (sw_check_uri, r <| space_in_uri := true |>)
      else if ch =? "."%ch then Next (sw_uri, r <| complex_uri := true |>)
      else if ch =? "%"%ch then Next (sw_uri, r <| quoted_uri := true |>)
      else if ch =? "/"%ch then Next (sw_uri, r <| complex_uri := true |>)
      else if ch =? "?"%ch then Next (sw_uri, r <| args_start := Some (p + 1) |>)
      else if ch =? "#"%ch then Next (sw_uri, r <| complex_uri := true |>)
      else if ch =? "+"%ch then Next (sw_after_slash_in_uri, r <| plus_in_uri := true |>)
      else Next (sw_check_uri, r)
  | sw_check_uri =>
      if is_usual ch then Next (sw_check_uri, r)
      else if ch =? "/"%ch then Next (sw_after_slash_in_uri, r <| uri_ext := None |>)
      else if ch =? "."%ch then Next (sw_check_uri, r <| uri_ext := Some (p + 1) |>)
      else if ch =? " "%ch then Next (sw_check_uri, r <| space_in_uri := true |>)
      else if ch =? "%"%ch then Next (sw_uri, r <| quoted_uri := true |>)
      else if ch =? "?"%ch then Next (sw_uri, r <| args_start := Some (p + 1) |>)
      else if ch =? "#"%ch then Next (sw_uri, r <| complex_uri := true |>)
      else if ch =? "+"%ch then Next (sw_check_uri, r <| plus_in_uri := true |>)
      else Next (sw_check_uri, r)
  | sw_uri =>
      if is_usual ch then Next (sw_uri, r)
      else if ch =? " "%ch then Next (sw_uri, r <| space_in_uri := true |>)
      else if ch =? "#"%ch then Next (sw_uri, r <| complex_uri := true |>)
      else Next (sw_uri, r)
  end.

(** The loop from [r->uri_start] to [r->uri_end]; [uri] is what lies between. *)
Definition parse_uri (uri : list Z) (r : request_t) : Z * request_t :=
  match run_scan uri_step 0 uri 0 (sw_start, r) with
  | Exhausted _ (_, r) => (NGX_OK, r)
  | Stopped _ _ (_, r) => (NGX_ERROR, r)
  | NoFuel => (NGX_ERROR, r)
  end.
End ParseUri.

(** ** [ngx_http_parse_complex_uri] *)

Inductive sw : Type :=
| sw_usual | sw_slash | sw_dot | sw_dot_dot | sw_quoted | sw_quoted_second.

(** The locals and the fields it writes.  [out] is what lies between
    [r->uri.data] and [u]; [uext] is [r->uri_ext] as an offset in it. *)
Record ustate : Type := mk_ustate {
  state : sw;
  quoted_state : sw;
  decoded : Z;
  out : list Z;
  uext : ptr;
  plus : bool;
  quoted : bool
}.

#[export] Instance eta_ustate : Eta ustate := fun s =>
  mk_ustate (state s) (quoted_state s) (decoded s) (out s) (uext s) (plus s) (quoted s).

(** [goto done], [goto args] and [return NGX_HTTP_PARSE_INVALID_REQUEST] *)
Inductive label : Type := l_done | l_args | l_invalid.

(** [*u++ = ch] *)
Definition put (ch : Z) (s : ustate) : ustate := s <| out := out s ++ [ch] |>.

(** The search for a slash of [sw_dot_dot], from [u] down to [r->uri.data];
    returns the position after it. *)
Fixpoint back_to_slash (o : list Z) (u : nat) : option nat :=
  if bool_decide (o !! u = Some "/"%ch) then Some (S u)
  else match u with O => None | S u' => back_to_slash o u' end.

(** [u -= 5; for ( ;; ) ...] *)
Definition pop_segment (o : list Z) : option (list Z) :=
  if (length o <? 5)%nat then None
  else n ← back_to_slash o (length o - 5); Some (take n o).

(** One [ch] in the four states outside a quoted byte. *)
Definition plain (merge_slashes : bool) (st : sw) (ch : Z) (s : ustate)
    : action ustate label :=
  if is_usual ch then Next (put ch (s <| state := sw_usual |>))
  else if ch =? "%"%ch then Next (s <| quoted_state := st |> <| state := sw_quoted |>)
  else if ch =? "?"%ch then Stop l_args s
  else if ch =? "#"%ch then Stop l_done s
  else
    let other :=
      Next (put ch ((if ch =? "+"%ch then s <| plus := true |> else s) <| state := sw_usual |>)) in
    match st with
    | sw_usual =>
        if ch =? "/"%ch then Next (put ch (s <| uext := None |> <| state := sw_slash |>))
        else if ch =? "."%ch then
          Next (put ch (s <| uext := Some (Z.of_nat (length (out s)) + 1) |>
                          <| state := sw_usual |>))
        else other
    | sw_slash =>
        if ch =? "/"%ch then
          Next ((if merge_slashes then s else put ch s) <| state := sw_slash |>)
        else if ch =? "."%ch then Next (put ch (s <| state := sw_dot |>))
        else other
    | sw_dot =>
        if ch =? "/"%ch then
          Next (s <| out := removelast (out s) |> <| state := sw_slash |>)
        else if ch =? "."%ch then Next (put ch (s <| state := sw_dot_dot |>))
        else other
    | _ =>
        if ch =? "/"%ch then
          match pop_segment (out s) with
          | None => Stop l_invalid s
          | Some o => Next (s <| out := o |> <| state := sw_slash |>)
          end
        else other
    end.

(** The switch.  After the second digit of a quoted byte the code sets [state =
    quoted_state] and passes through the switch again with the decoded byte and
    without reading; that pass is the call of [plain]. *)
Definition step (merge_slashes : bool) (buf : list Z) (p : nat) (ch : Z) (s : ustate)
    : action ustate label :=
  match state s with
  | sw_quoted =>
      let s := s <| quoted := true |> in
      match hex_digit ch with
      | Some d => Next (s <| decoded := d |> <| state := sw_quoted_second |>)
      | None => Stop l_invalid s
      end
  | sw_quoted_second =>
      match hex_digit ch with
      | None => Stop l_invalid s
      | Some d =>
          let c := u8 (Z.shiftl (decoded s) 4 + d) in
          if is_digit ch then
            if (c =? "%"%ch) || (c =? "#"%ch) then Next (put c (s <| state := sw_usual |>))
            else if c =? 0 then Stop l_invalid s
            else plain merge_slashes (quoted_state s) c (s <| state := quoted_state s |>)
          else
            if c =? "?"%ch then Next (put c (s <| state := sw_usual |>))
            else plain merge_slashes (quoted_state s) c
                   ((if c =? "+"%ch then s <| plus := true |> else s)
                      <| state := quoted_state s |>)
      end
  | st => plain merge_slashes st ch s
  end.

Definition ustate_init (plus quoted : bool) : ustate :=
  mk_ustate sw_usual sw_usual 0 [] None plus quoted.

(** What the function leaves in the request. *)
Record complex_result : Type := mk_complex {
  uri : list Z;
  exten : option (list Z);
  args : option (list Z);
  c_args_start : ptr;
  c_plus : bool;
  c_quoted : bool
}.

(** [r->uri.len = u - r->uri.data] and the extension, common to [done] and
    [args]; [fragment] cuts the arguments at a [#]. *)
Definition finish (a : option (list Z)) (args_start : ptr) (s : ustate) : complex_result :=
  mk_complex (out s)
    (match uext s with Some e => Some (drop (Z.to_nat e) (out s)) | None => None end)
    a args_start (plus s) (quoted s).

(** The loop at [args]: up to a [#], when there is one before [r->uri_end]. *)
Fixpoint to_fragment (l acc : list Z) : option (list Z) :=
  match l with
  | [] => None
  | c :: l' => if c =? "#"%ch then Some acc else to_fragment l' (acc ++ [c])
  end.

(** [raw] is what lies between [r->uri_start] and [r->uri_end]. *)
Definition parse_complex_uri (merge_slashes plus quoted : bool) (raw : list Z)
    : Z * option complex_result :=
  match run_scan (step merge_slashes) 0 raw 0 (ustate_init plus quoted) with
  | Exhausted _ s => (NGX_OK, Some (finish None None s))
  | Stopped l_done _ s => (NGX_OK, Some (finish None None s))
  | Stopped l_args p s =>
      let rest := drop (S p) raw in
      (NGX_OK, Some (match to_fragment rest [] with
                     | Some a => finish (Some a) None s
                     | None => finish None (Some (Z.of_nat p + 1)) s
                     end))
  | Stopped l_invalid _ _ => (NGX_HTTP_PARSE_INVALID_REQUEST, None)
  | NoFuel => (NGX_ERROR, None)
  end.

(** The buffer [ngx_http_process_request_uri] allocates for the result:
    [r->uri.len + 1] bytes, where [r->uri.len] ends before the arguments when
    the request line parser found them. *)
Definition uri_room (raw : list Z) (args_start : ptr) : Z :=
  match args_start with
  | Some a => a - 1 + 1
  | None => Z.of_nat (length raw) + 1
  end.

(** [ngx_http_split_args] *)
Fixpoint split_args (u : list Z) : list Z * list Z :=
  match u with
  | [] => ([], [])
  | c :: u' => if c =? "?"%ch then ([], u')
               else let '(a, b) := split_args u' in (c :: a, b)
  end.

Definition complex_uri_of (raw : list Z) : option (list Z) :=
  option_map uri (snd (parse_complex_uri true false false raw)).

Example complex_ex :
  complex_uri_of <$> [bs "/a//b/./c/../d%2Fe/%2e%2e/f.txt?x#y"; bs "/../etc"; bs "/a/%zz";
                      bs "/a/.."; bs "/a/%4"]
  = [Some (bs "/a/b/d/f.txt"); None; None; Some (bs "/a/.."); Some (bs "/a/")].
Proof. vm_compute. reflexivity. Qed.


(** ** The result fits the buffer *)

(** A pass writes at most one byte for the byte it reads, and never passes a
    [?] that is not quoted. *)
Lemma plain_grows m st ch s s' :
  plain m st ch s = Next s' -> (length (out s') <= S (length (out s)))%nat.
Proof.
  unfold plain, put, pop_segment. intros H.
  repeat case_match; simplify_eq/=; rewrite ?length_app; simpl; try lia.
  all: try (match goal with H : (_ ≫= _) = Some _ |- _ => apply bind_Some in H as (? & _ & [= <-]) end;
            rewrite length_take; lia).
  all: rewrite removelast_firstn_len, length_firstn; lia.
Qed.

Lemma step_grows m buf p ch s s' :
  step m buf p ch s = Next s' -> (length (out s') <= S (length (out s)))%nat.
Proof.
  unfold step. destruct (state s) eqn:Es; try apply plain_grows.
  - intros H. repeat case_match; simplify_eq/=; lia.
  - intros H. repeat case_match; simplify_eq/=; rewrite ?length_app; simpl; try lia;
      apply plain_grows in H; done.
Qed.

Lemma step_no_redo m buf p ch s s' : step m buf p ch s <> Redo s'.
Proof. unfold step, plain. repeat case_match; done. Qed.

Lemma step_args m buf p s s' : step m buf p "?"%ch s = Next s' -> False.
Proof. unfold step, plain. intros H. repeat case_match; try done. Qed.

Lemma run_scan_no_fuel m raw s : run_scan (step m) 0 raw 0 s <> NoFuel.
Proof.
  apply (run_scan_total _ (fun _ => 0%nat)); [|lia].
  intros buf p c s1 s' H. by apply step_no_redo in H.
Qed.

(** A prefix stands for what was read at some point of the run. *)
Lemma complex_out_bound m raw s :
  match run_scan (step m) 0 raw 0 s with
  | Exhausted p s' => (length (out s') <= length (out s) + p)%nat /\ (p <= length raw)%nat /\
                      (forall i, (i < p)%nat -> raw !! i <> Some "?"%ch)
  | Stopped _ p s' => (length (out s') <= length (out s) + p)%nat /\ (p < length raw)%nat /\
                      (forall i, (i < p)%nat -> raw !! i <> Some "?"%ch)
  | NoFuel => False
  end.
Proof.
  pose proof (run_scan_no_fuel m raw s) as Hnf. unfold run_scan in *.
  pose proof (scan_inv (step m) (fun p s' => (length (out s') <= length (out s) + p)%nat /\
     (p <= length raw)%nat /\ (forall i, (i < p)%nat -> raw !! i <> Some "?"%ch)) raw) as Hinv.
  specialize (Hinv ltac:(
    intros p c s1 s2 Hc (Hl & Hp & Hq); split; intros H;
    [ apply lookup_lt_Some in Hc as Hlt; split_and!;
      [ apply step_grows in H; lia | lia
      | intros i Hi; destruct (decide (i = p)) as [-> |]; [|apply Hq; lia];
        rewrite Hc; intros [= ->]; by apply step_args in H ]
    | by apply step_no_redo in H ]) (scan_fuel 0 raw 0) 0%nat s).
  specialize (Hinv ltac:(split_and!; [lia|lia|intros; lia])).
  destruct (scan _ _ _ _ _) as [p s'|l p s'|]; [| |done].
  - tauto.
  - destruct Hinv as (c & s0 & Hc & (Hl & Hp & Hq) & _ & Hst).
    apply lookup_lt_Some in Hc. split_and!; [|lia|done].
    assert (out s' = out s0) as ->; [|done].
    unfold step, plain in Hst. repeat case_match; simplify_eq/=; done.
Qed.

(** C6: [ngx_http_parse_complex_uri] never writes past the buffer that
    [ngx_http_process_request_uri] allocates, also while it has only read a
    prefix of the URI: the number of bytes written stays below
    [r->uri.len + 1], where [r->uri.len] ends before the [?] the request line
    parser recorded. *)
Theorem complex_uri_in_bounds merge_slashes plus quoted raw args_start n :
  match args_start with
  | Some a => rd raw (a - 1) = Some "?"%ch
  | None => True
  end ->
  match run_scan (step merge_slashes) 0 (take n raw) 0 (ustate_init plus quoted) with
  | Exhausted _ s | Stopped _ _ s => Z.of_nat (length (out s)) < uri_room raw args_start
  | NoFuel => False
  end.
Proof.
  intros Ha. pose proof (complex_out_bound merge_slashes (take n raw) (ustate_init plus quoted)) as H.
  assert (forall p l, (l <= 0 + p)%nat -> (p <= length (take n raw))%nat ->
    (forall i, (i < p)%nat -> take n raw !! i <> Some "?"%ch) ->
    Z.of_nat l < uri_room raw args_start) as Hroom.
  { intros p l Hl Hp Hq. rewrite length_take in Hp.
    destruct args_start as [a|]; cbn [uri_room]; [|lia].
    unfold rd in Ha. destruct (Z.ltb_spec (a - 1) 0); [done|].
    destruct (decide (Z.to_nat (a - 1) < p)%nat) as [Hlt|]; [|lia].
    exfalso. apply (Hq _ Hlt). rewrite lookup_take_lt by lia. done. }
  destruct (run_scan _ _ _ _ _) as [p s|l p s|]; [| |done];
    destruct H as (H1 & H2 & H3); eapply Hroom; eauto; lia.
Qed.

Lemma complex_uri_in_bounds_witness :
  match run_scan (step true) 0 (bs "/a/%2e%2e/b?x=1") 0 (ustate_init false false) with
  | Exhausted _ s | Stopped _ _ s => Z.of_nat (length (out s)) < 12
  | NoFuel => False
  end.
Proof. exact (complex_uri_in_bounds true false false (bs "/a/%2e%2e/b?x=1") (Some 12) 20 eq_refl). Defined.

(** ** Normalisation of a path

    A path in the request: bytes written as they are or as [%XX]. *)

Inductive tok : Type :=
| Lit (c : Z)
| Pct (h l : Z).

Definition tok_value (t : tok) : option Z :=
  match t with
  | Lit c => Some c
  | Pct h l => dh ← hex_digit h; dl ← hex_digit l; Some (dh * 16 + dl)
  end.

Definition render_tok (t : tok) : list Z :=
  match t with Lit c => [c] | Pct h l => ["%"%ch; h; l] end.

Definition render_toks (l : list tok) : list Z := concat (render_tok <$> l).

(** A token of value [c]: a quoted byte is not NUL, an unquoted one not one of
    the three bytes that end the path or start a quoted byte. *)
Definition tok_is (c : Z) (t : tok) : Prop :=
  tok_value t = Some c /\ is_byte c /\
  match t with
  | Lit _ => c <> "%"%ch /\ c <> "?"%ch /\ c <> "#"%ch
  | Pct h l => is_byte h /\ is_byte l /\ c <> 0
  end.

Abbreviation slash := ("/"%ch) (only parsing).

(** The reference: segments that end with a slash are pushed, empty and [.]
    segments are dropped, [..] pops and fails at the root. *)
Fixpoint normalise (segs stack : list (list Z)) : option (list (list Z)) :=
  match segs with
  | [] => Some stack
  | s :: segs' =>
      if bool_decide (s = [] \/ s = bs ".") then normalise segs' stack
      else if bool_decide (s = bs "..") then
        match stack with
        | [] => None
        | _ :: stack' => normalise segs' stack'
        end
      else normalise segs' (s :: stack)
  end.

(** The path of a stack whose top is the innermost directory. *)
Fixpoint path_of (stack : list (list Z)) : list Z :=
  match stack with
  | [] => [slash]
  | s :: stack' => path_of stack' ++ s ++ [slash]
  end.

(** The state after a segment of value [v] that follows a slash. *)
Definition seg_state (v : list Z) : sw :=
  if bool_decide (v = []) then sw_slash
  else if bool_decide (v = bs ".") then sw_dot
  else if bool_decide (v = bs "..") then sw_dot_dot
  else sw_usual.

Fixpoint eat (l : list Z) (s : ustate) : option ustate :=
  match l with
  | [] => Some s
  | c :: l' => match step true [] 0 c s with Next s' => eat l' s' | _ => None end
  end.

Lemma eat_app a b s : eat (a ++ b) s = eat a s ≫= eat b.
Proof.
  revert s. induction a as [|c a IH]; intros s; [done|]. cbn. by destruct (step _ _ _ _ _).
Qed.

Lemma eat_run_next pre l s : run_next (step true) pre l s = eat l s.
Proof.
  revert pre s. induction l as [|c l IH]; intros pre s; [done|]. cbn.
  change (step true (pre ++ [c]) (length pre) c s) with (step true [] 0 c s).
  destruct (step _ _ _ _ _); done.
Qed.

(** A token does what its value does in [plain], up to the flags. *)
Definition same_out (a b : action ustate label) : Prop :=
  match a, b with
  | Next s, Next s' => state s = state s' /\ out s = out s'
  | Stop l s, Stop l' s' => l = l'
  | _, _ => False
  end.

Definition plain_state (st : sw) : Prop := st <> sw_quoted /\ st <> sw_quoted_second.

(** The byte a token stands for, in state [st] with [o] written: a quoted [%],
    [?] or [#] is copied. *)
Definition put_value (st : sw) (o : list Z) (c : Z) : action ustate label :=
  let s := mk_ustate st sw_usual 0 o None false false in
  if bool_decide (c = "%"%ch \/ c = "?"%ch \/ c = "#"%ch) then Next (put c (s <| state := sw_usual |>))
  else plain true st c s.

Lemma plain_same st c s s1 :
  plain_state st -> out s = out s1 -> same_out (plain true st c s) (plain true st c s1).
Proof.
  intros [H1 H2] Ho. destruct s as [a1 a2 a3 o a4 a5 a6], s1 as [b1 b2 b3 o1 b4 b5 b6].
  cbn in Ho. subst o1. unfold plain, put.
  destruct st; try done; cbn; repeat case_match; done.
Qed.

Lemma hex_digit_cases c d :
  is_byte c -> hex_digit c = Some d -> 0 <= d < 16 /\ (is_digit c = true <-> d < 10).
Proof.
  intros Hc H.
  pose proof (byte_forall (fun c => match hex_digit c with
    | Some d => (0 <=? d) && (d <? 16) && Bool.eqb (is_digit c) (d <? 10)
    | None => true end) eq_refl c Hc) as Hb.
  cbv beta in Hb. rewrite H in Hb. rewrite !andb_true_iff, eqb_true_iff in Hb.
  destruct Hb as [[H1 H2] ->]. lia.
Qed.

(** The second digit of a quoted byte. *)
Lemma quoted_same s l dl c :
  state s = sw_quoted_second -> plain_state (quoted_state s) -> 0 <= decoded s < 16 ->
  is_byte l -> hex_digit l = Some dl -> decoded s * 16 + dl = c -> c <> 0 ->
  same_out (step true [] 0 l s)
    (if bool_decide (c = "%"%ch \/ c = "?"%ch \/ c = "#"%ch)
     then Next (put c (mk_ustate sw_usual sw_usual 0 (out s) None false false))
     else plain true (quoted_state s) c
            (mk_ustate (quoted_state s) sw_usual 0 (out s) None false false)).
Proof.
  intros Es Hst Hd Hl El Hc Hc0. destruct (hex_digit_cases _ _ Hl El) as [Hdl Hdig].
  unfold step. rewrite Es, El, Z.shiftl_mul_pow2 by lia. change (2 ^ 4) with 16.
  rewrite Hc. unfold u8. rewrite wrap_u_small by lia.
  assert (forall s', out s' = out s -> same_out (plain true (quoted_state s) c s')
    (plain true (quoted_state s) c
       (mk_ustate (quoted_state s) sw_usual 0 (out s) None false false))) as Hp
    by (intros s' Ho; by apply plain_same).
  destruct s as [a1 a2 a3 o a4 a5 a6]. cbn in *.
  destruct (is_digit l) eqn:Ed; case_bool_decide as Hs.
  - assert (c = 37 \/ c = 35) as Hs' by (destruct Hdig as [Hdig _]; specialize (Hdig eq_refl); lia).
    rewrite (proj2 (orb_true_iff _ _)) by (rewrite !Z.eqb_eq; done). done.
  - rewrite (proj2 (orb_false_iff _ _)) by (rewrite !Z.eqb_neq; lia).
    rewrite (proj2 (Z.eqb_neq c 0)) by done. by apply Hp.
  - assert (c = 63) as -> by (destruct Hdig as [_ Hdig]; destruct (Z.lt_ge_cases dl 10) as [Hlt|];
      [specialize (Hdig Hlt); done|lia]).
    done.
  - rewrite (proj2 (Z.eqb_neq c 63)) by lia. destruct (c =? 43); by apply Hp.
Qed.

(** Reading a token in a state outside quoting. *)
Lemma eat_tok t c s :
  tok_is c t -> plain_state (state s) ->
  match put_value (state s) (out s) c with
  | Next s1 => exists s', eat (render_tok t) s = Some s' /\ state s' = state s1 /\ out s' = out s1
  | Stop l _ => exists pre c' s0 s', render_tok t = pre ++ [c'] /\ eat pre s = Some s0 /\
                  step true [] 0 c' s0 = Stop l s'
  | Redo _ => False
  end.
Proof.
  intros (Hv & Hb & Ht) Hst. unfold put_value.
  destruct t as [c'|h l].
  - injection Hv as ->. destruct Ht as (H1 & H2 & H3).
    rewrite bool_decide_false by naive_solver.
    assert (step true [] 0 c s = plain true (state s) c s) as Es
      by (destruct Hst; unfold step; by destruct (state s)).
    pose proof (plain_same (state s) c s
      (mk_ustate (state s) sw_usual 0 (out s) None false false) Hst eq_refl) as Hs.
    cbn [render_tok eat]. rewrite Es.
    destruct (plain true (state s) c s) as [s'|s'|lb s'] eqn:E1,
      (plain true (state s) c (mk_ustate _ _ _ _ _ _ _)) as [s1|s1|lb1 s1]; try done.
    + destruct Hs. by eexists.
    + cbn in Hs. subst lb1. exists [], c, s, s'. by rewrite Es.
  - destruct Ht as (Hh & Hl & Hc0). cbn [tok_value] in Hv.
    destruct (hex_digit h) as [dh|] eqn:Eh; [|done]. cbn in Hv.
    destruct (hex_digit l) as [dl|] eqn:El; [|done]. cbn in Hv. injection Hv as Hv.
    set (s1 := s <| quoted_state := state s |> <| state := sw_quoted |>).
    assert (step true [] 0 "%"%ch s = Next s1) as E1
      by (destruct Hst; unfold step; by destruct (state s)).
    set (s2 := s1 <| quoted := true |> <| decoded := dh |> <| state := sw_quoted_second |>).
    assert (step true [] 0 h s1 = Next s2) as E2 by (unfold step; cbn; by rewrite Eh).
    assert (eat ["%"%ch; h] s = Some s2) as E12 by (cbn [eat]; by rewrite E1, E2).
    assert (same_out (step true [] 0 l s2)
      (if bool_decide (c = "%"%ch \/ c = "?"%ch \/ c = "#"%ch)
       then Next (put c (mk_ustate sw_usual sw_usual 0 (out s) None false false))
       else plain true (state s) c (mk_ustate (state s) sw_usual 0 (out s) None false false)))
      as Hs by (by apply (quoted_same s2 l dl c eq_refl Hst (proj1 (hex_digit_cases _ _ Hh Eh)))).
    change (render_tok (Pct h l)) with (["%"%ch; h] ++ [l]). rewrite eat_app, E12.
    cbn [mbind option_bind eat].
    destruct (step true [] 0 l s2) as [s'|s'|lb s'] eqn:E3,
      (if bool_decide _ then _ else _) as [s3|s3|lb3 s3]; try done.
    + destruct Hs. by eexists.
    + cbn in Hs. subst lb3. by exists ["%"%ch; h], l, s2, s'.
Qed.

Lemma seg_state_long a b v : seg_state (a :: b :: v) =
  if bool_decide (a = "."%ch /\ b = "."%ch /\ v = []) then sw_dot_dot else sw_usual.
Proof.
  unfold seg_state. rewrite !(bool_decide_false (_ = _)) by done.
  case_bool_decide as H; case_bool_decide as H'; naive_solver.
Qed.

Lemma seg_state_one a : seg_state [a] = if bool_decide (a = "."%ch) then sw_dot else sw_usual.
Proof.
  unfold seg_state. rewrite (bool_decide_false ([a] = [])) by done.
  rewrite (bool_decide_false ([a] = bs "..")) by done.
  case_bool_decide as H; case_bool_decide as H'; naive_solver.
Qed.

Lemma seg_state_snoc v c :
  seg_state (v ++ [c]) =
  if bool_decide (c = "."%ch) then
    match seg_state v with sw_slash => sw_dot | sw_dot => sw_dot_dot | _ => sw_usual end
  else sw_usual.
Proof.
  destruct v as [|a [|b v]]; cbn [app].
  - by rewrite seg_state_one.
  - rewrite seg_state_long, seg_state_one. repeat case_bool_decide; naive_solver.
  - rewrite !seg_state_long. rewrite bool_decide_false by (intros (_ & _ & H); by destruct v).
    repeat case_bool_decide; done.
Qed.

Lemma seg_state_plain v : plain_state (seg_state v).
Proof. unfold seg_state. repeat case_bool_decide; done. Qed.

(** A byte that is not a slash lengthens the segment. *)
Lemma put_value_seg v o c :
  c <> slash ->
  exists s1, put_value (seg_state v) o c = Next s1 /\
             state s1 = seg_state (v ++ [c]) /\ out s1 = o ++ [c].
Proof.
  intros Hc. rewrite seg_state_snoc. unfold put_value.
  case_bool_decide as Hs; [rewrite bool_decide_false by naive_solver; by eexists|].
  unfold plain. destruct (is_usual c) eqn:Hu.
  { rewrite bool_decide_false by (intros ->; done). by eexists. }
  rewrite !(proj2 (Z.eqb_neq c _)) by naive_solver.
  pose proof (seg_state_plain v) as [Hp1 Hp2].
  destruct (Z.eqb_spec c "."%ch) as [-> |Hd].
  - rewrite bool_decide_true by done. destruct (seg_state v); try done; by eexists.
  - rewrite bool_decide_false by done.
    destruct (seg_state v); try done; destruct (c =? 43); by eexists.
Qed.

(** The tokens of a segment. *)
Lemma eat_segment toks vs s v :
  Forall2 tok_is vs toks -> Forall (fun c => c <> slash) vs ->
  state s = seg_state v ->
  exists s', eat (render_toks toks) s = Some s' /\
             state s' = seg_state (v ++ vs) /\ out s' = out s ++ vs.
Proof.
  intros H. revert s v. induction H as [|c t vs toks Ht H IH]; intros s v Hns Hst.
  { exists s. by rewrite !app_nil_r. }
  apply Forall_cons_1 in Hns as [Hc Hns].
  pose proof (eat_tok t c s Ht) as Hs. rewrite Hst in Hs.
  specialize (Hs (seg_state_plain v)).
  destruct (put_value_seg v (out s) c Hc) as (s1 & E & E1 & E2). rewrite E in Hs.
  destruct Hs as (s' & E' & Est & Eo). rewrite E1 in Est. rewrite E2 in Eo.
  destruct (IH s' (v ++ [c]) Hns Est) as (s2 & H1 & H2 & H3).
  exists s2. unfold render_toks. cbn [fmap list_fmap concat]. rewrite eat_app, E'.
  rewrite <- app_assoc in H2. rewrite Eo, <- app_assoc in H3. done.
Qed.

(** Popping the innermost directory. *)
Lemma back_to_slash_find a w rest u :
  Forall (fun c => c <> slash) w -> (length a <= u < length a + 1 + length w)%nat ->
  back_to_slash (a ++ [slash] ++ w ++ rest) u = Some (S (length a)).
Proof.
  intros Hw. induction u as [|u IH]; intros Hu; cbn [back_to_slash].
  - destruct a; [|simpl in Hu; lia]. by rewrite bool_decide_true.
  - destruct (decide (S u = length a)) as [E|E].
    + rewrite E, lookup_app_r, Nat.sub_diag by done. by rewrite bool_decide_true.
    + rewrite bool_decide_false; [apply IH; lia|].
      rewrite lookup_app_r by lia. destruct (S u - length a)%nat as [|k] eqn:Ek; [lia|].
      change (([slash] ++ w ++ rest) !! S k) with ((w ++ rest) !! k).
      rewrite lookup_app_l by lia.
      intros Hk. eapply Forall_lookup_1 in Hk; [|exact Hw]. done.
Qed.

Definition dir_ok (s : list Z) : Prop := s <> [] /\ Forall (fun c => c <> slash) s.

Lemma path_of_snoc stack : exists a, path_of stack = a ++ [slash].
Proof. destruct stack as [|s stack]; cbn; [by exists []|]. eexists. by rewrite app_assoc. Qed.

Lemma pop_segment_root : pop_segment (path_of [] ++ bs "..") = None.
Proof. reflexivity. Qed.

Lemma pop_segment_dir s stack :
  dir_ok s -> pop_segment (path_of (s :: stack) ++ bs "..") = Some (path_of stack).
Proof.
  intros [Hne Hns]. cbn [path_of]. destruct (path_of_snoc stack) as [a ->].
  unfold pop_segment.
  assert (0 < length s)%nat by (destruct s; simpl; [done|lia]).
  destruct (Nat.ltb_spec (length (((a ++ [slash]) ++ s ++ [slash]) ++ bs "..")) 5) as [Hl|Hl].
  { rewrite !length_app in Hl. simpl in Hl. lia. }
  replace (((a ++ [slash]) ++ s ++ [slash]) ++ bs "..") with
    (a ++ [slash] ++ s ++ ([slash] ++ bs "..")) by (by rewrite <- !app_assoc).
  rewrite back_to_slash_find; [|done|rewrite !length_app; simpl; lia]. cbn [mbind option_bind].
  rewrite app_assoc. by rewrite take_app_length' by (rewrite length_app; simpl; lia).
Qed.

(** A slash after a segment of value [v] in the directory [stack]. *)
Lemma put_value_slash v stack :
  Forall (fun c => c <> slash) v -> Forall dir_ok stack ->
  match normalise [v] stack with
  | Some stack' => exists s1, put_value (seg_state v) (path_of stack ++ v) slash = Next s1 /\
                     state s1 = sw_slash /\ out s1 = path_of stack' /\ Forall dir_ok stack'
  | None => exists s1, put_value (seg_state v) (path_of stack ++ v) slash = Stop l_invalid s1
  end.
Proof.
  intros Hv Hst. unfold put_value. rewrite bool_decide_false by lia.
  cbn [normalise]. unfold seg_state. case_bool_decide as H1.
  - destruct H1 as [-> | ->].
    + rewrite bool_decide_true by done. eexists. split; [done|]. cbn. by rewrite app_nil_r.
    + rewrite bool_decide_false, bool_decide_true by done. eexists. split; [done|]. cbn.
      by rewrite removelast_last.
  - rewrite (bool_decide_false (v = [])), (bool_decide_false (v = bs ".")) by tauto.
    case_bool_decide as H2.
    + subst v. destruct stack as [|s stack].
      * eexists. done.
      * apply Forall_cons_1 in Hst as [Hs Hst]. eexists.
        unfold plain. cbn -[pop_segment path_of bs].
        rewrite pop_segment_dir by done. done.
    + eexists. split; [done|]. cbn. split; [done|]. split; [by rewrite <- app_assoc|].
      constructor; [|done]. split; [tauto|done].
Qed.

(** A directory of the request path: its value, its tokens and the slash that
    ends it. *)
Definition dir_tok : Type := (list Z * list tok * tok).

Definition dir_value (d : dir_tok) : list Z := fst (fst d).

Definition dir_render (d : dir_tok) : list Z :=
  let '(_, toks, sep) := d in render_toks toks ++ render_tok sep.

Definition dir_tok_ok (d : dir_tok) : Prop :=
  let '(vs, toks, sep) := d in
  Forall2 tok_is vs toks /\ Forall (fun c => c <> slash) vs /\ tok_is slash sep.

Lemma normalise_cons v segs stack :
  normalise (v :: segs) stack = normalise [v] stack ≫= normalise segs.
Proof. cbn. repeat case_bool_decide; try done. by destruct stack. Qed.

Lemma eat_dirs ds s stack :
  Forall dir_tok_ok ds -> Forall dir_ok stack ->
  state s = sw_slash -> out s = path_of stack ->
  match normalise (dir_value <$> ds) stack with
  | Some stack' => exists s', eat (concat (dir_render <$> ds)) s = Some s' /\
                     state s' = sw_slash /\ out s' = path_of stack'
  | None => exists pre c post s0 s', concat (dir_render <$> ds) = pre ++ c :: post /\
              eat pre s = Some s0 /\ step true [] 0 c s0 = Stop l_invalid s'
  end.
Proof.
  intros Hds. revert s stack. induction Hds as [|[[vs toks] sep] ds (Htok & Hns & Hsep) Hds IH];
    intros s stack Hst Hs Ho; [by exists s|].
  cbn [fmap list_fmap concat dir_render]. rewrite normalise_cons. change (dir_value _) with vs.
  destruct (eat_segment toks vs s [] Htok Hns Hs) as (s1 & E1 & Hs1 & Ho1).
  cbn [app] in Hs1. rewrite Ho in Ho1.
  pose proof (eat_tok sep slash s1 Hsep) as Hsl. rewrite Hs1, Ho1 in Hsl.
  specialize (Hsl (seg_state_plain vs)).
  pose proof (put_value_slash vs stack Hns Hst) as Hput.
  destruct (normalise [vs] stack) as [stack1|]; cbn [mbind option_bind].
  - destruct Hput as (s2 & Ep & Hs2 & Ho2 & Hst1). rewrite Ep in Hsl.
    destruct Hsl as (s3 & E3 & Hs3 & Ho3). rewrite Hs2 in Hs3. rewrite Ho2 in Ho3.
    assert (forall l, eat ((render_toks toks ++ render_tok sep) ++ l) s = eat l s3) as El.
    { intros l. rewrite !eat_app, E1. cbn [mbind option_bind]. by rewrite E3. }
    specialize (IH s3 stack1 Hst1 Hs3 Ho3).
    destruct (normalise (dir_value <$> ds) stack1) as [stack2|].
    + destruct IH as (s4 & E4 & H4). exists s4. by rewrite El.
    + destruct IH as (pre & c & post & s0 & s' & Ec & Ep' & Est).
      exists ((render_toks toks ++ render_tok sep) ++ pre), c, post, s0, s'.
      rewrite El, Ec, app_assoc. done.
  - destruct Hput as (s2 & Ep). rewrite Ep in Hsl.
    destruct Hsl as (pre & c & s0 & s' & Er & Epre & Est).
    exists (render_toks toks ++ pre), c, (concat (dir_render <$> ds)), s0, s'.
    split; [by rewrite Er, <- !app_assoc|]. rewrite eat_app, E1. done.
Qed.

Lemma run_scan_eat l s s' :
  eat l s = Some s' -> run_scan (step true) 0 l 0 s = Exhausted (length l) s'.
Proof.
  intros H. pose proof (run_scan_run_next (step true) (fun _ _ _ _ _ _ => eq_refl) (fun _ => 0%nat) 0
    ltac:(intros ? ? ? ? ? E; by apply step_no_redo in E) (fun _ => le_n 0) [] l [] s s') as E.
  rewrite eat_run_next in E. specialize (E H). cbn [app length] in E.
  rewrite app_nil_r in E. rewrite E. unfold run_scan, scan_fuel.
  rewrite Nat.sub_diag. cbn. by rewrite lookup_ge_None_2.
Qed.

Lemma run_scan_eat_stop pre c post s s1 l s' :
  eat pre s = Some s1 -> step true [] 0 c s1 = Stop l s' ->
  run_scan (step true) 0 (pre ++ c :: post) 0 s = Stopped l (length pre) s'.
Proof.
  intros H1 H2. apply (run_scan_line (step true) (fun _ _ _ _ _ _ => eq_refl) (fun _ => 0%nat) 0
    ltac:(intros ? ? ? ? ? E; by apply step_no_redo in E) (fun _ => le_n 0) pre c post s s1 l s').
  - by rewrite eat_run_next.
  - done.
Qed.

(** C5: path normalisation.  A request path made of directories and a last
    segment, every byte of it written as it is or as [%XX] and with slashes
    merged, is parsed to the path of the reference [normalise]: empty and [.]
    directories disappear, [..] removes the directory before it, and a directory
    [..] that goes above the root is refused.  The segment after the last slash
    is copied as it is, also when it is [.] or [..]; there is no NUL byte. *)
Theorem complex_uri_normalises plus quoted sep0 ds lastv lasttoks :
  tok_is slash sep0 -> Forall dir_tok_ok ds ->
  Forall2 tok_is lastv lasttoks -> Forall (fun c => c <> slash) lastv ->
  let raw := render_tok sep0 ++ concat (dir_render <$> ds) ++ render_toks lasttoks in
  match normalise (dir_value <$> ds) [] with
  | None => parse_complex_uri true plus quoted raw = (NGX_HTTP_PARSE_INVALID_REQUEST, None)
  | Some stack => exists r, parse_complex_uri true plus quoted raw = (NGX_OK, Some r) /\
                            uri r = path_of stack ++ lastv
  end.
Proof.
  intros Hsep Hds Hlast Hns raw.
  pose proof (eat_tok sep0 slash (ustate_init plus quoted) Hsep) as H0.
  destruct (H0 ltac:(done)) as (s1 & E1 & Hs1 & Ho1). clear H0.
  pose proof (eat_dirs ds s1 [] Hds ltac:(constructor) Hs1 Ho1) as H.
  unfold parse_complex_uri, raw. destruct (normalise _ []) as [stack|].
  - destruct H as (s2 & E2 & Hs2 & Ho2).
    destruct (eat_segment lasttoks lastv s2 [] Hlast Hns Hs2) as (s3 & E3 & _ & Ho3).
    rewrite (run_scan_eat _ _ s3).
    + eexists. split; [done|]. cbn. by rewrite Ho3, Ho2.
    + rewrite eat_app, E1. cbn [mbind option_bind]. rewrite eat_app, E2. done.
  - destruct H as (pre & c & post & s0 & s' & Ec & Ep & Est).
    replace (render_tok sep0 ++ concat (dir_render <$> ds) ++ render_toks lasttoks) with
      ((render_tok sep0 ++ pre) ++ c :: post ++ render_toks lasttoks)
      by (rewrite Ec, <- !app_assoc; done).
    rewrite (run_scan_eat_stop _ _ _ _ s0 l_invalid s'); [done| |done].
    by rewrite eat_app, E1.
Qed.

(** ["/a/%2e./b%2fc.d"] *)
Lemma complex_uri_normalises_witness :
  exists r, parse_complex_uri true false false (bs "/a/%2e./b%2fc.d") = (NGX_OK, Some r) /\
            uri r = bs "/b/c.d".
Proof.
  refine (complex_uri_normalises false false (Lit slash)
    [(bs "a", [Lit "a"%ch], Lit slash);
     (bs "..", [Pct "2"%ch "e"%ch; Lit "."%ch], Lit slash);
     (bs "b", [Lit "b"%ch], Pct "2"%ch "f"%ch)]
    (bs "c.d") [Lit "c"%ch; Lit "."%ch; Lit "d"%ch] _ _ _ _).
  - done.
  - repeat constructor; done.
  - repeat constructor; done.
  - repeat constructor; done.
Defined.

(** The last segment is not looked at: a final [..] stays in the path that is
    mapped to a file, and a URI that ends inside a quoted byte is accepted. *)
Example last_dot_dot_kept : complex_uri_of (bs "/a/..") = Some (bs "/a/..").
Proof. vm_compute. reflexivity. Qed.

Example truncated_quote_accepted : complex_uri_of (bs "/a%4") = Some (bs "/a").
Proof. vm_compute. reflexivity. Qed.

End HttpUri.
