(* ===== verification/HostName.v ===== *)
(** * Host names

    [ngx_http_validate_host] ([src/src/http/ngx_http_request.c]): the host of a request, from its line or its [Host]
    header, is checked and brought to the form by which a virtual server is looked up: in lower case, without the port
    and a final dot. *)

From S2P Require Import Prelude NgxString.

Module HostName.
Import NgxString.

Inductive sw : Type := sw_usual | sw_literal | sw_rest.

(** The variables of the loop *)
Record scan_t : Type := mk_scan { dot_pos : Z; host_len : Z; state : sw; alloc : bool }.

#[export] Instance eta_scan : Eta scan_t := fun s => mk_scan (dot_pos s) (host_len s) (state s) (alloc s).

(** One byte of the loop; [None] is [NGX_DECLINED]. *)
Definition step (i ch : Z) (s : scan_t) : option scan_t :=
  if ch =? "."%ch then
    if dot_pos s =? u64 (i - 1) then None else Some (s <| dot_pos := i |>)
  else if ch =? ":"%ch then
    match state s with sw_usual => Some (s <| host_len := i |> <| state := sw_rest |>) | _ => Some s end
  else if ch =? "["%ch then
    if i =? 0 then Some (s <| state := sw_literal |>) else Some s
  else if ch =? "]"%ch then
    match state s with sw_literal => Some (s <| host_len := i + 1 |> <| state := sw_rest |>) | _ => Some s end
  else if ch =? 0 then None
  else if ch =? "/"%ch then None
  else if (ch >=? "A"%ch) && (ch <=? "Z"%ch) then Some (s <| alloc := true |>)
  else Some s.

Fixpoint loop (i : Z) (h : list Z) (s : scan_t) : option scan_t :=
  match h with [] => Some s | ch :: h' => s ← step i ch s; loop (i + 1) h' s end.

(** [ngx_http_validate_host]: the code and the host; [mem] tells whether the pool has memory for the copy. *)
Definition ngx_http_validate_host (mem : bool) (host : list Z) (alloc0 : bool) : Z * list Z :=
  let len := Z.of_nat (length host) in
  match loop 0 host (mk_scan len len sw_usual alloc0) with
  | None => (NGX_DECLINED, host)
  | Some s =>
      let n := if dot_pos s =? u64 (host_len s - 1) then u64 (host_len s - 1) else host_len s in
      if n =? 0 then (NGX_DECLINED, host)
      else
        let name := take (Z.to_nat n) host in
        if alloc s then if mem then (NGX_OK, ngx_tolower <$> name) else (NGX_ERROR, host)
        else (NGX_OK, name)
  end.
(** ** What the name is *)

(** The first position of a byte *)
Fixpoint index (c : Z) (l : list Z) : option nat :=
  match l with [] => None | d :: l' => if d =? c then Some 0%nat else S <$> index c l' end.

(** The position of the last dot *)
Definition last_dot (l : list Z) : option nat := (fun j => length l - 1 - j)%nat <$> index "."%ch (rev l).

(** Two dots in a row *)
Fixpoint double_dot (l : list Z) : bool :=
  match l with
  | [] => false
  | c :: l' => ((c =? "."%ch) && bool_decide (head l' = Some "."%ch)) || double_dot l'
  end.

Definition refused (host : list Z) : bool := existsb (fun c => (c =? 0) || (c =? "/"%ch)) host || double_dot host.

(** An address in brackets *)
Definition literal (host : list Z) : bool := bool_decide (head host = Some "["%ch).

(** The end of the name, without regard to a final dot: behind the bracket, or in front of the colon *)
Definition name_end (host : list Z) : option nat := if literal host then S <$> index "]"%ch host else index ":"%ch host.
Definition name_len (host : list Z) : nat := default (length host) (name_end host).

(** A dot at its end is dropped, if no dot follows in the port. *)
Definition host_name (host : list Z) : list Z :=
  let n := name_len host in
  take (match last_dot host with Some j => if (S j =? n)%nat then j else n | None => n end) host.

(** *** By the last byte *)

Lemma index_snoc c l d : index c (l ++ [d]) = match index c l with Some i => Some i | None => if d =? c then Some (length l) else None end.
Proof.
  induction l as [|x l IH]; cbn [index app length]; [done|]. destruct (x =? c); [done|]. rewrite IH.
  destruct (index c l); [done|]. destruct (d =? c); done.
Qed.

Lemma index_lt c l i : index c l = Some i -> (i < length l)%nat.
Proof.
  revert i. induction l as [|x l IH]; intros i; cbn [index length]; [done|]. destruct (x =? c); [intros [= <-]; lia|].
  destruct (index c l) as [j|]; [|done]. intros [= <-]. specialize (IH j eq_refl). lia.
Qed.

Lemma last_dot_snoc l d : last_dot (l ++ [d]) = if d =? "."%ch then Some (length l) else last_dot l.
Proof.
  unfold last_dot. rewrite rev_app_distr, length_app. cbn [rev app index length]. destruct (d =? "."%ch); cbn [fmap option_fmap option_map].
  - f_equal. lia.
  - destruct (index "."%ch (rev l)) as [j|] eqn:E; [|done]. cbn. f_equal. apply index_lt in E. rewrite length_rev in E. lia.
Qed.

Lemma last_dot_lt l j : last_dot l = Some j -> (j < length l)%nat.
Proof.
  unfold last_dot. destruct (index "."%ch (rev l)) as [i|] eqn:E; [|done]. intros [= <-]. apply index_lt in E.
  rewrite length_rev in E. lia.
Qed.

Lemma double_dot_snoc l d : double_dot (l ++ [d]) =
  double_dot l || ((d =? "."%ch) && bool_decide (last_dot l = Some (length l - 1)%nat)).
Proof.
  induction l as [|c l IH] using rev_ind.
  { cbn. rewrite andb_false_r. cbn. rewrite andb_false_r. done. }
  clear IH. rewrite last_dot_snoc, length_app. cbn [length]. replace (length l + 1 - 1)%nat with (length l) by lia.
  assert (E : forall m, double_dot (m ++ [c; d]) = double_dot (m ++ [c]) || ((d =? "."%ch) && (c =? "."%ch))).
  { induction m as [|x m IHm]; cbn [app double_dot].
    - cbn. rewrite !andb_false_r, !orb_false_r. destruct (Z.eqb_spec c "."%ch), (Z.eqb_spec d "."%ch); subst;
        case_bool_decide; try done; congruence.
    - rewrite IHm. destruct m; cbn [app head]; rewrite orb_assoc; done. }
  rewrite <- app_assoc. cbn [app]. rewrite E. f_equal. f_equal. destruct (Z.eqb_spec c "."%ch) as [->|Hc].
  - rewrite bool_decide_eq_true_2 by done. done.
  - rewrite bool_decide_eq_false_2; [done|]. intros H. apply last_dot_lt in H. lia.
Qed.

Lemma refused_snoc l d : refused (l ++ [d]) =
  refused l || ((d =? 0) || (d =? "/"%ch) || ((d =? "."%ch) && bool_decide (last_dot l = Some (length l - 1)%nat))).
Proof.
  unfold refused. rewrite existsb_app, double_dot_snoc. cbn. rewrite orb_false_r.
  destruct (existsb _ l), (double_dot l); cbn; rewrite ?orb_true_r; done.
Qed.

(** ** The loop *)

Definition state_of (l : list Z) : sw :=
  match name_end l with Some _ => sw_rest | None => if literal l then sw_literal else sw_usual end.

(** The variables behind the bytes [l] of a host of [len] bytes *)
Definition scanned (len : Z) (l : list Z) (alloc0 : bool) : scan_t :=
  mk_scan (default len (Z.of_nat <$> last_dot l)) (default len (Z.of_nat <$> name_end l)) (state_of l)
    (alloc0 || existsb (fun c => (c >=? "A"%ch) && (c <=? "Z"%ch)) l).

Lemma loop_app i l k s : loop i (l ++ k) s = s ← loop i l s; loop (i + Z.of_nat (length l)) k s.
Proof.
  revert i s. induction l as [|c l IH]; intros i s; cbn [loop app length].
  - rewrite Z.add_0_r. done.
  - destruct (step i c s) as [s'|]; [|done]. cbn [mbind option_bind]. rewrite IH. f_equal.
    replace (i + 1 + Z.of_nat (length l)) with (i + Z.of_nat (S (length l))) by lia. done.
Qed.

Lemma literal_snoc l d : l <> [] -> literal (l ++ [d]) = literal l.
Proof. destruct l; done. Qed.

Lemma name_end_snoc l d : name_end (l ++ [d]) =
  match name_end l with
  | Some e => Some e
  | None => if literal l then if d =? "]"%ch then Some (S (length l)) else None
            else if d =? ":"%ch then Some (length l) else None
  end.
Proof.
  unfold name_end. destruct l as [|c l].
  - cbn. unfold literal. cbn. case_bool_decide as H; [injection H as ->; done|]. done.
  - rewrite literal_snoc by done. destruct (literal (c :: l)); rewrite index_snoc.
    + destruct (index "]"%ch (c :: l)); [done|]. destruct (d =? "]"%ch); done.
    + destruct (index ":"%ch (c :: l)); done.
Qed.

(** A dot in front of another is the only way to find [dot_pos] one less than the position. *)
Lemma dot_before len l : Z.of_nat (length l) < len -> len < 2 ^ 63 ->
  (default len (Z.of_nat <$> last_dot l) =? u64 (Z.of_nat (length l) - 1)) = bool_decide (last_dot l = Some (length l - 1)%nat).
Proof.
  intros Hl Hlen. destruct l as [|c l] using rev_ind.
  - rewrite bool_decide_eq_false_2 by done. change (u64 (Z.of_nat (length [] ) - 1)) with 18446744073709551615.
    apply Z.eqb_neq. cbn [last_dot fmap option_fmap option_map default rev index]. change (2 ^ 63) with 9223372036854775808 in Hlen. cbn. lia.
  - clear IHl. rewrite length_app in *. cbn [length] in *. rewrite u64_small by lia.
    destruct (last_dot (l ++ [c])) as [j|] eqn:E.
    + change (default len (Z.of_nat <$> Some j)) with (Z.of_nat j).
      case_bool_decide as H; [injection H as ->; apply Z.eqb_eq; lia|]. apply Z.eqb_neq. intros H'. apply H. f_equal. lia.
    + change (default len (Z.of_nat <$> None)) with len. rewrite bool_decide_eq_false_2 by done. apply Z.eqb_neq. lia.
Qed.

Lemma step_scanned len l d alloc0 : Z.of_nat (length l) < len -> len < 2 ^ 63 ->
  step (Z.of_nat (length l)) d (scanned len l alloc0) =
  if (d =? 0) || (d =? "/"%ch) || ((d =? "."%ch) && bool_decide (last_dot l = Some (length l - 1)%nat)) then None
  else Some (scanned len (l ++ [d]) alloc0).
Proof.
  intros Hl Hlen. unfold step. cbn [dot_pos state scanned]. rewrite (dot_before len l Hl Hlen).
  unfold scanned. rewrite last_dot_snoc, existsb_app, name_end_snoc. cbn [existsb]. rewrite orb_false_r.
  unfold state_of. rewrite name_end_snoc.
  assert (Hlit : forall x, literal (l ++ [x]) = match l with [] => x =? "["%ch | _ => literal l end).
  { intros x. destruct l; [|done]. unfold literal. cbn. case_bool_decide as H; [injection H as ->; done|].
    symmetry. apply Z.eqb_neq. congruence. }
  rewrite Hlit. cbv [update].
  set (up := (d >=? "A"%ch) && (d <=? "Z"%ch)).
  assert (Hup : forall x, d = x -> (x >=? "A"%ch) && (x <=? "Z"%ch) = false -> up = false) by (intros x <- H; exact H).
  set (A := existsb _ l). set (e := name_end l). set (L := literal l).
  destruct (Z.eqb_spec d "."%ch) as [E|_]; [|destruct (Z.eqb_spec d ":"%ch) as [E|_]; [|destruct (Z.eqb_spec d "["%ch) as [E|_];
    [|destruct (Z.eqb_spec d "]"%ch) as [E|_]; [|destruct (Z.eqb_spec d 0) as [E|_]; [|destruct (Z.eqb_spec d "/"%ch) as [E|_]]]]]].
  all: try (rewrite (Hup _ E eq_refl), orb_false_r).
  all: try (rewrite E). all: cbn [orb andb Z.eqb Pos.eqb].
  all: destruct l as [|c l]; [cbn in e, L; unfold e, L, A; clear; cbn; rewrite ?orb_false_r; try done; destruct up; rewrite ?orb_true_r, ?orb_false_r; done|].
  all: clearbody e L A; change (Z.of_nat (length (c :: l)) =? 0) with false; try done.
  all: destruct e, L; try done; try (destruct (bool_decide _); done).
  all: cbn; destruct up; rewrite ?orb_true_r, ?orb_false_r; try done.
  all: replace (Z.of_nat (S (length l)) + 1) with (Z.of_nat (S (S (length l)))) by lia; done.
Qed.

(** The loop ends with what there is to know of the host, or refuses it. *)
Lemma loop_scanned host alloc0 k : Z.of_nat (length (host ++ k)) < 2 ^ 63 -> let len := Z.of_nat (length (host ++ k)) in
  loop 0 host (mk_scan len len sw_usual alloc0) = if refused host then None else Some (scanned len host alloc0).
Proof.
  revert k. induction host as [|d host IH] using rev_ind; intros k Hlen len.
  { unfold scanned. cbn. rewrite orb_false_r. done. }
  unfold len in *. rewrite <- app_assoc in *. rewrite loop_app, refused_snoc, (IH ([d] ++ k) Hlen).
  destruct (refused host); [done|]. cbn [mbind option_bind orb loop]. rewrite Z.add_0_l.
  rewrite step_scanned by (rewrite ?length_app in *; cbn [length] in *; lia).
  destruct (_ || _ || _); done.
Qed.

Lemma tolower_upper c : (c >=? "A"%ch) && (c <=? "Z"%ch) = false -> ngx_tolower c = c.
Proof. intros H. unfold ngx_tolower, in_range. rewrite Z.geb_leb in H. rewrite H. done. Qed.

Lemma name_len_le host : (name_len host <= length host)%nat.
Proof.
  unfold name_len, name_end. destruct (literal host).
  - destruct (index "]"%ch host) as [i|] eqn:E; cbn; [|lia]. apply index_lt in E. lia.
  - destruct (index ":"%ch host) as [i|] eqn:E; cbn; [|lia]. apply index_lt in E. lia.
Qed.

(** The length of the name *)
Definition final_len (host : list Z) : nat :=
  match last_dot host with Some j => if (S j =? name_len host)%nat then j else name_len host | None => name_len host end.

Lemma final_len_ok host alloc0 : Z.of_nat (length host) < 2 ^ 63 ->
  let s := scanned (Z.of_nat (length host)) host alloc0 in
  (if dot_pos s =? u64 (host_len s - 1) then u64 (host_len s - 1) else host_len s) = Z.of_nat (final_len host).
Proof.
  intros Hlen s. assert (Eh : host_len s = Z.of_nat (name_len host)).
  { unfold s, scanned, name_len. cbn [host_len]. destruct (name_end host); done. }
  assert (Ed : dot_pos s = match last_dot host with Some j => Z.of_nat j | None => Z.of_nat (length host) end).
  { unfold s, scanned. cbn [dot_pos]. destruct (last_dot host); done. }
  rewrite Eh, Ed. pose proof (name_len_le host) as Hle. unfold final_len.
  assert (Hu : u64 (Z.of_nat (name_len host) - 1) = match name_len host with O => 18446744073709551615 | S q => Z.of_nat q end).
  { destruct (name_len host) as [|q]; [done|]. rewrite u64_small by lia. lia. }
  rewrite Hu. change (2 ^ 63) with 9223372036854775808 in Hlen.
  destruct (last_dot host) as [j|] eqn:E; [apply last_dot_lt in E|]; destruct (name_len host) as [|q] eqn:En.
  - rewrite (proj2 (Z.eqb_neq _ _)) by lia. done.
  - cbn [Nat.eqb]. destruct (Nat.eqb_spec j q) as [->|]; [rewrite Z.eqb_refl; done|]. rewrite (proj2 (Z.eqb_neq _ _)) by lia. done.
  - rewrite (proj2 (Z.eqb_neq _ _)) by lia. done.
  - rewrite (proj2 (Z.eqb_neq _ _)) by lia. done.
Qed.

Lemma host_name_final host : host_name host = take (final_len host) host /\ (final_len host <= length host)%nat.
Proof.
  pose proof (name_len_le host). unfold host_name, final_len. split; [done|].
  destruct (last_dot host) as [j|] eqn:E; [|done]. apply last_dot_lt in E. destruct (_ =? _)%nat; lia.
Qed.

(** Without a capital letter the name is not copied. *)
Lemma tolower_same l : existsb (fun c => (c >=? "A"%ch) && (c <=? "Z"%ch)) l = false -> ngx_tolower <$> l = l.
Proof.
  induction l as [|c l IH]; [done|]. cbn [existsb]. intros H. apply orb_false_iff in H as [H1 H2].
  rewrite fmap_cons, tolower_upper, IH by done. done.
Qed.

(** A host is refused exactly when it has a NUL, a slash or two dots in a row, or nothing is left of it; otherwise
    the name is its part in front of the port, the brackets of an IPv6 address included, without a final dot, in
    lower case. *)
Theorem validate_host_correct host alloc0 : Z.of_nat (length host) < 2 ^ 63 ->
  ngx_http_validate_host true host alloc0 =
    if refused host || bool_decide (host_name host = []) then (NGX_DECLINED, host)
    else (NGX_OK, ngx_tolower <$> host_name host).
Proof.
  intros Hlen. unfold ngx_http_validate_host.
  pose proof (loop_scanned host alloc0 []) as HL. rewrite app_nil_r in HL. rewrite (HL Hlen). destruct (refused host); [done|]. cbn [orb].
  rewrite (final_len_ok host alloc0 Hlen), Nat2Z.id. destruct (host_name_final host) as [-> Hle].
  destruct (final_len host) as [|n] eqn:En; [done|]. rewrite (proj2 (Z.eqb_neq (Z.of_nat (S n)) 0)) by lia.
  rewrite bool_decide_eq_false_2; [|destruct host; [cbn in Hle; lia|done]].
  unfold scanned. cbn [alloc]. destruct (alloc0 || existsb _ host) eqn:Ea; [done|]. apply orb_false_iff in Ea as [_ Ea].
  f_equal. rewrite fmap_take, tolower_same by done. done.
Qed.

Lemma validate_host_correct_witness :
  ngx_http_validate_host true (bs "WWW.Example.COM.:8080") false = (NGX_OK, bs "www.example.com").
Proof.
  rewrite (validate_host_correct (bs "WWW.Example.COM.:8080") false ltac:(vm_compute; reflexivity)). vm_compute. reflexivity.
Defined.

(** A dot in the port keeps the final dot of the name. *)
Example dot_in_port :
  ngx_http_validate_host true (bs "example.com.:8.0") false = (NGX_OK, bs "example.com.") /\
  ngx_http_validate_host true (bs "example.com.:80") false = (NGX_OK, bs "example.com").
Proof. vm_compute. split; reflexivity. Qed.

(** An address in brackets that are not closed is taken with its port. *)
Example open_bracket : ngx_http_validate_host true (bs "[::1:80") false = (NGX_OK, bs "[::1:80").
Proof. vm_compute. reflexivity. Qed.

End HostName.
