(* ===== verification/StatusLine.v ===== *)
(** * The status line of an upstream's response

    [ngx_http_parse_status_line] ([src/src/http/ngx_http_parse.c]).  The state is the
    position in the line, the two version fields of the request (16 bits each) and the
    [ngx_http_status_t], whose pointers are offsets into the buffer. *)

From S2P Require Import Prelude NgxString HttpRequest.

Module StatusLine.
Import NgxString.

Inductive sw : Type :=
| sw_start | sw_H | sw_HT | sw_HTT | sw_HTTP | sw_first_major_digit | sw_major_digit | sw_first_minor_digit
| sw_minor_digit | sw_status | sw_space_after_status | sw_status_text | sw_almost_done.

(** [ngx_http_status_t] and the fields of the request *)
Record status_t : Type := mk_status {
  s_version : Z; s_code : Z; s_count : Z; s_start : ptr; s_end : ptr; s_major : Z; s_minor : Z }.

#[export] Instance eta_status : Eta status_t := fun s =>
  mk_status (s_version s) (s_code s) (s_count s) (s_start s) (s_end s) (s_major s) (s_minor s).

(** After [ngx_memzero]. *)
Definition status_init (major minor : Z) : status_t := mk_status 0 0 0 None None major minor.

Inductive label : Type := Done | Failed.

Definition expect_byte (c ch : Z) (state next : sw) (s : status_t) : action (sw * status_t) label :=
  if ch =? c then Next (next, s) else Stop Failed (state, s).

Definition status_step (buf : list Z) (pos : nat) (ch : Z) (st : sw * status_t) : action (sw * status_t) label :=
  let '(state, s) := st in
  let p := Z.of_nat pos in
  match state with
  | sw_start => expect_byte "H"%ch ch state sw_H s
  | sw_H => expect_byte "T"%ch ch state sw_HT s
  | sw_HT => expect_byte "T"%ch ch state sw_HTT s
  | sw_HTT => expect_byte "P"%ch ch state sw_HTTP s
  | sw_HTTP => expect_byte "/"%ch ch state sw_first_major_digit s
  | sw_first_major_digit =>
      if (ch <? "1"%ch) || (ch >? "9"%ch) then Stop Failed st
      else Next (sw_major_digit, s <| s_major := u16 (ch - "0"%ch) |>)
  | sw_major_digit =>
      if ch =? "."%ch then Next (sw_first_minor_digit, s)
      else if negb (is_digit ch) then Stop Failed st
      else Next (sw_major_digit, s <| s_major := u16 (s_major s * 10 + ch - "0"%ch) |>)
  | sw_first_minor_digit =>
      if negb (is_digit ch) then Stop Failed st
      else Next (sw_minor_digit, s <| s_minor := u16 (ch - "0"%ch) |>)
  | sw_minor_digit =>
      if ch =? " "%ch then Next (sw_status, s)
      else if negb (is_digit ch) then Stop Failed st
      else Next (sw_minor_digit, s <| s_minor := u16 (s_minor s * 10 + ch - "0"%ch) |>)
  | sw_status =>
      if ch =? " "%ch then Next st
      else if negb (is_digit ch) then Stop Failed st
      else
        let s := s <| s_code := u64 (s_code s * 10 + ch - "0"%ch) |> <| s_count := u64 (s_count s + 1) |> in
        if s_count s =? 3 then Next (sw_space_after_status, s <| s_start := Some (p - 2) |>) else Next (sw_status, s)
  | sw_space_after_status =>
      if ch =? " "%ch then Next (sw_status_text, s)
      else if ch =? "."%ch then Next (sw_status_text, s)
      else if ch =? CR then Next (sw_almost_done, s)
      else if ch =? LF then Stop Done st
      else Stop Failed st
  | sw_status_text =>
      if ch =? CR then Next (sw_almost_done, s)
      else if ch =? LF then Stop Done st
      else Next st
  | sw_almost_done =>
      let s := s <| s_end := Some (p - 1) |> in
      if ch =? LF then Stop Done (state, s) else Stop Failed (state, s)
  end.

(** The code, [b->pos], [r->state] and the status. *)
Record status_res : Type := mk_res { rc : Z; b_pos : nat; r_state : sw; st : status_t }.

(** [ngx_http_parse_status_line] *)
Definition parse_status_line (buf : list Z) (pos : nat) (state : sw) (s : status_t) : status_res :=
  match run_scan status_step 0 buf pos (state, s) with
  | Exhausted p (state, s) => mk_res NGX_AGAIN p state s
  | Stopped Failed _ (_, s) => mk_res NGX_ERROR pos state s
  | Stopped Done p (_, s) =>
      let s := match s_end s with None => s <| s_end := Some (Z.of_nat p) |> | Some _ => s end in
      mk_res NGX_OK (S p) sw_start (s <| s_version := u64 (s_major s * 1000 + s_minor s) |>)
  | NoFuel => mk_res NGX_ABORT pos state s
  end.

(** ** Resumption *)

Lemma status_no_redo buf p c s s' : status_step buf p c s = Redo s' -> (0 < 0)%nat.
Proof.
  destruct s as [state s]. unfold status_step, expect_byte. destruct state; intros H; exfalso; revert H;
    repeat (first [discriminate | match goal with |- context [if ?b then _ else _] => destruct b end]).
Qed.

Lemma status_local buf ext p c s :
  buf !! p = Some c -> status_step (buf ++ ext) p c s = status_step buf p c s.
Proof. done. Qed.

(** a status line that arrives in pieces is parsed as if it had arrived at once, and bytes after a decided line do
    not matter. *)
Theorem status_line_resume buf ext pos state s :
  let o := parse_status_line buf pos state s in
  let whole := parse_status_line (buf ++ ext) pos state s in
  if rc o =? NGX_AGAIN then
    let o' := parse_status_line (buf ++ ext) (b_pos o) (r_state o) (st o) in
    rc o' = rc whole /\ st o' = st whole /\ (rc whole <> NGX_ERROR -> o' = whole)
  else whole = o.
Proof.
  cbv zeta. unfold parse_status_line.
  pose proof (run_scan_resume status_step status_local (fun _ => 0%nat) 0 status_no_redo (fun _ => Nat.le_refl 0) buf ext pos (state, s)) as H.
  destruct (run_scan status_step 0 buf pos (state, s)) as [q [st' s']|[] q [st' s']|] eqn:E; cbn [rc b_pos r_state st]; [| | |done]; rewrite H; try reflexivity.
  change (NGX_AGAIN =? NGX_AGAIN) with true. cbv iota.
  destruct (run_scan status_step 0 (buf ++ ext) q (st', s')) as [? []|[] ? []|] eqn:E'; try by split_and!.
  by apply (run_scan_total status_step (fun _ => 0%nat) 0 status_no_redo (fun _ => Nat.le_refl 0)) in E'.
Qed.

(** ** Reading back *)

(** A version number in 16 bits. *)
Definition ver (ds : list Z) : Z := u16 (dec_val ds).

Definition status_line (major minor code text : list Z) : list Z :=
  bs "HTTP/" ++ major ++ bs "." ++ minor ++ bs " " ++ code ++ text.

(** The text after the code: empty, or a space or dot (for "403.1") and anything up to the end of the line. *)
Definition text_ok (text : list Z) : Prop :=
  match text with
  | [] => True
  | c :: l => (c = " "%ch \/ c = "."%ch) /\ Forall (fun x => x <> CR /\ x <> LF) l
  end.

Lemma status_major pre ds s v : digits ds -> s_major s = u16 v ->
  run_next status_step pre ds (sw_major_digit, s) = Some (sw_major_digit, s <| s_major := u16 (fold_left dec_step ds v) |>).
Proof.
  intros Hd. revert pre s v. induction Hd as [|c ds Hc Hds IH]; intros pre s v Hv.
  - cbn. rewrite <- Hv. by destruct s.
  - cbn [run_next status_step]. rewrite Hc. pose proof (proj1 (is_digit_iff c) Hc).
    rewrite (proj2 (Z.eqb_neq c "."%ch)) by lia. cbn [negb]. rewrite (IH _ _ (dec_step v c)).
    + by destruct s.
    + destruct s. cbn in Hv |- *. rewrite Hv. unfold u16, dec_step. rewrite <- Z.add_sub_assoc. apply wrap_u_mul_add.
Qed.

Lemma status_minor pre ds s v : digits ds -> s_minor s = u16 v ->
  run_next status_step pre ds (sw_minor_digit, s) = Some (sw_minor_digit, s <| s_minor := u16 (fold_left dec_step ds v) |>).
Proof.
  intros Hd. revert pre s v. induction Hd as [|c ds Hc Hds IH]; intros pre s v Hv.
  - cbn. rewrite <- Hv. by destruct s.
  - cbn [run_next status_step]. rewrite Hc. pose proof (proj1 (is_digit_iff c) Hc).
    rewrite (proj2 (Z.eqb_neq c " "%ch)) by lia. cbn [negb]. rewrite (IH _ _ (dec_step v c)).
    + by destruct s.
    + destruct s. cbn in Hv |- *. rewrite Hv. unfold u16, dec_step. rewrite <- Z.add_sub_assoc. apply wrap_u_mul_add.
Qed.

(** The whole version. *)
Lemma status_version a major b minor s0 :
  digits (a :: major) -> a <> "0"%ch -> digits (b :: minor) ->
  run_next status_step [] (bs "HTTP/" ++ (a :: major) ++ bs "." ++ (b :: minor) ++ bs " ") (sw_start, s0) =
  Some (sw_status, s0 <| s_major := ver (a :: major) |> <| s_minor := ver (b :: minor) |>).
Proof.
  intros HM Ha HN. apply Forall_cons_1 in HM as [Hda HM]. apply Forall_cons_1 in HN as [Hdb HN].
  pose proof (proj1 (is_digit_iff a) Hda). pose proof (proj1 (is_digit_iff b) Hdb).
  rewrite run_next_app. change (run_next status_step [] (bs "HTTP/") (sw_start, s0)) with (Some (sw_first_major_digit, s0)). cbn [mbind option_bind].
  rewrite <- !app_comm_cons. cbn [run_next status_step].
  rewrite (proj2 (Z.ltb_ge a "1"%ch)), Z.gtb_ltb, (proj2 (Z.ltb_ge "9"%ch a)) by lia. cbn [orb].
  rewrite run_next_app, (status_major _ major _ (dec_step 0 a)) by (done || (destruct s0; cbn; unfold dec_step; f_equal; lia)). cbn [mbind option_bind].
  change (bs "." ++ b :: minor ++ bs " ") with ("."%ch :: b :: minor ++ bs " "). cbn [run_next status_step].
  change ("."%ch =? "."%ch) with true. cbv iota. cbn [status_step]. rewrite Hdb. cbn [negb].
  rewrite run_next_app, (status_minor _ minor _ (dec_step 0 b)) by (done || (destruct s0; cbn; unfold dec_step; f_equal; lia)). cbn [mbind option_bind].
  by destruct s0.
Qed.

(** The three digits of the code. *)
Lemma status_code_digits pre a b c s :
  digits [a; b; c] -> s_code s = 0 -> s_count s = 0 ->
  run_next status_step pre [a; b; c] (sw_status, s) =
  Some (sw_space_after_status, s <| s_code := dec_val [a; b; c] |> <| s_count := 3 |> <| s_start := Some (Z.of_nat (length pre)) |>).
Proof.
  intros Hd Hc Hn. apply Forall_cons_1 in Hd as [Ha Hd]. apply Forall_cons_1 in Hd as [Hb Hd]. apply Forall_cons_1 in Hd as [Hcc _].
  pose proof (proj1 (is_digit_iff a) Ha). pose proof (proj1 (is_digit_iff b) Hb). pose proof (proj1 (is_digit_iff c) Hcc).
  destruct s as [v code count st_ en ma mi]. cbn [s_code s_count] in *. subst code count.
  assert (forall buf p x v code count, is_digit x = true -> 0 <= code < 100 -> 0 <= count < 3 ->
    status_step buf p x (sw_status, mk_status v code count st_ en ma mi) =
    if count =? 2 then Next (sw_space_after_status, mk_status v (code * 10 + x - 48) 3 (Some (Z.of_nat p - 2)) en ma mi)
    else Next (sw_status, mk_status v (code * 10 + x - 48) (count + 1) st_ en ma mi)) as Hstep.
  { intros buf p x v0 code count Hx Hco Hcn. pose proof (proj1 (is_digit_iff x) Hx). cbn [status_step].
    rewrite (proj2 (Z.eqb_neq x " "%ch)), Hx by lia. cbn [negb].
    cbn -[Z.mul Z.add Z.sub u64 Z.of_nat Z.eqb]. rewrite (u64_small (code * 10 + x - 48)), (u64_small (count + 1)) by lia.
    destruct (Z.eqb_spec (count + 1) 3), (Z.eqb_spec count 2); try lia; [|done]. by replace (count + 1) with 3 by lia. }
  cbn [run_next]. rewrite Hstep by (done || lia). cbn [Z.eqb run_next]. rewrite Hstep by (done || lia).
  change (0 + 1 =? 2) with false. cbn [run_next]. rewrite Hstep by (done || lia). change (0 + 1 + 1 =? 2) with true. cbn [run_next].
  cbn [update]. unfold dec_val. cbn [fold_left]. unfold dec_step. cbn -[Z.mul Z.add Z.sub Z.of_nat].
  rewrite !length_app. cbn [length]. do 2 f_equal. f_equal; [lia|]. f_equal. lia.
Qed.

(** The rest of the line, before its end. *)
Lemma status_text_run pre text s : text_ok text ->
  exists state, run_next status_step pre text (sw_space_after_status, s) = Some (state, s) /\
    (state = sw_space_after_status \/ state = sw_status_text).
Proof.
  destruct text as [|c text]; [by eexists; split; [|left]|]. intros [Hc Ht]. cbn [run_next status_step].
  assert ((if c =? " "%ch then Next (sw_status_text, s)
           else if c =? "."%ch then Next (sw_status_text, s)
           else if c =? CR then Next (sw_almost_done, s)
           else if c =? LF then Stop Done (sw_space_after_status, s)
           else @Stop (sw * status_t) label Failed (sw_space_after_status, s)) = Next (sw_status_text, s)) as -> by (by destruct Hc; subst).
  exists sw_status_text. split; [|by right]. revert pre. generalize (c :: nil). intros l pre. revert pre l.
  induction Ht as [|x text [H1 H2] Ht IH]; intros pre l; [done|]. cbn [run_next status_step].
  rewrite (proj2 (Z.eqb_neq _ _) H1), (proj2 (Z.eqb_neq _ _) H2). apply (IH (pre ++ l) [x]).
Qed.

(** a status line HTTP/x.y, a space, three digits and a text, ended by LF or CRLF, is read to its version, its code and
    the part of the line from the code to the end of the text. *)
Theorem parse_rendered_status a major b minor code text cr rest ma mi :
  digits (a :: major) -> a <> "0"%ch -> digits (b :: minor) -> digits code -> length code = 3%nat -> text_ok text ->
  let line := status_line (a :: major) (b :: minor) code text in
  let eol := if cr : bool then [CR; LF] else [LF] in
  let o := parse_status_line (line ++ eol ++ rest) 0 sw_start (status_init ma mi) in
  rc o = NGX_OK /\ b_pos o = length (line ++ eol) /\ r_state o = sw_start /\
  s_code (st o) = dec_val code /\ s_version (st o) = ver (a :: major) * 1000 + ver (b :: minor) /\
  s_start (st o) = Some (Z.of_nat (length line - length (code ++ text))) /\ s_end (st o) = Some (Z.of_nat (length line)).
Proof.
  intros HM Ha HN Hcode H3 Ht line eol o. destruct code as [|c1 [|c2 [|c3 [|? ?]]]]; try done.
  set (pre := bs "HTTP/" ++ (a :: major) ++ bs "." ++ (b :: minor) ++ bs " ").
  assert (line = pre ++ [c1; c2; c3] ++ text) as El by (unfold line, status_line, pre; by rewrite <- !app_assoc).
  set (s1 := (status_init ma mi) <| s_major := ver (a :: major) |> <| s_minor := ver (b :: minor) |>).
  set (s2 := s1 <| s_code := dec_val [c1; c2; c3] |> <| s_count := 3 |> <| s_start := Some (Z.of_nat (length pre)) |>).
  destruct (status_text_run (pre ++ [c1; c2; c3]) text s2 Ht) as (state & Hrun & Hstate).
  assert (run_next status_step [] line (sw_start, status_init ma mi) = Some (state, s2)) as Hline.
  { pose proof (status_version a major b minor (status_init ma mi) HM Ha HN) as Hpre. fold pre s1 in Hpre.
    rewrite El, run_next_app, Hpre. cbn [mbind option_bind app].
    change (c1 :: c2 :: c3 :: text) with ([c1; c2; c3] ++ text). rewrite run_next_app, status_code_digits by done. exact Hrun. }
  assert (0 <= ver (a :: major) < 2 ^ 16 /\ 0 <= ver (b :: minor) < 2 ^ 16) as [Hv1 Hv2] by (split; apply Z.mod_pos_bound; lia).
  assert (Z.of_nat (length line - length ([c1; c2; c3] ++ text)) = Z.of_nat (length pre)) as -> by (rewrite El, !length_app; lia).
  pose proof (run_scan_line status_step status_local (fun _ => 0%nat) 0 status_no_redo (fun _ => Nat.le_refl 0)) as Hscan.
  subst o. unfold parse_status_line, eol. destruct cr.
  - assert (run_next status_step [] (line ++ [CR]) (sw_start, status_init ma mi) = Some (sw_almost_done, s2)) as Hcr.
    { rewrite run_next_app, Hline. cbn [mbind option_bind run_next status_step]. by destruct Hstate; subst. }
    change ([CR; LF] ++ rest) with ([CR] ++ LF :: rest). rewrite app_assoc.
    rewrite (Hscan (line ++ [CR]) LF rest _ (sw_almost_done, s2) Done (sw_almost_done, s2 <| s_end := Some (Z.of_nat (length (line ++ [CR])) - 1) |>) Hcr) by done.
    cbn -[Z.mul Z.add Z.of_nat Z.sub u64 dec_val ver]. rewrite u64_small by lia. rewrite !length_app. cbn [length].
    split_and!; try done; [lia|]. f_equal. lia.
  - change ([LF] ++ rest) with (LF :: rest). rewrite (Hscan line LF rest _ (state, s2) Done (state, s2) Hline) by (destruct Hstate; by subst).
    cbn -[Z.mul Z.add Z.of_nat Z.sub u64 dec_val ver]. rewrite u64_small by lia. rewrite !length_app. cbn [length].
    split_and!; try done; lia.
Qed.

Lemma parse_rendered_status_witness :
  let o := parse_status_line (bs "HTTP/1.1 404 Not Found" ++ [CR; LF] ++ bs "Date: now") 0 sw_start (status_init 0 0) in
  rc o = NGX_OK /\ b_pos o = 24%nat /\ s_code (st o) = 404 /\ s_version (st o) = 1001 /\ s_start (st o) = Some 9 /\ s_end (st o) = Some 22.
Proof.
  destruct (parse_rendered_status "1"%ch [] "1"%ch [] (bs "404") (bs " Not Found") true (bs "Date: now") 0 0) as (H1 & H2 & _ & H3 & H4 & H5 & H6);
    [by repeat constructor|done|by repeat constructor|by repeat constructor|done|split; [by left|by repeat constructor]|].
  split_and!; done.
Defined.

(** Spaces are skipped between the digits of the code, and the text of the status starts in the wrong place then. *)
Example spaces_in_code :
  let o := parse_status_line (bs "HTTP/1.1 2 00 OK" ++ [LF]) 0 sw_start (status_init 0 0) in
  (rc o, s_code (st o), s_start (st o)) = (NGX_OK, 200, Some 10).
Proof. vm_compute. reflexivity. Qed.

End StatusLine.
