(* ===== verification/NgxCodec.v ===== *)
(** * Text codings of [src/src/core/ngx_string.c]

    Base64 and its URL variant, percent escaping with the eight tables, HTML
    escaping, and UTF-8 decoding. *)

From S2P Require Import Prelude NgxString.

Module NgxCodec.
Import NgxString.

(** ** Base64 *)

Definition alnum64 : list Z := bs "ABCDEFGHIJKLMNOPQRSTUVWXYZabcdefghijklmnopqrstuvwxyz0123456789".
Definition basis64 : list Z := alnum64 ++ bs "+/".
Definition basis64url : list Z := alnum64 ++ bs "-_".

(** [basis[i]] *)
Definition enc_char (basis : list Z) (i : Z) : Z := nth (Z.to_nat i) basis 0.

Fixpoint encode_base64_internal (basis : list Z) (padding : bool) (src : list Z) : list Z :=
  match src with
  | s0 :: s1 :: s2 :: src' =>
      enc_char basis (Z.land (Z.shiftr s0 2) 0x3f) ::
      enc_char basis (Z.lor (Z.shiftl (Z.land s0 3) 4) (Z.shiftr s1 4)) ::
      enc_char basis (Z.lor (Z.shiftl (Z.land s1 0x0f) 2) (Z.shiftr s2 6)) ::
      enc_char basis (Z.land s2 0x3f) :: encode_base64_internal basis padding src'
  | [s0] =>
      [enc_char basis (Z.land (Z.shiftr s0 2) 0x3f);
       enc_char basis (Z.shiftl (Z.land s0 3) 4); "="%ch] ++
      (if padding then ["="%ch] else [])
  | [s0; s1] =>
      [enc_char basis (Z.land (Z.shiftr s0 2) 0x3f);
       enc_char basis (Z.lor (Z.shiftl (Z.land s0 3) 4) (Z.shiftr s1 4));
       enc_char basis (Z.shiftl (Z.land s1 0x0f) 2)] ++
      (if padding then ["="%ch] else [])
  | [] => []
  end.

Definition ngx_encode_base64 (src : list Z) : list Z := encode_base64_internal basis64 true src.
Definition ngx_encode_base64url (src : list Z) : list Z :=
  encode_base64_internal basis64url false src.

(** The decoding tables: the rank of the bytes of the alphabet, 77 for the
    others. *)
Definition dec64 : list Z :=
  [
   77; 77; 77; 77; 77; 77; 77; 77; 77; 77; 77; 77; 77; 77; 77; 77;
   77; 77; 77; 77; 77; 77; 77; 77; 77; 77; 77; 77; 77; 77; 77; 77;
   77; 77; 77; 77; 77; 77; 77; 77; 77; 77; 77; 62; 77; 77; 77; 63;
   52; 53; 54; 55; 56; 57; 58; 59; 60; 61; 77; 77; 77; 77; 77; 77;
   77; 0; 1; 2; 3; 4; 5; 6; 7; 8; 9; 10; 11; 12; 13; 14;
   15; 16; 17; 18; 19; 20; 21; 22; 23; 24; 25; 77; 77; 77; 77; 77;
   77; 26; 27; 28; 29; 30; 31; 32; 33; 34; 35; 36; 37; 38; 39; 40;
   41; 42; 43; 44; 45; 46; 47; 48; 49; 50; 51; 77; 77; 77; 77; 77;
   77; 77; 77; 77; 77; 77; 77; 77; 77; 77; 77; 77; 77; 77; 77; 77;
   77; 77; 77; 77; 77; 77; 77; 77; 77; 77; 77; 77; 77; 77; 77; 77;
   77; 77; 77; 77; 77; 77; 77; 77; 77; 77; 77; 77; 77; 77; 77; 77;
   77; 77; 77; 77; 77; 77; 77; 77; 77; 77; 77; 77; 77; 77; 77; 77;
   77; 77; 77; 77; 77; 77; 77; 77; 77; 77; 77; 77; 77; 77; 77; 77;
   77; 77; 77; 77; 77; 77; 77; 77; 77; 77; 77; 77; 77; 77; 77; 77;
   77; 77; 77; 77; 77; 77; 77; 77; 77; 77; 77; 77; 77; 77; 77; 77;
   77; 77; 77; 77; 77; 77; 77; 77; 77; 77; 77; 77; 77; 77; 77; 77].

Definition dec64url : list Z :=
  [
   77; 77; 77; 77; 77; 77; 77; 77; 77; 77; 77; 77; 77; 77; 77; 77;
   77; 77; 77; 77; 77; 77; 77; 77; 77; 77; 77; 77; 77; 77; 77; 77;
   77; 77; 77; 77; 77; 77; 77; 77; 77; 77; 77; 77; 77; 62; 77; 77;
   52; 53; 54; 55; 56; 57; 58; 59; 60; 61; 77; 77; 77; 77; 77; 77;
   77; 0; 1; 2; 3; 4; 5; 6; 7; 8; 9; 10; 11; 12; 13; 14;
   15; 16; 17; 18; 19; 20; 21; 22; 23; 24; 25; 77; 77; 77; 77; 63;
   77; 26; 27; 28; 29; 30; 31; 32; 33; 34; 35; 36; 37; 38; 39; 40;
   41; 42; 43; 44; 45; 46; 47; 48; 49; 50; 51; 77; 77; 77; 77; 77;
   77; 77; 77; 77; 77; 77; 77; 77; 77; 77; 77; 77; 77; 77; 77; 77;
   77; 77; 77; 77; 77; 77; 77; 77; 77; 77; 77; 77; 77; 77; 77; 77;
   77; 77; 77; 77; 77; 77; 77; 77; 77; 77; 77; 77; 77; 77; 77; 77;
   77; 77; 77; 77; 77; 77; 77; 77; 77; 77; 77; 77; 77; 77; 77; 77;
   77; 77; 77; 77; 77; 77; 77; 77; 77; 77; 77; 77; 77; 77; 77; 77;
   77; 77; 77; 77; 77; 77; 77; 77; 77; 77; 77; 77; 77; 77; 77; 77;
   77; 77; 77; 77; 77; 77; 77; 77; 77; 77; 77; 77; 77; 77; 77; 77;
   77; 77; 77; 77; 77; 77; 77; 77; 77; 77; 77; 77; 77; 77; 77; 77].

(** [basis[c]] *)
Definition dec_char (basis : list Z) (c : Z) : Z := nth (Z.to_nat c) basis 77.

(** The first loop: the length before a [=], unless a byte is not of the
    alphabet. *)
Fixpoint decode_len (basis : list Z) (src : list Z) : option nat :=
  match src with
  | [] => Some 0%nat
  | c :: src' =>
      if c =? "="%ch then Some 0%nat
      else if dec_char basis c =? 77 then None
      else S <$> decode_len basis src'
  end.

Definition dec_hi (basis : list Z) (a b : Z) : Z :=
  u8 (Z.lor (Z.shiftl (dec_char basis a) 2) (Z.shiftr (dec_char basis b) 4)).
Definition dec_mid (basis : list Z) (a b : Z) : Z :=
  u8 (Z.lor (Z.shiftl (dec_char basis a) 4) (Z.shiftr (dec_char basis b) 2)).
Definition dec_lo (basis : list Z) (a b : Z) : Z :=
  u8 (Z.lor (Z.shiftl (dec_char basis a) 6) (dec_char basis b)).

Fixpoint decode_quads (basis : list Z) (s : list Z) : list Z :=
  match s with
  | a :: b :: c :: d :: s' =>
      dec_hi basis a b :: dec_mid basis b c :: dec_lo basis c d :: decode_quads basis s'
  | [a; b; c] => [dec_hi basis a b; dec_mid basis b c]
  | [a; b] => [dec_hi basis a b]
  | _ => []
  end.

(** [None] is [NGX_ERROR]. *)
Definition decode_base64_internal (basis : list Z) (src : list Z) : option (list Z) :=
  len ← decode_len basis src;
  if (len mod 4 =? 1)%nat then None else Some (decode_quads basis (take len src)).

Definition ngx_decode_base64 (src : list Z) : option (list Z) :=
  decode_base64_internal dec64 src.
Definition ngx_decode_base64url (src : list Z) : option (list Z) :=
  decode_base64_internal dec64url src.

Definition ngx_base64_encoded_length (len : nat) : nat := (len + 2) / 3 * 4.
Definition ngx_base64_decoded_length (len : nat) : nat := (len + 3) / 4 * 3.

Example base64_ex :
  (ngx_encode_base64 (bs "light w"), ngx_encode_base64url (bs "light w"),
   ngx_decode_base64 (bs "bGlnaHQgdw=="), ngx_decode_base64url (bs "bGlnaHQgdw"))
  = (bs "bGlnaHQgdw==", bs "bGlnaHQgdw=", Some (bs "light w"), Some (bs "light w")).
Proof. vm_compute. reflexivity. Qed.

(** ** Percent escaping *)

Definition all_ones : Z := 0xffffffff.
Definition esc_uri : list Z :=
  [all_ones; 0x80000029; 0; 0x80000000; all_ones; all_ones; all_ones; all_ones].
Definition esc_args : list Z :=
  [all_ones; 0x88000869; 0; 0x80000000; all_ones; all_ones; all_ones; all_ones].
Definition esc_uri_component : list Z :=
  [all_ones; 0xfc009fff; 0x78000001; 0xb8000001; all_ones; all_ones; all_ones; all_ones].
Definition esc_html : list Z :=
  [all_ones; 0x000000ad; 0; 0x80000000; all_ones; all_ones; all_ones; all_ones].
Definition esc_refresh : list Z :=
  [all_ones; 0x00000085; 0; 0x80000000; all_ones; all_ones; all_ones; all_ones].
Definition esc_memcached : list Z := [all_ones; 0x00000021; 0; 0; 0; 0; 0; 0].
Definition esc_form : list Z :=
  [all_ones; 0xfc009ffe; 0x78000001; 0xf8000001; all_ones; all_ones; all_ones; all_ones].

Definition NGX_ESCAPE_REFRESH : nat := 4.
Definition NGX_ESCAPE_WWW_FORM : nat := 7.

(** [map[type]] *)
Definition escape_map (type : nat) : list Z :=
  nth type [esc_uri; esc_args; esc_uri_component; esc_html; esc_refresh; esc_memcached;
            esc_memcached; esc_form] [].

(** With [dst == NULL]: the number of bytes to be escaped. *)
Fixpoint escape_count (type : nat) (src : list Z) : Z :=
  match src with
  | [] => 0
  | c :: src' => (if bitmap_test (escape_map type) c then 1 else 0) + escape_count type src'
  end.

(** The bytes one byte of [src] becomes. *)
Definition escape_byte (type : nat) (c : Z) : list Z :=
  if bitmap_test (escape_map type) c
  then ["%"%ch; hex_char hex_lower (Z.shiftr c 4); hex_char hex_lower (Z.land c 15)]
  else if (type =? NGX_ESCAPE_WWW_FORM)%nat && (c =? " "%ch) then ["+"%ch] else [c].

Fixpoint ngx_escape_uri (type : nat) (src : list Z) : list Z :=
  match src with
  | [] => []
  | c :: src' => escape_byte type c ++ ngx_escape_uri type src'
  end.

Inductive usw : Type := u_usual | u_quoted | u_quoted_second.

(** The bits of [type] of [ngx_unescape_uri]. *)
Record unescape_type : Type := mk_unescape {
  unescape_uri : bool;       (* NGX_UNESCAPE_URI *)
  unescape_redirect : bool;  (* NGX_UNESCAPE_REDIRECT *)
  unescape_form : bool       (* NGX_UNESCAPE_WWW_FORM *)
}.

(** One byte: what is written, and the next state with the high digit, or
    [goto done].  [prev] is the byte [s - 2] points to. *)
Definition unescape_step (type : unescape_type) (state : usw) (decoded prev ch : Z)
    : list Z * option (usw * Z) :=
  match state with
  | u_usual =>
      if (ch =? "+"%ch) && unescape_form type then ([" "%ch], Some (u_usual, decoded))
      else if (ch =? "?"%ch) && (unescape_uri type || unescape_redirect type) then ([ch], None)
      else if ch =? "%"%ch then ([], Some (u_quoted, decoded))
      else ([ch], Some (u_usual, decoded))
  | u_quoted =>
      match hex_digit ch with
      | Some d => ([], Some (u_quoted_second, d))
      | None => (["%"%ch; ch], Some (u_usual, decoded))
      end
  | u_quoted_second =>
      let raw := ["%"%ch; prev; ch] in
      let next := Some (u_usual, decoded) in
      match hex_digit ch with
      | Some d =>
          let c := u8 (Z.shiftl decoded 4 + d) in
          let shown := if (c >? "%"%ch) && (c <? 0x7f) then [c] else raw in
          if is_digit ch then
            if unescape_redirect type then (shown, next) else ([c], next)
          else if unescape_uri type then
            if c =? "?"%ch then ([c], None) else ([c], next)
          else if unescape_redirect type then
            if c =? "?"%ch then ([c], None) else (shown, next)
          else ([c], next)
      | None => (raw, next)
      end
  end.

(** The loop; the second result is what is left of [src] at [done]. *)
Fixpoint unescape_loop (type : unescape_type) (state : usw) (decoded prev : Z) (src : list Z)
    : list Z * list Z :=
  match src with
  | [] => ([], [])
  | ch :: src' =>
      match unescape_step type state decoded prev ch with
      | (w, None) => (w, src')
      | (w, Some (state', decoded')) =>
          let '(d, rest) := unescape_loop type state' decoded' ch src' in (w ++ d, rest)
      end
  end.

Definition ngx_unescape_uri (type : unescape_type) (src : list Z) : list Z * list Z :=
  unescape_loop type u_usual 0 0 src.

(** ** HTML escaping *)

Definition html_entity (ch : Z) : option (list Z) :=
  if ch =? "<"%ch then Some (bs "&lt;")
  else if ch =? ">"%ch then Some (bs "&gt;")
  else if ch =? "&"%ch then Some (bs "&amp;")
  else if ch =? 34 then Some (bs "&quot;")
  else None.

(** With [dst == NULL]: the bytes added. *)
Fixpoint escape_html_len (src : list Z) : Z :=
  match src with
  | [] => 0
  | c :: src' =>
      (if c =? "<"%ch then 3 else if c =? ">"%ch then 3 else if c =? "&"%ch then 4
       else if c =? 34 then 5 else 0) + escape_html_len src'
  end.

Fixpoint ngx_escape_html (src : list Z) : list Z :=
  match src with
  | [] => []
  | c :: src' => match html_entity c with Some e => e | None => [c] end ++ ngx_escape_html src'
  end.

(** ** UTF-8 *)

(** The continuation bytes: [None] when one is below 0x80, with the bytes read. *)
Fixpoint utf8_tail (len : nat) (u : Z) (p : list Z) (n : nat) : option Z * nat :=
  match len with
  | O => (Some u, n)
  | S len' =>
      let i := hd 0 p in
      if i <? 0x80 then (None, S n)
      else utf8_tail len' (u32 (Z.lor (Z.shiftl u 6) (Z.land i 0x3f))) (tail p) (S n)
  end.

(** [ngx_utf8_decode] at the start of [p], which is not empty; [n] is the
    argument of the same name.  Returns the value and how far [*p] moves; reads
    past [p] give the byte 0. *)
Definition ngx_utf8_decode (p : list Z) (n : Z) : Z * nat :=
  let u := hd 0 p in
  let '(ok, u, valid, len) :=
    if u >=? 0xf0 then (true, Z.land u 0x07, 0xffff, 3%nat)
    else if u >=? 0xe0 then (true, Z.land u 0x0f, 0x7ff, 2%nat)
    else if u >=? 0xc2 then (true, Z.land u 0x1f, 0x7f, 1%nat)
    else (false, u, 0, 0%nat) in
  if negb ok then (0xffffffff, 1%nat)
  else if u64 (n - 1) <? Z.of_nat len then (0xfffffffe, 0%nat)
  else
    match utf8_tail len u (tail p) 1 with
    | (None, k) => (0xffffffff, k)
    | (Some u, k) => if u >? valid then (u, k) else (0xffffffff, k)
    end.

(** [ngx_utf8_length]: [n] is passed to every call, not what is left. *)
Fixpoint utf8_length_loop (fuel : nat) (p : list Z) (left n len : Z) : option Z :=
  match fuel with
  | O => None
  | S fuel' =>
      if left <=? 0 then Some len
      else if hd 0 p <? 0x80 then utf8_length_loop fuel' (tail p) (left - 1) n (len + 1)
      else
        let '(v, k) := ngx_utf8_decode p n in
        if v >? 0x10ffff then Some n
        else utf8_length_loop fuel' (drop k p) (left - Z.of_nat k) n (len + 1)
  end.

Definition ngx_utf8_length (p : list Z) : option Z :=
  utf8_length_loop (S (length p)) p (Z.of_nat (length p)) (Z.of_nat (length p)) 0.

(** ** Bit fields as arithmetic *)

#[local] Ltac Zify.zify_post_hook ::= Z.to_euclidean_division_equations.

Lemma lor_shiftl a b k : 0 <= k -> 0 <= b < 2 ^ k -> Z.lor (Z.shiftl a k) b = a * 2 ^ k + b.
Proof.
  intros Hk Hb. rewrite <- (Z.shiftl_mul_pow2 a k) by done.
  rewrite Z.add_nocarry_lxor; [symmetry; apply Z.lxor_lor|];
    (apply Z.bits_inj'; intros n Hn; rewrite Z.land_spec, Z.bits_0;
     destruct (Z.lt_ge_cases n k); [by rewrite Z.shiftl_spec_low|];
     rewrite <- (Z.mod_small b (2 ^ k)), Z.mod_pow2_bits_high by lia; apply andb_false_r).
Qed.

Lemma land_ones_mod a k m : 0 <= k -> m = Z.ones k -> Z.land a m = a mod 2 ^ k.
Proof. intros Hk ->. by apply Z.land_ones. Qed.

(** ** Base64 round trip *)

(** What the encoding and the decoding table must have in common. *)
Class Alphabet (basis dec : list Z) : Prop := {
  alphabet_dec : forall i, 0 <= i < 64 -> dec_char dec (enc_char basis i) = i;
  alphabet_pad : forall i, 0 <= i < 64 -> enc_char basis i <> "="%ch
}.

Lemma alphabet_check basis dec :
  forallb (fun i => (dec_char dec (enc_char basis i) =? i) && negb (enc_char basis i =? "="%ch))
    (Z.of_nat <$> seq 0 64) = true -> Alphabet basis dec.
Proof.
  rewrite forallb_forall. intros H.
  assert (forall i, 0 <= i < 64 ->
    (dec_char dec (enc_char basis i) =? i) && negb (enc_char basis i =? "="%ch) = true) as Hi.
  { intros i Hi. apply H, list_elem_of_In, list_elem_of_fmap. exists (Z.to_nat i).
    split; [lia|]. apply elem_of_seq. lia. }
  split; intros i Hr; specialize (Hi i Hr); apply andb_true_iff in Hi as [H1 H2]; lia.
Qed.

#[export] Instance alphabet_basis64 : Alphabet basis64 dec64.
Proof. apply alphabet_check. vm_compute. reflexivity. Qed.

#[export] Instance alphabet_basis64url : Alphabet basis64url dec64url.
Proof. apply alphabet_check. vm_compute. reflexivity. Qed.

Section Base64.
Context (basis dec : list Z) {alpha : Alphabet basis dec}.

Lemma decode_len_cons i s :
  0 <= i < 64 -> decode_len dec (enc_char basis i :: s) = S <$> decode_len dec s.
Proof.
  intros Hi. cbn [decode_len]. destruct (Z.eqb_spec (enc_char basis i) 61) as [E|_].
  { by destruct (alphabet_pad (Alphabet := alpha) i Hi). }
  rewrite (alphabet_dec i Hi). destruct (Z.eqb_spec i 77); [lia|done].
Qed.

Lemma decode_base64_quad i j k l s :
  0 <= i < 64 -> 0 <= j < 64 -> 0 <= k < 64 -> 0 <= l < 64 ->
  decode_base64_internal dec
    (enc_char basis i :: enc_char basis j :: enc_char basis k :: enc_char basis l :: s) =
  d ← decode_base64_internal dec s;
  Some (u8 (Z.lor (Z.shiftl i 2) (Z.shiftr j 4)) :: u8 (Z.lor (Z.shiftl j 4) (Z.shiftr k 2)) ::
        u8 (Z.lor (Z.shiftl k 6) l) :: d).
Proof.
  intros Hi Hj Hk Hl. unfold decode_base64_internal.
  rewrite !decode_len_cons by done. destruct (decode_len dec s) as [n|]; [|done].
  cbn [fmap option_fmap option_map mbind option_bind take decode_quads].
  replace (S (S (S (S n))) mod 4)%nat with (n mod 4)%nat
    by (change (S (S (S (S n)))) with (4 + n)%nat; rewrite <- (Nat.Div0.add_mod_idemp_l 4 n 4); done).
  destruct (n mod 4 =? 1)%nat; [done|]. cbn [mbind option_bind].
  unfold dec_hi, dec_mid, dec_lo. rewrite !alphabet_dec by done. done.
Qed.

Lemma enc_fields a b c :
  is_byte a -> is_byte b -> is_byte c ->
  let i := Z.land (Z.shiftr a 2) 0x3f in
  let j := Z.lor (Z.shiftl (Z.land a 3) 4) (Z.shiftr b 4) in
  let k := Z.lor (Z.shiftl (Z.land b 0x0f) 2) (Z.shiftr c 6) in
  let l := Z.land c 0x3f in
  (0 <= i < 64 /\ 0 <= j < 64 /\ 0 <= k < 64 /\ 0 <= l < 64) /\
  u8 (Z.lor (Z.shiftl i 2) (Z.shiftr j 4)) = a /\
  u8 (Z.lor (Z.shiftl j 4) (Z.shiftr k 2)) = b /\ u8 (Z.lor (Z.shiftl k 6) l) = c.
Proof.
  intros Ha Hb Hc i j k l. unfold is_byte in Ha, Hb, Hc.
  assert (i = (a / 4) mod 64) as Ei
    by (unfold i; by rewrite (land_ones_mod _ 6 63), Z.shiftr_div_pow2).
  assert (l = c mod 64) as El by (unfold l; by rewrite (land_ones_mod _ 6 63)).
  assert (j = a mod 4 * 16 + b / 16) as Ej.
  { unfold j. rewrite (land_ones_mod a 2 3), Z.shiftr_div_pow2 by done.
    change (2 ^ 4) with 16. apply lor_shiftl; lia. }
  assert (k = b mod 16 * 4 + c / 64) as Ek.
  { unfold k. rewrite (land_ones_mod b 4 15), Z.shiftr_div_pow2 by done.
    change (2 ^ 6) with 64. apply lor_shiftl; lia. }
  clearbody i j k l. rewrite !Z.shiftr_div_pow2 by done.
  change (2 ^ 2) with 4. change (2 ^ 4) with 16.
  rewrite !lor_shiftl by lia. unfold u8, wrap_u. lia.
Qed.
End Base64.

Section Base64Trip.
Context (basis dec : list Z) {alpha : Alphabet basis dec}.

Lemma decode_pad s : decode_base64_internal dec ("="%ch :: s) = Some [].
Proof. done. Qed.

(** The two short endings, with what may follow them. *)
Lemma decode_one a pad :
  is_byte a -> pad = [] \/ (exists s, pad = "="%ch :: s) ->
  decode_base64_internal dec
    ([enc_char basis (Z.land (Z.shiftr a 2) 0x3f); enc_char basis (Z.shiftl (Z.land a 3) 4)] ++ pad)
  = Some [a].
Proof.
  intros Ha Hpad. assert (is_byte 0) as H0 by done.
  destruct (enc_fields a 0 0 Ha H0 H0) as ((Hi & Hj & _ & _) & E & _).
  rewrite Z.lor_0_r in Hj, E. unfold decode_base64_internal. cbn [app].
  rewrite !(decode_len_cons basis dec) by done.
  assert (decode_len dec pad = Some 0%nat) as -> by (destruct Hpad as [-> |[s ->]]; done).
  cbn. unfold dec_hi. rewrite !alphabet_dec by done. by rewrite E.
Qed.

Lemma decode_two a b pad :
  is_byte a -> is_byte b -> pad = [] \/ (exists s, pad = "="%ch :: s) ->
  decode_base64_internal dec
    ([enc_char basis (Z.land (Z.shiftr a 2) 0x3f);
      enc_char basis (Z.lor (Z.shiftl (Z.land a 3) 4) (Z.shiftr b 4));
      enc_char basis (Z.shiftl (Z.land b 0x0f) 2)] ++ pad) = Some [a; b].
Proof.
  intros Ha Hb Hpad. assert (is_byte 0) as H0 by done.
  destruct (enc_fields a b 0 Ha Hb H0) as ((Hi & Hj & Hk & _) & E1 & E2 & _).
  rewrite Z.lor_0_r in Hk, E2. unfold decode_base64_internal. cbn [app].
  rewrite !(decode_len_cons basis dec) by done.
  assert (decode_len dec pad = Some 0%nat) as -> by (destruct Hpad as [-> |[s ->]]; done).
  cbn. unfold dec_hi, dec_mid. rewrite !alphabet_dec by done. by rewrite E1, E2.
Qed.

Lemma base64_trip padding n src :
  (length src < n)%nat -> bytes src ->
  decode_base64_internal dec (encode_base64_internal basis padding src) = Some src /\
  (length (encode_base64_internal basis padding src) <= ngx_base64_encoded_length (length src))%nat.
Proof.
  revert src. induction n as [|n IH]; intros src Hn Hb; [lia|].
  unfold ngx_base64_encoded_length in *.
  destruct src as [|a [|b [|c src]]]; cbn [encode_base64_internal].
  - done.
  - apply Forall_cons_1 in Hb as [Ha _]. split; [|destruct padding; cbn; lia].
    apply (decode_one a (("="%ch) :: if padding then ["="%ch] else [])); [done|]. right. by eexists.
  - apply Forall_cons_1 in Hb as [Ha Hb]. apply Forall_cons_1 in Hb as [Hb _].
    split; [|destruct padding; cbn; lia].
    apply (decode_two a b (if padding then ["="%ch] else [])); [done..|].
    destruct padding; [right; by eexists|by left].
  - apply Forall_cons_1 in Hb as [Ha Hb]. apply Forall_cons_1 in Hb as [Hb Hc].
    apply Forall_cons_1 in Hc as [Hc Hs].
    destruct (enc_fields a b c Ha Hb Hc) as ((Hi & Hj & Hk & Hl) & E1 & E2 & E3).
    destruct (IH src) as [IH1 IH2]; [simpl in Hn; lia|done|].
    rewrite (decode_base64_quad basis dec) by done. rewrite IH1.
    cbn [mbind option_bind]. rewrite E1, E2, E3. split; [done|]. cbn [length].
    replace (S (S (S (length src))) + 2)%nat with (length src + 2 + 1 * 3)%nat by lia.
    rewrite Nat.div_add by lia. lia.
Qed.
End Base64Trip.

(** base64 and base64url decode what they encode, for every byte string,
    and the encoded text fits [ngx_base64_encoded_length] bytes. *)
Theorem base64_roundtrip src :
  bytes src ->
  ngx_decode_base64 (ngx_encode_base64 src) = Some src /\
  ngx_decode_base64url (ngx_encode_base64url src) = Some src /\
  (length (ngx_encode_base64 src) <= ngx_base64_encoded_length (length src))%nat /\
  (length (ngx_encode_base64url src) <= ngx_base64_encoded_length (length src))%nat.
Proof.
  intros Hb.
  destruct (base64_trip basis64 dec64 true (S (length src)) src) as [H1 H2]; [lia|done|].
  destruct (base64_trip basis64url dec64url false (S (length src)) src) as [H3 H4]; [lia|done|].
  done.
Qed.

Lemma base64_roundtrip_witness :
  ngx_decode_base64 (ngx_encode_base64 [0; 255; 128; 7]) = Some [0; 255; 128; 7] /\
  ngx_decode_base64url (ngx_encode_base64url [0; 255; 128; 7]) = Some [0; 255; 128; 7] /\
  (length (ngx_encode_base64 [0; 255; 128; 7]%Z) <= 8)%nat /\
  (length (ngx_encode_base64url [0; 255; 128; 7]%Z) <= 8)%nat.
Proof. apply (base64_roundtrip [0; 255; 128; 7]). repeat constructor; done. Defined.

(** The URL variant is called without padding, but a lone last byte still gets
    one [=]. *)
Example base64url_pads : ngx_encode_base64url (bs "a") = bs "YQ=".
Proof. reflexivity. Qed.

(** ** Escaping round trip *)

(** The digit and the byte before it only matter inside a quoted byte. *)
Lemma unescape_fresh type state d p d' p' src :
  state <> u_quoted_second ->
  unescape_loop type state d p src = unescape_loop type state d' p' src.
Proof.
  revert state d p d' p'. induction src as [|ch src IH]; intros state d p d' p' Hs; [done|].
  cbn [unescape_loop]. destruct state; [| |done]; cbn [unescape_step].
  - repeat case_match; try done; simplify_eq;
      repeat match goal with
      | H : unescape_loop _ ?st ?a ?b ?l = _, H' : unescape_loop _ ?st ?c ?e ?l = _ |- _ =>
          rewrite (IH st a b c e) in H by done; rewrite H in H'; simplify_eq end; done.
  - destruct (hex_digit ch); [done|].
    by rewrite (IH u_usual d ch d' ch) by done.
Qed.

Definition unescape_none : unescape_type := mk_unescape false false false.

(** How the result of [ngx_escape_uri] for [type] is read back. *)
Definition unescape_for (type : nat) : unescape_type :=
  mk_unescape false false (type =? NGX_ESCAPE_WWW_FORM)%nat.

(** Reading one escaped byte in front of [s], on all bytes and all tables. *)
Definition escape_byte_ok (type : nat) (c : Z) : bool :=
  match escape_byte type c with
  | [x] => match unescape_step (unescape_for type) u_usual 0 0 x with
           | ([y], Some (u_usual, _)) => y =? c
           | _ => false
           end
  | [a; h; l] =>
      (a =? "%"%ch) &&
      match hex_digit h with
      | Some d => match unescape_step (unescape_for type) u_quoted_second d h l with
                  | ([y], Some (u_usual, _)) => y =? c
                  | _ => false
                  end
      | None => false
      end
  | _ => false
  end.

(** The table of [NGX_ESCAPE_REFRESH] does not contain [%]. *)
Definition escapable (type : nat) (c : Z) : Prop := type = NGX_ESCAPE_REFRESH -> c <> "%"%ch.

Lemma escape_bytes_ok type c :
  (type < 8)%nat -> is_byte c -> escapable type c -> escape_byte_ok type c = true.
Proof.
  intros Ht Hc He.
  assert (forallb (fun t => forallb (fun c => escape_byte_ok t c ||
            ((t =? NGX_ESCAPE_REFRESH)%nat && (c =? "%"%ch))) all_bytes) (seq 0 8) = true) as H
    by (vm_compute; reflexivity).
  rewrite forallb_forall in H. specialize (H type ltac:(apply in_seq; lia)).
  pose proof (byte_forall _ H c Hc) as Hb. apply orb_true_iff in Hb as [Hb|Hb]; [done|].
  apply andb_true_iff in Hb as [E1 E2]. apply Nat.eqb_eq in E1. apply Z.eqb_eq in E2.
  by destruct (He E1).
Qed.

Lemma unescape_escape_byte type c s :
  (type < 8)%nat -> is_byte c -> escapable type c ->
  unescape_loop (unescape_for type) u_usual 0 0 (escape_byte type c ++ s) =
  let '(w, r) := unescape_loop (unescape_for type) u_usual 0 0 s in (c :: w, r).
Proof.
  intros Ht Hc He. pose proof (escape_bytes_ok type c Ht Hc He) as H. unfold escape_byte_ok in H.
  destruct (escape_byte type c) as [|a [|h [|l [|? ?]]]]; try done; cbn [app].
  - cbn [unescape_loop].
    destruct (unescape_step _ _ _ _ a) as [[|y [|? ?]] [[[] d']|]]; try done.
    apply Z.eqb_eq in H. subst y. rewrite (unescape_fresh _ u_usual d' a 0 0) by done.
    by destruct (unescape_loop _ _ _ _ s).
  - apply andb_true_iff in H as [Ha H]. apply Z.eqb_eq in Ha. subst a.
    destruct (hex_digit h) as [d|] eqn:Eh; [|done].
    destruct (unescape_step _ _ d h l) as [[|y [|? ?]] [[[] d']|]] eqn:Es; try done.
    apply Z.eqb_eq in H. subst y.
    cbn [unescape_loop]. change (unescape_step (unescape_for type) u_usual 0 0 37) with
      ([] : list Z, Some (u_quoted, 0)). cbv iota beta.
    cbn [unescape_step]. rewrite Eh. cbv iota beta. cbn [unescape_loop].
    rewrite Es. rewrite (unescape_fresh _ u_usual d' l 0 0) by done.
    by destruct (unescape_loop _ _ _ _ s).
Qed.

(** for each of the eight escape types, unescaping gives back the text that
    was escaped (for [NGX_ESCAPE_REFRESH], a text without [%]), and the number
    the counting call returns is right: the escaped text has two bytes more for each byte counted, so that a buffer of
    [size + 2 * count] bytes holds it exactly. *)
Theorem escape_unescape type src :
  (type < 8)%nat -> bytes src -> Forall (escapable type) src ->
  ngx_unescape_uri (unescape_for type) (ngx_escape_uri type src) = (src, []) /\
  Z.of_nat (length (ngx_escape_uri type src)) =
    Z.of_nat (length src) + 2 * escape_count type src.
Proof.
  intros Ht Hb. unfold ngx_unescape_uri. induction Hb as [|c src Hc Hb IH]; [done|].
  intros He. apply Forall_cons_1 in He as [He Hes]. destruct (IH Hes) as [IH1 IH2].
  cbn [ngx_escape_uri escape_count length]. split.
  - rewrite unescape_escape_byte by done. by rewrite IH1.
  - rewrite length_app. unfold escape_byte.
    destruct (bitmap_test _ c); [cbn [length]; lia|].
    destruct (_ && _); cbn [length]; lia.
Qed.

Lemma escape_unescape_witness :
  ngx_unescape_uri (unescape_for 7) (bs "a+b%26") = (bs "a b&", []) /\
  Z.of_nat (length (ngx_escape_uri 7 (bs "a b&"))) = 6.
Proof.
  apply (escape_unescape 7 (bs "a b&")); [lia|repeat constructor; done|].
  repeat constructor; done.
Defined.

(** The comment above the refresh table lists [%], the mask does not have it. *)
Example refresh_keeps_percent : ngx_escape_uri NGX_ESCAPE_REFRESH (bs "%41") = bs "%41".
Proof. reflexivity. Qed.

(** [ngx_escape_html] writes as many bytes as its counting call announces:
    the escaped text has [escape_html_len] bytes more than the source, and
    contains none of the bytes with a meaning in markup other than the [&] of an
    entity. *)
Theorem escape_html_length src :
  Z.of_nat (length (ngx_escape_html src)) = Z.of_nat (length src) + escape_html_len src /\
  Forall (fun c => c <> "<"%ch /\ c <> ">"%ch /\ c <> 34) (ngx_escape_html src).
Proof.
  induction src as [|c src [IH1 IH2]]; [by split|].
  cbn [ngx_escape_html escape_html_len length]. unfold html_entity.
  destruct (Z.eqb_spec c "<"%ch), (Z.eqb_spec c ">"%ch), (Z.eqb_spec c "&"%ch),
    (Z.eqb_spec c 34); subst; try done; rewrite length_app;
    (split; [cbn [length bs]; lia|]); apply Forall_app; (split; [|done]);
    by repeat constructor.
Qed.

(** ** UTF-8 *)

(** The encoding of a code point above ASCII. *)
Definition utf8_encode (cp : Z) : list Z :=
  if cp <? 0x800 then [0xc0 + cp / 64; 0x80 + cp mod 64]
  else if cp <? 0x10000 then [0xe0 + cp / 4096; 0x80 + (cp / 64) mod 64; 0x80 + cp mod 64]
  else [0xf0 + cp / 262144; 0x80 + (cp / 4096) mod 64; 0x80 + (cp / 64) mod 64; 0x80 + cp mod 64].

Lemma utf8_tail_step len u x p n :
  0 <= u < 2 ^ 21 -> 0 <= x < 64 ->
  utf8_tail (S len) u ((0x80 + x) :: p) n = utf8_tail len (u * 64 + x) p (S n).
Proof.
  intros Hu Hx. cbn [utf8_tail hd tail]. destruct (Z.ltb_spec (128 + x) 128); [lia|].
  rewrite (land_ones_mod _ 6 63) by done. change (2 ^ 6) with 64.
  replace ((128 + x) mod 64) with x by lia.
  rewrite lor_shiftl by lia. unfold u32. rewrite wrap_u_small by lia. done.
Qed.

(** [ngx_utf8_decode] reads back every code point from 0x80 to 0x10ffff
    when the whole sequence is available, moves past exactly its bytes, and asks
    for more ([0xfffffffe], without moving) when it is not. *)
Theorem utf8_decode_encode cp s n :
  0x80 <= cp <= 0x10ffff ->
  let e := utf8_encode cp in
  (Z.of_nat (length e) <= n < 2 ^ 64 -> ngx_utf8_decode (e ++ s) n = (cp, length e)) /\
  (1 <= n < Z.of_nat (length e) -> ngx_utf8_decode (e ++ s) n = (0xfffffffe, 0%nat)).
Proof.
  intros Hcp e. unfold e, utf8_encode, ngx_utf8_decode.
  destruct (Z.ltb_spec cp 2048); [|destruct (Z.ltb_spec cp 65536)];
    cbn [app hd tail length]; split; intros Hn; unfold u64; rewrite wrap_u_small by lia.
  all: repeat match goal with
  | |- context [?x >=? ?y] => destruct (Z.geb_spec x y); try lia
  end; cbn [negb].
  all: rewrite ?(land_ones_mod _ 3 7), ?(land_ones_mod _ 4 15), ?(land_ones_mod _ 5 31) by done;
    change (2 ^ 3) with 8; change (2 ^ 4) with 16; change (2 ^ 5) with 32.
  all: match goal with |- context [?x <? ?y] => destruct (Z.ltb_spec x y); try lia end; try done.
  all: rewrite !utf8_tail_step by lia; cbn [utf8_tail];
    match goal with |- context [?x >? ?y] => destruct (Z.gtb_spec x y); try lia end;
    f_equal; lia.
Qed.

Lemma utf8_decode_encode_witness :
  ngx_utf8_decode (utf8_encode 0x20ac ++ bs "x") 4 = (0x20ac, 3%nat).
Proof.
  apply (utf8_decode_encode 0x20ac (bs "x") 4); [lia|]. change (length (utf8_encode 0x20ac)) with 3%nat. lia.
Defined.

(** A byte from 0xc0 up is taken as a continuation byte. *)
Example utf8_bad_continuation : ngx_utf8_decode [0xc3; 0xff] 2 = (0xff, 2%nat).
Proof. reflexivity. Qed.

End NgxCodec.
