(* ===== verification/Sprintf.v ===== *)
(** * Formatted output

    [ngx_vslprintf] of [src/src/core/ngx_string.c], the interpreter of formats behind
    [ngx_sprintf], [ngx_snprintf], [ngx_slprintf] and the logs, on top of
    [ngx_sprintf_num].

    A format is the list of its bytes before the NUL.  The arguments are a list;
    [None] is undefined behaviour: an argument that is missing or of another
    type, a format that ends inside a directive.  A [double] is given by its sign,
    the integer part and the rounding of its scaled fraction, since the arithmetic
    of floating point numbers is not modelled. *)

From S2P Require Import Prelude NgxString.

Module Sprintf.
Import NgxString.

Definition NGX_INT_T_LEN : Z := 20.
Definition NGX_ATOMIC_T_LEN : Z := 20.

(** The arguments [va_arg] yields. *)
Inductive arg : Type :=
  | AStr (s : list Z)            (** [ngx_str_t *] or [ngx_variable_value_t *] *)
  | ACStr (s : list Z)           (** [u_char *]: the bytes at the pointer; a NUL ends a string *)
  | AInt (n : Z)                 (** an integer of any type *)
  | ADouble (neg : bool) (ip : Z) (frac : Z -> Z).

(** The state of a directive: [zero], [width], [sign], [hex], [max_width],
    [frac_width], [slen]. *)
Record spec : Type := mk_spec {
  zero : Z;
  width : Z;
  sign : bool;
  hex : Z;
  max_width : bool;
  frac_width : Z;
  slen : option Z
}.

#[export] Instance eta_spec : Eta spec := fun s =>
  mk_spec (zero s) (width s) (sign s) (hex s) (max_width s) (frac_width s) (slen s).

(** [while ( *fmt >= '0' && *fmt <= '9') { w = w * 10 + *fmt++ - '0'; }] *)
Fixpoint read_width (w : Z) (fmt : list Z) : Z * list Z :=
  match fmt with
  | c :: fmt' => if is_digit c then read_width (u64 (w * 10 + c - "0"%ch)) fmt' else (w, fmt)
  | [] => (w, fmt)
  end.

(** The loop over the modifiers. *)
Fixpoint modifiers (fmt : list Z) (sp : spec) (args : list arg)
    : option (spec * list Z * list arg) :=
  match fmt with
  | [] => Some (sp, fmt, args)
  | c :: fmt' =>
      if c =? "u"%ch then modifiers fmt' (sp <| sign := false |>) args
      else if c =? "m"%ch then modifiers fmt' (sp <| max_width := true |>) args
      else if c =? "X"%ch then modifiers fmt' (sp <| hex := 2 |> <| sign := false |>) args
      else if c =? "x"%ch then modifiers fmt' (sp <| hex := 1 |> <| sign := false |>) args
      else if c =? "."%ch then
        let '(w, fmt'') := read_width (frac_width sp) fmt' in
        Some (sp <| frac_width := w |>, fmt'', args)
      else if c =? "*"%ch then
        match args with
        | AInt n :: args' => modifiers fmt' (sp <| slen := Some (u64 n) |>) args'
        | _ => None
        end
      else Some (sp, fmt, args)
  end.

(** The start of a directive, [fmt] being behind the percent sign. *)
Definition directive (fmt : list Z) (args : list arg) : option (spec * list Z * list arg) :=
  let z := match fmt with c :: _ => if c =? "0"%ch then "0"%ch else SP | [] => SP end in
  let '(w, fmt) := read_width 0 fmt in
  modifiers fmt (mk_spec z w true 0 false 0 None) args.

(** The end of the interpreter for numbers: the sign and [ngx_sprintf_num], with
    [room] bytes left. *)
Definition put_number (room : nat) (sp : spec) (i64 ui64 : Z) : list Z :=
  let num r n := ngx_sprintf_num r n (zero sp) (hex sp) (Z.to_nat (width sp)) in
  if sign sp then
    if i64 <? 0 then "-"%ch :: num (room - 1)%nat (u64 (- i64)) else num room (u64 i64)
  else num room ui64.

(** A number of a type with [w] bits: [i64] or [ui64], by the sign of the
    directive. *)
Definition put_int (room : nat) (sp : spec) (w n : Z) : list Z :=
  put_number room sp (wrap_s w n) (wrap_u w n).

(** [scale = 1; for (n = frac_width; n; n--) { scale *= 10; }] *)
Definition scale_of (fw : Z) : Z := u64 (10 ^ fw).

(** [case 'f'] *)
Definition put_double (room : nat) (sp : spec) (neg : bool) (ip : Z) (frac : Z -> Z) : list Z :=
  let minus := if neg then ["-"%ch] else [] in
  let ui64 := u64 ip in
  if frac_width sp =? 0 then
    minus ++ ngx_sprintf_num (room - length minus) ui64 (zero sp) 0 (Z.to_nat (width sp))
  else
    let scale := scale_of (frac_width sp) in
    let '(ui64, fr) := if u64 (frac scale) =? scale then (u64 (ui64 + 1), 0)
                       else (ui64, u64 (frac scale)) in
    let out := minus ++ ngx_sprintf_num (room - length minus) ui64 (zero sp) 0 (Z.to_nat (width sp)) in
    let out := if (length out <? room)%nat then out ++ ["."%ch] else out in
    out ++ ngx_sprintf_num (room - length out) fr "0"%ch 0 (Z.to_nat (frac_width sp)).

(** [while ( *p && buf < last) { *buf++ = *p++; }] *)
Fixpoint put_cstr (room : nat) (s : list Z) {struct s} : option (list Z) :=
  match s with
  | [] => None
  | c :: s' =>
      if c =? 0 then Some []
      else match room with O => Some [] | S room' => cons c <$> put_cstr room' s' end
  end.

(** [case 's'] *)
Definition put_string (room : nat) (sp : spec) (s : list Z) (args : list arg)
    : option (list Z * list arg) :=
  match slen sp with
  | None => out ← put_cstr room s; Some (out, args)
  | Some n =>
      if n =? u64 (-1) then out ← put_cstr room s; Some (out, args)
      else
        let len := Z.to_nat (Z.min (Z.of_nat room) n) in
        if (length s <? len)%nat then None else Some (take len s, args)
  end.

(** The [switch] over the conversion [c]; the result is the output and the
    arguments left. *)
Definition conversion (room : nat) (sp : spec) (c : Z) (args : list arg)
    : option (list Z * list arg) :=
  if (c =? "V"%ch) || (c =? "v"%ch) then
    match args with AStr s :: args => Some (take room s, args) | _ => None end
  else if c =? "s"%ch then
    match args with
    | ACStr s :: args => put_string room sp s args
    | _ => None
    end
  else if (c =? "O"%ch) || (c =? "T"%ch) || (c =? "r"%ch) then
    match args with AInt n :: args => Some (put_int room (sp <| sign := true |>) 64 n, args) | _ => None end
  else if c =? "P"%ch then
    match args with AInt n :: args => Some (put_int room (sp <| sign := true |>) 32 n, args) | _ => None end
  else if c =? "M"%ch then
    match args with
    | AInt n :: args =>
        Some (if i64 n =? -1 then put_number room (sp <| sign := true |>) (-1) 0
              else put_number room (sp <| sign := false |>) 0 (u64 n), args)
    | _ => None
    end
  else if (c =? "z"%ch) || (c =? "l"%ch) || (c =? "L"%ch) then
    match args with AInt n :: args => Some (put_int room sp 64 n, args) | _ => None end
  else if c =? "i"%ch then
    match args with
    | AInt n :: args =>
        let sp := if max_width sp then sp <| width := NGX_INT_T_LEN |> else sp in
        Some (put_int room sp 64 n, args)
    | _ => None
    end
  else if (c =? "d"%ch) || (c =? "D"%ch) then
    match args with AInt n :: args => Some (put_int room sp 32 n, args) | _ => None end
  else if c =? "A"%ch then
    match args with
    | AInt n :: args =>
        let sp := if max_width sp then sp <| width := NGX_ATOMIC_T_LEN |> else sp in
        Some (put_int room sp 64 n, args)
    | _ => None
    end
  else if c =? "f"%ch then
    match args with ADouble neg ip frac :: args => Some (put_double room sp neg ip frac, args) | _ => None end
  else if c =? "p"%ch then
    match args with
    | AInt n :: args =>
        let sp := sp <| hex := 2 |> <| sign := false |> <| zero := "0"%ch |> <| width := 16 |> in
        Some (put_number room sp 0 (u64 n), args)
    | _ => None
    end
  else if c =? "c"%ch then
    match args with AInt n :: args => Some ([Z.land n 255], args) | _ => None end
  else if c =? "Z"%ch then Some ([0], args)
  else if c =? "N"%ch then Some ([LF], args)
  else if c =? "%"%ch then Some (["%"%ch], args)
  else Some ([c], args).

(** [ngx_vslprintf], with [room] bytes between [buf] and [last]; every pass takes
    a byte of the format. *)
Fixpoint vslprintf_loop (fuel room : nat) (fmt : list Z) (args : list arg) : option (list Z) :=
  match fuel with
  | O => None
  | S fuel' =>
      match fmt, room with
      | [], _ | _, O => Some []
      | c :: fmt', S room' =>
          if c =? "%"%ch then
            '(sp, fmt', args) ← directive fmt' args;
            match fmt' with
            | [] => None
            | conv :: fmt'' =>
                '(out, args) ← conversion room sp conv args;
                rest ← vslprintf_loop fuel' (room - length out)%nat fmt'' args;
                Some (out ++ rest)
            end
          else
            rest ← vslprintf_loop fuel' room' fmt' args;
            Some (c :: rest)
      end
  end.

Definition ngx_vslprintf (room : nat) (fmt : list Z) (args : list arg) : option (list Z) :=
  vslprintf_loop (S (length fmt)) room fmt args.

(** ** Truncation *)

(** A number as it is written when there is room for it. *)
Definition field (z : Z) (w : nat) (hexadecimal n : Z) : list Z :=
  let ds := num_digits hexadecimal n in repeat z (w - length ds) ++ ds.

Lemma take_repeat {A} (x : A) n k : take n (repeat x k) = repeat x (Nat.min n k).
Proof. revert k. induction n as [|n IH]; intros [|k]; cbn; [done..|]. by rewrite IH. Qed.

Lemma sprintf_num_take room n z h w : ngx_sprintf_num room n z h w = take room (field z w h n).
Proof.
  unfold ngx_sprintf_num, field. cbv zeta. rewrite take_app, repeat_length, take_repeat.
  destruct (Nat.le_ge_cases (w - length (num_digits h n)) room).
  - by rewrite !Nat.min_l, Nat.min_r by lia.
  - rewrite Nat.min_r, Nat.min_l by lia. do 2 f_equal. lia.
Qed.

(** [out n] is what is written into [n] bytes: more room only adds bytes at the
    end. *)
Definition truncates (out : nat -> list Z) : Prop :=
  forall n m, (1 <= n <= m)%nat -> out n = take n (out m) /\ (length (out m) <= m)%nat.

Lemma truncates_take l : truncates (fun n => take n l).
Proof. intros n m H. rewrite take_take, length_take, Nat.min_l by lia. split; [done|lia]. Qed.

Lemma truncates_ext f g : (forall n, (1 <= n)%nat -> f n = g n) -> truncates g -> truncates f.
Proof. intros E H n m Hn. rewrite (E n), (E m) by lia. by apply H. Qed.

Lemma put_number_truncates sp a b : truncates (fun room => put_number room sp a b).
Proof.
  eapply truncates_ext; [|apply (truncates_take (
    if sign sp then
      if a <? 0 then "-"%ch :: field (zero sp) (Z.to_nat (width sp)) (hex sp) (u64 (- a))
      else field (zero sp) (Z.to_nat (width sp)) (hex sp) (u64 a)
    else field (zero sp) (Z.to_nat (width sp)) (hex sp) b))].
  intros n Hn. unfold put_number. rewrite !sprintf_num_take.
  destruct (sign sp), (a <? 0); try done. destruct n as [|n]; [lia|]. cbn. by rewrite Nat.sub_0_r.
Qed.

Lemma put_double_truncates sp neg ip frac : truncates (fun room => put_double room sp neg ip frac).
Proof.
  set (minus := if neg then ["-"%ch] else []).
  assert (forall n l, (1 <= n)%nat -> minus ++ take (n - length minus) l = take n (minus ++ l)) as Hm.
  { intros n l Hn. unfold minus. destruct neg; cbn.
    - destruct n as [|n]; [lia|]. cbn. by rewrite Nat.sub_0_r.
    - by rewrite Nat.sub_0_r. }
  set (scale := scale_of (frac_width sp)).
  set (nf := if u64 (frac scale) =? scale then (u64 (u64 ip + 1), 0) else (u64 ip, u64 (frac scale))).
  eapply truncates_ext; [|apply (truncates_take (
    if frac_width sp =? 0 then minus ++ field (zero sp) (Z.to_nat (width sp)) 0 (u64 ip)
    else (minus ++ field (zero sp) (Z.to_nat (width sp)) 0 nf.1) ++
         "."%ch :: field "0"%ch (Z.to_nat (frac_width sp)) 0 nf.2))].
  intros n Hn. unfold put_double. fold minus scale nf. rewrite !sprintf_num_take.
  destruct (frac_width sp =? 0); [by rewrite Hm|]. destruct nf as [a b]. cbn [fst snd].
  rewrite !sprintf_num_take, Hm by done. set (X := minus ++ _).
  destruct (Nat.ltb_spec (length (take n X)) n) as [Hl|Hl]; rewrite length_take in Hl.
  - rewrite (take_ge X) by lia. rewrite <- app_assoc, length_app. cbn [length app].
    rewrite take_app_ge by lia. f_equal.
    destruct (n - length X)%nat as [|k] eqn:Ek; [lia|]. cbn [take]. do 2 f_equal. lia.
  - rewrite length_take, Nat.min_l, Nat.sub_diag, app_nil_r by lia. by rewrite take_app_le by lia.
Qed.

Lemma put_cstr_truncates n m s o :
  (n <= m)%nat -> put_cstr m s = Some o -> put_cstr n s = Some (take n o) /\ (length o <= m)%nat.
Proof.
  revert n m o. induction s as [|c s IH]; intros n m o Hn; cbn [put_cstr]; [discriminate|].
  destruct (c =? 0).
  { intros [= <-]. split; [by destruct n|cbn; lia]. }
  destruct m as [|m].
  { intros [= <-]. replace n with 0%nat by lia. split; [done|cbn; lia]. }
  destruct (put_cstr m s) as [o'|] eqn:E; [|done]. intros [= <-].
  destruct n as [|n].
  - split; [done|]. destruct (IH 0%nat m o' ltac:(lia) E). cbn. lia.
  - destruct (IH n m o' ltac:(lia) E) as [-> Hl]. split; [done|cbn; lia].
Qed.

Lemma truncates_one c : truncates (fun _ => [c]).
Proof. intros [|n] [|m] H; cbn; [lia..|]. split; [by destruct n|lia]. Qed.

(** [case 's'] *)
Lemma put_string_truncates n m sp s args o args' :
  (n <= m)%nat -> put_string m sp s args = Some (o, args') ->
  put_string n sp s args = Some (take n o, args') /\ (length o <= m)%nat.
Proof.
  intros Hn. unfold put_string.
  assert (put_cstr m s ≫= (fun out => Some (out, args)) = Some (o, args') ->
    put_cstr n s ≫= (fun out => Some (out, args)) = Some (take n o, args') /\ (length o <= m)%nat) as HC.
  { destruct (put_cstr m s) as [o'|] eqn:E; [|done]. cbn [mbind option_bind]. intros [= <- <-].
    by destruct (put_cstr_truncates n m s o' Hn E) as [-> Hl]. }
  destruct (slen sp) as [k|]; [|done]. destruct (k =? u64 (-1)); [done|].
  destruct (Nat.ltb_spec (length s) (Z.to_nat (Z.min (Z.of_nat m) k))); [done|]. intros [= <- <-].
  destruct (Nat.ltb_spec (length s) (Z.to_nat (Z.min (Z.of_nat n) k))); [lia|].
  rewrite take_take, length_take. split; [do 3 f_equal; lia|lia].
Qed.

Lemma conversion_truncates n m sp c args o args' :
  (1 <= n <= m)%nat -> conversion m sp c args = Some (o, args') ->
  conversion n sp c args = Some (take n o, args') /\ (length o <= m)%nat.
Proof.
  intros Hn. assert (forall f a, truncates f -> Some (f m, a) = Some (o, args') ->
    Some (f n, a) = Some (take n o, args') /\ (length o <= m)%nat) as HT.
  { intros f a Hf [= <- <-]. destruct (Hf n m Hn) as [E Hl]. split; [by rewrite E|done]. }
  pose proof (fun sp a b a' => HT _ a' (put_number_truncates sp a b)) as HN.
  pose proof (fun x a' => HT _ a' (truncates_one x)) as H1.
  unfold conversion, put_int.
  repeat match goal with
  | |- (if ?b then _ else _) = Some _ -> _ => destruct b
  | |- match ?a with _ => _ end = Some _ -> _ => is_var a; destruct a as [|[] ?]
  end; try done; try apply HN; try apply H1.
  - apply (HT (fun r => take r s)), truncates_take.
  - apply put_string_truncates. lia.
  - destruct (i64 n0 =? -1); apply HN.
  - apply (HT (fun r => put_double r sp neg ip frac)), put_double_truncates.
Qed.

Lemma vslprintf_loop_truncates fuel n m fmt args o :
  (n <= m)%nat -> vslprintf_loop fuel m fmt args = Some o ->
  vslprintf_loop fuel n fmt args = Some (take n o) /\ (length o <= m)%nat.
Proof.
  revert n m fmt args o. induction fuel as [|fuel IH]; intros n m fmt args o Hn;
    cbn [vslprintf_loop]; [discriminate|].
  destruct fmt as [|c fmt].
  { intros [= <-]. split; [by destruct n|cbn; lia]. }
  destruct m as [|m].
  { intros [= <-]. replace n with 0%nat by lia. split; [done|cbn; lia]. }
  destruct (c =? "%"%ch).
  - destruct (directive fmt args) as [[[sp [|conv fmt2]] args2]|]; [done| |done]. cbn [mbind option_bind].
    destruct (conversion (S m) sp conv args2) as [[out args3]|] eqn:Ec; [|done]. cbn [mbind option_bind].
    destruct (vslprintf_loop fuel (S m - length out) fmt2 args3) as [rest|] eqn:Er; [|done].
    cbn [mbind option_bind]. intros [= <-].
    assert (length out <= S m)%nat as Hlo 
      by (by destruct (conversion_truncates 1 (S m) _ _ _ _ _ ltac:(lia) Ec)).
    assert (length rest <= S m - length out)%nat as Hlr
      by (by destruct (IH 0%nat (S m - length out)%nat _ _ _ ltac:(lia) Er)).
    rewrite length_app. split; [|lia]. destruct n as [|n]; [done|].
    destruct (conversion_truncates (S n) (S m) _ _ _ _ _ ltac:(lia) Ec) as [-> _]. cbn [mbind option_bind].
    destruct (IH (S n - length (take (S n) out))%nat (S m - length out)%nat _ _ _
      ltac:(rewrite length_take; lia) Er) as [-> _].
    cbn [mbind option_bind]. rewrite take_app, length_take. do 3 f_equal. lia.
  - destruct (vslprintf_loop fuel m fmt args) as [rest|] eqn:Er; [|done]. cbn [mbind option_bind].
    intros [= <-]. destruct n as [|n].
    + split; [done|]. destruct (IH 0%nat m _ _ _ ltac:(lia) Er). cbn. lia.
    + destruct (IH n m _ _ _ ltac:(lia) Er) as [-> Hl]. cbn. split; [done|lia].
Qed.

(** [ngx_vslprintf] never writes more than the [last - buf] bytes it is given,
    and what it writes into a small buffer is the beginning of what it would write
    into a larger one, for every format and all arguments. *)
Theorem vslprintf_truncates n m fmt args o :
  (n <= m)%nat -> ngx_vslprintf m fmt args = Some o ->
  ngx_vslprintf n fmt args = Some (take n o) /\ (length o <= m)%nat.
Proof. apply vslprintf_loop_truncates. Qed.

Lemma vslprintf_truncates_witness :
  let fmt := bs "%s:%5uz %*s%% %.2f" in
  let args := [ACStr (bs "size" ++ [0]); AInt 77; AInt 2; ACStr (bs "MBx"); ADouble true 1 (fun _ => 50)] in
  ngx_vslprintf 64 fmt args = Some (bs "size:   77 MB% -1.50") /\
  ngx_vslprintf 9 fmt args = Some (take 9 (bs "size:   77 MB% -1.50")) /\
  (length (bs "size:   77 MB% -1.50") <= 64)%nat.
Proof.
  intros fmt args. split; [vm_compute; reflexivity|].
  apply (vslprintf_truncates 9 64 fmt args); [lia|vm_compute; reflexivity].
Defined.

(** A format that ends in a percent sign is read beyond its end. *)
Example percent_at_end : ngx_vslprintf 64 (bs "100%") [] = None.
Proof. vm_compute. reflexivity. Qed.

(** ** Running a format *)

(** The interpreter of the format, from one point of it to another, writes [out]. *)
Definition emits (f f' : nat) (fmt fmt' : list Z) (args args' : list arg) (out : list Z) : Prop :=
  forall room rest, vslprintf_loop f' room fmt' args' = Some rest ->
    vslprintf_loop f (length out + room) fmt args = Some (out ++ rest).

Lemma emits_app f1 f2 f3 fmt1 fmt2 fmt3 args1 args2 args3 out1 out2 :
  emits f1 f2 fmt1 fmt2 args1 args2 out1 -> emits f2 f3 fmt2 fmt3 args2 args3 out2 ->
  emits f1 f3 fmt1 fmt3 args1 args3 (out1 ++ out2).
Proof.
  intros H1 H2 room rest Hr. rewrite length_app, <- Nat.add_assoc, <- app_assoc. by apply H1, H2.
Qed.

Lemma emits_byte f c fmt args : c <> "%"%ch -> emits (S f) f (c :: fmt) fmt args args [c].
Proof.
  intros Hc room rest Hr. cbn [length Nat.add vslprintf_loop]. rewrite (proj2 (Z.eqb_neq _ _) Hc).
  by rewrite Hr.
Qed.

Lemma emits_directive f fmt fmt' args args' sp conv args0 out :
  directive fmt args = Some (sp, conv :: fmt', args0) -> out <> [] ->
  (forall room, conversion (length out + room) sp conv args0 = Some (out, args')) ->
  emits (S f) f ("%"%ch :: fmt) fmt' args args' out.
Proof.
  intros Hd Ho Hc room rest Hr. specialize (Hc room). destruct out as [|x out]; [done|].
  cbn [length Nat.add] in Hc |- *. cbn [vslprintf_loop]. change ("%"%ch =? "%"%ch) with true. cbv iota.
  rewrite Hd. cbn [mbind option_bind]. rewrite Hc. cbn [mbind option_bind length].
  replace (S (length out + room) - S (length out))%nat with room by lia. by rewrite Hr.
Qed.

Lemma put_cstr_all room s : Forall (fun c => c <> 0) s -> put_cstr (length s + room) (s ++ [0]) = Some s.
Proof.
  induction 1 as [|c s Hc Hs IH]; [done|]. cbn [length app Nat.add put_cstr].
  rewrite (proj2 (Z.eqb_neq _ _) Hc). by rewrite IH.
Qed.

Lemma emits_s f fmt s args :
  Forall (fun c => c <> 0) s -> s <> [] ->
  emits (S f) f (bs "%s" ++ fmt) fmt (ACStr (s ++ [0]) :: args) args s.
Proof.
  intros Hs Hne. eapply emits_directive; [done|done|]. intros room.
  change (put_cstr (length s + room) (s ++ [0]) ≫= (fun out => Some (out, args)) = Some (s, args)).
  by rewrite put_cstr_all.
Qed.

Lemma put_int_field room sp w n :
  0 <= n < 2 ^ 31 -> 32 <= w <= 64 ->
  put_int room sp w n = take room (field (zero sp) (Z.to_nat (width sp)) (hex sp) n).
Proof.
  intros Hn Hw. assert (2 ^ 31 <= 2 ^ (w - 1) /\ 2 ^ (w - 1) <= 2 ^ w) as [H1 H2].
  { split; apply Z.pow_le_mono_r; lia. }
  unfold put_int, put_number. rewrite wrap_s_small, wrap_u_small by lia.
  rewrite (proj2 (Z.ltb_ge n 0)), u64_small by lia. destruct (sign sp); apply sprintf_num_take.
Qed.

(** A directive for an integer whose value is small. *)
Lemma emits_int f fmt conv c w n args sp out :
  directive (conv ++ c :: fmt) (AInt n :: args) = Some (sp, c :: fmt, AInt n :: args) ->
  (forall room, conversion room sp c (AInt n :: args) = Some (put_int room sp w n, args)) ->
  0 <= n < 2 ^ 31 -> 32 <= w <= 64 ->
  field (zero sp) (Z.to_nat (width sp)) (hex sp) n = out -> out <> [] ->
  emits (S f) f ("%"%ch :: conv ++ c :: fmt) fmt (AInt n :: args) args out.
Proof.
  intros Hd Hc Hn Hw Hf Ho. eapply emits_directive; [exact Hd|done|]. intros room.
  rewrite Hc, put_int_field by done. by rewrite Hf, take_ge by lia.
Qed.

Lemma hex_digits_nonempty k tbl n acc : hex_digits (S k) tbl n acc <> [].
Proof.
  revert n acc. induction k as [|k IH]; intros n acc; cbn [hex_digits].
  - by destruct (_ =? 0).
  - destruct (_ =? 0); [done|]. apply IH.
Qed.

Lemma num_digits_nonempty h n : num_digits h n <> [].
Proof.
  assert (forall k n acc, dec_digits (S k) n acc <> []) as Hd.
  { induction k as [|k IH]; intros m acc; cbn [dec_digits]; [by destruct (_ =? 0)|].
    destruct (_ =? 0); [done|]. apply IH. }
  unfold num_digits, NGX_INT64_LEN. destruct (h =? 0); [destruct (n <=? _); apply Hd|].
  destruct (h =? 1); apply hex_digits_nonempty.
Qed.

Lemma emits_d f fmt n args :
  0 <= n < 2 ^ 31 -> emits (S f) f (bs "%d" ++ fmt) fmt (AInt n :: args) args (num_digits 0 n).
Proof.
  intros Hn. by apply (emits_int f fmt [] "d"%ch 32 n args (mk_spec SP 0 true 0 false 0 None));
    [..|apply num_digits_nonempty].
Qed.

Lemma emits_ud f fmt n args :
  0 <= n < 2 ^ 31 -> emits (S f) f (bs "%ud" ++ fmt) fmt (AInt n :: args) args (num_digits 0 n).
Proof.
  intros Hn. by apply (emits_int f fmt (bs "u") "d"%ch 32 n args (mk_spec SP 0 false 0 false 0 None));
    [..|apply num_digits_nonempty].
Qed.

Lemma emits_uxi f fmt n args :
  0 <= n < 2 ^ 31 -> emits (S f) f (bs "%uxi" ++ fmt) fmt (AInt n :: args) args (num_digits 1 n).
Proof.
  intros Hn. by apply (emits_int f fmt (bs "ux") "i"%ch 64 n args (mk_spec SP 0 false 1 false 0 None));
    [..|apply num_digits_nonempty].
Qed.

Lemma emits_V f fmt s args : s <> [] -> emits (S f) f (bs "%V" ++ fmt) fmt (AStr s :: args) args s.
Proof.
  intros Hs. eapply emits_directive; [done|done|]. intros room.
  change (Some (take (length s + room) s, args) = Some (s, args)). by rewrite take_ge by lia.
Qed.

Lemma emits_run fuel f' fmt args out room :
  emits fuel (S f') fmt [] args [] out -> (length out <= room)%nat ->
  vslprintf_loop fuel room fmt args = Some out.
Proof.
  intros H Hl. replace room with (length out + (room - length out))%nat by lia.
  rewrite <- (app_nil_r out) at 3. by apply H.
Qed.

Lemma emits_end f : emits f f [] [] [] [] [].
Proof. by intros room rest. Qed.

(** The 64-bit conversions: [%O], and [%0muA] with its full width. *)
Lemma emits_O f fmt n args :
  0 <= n < 2 ^ 63 -> emits (S f) f (bs "%O" ++ fmt) fmt (AInt n :: args) args (num_digits 0 n).
Proof.
  intros Hn. eapply emits_directive; [done|apply num_digits_nonempty|]. intros room.
  change (Some (put_number (length (num_digits 0 n) + room) (mk_spec SP 0 true 0 false 0 None) (wrap_s 64 n) (wrap_u 64 n), args)
          = Some (num_digits 0 n, args)).
  unfold put_number. cbn [sign hex zero width]. change (wrap_s 64 n) with (i64 n). rewrite i64_small by lia. rewrite (proj2 (Z.ltb_ge n 0)), u64_small by lia.
  rewrite sprintf_num_take. change (field SP (Z.to_nat 0) 0 n) with (num_digits 0 n). by rewrite take_ge by lia.
Qed.

Lemma emits_0muA f fmt n args :
  0 <= n < 2 ^ 64 -> emits (S f) f (bs "%0muA" ++ fmt) fmt (AInt n :: args) args (field "0"%ch 20 0 n).
Proof.
  intros Hn. eapply emits_directive; [done| |].
  { unfold field. destruct (num_digits 0 n) eqn:E; [by destruct (num_digits_nonempty 0 n)|]. by destruct (repeat _ _). }
  intros room.
  change (Some (put_number (length (field "0"%ch 20 0 n) + room) (mk_spec "0"%ch 20 false 0 true 0 None) (wrap_s 64 n) (wrap_u 64 n), args)
          = Some (field "0"%ch 20 0 n, args)).
  unfold put_number. cbn [sign hex zero width]. change (wrap_u 64 n) with (u64 n). rewrite u64_small by lia.
  rewrite sprintf_num_take. change (Z.to_nat 20) with 20%nat. by rewrite take_ge by lia.
Qed.

(** A literal text in a format. *)
Lemma emits_text l : Forall (fun c => c <> "%"%ch) l -> forall f fmt args, emits (length l + f) f (l ++ fmt) fmt args args l.
Proof.
  induction 1 as [|c l Hc Hl IH]; intros f fmt args; [by intros room rest|].
  change (c :: l) with ([c] ++ l) at 3. eapply emits_app; [by apply emits_byte|]. apply IH.
Qed.

End Sprintf.
