(* ===== verification/NgxTimes.v ===== *)
(** * Dates

    [ngx_gmtime], [ngx_http_time] and [ngx_http_cookie_time] of
    [src/src/core/ngx_times.c], and [ngx_http_parse_time] of
    [src/src/http/ngx_http_parse_time.c]: the dates of the headers [Date],
    [Last-Modified], [If-Modified-Since], [Expires] and [Set-Cookie]. *)

From S2P Require Import Prelude NgxString Sprintf.

Module NgxTimes.
Import NgxString Sprintf.

(** ** [ngx_gmtime] *)

(** The fields of [ngx_tm_t] that are set; they have the type [int]. *)
Record tm_t : Type := mk_tm {
  tm_sec : Z;
  tm_min : Z;
  tm_hour : Z;
  tm_mday : Z;
  tm_mon : Z;
  tm_year : Z;
  tm_wday : Z
}.

(** [365 * year + year / 4 - year / 100 + year / 400] *)
Definition gauss_days (year : Z) : Z :=
  u64 (365 * year + year / 4 - year / 100 + year / 400).

Definition leap (year : Z) : bool :=
  (year mod 4 =? 0) && (negb (year mod 100 =? 0) || (year mod 400 =? 0)).

(** The year and the day in it, for days since March 1, 1 BC; the year starts on
    March 1. *)
Definition year_yday (days : Z) : Z * Z :=
  let year := u64 ((days + 2) * 400) / (365 * 400 + 100 - 4 + 1) in
  let yday := i64 (days - gauss_days year) in
  if yday <? 0 then (u64 (year - 1), i64 (365 + (if leap year then 1 else 0) + yday))
  else (year, yday).

(** The year, the month from 1 and the day of the month. *)
Definition date_of (year yday : Z) : Z * Z * Z :=
  let mon := u64 ((yday + 31) * 10 / 306) in
  let mday := u64 (yday - (u64 (367 * mon) / 12 - 30) + 1) in
  if yday >=? 306 then (u64 (year + 1), u64 (mon - 10), mday) else (year, u64 (mon + 2), mday).

Definition ngx_gmtime (t : Z) : tm_t :=
  let n := u64 t in
  let days := n / 86400 in
  let wday := u64 (4 + days) mod 7 in
  let n := n mod 86400 in
  let hour := n / 3600 in
  let n := n mod 3600 in
  let min := n / 60 in
  let sec := n mod 60 in
  let days := u64 (days - (31 + 28) + 719527) in
  let '(year, yday) := year_yday days in
  let '(year, mon, mday) := date_of year yday in
  mk_tm (i32 sec) (i32 min) (i32 hour) (i32 mday) (i32 mon) (i32 year) (i32 wday).

(** ** Printing *)

Definition week : list (list Z) :=
  [bs "Sun"; bs "Mon"; bs "Tue"; bs "Wed"; bs "Thu"; bs "Fri"; bs "Sat"].
Definition months : list (list Z) :=
  [bs "Jan"; bs "Feb"; bs "Mar"; bs "Apr"; bs "May"; bs "Jun";
   bs "Jul"; bs "Aug"; bs "Sep"; bs "Oct"; bs "Nov"; bs "Dec"].

(** [week[tm.ngx_tm_wday]] and [months[tm.ngx_tm_mon - 1]] as arguments of [%s] *)
Definition name_arg (names : list (list Z)) (i : Z) : option arg :=
  if i <? 0 then None else s ← names !! Z.to_nat i; Some (ACStr (s ++ [0])).

(** [ngx_http_time]; [ngx_sprintf] has [room] bytes to the end of the address
    space. *)
Definition ngx_http_time (room : nat) (t : Z) : option (list Z) :=
  let tm := ngx_gmtime t in
  w ← name_arg week (tm_wday tm);
  m ← name_arg months (tm_mon tm - 1);
  ngx_vslprintf room (bs "%s, %02d %s %4d %02d:%02d:%02d GMT")
    [w; AInt (tm_mday tm); m; AInt (tm_year tm); AInt (tm_hour tm); AInt (tm_min tm); AInt (tm_sec tm)].

(** [ngx_http_cookie_time] *)
Definition ngx_http_cookie_time (room : nat) (t : Z) : option (list Z) :=
  let tm := ngx_gmtime t in
  w ← name_arg week (tm_wday tm);
  m ← name_arg months (tm_mon tm - 1);
  ngx_vslprintf room
    (if tm_year tm >? 2037 then bs "%s, %02d-%s-%d %02d:%02d:%02d GMT"
     else bs "%s, %02d-%s-%02d %02d:%02d:%02d GMT")
    [w; AInt (tm_mday tm); m;
     AInt (if tm_year tm >? 2037 then tm_year tm else Z.rem (tm_year tm) 100);
     AInt (tm_hour tm); AInt (tm_min tm); AInt (tm_sec tm)].

(** ** [ngx_http_parse_time]

    [buf] are the [len] bytes at [value]; a read behind them is [None].  The
    result is [NGX_ERROR] or the time. *)

Inductive fmt_t : Type := no | rfc822 | rfc850 | isoc.

Definition mday_table : list Z := [31; 28; 31; 30; 31; 30; 31; 31; 30; 31; 30; 31].

(** The first loop: to a comma, or to a space, which means [isoc]; then the spaces
    are skipped. *)
Fixpoint to_separator (s : list Z) : fmt_t * list Z :=
  match s with
  | [] => (no, [])
  | c :: s' => if c =? ","%ch then (no, s) else if c =? SP then (isoc, s) else to_separator s'
  end.

Fixpoint skip_spaces (s : list Z) : list Z :=
  match s with
  | c :: s' => if c =? SP then skip_spaces s' else s
  | [] => []
  end.

(** Two and four digits; [Error] leaves the function with [NGX_ERROR]. *)
Inductive res (A : Type) : Type := Val (a : A) | Error.
Arguments Val {A} _.
Arguments Error {A}.

Definition bind_res {A B} (m : option (res A)) (f : A -> option (res B)) : option (res B) :=
  match m with Some (Val a) => f a | Some Error => Some Error | None => None end.
Notation "'do' x <- m ; f" := (bind_res m (fun x => f)) (at level 200, x pattern, m at level 100, f at level 200).

Definition digit_at (s : list Z) (i : nat) : option (res Z) :=
  c ← s !! i; Some (if is_digit c then Val (c - "0"%ch) else Error).

Definition two_digits (s : list Z) : option (res Z) :=
  do a <- digit_at s 0; do b <- digit_at s 1; Some (Val (a * 10 + b)).

Definition four_digits (s : list Z) : option (res Z) :=
  do a <- digit_at s 0; do b <- digit_at s 1; do c <- digit_at s 2; do d <- digit_at s 3;
  Some (Val (a * 1000 + b * 100 + c * 10 + d)).

(** [if ( *p++ != c) { return NGX_ERROR; }] *)
Definition expect (c : Z) (s : list Z) : option (res (list Z)) :=
  x ← s !! 0%nat; Some (if x =? c then Val (drop 1 s) else Error).

Definition month_of (s : list Z) : option (res Z) :=
  c ← s !! 0%nat;
  if c =? "J"%ch then
    d ← s !! 1%nat;
    if d =? "a"%ch then Some (Val 0) else e ← s !! 2%nat; Some (Val (if e =? "n"%ch then 5 else 6))
  else if c =? "F"%ch then Some (Val 1)
  else if c =? "M"%ch then e ← s !! 2%nat; Some (Val (if e =? "r"%ch then 2 else 4))
  else if c =? "A"%ch then d ← s !! 1%nat; Some (Val (if d =? "p"%ch then 3 else 7))
  else if c =? "S"%ch then Some (Val 8)
  else if c =? "O"%ch then Some (Val 9)
  else if c =? "N"%ch then Some (Val 10)
  else if c =? "D"%ch then Some (Val 11)
  else Some Error.

(** The day before the month, for all formats but [isoc]. *)
Definition day_first (fmt : fmt_t) (p : list Z) : option (res (fmt_t * Z * list Z)) :=
  match fmt with
  | isoc => Some (Val (isoc, 0, p))
  | _ =>
      do day <- two_digits p;
      let p := drop 2 p in
      c ← p !! 0%nat;
      if c =? SP then
        if (length p <? 18)%nat then Some Error else Some (Val (rfc822, day, drop 1 p))
      else if c =? "-"%ch then Some (Val (rfc850, day, drop 1 p))
      else Some Error
  end.

(** From the month to the time of day: the day and the year, as far as they come
    first. *)
Definition day_year (fmt : fmt_t) (day : Z) (p : list Z) : option (res (Z * Z * list Z)) :=
  match fmt with
  | rfc822 => do year <- four_digits p; Some (Val (day, year, drop 4 p))
  | rfc850 =>
      do year <- two_digits p;
      Some (Val (day, year + (if year <? 70 then 2000 else 1900), drop 2 p))
  | isoc =>
      c ← p !! 0%nat;
      let p := if c =? SP then drop 1 p else p in
      do d <- digit_at p 0;
      let p := drop 1 p in
      c ← p !! 0%nat;
      do dp <- (if c =? SP then Some (Val (d, p))
                else do e <- digit_at p 0; Some (Val (d * 10 + e, drop 1 p)));
      let '(day, p) := dp in
      if (length p <? 14)%nat then Some Error else Some (Val (day, 0, p))
  | no => Some (Val (day, 0, p))
  end.

(** [hour:min:sec]; [p] stays at the seconds. *)
Definition time_of_day (p : list Z) : option (res (Z * Z * Z * list Z)) :=
  do p <- expect SP p;
  do hour <- two_digits p;
  do p <- expect ":"%ch (drop 2 p);
  do min <- two_digits p;
  do p <- expect ":"%ch (drop 2 p);
  do sec <- two_digits p;
  Some (Val (hour, min, sec, p)).

(** The checks and Gauss' formula. *)
Definition time_value (day month year hour min sec : Z) : res Z :=
  if (hour >? 23) || (min >? 59) || (sec >? 59) then Error
  else
    let bad := if (day =? 29) && (month =? 1)
               then negb (Z.land year 3 =? 0) || ((year mod 100 =? 0) && negb (year mod 400 =? 0))
               else day >? nth (Z.to_nat month) mday_table 0 in
    if bad then Error
    else
      let '(month, year) := if month - 1 <=? 0 then (month - 1 + 12, u64 (year - 1))
                            else (month - 1, year) in
      let days := u64 (365 * year + year / 4 - year / 100 + year / 400 + u64 (367 * month / 12) - 30
                       + day - 1 - 719527 + 31 + 28) in
      Val (i64 (u64 (days * 86400 + hour * 3600 + min * 60 + sec))).

Definition ngx_http_parse_time (buf : list Z) : option (res Z) :=
  let '(fmt, p) := to_separator buf in
  let p := skip_spaces (drop 1 p) in
  if (length p <? 18)%nat then Some Error
  else
    do fdp <- day_first fmt p;
    let '(fmt, day, p) := fdp in
    do month <- month_of p;
    let p := drop 3 p in
    c ← p !! 0%nat;
    if match fmt with rfc822 => negb (c =? SP) | rfc850 => negb (c =? "-"%ch) | _ => false end
    then Some Error
    else
      let p := drop 1 p in
      do dyp <- day_year fmt day p;
      let '(day, year, p) := dyp in
      do hms <- time_of_day p;
      let '(hour, min, sec, p) := hms in
      match fmt with
      | isoc =>
          do p <- expect SP (drop 2 p);
          do year <- four_digits p;
          Some (time_value day month year hour min sec)
      | _ => Some (time_value day month year hour min sec)
      end.

(** ** The calendar *)

(** Days before the year [y], which starts on March 1. *)
Definition days_before (y : Z) : Z := 365 * y + y / 4 - y / 100 + y / 400.

Definition leap_day (y : Z) : Z := if leap y then 1 else 0.

Lemma days_before_400 q r : days_before (400 * q + r) = 146097 * q + days_before r.
Proof.
  unfold days_before.
  replace ((400 * q + r) / 4) with (100 * q + r / 4)
    by (rewrite <- Z.div_add_l by lia; f_equal; lia).
  replace ((400 * q + r) / 100) with (4 * q + r / 100)
    by (rewrite <- Z.div_add_l by lia; f_equal; lia).
  replace ((400 * q + r) / 400) with (q + r / 400)
    by (rewrite <- Z.div_add_l by lia; f_equal; lia).
  lia.
Qed.

Lemma days_before_succ y : days_before (y + 1) = days_before y + 365 + leap_day (y + 1).
Proof.
  assert (forall k, 0 < k -> (y + 1) / k = y / k + (if (y + 1) mod k =? 0 then 1 else 0)) as Hd.
  { intros k Hk. destruct (Z.eqb_spec ((y + 1) mod k) 0) as [E|E]; Z.to_euclidean_division_equations; nia. }
  unfold days_before. rewrite (Hd 4), (Hd 100), (Hd 400) by lia. unfold leap_day, leap.
  destruct (Z.eqb_spec ((y + 1) mod 4) 0), (Z.eqb_spec ((y + 1) mod 100) 0),
    (Z.eqb_spec ((y + 1) mod 400) 0); cbn [andb orb negb];
    Z.to_euclidean_division_equations; lia.
Qed.

(** The estimate of the year is right or one too large. *)
Definition estimate_ok (r : Z) : bool :=
  let lo := (146097 * r + 399) / 400 - 2 in
  let hi := (146097 * (r + 1) - 1) / 400 - 2 in
  ((r =? 0) || (days_before (r - 1) <=? lo)) && (hi <? days_before (r + 1)).

Lemma estimate d :
  0 <= d < 146097 -> let r := (d + 2) * 400 / 146097 in
  0 <= r <= 400 /\ (r = 0 \/ days_before (r - 1) <= d) /\ d < days_before (r + 1).
Proof.
  intros Hd r. assert (146097 * r <= (d + 2) * 400 < 146097 * (r + 1)) as Hr.
  { unfold r. Z.to_euclidean_division_equations; lia. }
  assert (0 <= r <= 400) as Hr' by lia.
  assert (estimate_ok r = true) as Hok.
  { apply (range_forall _ 401); [vm_compute; reflexivity|lia]. }
  unfold estimate_ok in Hok. apply andb_true_iff in Hok as [H1 H2%Z.ltb_lt].
  split; [done|]. split.
  - apply orb_true_iff in H1 as [H1%Z.eqb_eq|H1%Z.leb_le]; [by left|right].
    enough ((146097 * r + 399) / 400 - 2 <= d) by lia. Z.to_euclidean_division_equations; lia.
  - enough (d <= (146097 * (r + 1) - 1) / 400 - 2) by lia. Z.to_euclidean_division_equations; lia.
Qed.

Lemma days_before_bounds y : 0 <= y -> 365 * y <= days_before y <= 366 * y.
Proof. intros Hy. unfold days_before. Z.to_euclidean_division_equations; lia. Qed.

Lemma days_before_split y : 0 <= y ->
  exists q r, y = 400 * q + r /\ 0 <= q /\ 0 <= r < 400 /\ days_before y = 146097 * q + days_before r.
Proof.
  intros Hy. exists (y / 400), (y mod 400). rewrite <- days_before_400, <- Z.div_mod by lia.
  pose proof (Z.mod_pos_bound y 400). pose proof (Z.div_pos y 400). lia.
Qed.

Lemma year_yday_spec days :
  0 <= days < 2 ^ 48 ->
  let '(y, d) := year_yday days in
  0 <= y <= days / 365 /\ days = days_before y + d /\ 0 <= d < 365 + leap_day (y + 1).
Proof.
  intros Hd. pose proof (Z.mod_pos_bound days 146097) as Hm.
  set (q := days / 146097) in *. set (d := days mod 146097) in *.
  assert (days = 146097 * q + d) as Hq by (apply Z.div_mod; lia).
  assert (0 <= q) as Hq0 by (apply Z.div_pos; lia).
  destruct (estimate d ltac:(lia)) as (Hr & Hlo & Hhi). set (r := (d + 2) * 400 / 146097) in *.
  assert ((days + 2) * 400 / 146097 = 400 * q + r) as Hy.
  { unfold r. rewrite Hq. rewrite <- Z.div_add_l by lia. f_equal. lia. }
  unfold year_yday. change (365 * 400 + 100 - 4 + 1) with 146097.
  rewrite (u64_small ((days + 2) * 400)) by lia. rewrite Hy.
  pose proof (days_before_400 q r) as Hc. pose proof (days_before_400 q (r + 1)) as Hc1.
  pose proof (days_before_400 q (r - 1)) as Hc0.
  pose proof (days_before_bounds (400 * q + r) ltac:(lia)) as Hb.
  assert (gauss_days (400 * q + r) = days_before (400 * q + r)) as Hg.
  { unfold gauss_days. fold (days_before (400 * q + r)). apply u64_small. lia. }
  pose proof (days_before_succ (400 * q + r)) as Hs.
  pose proof (days_before_succ (400 * q + r - 1)) as Hs'.
  rewrite Hg. rewrite (i64_small (days - _)) by lia.
  destruct (Z.ltb_spec (days - days_before (400 * q + r)) 0) as [Hn|Hp].
  - destruct Hlo as [Hr0|Hlo].
    { exfalso. rewrite Hr0 in Hc, Hn. change (days_before 0) with 0 in Hc. lia. }
    fold (leap_day (400 * q + r)). replace (400 * q + r - 1 + 1) with (400 * q + r) in * by lia.
    assert (0 <= leap_day (400 * q + r) <= 1) as Hl by (unfold leap_day; destruct (leap _); lia).
    assert (0 < 400 * q + r) as Hpos.
    { destruct (decide (400 * q + r = 0)) as [E|]; [|lia]. rewrite E in Hn. change (days_before 0) with 0 in Hn. lia. }
    rewrite u64_small, i64_small by lia. replace (400 * q + r - 1 + 1) with (400 * q + r) by lia.
    replace (400 * q + (r - 1)) with (400 * q + r - 1) in Hc0 by lia.
    pose proof (days_before_bounds (400 * q + r - 1) ltac:(lia)) as Hb'.
    split; [split; [lia|]|lia]. apply Z.div_le_lower_bound; lia.
  - split; [split; [lia|]|].
    + apply Z.div_le_lower_bound; lia.
    + rewrite Z.add_assoc in Hc1. lia.
Qed.

(** The date of a day of the year, from a table that does not depend on the year. *)
Definition year_table (d : Z) : Z * Z * Z :=
  let mon := (d + 31) * 10 / 306 in
  let mday := d - (367 * mon / 12 - 30) + 1 in
  if d >=? 306 then (1, mon - 10, mday) else (0, mon + 2, mday).

Definition days_in_month (lp : bool) (m : Z) : Z :=
  if (m =? 2) && lp then 29 else nth (Z.to_nat (m - 1)) mday_table 0.

Lemma days_in_month_bounds lp m : 1 <= m <= 12 -> 28 <= days_in_month lp m <= 31.
Proof.
  intros Hm. assert (forallb (fun lp => (28 <=? days_in_month lp (m - 1 + 1)) && (days_in_month lp (m - 1 + 1) <=? 31))
    [true; false] = true) as H.
  { apply (range_forall (fun m => forallb (fun lp => (28 <=? days_in_month lp (m + 1)) &&
      (days_in_month lp (m + 1) <=? 31)) [true; false]) 12); [vm_compute; reflexivity|lia]. }
  rewrite Z.sub_add in H. cbn [forallb] in H. rewrite !andb_true_iff, !Z.leb_le in H. destruct lp; lia.
Qed.

Lemma date_of_table y d :
  0 <= y < 2 ^ 48 -> 0 <= d < 366 ->
  date_of y d = (y + (year_table d).1.1, (year_table d).1.2, (year_table d).2).
Proof.
  intros Hy Hd. unfold date_of, year_table.
  assert (1 <= (d + 31) * 10 / 306 <= 13) as Hm by (Z.to_euclidean_division_equations; lia).
  rewrite (u64_small ((d + 31) * 10 / 306)) by lia. set (mon := (d + 31) * 10 / 306) in *.
  rewrite (u64_small (367 * mon)) by lia.
  assert (0 <= d - (367 * mon / 12 - 30) + 1 < 2 ^ 10) as Hd'.
  { unfold mon in *. Z.to_euclidean_division_equations; lia. }
  rewrite (u64_small (d - _ + 1)) by lia.
  destruct (Z.geb_spec d 306); cbn [fst snd].
  - assert (10 <= mon) by (unfold mon; Z.to_euclidean_division_equations; lia).
    rewrite !u64_small by lia. done.
  - rewrite !u64_small by lia. by rewrite Z.add_0_r.
Qed.

(** The rules of the calendar. *)
Definition next_day (date : Z * Z * Z) : Z * Z * Z :=
  let '(y, m, d) := date in
  if d <? days_in_month (leap y) m then (y, m, d + 1)
  else if m =? 12 then (y + 1, 1, 1) else (y, m + 1, 1).

Definition valid_date (date : Z * Z * Z) : Prop :=
  let '(y, m, d) := date in 1 <= m <= 12 /\ 1 <= d <= days_in_month (leap y) m.

(** One step in the table, for a year that ends on February 28 or 29. *)
Definition table_step (lp : bool) (d : Z) : bool :=
  let '(dy, m, md) := year_table d in
  let len := days_in_month (if dy =? 1 then lp else false) m in
  (1 <=? m) && (m <=? 12) && (1 <=? md) && (md <=? len) && ((dy =? 0) || (dy =? 1)) &&
  (negb (m =? 2) || (dy =? 1)) &&
  bool_decide (
    (if d + 1 <? 365 + (if lp then 1 else 0) then year_table (d + 1)
     else let '(dy, m, md) := year_table 0 in (dy + 1, m, md)) =
    if md <? len then (dy, m, md + 1) else if m =? 12 then (dy + 1, 1, 1) else (dy, m + 1, 1)).

Lemma table_step_all (lp : bool) d : 0 <= d < 365 + (if lp then 1 else 0) -> table_step lp d = true.
Proof.
  intros Hd. destruct lp.
  - apply (range_forall (table_step true) 366); [vm_compute; reflexivity|lia].
  - apply (range_forall (table_step false) 365); [vm_compute; reflexivity|lia].
Qed.

Lemma days_before_mono y y' : y < y' -> days_before (y + 1) <= days_before y'.
Proof. intros H. unfold days_before. Z.to_euclidean_division_equations; lia. Qed.

Lemma year_unique y d y' d' :
  days_before y + d = days_before y' + d' ->
  0 <= d < 365 + leap_day (y + 1) -> 0 <= d' < 365 + leap_day (y' + 1) -> y = y' /\ d = d'.
Proof.
  intros E Hd Hd'. rewrite <- (Z.add_simpl_l (days_before y) (365 + leap_day (y + 1))) in Hd.
  rewrite Z.add_assoc, <- days_before_succ in Hd.
  rewrite <- (Z.add_simpl_l (days_before y') (365 + leap_day (y' + 1))) in Hd'.
  rewrite Z.add_assoc, <- days_before_succ in Hd'.
  destruct (Z.lt_trichotomy y y') as [H|[->|H]]; [|lia|]; apply days_before_mono in H; lia.
Qed.

(** The date [ngx_gmtime] computes for a day since January 1, 1970. *)
Definition civil (D : Z) : Z * Z * Z :=
  let '(y, d) := year_yday (D - (31 + 28) + 719527) in date_of y d.

Lemma leap_day_if y : leap_day y = if leap y then 1 else 0.
Proof. done. Qed.

Lemma table_date y d :
  0 <= y < 2 ^ 47 -> 0 <= d < 365 + leap_day (y + 1) ->
  valid_date (date_of y d) /\
  next_day (date_of y d) =
    if d + 1 <? 365 + leap_day (y + 1) then date_of y (d + 1) else date_of (y + 1) 0.
Proof.
  intros Hy Hd. rewrite leap_day_if in *.
  assert (0 <= d < 366) as Hd' by (destruct (leap (y + 1)); lia).
  pose proof (table_step_all (leap (y + 1)) d Hd) as Hs. unfold table_step in Hs.
  rewrite (date_of_table y d) by lia. destruct (year_table d) as [[dy m] md] eqn:Et. cbn [fst snd].
  rewrite !andb_true_iff, bool_decide_eq_true in Hs.
  destruct Hs as ((((((H1%Z.leb_le & H2%Z.leb_le) & H3%Z.leb_le) & H4%Z.leb_le) & H5) & H6) & H7).
  assert (days_in_month (leap (y + dy)) m = days_in_month (if dy =? 1 then leap (y + 1) else false) m)
    as Hlen.
  { destruct (Z.eqb_spec dy 1) as [->|Hne]; [done|]. cbn [orb] in H6. rewrite orb_false_r in H6.
    unfold days_in_month. destruct (m =? 2); [done|done]. }
  split.
  - unfold valid_date. rewrite Hlen. by split_and!.
  - unfold next_day. rewrite Hlen.
    destruct (d + 1 <? 365 + (if leap (y + 1) then 1 else 0)) eqn:El.
    + apply Z.ltb_lt in El. rewrite date_of_table by (destruct (leap (y + 1)); lia). rewrite H7.
      destruct (md <? _); [done|]. destruct (m =? 12); cbn [fst snd]; [|done].
      by rewrite Z.add_assoc.
    + rewrite date_of_table by lia. destruct (year_table 0) as [[dy0 m0] md0]. cbn [fst snd].
      assert (forall a b c, (dy0 + 1, m0, md0) = (a, b, c) -> (y + a, b, c) = (y + 1 + dy0, m0, md0)) as Heq.
      { intros a b c [= <- <- <-]. do 2 f_equal. lia. }
      destruct (md <? _); [|destruct (m =? 12)]; apply Heq in H7; by rewrite <- H7, ?Z.add_assoc.
Qed.

Lemma civil_next D :
  0 <= D < 2 ^ 46 -> valid_date (civil D) /\ civil (D + 1) = next_day (civil D).
Proof.
  intros HD. unfold civil.
  pose proof (year_yday_spec (D - (31 + 28) + 719527) ltac:(lia)) as H1.
  pose proof (year_yday_spec (D + 1 - (31 + 28) + 719527) ltac:(lia)) as H2.
  destruct (year_yday (D - (31 + 28) + 719527)) as [y d].
  destruct (year_yday (D + 1 - (31 + 28) + 719527)) as [y' d'].
  destruct H1 as (Hy & E & Hd), H2 as (Hy' & E' & Hd').
  assert (y < 2 ^ 47) as Hlt.
  { assert ((D - (31 + 28) + 719527) / 365 <= D - (31 + 28) + 719527) by (apply Z.div_le_upper_bound; lia). lia. }
  destruct (table_date y d ltac:(lia) Hd) as [Hv Hn]. split; [done|]. rewrite Hn.
  destruct (Z.ltb_spec (d + 1) (365 + leap_day (y + 1))) as [Hl|Hl].
  - destruct (year_unique y (d + 1) y' d') as [<- <-]; [lia|lia|done|done].
  - destruct (year_unique (y + 1) 0 y' d') as [<- <-]; [|unfold leap_day; destruct (leap _); lia|done|done].
    pose proof (days_before_succ y). lia.
Qed.

Lemma civil_iter n : Z.of_nat n < 2 ^ 46 -> civil (Z.of_nat n) = Nat.iter n next_day (1970, 1, 1).
Proof.
  induction n as [|n IH]; intros Hn; [vm_compute; reflexivity|].
  change (Nat.iter (S n) next_day (1970, 1, 1)) with (next_day (Nat.iter n next_day (1970, 1, 1))).
  rewrite <- IH by lia. rewrite Nat2Z.inj_succ, <- Z.add_1_r. apply civil_next. lia.
Qed.

Lemma gmtime_fields t :
  0 <= t < 2 ^ 48 ->
  let D := t / 86400 in let n := t mod 86400 in
  let '(y, m, d) := civil D in
  ngx_gmtime t = mk_tm (n mod 3600 mod 60) (n mod 3600 / 60) (n / 3600) d m y ((4 + D) mod 7) /\
  0 <= y < 2 ^ 31 - 1.
Proof.
  intros Ht D n. unfold ngx_gmtime. rewrite (u64_small t) by lia. fold D n.
  assert (0 <= D < 2 ^ 32) as HD.
  { unfold D. split; [apply Z.div_pos; lia|]. apply Z.div_lt_upper_bound; lia. }
  pose proof (Z.mod_pos_bound t 86400 ltac:(lia)) as Hn. fold n in Hn.
  rewrite (u64_small (4 + D)), (u64_small (D - _ + _)) by lia.
  unfold civil. pose proof (year_yday_spec (D - (31 + 28) + 719527) ltac:(lia)) as Hy.
  destruct (year_yday (D - (31 + 28) + 719527)) as [y d]. destruct Hy as (Hy & E & Hd).
  assert (0 <= y < 2 ^ 25) as Hy'.
  { split; [lia|]. assert ((D - (31 + 28) + 719527) / 365 < 2 ^ 25) by (apply Z.div_lt_upper_bound; lia). lia. }
  destruct (table_date y d ltac:(lia) Hd) as [Hv _].
  assert (date_of y d = (y + (year_table d).1.1, (year_table d).1.2, (year_table d).2)) as Hdt.
  { apply date_of_table; [lia|]. unfold leap_day in Hd. destruct (leap _); lia. }
  assert ((year_table d).1.1 = 0 \/ (year_table d).1.1 = 1) as Hdy.
  { unfold year_table. destruct (d >=? 306); cbn; auto. }
  destruct (date_of y d) as [[y' m] md]. injection Hdt as -> Hm Hmd.
  destruct Hv as [Hm' Hmd'].
  assert (days_in_month (leap (y + (year_table d).1.1)) m <= 31) as Hlen.
  { by apply days_in_month_bounds. }
  pose proof (Z.mod_pos_bound (4 + D) 7 ltac:(lia)).
  assert (0 <= n / 3600 < 24) by (Z.to_euclidean_division_equations; lia).
  assert (0 <= n mod 3600 / 60 < 60) by (Z.to_euclidean_division_equations; lia).
  pose proof (Z.mod_pos_bound (n mod 3600) 60 ltac:(lia)).
  split; [|lia]. by rewrite !i32_small by lia.
Qed.

(** [ngx_gmtime] is the calendar: for every time up to year 8,919,000 the date is
    the one reached from January 1, 1970 by as many steps of [next_day] (which
    knows the lengths of the months and the leap years) as days have passed, the
    weekday counts from a Thursday, and the time of day makes up the rest.  The
    closed formulas of the code and its estimate of the year are never off by a
    day, and none of them overflows. *)
Theorem gmtime_calendar t :
  0 <= t < 2 ^ 48 ->
  let tm := ngx_gmtime t in let D := t / 86400 in
  (tm_year tm, tm_mon tm, tm_mday tm) = Nat.iter (Z.to_nat D) next_day (1970, 1, 1) /\
  tm_wday tm = (4 + D) mod 7 /\
  t = D * 86400 + tm_hour tm * 3600 + tm_min tm * 60 + tm_sec tm /\
  0 <= tm_hour tm < 24 /\ 0 <= tm_min tm < 60 /\ 0 <= tm_sec tm < 60.
Proof.
  intros Ht tm D. pose proof (gmtime_fields t Ht) as H. cbv zeta in H. fold D in H.
  assert (0 <= D < 2 ^ 46) as HD.
  { unfold D. split; [apply Z.div_pos; lia|]. apply Z.div_lt_upper_bound; lia. }
  pose proof (civil_iter (Z.to_nat D)) as Hc. rewrite Z2Nat.id in Hc by lia. rewrite <- Hc by lia.
  destruct (civil D) as [[y m] d]. destruct H as [H _]. subst tm. rewrite H. cbn [tm_year tm_mon tm_mday tm_wday tm_hour tm_min tm_sec].
  split; [done|]. split; [done|]. unfold D. Z.to_euclidean_division_equations; lia.
Qed.

Lemma gmtime_calendar_witness :
  ngx_gmtime 951827696 = mk_tm 56 34 12 29 2 2000 2 /\
  (tm_year (ngx_gmtime 951827696), tm_mon (ngx_gmtime 951827696), tm_mday (ngx_gmtime 951827696)) =
    Nat.iter (Z.to_nat (951827696 / 86400)) next_day (1970, 1, 1).
Proof. split; [vm_compute; reflexivity|]. exact (proj1 (gmtime_calendar 951827696 ltac:(lia))). Defined.

(** ** Round trip of the printed dates *)

(** The decimal digits of a two- and a four-digit number. *)
Definition two (n : Z) : list Z := ["0"%ch + n / 10; "0"%ch + n mod 10].
Definition four (n : Z) : list Z :=
  ["0"%ch + n / 1000; "0"%ch + n / 100 mod 10; "0"%ch + n / 10 mod 10; "0"%ch + n mod 10].

Lemma field_two n : 0 <= n < 100 -> field "0"%ch 2 0 n = two n.
Proof.
  intros Hn. apply (range_eq (field "0"%ch 2 0) two 100); [vm_compute; reflexivity|lia].
Qed.

Lemma field_four n : 1000 <= n < 10000 -> field SP 4 0 n = four n.
Proof.
  intros Hn. replace n with (n - 1000 + 1000) by lia.
  apply (range_eq (fun n => field SP 4 0 (n + 1000)) (fun n => four (n + 1000)) 9000);
    [vm_compute; reflexivity|lia].
Qed.

Lemma emits_02d f fmt n args :
  0 <= n < 100 -> emits (S f) f (bs "%02d" ++ fmt) fmt (AInt n :: args) args (two n).
Proof.
  intros Hn. apply (emits_int f fmt (bs "02") "d"%ch 32 n args (mk_spec "0"%ch 2 true 0 false 0 None));
    [done|done|lia|lia|by apply field_two|done].
Qed.

Lemma emits_4d f fmt n args :
  1000 <= n < 10000 -> emits (S f) f (bs "%4d" ++ fmt) fmt (AInt n :: args) args (four n).
Proof.
  intros Hn. apply (emits_int f fmt (bs "4") "d"%ch 32 n args (mk_spec SP 4 true 0 false 0 None));
    [done|done|lia|lia|by apply field_four|done].
Qed.

(** The text between the weekday and the end, for both formats: [sep] is a space
    or a dash and [year] the digits of the year. *)
Definition date_text (w sep mon year : list Z) (d h mi s : Z) : list Z :=
  w ++ bs "," ++ bs " " ++ two d ++ sep ++ mon ++ sep ++ year ++ bs " " ++
  two h ++ bs ":" ++ two mi ++ bs ":" ++ two s ++ bs " " ++ bs "G" ++ bs "M" ++ bs "T" ++ [].

(** A name of a day or a month, as an argument of [%s]. *)
Definition name (s : list Z) : Prop := Forall (fun c => c <> 0) s /\ length s = 3%nat.

Lemma emits_name f fmt s args :
  name s -> emits (S f) f (bs "%s" ++ fmt) fmt (ACStr (s ++ [0]) :: args) args s.
Proof. intros [Hs Hl]. apply emits_s; [done|]. by destruct s. Qed.

Ltac emit_step :=
  lazymatch goal with
  | |- emits (S ?f) _ (bs "%s" ++ ?fmt) _ _ _ (?o ++ _) =>
      eapply (emits_app _ f _ _ fmt _ _ _ _ o); [apply emits_name; assumption|]
  | |- emits (S ?f) _ (bs "%02d" ++ ?fmt) _ _ _ (?o ++ _) =>
      eapply (emits_app _ f _ _ fmt _ _ _ _ o); [apply emits_02d; assumption|]
  | |- emits (S ?f) _ (bs "%4d" ++ ?fmt) _ _ _ (?o ++ _) =>
      eapply (emits_app _ f _ _ fmt _ _ _ _ o); [apply emits_4d; assumption|]
  | |- emits (S ?f) _ (_ ++ ?fmt) _ _ _ (?o ++ _) =>
      eapply (emits_app _ f _ _ fmt _ _ _ _ o); [apply emits_byte; discriminate|]
  end.

Section Texts.
Variables (room : nat) (w mon : list Z) (d y h mi s : Z).
Hypotheses (Hw : name w) (Hmon : name mon) (Hd : 0 <= d < 100) (Hh : 0 <= h < 100)
  (Hmi : 0 <= mi < 100) (Hs : 0 <= s < 100) (Hroom : (29 <= room)%nat).

Lemma http_time_text :
  1000 <= y < 10000 ->
  ngx_vslprintf room (bs "%s, %02d %s %4d %02d:%02d:%02d GMT")
    [ACStr (w ++ [0]); AInt d; ACStr (mon ++ [0]); AInt y; AInt h; AInt mi; AInt s] =
  Some (date_text w (bs " ") mon (four y) d h mi s).
Proof.
  intros Hy. eapply (emits_run _ 16);
    [|destruct Hw, Hmon; unfold date_text; rewrite !length_app; cbn [length bs]; cbn; lia].
  unfold date_text. change (S (length _)) with 35%nat.
  change (bs "%s, %02d %s %4d %02d:%02d:%02d GMT") with
    (bs "%s" ++ bs "," ++ bs " " ++ bs "%02d" ++ bs " " ++ bs "%s" ++ bs " " ++ bs "%4d" ++ bs " " ++
     bs "%02d" ++ bs ":" ++ bs "%02d" ++ bs ":" ++ bs "%02d" ++ bs " " ++ bs "G" ++ bs "M" ++ bs "T" ++ []).
  repeat emit_step. apply emits_end.
Qed.

Lemma cookie_time_text :
  0 <= y < 100 ->
  ngx_vslprintf room (bs "%s, %02d-%s-%02d %02d:%02d:%02d GMT")
    [ACStr (w ++ [0]); AInt d; ACStr (mon ++ [0]); AInt y; AInt h; AInt mi; AInt s] =
  Some (date_text w (bs "-") mon (two y) d h mi s).
Proof.
  intros Hy. eapply (emits_run _ 17);
    [|destruct Hw, Hmon; unfold date_text; rewrite !length_app; cbn [length bs]; cbn; lia].
  unfold date_text. change (S (length _)) with 36%nat.
  change (bs "%s, %02d-%s-%02d %02d:%02d:%02d GMT") with
    (bs "%s" ++ bs "," ++ bs " " ++ bs "%02d" ++ bs "-" ++ bs "%s" ++ bs "-" ++ bs "%02d" ++ bs " " ++
     bs "%02d" ++ bs ":" ++ bs "%02d" ++ bs ":" ++ bs "%02d" ++ bs " " ++ bs "G" ++ bs "M" ++ bs "T" ++ []).
  repeat emit_step. apply emits_end.
Qed.
End Texts.

Lemma digit_char k : 0 <= k < 10 -> is_digit ("0"%ch + k) = true /\ "0"%ch + k - "0"%ch = k.
Proof. intros Hk. split; [apply is_digit_iff; change "0"%ch with 48; lia|lia]. Qed.

Lemma two_digits_two n s : 0 <= n < 100 -> two_digits (two n ++ s) = Some (Val n).
Proof.
  intros Hn. unfold two_digits, digit_at, two. cbn [app lookup list_lookup mbind option_bind].
  destruct (digit_char (n / 10)) as [-> ->]; [Z.to_euclidean_division_equations; lia|].
  destruct (digit_char (n mod 10)) as [-> ->]; [Z.to_euclidean_division_equations; lia|].
  cbn [bind_res]. do 2 f_equal. Z.to_euclidean_division_equations; lia.
Qed.

Lemma four_digits_four n s : 0 <= n < 10000 -> four_digits (four n ++ s) = Some (Val n).
Proof.
  intros Hn. unfold four_digits, digit_at, four. cbn [app lookup list_lookup mbind option_bind].
  destruct (digit_char (n / 1000)) as [-> ->]; [Z.to_euclidean_division_equations; lia|].
  destruct (digit_char (n / 100 mod 10)) as [-> ->]; [Z.to_euclidean_division_equations; lia|].
  destruct (digit_char (n / 10 mod 10)) as [-> ->]; [Z.to_euclidean_division_equations; lia|].
  destruct (digit_char (n mod 10)) as [-> ->]; [Z.to_euclidean_division_equations; lia|].
  cbn [bind_res]. do 2 f_equal. Z.to_euclidean_division_equations; lia.
Qed.

Lemma to_separator_name w r :
  forallb (fun c => negb (c =? ","%ch) && negb (c =? SP)) w = true ->
  to_separator (w ++ bs "," ++ r) = (no, bs "," ++ r).
Proof.
  induction w as [|c w IH]; [done|]. cbn [forallb app to_separator].
  rewrite !andb_true_iff, !negb_true_iff. intros [[-> ->] Hw]. by apply IH.
Qed.

(** The tables of names. *)
Lemma week_name i : 0 <= i < 7 ->
  exists w, name_arg week i = Some (ACStr (w ++ [0])) /\ name w /\
    forallb (fun c => negb (c =? ","%ch) && negb (c =? SP)) w = true.
Proof.
  intros Hi. assert (i = 0 \/ i = 1 \/ i = 2 \/ i = 3 \/ i = 4 \/ i = 5 \/ i = 6) as Hc by lia.
  destruct Hc as [->|[->|[->|[->|[->|[->| ->]]]]]]; eexists; split; try reflexivity;
    (split; [|reflexivity]); split; try reflexivity; repeat constructor; discriminate.
Qed.

Lemma month_name i : 0 <= i < 12 ->
  exists mon, name_arg months i = Some (ACStr (mon ++ [0])) /\ name mon /\
    forall s, month_of (mon ++ s) = Some (Val i).
Proof.
  intros Hi. assert (i = 0 \/ i = 1 \/ i = 2 \/ i = 3 \/ i = 4 \/ i = 5 \/ i = 6 \/ i = 7 \/ i = 8 \/
    i = 9 \/ i = 10 \/ i = 11) as Hc by lia.
  destruct Hc as [->|[->|[->|[->|[->|[->|[->|[->|[->|[->|[->| ->]]]]]]]]]]]; eexists; split; try reflexivity;
    (split; [|reflexivity]); split; try reflexivity; repeat constructor; discriminate.
Qed.

Lemma time_of_day_text h mi s r :
  0 <= h < 100 -> 0 <= mi < 100 -> 0 <= s < 100 ->
  time_of_day (bs " " ++ two h ++ bs ":" ++ two mi ++ bs ":" ++ two s ++ r) =
  Some (Val (h, mi, s, two s ++ r)).
Proof.
  intros Hh Hmi Hs. unfold time_of_day.
  change (expect SP (bs " " ++ ?r)) with (Some (Val r)). cbn [bind_res].
  rewrite two_digits_two by done. cbn [bind_res].
  change (expect ":"%ch (drop 2 (two h ++ bs ":" ++ ?r))) with (Some (Val r)). cbn [bind_res].
  rewrite two_digits_two by done. cbn [bind_res].
  change (expect ":"%ch (drop 2 (two mi ++ bs ":" ++ ?r))) with (Some (Val r)). cbn [bind_res].
  rewrite two_digits_two by done. done.
Qed.

(** The text of a date as the parser sees it, behind the weekday. *)
Section Parse.
Variables (w mon : list Z) (d m y h mi s : Z).
Hypotheses (Hwn : name w) (Hmn : name mon)
  (Hw : forallb (fun c => negb (c =? ","%ch) && negb (c =? SP)) w = true)
  (Hmon : forall r, month_of (mon ++ r) = Some (Val m))
  (Hd : 0 <= d < 100) (Hh : 0 <= h < 100) (Hmi : 0 <= mi < 100) (Hs : 0 <= s < 100).

Lemma after_weekday sep year :
  let r := sep ++ mon ++ sep ++ year ++ bs " " ++ two h ++ bs ":" ++ two mi ++ bs ":" ++ two s ++
    bs " " ++ bs "G" ++ bs "M" ++ bs "T" ++ [] in
  to_separator (date_text w sep mon year d h mi s) = (no, bs "," ++ bs " " ++ two d ++ r) /\
  skip_spaces (drop 1 (bs "," ++ bs " " ++ two d ++ r)) = two d ++ r.
Proof.
  intros r. split; [by apply to_separator_name|].
  change (skip_spaces (SP :: ("0"%ch + d / 10) :: ("0"%ch + d mod 10) :: r) = two d ++ r).
  cbn [skip_spaces]. change (SP =? SP) with true. cbv iota.
  rewrite (proj2 (Z.eqb_neq _ _)); [done|]. change "0"%ch with 48. change SP with 32.
  Z.to_euclidean_division_equations; lia.
Qed.

Lemma drop_name r : drop 3 (mon ++ r) = r.
Proof. destruct Hmn as [_ E]. by rewrite <- E, drop_app_length. Qed.

Lemma parse_http_text :
  0 <= y < 10000 ->
  ngx_http_parse_time (date_text w (bs " ") mon (four y) d h mi s) = Some (time_value d m y h mi s).
Proof.
  intros Hy. unfold ngx_http_parse_time.
  destruct (after_weekday (bs " ") (four y)) as [-> ->].
  rewrite (proj2 (Nat.ltb_ge _ _)) by (rewrite !length_app; destruct Hmn as [_ ->]; cbn; lia).
  unfold day_first. rewrite two_digits_two by done. cbn [bind_res].
  change (drop 2 (two d ++ ?r)) with r. change ((bs " " ++ ?r) !! 0%nat) with (Some SP).
  cbn [mbind option_bind]. change (SP =? SP) with true. cbv iota.
  rewrite (proj2 (Nat.ltb_ge _ _)) by (rewrite !length_app; destruct Hmn as [_ ->]; cbn; lia).
  change (drop 1 (bs " " ++ ?r)) with r. cbn [bind_res]. rewrite Hmon, drop_name. cbn [bind_res].
  change ((bs " " ++ ?r) !! 0%nat) with (Some SP). cbn [mbind option_bind].
  change (negb (SP =? SP)) with false. cbv iota. change (drop 1 (bs " " ++ ?r)) with r.
  unfold day_year. rewrite four_digits_four by done. cbn [bind_res].
  change (drop 4 (four y ++ ?r)) with r. by rewrite time_of_day_text.
Qed.

Lemma parse_cookie_text :
  0 <= y < 100 ->
  ngx_http_parse_time (date_text w (bs "-") mon (two y) d h mi s) =
  Some (time_value d m (y + (if y <? 70 then 2000 else 1900)) h mi s).
Proof.
  intros Hy. unfold ngx_http_parse_time.
  destruct (after_weekday (bs "-") (two y)) as [-> ->].
  rewrite (proj2 (Nat.ltb_ge _ _)) by (rewrite !length_app; destruct Hmn as [_ ->]; cbn; lia).
  unfold day_first. rewrite two_digits_two by done. cbn [bind_res].
  change (drop 2 (two d ++ ?r)) with r. change ((bs "-" ++ ?r) !! 0%nat) with (Some "-"%ch).
  cbn [mbind option_bind]. change ("-"%ch =? SP) with false. change ("-"%ch =? "-"%ch) with true. cbv iota.
  change (drop 1 (bs "-" ++ ?r)) with r. cbn [bind_res]. rewrite Hmon, drop_name. cbn [bind_res].
  change ((bs "-" ++ ?r) !! 0%nat) with (Some "-"%ch). cbn [mbind option_bind].
  change (negb ("-"%ch =? "-"%ch)) with false. cbv iota. change (drop 1 (bs "-" ++ ?r)) with r.
  unfold day_year. rewrite two_digits_two by done. cbn [bind_res].
  change (drop 2 (two y ++ ?r)) with r. by rewrite time_of_day_text.
Qed.
End Parse.

(** *** [time_value] inverts [civil] *)

(** What the parser's formula makes of the month and the day. *)
Definition table_inverse (d : Z) : Z * Z :=
  let '(dy, m, md) := year_table d in
  if m - 1 - 1 <=? 0 then (dy, 367 * (m - 1 - 1 + 12) / 12 - 30 + md - 1)
  else (dy + 1, 367 * (m - 1 - 1) / 12 - 30 + md - 1).

Lemma year_table_back d :
  0 <= d < 366 ->
  let '(dy, m, md) := year_table d in
  (if m - 1 - 1 <=? 0 then dy = 1 /\ 367 * (m - 1 - 1 + 12) / 12 - 30 + md - 1 = d
   else dy = 0 /\ 367 * (m - 1 - 1) / 12 - 30 + md - 1 = d).
Proof.
  intros Hd.
  assert (table_inverse d = (1, d)) as H.
  { apply (range_eq table_inverse (fun d => (1, d)) 366); [vm_compute; reflexivity|lia]. }
  unfold table_inverse in H. destruct (year_table d) as [[dy m] md].
  destruct (m - 1 - 1 <=? 0); injection H as H1 H2; lia.
Qed.

Lemma leap_test year : Z.land year 3 = year mod 4.
Proof. apply (Z.land_ones year 2). lia. Qed.

Lemma valid_mday y m d :
  valid_date (y, m, d) ->
  (if (d =? 29) && (m - 1 =? 1)
   then negb (Z.land y 3 =? 0) || ((y mod 100 =? 0) && negb (y mod 400 =? 0))
   else d >? nth (Z.to_nat (m - 1)) mday_table 0) = false.
Proof.
  intros [Hm Hd]. unfold days_in_month in Hd. rewrite leap_test. unfold leap in Hd.
  destruct (Z.eqb_spec m 2) as [->|Hne].
  - change (2 - 1 =? 1) with true. change (nth (Z.to_nat (2 - 1)) mday_table 0) with 28 in *.
    destruct (Z.eqb_spec d 29) as [->|Hd'], (y mod 4 =? 0), (y mod 100 =? 0), (y mod 400 =? 0);
      cbn [andb orb negb] in *; lia.
  - replace (m - 1 =? 1) with false by lia. rewrite andb_false_r. cbn [andb] in Hd. lia.
Qed.

Lemma time_value_civil D h mi s :
  0 <= D < 2 ^ 40 -> 0 <= h < 24 -> 0 <= mi < 60 -> 0 <= s < 60 ->
  let '(y, m, d) := civil D in
  time_value d (m - 1) y h mi s = Val (D * 86400 + h * 3600 + mi * 60 + s).
Proof.
  intros HD Hh Hmi Hs. destruct (civil_next D ltac:(lia)) as [Hv _]. revert Hv. unfold civil.
  pose proof (year_yday_spec (D - (31 + 28) + 719527) ltac:(lia)) as Hy.
  destruct (year_yday (D - (31 + 28) + 719527)) as [y d]. destruct Hy as (Hy & E & Hd).
  assert (0 <= d < 366) as Hd' by (unfold leap_day in Hd; destruct (leap _); lia).
  assert (y < 2 ^ 40) as Hlt.
  { assert ((D - (31 + 28) + 719527) / 365 < 2 ^ 40) by (apply Z.div_lt_upper_bound; lia). lia. }
  rewrite date_of_table by lia. pose proof (year_table_back d Hd') as Hb.
  destruct (year_table d) as [[dy m] md]. cbn [fst snd]. intros Hv.
  unfold time_value. rewrite (valid_mday _ _ _ Hv).
  replace ((h >? 23) || (mi >? 59) || (s >? 59)) with false by lia.
  destruct Hv as [Hm _]. unfold days_before in E.
  destruct (Z.leb_spec (m - 1 - 1) 0); destruct Hb as [-> Hb].
  - rewrite (u64_small (y + 1 - 1)) by lia. rewrite Z.add_simpl_r.
    rewrite (u64_small (367 * (m - 1 - 1 + 12) / 12)) by (Z.to_euclidean_division_equations; lia).
    rewrite (u64_small (_ + 28)) by lia. rewrite u64_small, i64_small by lia. f_equal. lia.
  - rewrite Z.add_0_r in *.
    rewrite (u64_small (367 * (m - 1 - 1) / 12)) by (Z.to_euclidean_division_equations; lia).
    rewrite (u64_small (_ + 28)) by lia. rewrite u64_small, i64_small by lia. f_equal. lia.
Qed.

Lemma days_before_le y y' : y <= y' -> days_before y <= days_before y'.
Proof. intros H. unfold days_before. Z.to_euclidean_division_equations; lia. Qed.

(** The years a day lies in: 306 days of a year that starts on March 1 are left on
    January 1. *)
Lemma civil_year D lo hi :
  0 <= D < 2 ^ 40 ->
  days_before (lo - 1) + 306 <= D - (31 + 28) + 719527 <= days_before hi + 305 ->
  lo <= (civil D).1.1 <= hi.
Proof.
  intros HD Hr. unfold civil.
  pose proof (year_yday_spec (D - (31 + 28) + 719527) ltac:(lia)) as Hy.
  destruct (year_yday (D - (31 + 28) + 719527)) as [y d]. destruct Hy as (Hy & E & Hd).
  assert (y < 2 ^ 40) as Hlt.
  { assert ((D - (31 + 28) + 719527) / 365 < 2 ^ 40) by (apply Z.div_lt_upper_bound; lia). lia. }
  rewrite date_of_table by (unfold leap_day in Hd; destruct (leap _); lia). cbn [fst snd].
  pose proof (days_before_succ y) as Hs. rewrite E in Hr. unfold year_table.
  assert (lo - 1 <= y).
  { destruct (Z.le_gt_cases (lo - 1) y) as [|Hc]; [done|].
    pose proof (days_before_le (y + 1) (lo - 1) ltac:(lia)). lia. }
  assert (y <= hi).
  { destruct (Z.le_gt_cases y hi) as [|Hc]; [done|].
    pose proof (days_before_le (hi + 1) y ltac:(lia)). pose proof (days_before_succ hi).
    unfold leap_day in *. destruct (leap (hi + 1)); lia. }
  destruct (Z.geb_spec d 306); cbn [fst snd].
  - assert (y <> hi) by (intros ->; lia). lia.
  - assert (y <> lo - 1) by (intros ->; lia). lia.
Qed.

(** What is printed for a time whose year has four digits. *)
Lemma printed_fields t :
  0 <= t < 253402300800 ->
  exists w mon D y m d h mi s,
    ngx_gmtime t = mk_tm s mi h d m y ((4 + D) mod 7) /\ D = t / 86400 /\ civil D = (y, m, d) /\
    0 <= d < 100 /\ 1970 <= y < 10000 /\ 0 <= h < 24 /\ 0 <= mi < 60 /\ 0 <= s < 60 /\
    t = D * 86400 + h * 3600 + mi * 60 + s /\ 0 <= D < 2 ^ 40 /\
    name_arg week ((4 + D) mod 7) = Some (ACStr (w ++ [0])) /\ name w /\
    forallb (fun c => negb (c =? ","%ch) && negb (c =? SP)) w = true /\
    name_arg months (m - 1) = Some (ACStr (mon ++ [0])) /\ name mon /\
    forall r, month_of (mon ++ r) = Some (Val (m - 1)).
Proof.
  intros Ht. set (D := t / 86400). set (n := t mod 86400).
  assert (0 <= D < 2932897) as HD.
  { unfold D. split; [apply Z.div_pos; lia|]. apply Z.div_lt_upper_bound; lia. }
  pose proof (Z.mod_pos_bound t 86400 ltac:(lia)) as Hn. fold n in Hn.
  pose proof (gmtime_fields t ltac:(lia)) as Hg. cbv zeta in Hg. fold D n in Hg.
  destruct (civil_next D ltac:(lia)) as [Hv _].
  pose proof (civil_year D 1970 9999 ltac:(lia)) as Hy.
  change (days_before (1970 - 1) + 306) with 719468 in Hy.
  change (days_before 9999 + 305) with 3652364 in Hy. specialize (Hy ltac:(lia)).
  destruct (civil D) as [[y m] d] eqn:Ec. destruct Hg as [Hg _]. cbn [fst snd] in Hy.
  destruct Hv as [Hm Hd]. pose proof (days_in_month_bounds (leap y) m Hm).
  destruct (week_name ((4 + D) mod 7)) as (w & Hw1 & Hw2 & Hw3); [apply Z.mod_pos_bound; lia|].
  destruct (month_name (m - 1)) as (mon & Hm1 & Hm2 & Hm3); [lia|].
  assert (0 <= n / 3600 < 24) by (Z.to_euclidean_division_equations; lia).
  assert (0 <= n mod 3600 / 60 < 60) by (Z.to_euclidean_division_equations; lia).
  pose proof (Z.mod_pos_bound (n mod 3600) 60 ltac:(lia)).
  exists w, mon, D, y, m, d, (n / 3600), (n mod 3600 / 60), (n mod 3600 mod 60).
  do 9 (split; [first [done | lia | (unfold D, n; Z.to_euclidean_division_equations; lia)]|]).
  do 6 (split; [first [done | lia]|]). done.
Qed.

(** round trip of dates.  For every time of the years 1970 to 9999
    [ngx_http_time] writes 29 bytes, and [ngx_http_parse_time] reads them back as
    the same time; up to the end of 2037 the same holds of the 27 bytes of
    [ngx_http_cookie_time]. *)
Theorem http_time_roundtrip room t :
  (29 <= room)%nat -> 0 <= t < 253402300800 ->
  (exists s, ngx_http_time room t = Some s /\ length s = 29%nat /\
    ngx_http_parse_time s = Some (Val t)) /\
  (t < 2145916800 -> exists s, ngx_http_cookie_time room t = Some s /\ length s = 27%nat /\
    ngx_http_parse_time s = Some (Val t)).
Proof.
  intros Hroom Ht.
  destruct (printed_fields t Ht) as (w & mon & D & y & m & d & h & mi & s & Hg & HD & Hc & Hd & Hy & Hh &
    Hmi & Hs & Et & HD' & Hw1 & Hw2 & Hw3 & Hm1 & Hm2 & Hm3).
  pose proof (time_value_civil D h mi s HD' Hh Hmi Hs) as Hv. rewrite Hc, <- Et in Hv.
  unfold ngx_http_time, ngx_http_cookie_time. rewrite Hg.
  cbn [tm_wday tm_mon tm_mday tm_year tm_hour tm_min tm_sec]. rewrite Hw1, Hm1. cbn [mbind option_bind].
  split.
  - rewrite http_time_text by (done || lia). eexists. split; [reflexivity|]. split.
    + unfold date_text. rewrite !length_app. destruct Hw2 as [_ ->], Hm2 as [_ ->]. reflexivity.
    + rewrite (parse_http_text w mon d (m - 1) y h mi s) by (done || lia). by rewrite Hv.
  - intros Ht'. assert (y <= 2037) as Hy'.
    { pose proof (civil_year D 1970 2037 ltac:(lia)) as H.
      change (days_before (1970 - 1) + 306) with 719468 in H.
      change (days_before 2037 + 305) with 744304 in H. rewrite Hc in H. cbn [fst snd] in H. apply H. lia. }
    replace (y >? 2037) with false by lia. rewrite Z.rem_mod_nonneg by lia.
    pose proof (Z.mod_pos_bound y 100 ltac:(lia)) as Hm100.
    rewrite cookie_time_text by (done || lia). eexists. split; [reflexivity|]. split.
    + unfold date_text. rewrite !length_app. destruct Hw2 as [_ ->], Hm2 as [_ ->]. reflexivity.
    + rewrite (parse_cookie_text w mon d (m - 1) (y mod 100) h mi s) by (done || lia).
      replace (y mod 100 + _) with y; [by rewrite Hv|].
      destruct (Z.ltb_spec (y mod 100) 70); Z.to_euclidean_division_equations; lia.
Qed.

Lemma http_time_roundtrip_witness :
  ngx_http_time 29 784111777 = Some (bs "Sun, 06 Nov 1994 08:49:37 GMT") /\
  ngx_http_cookie_time 29 784111777 = Some (bs "Sun, 06-Nov-94 08:49:37 GMT") /\
  (exists s, ngx_http_time 29 784111777 = Some s /\ length s = 29%nat /\
    ngx_http_parse_time s = Some (Val 784111777)).
Proof.
  split; [vm_compute; reflexivity|]. split; [vm_compute; reflexivity|].
  exact (proj1 (http_time_roundtrip 29 784111777 ltac:(lia) ltac:(lia))).
Defined.

(** The other two formats of RFC 2616, and two inputs at the edges: day 0 is
    accepted and means the last day of the month before, and the cookie format is
    not read back after 2037, when it has four digits of the year. *)
Example parse_formats :
  ngx_http_parse_time (bs "Sunday, 06-Nov-94 08:49:37 GMT") = Some (Val 784111777) /\
  ngx_http_parse_time (bs "Sun Nov  6 08:49:37 1994") = Some (Val 784111777) /\
  ngx_http_parse_time (bs "Sun, 00 Nov 1994 08:49:37 GMT") = Some (Val (784111777 - 6 * 86400)) /\
  ngx_http_parse_time (bs "Fri, 01-Jan-2038 00:00:00 GMT") = Some Error.
Proof. vm_compute. done. Qed.

(** ** The parser stays in its input *)

(** [m] reads no byte behind the input, and its result satisfies [P]. *)
Definition reads {A} (m : option (res A)) (P : A -> Prop) : Prop :=
  match m with Some (Val a) => P a | Some Error => True | None => False end.

Lemma reads_bind {A B} (m : option (res A)) (f : A -> option (res B)) P Q :
  reads m P -> (forall a, P a -> reads (f a) Q) -> reads (bind_res m f) Q.
Proof. destruct m as [[a|]|]; [|done|done]. cbn. auto. Qed.

Lemma reads_lookup {B} (s : list Z) i (f : Z -> option (res B)) Q :
  (i < length s)%nat -> (forall c, reads (f c) Q) -> reads (s !! i ≫= f) Q.
Proof. intros Hi Hf. destruct (lookup_lt_is_Some_2 s i Hi) as [c ->]. apply Hf. Qed.

Lemma reads_weaken {A} (m : option (res A)) (P Q : A -> Prop) :
  reads m P -> (forall a, P a -> Q a) -> reads m Q.
Proof. destruct m as [[a|]|]; cbn; auto. Qed.

Lemma digit_at_reads s i : (i < length s)%nat -> reads (digit_at s i) (fun _ => True).
Proof. intros Hi. apply reads_lookup; [done|]. intros c. by destruct (is_digit c). Qed.

Lemma two_digits_reads s : (2 <= length s)%nat -> reads (two_digits s) (fun _ => True).
Proof. intros H. do 2 (eapply reads_bind; [apply digit_at_reads; lia|intros ? _]). done. Qed.

Lemma four_digits_reads s : (4 <= length s)%nat -> reads (four_digits s) (fun _ => True).
Proof. intros H. do 4 (eapply reads_bind; [apply digit_at_reads; lia|intros ? _]). done. Qed.

Lemma expect_reads c s n :
  (S n <= length s)%nat -> reads (expect c s) (fun r => n <= length r)%nat.
Proof.
  intros H. apply reads_lookup; [lia|]. intros x. destruct (x =? c); [|done].
  cbn [reads]. rewrite length_drop. lia.
Qed.

Lemma month_of_reads s : (3 <= length s)%nat -> reads (month_of s) (fun _ => True).
Proof.
  intros H. apply reads_lookup; [lia|]. intros c.
  repeat case_match; try done;
    repeat first [apply reads_lookup; [lia|intros ?] | case_match]; done.
Qed.

(** What is left of the input behind the day, for each format. *)
Definition left_over (fmt : fmt_t) : nat :=
  match fmt with rfc850 => 15 | _ => 17 end.

Lemma day_first_reads fmt p :
  (18 <= length p)%nat ->
  reads (day_first fmt p) (fun '(fmt', _, r) => fmt' <> no /\ left_over fmt' <= length r)%nat.
Proof.
  intros H. unfold day_first. destruct fmt; [|..|cbn; split; [done|lia]].
  all: eapply reads_bind; [apply two_digits_reads; lia|intros d _].
  all: apply reads_lookup; [rewrite length_drop; lia|intros c].
  all: destruct (c =? SP); [destruct (Nat.ltb_spec (length (drop 2 p)) 18)|destruct (c =? "-"%ch)]; try done.
  all: cbn [reads left_over]; split; [done|rewrite !length_drop in *; lia].
Qed.

Lemma time_of_day_reads p n :
  (9 + n <= length p)%nat -> reads (time_of_day p) (fun '(_, _, _, r) => 2 + n <= length r)%nat.
Proof.
  intros H. unfold time_of_day.
  eapply reads_bind; [apply (expect_reads _ _ (8 + n)); lia|]. intros p1 H1; cbv beta in H1.
  eapply reads_bind; [apply two_digits_reads; lia|]. intros h _.
  eapply reads_bind; [apply (expect_reads _ _ (5 + n)); rewrite length_drop; lia|]. intros p2 H2; cbv beta in H2.
  eapply reads_bind; [apply two_digits_reads; lia|]. intros mi _.
  eapply reads_bind; [apply (expect_reads _ _ (2 + n)); rewrite length_drop; lia|]. intros p3 H3; cbv beta in H3.
  eapply reads_bind; [apply two_digits_reads; lia|]. intros s _. cbn [reads]. lia.
Qed.

Lemma day_year_reads fmt day p :
  (left_over fmt <= 4 + length p)%nat -> fmt <> no ->
  reads (day_year fmt day p)
    (fun '(_, _, r) => (match fmt with isoc => 14 | _ => 9 end) <= length r)%nat.
Proof.
  intros H Hn. unfold day_year. destruct fmt; [done|..]; cbn [left_over] in H.
  - eapply reads_bind; [apply four_digits_reads; lia|]. intros y _. cbn [reads]. rewrite length_drop. lia.
  - eapply reads_bind; [apply two_digits_reads; lia|]. intros y _. cbn [reads]. rewrite length_drop. lia.
  - apply reads_lookup; [lia|]. intros c. set (q := if c =? SP then drop 1 p else p).
    assert (12 <= length q)%nat as Hq by (unfold q; destruct (c =? SP); rewrite ?length_drop; lia).
    eapply reads_bind; [apply digit_at_reads; lia|]. intros d _.
    apply reads_lookup; [rewrite length_drop; lia|]. intros c'.
    eapply (reads_bind _ _ (fun _ => True)).
    + destruct (c' =? SP); [done|]. eapply reads_bind; [apply digit_at_reads; rewrite length_drop; lia|]. done.
    + intros [d' r] _. destruct (Nat.ltb_spec (length r) 14); cbn [reads]; [done|lia].
Qed.

(** [ngx_http_parse_time] reads no byte behind the [len] bytes of the header
    value, whatever they are: every input has a result, a time or [NGX_ERROR].
    The two tests of the remaining length cover all reads behind them. *)
Theorem parse_time_in_bounds buf : ngx_http_parse_time buf <> None.
Proof.
  enough (reads (ngx_http_parse_time buf) (fun _ => True)) as H by (by intros E; rewrite E in H).
  unfold ngx_http_parse_time. destruct (to_separator buf) as [fmt p].
  destruct (Nat.ltb_spec (length (skip_spaces (drop 1 p))) 18) as [|Hl]; [done|].
  eapply reads_bind; [by apply day_first_reads|]. intros [[fmt' d] p1] [Hf H1].
  eapply reads_bind; [apply month_of_reads; destruct fmt'; cbn in H1; lia|]. intros m _.
  apply reads_lookup; [rewrite length_drop; destruct fmt'; cbn in H1; lia|]. intros c.
  destruct (match fmt' with rfc822 => _ | _ => _ end); [done|].
  eapply reads_bind; [apply day_year_reads; [|done]|].
  { rewrite !length_drop. destruct fmt'; cbn in H1 |- *; lia. }
  intros [[d' y] p2] H2.
  eapply reads_bind.
  { apply (time_of_day_reads _ (match fmt' with isoc => 5 | _ => 0 end)). destruct fmt'; lia. }
  intros [[[h mi] s] p3] H3. assert (forall v : res Z, reads (Some v) (fun _ => True)) as Hr by (by intros []).
  destruct fmt'; try apply Hr.
  eapply reads_bind; [apply (expect_reads _ _ 4); rewrite length_drop; lia|]. intros p4 H4; cbv beta in H4.
  eapply reads_bind; [apply four_digits_reads; lia|]. intros y' _. apply Hr.
Qed.

End NgxTimes.
