(* ===== verification/NgxInet.v ===== *)
(** * Addresses

    [src/src/core/ngx_inet.c]: textual IPv4 and IPv6 addresses, CIDR blocks, the
    printing and comparing of socket addresses, and [ngx_parse_url], which turns
    the address of an upstream server into socket addresses.  The build is the one
    with IPv6, unix domain sockets and [getaddrinfo]; the target is
    little-endian.

    A text is the list of its [len] bytes.  [ngx_sprintf] may write to the end of
    the address space; [room] is the number of bytes up to there.
    [getaddrinfo] is a parameter, and so is the number of allocations that
    succeed. *)

From S2P Require Import Prelude NgxString Sprintf.

(** ** Socket addresses, as the other components see them *)

Module Sockaddr.
(** Socket addresses; the ports are in network byte order, [addr] of [sockaddr_in]
    is an [in_addr_t], [path] has its NUL. *)
Inductive sockaddr : Type :=
  | sockaddr_in (port addr : Z)
  | sockaddr_in6 (port : Z) (addr : list Z)
  | sockaddr_un (path : list Z)
  | sockaddr_other (family : Z).

(** [ngx_addr_t] *)
Record addr_t : Type := mk_addr { a_name : list Z; a_sockaddr : option sockaddr; a_socklen : Z }.

End Sockaddr.

Module NgxInet.
Import NgxString Sprintf.
Export Sockaddr.

(** ** Byte order *)

Definition htonl (x : Z) : Z := le_value (rev (le_bytes 4 x)).
Definition ntohl (x : Z) : Z := htonl x.
Definition htons (x : Z) : Z := le_value (rev (le_bytes 2 x)).
Definition ntohs (x : Z) : Z := htons x.

Definition INADDR_NONE : Z := 0xffffffff.
Definition INADDR_ANY : Z := 0.

(** ** Reading addresses *)

(** [ngx_inet_addr] *)
Fixpoint inet_addr_loop (text : list Z) (addr octet n : Z) : Z :=
  match text with
  | [] =>
      if (n =? 3) && (octet <? 256) then htonl (u32 (Z.shiftl addr 8 + octet)) else INADDR_NONE
  | c :: text' =>
      if is_digit c then inet_addr_loop text' addr (u64 (octet * 10 + (c - "0"%ch))) n
      else if (c =? "."%ch) && (octet <? 256)
      then inet_addr_loop text' (u32 (Z.shiftl addr 8 + octet)) 0 (u64 (n + 1))
      else INADDR_NONE
  end.

Definition ngx_inet_addr (text : list Z) : Z := inet_addr_loop text 0 0 0.

(** The locals of [ngx_inet6_addr]: the bytes written at [addr], the offset
    [zero] points to, the text from [digit] on ([len4 - 1] bytes), and the
    words that are still missing. *)
Record inet6_t : Type := mk_inet6 {
  out6 : list Z;
  zero6 : option nat;
  digit6 : option (list Z);
  nibbles : Z;
  word : Z;
  words_left : Z
}.

#[export] Instance eta_inet6 : Eta inet6_t := fun s =>
  mk_inet6 (out6 s) (zero6 s) (digit6 s) (nibbles s) (word s) (words_left s).

(** [*addr++ = (u_char) (word >> 8); *addr++ = (u_char) (word & 0xff);] *)
Definition put_word (s : inet6_t) : inet6_t :=
  s <| out6 := out6 s ++ [u8 (Z.shiftr (word s) 8); Z.land (word s) 255] |>.

(** The loop over the text; [None] is [return NGX_ERROR]. *)
Fixpoint inet6_addr_loop (p : list Z) (s : inet6_t) : option inet6_t :=
  match p with
  | [] => Some s
  | c :: p' =>
      if c =? ":"%ch then
        if negb (nibbles s =? 0) then
          let s := (put_word s) <| digit6 := Some p' |> <| words_left := u64 (words_left s - 1) |> in
          if words_left s =? 0 then None
          else inet6_addr_loop p' (s <| nibbles := 0 |> <| word := 0 |>)
        else
          match zero6 s with
          | None => inet6_addr_loop p' (s <| digit6 := Some p' |> <| zero6 := Some (length (out6 s)) |>)
          | Some _ => None
          end
      else if (c =? "."%ch) && negb (nibbles s =? 0) then
        match digit6 s with
        | None => None
        | Some digit =>
            if words_left s <? 2 then None
            else
              let w := ngx_inet_addr digit in
              if w =? INADDR_NONE then None
              else
                let w := ntohl w in
                Some (s <| word := w |>
                        <| out6 := out6 s ++ [Z.land (Z.shiftr w 24) 255; Z.land (Z.shiftr w 16) 255] |>
                        <| words_left := u64 (words_left s - 1) |>)
        end
      else if nibbles s + 1 >? 4 then None
      else
        let s := s <| nibbles := nibbles s + 1 |> in
        if is_digit c then inet6_addr_loop p' (s <| word := u64 (word s * 16 + (c - "0"%ch)) |>)
        else
          let c := Z.lor c 32 in
          if in_range "a"%ch "f"%ch c
          then inet6_addr_loop p' (s <| word := u64 (word s * 16 + (c - "a"%ch) + 10) |>)
          else None
  end.

(** The bytes of the address, or [None] for [NGX_ERROR].  The words behind the
    double colon are moved to the end and the gap is zeroed. *)
Definition inet6_addr_end (s : inet6_t) : option (list Z) :=
  if (nibbles s =? 0) && bool_decide (zero6 s = None) then None
  else
    let s := put_word s in
    let n := u64 (words_left s - 1) in
    if negb (n =? 0) then
      match zero6 s with
      | Some z => Some (take z (out6 s) ++ repeat 0 (Z.to_nat (n * 2)) ++ drop z (out6 s))
      | None => None
      end
    else match zero6 s with None => Some (out6 s) | Some _ => None end.

Definition ngx_inet6_addr (p : list Z) : option (list Z) :=
  match p with
  | [] => None
  | c :: p' =>
      s ← inet6_addr_loop (if c =? ":"%ch then p' else p) (mk_inet6 [] None None 0 0 8);
      inet6_addr_end s
  end.

(** ** Printing addresses *)

Definition NGX_INET_ADDRSTRLEN : nat := 15.
Definition NGX_INET6_ADDRSTRLEN : nat := 45.

(** The first loop of [ngx_inet6_ntop], over the words [p[i], p[i + 1]]: the
    longest run of zero words so far ([zero], [max]) and the current one ([last],
    [n]); [(ngx_uint_t) -1] is [None]. *)
Definition run_end (zero last : option nat) (max n : nat) : option nat * nat :=
  if (max <? n)%nat then (last, n) else (zero, max).

Fixpoint zero_run (i : nat) (p : list Z) (zero last : option nat) (max n : nat) : option nat * nat :=
  match p with
  | a :: b :: p' =>
      if negb (a =? 0) || negb (b =? 0) then
        let '(zero, max) := run_end zero last max n in
        zero_run (i + 2) p' zero last max 0
      else zero_run (i + 2) p' zero (if (n =? 0)%nat then Some i else last) max (n + 1)
  | _ => run_end zero last max n
  end.

Section Print.
Variable room : nat.

(** The second loop, with a pass for each word. *)
Fixpoint inet6_words (fuel i n : nat) (p : list Z) (zero : option nat) (max : nat) : option (list Z) :=
  match fuel with
  | O => Some []
  | S fuel' =>
      if (n <=? i)%nat then Some []
      else if bool_decide (zero = Some i) then
        rest ← inet6_words fuel' (i + (max - 1) * 2 + 2) n p zero max;
        Some (":"%ch :: rest)
      else
        a ← p !! i; b ← p !! (i + 1)%nat;
        w ← ngx_vslprintf room (bs "%uxi") [AInt (a * 256 + b)];
        rest ← inet6_words fuel' (i + 2) n p zero max;
        Some (w ++ (if (i <? 14)%nat then [":"%ch] else []) ++ rest)
  end.

(** The address ends in dotted form when it embeds an IPv4 address. *)
Definition inet6_dotted (p : list Z) (zero : option nat) (max : nat) : option bool :=
  if bool_decide (zero = Some 0%nat) then
    p10 ← p !! 10%nat; p11 ← p !! 11%nat; p14 ← p !! 14%nat; p15 ← p !! 15%nat;
    Some (((max =? 5)%nat && (p10 =? 0xff) && (p11 =? 0xff)) || (max =? 6)%nat ||
          ((max =? 7)%nat && negb (p14 =? 0) && negb (p15 =? 1)))
  else Some false.

Definition ngx_inet6_ntop (p : list Z) (len : nat) : option (list Z) :=
  if (len <? NGX_INET6_ADDRSTRLEN)%nat then Some []
  else
    let '(zero, max) := zero_run 0 p None None 1 0 in
    dotted ← inet6_dotted p zero max;
    let n := if (dotted : bool) then 12%nat else 16%nat in
    words ← inet6_words 8 0 n p zero max;
    p12 ← p !! 12%nat; p13 ← p !! 13%nat; p14 ← p !! 14%nat; p15 ← p !! 15%nat;
    tail ← (if dotted
            then ngx_vslprintf room (bs "%ud.%ud.%ud.%ud") [AInt p12; AInt p13; AInt p14; AInt p15]
            else Some []);
    Some ((if bool_decide (zero = Some 0%nat) then [":"%ch] else []) ++ words ++ tail).

(** [p[0], p[1], p[2], p[3]] of an [in_addr_t] *)
Definition in_bytes (addr : Z) : list arg := AInt <$> le_bytes 4 addr.

(** [ngx_sock_ntop] *)
Definition ngx_sock_ntop (sa : sockaddr) (socklen : Z) (len : nat) (port : bool) : option (list Z) :=
  match sa with
  | sockaddr_in sin_port addr =>
      if port then ngx_vslprintf len (bs "%ud.%ud.%ud.%ud:%d") (in_bytes addr ++ [AInt (ntohs sin_port)])
      else ngx_vslprintf len (bs "%ud.%ud.%ud.%ud") (in_bytes addr)
  | sockaddr_in6 sin6_port addr =>
      text ← ngx_inet6_ntop addr len;
      if port then
        tail ← ngx_vslprintf room (bs "]:%d") [AInt (ntohs sin6_port)];
        Some ("["%ch :: text ++ tail)
      else Some text
  | sockaddr_un path =>
      text ← (if socklen <=? 2 then ngx_vslprintf len (bs "unix:%Z") []
              else ngx_vslprintf len (bs "unix:%s%Z") [ACStr path]);
      Some (removelast text)
  | sockaddr_other _ => Some []
  end.

(** [ngx_inet_ntop] *)
Inductive in_addr : Type := In4 (addr : Z) | In6 (addr : list Z) | InOther.

Definition ngx_inet_ntop (addr : in_addr) (len : nat) : option (list Z) :=
  match addr with
  | In4 a => ngx_vslprintf len (bs "%ud.%ud.%ud.%ud") (in_bytes a)
  | In6 p => ngx_inet6_ntop p len
  | InOther => Some []
  end.
End Print.

(** ** CIDR blocks *)

(** [ngx_strlchr], as an offset *)
Fixpoint ngx_strlchr (p : list Z) (c : Z) : option nat :=
  match p with
  | [] => None
  | x :: p' => if x =? c then Some 0%nat else S <$> ngx_strlchr p' c
  end.

Inductive cidr_t : Type :=
  | cidr_in (addr mask : Z)
  | cidr_in6 (addr mask : list Z).

(** The loop over the 16 bytes: the masked address, the mask, and whether a bit
    was cleared. *)
Fixpoint mask6 (addr : list Z) (shift : Z) : list Z * list Z * bool :=
  match addr with
  | [] => ([], [], false)
  | a :: addr' =>
      let s := if shift >? 8 then 8 else shift in
      let m := u8 (Z.shiftl 0xff (8 - s)) in
      let '(addr', mask, done) := mask6 addr' (shift - s) in
      (Z.land a m :: addr', m :: mask, negb (a =? Z.land a m) || done)
  end.

(** [ngx_ptocidr]: the code, and the block unless it is [NGX_ERROR] *)
Definition ngx_ptocidr (text : list Z) : Z * option cidr_t :=
  let mask := ngx_strlchr text "/"%ch in
  let addr := match mask with Some i => take i text | None => text end in
  let a := ngx_inet_addr addr in
  let shift i := ngx_atoi (drop (S i) text) in
  if negb (a =? INADDR_NONE) then
    match mask with
    | None => (NGX_OK, Some (cidr_in a 0xffffffff))
    | Some i =>
        if shift i =? NGX_ERROR then (NGX_ERROR, None)
        else if shift i >? 32 then (NGX_ERROR, None)
        else
          let m := if negb (shift i =? 0) then htonl (u32 (Z.shiftl 0xffffffff (32 - shift i))) else 0 in
          if a =? Z.land a m then (NGX_OK, Some (cidr_in a m))
          else (NGX_DONE, Some (cidr_in (Z.land a m) m))
    end
  else
    match ngx_inet6_addr addr with
    | None => (NGX_ERROR, None)
    | Some a6 =>
        match mask with
        | None => (NGX_OK, Some (cidr_in6 a6 (repeat 0xff 16)))
        | Some i =>
            if shift i =? NGX_ERROR then (NGX_ERROR, None)
            else if shift i >? 128 then (NGX_ERROR, None)
            else
              let '(addr, mask, done) := mask6 a6 (shift i) in
              (if done then NGX_DONE else NGX_OK, Some (cidr_in6 addr mask))
        end
    end.

(** ** Socket addresses *)

(** [sizeof (struct sockaddr_in)] and its relatives *)
Definition sizeof_in : Z := 16.
Definition sizeof_in6 : Z := 28.
Definition sizeof_un : Z := 110.
Definition sizeof_sun_path : nat := 108.

(** [ngx_parse_addr]; [mem] tells whether [ngx_pcalloc] succeeds *)
Definition ngx_parse_addr (mem : bool) (text : list Z) : Z * option (sockaddr * Z) :=
  let inaddr := ngx_inet_addr text in
  if negb (inaddr =? INADDR_NONE) then
    if mem then (NGX_OK, Some (sockaddr_in 0 inaddr, sizeof_in)) else (NGX_ERROR, None)
  else
    match ngx_inet6_addr text with
    | Some inaddr6 =>
        if mem then (NGX_OK, Some (sockaddr_in6 0 inaddr6, sizeof_in6)) else (NGX_ERROR, None)
    | None => (NGX_DECLINED, None)
    end.

(** [sun_path] as an array of 108 bytes: what is behind the NUL is zero, as
    [ngx_pcalloc] leaves it. *)
Definition sun_array (path : list Z) : list Z :=
  take sizeof_sun_path (path ++ repeat 0 sizeof_sun_path).

Definition sa_family (sa : sockaddr) : Z :=
  match sa with sockaddr_in _ _ => 2 | sockaddr_in6 _ _ => 10 | sockaddr_un _ => 1 | sockaddr_other f => f end.

(** [ngx_cmp_sockaddr]; two addresses of another family are compared as
    [sockaddr_in], which is not modelled. *)
Definition ngx_cmp_sockaddr (sa1 sa2 : sockaddr) (cmp_port : bool) : option Z :=
  if negb (sa_family sa1 =? sa_family sa2) then Some NGX_DECLINED
  else
    match sa1, sa2 with
    | sockaddr_in6 port1 addr1, sockaddr_in6 port2 addr2 =>
        if cmp_port && negb (port1 =? port2) then Some NGX_DECLINED
        else if bool_decide (addr1 = addr2) then Some NGX_OK else Some NGX_DECLINED
    | sockaddr_un path1, sockaddr_un path2 =>
        if bool_decide (sun_array path1 = sun_array path2) then Some NGX_OK else Some NGX_DECLINED
    | sockaddr_in port1 addr1, sockaddr_in port2 addr2 =>
        if cmp_port && negb (port1 =? port2) then Some NGX_DECLINED
        else if addr1 =? addr2 then Some NGX_OK else Some NGX_DECLINED
    | _, _ => None
    end.

(** ** [ngx_parse_url] *)

(** The reasons in [u->err]. *)
Inductive url_error : Type :=
  | no_path | path_too_long | invalid_host | invalid_port | no_host | invalid_ipv6 | host_not_found.

(** [ngx_url_t].  [behind] are the bytes in memory behind the text.  [sa] is
    [u->sockaddr] once it has an address. *)
Record url_t : Type := mk_url {
  url : list Z;
  behind : list Z;
  default_port : Z;
  listen : bool;
  uri_part : bool;
  no_resolve : bool;
  host : list Z;
  port_text : list Z;
  uri : list Z;
  port : Z;
  family : Z;
  no_port : bool;
  wildcard : bool;
  socklen : Z;
  sa : option sockaddr;
  addrs : list addr_t;
  naddrs : nat;
  err : option url_error
}.

#[export] Instance eta_url : Eta url_t := fun u =>
  mk_url (url u) (behind u) (default_port u) (listen u) (uri_part u) (no_resolve u) (host u) (port_text u)
    (uri u) (port u) (family u) (no_port u) (wildcard u) (socklen u) (sa u) (addrs u) (naddrs u) (err u).

(** A zeroed [ngx_url_t] with the fields the callers set. *)
Definition url_init (text behind : list Z) (default_port : Z) (listen uri_part no_resolve : bool) : url_t :=
  mk_url text behind default_port listen uri_part no_resolve [] [] [] 0 0 false false 0 None [] 0 None.

(** [u->err = ...; return NGX_ERROR;] *)
Definition fail (e : url_error) (u : url_t) : option (Z * url_t) := Some (NGX_ERROR, u <| err := Some e |>).

Definition AF_UNIX : Z := 1.
Definition AF_INET : Z := 2.
Definition AF_INET6 : Z := 10.

(** An array of one element is allocated, then its socket address, then its name;
    [mem] allocations succeed.  A new element is zeroed. *)
Definition one_addr (mem : nat) (u : url_t) (a : sockaddr) (len : Z) (name : list Z) : Z * url_t :=
  match mem with
  | O => (NGX_ERROR, u)
  | 1%nat => (NGX_ERROR, u <| addrs := [mk_addr [] None 0] |>)
  | 2%nat => (NGX_ERROR, u <| addrs := [mk_addr [] (Some a) len] |>)
  | _ => (NGX_OK, u <| addrs := [mk_addr name (Some a) len] |>)
  end.

(** What [ngx_cpystrn] copies of a text that fits: it stops at a NUL. *)
Definition cpystrn (s : list Z) : list Z := take (default (length s) (ngx_strlchr s 0)) s.

(** [ngx_parse_unix_domain_url]; [None] when the text is shorter than [unix:]. *)
Definition parse_unix_domain_url (mem : nat) (u : url_t) : option (Z * url_t) :=
  if (length (url u) <? 5)%nat then None
  else
    let path := drop 5 (url u) in
    let '(path, u) :=
      match (if uri_part u then ngx_strlchr path ":"%ch else None) with
      | Some i => (take i path, u <| uri := drop (S i) path |>)
      | None => (path, u)
      end in
    if (length path =? 0)%nat then fail no_path u
    else
      let u := u <| host := path |> in
      if (sizeof_sun_path <? length path + 1)%nat then fail path_too_long u
      else
        let saun := sockaddr_un (cpystrn path ++ [0]) in
        let u := u <| socklen := sizeof_un |> <| sa := Some saun |> in
        match mem with
        | O => Some (NGX_ERROR, u)
        | 1%nat => Some (NGX_ERROR, u <| addrs := [mk_addr [] None 0] |>)
        | _ =>
            let u := u <| family := AF_UNIX |> <| naddrs := 1%nat |> in
            Some (NGX_OK, u <| addrs := [mk_addr (take (length path + 5) (url u)) (Some saun) sizeof_un] |>)
        end.

Section Url.
Variable room : nat.
(** [getaddrinfo]: the addresses with their lengths, or failure *)
Variable getaddrinfo : list Z -> option (list (sockaddr * Z)).

(** A loop of [ngx_inet_resolve_host] over the addresses whose family is [f], with
    [mem] allocations left: an address is allocated, then its name.  The flag
    tells whether all allocations succeeded. *)
Fixpoint resolve_addrs (mem : nat) (f port : Z) (res : list (sockaddr * Z)) (acc : list addr_t)
    : option (bool * nat * list addr_t) :=
  match res with
  | [] => Some (true, mem, acc)
  | (a, len) :: res' =>
      if negb (sa_family a =? f) then resolve_addrs mem f port res' acc
      else
        let a' := match a with
                  | sockaddr_in _ x => sockaddr_in port x
                  | sockaddr_in6 _ x => sockaddr_in6 port x
                  | _ => a
                  end in
        let room' := if f =? AF_INET then (NGX_INET_ADDRSTRLEN + 6)%nat
                     else (NGX_INET6_ADDRSTRLEN + 8)%nat in
        match mem with
        | O => Some (false, 0%nat, acc)
        | 1%nat => Some (false, 0%nat, acc ++ [mk_addr [] (Some a') len])
        | S (S mem') =>
            name ← ngx_sock_ntop room a' len room' true;
            resolve_addrs mem' f port res' (acc ++ [mk_addr name (Some a') len])
        end
  end.

(** [ngx_inet_resolve_host]; the elements that are not filled stay zeroed. *)
Definition inet_resolve_host (mem : nat) (u : url_t) : option (Z * url_t) :=
  let port := htons (port u) in
  match mem with
  | O => Some (NGX_ERROR, u)
  | S mem =>
      match getaddrinfo (cpystrn (host u)) with
      | None => fail host_not_found u
      | Some res =>
          let n := length (List.filter (fun x =>
            (sa_family x.1 =? AF_INET) || (sa_family x.1 =? AF_INET6)) res) in
          if (n =? 0)%nat then fail host_not_found u
          else
            match mem with
            | O => Some (NGX_ERROR, u)
            | S mem =>
                let u := u <| naddrs := n |> in
                let filled (acc : list addr_t) := u <| addrs := acc ++ repeat (mk_addr [] None 0) (n - length acc) |> in
                '(ok, mem, acc) ← resolve_addrs mem AF_INET port res [];
                if negb (ok : bool) then Some (NGX_ERROR, filled acc)
                else
                  '(ok, _, acc) ← resolve_addrs mem AF_INET6 port res acc;
                  Some (if (ok : bool) then NGX_OK else NGX_ERROR, filled acc)
            end
      end
  end.

Definition unspecified (a : sockaddr) : bool :=
  match a with
  | sockaddr_in _ x => x =? INADDR_ANY
  | sockaddr_in6 _ x => forallb (fun b => b =? 0) x
  | _ => false
  end.

(** [ngx_sprintf(p, "%V:%d", &u->host, u->port)] *)
Definition addr_name (u : url_t) : option (list Z) :=
  ngx_vslprintf room (bs "%V:%d") [AStr (host u); AInt (port u)].

(** [ngx_parse_inet_url] from the test of the host on; [text] is what is left of
    the URL. *)
Definition inet_url_host (mem : nat) (u : url_t) (text : list Z) : option (Z * url_t) :=
  if (length text =? 0)%nat then fail no_host u
  else
    let u := u <| host := text |> in
    let p := htons (port u) in
    if listen u && bool_decide (text = bs "*") then
      Some (NGX_OK, u <| sa := Some (sockaddr_in p INADDR_ANY) |> <| wildcard := true |>)
    else
      let a := ngx_inet_addr text in
      let u := u <| sa := Some (sockaddr_in p a) |> in
      if negb (a =? INADDR_NONE) then
        let u := if a =? INADDR_ANY then u <| wildcard := true |> else u in
        name ← addr_name u;
        Some (one_addr mem (u <| naddrs := 1%nat |>) (sockaddr_in p a) sizeof_in name)
      else if no_resolve u then Some (NGX_OK, u)
      else
        '(rc, u) ← inet_resolve_host mem u;
        if negb (rc =? NGX_OK) then Some (NGX_ERROR, u)
        else
          a ← addrs u !! 0%nat; s ← a_sockaddr a;
          let u := u <| family := sa_family s |> <| socklen := a_socklen a |> <| sa := Some s |> in
          Some (NGX_OK, if unspecified s then u <| wildcard := true |> else u).

(** [u->port = (in_port_t) n; ...] or [invalid port] *)
Definition with_port (u : url_t) (text : list Z) (k : url_t -> option (Z * url_t)) : option (Z * url_t) :=
  let n := ngx_atoi text in
  if (n <? 1) || (n >? 65535) then fail invalid_port u
  else k (u <| port := n |> <| port_text := text |>).

(** [ngx_parse_inet_url] *)
Definition parse_inet_url (mem : nat) (u : url_t) : option (Z * url_t) :=
  let u := u <| socklen := sizeof_in |> <| family := AF_INET |> in
  let text := url u in
  let prt := ngx_strlchr text ":"%ch in
  let ur := match ngx_strlchr text "?"%ch, ngx_strlchr text "/"%ch with
            | Some a, Some i => Some (if (a <? i)%nat then a else i)
            | Some a, None => Some a
            | None, i => i
            end in
  let k (u : url_t) (prt : option nat) (text : list Z) :=
    match prt with
    | Some i => with_port u (drop (S i) text) (fun u => inet_url_host mem u (take i text))
    | None =>
        let other := inet_url_host mem (u <| no_port := true |> <| port := default_port u |>) text in
        if bool_decide (ur = None) && listen u then
          if negb (ngx_atoi text =? NGX_ERROR) then
            with_port u text (fun u => Some (NGX_OK, u <| sa := Some (sockaddr_in (htons (port u)) 0) |>
                                                       <| wildcard := true |>))
          else other
        else other
    end in
  match ur with
  | Some i =>
      if listen u || negb (uri_part u) then fail invalid_host u
      else
        k (u <| uri := drop i text |>)
          (match prt with Some j => if (i <? j)%nat then None else prt | None => None end) (take i text)
  | None => k u prt text
  end.

(** [ngx_parse_inet6_url] behind the port *)
Definition inet6_url_host (mem : nat) (u : url_t) (text : list Z) : option (Z * url_t) :=
  if (length text =? 0)%nat then fail no_host u
  else
    let u := u <| host := "["%ch :: text ++ bs "]" |> in
    match ngx_inet6_addr text with
    | None => fail invalid_ipv6 u
    | Some a =>
        let s := sockaddr_in6 (htons (port u)) a in
        let u := u <| sa := Some s |> <| family := AF_INET6 |> <| naddrs := 1%nat |> in
        let u := if unspecified s then u <| wildcard := true |> else u in
        name ← addr_name u;
        Some (one_addr mem u s sizeof_in6 name)
    end.

(** [ngx_parse_inet6_url]; [text] is behind the opening bracket.  Behind the closing
    one a byte is read even at the end of the text; when it is a colon there, the
    length of the port is negative. *)
Definition parse_inet6_url (mem : nat) (u : url_t) : option (Z * url_t) :=
  let u := u <| socklen := sizeof_in6 |> in
  let text := drop 1 (url u) in
  match ngx_strlchr text "]"%ch with
  | None => fail invalid_host u
  | Some p =>
      let rest := drop (S p) text in
      let ur := ngx_strlchr rest "/"%ch in
      let k (u : url_t) (rest behind : list Z) :=
        c ← (rest ++ behind) !! 0%nat;
        if (c =? ":"%ch) && (length rest =? 0)%nat then None
        else if c =? ":"%ch then with_port u (drop 1 rest) (fun u => inet6_url_host mem u (take p text))
        else inet6_url_host mem (u <| no_port := true |> <| port := default_port u |>) (take p text) in
      match ur with
      | Some i =>
          if listen u || negb (uri_part u) then fail invalid_host u
          else k (u <| uri := drop i rest |>) (take i rest) (drop i rest)
      | None => k u rest (behind u)
      end
  end.

Definition ngx_parse_url (mem : nat) (u : url_t) : option (Z * url_t) :=
  let p := url u ++ behind u in
  if ngx_strncasecmp p (bs "unix:") 5 =? 0 then parse_unix_domain_url mem u
  else
    c ← p !! 0%nat;
    if c =? "["%ch then parse_inet6_url mem u else parse_inet_url mem u.
End Url.

(** ** IPv4 addresses *)

Definition dotted (a b c d : Z) : list Z :=
  num_digits 0 a ++ bs "." ++ num_digits 0 b ++ bs "." ++ num_digits 0 c ++ bs "." ++ num_digits 0 d.

Lemma inet_addr_digits ds text addr octet n :
  digits ds ->
  inet_addr_loop (ds ++ text) addr octet n =
  inet_addr_loop text addr (foldl (fun o c => u64 (o * 10 + (c - "0"%ch))) octet ds) n.
Proof.
  intros H. revert octet. induction H as [|c ds Hc Hd IH]; intros octet; [done|].
  cbn [app inet_addr_loop foldl]. rewrite Hc. apply IH.
Qed.

(** The printed form of a byte, by cases. *)
Definition byte_text_ok (a : Z) : bool :=
  let ds := num_digits 0 a in
  forallb is_digit ds && (foldl (fun o c => u64 (o * 10 + (c - "0"%ch))) 0 ds =? a) &&
  (length ds <=? 3)%nat && (1 <=? length ds)%nat.

Lemma byte_text a :
  is_byte a -> digits (num_digits 0 a) /\
    foldl (fun o c => u64 (o * 10 + (c - "0"%ch))) 0 (num_digits 0 a) = a /\
    (1 <= length (num_digits 0 a) <= 3)%nat.
Proof.
  intros Ha. assert (byte_text_ok a = true) as H.
  { apply (byte_forall byte_text_ok); [vm_compute; reflexivity|done]. }
  unfold byte_text_ok in H. rewrite !andb_true_iff, forallb_forall, Z.eqb_eq, !Nat.leb_le in H.
  destruct H as (((H1 & H2) & H3) & H4). split; [|done]. apply Forall_forall. auto.
Qed.

Lemma inet_addr_octet a text addr n :
  is_byte a -> inet_addr_loop (num_digits 0 a ++ text) addr 0 n = inet_addr_loop text addr a n.
Proof. intros Ha. destruct (byte_text a Ha) as (H1 & H2 & _). by rewrite inet_addr_digits, H2. Qed.

Lemma inet_addr_dot text addr octet n :
  0 <= octet < 256 ->
  inet_addr_loop (bs "." ++ text) addr octet n = inet_addr_loop text (u32 (Z.shiftl addr 8 + octet)) 0 (u64 (n + 1)).
Proof.
  intros Ho. change (bs "." ++ text) with ("."%ch :: text). cbn [inet_addr_loop].
  change (is_digit "."%ch) with false. change ("."%ch =? "."%ch) with true.
  by rewrite (proj2 (Z.ltb_lt octet 256)) by lia.
Qed.

(** The 32 bits of four bytes in host order. *)
Definition be4 (a b c d : Z) : Z := ((a * 256 + b) * 256 + c) * 256 + d.

Lemma inet_addr_dotted a b c d :
  is_byte a -> is_byte b -> is_byte c -> is_byte d ->
  ngx_inet_addr (dotted a b c d) = htonl (be4 a b c d).
Proof.
  unfold is_byte. intros Ha Hb Hc Hd. unfold ngx_inet_addr, dotted.
  rewrite inet_addr_octet, inet_addr_dot, inet_addr_octet, inet_addr_dot, inet_addr_octet, inet_addr_dot by done.
  rewrite <- (app_nil_r (num_digits 0 d)), inet_addr_octet by done. cbn [inet_addr_loop].
  change (u64 (u64 (u64 (0 + 1) + 1) + 1) =? 3) with true. rewrite (proj2 (Z.ltb_lt d 256)) by lia.
  cbn [andb]. unfold be4. f_equal. rewrite !Z.shiftl_mul_pow2 by lia. change (2 ^ 8) with 256.
  unfold u32. rewrite (wrap_u_small 32 (0 * 256 + a)) by lia.
  rewrite (wrap_u_small 32 ((0 * 256 + a) * 256 + b)) by lia.
  rewrite (wrap_u_small 32 (((0 * 256 + a) * 256 + b) * 256 + c)) by lia. rewrite wrap_u_small; lia.
Qed.

Lemma le_bytes_4 x : 0 <= x -> le_bytes 4 x = [x mod 256; x / 256 mod 256; x / 65536 mod 256; x / 16777216 mod 256].
Proof.
  intros Hx. cbn [le_bytes]. rewrite !Z.shiftr_shiftr by lia. cbn [Z.add Pos.add Pos.succ].
  change 255 with (Z.ones 8). rewrite !Z.land_ones, !Z.shiftr_div_pow2 by lia. done.
Qed.

Lemma le_value_4 a b c d : le_value [a; b; c; d] = a + 256 * (b + 256 * (c + 256 * d)).
Proof. cbn [le_value]. rewrite !Z.shiftl_mul_pow2 by lia. change (2 ^ 8) with 256. lia. Qed.

Lemma htonl_be4 a b c d :
  is_byte a -> is_byte b -> is_byte c -> is_byte d ->
  htonl (be4 a b c d) = be4 d c b a /\ le_bytes 4 (htonl (be4 a b c d)) = [a; b; c; d].
Proof.
  unfold is_byte. intros Ha Hb Hc Hd.
  assert (forall a b c d, 0 <= a < 256 -> 0 <= b < 256 -> 0 <= c < 256 -> 0 <= d < 256 ->
    le_bytes 4 (be4 a b c d) = [d; c; b; a]) as Hle.
  { clear. intros a b c d Ha Hb Hc Hd. unfold be4. rewrite le_bytes_4 by lia.
    repeat f_equal; Z.to_euclidean_division_equations; lia. }
  assert (htonl (be4 a b c d) = be4 d c b a) as E.
  { unfold htonl. rewrite Hle by lia. cbn [rev app]. rewrite le_value_4. unfold be4. lia. }
  split; [done|]. rewrite E. by apply Hle.
Qed.

(** ** IPv6 addresses *)

(** The value of a hexadecimal digit, as the parser computes it. *)
Definition nibble (c : Z) : option Z :=
  if (c =? ":"%ch) || (c =? "."%ch) then None
  else if is_digit c then Some (c - "0"%ch)
  else if in_range "a"%ch "f"%ch (Z.lor c 32) then Some (Z.lor c 32 - "a"%ch + 10)
  else None.

Definition nibbles_value (ds : list Z) (w : Z) : option Z :=
  foldl (fun w c => w ← w; v ← nibble c; Some (u64 (w * 16 + v))) (Some w) ds.

Lemma nibbles_value_cons c ds w v w' :
  nibble c = Some v -> nibbles_value (c :: ds) w = Some w' -> nibbles_value ds (u64 (w * 16 + v)) = Some w'.
Proof. intros Hc. unfold nibbles_value. cbn [foldl mbind option_bind]. by rewrite Hc. Qed.

Lemma nibbles_value_none ds : foldl (fun w c => w ← w; v ← nibble c; Some (u64 (w * 16 + v))) None ds = None.
Proof. by induction ds. Qed.

Lemma inet6_addr_nibbles ds p out zero digit nib w k w' :
  nibbles_value ds w = Some w' -> 0 <= nib -> nib + Z.of_nat (length ds) <= 4 ->
  inet6_addr_loop (ds ++ p) (mk_inet6 out zero digit nib w k) =
  inet6_addr_loop p (mk_inet6 out zero digit (nib + Z.of_nat (length ds)) w' k).
Proof.
  revert nib w. induction ds as [|c ds IH]; intros nib w Hv Hn Hl.
  { injection Hv as <-. by rewrite Z.add_0_r. }
  cbn [length] in Hl. destruct (nibble c) as [v|] eqn:Ec; cycle 1.
  { exfalso. unfold nibbles_value in Hv. cbn [foldl mbind option_bind] in Hv. rewrite Ec in Hv.
    cbn [mbind option_bind] in Hv. by rewrite nibbles_value_none in Hv. }
  pose proof (nibbles_value_cons _ _ _ _ _ Ec Hv) as Hv'.
  cbn [app inet6_addr_loop nibbles]. unfold nibble in Ec.
  destruct ((c =? ":"%ch) || (c =? "."%ch)) eqn:E1; [done|]. apply orb_false_iff in E1 as [-> ->].
  rewrite (proj2 (Z.gtb_ltb _ _)) || replace (nib + 1 >? 4) with false by lia. cbn [andb].
  destruct (is_digit c); [|destruct (in_range "a"%ch "f"%ch (Z.lor c 32)); [|done]];
    injection Ec as <-; rewrite ?Z.add_assoc in Hv'; cbn [length];
    (etransitivity; [|rewrite Nat2Z.inj_succ, <- Z.add_1_l, Z.add_assoc; apply IH; [exact Hv'|lia|lia]]);
    reflexivity.
Qed.

(** The text of a word. *)
Definition hexword (w : Z * Z) : list Z := num_digits 1 (w.1 * 256 + w.2).

Definition word_bytes (w : Z * Z) : list Z := [w.1; w.2].
Definition is_word (w : Z * Z) : Prop := is_byte w.1 /\ is_byte w.2.

Definition hexword_ok (a b : Z) : bool :=
  let ds := hexword (a, b) in
  bool_decide (nibbles_value ds 0 = Some (a * 256 + b)) && (length ds <=? 4)%nat && (1 <=? length ds)%nat.

Lemma hexword_text w :
  is_word w -> nibbles_value (hexword w) 0 = Some (w.1 * 256 + w.2) /\ (1 <= length (hexword w) <= 4)%nat.
Proof.
  intros [Ha Hb]. destruct w as [a b]. cbn [fst snd] in *. assert (hexword_ok a b = true) as H.
  { apply (byte_forall (hexword_ok a)); [|done].
    apply (byte_forall (fun a => forallb (hexword_ok a) all_bytes)); [vm_compute; reflexivity|done]. }
  unfold hexword_ok in H. rewrite !andb_true_iff, bool_decide_eq_true, !Nat.leb_le in H. tauto.
Qed.

(** Words, each followed by a colon. *)
Definition colon_words (ws : list (Z * Z)) : list Z := concat ((fun w => hexword w ++ bs ":") <$> ws).

Lemma put_word_bytes a b out zero digit nib k :
  is_byte a -> is_byte b ->
  put_word (mk_inet6 out zero digit nib (a * 256 + b) k) = mk_inet6 (out ++ [a; b]) zero digit nib (a * 256 + b) k.
Proof.
  unfold is_byte. intros Ha Hb. unfold put_word. cbn. do 2 f_equal. f_equal; [|f_equal].
  - rewrite Z.shiftr_div_pow2 by lia. unfold u8. rewrite wrap_u_small; Z.to_euclidean_division_equations; lia.
  - change 255 with (Z.ones 8). rewrite Z.land_ones by lia. Z.to_euclidean_division_equations; lia.
Qed.

Lemma inet6_addr_colon_words ws p out zero digit k :
  Forall is_word ws -> Z.of_nat (length ws) < k -> k <= 8 ->
  inet6_addr_loop (colon_words ws ++ p) (mk_inet6 out zero digit 0 0 k) =
  inet6_addr_loop p (mk_inet6 (out ++ concat (word_bytes <$> ws)) zero
    (if (length ws =? 0)%nat then digit else Some p) 0 0 (k - Z.of_nat (length ws))).
Proof.
  revert out digit k. induction ws as [|w ws IH]; intros out digit k Hw Hk Hk8.
  { cbn. by rewrite app_nil_r, Z.sub_0_r. }
  apply Forall_cons_1 in Hw as [Hw Hws]. destruct (hexword_text w Hw) as [Hv Hl]. cbn [length] in Hk.
  change (colon_words (w :: ws)) with ((hexword w ++ bs ":") ++ colon_words ws).
  rewrite <- !app_assoc, (inet6_addr_nibbles _ _ _ _ _ _ _ _ _ Hv) by lia.
  change (bs ":" ++ ?x) with (":"%ch :: x). cbn [inet6_addr_loop]. change (":"%ch =? ":"%ch) with true. cbv iota.
  cbn [nibbles]. rewrite (proj2 (Z.eqb_neq _ _)) by lia. cbn [negb].
  destruct Hw as [Ha Hb]. rewrite put_word_bytes by done. cbn [words_left update eta_inet6].
  rewrite u64_small by lia. cbn. rewrite (proj2 (Z.eqb_neq _ _)) by lia.
  rewrite IH by (done || lia). f_equal. f_equal; [by rewrite <- app_assoc|by destruct ws|lia].
Qed.

(** *** The longest run of zeros *)

Abbreviation words_of ws := (concat (word_bytes <$> ws)).

Lemma length_words ws : length (words_of ws) = (2 * length ws)%nat.
Proof. induction ws as [|w ws IH]; [done|]. cbn. rewrite IH. lia. Qed.

(** [m] zero words from word [z] on. *)
Definition zeros_at (W : list (Z * Z)) (z m : nat) : Prop :=
  (z + m <= length W)%nat /\ take m (drop z W) = repeat (0, 0) m.

Definition found (W : list (Z * Z)) (zero : option nat) (max : nat) : Prop :=
  match zero with
  | None => True
  | Some i => exists z, i = (2 * z)%nat /\ (2 <= max)%nat /\ zeros_at W z max
  end.

Definition current (W : list (Z * Z)) (k : nat) (last : option nat) (n : nat) : Prop :=
  n = 0%nat \/ exists l, last = Some (2 * l)%nat /\ (l + n = k)%nat /\ zeros_at W l n.

Lemma run_end_found W k zero last max n :
  found W zero max -> current W k last n -> (1 <= max)%nat ->
  let '(zero', max') := run_end zero last max n in found W zero' max' /\ (1 <= max')%nat.
Proof.
  intros Hf Hc Hm. unfold run_end. destruct (Nat.ltb_spec max n) as [Hlt|]; [|done].
  split; [|lia]. destruct Hc as [->|(l & -> & Hl & Hz)]; [lia|]. exists l. split; [done|]. split; [lia|done].
Qed.

Lemma zero_run_found W pre ws zero last max n :
  W = pre ++ ws -> found W zero max -> current W (length pre) last n -> (1 <= max)%nat ->
  let '(zero', max') := zero_run (2 * length pre) (words_of ws) zero last max n in found W zero' max'.
Proof.
  revert pre zero last max n. induction ws as [|[a b] ws IH]; intros pre zero last max n HW Hf Hc Hm.
  { cbn [fmap list_fmap concat zero_run]. pose proof (run_end_found W _ zero last max n Hf Hc Hm) as H.
    destruct (run_end zero last max n). tauto. }
  cbn [fmap list_fmap concat word_bytes fst snd app zero_run].
  assert (W = (pre ++ [(a, b)]) ++ ws) as HW' by (by rewrite <- app_assoc).
  assert (2 * length pre + 2 = 2 * length (pre ++ [(a, b)]))%nat as -> by (rewrite length_app; cbn; lia).
  destruct (negb (a =? 0) || negb (b =? 0)) eqn:E.
  - pose proof (run_end_found W _ zero last max n Hf Hc Hm) as H.
    destruct (run_end zero last max n) as [zero' max']. destruct H as [Hf' Hm'].
    apply IH; [done|done|by left|done].
  - apply orb_false_iff in E as [->%negb_false_iff%Z.eqb_eq ->%negb_false_iff%Z.eqb_eq].
    apply IH; [done|done| |done]. right. rewrite length_app. cbn [length].
    assert (drop (length pre) W = (0, 0) :: ws) as Hd by (by rewrite HW, drop_app_length).
    destruct Hc as [->|(l & -> & Hl & Hz & Ht)].
    + exists (length pre). cbn [Nat.eqb]. split; [done|]. split; [lia|]. split.
      * rewrite HW', !length_app. cbn. lia.
      * by rewrite Hd.
    + exists l. destruct (Nat.eqb_spec n 0) as [->|Hn].
      { split; [f_equal; f_equal; lia|]. split; [lia|]. replace l with (length pre) by lia. split.
        - rewrite HW', !length_app. cbn. lia.
        - by rewrite Hd. }
      split; [done|]. split; [lia|]. split.
      * rewrite HW', !length_app. cbn. lia.
      * rewrite <- (take_take_drop _ n 1), Ht, drop_drop, Hl, Hd. by rewrite repeat_app.
Qed.

(** *** Printing *)

(** The text of words from word [k] on: all but the eighth have a colon behind. *)
Fixpoint tail_words (k : nat) (ws : list (Z * Z)) : list Z :=
  match ws with
  | [] => []
  | w :: ws' => hexword w ++ (if (k <? 7)%nat then bs ":" else []) ++ tail_words (S k) ws'
  end.

Lemma tail_words_colon k ws : (k + length ws <= 7)%nat -> tail_words k ws = colon_words ws.
Proof.
  revert k. induction ws as [|w ws IH]; intros k Hk; [done|]. cbn [length] in Hk.
  cbn [tail_words]. change (colon_words (w :: ws)) with ((hexword w ++ bs ":") ++ colon_words ws).
  rewrite (proj2 (Nat.ltb_lt k 7)), IH by lia. by rewrite <- app_assoc.
Qed.

Lemma tail_words_app k ws ws' : tail_words k (ws ++ ws') = tail_words k ws ++ tail_words (k + length ws) ws'.
Proof.
  revert k. induction ws as [|w ws IH]; intros k; cbn [app tail_words length].
  - by rewrite Nat.add_0_r.
  - rewrite IH, <- !app_assoc. by replace (k + S (length ws))%nat with (S k + length ws)%nat by lia.
Qed.

Lemma tail_words_last k ws w :
  (k + length ws = 7)%nat -> tail_words k (ws ++ [w]) = colon_words ws ++ hexword w.
Proof.
  intros Hk. rewrite tail_words_app, tail_words_colon, Hk by lia. cbn [tail_words].
  change (7 <? 7)%nat with false. by rewrite app_nil_r.
Qed.

Section Ntop.
Variables (room : nat) (W : list (Z * Z)).
Hypotheses (Hroom : (15 <= room)%nat) (HW : Forall is_word W) (H8 : length W = 8%nat).

Lemma print_word a b : is_word (a, b) -> ngx_vslprintf room (bs "%uxi") [AInt (a * 256 + b)] = Some (hexword (a, b)).
Proof.
  intros Hw. pose proof (hexword_text _ Hw) as [_ Hl]. destruct Hw as [Ha Hb]. unfold is_byte in *.
  cbn [fst snd] in *. apply (emits_run _ 3); [|lia].
  rewrite <- (app_nil_r (hexword (a, b))). eapply emits_app; [|apply emits_end].
  apply (emits_uxi 4 []). lia.
Qed.

Lemma word_lookup k : (k < 8)%nat ->
  exists a b, W !! k = Some (a, b) /\ is_word (a, b) /\
    words_of W !! (2 * k)%nat = Some a /\ words_of W !! (2 * k + 1)%nat = Some b.
Proof.
  intros Hk. rewrite <- H8 in Hk. apply lookup_lt_is_Some_2 in Hk as [[a b] E]. exists a, b.
  split; [done|]. split; [by eapply Forall_lookup_1 in HW|].
  revert k E. clear HW H8. induction W as [|[c d] W' IH]; intros [|k] E; [done..| |].
  - by injection E as -> ->.
  - cbn in E. destruct (IH k E) as [<- <-].
    replace (2 * S k)%nat with (S (S (2 * k))) by lia. done.
Qed.

(** Where no run of zeros is left to be printed. *)
Lemma inet6_words_plain fuel k N zero max :
  (N <= 8)%nat -> (N - k <= fuel)%nat -> (forall j, (k <= j)%nat -> zero <> Some (2 * j)%nat) ->
  inet6_words room fuel (2 * k) (2 * N) (words_of W) zero max = Some (tail_words k (take (N - k) (drop k W))).
Proof.
  intros HN. revert k. induction fuel as [|fuel IH]; intros k Hf Hz.
  { cbn [inet6_words]. by replace (N - k)%nat with 0%nat by lia. }
  cbn [inet6_words]. destruct (Nat.leb_spec (2 * N) (2 * k)) as [Hle|Hlt].
  { by replace (N - k)%nat with 0%nat by lia. }
  rewrite bool_decide_eq_false_2 by (apply Hz; lia).
  destruct (word_lookup k ltac:(lia)) as (a & b & E & Hw & -> & ->). cbn [mbind option_bind].
  rewrite print_word by done. cbn [mbind option_bind].
  replace (2 * k + 2)%nat with (2 * S k)%nat by lia. rewrite IH by (lia || (intros; apply Hz; lia)).
  cbn [mbind option_bind]. rewrite (drop_S W _ k E). replace (N - k)%nat with (S (N - S k)) by lia.
  cbn [take tail_words]. f_equal. f_equal. f_equal.
  destruct (Nat.ltb_spec (2 * k) 14), (Nat.ltb_spec k 7); done || lia.
Qed.

(** Words, the run of zeros, and words again. *)
Lemma inet6_words_zeros fuel k N z max :
  (N <= 8)%nat -> (N - k <= fuel)%nat -> (k <= z < N)%nat -> (1 <= max)%nat ->
  inet6_words room fuel (2 * k) (2 * N) (words_of W) (Some (2 * z)%nat) max =
  Some (tail_words k (take (z - k) (drop k W)) ++ bs ":" ++
        tail_words (z + max) (take (N - (z + max)) (drop (z + max) W))).
Proof.
  intros HN. revert k. induction fuel as [|fuel IH]; intros k Hf Hz Hm; [lia|].
  cbn [inet6_words]. rewrite (proj2 (Nat.leb_gt (2 * N) (2 * k))) by lia.
  destruct (decide (k = z)) as [->|Hne].
  - rewrite bool_decide_eq_true_2 by done.
    replace (2 * z + (max - 1) * 2 + 2)%nat with (2 * (z + max))%nat by lia.
    rewrite inet6_words_plain; [|lia|lia|intros j Hj [=]; lia]. rewrite Nat.sub_diag. done.
  - rewrite bool_decide_eq_false_2 by (intros [=]; lia).
    destruct (word_lookup k ltac:(lia)) as (a & b & E & Hw & -> & ->). cbn [mbind option_bind].
    rewrite print_word by done. cbn [mbind option_bind].
    replace (2 * k + 2)%nat with (2 * S k)%nat by lia. rewrite IH by lia.
    cbn [mbind option_bind]. rewrite (drop_S W _ k E). replace (z - k)%nat with (S (z - S k)) by lia.
    cbn [take tail_words]. f_equal. rewrite <- !app_assoc. f_equal. f_equal.
    destruct (Nat.ltb_spec (2 * k) 14), (Nat.ltb_spec k 7); done || lia.
Qed.
End Ntop.

(** *** Reading what was printed *)

Lemma hexword_first w : is_word w -> exists c r, hexword w = c :: r /\ c <> ":"%ch.
Proof.
  intros Hw. destruct (hexword_text w Hw) as [Hv Hl]. destruct (hexword w) as [|c r]; [cbn in Hl; lia|].
  exists c, r. split; [done|]. intros ->. unfold nibbles_value in Hv. cbn in Hv.
  by rewrite nibbles_value_none in Hv.
Qed.

Lemma inet6_addr_end_word out zero digit nib a b k :
  is_byte a -> is_byte b -> 0 < nib -> 1 <= k <= 8 ->
  inet6_addr_end (mk_inet6 out zero digit nib (a * 256 + b) k) =
  match zero with
  | Some z => if k =? 1 then None else
      Some (take z (out ++ [a; b]) ++ repeat 0 (Z.to_nat ((k - 1) * 2)) ++ drop z (out ++ [a; b]))
  | None => if k =? 1 then Some (out ++ [a; b]) else None
  end.
Proof.
  intros Ha Hb Hn Hk. unfold inet6_addr_end. cbn [nibbles zero6]. rewrite (proj2 (Z.eqb_neq nib 0)) by lia.
  cbn [andb]. rewrite put_word_bytes by done. cbn [words_left zero6 out6]. rewrite u64_small by lia.
  replace (k - 1 =? 0) with (k =? 1) by lia. by destruct zero, (k =? 1).
Qed.

Lemma inet6_read_plain ws w :
  Forall is_word ws -> is_word w -> length ws = 7%nat ->
  ngx_inet6_addr (colon_words ws ++ hexword w) = Some (words_of (ws ++ [w])).
Proof.
  intros Hws Hw Hl.
  assert (exists c r, colon_words ws ++ hexword w = c :: r /\ c <> ":"%ch) as (c & r & E & Hc).
  { destruct ws as [|w0 ws]; [done|]. apply Forall_cons_1 in Hws as [Hw0 _].
    destruct (hexword_first w0 Hw0) as (c & r & E & Hc).
    change (colon_words (w0 :: ws)) with ((hexword w0 ++ bs ":") ++ colon_words ws). rewrite E. by do 2 eexists. }
  unfold ngx_inet6_addr. rewrite E. rewrite (proj2 (Z.eqb_neq _ _) Hc), <- E.
  rewrite inet6_addr_colon_words by (done || lia). rewrite Hl.
  destruct (hexword_text w Hw) as [Hv Hn]. rewrite <- (app_nil_r (hexword w)).
  rewrite (inet6_addr_nibbles _ _ _ _ _ _ _ _ _ Hv) by lia. cbn [inet6_addr_loop mbind option_bind].
  destruct Hw as [Ha Hb]. rewrite inet6_addr_end_word by (done || lia).
  rewrite fmap_app, concat_app. cbn [fmap list_fmap concat]. done.
Qed.

(** Behind the words [A] and the double colon. *)
Definition behind_zero (A : list (Z * Z)) (tail : list Z) : inet6_t :=
  mk_inet6 (words_of A) (Some (length (words_of A))) (Some tail) 0 0 (8 - Z.of_nat (length A)).

Lemma inet6_read_zero A tail :
  Forall is_word A -> (length A <= 6)%nat ->
  ngx_inet6_addr ((if (length A =? 0)%nat then bs ":" else []) ++ colon_words A ++ bs ":" ++ tail) =
  inet6_addr_loop tail (behind_zero A tail) ≫= inet6_addr_end.
Proof.
  intros HA Hl. destruct A as [|w A]; [done|].
  change ((if (length (w :: A) =? 0)%nat then bs ":" else []) ++ ?x) with x.
  assert (exists c r, colon_words (w :: A) ++ bs ":" ++ tail = c :: r /\ c <> ":"%ch) as (c & r & E & Hc).
  { apply Forall_cons_1 in HA as [Hw _]. destruct (hexword_first w Hw) as (c & r & E & Hc).
    change (colon_words (w :: A)) with ((hexword w ++ bs ":") ++ colon_words A). rewrite E. by do 2 eexists. }
  unfold ngx_inet6_addr. rewrite E. rewrite (proj2 (Z.eqb_neq _ _) Hc), <- E.
  rewrite inet6_addr_colon_words by (done || lia). done.
Qed.

Lemma take_drop_words A (l : list Z) n :
  take (length (words_of A)) (words_of A ++ l) ++ repeat 0 n ++ drop (length (words_of A)) (words_of A ++ l) =
  words_of A ++ repeat 0 n ++ l.
Proof. by rewrite take_app_length, drop_app_length. Qed.

(** The address ends in zeros. *)
Lemma inet6_read_zero_end A :
  (length A <= 6)%nat ->
  inet6_addr_loop [] (behind_zero A []) ≫= inet6_addr_end =
  Some (words_of A ++ repeat 0 (Z.to_nat ((7 - Z.of_nat (length A)) * 2)) ++ [0; 0]).
Proof.
  intros Hl. cbn [inet6_addr_loop mbind option_bind]. unfold inet6_addr_end, behind_zero. cbn [nibbles zero6].
  rewrite bool_decide_eq_false_2 by done. rewrite andb_false_r.
  assert (forall out zero digit k, put_word (mk_inet6 out zero digit 0 0 k) =
    mk_inet6 (out ++ [0; 0]) zero digit 0 0 k) as -> by done. cbn [words_left zero6 out6].
  rewrite u64_small by lia. rewrite (proj2 (Z.eqb_neq _ _)) by lia. cbn [negb].
  rewrite take_drop_words. do 4 f_equal. lia.
Qed.

(** Words behind the zeros. *)
Lemma inet6_read_zero_words A B w :
  Forall is_word B -> is_word w -> (length A + length B <= 5)%nat ->
  let tail := colon_words B ++ hexword w in
  inet6_addr_loop tail (behind_zero A tail) ≫= inet6_addr_end =
  Some (words_of A ++ repeat 0 (Z.to_nat ((7 - Z.of_nat (length A + length B)) * 2)) ++ words_of (B ++ [w])).
Proof.
  intros HB Hw Hl tail. unfold behind_zero, tail. rewrite inet6_addr_colon_words by (done || lia).
  destruct (hexword_text w Hw) as [Hv Hn]. rewrite <- (app_nil_r (hexword w)) at 1.
  rewrite (inet6_addr_nibbles _ _ _ _ _ _ _ _ _ Hv) by lia. cbn [inet6_addr_loop mbind option_bind].
  destruct Hw as [Ha Hb]. rewrite inet6_addr_end_word by (done || lia).
  rewrite (proj2 (Z.eqb_neq _ _)) by lia. rewrite <- app_assoc, take_drop_words.
  rewrite fmap_app, concat_app. cbn [fmap list_fmap concat]. do 4 f_equal. lia.
Qed.

(** A dotted IPv4 address at the end. *)
Lemma byte_nibbles a : is_byte a -> is_Some (nibbles_value (num_digits 0 a) 0).
Proof.
  intros Ha. assert (match nibbles_value (num_digits 0 a) 0 with Some _ => true | None => false end = true) as H.
  { apply (byte_forall (fun a => match nibbles_value (num_digits 0 a) 0 with Some _ => true | None => false end));
      [vm_compute; reflexivity|done]. }
  by destruct (nibbles_value (num_digits 0 a) 0).
Qed.

Lemma inet6_read_dotted A B a b c d :
  Forall is_word B -> is_byte a -> is_byte b -> is_byte c -> is_byte d ->
  (length A + length B <= 5)%nat -> [a; b; c; d] <> [255; 255; 255; 255] ->
  let tail := colon_words B ++ dotted a b c d in
  inet6_addr_loop tail (behind_zero A tail) ≫= inet6_addr_end =
  Some (words_of A ++ repeat 0 (Z.to_nat ((6 - Z.of_nat (length A + length B)) * 2)) ++ words_of B ++ [a; b; c; d]).
Proof.
  intros HB Ha Hb Hc Hd Hl Hne tail. unfold behind_zero, tail. rewrite inet6_addr_colon_words by (done || lia).
  replace (if (length B =? 0)%nat then _ else _) with (Some (dotted a b c d)) by (by destruct B).
  destruct (byte_text a Ha) as (_ & _ & Hn). destruct (byte_nibbles a Ha) as [w Hw].
  set (D := Some (dotted a b c d)). unfold dotted.
  rewrite (inet6_addr_nibbles _ _ _ _ _ _ _ _ _ Hw) by lia.
  change (bs "." ++ ?x) with ("."%ch :: x) at 1. cbn [inet6_addr_loop nibbles digit6].
  change ("."%ch =? ":"%ch) with false. change ("."%ch =? "."%ch) with true. cbv iota.
  rewrite (proj2 (Z.eqb_neq _ 0)) by lia. cbn [negb andb]. unfold D at 1. cbv iota. cbn [words_left].
  rewrite (proj2 (Z.ltb_ge _ 2)) by lia. rewrite inet_addr_dotted by done.
  destruct (htonl_be4 a b c d Ha Hb Hc Hd) as [E1 E2]. destruct (htonl_be4 d c b a Hd Hc Hb Ha) as [E3 _].
  unfold is_byte in *. rewrite E1. unfold ntohl. rewrite E3.
  rewrite (proj2 (Z.eqb_neq (be4 d c b a) INADDR_NONE)); cycle 1.
  { unfold be4. change INADDR_NONE with 4294967295. intros H. apply Hne.
    assert (a = 255 /\ b = 255 /\ c = 255 /\ d = 255) as (-> & -> & -> & ->) by lia. done. }
  assert (Z.land (Z.shiftr (be4 a b c d) 24) 255 = a /\ Z.land (Z.shiftr (be4 a b c d) 16) 255 = b /\
    u8 (Z.shiftr (be4 a b c d) 8) = c /\ Z.land (be4 a b c d) 255 = d) as (H1 & H2 & H3 & H4).
  { change 255 with (Z.ones 8). rewrite !Z.land_ones, !Z.shiftr_div_pow2 by lia. unfold be4, u8, wrap_u.
    repeat split; Z.to_euclidean_division_equations; lia. }
  cbn [mbind option_bind]. unfold inet6_addr_end, put_word. cbn.
  rewrite (proj2 (Z.eqb_neq _ 0)) by lia. cbn [andb]. rewrite H1, H2, H3, H4.
  rewrite (u64_small (8 - Z.of_nat (length A) - Z.of_nat (length B) - 1)) by lia. rewrite u64_small by lia.
  rewrite (proj2 (Z.eqb_neq _ _)) by lia. cbn [negb]. rewrite <- !app_assoc, take_drop_words. cbn [app].
  do 4 f_equal. lia.
Qed.

(** *** Round trip *)

Lemma print_dotted room a b c d :
  is_byte a -> is_byte b -> is_byte c -> is_byte d -> (length (dotted a b c d) <= room)%nat ->
  ngx_vslprintf room (bs "%ud.%ud.%ud.%ud") [AInt a; AInt b; AInt c; AInt d] = Some (dotted a b c d).
Proof.
  unfold is_byte. intros Ha Hb Hc Hd Hl. apply (emits_run _ 8); [|done]. unfold dotted.
  change (S (length _)) with 16%nat. rewrite <- (app_nil_r (num_digits 0 d)).
  eapply emits_app; [apply (emits_ud 15 (bs ".%ud.%ud.%ud")); lia|].
  eapply emits_app; [apply (emits_byte 14 "."%ch (bs "%ud.%ud.%ud")); done|].
  eapply emits_app; [apply (emits_ud 13 (bs ".%ud.%ud")); lia|].
  eapply emits_app; [apply (emits_byte 12 "."%ch (bs "%ud.%ud")); done|].
  eapply emits_app; [apply (emits_ud 11 (bs ".%ud")); lia|].
  eapply emits_app; [apply (emits_byte 10 "."%ch (bs "%ud")); done|].
  eapply emits_app; [apply (emits_ud 9 []); lia|]. apply emits_end.
Qed.

Lemma length_dotted a b c d :
  is_byte a -> is_byte b -> is_byte c -> is_byte d -> (length (dotted a b c d) <= 15)%nat.
Proof.
  intros Ha Hb Hc Hd. unfold dotted. rewrite !length_app. cbn [length bs].
  destruct (byte_text a Ha) as (_ & _ & H1), (byte_text b Hb) as (_ & _ & H2),
    (byte_text c Hc) as (_ & _ & H3), (byte_text d Hd) as (_ & _ & H4). lia.
Qed.

Lemma length_colon_words ws : Forall is_word ws -> (length (colon_words ws) <= 5 * length ws)%nat.
Proof.
  induction 1 as [|w ws Hw Hws IH]; [done|].
  change (colon_words (w :: ws)) with ((hexword w ++ bs ":") ++ colon_words ws).
  rewrite !length_app. destruct (hexword_text w Hw) as [_ Hl]. cbn [length bs] in *. lia.
Qed.

Lemma repeat_words m : words_of (repeat (0, 0) m) = repeat 0 (2 * m).
Proof.
  induction m as [|m IH]; [done|]. cbn [repeat fmap list_fmap concat word_bytes fst snd app].
  replace (2 * S m)%nat with (S (S (2 * m))) by lia. cbn [repeat]. by rewrite <- IH.
Qed.

Lemma words_of_app A B : words_of (A ++ B) = words_of A ++ words_of B.
Proof. by rewrite fmap_app, concat_app. Qed.

(** A text that is short enough and denotes the words [W]. *)
Definition reads_as (W : list (Z * Z)) (text : list Z) : Prop :=
  (length text <= NGX_INET6_ADDRSTRLEN)%nat /\ ngx_inet6_addr text = Some (words_of W).

Section Roundtrip.
Variables (room : nat) (W : list (Z * Z)).
Hypotheses (Hroom : (15 <= room)%nat) (HW : Forall is_word W) (H8 : length W = 8%nat).

Lemma plain_reads_as : reads_as W (tail_words 0 W).
Proof.
  destruct (exists_last (l := W)) as (ws & w & E); [by intros E; rewrite E in H8|].
  pose proof HW as HW'. pose proof H8 as H8'. rewrite E in HW', H8' |- *. rewrite length_app in H8'. cbn in H8'.
  apply Forall_app in HW' as [Hws Hw]. apply Forall_cons_1 in Hw as [Hw _].
  rewrite tail_words_last by lia. split; [|apply inet6_read_plain; [done|done|lia]].
  rewrite length_app. pose proof (length_colon_words _ Hws). destruct (hexword_text _ Hw) as [_ Hl].
  unfold NGX_INET6_ADDRSTRLEN. lia.
Qed.

Lemma split_zeros z max :
  zeros_at W z max -> W = take z W ++ repeat (0, 0) max ++ drop (z + max) W.
Proof. intros [_ Hz]. by rewrite <- Hz, <- drop_drop, take_drop, take_drop. Qed.

Lemma zeros_read_as z max :
  zeros_at W z max -> (2 <= max)%nat ->
  reads_as W ((if (z =? 0)%nat then bs ":" else []) ++ tail_words 0 (take z W) ++ bs ":" ++
              tail_words (z + max) (drop (z + max) W)).
Proof.
  intros Hz Hm. pose proof (split_zeros z max Hz) as HS. destruct Hz as [Hzm _].
  assert (length (take z W) = z) as HlA by (rewrite length_take; lia).
  assert (Forall is_word (take z W)) as HA by (by apply Forall_take).
  assert (Forall is_word (drop (z + max) W)) as HR by (by apply Forall_drop).
  assert (length (drop (z + max) W) = 8 - (z + max))%nat as HlR by (rewrite length_drop; lia).
  rewrite tail_words_colon by lia. rewrite <- HlA at 1.
  set (A := take z W) in *. set (R := drop (z + max) W) in *. clearbody A R.
  pose proof (length_colon_words _ HA) as HcA.
  assert (length (if (length A =? 0)%nat then bs ":" else []) <= 1)%nat as Hl0
    by (destruct (_ =? 0)%nat; cbn; lia).
  unfold reads_as. rewrite inet6_read_zero by (done || lia). rewrite !length_app, HS, !words_of_app, repeat_words.
  change (length (bs ":")) with 1%nat. unfold NGX_INET6_ADDRSTRLEN.
  destruct R as [|r R'] eqn:ER.
  - cbn [tail_words length] in *. split; [lia|].
    rewrite inet6_read_zero_end by lia. f_equal. f_equal. rewrite app_nil_r.
    change [0; 0] with (repeat 0 2). rewrite <- repeat_app. f_equal. lia.
  - destruct (exists_last (l := R)) as (B & w & E); [by subst R|]. rewrite <- ER in *. subst R. rewrite E in *.
    rewrite length_app in HlR. cbn [length] in HlR. apply Forall_app in HR as [HB Hw].
    apply Forall_cons_1 in Hw as [Hw _]. rewrite tail_words_last by lia.
    pose proof (length_colon_words _ HB) as HcB. destruct (hexword_text _ Hw) as [_ Hlw].
    split; [rewrite length_app; lia|].
    rewrite inet6_read_zero_words by (done || lia). f_equal. f_equal. f_equal. f_equal. lia.
Qed.

Lemma dotted_reads_as max a b c d :
  zeros_at W 0 max -> (2 <= max <= 7)%nat -> W !! 6%nat = Some (a, b) -> W !! 7%nat = Some (c, d) ->
  [a; b; c; d] <> [255; 255; 255; 255] ->
  reads_as W (bs ":" ++ tail_words 0 (take 0 W) ++ bs ":" ++
              tail_words (0 + max) (take (6 - (0 + max)) (drop (0 + max) W)) ++ dotted a b c d).
Proof.
  intros [_ Hz] Hm E6 E7 Hne. assert (exists m, m = Nat.min max 6) as [m Em] by (by eexists). cbn [Nat.add take tail_words app].
  set (B := take (6 - max) (drop max W)).
  assert (length B = 6 - m)%nat as HlB by (unfold B; rewrite length_take, length_drop; lia).
  assert (Forall is_word B) as HB by (by apply Forall_take, Forall_drop).
  assert (is_word (a, b) /\ is_word (c, d)) as [[Ha Hb] [Hc Hd]].
  { split; by eapply Forall_lookup_1 in HW. }
  assert (W = repeat (0, 0) m ++ B ++ [(a, b); (c, d)]) as HS.
  { rewrite <- (take_drop 6 W) at 1. rewrite (drop_S W _ 6 E6), (drop_S W _ 7 E7), drop_ge by lia.
    rewrite app_assoc. f_equal.
    replace 6%nat with (m + (6 - m))%nat at 1 by lia. rewrite <- take_take_drop. f_equal.
    - change (drop 0 W) with W in Hz. replace (take m W) with (take m (take max W))
        by (rewrite take_take; f_equal; lia). rewrite Hz, take_repeat. f_equal. lia.
    - unfold B. destruct (decide (max <= 6)%nat) as [Hle|Hgt].
      + by replace m with max by lia.
      + replace (6 - max)%nat with 0%nat by lia. by replace (6 - m)%nat with 0%nat by lia. }
  change (tail_words 0 (take 0 W) ++ ?x) with x. rewrite tail_words_colon by lia.
  pose proof (length_colon_words _ HB) as HcB. pose proof (length_dotted a b c d Ha Hb Hc Hd).
  unfold reads_as. split.
  { rewrite !length_app. unfold NGX_INET6_ADDRSTRLEN. cbn [length bs]. lia. }
  change (bs ":" ++ bs ":" ++ ?x) with ((if (length (@nil (Z * Z)) =? 0)%nat then bs ":" else []) ++
    colon_words [] ++ bs ":" ++ x).
  rewrite inet6_read_zero by (done || (cbn; lia)). rewrite inet6_read_dotted by (done || (cbn; lia)).
  rewrite HS, !words_of_app, repeat_words. cbn [length Nat.add fmap list_fmap concat app word_bytes fst snd].
  f_equal. f_equal. f_equal. lia.
Qed.

(** What [ngx_inet6_ntop] prints for the words [W]. *)
Lemma ntop_reads_as len :
  (NGX_INET6_ADDRSTRLEN <= len)%nat ->
  (drop 12 (words_of W) = [255; 255; 255; 255] -> take 10 (words_of W) <> repeat 0 10) ->
  exists text, ngx_inet6_ntop room (words_of W) len = Some text /\ reads_as W text.
Proof.
  intros Hlen Hex. unfold ngx_inet6_ntop. rewrite (proj2 (Nat.ltb_ge _ _)) by done.
  pose proof (zero_run_found W [] W None None 1 0 eq_refl I (or_introl eq_refl) ltac:(lia)) as Hf.
  change (2 * length [])%nat with 0%nat in Hf. destruct (zero_run 0 (words_of W) None None 1 0) as [zero max].
  destruct (word_lookup room W Hroom HW H8 5 ltac:(lia)) as (a5 & b5 & _ & _ & L10 & L11).
  destruct (word_lookup room W Hroom HW H8 6 ltac:(lia)) as (a & b & E6 & [Ha Hb] & L12 & L13).
  destruct (word_lookup room W Hroom HW H8 7 ltac:(lia)) as (c & d & E7 & [Hc Hd] & L14 & L15).
  cbn [Nat.mul Nat.add] in L10, L11, L12, L13, L14, L15. unfold inet6_dotted.
  destruct zero as [i|]; cycle 1.
  { rewrite bool_decide_eq_false_2 by done. cbn [mbind option_bind].
    pose proof (inet6_words_plain room W Hroom HW H8 8 0 8 None max ltac:(lia) ltac:(lia) ltac:(done)) as Ew.
    change (2 * 0)%nat with 0%nat in Ew |- *. change (2 * 8)%nat with 16%nat in Ew. rewrite Ew.
    rewrite L12, L13, L14, L15.
    cbn [mbind option_bind]. eexists. split; [reflexivity|]. cbn [app]. rewrite app_nil_r.
    rewrite take_ge by (rewrite length_drop; lia). by apply plain_reads_as. }
  destruct Hf as (z & -> & Hm & Hz). pose proof (proj1 Hz) as Hz1.
  rewrite L10, L11, L14, L15. cbn [mbind option_bind].
  match goal with |- context [(if bool_decide ?P then ?x else ?y) ≫= _] =>
    assert (exists dt : bool, (if bool_decide P then x else y) = Some dt /\
      (dt = true -> z = 0%nat /\ (5 <= max <= 7)%nat)) as (dt & -> & Hdt) end.
  { case_bool_decide as Hz0; [|by exists false]. eexists. split; [reflexivity|].
    rewrite !orb_true_iff, !andb_true_iff, !Nat.eqb_eq. injection Hz0 as Hz0. lia. }
  cbn [mbind option_bind].
  assert (bool_decide (Some (2 * z)%nat = Some 0%nat) = (z =? 0)%nat) as ->.
  { destruct (Nat.eqb_spec z 0) as [->|Hne]; [by apply bool_decide_eq_true_2|].
    apply bool_decide_eq_false_2. intros [=]. lia. }
  destruct dt.
  - destruct (Hdt eq_refl) as [-> Hmax]. 
    pose proof (inet6_words_zeros room W Hroom HW H8 8 0 6 0 max ltac:(lia) ltac:(lia) ltac:(lia) ltac:(lia)) as Ew.
    change (2 * 0)%nat with 0%nat in Ew |- *. change (2 * 6)%nat with 12%nat in Ew. rewrite Ew. cbn [mbind option_bind].
    rewrite L12, L13. cbn [mbind option_bind].
    rewrite print_dotted by (done || (etransitivity; [by apply length_dotted|done])).
    cbn [mbind option_bind]. eexists. split; [reflexivity|].
    rewrite <- !app_assoc. apply dotted_reads_as; try done; [lia|].
    intros E. apply Hex.
    + by rewrite (drop_S _ _ _ L12), (drop_S _ _ _ L13), (drop_S _ _ _ L14), (drop_S _ _ _ L15), drop_ge
        by (rewrite length_words; lia).
    + pose proof Hz as HS. apply split_zeros in HS; [|done..]. rewrite HS. change (take 0 W ++ ?x) with x. rewrite words_of_app, repeat_words.
      rewrite take_app_le by (rewrite repeat_length; lia). rewrite take_repeat. f_equal. lia.
  - pose proof (inet6_words_zeros room W Hroom HW H8 8 0 8 z max ltac:(lia) ltac:(lia) ltac:(lia) ltac:(lia)) as Ew.
    change (2 * 0)%nat with 0%nat in Ew |- *. change (2 * 8)%nat with 16%nat in Ew. rewrite Ew. cbn [mbind option_bind].
    rewrite L12, L13. cbn [mbind option_bind]. eexists. split; [reflexivity|].
    rewrite app_nil_r, Nat.sub_0_r. change (drop 0 W) with W.
    rewrite (take_ge (drop (z + max) W)) by (rewrite length_drop; lia). by apply zeros_read_as.
Qed.
End Roundtrip.

Lemma bytes_words p n : bytes p -> length p = (2 * n)%nat ->
  exists W, p = words_of W /\ Forall is_word W /\ length W = n.
Proof.
  revert p. induction n as [|n IH]; intros p Hp Hl.
  { exists []. by destruct p. }
  destruct p as [|a [|b p]]; [cbn in Hl; lia..|].
  apply Forall_cons_1 in Hp as [Ha [Hb Hp]%Forall_cons_1].
  destruct (IH p Hp ltac:(cbn in Hl; lia)) as (W & -> & HW & <-).
  exists ((a, b) :: W). split; [done|]. split; [by constructor|done].
Qed.

(** every IPv6 address that [ngx_inet6_ntop] prints is read back by
    [ngx_inet6_addr], whatever run of zeros is shortened and whether it ends in
    dotted form, and the text fits the 45 bytes callers provide.  The exception are
    addresses printed with 255.255.255.255 at the end, which the reader cannot tell
    from its error value. *)
Theorem inet6_roundtrip room len p :
  (15 <= room)%nat -> (NGX_INET6_ADDRSTRLEN <= len)%nat -> bytes p -> length p = 16%nat ->
  (drop 12 p = [255; 255; 255; 255] -> take 10 p <> repeat 0 10) ->
  exists text, ngx_inet6_ntop room p len = Some text /\
    (length text <= NGX_INET6_ADDRSTRLEN)%nat /\ ngx_inet6_addr text = Some p.
Proof.
  intros Hr Hlen Hp Hl Hex. destruct (bytes_words p 8 Hp Hl) as (W & -> & HW & H8).
  destruct (ntop_reads_as room W Hr HW H8 len Hlen Hex) as (text & E & Ht). by exists text.
Qed.

Lemma inet6_roundtrip_witness :
  ngx_inet6_ntop 64 [32; 1; 13; 184; 0; 0; 0; 0; 0; 0; 0; 0; 0; 0; 0; 1] 45 = Some (bs "2001:db8::1") /\
  exists text, ngx_inet6_ntop 64 [32; 1; 13; 184; 0; 0; 0; 0; 0; 0; 0; 0; 0; 0; 0; 1] 45 = Some text /\
    (length text <= NGX_INET6_ADDRSTRLEN)%nat /\
    ngx_inet6_addr text = Some [32; 1; 13; 184; 0; 0; 0; 0; 0; 0; 0; 0; 0; 0; 0; 1].
Proof.
  split; [vm_compute; reflexivity|].
  apply inet6_roundtrip; [lia|unfold NGX_INET6_ADDRSTRLEN; lia| |reflexivity|discriminate].
  repeat constructor; discriminate.
Defined.

(** The address the reader takes for an error. *)
Example broadcast_not_read :
  ngx_inet_addr (bs "255.255.255.255") = INADDR_NONE /\
  ngx_inet6_ntop 64 (repeat 0 12 ++ [255; 255; 255; 255]) 45 = Some (bs "::255.255.255.255") /\
  ngx_inet6_addr (bs "::255.255.255.255") = None.
Proof. vm_compute. done. Qed.

(** An octet is accumulated in 64 bits without a limit, and may be empty. *)
Example octet_wraps :
  ngx_inet_addr (bs "10.0.0.18446744073709551617") = ngx_inet_addr (bs "10.0.0.1") /\
  ngx_inet_addr (bs "10...") = ngx_inet_addr (bs "10.0.0.0").
Proof. vm_compute. done. Qed.

(** ** URLs of IPv4 addresses *)

Definition addr_char (c : Z) : bool := is_digit c || (c =? "."%ch).

Lemma inet_addr_chars text addr octet n :
  inet_addr_loop text addr octet n <> INADDR_NONE -> Forall (fun c => addr_char c = true) text.
Proof.
  revert addr octet n. induction text as [|c text IH]; intros addr octet n; [constructor|].
  cbn [inet_addr_loop]. unfold addr_char. intros H. constructor.
  - destruct (is_digit c); [done|]. by destruct (c =? "."%ch).
  - destruct (is_digit c); [by eapply IH|]. destruct ((c =? "."%ch) && (octet <? 256)); [by eapply IH|done].
Qed.

Lemma strlchr_none text c : Forall (fun x => x <> c) text -> ngx_strlchr text c = None.
Proof.
  induction 1 as [|x text Hx Ht IH]; [done|]. cbn [ngx_strlchr].
  by rewrite (proj2 (Z.eqb_neq x c) Hx), IH.
Qed.

Lemma strlchr_at text c rest :
  Forall (fun x => x <> c) text -> ngx_strlchr (text ++ c :: rest) c = Some (length text).
Proof.
  induction 1 as [|x text Hx Ht IH]; cbn [app ngx_strlchr length]; [by rewrite Z.eqb_refl|].
  by rewrite (proj2 (Z.eqb_neq x c) Hx), IH.
Qed.

Lemma addr_char_ne text c :
  Forall (fun c => addr_char c = true) text -> addr_char c = false -> Forall (fun x => x <> c) text.
Proof. intros H Hc. eapply list.Forall_impl; [exact H|]. cbn. intros x Hx ->. congruence. Qed.

(** An address with a port, as the modules write it. *)
Definition addr_url (ip h : list Z) (p : Z) : Prop :=
  ip = h ++ bs ":" ++ num_digits 0 p /\ ngx_inet_addr h <> INADDR_NONE /\ 1 <= p <= 65535.

Lemma atoi_port p : 1 <= p <= 65535 -> ngx_atoi (num_digits 0 p) = p.
Proof. intros Hp. destruct (num_digits_dec p) as (Hd & Hv & Hne & _); [lia|]. by rewrite ngx_atoi_exact, Hv by (done || lia). Qed.

Lemma digits_addr ds : digits ds -> Forall (fun c => addr_char c = true) ds.
Proof. intros H. eapply list.Forall_impl; [exact H|]. cbn. unfold addr_char. by intros c ->. Qed.

Lemma addr_url_first ip h p : addr_url ip h p -> exists c r, ip = c :: r /\ addr_char c = true.
Proof.
  intros (-> & Ha & _). apply inet_addr_chars in Ha as Hc. destruct Hc as [|c r Hc Hr]; [done|].
  cbn [app]. by do 2 eexists.
Qed.

Lemma addr_char_not_unix c r : addr_char c = true -> ngx_strncasecmp (c :: r) (bs "unix:") 5 <> 0.
Proof.
  intros Hc. cbn [ngx_strncasecmp hd tail]. change (hd 0 (bs "unix:")) with "u"%ch.
  assert (ngx_tolower c = c) as ->.
  { unfold ngx_tolower, in_range. unfold addr_char in Hc.
    apply orb_true_iff in Hc as [Hc%is_digit_iff|Hc%Z.eqb_eq].
    - replace ("A"%ch <=? c) with false by (change "A"%ch with 65; lia). done.
    - by subst c. }
  change (ngx_tolower "u"%ch) with 117. unfold addr_char in Hc.
  destruct (Z.eqb_spec c 117) as [->|Hne]; [done|]. lia.
Qed.

Section AddrUrl.
Variables (room : nat) (resolve : list Z -> option (list (sockaddr * Z))) (mem : nat).

Lemma parse_url_inet ip h p u :
  addr_url ip h p -> url u = ip -> ngx_parse_url room resolve mem u = parse_inet_url room resolve mem u.
Proof.
  intros Hu Eu. destruct (addr_url_first _ _ _ Hu) as (c & r & -> & Hc).
  unfold ngx_parse_url. rewrite Eu. cbn [app lookup list_lookup mbind option_bind].
  rewrite (proj2 (Z.eqb_neq _ _)) by apply (addr_char_not_unix c (r ++ behind u) Hc).
  replace (c =? "["%ch) with false; [done|]. symmetry. apply Z.eqb_neq. by intros ->.
Qed.

Lemma parse_inet_url_port ip h p u :
  addr_url ip h p -> url u = ip ->
  parse_inet_url room resolve mem u =
  inet_url_host room resolve mem (u <| socklen := sizeof_in |> <| family := AF_INET |>
    <| port := p |> <| port_text := num_digits 0 p |>) h.
Proof.
  intros (Eip & Ha & Hp) Eu. pose proof (inet_addr_chars _ _ _ _ Ha) as Hh.
  destruct (num_digits_dec p) as (Hd & _ & Hne & _); [lia|]. apply digits_addr in Hd.
  assert (forall x, addr_char x = false -> x <> ":"%ch -> ngx_strlchr ip x = None) as Hnone.
  { intros x Hx Hx'. apply strlchr_none. rewrite Eip. apply Forall_app. split; [by apply addr_char_ne|].
    apply Forall_app. split; [by constructor|by apply addr_char_ne]. }
  assert (ngx_strlchr ip ":"%ch = Some (length h)) as Hcolon.
  { rewrite Eip. apply strlchr_at. by apply addr_char_ne. }
  unfold parse_inet_url. change (url (u <| socklen := sizeof_in |> <| family := AF_INET |>)) with (url u).
  rewrite Eu, Hcolon, !Hnone by done. unfold with_port.
  assert (drop (S (length h)) ip = num_digits 0 p) as ->.
  { rewrite Eip. replace (S (length h)) with (length h + 1)%nat by lia. by rewrite <- drop_drop, drop_app_length. }
  assert (take (length h) ip = h) as -> by (rewrite Eip; apply take_app_length).
  rewrite atoi_port by done. by replace ((p <? 1) || (p >? 65535)) with false by lia.
Qed.

Lemma print_addr_name h p :
  h <> [] -> 1 <= p <= 65535 -> (length (h ++ bs ":" ++ num_digits 0 p) <= room)%nat ->
  ngx_vslprintf room (bs "%V:%d") [AStr h; AInt p] = Some (h ++ bs ":" ++ num_digits 0 p).
Proof.
  intros Hh Hp Hr. apply (emits_run _ 2); [|done]. rewrite <- (app_nil_r (num_digits 0 p)).
  eapply emits_app; [by apply (emits_V 5 (bs ":%d"))|].
  eapply emits_app; [by apply (emits_byte 4 ":"%ch (bs "%d"))|].
  eapply emits_app; [apply (emits_d 3 []); lia|]. apply emits_end.
Qed.

Lemma addr_name_spec h p u :
  host u = h -> port u = p -> h <> [] -> 1 <= p <= 65535 -> (length (h ++ bs ":" ++ num_digits 0 p) <= room)%nat ->
  addr_name room u = Some (h ++ bs ":" ++ num_digits 0 p).
Proof. intros <- <-. apply print_addr_name. Qed.

(** Parsing an address with a port: the result names the address as it was
    written, and its only socket address has its bytes and port. *)
Lemma parse_addr_url ip h p u :
  addr_url ip h p -> (length ip <= room)%nat -> (3 <= mem)%nat -> url u = ip -> 
  exists u', ngx_parse_url room resolve mem u = Some (NGX_OK, u') /\
    addrs u' = [mk_addr ip (Some (sockaddr_in (htons p) (ngx_inet_addr h))) sizeof_in] /\
    naddrs u' = 1%nat /\ host u' = h /\ port u' = p /\ port_text u' = num_digits 0 p /\ err u' = err u.
Proof.
  intros Hu Hroom Hmem Eu. rewrite (parse_url_inet ip h p) by done. rewrite (parse_inet_url_port ip h p) by done.
  destruct Hu as (-> & Ha & Hp). assert (h <> []) as Hh0 by (by intros ->).
  unfold inet_url_host. rewrite (proj2 (Nat.eqb_neq _ _)) by (by destruct h). destruct u.
  rewrite (bool_decide_eq_false_2 (h = bs "*")), andb_false_r by (by intros ->).
  rewrite (proj2 (Z.eqb_neq _ _) Ha). cbn [negb].
  destruct (ngx_inet_addr h =? INADDR_ANY); rewrite (addr_name_spec h p) by done;
    cbn [mbind option_bind]; (destruct mem as [|[|[|mem']]]; [lia..|]); eexists; by split_and!.
Qed.
End AddrUrl.

(** ** What a CIDR block matches *)

(** The number of a byte string, the most significant byte first. *)
Fixpoint be_val (l : list Z) : Z :=
  match l with [] => 0 | a :: l' => a * 2 ^ (8 * Z.of_nat (length l')) + be_val l' end.

Definition land_bytes (l m : list Z) : list Z := zip_with Z.land l m.

Lemma be_val_range l : bytes l -> 0 <= be_val l < 2 ^ (8 * Z.of_nat (length l)).
Proof.
  induction 1 as [|a l Ha Hl IH]; [done|]. cbn [be_val length]. unfold is_byte in Ha.
  replace (8 * Z.of_nat (S (length l))) with (8 + 8 * Z.of_nat (length l)) by lia.
  rewrite Z.pow_add_r by lia. change (2 ^ 8) with 256. nia.
Qed.

Lemma be_val_inj l l' : bytes l -> bytes l' -> length l = length l' -> be_val l = be_val l' -> l = l'.
Proof.
  intros Hl. revert l'. induction Hl as [|a l Ha Hl IH]; intros [|b l'] Hl' Hn E; try done.
  injection Hn as Hn. apply Forall_cons_1 in Hl' as [Hb Hl']. cbn [be_val] in E. rewrite <- Hn in E.
  pose proof (be_val_range l Hl) as R1. pose proof (be_val_range l' Hl') as R2. rewrite <- Hn in R2.
  assert (a = b) as -> by nia. f_equal. apply IH; [done|done|lia].
Qed.

(** The mask of a byte keeps its first [s] bits. *)
Lemma mask_byte a s :
  is_byte a -> 0 <= s <= 8 -> Z.land a (u8 (Z.shiftl 0xff (8 - s))) = a / 2 ^ (8 - s) * 2 ^ (8 - s).
Proof.
  intros Ha Hs. revert a Ha.
  assert (forallb (fun a => Z.land a (u8 (Z.shiftl 0xff (8 - s))) =? a / 2 ^ (8 - s) * 2 ^ (8 - s)) all_bytes = true) as H.
  { apply (range_forall (fun s => forallb (fun a =>
      Z.land a (u8 (Z.shiftl 0xff (8 - s))) =? a / 2 ^ (8 - s) * 2 ^ (8 - s)) all_bytes) 9);
      [vm_compute; reflexivity|lia]. }
  intros a Ha. apply Z.eqb_eq. by apply (byte_forall _ H).
Qed.

(** The mask of [n] bytes with [s] bits. *)
Fixpoint mask_bytes (n : nat) (s : Z) : list Z :=
  match n with
  | O => []
  | S n' => u8 (Z.shiftl 0xff (8 - Z.min s 8)) :: mask_bytes n' (s - Z.min s 8)
  end.

Lemma length_mask_bytes n s : length (mask_bytes n s) = n.
Proof. revert s. induction n as [|n IH]; intros s; cbn; [done|]. by rewrite IH. Qed.

Lemma mask6_mask l s :
  mask6 l s = (land_bytes l (mask_bytes (length l) s), mask_bytes (length l) s,
               negb (bool_decide (l = land_bytes l (mask_bytes (length l) s)))).
Proof.
  revert s. induction l as [|a l IH]; intros s; [done|]. cbn [mask6 length mask_bytes land_bytes zip_with].
  assert ((if s >? 8 then 8 else s) = Z.min s 8) as -> by (destruct (Z.gtb_spec s 8); lia).
  rewrite IH. unfold land_bytes. generalize (Z.land a (u8 (Z.shiftl 255 (8 - Z.min s 8)))). intros b.
  f_equal. destruct (Z.eqb_spec a b) as [<-|E]; cbn [negb orb].
  - f_equal. apply bool_decide_ext. split; [by intros <-|by intros [= <-]].
  - rewrite bool_decide_eq_false_2; [done|]. by intros [=].
Qed.

Lemma land_byte a m : is_byte a -> is_byte (Z.land a (u8 m)).
Proof.
  unfold is_byte. intros Ha. pose proof (wrap_u_range 8 m ltac:(lia)) as Hm. unfold u8.
  split; [apply Z.land_nonneg; lia|].
  destruct (Z.eq_dec (Z.land a (wrap_u 8 m)) 0) as [->|Hne]; [lia|].
  pose proof (Z.log2_land a (wrap_u 8 m) ltac:(lia) ltac:(lia)) as Hlog.
  pose proof (Z.land_nonneg a (wrap_u 8 m)) as Hnn.
  apply (Z.log2_lt_pow2 _ 8); [lia|]. destruct (Z.eq_dec a 0) as [->|]; [done|].
  assert (Z.log2 a < 8) by (apply Z.log2_lt_pow2; lia). lia.
Qed.

(** Masking keeps the first [s] bits of the number. *)
Lemma be_val_mask l s :
  bytes l -> 0 <= s <= 8 * Z.of_nat (length l) ->
  let e := 8 * Z.of_nat (length l) - s in
  be_val (land_bytes l (mask_bytes (length l) s)) = be_val l / 2 ^ e * 2 ^ e /\
  bytes (land_bytes l (mask_bytes (length l) s)) /\
  length (land_bytes l (mask_bytes (length l) s)) = length l.
Proof.
  intros Hl. revert s. induction Hl as [|a l Ha Hl IH]; intros s Hs e.
  { split; [|split; [constructor|done]]. cbn [be_val]. by rewrite Z.div_0_l by (apply Z.pow_nonzero; cbn in *; lia). }
  cbn [length] in Hs. unfold e. cbn [length mask_bytes land_bytes zip_with be_val].
  destruct (IH (s - Z.min s 8) ltac:(lia)) as (E & Hb & Hn). fold (land_bytes l (mask_bytes (length l) (s - Z.min s 8))).
  set (n := Z.of_nat (length l)) in *. set (r := land_bytes l _) in *.
  split; [|split; [constructor; [by apply land_byte|done]|cbn; by rewrite Hn]].
  rewrite Hn, E, mask_byte by (done || lia). fold n. pose proof (be_val_range l Hl) as Hr. fold n in Hr.
  assert (0 < 2 ^ (8 * n)) as Hpos by (apply Z.pow_pos_nonneg; lia).
  destruct (Z.le_gt_cases 8 s) as [H8|H8].
  - rewrite Z.min_r by lia. rewrite Z.sub_diag, Z.pow_0_r, Z.div_1_r, Z.mul_1_r.
    replace (8 * Z.of_nat (S (length l)) - s) with (8 * n - (s - 8)) by lia.
    set (k := 8 * n - (s - 8)). replace (8 * n) with (s - 8 + k) by lia.
    rewrite Z.pow_add_r, Z.mul_assoc by lia. rewrite Z.div_add_l by (apply Z.pow_nonzero; lia). ring.
  - rewrite Z.min_l, Z.sub_diag by lia. rewrite !Z.sub_0_r, (Z.div_small (be_val l)) by lia.
    replace (8 * Z.of_nat (S (length l)) - s) with (8 * n + (8 - s)) by lia.
    rewrite Z.pow_add_r by lia. rewrite <- Z.div_div by (apply Z.pow_nonzero || apply Z.pow_pos_nonneg; lia).
    rewrite Z.div_add_l, (Z.div_small (be_val l)), !Z.add_0_r by lia. ring.
Qed.

(** Two byte strings agree under the mask when their first [s] bits agree. *)
Lemma mask_agree l l' s :
  bytes l -> bytes l' -> length l' = length l -> 0 <= s <= 8 * Z.of_nat (length l) ->
  let e := 8 * Z.of_nat (length l) - s in
  land_bytes l' (mask_bytes (length l) s) = land_bytes l (mask_bytes (length l) s) <->
  be_val l' / 2 ^ e = be_val l / 2 ^ e.
Proof.
  intros Hl Hl' Hn Hs e. destruct (be_val_mask l s Hl Hs) as (E & Hb & Hm).
  destruct (be_val_mask l' s Hl' ltac:(lia)) as (E' & Hb' & Hm'). rewrite Hn in E', Hb', Hm'. fold e in E, E'.
  assert (0 < 2 ^ e) as Hpos by (apply Z.pow_pos_nonneg; lia). split; intros H.
  - rewrite H, E in E'. nia.
  - apply be_val_inj; [done|done|lia|]. by rewrite E, E', H.
Qed.

Lemma mask_same l s :
  bytes l -> 0 <= s <= 8 * Z.of_nat (length l) ->
  l = land_bytes l (mask_bytes (length l) s) <-> be_val l mod 2 ^ (8 * Z.of_nat (length l) - s) = 0.
Proof.
  intros Hl Hs. destruct (be_val_mask l s Hl Hs) as (E & Hb & Hm). set (e := 8 * Z.of_nat (length l) - s) in *.
  assert (0 < 2 ^ e) as Hpos by (apply Z.pow_pos_nonneg; lia).
  pose proof (Z.div_mod (be_val l) (2 ^ e) ltac:(lia)) as Hd. split; intros H.
  - rewrite <- H in E. nia.
  - apply be_val_inj; [done|done|lia|]. rewrite E. nia.
Qed.

(** *** IPv4 masks *)

Lemma byte_high_bits x i : is_byte x -> 8 <= i -> Z.testbit x i = false.
Proof.
  unfold is_byte. intros Hx Hi. apply Z.bits_above_log2; [lia|]. destruct (Z.eq_dec x 0) as [->|]; [cbn; lia|].
  assert (Z.log2 x < 8) by (apply Z.log2_lt_pow2; lia). lia.
Qed.

Lemma byte_add_bits x y i :
  is_byte x -> 0 <= i -> Z.testbit (x + Z.shiftl y 8) i = Z.testbit x i || Z.testbit y (i - 8).
Proof.
  intros Hx Hi. rewrite Z.add_nocarry_lor; [by rewrite Z.lor_spec, Z.shiftl_spec by lia|].
  apply Z.bits_inj'. intros j Hj. rewrite Z.land_spec, Z.bits_0, Z.shiftl_spec by lia.
  destruct (Z.lt_ge_cases j 8); [by rewrite (Z.testbit_neg_r y), andb_false_r by lia|].
  by rewrite byte_high_bits.
Qed.

Lemma land_le_value l m :
  bytes l -> bytes m -> length l = length m -> Z.land (le_value l) (le_value m) = le_value (land_bytes l m).
Proof.
  intros Hl. revert m. induction Hl as [|a l Ha Hl IH]; intros [|b m] Hm Hn; try done.
  injection Hn as Hn. apply Forall_cons_1 in Hm as [Hb Hm]. cbn [le_value land_bytes zip_with].
  fold (land_bytes l m). rewrite <- IH by done.
  assert (is_byte (Z.land a b)) as Hab.
  { replace b with (u8 b) by (by apply wrap_u_small). by apply land_byte. }
  apply Z.bits_inj'. intros i Hi. rewrite Z.land_spec, !byte_add_bits, !Z.land_spec by done.
  destruct (Z.lt_ge_cases i 8).
  - by rewrite !(Z.testbit_neg_r _ (i - 8)), !orb_false_r by lia.
  - by rewrite (byte_high_bits a), (byte_high_bits b) by done.
Qed.

(** An address that was read is the number of its four bytes. *)
Lemma inet_addr_bytes text addr octet n :
  inet_addr_loop text addr octet n <> INADDR_NONE ->
  le_value (le_bytes 4 (inet_addr_loop text addr octet n)) = inet_addr_loop text addr octet n.
Proof.
  revert addr octet n. induction text as [|c text IH]; intros addr octet n; cbn [inet_addr_loop].
  - destruct ((n =? 3) && (octet <? 256)); [|done]. intros _. unfold htonl.
    set (l := rev (le_bytes 4 (u32 (Z.shiftl addr 8 + octet)))).
    assert (length l = 4%nat) as Hl by (unfold l; by rewrite length_rev, length_le_bytes).
    rewrite <- Hl at 1. rewrite le_bytes_value; [done|]. apply Forall_rev, le_bytes_bytes.
  - destruct (is_digit c); [apply IH|]. destruct ((c =? "."%ch) && (octet <? 256)); [apply IH|done].
Qed.

(** The mask [ngx_ptocidr] computes. *)
Definition mask4 (shift : Z) : Z :=
  if negb (shift =? 0) then htonl (u32 (Z.shiftl 0xffffffff (32 - shift))) else 0.

Lemma mask4_bytes s : 0 <= s <= 32 -> mask4 s = le_value (mask_bytes 4 s).
Proof.
  intros Hs. apply (range_eq mask4 (fun s => le_value (mask_bytes 4 s)) 33); [vm_compute; reflexivity|lia].
Qed.

Lemma bytes_mask n s : bytes (mask_bytes n s).
Proof.
  revert s. induction n as [|n IH]; intros s; [constructor|]. constructor; [|apply IH].
  apply wrap_u_range. lia.
Qed.

(** *** The block *)

(** The bytes an address text denotes. *)
Definition addr_bytes (text : list Z) : option (list Z) :=
  if ngx_inet_addr text =? INADDR_NONE then ngx_inet6_addr text
  else Some (le_bytes 4 (ngx_inet_addr text)).

(** The comparison the users of a block make with an address. *)
Definition cidr_match (c : cidr_t) (ip : list Z) : Prop :=
  match c with
  | cidr_in addr mask => Z.land (le_value ip) mask = addr
  | cidr_in6 addr mask => land_bytes ip mask = addr
  end.

(** The state of the IPv6 reader: two bytes are written for each word that is not
    missing any more. *)
Definition inet6_ok (s : inet6_t) : Prop :=
  bytes (out6 s) /\ Z.of_nat (length (out6 s)) + 2 * words_left s = 16 /\ 1 <= words_left s <= 8 /\
  match zero6 s with Some z => (z <= length (out6 s))%nat | None => True end.

Lemma land_255_byte x : is_byte (Z.land x 255).
Proof. change 255 with (Z.ones 8). rewrite Z.land_ones by lia. apply Z.mod_pos_bound. lia. Qed.

Lemma put_word_ok s :
  bytes (out6 s) -> bytes (out6 (put_word s)) /\ length (out6 (put_word s)) = (length (out6 s) + 2)%nat.
Proof.
  intros H. destruct s. cbn in *. rewrite length_app. split; [|done]. apply Forall_app. split; [done|].
  constructor; [apply wrap_u_range; lia|]. constructor; [apply land_255_byte|constructor].
Qed.

Lemma inet6_addr_loop_ok p s s' : inet6_ok s -> inet6_addr_loop p s = Some s' -> inet6_ok s'.
Proof.
  revert s. induction p as [|c p IH]; intros s Hok; [by intros [= <-]|]. cbn [inet6_addr_loop].
  destruct Hok as (Hb & Hn & Hk & Hz). destruct (put_word_ok s Hb) as [Hb2 Hl2].
  destruct s as [out zero digit nib w k]. cbn in *.
  destruct (c =? ":"%ch).
  { destruct (negb (nib =? 0)).
    - rewrite u64_small by lia. destruct (Z.eqb_spec (k - 1) 0); [done|]. apply IH. unfold inet6_ok. cbn.
      split; [done|]. split; [lia|]. split; [lia|]. destruct zero; [lia|done].
    - destruct zero as [z|]; [done|]. apply IH. unfold inet6_ok. cbn. split_and!; done || lia. }
  destruct ((c =? "."%ch) && negb (nib =? 0)).
  { destruct digit as [d|]; [|done]. destruct (Z.ltb_spec k 2); [done|].
    destruct (ngx_inet_addr d =? INADDR_NONE); [done|]. intros [= <-]. unfold inet6_ok. cbn.
    rewrite u64_small by lia. rewrite length_app. cbn [length]. split; [|split; [lia|split; [lia|]]].
    - apply Forall_app. split; [done|]. constructor; [apply land_255_byte|].
      constructor; [apply land_255_byte|constructor].
    - destruct zero; [lia|done]. }
  destruct (nib + 1 >? 4); [done|].
  destruct (is_digit c); [by apply IH|]. destruct (in_range _ _ _); [by apply IH|done].
Qed.

(** An address that is read has 16 bytes. *)
Lemma inet6_addr_bytes text addr : ngx_inet6_addr text = Some addr -> bytes addr /\ length addr = 16%nat.
Proof.
  unfold ngx_inet6_addr. destruct text as [|c text]; [done|].
  destruct (inet6_addr_loop _ _) as [s|] eqn:E; [|done]. cbn [mbind option_bind].
  apply inet6_addr_loop_ok in E; [|unfold inet6_ok; cbn; split_and!; first [done | lia | constructor]]. destruct E as (Hb & Hn & Hk & Hz).
  destruct (put_word_ok s Hb) as [Hb2 Hl2]. unfold inet6_addr_end.
  destruct (_ && _); [done|]. destruct s as [out zero digit nib w k]. cbn in *. rewrite u64_small by lia.
  destruct (Z.eqb_spec (k - 1) 0); cbn [negb].
  - destruct zero; [done|]. intros [= <-]. split; [done|lia].
  - destruct zero as [z|]; [|done]. intros [= <-]. split.
    + apply Forall_app. split; [by apply Forall_take|]. apply Forall_app. split; [|by apply Forall_drop].
      apply Forall_forall. intros x Hx%repeat_spec. by subst x.
    + rewrite !length_app, length_take, length_drop, repeat_length, Hl2. lia.
Qed.

Section Block.
Variables (text a : list Z) (s : Z).
Hypotheses (Ha : addr_bytes text = Some a) (Hslash : Forall (fun c => c <> "/"%ch) text)
  (Hs : 0 <= s <= 8 * Z.of_nat (length a)).

Lemma le_value_inj l l' : bytes l -> bytes l' -> length l = length l' -> le_value l = le_value l' -> l = l'.
Proof. intros Hl Hl' Hn E. by rewrite <- (le_bytes_value l), <- (le_bytes_value l'), E, Hn. Qed.

Lemma ptocidr_split :
  let t := text ++ bs "/" ++ num_digits 0 s in
  s <= 128 ->
  ngx_strlchr t "/"%ch = Some (length text) /\ take (length text) t = text /\
  ngx_atoi (drop (S (length text)) t) = s.
Proof.
  intros t Hs128. split; [by apply strlchr_at|]. split; [apply take_app_length|].
  replace (S (length text)) with (length text + 1)%nat by lia.
  unfold t. rewrite <- drop_drop, drop_app_length. change (drop 1 (bs "/" ++ ?x)) with x.
  destruct (num_digits_dec s) as (Hd & Hv & Hne & _); [lia|]. by rewrite ngx_atoi_exact, Hv by (done || lia).
Qed.

(** IPv4: the masked address and what it matches. *)
Lemma ptocidr_in :
  ngx_inet_addr text <> INADDR_NONE ->
  ngx_ptocidr (text ++ bs "/" ++ num_digits 0 s) =
  (if bool_decide (a = land_bytes a (mask_bytes 4 s)) then NGX_OK else NGX_DONE,
   Some (cidr_in (le_value (land_bytes a (mask_bytes 4 s))) (le_value (mask_bytes 4 s)))).
Proof.
  intros Hin. unfold addr_bytes in Ha. rewrite (proj2 (Z.eqb_neq _ _) Hin) in Ha. assert (le_bytes 4 (ngx_inet_addr text) = a) as Ea by congruence.
  assert (length a = 4%nat) as Hl by (by rewrite <- Ea, length_le_bytes).
  destruct (ptocidr_split ltac:(lia)) as (E1 & E2 & E3). unfold ngx_ptocidr. rewrite E1, E2, E3.
  rewrite (proj2 (Z.eqb_neq _ _) Hin). cbn [negb]. replace (s =? NGX_ERROR) with false by (unfold NGX_ERROR; lia).
  replace (s >? 32) with false by lia. fold (mask4 s). rewrite mask4_bytes by lia.
  assert (ngx_inet_addr text = le_value a) as ->.
  { rewrite <- Ea. symmetry. by apply inet_addr_bytes. }
  assert (bytes a) as Hb by (rewrite <- Ea; apply le_bytes_bytes).
  rewrite land_le_value by (apply bytes_mask || rewrite ?length_mask_bytes; done).
  destruct (be_val_mask a s Hb Hs) as (_ & Hb' & Hl'). rewrite Hl in Hb', Hl'.
  case_bool_decide as Hc; [by rewrite <- Hc, Z.eqb_refl|].
  rewrite (proj2 (Z.eqb_neq _ _)); [done|]. intros E. apply Hc. apply le_value_inj; [done|done|lia|done].
Qed.

(** IPv6. *)
Lemma ptocidr_in6 :
  ngx_inet_addr text = INADDR_NONE ->
  ngx_ptocidr (text ++ bs "/" ++ num_digits 0 s) =
  (if bool_decide (a = land_bytes a (mask_bytes 16 s)) then NGX_OK else NGX_DONE,
   Some (cidr_in6 (land_bytes a (mask_bytes 16 s)) (mask_bytes 16 s))).
Proof.
  intros Hin. unfold addr_bytes in Ha. rewrite Hin, Z.eqb_refl in Ha.
  destruct (inet6_addr_bytes _ _ Ha) as [Hb Hl].
  destruct (ptocidr_split ltac:(lia)) as (E1 & E2 & E3). unfold ngx_ptocidr. rewrite E1, E2, E3, Ha, Hin.
  rewrite Z.eqb_refl. cbn [negb]. replace (s =? NGX_ERROR) with false by (unfold NGX_ERROR; lia).
  replace (s >? 128) with false by lia. rewrite mask6_mask, Hl. by case_bool_decide.
Qed.
End Block.

(** a CIDR block [address/s], of IPv4 or IPv6, matches exactly the addresses whose
    first [s] bits are those of the address; the code is [NGX_DONE], a warning,
    exactly when the address has bits behind them, which are cleared. *)
Theorem ptocidr_matches text a s :
  addr_bytes text = Some a -> Forall (fun c => c <> "/"%ch) text -> 0 <= s <= 8 * Z.of_nat (length a) ->
  let e := 8 * Z.of_nat (length a) - s in
  exists rc c, ngx_ptocidr (text ++ bs "/" ++ num_digits 0 s) = (rc, Some c) /\
    rc = (if be_val a mod 2 ^ e =? 0 then NGX_OK else NGX_DONE) /\
    forall ip, bytes ip -> length ip = length a ->
      cidr_match c ip <-> be_val ip / 2 ^ e = be_val a / 2 ^ e.
Proof.
  intros Ha Hsl Hs e. destruct (decide (ngx_inet_addr text = INADDR_NONE)) as [Hin|Hin].
  - rewrite (ptocidr_in6 text a s Ha Hsl Hs Hin). unfold addr_bytes in Ha. rewrite Hin, Z.eqb_refl in Ha.
    destruct (inet6_addr_bytes _ _ Ha) as [Hb Hl]. eexists _, _. split; [reflexivity|]. rewrite <- Hl. split.
    + pose proof (mask_same a s Hb Hs) as Hm. fold e in Hm. destruct (Z.eqb_spec (be_val a mod 2 ^ e) 0); case_bool_decide; tauto.
    + intros ip Hip Hn. by apply mask_agree.
  - rewrite (ptocidr_in text a s Ha Hsl Hs Hin). unfold addr_bytes in Ha.
    rewrite (proj2 (Z.eqb_neq _ _) Hin) in Ha. assert (le_bytes 4 (ngx_inet_addr text) = a) as Ea by congruence.
    assert (length a = 4%nat) as Hl by (by rewrite <- Ea, length_le_bytes).
    assert (bytes a) as Hb by (rewrite <- Ea; apply le_bytes_bytes).
    eexists _, _. split; [reflexivity|]. rewrite <- Hl. split.
    + pose proof (mask_same a s Hb Hs) as Hm. fold e in Hm. destruct (Z.eqb_spec (be_val a mod 2 ^ e) 0); case_bool_decide; tauto.
    + intros ip Hip Hn. etransitivity; [|by apply (mask_agree a ip s)]. cbn [cidr_match].
      rewrite land_le_value by (apply bytes_mask || rewrite ?length_mask_bytes; done).
      destruct (be_val_mask a s Hb Hs) as (_ & Hb1 & Hl1).
      destruct (be_val_mask ip s Hip ltac:(lia)) as (_ & Hb2 & Hl2). rewrite Hn in Hb2, Hl2.
      split; [apply le_value_inj; [done|done|lia]|by intros ->].
Qed.

Lemma ptocidr_matches_witness :
  ngx_ptocidr (bs "10.1.2.3/8") = (NGX_DONE, Some (cidr_in 10 255)) /\
  exists rc c, ngx_ptocidr (bs "10.1.2.3" ++ bs "/" ++ num_digits 0 8) = (rc, Some c) /\
    rc = (if be_val [10; 1; 2; 3] mod 2 ^ 24 =? 0 then NGX_OK else NGX_DONE) /\
    forall ip, bytes ip -> length ip = 4%nat ->
      cidr_match c ip <-> be_val ip / 2 ^ 24 = be_val [10; 1; 2; 3] / 2 ^ 24.
Proof.
  split; [vm_compute; reflexivity|].
  apply (ptocidr_matches (bs "10.1.2.3") [10; 1; 2; 3] 8); [vm_compute; reflexivity| |cbn; lia].
  repeat constructor; discriminate.
Defined.

(** ** Printing and parsing socket addresses *)

Lemma ntohs_htons p : 0 <= p < 65536 -> ntohs (htons p) = p.
Proof.
  intros Hp. unfold ntohs, htons.
  assert (le_bytes 2 (le_value (rev (le_bytes 2 p))) = rev (le_bytes 2 p)) as ->.
  { apply (le_bytes_value (rev (le_bytes 2 p))), Forall_rev, le_bytes_bytes. }
  rewrite rev_involutive. apply le_value_bytes. cbn. lia.
Qed.

Definition plain_char (c : Z) : Prop := c <> "]"%ch /\ c <> "/"%ch.

(** The characters of an IPv6 address. *)
Lemma inet6_addr_loop_chars p s s' :
  inet6_addr_loop p s = Some s' -> (forall d, digit6 s = Some d -> exists pre, d = pre ++ p) ->
  Forall plain_char p.
Proof.
  revert s. induction p as [|c p IH]; intros s; [constructor|]. cbn [inet6_addr_loop].
  destruct s as [out zero digit nib w k]. cbn. intros H Hd.
  assert (forall d, digit = Some d -> exists pre, d = pre ++ p) as Hd'.
  { intros d Ed. destruct (Hd d Ed) as [pre ->]. exists (pre ++ [c]). by rewrite <- app_assoc. }
  destruct (Z.eqb_spec c ":"%ch) as [->|Hc].
  { constructor; [done|]. destruct (negb (nib =? 0)).
    - destruct (_ =? 0); [done|]. eapply IH; [exact H|]. cbn. intros d [= <-]. by exists [].
    - destruct zero; [done|]. eapply IH; [exact H|]. cbn. intros d [= <-]. by exists []. }
  destruct ((c =? "."%ch) && negb (nib =? 0)).
  { destruct digit as [d|]; [|done]. destruct (k <? 2); [done|].
    destruct (Z.eqb_spec (ngx_inet_addr d) INADDR_NONE) as [|Hne]; [done|].
    apply inet_addr_chars in Hne. destruct (Hd d eq_refl) as [pre ->]. apply Forall_app in Hne as [_ Hne].
    eapply list.Forall_impl; [exact Hne|]. intros x Hx. split; by intros ->. }
  destruct (nib + 1 >? 4); [done|].
  destruct (is_digit c) eqn:Edig.
  { constructor; [split; by intros ->|]. by eapply IH. }
  destruct (in_range "a"%ch "f"%ch (Z.lor c 32)) eqn:Er; [|done].
  constructor; [split; by intros ->|]. by eapply IH.
Qed.

Lemma inet6_addr_plain text a : ngx_inet6_addr text = Some a -> Forall plain_char text /\ text <> [].
Proof.
  unfold ngx_inet6_addr. destruct text as [|c text]; [done|]. intros H. split; [|done].
  destruct (inet6_addr_loop _ _) as [s|] eqn:E; [|done]. apply inet6_addr_loop_chars in E; [|done].
  destruct (Z.eqb_spec c ":"%ch) as [->|]; [by constructor|done].
Qed.

(** A socket address with a port that has a printed form of its own. *)
Definition printable (sa : sockaddr) (p : Z) : Prop :=
  1 <= p <= 65535 /\
  match sa with
  | sockaddr_in q addr =>
      q = htons p /\ exists a b c d, is_byte a /\ is_byte b /\ is_byte c /\ is_byte d /\
        addr = htonl (be4 a b c d) /\ addr <> INADDR_NONE
  | sockaddr_in6 q addr =>
      q = htons p /\ bytes addr /\ length addr = 16%nat /\
      (drop 12 addr = [255; 255; 255; 255] -> take 10 addr <> repeat 0 10)
  | _ => False
  end.

Lemma length_port p : 1 <= p <= 65535 -> (length (num_digits 0 p) <= 5)%nat.
Proof.
  intros Hp. apply Nat.leb_le. replace p with (p / 256 * 256 + p mod 256) by (Z.to_euclidean_division_equations; lia).
  apply (byte_forall (fun b => length (num_digits 0 (p / 256 * 256 + b)) <=? 5)%nat); [|apply Z.mod_pos_bound; lia].
  apply (byte_forall (fun a => forallb (fun b => length (num_digits 0 (a * 256 + b)) <=? 5)%nat all_bytes));
    [vm_compute; reflexivity|]. unfold is_byte. Z.to_euclidean_division_equations; lia.
Qed.

Section SockUrl.
Variables (room : nat) (resolve : list Z -> option (list (sockaddr * Z))) (mem : nat) (p : Z).
Hypotheses (Hroom : (64 <= room)%nat) (Hmem : (3 <= mem)%nat) (Hp : 1 <= p <= 65535).

Lemma sock_ntop_in a b c d socklen len :
  is_byte a -> is_byte b -> is_byte c -> is_byte d -> (21 <= len)%nat ->
  ngx_sock_ntop room (sockaddr_in (htons p) (htonl (be4 a b c d))) socklen len true =
  Some (dotted a b c d ++ bs ":" ++ num_digits 0 p).
Proof.
  intros Ha Hb Hc Hd Hlen. cbn [ngx_sock_ntop]. unfold in_bytes.
  destruct (htonl_be4 a b c d Ha Hb Hc Hd) as [_ ->]. rewrite ntohs_htons by lia.
  pose proof (length_dotted a b c d Ha Hb Hc Hd). pose proof (length_port p Hp). unfold is_byte in *.
  cbn [fmap list_fmap app]. apply (emits_run _ 9).
  2:{ rewrite !length_app. change (length (bs ":")) with 1%nat. lia. }
  change (S (length _)) with 19%nat. unfold dotted. rewrite <- !app_assoc. rewrite <- (app_nil_r (num_digits 0 p)).
  eapply emits_app; [apply (emits_ud 18 (bs ".%ud.%ud.%ud:%d")); lia|].
  eapply emits_app; [apply (emits_byte 17 "."%ch (bs "%ud.%ud.%ud:%d")); done|].
  eapply emits_app; [apply (emits_ud 16 (bs ".%ud.%ud:%d")); lia|].
  eapply emits_app; [apply (emits_byte 15 "."%ch (bs "%ud.%ud:%d")); done|].
  eapply emits_app; [apply (emits_ud 14 (bs ".%ud:%d")); lia|].
  eapply emits_app; [apply (emits_byte 13 "."%ch (bs "%ud:%d")); done|].
  eapply emits_app; [apply (emits_ud 12 (bs ":%d")); lia|].
  eapply emits_app; [apply (emits_byte 11 ":"%ch (bs "%d")); done|].
  eapply emits_app; [apply (emits_d 10 []); lia|]. apply emits_end.
Qed.

(** [ngx_parse_url] on a bracketed address. *)
Lemma parse_url_in6 t a u :
  ngx_inet6_addr t = Some a -> (length t <= NGX_INET6_ADDRSTRLEN)%nat ->
  url u = bs "[" ++ t ++ bs "]" ++ bs ":" ++ num_digits 0 p ->
  exists u', ngx_parse_url room resolve mem u = Some (NGX_OK, u') /\
    addrs u' = [mk_addr (url u) (Some (sockaddr_in6 (htons p) a)) sizeof_in6] /\ naddrs u' = 1%nat.
Proof.
  intros Ht Hlt Eu. destruct (inet6_addr_plain t a Ht) as [Hc Hne].
  unfold ngx_parse_url. rewrite Eu. 
  replace (ngx_strncasecmp _ _ 5 =? 0) with false by (symmetry; apply Z.eqb_neq; by vm_compute).
  change ((bs "[" ++ ?x) !! 0%nat) with (Some "["%ch). change (((bs "[" ++ ?x) ++ ?y) !! 0%nat) with (Some "["%ch).
  cbn [mbind option_bind]. change ("["%ch =? "["%ch) with true. cbv iota.
  unfold parse_inet6_url. change (url (u <| socklen := sizeof_in6 |>)) with (url u). rewrite Eu.
  change (drop 1 (bs "[" ++ ?x)) with x. set (rest := bs ":" ++ num_digits 0 p).
  assert (ngx_strlchr (t ++ bs "]" ++ rest) "]"%ch = Some (length t)) as ->.
  { apply strlchr_at. eapply list.Forall_impl; [exact Hc|]. by intros x []. }
  assert (drop (S (length t)) (t ++ bs "]" ++ rest) = rest) as ->.
  { replace (S (length t)) with (length t + 1)%nat by lia. by rewrite <- drop_drop, drop_app_length. }
  rewrite take_app_length.
  destruct (num_digits_dec p) as (Hd & _ & Hn0 & _); [lia|]. apply digits_addr in Hd.
  assert (ngx_strlchr rest "/"%ch = None) as ->.
  { apply strlchr_none. constructor; [done|]. by apply addr_char_ne. }
  change ((rest ++ ?x) !! 0%nat) with (Some ":"%ch). cbn [mbind option_bind].
  change ((":"%ch =? ":"%ch) && (length rest =? 0)%nat) with false. change (":"%ch =? ":"%ch) with true. cbv iota.
  change (drop 1 rest) with (num_digits 0 p). unfold with_port. rewrite atoi_port by done.
  replace ((p <? 1) || (p >? 65535)) with false by lia. unfold inet6_url_host.
  rewrite (proj2 (Nat.eqb_neq _ _)) by (by destruct t). rewrite Ht.
  pose proof (length_port p Hp). unfold NGX_INET6_ADDRSTRLEN in *.
  assert (forall v, host v = bs "[" ++ t ++ bs "]" -> port v = p -> addr_name room v =
    Some (bs "[" ++ t ++ bs "]" ++ rest)) as Hname.
  { intros v Hv1 Hv2. rewrite (addr_name_spec room (bs "[" ++ t ++ bs "]") p);
      [by rewrite <- !app_assoc|done|done|done|lia|].
    rewrite !length_app. cbn [length bs]. lia. }
  destruct u. cbn in Eu. subst url0.
  destruct (unspecified _); rewrite Hname by done; cbn [mbind option_bind];
    (destruct mem as [|[|[|mem']]]; [lia..|]); eexists; by split_and!.
Qed.
End SockUrl.

(** a socket address is printed with its port so that [ngx_parse_url] reads the
    same socket address back, for IPv4 and IPv6; 21 and 53 bytes are enough for
    the text, and the name it gets is the text itself. *)
Theorem sock_ntop_parse_url room resolve mem sa p socklen len :
  printable sa p -> (64 <= room)%nat -> (3 <= mem)%nat -> (53 <= len)%nat ->
  exists text, ngx_sock_ntop room sa socklen len true = Some text /\ (length text <= 53)%nat /\
    forall u, url u = text -> exists u' sl, ngx_parse_url room resolve mem u = Some (NGX_OK, u') /\
      addrs u' = [mk_addr text (Some sa) sl] /\ naddrs u' = 1%nat /\ ngx_cmp_sockaddr sa sa true = Some NGX_OK.
Proof.
  intros [Hp Hsa] Hroom Hmem Hlen. pose proof (length_port p Hp) as Hlp.
  destruct sa as [q addr|q addr|path|fam]; [| |done|done].
  - destruct Hsa as (-> & a & b & c & d & Ha & Hb & Hc & Hd & -> & Hne).
    pose proof (length_dotted a b c d Ha Hb Hc Hd).
    exists (dotted a b c d ++ bs ":" ++ num_digits 0 p). split; [apply (sock_ntop_in room mem p Hroom Hmem Hp); done || lia|].
    assert (length (dotted a b c d ++ bs ":" ++ num_digits 0 p) <= 21)%nat as Hl
      by (rewrite !length_app; cbn [length bs]; lia).
    split; [lia|]. intros u Eu.
    assert (addr_url (dotted a b c d ++ bs ":" ++ num_digits 0 p) (dotted a b c d) p) as Hau.
    { split; [done|]. by rewrite inet_addr_dotted. }
    destruct (parse_addr_url room resolve mem _ _ _ u Hau ltac:(lia) Hmem Eu) as (u' & E & Ea & En & _).
    exists u', sizeof_in. rewrite inet_addr_dotted in Ea by done. split_and!; try done.
    cbn. by rewrite !Z.eqb_refl.
  - destruct Hsa as (-> & Hb & Hl & Hex).
    destruct (bytes_words addr 8 Hb Hl) as (W & -> & HW & H8).
    destruct (ntop_reads_as room W ltac:(lia) HW H8 len) as (t & Et & Hlt & Ht);
      [unfold NGX_INET6_ADDRSTRLEN; lia|done|].
    exists (bs "[" ++ t ++ bs "]" ++ bs ":" ++ num_digits 0 p). split_and!.
    + cbn [ngx_sock_ntop]. rewrite Et. cbn [mbind option_bind]. rewrite ntohs_htons by lia.
      assert (ngx_vslprintf room (bs "]:%d") [AInt p] = Some (bs "]" ++ bs ":" ++ num_digits 0 p)) as ->; [|done].
      apply (emits_run _ 1); [|rewrite !length_app; cbn [length bs]; lia].
      rewrite <- (app_nil_r (num_digits 0 p)).
      eapply emits_app; [by apply (emits_byte 4 "]"%ch (bs ":%d"))|].
      eapply emits_app; [by apply (emits_byte 3 ":"%ch (bs "%d"))|].
      eapply emits_app; [apply (emits_d 2 []); lia|]. apply emits_end.
    + rewrite !length_app. unfold NGX_INET6_ADDRSTRLEN in Hlt. cbn [length bs]. lia.
    + intros u Eu. destruct (parse_url_in6 room resolve mem p Hroom Hmem Hp t (words_of W) u Ht Hlt Eu)
        as (u' & E & Ea & En).
      exists u', sizeof_in6. rewrite Eu in Ea. split_and!; try done.
      cbn. rewrite Z.eqb_refl. cbn. by rewrite bool_decide_eq_true_2.
Qed.

Lemma sock_ntop_parse_url_witness :
  let sa := sockaddr_in6 (htons 6379) (repeat 0 15 ++ [1]) in
  ngx_sock_ntop 64 sa 28 53 true = Some (bs "[::1]:6379") /\
  exists text, ngx_sock_ntop 64 sa 28 53 true = Some text /\ (length text <= 53)%nat /\
    forall u, url u = text -> exists u' sl, ngx_parse_url 64 (fun _ => None) 3 u = Some (NGX_OK, u') /\
      addrs u' = [mk_addr text (Some sa) sl] /\ naddrs u' = 1%nat /\ ngx_cmp_sockaddr sa sa true = Some NGX_OK.
Proof.
  intros sa. split; [vm_compute; reflexivity|].
  apply (sock_ntop_parse_url 64 (fun _ => None) 3 sa 6379 28 53); [|lia..].
  split; [lia|]. split; [reflexivity|]. split; [|split; [reflexivity|discriminate]].
  repeat constructor; discriminate.
Defined.

End NgxInet.
