(* ===== verification/HttpArgs.v ===== *)
(** * Unsafe URIs, arguments and headers

    The rest of [src/src/http/ngx_http_parse.c]: [ngx_http_parse_unsafe_uri], which checks a URI that comes from
    inside the server, [ngx_http_arg], which finds an argument of the query, [ngx_http_parse_multi_header_lines], which
    finds a cookie, and [ngx_http_header]; with [ngx_strlcasestrn] of [ngx_string.c].

    Texts are lists of bytes, followed by a NUL where the code compares C strings; a pointer into a text is the
    rest of it. *)

From S2P Require Import Prelude NgxString HttpRequest NgxCodec NgxInet.

Module HttpArgs.
Import NgxString NgxCodec NgxInet.

(** ** [ngx_http_parse_unsafe_uri] *)

(** [ngx_path_separator] *)
Definition path_separator (c : Z) : bool := c =? "/"%ch.

(** Two dots at [p], and then the end or a separator. *)
Definition dot_dot (p : list Z) : bool :=
  match p with
  | a :: b :: p' =>
      (a =? "."%ch) && (b =? "."%ch) && match p' with [] => true | c :: _ => path_separator c end
  | _ => false
  end.

(** The first loop: unsafe, or the length of the path, the arguments and whether there was a percent sign. *)
Inductive uri_scan : Type := ScanUnsafe | Scanned (uri : list Z) (args : option (list Z)) (quoted : bool).

Definition scan_cons (ch : Z) (s : uri_scan) : uri_scan :=
  match s with ScanUnsafe => ScanUnsafe | Scanned u a q => Scanned (ch :: u) a q end.

Fixpoint unsafe_loop (p : list Z) (quoted : bool) : uri_scan :=
  match p with
  | [] => Scanned [] None quoted
  | ch :: p' =>
      if ch =? "%"%ch then scan_cons ch (unsafe_loop p' true)
      else if is_usual ch then scan_cons ch (unsafe_loop p' quoted)
      else if ch =? "?"%ch then Scanned [] (Some p') quoted
      else if ch =? 0 then ScanUnsafe
      else if path_separator ch && (2 <? length p)%nat && dot_dot p' then ScanUnsafe
      else scan_cons ch (unsafe_loop p' quoted)
  end.

(** The second loop, over the unescaped URI. *)
Fixpoint unescaped_loop (p : list Z) : bool :=
  match p with
  | [] => true
  | ch :: p' =>
      if ch =? 0 then false
      else if path_separator ch && (2 <? length p)%nat && dot_dot p' then false
      else unescaped_loop p'
  end.

(** [NGX_OK] with the URI and the arguments, the [goto unsafe], or no memory. *)
Inductive unsafe_res : Type := UriOk (uri : list Z) (args : option (list Z)) | UriUnsafe | UriNoMemory.

Definition parse_unsafe_uri (mem : bool) (uri : list Z) : unsafe_res :=
  if (length uri =? 0)%nat || (hd 0 uri =? "?"%ch) then UriUnsafe
  else if dot_dot uri then UriUnsafe
  else
    match unsafe_loop uri false with
    | ScanUnsafe => UriUnsafe
    | Scanned uri args quoted =>
        if quoted then
          if negb mem then UriNoMemory
          else
            let u := (ngx_unescape_uri unescape_none uri).1 in
            if dot_dot u then UriUnsafe
            else if unescaped_loop u then UriOk u args else UriUnsafe
        else UriOk uri args
    end.

(** ** [ngx_http_arg] *)

(** [ngx_strlcasestrn]: the offset of [name] in [s1], of which [last] bytes are searched. *)
Fixpoint ngx_strlcasestrn (s1 : list Z) (last : Z) (name : list Z) : option nat :=
  let n := Z.of_nat (length name) - 1 in
  match s1 with
  | [] => None
  | c :: s1' =>
      if last - n <=? 0 then None
      else if (ngx_tolower c =? ngx_tolower (hd 0 name)) && (ngx_strncasecmp s1' (tail name) (length name - 1) =? 0)
      then Some 0%nat
      else S <$> ngx_strlcasestrn s1' (last - 1) name
  end.

(** The loop; [prev] is the byte before [p], if there is one. *)
Fixpoint arg_loop (fuel : nat) (prev : option Z) (p name : list Z) : option (list Z) :=
  match fuel with
  | O => None
  | S fuel' =>
      match p with
      | [] => None
      | _ =>
          match ngx_strlcasestrn p (Z.of_nat (length p) - 1) name with
          | None => None
          | Some k =>
              let prev := match k with O => prev | S k' => p !! k' end in
              let p := drop k p in
              let len := length name in
              if match prev with None => true | Some c => c =? "&"%ch end && (default 0 (p !! len) =? "="%ch) then
                let e := default (length p) (ngx_strlchr p "&"%ch) in
                Some (drop (len + 1) (take e p))
              else arg_loop fuel' (head p) (drop 1 p) name
          end
      end
  end.

(** The value, or [None] for [NGX_DECLINED]; every pass goes on by a byte.  The name is not empty. *)
Definition http_arg (args name : list Z) : option (list Z) := arg_loop (S (length args)) None args name.

(** ** [ngx_http_header] *)

(** [ngx_table_elt_t] *)
Record elt_t : Type := mk_elt { e_hash : Z; e_key : list Z; e_value : list Z }.

(** The lookup in the parts of a list; the outer [None] is the element read in a later part that is empty. *)
Definition header_is (name : list Z) (h : elt_t) : bool :=
  negb (e_hash h =? 0) && (length name =? length (e_key h))%nat && (ngx_strncasecmp (e_key h) name (length name) =? 0).

Fixpoint part_find (name : list Z) (part : list elt_t) : option (list Z) :=
  match part with
  | [] => None
  | h :: part' => if header_is name h then Some (e_value h) else part_find name part'
  end.

Fixpoint http_header (name : list Z) (parts : list (list elt_t)) : option (option (list Z)) :=
  match parts with
  | [] => Some None
  | part :: parts' =>
      match part_find name part with
      | Some v => Some (Some v)
      | None => match parts' with [] :: _ => None | _ => http_header name parts' end
      end
  end.

(** ** [ngx_http_parse_multi_header_lines] *)

Fixpoint skip_spaces_in (p : list Z) : list Z :=
  match p with c :: p' => if c =? " "%ch then skip_spaces_in p' else p | [] => p end.

(** From the label [skip] on. *)
Fixpoint skip_item (p : list Z) : list Z :=
  match p with
  | [] => []
  | ch :: p' => if (ch =? ";"%ch) || (ch =? ","%ch) then skip_spaces_in p' else skip_item p'
  end.

(** The loop over one header, with ([want]) or without a value; [Some []] stands for the match without a value. *)
Fixpoint header_loop (fuel : nat) (want : bool) (start name : list Z) : option (option (list Z)) :=
  match fuel with
  | O => None
  | S fuel' =>
      match start with
      | [] => Some None
      | _ =>
          if negb (ngx_strncasecmp start name (length name) =? 0) then header_loop fuel' want (skip_item start) name
          else
            let start := skip_spaces_in (drop (length name) start) in
            if negb want then
              match start with
              | [] => Some (Some [])
              | c :: _ => if c =? ","%ch then Some (Some []) else header_loop fuel' want (skip_item start) name
              end
            else
              match start with
              | [] => header_loop fuel' want (skip_item start) name
              | c :: start =>
                  if negb (c =? "="%ch) then header_loop fuel' want (skip_item start) name
                  else
                    let start := skip_spaces_in start in
                    Some (Some (take (default (length start) (ngx_strlchr start ";"%ch)) start))
              end
      end
  end.

(** The index of the header and the value, or [NGX_DECLINED].  Every pass takes a byte; the name is not empty. *)
Fixpoint multi_header_lines (i : Z) (want : bool) (headers : list (list Z)) (name : list Z) : option (Z * list Z) :=
  match headers with
  | [] => Some (NGX_DECLINED, [])
  | v :: headers' =>
      if (length v <? length name)%nat then multi_header_lines (i + 1) want headers' name
      else
        x ← header_loop (S (length v)) want v name;
        match x with
        | Some value => Some (i, value)
        | None => multi_header_lines (i + 1) want headers' name
        end
  end.
(** ** Safe URIs *)

Lemma dot_dot_length p : dot_dot p = true -> (2 <= length p)%nat.
Proof. destruct p as [|a [|b p]]; cbn; try done. intros _. lia. Qed.

(** What both loops check at a separator. *)
Lemma separator_check ch p' : (path_separator ch && (2 <? length (ch :: p'))%nat && dot_dot p') = path_separator ch && dot_dot p'.
Proof.
  destruct (path_separator ch); [|done]. cbn [andb length]. destruct (dot_dot p') eqn:E; [|by rewrite andb_false_r].
  apply dot_dot_length in E. rewrite (proj2 (Nat.ltb_lt _ _)); [done|lia].
Qed.

Lemma unescaped_loop_safe u : unescaped_loop u = true ->
  0 ∉ u /\ forall pre rest, u = pre ++ "/"%ch :: rest -> dot_dot rest = false.
Proof.
  induction u as [|ch u IH]; [intros _; split; [set_solver|by intros [|? ?] ?]|]. cbn [unescaped_loop]. rewrite separator_check.
  destruct (Z.eqb_spec ch 0); [done|]. destruct (path_separator ch && dot_dot u) eqn:E; [done|]. intros [H1 H2]%IH.
  split; [set_solver|]. intros [|x pre] rest.
  - intros [= -> ->]. cbn in E. done.
  - cbn [app]. intros [= <- ->]. by eapply H2.
Qed.

Definition tail_of (args : option (list Z)) : list Z := match args with Some a => "?"%ch :: a | None => [] end.

Lemma unsafe_loop_quoted p q u args q' : unsafe_loop p q = Scanned u args q' -> q = true -> q' = true.
Proof.
  revert q u. induction p as [|ch p IH]; intros q u; cbn [unsafe_loop]; [by intros [= _ _ <-]|].
  assert (forall q1, scan_cons ch (unsafe_loop p q1) = Scanned u args q' -> q1 = true -> q' = true) as Hk.
  { intros q1 H. destruct (unsafe_loop p q1) as [|u1 a1 q2] eqn:E; [done|]. injection H as _ <- <-. by eapply IH. }
  repeat match goal with |- context [if ?b then _ else _] => destruct b end; try done; try (by apply Hk).
  - intros H _. by apply (Hk true).
  - by intros [= _ _ <-].
Qed.

Lemma unsafe_loop_safe p : forall q u args q', unsafe_loop p q = Scanned u args q' ->
  p = u ++ tail_of args /\ 0 ∉ u /\ (q' = false -> "%"%ch ∉ u) /\
  forall pre rest, u = pre ++ "/"%ch :: rest -> dot_dot (rest ++ tail_of args) = false.
Proof.
  induction p as [|ch p IH]; intros q u args q'; cbn [unsafe_loop].
  { intros [= <- <- <-]. split_and!; [done|set_solver|set_solver|by intros [|? ?] ?]. }
  rewrite separator_check.
  (* a byte that is kept *)
  assert (forall q1, scan_cons ch (unsafe_loop p q1) = Scanned u args q' -> ch <> 0 -> (ch = "%"%ch -> q' = true) ->
    (path_separator ch = true -> dot_dot p = false) ->
    ch :: p = u ++ tail_of args /\ 0 ∉ u /\ (q' = false -> "%"%ch ∉ u) /\
    forall pre rest, u = pre ++ "/"%ch :: rest -> dot_dot (rest ++ tail_of args) = false) as Hkeep.
  { intros q1 H Hnz Hq Hsep. destruct (unsafe_loop p q1) as [|u1 a1 q2] eqn:E; [done|]. injection H as <- <- <-.
    destruct (IH _ _ _ _ E) as (-> & H1 & H2 & H3). split; [done|]. split; [set_solver|]. split.
    - intros Hf. apply not_elem_of_cons. split; [|by apply H2]. intros Hc. specialize (Hq (eq_sym Hc)). congruence.
    - intros [|x pre] rest; cbn [app]; [intros [= -> ->]; by apply Hsep|intros [= <- ->]; by eapply H3]. }
  destruct (Z.eqb_spec ch "%"%ch) as [->|Hp].
  { intros H. apply (Hkeep true); try done. intros _. destruct (unsafe_loop p true) as [|u1 a1 q2] eqn:E; [done|].
    injection H as _ _ <-. by eapply unsafe_loop_quoted. }
  destruct (is_usual ch) eqn:Eu.
  { intros H. apply (Hkeep q H); [by intros ->|done|]. unfold path_separator. destruct (Z.eqb_spec ch "/"%ch) as [->|]; [|done]. by vm_compute in Eu. }
  destruct (Z.eqb_spec ch "?"%ch) as [->|]; [intros [= <- <- <-]; split_and!; [done|set_solver|set_solver|by intros [|? ?] ?]|].
  destruct (Z.eqb_spec ch 0); [done|]. destruct (path_separator ch && dot_dot p) eqn:E; [done|]. intros H. apply (Hkeep q H); try done.
  intros Hs. by rewrite Hs in E.
Qed.

(** A part of a URI at its start or behind a slash. *)
Definition segment_of (u rest : list Z) : Prop := exists pre, u = pre ++ rest /\ (pre = [] \/ exists pre', pre = pre' ++ ["/"%ch]).

(** C7: a URI that [ngx_http_parse_unsafe_uri] accepts has no NUL byte, and a segment of two dots only in one place: as its
    last segment, when a question mark followed it and the URI had no escapes. *)
Theorem unsafe_uri_safe mem uri u args :
  parse_unsafe_uri mem uri = UriOk u args ->
  0 ∉ u /\ forall rest, segment_of u rest -> dot_dot rest = true -> rest = bs ".." /\ exists a, args = Some a /\ uri = u ++ "?"%ch :: a.
Proof.
  unfold parse_unsafe_uri. destruct (_ || _); [done|]. destruct (dot_dot uri) eqn:Ed; [done|].
  destruct (unsafe_loop uri false) as [|u1 a1 q] eqn:El; [done|]. destruct (unsafe_loop_safe _ _ _ _ _ El) as (Euri & H0 & _ & Hsep).
  destruct q.
  - destruct mem; [|done]. cbn [negb]. destruct (dot_dot (ngx_unescape_uri unescape_none u1).1) eqn:E1; [done|].
    destruct (unescaped_loop (ngx_unescape_uri unescape_none u1).1) eqn:E2; [|done]. intros [= <- <-].
    destruct (unescaped_loop_safe _ E2) as [Hz Hs]. split; [done|]. intros rest (pre & Eu & Hpre) Hd. exfalso.
    destruct Hpre as [->|[pre' ->]]; [cbn [app] in Eu; congruence|]. rewrite <- app_assoc in Eu. specialize (Hs _ _ Eu). congruence.
  - intros [= <- <-]. split; [done|]. intros rest (pre & Eu & Hpre) Hd.
    assert (dot_dot (rest ++ tail_of a1) = false) as Hf.
    { destruct Hpre as [->|[pre' ->]]; [cbn [app] in Eu; by rewrite <- Eu, <- Euri|]. rewrite <- app_assoc in Eu. by eapply Hsep. }
    destruct rest as [|x [|y [|z rest]]]; try done.
    + assert (x = "."%ch /\ y = "."%ch) as [-> ->] by (cbn in Hd; lia). split; [done|]. destruct a1 as [a|]; [by exists a|done].
    + cbn in Hd, Hf. congruence.
Qed.

Lemma unsafe_uri_safe_witness :
  parse_unsafe_uri true (bs "/a%2e/b?q") = UriOk (bs "/a./b") (Some (bs "q")) /\ 0 ∉ bs "/a./b".
Proof.
  split; [vm_compute; reflexivity|]. apply (unsafe_uri_safe true (bs "/a%2e/b?q") (bs "/a./b") (Some (bs "q"))). vm_compute. reflexivity.
Defined.

(** The exception is real. *)
Example dot_dot_before_args : parse_unsafe_uri true (bs "/a/..?q") = UriOk (bs "/a/..") (Some (bs "q")).
Proof. vm_compute. reflexivity. Qed.


(** ** Arguments *)

(** [name] is at the start of [l], in any case of letters. *)
Definition name_at (name l : list Z) : bool := bool_decide (ngx_strlow (take (length name) l) = ngx_strlow name).

(** The value of the parameter [p], if it is called [name]. *)
Definition param_value (name p : list Z) : option (list Z) :=
  if name_at name p && (default 0 (p !! length name) =? "="%ch) then Some (drop (length name + 1) p) else None.

Fixpoint join_args (ps : list (list Z)) : list Z :=
  match ps with [] => [] | [p] => p | p :: ps' => p ++ "&"%ch :: join_args ps' end.

Definition name_ok (name : list Z) : Prop := name <> [] /\ 0 ∉ name /\ "&"%ch ∉ name.

Lemma strncasecmp_name name l : 0 ∉ name ->
  (ngx_strncasecmp l name (length name) =? 0) = bool_decide (ngx_strlow (take (length name) l) = ngx_strlow name).
Proof.
  revert l. induction name as [|c name IH]; intros l Hz; [done|]. cbn [length ngx_strncasecmp hd tail].
  assert (ngx_tolower c <> 0) as Hc.
  { intros E. apply Hz. apply list_elem_of_In. left. revert E. unfold ngx_tolower, in_range. destruct (_ && _) eqn:Er; [|done].
    intros E. apply Z.lor_eq_0_iff in E. lia. }
  destruct l as [|x l]; cbn [hd tail take].
  - change (ngx_tolower 0) with 0. rewrite (proj2 (Z.eqb_neq 0 _)) by congruence. rewrite bool_decide_false by done. lia.
  - unfold ngx_strlow. rewrite !fmap_cons. fold (ngx_strlow (take (length name) l)) (ngx_strlow name).
    destruct (Z.eqb_spec (ngx_tolower x) (ngx_tolower c)) as [E|E].
    + rewrite (proj2 (Z.eqb_neq (ngx_tolower x) 0)) by congruence. rewrite IH by set_solver. rewrite E.
      apply bool_decide_ext. split; [by intros ->|by intros [= ?]].
    + rewrite bool_decide_false by congruence. lia.
Qed.

(** The search tries every place in turn. *)
Fixpoint arg_scan (prev : option Z) (p name : list Z) : option (list Z) :=
  match p with
  | [] => None
  | c :: p' =>
      if match prev with None => true | Some c => c =? "&"%ch end && name_at name p && (default 0 (p !! length name) =? "="%ch)
      then Some (drop (length name + 1) (take (default (length p) (ngx_strlchr p "&"%ch)) p))
      else arg_scan (Some c) p' name
  end.

Lemma strlcasestrn_first name : name <> [] -> 0 ∉ name -> forall s last,
  match ngx_strlcasestrn s last name with
  | Some k => (k < length s)%nat /\ name_at name (drop k s) = true /\
      forall j, (j < k)%nat -> name_at name (drop j s) = false
  | None => forall j, Z.of_nat j + Z.of_nat (length name) <= last -> (j < length s)%nat -> name_at name (drop j s) = false
  end.
Proof.
  intros Hne Hz. destruct name as [|c0 name]; [done|]. induction s as [|c s IH]; intros last; cbn [ngx_strlcasestrn].
  { intros j _ Hj. cbn in Hj. lia. }
  cbn [length hd tail]. replace (S (length name) - 1)%nat with (length name) by lia.
  assert ((ngx_tolower c =? ngx_tolower c0) && (ngx_strncasecmp s name (length name) =? 0) = name_at (c0 :: name) (c :: s)) as ->.
  { rewrite strncasecmp_name by set_solver. unfold name_at. cbn [length take]. unfold ngx_strlow. rewrite !fmap_cons.
    destruct (Z.eqb_spec (ngx_tolower c) (ngx_tolower c0)) as [->|E]; cbn [andb].
    - apply bool_decide_ext. split; [by intros ->|by intros [= ?]].
    - symmetry. apply bool_decide_false. congruence. }
  destruct (Z.leb_spec (last - (Z.of_nat (S (length name)) - 1)) 0) as [Hl|Hl].
  { intros j Hj _. cbn [length] in Hj. lia. }
  destruct (name_at (c0 :: name) (c :: s)) eqn:Es; [split; [cbn; lia|]; split; [done|]; intros j Hj; lia|].
  specialize (IH (last - 1)). destruct (ngx_strlcasestrn s (last - 1) (c0 :: name)) as [k|]; cbn [fmap option_fmap option_map].
  - destruct IH as (H1 & H2 & H3). split; [lia|]. split; [done|]. intros [|j] Hj; [done|]. apply H3. lia.
  - intros [|j] Hj Hjl; [done|]. apply IH; cbn [length] in *; lia.
Qed.

Lemma arg_scan_skip name k : forall p prev, (forall j, (j < k)%nat -> name_at name (drop j p) = false) -> (k <= length p)%nat ->
  arg_scan prev p name = arg_scan (match k with O => prev | S k' => p !! k' end) (drop k p) name.
Proof.
  induction k as [|k IH]; intros p prev H Hk; [by rewrite drop_0|]. destruct p as [|c p]; [cbn in Hk; lia|]. cbn [arg_scan drop].
  pose proof (H 0%nat ltac:(lia)) as H0. cbn [drop] in H0. rewrite H0, andb_false_r. cbn [andb].
  rewrite (IH p (Some c)); [by destruct k| |cbn in Hk; lia]. intros j Hj. apply (H (S j)). lia.
Qed.

Lemma arg_scan_none name : forall p prev,
  (forall j, (j + length name < length p)%nat -> name_at name (drop j p) = false) -> arg_scan prev p name = None.
Proof.
  induction p as [|c p IH]; intros prev H; [done|]. cbn [arg_scan].
  rewrite IH by (intros j Hj; apply (H (S j)); cbn [length]; lia).
  destruct (decide (length name < length (c :: p))%nat) as [Hl|Hl].
  - pose proof (H 0%nat ltac:(cbn [length] in *; lia)) as H0. rewrite drop_0 in H0. rewrite H0, andb_false_r. done.
  - assert (default 0 ((c :: p) !! length name) =? "="%ch = false) as ->; [|by rewrite andb_false_r].
    rewrite lookup_ge_None_2 by lia. done.
Qed.

Lemma arg_loop_scan name : name <> [] -> 0 ∉ name -> forall fuel p prev, (length p < fuel)%nat ->
  arg_loop fuel prev p name = arg_scan prev p name.
Proof.
  intros Hne Hz. induction fuel as [|fuel IH]; intros p prev Hf; [lia|]. cbn [arg_loop]. destruct p as [|c p]; [done|].
  pose proof (strlcasestrn_first name Hne Hz (c :: p) (Z.of_nat (length (c :: p)) - 1)) as Hs.
  destruct (ngx_strlcasestrn (c :: p) (Z.of_nat (length (c :: p)) - 1) name) as [k|].
  - destruct Hs as (H1 & H2 & H3). rewrite (arg_scan_skip name k (c :: p) prev H3) by lia. cbv zeta.
    destruct (drop k (c :: p)) as [|x q] eqn:Eq; [apply (f_equal length) in Eq; rewrite length_drop in Eq; cbn [length] in *; lia|].
    cbn [arg_scan]. rewrite H2, andb_true_r. destruct (_ && _); [done|]. cbn [head drop]. rewrite drop_0. apply IH.
    apply (f_equal length) in Eq. rewrite length_drop in Eq. cbn [length] in *. lia.
  - symmetry. apply arg_scan_none. intros j Hj. apply Hs; lia.
Qed.

(** *** Over the parameters *)

Lemma tolower_amp c : ngx_tolower c = "&"%ch -> c = "&"%ch.
Proof.
  unfold ngx_tolower, in_range. destruct (_ && _) eqn:E; [|done]. intros H. assert (0 <= c < Z.of_nat 91) as Hr by lia.
  pose proof (range_forall (fun c => (c <? 65) || negb (Z.lor c 32 =? 38)) 91 ltac:(vm_compute; reflexivity) c Hr) as Hx.
  cbn in Hx. rewrite H in Hx. lia.
Qed.

(** A name is not found across the end of a parameter. *)
Lemma name_at_param name p rest : "&"%ch ∉ name -> "&"%ch ∉ p ->
  (name_at name (p ++ "&"%ch :: rest) && (default 0 ((p ++ "&"%ch :: rest) !! length name) =? "="%ch)) =
  (name_at name p && (default 0 (p !! length name) =? "="%ch)).
Proof.
  intros Hn Hp. destruct (decide (length name < length p)%nat) as [Hl|Hl].
  - unfold name_at. rewrite take_app_le by lia. by rewrite lookup_app_l by lia.
  - rewrite (lookup_ge_None_2 p) by lia. cbn [default]. rewrite andb_false_r. destruct (decide (length name = length p)) as [E|E].
    + rewrite lookup_app_r, E, Nat.sub_diag by lia. cbn. by rewrite andb_false_r.
    + assert (name_at name (p ++ "&"%ch :: rest) = false) as ->; [|done]. apply bool_decide_false. intros Hs.
      apply (f_equal (fun l => l !! length p)) in Hs. unfold ngx_strlow in Hs. rewrite !list_lookup_fmap in Hs.
      rewrite lookup_take_lt, lookup_app_r, Nat.sub_diag in Hs by lia. cbn in Hs.
      destruct (name !! length p) as [x|] eqn:Ex; [|done]. cbn in Hs. injection Hs as Hs. symmetry in Hs. apply tolower_amp in Hs. subst x.
      apply Hn. by eapply list_elem_of_lookup_2.
Qed.

Lemma strlchr_param p rest : "&"%ch ∉ p -> default (length (p ++ "&"%ch :: rest)) (ngx_strlchr (p ++ "&"%ch :: rest) "&"%ch) = length p.
Proof.
  assert ("&"%ch ∉ p -> ngx_strlchr (p ++ "&"%ch :: rest) "&"%ch = Some (length p)) as H; [|intros Hp; by rewrite H].
  induction p as [|c p IH]; [done|]. intros Hp. cbn [app ngx_strlchr]. rewrite (proj2 (Z.eqb_neq _ _)) by set_solver.
  by rewrite IH by set_solver.
Qed.

Lemma strlchr_absent p : "&"%ch ∉ p -> ngx_strlchr p "&"%ch = None.
Proof.
  induction p as [|c p IH]; [done|]. intros Hp. cbn [ngx_strlchr]. rewrite (proj2 (Z.eqb_neq _ _)) by set_solver. by rewrite IH by set_solver.
Qed.

(** Inside a parameter no name starts. *)
Lemma arg_scan_inside name p rest c : "&"%ch ∉ p -> c <> "&"%ch ->
  arg_scan (Some c) (p ++ "&"%ch :: rest) name = arg_scan (Some "&"%ch) rest name /\ arg_scan (Some c) p name = None.
Proof.
  revert c. induction p as [|x p IH]; intros c Hp Hc; cbn [app arg_scan]; rewrite (proj2 (Z.eqb_neq _ _) Hc); cbn [andb]; [done|].
  apply IH; set_solver.
Qed.

Lemma arg_scan_join name : "&"%ch ∉ name -> name <> [] -> forall ps, Forall (fun p => "&"%ch ∉ p) ps -> forall prev,
  match prev with None => True | Some c => c = "&"%ch end ->
  arg_scan prev (join_args ps) name = head (omap (param_value name) ps).
Proof.
  intros Hn Hne. induction 1 as [|p ps Hp Hps IH]; intros prev Hprev; [done|].
  assert (match prev with None => true | Some c => c =? "&"%ch end = true) as Hpr by (by destruct prev; subst).
  assert (param_value name [] = None) as Hnil by (unfold param_value, name_at; by destruct name).
  destruct ps as [|p' ps].
  - cbn [join_args omap list_omap]. destruct p as [|c p]; [by rewrite Hnil|]. cbn [arg_scan]. rewrite Hpr. cbn [andb].
    unfold param_value at 1. destruct (name_at name (c :: p) && _) eqn:E.
    + cbn [head]. rewrite strlchr_absent by done. cbn [default]. by rewrite firstn_all.
    + apply (arg_scan_inside name p [] c); set_solver.
  - change (join_args (p :: p' :: ps)) with (p ++ "&"%ch :: join_args (p' :: ps)). cbn [omap list_omap]. specialize (IH (Some "&"%ch) eq_refl).
    cbn [omap list_omap] in IH. destruct p as [|c p].
    + rewrite Hnil. cbn [app arg_scan]. rewrite Hpr. cbn [andb]. 
      pose proof (name_at_param name [] (join_args (p' :: ps)) Hn ltac:(set_solver)) as Hs. cbn [app] in Hs. rewrite Hs.
      unfold param_value in Hnil. destruct (name_at name [] && _); [done|]. apply IH.
    + cbn [app arg_scan]. rewrite Hpr. cbn [andb]. change (c :: p ++ "&"%ch :: join_args (p' :: ps)) with ((c :: p) ++ "&"%ch :: join_args (p' :: ps)).
      rewrite name_at_param by done. unfold param_value at 1. destruct (name_at name (c :: p) && _).
      * cbn [head]. rewrite strlchr_param by done. by rewrite take_app_length.
      * destruct (arg_scan_inside name p (join_args (p' :: ps)) c) as [-> _]; [set_solver|set_solver|]. apply IH.
Qed.

(** the lookup of an argument gives the value of the first parameter of the query with the name, in any case of letters, and
    nothing when there is none: the parameters are the parts between ampersands, and neither a name inside another
    name nor one inside a value is taken for it. *)
Theorem http_arg_correct name ps :
  name_ok name -> Forall (fun p => "&"%ch ∉ p) ps ->
  http_arg (join_args ps) name = head (omap (param_value name) ps).
Proof.
  intros (Hne & Hz & Ha) Hps. unfold http_arg. rewrite arg_loop_scan by (done || lia). by apply arg_scan_join.
Qed.

Lemma http_arg_correct_witness :
  http_arg (bs "xid=1&v=id=2&&ID=3&id=4") (bs "id") = Some (bs "3") /\ name_ok (bs "id").
Proof.
  split.
  - exact (http_arg_correct (bs "id") [bs "xid=1"; bs "v=id=2"; []; bs "ID=3"; bs "id=4"]
      ltac:(split_and!; [done|apply (bool_decide_unpack _); by vm_compute|apply (bool_decide_unpack _); by vm_compute])
      ltac:(repeat constructor; apply (bool_decide_unpack _); by vm_compute)).
  - split_and!; [done|apply (bool_decide_unpack _); by vm_compute|apply (bool_decide_unpack _); by vm_compute].
Defined.

(** ** Headers and cookies *)

(** The lookup in a list whose later parts are not empty is the lookup among all its elements. *)
Lemma http_header_all name parts : Forall (fun p => p <> []) (tail parts) ->
  http_header name parts = Some (part_find name (concat parts)).
Proof.
  assert (forall a b, part_find name (a ++ b) = match part_find name a with Some v => Some v | None => part_find name b end) as Happ.
  { induction a as [|h a IH]; intros b; [done|]. cbn [app part_find]. by destruct (header_is name h). }
  induction parts as [|p parts IH]; intros H; [done|]. cbn [http_header concat tail] in *. rewrite Happ. destruct (part_find name p); [done|].
  destruct parts as [|[|e p'] parts]; [done|by apply Forall_cons_1 in H as [? _]|]. apply IH. by apply Forall_cons_1 in H as [_ ?].
Qed.

(** Cookies, names with values, and the header a client sends. *)
Fixpoint render_cookies (cs : list (list Z * list Z)) : list Z :=
  match cs with
  | [] => []
  | [(k, v)] => k ++ "="%ch :: v
  | (k, v) :: cs' => k ++ "="%ch :: v ++ bs "; " ++ render_cookies cs'
  end.

Definition no_sep (l : list Z) : Prop := Forall (fun c => c <> ";"%ch /\ c <> ","%ch) l.
Definition word_ok (k : list Z) : Prop := k <> [] /\ no_sep k /\ Forall (fun c => c <> "="%ch /\ c <> " "%ch /\ c <> 0) k.
Definition cookie_ok (c : list Z * list Z) : Prop := word_ok c.1 /\ no_sep c.2 /\ hd 0 c.2 <> " "%ch.

Definition cookie_value (name : list Z) (c : list Z * list Z) : option (list Z) :=
  if bool_decide (ngx_strlow c.1 = ngx_strlow name) then Some c.2 else None.

Lemma tolower_eq_sign c : ngx_tolower c = "="%ch -> c = "="%ch.
Proof.
  unfold ngx_tolower, in_range. destruct (_ && _) eqn:E; [|done]. intros H. assert (0 <= c < Z.of_nat 91) as Hr by lia.
  pose proof (range_forall (fun c => (c <? 65) || negb (Z.lor c 32 =? 61)) 91 ltac:(vm_compute; reflexivity) c Hr) as Hx.
  cbn in Hx. rewrite H in Hx. lia.
Qed.

Lemma skip_item_run l rest : no_sep l -> skip_item (l ++ bs "; " ++ rest) = skip_spaces_in rest /\ skip_item l = [].
Proof.
  induction 1 as [|c l [H1 H2] Hl [IH1 IH2]]; [done|]. cbn [app skip_item]. rewrite (proj2 (Z.eqb_neq _ _) H1), (proj2 (Z.eqb_neq _ _) H2). done.
Qed.

Lemma skip_spaces_word l : hd 0 l <> " "%ch -> skip_spaces_in l = l.
Proof. destruct l as [|c l]; [done|]. cbn [hd skip_spaces_in]. intros H. by rewrite (proj2 (Z.eqb_neq _ _) H). Qed.

(** The name at the start of a cookie: the same word, or a part of it. *)
Lemma name_at_cookie name k rest : word_ok name ->
  ngx_strlow (take (length name) (k ++ "="%ch :: rest)) = ngx_strlow name ->
  (ngx_strlow k = ngx_strlow name /\ length k = length name) \/
  (ngx_strlow k <> ngx_strlow name /\ exists a c b, k = a ++ c :: b /\ length a = length name).
Proof.
  intros (Hne & _ & Hw) H. destruct (Nat.lt_trichotomy (length name) (length k)) as [Hlt|[Heq|Hgt]].
  - right. split; [intros E; apply (f_equal length) in E; unfold ngx_strlow in E; rewrite !length_fmap in E; lia|].
    destruct (drop (length name) k) as [|c b] eqn:Ed; [apply (f_equal length) in Ed; rewrite length_drop in Ed; cbn in Ed; lia|].
    exists (take (length name) k), c, b. split; [by rewrite <- Ed, take_drop|]. rewrite length_take. lia.
  - left. rewrite take_app_length' in H by done. done.
  - exfalso. apply (f_equal (fun l => l !! length k)) in H. unfold ngx_strlow in H. rewrite !list_lookup_fmap in H.
    rewrite lookup_take_lt, lookup_app_r, Nat.sub_diag in H by lia. cbn in H.
    destruct (name !! length k) as [x|] eqn:Ex; [|done]. cbn in H. injection H as H. symmetry in H. apply tolower_eq_sign in H. subst x.
    rewrite list.Forall_forall in Hw. destruct (Hw "="%ch (list_elem_of_lookup_2 _ _ _ Ex)). done.
Qed.

Lemma render_cookies_hd cs : Forall cookie_ok cs -> hd 0 (render_cookies cs) <> " "%ch.
Proof.
  destruct 1 as [|[k v] cs [(Hne & _ & Hw) _] _]; [done|]. cbn [fst] in *. destruct k as [|c k]; [done|].
  apply Forall_cons_1 in Hw as [(_ & Hs & _) _]. by destruct cs.
Qed.

Lemma strlchr_value v rest : no_sep v ->
  take (default (length (v ++ bs "; " ++ rest)) (ngx_strlchr (v ++ bs "; " ++ rest) ";"%ch)) (v ++ bs "; " ++ rest) = v /\
  take (default (length v) (ngx_strlchr v ";"%ch)) v = v.
Proof.
  intros Hv. assert (ngx_strlchr (v ++ bs "; " ++ rest) ";"%ch = Some (length v) /\ ngx_strlchr v ";"%ch = None) as [-> ->].
  { induction Hv as [|c v [H1 _] Hv [IH1 IH2]]; [done|]. cbn [app ngx_strlchr]. rewrite (proj2 (Z.eqb_neq _ _) H1).
    change (bs "; " ++ rest) with (";"%ch :: " "%ch :: rest) in *. by rewrite IH1, IH2. }
  split; [exact (take_app_length v _)|apply firstn_all].
Qed.

(** What the loop does with the first cookie; [more] is what follows it. *)
Lemma header_loop_cookie name k v more fuel :
  word_ok name -> cookie_ok (k, v) -> (more = [] \/ exists cs, more = bs "; " ++ render_cookies cs /\ Forall cookie_ok cs) ->
  (0 < fuel)%nat ->
  header_loop (S fuel) true (k ++ "="%ch :: v ++ more) name =
  if bool_decide (ngx_strlow k = ngx_strlow name) then Some (Some v)
  else header_loop fuel true (match more with [] => [] | _ => drop 2 more end) name.
Proof.
  intros Hn [Hk [Hv Hv0]] Hmore Hf. cbn [fst snd] in *. destruct Hk as (Hkne & Hks & Hkw). pose proof Hn as (Hnne & _ & Hnw).
  assert (0 ∉ name) as Hz by (intros Hin; rewrite list.Forall_forall in Hnw; by destruct (Hnw 0 Hin) as (_ & _ & ?)).
  assert (forall l, no_sep l -> skip_item (l ++ more) = match more with [] => [] | _ => drop 2 more end) as Hskip.
  { intros l Hl. destruct Hmore as [->|(cs & -> & Hcs)]; [rewrite app_nil_r; by apply (skip_item_run l [])|].
    destruct (skip_item_run l (render_cookies cs) Hl) as [-> _]. apply skip_spaces_word. by apply render_cookies_hd. }
  assert (no_sep (k ++ "="%ch :: v)) as Hkv by (apply Forall_app; split; [done|by constructor]).
  cbn [header_loop]. destruct (k ++ "="%ch :: v ++ more) as [|x y] eqn:Exy; [by destruct k|]. rewrite <- Exy. clear x y Exy.
  rewrite strncasecmp_name by done. destruct (bool_decide_reflect (ngx_strlow (take (length name) (k ++ "="%ch :: v ++ more)) = ngx_strlow name)) as [E|E]; cbn [negb].
  - destruct (name_at_cookie name k (v ++ more) Hn E) as [[E1 E2]|[E1 (a & c & b & -> & Hla)]].
    + rewrite bool_decide_true by done. rewrite drop_app_length' by done. change (skip_spaces_in ("="%ch :: v ++ more)) with ("="%ch :: v ++ more).
      change (negb ("="%ch =? "="%ch)) with false. cbv iota zeta.
      assert (skip_spaces_in (v ++ more) = v ++ more) as ->.
      { apply skip_spaces_word. destruct v as [|c v]; [|exact Hv0]. destruct Hmore as [->|(cs & -> & _)]; done. }
      destruct Hmore as [->|(cs & -> & _)]; [rewrite app_nil_r; by rewrite (proj2 (strlchr_value v [] Hv))|by rewrite (proj1 (strlchr_value v _ Hv))].
    + rewrite bool_decide_false by done. rewrite <- app_assoc, drop_app_length' by done. cbn [app].
      apply Forall_app in Hkw as [_ Hkw]. apply Forall_cons_1 in Hkw as [(H1 & H2 & _) _]. cbn [skip_spaces_in].
      rewrite (proj2 (Z.eqb_neq c " "%ch) H2), (proj2 (Z.eqb_neq c "="%ch) H1). cbn [negb]. f_equal.
      rewrite <- (Hskip (b ++ "="%ch :: v)); [by rewrite <- app_assoc|]. apply Forall_app in Hks as [_ Hks]. apply Forall_cons_1 in Hks as [_ Hks].
      apply Forall_app. split; [done|by constructor].
  - rewrite bool_decide_false.
    + f_equal. rewrite <- (Hskip _ Hkv). by rewrite <- app_assoc.
    + intros E'. apply E. assert (length k = length name) as El by (apply (f_equal length) in E'; unfold ngx_strlow in E'; by rewrite !length_fmap in E').
      by rewrite take_app_length'.
Qed.

(** a cookie is found in a header of cookies: the value of the first one with the name, in any case of letters. *)
Theorem cookie_lookup name cs : word_ok name -> Forall cookie_ok cs -> forall fuel, (length cs < fuel)%nat ->
  header_loop fuel true (render_cookies cs) name = Some (head (omap (cookie_value name) cs)).
Proof.
  intros Hn. induction 1 as [|[k v] cs Hc Hcs IH]; intros fuel Hf; (destruct fuel as [|fuel]; [cbn in Hf; lia|]); [done|]. cbn [length] in Hf.
  assert (render_cookies ((k, v) :: cs) = k ++ "="%ch :: v ++ match cs with [] => [] | _ => bs "; " ++ render_cookies cs end) as ->.
  { destruct cs; [cbn [render_cookies]; by rewrite app_nil_r|done]. }
  rewrite header_loop_cookie; [|done|done| |lia].
  - cbn [omap list_omap]. unfold cookie_value at 1. cbn [fst snd]. destruct (bool_decide _); [done|].
    rewrite <- (IH fuel) by lia. f_equal. destruct cs as [|c cs]; [done|]. reflexivity.
  - destruct cs as [|c cs]; [by left|]. right. by exists (c :: cs).
Qed.

Lemma render_cookies_length cs : Forall cookie_ok cs -> (length cs <= length (render_cookies cs))%nat.
Proof.
  induction 1 as [|[k v] cs _ _ IH]; [done|]. destruct cs as [|c cs]; cbn [render_cookies length] in *; rewrite !length_app; cbn [length]; [lia|].
  rewrite !length_app. cbn [length] in *. lia.
Qed.

(** Through the whole function, for one header of cookies. *)
Theorem multi_header_cookie name cs : word_ok name -> Forall cookie_ok cs -> (length name <= length (render_cookies cs))%nat ->
  multi_header_lines 0 true [render_cookies cs] name =
  Some (match head (omap (cookie_value name) cs) with Some v => (0, v) | None => (NGX_DECLINED, []) end).
Proof.
  intros Hn Hcs Hl. cbn [multi_header_lines]. rewrite (proj2 (Nat.ltb_ge _ _)) by done.
  pose proof (render_cookies_length cs Hcs). rewrite cookie_lookup by (done || lia). cbn [mbind option_bind].
  by destruct (head (omap (cookie_value name) cs)).
Qed.

(** A cookie without a value hides the one behind it: the separator is taken for the missing equals sign and skipped. *)
Example cookie_without_value :
  multi_header_lines 0 true [bs "x; x=1; y=2"] (bs "x") = Some (NGX_DECLINED, []) /\
  multi_header_lines 0 true [bs "x; y=2; x=1"] (bs "x") = Some (0, bs "1").
Proof. vm_compute. done. Qed.

End HttpArgs.
