(* ===== verification/RangeFilter.v ===== *)
(** * The range filter

    [src/src/http/modules/ngx_http_range_filter_module.c]: the parser of the [Range] header,
    the header filter that decides on a partial response, and the body filters that cut one
    range out of the response or send several as [multipart/byteranges].

    A header value is the bytes between its pointer and the terminating NUL.  [None] is
    an access outside a buffer. *)

From S2P Require Import Prelude NgxString Sprintf NgxTimes HttpRequest HttpChunked.

Module RangeFilter.
Import NgxString Sprintf NgxTimes HttpChunked.

Definition NGX_HTTP_OK : Z := 200.
Definition NGX_HTTP_PARTIAL_CONTENT : Z := 206.
Definition NGX_HTTP_RANGE_NOT_SATISFIABLE : Z := 416.
Definition NGX_HTTP_VERSION_10 : Z := 1000.
(** [sizeof("-9223372036854775808") - 1] *)
Definition NGX_OFF_T_LEN : Z := 20.

(** [ngx_http_range_t] *)
Record range_t : Type := mk_range { rg_start : Z; rg_end : Z; rg_content : list Z }.

#[export] Instance eta_range : Eta range_t := fun r => mk_range (rg_start r) (rg_end r) (rg_content r).

(** [ngx_http_range_filter_ctx_t] *)
Record rctx_t : Type := mk_rctx { rc_offset : Z; boundary_header : list Z; rc_ranges : list range_t }.

#[export] Instance eta_rctx : Eta rctx_t := fun c => mk_rctx (rc_offset c) (boundary_header c) (rc_ranges c).

(** ** Parsing *)

Definition is_sp (c : Z) : bool := c =? SP.

(** [while ( *p == ' ') { p++; }] *)
Fixpoint skip_sp (p : list Z) : list Z :=
  match p with c :: p' => if is_sp c then skip_sp p' else p | [] => p end.

(** [while ( *p >= '0' && *p <= '9') { n = n * 10 + *p++ - '0'; }] *)
Fixpoint read_off (p : list Z) (n : Z) : Z * list Z :=
  match p with
  | c :: p' => if is_digit c then read_off p' (i64 (n * 10 + c - "0"%ch)) else (n, p)
  | [] => (n, p)
  end.

(** What one range is read to: the text at the label [found], [start] and [end], or
    the return of 416. *)
Inductive range_parsed : Type := Found (p : list Z) (start end_ : Z) | Unsatisfiable.

(** From the digits of [end] on. *)
Definition parse_end (content_length start : Z) (suffix : bool) (p : list Z) : option range_parsed :=
  c ← p !! 0%nat;
  if negb (is_digit c) then Some Unsatisfiable
  else
    let '(end_, p) := read_off p 0 in
    let p := skip_sp p in
    c ← p !! 0%nat;
    if negb (c =? ","%ch) && negb (c =? 0) then Some Unsatisfiable
    else
      let '(start, end_) := if suffix then (i64 (content_length - end_), i64 (content_length - 1)) else (start, end_) in
      Some (Found p start (if end_ >=? content_length then content_length else i64 (end_ + 1))).

Definition parse_one (content_length : Z) (p : list Z) : option range_parsed :=
  let p := skip_sp p in
  c ← p !! 0%nat;
  if negb (c =? "-"%ch) then
    if negb (is_digit c) then Some Unsatisfiable
    else
      let '(start, p) := read_off p 0 in
      let p := skip_sp p in
      c ← p !! 0%nat;
      if negb (c =? "-"%ch) then Some Unsatisfiable
      else
        let p := skip_sp (drop 1 p) in
        c ← p !! 0%nat;
        if (c =? ","%ch) || (c =? 0) then Some (Found p start content_length)
        else parse_end content_length start false p
  else parse_end content_length 0 true (drop 1 p).

(** The loop; [ranges] counts down, [mem] is the number of [ngx_array_push]es that succeed.  Every
    pass takes a byte of the text. *)
Fixpoint parse_loop (fuel mem : nat) (content_length : Z) (p : list Z) (ranges size : Z) (rs : list range_t)
    : option (Z * list range_t) :=
  match fuel with
  | O => None
  | S fuel' =>
      x ← parse_one content_length p;
      match x with
      | Unsatisfiable => Some (NGX_HTTP_RANGE_NOT_SATISFIABLE, rs)
      | Found p start end_ =>
          let next mem ranges size rs :=
            c ← p !! 0%nat;
            if c =? ","%ch then parse_loop fuel' mem content_length (drop 1 p) ranges size rs
            else if (length rs =? 0)%nat then Some (NGX_HTTP_RANGE_NOT_SATISFIABLE, rs)
            else if size >? content_length then Some (NGX_DECLINED, rs)
            else Some (NGX_OK, rs) in
          if start <? end_ then
            match mem with
            | O => Some (NGX_ERROR, rs)
            | S mem' =>
                let rs := rs ++ [mk_range start end_ []] in
                let size := i64 (size + i64 (end_ - start)) in
                if ranges =? 0 then Some (NGX_DECLINED, rs)
                else next mem' (u64 (ranges - 1)) size rs
            end
          else next mem ranges size rs
      end
  end.

(** [ngx_http_range_parse] *)
Definition range_parse (mem : nat) (content_length ranges : Z) (value : list Z) : option (Z * list range_t) :=
  parse_loop (S (length value)) mem content_length (drop 6 value ++ [0]) ranges 0 [].

(** ** The header filter *)

(** What the filter reads of the request and its configuration. *)
Record rreq_t : Type := mk_rreq {
  http_version : Z;
  status : Z;
  is_main : bool;
  length_n : Z;
  allow_ranges : bool;
  single_range : bool;
  max_ranges : Z;
  h_range : option (list Z);
  h_if_range : option (list Z);
  out_etag : option (list Z);
  last_modified : Z;
  content_type : list Z;
  content_type_len : Z;
  charset : list Z
}.

(** What it does: the response goes on as it is or with [Accept-Ranges: bytes], it becomes a
    partial one with its headers, or it is refused. *)
Inductive outcome : Type :=
| Untouched
| AcceptRanges
| Partial (ctx : rctx_t) (content_range new_type : option (list Z)) (new_length : Z)
| NotSatisfiable (content_range : list Z)
| Failed.

(** [ngx_sprintf] into a buffer of [size] bytes. *)
Definition sprintf_into (size : Z) (fmt : list Z) (args : list arg) : option (list Z) :=
  out ← ngx_vslprintf (S (Z.to_nat size)) fmt args;
  if Z.of_nat (length out) <=? size then Some out else None.

(** [ngx_http_range_singlepart_header]; [mem] tells whether the allocations succeed. *)
Definition singlepart_header (mem : bool) (length_n : Z) (ctx : rctx_t) : option outcome :=
  if negb mem then Some Failed
  else
    range ← rc_ranges ctx !! 0%nat;
    value ← sprintf_into (8 + 3 * NGX_OFF_T_LEN) (bs "bytes %O-%O/%O")
              [AInt (rg_start range); AInt (rg_end range - 1); AInt length_n];
    Some (Partial ctx (Some value) None (i64 (rg_end range - rg_start range))).

Definition has_charset (r : rreq_t) : bool :=
  (content_type_len r =? Z.of_nat (length (content_type r))) && negb (length (charset r) =? 0)%nat.

(** The size of the buffer of the boundary header, and its text. *)
Definition boundary_room (r : rreq_t) : Z :=
  4 + NGX_ATOMIC_T_LEN + 16 + Z.of_nat (length (content_type r)) + 23 +
  (if has_charset r then 10 + Z.of_nat (length (charset r)) else 0).

Definition make_boundary (r : rreq_t) (boundary : Z) : option (list Z) :=
  let start := CRLF ++ bs "--%0muA" ++ CRLF in
  let last := CRLF ++ bs "Content-Range: bytes " in
  if has_charset r then
    sprintf_into (boundary_room r) (start ++ bs "Content-Type: %V; charset=%V" ++ last)
      [AInt boundary; AStr (content_type r); AStr (charset r)]
  else if negb (length (content_type r) =? 0)%nat then
    sprintf_into (boundary_room r) (start ++ bs "Content-Type: %V" ++ last) [AInt boundary; AStr (content_type r)]
  else sprintf_into (boundary_room r) (start ++ bs "Content-Range: bytes ") [AInt boundary].

(** The size of the last boundary. *)
Definition last_boundary_len : Z := 4 + NGX_ATOMIC_T_LEN + 4.

(** The loop over the ranges: their headers, and the length of the response. *)
Fixpoint range_headers (length_n header_len len : Z) (rs : list range_t) : option (list range_t * Z) :=
  match rs with
  | [] => Some ([], len)
  | r :: rs' =>
      text ← sprintf_into (3 * NGX_OFF_T_LEN + 2 + 4) (bs "%O-%O/%O" ++ CRLF ++ CRLF)
               [AInt (rg_start r); AInt (rg_end r - 1); AInt length_n];
      let len := u64 (len + (header_len + Z.of_nat (length text) + u64 (rg_end r - rg_start r))) in
      '(rs', len) ← range_headers length_n header_len len rs';
      Some (r <| rg_content := text |> :: rs', len)
  end.

(** [ngx_http_range_multipart_header]; [boundary] is [ngx_next_temp_number(0)]. *)
Definition multipart_header (mem : bool) (boundary : Z) (r : rreq_t) (ctx : rctx_t) : option outcome :=
  if negb mem then Some Failed
  else
    header ← make_boundary r boundary;
    ctype ← sprintf_into (45 + NGX_ATOMIC_T_LEN) (bs "multipart/byteranges; boundary=%0muA") [AInt boundary];
    '(rs, len) ← range_headers (length_n r) (Z.of_nat (length header)) last_boundary_len (rc_ranges ctx);
    Some (Partial (mk_rctx (rc_offset ctx) header rs) None (Some ctype) (i64 len)).

(** [ngx_http_range_not_satisfiable] *)
Definition not_satisfiable (mem : bool) (length_n : Z) : option outcome :=
  if negb mem then Some Failed
  else value ← sprintf_into (8 + NGX_OFF_T_LEN) (bs "bytes */%O") [AInt length_n]; Some (NotSatisfiable value).

(** [ngx_strncmp(a, b, n) == 0] for texts of [n] bytes: a NUL ends the comparison. *)
Fixpoint strncmp_eq (a b : list Z) : bool :=
  match a, b with
  | x :: a', y :: b' => (x =? y) && ((x =? 0) || strncmp_eq a' b')
  | _, _ => true
  end.

(** Whether [If-Range] lets the range be used. *)
Definition if_range_ok (r : rreq_t) : option bool :=
  match h_if_range r with
  | None => Some true
  | Some v =>
      if (2 <=? length v)%nat && (default 0 (v !! (length v - 1)%nat) =? 34) then
        match out_etag r with
        | None => Some false
        | Some etag => Some ((length v =? length etag)%nat && strncmp_eq v etag)
        end
      else if last_modified r =? -1 then Some false
      else
        t ← ngx_http_parse_time v;
        Some ((match t with Val t => t | NgxTimes.Error => NGX_ERROR end) =? last_modified r)
  end.

(** [ngx_http_range_header_filter] *)
Definition range_header_filter (mem : bool) (pushes : nat) (boundary : Z) (r : rreq_t) : option outcome :=
  let next_filter := Some (if mem then AcceptRanges else Failed) in
  if (http_version r <? NGX_HTTP_VERSION_10) || negb (status r =? NGX_HTTP_OK) || negb (is_main r)
     || (length_n r =? -1) || negb (allow_ranges r) then Some Untouched
  else if max_ranges r =? 0 then Some Untouched
  else
    match h_range r with
    | None => next_filter
    | Some v =>
        if (length v <? 7)%nat || negb (ngx_strncasecmp v (bs "bytes=") 6 =? 0) then next_filter
        else
          ok ← if_range_ok r;
          if negb (ok : bool) then next_filter
          else if negb mem then Some Failed
          else
            '(rc, rs) ← range_parse pushes (length_n r) (if single_range r then 1 else max_ranges r) v;
            if rc =? NGX_OK then
              let ctx := mk_rctx 0 [] rs in
              if (length rs =? 1)%nat then singlepart_header mem (length_n r) ctx
              else multipart_header mem boundary r ctx
            else if rc =? NGX_HTTP_RANGE_NOT_SATISFIABLE then not_satisfiable mem (length_n r)
            else if rc =? NGX_ERROR then Some Failed
            else next_filter
    end.

(** ** The body filters *)

(** [ngx_buf_special] *)
Definition ngx_buf_special (b : buf_t) : bool :=
  (flush b || last_buf b || sync b) && negb (in_memory b) && negb (in_file b).

#[export] Instance eta_buf : Eta buf_t := fun b =>
  mk_buf (data b) (in_memory b) (in_file b) (flush b) (sync b) (last_buf b).

(** [buf->pos += n] and [buf->last -= n] (and the positions in the file) *)
Definition buf_skip (n : Z) (b : buf_t) : option buf_t :=
  if (0 <=? n) && (n <=? ngx_buf_size b) then Some (b <| data := drop (Z.to_nat n) (data b) |>) else None.
Definition buf_cut (n : Z) (b : buf_t) : option buf_t :=
  if (0 <=? n) && (n <=? ngx_buf_size b)
  then Some (b <| data := take (length (data b) - Z.to_nat n) (data b) |>) else None.

(** A buffer that is skipped: [buf->pos = buf->last; buf->sync = 1] *)
Definition buf_empty (b : buf_t) : buf_t := b <| data := [] |> <| sync := true |>.

(** The loop of [ngx_http_range_singlepart_body]: the offset and the chain for the next filter.
    [out] is the chain up to the link [ll] points to, and [skipped] the buffers that have been
    passed over since: they are still linked behind [ll] until a buffer is stored there. *)
Fixpoint singlepart_loop (range : range_t) (offset : Z) (out skipped in_ : list buf_t) : option (Z * list buf_t) :=
  match in_ with
  | [] => Some (offset, match out with [] => [] | _ => out ++ skipped end)
  | buf :: in_' =>
      let start := offset in
      let last := i64 (offset + ngx_buf_size buf) in
      if ngx_buf_special buf then singlepart_loop range last (out ++ [buf]) [] in_'
      else if (rg_end range <=? start) || (rg_start range >=? last)
      then singlepart_loop range last out (skipped ++ [buf_empty buf]) in_'
      else
        buf ← (if rg_start range >? start then buf_skip (rg_start range - start) buf else Some buf);
        if rg_end range <=? last then
          buf ← buf_cut (last - rg_end range) buf;
          Some (last, out ++ [buf <| last_buf := true |>])
        else singlepart_loop range last (out ++ [buf]) [] in_'
  end.

Definition singlepart_body (ctx : rctx_t) (in_ : list buf_t) : option (rctx_t * list buf_t) :=
  range ← rc_ranges ctx !! 0%nat;
  '(o, out) ← singlepart_loop range (rc_offset ctx) [] [] in_;
  Some (ctx <| rc_offset := o |>, out).

(** [ngx_http_range_test_overlapped] *)
Definition test_overlapped (ctx : rctx_t) (buf : buf_t) : option rctx_t :=
  if negb (rc_offset ctx =? 0) then None
  else if negb (last_buf buf) &&
          existsb (fun r => (rc_offset ctx >? rg_start r) || (i64 (rc_offset ctx + ngx_buf_size buf) <? rg_end r)) (rc_ranges ctx)
  then None
  else Some (ctx <| rc_offset := ngx_buf_size buf |>).

(** The part of a buffer between two offsets. *)
Definition buf_slice (buf : buf_t) (s e : Z) : option (list Z) :=
  if (0 <=? s) && (s <=? e) && (e <=? ngx_buf_size buf)
  then Some (take (Z.to_nat (e - s)) (drop (Z.to_nat s) (data buf))) else None.

(** The loop of [ngx_http_range_multipart_body]: three buffers for each range. *)
Fixpoint multipart_loop (header : list Z) (buf : buf_t) (rs : list range_t) : option (list buf_t) :=
  match rs with
  | [] => Some []
  | r :: rs' =>
      d ← buf_slice buf (rg_start r) (rg_end r);
      out ← multipart_loop header buf rs';
      Some (mk_buf header true false false false false :: mk_buf (rg_content r) true false false false false ::
            mk_buf d (in_memory buf) (in_file buf) false false false :: out)
  end.

(** [ngx_http_range_multipart_body], when the allocations succeed. *)
Definition multipart_body (ctx : rctx_t) (buf : buf_t) : option (list buf_t) :=
  out ← multipart_loop (boundary_header ctx) buf (rc_ranges ctx);
  if Z.of_nat (length (boundary_header ctx)) <? 4 + NGX_ATOMIC_T_LEN then None
  else
    let text := take (Z.to_nat (4 + NGX_ATOMIC_T_LEN)) (boundary_header ctx) ++ bs "--" ++ CRLF in
    Some (out ++ [mk_buf text true false false false true]).

(** [ngx_http_range_body_filter] for a chain that is not empty, of a request with the context [ctx]:
    the chain for the next filter, or the error. *)
Inductive body_res : Type := BodyOk (ctx : rctx_t) (out : list buf_t) | BodyError.

Definition range_body_filter (mem : bool) (ctx : rctx_t) (buf : buf_t) (in_ : list buf_t) : option body_res :=
  if (length (rc_ranges ctx) =? 1)%nat then
    '(ctx, out) ← singlepart_body ctx (buf :: in_); Some (BodyOk ctx out)
  else if ngx_buf_special buf then Some (BodyOk ctx (buf :: in_))
  else
    match test_overlapped ctx buf with
    | None => Some BodyError
    | Some ctx =>
        if mem then out ← multipart_body ctx buf; Some (BodyOk ctx out) else Some BodyError
    end.

(** ** One range of the body *)

(** The bytes between the offsets [s] and [e] of a text that starts at the offset [off]. *)
Definition slice (s e off : Z) (l : list Z) : list Z :=
  take (Z.to_nat (e - Z.max s off)) (drop (Z.to_nat (s - off)) l).

Lemma slice_app s e off d l :
  slice s e off (d ++ l) = slice s e off d ++ slice s e (off + Z.of_nat (length d)) l.
Proof.
  unfold slice. rewrite drop_app, take_app, length_drop. f_equal. f_equal; [lia|]. f_equal. lia.
Qed.

Lemma slice_after s e off l : e <= off -> slice s e off l = [].
Proof. intros H. unfold slice. replace (Z.to_nat (e - Z.max s off)) with 0%nat by lia. apply take_0. Qed.

Lemma slice_before s e off l : off + Z.of_nat (length l) <= s -> slice s e off l = [].
Proof. intros H. unfold slice. rewrite drop_ge by lia. apply take_nil. Qed.

Lemma slice_nil s e off : slice s e off [] = [].
Proof. unfold slice. by rewrite drop_nil, take_nil. Qed.

(** The bytes of a chain; special buffers have none. *)
Definition chain_data (bs : list buf_t) : list Z := concat (data <$> bs).

Definition plain_chain (bs : list buf_t) : Prop := Forall (fun b => ngx_buf_special b = true -> data b = []) bs.

Lemma chain_data_app l1 l2 : chain_data (l1 ++ l2) = chain_data l1 ++ chain_data l2.
Proof. unfold chain_data. by rewrite fmap_app, concat_app. Qed.

Lemma chain_data_one b : chain_data [b] = data b.
Proof. apply app_nil_r. Qed.

(** A buffer in the range, cut to it. *)
Lemma cut_to_range s e off b :
  (e <=? off) || (s >=? off + ngx_buf_size b) = false ->
  exists b', (if s >? off then buf_skip (s - off) b else Some b) = Some b' /\
    data b' = drop (Z.to_nat (s - off)) (data b).
Proof.
  intros H. apply orb_false_iff in H as [He Hs]. unfold buf_skip, ngx_buf_size in *.
  destruct (Z.gtb_spec s off).
  - rewrite (proj2 (Z.leb_le _ _)), (proj2 (Z.leb_le _ _)) by lia. by eexists.
  - exists b. split; [done|]. by replace (Z.to_nat (s - off)) with 0%nat by lia.
Qed.

Lemma singlepart_loop_spec s e text : forall in_ off out sk,
  0 <= s < e -> 0 <= off -> off + Z.of_nat (length (chain_data in_)) < 2 ^ 63 -> plain_chain in_ ->
  chain_data sk = [] ->
  exists o res, singlepart_loop (mk_range s e text) off out sk in_ = Some (o, res) /\
    chain_data res = chain_data out ++ slice s e off (chain_data in_) /\
    off <= o /\ (o = off + Z.of_nat (length (chain_data in_)) \/ e <= o <= off + Z.of_nat (length (chain_data in_))).
Proof.
  induction in_ as [|b in_ IH]; intros off out sk Hse Hoff Hlen Hp Hsk; cbn [singlepart_loop].
  { eexists _, _. split; [done|]. split; [|cbn; lia]. change (chain_data []) with (@nil Z). rewrite slice_nil.
    rewrite app_nil_r.
    destruct out; [done|]. by rewrite chain_data_app, Hsk, app_nil_r. }
  apply Forall_cons_1 in Hp as [Hb Hp]. change (b :: in_) with ([b] ++ in_) in *.
  rewrite chain_data_app, chain_data_one in Hlen |- *. rewrite length_app in Hlen |- *.
  pose proof (slice_app s e off (data b) (chain_data in_)) as Hsl. rewrite Hsl. clear Hsl.
  fold (ngx_buf_size b). rewrite i64_small by (unfold ngx_buf_size; lia).
  assert (ngx_buf_size b = Z.of_nat (length (data b))) as En by done.
  remember (ngx_buf_size b) as n eqn:Hn. 
  assert (forall out sk, chain_data sk = [] -> exists o res, singlepart_loop (mk_range s e text) (off + n) out sk in_ = Some (o, res) /\
    chain_data res = chain_data out ++ slice s e (off + n) (chain_data in_) /\ off <= o /\
    (o = off + Z.of_nat (length (data b) + length (chain_data in_)) \/
     e <= o <= off + Z.of_nat (length (data b) + length (chain_data in_)))) as IH'.
  { intros out' sk' Hsk'. destruct (IH (off + n) out' sk') as (o & res & ? & ? & ? & ?); try done; try lia.
    eexists _, _. split_and!; [done|done|lia|lia]. }
  clear IH. destruct (ngx_buf_special b) eqn:Es.
  { destruct (IH' (out ++ [b]) []) as (o & res & -> & Hres & Ho); [done|]. eexists _, _. split; [done|]. split; [|done].
    rewrite Hres, chain_data_app, chain_data_one, (Hb eq_refl). by rewrite slice_nil, app_nil_r. }
  cbn [rg_start rg_end]. destruct ((e <=? off) || (s >=? off + n)) eqn:Eskip.
  { destruct (IH' out (sk ++ [buf_empty b])) as (o & res & -> & Hres & Ho).
    { by rewrite chain_data_app, Hsk. }
    eexists _, _. split; [done|]. split; [|done]. rewrite Hres. f_equal. apply orb_true_iff in Eskip as [He|He].
    - by rewrite !slice_after by lia.
    - by rewrite (slice_before s e off) by lia. }
  rewrite Hn in Eskip. destruct (cut_to_range _ _ _ _ Eskip) as (b' & -> & Hd). rewrite <- Hn in Eskip.
  apply orb_false_iff in Eskip as [He Hs]. cbn [mbind option_bind]. destruct (Z.leb_spec e (off + n)) as [Hin|Hout].
  - unfold buf_cut. assert (ngx_buf_size b' = n - Z.max 0 (s - off)) as ->.
    { unfold ngx_buf_size. rewrite Hd, length_drop. lia. }
    rewrite (proj2 (Z.leb_le _ _)), (proj2 (Z.leb_le _ _)) by lia. cbn [andb mbind option_bind].
    eexists _, _. split; [done|]. split; [|lia]. rewrite (slice_after s e (off + n)) by lia.
    rewrite chain_data_app, chain_data_one, app_nil_r. f_equal.
    change (take (length (data b') - Z.to_nat (off + n - e)) (data b') = slice s e off (data b)).
    rewrite Hd, length_drop. unfold slice. f_equal. lia.
  - destruct (IH' (out ++ [b']) []) as (o & res & -> & Hres & Ho); [done|]. eexists _, _. split; [done|]. split; [|done].
    rewrite Hres, chain_data_app, chain_data_one, <- app_assoc, Hd. do 2 f_equal. unfold slice. rewrite take_ge; [done|].
    rewrite length_drop. lia.
Qed.

(** The body filter over the chains of a response. *)
Fixpoint body_filter_all (ctx : rctx_t) (chains : list (buf_t * list buf_t)) : option (rctx_t * list buf_t) :=
  match chains with
  | [] => Some (ctx, [])
  | (b, in_) :: chains' =>
      x ← range_body_filter true ctx b in_;
      match x with
      | BodyError => None
      | BodyOk ctx out => '(ctx, out') ← body_filter_all ctx chains'; Some (ctx, out ++ out')
      end
  end.

Definition chains_data (chains : list (buf_t * list buf_t)) : list Z :=
  concat ((fun c => chain_data (c.1 :: c.2)) <$> chains).

Lemma body_filter_all_spec s e text bh chains : forall off,
  0 <= s < e -> 0 <= off -> off + Z.of_nat (length (chains_data chains)) < 2 ^ 63 ->
  Forall (fun c => plain_chain (c.1 :: c.2)) chains ->
  exists ctx out, body_filter_all (mk_rctx off bh [mk_range s e text]) chains = Some (ctx, out) /\
    chain_data out = slice s e off (chains_data chains).
Proof.
  induction chains as [|[b in_] chains IH]; intros off Hse Hoff Hlen Hp; cbn [body_filter_all].
  { eexists _, []. split; [done|]. unfold slice. cbn. by rewrite drop_nil, take_nil. }
  apply Forall_cons_1 in Hp as [Hb Hp]. cbn [fst snd] in Hb. unfold chains_data in *. rewrite fmap_cons in *.
  cbn [concat fst snd] in *. rewrite length_app in Hlen. rewrite slice_app.
  unfold range_body_filter, singlepart_body. cbn [rc_ranges length Nat.eqb]. change ([mk_range s e text] !! 0%nat) with (Some (mk_range s e text)).
  cbn [mbind option_bind rc_offset].
  destruct (singlepart_loop_spec s e text (b :: in_) off [] [] Hse Hoff ltac:(lia) Hb eq_refl) as (o & out & -> & Hout & Ho1 & Ho2).
  cbn [mbind option_bind].
  destruct (IH o Hse ltac:(lia) ltac:(lia) Hp) as (ctx & out' & Hrun & Hout').
  change ((mk_rctx off bh [mk_range s e text]) <| rc_offset := o |>) with (mk_rctx o bh [mk_range s e text]).
  rewrite Hrun. cbn [mbind option_bind]. eexists _, _. split; [done|]. rewrite chain_data_app, Hout, Hout'. change (chain_data []) with (@nil Z). cbn [app]. f_equal.
  destruct Ho2 as [->|Ho2]; [done|]. rewrite !slice_after by lia. done.
Qed.

(** ** The header *)

(** A range of the header: first and last position, first position only, or the length of
    the suffix; the positions are written with the digits [a] and [b], with spaces where the
    parser allows them. *)
Inductive range_text : Type :=
| Span (s1 : nat) (a : list Z) (s2 s3 : nat) (b : list Z) (s4 : nat)
| Onward (s1 : nat) (a : list Z) (s2 s3 : nat)
| Suffix (s1 : nat) (b : list Z) (s4 : nat).

Definition spaces (n : nat) : list Z := replicate n SP.

Definition render_range (t : range_text) : list Z :=
  match t with
  | Span s1 a s2 s3 b s4 => spaces s1 ++ a ++ spaces s2 ++ bs "-" ++ spaces s3 ++ b ++ spaces s4
  | Onward s1 a s2 s3 => spaces s1 ++ a ++ spaces s2 ++ bs "-" ++ spaces s3
  | Suffix s1 b s4 => spaces s1 ++ bs "-" ++ b ++ spaces s4
  end.

Fixpoint render_ranges (ts : list range_text) : list Z :=
  match ts with
  | [] => []
  | [t] => render_range t
  | t :: ts' => render_range t ++ bs "," ++ render_ranges ts'
  end.

(** The range it denotes for a response of [len] bytes (RFC 7233), if it can be satisfied. *)
Definition denote (len : Z) (t : range_text) : option (Z * Z) :=
  let sat s e := if s <? e then Some (s, e) else None in
  match t with
  | Span _ a _ _ b _ => sat (dec_val a) (Z.min (dec_val b + 1) len)
  | Onward _ a _ _ => sat (dec_val a) len
  | Suffix _ b _ => sat (Z.max 0 (len - dec_val b)) len
  end.

Definition number (l : list Z) : Prop := l <> [] /\ digits l /\ dec_val l < 2 ^ 63.

(** The numbers do not overflow, and a suffix is not longer than the response. *)
Definition range_ok (len : Z) (t : range_text) : Prop :=
  match t with
  | Span _ a _ _ b _ => number a /\ number b
  | Onward _ a _ _ => number a
  | Suffix _ b _ => number b /\ dec_val b <= len
  end.

Definition mk_ranges (l : list (Z * Z)) : list range_t := (fun se => mk_range se.1 se.2 []) <$> l.
Definition total (l : list (Z * Z)) : Z := fold_right (fun se n => se.2 - se.1 + n) 0 l.

(** The answer: too many ranges, none, more bytes than the response has, or the ranges. *)
Definition range_answer (len ranges : Z) (sats : list (Z * Z)) : Z * list range_t :=
  if ranges <? Z.of_nat (length sats) then (NGX_DECLINED, mk_ranges (take (S (Z.to_nat ranges)) sats))
  else if (length sats =? 0)%nat then (NGX_HTTP_RANGE_NOT_SATISFIABLE, [])
  else if total sats >? len then (NGX_DECLINED, mk_ranges sats)
  else (NGX_OK, mk_ranges sats).

Lemma skip_spaces n l : (forall c l', l = c :: l' -> c <> SP) -> skip_sp (spaces n ++ l) = l.
Proof.
  intros H. induction n as [|n IH]; [|exact IH]. change (skip_sp l = l). destruct l as [|c l]; [done|].
  cbn [skip_sp]. unfold is_sp. by rewrite (proj2 (Z.eqb_neq _ _)) by (by eapply H).
Qed.

(** A text that starts with neither a space nor a digit. *)
Definition stops (l : list Z) : Prop := match l with c :: _ => c <> SP /\ is_digit c = false | [] => True end.

Lemma read_off_digits ds l v :
  digits ds -> match l with c :: _ => is_digit c = false | [] => True end ->
  read_off (ds ++ l) (i64 v) = (i64 (fold_left dec_step ds v), l).
Proof.
  intros Hd Hl. revert v. induction Hd as [|c ds Hc Hds IH]; intros v; cbn [app].
  - destruct l as [|c l]; [done|]. cbn [read_off]. by rewrite Hl.
  - cbn [read_off]. rewrite Hc. cbn [fold_left]. rewrite <- IH. f_equal.
    rewrite <- Z.add_sub_assoc, i64_mul_add. done.
Qed.

Lemma number_range a : number a -> 0 <= dec_val a < 2 ^ 63.
Proof. intros (_ & Hd & Hv). split; [by apply dec_val_nonneg|done]. Qed.

(** A number with spaces behind it. *)
Lemma read_number a n l : number a -> stops l ->
  read_off (a ++ spaces n ++ l) 0 = (dec_val a, spaces n ++ l) /\ skip_sp (spaces n ++ l) = l.
Proof.
  intros Ha Hl. pose proof (number_range a Ha). split.
  - rewrite <- (i64_small 0) by lia. rewrite read_off_digits; [|apply Ha|].
    + fold (dec_val a). by rewrite i64_small by lia.
    + destruct n; [|done]. destruct l; [done|]. apply Hl.
  - apply skip_spaces. intros c l' ->. apply Hl.
Qed.

(** The first byte of a number. *)
Lemma number_head a l : number a -> exists c l', a ++ l = c :: l' /\ is_digit c = true.
Proof.
  intros (Hne & Hd & _). destruct a as [|c a]; [done|]. eexists _, _. split; [done|].
  by apply Forall_cons_1 in Hd as [? _].
Qed.

Lemma digit_facts c : is_digit c = true -> c <> SP /\ (c =? "-"%ch) = false /\ (c =? ","%ch) || (c =? 0) = false.
Proof. rewrite is_digit_iff. unfold SP. intros H. split_and!; lia. Qed.

Lemma skip_to_number n a l : number a -> skip_sp (spaces n ++ a ++ l) = a ++ l.
Proof.
  intros Ha. destruct (number_head a l Ha) as (c & l' & -> & Hc). apply skip_spaces. intros c' l'' [= <- <-].
  by apply digit_facts.
Qed.

Lemma parse_end_number len start suffix b n c rest :
  number b -> c = ","%ch \/ c = 0 ->
  parse_end len start suffix (b ++ spaces n ++ c :: rest) =
  let '(s, e) := if suffix then (i64 (len - dec_val b), i64 (len - 1)) else (start, dec_val b) in
  Some (Found (c :: rest) s (if e >=? len then len else i64 (e + 1))).
Proof.
  intros Hb Hc. assert (stops (c :: rest)) as Hst by (by destruct Hc; subst).
  destruct (read_number b n (c :: rest) Hb Hst) as [Hr Hs].
  destruct (number_head b (spaces n ++ c :: rest) Hb) as (d & l' & Hd & Hdig). unfold parse_end.
  rewrite Hd at 1. cbn [mbind option_bind lookup list_lookup]. rewrite Hdig. cbn [negb]. rewrite Hr. cbv iota zeta. rewrite Hs.
  cbn [mbind option_bind lookup list_lookup].
  assert (negb (c =? ","%ch) && negb (c =? 0) = false) as -> by (by destruct Hc; subst). by destruct suffix.
Qed.

Lemma comma_or_nul c : c = ","%ch \/ c = 0 -> (c =? ","%ch) || (c =? 0) = true.
Proof. by intros [->| ->]. Qed.

(** The start of a range that is not a suffix. *)
Lemma parse_one_start len s1 a s2 s3 l c l' :
  number a -> skip_sp (spaces s3 ++ l) = l -> l = c :: l' ->
  parse_one len (spaces s1 ++ a ++ spaces s2 ++ bs "-" ++ spaces s3 ++ l) =
  if (c =? ","%ch) || (c =? 0) then Some (Found l (dec_val a) len) else parse_end len (dec_val a) false l.
Proof.
  intros Ha Hl ->. unfold parse_one. rewrite skip_to_number by done.
  destruct (read_number a s2 (bs "-" ++ spaces s3 ++ c :: l') Ha) as [Hr Hs]; [done|].
  destruct (number_head a (spaces s2 ++ bs "-" ++ spaces s3 ++ c :: l') Ha) as (d & l'' & Hd & Hdig).
  rewrite Hd at 1. cbn [mbind option_bind lookup list_lookup].
  destruct (digit_facts d Hdig) as (_ & -> & _). rewrite Hdig. cbn [negb]. rewrite Hr. cbv iota zeta. rewrite Hs.
  change (drop 1 (bs "-" ++ spaces s3 ++ c :: l')) with (spaces s3 ++ c :: l'). rewrite Hl. reflexivity.
Qed.

(** One range is read to the range it denotes. *)
Lemma parse_one_range len t c rest :
  0 <= len < 2 ^ 63 -> range_ok len t -> c = ","%ch \/ c = 0 ->
  exists s e, parse_one len (render_range t ++ c :: rest) = Some (Found (c :: rest) s e) /\
    denote len t = (if s <? e then Some (s, e) else None).
Proof.
  intros Hlen Hok Hc. destruct t as [s1 a s2 s3 b s4|s1 a s2 s3|s1 b s4]; cbn [render_range range_ok denote] in *;
    rewrite <- ?app_assoc.
  - destruct Hok as [Ha Hb]. pose proof (number_range b Hb).
    destruct (number_head b (spaces s4 ++ c :: rest) Hb) as (d & l' & Hd & Hdig).
    erewrite parse_one_start; [|done|by apply skip_to_number|exact Hd].
    destruct (digit_facts d Hdig) as (_ & _ & ->). rewrite parse_end_number by done. cbv iota zeta.
    eexists _, _. split; [done|]. replace (if dec_val b >=? len then _ else _) with (Z.min (dec_val b + 1) len); [done|].
    destruct (Z.geb_spec (dec_val b) len); [lia|]. rewrite i64_small by lia. lia.
  - erewrite parse_one_start; [|done| |done]; [|apply skip_spaces; intros ? ? [= <- <-]; by destruct Hc; subst].
    rewrite comma_or_nul by done. by eexists _, _.
  - destruct Hok as [Hb Hle]. pose proof (number_range b Hb). unfold parse_one.
    rewrite skip_spaces by (by intros ? ? [= <- <-]).
    change (drop 1 (bs "-" ++ b ++ spaces s4 ++ c :: rest)) with (b ++ spaces s4 ++ c :: rest).
    change (exists s e, parse_end len 0 true (b ++ spaces s4 ++ c :: rest) = Some (Found (c :: rest) s e) /\
      (if Z.max 0 (len - dec_val b) <? len then Some (Z.max 0 (len - dec_val b), len) else None) =
      (if s <? e then Some (s, e) else None)).
    rewrite parse_end_number by done. cbv iota zeta. eexists _, _. split; [done|].
    rewrite !i64_small by lia. destruct (Z.geb_spec (len - 1) len); [lia|]. 
    replace (len - 1 + 1) with len by lia. by replace (Z.max 0 (len - dec_val b)) with (len - dec_val b) by lia.
Qed.

(** The answer when the ranges [rs] of [size] bytes have been read already. *)
Definition answer_from (len ranges size : Z) (rs : list range_t) (sats : list (Z * Z)) : Z * list range_t :=
  if ranges <? Z.of_nat (length sats) then (NGX_DECLINED, rs ++ mk_ranges (take (S (Z.to_nat ranges)) sats))
  else if (length (rs ++ mk_ranges sats) =? 0)%nat then (NGX_HTTP_RANGE_NOT_SATISFIABLE, rs ++ mk_ranges sats)
  else if size + total sats >? len then (NGX_DECLINED, rs ++ mk_ranges sats)
  else (NGX_OK, rs ++ mk_ranges sats).

Lemma answer_from_cons len ranges size rs s e sats :
  0 < ranges ->
  answer_from len ranges size rs ((s, e) :: sats) =
  answer_from len (ranges - 1) (size + (e - s)) (rs ++ [mk_range s e []]) sats.
Proof.
  intros Hr. unfold answer_from. cbn [length total fold_right fst snd]. change (mk_ranges ((s, e) :: sats)) with (mk_range s e [] :: mk_ranges sats).
  replace (ranges <? Z.of_nat (S (length sats))) with (ranges - 1 <? Z.of_nat (length sats)) by (apply eq_true_iff_eq; rewrite !Z.ltb_lt; lia).
  destruct (ranges - 1 <? _).
  - rewrite <- app_assoc. replace (Z.to_nat ranges) with (S (Z.to_nat (ranges - 1))) by lia. reflexivity.
  - rewrite <- app_assoc. cbn [app]. replace (size + (e - s + fold_right (fun se n => se.2 - se.1 + n) 0 sats)) with (size + (e - s) + total sats); [done|].
    unfold total. lia.
Qed.

Lemma denote_range len t s e : 0 <= len -> range_ok len t -> denote len t = Some (s, e) -> 0 <= s < e /\ e <= len.
Proof.
  intros Hlen Hok. destruct t as [s1 a s2 s3 b s4|s1 a s2 s3|s1 b s4]; cbn [denote range_ok] in *.
  - destruct Hok as [Ha Hb]. apply number_range in Ha, Hb. destruct (Z.ltb_spec (dec_val a) (Z.min (dec_val b + 1) len)); [|done].
    intros [= <- <-]. lia.
  - apply number_range in Hok. destruct (Z.ltb_spec (dec_val a) len); [|done]. intros [= <- <-]. lia.
  - destruct Hok as [Hb Hle]. apply number_range in Hb. destruct (Z.ltb_spec (Z.max 0 (len - dec_val b)) len); [|done].
    intros [= <- <-]. lia.
Qed.

Lemma sats_nonneg len ts : 0 <= len -> Forall (range_ok len) ts -> 0 <= total (omap (denote len) ts).
Proof.
  intros Hlen. induction 1 as [|t ts Ht Hts IH]; [done|]. cbn [omap list_omap]. destruct (denote len t) as [[s e]|] eqn:E; [|done].
  apply denote_range in E; [|done..]. cbn [total fold_right fst snd]. fold (total (omap (denote len) ts)). unfold total in *. unfold omap in *. lia.
Qed.

(** The end of the loop. *)
Definition parse_next (fuel mem : nat) (len : Z) (p : list Z) (ranges size : Z) (rs : list range_t) : option (Z * list range_t) :=
  c ← p !! 0%nat;
  if c =? ","%ch then parse_loop fuel mem len (drop 1 p) ranges size rs
  else if (length rs =? 0)%nat then Some (NGX_HTTP_RANGE_NOT_SATISFIABLE, rs)
  else if size >? len then Some (NGX_DECLINED, rs)
  else Some (NGX_OK, rs).

Lemma parse_loop_found fuel mem len p p' ranges size rs s e :
  0 <= len < 2 ^ 63 -> (s <? e = true -> 0 <= s /\ e <= len /\ size + (e - s) < 2 ^ 63) -> 0 <= size -> 0 <= ranges < 2 ^ 64 ->
  parse_one len p = Some (Found p' s e) ->
  (s <? e = true -> (0 < mem)%nat) ->
  parse_loop (S fuel) mem len p ranges size rs =
  if s <? e then
    if ranges =? 0 then Some (NGX_DECLINED, rs ++ [mk_range s e []])
    else parse_next fuel (mem - 1) len p' (ranges - 1) (size + (e - s)) (rs ++ [mk_range s e []])
  else parse_next fuel mem len p' ranges size rs.
Proof.
  intros Hlen Hse Hsz Hr Hp Hm. cbn [parse_loop]. rewrite Hp. cbn [mbind option_bind]. destruct (s <? e) eqn:E; [|done].
  destruct (Hse eq_refl) as (? & ? & ?). specialize (Hm eq_refl). destruct mem as [|mem]; [lia|]. cbv zeta.
  destruct (Z.eqb_spec ranges 0); [done|]. rewrite u64_small by lia. rewrite (i64_small (e - s)) by lia. rewrite i64_small by lia.
  rewrite Nat.sub_succ, Nat.sub_0_r. reflexivity.
Qed.

Lemma parse_loop_spec len : 0 <= len < 2 ^ 63 -> forall ts fuel mem ranges size rs,
  ts <> [] -> (length ts <= fuel)%nat -> Forall (range_ok len) ts ->
  (length (omap (denote len) ts) <= mem)%nat -> 0 <= ranges < 2 ^ 64 -> 0 <= size ->
  size + total (omap (denote len) ts) < 2 ^ 63 ->
  parse_loop fuel mem len (render_ranges ts ++ [0]) ranges size rs =
  Some (answer_from len ranges size rs (omap (denote len) ts)).
Proof.
  intros Hlen. induction ts as [|t ts IH]; [done|]. intros fuel mem ranges size rs _ Hf Hok Hm Hr Hsz Htot.
  destruct fuel as [|fuel]; [cbn in Hf; lia|]. apply Forall_cons_1 in Hok as [Ht Hts]. 
  pose proof (sats_nonneg len ts ltac:(lia) Hts) as H0. cbn [length] in Hf.
  assert (exists c rest, render_ranges (t :: ts) ++ [0] = render_range t ++ c :: rest /\ (c = ","%ch \/ c = 0) /\
    forall fuel' mem' ranges' size' rs', (length ts <= fuel')%nat -> (length (omap (denote len) ts) <= mem')%nat -> 0 <= ranges' < 2 ^ 64 ->
      0 <= size' -> size' + total (omap (denote len) ts) < 2 ^ 63 ->
      parse_next fuel' mem' len (c :: rest) ranges' size' rs' = Some (answer_from len ranges' size' rs' (omap (denote len) ts)))
    as (c & rest & -> & Hc & Hnext).
  { destruct ts as [|t' ts].
    - exists 0, []. split; [done|]. split; [by right|]. intros fuel' mem' ranges' size' rs' _ _ Hr' _ _.
      unfold parse_next, answer_from. cbn [mbind option_bind lookup list_lookup omap list_omap length total fold_right mk_ranges fmap list_fmap].
      rewrite (proj2 (Z.ltb_ge _ _)), !app_nil_r, Z.add_0_r by lia. cbn [Z.eqb]. change (0 =? ","%ch) with false. cbv iota.
      by destruct (length rs' =? 0)%nat, (size' >? len).
    - exists ","%ch, (render_ranges (t' :: ts) ++ [0]). split; [cbn [render_ranges]; by rewrite <- !app_assoc|].
      split; [by left|]. intros fuel' mem' ranges' size' rs' ? ? ? ? ?. unfold parse_next. by apply IH. }
  destruct (parse_one_range len t c rest Hlen Ht Hc) as (s & e & Hp & Hd).
  cbn [omap list_omap] in *. rewrite Hd in *. 
  destruct (s <? e) eqn:E.
  - destruct (denote_range len t s e ltac:(lia) Ht Hd) as [? ?]. cbn [total fold_right fst snd length] in *.
    fold (total (omap (denote len) ts)) in Htot. unfold omap in *.
    rewrite (parse_loop_found fuel mem len _ (c :: rest) ranges size rs s e Hlen); try done; try lia. rewrite E.
    destruct (Z.eqb_spec ranges 0) as [->|].
    { unfold answer_from. cbn [length]. rewrite (proj2 (Z.ltb_lt _ _)) by lia. reflexivity. }
    rewrite Hnext by lia. by rewrite answer_from_cons by lia.
  - rewrite (parse_loop_found fuel mem len _ (c :: rest) ranges size rs s e Hlen); try done; try lia; [|congruence..]. rewrite E.
    by apply Hnext; unfold omap in *; try lia.
Qed.

Lemma render_range_nonempty t : exists c l, render_range t = c :: l.
Proof. destruct t as [[|?] [|? ?] [|?] ? ? ?|[|?] [|? ?] [|?] ?|[|?] ? ?]; by eexists _, _. Qed.

Lemma render_ranges_length ts : (length ts <= length (render_ranges ts))%nat.
Proof.
  induction ts as [|t ts IH]; [done|]. destruct (render_range_nonempty t) as (c & l & E). destruct ts as [|t' ts].
  - cbn [render_ranges length]. rewrite E. cbn [length]. lia.
  - cbn [render_ranges] in *. rewrite E, !length_app. cbn [length] in *. lia.
Qed.

Lemma sats_in_range len ts : 0 <= len -> Forall (range_ok len) ts ->
  Forall (fun se => 0 <= se.1 < se.2 /\ se.2 <= len) (omap (denote len) ts).
Proof.
  intros Hlen. induction 1 as [|t ts Ht Hts IH]; [constructor|]. cbn [omap list_omap].
  destruct (denote len t) as [[s e]|] eqn:E; [|done]. constructor; [by eapply denote_range|done].
Qed.

Lemma range_parse_run mem len ranges unit_ ts :
  0 <= len < 2 ^ 63 -> 0 <= ranges < 2 ^ 64 -> length unit_ = 6%nat ->
  ts <> [] -> Forall (range_ok len) ts -> (length (omap (denote len) ts) <= mem)%nat ->
  total (omap (denote len) ts) < 2 ^ 63 ->
  range_parse mem len ranges (unit_ ++ render_ranges ts) = Some (range_answer len ranges (omap (denote len) ts)).
Proof.
  intros Hlen Hr Hu Hne Hok Hm Htot.
  unfold range_parse. rewrite drop_app_length' by done. pose proof (render_ranges_length ts).
  rewrite parse_loop_spec by (done || (rewrite ?length_app; lia)).
  unfold answer_from, range_answer. f_equal. cbn [app]. rewrite Z.add_0_l. unfold mk_ranges at 2 3. rewrite length_fmap.
  destruct (ranges <? _); [done|]. destruct (omap (denote len) ts) eqn:E; [done|]. done.
Qed.

(** C11: the parser of the [Range] header reads a list of ranges, with spaces where it allows them, to exactly the
    satisfiable ranges it denotes for the response, in order; each lies inside the response.  When there are more
    than [ranges] of them, or they cover more bytes than the response has, the header is ignored; when there are
    none, the answer is 416.  The numbers must fit an [off_t], and a suffix must not be longer than the response. *)
Theorem range_parse_correct mem len ranges unit_ ts :
  0 <= len < 2 ^ 63 -> 0 <= ranges < 2 ^ 64 -> length unit_ = 6%nat ->
  ts <> [] -> Forall (range_ok len) ts -> (length (omap (denote len) ts) <= mem)%nat ->
  total (omap (denote len) ts) < 2 ^ 63 ->
  range_parse mem len ranges (unit_ ++ render_ranges ts) = Some (range_answer len ranges (omap (denote len) ts)) /\
  Forall (fun se => 0 <= se.1 < se.2 /\ se.2 <= len) (omap (denote len) ts).
Proof.
  intros Hlen Hr Hu Hne Hok Hm Htot. split; [by apply range_parse_run|by apply sats_in_range; [lia|]].
Qed.

(** [bytes=0-49, 90-,-5] for a response of 100 bytes: the last ten bytes and the last five are both given. *)
Definition demo_ranges : list range_text :=
  [Span 0 (bs "0") 0 0 (bs "49") 0; Onward 1 (bs "90") 0 0; Suffix 0 (bs "5") 0].

Lemma demo_ranges_ok : Forall (range_ok 100) demo_ranges.
Proof. repeat constructor; (done || (vm_compute; congruence)). Qed.

Lemma range_parse_correct_witness :
  bs "bytes=0-49, 90-,-5" = bs "bytes=" ++ render_ranges demo_ranges /\
  range_parse 9 100 10 (bs "bytes=0-49, 90-,-5") =
    Some (NGX_OK, [mk_range 0 50 []; mk_range 90 100 []; mk_range 95 100 []]).
Proof.
  split; [reflexivity|].
  exact (proj1 (range_parse_correct 9 100 10 (bs "bytes=") demo_ranges ltac:(lia) ltac:(lia) eq_refl ltac:(done)
    demo_ranges_ok ltac:(vm_compute; lia) ltac:(vm_compute; reflexivity))).
Defined.

(** A suffix longer than the response does not select the whole response but a range with a negative start. *)
Example suffix_too_long :
  range_parse 9 100 10 (bs "bytes=-200") = Some (NGX_DECLINED, [mk_range (-100) 100 []]).
Proof. vm_compute. reflexivity. Qed.

(** With a second suffix that makes [size] wrap around, the header is accepted, with both starts outside the
    response; the announced range starts before it. *)
Example negative_start_accepted :
  range_parse 9 100 10 (bs "bytes=-200,-9223372036854775608") =
  Some (NGX_OK, [mk_range (-100) 100 []; mk_range (-9223372036854775508) 100 []]).
Proof. vm_compute. reflexivity. Qed.

(** ** The response *)

Lemma emits_V_any f fmt s args : emits (S f) f (bs "%V" ++ fmt) fmt (AStr s :: args) args s.
Proof.
  destruct s as [|c s]; [|by apply emits_V]. intros room rest Hr. cbn [length Nat.add app]. destruct room as [|room].
  - destruct f as [|f]; [done|]. assert (rest = []) as -> by (destruct fmt; by injection Hr). done.
  - change (vslprintf_loop f (S room - 0) fmt args ≫= (fun rest => Some ([] ++ rest)) = Some rest). rewrite Nat.sub_0_r.
    by rewrite Hr.
Qed.

(** The pieces of a format: a text without percent signs, and the conversions the filter uses. *)
Inductive piece : Type := Lit (l : list Z) | PO (n : Z) | PA (n : Z) | PV (s : list Z).

Definition piece_fmt (p : piece) : list Z :=
  match p with Lit l => l | PO _ => bs "%O" | PA _ => bs "%0muA" | PV _ => bs "%V" end.
Definition piece_args (p : piece) : list arg :=
  match p with Lit _ => [] | PO n | PA n => [AInt n] | PV s => [AStr s] end.
Definition piece_out (p : piece) : list Z :=
  match p with Lit l => l | PO n => num_digits 0 n | PA n => field "0"%ch 20 0 n | PV s => s end.
Definition piece_ok (p : piece) : Prop :=
  match p with
  | Lit l => Forall (fun c => c <> "%"%ch) l
  | PO n => 0 <= n < 2 ^ 63
  | PA n => 0 <= n < 2 ^ 64
  | PV _ => True
  end.
Definition piece_steps (p : piece) : nat := match p with Lit l => length l | _ => 1 end.

Fixpoint steps (ps : list piece) : nat := match ps with [] => 0 | p :: ps' => piece_steps p + steps ps' end.

Lemma emits_pieces ps : Forall piece_ok ps -> forall f,
  emits (steps ps + f) f (concat (piece_fmt <$> ps)) [] (concat (piece_args <$> ps)) [] (concat (piece_out <$> ps)).
Proof.
  induction 1 as [|p ps Hp Hps IH]; intros f; [apply emits_end|].
  rewrite !fmap_cons. cbn [concat steps]. rewrite <- Nat.add_assoc. eapply emits_app; [|apply IH].
  destruct p; cbn [piece_ok piece_steps piece_fmt piece_args piece_out] in *.
  - by apply emits_text.
  - by apply emits_O.
  - by apply emits_0muA.
  - apply emits_V_any.
Qed.

Lemma sprintf_pieces size fmt args ps :
  Forall piece_ok ps -> concat (piece_fmt <$> ps) = fmt -> concat (piece_args <$> ps) = args ->
  Z.of_nat (length (concat (piece_out <$> ps))) <= size ->
  sprintf_into size fmt args = Some (concat (piece_out <$> ps)).
Proof.
  intros Hok <- <- Hl. unfold sprintf_into, ngx_vslprintf.
  assert (steps ps <= length (concat (piece_fmt <$> ps)))%nat as Hf.
  { clear. induction ps as [|p ps IH]; [done|]. rewrite !fmap_cons. cbn [concat steps]. rewrite length_app.
    assert (piece_steps p <= length (piece_fmt p))%nat by (destruct p; cbn; lia). lia. }
  pose proof (emits_pieces ps Hok (S (length (concat (piece_fmt <$> ps)) - steps ps))) as He.
  replace (_ + S _)%nat with (S (length (concat (piece_fmt <$> ps)))) in He by lia.
  rewrite (emits_run _ _ _ _ _ _ He) by lia. cbn [mbind option_bind]. by rewrite (proj2 (Z.leb_le _ _)).
Qed.

(** What [%O-%O/%O] writes. *)
Definition span_text (s e len : Z) : list Z :=
  num_digits 0 s ++ bs "-" ++ num_digits 0 (e - 1) ++ bs "/" ++ num_digits 0 len.

Definition span_pieces (s e len : Z) (l : list Z) : list piece := [PO s; Lit (bs "-"); PO (e - 1); Lit (bs "/"); PO len; Lit l].

Lemma span_pieces_ok s e len l :
  0 <= s < e -> e <= len < 2 ^ 63 -> Forall (fun c => c <> "%"%ch) l -> Forall piece_ok (span_pieces s e len l).
Proof. intros. repeat constructor; try lia; done. Qed.

Lemma span_pieces_out s e len l : concat (piece_out <$> span_pieces s e len l) = span_text s e len ++ l.
Proof. unfold span_text. rewrite <- !app_assoc. cbn. by rewrite app_nil_r. Qed.

Lemma span_text_length s e len : 0 <= s < e -> e <= len < 2 ^ 63 -> (length (span_text s e len) <= 62)%nat.
Proof.
  intros Hs He. unfold span_text. rewrite !length_app.
  destruct (num_digits_dec s ltac:(lia)) as (_ & _ & _ & H1). destruct (num_digits_dec (e - 1) ltac:(lia)) as (_ & _ & _ & H2).
  destruct (num_digits_dec len ltac:(lia)) as (_ & _ & _ & H3). unfold NGX_INT64_LEN in *. cbn [length]. 
  change (length (bs "-")) with 1%nat. change (length (bs "/")) with 1%nat. lia.
Qed.

Lemma singlepart_header_run len ctx s e text :
  rc_ranges ctx = [mk_range s e text] -> 0 <= s < e -> e <= len < 2 ^ 63 ->
  singlepart_header true len ctx = Some (Partial ctx (Some (bs "bytes " ++ span_text s e len)) None (e - s)).
Proof.
  intros Hc Hs He. unfold singlepart_header. rewrite Hc. cbn [negb mbind option_bind lookup list_lookup rg_start rg_end].
  pose proof (span_text_length s e len Hs He).
  rewrite (sprintf_pieces _ _ _ (Lit (bs "bytes ") :: span_pieces s e len [])).
  - rewrite fmap_cons. cbn [concat piece_out]. rewrite span_pieces_out, app_nil_r. cbn [mbind option_bind].
    by rewrite i64_small by lia.
  - constructor; [by repeat constructor|by apply span_pieces_ok].
  - done.
  - done.
  - rewrite fmap_cons. cbn [concat piece_out]. rewrite span_pieces_out, app_nil_r, length_app.
    change (length (bs "bytes ")) with 6%nat. unfold NGX_OFF_T_LEN. lia.
Qed.

(** A request for the ranges [ts], of which the header filter makes a partial response. *)
Record range_request (pushes : nat) (r : rreq_t) (ts : list range_text) : Prop := {
  rq_version : NGX_HTTP_VERSION_10 <= http_version r;
  rq_status : status r = NGX_HTTP_OK;
  rq_main : is_main r = true;
  rq_length : 0 <= length_n r < 2 ^ 63;
  rq_allow : allow_ranges r = true;
  rq_max : 0 < max_ranges r < 2 ^ 64;
  rq_header : h_range r = Some (bs "bytes=" ++ render_ranges ts);
  rq_if_range : if_range_ok r = Some true;
  rq_ts : ts <> [];
  rq_ok : Forall (range_ok (length_n r)) ts;
  rq_pushes : (length (omap (denote (length_n r)) ts) <= pushes)%nat;
  rq_few : Z.of_nat (length (omap (denote (length_n r)) ts)) <= (if single_range r then 1 else max_ranges r);
  rq_some : omap (denote (length_n r)) ts <> [];
  rq_total : total (omap (denote (length_n r)) ts) <= length_n r
}.

Lemma header_filter_partial pushes boundary r ts :
  range_request pushes r ts ->
  let sats := omap (denote (length_n r)) ts in
  let ctx := mk_rctx 0 [] (mk_ranges sats) in
  range_header_filter true pushes boundary r =
    (if (length sats =? 1)%nat then singlepart_header true (length_n r) ctx else multipart_header true boundary r ctx) /\
  Forall (fun se => 0 <= se.1 < se.2 /\ se.2 <= length_n r) sats.
Proof.
  intros [Hv Hst Hmn Hl Ha Hmx Hh Hif Hts Hok Hp Hfew Hsome Htot]. cbv zeta.
  split; [|by apply sats_in_range; [lia|]].
  assert (0 <= (if single_range r then 1 else max_ranges r) < 2 ^ 64) as Hrg by (destruct (single_range r); lia).
  pose proof (render_ranges_length ts) as Hrl. destruct ts as [|t0 ts0] eqn:Ets; [done|]. rewrite <- Ets in *.
  assert (1 <= length ts)%nat by (rewrite Ets; cbn; lia).
  unfold range_header_filter. rewrite (proj2 (Z.ltb_ge _ NGX_HTTP_VERSION_10)) by lia. rewrite Hst, Hmn, Ha.
  rewrite (proj2 (Z.eqb_neq (length_n r) (-1))), (proj2 (Z.eqb_neq (max_ranges r) 0)) by lia.
  change (NGX_HTTP_OK =? NGX_HTTP_OK) with true. cbn [negb orb]. rewrite Hh.
  rewrite (proj2 (Nat.ltb_ge _ _)) by (rewrite length_app; change (length (bs "bytes=")) with 6%nat; lia).
  change (ngx_strncasecmp (bs "bytes=" ++ render_ranges ts) (bs "bytes=") 6) with 0. cbn [negb orb Z.eqb].
  rewrite Hif. cbn [mbind option_bind negb]. rewrite range_parse_run by (done || lia).
  unfold range_answer. rewrite (proj2 (Z.ltb_ge _ _)) by lia. rewrite Z.gtb_ltb, (proj2 (Z.ltb_ge _ _)) by lia.
  destruct (Nat.eqb_spec (length (omap (denote (length_n r)) ts)) 0) as [E|E]; [by destruct Hsome; apply nil_length_inv|].
  cbn [mbind option_bind]. change (NGX_OK =? NGX_OK) with true. cbv iota. unfold mk_ranges at 1. by rewrite length_fmap.
Qed.

(** C12: a request for one satisfiable range gets a partial response: the header filter announces the range and its
    length, and the body filter, over any split of the body into chains of buffers, hands on exactly the bytes of the
    range. *)
Theorem single_range_response pushes boundary r ts s e chains :
  range_request pushes r ts -> omap (denote (length_n r)) ts = [(s, e)] ->
  Forall (fun c => plain_chain (c.1 :: c.2)) chains -> Z.of_nat (length (chains_data chains)) = length_n r ->
  exists ctx, range_header_filter true pushes boundary r =
      Some (Partial ctx (Some (bs "bytes " ++ span_text s e (length_n r))) None (e - s)) /\
    exists ctx' out, body_filter_all ctx chains = Some (ctx', out) /\
      chain_data out = take (Z.to_nat (e - s)) (drop (Z.to_nat s) (chains_data chains)) /\
      Z.of_nat (length (chain_data out)) = e - s.
Proof.
  intros Hrq Hs Hp Hlen. destruct (header_filter_partial pushes boundary r ts Hrq) as [-> Hall]. pose proof (rq_length _ _ _ Hrq).
  rewrite Hs in *. apply Forall_cons_1 in Hall as [[Hse Hel] _]. cbn [fst snd] in *. cbn [length Nat.eqb].
  eexists. split; [apply (singlepart_header_run _ (mk_rctx 0 [] [mk_range s e []]) s e []); [done|done|lia]|].
  destruct (body_filter_all_spec s e [] [] chains 0) as (ctx' & out & Hrun & Hout); [done|lia|lia|done|].
  exists ctx', out. split; [done|]. assert (chain_data out = take (Z.to_nat (e - s)) (drop (Z.to_nat s) (chains_data chains))) as E.
  { rewrite Hout. unfold slice. f_equal; [lia|]. f_equal. lia. }
  split; [done|]. rewrite E, length_take, length_drop. lia.
Qed.

(** *** Several ranges *)

Definition boundary_digits (boundary : Z) : list Z := field "0"%ch 20 0 boundary.

Lemma boundary_digits_length b : 0 <= b < 2 ^ 64 -> length (boundary_digits b) = 20%nat.
Proof.
  intros Hb. destruct (num_digits_dec b Hb) as (_ & _ & _ & H). unfold NGX_INT64_LEN in H.
  unfold boundary_digits, field. rewrite length_app, repeat_length. lia.
Qed.

(** The header of a part, up to the range. *)
Definition type_line (r : rreq_t) : list Z :=
  if has_charset r then bs "Content-Type: " ++ content_type r ++ bs "; charset=" ++ charset r ++ CRLF
  else if (length (content_type r) =? 0)%nat then [] else bs "Content-Type: " ++ content_type r ++ CRLF.

Definition boundary_text (r : rreq_t) (boundary : Z) : list Z :=
  CRLF ++ bs "--" ++ boundary_digits boundary ++ CRLF ++ type_line r ++ bs "Content-Range: bytes ".

Lemma make_boundary_run r b : 0 <= b < 2 ^ 64 -> make_boundary r b = Some (boundary_text r b).
Proof.
  intros Hb. pose proof (boundary_digits_length b Hb) as Hlen.
  assert (boundary_text r b = concat (piece_out <$>
    [Lit (CRLF ++ bs "--"); PA b; Lit CRLF] ++
    (if has_charset r then [Lit (bs "Content-Type: "); PV (content_type r); Lit (bs "; charset="); PV (charset r); Lit CRLF]
     else if (length (content_type r) =? 0)%nat then [] else [Lit (bs "Content-Type: "); PV (content_type r); Lit CRLF]) ++
    [Lit (bs "Content-Range: bytes ")])) as E.
  { unfold boundary_text, type_line. destruct (has_charset r), (length (content_type r) =? 0)%nat; cbn [fmap list_fmap concat app piece_out];
      rewrite <- ?app_assoc, ?app_nil_r; reflexivity. }
  assert (Z.of_nat (length (boundary_text r b)) <= boundary_room r) as Hroom.
  { unfold boundary_room, boundary_text, type_line, NGX_ATOMIC_T_LEN.
    destruct (has_charset r), (Nat.eqb_spec (length (content_type r)) 0); rewrite !length_app, ?Hlen; cbn -[Z.of_nat]; lia. }
  rewrite E in Hroom |- *. clear E. unfold make_boundary.
  destruct (has_charset r); [|destruct (length (content_type r) =? 0)%nat]; cbn [negb];
    apply sprintf_pieces; try done; repeat apply Forall_cons_2; try apply Forall_nil_2;
    first [exact Hb|exact I|done].
Qed.

(** The ranges with the ends of their headers. *)
Definition part_text (len : Z) (se : Z * Z) : list Z := span_text se.1 se.2 len ++ CRLF ++ CRLF.
Definition headed (len : Z) (sats : list (Z * Z)) : list range_t :=
  (fun se => mk_range se.1 se.2 (part_text len se)) <$> sats.

(** The length of the parts. *)
Definition parts_length (len hlen : Z) (sats : list (Z * Z)) : Z :=
  fold_right (fun se n => hlen + Z.of_nat (length (part_text len se)) + (se.2 - se.1) + n) 0 sats.

Lemma parts_length_nonneg len hlen sats :
  0 <= hlen -> Forall (fun se => 0 <= se.1 < se.2 /\ se.2 <= len) sats -> 0 <= parts_length len hlen sats.
Proof. intros Hh. induction 1; cbn [parts_length fold_right]; [done|]. unfold parts_length in *. lia. Qed.

Lemma range_headers_run len hlen sats : len < 2 ^ 63 -> 0 <= hlen ->
  Forall (fun se => 0 <= se.1 < se.2 /\ se.2 <= len) sats -> forall acc,
  0 <= acc -> acc + parts_length len hlen sats < 2 ^ 63 ->
  range_headers len hlen acc (mk_ranges sats) = Some (headed len sats, acc + parts_length len hlen sats).
Proof.
  intros Hlen Hh. induction 1 as [|[s e] sats Hse Hall IH]; intros acc Ha Hb.
  { cbn. by rewrite Z.add_0_r. }
  pose proof (parts_length_nonneg len hlen sats Hh Hall) as H0. cbn [fst snd] in Hse.
  change (mk_ranges ((s, e) :: sats)) with (mk_range s e [] :: mk_ranges sats).
  change (parts_length len hlen ((s, e) :: sats)) with
    (hlen + Z.of_nat (length (part_text len (s, e))) + (e - s) + parts_length len hlen sats) in *.
  cbn [range_headers rg_start rg_end].
  assert (sprintf_into (3 * NGX_OFF_T_LEN + 2 + 4) (bs "%O-%O/%O" ++ CRLF ++ CRLF) [AInt s; AInt (e - 1); AInt len] = Some (part_text len (s, e))) as ->.
  { rewrite (sprintf_pieces _ _ _ (span_pieces s e len (CRLF ++ CRLF))); try done.
    - by rewrite span_pieces_out.
    - apply span_pieces_ok; [lia|lia|by repeat constructor].
    - rewrite span_pieces_out, length_app. pose proof (span_text_length s e len ltac:(lia) ltac:(lia)).
      change (length (CRLF ++ CRLF)) with 4%nat. unfold NGX_OFF_T_LEN. lia. }
  cbn [mbind option_bind]. rewrite (u64_small (e - s)) by lia. rewrite u64_small by lia. rewrite IH by lia. cbn [mbind option_bind].
  f_equal. f_equal. lia.
Qed.

Lemma multipart_loop_run len header buf sats :
  Forall (fun se => 0 <= se.1 < se.2 /\ se.2 <= ngx_buf_size buf) sats ->
  exists out, multipart_loop header buf (headed len sats) = Some out /\
    chain_data out = concat ((fun se => header ++ part_text len se ++ take (Z.to_nat (se.2 - se.1)) (drop (Z.to_nat se.1) (data buf))) <$> sats).
Proof.
  intros Hall. induction Hall as [|[s e] sats Hse Hall (out & IH1 & IH2)]; [by eexists|]. cbn [fst snd] in Hse.
  change (headed len ((s, e) :: sats)) with (mk_range s e (part_text len (s, e)) :: headed len sats).
  cbn [multipart_loop rg_start rg_end rg_content]. unfold buf_slice.
  rewrite (proj2 (Z.leb_le 0 s)), (proj2 (Z.leb_le s e)), (proj2 (Z.leb_le e _)) by lia. cbn [andb mbind option_bind]. rewrite IH1.
  cbn [mbind option_bind]. eexists. split; [done|]. rewrite fmap_cons. cbn [concat fst snd]. rewrite <- IH2, <- !app_assoc. done.
Qed.

Definition last_text (boundary : Z) : list Z := CRLF ++ bs "--" ++ boundary_digits boundary ++ bs "--" ++ CRLF.

Lemma parts_sent len header body sats :
  Forall (fun se => 0 <= se.1 < se.2 /\ se.2 <= Z.of_nat (length body)) sats ->
  Z.of_nat (length (concat ((fun se => header ++ part_text len se ++
    take (Z.to_nat (se.2 - se.1)) (drop (Z.to_nat se.1) body)) <$> sats))) = parts_length len (Z.of_nat (length header)) sats.
Proof.
  intros Hall. induction Hall as [|[s e] sats Hse Hall IH]; [done|]. cbn [fst snd] in Hse. rewrite fmap_cons.
  cbn [concat fst snd]. rewrite !length_app, length_take, length_drop, Nat2Z.inj_add, IH.
  change (parts_length len (Z.of_nat (length header)) ((s, e) :: sats)) with
    (Z.of_nat (length header) + Z.of_nat (length (part_text len (s, e))) + (e - s) + parts_length len (Z.of_nat (length header)) sats).
  lia.
Qed.

(** The buffer has all the ranges, or does not. *)
Lemma test_overlapped_within len buf sats o : ngx_buf_size buf < 2 ^ 63 ->
  Forall (fun se => 0 <= se.1 < se.2 /\ se.2 <= ngx_buf_size buf) sats ->
  test_overlapped (mk_rctx 0 o (headed len sats)) buf = Some (mk_rctx (ngx_buf_size buf) o (headed len sats)).
Proof.
  intros Hsz Hall. unfold test_overlapped. cbn [rc_offset rc_ranges]. change (negb (0 =? 0)) with false. cbv iota.
  assert (existsb (fun r => (0 >? rg_start r) || (i64 (0 + ngx_buf_size buf) <? rg_end r)) (headed len sats) = false) as ->.
  { assert (0 <= ngx_buf_size buf) by (unfold ngx_buf_size; lia). rewrite Z.add_0_l, i64_small by lia.
    induction Hall as [|[s e] sats Hse Hall IH]; [done|]. unfold headed in *. rewrite fmap_cons. cbn [existsb rg_start rg_end fst snd] in *.
    rewrite IH. lia. }
  by rewrite andb_false_r.
Qed.

Lemma test_overlapped_beyond len buf sats o : ngx_buf_size buf < 2 ^ 63 -> last_buf buf = false ->
  ~ Forall (fun se => se.2 <= ngx_buf_size buf) sats -> test_overlapped (mk_rctx 0 o (headed len sats)) buf = None.
Proof.
  intros Hsz Hl Hn. unfold test_overlapped. cbn [rc_offset rc_ranges]. rewrite Hl. change (negb (0 =? 0)) with false. cbv iota.
  assert (existsb (fun r => (0 >? rg_start r) || (i64 (0 + ngx_buf_size buf) <? rg_end r)) (headed len sats) = true) as ->; [|done].
  assert (0 <= ngx_buf_size buf) by (unfold ngx_buf_size; lia). rewrite Z.add_0_l, i64_small by lia.
  apply not_false_is_true. contradict Hn. induction sats as [|[s e] sats IH]; [constructor|].
  unfold headed in *. rewrite fmap_cons in Hn. cbn [existsb rg_start rg_end fst snd] in Hn. apply orb_false_iff in Hn as [H1 H2].
  constructor; [cbn; lia|by apply IH].
Qed.

(** What the body filter sends. *)
Lemma multipart_sent len r boundary buf rest sats :
  0 <= boundary < 2 ^ 64 -> ngx_buf_size buf < 2 ^ 63 -> (2 <= length sats)%nat ->
  Forall (fun se => 0 <= se.1 < se.2 /\ se.2 <= ngx_buf_size buf) sats ->
  ngx_buf_special buf = false ->
  exists out, range_body_filter true (mk_rctx 0 (boundary_text r boundary) (headed len sats)) buf rest =
      Some (BodyOk (mk_rctx (ngx_buf_size buf) (boundary_text r boundary) (headed len sats)) out) /\
    chain_data out = concat ((fun se => boundary_text r boundary ++ part_text len se ++
        take (Z.to_nat (se.2 - se.1)) (drop (Z.to_nat se.1) (data buf))) <$> sats) ++ last_text boundary /\
    Z.of_nat (length (chain_data out)) = last_boundary_len + parts_length len (Z.of_nat (length (boundary_text r boundary))) sats.
Proof.
  intros Hb Hsz Hs Hall Hsp. unfold range_body_filter. cbn [rc_ranges].
  unfold headed at 1. rewrite length_fmap, (proj2 (Nat.eqb_neq _ _)), Hsp by lia.
  rewrite (test_overlapped_within len buf sats _ Hsz Hall).
  destruct (multipart_loop_run len (boundary_text r boundary) buf sats Hall) as (out & Hrun & Hout).
  pose proof (boundary_digits_length boundary Hb) as Hd. pose proof (parts_sent len (boundary_text r boundary) (data buf) sats Hall) as Hps.
  assert (boundary_text r boundary = (CRLF ++ bs "--" ++ boundary_digits boundary) ++ CRLF ++ type_line r ++ bs "Content-Range: bytes ") as E
    by (unfold boundary_text; by rewrite <- !app_assoc).
  assert (length (CRLF ++ bs "--" ++ boundary_digits boundary) = 24%nat) as H24 by (rewrite !length_app, Hd; reflexivity).
  match goal with |- context [multipart_body ?c buf] => assert (exists out', multipart_body c buf = Some out' /\
    chain_data out' = chain_data out ++ last_text boundary) as (out' & -> & Hout') end.
  { unfold multipart_body. cbn [boundary_header rc_ranges update]. 
    change (boundary_header _) with (boundary_text r boundary). change (rc_ranges _) with (headed len sats). rewrite Hrun. cbn [mbind option_bind].
    rewrite (proj2 (Z.ltb_ge _ _)) by (rewrite E, length_app, H24; unfold NGX_ATOMIC_T_LEN; lia). eexists. split; [done|].
    rewrite chain_data_app, chain_data_one. f_equal. cbn [data]. rewrite E at 1. rewrite take_app_length' by (rewrite H24; done).
    unfold last_text. by rewrite <- !app_assoc. }
  cbn [mbind option_bind]. eexists. split; [done|]. rewrite Hout', Hout. split; [done|].
  rewrite length_app, Nat2Z.inj_add, Hps. unfold last_text. rewrite !length_app, Hd. unfold last_boundary_len, NGX_ATOMIC_T_LEN.
  change (length CRLF) with 2%nat. change (length (bs "--")) with 2%nat. lia.
Qed.

(** C13: a request for several ranges whose body comes with all of them in the first buffer gets a
    [multipart/byteranges] response: for each range, in order, the boundary, the type of the content, the range and
    exactly its bytes, then the closing boundary; the buffers that are allocated for the headers are never overrun, and
    the announced length is the number of bytes sent.  When a range ends behind the first buffer, and for every later
    buffer with data, the body filter fails. *)
Theorem multi_range_response pushes boundary r ts buf rest :
  range_request pushes r ts -> 0 <= boundary < 2 ^ 64 ->
  let sats := omap (denote (length_n r)) ts in
  let n := last_boundary_len + parts_length (length_n r) (Z.of_nat (length (boundary_text r boundary))) sats in
  let within := Forall (fun se => se.2 <= ngx_buf_size buf) sats in
  (2 <= length sats)%nat -> n < 2 ^ 63 ->
  ngx_buf_special buf = false -> ngx_buf_size buf <= length_n r ->
  (last_buf buf = true -> ngx_buf_size buf = length_n r) ->
  exists ctx, range_header_filter true pushes boundary r =
      Some (Partial ctx None (Some (bs "multipart/byteranges; boundary=" ++ boundary_digits boundary)) n) /\
    (within -> exists ctx' out, range_body_filter true ctx buf rest = Some (BodyOk ctx' out) /\
      chain_data out = concat ((fun se => boundary_text r boundary ++ part_text (length_n r) se ++
          take (Z.to_nat (se.2 - se.1)) (drop (Z.to_nat se.1) (data buf))) <$> sats) ++ last_text boundary /\
      Z.of_nat (length (chain_data out)) = n /\
      forall later more, ngx_buf_special later = false -> range_body_filter true ctx' later more = Some BodyError) /\
    (~ within -> range_body_filter true ctx buf rest = Some BodyError).
Proof.
  intros Hrq Hb sats n within Hsats Hn Hsp Hsz Hlast. destruct (header_filter_partial pushes boundary r ts Hrq) as [-> Hall].
  pose proof (rq_length _ _ _ Hrq) as Hlen. fold sats in Hall |- *. subst within. clearbody sats.
  pose proof (parts_length_nonneg (length_n r) (Z.of_nat (length (boundary_text r boundary))) sats ltac:(lia) Hall) as H0.
  assert (last_boundary_len = 28) as Hl by done.
  rewrite (proj2 (Nat.eqb_neq _ _)) by lia. unfold multipart_header. cbn [negb]. rewrite make_boundary_run by done. cbn [mbind option_bind].
  rewrite (sprintf_pieces _ _ _ [Lit (bs "multipart/byteranges; boundary="); PA boundary]);
    [|repeat apply Forall_cons_2; try apply Forall_nil_2; first [exact Hb|done]|done|done|].
  2: { cbn [fmap list_fmap concat piece_out]. fold (boundary_digits boundary). rewrite !length_app, boundary_digits_length by done.
       change (length (bs "multipart/byteranges; boundary=")) with 31%nat. unfold NGX_ATOMIC_T_LEN. cbn [length]. lia. }
  cbn [mbind option_bind rc_ranges rc_offset]. rewrite range_headers_run by (done || lia). fold n. cbn [mbind option_bind].
  rewrite i64_small by lia. eexists. split; [cbn [fmap list_fmap concat piece_out]; by rewrite app_nil_r|].
  split.
  - intros Hw. assert (Hin : Forall (fun se => 0 <= se.1 < se.2 /\ se.2 <= ngx_buf_size buf) sats).
    { rewrite list.Forall_forall in Hall, Hw |- *. intros se Hse. split; [by apply Hall|by apply Hw]. }
    destruct (multipart_sent (length_n r) r boundary buf rest sats Hb ltac:(lia) Hsats Hin Hsp) as (out & E & Ho & Hl2).
    eexists _, out. split; [exact E|]. split; [exact Ho|]. split; [exact Hl2|].
    intros later more Hsp2. destruct sats as [|se sats]; [cbn in Hsats; lia|]. apply Forall_inv in Hin as Hse.
    unfold range_body_filter. cbn [rc_ranges]. unfold headed at 1. rewrite length_fmap, (proj2 (Nat.eqb_neq _ _)), Hsp2 by lia.
    unfold test_overlapped. cbn [rc_offset]. rewrite (proj2 (Z.eqb_neq _ _)) by lia. done.
  - intros Hw. unfold range_body_filter. cbn [rc_ranges]. unfold headed at 1. rewrite length_fmap, (proj2 (Nat.eqb_neq _ _)), Hsp by lia.
    rewrite test_overlapped_beyond; [done|lia| |done]. apply not_true_is_false. intros Hlb. specialize (Hlast Hlb).
    apply Hw. rewrite list.Forall_forall in Hall |- *. intros se Hse. rewrite Hlast. by apply Hall.
Qed.

(** Ten bytes of text in two chains, and the same in one buffer. *)
Definition demo_request (v : list Z) : rreq_t :=
  mk_rreq 1001 200 true 10 true false 5 (Some v) None None (-1) (bs "text/plain") 10 (bs "utf-8").

Definition demo_chains : list (buf_t * list buf_t) :=
  [(mk_buf (bs "0123") true false false false false, [mk_buf (bs "45") true false false false false]);
   (mk_buf [] false false true false false, [mk_buf (bs "6789") true false false false true])].

Lemma demo_single : range_request 9 (demo_request (bs "bytes=3-5")) [Span 0 (bs "3") 0 0 (bs "5") 0].
Proof.
  constructor; try reflexivity; try (cbn [demo_request length_n max_ranges http_version]; unfold NGX_HTTP_VERSION_10; lia); try discriminate.
  all: lazymatch goal with |- Forall _ _ => idtac | _ => vm_compute; first [lia|congruence] end.
  repeat constructor; (done || (vm_compute; congruence)).
Qed.

Lemma single_range_response_witness :
  exists ctx, range_header_filter true 9 77 (demo_request (bs "bytes=3-5")) =
      Some (Partial ctx (Some (bs "bytes 3-5/10")) None 3) /\
    exists ctx' out, body_filter_all ctx demo_chains = Some (ctx', out) /\ chain_data out = bs "345" /\
      Z.of_nat (length (chain_data out)) = 3.
Proof.
  exact (single_range_response 9 77 (demo_request (bs "bytes=3-5")) [Span 0 (bs "3") 0 0 (bs "5") 0] 3 6 demo_chains
    demo_single eq_refl ltac:(by repeat constructor) eq_refl).
Defined.

Definition demo_two : list range_text := [Span 0 (bs "0") 0 0 (bs "1") 0; Suffix 0 (bs "3") 0].

Lemma demo_multi : range_request 9 (demo_request (bs "bytes=0-1,-3")) demo_two.
Proof.
  constructor; try reflexivity; try (cbn [demo_request length_n max_ranges http_version]; unfold NGX_HTTP_VERSION_10; lia); try discriminate.
  all: lazymatch goal with |- Forall _ _ => idtac | _ => vm_compute; first [lia|congruence] end.
  repeat constructor; (done || (vm_compute; congruence)).
Qed.

(** The whole body in one buffer, and its first half *)
Lemma multi_range_response_witness :
  exists ctx n ct, range_header_filter true 9 77 (demo_request (bs "bytes=0-1,-3")) = Some (Partial ctx None (Some ct) n) /\
    (exists ctx' out, range_body_filter true ctx (mk_buf (bs "0123456789") true false false false true) [] = Some (BodyOk ctx' out) /\
      Z.of_nat (length (chain_data out)) = n) /\
    range_body_filter true ctx (mk_buf (bs "01234") true false false false false) [] = Some BodyError.
Proof.
  destruct (multi_range_response 9 77 (demo_request (bs "bytes=0-1,-3")) demo_two (mk_buf (bs "0123456789") true false false false true) []
    demo_multi ltac:(lia) ltac:(vm_compute; lia) ltac:(vm_compute; reflexivity) eq_refl ltac:(vm_compute; congruence) ltac:(done)) as (ctx & H & H1 & _).
  destruct (multi_range_response 9 77 (demo_request (bs "bytes=0-1,-3")) demo_two (mk_buf (bs "01234") true false false false false) []
    demo_multi ltac:(lia) ltac:(vm_compute; lia) ltac:(vm_compute; reflexivity) eq_refl ltac:(vm_compute; congruence) ltac:(done)) as (ctx2 & H2 & _ & H3).
  rewrite H in H2. injection H2 as <-. eexists ctx, _, _. split; [exact H|]. split.
  - destruct H1 as (ctx' & out & E & _ & El & _); [|by eexists ctx', out]. vm_compute. repeat constructor; discriminate.
  - apply H3. intros Hw. vm_compute in Hw. inversion_clear Hw as [|? ? _ Hw2]. inversion_clear Hw2 as [|? ? Hw3 _]. by apply Hw3.
Defined.

End RangeFilter.
