(* ===== verification/RbTree.v ===== *)
(** * Red-black trees

    [src/src/core/ngx_rbtree.c] and [ngx_rbtree.h]: the intrusive red-black tree the
    timers, the shared memory zones and the caches are kept in.  The nodes live in
    a store indexed by address, with their parent links; a tree has a root pointer
    and a sentinel node that stands for every leaf.  [None] is a dereference of an
    address that holds no node.

    [ngx_rbtree_left_rotate] and [ngx_rbtree_right_rotate], and the two halves of the
    rebalancing loops, are mirror images of each other in the source; they are
    one definition with the side as argument. *)

From stdpp Require Import gmap.
From S2P Require Import Prelude.

Module RbTree.

(** ** Nodes and the store *)

Abbreviation ptr := Z.
Definition NULL : ptr := 0.

(** [ngx_rbtree_node_s], without its byte of user data *)
Record node_t : Type := mk_node {
  key : Z;
  left : ptr;
  right : ptr;
  parent : ptr;
  color : Z
}.

#[export] Instance eta_node : Eta node_t := fun n =>
  mk_node (key n) (left n) (right n) (parent n) (color n).

(** The nodes in memory and [tree->root]. *)
Record store : Type := mk_store { nodes : gmap Z node_t; root : ptr }.

#[export] Instance eta_store : Eta store := fun s => mk_store (nodes s) (root s).

(** A computation on the store; [None] is undefined behaviour. *)
Definition M (A : Type) : Type := store -> option (A * store).

Definition ret {A} (x : A) : M A := fun s => Some (x, s).
Definition bind {A B} (m : M A) (f : A -> M B) : M B := fun s =>
  match m s with Some (x, s') => f x s' | None => None end.

#[export] Instance M_ret : MRet M := @ret.
#[export] Instance M_bind : MBind M := fun _ _ f m => bind m f.

Definition load (p : ptr) : M node_t := fun s =>
  match nodes s !! p with Some n => Some (n, s) | None => None end.
Definition modify (p : ptr) (f : node_t -> node_t) : M unit := fun s =>
  match nodes s !! p with
  | Some n => Some (tt, s <| nodes := <[p := f n]> (nodes s) |>)
  | None => None
  end.
Definition get {A} (f : node_t -> A) (p : ptr) : M A := n ← load p; ret (f n).
Definition get_root : M ptr := fun s => Some (root s, s).
Definition set_root (p : ptr) : M unit := fun s => Some (tt, s <| root := p |>).
Definition set_parent (p v : ptr) : M unit := modify p (fun n => n <| parent := v |>).
Definition set_color (p : ptr) (c : Z) : M unit := modify p (fun n => n <| color := c |>).

(** [ngx_rbt_red], [ngx_rbt_black], [ngx_rbt_is_red] *)
Definition rbt_red (p : ptr) : M unit := set_color p 1.
Definition rbt_black (p : ptr) : M unit := set_color p 0.
Definition is_red (p : ptr) : M bool := c ← get color p; ret (negb (c =? 0)).
Definition is_black (p : ptr) : M bool := r ← is_red p; ret (negb r).
Definition copy_color (p q : ptr) : M unit := c ← get color q; set_color p c.

(** A side of a node. *)
Inductive side : Type := L | R.
#[export] Instance side_eq_dec : EqDecision side.
Proof. solve_decision. Defined.
Definition opp (d : side) : side := match d with L => R | R => L end.
Definition child (d : side) (n : node_t) : ptr := match d with L => left n | R => right n end.
Definition set_child (d : side) (p v : ptr) : M unit :=
  modify p (fun n => match d with L => n <| left := v |> | R => n <| right := v |> end).

Section Tree.
(** [tree->sentinel], which a tree keeps for its life time. *)
Variable sentinel : ptr.

(** ** Rotation

    [rotate L] is [ngx_rbtree_left_rotate], [rotate R] is
    [ngx_rbtree_right_rotate]. *)
Definition rotate (d : side) (node : ptr) : M unit :=
  temp ← get (child (opp d)) node;
  inner ← get (child d) temp;
  set_child (opp d) node inner;;
  inner ← get (child d) temp;
  (if negb (inner =? sentinel) then set_parent inner node else ret tt);;
  np ← get parent node;
  set_parent temp np;;
  r ← get_root;
  (if node =? r then set_root temp
   else
     np ← get parent node;
     nd ← get (child d) np;
     if node =? nd then set_child d np temp else set_child (opp d) np temp);;
  set_child d temp node;;
  set_parent node temp.

(** [ngx_rbtree_init], with [ngx_rbtree_sentinel_init] *)
Definition ngx_rbtree_init : M unit :=
  rbt_black sentinel;;
  set_root sentinel.

(** ** Insertion *)

(** The order in which nodes are inserted: [ngx_rbtree_insert_value] and
    [ngx_rbtree_insert_timer_value] compare the keys. *)
Definition value_less (a b : Z) : bool := a <? b.
Definition timer_less (a b : Z) : bool := i64 (a - b) <? 0.
Definition by_key (less : Z -> Z -> bool) (a b : ptr * Z) : bool := less a.2 b.2.

Section Insert.
(** The comparison of the tree's insertion function: nodes with their keys, since some of
    them also compare what is stored behind the node. *)
Variable less : ptr * Z -> ptr * Z -> bool.

(** The loop that looks for the place: the last node and the side. *)
Fixpoint insert_place (fuel : nat) (temp : ptr) (x : ptr * Z) : M (ptr * side) :=
  match fuel with
  | O => fun _ => None
  | S fuel' =>
      tk ← get key temp;
      let d := if less x (temp, tk) then L else R in
      p ← get (child d) temp;
      if p =? sentinel then ret (temp, d) else insert_place fuel' p x
  end.

Definition insert_value (fuel : nat) (temp node : ptr) : M unit :=
  k ← get key node;
  place ← insert_place fuel temp (node, k);
  let '(temp, d) := place in
  set_child d temp node;;
  set_parent node temp;;
  set_child L node sentinel;;
  set_child R node sentinel;;
  rbt_red node.

(** One pass of the rebalancing loop when [node->parent] is the child [d] of
    its parent; the result is the next [node]. *)
Definition insert_fixup_side (d : side) (node : ptr) : M ptr :=
  np ← get parent node;
  npp ← get parent np;
  temp ← get (child (opp d)) npp;
  red ← is_red temp;
  if red : bool then
    np ← get parent node; rbt_black np;;
    rbt_black temp;;
    np ← get parent node; npp ← get parent np; rbt_red npp;;
    np ← get parent node; get parent np
  else
    np ← get parent node;
    npd ← get (child (opp d)) np;
    node ← (if node =? npd then
               node ← get parent node; rotate d node;; ret node
             else ret node);
    np ← get parent node; rbt_black np;;
    np ← get parent node; npp ← get parent np; rbt_red npp;;
    np ← get parent node; npp ← get parent np; rotate (opp d) npp;;
    ret node.

Fixpoint insert_fixup (fuel : nat) (node : ptr) : M unit :=
  match fuel with
  | O => fun _ => None
  | S fuel' =>
      r ← get_root;
      if node =? r then ret tt
      else
        np ← get parent node;
        red ← is_red np;
        if negb red then ret tt
        else
          npp ← get parent np;
          npl ← get left npp;
          node ← insert_fixup_side (if np =? npl then L else R) node;
          insert_fixup fuel' node
  end.

(** [ngx_rbtree_insert] *)
Definition rbtree_insert (fuel : nat) (node : ptr) : M unit :=
  r ← get_root;
  if r =? sentinel then
    set_parent node NULL;;
    set_child L node sentinel;;
    set_child R node sentinel;;
    rbt_black node;;
    set_root node
  else
    insert_value fuel r node;;
    insert_fixup fuel node;;
    r ← get_root;
    rbt_black r.

(** With a pass for each node in memory. *)
Definition ngx_rbtree_insert (node : ptr) : M unit := fun s =>
  rbtree_insert (S (size (nodes s))) node s.
End Insert.

(** ** Deletion *)

(** [ngx_rbtree_min] *)
Fixpoint rbtree_min (fuel : nat) (node : ptr) : M ptr :=
  match fuel with
  | O => fun _ => None
  | S fuel' =>
      l ← get left node;
      if negb (l =? sentinel) then rbtree_min fuel' l else ret node
  end.

(** The node that leaves its place, and the child that takes it. *)
Definition delete_choose (fuel : nat) (node : ptr) : M (ptr * ptr) :=
  l ← get left node;
  r ← get right node;
  if l =? sentinel then ret (node, r)
  else if r =? sentinel then ret (node, l)
  else subst ← rbtree_min fuel r; temp ← get right subst; ret (subst, temp).

(** The "DEBUG stuff". *)
Definition delete_clear (node : ptr) : M unit :=
  set_child L node NULL;;
  set_child R node NULL;;
  set_parent node NULL;;
  modify node (fun n => n <| key := 0 |>).

(** [subst] takes the place of [node]. *)
Definition delete_take_place (node subst : ptr) : M unit :=
  l ← get left node; set_child L subst l;;
  r ← get right node; set_child R subst r;;
  p ← get parent node; set_parent subst p;;
  copy_color subst node;;
  rt ← get_root;
  (if node =? rt then set_root subst
   else
     p ← get parent node;
     pl ← get left p;
     if node =? pl then set_child L p subst else set_child R p subst);;
  l ← get left subst;
  (if negb (l =? sentinel) then set_parent l subst else ret tt);;
  r ← get right subst;
  (if negb (r =? sentinel) then set_parent r subst else ret tt).

Definition delete_replace (node subst temp : ptr) : M unit :=
  sp ← get parent subst;
  (if sp =? node then set_parent temp subst else set_parent temp sp);;
  delete_take_place node subst.

(** The part of [ngx_rbtree_delete] before the rebalancing: [None] when it
    returns at once, and [temp] when the rebalancing starts there. *)
Definition delete_unlink (fuel : nat) (node : ptr) : M (option ptr) :=
  st ← delete_choose fuel node;
  let '(subst, temp) := st in
  rt ← get_root;
  if subst =? rt then
    set_root temp;;
    rbt_black temp;;
    delete_clear node;;
    ret None
  else
    red ← is_red subst;
    sp ← get parent subst;
    spl ← get left sp;
    (if subst =? spl then set_child L sp temp else set_child R sp temp);;
    (if subst =? node then set_parent temp sp else delete_replace node subst temp);;
    delete_clear node;;
    ret (if red : bool then None else Some temp).

(** One pass of the rebalancing loop when [temp] is the child [d] of its
    parent; the result is the next [temp]. *)
Definition delete_fixup_side (d : side) (temp : ptr) : M ptr :=
  tp ← get parent temp;
  w ← get (child (opp d)) tp;
  red ← is_red w;
  w ← (if red : bool then
          rbt_black w;;
          tp ← get parent temp; rbt_red tp;;
          tp ← get parent temp; rotate d tp;;
          tp ← get parent temp; get (child (opp d)) tp
        else ret w);
  wl ← get left w;
  bl ← is_black wl;
  both ← (if bl : bool then wr ← get right w; is_black wr else ret false);
  if both : bool then
    rbt_red w;;
    get parent temp
  else
    wf ← get (child (opp d)) w;
    bf ← is_black wf;
    w ← (if bf : bool then
            wn ← get (child d) w; rbt_black wn;;
            rbt_red w;;
            rotate (opp d) w;;
            tp ← get parent temp; get (child (opp d)) tp
          else ret w);
    tp ← get parent temp; copy_color w tp;;
    tp ← get parent temp; rbt_black tp;;
    wf ← get (child (opp d)) w; rbt_black wf;;
    tp ← get parent temp; rotate d tp;;
    get_root.

Fixpoint delete_fixup (fuel : nat) (temp : ptr) : M ptr :=
  match fuel with
  | O => fun _ => None
  | S fuel' =>
      r ← get_root;
      if temp =? r then ret temp
      else
        red ← is_red temp;
        if red : bool then ret temp
        else
          tp ← get parent temp;
          tpl ← get left tp;
          temp ← delete_fixup_side (if temp =? tpl then L else R) temp;
          delete_fixup fuel' temp
  end.

(** [ngx_rbtree_delete] *)
Definition rbtree_delete (fuel : nat) (node : ptr) : M unit :=
  next ← delete_unlink fuel node;
  match next with
  | None => ret tt
  | Some temp => temp ← delete_fixup fuel temp; rbt_black temp
  end.

Definition ngx_rbtree_delete (node : ptr) : M unit := fun s =>
  rbtree_delete (S (size (nodes s))) node s.

(** ** The tree a store represents *)

Inductive tree : Type :=
  | E
  | T (red : bool) (p : ptr) (k : Z) (l r : tree).

(** A node with child [a] on the side [d] and [b] on the other. *)
Definition mkT (d : side) (c : bool) (p : ptr) (k : Z) (a b : tree) : tree :=
  match d with L => T c p k a b | R => T c p k b a end.

Definition tptr (t : tree) : ptr := match t with E => sentinel | T _ p _ _ _ => p end.
Definition tred (t : tree) : bool := match t with E => false | T c _ _ _ _ => c end.

Fixpoint ptrs (t : tree) : list ptr :=
  match t with E => [] | T _ p _ l r => p :: ptrs l ++ ptrs r end.

Fixpoint rep (m : gmap Z node_t) (par : ptr) (t : tree) : Prop :=
  match t with
  | E => True
  | T c p k l r =>
      m !! p = Some (mk_node k (tptr l) (tptr r) par (Z.b2z c)) /\ rep m p l /\ rep m p r
  end.

(** A path to the root: the frames between a subtree and the whole tree, the
    innermost first.  [F d c p k sib] is a node whose child on the side [d] is the
    subtree and whose other child is [sib]. *)
Inductive frame : Type := F (d : side) (c : bool) (p : ptr) (k : Z) (sib : tree).

Definition plug1 (f : frame) (t : tree) : tree := let 'F d c p k sib := f in mkT d c p k t sib.
Definition plug (c : list frame) (t : tree) : tree := foldl (fun t f => plug1 f t) t c.

Definition fptr (f : frame) : ptr := let 'F _ _ p _ _ := f in p.
Definition fred (f : frame) : bool := let 'F _ c _ _ _ := f in c.

(** The parent of the subtree; [rp] is what the root has as its parent, which no
    operation looks at. *)
Definition up (rp : ptr) (c : list frame) : ptr := match c with [] => rp | f :: _ => fptr f end.

Fixpoint cptrs (c : list frame) : list ptr :=
  match c with [] => [] | F _ _ p _ sib :: c => p :: ptrs sib ++ cptrs c end.

Definition side_node (d : side) (k : Z) (a b par : ptr) (c : bool) : node_t :=
  match d with L => mk_node k a b par (Z.b2z c) | R => mk_node k b a par (Z.b2z c) end.

Fixpoint repc (m : gmap Z node_t) (rt rp : ptr) (c : list frame) (hole : ptr) : Prop :=
  match c with
  | [] => rt = hole
  | F d co p k sib :: c =>
      m !! p = Some (side_node d k hole (tptr sib) (up rp c) co) /\ rep m p sib /\
      repc m rt rp c p
  end.

(** The store [s] holds the tree [t] under the path [c]; the sentinel is [sn],
    and everything else is as in [m0]. *)
Record holds (m0 : gmap Z node_t) (sn : node_t) (rp : ptr) (c : list frame) (t : tree) (s : store)
    : Prop := mk_holds {
  h_tree : rep (nodes s) (up rp c) t;
  h_path : repc (nodes s) (root s) rp c (tptr t);
  h_nodup : NoDup (sentinel :: ptrs t ++ cptrs c);
  h_sent : nodes s !! sentinel = Some sn;
  h_black : color sn = 0;
  h_frame : forall p, p ∉ sentinel :: ptrs t ++ cptrs c -> nodes s !! p = m0 !! p
}.

Lemma rep_insert m par t p n : p ∉ ptrs t -> rep (<[p := n]> m) par t <-> rep m par t.
Proof.
  revert par. induction t as [|c q k l IHl r IHr]; intros par Hp; [done|]. cbn [ptrs rep] in *.
  apply not_elem_of_cons in Hp as [Hne [Hl Hr]%not_elem_of_app].
  rewrite lookup_insert_ne by done. by rewrite IHl, IHr.
Qed.

Lemma repc_insert m rt rp c hole p n :
  p ∉ cptrs c -> repc (<[p := n]> m) rt rp c hole <-> repc m rt rp c hole.
Proof.
  revert hole. induction c as [|[d co q k sib] c IH]; intros hole Hp; [done|]. cbn [cptrs repc] in *.
  apply not_elem_of_cons in Hp as [Hne [Hl Hr]%not_elem_of_app].
  rewrite lookup_insert_ne by done. by rewrite IH, rep_insert.
Qed.

Lemma ptrs_mkT d c p k a b : ptrs (mkT d c p k a b) ≡ₚ p :: ptrs a ++ ptrs b.
Proof. destruct d; cbn; [done|]. by rewrite (Permutation_app_comm (ptrs b)). Qed.

Lemma tptr_mkT d c p k a b : tptr (mkT d c p k a b) = p.
Proof. by destruct d. Qed.

Lemma rep_mkT m par d c p k a b :
  rep m par (mkT d c p k a b) <->
  m !! p = Some (side_node d k (tptr a) (tptr b) par c) /\ rep m p a /\ rep m p b.
Proof. destruct d; cbn; tauto. Qed.

(** Moving the focus. *)
Lemma holds_up m0 sn rp d co p k sib c t s :
  holds m0 sn rp (F d co p k sib :: c) t s <-> holds m0 sn rp c (mkT d co p k t sib) s.
Proof.
  assert (ptrs t ++ cptrs (F d co p k sib :: c) ≡ₚ ptrs (mkT d co p k t sib) ++ cptrs c) as Hp.
  { rewrite ptrs_mkT. cbn [cptrs]. rewrite <- Permutation_middle, app_assoc. done. }
  split; intros [H1 H2 H3 H4 H5 H6].
  - cbn [repc up fptr] in *. destruct H2 as (Hn & Hs & H2). split; try done.
    + apply rep_mkT. done.
    + by rewrite tptr_mkT.
    + by rewrite <- Hp.
    + intros q. rewrite <- Hp. apply H6.
  - apply rep_mkT in H1 as (Hn & Ht & Hs). rewrite tptr_mkT in H2. split; try done.
    + by rewrite Hp.
    + intros q. rewrite Hp. apply H6.
Qed.

Lemma to_parent m0 sn rp d co p k sib c t s :
  holds m0 sn rp (F d co p k sib :: c) t s -> holds m0 sn rp c (mkT d co p k t sib) s.
Proof. apply holds_up. Qed.

Lemma to_child m0 sn rp d co p k sib c t s :
  holds m0 sn rp c (mkT d co p k t sib) s -> holds m0 sn rp (F d co p k sib :: c) t s.
Proof. apply holds_up. Qed.

Lemma holds_plug m0 sn rp c t s : holds m0 sn rp c t s <-> holds m0 sn rp [] (plug c t) s.
Proof.
  revert t. induction c as [|[d co p k sib] c IH]; intros t; [done|]. by rewrite holds_up, IH.
Qed.
(** ** Running the operations *)

(** The operation has no undefined behaviour from [s], and ends as [Q] says. *)
Definition runs {A} (m : M A) (s : store) (Q : A -> store -> Prop) : Prop :=
  exists x s', m s = Some (x, s') /\ Q x s'.

Lemma runs_bind {A B} (m : M A) (f : A -> M B) s Q :
  runs m s (fun x s' => runs (f x) s' Q) -> runs (m ≫= f) s Q.
Proof.
  intros (x & s1 & E1 & y & s2 & E2 & H). exists y, s2. split; [|done].
  unfold mbind, M_bind, bind. by rewrite E1.
Qed.

Lemma runs_ret {A} (x : A) s (Q : A -> store -> Prop) : Q x s -> runs (ret x) s Q.
Proof. intros H. by exists x, s. Qed.

Lemma runs_mono {A} (m : M A) s (Q Q' : A -> store -> Prop) :
  runs m s Q -> (forall x s', Q x s' -> Q' x s') -> runs m s Q'.
Proof. intros (x & s' & E & H) HQ. exists x, s'. auto. Qed.

Lemma runs_get {A} (f : node_t -> A) p n s (Q : A -> store -> Prop) :
  nodes s !! p = Some n -> Q (f n) s -> runs (get f p) s Q.
Proof.
  intros H HQ. apply runs_bind. exists n, s. split; [|by apply runs_ret].
  unfold load. by rewrite H.
Qed.

Lemma runs_get_root s (Q : ptr -> store -> Prop) : Q (root s) s -> runs get_root s Q.
Proof. intros H. by exists (root s), s. Qed.

Lemma runs_set_root p s (Q : unit -> store -> Prop) : Q tt (mk_store (nodes s) p) -> runs (set_root p) s Q.
Proof. intros H. eexists _, _. split; [done|]. by destruct s. Qed.

Lemma runs_modify p f n s (Q : unit -> store -> Prop) :
  nodes s !! p = Some n -> Q tt (mk_store (<[p := f n]> (nodes s)) (root s)) -> runs (modify p f) s Q.
Proof.
  intros H HQ. eexists _, _. split; [unfold modify; by rewrite H|]. by destruct s.
Qed.

(** Lookups in a store that was written to; [solve_ne] closes the inequalities
    of addresses. *)
Ltac split_nodup :=
  repeat match goal with
  | H : NoDup (_ ++ _ :: _) |- _ => rewrite <- Permutation_middle in H
  | H : NoDup (_ :: _) |- _ => apply list.NoDup_cons in H as [? H]
  | H : _ ∉ _ :: _ |- _ => apply not_elem_of_cons in H as [? H]
  | H : _ ∉ _ ++ _ |- _ => apply not_elem_of_app in H as [? H]
  end.

Ltac solve_ne := first [assumption | apply not_eq_sym; assumption | congruence].

Ltac lookups :=
  repeat first
    [ rewrite lookup_insert_eq | rewrite lookup_insert_ne by solve_ne | rewrite insert_insert_eq
    | match goal with
      | |- rep _ _ ?t => rewrite rep_insert by solve_ne
      | |- repc _ _ _ _ _ => rewrite repc_insert by solve_ne
      end ].

Ltac rstep :=
  match goal with
  | |- runs (_ ≫= _) _ _ => apply runs_bind
  | |- runs (ret _) _ _ => apply runs_ret
  | |- runs get_root _ _ => apply runs_get_root; cbn [nodes root]
  | |- runs (set_root _) _ _ => apply runs_set_root; cbn [nodes root]
  | |- runs (get _ _) _ _ => eapply runs_get; [cbn [nodes]; lookups; eassumption || reflexivity|]
  | |- runs (modify _ _) _ _ => eapply runs_modify; [cbn [nodes]; lookups; eassumption || reflexivity|]
  end.

Lemma tptr_ne p t : sentinel <> p -> p ∉ ptrs t -> p <> tptr t.
Proof. destruct t; cbn; intros; split_nodup; congruence. Qed.

Lemma repc_root m rt rp c hole p :
  repc m rt rp c hole -> p <> hole -> p ∉ cptrs c -> p <> rt.
Proof.
  revert hole. induction c as [|[d co q k sib] c IH]; intros hole; cbn [repc cptrs].
  - by intros ->.
  - intros (_ & _ & H) Hne Hp. split_nodup. by apply (IH q).
Qed.

Ltac eqbs :=
  repeat match goal with
  | |- context [?x =? ?x] => rewrite (Z.eqb_refl x)
  | |- context [?x =? ?y] => rewrite (proj2 (Z.eqb_neq x y)) by solve_ne
  end.

Ltac run := repeat (rstep; cbn [child opp side_node left right parent color key negb nodes root update]; eqbs;
  cbn [negb]).

(** The store after the writes: [H] relates the untouched addresses. *)
Ltac write_done :=
  split; cbn [rep repc tptr mkT nodes root up fptr side_node];
  [ split_and?; lookups; done | split_and?; lookups; done | done | lookups; done | done
  | let p := fresh in let Hp := fresh in intros p Hp;
    match goal with H : forall p, _ -> _ /\ _ |- _ => apply H in Hp as [? Hp] end;
    split_nodup; lookups; done ].

(** A rotation at [x]: the children [a], [b] and [e] keep their order. *)
Lemma runs_rotate d m0 sn rp c cx x kx cy y ky a b e s (Q : unit -> store -> Prop) :
  holds m0 sn rp c (mkT d cx x kx a (mkT d cy y ky b e)) s ->
  (forall s', holds m0 sn rp c (mkT d cy y ky (mkT d cx x kx a b) e) s' -> Q tt s') ->
  runs (rotate d x) s Q.
Proof.
  intros [H1 H2 H3 H4 H5 H6] HQ.
  assert (ptrs (mkT d cx x kx a (mkT d cy y ky b e)) ++ cptrs c ≡ₚ
          x :: y :: cptrs c ++ ptrs b ++ ptrs a ++ ptrs e) as Hp1.
  { rewrite !ptrs_mkT. solve_Permutation. }
  assert (ptrs (mkT d cy y ky (mkT d cx x kx a b) e) ++ cptrs c ≡ₚ
          x :: y :: cptrs c ++ ptrs b ++ ptrs a ++ ptrs e) as Hp2.
  { rewrite !ptrs_mkT. solve_Permutation. }
  rewrite Hp1 in H3. assert (id (NoDup (sentinel :: x :: y :: cptrs c ++ ptrs b ++ ptrs a ++ ptrs e)))
    as H7 by exact H3. rewrite <- Hp2 in H7.
  assert (forall p, p ∉ sentinel :: ptrs (mkT d cy y ky (mkT d cx x kx a b) e) ++ cptrs c ->
          (p ∉ sentinel :: x :: y :: cptrs c ++ ptrs b ++ ptrs a ++ ptrs e) /\
          nodes s !! p = m0 !! p) as H8.
  { intros p. rewrite Hp2. intros Hp. split; [done|]. apply H6. by rewrite Hp1. }
  clear H6 Hp1 Hp2.
  apply rep_mkT in H1 as (Hx & Ha & (Hy & Hb & He)%rep_mkT). rewrite tptr_mkT in Hx, H2.
  assert (x <> root s \/ c = []) as Hrt.
  { destruct c as [|[d' co q k sib] c]; [by right|left]. destruct H2 as (_ & _ & H2).
    cbn [cptrs] in *. split_nodup. eapply repc_root; [exact H2|done|done]. }
  destruct s as [m rt]. cbn [nodes root] in *.
  destruct c as [|[d' co pf kf sib] c].
  - cbn [repc] in H2. subst rt. clear Hrt.
    destruct b as [|cb pb kb bl br]; destruct d;
      cbn [rep tptr ptrs app side_node up cptrs] in *; split_nodup;
      try destruct Hb as (Hb & Hbl & Hbr);
      unfold rotate, set_child, set_parent; run; apply HQ; write_done.
  - destruct Hrt as [Hrt|]; [|done]. destruct H2 as (Hf & Hs & H2).
    assert (x <> tptr sib) by (cbn [cptrs] in *; split_nodup; by apply tptr_ne).
    destruct b as [|cb pb kb bl br]; destruct d, d';
      cbn [rep tptr ptrs app side_node up cptrs fptr] in *; split_nodup;
      try destruct Hb as (Hb & Hbl & Hbr);
      unfold rotate, set_child, set_parent; run; apply HQ; write_done.
Qed.

(** ** Reading and recolouring around the focus *)

Lemma mkT_opp d c p k a b : mkT (opp d) c p k a b = mkT d c p k b a.
Proof. by destruct d. Qed.

Lemma opp_opp d : opp (opp d) = d.
Proof. by destruct d. Qed.

Lemma child_side d k a b par c : child d (side_node d k a b par c) = a.
Proof. by destruct d. Qed.

Lemma child_opp d k a b par c : child (opp d) (side_node d k a b par c) = b.
Proof. by destruct d. Qed.

Lemma parent_side d k a b par c : parent (side_node d k a b par c) = par.
Proof. by destruct d. Qed.

Lemma color_side d k a b par c : color (side_node d k a b par c) = Z.b2z c.
Proof. by destruct d. Qed.

(** The sibling in the focus instead. *)
Lemma holds_swap m0 sn rp d co p k sib c t s :
  holds m0 sn rp (F d co p k sib :: c) t s <-> holds m0 sn rp (F (opp d) co p k t :: c) sib s.
Proof. by rewrite !holds_up, mkT_opp. Qed.

Section Held.
Context {m0 : gmap Z node_t} {sn : node_t} {rp : ptr} {s : store}.

Lemma holds_node d co p k a b c :
  holds m0 sn rp c (mkT d co p k a b) s ->
  nodes s !! p = Some (side_node d k (tptr a) (tptr b) (up rp c) co).
Proof. intros H. by apply h_tree, rep_mkT in H as [H _]. Qed.

Lemma holds_frame d co p k sib c t :
  holds m0 sn rp (F d co p k sib :: c) t s ->
  nodes s !! p = Some (side_node d k (tptr t) (tptr sib) (up rp c) co).
Proof. intros H%holds_up. by apply holds_node in H. Qed.

Lemma holds_frame2 f d co p k sib c t :
  holds m0 sn rp (f :: F d co p k sib :: c) t s ->
  nodes s !! p = Some (side_node d k (fptr f) (tptr sib) (up rp c) co).
Proof.
  destruct f as [df cf pf kf sf]. intros H%holds_up%holds_frame. by rewrite tptr_mkT in H.
Qed.

Lemma holds_top co p k a b c :
  holds m0 sn rp c (T co p k a b) s ->
  nodes s !! p = Some (mk_node k (tptr a) (tptr b) (up rp c) (Z.b2z co)).
Proof. intros H. apply (holds_node L co p k a b c H). Qed.

(** The colour of a tree that may be empty. *)
Lemma holds_color c t :
  holds m0 sn rp c t s -> exists n, nodes s !! tptr t = Some n /\ color n = Z.b2z (tred t).
Proof.
  intros H. destruct t as [|co p k a b]; cbn [tptr tred].
  - exists sn. by destruct H.
  - eexists. split; [by apply (holds_top _ _ _ _ _ _ H)|done].
Qed.

Lemma runs_is_red c t (Q : bool -> store -> Prop) :
  holds m0 sn rp c t s -> Q (tred t) s -> runs (is_red (tptr t)) s Q.
Proof.
  intros (n & Hn & Hc)%holds_color HQ. apply runs_bind. eapply runs_get; [done|].
  apply runs_ret. rewrite Hc. by destruct (tred t).
Qed.

Lemma runs_is_black c t (Q : bool -> store -> Prop) :
  holds m0 sn rp c t s -> Q (negb (tred t)) s -> runs (is_black (tptr t)) s Q.
Proof. intros H HQ. apply runs_bind. eapply runs_is_red; [done|]. by apply runs_ret. Qed.

(** [temp->parent] for a [temp] that may be the sentinel. *)
Lemma runs_parent c t (Q : ptr -> store -> Prop) :
  holds m0 sn rp c t s -> (t = E -> parent sn = up rp c) -> Q (up rp c) s ->
  runs (get parent (tptr t)) s Q.
Proof.
  intros H Hs HQ. destruct t as [|co p k a b].
  - eapply runs_get; [apply (h_sent _ _ _ _ _ _ H)|]. by rewrite Hs.
  - eapply runs_get; [by apply (holds_top _ _ _ _ _ _ H)|]. done.
Qed.

(** The two children of a node are different addresses, unless both are leaves. *)
Lemma holds_sides d co p k sib c t :
  holds m0 sn rp (F d co p k sib :: c) t s -> t <> E \/ sib <> E -> tptr t <> tptr sib.
Proof.
  intros [_ _ H _ _ _] Hne. destruct t as [|c1 q1 k1 l1 r1], sib as [|c2 q2 k2 l2 r2];
    cbn [ptrs cptrs tptr app] in *; [tauto|split_nodup; done..|].
  rewrite app_comm_cons in H. split_nodup. done.
Qed.

Lemma holds_left d co p k sib c t :
  holds m0 sn rp (F d co p k sib :: c) t s -> t <> E \/ sib <> E ->
  (if tptr t =? left (side_node d k (tptr t) (tptr sib) (up rp c) co) then L else R) = d.
Proof.
  intros Hh Hne. pose proof (holds_sides _ _ _ _ _ _ _ Hh Hne) as H. destruct d; cbn [side_node left].
  - by rewrite Z.eqb_refl.
  - by rewrite (proj2 (Z.eqb_neq _ _) H).
Qed.

Lemma holds_not_root f c t : holds m0 sn rp (f :: c) t s -> tptr t <> root s.
Proof.
  destruct f as [d co q k sib]. intros [_ (_ & _ & H2) H3 _ _ _].
  destruct t as [|ct p kt l r]; cbn [ptrs cptrs app tptr] in *.
  - split_nodup. eapply repc_root; [exact H2|done|done].
  - rewrite <- app_assoc in H3. split_nodup. eapply repc_root; [exact H2|done|done].
Qed.
End Held.

(** Writing a colour in the focus, in the parent and in the sibling. *)
Lemma runs_color m0 sn rp c co p k a b v s (Q : unit -> store -> Prop) :
  holds m0 sn rp c (T co p k a b) s ->
  (forall s', holds m0 sn rp c (T v p k a b) s' -> Q tt s') ->
  runs (set_color p (Z.b2z v)) s Q.
Proof.
  intros H HQ. unfold set_color. eapply runs_modify; [by apply (holds_top _ _ _ _ _ _ H)|].
  apply HQ. destruct H as [(H1 & Ha & Hb) H2 H3 H4 H5 H6].
  split; cbn [nodes root rep tptr]; try done.
  all: cbn [ptrs app tptr] in *.
  - assert (NoDup (p :: ptrs a ++ ptrs b)).
    { apply list.NoDup_cons in H3 as [_ H3]. rewrite app_comm_cons in H3.
      by apply list.NoDup_app in H3 as [? _]. }
    split_nodup. split_and!; lookups; done.
  - split_nodup. by lookups.
  - split_nodup. by lookups.
  - intros q Hq. rewrite lookup_insert_ne by set_solver. by apply H6.
Qed.

Lemma runs_color_frame m0 sn rp d co p k sib c t v s (Q : unit -> store -> Prop) :
  holds m0 sn rp (F d co p k sib :: c) t s ->
  (forall s', holds m0 sn rp (F d v p k sib :: c) t s' -> Q tt s') ->
  runs (set_color p (Z.b2z v)) s Q.
Proof.
  intros H%holds_up HQ.
  destruct d; (eapply runs_color; [exact H|]); intros s' Hs; apply HQ, holds_up; exact Hs.
Qed.

Lemma runs_color_sib m0 sn rp d co p k cs ps ks l r c t v s (Q : unit -> store -> Prop) :
  holds m0 sn rp (F d co p k (T cs ps ks l r) :: c) t s ->
  (forall s', holds m0 sn rp (F d co p k (T v ps ks l r) :: c) t s' -> Q tt s') ->
  runs (set_color ps (Z.b2z v)) s Q.
Proof.
  intros H%holds_swap HQ. eapply runs_color; [exact H|]. intros s' Hs. apply HQ, holds_swap, Hs.
Qed.

Lemma runs_color_frame2 m0 sn rp f d co p k sib c t v s (Q : unit -> store -> Prop) :
  holds m0 sn rp (f :: F d co p k sib :: c) t s ->
  (forall s', holds m0 sn rp (f :: F d v p k sib :: c) t s' -> Q tt s') ->
  runs (set_color p (Z.b2z v)) s Q.
Proof.
  destruct f as [df cf pf kf sf]. intros H%holds_up HQ. eapply runs_color_frame; [exact H|].
  intros s' Hs. apply HQ, holds_up, Hs.
Qed.

(** ** Order and balance *)

(** The nodes from left to right. *)
Fixpoint inorder (t : tree) : list (ptr * Z) :=
  match t with E => [] | T _ p k l r => inorder l ++ (p, k) :: inorder r end.

(** The nodes left and right of a subtree. *)
Fixpoint before (c : list frame) : list (ptr * Z) :=
  match c with
  | [] => []
  | F L _ _ _ _ :: c => before c
  | F R _ p k sib :: c => before c ++ inorder sib ++ [(p, k)]
  end.
Fixpoint after (c : list frame) : list (ptr * Z) :=
  match c with
  | [] => []
  | F L _ p k sib :: c => (p, k) :: inorder sib ++ after c
  | F R _ _ _ _ :: c => after c
  end.

Lemma plug_cons f c t : plug (f :: c) t = plug c (plug1 f t).
Proof. done. Qed.

Lemma inorder_plug c t : inorder (plug c t) = before c ++ inorder t ++ after c.
Proof.
  revert t. induction c as [|[d co p k sib] c IH]; intros t; [by cbn; rewrite app_nil_r|].
  rewrite plug_cons, IH. destruct d; cbn; by rewrite <- !app_assoc.
Qed.

(** The root of [t] may be red, a red node has black children, and every path
    to a leaf passes [n] black nodes. *)
Fixpoint bal (t : tree) (n : nat) : Prop :=
  match t with
  | E => n = 0%nat
  | T true _ _ l r => tred l = false /\ tred r = false /\ bal l n /\ bal r n
  | T false _ _ l r => match n with O => False | S n => bal l n /\ bal r n end
  end.

(** The same around a subtree of black height [n]; the root is black. *)
Fixpoint balc (c : list frame) (n : nat) : Prop :=
  match c with
  | [] => True
  | F _ true _ _ sib :: c =>
      bal sib n /\ tred sib = false /\
      match c with [] => False | f :: _ => fred f = false end /\ balc c n
  | F _ false _ _ sib :: c => bal sib n /\ balc c (S n)
  end.

(** A red-black tree. *)
Definition red_black (t : tree) : Prop := tred t = false /\ exists n, bal t n.

Definition blacken (t : tree) : tree := match t with E => E | T _ p k l r => T false p k l r end.

Lemma blacken_id t : tred t = false -> blacken t = t.
Proof. by destruct t as [|[] p k l r]. Qed.

Lemma inorder_blacken t : inorder (blacken t) = inorder t.
Proof. by destruct t. Qed.

Lemma bal_blacken t n : bal t n -> exists n, bal (blacken t) n.
Proof. destruct t as [|[] p k l r]; cbn; [eauto| |eauto]. intros (_ & _ & ? & ?). by exists (S n). Qed.

Lemma bal_mkT_red d p k a b n :
  bal (mkT d true p k a b) n <-> tred a = false /\ tred b = false /\ bal a n /\ bal b n.
Proof. destruct d; cbn; tauto. Qed.

Lemma bal_mkT_black d p k a b n : bal (mkT d false p k a b) (S n) <-> bal a n /\ bal b n.
Proof. destruct d; cbn; tauto. Qed.

Lemma tred_mkT d c p k a b : tred (mkT d c p k a b) = c.
Proof. by destruct d. Qed.

(** A subtree that fits its place makes the whole tree red-black, once the root
    is black. *)
Lemma bal_plug c t n :
  bal t n -> balc c n ->
  match c with f :: _ => fred f = true -> tred t = false | [] => True end ->
  exists n, bal (plug c t) n /\ (c = [] \/ tred (plug c t) = false).
Proof.
  revert t n. induction c as [|[d [] p k sib] c IH]; intros t n Ht Hc Hr; [by eauto|..].
  - destruct Hc as (Hs & Hsb & Hf & Hc). rewrite plug_cons. cbn [plug1].
    destruct (IH (mkT d true p k t sib) n) as (N & HN & HR).
    + apply bal_mkT_red. auto.
    + done.
    + destruct c as [|f c]; [done|]. by rewrite Hf.
    + exists N. split; [done|right]. by destruct HR as [->|].
  - destruct Hc as (Hs & Hc). rewrite plug_cons. cbn [plug1].
    destruct (IH (mkT d false p k t sib) (S n)) as (N & HN & HR).
    + by apply bal_mkT_black.
    + done.
    + destruct c as [|f c]; [done|]. by rewrite tred_mkT.
    + exists N. split; [done|right]. destruct HR as [->|]; [|done]. apply tred_mkT.
Qed.

(** ** Insertion *)

(** The store holds a red-black tree with the nodes [l], but for a red root. *)
Definition rebalanced m0 sn rp (l : list (ptr * Z)) (s : store) : Prop :=
  exists t n, holds m0 sn rp [] t s /\ inorder t = l /\ bal t n /\ t <> E.

Lemma plug_ne c t : t <> E -> plug c t <> E.
Proof.
  revert t. induction c as [|[d co p k sib] c IH]; intros t H; [done|]. apply IH. by destruct d.
Qed.

Lemma holds_rebalanced m0 sn rp c t n s l :
  holds m0 sn rp c t s -> t <> E -> bal t n -> balc c n ->
  match c with f :: _ => fred f = true -> tred t = false | [] => True end ->
  before c ++ inorder t ++ after c = l -> rebalanced m0 sn rp l s.
Proof.
  intros H Hne Hb Hc Hr <-. destruct (bal_plug c t n Hb Hc Hr) as (N & HN & _).
  exists (plug c t), N. split_and!; [by apply (holds_plug _ _ _ c)|apply inorder_plug|done|by apply plug_ne].
Qed.


Lemma insert_fixup_exit fuel m0 sn rp c x k a b s n nds :
  holds m0 sn rp c (T true x k a b) s -> bal (T true x k a b) n -> balc c n ->
  match c with f :: _ => fred f = false | [] => True end ->
  before c ++ inorder (T true x k a b) ++ after c = nds ->
  runs (insert_fixup (S fuel) x) s (fun _ s' => rebalanced m0 sn rp nds s').
Proof.
  intros H Hb Hc Hf Hl.
  assert (rebalanced m0 sn rp nds s) as HR.
  { apply (holds_rebalanced _ _ _ c (T true x k a b) n s nds); try done.
    destruct c as [|f c]; [done|]. by rewrite Hf. }
  cbn [insert_fixup]. rstep. rstep. destruct (Z.eqb_spec x (root s)) as [|Hr]; [by apply runs_ret|].
  destruct c as [|[d co p kp sib] c].
  { destruct H as [_ H2 _ _ _ _]. by cbn in H2. }
  rstep. apply (runs_parent _ _ _ H); [done|]. rstep.
  cbn [fred] in Hf. subst co. apply holds_up in H. rewrite <- (tptr_mkT d false p kp (T true x k a b) sib).
  eapply runs_is_red; [exact H|]. rewrite tred_mkT. by apply runs_ret.
Qed.

Lemma runs_red m0 sn rp c co p k a b s (Q : unit -> store -> Prop) :
  holds m0 sn rp c (T co p k a b) s ->
  (forall s', holds m0 sn rp c (T true p k a b) s' -> Q tt s') -> runs (rbt_red p) s Q.
Proof. apply runs_color. Qed.

(** Read a field of the focus or of one of the two nodes above it. *)
Ltac read :=
  rstep;
  first [eapply runs_get; [eapply holds_top; eassumption|]
    | eapply runs_get; [eapply holds_frame; eassumption|]
    | eapply runs_get; [eapply holds_frame2; eassumption|] ];
  cbn [parent]; rewrite ?parent_side, ?child_side, ?child_opp; cbn [up fptr tptr].

(** Both sides list the same nodes in the same order. *)
Ltac solve_inorder := cbn; repeat progress (rewrite <- ?app_assoc; cbn [app]); reflexivity.

(** What a pass of the loop leaves: the violation moved two levels up, or there
    is none any more. *)
Definition pass_done m0 sn rp (C : list frame) (n : nat) (nds : list (ptr * Z)) (y : ptr) (s : store)
    : Prop :=
  exists c' k a b n',
    holds m0 sn rp c' (T true y k a b) s /\ bal (T true y k a b) n' /\ balc c' n' /\
    before c' ++ inorder (T true y k a b) ++ after c' = nds /\
    (c' = C \/ (exists f, c' = f :: C /\ fred f = false)).

Lemma mkT_sides d c p k l r : exists a b, T c p k l r = mkT d c p k a b.
Proof. destruct d; by eexists _, _. Qed.

Lemma T_sides d c p k a b : exists l r, mkT d c p k a b = T c p k l r.
Proof. destruct d; by eexists _, _. Qed.

(** The uncle is red. *)
Lemma insert_pass_red m0 sn rp d d1 p kp sp g kg pu ku ul ur C x kx xl xr n s nds :
  holds m0 sn rp (F d1 true p kp sp :: F d false g kg (T true pu ku ul ur) :: C)
    (T true x kx xl xr) s ->
  bal (T true x kx xl xr) n -> bal sp n -> bal (T true pu ku ul ur) n -> balc C (S n) ->
  before (F d1 true p kp sp :: F d false g kg (T true pu ku ul ur) :: C) ++
    inorder (T true x kx xl xr) ++
    after (F d1 true p kp sp :: F d false g kg (T true pu ku ul ur) :: C) = nds ->
  runs (insert_fixup_side d x) s (pass_done m0 sn rp C n nds).
Proof.
  intros H Hx Hsp Hu HC Hnds. unfold insert_fixup_side.
  read. read. read. rstep. pose proof H as Hup. apply to_parent, holds_swap in Hup.
  apply (runs_is_red _ _ _ Hup). cbn [tred].
  read. rstep. apply (runs_color_frame _ _ _ _ _ _ _ _ _ _ false _ _ H).
  clear H Hup. intros s1 H%to_parent. rstep.
  apply (runs_color_sib _ _ _ _ _ _ _ _ _ _ _ _ _ _ false _ _ H). clear H. intros s2 H%to_child.
  read. read. rstep. apply (runs_color_frame2 _ _ _ _ _ _ _ _ _ _ _ true _ _ H).
  clear H. intros s3 H. read. eapply runs_get; [eapply holds_frame; eassumption|].
  rewrite parent_side. cbn [up fptr].
  apply to_parent, to_parent in H. destruct Hu as (Hul & Hur & Bul & Bur).
  assert (bal (mkT d true g kg (mkT d1 false p kp (T true x kx xl xr) sp) (T false pu ku ul ur)) (S n))
    as Hb.
  { apply bal_mkT_red. split_and!; [apply tred_mkT|done|by apply bal_mkT_black|done]. }
  destruct d; (eexists C, kg, _, _, (S n); split; [exact H|]; split; [exact Hb|]; split; [done|];
    split; [|by left]); subst nds; destruct d1; solve_inorder.
Qed.

(** The uncle is black and [x] is an outer grandchild. *)
Lemma insert_pass_outer m0 sn rp d p kp sp g kg u C x kx xl xr n s nds :
  holds m0 sn rp (F d true p kp sp :: F d false g kg u :: C) (T true x kx xl xr) s ->
  bal (T true x kx xl xr) n -> bal sp n -> tred sp = false -> bal u n -> tred u = false ->
  balc C (S n) ->
  before (F d true p kp sp :: F d false g kg u :: C) ++ inorder (T true x kx xl xr) ++
    after (F d true p kp sp :: F d false g kg u :: C) = nds ->
  runs (np ← get parent x; rbt_black np;;
        np ← get parent x; npp ← get parent np; rbt_red npp;;
        np ← get parent x; npp ← get parent np; rotate (opp d) npp;;
        ret x) s (pass_done m0 sn rp C n nds).
Proof.
  intros H Hx Hsp Rsp Hu Ru HC Hnds.
  read. rstep. apply (runs_color_frame _ _ _ _ _ _ _ _ _ _ false _ _ H). clear H. intros s1 H.
  read. read. rstep. apply (runs_color_frame2 _ _ _ _ _ _ _ _ _ _ _ true _ _ H). clear H. intros s2 H.
  read. read. rstep. apply to_parent, to_parent in H. rewrite <- mkT_opp, <- (mkT_opp d _ p) in H.
  eapply runs_rotate; [exact H|]. clear H. intros s3 H. rewrite mkT_opp in H. apply to_child in H.
  rstep. eexists (_ :: C), kx, xl, xr, n. split; [exact H|]. split; [done|]. split.
  - split; [|done]. apply bal_mkT_red. done.
  - split; [|right; by eexists]. subst nds. destruct d; solve_inorder.
Qed.

(** The uncle is black. *)
Lemma insert_pass_black m0 sn rp d d1 p kp sp g kg u C x kx xl xr n s nds :
  holds m0 sn rp (F d1 true p kp sp :: F d false g kg u :: C) (T true x kx xl xr) s ->
  bal (T true x kx xl xr) n -> bal sp n -> tred sp = false -> bal u n -> tred u = false ->
  balc C (S n) ->
  before (F d1 true p kp sp :: F d false g kg u :: C) ++ inorder (T true x kx xl xr) ++
    after (F d1 true p kp sp :: F d false g kg u :: C) = nds ->
  runs (insert_fixup_side d x) s (pass_done m0 sn rp C n nds).
Proof.
  intros H Hx Hsp Rsp Hu Ru HC Hnds. unfold insert_fixup_side.
  read. read. read. rstep. pose proof H as Hup. apply to_parent, holds_swap in Hup.
  apply (runs_is_red _ _ _ Hup). rewrite Ru. clear Hup.
  pose proof (holds_sides _ _ _ _ _ _ _ H ltac:(by left)) as Hside. cbn [tptr] in Hside.
  read. rstep. eapply runs_get; [eapply holds_frame; eassumption|]. cbn [tptr].
  destruct (decide (d1 = d)) as [->|Hd].
  - rewrite child_opp, (proj2 (Z.eqb_neq _ _) Hside). do 2 rstep. by eapply insert_pass_outer.
  - assert (d1 = opp d) as -> by (by destruct d, d1). rewrite child_side, Z.eqb_refl.
    rstep. read. rstep. apply to_parent in H. rewrite mkT_opp in H.
    destruct (mkT_sides d true x kx xl xr) as (xa & xb & EX). rewrite EX in H, Hx.
    eapply runs_rotate; [exact H|]. clear H. intros s1 H%to_child. rstep.
    apply bal_mkT_red in Hx as (Ra & Rb & Ba & Bb).
    destruct (T_sides d true p kp sp xa) as (pl & pr & EP). rewrite EP in H.
    eapply insert_pass_outer; [exact H| |done..|].
    + rewrite <- EP. by apply bal_mkT_red.
    + rewrite <- EP, <- Hnds, EX. destruct d; solve_inorder.
Qed.

(** A pass of the loop, the parent of [x] being red. *)
Lemma insert_pass m0 sn rp d1 p kp sp c x kx xl xr n s nds fuel :
  holds m0 sn rp (F d1 true p kp sp :: c) (T true x kx xl xr) s ->
  bal (T true x kx xl xr) n -> balc (F d1 true p kp sp :: c) n ->
  before (F d1 true p kp sp :: c) ++ inorder (T true x kx xl xr) ++
    after (F d1 true p kp sp :: c) = nds ->
  (forall y s' C, (length C < length c)%nat -> pass_done m0 sn rp C n nds y s' ->
    runs (insert_fixup fuel y) s' (fun _ s' => rebalanced m0 sn rp nds s')) ->
  runs (insert_fixup (S fuel) x) s (fun _ s' => rebalanced m0 sn rp nds s').
Proof.
  intros H Hx (Hsp & Rsp & Hf & Hc) Hnds HQ. destruct c as [|[d co g kg u] C]; [done|].
  cbn [fred] in Hf. subst co. destruct Hc as (Hu & HC). cbn [insert_fixup]. rstep. rstep.
  pose proof (holds_not_root _ _ _ H) as Hr. cbn [tptr] in Hr.
  rewrite (proj2 (Z.eqb_neq _ _) Hr). read. rstep.
  pose proof (to_parent _ _ _ _ _ _ _ _ _ _ _ H) as Hp.
  rewrite <- (tptr_mkT d1 true p kp (T true x kx xl xr) sp) at 1.
  apply (runs_is_red _ _ _ Hp). rewrite tred_mkT. cbn [negb]. read.
  rstep. eapply runs_get; [eapply holds_frame; exact Hp|].
  pose proof (holds_left _ _ _ _ _ _ _ Hp ltac:(left; by destruct d1)) as Hs.
  rewrite tptr_mkT in Hs |- *. rewrite Hs. rstep.
  eapply runs_mono; [|intros y s' HD; apply (HQ y s' C); [cbn; lia|exact HD]].
  destruct (tred u) eqn:Ru.
  - destruct u as [|[] pu ku ul ur]; [done| |done]. by eapply insert_pass_red.
  - by eapply insert_pass_black.
Qed.

(** The loop ends with a tree that is balanced, but for its root. *)
Lemma insert_fixup_runs m0 sn rp fuel c x kx xl xr n s nds :
  holds m0 sn rp c (T true x kx xl xr) s ->
  bal (T true x kx xl xr) n -> balc c n ->
  before c ++ inorder (T true x kx xl xr) ++ after c = nds ->
  (length c < fuel)%nat ->
  runs (insert_fixup fuel x) s (fun _ s' => rebalanced m0 sn rp nds s').
Proof.
  revert c x kx xl xr n s. induction fuel as [|fuel IH]; intros c x kx xl xr n s H Hx Hc Hnds Hfuel; [lia|].
  destruct c as [|[d1 [] p kp sp] c]; [by eapply insert_fixup_exit| |by eapply insert_fixup_exit].
  eapply insert_pass; [done..|]. cbn in Hfuel.
  intros y s' C HC (c' & k & a & b & n' & H' & Hb & Hbc & Hl & Hc').
  eapply IH; try done. destruct Hc' as [->|(f & -> & _)]; cbn; lia.
Qed.

(** Hanging a node below a leaf. *)
Lemma runs_attach m0 sn rp d cq q kq sib c x nx s (Q : unit -> store -> Prop) :
  holds m0 sn rp (F d cq q kq sib :: c) E s ->
  x ∉ sentinel :: cptrs (F d cq q kq sib :: c) -> nodes s !! x = Some nx ->
  (forall s', holds m0 sn rp (F d cq q kq sib :: c) (T true x (key nx) E E) s' -> Q tt s') ->
  runs (set_child d q x;; set_parent x q;; set_child L x sentinel;; set_child R x sentinel;;
        rbt_red x) s Q.
Proof.
  intros H Hx Hnx HQ. pose proof (holds_frame _ _ _ _ _ _ _ H) as Hq.
  destruct H as [H1 (_ & Hs & H2) H3 H4 H5 H6].
  assert (id (NoDup (sentinel :: ptrs (T true x (key nx) E E) ++ cptrs (F d cq q kq sib :: c)))) as H7.
  { cbn [ptrs app] in *. unfold id. apply list.NoDup_cons in H3 as [Ha Hb].
    apply not_elem_of_cons in Hx as [? ?]. apply list.NoDup_cons. split; [set_solver|].
    by apply list.NoDup_cons. }
  assert (forall p, p ∉ sentinel :: ptrs (T true x (key nx) E E) ++ cptrs (F d cq q kq sib :: c) ->
          (p ∉ sentinel :: x :: cptrs (F d cq q kq sib :: c)) /\ nodes s !! p = m0 !! p) as H8.
  { intros p Hp. cbn [ptrs app] in *. split; [done|]. apply H6. set_solver. }
  clear H6. destruct s as [m rt]. cbn [nodes root] in *. destruct nx as [kx nl nr np nc].
  unfold set_child, set_parent, rbt_red, set_color.
  destruct d; cbn [ptrs tptr app side_node up cptrs fptr rep key] in *; split_nodup; run; apply HQ; write_done.
Qed.

(** ** The place of a key *)

Section Order.
Variable less : ptr * Z -> ptr * Z -> bool.

(** [less] orders the nodes [ks]. *)
Definition order_on (ks : list (ptr * Z)) : Prop :=
  (forall a b, a ∈ ks -> b ∈ ks -> less a b = true -> less b a = false) /\
  (forall a b c, a ∈ ks -> b ∈ ks -> c ∈ ks -> less a c = true -> less a b = true \/ less b c = true).

Definition sorted (l : list (ptr * Z)) : Prop :=
  forall i j a b, (i < j)%nat -> l !! i = Some a -> l !! j = Some b -> less b a = false.

(** The path is the one the search for [k] takes. *)
Definition search_path (k : ptr * Z) (c : list frame) : Prop :=
  Forall (fun f => let 'F d _ pf kf _ := f in d = if less k (pf, kf) then L else R) c.

Lemma insert_place_runs m0 sn rp k fuel c co p kp l r s :
  holds m0 sn rp c (T co p kp l r) s -> search_path k c ->
  (length (ptrs (T co p kp l r)) <= fuel)%nat ->
  runs (insert_place less fuel p k) s (fun res s' => s' = s /\
    exists cq kq sib c', holds m0 sn rp (F res.2 cq res.1 kq sib :: c') E s /\
      search_path k (F res.2 cq res.1 kq sib :: c') /\
      plug (F res.2 cq res.1 kq sib :: c') E = plug c (T co p kp l r)).
Proof.
  revert c co p kp l r. induction fuel as [|fuel IH]; intros c co p kp l r H Hp Hf; cbn in Hf; [lia|].
  cbn [insert_place]. read. cbn [key]. rstep.
  destruct (mkT_sides (if less k (p, kp) then L else R) co p kp l r) as (a & b & ET).
  assert (length (ptrs a) <= fuel)%nat as Hfa.
  { rewrite length_app in Hf. destruct (less k (p, kp)); injection ET as -> ->; lia. }
  rewrite ET in H. eapply runs_get; [eapply holds_node; exact H|]. rewrite child_side.
  apply to_child in H. rewrite ET.
  assert (search_path k (F (if less k (p, kp) then L else R) co p kp b :: c)) as Hp' by (by constructor).
  destruct a as [|ca q kq la ra]; cbn [tptr].
  - rewrite Z.eqb_refl. apply runs_ret. split; [done|]. by eexists co, kp, b, c.
  - assert (q <> sentinel) as Hq.
    { apply h_nodup in H. cbn [ptrs app] in H. split_nodup. done. }
    rewrite (proj2 (Z.eqb_neq _ _) Hq).
    eapply runs_mono; [by apply (IH _ _ _ _ _ _ H)|].
    intros [q' d'] s' (-> & cq & kq' & sib & c' & H' & Hs' & E'). split; [done|].
    exists cq, kq', sib, c'. split_and!; [done|done|]. rewrite E'. by rewrite plug_cons.
Qed.

Lemma sorted_app_l a b : sorted (a ++ b) -> sorted a.
Proof. intros H i j x y Hij Hi Hj. eapply H; [exact Hij|by apply lookup_app_l_Some..]. Qed.

Lemma lookup_app_add {A} (a b : list A) i : (a ++ b) !! (length a + i)%nat = b !! i.
Proof. rewrite lookup_app_r by lia. f_equal. lia. Qed.

Lemma sorted_app_r a b : sorted (a ++ b) -> sorted b.
Proof.
  intros H i j x y Hij Hi Hj.
  apply (H (length a + i)%nat (length a + j)%nat); [lia|by rewrite lookup_app_add..].
Qed.

Lemma sorted_cross a b x y : sorted (a ++ b) -> x ∈ a -> y ∈ b -> less y x = false.
Proof.
  intros H [i Hi]%list_elem_of_lookup [j Hj]%list_elem_of_lookup.
  eapply (H i (length a + j)%nat).
  - apply lookup_lt_Some in Hi. lia.
  - by apply lookup_app_l_Some.
  - by rewrite lookup_app_add.
Qed.

Lemma sorted_app a b :
  sorted a -> sorted b -> (forall x y, x ∈ a -> y ∈ b -> less y x = false) -> sorted (a ++ b).
Proof.
  intros Ha Hb Hab i j x y Hij Hi Hj.
  apply lookup_app_Some in Hi as [Hi|[Hl Hi]]; apply lookup_app_Some in Hj as [Hj|[Hl' Hj]].
  - by eapply Ha.
  - apply Hab; by eapply list_elem_of_lookup_2.
  - apply lookup_lt_Some in Hj. lia.
  - eapply (Hb (i - length a)%nat (j - length a)%nat); [lia|done|done].
Qed.

(** On the path of [k], what is left of it is not greater and what is right of it
    is greater. *)
Lemma search_sides k c t l :
  order_on (k :: l) -> before c ++ inorder t ++ after c = l -> sorted l -> search_path k c ->
  (forall a, a ∈ before c -> less k a = false) /\ (forall b, b ∈ after c -> less k b = true).
Proof.
  intros [_ Ho] Hl Hs. revert t Hl. induction c as [|[d co p kp sib] c IH]; intros t Hl Hp.
  { split; intros x Hx; by apply not_elem_of_nil in Hx. }
  apply Forall_cons_1 in Hp as [Hd Hp].
  destruct (IH (mkT d co p kp t sib)) as [HA HB]; [|done|].
  { rewrite <- inorder_plug in Hl |- *. done. }
  assert (forall x, x ∈ before (F d co p kp sib :: c) ++ after (F d co p kp sib :: c) ->
          x ∈ k :: l) as Hin.
  { intros x Hx. apply list_elem_of_further. rewrite <- Hl. set_solver. }
  destruct d; cbn [before after] in *.
  - split; [done|]. intros b Hb. destruct (less k (p, kp)) eqn:Ek; [|done].
    apply elem_of_cons in Hb as [->|[Hb|Hb]%elem_of_app]; [done| |by apply HB].
    destruct (Ho k b (p, kp)) as [|Hb']; try done; [set_solver|apply Hin; set_solver|
      apply (Hin (p, kp)); set_solver|].
    rewrite <- Hl, app_assoc in Hs. apply sorted_app_r in Hs.
    rewrite app_comm_cons in Hs. apply sorted_app_l in Hs.
    pose proof (sorted_cross [(p, kp)] (inorder sib) (p, kp) b Hs ltac:(set_solver) Hb) as Hx.
    cbn in Hx. congruence.
  - split; [|done]. intros a Ha. destruct (less k (p, kp)) eqn:Ek; [done|].
    apply elem_of_app in Ha as [Ha|[Ha|Ha]%elem_of_app]; [by apply HA| |set_solver].
    destruct (less k a) eqn:Ea; [|done].
    destruct (Ho k (p, kp) a) as [|Hb']; try done; [set_solver|apply (Hin (p, kp)); set_solver|
      apply Hin; set_solver|congruence|].
    rewrite <- Hl in Hs. apply sorted_app_l, sorted_app_r in Hs.
    pose proof (sorted_cross (inorder sib) [(p, kp)] a (p, kp) Hs Ha ltac:(set_solver)) as Hx.
    cbn in Hx. congruence.
Qed.
End Order.

(** ** [ngx_rbtree_insert] *)

(** A red-black tree around one of its subtrees. *)
Lemma bal_unplug c t N :
  bal (plug c t) N -> tred (plug c t) = false ->
  exists n, bal t n /\ balc c n /\
    match c with f :: _ => fred f = true -> tred t = false | [] => tred t = false end.
Proof.
  revert t. induction c as [|[d co p k sib] c IH]; intros t Hb Hr; [by exists N|].
  rewrite plug_cons in Hb, Hr. destruct (IH _ Hb Hr) as (n & Hn & Hc & Hf). cbn [plug1] in *.
  rewrite tred_mkT in Hf. destruct co.
  - apply bal_mkT_red in Hn as (Rt & Rs & Bt & Bs). exists n. split_and!; [done| |done].
    cbn [balc]. split_and!; [done|done| |done].
    destruct c as [|f c]; [done|]. destruct (fred f); [|done]. by specialize (Hf eq_refl).
  - destruct n as [|n]; [by destruct d|]. apply bal_mkT_black in Hn as [Bt Bs].
    exists n. by split_and!.
Qed.

Lemma ptrs_plug c t : ptrs (plug c t) ≡ₚ ptrs t ++ cptrs c.
Proof.
  revert t. induction c as [|[d co p k sib] c IH]; intros t; [cbn; by rewrite app_nil_r|].
  rewrite plug_cons, IH. cbn [plug1 cptrs]. rewrite ptrs_mkT. solve_Permutation.
Qed.

Lemma length_cptrs c : (length c <= length (cptrs c))%nat.
Proof. induction c as [|[d co p k sib] c IH]; cbn; rewrite ?length_app; lia. Qed.

Lemma rep_dom m par t p : rep m par t -> p ∈ ptrs t -> is_Some (m !! p).
Proof.
  revert par. induction t as [|c q k l IHl r IHr]; intros par; [set_solver|].
  intros (Hq & Hl & Hr) [->|[?|?]%elem_of_app]%elem_of_cons; eauto.
Qed.

Lemma ptrs_size m0 sn rp t s : holds m0 sn rp [] t s -> (length (ptrs t) < size (nodes s))%nat.
Proof.
  intros [H1 _ H3 H4 _ _]. cbn [cptrs up] in *. rewrite app_nil_r in H3.
  assert (length (sentinel :: ptrs t) <= size (nodes s))%nat; [|cbn in *; lia].
  rewrite <- (size_list_to_set (C := gset Z)), <- (size_dom (D := gset Z)) by done.
  apply subseteq_size. intros p [->|Hp]%elem_of_list_to_set%elem_of_cons; apply elem_of_dom; [done|].
  by eapply rep_dom.
Qed.

Lemma runs_black m0 sn rp t s (Q : unit -> store -> Prop) :
  holds m0 sn rp [] t s -> t <> E -> (forall s', holds m0 sn rp [] (blacken t) s' -> Q tt s') ->
  runs (r ← get_root; rbt_black r) s Q.
Proof.
  intros H Hne HQ. rstep. rstep. destruct t as [|co p k l r]; [done|].
  assert (root s = p) as -> by (by destruct H).
  by apply (runs_color _ _ _ _ _ _ _ _ _ false _ _ H).
Qed.

(** The tree after [x] was inserted: [x] comes after the nodes it is not less than
    and before the others. *)
Definition inserted (less : ptr * Z -> ptr * Z -> bool) (x : ptr) (k : Z) (old new : list (ptr * Z)) : Prop :=
  exists A B, old = A ++ B /\ new = A ++ (x, k) :: B /\
    (forall a, a ∈ A -> less (x, k) a = false) /\ (forall b, b ∈ B -> less (x, k) b = true).

Lemma inserted_sorted less x k old new :
  order_on less ((x, k) :: old) -> inserted less x k old new -> sorted less old -> sorted less new.
Proof.
  intros [Has _] (A & B & -> & -> & HA & HB) Hs.
  apply sorted_app; [by eapply sorted_app_l| |].
  - apply (sorted_app less [(x, k)] B); [|by eapply sorted_app_r|].
    + intros i j a b Hij Ha Hb. apply lookup_lt_Some in Ha, Hb. cbn in *. lia.
    + intros a b ->%list_elem_of_singleton Hb. cbn. apply Has; [set_solver| |by apply HB]. set_solver.
  - intros a b Ha [->|Hb]%elem_of_cons; [by apply HA|]. by eapply sorted_cross.
Qed.

(** The first node of a tree. *)
Lemma runs_first m0 sn rp x nx s (Q : unit -> store -> Prop) :
  holds m0 sn rp [] E s -> x <> sentinel -> nodes s !! x = Some nx ->
  (forall s', holds m0 sn NULL [] (T false x (key nx) E E) s' -> Q tt s') ->
  runs (set_parent x NULL;; set_child L x sentinel;; set_child R x sentinel;; rbt_black x;;
        set_root x) s Q.
Proof.
  intros [H1 H2 H3 H4 H5 H6] Hx Hnx HQ. destruct s as [m rt], nx as [kx nl nr np nc].
  cbn [nodes root ptrs cptrs app up rep key] in *.
  assert (forall p, p ∉ sentinel :: ptrs (T false x kx E E) ++ [] ->
          (p ∉ [sentinel; x]) /\ m !! p = m0 !! p) as H8.
  { intros p Hp. cbn [ptrs app] in Hp. split; [done|]. apply H6. set_solver. }
  assert (id (NoDup [sentinel; x])) as H7.
  { unfold id. apply list.NoDup_cons. split; [set_solver|apply NoDup_singleton]. }
  unfold set_child, set_parent, rbt_black, set_color. run. apply HQ. write_done.
Qed.

Lemma rbtree_insert_runs less m0 sn rp t x nx s fuel :
  holds m0 sn rp [] t s -> red_black t -> sorted less (inorder t) ->
  order_on less ((x, key nx) :: inorder t) ->
  nodes s !! x = Some nx -> x ∉ sentinel :: ptrs t -> (length (ptrs t) < fuel)%nat ->
  runs (rbtree_insert less fuel x) s (fun _ s' => exists rp' t',
    holds m0 sn rp' [] t' s' /\ red_black t' /\ inserted less x (key nx) (inorder t) (inorder t')).
Proof.
  intros H [Hr [N Hb]] Hs Ho Hnx Hx Hf. unfold rbtree_insert. rstep. rstep.
  assert (root s = tptr t) as -> by (by destruct H).
  destruct t as [|co p kp l r]; cbn [tptr].
  - rewrite Z.eqb_refl. eapply runs_first; [exact H|set_solver|exact Hnx|].
    intros s' H'. exists NULL, (T false x (key nx) E E). split; [done|]. split.
    { split; [done|by exists 1%nat]. }
    exists [], []. by split_and!; [done|done|set_solver|set_solver].
  - assert (p <> sentinel) as Hp.
    { apply h_nodup in H. cbn [ptrs app] in H. split_nodup. done. }
    rewrite (proj2 (Z.eqb_neq _ _) Hp). rstep. unfold insert_value. rstep.
    eapply runs_get; [exact Hnx|]. rstep.
    eapply runs_mono; [apply (insert_place_runs less m0 sn rp (x, key nx) fuel [] co p kp l r s H)|].
    { constructor. }
    { lia. }
    intros [q d] s' (-> & cq & kq & sib & c & H' & Hp' & Hplug). cbn [fst snd] in *.
    assert (x ∉ sentinel :: cptrs (F d cq q kq sib :: c)) as Hx'.
    { intros Hin. apply Hx. pose proof (ptrs_plug (F d cq q kq sib :: c) E) as HP.
      rewrite Hplug in HP. cbn [plug foldl] in HP. rewrite HP. set_solver. }
    eapply runs_attach; [exact H'|done|exact Hnx|]. intros s1 H1. rstep.
    change (plug [] (T co p kp l r)) with (T co p kp l r) in Hplug.
    destruct (bal_unplug (F d cq q kq sib :: c) E N) as (n & Hn & Hbc & _); [by rewrite Hplug..|].
    cbn [bal] in Hn. subst n.
    eapply runs_mono.
    { eapply insert_fixup_runs; [exact H1|by cbn|exact Hbc|reflexivity|].
      pose proof (length_cptrs (F d cq q kq sib :: c)). pose proof (ptrs_plug (F d cq q kq sib :: c) E) as HP.
      rewrite Hplug in HP. rewrite HP in Hf. cbn [ptrs app] in Hf. lia. }
    intros _ s2 (t2 & n2 & H2 & Hin & Hb2 & Hne). eapply runs_black; [exact H2|done|].
    intros s3 H3. exists rp, (blacken t2). split; [done|]. split.
    { split; [by destruct t2|by eapply bal_blacken]. }
    rewrite inorder_blacken, Hin. pose proof (inorder_plug (F d cq q kq sib :: c) E) as Hi.
    rewrite Hplug in Hi. cbn [inorder] in Hi |- *.
    exists (before (F d cq q kq sib :: c)), (after (F d cq q kq sib :: c)). split; [done|]. split; [done|].
    apply (search_sides less (x, key nx) _ E _ Ho); [symmetry; exact Hi|done|done].
Qed.

(** ** Rebalancing after a deletion *)

(** [temp] lacks one black node against its surroundings; when it is red, making
    it black repairs that. *)
Definition lacks (t : tree) (n : nat) : Prop :=
  if tred t then bal (blacken t) (S n) else bal t n.

(** The state of the loop. *)
Record deficit m0 sn rp (nds : list (ptr * Z)) c t n s : Prop := mk_deficit {
  df_holds : holds m0 sn rp c t s;
  df_lacks : lacks t n;
  df_path : balc c (S n);
  df_sent : t = E -> c <> [] -> parent sn = up rp c;
  df_order : before c ++ inorder t ++ after c = nds
}.

Definition repaired m0 sn rp (nds : list (ptr * Z)) (s : store) : Prop :=
  exists t, holds m0 sn rp [] t s /\ red_black t /\ inorder t = nds.

Lemma runs_black_at m0 sn rp c t s (Q : unit -> store -> Prop) :
  holds m0 sn rp c t s -> (forall s', holds m0 sn rp c (blacken t) s' -> Q tt s') ->
  runs (rbt_black (tptr t)) s Q.
Proof.
  intros H HQ. destruct t as [|co p k a b].
  - cbn [tptr]. destruct H as [H1 H2 H3 H4 H5 H6]. eapply runs_modify; [exact H4|].
    assert (sn <| color := 0 |> = sn) as -> by (destruct sn; cbn in *; by subst).
    rewrite insert_id by done. apply HQ. by destruct s.
  - apply (runs_color _ _ _ _ _ _ _ _ _ false _ _ H). exact HQ.
Qed.

Lemma tred_blacken t : tred (blacken t) = false.
Proof. by destruct t. Qed.

(** The loop is left at a red [temp] or at the root. *)
Lemma deficit_exit m0 sn rp nds c t n s :
  deficit m0 sn rp nds c t n s -> c = [] \/ tred t = true ->
  runs (rbt_black (tptr t)) s (fun _ s' => repaired m0 sn rp nds s').
Proof.
  intros [H Hl Hc _ Ho] He. eapply runs_black_at; [exact H|]. intros s' H'.
  assert (exists n', bal (blacken t) n' /\ (balc c n')) as (n' & Hb & Hc').
  { unfold lacks in Hl. destruct (tred t) eqn:Et; [by exists (S n)|]. destruct He as [->|]; [|done].
    apply bal_blacken in Hl as [n' Hl]. by exists n'. }
  destruct (bal_plug c (blacken t) n' Hb Hc') as (N & HN & HR).
  { destruct c; [done|]. intros _. apply tred_blacken. }
  exists (plug c (blacken t)). split; [by apply (holds_plug _ _ _ c)|]. split.
  - split; [|by exists N]. destruct HR as [->|]; [apply tred_blacken|done].
  - by rewrite inorder_plug, inorder_blacken.
Qed.

Lemma runs_color_sib_mkT m0 sn rp d d2 co p k cs ps ks a b c t v s (Q : unit -> store -> Prop) :
  holds m0 sn rp (F d co p k (mkT d2 cs ps ks a b) :: c) t s ->
  (forall s', holds m0 sn rp (F d co p k (mkT d2 v ps ks a b) :: c) t s' -> Q tt s') ->
  runs (set_color ps (Z.b2z v)) s Q.
Proof. destruct d2; apply runs_color_sib. Qed.

Lemma holds_sib m0 sn rp d d2 co p k cs ps ks a b c t s :
  holds m0 sn rp (F d co p k (mkT d2 cs ps ks a b) :: c) t s ->
  nodes s !! ps = Some (side_node d2 ks (tptr a) (tptr b) p cs).
Proof. intros H%holds_swap%holds_node. done. Qed.

(** A child of the sibling in the focus. *)
Lemma to_nephew m0 sn rp d d2 co p k cs ps ks a b c t s :
  holds m0 sn rp (F d co p k (mkT d2 cs ps ks a b) :: c) t s <->
  holds m0 sn rp (F d2 cs ps ks b :: F (opp d) co p k t :: c) a s.
Proof. by rewrite holds_swap, (holds_up _ _ _ d2). Qed.

Lemma runs_color_nephew m0 sn rp d d2 co p k cs ps ks cn pn kn l r b c t v s
    (Q : unit -> store -> Prop) :
  holds m0 sn rp (F d co p k (mkT d2 cs ps ks (T cn pn kn l r) b) :: c) t s ->
  (forall s', holds m0 sn rp (F d co p k (mkT d2 cs ps ks (T v pn kn l r) b) :: c) t s' -> Q tt s') ->
  runs (set_color pn (Z.b2z v)) s Q.
Proof.
  intros H%to_nephew HQ. eapply runs_color; [exact H|]. intros s' H'%to_nephew. by apply HQ.
Qed.

Lemma deficit_bal m0 sn rp nds c t n s :
  holds m0 sn rp c t s -> bal t n -> balc c n ->
  match c with f :: _ => fred f = true -> tred t = false | [] => True end ->
  before c ++ inorder t ++ after c = nds ->
  exists t' n', root s = tptr t' /\ deficit m0 sn rp nds [] t' n' s.
Proof.
  intros H Hb Hc Hr Ho. destruct (bal_plug c t n Hb Hc Hr) as (N & HN & _).
  apply holds_plug in H. exists (plug c t), N. split; [by destruct H|]. split; try done.
  - unfold lacks. destruct (tred (plug c t)) eqn:E; [|done].
    destruct (plug c t) as [|[] p k l r]; [done| |done]. cbn in *. tauto.
  - cbn. by rewrite app_nil_r, inorder_plug.
Qed.

(** The far child of the sibling is red: the end of the loop. *)
Lemma delete_pass_far m0 sn rp nds d cp p kp pw kw wn pf kf fl fr C t n s :
  deficit m0 sn rp nds (F d cp p kp (mkT d false pw kw wn (T true pf kf fl fr)) :: C) t n s ->
  tred t = false ->
  runs (tp ← get parent (tptr t); copy_color pw tp;;
        tp ← get parent (tptr t); rbt_black tp;;
        wf ← get (child (opp d)) pw; rbt_black wf;;
        tp ← get parent (tptr t); rotate d tp;;
        get_root) s
    (fun y s' => exists t' n', y = tptr t' /\ deficit m0 sn rp nds [] t' n' s').
Proof.
  intros [H Hl Hc Hs Ho] Ht. unfold lacks in Hl. rewrite Ht in Hl.
  specialize (fun E => Hs E ltac:(done)). cbn [up fptr] in Hs.
  rstep. eapply runs_parent; [exact H|exact Hs|]. cbn [up fptr]. rstep. unfold copy_color.
  rstep. eapply runs_get; [eapply holds_frame; exact H|]. rewrite color_side.
  eapply runs_color_sib_mkT; [exact H|]. clear H. intros s1 H.
  rstep. eapply runs_parent; [exact H|exact Hs|]. cbn [up fptr]. rstep.
  apply (runs_color_frame _ _ _ _ _ _ _ _ _ _ false _ _ H). clear H. intros s2 H.
  rstep. eapply runs_get; [eapply holds_sib; exact H|]. rewrite child_opp. cbn [tptr]. rstep.
  rewrite <- mkT_opp in H. apply (runs_color_nephew _ _ _ _ _ _ _ _ _ _ _ _ _ _ _ _ _ _ _ false _ _ H).
  clear H. intros s3 H. rewrite mkT_opp in H.
  rstep. eapply runs_parent; [exact H|exact Hs|]. cbn [up fptr]. rstep.
  apply to_parent in H. eapply runs_rotate; [exact H|]. clear H. intros s4 H.
  apply runs_get_root.
  assert (exists n', bal (mkT d cp pw kw (mkT d false p kp t wn) (T false pf kf fl fr)) n' /\ balc C n' /\
    match C with f :: _ => fred f = true -> cp = false | [] => True end) as (n' & Hb & HC & HR).
  { destruct cp; cbn [balc] in Hc.
    - destruct Hc as (Hw & _ & Hf & HC). apply bal_mkT_black in Hw as (Bn & Rl & Rr & Bl & Br).
      exists (S n). split_and!; [|done|destruct C as [|f C]; [done|by rewrite Hf]].
      apply bal_mkT_red. split_and!; [apply tred_mkT|done|by apply bal_mkT_black|done].
    - destruct Hc as (Hw & HC). apply bal_mkT_black in Hw as (Bn & Rl & Rr & Bl & Br).
      exists (S (S n)). split_and!; [|done|by destruct C].
      apply bal_mkT_black. split; [by apply bal_mkT_black|done]. }
  eapply deficit_bal; [exact H|exact Hb|exact HC|by rewrite tred_mkT|].
  rewrite <- Ho. destruct d; solve_inorder.
Qed.
(** A pass ends at the root, at a red node or, below a black node, one level up. *)
Definition pass_up m0 sn rp nds (cp : bool) (C : list frame) (y : ptr) (s : store) : Prop :=
  exists c t n, y = tptr t /\ deficit m0 sn rp nds c t n s /\
    (tred t = true \/ c = [] \/ (c = C /\ cp = false)).

(** The sibling is black with a red child. *)
Lemma delete_pass_inner m0 sn rp nds d cp p kp pw kw wn wf C t n s :
  deficit m0 sn rp nds (F d cp p kp (mkT d false pw kw wn wf) :: C) t n s ->
  tred t = false -> tred wn = true \/ tred wf = true ->
  runs (wf ← get (child (opp d)) pw;
        bf ← is_black wf;
        w ← (if bf : bool then
                wn ← get (child d) pw; rbt_black wn;;
                rbt_red pw;;
                rotate (opp d) pw;;
                tp ← get parent (tptr t); get (child (opp d)) tp
              else ret pw);
        tp ← get parent (tptr t); copy_color w tp;;
        tp ← get parent (tptr t); rbt_black tp;;
        wf ← get (child (opp d)) w; rbt_black wf;;
        tp ← get parent (tptr t); rotate d tp;;
        get_root) s
    (fun y s' => exists t' n', y = tptr t' /\ deficit m0 sn rp nds [] t' n' s').
Proof.
  intros D Ht Hred. pose proof (df_holds _ _ _ _ _ _ _ _ D) as H.
  rstep. eapply runs_get; [eapply holds_sib; exact H|]. rewrite child_opp. rstep.
  rewrite <- mkT_opp in H. pose proof H as HF. apply to_nephew in HF.
  apply (runs_is_black _ _ _ HF). clear HF. rewrite mkT_opp in H.
  destruct (tred wf) eqn:Ef; cbn [negb].
  { do 2 rstep. destruct wf as [|[] pf kf fl fr]; [done| |done]. by eapply delete_pass_far. }
  destruct Hred as [Hn|]; [|done]. destruct wn as [|[] pn kn nl nr]; [done| |done].
  destruct (mkT_sides d true pn kn nl nr) as (a & b & EN). rewrite EN in *.
  destruct D as [_ Hl Hc Hs Ho]. unfold lacks in Hl. rewrite Ht in Hl.
  pose proof (fun E => Hs E ltac:(done)) as Hs'. cbn [up fptr] in Hs'.
  rstep. rstep. eapply runs_get; [eapply holds_sib; exact H|]. rewrite child_side, tptr_mkT. rstep.
  rewrite <- EN in H. apply (runs_color_nephew _ _ _ _ _ _ _ _ _ _ _ _ _ _ _ _ _ _ _ false _ _ H).
  clear H. intros s1 H. rstep.
  apply (runs_color_sib_mkT _ _ _ _ _ _ _ _ _ _ _ _ _ _ _ true _ _ H). clear H. intros s2 H.
  rstep. apply holds_swap in H. rewrite <- mkT_opp in H.
  assert (T false pn kn nl nr = mkT (opp d) false pn kn b a) as EN'.
  { rewrite mkT_opp. destruct d; injection EN as -> ->; done. }
  rewrite EN' in H. eapply runs_rotate; [exact H|]. clear H. intros s3 H%holds_swap.
  rewrite !mkT_opp in H.
  rstep. eapply runs_parent; [exact H|exact Hs'|]. cbn [up fptr].
  eapply runs_get; [eapply holds_frame; exact H|]. rewrite child_opp, tptr_mkT.
  destruct (T_sides d true pw kw b wf) as (fl & fr & EF). rewrite EF in H.
  eapply delete_pass_far; [|done]. split; [exact H|by unfold lacks; rewrite Ht| |by intros E _; apply Hs'|].
  - assert (bal (mkT d false pw kw (mkT d true pn kn a b) wf) (S n) ->
            bal (mkT d false pn kn a (T true pw kw fl fr)) (S n)) as HB.
    { rewrite !bal_mkT_black, <- EF, !bal_mkT_red. tauto. }
    destruct cp; cbn [balc] in Hc |- *; rewrite !tred_mkT in *; tauto.
  - rewrite <- Ho, <- EF. destruct d; solve_inorder.
Qed.

(** The sibling is black. *)
Lemma delete_pass_black m0 sn rp nds d cp p kp pw kw wn wf C t n s :
  deficit m0 sn rp nds (F d cp p kp (mkT d false pw kw wn wf) :: C) t n s ->
  tred t = false ->
  runs (wl ← get left pw;
        bl ← is_black wl;
        both ← (if bl : bool then wr ← get right pw; is_black wr else ret false);
        if both : bool then
          rbt_red pw;;
          get parent (tptr t)
        else
          wf ← get (child (opp d)) pw;
          bf ← is_black wf;
          w ← (if bf : bool then
                  wn ← get (child d) pw; rbt_black wn;;
                  rbt_red pw;;
                  rotate (opp d) pw;;
                  tp ← get parent (tptr t); get (child (opp d)) tp
                else ret pw);
          tp ← get parent (tptr t); copy_color w tp;;
          tp ← get parent (tptr t); rbt_black tp;;
          wf ← get (child (opp d)) w; rbt_black wf;;
          tp ← get parent (tptr t); rotate d tp;;
          get_root) s
    (pass_up m0 sn rp nds cp C).
Proof.
  intros D Ht. pose proof (df_holds _ _ _ _ _ _ _ _ D) as H.
  pose proof (holds_sib _ _ _ _ _ _ _ _ _ _ _ _ _ _ _ _ H) as Hw.
  assert (exists c1, holds m0 sn rp c1 wn s) as [c1 H1].
  { apply to_nephew in H. by eexists. }
  assert (exists c2, holds m0 sn rp c2 wf s) as [c2 H2].
  { rewrite <- mkT_opp in H. apply to_nephew in H. by eexists. }
  match goal with |- runs (_ ≫= fun wl => _ ≫= fun bl => _ ≫= ?K) _ ?Q =>
    assert (runs (K (negb (tred wn) && negb (tred wf))) s Q) as HK end.
  { destruct (negb (tred wn) && negb (tred wf)) eqn:Eb.
    - apply andb_true_iff in Eb as [Rn%negb_true_iff Rf%negb_true_iff]. rstep.
      destruct D as [_ Hl Hc Hs Ho]. unfold lacks in Hl. rewrite Ht in Hl.
      apply (runs_color_sib_mkT _ _ _ _ _ _ _ _ _ _ _ _ _ _ _ true _ _ H). clear H. intros s1 H.
      eapply runs_parent; [exact H|by intros E; apply Hs|]. cbn [up fptr].
      apply to_parent in H. rewrite <- (tptr_mkT d cp p kp t (mkT d true pw kw wn wf)).
      assert (bal (mkT d false pw kw wn wf) (S n) -> bal (mkT d true pw kw wn wf) n) as Hb.
      { rewrite bal_mkT_black, bal_mkT_red. tauto. }
      destruct cp; cbn [balc] in Hc.
      + exists C, (mkT d true p kp t (mkT d true pw kw wn wf)), n. split; [done|]. split.
        * split; [exact H| |tauto|by destruct d|rewrite <- Ho; destruct d; solve_inorder].
          unfold lacks. rewrite tred_mkT.
          assert (bal (mkT d false p kp t (mkT d true pw kw wn wf)) (S n)) as Hb'
            by (apply bal_mkT_black; tauto).
          by destruct d.
        * left. apply tred_mkT.
      + exists C, (mkT d false p kp t (mkT d true pw kw wn wf)), (S n). split; [done|]. split.
        * split; [exact H| |tauto|by destruct d|rewrite <- Ho; destruct d; solve_inorder].
          unfold lacks. rewrite tred_mkT. apply bal_mkT_black. tauto.
        * by right; right.
    - eapply runs_mono; [eapply delete_pass_inner; [exact D|done|]|].
      + apply andb_false_iff in Eb. rewrite !negb_false_iff in Eb. done.
      + intros y s' (t' & n' & -> & D'). exists [], t', n'. split; [done|]. split; [done|].
        by right; left. }
  destruct d; cbn [side_node] in Hw; rstep; (eapply runs_get; [exact Hw|]); cbn [left right]; rstep.
  - eapply runs_is_black; [exact H1|]. destruct (tred wn); cbn [negb andb] in *; rstep; [by rstep|].
    rstep. eapply runs_get; [exact Hw|]. eapply runs_is_black; [exact H2|]. exact HK.
  - rewrite andb_comm in HK. eapply runs_is_black; [exact H2|].
    destruct (tred wf); cbn [negb andb] in *; rstep; [by rstep|].
    rstep. eapply runs_get; [exact Hw|]. eapply runs_is_black; [exact H1|]. exact HK.
Qed.

(** A pass of the loop. *)
Lemma delete_pass m0 sn rp nds d cp p kp w C t n s :
  deficit m0 sn rp nds (F d cp p kp w :: C) t n s -> tred t = false ->
  runs (delete_fixup_side d (tptr t)) s (pass_up m0 sn rp nds false C).
Proof.
  intros D Ht. pose proof D as [H Hl Hc Hs Ho]. unfold lacks in Hl. rewrite Ht in Hl.
  pose proof (fun E => Hs E ltac:(done)) as Hs'. cbn [up fptr] in Hs'.
  assert (bal w (S n) /\ (cp = true -> tred w = false)) as [Hw Rw] by (destruct cp; cbn [balc] in Hc; naive_solver).
  destruct w as [|cw pw kw wl wr]; [done|].
  destruct (mkT_sides d cw pw kw wl wr) as (wn & wf & EW). rewrite EW in *.
  unfold delete_fixup_side. rstep. eapply runs_parent; [exact H|exact Hs'|]. cbn [up fptr].
  rstep. eapply runs_get; [eapply holds_frame; exact H|]. rewrite child_opp, tptr_mkT. rstep.
  pose proof H as HS. apply holds_swap in HS. rewrite <- (tptr_mkT d cw pw kw wn wf) at 1.
  eapply runs_is_red; [exact HS|]. clear HS. rewrite tred_mkT in *.
  destruct cw; cycle 1.
  { do 2 rstep. eapply runs_mono; [by eapply delete_pass_black|].
    intros y s' (c' & t' & n' & -> & D' & Hlen). exists c', t', n'. naive_solver. }
  destruct cp; [by specialize (Rw eq_refl)|]. clear Rw.
  rstep. rstep. apply (runs_color_sib_mkT _ _ _ _ _ _ _ _ _ _ _ _ _ _ _ false _ _ H). clear H. intros s1 H.
  rstep. eapply runs_parent; [exact H|exact Hs'|]. cbn [up fptr]. rstep.
  apply (runs_color_frame _ _ _ _ _ _ _ _ _ _ true _ _ H). clear H. intros s2 H.
  rstep. eapply runs_parent; [exact H|exact Hs'|]. cbn [up fptr]. rstep.
  apply to_parent in H. eapply runs_rotate; [exact H|]. clear H. intros s3 H%to_child%to_child.
  rstep. eapply runs_parent; [exact H|exact Hs'|]. cbn [up fptr].
  eapply runs_get; [eapply holds_frame; exact H|]. rewrite child_opp.
  apply bal_mkT_red in Hw as (Rn & Rf & Bn & Bf). cbn [balc] in Hc.
  destruct wn as [|[] pn kn nl nr]; [done|done|]. cbn [tptr].
  destruct (mkT_sides d false pn kn nl nr) as (a & b & EN).
  eapply runs_mono; [eapply (delete_pass_black m0 sn rp nds); [|done]|].
  - rewrite EN in *. split; [exact H|by unfold lacks; rewrite Ht| |by intros E _; apply Hs'|].
    + cbn [balc fred]. rewrite tred_mkT. tauto.
    + rewrite <- Ho. destruct d; solve_inorder.
  - intros y s' (c' & t' & n' & -> & D' & Hlen). exists c', t', n'. split; [done|]. split; [done|].
    by destruct Hlen as [|[|[_ ?]]]; [left|right; left|].
Qed.

(** The loop and the final [ngx_rbt_black]. *)
Lemma delete_fixup_runs m0 sn rp nds fuel c t n s :
  deficit m0 sn rp nds c t n s -> (length c + 1 < fuel)%nat ->
  runs (delete_fixup fuel (tptr t)) s
    (fun temp s' => runs (rbt_black temp) s' (fun _ s' => repaired m0 sn rp nds s')).
Proof.
  intros D Hf.
  assert ((if tred t then 0 else length c) < fuel)%nat as Hf' by (destruct (tred t); lia). clear Hf.
  revert c t n s D Hf'. induction fuel as [|fuel IH]; intros c t n s D Hf; [lia|].
  pose proof D as [H Hl Hc Hs Ho]. cbn [delete_fixup]. rstep. rstep.
  destruct (Z.eqb_spec (tptr t) (root s)) as [Er|Hr].
  { rstep. eapply deficit_exit; [exact D|]. destruct c as [|f c]; [by left|right].
    by destruct (holds_not_root _ _ _ H). }
  rstep. eapply runs_is_red; [exact H|]. destruct (tred t) eqn:Et.
  { rstep. eapply deficit_exit; [exact D|]. by right. }
  destruct c as [|[d cp p kp w] C].
  { destruct H as [_ H _ _ _ _]. cbn in H. done. }
  rstep. eapply runs_parent; [exact H|by intros E; apply Hs|]. cbn [up fptr].
  rstep. eapply runs_get; [eapply holds_frame; exact H|].
  assert (w <> E) as Hw by (destruct w; [|done]; destruct cp; cbn in Hc; lia).
  rewrite (holds_left _ _ _ _ _ _ _ H) by (by right).
  rstep. eapply runs_mono; [by eapply delete_pass|].
  intros y s' (c' & t' & n' & -> & D' & Hlen). eapply IH; [exact D'|]. cbn in Hf.
  destruct Hlen as [->|[->|[-> _]]]; cbn; [|destruct (tred t')..]; lia.
Qed.

(** ** Unlinking a node *)

(** The sentinel after [temp->parent = par]. *)
Definition sent_after (sn : node_t) (t : tree) (par : ptr) : node_t :=
  match t with E => sn <| parent := par |> | T _ _ _ _ _ => sn end.

(** The parts of [holds] after the writes, but for the other addresses. *)
Ltac write_tree :=
  split; cbn [rep repc tptr mkT nodes root up fptr side_node sent_after update];
  [ split_and?; lookups; done | split_and?; lookups; done | done | lookups; done | done | ].


(** [y] has the subtree [t] and a leaf below it. *)
Definition only_child (a b t : tree) : Prop := (a = E /\ t = b) \/ (b = E /\ t = a).

Lemma only_child_ptrs a b t : only_child a b t -> ptrs a ++ ptrs b = ptrs t.
Proof. intros [[-> ->]|[-> ->]]; cbn; by rewrite ?app_nil_r. Qed.

Lemma only_child_inorder a b t p k :
  only_child a b t -> inorder (T true p k a b) = inorder a ++ (p, k) :: inorder b.
Proof. done. Qed.

(** The parent of [y] takes the child of [y] instead. *)
Lemma runs_unlink m0 sn rp d cf pf kf sib c cy y ky a b t s (Q : unit -> store -> Prop) :
  holds m0 sn rp (F d cf pf kf sib :: c) (T cy y ky a b) s -> only_child a b t ->
  let m1 := <[y := mk_node ky (tptr a) (tptr b) pf (Z.b2z cy)]> m0 in
  (forall s', holds m1 (sent_after sn t pf) rp (F d cf pf kf sib :: c) t s' ->
    nodes s' !! y = Some (mk_node ky (tptr a) (tptr b) pf (Z.b2z cy)) -> Q tt s') ->
  runs (set_child d pf (tptr t);; set_parent (tptr t) pf) s Q.
Proof.
  intros H Hab m1 HQ. pose proof (holds_frame _ _ _ _ _ _ _ H) as Hf.
  pose proof (only_child_ptrs _ _ _ Hab) as Hp.
  destruct H as [(H1 & Ha & Hb) (_ & Hs & H2) H3 H4 H5 H6]. cbn [ptrs app cptrs] in H3, H6.
  rewrite Hp in H3, H6.
  assert (rep (nodes s) y t) as Ht by (by destruct Hab as [[-> ->]|[-> ->]]). clear Ha Hb Hp Hab.
  assert (id (NoDup (sentinel :: ptrs t ++ cptrs (F d cf pf kf sib :: c)))) as H7.
  { unfold id. cbn [cptrs]. rewrite list.NoDup_cons in *. rewrite list.NoDup_cons in H3. set_solver. }
  assert (forall p, p ∉ sentinel :: ptrs t ++ cptrs (F d cf pf kf sib :: c) ->
     (p ∉ sentinel :: ptrs t ++ pf :: ptrs sib ++ cptrs c) /\ (p <> y -> nodes s !! p = m0 !! p)) as H8.
  { intros p Hp. split; [done|]. intros Hy. apply H6. set_solver. }
  clear H6. destruct s as [m rt]. cbn [nodes root] in *.
  unfold set_child, set_parent.
  destruct t as [|ct pt kt tl tr]; destruct d; cbn [ptrs tptr app side_node up cptrs fptr rep key] in *;
    split_nodup; try destruct Ht as (Ht & Htl & Htr); run; apply HQ; try (by cbn [nodes]; lookups).
  all: write_tree; let p := fresh "p" in let Hp := fresh "Hp" in intros p Hp;
    apply H8 in Hp as [Hx Hp]; unfold m1; destruct (decide (p = y)) as [->|];
    [by split_nodup; lookups|]; specialize (Hp ltac:(done)); split_nodup; by lookups.
Qed.

(** The addresses outside the tree, [x] having left it. *)
Ltac frame_done x :=
  let p := fresh "p" in let Hp := fresh "Hp" in let H := fresh in
  intros p Hp; match goal with H8 : forall p, _ -> _ /\ (_ -> _) |- _ => apply H8 in Hp as [H Hp] end;
  destruct (decide (p = x)) as [->|]; [by split_nodup; lookups|];
  specialize (Hp ltac:(done)); split_nodup; by lookups.

(** [y], which is not in the tree, takes the place of [x], which has two children. *)
Lemma runs_take_place m0 sn rp c cx x kx cl pl kl ll lr cr pr kr rl rr y ny s
    (Q : unit -> store -> Prop) :
  let l := T cl pl kl ll lr in
  let r := T cr pr kr rl rr in
  let nx := mk_node kx pl pr (up rp c) (Z.b2z cx) in
  holds m0 sn rp c (T cx x kx l r) s -> y ∉ sentinel :: ptrs (T cx x kx l r) ++ cptrs c ->
  nodes s !! y = Some ny ->
  (forall s', holds (<[x := nx]> m0) sn rp c (T cx y (key ny) l r) s' ->
    nodes s' !! x = Some nx -> Q tt s') ->
  runs (delete_take_place x y) s Q.
Proof.
  intros l r nx H Hy Hny HQ. destruct H as [(H1 & (Hl & Hll & Hlr) & (Hr & Hrl & Hrr)) H2 H3 H4 H5 H6].
  assert (ptrs (T cx x kx l r) ++ cptrs c ≡ₚ
          x :: pl :: pr :: cptrs c ++ ptrs ll ++ ptrs lr ++ ptrs rl ++ ptrs rr) as Hp1.
  { cbn [ptrs l r]. solve_Permutation. }
  assert (forall k, ptrs (T cx y k l r) ++ cptrs c ≡ₚ
          y :: pl :: pr :: cptrs c ++ ptrs ll ++ ptrs lr ++ ptrs rl ++ ptrs rr) as Hp2.
  { intros k. cbn [ptrs l r]. solve_Permutation. }
  rewrite Hp1 in H3, Hy. setoid_rewrite Hp1 in H6.
  assert (id (NoDup (sentinel :: ptrs (T cx y (key ny) l r) ++ cptrs c))) as H7.
  { unfold id. rewrite Hp2. rewrite !list.NoDup_cons in H3 |- *. set_solver. }
  assert (forall p, p ∉ sentinel :: ptrs (T cx y (key ny) l r) ++ cptrs c ->
     (p ∉ sentinel :: y :: pl :: pr :: cptrs c) /\ (p <> x -> nodes s !! p = m0 !! p)) as H8.
  { intros p. rewrite Hp2. intros Hp. rewrite ?not_elem_of_cons, ?not_elem_of_app in Hp.
    split; [|intros Hx; apply H6]; rewrite ?not_elem_of_cons, ?not_elem_of_app; tauto. }
  clear H6 Hp1 Hp2. unfold delete_take_place, copy_color, set_child, set_parent, set_color.
  destruct s as [m rt], ny as [ky nl nr np nc]. cbn [nodes root key] in *.
  subst l r nx. assert (x <> rt \/ c = []) as Hrt.
  { destruct c as [|[d' co q k sib] c]; [by right|left]. destruct H2 as (_ & _ & H2).
    cbn [cptrs] in *. split_nodup. eapply repc_root; [exact H2|done|done]. }
  destruct c as [|[d' co pf kf sib] c].
  - cbn [repc] in H2. subst rt. cbn [ptrs tptr app up cptrs] in *. split_nodup. run.
    apply HQ; [|by cbn [nodes]; lookups]. write_tree. frame_done x.
  - destruct Hrt as [Hrt|]; [|done]. destruct H2 as (Hf & Hs & H2).
    assert (x <> tptr sib) by (cbn [cptrs] in *; split_nodup; by apply tptr_ne).
    destruct d'; cbn [ptrs tptr app up cptrs side_node fptr] in *; split_nodup; run;
      (apply HQ; [|by cbn [nodes]; lookups]); write_tree; frame_done x.
Qed.
(** The right child [y] of [x], which has no left child, takes the place of [x]. *)
Lemma runs_take_next m0 sn rp c cx x kx cl pl kl ll lr cy y ky yr s (Q : unit -> store -> Prop) :
  let l := T cl pl kl ll lr in
  let nx := mk_node kx pl (tptr yr) (up rp c) (Z.b2z cx) in
  holds m0 sn rp c (T cx x kx l (T cy y ky E yr)) s ->
  (forall s', holds (<[x := nx]> m0) (sent_after sn yr y) rp c (T cx y ky l yr) s' ->
    nodes s' !! x = Some nx -> Q tt s') ->
  runs (set_child R x (tptr yr);; set_parent (tptr yr) y;; delete_take_place x y) s Q.
Proof.
  intros l nx H HQ. destruct H as [(H1 & (Hl & Hll & Hlr) & (Hy & _ & Hyr)) H2 H3 H4 H5 H6].
  assert (ptrs (T cx x kx l (T cy y ky E yr)) ++ cptrs c ≡ₚ
          x :: y :: pl :: cptrs c ++ ptrs yr ++ ptrs ll ++ ptrs lr) as Hp1.
  { cbn [ptrs l app]. solve_Permutation. }
  assert (ptrs (T cx y ky l yr) ++ cptrs c ≡ₚ
          y :: pl :: cptrs c ++ ptrs yr ++ ptrs ll ++ ptrs lr) as Hp2.
  { cbn [ptrs l app]. solve_Permutation. }
  rewrite Hp1 in H3. setoid_rewrite Hp1 in H6.
  assert (id (NoDup (sentinel :: ptrs (T cx y ky l yr) ++ cptrs c))) as H7.
  { unfold id. rewrite Hp2. apply list.NoDup_cons in H3 as [Ha [_ Hb]%list.NoDup_cons].
    apply not_elem_of_cons in Ha as [_ Ha]. by apply list.NoDup_cons. }
  assert (forall p, p ∉ sentinel :: ptrs (T cx y ky l yr) ++ cptrs c ->
     (p ∉ sentinel :: y :: pl :: cptrs c ++ ptrs yr) /\ (p <> x -> nodes s !! p = m0 !! p)) as H8.
  { intros p. rewrite Hp2. intros Hp. rewrite ?not_elem_of_cons, ?not_elem_of_app in Hp.
    split; [|intros Hx; apply H6]; rewrite ?not_elem_of_cons, ?not_elem_of_app; tauto. }
  clear H6 Hp1 Hp2. unfold delete_take_place, copy_color, set_child, set_parent, set_color.
  destruct s as [m rt]. cbn [nodes root] in *. subst l nx.
  assert (x <> rt \/ c = []) as Hrt.
  { destruct c as [|[d' co q k sib] c]; [by right|left]. destruct H2 as (_ & _ & H2).
    cbn [cptrs] in *. split_nodup. eapply repc_root; [exact H2|done|done]. }
  destruct c as [|[d' co pf kf sib] c].
  - cbn [repc] in H2. subst rt. destruct yr as [|c1 p1 k1 l1 r1];
      cbn [ptrs tptr app up cptrs rep] in *; split_nodup; try destruct Hyr as (Hyr & ? & ?); run;
      (apply HQ; [|by cbn [nodes]; lookups]); write_tree; frame_done x.
  - destruct Hrt as [Hrt|]; [|done]. destruct H2 as (Hf & Hs & H2).
    assert (x <> tptr sib) by (cbn [cptrs] in *; split_nodup; by apply tptr_ne).
    destruct yr as [|c1 p1 k1 l1 r1]; destruct d';
      cbn [ptrs tptr app up cptrs side_node fptr rep] in *; split_nodup;
      try destruct Hyr as (Hyr & ? & ?); run;
      (apply HQ; [|by cbn [nodes]; lookups]); write_tree; frame_done x.
Qed.

(** The node that was taken out. *)
Definition cleared (c : Z) : node_t := mk_node 0 NULL NULL NULL c.

Lemma runs_clear m0 sn rp c t x nx s (Q : unit -> store -> Prop) :
  holds m0 sn rp c t s -> x ∉ sentinel :: ptrs t ++ cptrs c -> nodes s !! x = Some nx ->
  (forall s', holds (<[x := cleared (color nx)]> m0) sn rp c t s' -> Q tt s') ->
  runs (delete_clear x) s Q.
Proof.
  intros [H1 H2 H3 H4 H5 H6] Hx Hnx HQ. destruct s as [m rt], nx as [kx nl nr np nc].
  cbn [nodes root color] in *. unfold delete_clear, set_child, set_parent. run. apply HQ.
  rewrite !insert_insert_eq.
  apply not_elem_of_cons in Hx as [Hxs [Hxt Hxc]%not_elem_of_app].
  split; cbn [nodes root]; try done.
  - by rewrite rep_insert.
  - by rewrite repc_insert.
  - by rewrite lookup_insert_ne.
  - intros p Hp. destruct (decide (p = x)) as [->|]; [by rewrite !lookup_insert_eq|].
    rewrite !lookup_insert_ne by done. by apply H6.
Qed.

(** [ngx_rbtree_min]: the leftmost node. *)
Lemma rbtree_min_runs m0 sn rp fuel c co p k l r s :
  holds m0 sn rp c (T co p k l r) s -> (length (ptrs l) < fuel)%nat ->
  runs (rbtree_min fuel p) s (fun y s' => s' = s /\
    exists cy ky yr c', T co p k l r = plug c' (T cy y ky E yr) /\
      holds m0 sn rp (c' ++ c) (T cy y ky E yr) s /\
      Forall (fun f => let 'F d _ _ _ _ := f in d = L) c').
Proof.
  revert c co p k l r. induction fuel as [|fuel IH]; intros c co p k l r H Hf; [lia|].
  cbn [rbtree_min]. read. destruct l as [|cl q kq ll lr]; cbn [left tptr].
  - rewrite Z.eqb_refl. cbn [negb]. rstep. split; [done|]. exists co, k, r, [].
    split_and!; [done|done|constructor].
  - assert (q <> sentinel) as Hq.
    { apply h_nodup in H. cbn [ptrs app] in H. split_nodup. done. }
    rewrite (proj2 (Z.eqb_neq _ _) Hq). cbn [negb].
    apply (to_child _ _ _ L) in H. cbn in Hf. rewrite length_app in Hf.
    eapply runs_mono; [apply (IH _ _ _ _ _ _ H); lia|].
    intros y s' (-> & cy & ky & yr & c' & EP & H' & HL). split; [done|].
    exists cy, ky, yr, (c' ++ [F L co p k r]). split_and!.
    + unfold plug. rewrite foldl_app. change (foldl _ _ c') with (plug c' (T cy y ky E yr)).
      by rewrite <- EP.
    + by rewrite <- app_assoc.
    + apply Forall_app. split; [done|]. by constructor.
Qed.

(** ** [ngx_rbtree_delete] *)

Lemma runs_seq {A} (m1 m2 : M unit) (k : unit -> M A) s (Q : A -> store -> Prop) :
  runs (m1;; m2) s (fun x s' => runs (k x) s' Q) -> runs (m1;; (m2 ≫= k)) s Q.
Proof.
  intros (x & s' & E & y & s2 & E2 & HQ). exists y, s2. split; [|done].
  unfold mbind, M_bind, bind in *. destruct (m1 s) as [[u s1]|]; [|done]. by rewrite E.
Qed.

Lemma lacks_bal t n : bal t n -> lacks t n.
Proof. unfold lacks. destruct t as [|[] p k l r]; cbn [tred blacken]; [done| |done]. cbn. tauto. Qed.

(** What is known before the rebalancing starts: the tree is red-black again, or
    it lacks a black node at the place of the result. *)
Definition unlinked m0 x nds (len : nat) (res : option ptr) (s : store) : Prop :=
  exists cn sn rp, let m1 := <[x := cleared cn]> m0 in
    match res with
    | None => repaired m1 sn rp nds s
    | Some p => exists c t n, p = tptr t /\ deficit m1 sn rp nds c t n s /\ (length c <= len)%nat
    end.

(** The end of the unlinking, [y] being the node whose colour disappeared. *)
Lemma unlinked_finish m0 x nx sn rp c t cy n nds s :
  holds (<[x := nx]> m0) sn rp c t s -> x ∉ sentinel :: ptrs t ++ cptrs c ->
  bal t (if cy : bool then n else pred n) -> balc c n -> (cy = true -> tred t = false) ->
  (cy = false -> n <> 0%nat) -> c <> [] ->
  (t = E -> parent sn = up rp c) -> before c ++ inorder t ++ after c = nds ->
  forall len, (length c <= len)%nat ->
  runs (delete_clear x;; ret (if cy then None else Some (tptr t))) s (unlinked m0 x nds len).
Proof.
  intros H Hx Hb Hc Hr Hn Hne Hs Ho len Hlen. pose proof (h_frame _ _ _ _ _ _ H x Hx) as Hnx.
  rewrite lookup_insert_eq in Hnx. rstep. eapply runs_clear; [exact H|done|exact Hnx|].
  intros s' H'. rewrite insert_insert_eq in H'. rstep. exists (color nx), sn, rp. destruct cy.
  - destruct (bal_plug c t n Hb Hc) as (N & HN & HR).
    { destruct c; [done|]. intros _. by apply Hr. }
    exists (plug c t). split; [by apply (holds_plug _ _ _ c)|]. split.
    + split; [by destruct HR|by exists N].
    + by rewrite inorder_plug.
  - exists c, t, (pred n). split; [done|]. split; [|done]. split; try done.
    + by apply lacks_bal.
    + destruct n; [by destruct Hn|done].
    + intros E _. by apply Hs.
Qed.

(** [x] is the root and has one child at most. *)
Lemma unlink_root m0 sn rp cx x kx a b t N nds s len :
  holds m0 sn rp [] (T cx x kx a b) s -> only_child a b t -> bal t N -> inorder t = nds ->
  runs (set_root (tptr t);; rbt_black (tptr t);; delete_clear x;; ret None) s (unlinked m0 x nds len).
Proof.
  intros H Hab Hb Ho. pose proof (only_child_ptrs _ _ _ Hab) as Hp.
  pose proof (holds_top _ _ _ _ _ _ H) as Hx.
  destruct H as [(_ & Ha & Hb') H2 H3 H4 H5 H6]. cbn [ptrs app] in H3, H6. rewrite Hp in H3, H6.
  assert (rep (nodes s) x t) as Ht by (by destruct Hab as [[-> ->]|[-> ->]]).
  rstep. rstep. cbn [cptrs] in *. rewrite app_nil_r in *.
  assert (holds (<[x := mk_node kx (tptr a) (tptr b) rp (Z.b2z cx)]> m0) sn x [] t
            (mk_store (nodes s) (tptr t))) as H.
  { split; cbn [nodes root up repc cptrs]; try done; rewrite app_nil_r.
    - rewrite !list.NoDup_cons in *. set_solver.
    - intros p Hpp. destruct (decide (p = x)) as [->|].
      + by rewrite lookup_insert_eq.
      + rewrite lookup_insert_ne by done. apply H6. set_solver. }
  rstep. eapply runs_black_at; [exact H|]. clear H. intros s1 H. rstep.
  assert (x ∉ sentinel :: ptrs (blacken t) ++ cptrs []) as Hx'.
  { replace (ptrs (blacken t)) with (ptrs t) by (by destruct t). cbn [cptrs].
    rewrite app_nil_r, !list.NoDup_cons in *. set_solver. }
  pose proof (h_frame _ _ _ _ _ _ H x Hx') as Hnx. rewrite lookup_insert_eq in Hnx.
  eapply runs_clear; [exact H|done|exact Hnx|]. clear H. intros s2 H. rewrite insert_insert_eq in H.
  rstep. exists (Z.b2z cx), sn, x, (blacken t). split; [exact H|]. split.
  - split; [apply tred_blacken|by eapply bal_blacken].
  - by rewrite inorder_blacken.
Qed.

(** [x] has one child at most and a parent. *)
Lemma unlink_below m0 sn rp d cf pf kf sib c cx x kx a b t n nds s len :
  holds m0 sn rp (F d cf pf kf sib :: c) (T cx x kx a b) s -> only_child a b t ->
  bal (T cx x kx a b) n -> balc (F d cf pf kf sib :: c) n ->
  before (F d cf pf kf sib :: c) ++ inorder t ++ after (F d cf pf kf sib :: c) = nds ->
  (length c < len)%nat ->
  runs (set_child d pf (tptr t);; set_parent (tptr t) pf;; delete_clear x;;
        ret (if cx then None else Some (tptr t))) s (unlinked m0 x nds len).
Proof.
  intros H Hab Hb Hc Ho Hlen. apply runs_seq.
  pose proof (h_nodup _ _ _ _ _ _ H) as Hnd. cbn [ptrs app] in Hnd.
  rewrite (only_child_ptrs _ _ _ Hab) in Hnd.
  eapply runs_unlink; [exact H|exact Hab|]. clear H. intros s1 H _.
  eapply unlinked_finish; [exact H| | |exact Hc| | |done| |done|done].
  - rewrite !list.NoDup_cons in *. set_solver.
  - destruct cx, n, Hab as [[-> ->]|[-> ->]]; cbn in *; tauto.
  - intros ->. destruct Hab as [[-> ->]|[-> ->]]; cbn in Hb; tauto.
  - intros ->. by destruct n.
  - intros ->. by destruct sn.
Qed.
(** A read of a node the write before it does not change. *)
Lemma runs_read_after {A B} (f : node_t -> A) d p v y n (k : A -> M B) s (Q : B -> store -> Prop) :
  nodes s !! y = Some n -> y <> p ->
  runs (set_child d p v;; k (f n)) s Q -> runs (set_child d p v;; (z ← get f y; k z)) s Q.
Proof.
  intros Hy Hne (x & s' & E & HQ). exists x, s'. split; [|done].
  unfold mbind, M_bind, bind, set_child, modify in *. destruct (nodes s !! p) as [np|]; [|done].
  unfold get, load, mbind, M_bind, bind, ret in *. destruct s as [m rt]. cbn in *.
  by rewrite lookup_insert_ne, Hy by done.
Qed.

Lemma plug_app c1 c2 t : plug (c1 ++ c2) t = plug c2 (plug c1 t).
Proof. apply foldl_app. Qed.

Lemma holds_app m0 sn rp c1 c2 t s :
  holds m0 sn rp (c1 ++ c2) t s <-> holds m0 sn rp c2 (plug c1 t) s.
Proof. by rewrite (holds_plug _ _ _ (c1 ++ c2)), (holds_plug _ _ _ c2), plug_app. Qed.

Lemma cptrs_app c1 c2 : cptrs (c1 ++ c2) = cptrs c1 ++ cptrs c2.
Proof. induction c1 as [|[d co p k sib] c1 IH]; [done|]. cbn. by rewrite IH, <- app_assoc. Qed.

Lemma holds_ext m0 m1 sn rp c t s :
  (forall p, p ∉ sentinel :: ptrs t ++ cptrs c -> m0 !! p = m1 !! p) ->
  holds m0 sn rp c t s -> holds m1 sn rp c t s.
Proof. intros He [H1 H2 H3 H4 H5 H6]. split; try done. intros p Hp. rewrite <- He by done. auto. Qed.

(** Balance does not depend on which node sits at a place. *)
Lemma balc_other c1 d co p k q kq sib c2 n :
  balc (c1 ++ F d co p k sib :: c2) n -> balc (c1 ++ F d co q kq sib :: c2) n.
Proof.
  revert n. induction c1 as [|[d' [] p' k' sib'] c1 IH]; intros n; cbn [app balc].
  - done.
  - intros (? & ? & Hf & ?). split_and!; [done|done| |by apply IH]. by destruct c1.
  - intros (? & ?). split; [done|by apply IH].
Qed.

Lemma before_app c1 c2 : before (c1 ++ c2) = before c2 ++ before c1.
Proof.
  induction c1 as [|[[] co p k sib] c1 IH]; cbn; [by rewrite app_nil_r|done|]. by rewrite IH, <- app_assoc.
Qed.

Lemma after_app c1 c2 : after (c1 ++ c2) = after c1 ++ after c2.
Proof. induction c1 as [|[[] co p k sib] c1 IH]; cbn; [done| |done]. by rewrite IH, <- app_assoc. Qed.

Lemma before_left c : Forall (fun f => let 'F d _ _ _ _ := f in d = L) c -> before c = [].
Proof. induction 1 as [|[d co p k sib] c Hd H IH]; [done|]. by subst d. Qed.

(** The successor [y] of [x] is its right child. *)
Lemma unlink_next m0 sn rp c cx x kx cl pl kl ll lr cy y ky yr n nds s len :
  let l := T cl pl kl ll lr in
  holds m0 sn rp c (T cx x kx l (T cy y ky E yr)) s ->
  bal (T cy y ky E yr) n -> balc (F R cx x kx l :: c) n ->
  before c ++ inorder l ++ (y, ky) :: inorder yr ++ after c = nds -> (length c < len)%nat ->
  runs (set_child R x (tptr yr);; delete_replace x y (tptr yr);; delete_clear x;;
        ret (if cy then None else Some (tptr yr))) s (unlinked m0 x nds len).
Proof.
  intros l H Hb Hc Ho Hlen. pose proof (h_nodup _ _ _ _ _ _ H) as Hnd.
  assert (x ∉ sentinel :: ptrs (T cx y ky l yr) ++ cptrs c) as Hx.
  { cbn [ptrs app l] in *. rewrite !list.NoDup_cons in Hnd. set_solver. }
  assert (y <> x) as Hyx by (intros ->; set_solver).
  apply runs_seq. unfold delete_replace.
  eapply (runs_read_after parent).
  { apply to_child with (d := R) in H. by eapply holds_top. }
  { done. }
  cbn [parent up fptr]. rewrite Z.eqb_refl. eapply runs_take_next; [exact H|]. clear H.
  intros s1 H _. apply to_child with (d := R) in H.
  eapply (unlinked_finish m0 x _ _ _ _ _ cy n); [exact H| | | | | |done| |by rewrite <- Ho; solve_inorder|done].
  - cbn [cptrs]. cbn [ptrs app] in Hx. set_solver.
  - destruct cy, n; cbn in *; tauto.
  - by apply (balc_other []) with (q := y) (kq := ky) in Hc.
  - intros ->. cbn in Hb. tauto.
  - intros ->. by destruct n.
  - intros ->. by destruct sn.
Qed.

(** The successor [y] of [x] lies deeper. *)
Lemma unlink_deep m0 sn rp c cx x kx cl pl kl ll lr cf pf kf sib c1 cy y ky yr n nds s len :
  let l := T cl pl kl ll lr in
  let cr := F L cf pf kf sib :: c1 in
  holds m0 sn rp (cr ++ F R cx x kx l :: c) (T cy y ky E yr) s ->
  bal (T cy y ky E yr) n -> balc (cr ++ F R cx x kx l :: c) n ->
  Forall (fun f => let 'F d _ _ _ _ := f in d = L) cr ->
  before c ++ inorder l ++ (y, ky) :: inorder yr ++ after cr ++ after c = nds ->
  (length (cr ++ c) < len)%nat ->
  runs (set_child L pf (tptr yr);; delete_replace x y (tptr yr);; delete_clear x;;
        ret (if cy then None else Some (tptr yr))) s (unlinked m0 x nds len).
Proof.
  intros l cr H Hb Hc HL Ho Hlen. pose proof (h_nodup _ _ _ _ _ _ H) as Hnd.
  rewrite cptrs_app in Hnd. cbn [ptrs app cptrs cr] in Hnd.
  assert (NoDup (sentinel :: y :: pf :: x :: ptrs yr ++ (ptrs sib ++ cptrs c1) ++ ptrs l ++ cptrs c)) as Hd.
  { refine (proj1 (list.NoDup_Permutation_proper _ _ _) Hnd). solve_Permutation. }
  clear Hnd. rewrite !list.NoDup_cons, !not_elem_of_cons in Hd.
  destruct Hd as ((Hsy & Hsp & Hsx & Hs) & (Hyp & Hyx & Hy) & (Hpx & Hp) & Hx & _).
  apply runs_seq. unfold delete_replace. pose proof (holds_top _ _ _ _ _ _ H) as Hny.
  eapply (runs_read_after parent); [exact Hny|done|]. cbn [parent up fptr app cr].
  rewrite (proj2 (Z.eqb_neq _ _) Hpx). apply runs_seq.
  eapply runs_unlink; [exact H|by left|]. clear H. intros s1 H Hny1.
  apply (holds_app _ _ _ cr (F R cx x kx l :: c)), to_parent in H. cbn [mkT] in H.
  assert (ptrs (plug cr yr) ≡ₚ ptrs yr ++ pf :: ptrs sib ++ cptrs c1) as Hpr by apply ptrs_plug.
  destruct (plug cr yr) as [|cr' pr kr rl rr] eqn:Epr.
  { exfalso. cbn [ptrs] in Hpr. apply Permutation_nil in Hpr. by destruct (ptrs yr). }
  eapply runs_take_place; [exact H| |exact Hny1|].
  { rewrite <- Epr in *. cbn [ptrs]. rewrite Hpr. cbn [ptrs l] in *. set_solver. }
  clear H. intros s2 H _. cbn [key] in H. rewrite <- Epr in H.
  apply to_child with (d := R) in H. apply holds_app in H.
  assert (x ∉ sentinel :: ptrs yr ++ cptrs (cr ++ F R cx y ky l :: c)) as Hx'.
  { rewrite cptrs_app. cbn [cptrs cr]. set_solver. }
  eapply (unlinked_finish m0 x _ _ _ _ _ cy n);
    [eapply holds_ext; [|exact H]|done| |eapply balc_other; exact Hc| | |done| | |].
  - intros p Hpp. rewrite cptrs_app in Hpp. cbn [cptrs] in Hpp.
    assert (p <> y) by set_solver. destruct (decide (p = x)) as [->|]; by lookups.
  - destruct cy, n; cbn in *; tauto.
  - intros ->. cbn in Hb. tauto.
  - intros ->. by destruct n.
  - intros ->. by destruct sn.
  - rewrite before_app, after_app, (before_left cr) by done. rewrite <- Ho. solve_inorder.
  - rewrite length_app in *. cbn in *. lia.
Qed.

(** The second half of [delete_unlink], for a node [y] below [pf]. *)
Lemma runs_cut m0 sn rp d cf pf kf sib c cy y ky a b temp s x nds len :
  holds m0 sn rp (F d cf pf kf sib :: c) (T cy y ky a b) s ->
  runs (set_child d pf temp;;
        (if y =? x then set_parent temp pf else delete_replace x y temp);;
        delete_clear x;; ret (if cy then None else Some temp)) s (unlinked m0 x nds len) ->
  runs (rt ← get_root;
        if y =? rt then
          set_root temp;; rbt_black temp;; delete_clear x;; ret None
        else
          red ← is_red y;
          sp ← get parent y;
          spl ← get left sp;
          (if y =? spl then set_child L sp temp else set_child R sp temp);;
          (if y =? x then set_parent temp sp else delete_replace x y temp);;
          delete_clear x;;
          ret (if red : bool then None else Some temp)) s (unlinked m0 x nds len).
Proof.
  intros H HQ. rstep. rstep.
  pose proof (holds_not_root _ _ _ H) as Hr. cbn [tptr] in Hr. rewrite (proj2 (Z.eqb_neq _ _) Hr).
  rstep. apply (runs_is_red _ _ _ H). cbn [tred]. read. rstep.
  eapply runs_get; [eapply holds_frame; exact H|].
  pose proof (holds_left _ _ _ _ _ _ _ H ltac:(by left)) as Hs. cbn [tptr] in Hs |- *.
  revert Hs. destruct (y =? left (side_node d kf y (tptr sib) (up rp c) cf)); intros Hs; subst d; exact HQ.
Qed.

Lemma delete_unlink_runs m0 sn rp c cx x kx l r N s fuel :
  holds m0 sn rp c (T cx x kx l r) s ->
  bal (plug c (T cx x kx l r)) N -> tred (plug c (T cx x kx l r)) = false ->
  (length (ptrs (plug c (T cx x kx l r))) < fuel)%nat ->
  runs (delete_unlink fuel x) s
    (unlinked m0 x (before c ++ inorder l ++ inorder r ++ after c) (length (ptrs (plug c (T cx x kx l r))))).
Proof.
  intros H Hb Hr Hf. destruct (bal_unplug _ _ _ Hb Hr) as (n & Bx & Bc & _).
  assert (length c < length (ptrs (plug c (T cx x kx l r))))%nat as Hlen.
  { rewrite ptrs_plug. cbn [ptrs app]. pose proof (length_cptrs c). cbn. rewrite length_app. lia. }
  assert (length (ptrs r) < fuel)%nat as Hfr.
  { rewrite ptrs_plug in Hf. cbn in Hf. rewrite !length_app in Hf. lia. }
  assert (forall t, only_child l r t ->
    runs (rt ← get_root;
        if x =? rt then
          set_root (tptr t);; rbt_black (tptr t);; delete_clear x;; ret None
        else
          red ← is_red x;
          sp ← get parent x;
          spl ← get left sp;
          (if x =? spl then set_child L sp (tptr t) else set_child R sp (tptr t));;
          (if x =? x then set_parent (tptr t) sp else delete_replace x x (tptr t));;
          delete_clear x;;
          ret (if red : bool then None else Some (tptr t))) s
      (unlinked m0 x (before c ++ inorder l ++ inorder r ++ after c)
         (length (ptrs (plug c (T cx x kx l r)))))) as Hone.
  { intros t Ht.
    assert (before c ++ inorder t ++ after c = before c ++ inorder l ++ inorder r ++ after c) as Ho.
    { by destruct Ht as [[-> ->]|[-> ->]]. }
    destruct c as [|[d cf pf kf sib] c].
    - rstep. rstep. assert (root s = x) as -> by (by destruct H). rewrite Z.eqb_refl.
      eapply unlink_root; [exact H|exact Ht| |by rewrite <- Ho; cbn; rewrite app_nil_r].
      instantiate (1 := if cx then n else pred n).
      destruct cx, n, Ht as [[-> ->]|[-> ->]]; cbn in *; tauto.
    - eapply runs_cut; [exact H|]. rewrite Z.eqb_refl.
      eapply unlink_below; [exact H|exact Ht|exact Bx|exact Bc|done|cbn [length] in Hlen; lia]. }
  unfold delete_unlink, delete_choose. rstep. read. read.
  destruct l as [|cl pl kl ll lr]; cbn [left right tptr].
  { rewrite Z.eqb_refl. rstep. apply Hone. by left. }
  pose proof (h_nodup _ _ _ _ _ _ H) as Hnd.
  assert (pl <> sentinel) as Hpl by (cbn [ptrs app] in Hnd; split_nodup; done).
  rewrite (proj2 (Z.eqb_neq _ _) Hpl). destruct r as [|cr pr kr rl rr]; cbn [left right tptr].
  { rewrite Z.eqb_refl. rstep. apply (Hone (T cl pl kl ll lr)). by right. }
  assert (pr <> sentinel) as Hpr.
  { intros ->. rewrite list.NoDup_cons in Hnd. set_solver. }
  rewrite (proj2 (Z.eqb_neq _ _) Hpr). clear Hone. rstep.
  pose proof (to_child _ _ _ R cx x kx (T cl pl kl ll lr) c (T cr pr kr rl rr) s H) as HR.
  eapply runs_mono; [eapply (rbtree_min_runs _ _ _ _ _ _ _ _ _ _ _ HR); cbn in Hfr;
    rewrite length_app in Hfr; lia|].
  intros y s' (-> & cy & ky & yr & c' & EP & Hy & HL). read. cbn [right]. rstep.
  set (l := T cl pl kl ll lr) in *.
  assert (inorder (T cr pr kr rl rr) = (y, ky) :: inorder yr ++ after c') as Hin.
  { rewrite EP, inorder_plug, before_left by done. by cbn. }
  assert (exists m, bal (T cy y ky E yr) m /\ balc (c' ++ F R cx x kx l :: c) m) as (m & By & Bcy).
  { destruct (bal_unplug (c' ++ F R cx x kx l :: c) (T cy y ky E yr) N) as (m & ? & ? & _).
    - rewrite plug_app, <- EP. exact Hb.
    - rewrite plug_app, <- EP. exact Hr.
    - by exists m. }
  assert (y <> x) as Hyx.
  { apply h_nodup in Hy. rewrite cptrs_app in Hy. cbn [ptrs app cptrs] in Hy. split_nodup. done. }
  rewrite Hin. destruct c' as [|[d cf pf kf sib] c1].
  - eapply runs_cut; [exact Hy|]. rewrite (proj2 (Z.eqb_neq _ _) Hyx).
    injection EP as -> -> -> -> ->. eapply unlink_next; [exact H|exact By|exact Bcy| |lia].
    cbn [after]. by rewrite app_nil_r.
  - eapply runs_cut; [exact Hy|]. rewrite (proj2 (Z.eqb_neq _ _) Hyx).
    pose proof HL as Hd. apply Forall_cons_1 in Hd as [-> _].
    eapply unlink_deep; [exact Hy|exact By|exact Bcy|exact HL| |].
    + by rewrite <- app_comm_cons, <- app_assoc.
    + assert (length (ptrs (T cr pr kr rl rr)) =
              (length (ptrs (T cy y ky E yr)) + length (cptrs (F L cf pf kf sib :: c1)))%nat) as Hlr
        by (by rewrite EP, ptrs_plug, length_app).
      rewrite ptrs_plug, !length_app. change (ptrs (T cx x kx l (T cr pr kr rl rr)))
        with (x :: ptrs l ++ ptrs (T cr pr kr rl rr)). cbn [length]. rewrite length_app.
      pose proof (length_cptrs c). pose proof (length_cptrs (F L cf pf kf sib :: c1)).
      cbn [length] in *. lia.
Qed.

(** Every node of a tree has its place in it. *)
Lemma focus_on x t : x ∈ ptrs t -> exists c cx kx l r, t = plug c (T cx x kx l r).
Proof.
  induction t as [|co p k l IHl r IHr]; cbn [ptrs]; [set_solver|].
  intros [->|[Hl|Hr]%elem_of_app]%elem_of_cons.
  - by exists [], co, k, l, r.
  - destruct (IHl Hl) as (c & cx & kx & a & b & ->). exists (c ++ [F L co p k r]), cx, kx, a, b.
    by rewrite plug_app.
  - destruct (IHr Hr) as (c & cx & kx & a & b & ->). exists (c ++ [F R co p k l]), cx, kx, a, b.
    by rewrite plug_app.
Qed.

Lemma rbtree_delete_runs m0 sn rp t x s fuel :
  holds m0 sn rp [] t s -> red_black t -> x ∈ ptrs t -> (length (ptrs t) + 1 < fuel)%nat ->
  runs (rbtree_delete fuel x) s (fun _ s' => exists cn sn' rp' t' A B k,
    holds (<[x := cleared cn]> m0) sn' rp' [] t' s' /\ red_black t' /\
    inorder t = A ++ (x, k) :: B /\ inorder t' = A ++ B).
Proof.
  intros H [Hr [N Hb]] Hx Hf. destruct (focus_on x t Hx) as (c & cx & kx & l & r & ->).
  apply holds_plug in H. unfold rbtree_delete. rstep.
  eapply runs_mono; [eapply delete_unlink_runs; [exact H|exact Hb|exact Hr|lia]|].
  intros res s1 (cn & sn' & rp' & Hres).
  assert (forall s' , repaired (<[x := cleared cn]> m0) sn' rp'
      (before c ++ inorder l ++ inorder r ++ after c) s' ->
    exists cn sn' rp' t' A B k,
      holds (<[x := cleared cn]> m0) sn' rp' [] t' s' /\ red_black t' /\
      inorder (plug c (T cx x kx l r)) = A ++ (x, k) :: B /\ inorder t' = A ++ B) as Hdone.
  { intros s' (t' & H' & Hrb & Ho).
    exists cn, sn', rp', t', (before c ++ inorder l), (inorder r ++ after c), kx.
    split_and!; [done|done| |by rewrite Ho, <- app_assoc]. rewrite inorder_plug. solve_inorder. }
  destruct res as [p|].
  - destruct Hres as (c' & t' & n' & -> & D & Hlen). rstep.
    eapply runs_mono; [eapply delete_fixup_runs; [exact D|lia]|].
    intros temp s2 HQ. eapply runs_mono; [exact HQ|]. intros [] s3. apply Hdone.
  - rstep. by apply Hdone.
Qed.

(** The height of a red-black tree is logarithmic in its size. *)
Fixpoint height (t : tree) : nat :=
  match t with E => 0 | T _ _ _ l r => S (Nat.max (height l) (height r)) end.

Lemma bal_height t n :
  bal t n -> (height t <= 2 * n + (if tred t then 1 else 0))%nat /\ (2 ^ n <= S (length (ptrs t)))%nat.
Proof.
  revert n. induction t as [|[] p k l IHl r IHr]; intros n; cbn [bal].
  - intros ->. cbn. lia.
  - intros (Rl & Rr & [Hl Sl]%IHl & [Hr Sr]%IHr). rewrite Rl in Hl. rewrite Rr in Hr.
    cbn [height tred ptrs length]. rewrite length_app. lia.
  - destruct n as [|n]; [done|]. intros ([Hl Sl]%IHl & [Hr Sr]%IHr).
    cbn [height tred ptrs length]. rewrite length_app. cbn [Nat.pow].
    destruct (tred l), (tred r); lia.
Qed.

Lemma red_black_height t :
  red_black t -> (height t <= 2 * Nat.log2 (S (length (ptrs t))))%nat.
Proof.
  intros [Hr [n Hb]]. apply bal_height in Hb as [Hh Hs]. rewrite Hr in Hh.
  apply Nat.log2_le_mono in Hs. rewrite Nat.log2_pow2 in Hs by lia. lia.
Qed.

(** ** For the users of a tree *)

Lemma inorder_ptrs t : (inorder t).*1 ≡ₚ ptrs t.
Proof.
  induction t as [|c p k l IHl r IHr]; [done|]. cbn [inorder ptrs].
  rewrite fmap_app, fmap_cons, IHl, IHr. cbn. by rewrite Permutation_middle.
Qed.

Lemma elem_of_ptrs t p : p ∈ ptrs t <-> exists k, (p, k) ∈ inorder t.
Proof.
  rewrite <- inorder_ptrs, list_elem_of_fmap. split.
  - intros ([q k] & -> & H). by exists k.
  - intros [k H]. by exists (p, k).
Qed.

Lemma rep_key m par t p k :
  rep m par t -> (p, k) ∈ inorder t -> exists n, m !! p = Some n /\ key n = k.
Proof.
  revert par. induction t as [|c q kq l IHl r IHr]; intros par; cbn [inorder rep]; [set_solver|].
  intros (Hq & Hl & Hr) [Hp|[[= -> ->]|Hp]%elem_of_cons]%elem_of_app; eauto.
Qed.

Lemma holds_self m0 sn rp c t s : holds m0 sn rp c t s -> holds (nodes s) sn rp c t s.
Proof. intros [H1 H2 H3 H4 H5 H6]. by split. Qed.

Lemma holds_dom m0 sn rp t s p :
  holds m0 sn rp [] t s -> is_Some (m0 !! p) -> is_Some (nodes s !! p).
Proof.
  intros [H1 _ _ H4 _ H6] Hp. destruct (decide (p ∈ sentinel :: ptrs t ++ cptrs [])) as [Hin|Hin].
  - cbn [cptrs] in Hin. rewrite app_nil_r in Hin.
    apply elem_of_cons in Hin as [Hps|Hin]; [|by eapply rep_dom].
    exists sn. rewrite Hps. exact H4.
  - by rewrite H6.
Qed.

Lemma holds_write m0 sn rp c t s x n :
  holds m0 sn rp c t s -> x ∉ sentinel :: ptrs t ++ cptrs c ->
  holds (<[x := n]> m0) sn rp c t (mk_store (<[x := n]> (nodes s)) (root s)).
Proof.
  intros [H1 H2 H3 H4 H5 H6] Hx. apply not_elem_of_cons in Hx as [Hxs [Hxt Hxc]%not_elem_of_app].
  split; cbn [nodes root]; try done.
  - by rewrite rep_insert.
  - by rewrite repc_insert.
  - by rewrite lookup_insert_ne.
  - intros p Hp. destruct (decide (p = x)) as [->|]; [by rewrite !lookup_insert_eq|].
    rewrite !lookup_insert_ne by done. by apply H6.
Qed.

(** A node outside the tree is freed. *)
Lemma rep_delete m par t p : p ∉ ptrs t -> rep (delete p m) par t <-> rep m par t.
Proof.
  revert par. induction t as [|c q k l IHl r IHr]; intros par Hp; [done|]. cbn [ptrs rep] in *.
  apply not_elem_of_cons in Hp as [Hne [Hl Hr]%not_elem_of_app].
  rewrite lookup_delete_ne by done. by rewrite IHl, IHr.
Qed.

Lemma holds_free m0 sn rp t s x :
  holds m0 sn rp [] t s -> x ∉ sentinel :: ptrs t ->
  holds (delete x (nodes s)) sn rp [] t (mk_store (delete x (nodes s)) (root s)).
Proof.
  intros [H1 H2 H3 H4 H5 H6] Hx. apply not_elem_of_cons in Hx as [Hxs Hxt].
  split; cbn [nodes root]; try done; [by rewrite rep_delete|by rewrite lookup_delete_ne].
Qed.

Lemma holds_root_ne m0 sn rp t s : holds m0 sn rp [] t s -> t <> E -> root s <> sentinel.
Proof.
  intros [_ -> H _ _ _] Hne. destruct t as [|co p k l r]; [done|]. cbn [ptrs app tptr] in *.
  split_nodup. done.
Qed.

(** The least node. *)
Lemma rbtree_min_first m0 sn rp t s :
  holds m0 sn rp [] t s -> t <> E ->
  runs (rbtree_min (S (size (nodes s))) (root s)) s (fun y s' => s' = s /\
    exists k rest, inorder t = (y, k) :: rest).
Proof.
  intros H Hne. pose proof (ptrs_size _ _ _ _ _ H) as Hsz.
  assert (root s = tptr t) as -> by (by destruct H). destruct t as [|co p k l r]; [done|].
  cbn [tptr]. cbn [ptrs length] in Hsz. rewrite length_app in Hsz.
  eapply runs_mono; [eapply rbtree_min_runs; [exact H|lia]|].
  intros y s' (-> & cy & ky & yr & c' & EP & _ & HL). split; [done|].
  exists ky, (inorder yr ++ after c'). by rewrite EP, inorder_plug, before_left.
Qed.

(** C18: [ngx_rbtree_insert] puts a new node into a red-black tree: it ends, without
    undefined behaviour, with a tree that is red-black and ordered again, in
    which the node follows the nodes it is not less than and precedes the
    others (nodes with equal keys keep the order of insertion); parent links and
    the root pointer are right, nothing outside the tree changes, and the height
    is at most twice the logarithm of the size. *)
Theorem rbtree_insert_correct less sn rp t x nx s :
  holds (nodes s) sn rp [] t s -> red_black t -> sorted less (inorder t) ->
  order_on less ((x, key nx) :: inorder t) ->
  nodes s !! x = Some nx -> x ∉ sentinel :: ptrs t ->
  exists s' rp' t', ngx_rbtree_insert less x s = Some (tt, s') /\
    holds (nodes s) sn rp' [] t' s' /\ red_black t' /\
    inserted less x (key nx) (inorder t) (inorder t') /\ sorted less (inorder t') /\
    (height t' <= 2 * Nat.log2 (S (length (ptrs t'))))%nat.
Proof.
  intros H Hrb Hs Ho Hnx Hx. pose proof (ptrs_size _ _ _ _ _ H) as Hsz.
  destruct (rbtree_insert_runs less _ _ _ _ x nx s (S (size (nodes s))) H Hrb Hs Ho Hnx Hx
    ltac:(lia)) as ([] & s' & E & rp' & t' & H' & Hrb' & Hins).
  exists s', rp', t'. split_and!; try done; [by eapply inserted_sorted|by apply red_black_height].
Qed.

(** C19: [ngx_rbtree_delete] takes any node out of a red-black tree: it ends,
    without undefined behaviour, with a red-black tree of the other nodes in the
    same order, the node itself is cleared, and nothing else outside the tree
    changes. *)
Theorem rbtree_delete_correct sn rp t x s :
  holds (nodes s) sn rp [] t s -> red_black t -> x ∈ ptrs t ->
  exists s' cn sn' rp' t' A B k, ngx_rbtree_delete x s = Some (tt, s') /\
    holds (<[x := cleared cn]> (nodes s)) sn' rp' [] t' s' /\ red_black t' /\
    inorder t = A ++ (x, k) :: B /\ inorder t' = A ++ B /\
    (height t' <= 2 * Nat.log2 (S (length (ptrs t'))))%nat.
Proof.
  intros H Hrb Hx. pose proof (ptrs_size _ _ _ _ _ H) as Hsz.
  destruct (rbtree_delete_runs _ _ _ _ x s (S (size (nodes s))) H Hrb Hx ltac:(lia))
    as ([] & s' & E & cn & sn' & rp' & t' & A & B & k & H' & Hrb' & Ht & Ht').
  exists s', cn, sn', rp', t', A, B, k. split_and!; try done. by apply red_black_height.
Qed.
End Tree.

(** ** Orders *)

Lemma sorted_delete (less : ptr * Z -> ptr * Z -> bool) A x B : sorted less (A ++ x :: B) -> sorted less (A ++ B).
Proof.
  intros H. apply sorted_app.
  - by eapply sorted_app_l.
  - apply sorted_app_r in H. change (x :: B) with ([x] ++ B) in H. by eapply sorted_app_r.
  - intros a b Ha Hb. eapply sorted_cross; [exact H|done|]. set_solver.
Qed.

(** Plain keys are ordered. *)
Lemma value_less_order ks : order_on (by_key value_less) ks.
Proof. unfold order_on, by_key, value_less. split; intros *; rewrite ?Z.ltb_lt, ?Z.ltb_ge; lia. Qed.

(** Timer keys are ordered when they lie in a window of less than half of the
    64-bit range, wherever it starts, also across the wrap-around. *)
Definition in_window (base k : Z) : Prop := exists o, 0 <= o < 2 ^ 63 /\ k = u64 (base + o).

Lemma timer_less_window base o o' :
  0 <= o < 2 ^ 63 -> 0 <= o' < 2 ^ 63 -> timer_less (u64 (base + o)) (u64 (base + o')) = (o <? o').
Proof.
  intros Ho Ho'. unfold timer_less.
  replace (i64 (u64 (base + o) - u64 (base + o'))) with (o - o').
  - destruct (Z.ltb_spec (o - o') 0), (Z.ltb_spec o o'); lia || done.
  - rewrite <- (i64_small (o - o')) at 1 by lia. apply i64_congr. unfold u64, wrap_u.
    rewrite Zminus_mod_idemp_l, Zminus_mod_idemp_r. f_equal. lia.
Qed.

Lemma timer_less_order base (ks : list (ptr * Z)) :
  Forall (fun k => in_window base k.2) ks -> order_on (by_key timer_less) ks.
Proof.
  rewrite Forall_forall. intros Hw.
  assert (forall k, k ∈ ks -> in_window base k.2) as H by (intros k Hk; by apply Hw, list_elem_of_In).
  unfold by_key. split.
  - intros [p a] [q b] (o & Ho & Ea)%H (o' & Ho' & Eb)%H. cbn [snd] in *. subst. rewrite !timer_less_window by done.
    rewrite Z.ltb_lt, Z.ltb_ge. lia.
  - intros [p a] [q b] [u c] (o & Ho & Ea)%H (o' & Ho' & Eb)%H (o2 & Ho2 & Ec)%H. cbn [snd] in *. subst.
    rewrite !timer_less_window by done. rewrite !Z.ltb_lt. lia.
Qed.

(** ** A tree in memory

    The sentinel at address 1, two nodes at 16 and 32, and a third one at 48 that
    is not in the tree. *)
Definition demo_sentinel : node_t := mk_node 0 0 0 0 0.
Definition demo_tree : tree := T false 16 5 E (T true 32 9 E E).
Definition demo_store : store := mk_store
  (list_to_map [(1, demo_sentinel); (16, mk_node 5 1 32 0 0); (32, mk_node 9 1 1 16 1);
                (48, mk_node 7 0 0 0 0)]) 16.

Lemma demo_holds : holds 1 (nodes demo_store) demo_sentinel 0 [] demo_tree demo_store.
Proof.
  split; try done.
  apply (bool_decide_unpack _). by vm_compute.
Qed.

Lemma demo_red_black : red_black demo_tree.
Proof. split; [done|]. by exists 1%nat. Qed.

Lemma rbtree_insert_correct_witness :
  exists s' rp' t', ngx_rbtree_insert 1 (by_key value_less) 48 demo_store = Some (tt, s') /\
    holds 1 (nodes demo_store) demo_sentinel rp' [] t' s' /\ red_black t' /\
    inserted (by_key value_less) 48 7 [(16, 5); (32, 9)] (inorder t').
Proof.
  destruct (rbtree_insert_correct 1 (by_key value_less) demo_sentinel 0 demo_tree 48 (mk_node 7 0 0 0 0)
    demo_store demo_holds demo_red_black) as (s' & rp' & t' & H1 & H2 & H3 & H4 & _).
  - intros [|[|]] [|[|]] a b; cbn; try lia; intros _ [= <-] [= <-]; done.
  - apply value_less_order.
  - reflexivity.
  - apply (bool_decide_unpack _). by vm_compute.
  - exists s', rp', t'. exact (conj H1 (conj H2 (conj H3 H4))).
Defined.

Lemma rbtree_delete_correct_witness :
  exists s' cn sn' rp' t' A B k, ngx_rbtree_delete 1 16 demo_store = Some (tt, s') /\
    holds 1 (<[16 := cleared cn]> (nodes demo_store)) sn' rp' [] t' s' /\ red_black t' /\
    [(16, 5); (32, 9)] = A ++ (16, k) :: B /\ inorder t' = A ++ B.
Proof.
  destruct (rbtree_delete_correct 1 demo_sentinel 0 demo_tree 16 demo_store demo_holds demo_red_black)
    as (s' & cn & sn' & rp' & t' & A & B & k & H1 & H2 & H3 & H4 & H5 & _).
  - apply (bool_decide_unpack _). by vm_compute.
  - exists s', cn, sn', rp', t', A, B, k. exact (conj H1 (conj H2 (conj H3 (conj H4 H5)))).
Defined.

(** The node at 48 goes between the two others; the rotations make it the root.
    Without the node at 16 the tree keeps the order. *)
Example demo_insert :
  option_map (fun r => (root r.2, nodes r.2 !! 48))
    (ngx_rbtree_insert 1 (by_key value_less) 48 demo_store) = Some (48, Some (mk_node 7 16 32 0 0)).
Proof. vm_compute. reflexivity. Qed.

Example demo_delete :
  option_map (fun r => (root r.2, nodes r.2 !! 32, nodes r.2 !! 16))
    (ngx_rbtree_delete 1 16 demo_store) = Some (32, Some (mk_node 9 1 1 16 0), Some (cleared 0)).
Proof. vm_compute. reflexivity. Qed.
End RbTree.
