(* ===== verification/EventTimer.v ===== *)
(** * Event timers

    [src/src/event/ngx_event_timer.c] and [ngx_event_timer.h]: the timers of events,
    kept in a red-black tree ordered by the millisecond they expire at.  The node of a
    timer is embedded in its event, so an event is named here by the address of
    its node ([ev] and [&ev->timer] differ by a constant).  The counter of
    milliseconds wraps around; [ngx_threads] code is compiled out.

    The handlers of the events are a parameter: they may change the application's
    state, arm and delete timers. *)

From stdpp Require Import gmap.
From S2P Require Import Prelude RbTree.

Module EventTimer.
Import RbTree.

Definition NGX_TIMER_INFINITE : Z := u64 (-1).
Definition NGX_TIMER_LAZY_DELAY : Z := 300.

(** What the timers use of [ngx_event_s]. *)
Record event_t : Type := mk_event { timer_set : bool; timedout : bool }.

#[export] Instance eta_event : Eta event_t := fun e => mk_event (timer_set e) (timedout e).

(** The timer tree with the nodes in memory, the events, [ngx_current_msec], and
    what the handlers work on. *)
Record world (X : Type) : Type := mk_world {
  timers : store;
  events : gmap Z event_t;
  current_msec : Z;
  app : X
}.
Arguments mk_world {X} _ _ _ _.
Arguments timers {X} _.
Arguments events {X} _.
Arguments current_msec {X} _.
Arguments app {X} _.

#[export] Instance eta_world X : Eta (world X) := fun w =>
  mk_world (timers w) (events w) (current_msec w) (app w).

Section Timer.
(** [&ngx_event_timer_sentinel] *)
Variable sentinel : ptr.
Context {X : Type}.

(** An operation on the tree, in the world. *)
Definition in_tree {A} (m : M A) (w : world X) : option (A * world X) :=
  match m (timers w) with
  | Some (x, s) => Some (x, w <| timers := s |>)
  | None => None
  end.

Definition set_event (ev : ptr) (f : event_t -> event_t) (w : world X) : option (world X) :=
  e ← events w !! ev; Some (w <| events := <[ev := f e]> (events w) |>).

(** [ngx_event_timer_init] *)
Definition event_timer_init (w : world X) : option (world X) :=
  '(_, w) ← in_tree (ngx_rbtree_init sentinel) w; Some w.

(** [ngx_event_del_timer] *)
Definition event_del_timer (ev : ptr) (w : world X) : option (world X) :=
  '(_, w) ← in_tree (ngx_rbtree_delete sentinel ev) w;
  set_event ev (fun e => e <| timer_set := false |>) w.

(** The end of [ngx_event_add_timer]: the key is set and the node inserted. *)
Definition event_arm (ev : ptr) (k : Z) (w : world X) : option (world X) :=
  '(_, w) ← in_tree (modify ev (fun n => n <| key := k |>)) w;
  '(_, w) ← in_tree (ngx_rbtree_insert sentinel (by_key timer_less) ev) w;
  set_event ev (fun e => e <| timer_set := true |>) w.

(** [ngx_event_add_timer] *)
Definition event_add_timer (ev : ptr) (timer : Z) (w : world X) : option (world X) :=
  let k := u64 (current_msec w + timer) in
  e ← events w !! ev;
  if timer_set e then
    n ← nodes (timers w) !! ev;
    let diff := i64 (k - key n) in
    if Z.abs diff <? NGX_TIMER_LAZY_DELAY then Some w
    else w ← event_del_timer ev w; event_arm ev k w
  else event_arm ev k w.

(** [ngx_event_find_timer] *)
Definition event_find_timer (w : world X) : option Z :=
  if root (timers w) =? sentinel then Some NGX_TIMER_INFINITE
  else
    '(node, _) ← rbtree_min sentinel (S (size (nodes (timers w)))) (root (timers w)) (timers w);
    n ← nodes (timers w) !! node;
    let timer := i64 (key n - current_msec w) in
    Some (u64 (if timer >? 0 then timer else 0)).

Section Handlers.
(** [ev->handler] *)
Variable handler : ptr -> world X -> option (world X).

(** [ngx_event_expire_timers] *)
Fixpoint expire_loop (fuel : nat) (w : world X) : option (world X) :=
  match fuel with
  | O => None
  | S fuel' =>
      if root (timers w) =? sentinel then Some w
      else
        '(node, _) ← rbtree_min sentinel (S (size (nodes (timers w)))) (root (timers w)) (timers w);
        n ← nodes (timers w) !! node;
        if i64 (key n - current_msec w) <=? 0 then
          '(_, w) ← in_tree (ngx_rbtree_delete sentinel node) w;
          w ← set_event node (fun e => e <| timer_set := false |>) w;
          w ← set_event node (fun e => e <| timedout := true |>) w;
          w ← handler node w;
          expire_loop fuel' w
        else Some w
  end.

(** With a pass for each node in memory. *)
Definition event_expire_timers (w : world X) : option (world X) :=
  expire_loop (S (size (nodes (timers w)))) w.
End Handlers.

(** ** What the timers stand for *)

(** The deadline of an event, counted from [base]: the window of the counter the
    program is in.  [deadlines] are the armed timers. *)
Record timers_ok (base now : Z) (deadlines : gmap Z Z) (w : world X) : Prop := mk_ok {
  ok_tree : exists sn rp t, holds sentinel (nodes (timers w)) sn rp [] t (timers w) /\
    red_black t /\ sorted (by_key timer_less) (inorder t) /\
    (forall p k, (p, k) ∈ inorder t <-> exists o, deadlines !! p = Some o /\ k = u64 (base + o));
  ok_range : forall p o, deadlines !! p = Some o -> 0 <= o < 2 ^ 63;
  ok_now : current_msec w = u64 (base + now) /\ 0 <= now < 2 ^ 62;
  ok_set : forall p e, events w !! p = Some e -> timer_set e = true <-> is_Some (deadlines !! p);
  ok_event : forall p, is_Some (deadlines !! p) -> is_Some (events w !! p);
  ok_node : forall p, is_Some (events w !! p) -> p <> sentinel /\ is_Some (nodes (timers w) !! p)
}.

(** [ngx_event_timer_init] establishes this, with no timer armed. *)
Lemma timer_init_ok base now w :
  is_Some (nodes (timers w) !! sentinel) -> current_msec w = u64 (base + now) -> 0 <= now < 2 ^ 62 ->
  (forall p e, events w !! p = Some e ->
     timer_set e = false /\ p <> sentinel /\ is_Some (nodes (timers w) !! p)) ->
  exists w', event_timer_init w = Some w' /\ timers_ok base now ∅ w' /\ events w' = events w.
Proof.
  destruct w as [[m r] evs cur ap]. cbn [timers nodes events current_msec app]. intros [sn Hs] Hc Hn He.
  assert (ngx_rbtree_init sentinel (mk_store m r) =
    Some (tt, mk_store (<[sentinel := sn <| color := 0 |>]> m) sentinel)) as E0.
  { unfold ngx_rbtree_init, rbt_black, set_color, modify, set_root, mbind, M_bind, bind. cbn [nodes].
    by rewrite Hs. }
  unfold event_timer_init, in_tree. cbn [timers]. rewrite E0. cbn.
  eexists. split; [reflexivity|]. split; [|done]. split; cbn.
  - exists (sn <| color := 0 |>), r, E. split; [|split; [|split]].
    + split; cbn; try done; [apply NoDup_singleton|by rewrite lookup_insert_eq].
    + split; [done|]. by exists 0%nat.
    + done.
    + intros p k. cbn [inorder]. split; [set_solver|]. intros (o & Ho & _). by rewrite lookup_empty in Ho.
  - intros p o Ho. by rewrite lookup_empty in Ho.
  - done.
  - intros p e Hp. rewrite lookup_empty. destruct (He p e Hp) as (-> & _). split; [done|]. by intros [? [=]].
  - intros p [o Ho]. by rewrite lookup_empty in Ho.
  - intros p [e Hp]. destruct (He p e Hp) as (_ & Hne & Hn'). split; [done|].
    by rewrite lookup_insert_ne by congruence.
Qed.

(** ** Deleting and arming *)

Section Ok.
Context {base now : Z}.

Lemma ok_ptrs T w sn rp t p :
  timers_ok base now T w -> holds sentinel (nodes (timers w)) sn rp [] t (timers w) ->
  (forall p k, (p, k) ∈ inorder t <-> exists o, T !! p = Some o /\ k = u64 (base + o)) ->
  p ∈ ptrs t <-> is_Some (T !! p).
Proof.
  intros _ _ Hin. rewrite elem_of_ptrs. split.
  - intros [k (o & Ho & _)%Hin]. by exists o.
  - intros [o Ho]. exists (u64 (base + o)). apply Hin. by exists o.
Qed.

(** The keys of the tree are in the window. *)
Lemma ok_window T w t :
  timers_ok base now T w ->
  (forall p k, (p, k) ∈ inorder t <-> exists o, T !! p = Some o /\ k = u64 (base + o)) ->
  Forall (fun k => in_window base k.2) (inorder t).
Proof.
  intros H Hin. apply Forall_forall. intros [p k] Hk. apply list_elem_of_In in Hk.
  apply Hin in Hk as (o & Ho & ->). exists o. split; [by eapply ok_range|done].
Qed.

Lemma inorder_unique m0 sn rp t s p k k' :
  holds sentinel m0 sn rp [] t s -> (p, k) ∈ inorder t -> (p, k') ∈ inorder t -> k = k'.
Proof.
  intros [H _ _ _ _ _] Hk Hk'. destruct (rep_key _ _ _ _ _ _ H Hk) as (n & Hn & <-).
  destruct (rep_key _ _ _ _ _ _ H Hk') as (n' & Hn' & <-). congruence.
Qed.

(** Taking an armed timer out of the tree and marking its event. *)
Lemma delete_ok T w ev o f :
  timers_ok base now T w -> T !! ev = Some o -> (forall e, timer_set (f e) = false) ->
  exists s' e, ngx_rbtree_delete sentinel ev (timers w) = Some (tt, s') /\ events w !! ev = Some e /\
    timers_ok base now (delete ev T) (mk_world s' (<[ev := f e]> (events w)) (current_msec w) (app w)).
Proof.
  intros H Hev Hf. pose proof H as [(sn & rp & t & Ht & Hrb & Hs & Hin) Hr Hn Hset Hevs Hnode].
  pose proof (ok_ptrs _ _ _ _ _ ev H Ht Hin) as Hp.
  destruct (Hevs ev) as [e He]; [by exists o|].
  destruct (rbtree_delete_runs sentinel _ _ _ _ ev _ (S (size (nodes (timers w)))) Ht Hrb)
    as ([] & s' & E & cn & sn' & rp' & t' & A & B & k & H' & Hrb' & Ho & Ho').
  { apply Hp. by exists o. }
  { pose proof (ptrs_size _ _ _ _ _ _ Ht). lia. }
  exists s', e. split; [exact E|]. split; [done|].
  assert (forall p k', (p, k') ∈ A ++ B <-> p <> ev /\ (p, k') ∈ inorder t) as HAB.
  { assert (NoDup (inorder t).*1) as Hnd.
    { rewrite inorder_ptrs. apply h_nodup in Ht. cbn [cptrs] in Ht. rewrite app_nil_r in Ht.
      by apply list.NoDup_cons in Ht as [_ ?]. }
    rewrite Ho in Hnd. rewrite fmap_app, fmap_cons in Hnd. cbn [fst] in Hnd.
    apply list.NoDup_app in Hnd as (_ & HA & [HB _]%list.NoDup_cons).
    intros p k'. rewrite Ho. rewrite !elem_of_app, elem_of_cons. split.
    - intros Hpk. split; [|tauto]. intros ->. destruct Hpk as [Hpk|Hpk];
        apply (list_elem_of_fmap_2 fst) in Hpk; cbn in Hpk; [apply HA in Hpk; set_solver|done].
    - intros [Hne [?|[[= -> _]|?]]]; tauto. }
  split; cbn [timers events current_msec].
  - exists sn', rp', t'. split; [by eapply holds_self|]. split; [done|]. rewrite Ho'.
    split; [by eapply sorted_delete; rewrite <- Ho|].
    intros p k'. rewrite HAB, Hin. split.
    + intros (Hne & o' & ? & ->). exists o'. by rewrite lookup_delete_ne.
    + intros (o' & [Hne Ho2]%lookup_delete_Some & ->). split; [done|]. by exists o'.
  - intros p o' [_ Ho2]%lookup_delete_Some. by eapply Hr.
  - done.
  - intros p e' Hpe. destruct (decide (p = ev)) as [->|].
    + rewrite lookup_insert_eq in Hpe. injection Hpe as <-. rewrite Hf, lookup_delete_eq.
      split; [done|]. by intros [? ?].
    + rewrite lookup_insert_ne in Hpe by done. rewrite lookup_delete_ne by done. by apply Hset.
  - intros p [o' [Hne Ho2]%lookup_delete_Some]. rewrite lookup_insert_ne by done. apply Hevs. by exists o'.
  - intros p Hpe. assert (is_Some (events w !! p)) as Hpe'.
    { destruct (decide (p = ev)) as [->|]; [by exists e|]. by rewrite lookup_insert_ne in Hpe. }
    destruct (Hnode p Hpe') as [Hps Hpn]. split; [done|]. eapply holds_dom; [exact H'|].
    destruct (decide (p = ev)) as [->|]; [by rewrite lookup_insert_eq|by rewrite lookup_insert_ne].
Qed.

Lemma arm_ok T w ev o :
  timers_ok base now T w -> T !! ev = None -> is_Some (events w !! ev) -> 0 <= o < 2 ^ 63 ->
  exists w', event_arm ev (u64 (base + o)) w = Some w' /\ timers_ok base now (<[ev := o]> T) w' /\
    app w' = app w /\ dom (events w') = dom (events w).
Proof.
  intros H Hev [e He] Hor. pose proof H as [(sn & rp & t & Ht & Hrb & Hs & Hin) Hr Hn Hset Hevs Hnode].
  destruct (Hnode ev) as [Hse [n Hne]]; [by exists e|].
  assert (ev ∉ sentinel :: ptrs t) as Hout.
  { apply not_elem_of_cons. split; [done|].
    rewrite (ok_ptrs _ _ _ _ _ ev H Ht Hin), Hev. by intros [? ?]. }
  set (k := u64 (base + o)). set (n' := n <| key := k |>).
  pose proof (holds_write sentinel _ _ _ _ _ _ ev n' Ht) as Ht'.
  cbn [cptrs] in Ht'. rewrite app_nil_r in Ht'. specialize (Ht' Hout).
  assert (order_on (by_key timer_less) ((ev, k) :: inorder t)) as Hord.
  { apply (timer_less_order base). constructor; [by exists o|by eapply ok_window]. }
  assert (key n' = k) as Hkey by (by destruct n).
  destruct (rbtree_insert_runs sentinel (by_key timer_less) _ _ _ _ ev n' _
    (S (size (<[ev := n']> (nodes (timers w))))) Ht' Hrb Hs)
    as ([] & s' & E & rp' & t' & H' & Hrb' & Hins).
  { by rewrite Hkey. }
  { cbn [nodes]. by rewrite lookup_insert_eq. }
  { done. }
  { pose proof (ptrs_size _ _ _ _ _ _ Ht'). cbn [nodes] in *. lia. }
  rewrite Hkey in Hins.
  exists (mk_world s' (<[ev := e <| timer_set := true |>]> (events w)) (current_msec w) (app w)).
  split.
  { unfold event_arm, in_tree, modify. rewrite Hne.
    replace ((timers w) <| nodes := <[ev := n']> (nodes (timers w)) |>) with
      (mk_store (<[ev := n']> (nodes (timers w))) (root (timers w))) by (by destruct (timers w)).
    destruct w as [s evs cur ap]. cbn in E, He |- *. unfold ngx_rbtree_insert. cbn [nodes]. rewrite E. cbn.
    unfold set_event. cbn. by rewrite He. }
  split; [|split; [done|]].
  2: { cbn [events]. apply dom_insert_lookup_L. by exists e. }
  assert (forall p k', (p, k') ∈ inorder t' <-> (p, k') = (ev, k) \/ (p, k') ∈ inorder t) as Hin'.
  { destruct Hins as (A & B & -> & -> & _). intros p k'. rewrite !elem_of_app, elem_of_cons. tauto. }
  split; cbn [timers events current_msec].
  - exists sn, rp', t'. split; [by eapply holds_self|]. split; [done|].
    split; [by eapply inserted_sorted|].
    intros p k'. rewrite Hin', Hin. split.
    + intros [[= -> ->]|(o' & Ho' & ->)]; [exists o; by rewrite lookup_insert_eq|].
      exists o'. split; [|done]. rewrite lookup_insert_ne; [done|congruence].
    + intros (o' & [[-> ->]|[Hne' Ho']]%lookup_insert_Some & ->); [by left|right; by exists o'].
  - intros p o' [[_ <-]|[_ Ho']]%lookup_insert_Some; [done|by eapply Hr].
  - done.
  - intros p e' Hpe. destruct (decide (p = ev)) as [->|].
    + rewrite lookup_insert_eq in Hpe. injection Hpe as <-. rewrite lookup_insert_eq.
      split; intros _; [by exists o|by destruct e].
    + rewrite lookup_insert_ne in Hpe by done. rewrite lookup_insert_ne by done. by apply Hset.
  - intros p Hp. destruct (decide (p = ev)) as [->|]; [by rewrite lookup_insert_eq|].
    rewrite lookup_insert_ne in Hp by done. rewrite lookup_insert_ne by done. by apply Hevs.
  - intros p Hpe. assert (is_Some (events w !! p)) as Hpe'.
    { destruct (decide (p = ev)) as [->|]; [by exists e|]. by rewrite lookup_insert_ne in Hpe. }
    destruct (Hnode p Hpe') as [Hps Hpn]. split; [done|]. eapply holds_dom; [exact H'|].
    destruct (decide (p = ev)) as [->|]; [by rewrite lookup_insert_eq|by rewrite lookup_insert_ne].
Qed.

Lemma del_timer_ok T w ev o :
  timers_ok base now T w -> T !! ev = Some o ->
  exists w', event_del_timer ev w = Some w' /\ timers_ok base now (delete ev T) w' /\
    app w' = app w /\ dom (events w') = dom (events w).
Proof.
  intros H Hev.
  destruct (delete_ok T w ev o (fun e => e <| timer_set := false |>) H Hev) as (s' & e & E & He & H').
  { by intros []. }
  destruct w as [s evs cur ap]. cbn in E, He. eexists. split.
  { unfold event_del_timer, in_tree. cbn [timers]. rewrite E. cbn.
    unfold set_event. cbn. rewrite He. reflexivity. }
  split; [exact H'|]. split; [done|]. cbn [events]. apply dom_insert_lookup_L. by exists e.
Qed.

(** The difference of two times of the window. *)
Lemma window_diff a b : - 2 ^ 63 <= a - b < 2 ^ 63 -> i64 (u64 (base + a) - u64 (base + b)) = a - b.
Proof.
  intros H. rewrite <- (i64_small (a - b)) by lia. apply i64_congr. unfold u64, wrap_u.
  rewrite Zminus_mod_idemp_l, Zminus_mod_idemp_r. f_equal. lia.
Qed.

(** [ngx_event_add_timer]: the deadline is [now + timer], unless the timer already
    has one that is less than 300 ms away. *)
Definition armed (T : gmap Z Z) (ev o : Z) : gmap Z Z :=
  match T !! ev with
  | Some o' => if Z.abs (o - o') <? NGX_TIMER_LAZY_DELAY then T else <[ev := o]> T
  | None => <[ev := o]> T
  end.

Lemma add_timer_ok T w ev d :
  timers_ok base now T w -> is_Some (events w !! ev) -> 0 <= d < 2 ^ 62 ->
  exists w', event_add_timer ev d w = Some w' /\ timers_ok base now (armed T ev (now + d)) w' /\
    app w' = app w /\ dom (events w') = dom (events w).
Proof.
  intros H Hev Hd. pose proof (ok_now _ _ _ _ H) as [Hnow Hnr].
  unfold event_add_timer. rewrite Hnow.
  assert (u64 (u64 (base + now) + d) = u64 (base + (now + d))) as ->.
  { unfold u64, wrap_u. rewrite Zplus_mod_idemp_l. f_equal. lia. }
  destruct Hev as [e He]. rewrite He. cbn [mbind option_bind].
  pose proof (ok_set _ _ _ _ H ev e He) as Hset. unfold armed.
  destruct (T !! ev) as [o|] eqn:Eo; rewrite ?Eo in Hset; cycle 1.
  { destruct (timer_set e) eqn:Es; [by destruct (proj1 Hset eq_refl)|].
    apply arm_ok; [done|done|by exists e|lia]. }
  rewrite (proj2 Hset) by (by exists o).
  pose proof (ok_range _ _ _ _ H ev o Eo) as Hor.
  destruct (ok_tree _ _ _ _ H) as (sn & rp & t & Ht & _ & _ & Hin).
  assert ((ev, u64 (base + o)) ∈ inorder t) as Hmem by (apply Hin; by exists o).
  destruct (rep_key sentinel _ _ _ _ _ (h_tree _ _ _ _ _ _ _ Ht) Hmem) as (n & Hn & Hk).
  rewrite Hn. cbn [mbind option_bind]. rewrite Hk, window_diff by lia.
  destruct (Z.abs (now + d - o) <? NGX_TIMER_LAZY_DELAY); [by exists w|].
  destruct (del_timer_ok T w ev o H Eo) as (w1 & E1 & H1 & Ha1 & Hd1). rewrite E1. cbn [mbind option_bind].
  destruct (arm_ok (delete ev T) w1 ev (now + d) H1) as (w2 & E2 & H2 & Ha2 & Hd2).
  { by rewrite lookup_delete_eq. }
  { apply elem_of_dom. rewrite Hd1. apply elem_of_dom. by exists e. }
  { lia. }
  exists w2. rewrite insert_delete_eq in H2. split_and!; [done|done|congruence|congruence].
Qed.
End Ok.

(** ** The earliest timer *)

(** A timer that no other one precedes. *)
Definition earliest (T : gmap Z Z) (p o : Z) : Prop :=
  T !! p = Some o /\ forall q o', T !! q = Some o' -> o <= o'.

Section Ok2.
Context {base now : Z}.

(** The tree is empty, or its least node is an earliest timer. *)
Lemma min_ok T w :
  timers_ok base now T w ->
  (root (timers w) = sentinel /\ T = ∅) \/
  (root (timers w) <> sentinel /\ exists p n o,
     rbtree_min sentinel (S (size (nodes (timers w)))) (root (timers w)) (timers w) =
       Some (p, timers w) /\
     nodes (timers w) !! p = Some n /\ key n = u64 (base + o) /\ earliest T p o).
Proof.
  intros H. pose proof H as [(sn & rp & t & Ht & Hrb & Hs & Hin) Hr _ _ _ _].
  assert (root (timers w) = tptr sentinel t) as Hroot by (by destruct Ht).
  destruct t as [|co q kq l r].
  - left. split; [done|]. apply map_empty. intros p. destruct (T !! p) as [o|] eqn:Eo; [|done].
    exfalso. apply (not_elem_of_nil (p, u64 (base + o))), Hin. by exists o.
  - right. split.
    { by eapply holds_root_ne. }
    destruct (rbtree_min_first sentinel _ _ _ _ _ Ht ltac:(done)) as (p & s' & E & -> & k & rest & Hino).
    assert ((p, k) ∈ inorder (RbTree.T co q kq l r)) as Hmem by (rewrite Hino; set_solver).
    destruct (rep_key sentinel _ _ _ _ _ (h_tree _ _ _ _ _ _ _ Ht) Hmem) as (n & Hn & Hk).
    pose proof Hmem as (o & Ho & Hko)%Hin.
    exists p, n, o. split; [exact E|]. split; [done|]. split; [congruence|]. split; [done|].
    intros q' o' Ho'. destruct (decide (q' = p)) as [->|Hne]; [rewrite Ho in Ho'; injection Ho' as ->; lia|].
    assert ((q', u64 (base + o')) ∈ inorder (RbTree.T co q kq l r)) as Hmem' by (apply Hin; by exists o').
    rewrite Hino in Hs, Hmem'. apply elem_of_cons in Hmem' as [[= -> _]|Hmem']; [done|].
    pose proof (sorted_cross _ [(p, k)] rest (p, k) _ Hs ltac:(set_solver) Hmem') as Hlt.
    unfold by_key in Hlt. cbn [snd] in Hlt. rewrite Hko, timer_less_window in Hlt by (by eapply Hr). lia.
Qed.

Definition find_spec (T : gmap Z Z) (r : Z) : Prop :=
  (T = ∅ /\ r = NGX_TIMER_INFINITE) \/
  (exists p o, earliest T p o /\ r = Z.max 0 (o - now)).

Lemma find_timer_ok T w :
  timers_ok base now T w -> exists r, event_find_timer w = Some r /\ find_spec T r.
Proof.
  intros H. unfold event_find_timer. destruct (ok_now _ _ _ _ H) as [Hnow Hnr].
  destruct (min_ok T w H) as [[-> HT]|(Hne & p & n & o & E & Hn & Hk & He)].
  - rewrite Z.eqb_refl. eexists. split; [done|]. by left.
  - rewrite (proj2 (Z.eqb_neq _ _) Hne), E. cbn [mbind option_bind]. rewrite Hn. cbn [mbind option_bind].
    pose proof (ok_range _ _ _ _ H p o (proj1 He)) as Hor.
    rewrite Hk, Hnow, window_diff by lia. eexists. split; [done|]. right. exists p, o. split; [done|].
    destruct (Z.gtb_spec (o - now) 0); rewrite u64_small; lia.
Qed.
End Ok2.

(** ** Programs that use timers *)

Inductive timer_op : Type :=
  | Add (ev : ptr) (timer : Z)
  | Del (ev : ptr)
  | Tick (ms : Z).

Definition run_op (op : timer_op) (w : world X) : option (world X) :=
  match op with
  | Add ev timer => event_add_timer ev timer w
  | Del ev => event_del_timer ev w
  | Tick ms => Some (w <| current_msec := u64 (current_msec w + ms) |>)
  end.

Fixpoint run_ops (ops : list timer_op) (w : world X) : option (world X) :=
  match ops with
  | [] => Some w
  | op :: ops => w ← run_op op w; run_ops ops w
  end.

(** What they mean on deadlines: [D] are the events there are.  A timer is
    deleted only when it is set; delays and the time that passes stay below
    [2^62] milliseconds. *)
Definition abs_op (D : gset Z) (op : timer_op) (st : Z * gmap Z Z) : option (Z * gmap Z Z) :=
  let '(now, dl) := st in
  match op with
  | Add ev d => if bool_decide (ev ∈ D) && (0 <=? d) && (d <? 2 ^ 62)
                then Some (now, armed dl ev (now + d)) else None
  | Del ev => match dl !! ev with Some _ => Some (now, delete ev dl) | None => None end
  | Tick d => if (0 <=? d) && (now + d <? 2 ^ 62) then Some (now + d, dl) else None
  end.

Fixpoint abs_ops (D : gset Z) (ops : list timer_op) (st : Z * gmap Z Z) : option (Z * gmap Z Z) :=
  match ops with
  | [] => Some st
  | op :: ops => st ← abs_op D op st; abs_ops D ops st
  end.

Lemma run_op_ok base now T w op now' T' :
  timers_ok base now T w -> abs_op (dom (events w)) op (now, T) = Some (now', T') ->
  exists w', run_op op w = Some w' /\ timers_ok base now' T' w' /\ dom (events w') = dom (events w).
Proof.
  intros H. destruct op as [ev d|ev|d]; cbn [abs_op run_op].
  - destruct (bool_decide_reflect (ev ∈ dom (events w))) as [Hev|]; [|done]. cbn [andb].
    destruct (Z.leb_spec 0 d); [|done]. destruct (Z.ltb_spec d (2 ^ 62)); [|done]. intros [= <- <-].
    apply elem_of_dom in Hev.
    destruct (add_timer_ok T w ev d H Hev) as (w' & E & H' & _ & Hd); [lia|]. by exists w'.
  - destruct (T !! ev) as [o|] eqn:Eo; [|done]. intros [= <- <-].
    destruct (del_timer_ok T w ev o H Eo) as (w' & E & H' & _ & Hd). by exists w'.
  - destruct (Z.leb_spec 0 d); [|done]. destruct (Z.ltb_spec (now + d) (2 ^ 62)); [|done].
    intros [= <- <-]. eexists. split; [done|]. destruct w as [s evs cur ap]. split; [|done].
    destruct H as [K1 K2 [K3 K3'] K4 K5 K6]. cbn in *. split; try done. cbn. split; [|lia].
    rewrite K3. unfold u64, wrap_u. rewrite Zplus_mod_idemp_l. f_equal. lia.
Qed.

(** C20: the timer tree implements a map from events to deadlines.  Any sequence of
    [ngx_event_add_timer], [ngx_event_del_timer] and passing of time that respects
    the limits runs without undefined behaviour; the tree then holds exactly the
    deadlines of the abstract map (a new deadline less than 300 ms from the old
    one being ignored), and [ngx_event_find_timer] gives the time to the earliest
    of them, or [NGX_TIMER_INFINITE] when there is none. *)
Theorem timers_refine base now T w ops now' T' :
  timers_ok base now T w -> abs_ops (dom (events w)) ops (now, T) = Some (now', T') ->
  exists w' r, run_ops ops w = Some w' /\ timers_ok base now' T' w' /\
    event_find_timer w' = Some r /\ find_spec (now := now') T' r.
Proof.
  revert now T w. induction ops as [|op ops IH]; intros now T w H; cbn [abs_ops run_ops].
  - intros [= <- <-]. destruct (find_timer_ok T w H) as (r & Er & Hr). by exists w, r.
  - destruct (abs_op (dom (events w)) op (now, T)) as [[now1 T1]|] eqn:E1; [|done].
    cbn [mbind option_bind]. intros E.
    destruct (run_op_ok _ _ _ _ _ _ _ H E1) as (w1 & -> & H1 & Hd). rewrite <- Hd in E.
    by apply (IH now1 T1 w1).
Qed.

(** ** Expiring timers *)

Section Expire.
Context {base now : Z}.
Variable handler : ptr -> world X -> option (world X).

(** The timers whose time has come. *)
Definition due (T : gmap Z Z) : gmap Z Z := filter (fun po => po.2 <= now) T.

(** One pass of the loop before the handler is called. *)
Lemma expire_pass T w fuel :
  timers_ok base now T w ->
  (due T = ∅ /\ expire_loop handler (S fuel) w = Some w) \/
  (exists p o w1, earliest T p o /\ o <= now /\ timers_ok base now (delete p T) w1 /\
     app w1 = app w /\ dom (events w1) = dom (events w) /\
     (exists e, events w1 !! p = Some e /\ timedout e = true) /\
     expire_loop handler (S fuel) w = (w2 ← handler p w1; expire_loop handler fuel w2)).
Proof.
  intros H. cbn [expire_loop]. destruct (ok_now _ _ _ _ H) as [Hnow Hnr].
  destruct (min_ok T w H) as [[-> ->]|(Hne & p & n & o & E & Hn & Hk & He)].
  { left. rewrite Z.eqb_refl. split; [|done]. apply map_filter_empty. }
  rewrite (proj2 (Z.eqb_neq _ _) Hne), E. cbn [mbind option_bind]. rewrite Hn. cbn [mbind option_bind].
  pose proof (ok_range _ _ _ _ H p o (proj1 He)) as Hor.
  rewrite Hk, Hnow, window_diff by lia. destruct (Z.leb_spec (o - now) 0) as [Hle|Hgt]; cycle 1.
  { left. split; [|done]. apply map_empty. intros q. unfold due. apply map_lookup_filter_None.
    right. intros o' Ho' Hle. cbn in Hle. pose proof (proj2 He q o' Ho'). lia. }
  right.
  destruct (delete_ok T w p o (fun e => e <| timer_set := false |> <| timedout := true |>) H (proj1 He))
    as (s' & e & Ed & Hev & H').
  { by intros []. }
  destruct w as [s evs cur ap]. cbn [timers events current_msec app] in *.
  eexists p, o, _. split; [done|]. split; [lia|]. split; [exact H'|]. cbn [app events timers].
  split; [done|]. split.
  { apply dom_insert_lookup_L. by exists e. }
  split.
  { eexists. rewrite lookup_insert_eq. split; [done|]. by destruct e. }
  unfold in_tree. cbn [timers]. rewrite Ed. cbn [mbind option_bind]. unfold set_event. cbn [events update].
  cbn. rewrite Hev. cbn [mbind option_bind]. cbn. rewrite lookup_insert_eq. cbn [mbind option_bind]. cbn.
  rewrite insert_insert_eq. done.
Qed.

(** What is asked of a handler: it keeps the timers consistent and arms none that
    is already due. *)
Definition handler_ok : Prop := forall p T w,
  timers_ok base now T w -> is_Some (events w !! p) ->
  exists w' T', handler p w = Some w' /\ timers_ok base now T' w' /\
    dom (events w') = dom (events w) /\ due T' ⊆ due T.

Lemma due_delete T p o : T !! p = Some o -> o <= now -> size (due T) = S (size (due (delete p T))).
Proof.
  intros Hp Ho. unfold due. rewrite map_filter_delete.
  assert (filter (fun po : Z * Z => po.2 <= now) T !! p = Some o) as Hf.
  { by apply map_lookup_filter_Some. }
  rewrite map_size_delete, Hf. assert (size (filter (fun po : Z * Z => po.2 <= now) T) <> 0%nat).
  { intros E%map_size_empty_inv. rewrite E in Hf. by rewrite lookup_empty in Hf. }
  lia.
Qed.

Lemma expire_loop_ok T w fuel :
  handler_ok -> timers_ok base now T w -> (size (due T) < fuel)%nat ->
  exists w' T', expire_loop handler fuel w = Some w' /\ timers_ok base now T' w' /\ due T' = ∅.
Proof.
  intros Hh. revert T w. induction fuel as [|fuel IH]; intros T w H Hf; [lia|].
  destruct (expire_pass T w fuel H) as [[Hd ->]|(p & o & w1 & [Ho _] & Hle & H1 & _ & _ & (e & He & _) & ->)].
  - by exists w, T.
  - destruct (Hh p _ _ H1) as (w2 & T2 & -> & H2 & _ & Hsub); [by exists e|]. cbn [mbind option_bind].
    apply (IH T2 w2 H2). rewrite (due_delete T p o Ho Hle) in Hf.
    apply map_subseteq_size in Hsub. lia.
Qed.

Lemma due_size T w : timers_ok base now T w -> (size (due T) <= size (nodes (timers w)))%nat.
Proof.
  intros H. trans (size T).
  - apply map_subseteq_size, map_filter_subseteq.
  - rewrite <- !size_dom. apply subseteq_size. intros p Hp. apply elem_of_dom in Hp.
    apply elem_of_dom. by apply (ok_node _ _ _ _ H p), (ok_event _ _ _ _ H).
Qed.

(** C33: [ngx_event_expire_timers] ends, whatever the handlers do to the timers, as
    long as they arm none that is already due; afterwards the tree is consistent
    and no timer is due any more. *)
Theorem expire_timers_terminates T w :
  handler_ok -> timers_ok base now T w ->
  exists w' T', event_expire_timers handler w = Some w' /\ timers_ok base now T' w' /\
    forall p o, T' !! p = Some o -> now < o.
Proof.
  intros Hh H. destruct (expire_loop_ok T w (S (size (nodes (timers w)))) Hh H) as (w' & T' & E & H' & Hd).
  { pose proof (due_size T w H). lia. }
  exists w', T'. split; [done|]. split; [done|]. intros p o Hp. destruct (Z.ltb_spec now o); [done|].
  assert (due T' !! p = Some o) as Hdp by (by apply map_lookup_filter_Some).
  rewrite Hd in Hdp. by rewrite lookup_empty in Hdp.
Qed.

(** The timers that are left. *)
Definition not_due (T : gmap Z Z) : gmap Z Z := filter (fun po => ~ po.2 <= now) T.

(** [l] are the due timers in the order of their deadlines. *)
Definition in_turn (T : gmap Z Z) (l : list ptr) : Prop :=
  NoDup l /\ (forall p, p ∈ l <-> is_Some (due T !! p)) /\
  forall i j p q o o', (i < j)%nat -> l !! i = Some p -> l !! j = Some q ->
    T !! p = Some o -> T !! q = Some o' -> o <= o'.

Lemma in_turn_cons T p o l :
  earliest T p o -> o <= now -> in_turn (delete p T) l -> in_turn T (p :: l).
Proof.
  intros [Hp He] Ho (Hnd & Hin & Hord).
  assert (forall q, q ∈ l -> q <> p /\ is_Some (due T !! q)) as Hl.
  { intros q [o' Hq]%Hin. apply map_lookup_filter_Some in Hq as [[Hne Hq]%lookup_delete_Some Hle].
    split; [done|]. exists o'. by apply map_lookup_filter_Some. }
  split_and!.
  - apply list.NoDup_cons. split; [|done]. intros Hp'. by destruct (Hl p Hp').
  - intros q. rewrite elem_of_cons. split.
    + intros [->|Hq]; [|by apply Hl]. exists o. by apply map_lookup_filter_Some.
    + intros [o' [Hq Hle]%map_lookup_filter_Some]. destruct (decide (q = p)) as [|Hne]; [by left|right].
      apply Hin. exists o'. apply map_lookup_filter_Some. by rewrite lookup_delete_ne.
  - intros [|i] [|j] a b oa ob Hij Ha Hb Hoa Hob; cbn in *; try lia.
    + injection Ha as <-. rewrite Hp in Hoa. injection Hoa as <-. by eapply He.
    + assert (a <> p /\ b <> p) as [Hap Hbp]
        by (split; apply Hl; by eapply list_elem_of_lookup_2).
      eapply (Hord i j a b); [lia|done|done|by rewrite lookup_delete_ne..].
Qed.

Lemma ok_app T w x : timers_ok base now T w -> timers_ok base now T (w <| app := x |>).
Proof. destruct w as [s evs cur ap]. intros [H1 H2 H3 H4 H5 H6]. by split. Qed.

Lemma expire_quiet f T w fuel :
  (forall p w, handler p w = Some (w <| app := f p (app w) |>)) ->
  timers_ok base now T w -> (size (due T) < fuel)%nat ->
  exists w' l, expire_loop handler fuel w = Some w' /\ timers_ok base now (not_due T) w' /\
    app w' = foldl (fun x p => f p x) (app w) l /\ in_turn T l.
Proof.
  intros Hh. revert T w. induction fuel as [|fuel IH]; intros T w H Hf; [lia|].
  destruct (expire_pass T w fuel H) as [[Hd ->]|(p & o & w1 & He & Hle & H1 & Happ & _ & _ & ->)].
  - exists w, []. split; [done|]. split.
    + replace (not_due T) with T; [done|]. symmetry. apply map_filter_id. intros q o Ho Hle. cbn in Hle.
      assert (due T !! q = Some o) as Hq by (by apply map_lookup_filter_Some). rewrite Hd in Hq.
      by rewrite lookup_empty in Hq.
    + split; [done|]. split_and!; [constructor| |set_solver].
      intros q. rewrite Hd, lookup_empty. split; [set_solver|by intros [? ?]].
  - rewrite Hh. cbn [mbind option_bind]. destruct (IH (delete p T) (w1 <| app := f p (app w1) |>))
      as (w' & l & E & H' & Ha & Hl).
    + by apply ok_app.
    + rewrite (due_delete T p o (proj1 He) Hle) in Hf. lia.
    + exists w', (p :: l). split; [done|]. split.
      * replace (not_due T) with (not_due (delete p T)); [done|]. unfold not_due.
        rewrite map_filter_delete_not; [done|]. intros o' Ho'. cbn.
        rewrite (proj1 He) in Ho'. injection Ho' as <-. lia.
      * split; [|by eapply in_turn_cons]. rewrite Ha. cbn [foldl]. rewrite <- Happ. by destruct w1.
Qed.

(** C32: when the handlers leave the timers alone, [ngx_event_expire_timers] calls
    the handler of every due timer exactly once, in the order of the deadlines,
    removes exactly these timers and keeps the others; also when the counter of
    milliseconds wraps around in between. *)
Theorem expire_timers_fires f T w :
  (forall p w, handler p w = Some (w <| app := f p (app w) |>)) -> timers_ok base now T w ->
  exists w' l, event_expire_timers handler w = Some w' /\ timers_ok base now (not_due T) w' /\
    app w' = foldl (fun x p => f p x) (app w) l /\ in_turn T l.
Proof.
  intros Hh H. apply expire_quiet; [done|done|]. pose proof (due_size T w H). lia.
Qed.
End Expire.

End Timer.

(** ** A worker with two events

    The counter of milliseconds is 3 below its wrap-around at [base].  The event
    at 16 is due at [base + 5], the event at 32 at [base + 600], and it is
    [base + 10]. *)
Definition demo_base : Z := 2 ^ 64 - 3.
Definition demo_deadlines : gmap Z Z := {[16 := 5; 32 := 600]}.
Definition demo_world {X} (x : X) : world X := mk_world
  (mk_store (list_to_map [(1, mk_node 0 0 0 0 0); (16, mk_node 2 1 32 0 0); (32, mk_node 597 1 1 16 1)])
     16)
  (list_to_map [(16, mk_event true false); (32, mk_event true false)]) 7 x.

Lemma demo_deadline p o : demo_deadlines !! p = Some o <-> (p, o) ∈ [(16, 5); (32, 600)].
Proof.
  change demo_deadlines with (list_to_map [(16, 5); (32, 600)] : gmap Z Z).
  rewrite <- elem_of_list_to_map; [done|]. apply (bool_decide_unpack _). by vm_compute.
Qed.

Lemma demo_ok {X} (x : X) : timers_ok 1 demo_base 10 demo_deadlines (demo_world x).
Proof.
  split.
  - exists (mk_node 0 0 0 0 0), 0, (T false 16 2 E (T true 32 597 E E)).
    split; [|split; [split; [done|by exists 1%nat]|split]].
    + split; try done. apply (bool_decide_unpack _). by vm_compute.
    + intros [|[|]] [|[|]] a b; cbn; try lia; intros _ [= <-] [= <-]; by vm_compute.
    + intros p k. cbn [inorder app]. setoid_rewrite demo_deadline. split.
      * intros [[= -> ->]|[[= -> ->]|[]%elem_of_nil]%elem_of_cons]%elem_of_cons.
        -- exists 5. split; [by left|by vm_compute].
        -- exists 600. split; [by right; left|by vm_compute].
      * intros (o & [[= -> ->]|[[= -> ->]|[]%elem_of_nil]%elem_of_cons]%elem_of_cons & ->).
        -- change (u64 (demo_base + 5)) with 2. by left.
        -- change (u64 (demo_base + 600)) with 597. by right; left.
  - intros p o Ho%demo_deadline. assert (o = 5 \/ o = 600) by set_solver. lia.
  - split; [by vm_compute|lia].
  - intros p e. cbn [events demo_world]. intros He. apply elem_of_list_to_map_2 in He.
    assert (e = mk_event true false /\ (p = 16 \/ p = 32)) as [-> Hp] by set_solver.
    split; [intros _|done]. by destruct Hp as [-> | ->]; vm_compute; eauto.
  - intros p [o Ho%demo_deadline]. assert (p = 16 \/ p = 32) as [-> | ->] by set_solver;
      vm_compute; eauto.
  - intros p [e He]. cbn [events demo_world] in He. apply elem_of_list_to_map_2 in He.
    assert (p = 16 \/ p = 32) as [-> | ->] by set_solver; (split; [done|]); vm_compute; eauto.
Qed.

Lemma timers_refine_witness :
  exists w' r, run_ops 1 [Tick 90; Add 16 300; Del 32; Add 32 1000; Add 32 1200] (demo_world tt) = Some w' /\
    timers_ok 1 demo_base 100 {[16 := 400; 32 := 1100]} w' /\
    event_find_timer 1 w' = Some r /\ find_spec (now := 100) {[16 := 400; 32 := 1100]} r.
Proof.
  apply (timers_refine 1 demo_base 10 demo_deadlines).
  - apply demo_ok.
  - vm_compute. reflexivity.
Defined.

(** A handler that arms its timer again, a second later. *)
Definition rearm (p : ptr) (w : world unit) : option (world unit) := event_add_timer 1 p 1000 w.

Lemma rearm_ok : handler_ok 1 (base := demo_base) (now := 10) rearm.
Proof.
  intros p T w H He. destruct (add_timer_ok 1 T w p 1000 H He) as (w' & E & H' & _ & Hd); [lia|].
  exists w', (armed T p (10 + 1000)). split_and!; [done|done|done|].
  assert (due (now := 10) (<[p := 10 + 1000]> T) ⊆ due (now := 10) T) as Hsub.
  { unfold due. rewrite map_filter_insert_False by (cbn; lia). rewrite map_filter_delete.
    apply delete_subseteq. }
  unfold armed. destruct (T !! p); [|done]. by destruct (_ <? _).
Qed.

Lemma expire_timers_terminates_witness :
  exists w' T', event_expire_timers 1 rearm (demo_world tt) = Some w' /\
    timers_ok 1 demo_base 10 T' w' /\ forall p o, T' !! p = Some o -> 10 < o.
Proof. exact (expire_timers_terminates 1 rearm demo_deadlines (demo_world tt) rearm_ok (demo_ok tt)). Defined.

Lemma expire_timers_fires_witness :
  exists w' l, event_expire_timers 1 (fun p w => Some (w <| app := app w ++ [p] |>)) (demo_world []) =
      Some w' /\
    timers_ok 1 demo_base 10 (not_due (now := 10) demo_deadlines) w' /\
    app w' = foldl (fun x p => x ++ [p]) [] l /\ in_turn (now := 10) demo_deadlines l.
Proof.
  exact (expire_timers_fires 1 (fun p w => Some (w <| app := app w ++ [p] |>)) (fun p x => x ++ [p])
    demo_deadlines (demo_world []) (fun p w => eq_refl) (demo_ok [])).
Defined.
End EventTimer.
