(* ===== verification/NgxHash.v ===== *)
(** * Hash tables

    [ngx_hash_init] and [ngx_hash_find] of [src/src/core/ngx_hash.c]: the read-only hash
    tables behind the lookup of headers, variables and server names.

    The elements of a table lie in one block of memory, a list of bytes here; a
    bucket is an offset into it.  The block starts at a multiple of
    [ngx_cacheline_size], so that offsets and addresses are aligned alike.
    [None] is an access outside the block or the array [test], or a division by
    zero. *)

From S2P Require Import Prelude NgxString HttpRequest HeaderLine.

Module NgxHash.
Import NgxString HeaderLine.

(** ** Memory *)

Definition mem_read (mem : list Z) (off n : nat) : option (list Z) :=
  if (off + n <=? length mem)%nat then Some (take n (drop off mem)) else None.

Definition mem_write (mem : list Z) (off : nat) (bs : list Z) : option (list Z) :=
  if (off + length bs <=? length mem)%nat
  then Some (list_inserts off bs mem) else None.

(** [ngx_align] *)
Definition ngx_align (d a : Z) : Z := Z.land (d + (a - 1)) (Z.lnot (a - 1)).

Definition sizeof_ptr : Z := 8.

(** ** Looking up *)

(** [ngx_hash_t], with the block its buckets point into *)
Record hash_t : Type := mk_hash { buckets : list (option nat); h_size : Z; block : list Z }.

(** [for (i = 0; i < len; i++) { if (name[i] != elt->name[i]) ... }] *)
Fixpoint same_name (mem : list Z) (off : nat) (name : list Z) : option bool :=
  match name with
  | [] => Some true
  | c :: name' =>
      d ← mem !! off;
      if c =? d then same_name mem (S off) name' else Some false
  end.

(** The walk over the elements of a bucket: [value], [len] and [name] are at the
    offsets 0, 8 and 10 of an element. *)
Fixpoint find_loop (fuel : nat) (mem : list Z) (off : nat) (name : list Z) : option Z :=
  match fuel with
  | O => None
  | S fuel' =>
      v ← mem_read mem off 8;
      let value := le_value v in
      if value =? 0 then Some 0
      else
        l ← mem_read mem (off + 8) 2;
        let len := le_value l in
        let next := Z.to_nat (ngx_align (Z.of_nat off + 10 + len) sizeof_ptr) in
        if negb (Z.of_nat (length name) =? len) then find_loop fuel' mem next name
        else
          same ← same_name mem (off + 10) name;
          if (same : bool) then Some value else find_loop fuel' mem next name
  end.

(** [ngx_hash_find]; 0 is [NULL].  There are fewer elements than bytes in the
    block. *)
Definition ngx_hash_find (h : hash_t) (key : Z) (name : list Z) : option Z :=
  if h_size h =? 0 then None
  else
    b ← buckets h !! Z.to_nat (key mod h_size h);
    match b with
    | None => Some 0
    | Some off => find_loop (S (length (block h))) (block h) off name
    end.

(** ** Building *)

(** [ngx_hash_key_t]; [hk_null] tells that [key.data] is [NULL]. *)
Record hkey_t : Type := mk_hkey { hk_key : list Z; hk_null : bool; key_hash : Z; hk_value : Z }.

(** [NGX_HASH_ELT_SIZE] *)
Definition elt_size (n : hkey_t) : Z :=
  sizeof_ptr + ngx_align (Z.of_nat (length (hk_key n)) + 2) sizeof_ptr.

(** [test[key] = (u_short) (test[key] + NGX_HASH_ELT_SIZE(&names[n]))] *)
Definition test_add (test : list Z) (size : Z) (n : hkey_t) : option (Z * list Z) :=
  let k := Z.to_nat (key_hash n mod size) in
  t ← test !! k;
  let t := u16 (t + elt_size n) in
  Some (t, <[k := t]> test).

(** The sizing pass for one size: whether all buckets fit. *)
Fixpoint size_fits (test : list Z) (size bucket_size : Z) (names : list hkey_t) : option bool :=
  match names with
  | [] => Some true
  | n :: names' =>
      if hk_null n then size_fits test size bucket_size names'
      else
        '(t, test) ← test_add test size n;
        if t >? u16 bucket_size then Some false else size_fits test size bucket_size names'
  end.

(** [for (size = start; size <= hinit->max_size; size++)]; the result is [size]
    behind the loop. *)
Fixpoint search_size (fuel : nat) (size max_size bucket_size : Z) (names : list hkey_t) : option Z :=
  match fuel with
  | O => None
  | S fuel' =>
      if size >? max_size then Some size
      else
        (* ngx_memzero(test, size * sizeof(u_short)) *)
        fits ← size_fits (replicate (Z.to_nat max_size) 0) size bucket_size names;
        if (fits : bool) then Some size else search_size fuel' (size + 1) max_size bucket_size names
  end.

Definition start_size (max_size bucket_size nelts : Z) : option Z :=
  if bucket_size / 16 =? 0 then None
  else
    let start := nelts / (bucket_size / 16) in
    let start := if start =? 0 then 1 else start in
    Some (if (max_size >? 10000) && negb (nelts =? 0) && (max_size / nelts <? 100)
          then max_size - 1000 else start).

(** [for (i = 0; i < size; i++) { test[i] = x; }] on an array of [max_size]
    elements *)
Definition fill (max_size size x : Z) : option (list Z) :=
  if size <=? max_size then Some (replicate (Z.to_nat size) x ++ replicate (Z.to_nat (max_size - size)) 0)
  else None.

(** The lengths of the buckets. *)
Fixpoint measure (test : list Z) (size : Z) (names : list hkey_t) : option (list Z) :=
  match names with
  | [] => Some test
  | n :: names' =>
      if hk_null n then measure test size names'
      else '(_, test) ← test_add test size n; measure test size names'
  end.

Section Init.
Variable cacheline : Z.
(** [ngx_palloc]: memory of a length, whatever its content *)
Variable fresh : nat -> list Z.

(** The loop that aligns the lengths of the buckets; the size of
    a pointer alone, the length of an empty bucket, stays. *)
Definition bucket_len (t : Z) : Z :=
  if t =? sizeof_ptr then t else u16 (ngx_align t cacheline).

(** [buckets[i] = elts; elts += test[i];] *)
Fixpoint place (lens : list Z) (off : nat) : list (option nat) :=
  match lens with
  | [] => []
  | t :: lens' =>
      if t =? sizeof_ptr then None :: place lens' off
      else Some off :: place lens' (off + Z.to_nat t)
  end.

(** The loop that writes the elements. *)
Fixpoint store_elts (mem : list Z) (bkts : list (option nat)) (test : list Z) (size : Z) (names : list hkey_t)
    : option (list Z * list Z) :=
  match names with
  | [] => Some (mem, test)
  | n :: names' =>
      if hk_null n then store_elts mem bkts test size names'
      else
        let k := Z.to_nat (key_hash n mod size) in
        b ← bkts !! k; off ← b; t ← test !! k;
        let elt := (off + Z.to_nat t)%nat in
        mem ← mem_write mem elt (le_bytes 8 (hk_value n));
        mem ← mem_write mem (elt + 8) (le_bytes 2 (u16 (Z.of_nat (length (hk_key n)))));
        mem ← mem_write mem (elt + 10) (ngx_strlow (hk_key n));
        '(_, test) ← test_add test size n;
        store_elts mem bkts test size names'
  end.

(** The loop that writes the terminating [NULL] values. *)
Fixpoint terminate (mem : list Z) (bkts : list (option nat)) (test : list Z) : option (list Z) :=
  match bkts, test with
  | [], _ => Some mem
  | None :: bkts', _ :: test' => terminate mem bkts' test'
  | Some off :: bkts', t :: test' =>
      mem ← mem_write mem (off + Z.to_nat t) (le_bytes 8 0);
      terminate mem bkts' test'
  | _, [] => None
  end.

(** From the label [found] on; the flags tell whether the allocations of the
    buckets and of the elements succeed. *)
Definition build (mem_buckets mem_elts : bool) (max_size size : Z) (names : list hkey_t)
    : option (Z * option hash_t) :=
  test ← fill max_size size sizeof_ptr;
  test ← measure test size names;
  let lens := bucket_len <$> take (Z.to_nat size) test in
  let len := zsum (List.filter (fun t => negb (t =? sizeof_ptr)) lens) in
  if negb mem_buckets then Some (NGX_ERROR, None)
  else if negb mem_elts then Some (NGX_ERROR, None)
  else
    let bkts := place lens 0 in
    test ← fill max_size size 0;
    '(mem, test) ← store_elts (fresh (Z.to_nat len)) bkts test size names;
    mem ← terminate mem bkts test;
    Some (NGX_OK, Some (mk_hash bkts size mem)).

(** [ngx_hash_init]; [mem_test] tells whether [test] is allocated. *)
Definition ngx_hash_init (mem_test mem_buckets mem_elts : bool) (max_size bucket_size : Z)
    (names : list hkey_t) : option (Z * option hash_t) :=
  if existsb (fun n => bucket_size <? elt_size n + sizeof_ptr) names then Some (NGX_ERROR, None)
  else if negb mem_test then Some (NGX_ERROR, None)
  else
    let bucket_size := u64 (bucket_size - sizeof_ptr) in
    start ← start_size max_size bucket_size (Z.of_nat (length names));
    size ← search_size (Z.to_nat (max_size - start) + 2) start max_size bucket_size names;
    build mem_buckets mem_elts max_size size names.
End Init.
(** ** Reading back what was written *)

Lemma rd_lookup mem o n l :
  mem_read mem o n = Some l <-> length l = n /\ (o + n <= length mem)%nat /\ forall i, (i < n)%nat -> l !! i = mem !! (o + i)%nat.
Proof.
  unfold mem_read. destruct (Nat.leb_spec (o + n) (length mem)) as [Hle|Hlt]; [|split; [done|intros (_ & ? & _); lia]].
  split.
  - intros [= <-]. rewrite length_take, length_drop. split; [lia|]. split; [done|].
    intros i Hi. by rewrite lookup_take_lt, lookup_drop.
  - intros (Hl & _ & Hi). f_equal. apply list_eq_same_length with n; [done| |].
    { rewrite length_take, length_drop. lia. }
    intros i x y Hn. rewrite lookup_take_lt, lookup_drop by lia. rewrite Hi by lia. congruence.
Qed.

Lemma wr_ok mem o bs :
  (o + length bs <= length mem)%nat -> mem_write mem o bs = Some (list_inserts o bs mem).
Proof. intros H. unfold mem_write. by rewrite (proj2 (Nat.leb_le _ _) H). Qed.

Lemma rd_wr_same mem o bs n :
  n = length bs -> (o + n <= length mem)%nat -> mem_read (list_inserts o bs mem) o n = Some bs.
Proof.
  intros -> H. apply rd_lookup. rewrite length_inserts. split; [done|]. split; [done|].
  intros i Hi. rewrite list_lookup_inserts by lia. f_equal. lia.
Qed.

Lemma rd_wr_other mem o bs o' n :
  (o' + n <= o \/ o + length bs <= o')%nat -> mem_read (list_inserts o bs mem) o' n = mem_read mem o' n.
Proof.
  intros H. unfold mem_read. rewrite length_inserts. case_match; [|done]. f_equal.
  apply list_eq. intros i. destruct (decide (i < n)%nat) as [Hi|Hi].
  - rewrite !lookup_take_lt, !lookup_drop by lia. destruct H.
    + by rewrite list_lookup_inserts_lt by lia.
    + by rewrite list_lookup_inserts_ge by lia.
  - by rewrite !lookup_take_ge by lia.
Qed.

(** ** Elements in memory *)

Lemma align8 x : 0 <= x -> x <= ngx_align x 8 < x + 8 /\ ngx_align x 8 mod 8 = 0.
Proof.
  intros Hx. unfold ngx_align. change (Z.lnot (8 - 1)) with (Z.lnot (Z.ones 3)).
  rewrite <- Z.ldiff_land, Z.ldiff_ones_r, Z.shiftr_div_pow2, Z.shiftl_mul_pow2 by lia.
  change (2 ^ 3) with 8. Z.to_euclidean_division_equations; lia.
Qed.

Definition esize (n : hkey_t) : nat := Z.to_nat (elt_size n).
Definition sizes (ns : list hkey_t) : nat := list_sum (esize <$> ns).

Lemma elt_size_spec n :
  elt_size n = Z.of_nat (esize n) /\ (esize n mod 8 = 0)%nat /\
  (length (hk_key n) + 10 <= esize n)%nat.
Proof.
  unfold esize, elt_size, sizeof_ptr. destruct (align8 (Z.of_nat (length (hk_key n)) + 2) ltac:(lia)) as [[? ?] ?].
  rewrite Z2Nat.id by lia. split; [done|]. split; [|lia].
  apply Nat2Z.inj. rewrite Nat2Z.inj_mod, Z2Nat.id by lia. Z.to_euclidean_division_equations; lia.
Qed.

Definition elt_at (mem : list Z) (off : nat) (n : hkey_t) : Prop :=
  mem_read mem off 8 = Some (le_bytes 8 (hk_value n)) /\
  mem_read mem (off + 8) 2 = Some (le_bytes 2 (Z.of_nat (length (hk_key n)))) /\
  mem_read mem (off + 10) (length (hk_key n)) = Some (ngx_strlow (hk_key n)).

(** The elements of a bucket from an offset on. *)
Fixpoint elts_at (mem : list Z) (off : nat) (ns : list hkey_t) : Prop :=
  match ns with
  | [] => True
  | n :: ns' => elt_at mem off n /\ elts_at mem (off + esize n) ns'
  end.

Lemma elts_at_app mem off a b :
  elts_at mem off (a ++ b) <-> elts_at mem off a /\ elts_at mem (off + sizes a) b.
Proof.
  revert off. induction a as [|n a IH]; intros off; cbn.
  - unfold sizes. cbn. rewrite Nat.add_0_r. tauto.
  - rewrite IH. unfold sizes. cbn. rewrite Nat.add_assoc. tauto.
Qed.

Lemma sizes_cons n ns : sizes (n :: ns) = (esize n + sizes ns)%nat.
Proof. done. Qed.

Lemma sizes_app a b : sizes (a ++ b) = (sizes a + sizes b)%nat.
Proof. unfold sizes. by rewrite fmap_app, list_sum_app. Qed.

Lemma elts_at_frame mem mem' off ns :
  (forall o n, (off <= o)%nat -> (o + n <= off + sizes ns)%nat -> mem_read mem' o n = mem_read mem o n) ->
  elts_at mem off ns -> elts_at mem' off ns.
Proof.
  revert off. induction ns as [|n ns IH]; intros off Hf; [done|]. rewrite sizes_cons in Hf.
  destruct (elt_size_spec n) as (_ & _ & Hn).
  intros [(H1 & H2 & H3) Hr]. split; [|apply IH; [|done]; intros; apply Hf; lia].
  unfold elt_at. by rewrite !Hf by lia.
Qed.

Lemma length_sizes ns : (length ns <= sizes ns)%nat.
Proof.
  induction ns as [|n ns IH]; [done|]. rewrite sizes_cons. cbn.
  destruct (elt_size_spec n) as (_ & _ & Hn). lia.
Qed.

(** ** Finding *)

(** What a lookup means: the value of the first name that reads [name] in lower
    case, and 0 if there is none. *)
Fixpoint first_value (ns : list hkey_t) (name : list Z) : Z :=
  match ns with
  | [] => 0
  | n :: ns' =>
      if negb (hk_null n) && bool_decide (ngx_strlow (hk_key n) = name) then hk_value n
      else first_value ns' name
  end.

(** Names whose values can be stored: pointers that are not [NULL]. *)
Definition storable (n : hkey_t) : Prop := 0 < hk_value n < 2 ^ 64.

Lemma same_name_spec mem off name l :
  mem_read mem off (length name) = Some l -> same_name mem off name = Some (bool_decide (name = l)).
Proof.
  revert off l. induction name as [|c name IH]; intros off l Hr; apply rd_lookup in Hr; destruct Hr as (Hl & Ho & Hi).
  - by apply nil_length_inv in Hl as ->.
  - destruct l as [|d l]; [done|]. cbn in Hl, Ho. cbn [same_name].
    pose proof (Hi 0%nat ltac:(cbn; lia)) as H0. rewrite Nat.add_0_r in H0. rewrite <- H0.
    change ((d :: l) !! 0%nat) with (Some d). cbn [mbind option_bind].
    destruct (Z.eqb_spec c d) as [->|Hne].
    + rewrite (IH (S off) l).
      * f_equal. apply bool_decide_ext. naive_solver.
      * apply rd_lookup. split; [lia|]. split; [lia|]. intros i Hlt.
        specialize (Hi (S i) ltac:(cbn; lia)). rewrite Nat.add_succ_r in Hi. exact Hi.
    + by rewrite bool_decide_eq_false_2 by naive_solver.
Qed.

Lemma find_loop_spec mem name ns : forall fuel off,
  (length ns < fuel)%nat -> (off mod 8 = 0)%nat ->
  Forall storable ns -> Forall (fun n => Z.of_nat (length (hk_key n)) < 65536) ns ->
  Forall (fun n => hk_null n = false) ns ->
  elts_at mem off ns -> mem_read mem (off + sizes ns) 8 = Some (le_bytes 8 0) ->
  find_loop fuel mem off name = Some (first_value ns name).
Proof.
  induction ns as [|n ns IH]; intros fuel off Hfuel Hoff Hst Hlen Hnull Hat Hend;
    (destruct fuel as [|fuel]; [cbn in Hfuel; lia|]); cbn [find_loop].
  - unfold sizes in Hend. cbn in Hend. rewrite Nat.add_0_r in Hend. rewrite Hend. done.
  - destruct Hat as [(H1 & H2 & H3) Hat].
    apply Forall_cons_1 in Hst as [Hv Hst]. apply Forall_cons_1 in Hlen as [Hl Hlen].
    apply Forall_cons_1 in Hnull as [Hn Hnull]. unfold storable in Hv.
    rewrite H1. cbn [mbind option_bind]. rewrite le_value_bytes by (cbn; lia).
    destruct (Z.eqb_spec (hk_value n) 0) as [|_]; [lia|].
    rewrite H2. cbn [mbind option_bind]. rewrite le_value_bytes by (cbn; lia).
    cbn [first_value]. rewrite Hn. cbn [negb andb].
    destruct (elt_size_spec n) as (Hs & Hm & Hk).
    replace (Z.to_nat (ngx_align (Z.of_nat off + 10 + Z.of_nat (length (hk_key n))) sizeof_ptr))
      with (off + esize n)%nat.
    2:{ apply Nat2Z.inj. unfold esize, elt_size, sizeof_ptr in *.
        destruct (align8 (Z.of_nat (length (hk_key n)) + 2) ltac:(lia)) as [[? ?] ?].
        destruct (align8 (Z.of_nat off + 10 + Z.of_nat (length (hk_key n))) ltac:(lia)) as [[? ?] ?].
        apply (f_equal Z.of_nat) in Hoff. rewrite Nat2Z.inj_mod in Hoff.
        rewrite Nat2Z.inj_add, !Z2Nat.id by lia. Z.to_euclidean_division_equations; lia. }
    assert (find_loop fuel mem (off + esize n) name = Some (first_value ns name)) as Hrec.
    { apply IH; try done; [cbn in Hfuel; lia| |by rewrite <- Nat.add_assoc].
      rewrite Nat.Div0.add_mod, Hoff, Hm. done. }
    destruct (Z.eqb_spec (Z.of_nat (length name)) (Z.of_nat (length (hk_key n)))) as [He|He]; cbn [negb].
    + apply Nat2Z.inj in He. rewrite <- He in H3. rewrite (same_name_spec _ _ _ _ H3). cbn [mbind option_bind].
      case_bool_decide; case_bool_decide; done.
    + rewrite bool_decide_eq_false_2; [done|]. intros <-. apply He. unfold ngx_strlow. by rewrite length_fmap.
Qed.

(** ** Sizing *)

(** The names that go to the bucket [k] of [size] buckets. *)
Definition in_bucket (size : Z) (k : nat) (n : hkey_t) : bool :=
  negb (hk_null n) && (Z.to_nat (key_hash n mod size) =? k)%nat.

Definition bucket (size : Z) (k : nat) (ns : list hkey_t) : list hkey_t := List.filter (in_bucket size k) ns.

(** The bytes they take. *)
Definition load (size : Z) (ns : list hkey_t) (k : nat) : Z := Z.of_nat (sizes (bucket size k ns)).

(** The first [size] elements of the array [test] are the values of [f]. *)
Definition holds (size : Z) (test : list Z) (f : nat -> Z) : Prop :=
  forall k, (k < Z.to_nat size)%nat -> test !! k = Some (f k).

Section Sizing.
Context (size : Z) (Hsize : 0 < size).

Lemma slot_lt n : (Z.to_nat (key_hash n mod size) < Z.to_nat size)%nat.
Proof. pose proof (Z.mod_pos_bound (key_hash n) size Hsize). lia. Qed.

Lemma load_cons n ns k :
  load size (n :: ns) k = (if in_bucket size k n then elt_size n else 0) + load size ns k.
Proof.
  unfold load, bucket. cbn [List.filter]. destruct (elt_size_spec n) as (He & _ & _).
  destruct (in_bucket size k n); [rewrite sizes_cons|]; lia.
Qed.

Lemma test_add_spec test f n :
  holds size test f -> hk_null n = false -> (forall k, 0 <= f k) ->
  let k := Z.to_nat (key_hash n mod size) in
  f k + elt_size n < 65536 ->
  exists test', test_add test size n = Some (f k + elt_size n, test') /\ length test' = length test /\
    holds size test' (fun i => f i + if in_bucket size i n then elt_size n else 0).
Proof.
  intros Hf Hn Hpos k Hb. pose proof (slot_lt n) as Hk. fold k in Hk.
  assert (exists t, t = f k + elt_size n) as [t Ht] by eauto.
  destruct (elt_size_spec n) as (He & _ & _). specialize (Hpos k).
  exists (<[k := t]> test). unfold test_add. fold k. rewrite (Hf k Hk). cbn [mbind option_bind].
  unfold u16, wrap_u. rewrite Z.mod_small by lia. rewrite <- Ht. split; [done|]. rewrite length_insert. split; [done|].
  intros i Hi. unfold in_bucket. rewrite Hn. cbn [negb andb]. fold k.
  destruct (Nat.eqb_spec k i) as [<-|Hne].
  - rewrite list_lookup_insert_eq by (eapply lookup_lt_Some, Hf, Hk). by rewrite Ht.
  - rewrite list_lookup_insert_ne by done. rewrite Hf by done. f_equal. lia.
Qed.

Lemma test_holds_ext test f g :
  (forall k, f k = g k) -> holds size test f -> holds size test g.
Proof. intros He Hf k Hk. by rewrite <- He, Hf. Qed.

Lemma load_null n ns k : hk_null n = true -> load size (n :: ns) k = load size ns k.
Proof. intros Hn. unfold load, bucket, in_bucket. cbn [List.filter]. by rewrite Hn. Qed.

Lemma load_nonneg ns k : 0 <= load size ns k.
Proof. unfold load. lia. Qed.

Lemma load_slot n ns : hk_null n = false ->
  load size (n :: ns) (Z.to_nat (key_hash n mod size)) = elt_size n + load size ns (Z.to_nat (key_hash n mod size)).
Proof. intros Hn. rewrite load_cons. unfold in_bucket. by rewrite Hn, Nat.eqb_refl. Qed.

Lemma measure_spec ns : forall test f,
  holds size test f -> (forall k, 0 <= f k) -> (forall k, f k + load size ns k < 65536) ->
  exists test', measure test size ns = Some test' /\ length test' = length test /\
    holds size test' (fun k => f k + load size ns k).
Proof.
  induction ns as [|n ns IH]; intros test f Hf Hpos Hb; cbn [measure].
  - exists test. split; [done|]. split; [done|]. eapply test_holds_ext; [|done]. intros k. unfold load. cbn. lia.
  - destruct (hk_null n) eqn:Hn.
    + destruct (IH test f Hf Hpos) as (test' & Hm & Hl & Ht).
      { intros k. specialize (Hb k). by rewrite load_null in Hb. }
      exists test'. split; [done|]. split; [done|]. eapply test_holds_ext; [|done]. intros k. cbn. by rewrite load_null.
    + destruct (test_add_spec test f n Hf Hn Hpos) as (test1 & Ha & Hl1 & Ht1).
      { pose proof (Hb (Z.to_nat (key_hash n mod size))) as Hbk. rewrite load_slot in Hbk by done.
        pose proof (load_nonneg ns (Z.to_nat (key_hash n mod size))). lia. }
      rewrite Ha. cbn [mbind option_bind].
      edestruct (IH test1) as (test' & Hm & Hl & Ht); [exact Ht1| | |].
      { intros k. cbn. pose proof (Hpos k). destruct (elt_size_spec n) as (He & _ & _). case_match; lia. }
      { intros k. cbn. pose proof (Hb k) as Hbk. rewrite load_cons in Hbk. lia. }
      exists test'. split; [done|]. split; [lia|]. eapply test_holds_ext; [|done]. intros k. cbn. rewrite load_cons. lia.
Qed.

Lemma size_fits_spec B ns : forall test f,
  B < 32768 -> Forall (fun n => elt_size n <= B) ns ->
  holds size test f -> (forall k, 0 <= f k <= B) ->
  exists b, size_fits test size B ns = Some b /\
    (b = true <-> forall k, (k < Z.to_nat size)%nat -> f k + load size ns k <= B).
Proof.
  intros test f HB. revert test f. induction ns as [|n ns IH]; intros test f Hns Hf Hpos; cbn [size_fits].
  - exists true. split; [done|]. split; [|done]. intros _ k _. specialize (Hpos k). unfold load. cbn. lia.
  - apply Forall_cons_1 in Hns as [Hn Hns]. destruct (hk_null n) eqn:Hnull.
    + destruct (IH test f Hns Hf Hpos) as (b & Hb & Hiff). exists b. split; [done|]. rewrite Hiff.
      split; intros H k Hk; specialize (H k Hk); by rewrite load_null in *.
    + destruct (test_add_spec test f n Hf Hnull) as (test1 & Ha & Hl1 & Ht1).
      { intros k. by apply Hpos. } { specialize (Hpos (Z.to_nat (key_hash n mod size))). lia. }
      rewrite Ha. cbn [mbind option_bind]. pose proof (Hpos (Z.to_nat (key_hash n mod size))) as Hp.
      unfold u16, wrap_u. rewrite (Z.mod_small B) by lia.
      destruct (Z.gtb_spec (f (Z.to_nat (key_hash n mod size)) + elt_size n) B) as [Hgt|Hle].
      * exists false. split; [done|]. split; [done|]. intros H. specialize (H _ (slot_lt n)).
        rewrite load_slot in H by done. pose proof (load_nonneg ns (Z.to_nat (key_hash n mod size))). lia.
      * edestruct (IH test1) as (b & Hb & Hiff); [done|exact Ht1| |].
        { intros k. cbn. pose proof (Hpos k). destruct (elt_size_spec n) as (He & _ & _).
          unfold in_bucket. rewrite Hnull. cbn [negb andb]. destruct (Nat.eqb_spec (Z.to_nat (key_hash n mod size)) k); subst; lia. }
        exists b. split; [done|]. rewrite Hiff.
        split; intros H k Hk; specialize (H k Hk); cbn in *; rewrite load_cons in *; lia.
Qed.
End Sizing.

(** Every bucket of [size] buckets fits into [B] bytes. *)
Definition fits (B size : Z) (ns : list hkey_t) : Prop := forall k, load size ns k <= B.

Lemma load_beyond size ns k : 0 < size -> (Z.to_nat size <= k)%nat -> load size ns k = 0.
Proof.
  intros Hs Hk. unfold load, bucket. induction ns as [|n ns IH]; [done|]. cbn [List.filter].
  unfold in_bucket at 1. pose proof (slot_lt size Hs n).
  destruct (Nat.eqb_spec (Z.to_nat (key_hash n mod size)) k); [lia|]. by rewrite andb_false_r.
Qed.

Lemma search_size_spec B max_size ns fit : forall fuel size,
  0 < size <= fit -> fit <= max_size -> fits B fit ns -> (Z.to_nat (fit - size) < fuel)%nat ->
  0 <= B < 32768 -> Forall (fun n => elt_size n <= B) ns ->
  exists size', search_size fuel size max_size B ns = Some size' /\ 0 < size' <= max_size /\ fits B size' ns.
Proof.
  induction fuel as [|fuel IH]; intros size Hs Hm Hfit Hfuel HB Hns; [lia|]. cbn [search_size].
  destruct (Z.gtb_spec size max_size) as [|_]; [lia|].
  destruct (size_fits_spec size ltac:(lia) B ns (replicate (Z.to_nat max_size) 0) (fun _ => 0)) as (b & Hb & Hiff); [lia|done| |lia|].
  { intros k Hk. apply lookup_replicate. split; [done|lia]. }
  rewrite Hb. cbn [mbind option_bind]. destruct b.
  - exists size. split; [done|]. split; [lia|]. intros k.
    destruct (decide (k < Z.to_nat size)%nat) as [Hk|Hk]; [by apply Hiff|].
    rewrite load_beyond; lia.
  - assert (size <> fit); [|apply IH; try done; lia].
    intros ->. assert (false = true) as [=]. apply Hiff. intros k _. specialize (Hfit k). lia.
Qed.

(** ** Laying out the buckets *)

(** The bytes of the buckets that are not empty. *)
Fixpoint room (lens : list Z) : nat :=
  match lens with
  | [] => 0
  | t :: lens' => (if (t =? sizeof_ptr)%Z then 0 else Z.to_nat t) + room lens'
  end.

(** Where the bucket [k] starts. *)
Definition base (lens : list Z) (k : nat) : nat := room (take k lens).

Lemma room_app a b : room (a ++ b) = (room a + room b)%nat.
Proof. induction a as [|t a IH]; cbn; [done|]. lia. Qed.

Lemma room_sum lens :
  Forall (fun t => 0 <= t) lens ->
  Z.to_nat (zsum (List.filter (fun t => negb (t =? sizeof_ptr)) lens)) = room lens.
Proof.
  intros H. enough (0 <= zsum (List.filter (fun t => negb (t =? sizeof_ptr)) lens) /\
    Z.to_nat (zsum (List.filter (fun t => negb (t =? sizeof_ptr)) lens)) = room lens) by tauto.
  induction H as [|t lens Ht _ [IH1 IH2]]; [done|]. cbn [List.filter room].
  destruct (t =? sizeof_ptr); cbn [negb]; [done|]. rewrite zsum_cons. lia.
Qed.

Lemma base_next lens i t j :
  lens !! i = Some t -> t <> sizeof_ptr -> (i < j)%nat -> (base lens i + Z.to_nat t <= base lens j)%nat.
Proof.
  intros Hi Ht Hj. unfold base.
  replace (take j lens) with (take (S i) lens ++ drop (S i) (take j lens)).
  2:{ rewrite <- (take_drop (S i) (take j lens)) at 2. by rewrite take_take, Nat.min_l. }
  rewrite (take_S_r _ _ _ Hi), !room_app. cbn [room]. destruct (Z.eqb_spec t sizeof_ptr); [done|]. lia.
Qed.

Lemma base_room lens i t :
  lens !! i = Some t -> t <> sizeof_ptr -> (base lens i + Z.to_nat t <= room lens)%nat.
Proof.
  intros Hi Ht. pose proof (lookup_lt_Some _ _ _ Hi).
  pose proof (base_next lens i t (length lens) Hi Ht ltac:(lia)) as Hb.
  unfold base at 2 in Hb. by rewrite firstn_all in Hb.
Qed.

Lemma base_mod lens k : Forall (fun t => Z.to_nat t mod 8 = 0)%nat lens -> (base lens k mod 8 = 0)%nat.
Proof.
  unfold base. revert k. induction lens as [|t lens IH]; intros k H; [by rewrite take_nil|].
  apply Forall_cons_1 in H as [Ht H]. destruct k; [done|]. cbn [take room].
  rewrite Nat.Div0.add_mod, IH by done. destruct (t =? sizeof_ptr)%Z; [done|]. by rewrite Ht.
Qed.

Lemma place_lookup lens : forall off k,
  place lens off !! k = (fun t => if t =? sizeof_ptr then None else Some (off + base lens k)%nat) <$> lens !! k.
Proof.
  induction lens as [|t lens IH]; intros off k; [done|]. cbn [place].
  destruct k as [|k].
  - cbn. unfold base. cbn. rewrite Nat.add_0_r. by destruct (t =? sizeof_ptr).
  - unfold base. cbn [take room]. destruct (t =? sizeof_ptr) eqn:E; cbn; rewrite IH; [done|].
    destruct (lens !! k); cbn; [|done]. unfold base. by rewrite Nat.add_assoc.
Qed.

Lemma length_place lens off : length (place lens off) = length lens.
Proof. revert off. induction lens as [|t lens IH]; intros off; cbn; [done|]. case_match; cbn; by rewrite IH. Qed.

(** ** Writing the elements *)

Lemma write_elt mem e n :
  (e + esize n <= length mem)%nat -> Z.of_nat (length (hk_key n)) < 65536 ->
  exists m1 m2 m3, mem_write mem e (le_bytes 8 (hk_value n)) = Some m1 /\
    mem_write m1 (e + 8) (le_bytes 2 (u16 (Z.of_nat (length (hk_key n))))) = Some m2 /\
    mem_write m2 (e + 10) (ngx_strlow (hk_key n)) = Some m3 /\
    length m3 = length mem /\ elt_at m3 e n /\
    forall o m, (o + m <= e \/ e + esize n <= o)%nat -> mem_read m3 o m = mem_read mem o m.
Proof.
  intros He Hl. destruct (elt_size_spec n) as (_ & _ & Hk).
  assert (length (ngx_strlow (hk_key n)) = length (hk_key n)) as Hlow by (unfold ngx_strlow; apply length_fmap).
  rewrite (wr_ok mem) by (rewrite length_le_bytes; lia). eexists _, _, _. split; [done|].
  rewrite wr_ok by (rewrite length_le_bytes, length_inserts; lia). split; [done|].
  rewrite wr_ok by (rewrite !length_inserts; lia). split; [done|].
  rewrite !length_inserts. split; [done|]. unfold u16, wrap_u. rewrite Z.mod_small by lia. split.
  - split; [|split].
    + rewrite !rd_wr_other by (rewrite ?length_le_bytes; lia). apply rd_wr_same; rewrite ?length_le_bytes; lia.
    + rewrite rd_wr_other by (rewrite ?length_le_bytes; lia).
      apply rd_wr_same; rewrite ?length_inserts, ?length_le_bytes; lia.
    + apply rd_wr_same; rewrite ?length_inserts; lia.
  - intros o m Ho. by rewrite !rd_wr_other by (rewrite ?length_le_bytes; lia).
Qed.

Lemma bucket_app size k a b : bucket size k (a ++ b) = bucket size k a ++ bucket size k b.
Proof. unfold bucket. apply List.filter_app. Qed.

(** Two buckets that hold something do not overlap. *)
Lemma buckets_apart lens i t j t' (o n : nat) :
  lens !! i = Some t -> lens !! j = Some t' -> i <> j -> t <> sizeof_ptr -> t' <> sizeof_ptr ->
  (base lens i <= o)%nat -> (o + n <= base lens i + Z.to_nat t)%nat ->
  (o + n <= base lens j \/ base lens j + Z.to_nat t' <= o)%nat.
Proof.
  intros Hi Hj Hne Ht Ht' Ho Hn. destruct (decide (i < j)%nat) as [Hlt|Hlt].
  - pose proof (base_next lens i t j Hi Ht Hlt). lia.
  - pose proof (base_next lens j t' i Hj Ht' ltac:(lia)). lia.
Qed.

Section Storing.
Context (size : Z) (Hsize : 0 < size) (lens : list Z) (Hlens : length lens = Z.to_nat size).

(** An array of lengths has room for the names and the terminating [NULL]s. *)
Definition roomy (names : list hkey_t) : Prop :=
  forall k t, lens !! k = Some t ->
    (t = sizeof_ptr /\ bucket size k names = []) \/ (t <> sizeof_ptr /\ load size names k + 8 <= t).

Lemma roomy_prefix a b : roomy (a ++ b) -> roomy a.
Proof.
  intros H k t Hk. destruct (H k t Hk) as [[-> Hb]|[Ht Hb]].
  - left. split; [done|]. rewrite bucket_app in Hb. by apply app_eq_nil in Hb as [Hb _].
  - right. split; [done|]. unfold load in *. rewrite bucket_app, sizes_app in Hb. lia.
Qed.

(** The block holds the names [ns] in their buckets. *)
Definition stored (mem : list Z) (ns : list hkey_t) : Prop :=
  forall k t, lens !! k = Some t -> t <> sizeof_ptr -> elts_at mem (base lens k) (bucket size k ns).

Lemma stored_snoc mem mem' k t ns n :
  lens !! k = Some t -> t <> sizeof_ptr -> in_bucket size k n = true -> roomy (ns ++ [n]) ->
  stored mem ns -> elt_at mem' (base lens k + sizes (bucket size k ns)) n ->
  (forall o m, (o + m <= base lens k + sizes (bucket size k ns) \/
                base lens k + sizes (bucket size k ns) + esize n <= o)%nat -> mem_read mem' o m = mem_read mem o m) ->
  stored mem' (ns ++ [n]).
Proof.
  intros Hk Ht Hn Hr Hs He Hf i t' Hi Ht'. rewrite bucket_app.
  destruct (Hr k t Hk) as [[]|[_ Hlk]]; [done|]. destruct (roomy_prefix _ _ Hr i t' Hi) as [[]|[_ Hli]]; [done|].
  unfold load in Hlk, Hli. rewrite bucket_app, sizes_app in Hlk. unfold bucket at 2 in Hlk. cbn [List.filter] in Hlk.
  rewrite Hn, sizes_cons in Hlk.
  apply elts_at_app. destruct (decide (i = k)) as [->|Hne].
  - split.
    + eapply elts_at_frame; [|by eapply Hs]. intros o m Ho Hm. apply Hf. lia.
    + unfold bucket at 2. cbn [List.filter]. rewrite Hn. split; done.
  - split.
    + eapply elts_at_frame; [|by eapply Hs]. intros o m Ho Hm. apply Hf.
      destruct (buckets_apart lens i t' k t o m Hi Hk Hne Ht' Ht Ho ltac:(lia)); lia.
    + unfold bucket at 2. cbn [List.filter]. unfold in_bucket in *.
      destruct (hk_null n); [done|]. cbn [negb andb] in *. apply Nat.eqb_eq in Hn.
      destruct (Nat.eqb_spec (Z.to_nat (key_hash n mod size)) i); [congruence|done].
Qed.

Lemma stored_null mem ns n : hk_null n = true -> stored mem ns -> stored mem (ns ++ [n]).
Proof.
  intros Hn Hs k t Hk Ht. rewrite bucket_app. unfold bucket at 2, in_bucket. cbn [List.filter]. rewrite Hn. cbn.
  rewrite app_nil_r. by eapply Hs.
Qed.

Lemma load_snoc ns n k : load size (ns ++ [n]) k = load size ns k + if in_bucket size k n then elt_size n else 0.
Proof.
  unfold load. rewrite bucket_app, sizes_app. unfold bucket at 2. cbn [List.filter].
  destruct (elt_size_spec n) as (He & _ & _). destruct (in_bucket size k n).
  - rewrite sizes_cons. unfold sizes at 2. cbn. lia.
  - unfold sizes at 2. cbn. lia.
Qed.

Lemma store_spec todo : forall before mem test,
  roomy (before ++ todo) -> Forall (fun t => t < 65536) lens ->
  Forall (fun n => Z.of_nat (length (hk_key n)) < 65536) todo ->
  length mem = room lens -> holds size test (load size before) -> stored mem before ->
  exists mem' test', store_elts mem (place lens 0) test size todo = Some (mem', test') /\
    length mem' = room lens /\ length test' = length test /\
    holds size test' (load size (before ++ todo)) /\ stored mem' (before ++ todo).
Proof.
  induction todo as [|n todo IH]; intros before mem test Hr Hw Hl Hm Ht Hs; cbn [store_elts].
  - rewrite app_nil_r. by exists mem, test.
  - apply Forall_cons_1 in Hl as [Hn Hl].
    replace (before ++ n :: todo) with ((before ++ [n]) ++ todo) in * by (by rewrite <- app_assoc).
    destruct (hk_null n) eqn:Hnull.
    { apply IH; try done; [|by apply stored_null]. eapply test_holds_ext; [|done]. intros k. rewrite load_snoc.
      unfold in_bucket. rewrite Hnull. cbn. lia. }
    pose proof (slot_lt size Hsize n) as Hk. assert (exists k, k = Z.to_nat (key_hash n mod size)) as [k Ek] by eauto.
    rewrite <- Ek in *.
    assert (in_bucket size k n = true) as Hin by (unfold in_bucket; rewrite Hnull, <- Ek, Nat.eqb_refl; done).
    destruct (lookup_lt_is_Some_2 lens k ltac:(lia)) as [t Hkt].
    pose proof (roomy_prefix _ _ Hr) as Hr1. pose proof (load_snoc before n k) as Hsn. rewrite Hin in Hsn.
    destruct (Hr1 k t Hkt) as [[_ Hb]|[Htne Hload]].
    { exfalso. rewrite bucket_app in Hb. unfold bucket at 2 in Hb. cbn [List.filter] in Hb. rewrite Hin in Hb.
      by destruct (bucket size k before). }
    rewrite place_lookup, Hkt. cbn [fmap option_fmap option_map mbind option_bind].
    destruct (Z.eqb_spec t sizeof_ptr); [done|]. rewrite (Ht k Hk). cbn [mbind option_bind].
    pose proof (base_room lens k t Hkt Htne) as Hroom. destruct (elt_size_spec n) as (He & _ & _).
    destruct (write_elt mem (base lens k + sizes (bucket size k before)) n) as (m1 & m2 & m3 & W1 & W2 & W3 & Hlen & Hat & Hf).
    { unfold load in *. lia. } { done. }
    replace (0 + base lens k + Z.to_nat (load size before k))%nat with (base lens k + sizes (bucket size k before))%nat
      by (unfold load; lia).
    rewrite W1. cbn [mbind option_bind]. rewrite W2. cbn [mbind option_bind]. rewrite W3. cbn [mbind option_bind].
    destruct (test_add_spec size Hsize test (load size before) n Ht Hnull) as (test1 & Ha & Hl1 & Ht1).
    { intros i. apply load_nonneg. }
    { rewrite <- Ek. rewrite Forall_lookup in Hw. specialize (Hw k t Hkt). cbn in Hw. lia. }
    rewrite Ha. cbn [mbind option_bind]. rewrite <- Hl1. apply IH; try done; [lia| |].
    + eapply test_holds_ext; [|done]. intros i. cbn. by rewrite load_snoc.
    + by eapply stored_snoc.
Qed.
End Storing.

(** ** Terminating the buckets *)

Lemma terminate_spec lens : forall off test mem,
  (length lens <= length test)%nat -> (off + room lens <= length mem)%nat ->
  (forall k t x, lens !! k = Some t -> t <> sizeof_ptr -> test !! k = Some x -> 0 <= x /\ x + 8 <= t) ->
  exists mem', terminate mem (place lens off) test = Some mem' /\ length mem' = length mem /\
    (forall k t x, lens !! k = Some t -> t <> sizeof_ptr -> test !! k = Some x ->
       mem_read mem' (off + base lens k + Z.to_nat x) 8 = Some (le_bytes 8 0)) /\
    (forall o n, (forall k t x, lens !! k = Some t -> t <> sizeof_ptr -> test !! k = Some x ->
         (o + n <= off + base lens k + Z.to_nat x \/ off + base lens k + Z.to_nat x + 8 <= o)%nat) ->
       mem_read mem' o n = mem_read mem o n).
Proof.
  induction lens as [|t lens IH]; intros off test mem Hl Hm Hx; cbn [place terminate].
  { exists mem. split; [done|]. split; [done|]. split; [|done]. intros k t x Hk. done. }
  destruct test as [|x test]; [cbn in Hl; lia|]. cbn [length] in Hl. cbn [room] in Hm.
  assert (forall k t x, lens !! k = Some t -> t <> sizeof_ptr -> test !! k = Some x -> 0 <= x /\ x + 8 <= t) as Hx'
    by (intros k; apply (Hx (S k))).
  unfold base. destruct (Z.eqb_spec t sizeof_ptr) as [Ht|Ht].
  - destruct (IH off test mem ltac:(lia) ltac:(lia) Hx') as (mem' & E & Hlen & Hz & Hf). exists mem'.
    split; [done|]. split; [done|]. split.
    + intros [|k] t' x' Hk Hne Hk'; [cbn in Hk; congruence|]. cbn [take room].
      rewrite (proj2 (Z.eqb_eq _ _) Ht). by eapply Hz.
    + intros o n Hd. apply Hf. intros k t' x' Hk Hne Hk'. specialize (Hd (S k) t' x' Hk Hne Hk').
      cbn [take room] in Hd. by rewrite (proj2 (Z.eqb_eq _ _) Ht) in Hd.
  - destruct (Hx 0%nat t x eq_refl Ht eq_refl) as [Hx0 Hxt].
    cbn [terminate]. rewrite wr_ok by (rewrite length_le_bytes; lia). cbn [mbind option_bind].
    edestruct (IH (off + Z.to_nat t)%nat test) as (mem' & E & Hlen & Hz & Hf);
      [| |exact Hx'|rewrite E; exists mem'; split; [done|]]; [lia|rewrite length_inserts; lia|].
    rewrite Hlen, length_inserts. split; [done|]. split.
    + intros [|k] t' x' Hk Hne Hk'; cbn [take room].
      * cbn in Hk, Hk'. simplify_eq. rewrite Nat.add_0_r, Hf.
        -- apply rd_wr_same; rewrite ?length_le_bytes; lia.
        -- intros ? ? ? _ _ _. lia.
      * rewrite (proj2 (Z.eqb_neq _ _) Ht), Nat.add_assoc. by eapply Hz.
    + intros o n Hd. rewrite Hf.
      * apply rd_wr_other. rewrite length_le_bytes. specialize (Hd 0%nat t x eq_refl Ht eq_refl). cbn [take room] in Hd. lia.
      * intros k t' x' Hk Hne Hk'. specialize (Hd (S k) t' x' Hk Hne Hk').
        cbn [take room] in Hd. rewrite (proj2 (Z.eqb_neq _ _) Ht) in Hd. unfold base. lia.
Qed.

(** ** The table *)

Lemma fill_spec max_size size x : 0 < size <= max_size ->
  exists test, fill max_size size x = Some test /\ length test = Z.to_nat max_size /\ holds size test (fun _ => x).
Proof.
  intros Hs. unfold fill. rewrite (proj2 (Z.leb_le _ _)) by lia. eexists. split; [done|].
  rewrite length_app, !length_replicate. split; [lia|].
  intros k Hk. rewrite lookup_app_l by (rewrite length_replicate; lia). by apply lookup_replicate.
Qed.

(** The sizes of cache lines [ngx_cacheline_size] takes. *)
Definition cachelines : list Z := [32; 64; 128].

Lemma align_cacheline c x : c ∈ cachelines -> 0 <= x ->
  x <= ngx_align x c < x + 128 /\ ngx_align x c mod 8 = 0.
Proof.
  intros Hc Hx.
  assert (exists p, 5 <= p <= 7 /\ c = 2 ^ p) as (p & Hp & ->).
  { unfold cachelines in Hc. set_unfold in Hc. destruct Hc as [->|[->|[->|[]]]]; [exists 5|exists 6|exists 7]; done || lia. }
  unfold ngx_align. rewrite Z.sub_1_r, <- Z.ones_equiv.
  rewrite <- Z.ldiff_land, Z.ldiff_ones_r, Z.shiftr_div_pow2, Z.shiftl_mul_pow2 by lia.
  assert (p = 5 \/ p = 6 \/ p = 7) as [->|[->| ->]] by lia;
    match goal with |- context [Z.ones ?q] => let v := eval vm_compute in (Z.ones q) in change (Z.ones q) with v end;
    match goal with |- context [2 ^ ?q] => let v := eval vm_compute in (2 ^ q) in change (2 ^ q) with v end;
    Z.to_euclidean_division_equations; lia.
Qed.

Section Table.
Context (c : Z) (Hc : c ∈ cachelines) (fresh : nat -> list Z) (Hfresh : forall n, length (fresh n) = n).
Context (B : Z) (HB : 0 <= B <= 32760) (names : list hkey_t).
Context (Hnames : Forall (fun n => storable n /\ elt_size n <= B) names).

Lemma bucket_len_spec size k : fits B size names ->
  let t := bucket_len c (8 + load size names k) in
  0 <= t < 65536 /\ (Z.to_nat t mod 8 = 0)%nat /\
  ((t = sizeof_ptr /\ bucket size k names = []) \/ (t <> sizeof_ptr /\ load size names k + 8 <= t)).
Proof.
  intros Hf. specialize (Hf k). unfold bucket_len, sizeof_ptr, load in *.
  destruct (bucket size k names) as [|n ns]; [split; [done|]; split; [done|]; by left|].
  rewrite sizes_cons in *. destruct (elt_size_spec n) as (_ & _ & Hn).
  destruct (Z.eqb_spec (8 + Z.of_nat (esize n + sizes ns)) 8) as [|_]; [lia|].
  destruct (align_cacheline c (8 + Z.of_nat (esize n + sizes ns)) Hc ltac:(lia)) as [[H1 H2] H3].
  unfold u16, wrap_u. rewrite (Z.mod_small (ngx_align _ _)) by lia. cbn zeta. split; [lia|]. split; [|right; lia].
  apply Nat2Z.inj. rewrite Nat2Z.inj_mod, Z2Nat.id by lia. exact H3.
Qed.

Lemma bucket_props size k :
  Forall storable (bucket size k names) /\
  Forall (fun n => Z.of_nat (length (hk_key n)) < 65536) (bucket size k names) /\
  Forall (fun n => hk_null n = false) (bucket size k names).
Proof.
  pose proof (proj1 (List.Forall_forall _ _) Hnames) as Hin. rewrite !List.Forall_forall.
  split; [|split]; intros n Hn; unfold bucket in Hn; apply filter_In in Hn as [Hn Hb].
  - by apply Hin.
  - destruct (Hin n Hn) as [_ He]. destruct (elt_size_spec n) as (? & _ & ?). lia.
  - unfold in_bucket in Hb. by destruct (hk_null n).
Qed.

Lemma terminate_stored size lens mem test :
  length lens = Z.to_nat size -> (length lens <= length test)%nat -> roomy size lens names ->
  length mem = room lens -> holds size test (load size names) -> stored size lens mem names ->
  exists mem', terminate mem (place lens 0) test = Some mem' /\ length mem' = room lens /\
    stored size lens mem' names /\
    forall k t, lens !! k = Some t -> t <> sizeof_ptr ->
      mem_read mem' (base lens k + sizes (bucket size k names)) 8 = Some (le_bytes 8 0).
Proof.
  intros Hlens Hl Hroomy Hm Ht Hst.
  assert (forall k t x, lens !! k = Some t -> t <> sizeof_ptr -> test !! k = Some x ->
    x = load size names k /\ 0 <= x /\ x + 8 <= t) as Hend.
  { intros k t x Hk Hne Hx. pose proof (lookup_lt_Some _ _ _ Hk). rewrite Ht in Hx by lia. simplify_eq.
    destruct (Hroomy k t Hk) as [[]|[]]; [done|]. split; [done|]. split; [apply load_nonneg|done]. }
  destruct (terminate_spec lens 0 test mem) as (mem' & -> & Hm' & Hz & Hfr); [lia|lia| |].
  { intros k t x Hk Hne Hx. by eapply Hend. }
  exists mem'. split; [done|]. split; [lia|]. split.
  - intros k t Hk Hne. eapply elts_at_frame; [|by eapply Hst]. intros o n Ho Hn. apply Hfr.
    intros i t' x Hi Hne' Hx. cbn [Nat.add]. destruct (Hend i t' x Hi Hne' Hx) as (-> & Hx0 & Hxt).
    destruct (Hroomy k t Hk) as [[]|[_ Hld]]; [done|]. unfold load in Hld.
    destruct (decide (k = i)) as [->|Hki]; [unfold load; lia|].
    destruct (buckets_apart lens k t i t' o n Hk Hi Hki Hne Hne' Ho ltac:(lia)); lia.
  - intros k t Hk Hne. pose proof (lookup_lt_Some _ _ _ Hk).
    specialize (Hz k t _ Hk Hne (Ht k ltac:(lia))). unfold load in Hz. by rewrite Nat2Z.id in Hz.
Qed.

Lemma find_stored size lens mem key name :
  0 < size -> length lens = Z.to_nat size -> roomy size lens names ->
  Forall (fun t => Z.to_nat t mod 8 = 0)%nat lens -> length mem = room lens -> stored size lens mem names ->
  (forall k t, lens !! k = Some t -> t <> sizeof_ptr ->
     mem_read mem (base lens k + sizes (bucket size k names)) 8 = Some (le_bytes 8 0)) ->
  ngx_hash_find (mk_hash (place lens 0) size mem) key name =
    Some (first_value (bucket size (Z.to_nat (key mod size)) names) name).
Proof.
  intros Hs Hlens Hroomy Hmod8 Hm Hst Hz.
  unfold ngx_hash_find. cbn [h_size buckets block]. destruct (Z.eqb_spec size 0) as [|_]; [lia|].
  assert (exists k, k = Z.to_nat (key mod size)) as [k Ek] by eauto. rewrite <- Ek.
  pose proof (Z.mod_pos_bound key size ltac:(lia)) as Hmod.
  destruct (lookup_lt_is_Some_2 lens k ltac:(lia)) as [t Hk].
  rewrite place_lookup, Hk. cbn [fmap option_fmap option_map mbind option_bind].
  destruct (Hroomy k t Hk) as [[-> Hb]|[Hne Hld]]; [by rewrite Hb|].
  destruct (Z.eqb_spec t sizeof_ptr) as [|_]; [done|]. cbn [Nat.add].
  pose proof (base_room lens k t Hk Hne) as Hroom. destruct (bucket_props size k) as (Hp1 & Hp2 & Hp3).
  apply find_loop_spec; try done.
  - pose proof (length_sizes (bucket size k names)). unfold load in Hld. lia.
  - by apply base_mod.
  - by eapply Hst.
  - by eapply Hz.
Qed.

Lemma build_spec max_size size :
  0 < size <= max_size -> fits B size names ->
  exists h, build c fresh true true max_size size names = Some (NGX_OK, Some h) /\ h_size h = size /\
    forall key name, ngx_hash_find h key name =
      Some (first_value (bucket size (Z.to_nat (key mod size)) names) name).
Proof.
  intros Hs Hf. unfold build.
  destruct (fill_spec max_size size sizeof_ptr Hs) as (test0 & -> & Hl0 & Ht0). cbn [mbind option_bind].
  destruct (measure_spec size ltac:(lia) names test0 (fun _ => sizeof_ptr) Ht0) as (test1 & -> & Hl1 & Ht1).
  { done. } { intros k. specialize (Hf k). unfold sizeof_ptr. lia. }
  cbn [mbind option_bind negb].
  assert (exists lens, lens = bucket_len c <$> take (Z.to_nat size) test1) as [lens El] by eauto. rewrite <- El.
  assert (length lens = Z.to_nat size) as Hlens by (rewrite El, length_fmap, length_take; lia).
  assert (forall k t, lens !! k = Some t -> (k < Z.to_nat size)%nat /\ t = bucket_len c (8 + load size names k)) as Hget.
  { intros k t Hk. pose proof (lookup_lt_Some _ _ _ Hk). split; [lia|]. rewrite El, list_lookup_fmap in Hk.
    rewrite lookup_take_lt, Ht1 in Hk by lia. by injection Hk as <-. }
  assert (forall P, (forall k, P (bucket_len c (8 + load size names k))) -> Forall P lens) as Hall.
  { intros P HP. rewrite Forall_lookup. intros k t Hk. destruct (Hget k t Hk) as [_ ->]. apply HP. }
  assert (roomy size lens names) as Hroomy.
  { intros k t Hk. destruct (Hget k t Hk) as [_ ->]. by apply bucket_len_spec. }
  rewrite room_sum by (apply Hall; intros k; apply bucket_len_spec, Hf).
  destruct (fill_spec max_size size 0 Hs) as (test2 & -> & Hl2 & Ht2). cbn [mbind option_bind].
  destruct (store_spec size ltac:(lia) lens Hlens names [] (fresh (room lens)) test2)
    as (mem & test & -> & Hm & Hl & Ht & Hst); try done.
  { apply Hall. intros k. apply bucket_len_spec, Hf. }
  { eapply list.Forall_impl; [exact Hnames|]. intros n [_ He]. destruct (elt_size_spec n) as (? & _ & ?). cbn. lia. }
  cbn [mbind option_bind app] in *.
  destruct (terminate_stored size lens mem test) as (mem' & -> & Hm' & Hst' & Hz); try done; [lia|].
  cbn [mbind option_bind]. eexists. split; [done|]. split; [done|]. intros key name.
  apply find_stored; try done; [lia|]. apply Hall. intros i. apply bucket_len_spec, Hf.
Qed.
End Table.

Lemma hash_key_strlow key : ngx_hash_key (ngx_strlow key) = ngx_hash_key_lc key.
Proof.
  unfold ngx_hash_key, ngx_hash_key_lc, ngx_strlow. generalize 0.
  induction key as [|c key IH]; intros z; [done|]. apply IH.
Qed.

Lemma first_value_bucket size names name :
  Forall (fun n => key_hash n = ngx_hash_key_lc (hk_key n)) names ->
  first_value (bucket size (Z.to_nat (ngx_hash_key name mod size)) names) name = first_value names name.
Proof.
  induction 1 as [|n names Hn _ IH]; [done|]. unfold bucket in *. cbn [List.filter first_value].
  destruct (in_bucket _ _ n) eqn:Eb; cbn [first_value]; [by rewrite IH|].
  case_bool_decide as He; [|by rewrite andb_false_r]. unfold in_bucket in Eb.
  rewrite Hn, <- hash_key_strlow, He, Nat.eqb_refl, andb_true_r in Eb. by rewrite Eb.
Qed.

Lemma start_size_pos max_size B nelts start :
  0 <= B -> 0 <= nelts -> start_size max_size B nelts = Some start -> 0 < start.
Proof.
  unfold start_size. intros HB Hn. destruct (B / 16 =? 0) eqn:E; [done|]. intros [= <-].
  assert (0 <= nelts / (B / 16)) by (apply Z.div_pos; Z.to_euclidean_division_equations; lia).
  repeat case_match; lia.
Qed.

(** C30: [ngx_hash_init] and [ngx_hash_find] implement a map.  If some number of
    buckets the search may reach lets every bucket fit [bucket_size], the table
    is built without an access outside [test] or the block of elements, whatever
    the allocated memory held; and looking a name up by its hash walks its
    bucket inside the block and returns the value of the first key that is the
    name in lower case, [NULL] if there is none, whatever else shares the bucket. *)
Theorem hash_lookup c fresh max_size bucket_size start fit names :
  c ∈ cachelines -> (forall n, length (fresh n) = n) -> 8 <= bucket_size <= 32768 ->
  Forall (fun n => storable n /\ elt_size n + 8 <= bucket_size /\ key_hash n = ngx_hash_key_lc (hk_key n)) names ->
  start_size max_size (bucket_size - 8) (Z.of_nat (length names)) = Some start ->
  start <= fit <= max_size -> fits (bucket_size - 8) fit names ->
  exists h, ngx_hash_init c fresh true true true max_size bucket_size names = Some (NGX_OK, Some h) /\
    forall name, ngx_hash_find h (ngx_hash_key name) name = Some (first_value names name).
Proof.
  intros Hc Hfresh Hb Hn Hstart Hfit Hfits. unfold ngx_hash_init.
  assert (0 < start) by (eapply start_size_pos; [| |exact Hstart]; lia).
  destruct (existsb _ names) eqn:Ee.
  { exfalso. apply existsb_exists in Ee as (n & Hin & Hlt). rewrite List.Forall_forall in Hn.
    destruct (Hn n Hin) as (_ & Hs & _). unfold sizeof_ptr in Hlt. lia. }
  cbn [negb]. unfold sizeof_ptr at 1 2. rewrite u64_small by lia. rewrite Hstart. cbn [mbind option_bind].
  destruct (search_size_spec (bucket_size - 8) max_size names fit (Z.to_nat (max_size - start) + 2) start)
    as (size & -> & Hsz & Hsf); try done; try lia.
  { eapply list.Forall_impl; [exact Hn|]. intros n (_ & ? & _). cbn. lia. }
  cbn [mbind option_bind].
  destruct (build_spec c Hc fresh Hfresh (bucket_size - 8) ltac:(lia) names) with (max_size := max_size) (size := size)
    as (h & -> & _ & Hfind); [|done|done|].
  { eapply list.Forall_impl; [exact Hn|]. intros n (? & ? & _). split; [done|lia]. }
  exists h. split; [done|]. intros name. rewrite Hfind, first_value_bucket; [done|].
  eapply list.Forall_impl; [exact Hn|]. by intros n (_ & _ & ?).
Qed.

(** A header name with its value and its hash. *)
Definition header_key (s : list Z) (v : Z) : hkey_t := mk_hkey s false (ngx_hash_key_lc s) v.
Definition some_names : list hkey_t :=
  [header_key (bs "Host") 11; header_key (bs "Content-Length") 22; header_key (bs "Accept") 33; header_key (bs "host") 44;
   header_key (bs "x") 55].

Lemma hash_lookup_witness :
  exists h, ngx_hash_init 64 (fun n => replicate n 255) true true true 4 64 some_names = Some (NGX_OK, Some h) /\
    ngx_hash_find h (ngx_hash_key (bs "content-length")) (bs "content-length") = Some 22.
Proof.
  destruct (hash_lookup 64 (fun n => replicate n 255) 4 64 1 3 some_names) as (h & H1 & H2).
  - unfold cachelines. set_solver.
  - intros n. apply length_replicate.
  - lia.
  - repeat constructor; vm_compute; congruence.
  - reflexivity.
  - lia.
  - intros [|[|[|k]]]; [vm_compute; congruence..|]. rewrite load_beyond; lia.
  - exists h. split; [exact H1|]. apply H2.
Defined.

(** When no number of buckets fits, [size] is [max_size + 1] behind the loop and
    the code writes one element behind [test]. *)
Example hash_overrun :
  ngx_hash_init 64 (fun n => replicate n 255) true true true 1 40
    [header_key (bs "a") 1; header_key (bs "b") 2; header_key (bs "c") 3] = None.
Proof. reflexivity. Qed.

End NgxHash.
