(* ===== verification/NgxQueue.v ===== *)
(** * Queues

    [src/src/core/ngx_queue.h] and [ngx_queue.c]: circular doubly linked lists through
    links embedded in the elements, with a sentinel.  The links are nodes in memory; every
    operation is shown to do to them what it should do to a list of elements.

    [None] is undefined behaviour of the C code: the use of a link that is not there. *)

From stdpp Require Import gmap sorting.
From S2P Require Import Prelude.

Module NgxQueue.

Abbreviation ptr := Z.

(** [ngx_queue_t] *)
Record link_t : Type := mk_link { q_prev : ptr; q_next : ptr }.

Abbreviation mem_t := (gmap ptr link_t).

(** [x->prev], [x->next] and the assignments to them *)
Definition get_prev (m : mem_t) (x : ptr) : option ptr := q_prev <$> (m !! x).
Definition get_next (m : mem_t) (x : ptr) : option ptr := q_next <$> (m !! x).

Definition set_prev (x v : ptr) (m : mem_t) : option mem_t :=
  k ← m !! x; Some (<[x := mk_link v (q_next k)]> m).

Definition set_next (x v : ptr) (m : mem_t) : option mem_t :=
  k ← m !! x; Some (<[x := mk_link (q_prev k) v]> m).

(** [ngx_queue_init], [ngx_queue_empty] *)
Definition queue_init (q : ptr) (m : mem_t) : option mem_t :=
  m ← set_prev q q m; set_next q q m.

Definition queue_empty (h : ptr) (m : mem_t) : option bool :=
  p ← get_prev m h; Some (h =? p).

(** [ngx_queue_insert_head], also [ngx_queue_insert_after] *)
Definition queue_insert_head (h x : ptr) (m : mem_t) : option mem_t :=
  hn ← get_next m h;
  m ← set_next x hn m;
  xn ← get_next m x;
  m ← set_prev xn x m;
  m ← set_prev x h m;
  set_next h x m.

(** [ngx_queue_insert_tail] *)
Definition queue_insert_tail (h x : ptr) (m : mem_t) : option mem_t :=
  hp ← get_prev m h;
  m ← set_prev x hp m;
  xp ← get_prev m x;
  m ← set_next xp x m;
  m ← set_next x h m;
  set_prev h x m.

(** [ngx_queue_remove] of the build without debugging *)
Definition queue_remove (x : ptr) (m : mem_t) : option mem_t :=
  xn ← get_next m x;
  xp ← get_prev m x;
  m ← set_prev xn xp m;
  xp ← get_prev m x;
  xn ← get_next m x;
  set_next xp xn m.

(** [ngx_queue_split] *)
Definition queue_split (h q n : ptr) (m : mem_t) : option mem_t :=
  hp ← get_prev m h;
  m ← set_prev n hp m;
  np ← get_prev m n;
  m ← set_next np n m;
  m ← set_next n q m;
  qp ← get_prev m q;
  m ← set_prev h qp m;
  hp ← get_prev m h;
  m ← set_next hp h m;
  set_prev q n m.

(** [ngx_queue_add] *)
Definition queue_add (h n : ptr) (m : mem_t) : option mem_t :=
  hp ← get_prev m h;
  nn ← get_next m n;
  m ← set_next hp nn m;
  nn ← get_next m n;
  hp ← get_prev m h;
  m ← set_prev nn hp m;
  np ← get_prev m n;
  m ← set_prev h np m;
  hp ← get_prev m h;
  set_next hp h m.

(** [ngx_queue_middle] *)
Fixpoint middle_loop (fuel : nat) (queue middle next : ptr) (m : mem_t) : option ptr :=
  match fuel with
  | O => None
  | S fuel =>
      middle ← get_next m middle;
      next ← get_next m next;
      last ← get_prev m queue;
      if next =? last then Some middle
      else
        next ← get_next m next;
        last ← get_prev m queue;
        if next =? last then Some middle else middle_loop fuel queue middle next m
  end.

Definition ngx_queue_middle (queue : ptr) (m : mem_t) : option ptr :=
  middle ← get_next m queue;
  last ← get_prev m queue;
  if middle =? last then Some middle
  else next ← get_next m queue; middle_loop (size m) queue middle next m.

(** [ngx_queue_sort]: the inner loop gives the element behind which [q] belongs. *)
Fixpoint place_loop (cmp : ptr -> ptr -> Z) (fuel : nat) (queue prev q : ptr) (m : mem_t) : option ptr :=
  match fuel with
  | O => None
  | S fuel =>
      if cmp prev q <=? 0 then Some prev
      else
        prev ← get_prev m prev;
        if prev =? queue then Some prev else place_loop cmp fuel queue prev q m
  end.

Fixpoint sort_loop (cmp : ptr -> ptr -> Z) (fuel : nat) (queue q : ptr) (m : mem_t) : option mem_t :=
  if q =? queue then Some m
  else
    match fuel with
    | O => None
    | S fuel =>
        prev ← get_prev m q;
        next ← get_next m q;
        m ← queue_remove q m;
        prev ← place_loop cmp (size m) queue prev q m;
        m ← queue_insert_head prev q m;
        sort_loop cmp fuel queue next m
    end.

Definition ngx_queue_sort (cmp : ptr -> ptr -> Z) (queue : ptr) (m : mem_t) : option mem_t :=
  q ← get_next m queue;
  last ← get_prev m queue;
  if q =? last then Some m
  else q ← get_next m q; sort_loop cmp (size m) queue q m.

(** ** The list a queue stands for *)

(** Neighbours in a list are linked in both directions. *)
Fixpoint links (m : mem_t) (l : list ptr) : Prop :=
  match l with
  | a :: ((b :: _) as t) => get_next m a = Some b /\ get_prev m b = Some a /\ links m t
  | _ => True
  end.

(** The queue with the sentinel [h] has the elements [l]. *)
Definition queue (m : mem_t) (h : ptr) (l : list ptr) : Prop :=
  NoDup (h :: l) /\ links m (h :: l ++ [h]).

(** *** The links *)

Lemma set_prev_ok x v m :
  x ∈ dom m -> exists m', set_prev x v m = Some m' /\
    (forall z, get_prev m' z = if decide (z = x) then Some v else get_prev m z) /\
    (forall z, get_next m' z = get_next m z) /\ dom m' = dom m.
Proof.
  intros [k Hk]%elem_of_dom. unfold set_prev. rewrite Hk. eexists. split; [done|].
  unfold get_prev, get_next. split_and!.
  - intros z. destruct (decide (z = x)) as [->|Hz]; [by rewrite lookup_insert_eq|by rewrite lookup_insert_ne].
  - intros z. destruct (decide (z = x)) as [->|Hz]; [rewrite lookup_insert_eq; by rewrite Hk|by rewrite lookup_insert_ne].
  - apply dom_insert_lookup_L. by eexists.
Qed.

Lemma set_next_ok x v m :
  x ∈ dom m -> exists m', set_next x v m = Some m' /\
    (forall z, get_next m' z = if decide (z = x) then Some v else get_next m z) /\
    (forall z, get_prev m' z = get_prev m z) /\ dom m' = dom m.
Proof.
  intros [k Hk]%elem_of_dom. unfold set_next. rewrite Hk. eexists. split; [done|].
  unfold get_prev, get_next. split_and!.
  - intros z. destruct (decide (z = x)) as [->|Hz]; [by rewrite lookup_insert_eq|by rewrite lookup_insert_ne].
  - intros z. destruct (decide (z = x)) as [->|Hz]; [rewrite lookup_insert_eq; by rewrite Hk|by rewrite lookup_insert_ne].
  - apply dom_insert_lookup_L. by eexists.
Qed.

Lemma get_next_dom m x y : get_next m x = Some y -> x ∈ dom m.
Proof. unfold get_next. intros H. apply elem_of_dom. destruct (m !! x); [by eexists|done]. Qed.

Lemma get_prev_dom m x y : get_prev m x = Some y -> x ∈ dom m.
Proof. unfold get_prev. intros H. apply elem_of_dom. destruct (m !! x); [by eexists|done]. Qed.

Lemma links_app m l1 a l2 : links m (l1 ++ a :: l2) <-> links m (l1 ++ [a]) /\ links m (a :: l2).
Proof.
  induction l1 as [|b l1 IH]; cbn [app]; [cbn; tauto|].
  destruct l1 as [|c l1]; cbn [app] in *; [cbn; tauto|].
  change (links m (b :: c :: l1 ++ a :: l2)) with
    (get_next m b = Some c /\ get_prev m c = Some b /\ links m (c :: l1 ++ a :: l2)).
  change (links m (b :: c :: l1 ++ [a])) with
    (get_next m b = Some c /\ get_prev m c = Some b /\ links m (c :: l1 ++ [a])).
  rewrite IH. tauto.
Qed.

Lemma links_cons m a b l : links m (a :: b :: l) <-> get_next m a = Some b /\ get_prev m b = Some a /\ links m (b :: l).
Proof. done. Qed.

(** The links of a list depend on the successors of all but the last and the predecessors of
    all but the first element. *)
Lemma links_ext m m' a l b :
  (forall z, z ∈ a :: l -> get_next m' z = get_next m z) ->
  (forall z, z ∈ l ++ [b] -> get_prev m' z = get_prev m z) ->
  links m (a :: l ++ [b]) -> links m' (a :: l ++ [b]).
Proof.
  revert a. induction l as [|c l IH]; intros a Hn Hp; cbn [app]; rewrite !links_cons.
  - intros (H1 & H2 & _). rewrite Hn, Hp by set_solver. done.
  - intros (H1 & H2 & H3). rewrite Hn, Hp by set_solver. split; [done|]. split; [done|].
    apply IH; [intros z Hz; apply Hn; set_solver|intros z Hz; apply Hp; set_solver|done].
Qed.

(** *** Queues are rings *)

Lemma queue_rotate m h l1 p l2 : queue m h (l1 ++ p :: l2) -> queue m p (l2 ++ h :: l1).
Proof.
  intros [Hnd Hl]. split.
  - replace (p :: l2 ++ h :: l1) with ((p :: l2) ++ (h :: l1)) by done.
    replace (h :: l1 ++ p :: l2) with ((h :: l1) ++ (p :: l2)) in Hnd by done.
    revert Hnd. rewrite !list.NoDup_app. set_solver.
  - replace (h :: (l1 ++ p :: l2) ++ [h]) with ((h :: l1) ++ p :: (l2 ++ [h])) in Hl
      by (cbn; by rewrite <- app_assoc).
    replace (p :: (l2 ++ h :: l1) ++ [p]) with ((p :: l2) ++ h :: (l1 ++ [p]))
      by (cbn; by rewrite <- app_assoc).
    apply links_app in Hl as [H1 H2]. apply links_app. done.
Qed.

Lemma queue_dom m h l x : queue m h l -> x ∈ h :: l -> x ∈ dom m.
Proof.
  intros Hq Hx. assert (exists l', queue m x l') as [l' [_ H]].
  { apply list_elem_of_split in Hx as (l1 & l2 & E). destruct l1 as [|y l1].
    - injection E as -> ->. eauto.
    - injection E as -> ->. eexists. by apply queue_rotate. }
  destruct l' as [|y l']; cbn [app] in H; apply links_cons in H as [H _]; by eapply get_next_dom.
Qed.

Lemma queue_first m h x l : queue m h (x :: l) -> get_next m h = Some x /\ get_prev m x = Some h.
Proof. intros [_ (H1 & H2 & _)]. done. Qed.

Lemma queue_last m h l x : queue m h (l ++ [x]) -> get_prev m h = Some x /\ get_next m x = Some h.
Proof.
  intros H. apply (queue_rotate m h l x []) in H. cbn in H. apply queue_first in H. tauto.
Qed.

Lemma queue_nil m h : queue m h [] <-> get_next m h = Some h /\ get_prev m h = Some h.
Proof.
  unfold queue. cbn. split; [tauto|]. intros [? ?]. split; [|tauto]. apply NoDup_singleton.
Qed.

(** What an operation leaves alone: the links of elements outside [s]. *)
Definition frame (m m' : mem_t) (s : list ptr) : Prop :=
  dom m' = dom m /\ forall z, z ∉ s -> get_next m' z = get_next m z /\ get_prev m' z = get_prev m z.

Lemma queue_frame m m' h l s : frame m m' s -> (forall z, z ∈ h :: l -> z ∉ s) -> queue m h l -> queue m' h l.
Proof.
  intros [_ Hf] Hs [Hnd Hl]. split; [done|]. apply (links_ext m); [..|done].
  - intros z Hz. apply Hf. by apply Hs.
  - intros z Hz. apply Hf, Hs. set_solver.
Qed.

Lemma frame_weaken m m' s s' : (forall z, z ∈ s -> z ∈ s') -> frame m m' s -> frame m m' s'.
Proof. intros H [Hd Hf]. split; [done|]. intros z Hz. apply Hf. eauto. Qed.

Lemma frame_trans m1 m2 m3 s : frame m1 m2 s -> frame m2 m3 s -> frame m1 m3 s.
Proof.
  intros [Hd1 H1] [Hd2 H2]. split; [congruence|]. intros z Hz.
  destruct (H1 z Hz), (H2 z Hz). split; congruence.
Qed.

(** One assignment of an operation: its effect on the links is recorded, so that the links
    after all assignments can be computed. *)
Ltac do_set :=
  match goal with
  | |- context [set_next ?x ?v ?m] =>
      let m' := fresh "m'" in let E := fresh "E" in let Hn := fresh "Hn" in
      let Hp := fresh "Hp" in let Hd := fresh "Hd" in
      destruct (set_next_ok x v m) as (m' & E & Hn & Hp & Hd); [|rewrite E; clear E; cbn [mbind option_bind]]
  | |- context [set_prev ?x ?v ?m] =>
      let m' := fresh "m'" in let E := fresh "E" in let Hn := fresh "Hn" in
      let Hp := fresh "Hp" in let Hd := fresh "Hd" in
      destruct (set_prev_ok x v m) as (m' & E & Hp & Hn & Hd); [|rewrite E; clear E; cbn [mbind option_bind]]
  end.

(** *** Insertion and removal *)

(** Resolve the tests of the recorded assignments. *)
Ltac tests :=
  repeat first [rewrite decide_True by congruence | rewrite decide_False by congruence].

Lemma insert_head_raw h x hn m :
  get_next m h = Some hn -> x ∈ dom m -> hn ∈ dom m -> x <> h ->
  exists m', queue_insert_head h x m = Some m' /\
    (forall z, get_next m' z = if decide (z = h) then Some x else if decide (z = x) then Some hn else get_next m z) /\
    (forall z, get_prev m' z = if decide (z = x) then Some h else if decide (z = hn) then Some x else get_prev m z) /\
    dom m' = dom m.
Proof.
  intros Hh Hx Hhn Hne. pose proof (get_next_dom _ _ _ Hh) as Hhd.
  unfold queue_insert_head. rewrite Hh. cbn [mbind option_bind].
  do_set; [done|]. rewrite Hn, decide_True by done. cbn [mbind option_bind].
  do_set; [congruence|]. do_set; [congruence|]. do_set; [congruence|].
  eexists. split; [done|]. split_and!; [..|congruence].
  - intros z. rewrite Hn2, Hn1, Hn0, Hn. done.
  - intros z. rewrite Hp2, Hp1, Hp0, Hp. done.
Qed.

Lemma insert_tail_raw h x hp m :
  get_prev m h = Some hp -> x ∈ dom m -> hp ∈ dom m -> x <> h ->
  exists m', queue_insert_tail h x m = Some m' /\
    (forall z, get_next m' z = if decide (z = x) then Some h else if decide (z = hp) then Some x else get_next m z) /\
    (forall z, get_prev m' z = if decide (z = h) then Some x else if decide (z = x) then Some hp else get_prev m z) /\
    dom m' = dom m.
Proof.
  intros Hh Hx Hhp Hne. pose proof (get_prev_dom _ _ _ Hh) as Hhd.
  unfold queue_insert_tail. rewrite Hh. cbn [mbind option_bind].
  do_set; [done|]. rewrite Hp, decide_True by done. cbn [mbind option_bind].
  do_set; [congruence|]. do_set; [congruence|]. do_set; [congruence|].
  eexists. split; [done|]. split_and!; [..|congruence].
  - intros z. rewrite Hn2, Hn1, Hn0, Hn. done.
  - intros z. rewrite Hp2, Hp1, Hp0, Hp. done.
Qed.

Lemma remove_raw x xp xn m :
  get_prev m x = Some xp -> get_next m x = Some xn -> xp ∈ dom m -> xn ∈ dom m -> xn <> x ->
  exists m', queue_remove x m = Some m' /\
    (forall z, get_next m' z = if decide (z = xp) then Some xn else get_next m z) /\
    (forall z, get_prev m' z = if decide (z = xn) then Some xp else get_prev m z) /\
    dom m' = dom m.
Proof.
  intros H1 H2 Hd1 Hd2 Hne. unfold queue_remove. rewrite H1, H2. cbn [mbind option_bind].
  do_set; [done|]. rewrite Hp, decide_False, H1 by congruence. cbn [mbind option_bind]. rewrite Hn, H2. cbn [mbind option_bind].
  do_set; [congruence|]. eexists. split; [done|]. split_and!; [..|congruence].
  - intros z. rewrite Hn0, Hn. done.
  - intros z. rewrite Hp0, Hp. done.
Qed.

Lemma insert_head_ok m h l x :
  queue m h l -> x ∈ dom m -> x ∉ h :: l ->
  exists m', queue_insert_head h x m = Some m' /\ queue m' h (x :: l) /\ frame m m' (x :: h :: l).
Proof.
  intros Hq Hx Hnx. assert (exists hn, get_next m h = Some hn /\ hn ∈ h :: l) as (hn & Hhn & Hin).
  { destruct l as [|y l]; [apply queue_nil in Hq as [? _]|apply queue_first in Hq as [? _]]; eexists; (split; [done|set_solver]). }
  assert (x <> h) as Hxh by (intros ->; apply Hnx; left).
  destruct (insert_head_raw h x hn m Hhn Hx (queue_dom _ _ _ _ Hq Hin) Hxh) as (m' & E & Hn & Hp & Hd).
  exists m'. split; [done|]. destruct Hq as [Hnd Hl]. split.
  2: { split; [done|]. intros z Hz. rewrite Hn, Hp.
       assert (z <> h /\ z <> x /\ z <> hn) as (? & ? & ?) by (split_and!; intros ->; set_solver). tests. done. }
  assert (x <> hn) as Hxn by (intros ->; done).
  split.
  { apply list.NoDup_cons in Hnd as [? ?]. apply list.NoDup_cons. split; [set_solver|]. apply list.NoDup_cons. split; [set_solver|done]. }
  cbn [app]. rewrite links_cons, Hn, Hp. tests. split; [done|]. split; [done|].
  apply list.NoDup_cons in Hnd as [Hh Hnd].
  destruct l as [|y l]; cbn [app] in *; rewrite links_cons in Hl |- *; destruct Hl as (H1 & H2 & H3);
    rewrite Hhn in H1; injection H1 as <-; rewrite Hn, Hp; tests; (split; [done|]; split; [done|]).
  - done.
  - apply list.NoDup_cons in Hnd as [Hy Hnd]. apply (links_ext m); [..|done]; intros z Hz; rewrite ?Hn, ?Hp;
      assert (z <> x) by (intros ->; set_solver).
    + assert (z <> h) by (intros ->; set_solver). tests. done.
    + assert (z <> hn) by (intros ->; set_solver). tests. done.
Qed.

Lemma tail_ne {A} (x y : A) l l' : NoDup l -> x :: l' = l -> y ∈ tail l -> y <> x.
Proof. intros H <-. cbn. apply list.NoDup_cons in H as [H _]. by intros Hy ->. Qed.

Lemma links_ext_snoc m m' s b :
  (forall z, z ∈ s -> get_next m' z = get_next m z) ->
  (forall z, z ∈ tail (s ++ [b]) -> get_prev m' z = get_prev m z) ->
  links m (s ++ [b]) -> links m' (s ++ [b]).
Proof. destruct s as [|a s]; [done|]. cbn [app tail]. intros Hn Hp. by apply links_ext. Qed.

(** The last element of a queue, or its sentinel. *)
Lemma queue_back m h l :
  queue m h l -> exists s b, h :: l = s ++ [b] /\ get_prev m h = Some b /\ get_next m b = Some h /\ links m (s ++ [b]).
Proof.
  intros Hq. destruct (@exists_last _ (h :: l)) as (s & b & E); [done|]. exists s, b. split; [done|].
  pose proof Hq as [_ Hl]. change (h :: l ++ [h]) with ((h :: l) ++ [h]) in Hl. rewrite E, <- app_assoc in Hl.
  cbn [app] in Hl. apply links_app in Hl as [H1 (H2 & H3 & _)]. done.
Qed.

Lemma insert_tail_ok m h l x :
  queue m h l -> x ∈ dom m -> x ∉ h :: l ->
  exists m', queue_insert_tail h x m = Some m' /\ queue m' h (l ++ [x]) /\ frame m m' (x :: h :: l).
Proof.
  intros Hq Hx Hnx. destruct (queue_back m h l Hq) as (s & b & E & Hp0 & Hn0 & Hs).
  assert (b ∈ h :: l) as Hb by (rewrite E; set_solver).
  assert (x <> h) as Hxh by (intros ->; apply Hnx; left). assert (x <> b) as Hxb by (intros ->; done).
  destruct (insert_tail_raw h x b m Hp0 Hx (queue_dom _ _ _ _ Hq Hb) Hxh) as (m' & Eq & Hn & Hp & Hd).
  exists m'. split; [done|]. destruct Hq as [Hnd Hl]. split.
  2: { split; [done|]. intros z Hz. rewrite Hn, Hp.
       assert (z <> h /\ z <> x /\ z <> b) as (? & ? & ?) by (split_and!; intros ->; set_solver). tests. done. }
  split.
  { change (h :: l ++ [x]) with ((h :: l) ++ [x]). apply list.NoDup_app. split; [done|].
    split; [set_solver|apply NoDup_singleton]. }
  change (h :: (l ++ [x]) ++ [h]) with (((h :: l) ++ [x]) ++ [h]). rewrite E in Hnd |- *. rewrite <- !app_assoc. cbn [app].
  pose proof Hnd as Hnd0. apply list.NoDup_app in Hnd as (Hnds & Hsb & _). apply links_app. split.
  - apply (links_ext_snoc m); [..|done]; intros z Hz; rewrite ?Hn, ?Hp.
    + assert (z <> x) by (intros ->; apply Hnx; rewrite E; set_solver).
      assert (z <> b) by (intros ->; apply (Hsb b); [done|set_solver]). tests. done.
    + assert (z <> x) by (intros ->; apply Hnx; rewrite E; destruct s; set_solver).
      assert (z <> h) by (eapply tail_ne; [exact Hnd0|done|done]). tests. done.
  - cbn. rewrite !Hn, !Hp. tests. done.
Qed.

(** Removal of the sentinel of a ring: what follows it becomes the sentinel of the rest. *)
Lemma remove_ring m x y l :
  queue m x (y :: l) -> exists m', queue_remove x m = Some m' /\ queue m' y l /\ frame m m' (y :: l).
Proof.
  intros Hq. destruct (queue_first _ _ _ _ Hq) as [Hxn Hyp].
  destruct (@exists_last _ (y :: l)) as (s & b & E); [done|].
  assert (get_prev m x = Some b /\ get_next m b = Some x) as [Hxp Hbn] by (apply (queue_last m x s); by rewrite <- E).
  assert (b ∈ x :: y :: l) as Hb by (rewrite E; set_solver).
  pose proof Hq as [Hnd Hl]. apply list.NoDup_cons in Hnd as [Hx Hnd].
  assert (y <> x) as Hyx by (intros ->; set_solver).
  destruct (remove_raw x b y m Hxp Hxn (queue_dom _ _ _ _ Hq Hb) (queue_dom _ _ _ y Hq ltac:(set_solver)) Hyx)
    as (m' & Eq & Hn & Hp & Hd).
  exists m'. split; [done|]. split; [split; [done|]|].
  - change (y :: l ++ [y]) with ((y :: l) ++ [y]). rewrite E, <- app_assoc. cbn [app].
    change (x :: (y :: l) ++ [x]) with (x :: ((y :: l) ++ [x])) in Hl. rewrite E in Hl, Hnd.
    destruct s as [|y' s]; cbn [app] in *.
    + injection E as -> ->. cbn. rewrite Hn, Hp. tests. done.
    + injection E as -> El. apply list.NoDup_cons in Hnd as [Hy' Hnd].
      apply list.NoDup_app in Hnd as (_ & Hsb & _).
      rewrite <- app_assoc in Hl. cbn [app] in Hl. rewrite links_cons in Hl. destruct Hl as (_ & _ & Hl).
      change (y' :: s ++ [b; x]) with ((y' :: s) ++ b :: [x]) in Hl. apply links_app in Hl as [Hl _].
      change (y' :: s ++ [b; y']) with ((y' :: s) ++ b :: [y']). apply links_app. split.
      * cbn [app] in *. apply (links_ext m); [..|done]; intros z Hz; rewrite ?Hn, ?Hp.
        -- assert (z <> b) by (intros ->; rewrite elem_of_cons in Hz; destruct Hz as [->|Hz]; [set_solver|apply (Hsb b); [done|set_solver]]). tests. done.
        -- assert (z <> y') by (intros ->; set_solver). tests. done.
      * cbn. rewrite Hn, Hp. tests. done.
  - split; [done|]. intros z Hz. rewrite Hn, Hp.
    assert (z <> y /\ z <> b) as [? ?] by (split; intros ->; [set_solver|apply Hz; rewrite E; set_solver]). tests. done.
Qed.

Lemma queue_remove_ok m h l1 x l2 :
  queue m h (l1 ++ x :: l2) ->
  exists m', queue_remove x m = Some m' /\ queue m' h (l1 ++ l2) /\ frame m m' (h :: l1 ++ l2).
Proof.
  intros Hq. apply queue_rotate in Hq. destruct l2 as [|y l2]; cbn [app] in Hq.
  - destruct (remove_ring _ _ _ _ Hq) as (m' & E & Hq' & Hf). exists m'. rewrite app_nil_r. done.
  - destruct (remove_ring _ _ _ _ Hq) as (m' & E & Hq' & Hf). exists m'. split; [done|].
    split; [by apply queue_rotate in Hq'|]. eapply frame_weaken; [|exact Hf]. set_solver.
Qed.

(** Insertion behind any element or the sentinel. *)
Lemma insert_after_ok m h l1 l2 x s b :
  queue m h (l1 ++ l2) -> h :: l1 = s ++ [b] -> x ∈ dom m -> x ∉ h :: l1 ++ l2 ->
  exists m', queue_insert_head b x m = Some m' /\ queue m' h (l1 ++ x :: l2) /\ frame m m' (x :: h :: l1 ++ l2).
Proof.
  intros Hq E Hx Hnx. destruct s as [|h' s]; cbn [app] in E.
  - injection E as -> ->. by apply insert_head_ok.
  - injection E as <- ->. rewrite <- app_assoc in Hq. cbn [app] in Hq. apply queue_rotate in Hq.
    destruct (insert_head_ok _ _ _ x Hq Hx) as (m' & Ei & Hq' & Hf); [set_solver|].
    exists m'. split; [done|]. split; [|eapply frame_weaken; [|exact Hf]; set_solver].
    change (x :: l2 ++ h :: s) with ((x :: l2) ++ h :: s) in Hq'. apply queue_rotate in Hq'.
    by rewrite <- app_assoc.
Qed.

(** *** Splitting and joining *)

Lemma split_raw h q n z a m :
  get_prev m h = Some z -> get_prev m q = Some a -> n ∈ dom m -> z ∈ dom m -> a ∈ dom m ->
  n <> h -> n <> q -> q <> h -> n <> a ->
  exists m', queue_split h q n m = Some m' /\
    (forall y, get_next m' y = if decide (y = a) then Some h else if decide (y = n) then Some q
                               else if decide (y = z) then Some n else get_next m y) /\
    (forall y, get_prev m' y = if decide (y = q) then Some n else if decide (y = h) then Some a
                               else if decide (y = n) then Some z else get_prev m y) /\
    dom m' = dom m.
Proof.
  intros Hz Ha Hdn Hdz Hda N1 N2 N3 N4. pose proof (get_prev_dom _ _ _ Hz). pose proof (get_prev_dom _ _ _ Ha).
  unfold queue_split. rewrite Hz. cbn [mbind option_bind].
  do_set; [done|]. rewrite Hp, decide_True by done. cbn [mbind option_bind].
  do_set; [congruence|]. do_set; [congruence|].
  rewrite Hp1, Hp0, Hp, decide_False, Ha by congruence. cbn [mbind option_bind].
  do_set; [congruence|]. rewrite Hp2, decide_True by done. cbn [mbind option_bind].
  do_set; [congruence|]. do_set; [congruence|].
  eexists. split; [done|]. split_and!; [..|congruence].
  - intros y. by rewrite Hn4, Hn3, Hn2, Hn1, Hn0, Hn.
  - intros y. by rewrite Hp4, Hp3, Hp2, Hp1, Hp0, Hp.
Qed.

Lemma in_tail {A} (x : A) l : x ∈ tail l -> x ∈ l.
Proof. destruct l; [done|]. intros H. by right. Qed.

Lemma split_ok m h l1 q l2 n :
  queue m h (l1 ++ q :: l2) -> n ∈ dom m -> n ∉ h :: l1 ++ q :: l2 ->
  exists m', queue_split h q n m = Some m' /\ queue m' h l1 /\ queue m' n (q :: l2) /\
    frame m m' (n :: h :: l1 ++ q :: l2).
Proof.
  intros Hq Hdn Hnn.
  destruct (@exists_last _ (h :: l1)) as (s1 & a & E1); [done|].
  destruct (@exists_last _ (q :: l2)) as (s2 & z & E2); [done|].
  pose proof Hq as [Hnd Hl].
  change (h :: l1 ++ q :: l2) with ((h :: l1) ++ (q :: l2)) in Hnd, Hnn.
  change (h :: (l1 ++ q :: l2) ++ [h]) with (((h :: l1) ++ (q :: l2)) ++ [h]) in Hl.
  rewrite E1 in Hl. rewrite <- !app_assoc in Hl. cbn [app] in Hl.
  apply links_app in Hl as [L1 Hl]. change (a :: q :: l2 ++ [h]) with (a :: (q :: l2) ++ [h]) in Hl.
  pose proof Hl as Hl'. rewrite E2 in Hl. rewrite <- app_assoc in Hl. cbn [app] in Hl.
  change (a :: s2 ++ [z; h]) with ((a :: s2) ++ z :: [h]) in Hl. apply links_app in Hl as [L2 (Lz1 & Lz2 & _)].
  cbn [app] in Hl'. rewrite links_cons in Hl'. destruct Hl' as (La1 & La2 & _).
  assert (links m (s2 ++ [z])) as L3. { cbn [app] in L2. rewrite <- E2 in *. rewrite links_cons in L2. tauto. }
  apply list.NoDup_app in Hnd as (N1 & N12 & N2).
  assert (a ∈ h :: l1) as Ia by (rewrite E1; set_solver). assert (z ∈ q :: l2) as Iz by (rewrite E2; set_solver).
  assert (h ∈ h :: l1) as Ih by left. assert (q ∈ q :: l2) as Iq by left.
  assert (forall y, y ∈ h :: l1 -> y <> n /\ y <> q /\ y <> z) as D1.
  { intros y Hy. split_and!; intros ->; [apply Hnn; apply elem_of_app; by left|by apply (N12 q)|by apply (N12 z)]. }
  assert (forall y, y ∈ q :: l2 -> y <> n /\ y <> h /\ y <> a) as D2.
  { intros y Hy. split_and!; intros ->; [apply Hnn; apply elem_of_app; by right|by apply (N12 h)|by apply (N12 a)]. }
  destruct (split_raw h q n z a m) as (m' & E & Hn & Hp & Hd);
    [done|done|done|by eapply get_next_dom|by eapply get_next_dom|..].
  { destruct (D1 h Ih). congruence. } { destruct (D2 q Iq). congruence. } { by destruct (D2 q Iq) as (? & ? & ?). }
  { destruct (D1 a Ia). congruence. }
  exists m'. split; [done|]. split_and!.
  - split; [done|]. change (h :: l1 ++ [h]) with ((h :: l1) ++ [h]). rewrite E1. rewrite <- app_assoc. cbn [app].
    apply links_app. split.
    + rewrite E1 in N1. pose proof N1 as N1'. apply list.NoDup_app in N1 as (N1s & N1a & _).
      apply (links_ext_snoc m); [..|done]; intros y Hy; rewrite ?Hn, ?Hp.
      * destruct (D1 y) as (? & ? & ?); [rewrite E1; apply elem_of_app; by left|].
        assert (y <> a) by (intros ->; apply (N1a a); [done|set_solver]). tests. done.
      * destruct (D1 y) as (? & ? & ?); [rewrite E1; by apply in_tail|].
        assert (y <> h) by (eapply tail_ne; [exact N1'|done|done]). tests. done.
    + cbn. destruct (D1 h Ih) as (? & ? & ?). rewrite Hn, Hp. tests. done.
  - split; [apply list.NoDup_cons; split; [intros Hin; by destruct (D2 n Hin)|done]|].
    change (n :: (q :: l2) ++ [n]) with (n :: ((q :: l2) ++ [n])).
    assert (get_next m' n = Some q /\ get_prev m' q = Some n) as [Hn1 Hq1].
    { destruct (D2 q Iq) as (? & ? & ?). destruct (D1 a Ia) as (? & ? & ?). rewrite Hn, Hp. tests. done. }
    assert (links m' (q :: l2 ++ [n])) as Hrest; [|cbn [app]; rewrite links_cons; done].
    change (q :: l2 ++ [n]) with ((q :: l2) ++ [n]). rewrite E2 in *. rewrite <- app_assoc. cbn [app]. apply links_app. split.
    + pose proof N2 as N2'. apply list.NoDup_app in N2 as (N2s & N2z & _).
      apply (links_ext_snoc m); [..|done]; intros y Hy; rewrite ?Hn, ?Hp.
      * destruct (D2 y) as (? & ? & ?); [apply elem_of_app; by left|].
        assert (y <> z) by (intros ->; apply (N2z z); [done|set_solver]). tests. done.
      * destruct (D2 y) as (? & ? & ?); [by apply in_tail|].
        assert (y <> q) by (eapply tail_ne; [exact N2'|done|done]). tests. done.
    + cbn. destruct (D2 z Iz) as (? & ? & ?). rewrite Hn, Hp. destruct (D1 h Ih) as (? & ? & ?).
      assert (n <> q) by (destruct (D2 q Iq); congruence). tests. done.
  - split; [done|]. intros y Hy. rewrite Hn, Hp.
    assert (y <> a /\ y <> n /\ y <> z /\ y <> q /\ y <> h) as (? & ? & ? & ? & ?)
      by (split_and!; intros ->; apply Hy; rewrite !elem_of_cons, elem_of_app; rewrite elem_of_cons in Ia; tauto). tests. done.
Qed.

Lemma add_raw h n q z a m :
  get_prev m h = Some a -> get_next m n = Some q -> get_prev m n = Some z ->
  a ∈ dom m -> q ∈ dom m -> z ∈ dom m -> n <> a -> n <> q -> q <> h ->
  exists m', queue_add h n m = Some m' /\
    (forall y, get_next m' y = if decide (y = z) then Some h else if decide (y = a) then Some q else get_next m y) /\
    (forall y, get_prev m' y = if decide (y = h) then Some z else if decide (y = q) then Some a else get_prev m y) /\
    dom m' = dom m.
Proof.
  intros Ha Hq Hz Da Dq Dz N1 N2 N3. pose proof (get_prev_dom _ _ _ Ha).
  unfold queue_add. rewrite Ha, Hq. cbn [mbind option_bind].
  do_set; [done|]. rewrite Hn, decide_False, Hq by done. cbn [mbind option_bind]. rewrite Hp, Ha. cbn [mbind option_bind].
  do_set; [congruence|]. rewrite Hp0, decide_False, Hp, Hz by done. cbn [mbind option_bind].
  do_set; [congruence|]. rewrite Hp1, decide_True by done. cbn [mbind option_bind].
  do_set; [congruence|]. eexists. split; [done|]. split_and!; [..|congruence].
  - intros y. by rewrite Hn2, Hn1, Hn0, Hn.
  - intros y. by rewrite Hp2, Hp1, Hp0, Hp.
Qed.

Lemma add_ok m h l1 n l2 :
  queue m h l1 -> queue m n l2 -> l2 <> [] -> (forall y, y ∈ h :: l1 -> y ∉ n :: l2) ->
  exists m', queue_add h n m = Some m' /\ queue m' h (l1 ++ l2) /\ frame m m' (h :: l1 ++ l2).
Proof.
  intros H1 H2 Hne Hdis. destruct l2 as [|q l2]; [done|].
  destruct (queue_back _ _ _ H1) as (s1 & a & E1 & Ha1 & Ha2 & L1).
  destruct (queue_first _ _ _ _ H2) as [Hq1 Hq2].
  destruct (@exists_last _ (q :: l2)) as (s2 & z & E2); [done|].
  assert (get_prev m n = Some z /\ get_next m z = Some n) as [Hz1 Hz2] by (apply (queue_last m n s2); by rewrite <- E2).
  assert (links m (s2 ++ [z])) as L2.
  { destruct H2 as [_ H2]. rewrite E2 in H2. change (n :: (s2 ++ [z]) ++ [n]) with ((n :: s2 ++ [z]) ++ [n]) in H2.
    change (n :: s2 ++ [z]) with ((n :: s2) ++ [z]) in H2. rewrite <- app_assoc in H2. cbn [app] in H2.
    change (n :: s2 ++ [z; n]) with ((n :: s2) ++ z :: [n]) in H2. apply links_app in H2 as [H2 _]. cbn [app] in H2.
    rewrite <- E2 in *. rewrite links_cons in H2. tauto. }
  destruct H1 as [N1 _], H2 as [N2 _]. apply list.NoDup_cons in N2 as [Nn N2].
  assert (a ∈ h :: l1) as Ia by (rewrite E1; apply elem_of_app; right; left).
  assert (z ∈ q :: l2) as Iz by (rewrite E2; apply elem_of_app; right; left).
  assert (h ∈ h :: l1) as Ih by left. assert (q ∈ q :: l2) as Iq by left.
  assert (forall x y, x ∈ h :: l1 -> y ∈ q :: l2 -> x <> y) as D.
  { intros x y Hx Hy ->. apply (Hdis y Hx). by right. }
  assert (forall x, x ∈ h :: l1 -> x <> n) as Dn. { intros x Hx ->. apply (Hdis n Hx). left. }
  destruct (add_raw h n q z a m) as (m' & E & Hn & Hp & Hd);
    [done|done|done|by eapply get_next_dom|by eapply get_prev_dom|by eapply get_next_dom|..].
  { intros ->. by apply (Dn a). } { intros ->. done. } { intros ->. by apply (D h h). }
  exists m'. split; [done|]. split.
  2: { split; [done|]. intros y Hy. rewrite Hn, Hp.
       assert (y <> z /\ y <> a /\ y <> h /\ y <> q) as (? & ? & ? & ?)
         by (split_and!; intros ->; apply Hy; rewrite elem_of_cons, elem_of_app; rewrite elem_of_cons in Ia; tauto).
       tests. done. }
  split.
  { change (h :: l1 ++ q :: l2) with ((h :: l1) ++ (q :: l2)). apply list.NoDup_app. split; [done|]. split; [|done].
    intros x Hx Hx'. by apply (D x x). }
  change (h :: (l1 ++ q :: l2) ++ [h]) with (((h :: l1) ++ (q :: l2)) ++ [h]).
  rewrite E1. rewrite <- !app_assoc. cbn [app]. apply links_app. split.
  - rewrite E1 in N1. pose proof N1 as N1'. apply list.NoDup_app in N1 as (N1s & N1a & _).
    apply (links_ext_snoc m); [..|done]; intros y Hy; rewrite ?Hn, ?Hp.
    + assert (y ∈ h :: l1) as Iy by (rewrite E1; apply elem_of_app; by left). pose proof (D y z Iy Iz).
      assert (y <> a) by (intros ->; apply (N1a a); [done|left]). tests. done.
    + assert (y ∈ h :: l1) as Iy by (rewrite E1; by apply in_tail). pose proof (D y q Iy Iq).
      assert (y <> h) by (eapply tail_ne; [exact N1'|done|done]). tests. done.
  - change (a :: q :: l2 ++ [h]) with (a :: q :: (l2 ++ [h])). rewrite links_cons, Hn, Hp.
    pose proof (D a z Ia Iz). pose proof (D h q Ih Iq). tests. split; [done|]. split; [done|].
    change (q :: l2 ++ [h]) with ((q :: l2) ++ [h]). rewrite E2 in N2, D, Iz |- *. rewrite <- app_assoc. cbn [app].
    apply links_app. split.
    + pose proof N2 as N2'. apply list.NoDup_app in N2 as (N2s & N2z & _).
      apply (links_ext_snoc m); [..|done]; intros y Hy; rewrite ?Hn, ?Hp.
      * assert (y ∈ s2 ++ [z]) as Iy by (apply elem_of_app; by left). pose proof (D a y Ia Iy).
        assert (y <> z) by (intros ->; apply (N2z z); [done|left]). tests. done.
      * assert (y ∈ s2 ++ [z]) as Iy by (by apply in_tail). pose proof (D h y Ih Iy).
        assert (y <> q) by (eapply tail_ne; [exact N2'|done|done]). tests. done.
    + cbn. rewrite Hn, Hp. pose proof (D h z Ih Iz). tests. done.
Qed.

(** *** Initialisation and the ends *)

Lemma init_ok q m : q ∈ dom m -> exists m', queue_init q m = Some m' /\ queue m' q [] /\ frame m m' [q].
Proof.
  intros Hq. unfold queue_init. do_set; [done|]. do_set; [congruence|]. eexists. split; [done|]. split.
  - apply queue_nil. rewrite Hn0, Hp0, Hp. tests. done.
  - split; [congruence|]. intros z Hz. rewrite Hn0, Hn, Hp0, Hp.
    assert (z <> q) by (intros ->; apply Hz; left). tests. done.
Qed.

Lemma empty_ok m h l : queue m h l -> queue_empty h m = Some (bool_decide (l = [])).
Proof.
  intros Hq. unfold queue_empty. destruct (queue_back _ _ _ Hq) as (s & b & E & Hp & _). rewrite Hp. cbn [mbind option_bind].
  f_equal. destruct s as [|h' s]; cbn in E; injection E as -> ->.
  - by rewrite Z.eqb_refl.
  - rewrite bool_decide_false by (by destruct s). apply Z.eqb_neq. intros ->.
    destruct Hq as [Hnd _]. apply list.NoDup_cons in Hnd as [Hx _]. apply Hx. apply elem_of_app. right. left.
Qed.

(** *** The middle *)

Lemma queue_step m h l i a b : queue m h l -> l !! i = Some a -> l !! S i = Some b -> get_next m a = Some b /\ get_prev m b = Some a.
Proof.
  intros [_ Hl] Ha Hb. assert (exists l1 l2, l = l1 ++ a :: b :: l2) as (l1 & l2 & ->).
  { exists (take i l), (drop (S (S i)) l). rewrite <- (take_drop_middle l i a Ha) at 1. f_equal. f_equal.
    by rewrite <- (drop_S l b (S i)). }
  change (h :: (l1 ++ a :: b :: l2) ++ [h]) with ((h :: l1 ++ a :: b :: l2) ++ [h]) in Hl.
  change (h :: l1 ++ a :: b :: l2) with ((h :: l1) ++ a :: b :: l2) in Hl. rewrite <- app_assoc in Hl. cbn [app] in Hl.
  change (h :: l1 ++ a :: b :: l2 ++ [h]) with ((h :: l1) ++ a :: (b :: l2 ++ [h])) in Hl.
  apply links_app in Hl as [_ Hl]. rewrite links_cons in Hl. tauto.
Qed.

Lemma queue_size m h l : queue m h l -> (length (h :: l) <= size m)%nat.
Proof.
  intros Hq. rewrite <- size_dom. rewrite <- (size_list_to_set (C := gset ptr)) by apply Hq.
  apply subseteq_size. intros x Hx. apply elem_of_list_to_set in Hx. by eapply queue_dom.
Qed.

Lemma middle_loop_ok m h l z fuel i p q :
  queue m h (l ++ [z]) -> (length l <= 2 * fuel + 2 * i)%nat -> (2 * i < length l)%nat ->
  (l ++ [z]) !! i = Some p -> (l ++ [z]) !! (2 * i)%nat = Some q ->
  middle_loop fuel h p q m = (l ++ [z]) !! (S (length l) / 2)%nat.
Proof.
  intros Hq. revert i p q. destruct (queue_last _ _ _ _ Hq) as [Hz _].
  assert (forall j x, (l ++ [z]) !! j = Some x -> (x = z <-> j = length l)) as Hlast.
  { intros j x Hx. destruct Hq as [Hnd _]. apply list.NoDup_cons in Hnd as [_ Hnd]. split.
    - intros ->. eapply NoDup_lookup; [exact Hnd|done|]. rewrite lookup_app_r, Nat.sub_diag by lia. done.
    - intros ->. rewrite lookup_app_r, Nat.sub_diag in Hx by lia. by injection Hx. }
  induction fuel as [|fuel IH]; intros i p q Hf Hi Hp Hqq; [lia|]. cbn [middle_loop].
  assert (forall j, (j <= length l)%nat -> exists x, (l ++ [z]) !! j = Some x) as Hget.
  { intros j Hj. apply lookup_lt_is_Some_2. rewrite length_app. cbn. lia. }
  destruct (Hget (S i) ltac:(lia)) as [p' Hp']. destruct (Hget (S (2 * i)) ltac:(lia)) as [q' Hq'].
  destruct (queue_step m h _ _ _ _ Hq Hp Hp') as [-> _]. cbn [mbind option_bind].
  destruct (queue_step m h _ _ _ _ Hq Hqq Hq') as [-> _]. cbn [mbind option_bind]. rewrite Hz. cbn [mbind option_bind].
  destruct (q' =? z) eqn:E.
  - apply Z.eqb_eq, (Hlast _ _ Hq') in E. rewrite <- Hp'. f_equal. rewrite <- E.
    replace (S (S (2 * i))) with (S i * 2)%nat by lia. by rewrite Nat.div_mul.
  - apply Z.eqb_neq in E. assert (S (2 * i) <> length l) by (by rewrite <- (Hlast _ _ Hq')).
    destruct (Hget (S (S (2 * i))) ltac:(lia)) as [q2 Hq2].
    destruct (queue_step m h _ _ _ _ Hq Hq' Hq2) as [-> _]. cbn [mbind option_bind].
    destruct (q2 =? z) eqn:E2.
    + apply Z.eqb_eq, (Hlast _ _ Hq2) in E2. rewrite <- Hp'. f_equal. rewrite <- E2.
      replace (S (S (S (2 * i)))) with (1 + S i * 2)%nat by lia. rewrite Nat.div_add by lia. done.
    + apply Z.eqb_neq in E2. assert (S (S (2 * i)) <> length l) by (by rewrite <- (Hlast _ _ Hq2)).
      apply (IH (S i)); [lia..|done|]. by replace (2 * S i)%nat with (S (S (2 * i))) by lia.
Qed.

Lemma middle_ok m h l : queue m h l -> l <> [] -> ngx_queue_middle h m = l !! (length l / 2)%nat.
Proof.
  intros Hq Hne. destruct (@exists_last _ l Hne) as (s & z & ->).
  destruct (queue_last _ _ _ _ Hq) as [Hz _]. unfold ngx_queue_middle. rewrite length_app, Nat.add_comm. cbn [length Nat.add].
  destruct s as [|a s].
  - destruct (queue_first _ _ _ _ Hq) as [-> _]. cbn [mbind option_bind]. rewrite Hz. cbn [mbind option_bind].
    by rewrite Z.eqb_refl.
  - destruct (queue_first m h a (s ++ [z]) Hq) as [-> _]. cbn [mbind option_bind]. rewrite Hz. cbn [mbind option_bind].
    destruct (a =? z) eqn:E.
    + apply Z.eqb_eq in E as ->. destruct Hq as [Hnd _]. apply list.NoDup_cons in Hnd as [_ Hnd].
      cbn in Hnd. apply list.NoDup_cons in Hnd as [Hnd _]. exfalso. apply Hnd. apply elem_of_app. right. left.
    + pose proof (queue_size _ _ _ Hq) as Hs. rewrite length_cons, length_app in Hs. cbn [length] in Hs.
      apply (middle_loop_ok m h (a :: s) z (size m) 0 a a Hq); [cbn; lia|cbn; lia|done|done].
Qed.

(** *** Sorting *)

Lemma filter_none {A} (P : A -> Prop) `{!forall x, Decision (P x)} l : Forall (fun x => ~ P x) l -> filter P l = [].
Proof. induction 1 as [|x l Hx _ IH]; [done|]. by rewrite filter_cons_False. Qed.

(** The insertion of an element into the elements before it, from the last one back. *)
Section Sort.
Context {A : Type} (cmp : A -> A -> Z).

Fixpoint insert_back (q : A) (before : list A) : list A :=
  match before with
  | [] => [q]
  | p :: t => if cmp p q <=? 0 then q :: before else p :: insert_back q t
  end.

Definition insertion_sort (l : list A) : list A := rev (foldl (fun s q => insert_back q s) [] l).

Lemma insert_back_split q s :
  exists s1 s2, s = s1 ++ s2 /\ insert_back q s = s1 ++ q :: s2 /\ Forall (fun p => 0 < cmp p q) s1 /\
    match s2 with p :: _ => cmp p q <= 0 | [] => True end.
Proof.
  induction s as [|p s IH]; cbn [insert_back].
  - by exists [], [].
  - destruct (cmp p q <=? 0) eqn:E.
    + apply Z.leb_le in E. by exists [], (p :: s).
    + apply Z.leb_gt in E. destruct IH as (s1 & s2 & -> & -> & H1 & H2). exists (p :: s1), s2. split_and!; try done.
      by constructor.
Qed.

Lemma insertion_sort_Permutation l : insertion_sort l ≡ₚ l.
Proof.
  unfold insertion_sort. rewrite <- Permutation_rev.
  assert (forall s, foldl (fun s q => insert_back q s) s l ≡ₚ l ++ s) as H; [|by rewrite H, app_nil_r].
  induction l as [|q l IH]; intros s; cbn [foldl app]; [done|]. rewrite IH.
  destruct (insert_back_split q s) as (s1 & s2 & -> & -> & _). rewrite !app_assoc. symmetry.
  apply Permutation_middle.
Qed.

(** Elements that compare as equal keep their order. *)
Lemma insertion_sort_stable (P : A -> Prop) `{!forall x, Decision (P x)} l :
  (forall p q, P p -> P q -> cmp p q <= 0) -> filter P (insertion_sort l) = filter P l.
Proof.
  intros HP. unfold insertion_sort.
  assert (forall s, filter P (rev (foldl (fun s q => insert_back q s) s l)) = filter P (rev s) ++ filter P l) as Hs;
    [|by rewrite Hs].
  induction l as [|q l IH]; intros s; cbn [foldl]; [by rewrite app_nil_r|]. rewrite IH.
  destruct (insert_back_split q s) as (s1 & s2 & -> & -> & H1 & _).
  rewrite !rev_app_distr. cbn [rev]. rewrite !list.filter_app. rewrite filter_cons. cbn [filter list_filter].
  destruct (decide (P q)) as [Hq|Hq].
  - assert (filter P (rev s1) = []) as ->; [|by rewrite !app_nil_r, <- app_assoc].
    apply filter_none, Forall_rev. eapply list.Forall_impl; [exact H1|]. cbn. intros x Hx Hp.
    specialize (HP x q Hp Hq). lia.
  - by rewrite app_nil_r.
Qed.
End Sort.

Lemma elem_of_rev {A} (x : A) l : x ∈ rev l <-> x ∈ l.
Proof. by rewrite !list_elem_of_In, <- in_rev. Qed.

Section SortOrder.
Context {A : Type} (cmp : A -> A -> Z).

(** With a comparison that is total and transitive on the elements, the result is sorted. *)
Lemma insertion_sort_Sorted l :
  (forall p q, p ∈ l -> q ∈ l -> cmp p q <= 0 \/ cmp q p <= 0) ->
  (forall p q r, p ∈ l -> q ∈ l -> r ∈ l -> cmp p q <= 0 -> cmp q r <= 0 -> cmp p r <= 0) ->
  StronglySorted (fun p q => cmp p q <= 0) (insertion_sort cmp l).
Proof.
  intros Htot Htr.
  assert (forall k s, (forall x, x ∈ k -> x ∈ l) -> (forall x, x ∈ s -> x ∈ l) ->
    StronglySorted (fun p q => cmp q p <= 0) s ->
    StronglySorted (fun p q => cmp q p <= 0) (foldl (fun s q => insert_back cmp q s) s k)) as H.
  { induction k as [|q k IH]; intros s Hk Hs Hss; cbn [foldl]; [done|].
    assert (q ∈ l) as Hq by (apply Hk; left).
    destruct (insert_back_split cmp q s) as (s1 & s2 & -> & -> & H1 & H2).
    apply IH; [intros x Hx; apply Hk; by right|..].
    - intros x. rewrite elem_of_app, elem_of_cons. intros [Hx|[->|Hx]]; [apply Hs; set_solver|done|apply Hs; set_solver].
    - clear IH Hk. induction s1 as [|p s1 IH]; cbn [app] in *.
      + constructor; [done|]. destruct s2 as [|p s2]; [constructor|].
        apply StronglySorted_inv in Hss as [Hss Hp]. constructor; [done|].
        rewrite list.Forall_forall in Hp |- *. intros x Hx. apply (Htr x p q); [apply Hs; by right|apply Hs; left|done|by apply Hp|done].
      + apply StronglySorted_inv in Hss as [Hss Hp]. apply Forall_cons_1 in H1 as [H1p H1].
        constructor; [apply IH; first [done|intros x Hx; apply Hs; by right]|].
        rewrite !list.Forall_app in Hp |- *. destruct Hp as [Hp1 Hp2]. split; [done|]. constructor; [|done].
        destruct (Htot p q) as [?|?]; [apply Hs; left|done|lia|done]. }
  unfold insertion_sort. specialize (H l []). 
  assert (StronglySorted (fun p q => cmp q p <= 0) (foldl (fun s q => insert_back cmp q s) [] l)) as Hs
    by (apply H; [done|by intros x ?%not_elem_of_nil|constructor]).
  clear -Hs. induction Hs as [|x s Hs IH Hx]; cbn [rev]; [constructor|].
  apply StronglySorted_app. split_and!; [|done|].
  - intros y z Hy Hz. apply list_elem_of_singleton in Hz as ->.
    rewrite list.Forall_forall in Hx. apply Hx. by apply elem_of_rev.
  - constructor; constructor.
Qed.
End SortOrder.

(** The inner loop finds the place of an element. *)
Lemma place_loop_ok cmp m h s p t r q fuel :
  queue m h (rev (p :: s) ++ r) -> p :: s = t -> (length t <= fuel)%nat ->
  exists s1 s2, t = s1 ++ s2 /\ insert_back cmp q t = s1 ++ q :: s2 /\
    place_loop cmp fuel h p q m = Some (hd h s2).
Proof.
  intros Hq <-. revert p r Hq fuel. induction s as [|p' s IH]; intros p r Hq fuel Hf;
    (destruct fuel as [|fuel]; [cbn in Hf; lia|]); cbn [place_loop insert_back];
    (destruct (cmp p q <=? 0); [by eexists [], (p :: _)|]); cbn [rev app] in Hq.
  - destruct (queue_first _ _ _ _ Hq) as [_ ->]. cbn [mbind option_bind]. rewrite Z.eqb_refl.
    by exists [p], [].
  - assert (get_prev m p = Some p') as ->.
    { rewrite <- !app_assoc in Hq. cbn [app] in Hq. apply (queue_step m h _ (length (rev s)) p' p Hq).
      - rewrite lookup_app_r, Nat.sub_diag by lia. done.
      - rewrite lookup_app_r, Nat.sub_succ_l, Nat.sub_diag by lia. done. }
    cbn [mbind option_bind]. assert (p' <> h) as Hne.
    { intros ->. destruct Hq as [Hnd _]. apply list.NoDup_cons in Hnd as [Hh _]. apply Hh. set_solver. }
    apply Z.eqb_neq in Hne. rewrite Hne.
    destruct (IH p' (p :: r)) with (fuel := fuel) as (s1 & s2 & E1 & E2 & E3).
    { cbn [rev] in *. rewrite <- !app_assoc in *. cbn [app] in *. done. } { cbn in *. lia. }
    cbn [insert_back] in E2. exists (p :: s1), s2. rewrite E1. cbn [insert_back app]. split; [done|]. split; [|done].
    f_equal. rewrite <- E1. done.
Qed.

Lemma sort_loop_ok cmp m h s l fuel :
  queue m h (rev s ++ l) -> s <> [] -> (length l <= fuel)%nat ->
  exists m', sort_loop cmp fuel h (hd h l) m = Some m' /\
    queue m' h (rev (foldl (fun s q => insert_back cmp q s) s l)) /\ frame m m' (h :: rev s ++ l).
Proof.
  revert m s fuel. induction l as [|q l IH]; intros m s fuel Hq Hs Hf.
  - cbn [hd]. destruct fuel; cbn [sort_loop]; rewrite Z.eqb_refl; exists m; rewrite app_nil_r in Hq;
      (split; [done|]; split; [done|]; split; [done|by intros]).
  - destruct fuel as [|fuel]; [cbn in Hf; lia|]. cbn [hd sort_loop].
    assert (q <> h) as Hqh. { intros ->. destruct Hq as [Hnd _]. apply list.NoDup_cons in Hnd as [Hh _]. set_solver. }
    apply Z.eqb_neq in Hqh. rewrite Hqh. apply Z.eqb_neq in Hqh. destruct s as [|p s]; [done|].
    assert (get_prev m q = Some p) as ->.
    { cbn [rev] in Hq. rewrite <- app_assoc in Hq. cbn [app] in Hq. apply (queue_step m h _ (length (rev s)) p q Hq).
      - rewrite lookup_app_r, Nat.sub_diag by lia. done.
      - rewrite lookup_app_r, Nat.sub_succ_l, Nat.sub_diag by lia. done. }
    cbn [mbind option_bind].
    assert (get_next m q = Some (hd h l)) as ->.
    { apply queue_rotate in Hq. destruct l as [|n l]; cbn [app hd] in *; by apply queue_first in Hq as [? _]. }
    cbn [mbind option_bind].
    assert (q ∈ dom m) as Hqd by (eapply queue_dom; [exact Hq|set_solver]).
    destruct (queue_remove_ok _ _ _ _ _ Hq) as (m1 & -> & Hq1 & Hf1). cbn [mbind option_bind].
    destruct (place_loop_ok cmp m1 h s p (p :: s) l q (size m1) Hq1 eq_refl) as (s1 & s2 & E1 & E2 & ->).
    { pose proof (queue_size _ _ _ Hq1) as Hsz. rewrite length_cons, length_app, length_rev in Hsz. lia. }
    cbn [mbind option_bind]. rewrite E1, rev_app_distr, <- app_assoc in Hq1.
    assert (exists t, h :: rev s2 = t ++ [hd h s2]) as [t Et].
    { destruct s2 as [|x s2]; [by exists []|]. cbn [rev hd]. by exists (h :: rev s2). }
    destruct (insert_after_ok _ _ _ _ q _ _ Hq1 Et) as (m2 & -> & Hq2 & Hf2).
    { destruct Hf1 as [-> _]. done. }
    { destruct Hq as [Hnd _]. intros Hin. apply list.NoDup_cons in Hnd as [Hh Hnd]. apply list.NoDup_app in Hnd as (Hn1 & Hn2 & Hn3).
      apply list.NoDup_cons in Hn3 as [Hn3 _]. rewrite elem_of_cons, app_assoc, <- rev_app_distr, <- E1, elem_of_app in Hin.
      destruct Hin as [?|[Hin|?]]; [done|by apply (Hn2 q Hin); left|done]. }
    cbn [mbind option_bind foldl]. rewrite E2.
    destruct (IH m2 (s1 ++ q :: s2) fuel) as (m3 & -> & Hq3 & Hf3).
    { rewrite rev_app_distr. cbn [rev]. by rewrite <- !app_assoc. } { by destruct s1. } { cbn in Hf. lia. }
    exists m3. split; [done|]. split; [done|].
    assert (forall z, z ∈ rev (p :: s) <-> z ∈ rev s2 ++ rev s1) as Hel by (intros z; by rewrite <- rev_app_distr, <- E1).
    apply (frame_trans m m2); [apply (frame_trans m m1)|].
    + eapply frame_weaken; [|exact Hf1]. intros z. rewrite !elem_of_cons, !elem_of_app, elem_of_cons. tauto.
    + eapply frame_weaken; [|exact Hf2]. intros z. rewrite !elem_of_cons, !elem_of_app, elem_of_cons, Hel, elem_of_app. tauto.
    + eapply frame_weaken; [|exact Hf3]. intros z. rewrite !elem_of_cons, !elem_of_app, elem_of_cons, Hel, elem_of_app.
      rewrite rev_app_distr. cbn [rev]. rewrite !elem_of_app, list_elem_of_singleton. tauto.
Qed.

Lemma sort_ok cmp m h l :
  queue m h l -> exists m', ngx_queue_sort cmp h m = Some m' /\ queue m' h (insertion_sort cmp l) /\ frame m m' (h :: l).
Proof.
  intros Hq. unfold ngx_queue_sort. destruct (queue_back _ _ _ Hq) as (s & b & E & Hb & _).
  assert (get_next m h = Some (hd h l)) as ->.
  { destruct l as [|x l]; [by apply queue_nil in Hq as [? _]|by apply queue_first in Hq as [? _]]. }
  rewrite Hb. cbn [mbind option_bind]. destruct l as [|x l]; cbn [hd].
  - destruct s as [|? [|? ?]]; try done. injection E as <-. rewrite Z.eqb_refl.
    exists m. split; [done|]. split; [done|]. split; [done|by intros].
  - destruct (x =? b) eqn:Exb.
    + apply Z.eqb_eq in Exb as ->. exists m. split; [done|]. split; [|split; [done|by intros]].
      destruct s as [|h' s]; cbn in E; [done|]. injection E as <- E. destruct s as [|y s]; cbn in E.
      * by injection E as ->.
      * injection E as -> ->. destruct Hq as [Hnd _]. apply list.NoDup_cons in Hnd as [_ Hnd].
        apply list.NoDup_cons in Hnd as [Hnd _]. exfalso. apply Hnd, elem_of_app. right. left.
    + assert (get_next m x = Some (hd h l)) as ->.
      { apply (queue_rotate m h [] x l) in Hq. destruct l as [|y l]; cbn in *; by apply queue_first in Hq as [? _]. }
      cbn [mbind option_bind]. destruct (sort_loop_ok cmp m h [x] l (size m)) as (m' & -> & Hq' & Hf); [done|done| |].
      { pose proof (queue_size _ _ _ Hq) as Hs. cbn in Hs. lia. }
      exists m'. split; [done|]. split; [exact Hq'|exact Hf].
Qed.

(** ** Refinement

    The queues of a program as a map from sentinels to lists of elements, and what each
    operation should do to it. *)

Abbreviation queues := (gmap ptr (list ptr)).

Definition used (Q : queues) (x : ptr) : Prop := exists h l, Q !! h = Some l /\ x ∈ h :: l.

Definition apart (Q : queues) : Prop :=
  forall h1 l1 h2 l2 x, Q !! h1 = Some l1 -> Q !! h2 = Some l2 -> x ∈ h1 :: l1 -> x ∈ h2 :: l2 -> h1 = h2.

Definition represents (m : mem_t) (Q : queues) : Prop :=
  (forall h l, Q !! h = Some l -> queue m h l) /\ apart Q.

Inductive op : Type :=
| Init (q : ptr)
| InsertHead (h x : ptr)
| InsertTail (h x : ptr)
| Remove (x : ptr)
| Split (h q n : ptr)
| Add (h n : ptr)
| Sort (cmp : ptr -> ptr -> Z) (h : ptr).

Definition exec (o : op) (m : mem_t) : option mem_t :=
  match o with
  | Init q => queue_init q m
  | InsertHead h x => queue_insert_head h x m
  | InsertTail h x => queue_insert_tail h x m
  | Remove x => queue_remove x m
  | Split h q n => queue_split h q n m
  | Add h n => queue_add h n m
  | Sort cmp h => ngx_queue_sort cmp h m
  end.

(** [D] are the links that are in memory; a new element or sentinel is in no queue. *)
Inductive spec_step (D : gset ptr) : op -> queues -> queues -> Prop :=
| spec_init Q q : q ∈ D -> ~ used Q q -> spec_step D (Init q) Q (<[q := []]> Q)
| spec_head Q h l x : Q !! h = Some l -> x ∈ D -> ~ used Q x -> spec_step D (InsertHead h x) Q (<[h := x :: l]> Q)
| spec_tail Q h l x : Q !! h = Some l -> x ∈ D -> ~ used Q x -> spec_step D (InsertTail h x) Q (<[h := l ++ [x]]> Q)
| spec_remove Q h l1 x l2 : Q !! h = Some (l1 ++ x :: l2) -> spec_step D (Remove x) Q (<[h := l1 ++ l2]> Q)
| spec_split Q h l1 q l2 n : Q !! h = Some (l1 ++ q :: l2) -> n ∈ D -> ~ used Q n ->
    spec_step D (Split h q n) Q (<[n := q :: l2]> (<[h := l1]> Q))
| spec_add Q h l1 n l2 : Q !! h = Some l1 -> Q !! n = Some l2 -> h <> n -> l2 <> [] ->
    spec_step D (Add h n) Q (<[h := l1 ++ l2]> (delete n Q))
| spec_sort Q h l cmp : Q !! h = Some l -> spec_step D (Sort cmp h) Q (<[h := insertion_sort cmp l]> Q).

(** The elements of a queue that is there. *)
Definition members (Q : queues) (h : ptr) : list ptr :=
  match Q !! h with Some l => h :: l | None => [] end.

Lemma apart_insert Q h l :
  apart Q -> (forall z, z ∈ h :: l -> z ∈ members Q h \/ ~ used Q z) -> apart (<[h := l]> Q).
Proof.
  intros Ha Hz.
  assert (forall k lk x, Q !! k = Some lk -> x ∈ k :: lk -> x ∈ h :: l -> h <> k -> False) as Hx.
  { intros k lk x Hk Hxk Hxh Hne. destruct (Hz x Hxh) as [Hm|Hu]; [|apply Hu; by eexists _, _].
    unfold members in Hm. destruct (Q !! h) as [l0|] eqn:E; [|by apply not_elem_of_nil in Hm].
    apply Hne. by apply (Ha h l0 k lk x). }
  intros h1 l1 h2 l2 x H1 H2 X1 X2. destruct (decide (h = h1)) as [<-|N1], (decide (h = h2)) as [<-|N2]; [done|..].
  - rewrite lookup_insert_eq in H1. injection H1 as <-. rewrite lookup_insert_ne in H2 by done. exfalso. eauto.
  - rewrite lookup_insert_eq in H2. injection H2 as <-. rewrite lookup_insert_ne in H1 by done. exfalso. eauto.
  - rewrite lookup_insert_ne in H1, H2 by done. by apply (Ha h1 l1 h2 l2 x).
Qed.

(** An operation changes one queue. *)
Lemma queues_insert m m' Q h l s :
  represents m Q -> queue m' h l -> frame m m' s ->
  (forall z, z ∈ h :: l -> z ∈ members Q h \/ ~ used Q z) ->
  (forall z, z ∈ s -> z ∈ members Q h \/ ~ used Q z) -> represents m' (<[h := l]> Q).
Proof.
  intros [Hq Ha] Hl Hf Hin Hs. split; [|by apply apart_insert].
  intros k lk Hk. destruct (decide (h = k)) as [<-|Hne].
  - rewrite lookup_insert_eq in Hk. by injection Hk as <-.
  - rewrite lookup_insert_ne in Hk by done. eapply queue_frame; [exact Hf| |by apply Hq].
    intros z Hz Hzs. destruct (Hs z Hzs) as [Hm|Hu]; [|apply Hu; by eexists _, _].
    unfold members in Hm. destruct (Q !! h) as [l0|] eqn:E; [|by apply not_elem_of_nil in Hm].
    apply Hne. by apply (Ha h l0 k lk z).
Qed.

Lemma used_delete Q n x : used (delete n Q) x -> used Q x.
Proof.
  intros (h & l & H & Hx). destruct (decide (n = h)) as [<-|Hne]; [by rewrite lookup_delete_eq in H|].
  rewrite lookup_delete_ne in H by done. by exists h, l.
Qed.

Lemma used_fresh (Q : queues) h l x : Q !! h = Some l -> ~ used Q x -> x ∉ h :: l.
Proof. intros Hl Hu Hx. apply Hu. by exists h, l. Qed.

Lemma members_elem (Q : queues) h l z : Q !! h = Some l -> z ∈ h :: l -> z ∈ members Q h.
Proof. intros Hl Hz. unfold members. by rewrite Hl. Qed.

(** Splitting makes a second queue. *)
Lemma split_represents m Q h l1 q l2 n :
  represents m Q -> Q !! h = Some (l1 ++ q :: l2) -> n ∈ dom m -> ~ used Q n ->
  exists m', queue_split h q n m = Some m' /\ represents m' (<[n := q :: l2]> (<[h := l1]> Q)) /\ dom m' = dom m.
Proof.
  intros [Hq Ha] Hl Hd Hu.
  pose proof (used_fresh _ _ _ _ Hl Hu) as Hnn.
  destruct (split_ok m h l1 q l2 n (Hq _ _ Hl) Hd Hnn) as (m' & E & Hq1 & Hq2 & Hf).
  exists m'. split; [done|]. split; [|apply Hf].
  assert (h <> n) as Hhn by (intros ->; apply Hnn; left).
  assert (forall z, z ∈ h :: l1 -> z ∈ members Q h \/ ~ used Q z) as Hz1.
  { intros z Hz. left. apply (members_elem Q h _ z Hl). rewrite !elem_of_cons, !elem_of_app in *. tauto. }
  split.
  + intros k lk. destruct (decide (n = k)) as [<-|Hnk]; [rewrite lookup_insert_eq; by intros [= <-]|].
    rewrite lookup_insert_ne by done. destruct (decide (h = k)) as [<-|Hhk]; [rewrite lookup_insert_eq; by intros [= <-]|].
    rewrite lookup_insert_ne by done. intros Hk. eapply queue_frame; [exact Hf| |by apply Hq].
    intros z Hz Hzs. rewrite elem_of_cons in Hzs. destruct Hzs as [->|Hzs]; [by apply (used_fresh _ _ _ _ Hk Hu)|].
    apply Hhk. by apply (Ha _ _ _ _ z Hl Hk).
  + apply apart_insert; [by apply apart_insert|]. intros z Hz. right. intros (k & lk & Hk & Hzk).
    destruct (Hq _ _ Hl) as [Hnd _]. change (h :: l1 ++ q :: l2) with ((h :: l1) ++ (q :: l2)) in Hnd.
    apply list.NoDup_app in Hnd as (_ & Hnd & _).
    rewrite elem_of_cons in Hz. destruct (decide (h = k)) as [<-|Hhk].
    * rewrite lookup_insert_eq in Hk. injection Hk as <-. destruct Hz as [->|Hz]; [|by apply (Hnd z)].
      apply Hnn. rewrite elem_of_cons, elem_of_app in *. tauto.
    * rewrite lookup_insert_ne in Hk by done. destruct Hz as [->|Hz]; [by apply (used_fresh _ _ _ _ Hk Hu)|].
      apply Hhk. apply (Ha _ _ _ _ z Hl Hk); [|done]. rewrite !elem_of_cons, elem_of_app. rewrite elem_of_cons in Hz |- *. tauto.
Qed.

(** Joining takes the second queue away. *)
Lemma add_represents m Q h l1 n l2 :
  represents m Q -> Q !! h = Some l1 -> Q !! n = Some l2 -> h <> n -> l2 <> [] ->
  exists m', queue_add h n m = Some m' /\ represents m' (<[h := l1 ++ l2]> (delete n Q)) /\ dom m' = dom m.
Proof.
  intros [Hq Ha] Hl Hn Hne Hl2.
  destruct (add_ok m h l1 n l2 (Hq _ _ Hl) (Hq _ _ Hn) Hl2) as (m' & E & Hq' & Hf).
  { intros y Hy Hy'. apply Hne. by apply (Ha _ _ _ _ y Hl Hn). }
  exists m'. split; [done|]. split; [|apply Hf].
  assert (represents m (delete n Q)) as Hr'.
  { split; [intros k lk [_ Hk]%lookup_delete_Some; by apply Hq|].
    intros h1 k1 h2 k2 x [_ K1]%lookup_delete_Some [_ K2]%lookup_delete_Some. by apply Ha. }
  assert (forall z, z ∈ h :: l1 ++ l2 -> z ∈ members (delete n Q) h \/ ~ used (delete n Q) z) as Hz.
  { intros z Hz. destruct (decide (z ∈ h :: l1)) as [Hz1|Hz1].
    - left. unfold members. by rewrite lookup_delete_ne, Hl.
    - right. intros (k & lk & [Hkn Hk]%lookup_delete_Some & Hzk). apply Hkn.
      apply (Ha _ _ _ _ z Hn Hk); [|done]. rewrite elem_of_cons. right.
      rewrite elem_of_cons, elem_of_app in Hz. rewrite elem_of_cons in Hz1. tauto. }
  by eapply queues_insert.
Qed.

(** C31: the queues of a program are lists: over the links in memory every operation is defined and
    does to the queues exactly what it should do to a map from sentinels to lists, with sorting
    being the stable insertion sort, and leaves all other queues alone. *)
Theorem queue_refines m Q o Q' :
  represents m Q -> spec_step (dom m) o Q Q' ->
  exists m', exec o m = Some m' /\ represents m' Q' /\ dom m' = dom m.
Proof.
  intros Hr Hs. pose proof Hr as [Hq Ha].
  pose proof (used_fresh Q) as Hfresh. pose proof (members_elem Q) as Hmem.
  destruct Hs as [Q q Hd Hu|Q h l x Hl Hd Hu|Q h l x Hl Hd Hu|Q h l1 x l2 Hl|Q h l1 q l2 n Hl Hd Hu|Q h l1 n l2 Hl Hn Hne Hl2|Q h l cmp Hl];
    cbn [exec].
  - destruct (init_ok q m Hd) as (m' & E & Hq' & Hf). exists m'. split; [done|]. split; [|apply Hf].
    eapply queues_insert; [done..| |]; intros z ->%list_elem_of_singleton; by right.
  - destruct (insert_head_ok m h l x (Hq _ _ Hl) Hd (Hfresh _ _ _ Hl Hu)) as (m' & E & Hq' & Hf).
    exists m'. split; [done|]. split; [|apply Hf].
    eapply queues_insert; [done..| |]; intros z; rewrite !elem_of_cons; (destruct (decide (z = x)) as [->|];
      [by right|intros H; left; apply (Hmem h l z Hl); apply elem_of_cons; tauto]).
  - destruct (insert_tail_ok m h l x (Hq _ _ Hl) Hd (Hfresh _ _ _ Hl Hu)) as (m' & E & Hq' & Hf).
    exists m'. split; [done|]. split; [|apply Hf].
    eapply queues_insert; [done..| |]; intros z; rewrite !elem_of_cons, ?elem_of_app, ?list_elem_of_singleton;
      (destruct (decide (z = x)) as [->|]; [by right|intros H; left; apply (Hmem h l z Hl); apply elem_of_cons; tauto]).
  - destruct (queue_remove_ok m h l1 x l2 (Hq _ _ Hl)) as (m' & E & Hq' & Hf).
    exists m'. split; [done|]. split; [|apply Hf].
    eapply queues_insert; [done..| |]; intros z; rewrite elem_of_cons, elem_of_app; intros H; left;
      apply (Hmem h _ z Hl); rewrite elem_of_cons, elem_of_app, elem_of_cons; tauto.
  - by apply split_represents.
  - by apply add_represents.
  - destruct (sort_ok cmp m h l (Hq _ _ Hl)) as (m' & E & Hq' & Hf). exists m'. split; [done|]. split; [|apply Hf].
    eapply queues_insert; [done..| |]; intros z Hz; left; apply (Hmem h l z Hl); [|done].
    rewrite elem_of_cons in Hz |- *. by rewrite (insertion_sort_Permutation cmp l) in Hz.
Qed.

(** Two sentinels and three elements: two are inserted, the queue is split and joined again. *)
Definition demo_mem : mem_t :=
  list_to_map ((fun p => (p, mk_link 0 0)) <$> [10; 20; 1; 2; 3]).

Lemma queue_refines_witness :
  exists m1 m2 m3,
    exec (Init 10) demo_mem = Some m1 /\ exec (InsertHead 10 1) m1 = Some m2 /\
    exec (InsertHead 10 2) m2 = Some m3 /\ represents m3 {[10 := [2; 1]]} /\
    ngx_queue_middle 10 m3 = Some 1.
Proof.
  assert (forall l x, x <> 10 -> x ∉ l -> ~ used {[10 := l]} x) as Hu.
  { intros l x Hx Hl (h & k & [<- <-]%lookup_singleton_Some & H). rewrite elem_of_cons in H. by destruct H. }
  destruct (queue_refines demo_mem ∅ (Init 10) {[10 := []]}) as (m1 & E1 & R1 & D1).
  { split; [by intros|by intros]. }
  { apply (spec_init _ ∅ 10); [vm_compute; done|]. by intros (h & l & H & _). }
  destruct (queue_refines m1 {[10 := []]} (InsertHead 10 1) (<[10 := [1]]> {[10 := []]})) as (m2 & E2 & R2 & D2).
  { done. }
  { apply spec_head; [done|rewrite D1; vm_compute; done|]. apply Hu; [done|by intros ?%not_elem_of_nil]. }
  change (<[10 := [1]]> {[10 := []]} : queues) with ({[10 := [1]]} : queues) in R2.
  destruct (queue_refines m2 {[10 := [1]]} (InsertHead 10 2) (<[10 := [2; 1]]> {[10 := [1]]})) as (m3 & E3 & R3 & D3).
  { done. }
  { apply spec_head; [done|rewrite D2, D1; vm_compute; done|]. apply Hu; [done|by intros ?%list_elem_of_singleton]. }
  change (<[10 := [2; 1]]> {[10 := [1]]} : queues) with ({[10 := [2; 1]]} : queues) in R3.
  exists m1, m2, m3. split_and!; try done. apply (middle_ok m3 10 [2; 1]); [|done]. by apply R3.
Defined.

End NgxQueue.
