(* ===== verification/Locations.v ===== *)
(** * The locations of a server

    [src/src/http/ngx_http_core_module.c]: the [location] directive, and the search for the
    location of a request; [src/src/http/ngx_http.c]: the queue of locations is sorted, split
    by kind, joined and grouped, and made into a search tree, for each level of nesting.

    Queues are lists, as [NgxQueue] justifies: sorting is its [insertion_sort], splitting and
    joining are those of lists.  A configuration is given by the fields these functions
    read and a number for its address; the compilation and the execution of regular
    expressions are parameters.
    Allocations succeed.  [None] is undefined behaviour of the C code or, where a function
    is recursive, too little fuel. *)

From stdpp Require Import gmap sorting.
From S2P Require Import Prelude NgxQueue.

Module Locations.
Import NgxQueue.

Abbreviation str := (list Z).

(** The fields of [ngx_http_core_loc_conf_t] *)
Record clcf_t : Type := mk_clcf {
  c_id : nat;
  c_name : str;
  exact_match : bool;
  noregex : bool;
  named : bool;
  noname : bool;
  regex : bool;
  auto_redirect : bool
}.

(** [ngx_http_location_queue_t] *)
Inductive lq_t : Type := mk_lq {
  lq_name : str;
  lq_exact : option clcf_t;
  lq_inclusive : option clcf_t;
  lq_list : list lq_t
}.

(** [ngx_filename_cmp] on names that end with a zero byte behind their list *)
Definition slash_lowest (c : Z) : Z := if c =? 47 then 0 else c.

Fixpoint ngx_filename_cmp (s1 s2 : str) (n : nat) : Z :=
  match n with
  | O => 0
  | S n =>
      let c1 := hd 0 s1 in
      let c2 := hd 0 s2 in
      if c1 =? c2 then (if c1 =? 0 then 0 else ngx_filename_cmp (tl s1) (tl s2) n)
      else if (c1 =? 0) || (c2 =? 0) then c1 - c2
      else slash_lowest c1 - slash_lowest c2
  end.

(** [strcmp] on such names *)
Fixpoint strcmp (s1 s2 : str) : Z :=
  match s1, s2 with
  | [], [] => 0
  | [], c2 :: _ => - c2
  | c1 :: _, [] => c1
  | c1 :: s1, c2 :: s2 => if c1 =? c2 then strcmp s1 s2 else c1 - c2
  end.

(** ** Building *)

(** What [ngx_http_add_location] puts at the end of the queue *)
Definition add_location (clcf : clcf_t) : lq_t :=
  if exact_match clcf || regex clcf || named clcf || noname clcf
  then mk_lq (c_name clcf) (Some clcf) None []
  else mk_lq (c_name clcf) None (Some clcf) [].

(** ** The [location] directive

    [ngx_http_core_location] up to the body of the block; [None] is an error.  The
    configuration it creates has the address [id]; [compile] is [ngx_http_regex_compile], with
    the option for letter case.  [auto_redirect] is set by directives in the block. *)
Section Directive.
Context (compile : str -> bool -> bool).

(** [ngx_http_core_regex_location] *)
Definition regex_location (id : nat) (name : str) (caseless : bool) : option clcf_t :=
  if compile name caseless then Some (mk_clcf id name false false false false true false) else None.

(** The modifier as an argument of its own *)
Definition with_modifier (id : nat) (md name : str) : option clcf_t :=
  if (length md =? 1)%nat && (hd 0 md =? 61) then Some (mk_clcf id name true false false false false false)
  else if (length md =? 2)%nat && (hd 0 md =? 94) && (hd 0 (tl md) =? 126)
  then Some (mk_clcf id name false true false false false false)
  else if (length md =? 1)%nat && (hd 0 md =? 126) then regex_location id name false
  else if (length md =? 2)%nat && (hd 0 md =? 126) && (hd 0 (tl md) =? 42) then regex_location id name true
  else None.

(** The modifier at the beginning of the name, which ends with a zero byte *)
Definition without_modifier (id : nat) (name : str) : option clcf_t :=
  if hd 0 name =? 61 then Some (mk_clcf id (tl name) true false false false false false)
  else if (hd 0 name =? 94) && (hd 0 (tl name) =? 126)
  then Some (mk_clcf id (tl (tl name)) false true false false false false)
  else if hd 0 name =? 126 then
    if hd 0 (tl name) =? 42 then regex_location id (tl (tl name)) true
    else regex_location id (tl name) false
  else Some (mk_clcf id name false false (hd 0 name =? 64) false false false).

(** The tests for a location inside another one *)
Definition may_nest (p c : clcf_t) : bool :=
  (length (c_name p) =? 0)%nat ||
  negb (exact_match p) && negb (named p) && negb (named c) &&
  (regex c || (ngx_filename_cmp (c_name c) (c_name p) (length (c_name p)) =? 0)).

Definition core_location (id : nat) (p : clcf_t) (args : list str) (locations : list lq_t) : option (clcf_t * list lq_t) :=
  c ← match args with
      | [md; name] => with_modifier id md name
      | [name] => without_modifier id name
      | _ => None
      end;
  if may_nest p c then Some (c, locations ++ [add_location c]) else None.
End Directive.

(** ** The order of the locations *)

(** [lq->exact ? lq->exact : lq->inclusive]; one of them is set in every element. *)
Definition no_conf : clcf_t := mk_clcf 0 [] false false false false false false.

Definition lq_conf (lq : lq_t) : clcf_t :=
  match lq_exact lq, lq_inclusive lq with
  | Some c, _ => c
  | None, Some c => c
  | None, None => no_conf
  end.

(** [ngx_http_cmp_locations] *)
Definition cmp_locations (one two : lq_t) : Z :=
  let first := lq_conf one in
  let second := lq_conf two in
  if noname first && negb (noname second) then 1
  else if negb (noname first) && noname second then -1
  else if noname first || noname second then 0
  else if named first && negb (named second) then 1
  else if negb (named first) && named second then -1
  else if named first && named second then strcmp (c_name first) (c_name second)
  else if regex first && negb (regex second) then 1
  else if negb (regex first) && regex second then -1
  else if regex first || regex second then 0
  else
    let rc := ngx_filename_cmp (c_name first) (c_name second)
                (Nat.min (length (c_name first)) (length (c_name second)) + 1) in
    if (rc =? 0) && negb (exact_match first) && exact_match second then 1 else rc.

(** The position of the first element of a queue that satisfies a test *)
Fixpoint first_at (f : lq_t -> bool) (l : list lq_t) : nat :=
  match l with [] => 0 | x :: l => if f x then 0 else S (first_at f l) end%nat.

(** The loop of [ngx_http_init_locations]: a regex is passed first, then a named one. *)
Definition is_regex (x : lq_t) : bool := regex (lq_conf x).
Definition is_named (x : lq_t) : bool := negb (regex (lq_conf x)) && named (lq_conf x).
Definition is_noname (x : lq_t) : bool :=
  negb (regex (lq_conf x)) && negb (named (lq_conf x)) && noname (lq_conf x).

(** [ngx_http_init_locations] for one level: the queue that is left, and the arrays of regex
    and named locations *)
Definition init_locations (l : list lq_t) : list lq_t * list (option clcf_t) * list (option clcf_t) :=
  let l := insertion_sort cmp_locations l in
  let l := take (first_at is_noname l) l in
  let n := first_at is_named l in
  let named := lq_exact <$> drop n l in
  let r := first_at is_regex l in
  let l := take n l in
  let regex := lq_exact <$> drop r l in
  (take r l, regex, named).

(** [ngx_http_join_exact_locations] from the element [q] on; [None] is a duplicate. *)
Fixpoint join_exact_locations (q : lq_t) (l : list lq_t) : option (list lq_t) :=
  match l with
  | [] => Some [q]
  | x :: l =>
      if (length (lq_name q) =? length (lq_name x))%nat &&
         (ngx_filename_cmp (lq_name q) (lq_name x) (length (lq_name x)) =? 0)
      then
        if (bool_decide (is_Some (lq_exact q)) && bool_decide (is_Some (lq_exact x))) ||
           (bool_decide (is_Some (lq_inclusive q)) && bool_decide (is_Some (lq_inclusive x)))
        then None
        else join_exact_locations (mk_lq (lq_name q) (lq_exact q) (lq_inclusive x) (lq_list q)) l
      else rest ← join_exact_locations x l; Some (q :: rest)
  end.

(** The elements behind [q] whose names begin with its name *)
Fixpoint prefix_span (name : str) (l : list lq_t) : list lq_t * list lq_t :=
  match l with
  | [] => ([], [])
  | x :: l' =>
      if (length (lq_name x) <? length name)%nat ||
         negb (ngx_filename_cmp name (lq_name x) (length name) =? 0)
      then ([], l)
      else let '(a, b) := prefix_span name l' in (x :: a, b)
  end.

(** [ngx_http_create_locations_list] from the first element of [l] on *)
Fixpoint create_locations_list (fuel : nat) (l : list lq_t) : option (list lq_t) :=
  match fuel, l with
  | _, [] => Some []
  | _, [q] => Some [q]
  | O, _ => None
  | S fuel, q :: l =>
      match lq_inclusive q with
      | None => rest ← create_locations_list fuel l; Some (q :: rest)
      | Some _ =>
          let '(sub, rest) := prefix_span (lq_name q) l in
          match sub with
          | [] => rest ← create_locations_list fuel l; Some (q :: rest)
          | _ :: _ =>
              sub ← create_locations_list fuel (lq_list q ++ sub);
              rest ← create_locations_list fuel rest;
              Some (mk_lq (lq_name q) (lq_exact q) (lq_inclusive q) sub :: rest)
          end
      end
  end.

(** [ngx_http_location_tree_node_t]; [len] is a [u_char]. *)
Inductive tree : Type :=
| Leaf
| Node (left right sub : tree) (exact inclusive : option clcf_t) (redirect : bool) (len : Z) (name : str).

Definition conf_redirects (c : option clcf_t) : bool :=
  match c with Some c => auto_redirect c | None => false end.

(** The tree of a queue, [NULL] for an empty one *)
Definition tree_or_null (create : list lq_t -> option tree) (l : list lq_t) : option tree :=
  match l with [] => Some Leaf | _ => create l end.

(** [ngx_http_create_locations_tree]: the middle of [n] elements is the one at [n / 2]
    ([NgxQueue.middle_ok]). *)
Fixpoint create_locations_tree (fuel : nat) (l : list lq_t) (prefix : nat) : option tree :=
  match fuel with
  | O => None
  | S fuel =>
      let n := (length l / 2)%nat in
      lq ← l !! n;
      let len := (length (lq_name lq) - prefix)%nat in
      let create := fun prefix l => create_locations_tree fuel l prefix in
      l_tree ← tree_or_null (create prefix) (take n l);
      r_tree ← (if (length (take n l) =? 0)%nat then Some Leaf
                else tree_or_null (create prefix) (drop (S n) l));
      sub ← tree_or_null (create (prefix + len)%nat) (lq_list lq);
      Some (Node l_tree r_tree sub (lq_exact lq) (lq_inclusive lq)
              (conf_redirects (lq_exact lq) || conf_redirects (lq_inclusive lq))
              (Z.of_nat len mod 256) (drop prefix (lq_name lq)))
  end.

(** [ngx_http_init_static_location_trees] for one level, after [ngx_http_init_locations];
    [Leaf] is [NULL]. *)
Definition init_static_location_tree (l : list lq_t) : option tree :=
  match l with
  | [] => Some Leaf
  | q :: l =>
      l ← join_exact_locations q l;
      k ← create_locations_list (length l) l;
      create_locations_tree (S (length l)) k 0
  end.

(** ** Searching *)

(** [ngx_http_core_find_static_location]: the code and [r->loc_conf] *)
Fixpoint find_static_location (t : tree) (uri : str) (rv : Z) (conf : nat) : option (Z * nat) :=
  match t with
  | Leaf => Some (rv, conf)
  | Node ltree rtree sub exact inclusive redirect len name =>
      let n := if Z.of_nat (length uri) <=? len then length uri else Z.to_nat len in
      let rc := ngx_filename_cmp uri name n in
      if negb (rc =? 0) then
        find_static_location (if rc <? 0 then ltree else rtree) uri rv conf
      else if Z.of_nat (length uri) >? len then
        match inclusive with
        | Some c => find_static_location sub (drop n uri) NGX_AGAIN (c_id c)
        | None => find_static_location rtree uri rv conf
        end
      else if Z.of_nat (length uri) =? len then
        match exact, inclusive with
        | Some c, _ => Some (NGX_OK, c_id c)
        | None, Some c => Some (NGX_AGAIN, c_id c)
        | None, None => None
        end
      else if (Z.of_nat (length uri) + 1 =? len) && redirect then
        match exact, inclusive with
        | Some c, _ => find_static_location ltree uri NGX_DONE (c_id c)
        | None, Some c => find_static_location ltree uri NGX_DONE (c_id c)
        | None, None => None
        end
      else find_static_location ltree uri rv conf
  end.

(** ** Searching a level

    [ngx_strncmp] on names that end with a zero byte behind their list *)
Fixpoint ngx_strncmp (s1 s2 : str) (n : nat) : Z :=
  match n with
  | O => 0
  | S n =>
      let c1 := hd 0 s1 in
      let c2 := hd 0 s2 in
      if c1 =? c2 then (if c1 =? 0 then 0 else ngx_strncmp (tl s1) (tl s2) n) else c1 - c2
  end.

(** The configuration of a server or of a location, as the search reads it *)
Record level : Type := mk_level {
  lv_noregex : bool;
  lv_static : tree;
  lv_regex : list clcf_t
}.

Section Find.
(** [ngx_http_regex_exec]: whether the expression of a location matches *)
Context (regex_exec : clcf_t -> str -> Z).
(** What the search reads of the configuration at an address *)
Context (levels : nat -> level).
Context (named_locations : list clcf_t).

(** [ngx_http_core_find_named_location] *)
Fixpoint find_named_location (l : list clcf_t) (uri : str) (conf : nat) : Z * nat :=
  match l with
  | [] => (NGX_DECLINED, conf)
  | c :: l =>
      if negb (length uri =? length (c_name c))%nat || negb (ngx_strncmp uri (c_name c) (length uri) =? 0)
      then find_named_location l uri conf
      else (NGX_OK, c_id c)
  end.

(** The loop over the regex locations *)
Fixpoint try_regexes (nested : nat -> option (Z * nat)) (l : list clcf_t) (uri : str) (rc : Z) (conf : nat) : option (Z * nat) :=
  match l with
  | [] => Some (rc, conf)
  | c :: l =>
      let n := regex_exec c uri in
      if n =? NGX_OK then
        '(rc, conf) ← nested (c_id c);
        Some (if rc =? NGX_ERROR then rc else NGX_OK, conf)
      else if n =? NGX_DECLINED then try_regexes nested l uri rc conf
      else Some (NGX_ERROR, conf)
  end.

(** [ngx_http_core_find_location] with [r->loc_conf] at [conf] *)
Fixpoint find_location (fuel : nat) (conf : nat) (uri : str) : option (Z * nat) :=
  match fuel with
  | O => None
  | S fuel =>
      let nested := fun conf => find_location fuel conf uri in
      if hd 0 uri =? 64 then Some (find_named_location named_locations uri conf)
      else
        '(rc, loc) ← find_static_location (lv_static (levels conf)) uri NGX_DECLINED conf;
        let noregex := (rc =? NGX_AGAIN) && lv_noregex (levels loc) in
        '(rc, loc) ← (if rc =? NGX_AGAIN then nested loc else Some (rc, loc));
        if (rc =? NGX_OK) || (rc =? NGX_DONE) then Some (rc, loc)
        else if noregex then Some (rc, loc)
        else try_regexes nested (lv_regex (levels conf)) uri rc loc
  end.
End Find.

(** The tree of the [location] directives of a server or of a location, and the level they
    make; the array of regex locations ends with [NULL]. *)
Definition location_tree (ds : list clcf_t) : option tree :=
  let '(l, _, _) := init_locations (add_location <$> ds) in init_static_location_tree l.

Definition level_of (noregex : bool) (ds : list clcf_t) : option level :=
  let '(l, regexes, _) := init_locations (add_location <$> ds) in
  t ← init_static_location_tree l;
  Some (mk_level noregex t (omap id regexes)).

(** ** Orders on names *)

(** Names have no zero byte. *)
Definition ok_byte (c : Z) : Prop := 0 < c.
Abbreviation ok_name := (Forall ok_byte).

(** The lexicographic order of names whose bytes are compared by [f] *)
Section Lex.
Context (f : Z -> Z).

Fixpoint lex (a b : str) : Prop :=
  match a, b with
  | _, [] => False
  | [], _ :: _ => True
  | x :: a, y :: b => f x < f y \/ x = y /\ lex a b
  end.

Lemma lex_irrefl a : ~ lex a a.
Proof. induction a as [|x a IH]; cbn; [tauto|]. intros [?|[_ ?]]; [lia|tauto]. Qed.

Lemma lex_trans a b c : lex a b -> lex b c -> lex a c.
Proof.
  revert b c. induction a as [|x a IH]; intros [|y b] [|z c]; cbn; try tauto.
  intros [?|[-> ?]] [?|[-> ?]]; [left; lia|left; lia|left; lia|right; eauto].
Qed.

Lemma lex_total a b :
  (forall x y, ok_byte x -> ok_byte y -> f x = f y -> x = y) ->
  ok_name a -> ok_name b -> lex a b \/ a = b \/ lex b a.
Proof.
  intros Hf Ha. revert b. induction Ha as [|x a Hx _ IH]; intros b Hb; destruct Hb as [|y b Hy Hb]; cbn; try tauto.
  destruct (Z.lt_trichotomy (f x) (f y)) as [?|[E|?]]; [tauto| |tauto].
  apply Hf in E as ->; [|done..]. destruct (IH b Hb) as [?|[->|?]]; tauto.
Qed.

Lemma lex_take n a b : lex (take n a) (take n b) -> lex a b.
Proof.
  revert a b. induction n as [|n IH]; intros [|x a] [|y b]; cbn; try tauto.
  intros [?|[-> ?]]; [tauto|]. right. eauto.
Qed.

Lemma lex_prefix a b : a `prefix_of` b -> a = b \/ lex a b.
Proof.
  intros [k ->]. induction a as [|x a IH]; cbn; [destruct k; tauto|].
  destruct IH as [<-|?]; [by left|tauto].
Qed.

(** Between a name and one that begins with it are only names that begin with it. *)
Lemma lex_between p m v : p `prefix_of` v -> lex p m -> lex m v -> p `prefix_of` m.
Proof.
  intros [k ->]. revert m. induction p as [|x p IH]; intros m Hp Hm; [apply prefix_nil|].
  destruct m as [|y m]; [done|]. cbn in *. destruct Hp as [?|[<- Hp]], Hm as [?|[E Hm]]; [lia|subst; lia|lia|].
  apply prefix_cons. eauto.
Qed.

(** A name before an unrelated one is, with all its extensions. *)
Lemma lex_extension u m x : lex u m -> ~ u `prefix_of` m -> u `prefix_of` x -> lex x m.
Proof.
  intros H Hn [k ->]. revert m H Hn. induction u as [|c u IH]; intros m H Hn; [by destruct Hn; apply prefix_nil|].
  destruct m as [|y m]; [done|]. cbn in *. destruct H as [?|[<- H]]; [tauto|]. right. split; [done|].
  apply IH; [done|]. intros Hp. apply Hn. by apply prefix_cons.
Qed.
End Lex.

(** [ngx_filename_cmp] compares in this order, the slash being the lowest byte. *)
Abbreviation before := (lex slash_lowest).

Lemma slash_lowest_inj x y : ok_byte x -> ok_byte y -> slash_lowest x = slash_lowest y -> x = y.
Proof. unfold ok_byte, slash_lowest. destruct (Z.eqb_spec x 47), (Z.eqb_spec y 47); lia. Qed.

Lemma filename_cmp_cases a b n :
  ok_name a -> ok_name b ->
  ngx_filename_cmp a b n = 0 /\ take n a = take n b \/
  ngx_filename_cmp a b n < 0 /\ before (take n a) (take n b) \/
  0 < ngx_filename_cmp a b n /\ before (take n b) (take n a).
Proof.
  revert a b. induction n as [|n IH]; intros a b Ha Hb; cbn [ngx_filename_cmp take]; [tauto|].
  destruct Ha as [|x a Hx Ha], Hb as [|y b Hy Hb]; unfold ok_byte in *; cbn [hd tl].
  - cbn. tauto.
  - destruct (Z.eqb_spec 0 y); [lia|]. cbn. right. left. split; [lia|done].
  - destruct (Z.eqb_spec x 0); [lia|]. cbn. right. right. split; [lia|done].
  - destruct (Z.eqb_spec x y) as [->|Hne].
    + destruct (Z.eqb_spec y 0); [lia|]. cbn [firstn]. destruct (IH a b Ha Hb) as [[-> E]|[[? ?]|[? ?]]]; cbn; [left; by rewrite E|tauto..].
    + destruct (Z.eqb_spec x 0); [lia|]. destruct (Z.eqb_spec y 0); [lia|]. cbn.
      assert (slash_lowest x <> slash_lowest y) by (intros E; by apply slash_lowest_inj in E).
      destruct (Z.lt_trichotomy (slash_lowest x) (slash_lowest y)) as [?|[?|?]]; [right; left|done|right; right];
        (split; [lia|tauto]).
Qed.

Lemma filename_cmp_prefix a b :
  ok_name a -> ok_name b -> (length a <= length b)%nat ->
  ngx_filename_cmp a b (length a) = 0 <-> a `prefix_of` b.
Proof.
  intros Ha Hb Hl. destruct (filename_cmp_cases a b (length a) Ha Hb) as [[-> E]|[[? H]|[? H]]].
  - split; [intros _|done]. rewrite firstn_all in E. exists (drop (length a) b). rewrite <- (take_drop (length a) b) at 1. by rewrite <- E.
  - split; [lia|]. intros [k ->]. rewrite firstn_all, take_app_length in H. by apply lex_irrefl in H.
  - split; [lia|]. intros [k ->]. rewrite firstn_all, take_app_length in H. by apply lex_irrefl in H.
Qed.

(** The comparison of two whole names *)
Lemma filename_cmp_full a b :
  ok_name a -> ok_name b ->
  let rc := ngx_filename_cmp a b (Nat.min (length a) (length b) + 1) in
  rc = 0 /\ a = b \/ rc < 0 /\ before a b \/ 0 < rc /\ before b a.
Proof.
  intros Ha Hb. cbv zeta. set (n := (Nat.min (length a) (length b) + 1)%nat).
  destruct (filename_cmp_cases a b n Ha Hb) as [[-> E]|[[? H]|[? H]]].
  - left. split; [done|]. assert (length (take n a) = length (take n b)) as El by congruence.
    rewrite !length_take in El. rewrite !take_ge in E by (unfold n in *; lia). done.
  - right. left. split; [done|]. by apply lex_take in H.
  - right. right. split; [done|]. by apply lex_take in H.
Qed.

(** The directory of a name is the first of its extensions. *)
Lemma slash_first u m : ok_name m -> u `prefix_of` m -> m <> u -> m <> u ++ [47] -> before (u ++ [47]) m.
Proof.
  intros Hm [k ->] Hne Hns. rewrite list.Forall_app in Hm. destruct Hm as [_ Hk].
  induction u as [|x u IH]; cbn in *.
  - destruct k as [|y k]; [done|]. apply Forall_cons_1 in Hk as [Hy _]. destruct (Z.eqb_spec y 47) as [->|Hy47].
    + right. split; [done|]. destruct k; [done|]. done.
    + left. unfold slash_lowest, ok_byte in *. cbn. destruct (Z.eqb_spec y 47); lia.
  - right. split; [done|]. apply IH; congruence.
Qed.

(** ** The answer

    What a search should give for the URI [u] among joined locations: the location of that
    name, or a redirect to the directory of that name, or the last location whose name the URI
    begins with. *)

Definition item_redirects (x : lq_t) : bool :=
  conf_redirects (lq_exact x) || conf_redirects (lq_inclusive x).

Definition hits (u : str) (x : lq_t) : bool := bool_decide (lq_name x = u).
Definition redirects (u : str) (x : lq_t) : bool := bool_decide (lq_name x = u ++ [47]) && item_redirects x.
Definition covers (u : str) (x : lq_t) : bool :=
  bool_decide (is_Some (lq_inclusive x)) && bool_decide (lq_name x `prefix_of` u) && negb (hits u x).

(** The configuration of an element, the exact one first *)
Definition pick (rc rc' : Z) (x : lq_t) : option (Z * nat) :=
  match lq_exact x, lq_inclusive x with
  | Some c, _ => Some (rc, c_id c)
  | None, Some c => Some (rc', c_id c)
  | None, None => None
  end.

Definition pick_inclusive (x : lq_t) : option (Z * nat) :=
  c ← lq_inclusive x; Some (NGX_AGAIN, c_id c).

Definition answer (l : list lq_t) (u : str) (rv : Z) (conf : nat) : option (Z * nat) :=
  match List.find (hits u) l with
  | Some x => pick NGX_OK NGX_AGAIN x
  | None =>
      match List.find (redirects u) l with
      | Some x => pick NGX_DONE NGX_DONE x
      | None =>
          match list.last (List.filter (covers u) l) with
          | Some x => pick_inclusive x
          | None => Some (rv, conf)
          end
      end
  end.

Definition irrelevant (u : str) (x : lq_t) : Prop :=
  hits u x = false /\ redirects u x = false /\ covers u x = false.

Lemma find_none {A} (f : A -> bool) l : Forall (fun x => f x = false) l -> List.find f l = None.
Proof. induction 1 as [|x l Hx _ IH]; cbn; [done|]. by rewrite Hx. Qed.

Lemma find_app {A} (f : A -> bool) l1 l2 :
  List.find f (l1 ++ l2) = match List.find f l1 with Some x => Some x | None => List.find f l2 end.
Proof. induction l1 as [|x l IH]; cbn; [done|]. by destruct (f x). Qed.

Lemma filter_false {A} (f : A -> bool) l : Forall (fun x => f x = false) l -> List.filter f l = [].
Proof. induction 1 as [|x l Hx _ IH]; cbn; [done|]. by rewrite Hx. Qed.

Lemma irrelevant_all u l :
  Forall (irrelevant u) l ->
  Forall (fun x => hits u x = false) l /\ Forall (fun x => redirects u x = false) l /\ Forall (fun x => covers u x = false) l.
Proof. rewrite !list.Forall_forall. unfold irrelevant. intros H. split_and!; intros x Hx; by destruct (H x Hx) as (? & ? & ?). Qed.

Lemma answer_drop u l1 l2 l3 rv conf :
  Forall (irrelevant u) l1 -> Forall (irrelevant u) l3 -> answer (l1 ++ l2 ++ l3) u rv conf = answer l2 u rv conf.
Proof.
  intros (A1 & A2 & A3)%irrelevant_all (B1 & B2 & B3)%irrelevant_all. unfold answer.
  rewrite !find_app, !(find_none _ l1), !(find_none _ l3) by done.
  rewrite !List.filter_app, !(filter_false _ l1), !(filter_false _ l3) by done. rewrite app_nil_r. cbn [app].
  destruct (List.find (hits u) l2); [done|]. by destruct (List.find (redirects u) l2).
Qed.

(** A name before or behind the URI that is not part of the answer *)
Lemma irrelevant_gt u x : before u (lq_name x) -> redirects u x = false -> irrelevant u x.
Proof.
  intros H Hr. assert (lq_name x <> u) as Hne by (intros E; rewrite E in H; by apply lex_irrefl in H).
  unfold irrelevant, covers, hits. rewrite (bool_decide_false (lq_name x = u)) by done. split_and!; [done..|].
  rewrite (bool_decide_false (_ `prefix_of` _)), andb_false_r; [done|].
  intros [?|Hp]%(lex_prefix slash_lowest); [done|]. apply (lex_irrefl slash_lowest u). by eapply lex_trans.
Qed.

Lemma irrelevant_lt u x :
  before (lq_name x) u -> (is_Some (lq_inclusive x) -> ~ lq_name x `prefix_of` u) -> irrelevant u x.
Proof.
  intros H Hc. assert (lq_name x <> u) as Hne by (intros E; rewrite E in H; by apply lex_irrefl in H).
  unfold irrelevant, covers, hits, redirects. rewrite (bool_decide_false (lq_name x = u)) by done. split_and!; [done|..].
  - rewrite (bool_decide_false (lq_name x = u ++ [47])); [done|]. intros E.
    destruct (lex_prefix slash_lowest u (u ++ [47])) as [E'|Hl]; [by eexists|..].
    + apply (f_equal length) in E'. rewrite length_app in E'. cbn in E'. lia.
    + rewrite <- E in Hl. apply (lex_irrefl slash_lowest u). by eapply lex_trans.
  - rewrite andb_true_r. destruct (lq_inclusive x) eqn:Ei; [|done].
    rewrite (bool_decide_false (_ `prefix_of` _)), andb_false_r; [done|]. apply Hc. by eexists.
Qed.

(** ** Grouped locations *)

(** The nested queues with the elements of [fl], in its order: every name begins with the
    prefix and is longer; the names that begin with that of an inclusive location are exactly
    those nested in it. *)
Inductive grouped : str -> list lq_t -> list lq_t -> Prop :=
| grouped_nil p : grouped p [] []
| grouped_cons p x sub fs l fl :
    p `prefix_of` lq_name x -> lq_name x <> p ->
    grouped (lq_name x) sub fs -> (lq_inclusive x = None -> fs = []) ->
    (is_Some (lq_inclusive x) -> Forall (fun y => ~ lq_name x `prefix_of` lq_name y) fl) ->
    grouped p l fl ->
    grouped p (mk_lq (lq_name x) (lq_exact x) (lq_inclusive x) sub :: l) (x :: fs ++ fl).

Lemma grouped_extends p l fl : grouped p l fl -> Forall (fun y => p `prefix_of` lq_name y /\ lq_name y <> p) fl.
Proof.
  induction 1 as [p|p x sub fs l fl Hp Hne _ IHs _ _ _ IH]; [constructor|]. constructor; [done|].
  rewrite list.Forall_app. split; [|done]. eapply list.Forall_impl; [exact IHs|]. cbn. intros y [H1 H2].
  split; [by etransitivity|]. intros E. apply H2. rewrite E in *.
  apply (anti_symm prefix); done.
Qed.

Lemma grouped_app p l1 l2 fl :
  grouped p (l1 ++ l2) fl ->
  exists f1 f2, fl = f1 ++ f2 /\ grouped p l1 f1 /\ grouped p l2 f2 /\
    forall y x, y ∈ f1 -> is_Some (lq_inclusive y) -> x ∈ f2 -> ~ lq_name y `prefix_of` lq_name x.
Proof.
  revert fl. induction l1 as [|z l1 IH]; intros fl H; cbn [app] in H.
  - exists [], fl. split_and!; [done|constructor|done|]. by intros y x ?%not_elem_of_nil.
  - inversion H as [|p' x sub fs l fl' Hp Hne Hs Hn Hf Hl E1 E2 E3]; subst.
    destruct (IH _ Hl) as (f1 & f2 & -> & H1 & H2 & Hsep).
    exists (x :: fs ++ f1), f2. split; [cbn; by rewrite <- app_assoc|]. split; [|split; [done|]].
    + constructor; try done. intros Hi. specialize (Hf Hi). rewrite list.Forall_app in Hf. tauto.
    + intros y y' Hy Hi Hy'. rewrite elem_of_cons, elem_of_app in Hy.
      assert (is_Some (lq_inclusive x) -> ~ lq_name x `prefix_of` lq_name y') as Hx.
      { intros Hx. specialize (Hf Hx). rewrite list.Forall_app in Hf. destruct Hf as [_ Hf].
        rewrite list.Forall_forall in Hf. by apply Hf. }
      destruct Hy as [->|[Hy|Hy]]; [by apply Hx| |by eapply Hsep].
      intros Hpre. apply Hx.
      * destruct (lq_inclusive x) eqn:Ei; [by eexists|]. rewrite Hn in Hy by done. by apply not_elem_of_nil in Hy.
      * apply grouped_extends in Hs. rewrite list.Forall_forall in Hs. destruct (Hs y Hy) as [? _]. by etransitivity.
Qed.

(** ** The search *)

(** An element the tree can hold: its name, its configurations, and a directory name where a
    redirect is asked for *)
Definition ok_item (x : lq_t) : Prop :=
  ok_name (lq_name x) /\ (length (lq_name x) <= 255)%nat /\
  (is_Some (lq_exact x) \/ is_Some (lq_inclusive x)) /\
  (item_redirects x = true -> exists d, lq_name x = d ++ [47]).

Abbreviation sorted_names := (StronglySorted (fun x y => before (lq_name x) (lq_name y))).

Lemma before_prefix_app p a b : before a b -> before (p ++ a) (p ++ b).
Proof. intros H. induction p as [|x p IH]; cbn; tauto. Qed.

Lemma unrelated p v m n :
  n = Nat.min (length v) (length m) -> before (take n v) (take n m) ->
  before (p ++ v) (p ++ m) /\ ~ (p ++ v) `prefix_of` (p ++ m) /\ ~ (p ++ m) `prefix_of` (p ++ v).
Proof.
  intros -> H. split; [apply before_prefix_app; by eapply lex_take|].
  split; intros Hp; apply prefix_app_inv in Hp as [k Hk]; rewrite Hk, length_app in H.
  - replace (Nat.min (length v) (length v + length k)) with (length v) in H by lia.
    rewrite firstn_all, take_app_length in H. by apply lex_irrefl in H.
  - replace (Nat.min (length m + length k) (length m)) with (length m) in H by lia.
    rewrite firstn_all, take_app_length in H. by apply lex_irrefl in H.
Qed.

Lemma answer_hit l1 x l2 u rv conf :
  Forall (fun y => hits u y = false) l1 -> lq_name x = u ->
  answer (l1 ++ x :: l2) u rv conf = pick NGX_OK NGX_AGAIN x.
Proof.
  intros H1 Hx. unfold answer. rewrite find_app, find_none by done. cbn [List.find].
  unfold hits at 1. by rewrite bool_decide_true.
Qed.

Lemma answer_cover x l u rv conf c :
  lq_inclusive x = Some c -> lq_name x `prefix_of` u -> lq_name x <> u ->
  answer (x :: l) u rv conf = answer l u NGX_AGAIN (c_id c).
Proof.
  intros Hi Hp Hne. unfold answer. cbn [List.find List.filter].
  assert (hits u x = false) as Hh by (unfold hits; by rewrite bool_decide_false).
  assert (redirects u x = false) as ->.
  { unfold redirects. rewrite bool_decide_false; [done|]. intros E. destruct Hp as [k ->].
    apply (f_equal length) in E. rewrite !length_app in E. cbn in E. lia. }
  assert (covers u x = true) as ->.
  { unfold covers. rewrite Hh, Hi. rewrite !bool_decide_true; [done|done|by eexists]. }
  rewrite Hh. destruct (List.find (hits u) l); [done|]. destruct (List.find (redirects u) l); [done|].
  destruct (List.filter (covers u) l) as [|y k] eqn:E; cbn [list.last].
  - unfold pick_inclusive. by rewrite Hi.
  - change (list.last (x :: y :: k)) with (list.last (y :: k)).
    destruct (list.last (y :: k)) eqn:El; [done|]. by apply last_None in El.
Qed.

Lemma answer_redirect l x u rv conf c :
  Forall (fun y => redirects u y = false) l -> Forall (fun y => covers u y = false) l ->
  lq_name x = u ++ [47] -> item_redirects x = true ->
  match lq_exact x with Some c => Some c | None => lq_inclusive x end = Some c ->
  answer (l ++ [x]) u rv conf = answer l u NGX_DONE (c_id c).
Proof.
  intros H1 H2 Hx Hr Hc.
  unfold answer. rewrite !find_app, !(find_none (redirects u) l), !(filter_false (covers u) l) by done. cbn [List.find list.last].
  assert (hits u x = false) as ->.
  { unfold hits. rewrite bool_decide_false; [done|]. rewrite Hx. intros E. apply (f_equal length) in E.
    rewrite length_app in E. cbn in E. lia. }
  assert (redirects u x = true) as -> by (unfold redirects; rewrite bool_decide_true by done; done).
  destruct (List.find (hits u) l); [done|]. unfold pick. destruct (lq_exact x); [by injection Hc as ->|]. by rewrite Hc.
Qed.

Lemma sorted_parts l1 x l2 :
  sorted_names (l1 ++ x :: l2) ->
  sorted_names l1 /\ sorted_names l2 /\ (forall y, y ∈ l1 -> before (lq_name y) (lq_name x)) /\
  (forall y, y ∈ l2 -> before (lq_name x) (lq_name y)).
Proof.
  rewrite StronglySorted_app. intros (H1 & H2 & H3). apply StronglySorted_inv in H3 as [H3 H4].
  rewrite list.Forall_forall in H4. split_and!; try done. intros y Hy. apply H1; [done|left].
Qed.

(** What is before or behind an element, seen from the URI *)
Section At.
Context (u : str) (l1 : list lq_t) (x : lq_t) (l2 : list lq_t).
Hypothesis Hu : ok_name u.
Hypothesis Hok : Forall ok_item (l1 ++ x :: l2).
Hypothesis Hlt : forall y, y ∈ l1 -> before (lq_name y) (lq_name x).
Hypothesis Hgt : forall y, y ∈ l2 -> before (lq_name x) (lq_name y).
Hypothesis Hsep : forall y, y ∈ l1 -> is_Some (lq_inclusive y) -> ~ lq_name y `prefix_of` lq_name x.

Lemma left_irrelevant : before (lq_name x) u -> Forall (irrelevant u) l1.
Proof.
  intros Hx. apply list.Forall_forall. intros y Hy. apply irrelevant_lt; [eapply lex_trans; eauto|].
  intros Hi Hp. apply (Hsep y Hy Hi). eapply lex_between; eauto.
Qed.

Lemma right_irrelevant : before u (lq_name x) -> ~ u `prefix_of` lq_name x -> Forall (irrelevant u) (x :: l2).
Proof.
  intros Hx Hn. apply list.Forall_forall. intros y Hy.
  assert (forall z, lq_name z = u ++ [47] -> z ∈ x :: l2 -> False) as Hz.
  { intros z Ez Hz. rewrite elem_of_cons in Hz. assert (u `prefix_of` lq_name z) as Hp by (rewrite Ez; by eexists).
    destruct Hz as [->|Hz]; [done|]. apply (lex_irrefl slash_lowest (lq_name x)).
    eapply lex_trans; [by apply Hgt|]. eapply lex_extension; eauto. }
  apply irrelevant_gt.
  - rewrite elem_of_cons in Hy. destruct Hy as [->|Hy]; [done|]. eapply lex_trans; eauto.
  - unfold redirects. rewrite bool_decide_false; [done|]. eauto.
Qed.

Lemma right_of_extension : u `prefix_of` lq_name x -> lq_name x <> u -> Forall (irrelevant u) l2.
Proof.
  intros Hp Hne. apply list.Forall_forall. intros y Hy.
  assert (before u (lq_name x)) as Hux by (by destruct (lex_prefix slash_lowest _ _ Hp)).
  apply irrelevant_gt; [eapply lex_trans; eauto|]. unfold redirects. rewrite bool_decide_false; [done|]. intros E.
  rewrite list.Forall_app in Hok. destruct Hok as [_ Hx]. apply Forall_cons_1 in Hx as [[Hx _] _].
  specialize (Hgt y Hy). rewrite E in Hgt. destruct (decide (lq_name x = u ++ [47])) as [Ex|Ex].
  - rewrite Ex in Hgt. by apply lex_irrefl in Hgt.
  - apply (lex_irrefl slash_lowest (lq_name x)). eapply lex_trans; [exact Hgt|]. by apply slash_first.
Qed.

Lemma left_no_cover : u `prefix_of` lq_name x -> Forall (fun y => covers u y = false) l1.
Proof.
  intros Hp. apply list.Forall_forall. intros y Hy. unfold covers.
  destruct (bool_decide_reflect (is_Some (lq_inclusive y))) as [Hi|]; [|done].
  rewrite bool_decide_false; [done|]. intros Hy'. apply (Hsep y Hy Hi). by etransitivity.
Qed.

Lemma left_no_hit : lq_name x = u -> Forall (fun y => hits u y = false) l1.
Proof.
  intros <-. apply list.Forall_forall. intros y Hy. unfold hits. apply bool_decide_false. intros E.
  specialize (Hlt y Hy). rewrite E in Hlt. by apply lex_irrefl in Hlt.
Qed.

Lemma left_no_redirect : lq_name x = u ++ [47] -> Forall (fun y => redirects u y = false) l1.
Proof.
  intros Hx. apply list.Forall_forall. intros y Hy. unfold redirects. rewrite bool_decide_false; [done|]. intros E.
  specialize (Hlt y Hy). rewrite Hx, E in Hlt. by apply lex_irrefl in Hlt.
Qed.

(** Behind an inclusive location whose name the URI begins with, when no name there does *)
Lemma right_of_cover :
  lq_name x `prefix_of` u -> Forall (fun y => ~ lq_name x `prefix_of` lq_name y) l2 -> Forall (irrelevant u) l2.
Proof.
  intros Hp Hn. rewrite list.Forall_forall in Hn. apply list.Forall_forall. intros y Hy.
  assert (ok_name (lq_name y)) as Hyo.
  { rewrite list.Forall_app in Hok. destruct Hok as [_ Hx]. apply Forall_cons_1 in Hx as [_ Hx].
    rewrite list.Forall_forall in Hx. by apply Hx. }
  destruct (lex_total slash_lowest u (lq_name y) slash_lowest_inj Hu Hyo) as [H|[H|H]].
  - apply irrelevant_gt; [done|]. unfold redirects. rewrite bool_decide_false; [done|]. intros E. apply (Hn y Hy).
    rewrite E. etransitivity; [exact Hp|by eexists].
  - exfalso. apply (Hn y Hy). by rewrite <- H.
  - exfalso. apply (Hn y Hy). eapply lex_between; eauto.
Qed.
End At.

Lemma tree_or_null_Some f l t : tree_or_null f l = Some t -> l = [] /\ t = Leaf \/ f l = Some t.
Proof. destruct l; cbn; [intros [= <-]; by left|by right]. Qed.

(** The queue at the middle: the parts of the tree that is built from it *)
Lemma tree_parts fuel l p t :
  create_locations_tree (S fuel) l p = Some t ->
  exists a x b lt rt st, l = a ++ x :: b /\
    t = Node lt rt st (lq_exact x) (lq_inclusive x) (item_redirects x)
          (Z.of_nat (length (lq_name x) - p) mod 256) (drop p (lq_name x)) /\
    (a = [] /\ lt = Leaf \/ create_locations_tree fuel a p = Some lt) /\
    (b = [] /\ rt = Leaf \/ create_locations_tree fuel b p = Some rt) /\
    (lq_list x = [] /\ st = Leaf \/ create_locations_tree fuel (lq_list x) (p + (length (lq_name x) - p)) = Some st).
Proof.
  cbn [create_locations_tree]. destruct (l !! (length l / 2)%nat) as [x|] eqn:Ex; [|done]. cbn [mbind option_bind].
  pose proof (take_drop_middle _ _ _ Ex) as El. intros H.
  remember (take (length l / 2) l) as a eqn:Ea. remember (drop (S (length l / 2)) l) as b eqn:Eb.
  destruct (tree_or_null _ a) as [lt|] eqn:Elt; [|done]. cbn [mbind option_bind] in H.
  destruct (if (length a =? 0)%nat then _ else _) as [rt|] eqn:Ert; [|done]. cbn [mbind option_bind] in H.
  destruct (tree_or_null _ (lq_list x)) as [st|] eqn:Est; [|done]. cbn [mbind option_bind] in H.
  injection H as <-. exists a, x, b, lt, rt, st. split; [done|]. split; [done|]. split_and!.
  - by apply tree_or_null_Some in Elt.
  - destruct (length a =? 0)%nat eqn:E0; [|by apply tree_or_null_Some in Ert].
    left. injection Ert as <-. split; [|done]. apply Nat.eqb_eq in E0. apply lookup_lt_Some in Ex.
    rewrite Ea, length_take in E0. rewrite Eb. apply nil_length_inv. rewrite length_drop.
    assert (length l / 2 = 0)%nat as Hn by lia. apply Nat.div_small_iff in Hn; lia.
  - by apply tree_or_null_Some in Est.
Qed.

(** *** The cases of the search at a node

    The elements [fa] before [x], those nested in it ([fs]) and those behind it ([fb]). *)
Section Cases.
Context (u : str) (x : lq_t) (fa fs fb : list lq_t) (rv : Z) (conf : nat).
Hypothesis Hu : ok_name u.
Hypothesis Hok : Forall ok_item (x :: fs ++ fb).
Hypothesis Hlo : forall y, y ∈ fa -> before (lq_name y) (lq_name x).
Hypothesis Hhi : forall y, y ∈ fs ++ fb -> before (lq_name x) (lq_name y).
Hypothesis Hsep : forall y, y ∈ fa -> is_Some (lq_inclusive y) -> ~ lq_name y `prefix_of` lq_name x.

(** The URI goes on behind the name of an inclusive location: only what is nested matters. *)
Lemma case_inside c :
  lq_inclusive x = Some c -> lq_name x `prefix_of` u -> lq_name x <> u ->
  Forall (fun y => ~ lq_name x `prefix_of` lq_name y) fb ->
  answer (fa ++ x :: fs ++ fb) u rv conf = answer fs u NGX_AGAIN (c_id c).
Proof.
  intros Hi Hp Hne Hfb. destruct (lex_prefix slash_lowest _ _ Hp) as [?|Hxu]; [done|].
  rewrite <- (answer_cover x fs u rv conf c Hi Hp Hne). apply (answer_drop u fa (x :: fs) fb).
  - by apply (left_irrelevant u fa x).
  - apply (right_of_cover u [] x fb Hu); [|intros y Hy; apply Hhi, elem_of_app; by right|done|done].
    apply Forall_cons_1 in Hok as [Ox Hr]. rewrite list.Forall_app in Hr. constructor; tauto.
Qed.

(** The URI is behind the name, which does not cover it: only what is behind matters. *)
Lemma case_behind :
  before (lq_name x) u -> (is_Some (lq_inclusive x) -> ~ lq_name x `prefix_of` u) -> Forall (irrelevant u) fs ->
  answer (fa ++ x :: fs ++ fb) u rv conf = answer fb u rv conf.
Proof.
  intros Hxu Hc Hfs. replace (fa ++ x :: fs ++ fb) with ((fa ++ x :: fs) ++ fb ++ []) by (rewrite app_nil_r, <- app_assoc; done).
  apply answer_drop; [|constructor]. rewrite list.Forall_app. split; [by apply (left_irrelevant u fa x)|].
  constructor; [by apply irrelevant_lt|done].
Qed.

(** The URI is before the name and not part of it. *)
Lemma case_before :
  before u (lq_name x) -> ~ u `prefix_of` lq_name x -> answer (fa ++ x :: fs ++ fb) u rv conf = answer fa u rv conf.
Proof.
  intros H1 H2. replace (fa ++ x :: fs ++ fb) with ([] ++ fa ++ (x :: fs ++ fb)) by done.
  apply answer_drop; [constructor|]. by apply right_irrelevant.
Qed.

(** The name goes on behind the URI. *)
Lemma case_beyond :
  u `prefix_of` lq_name x -> lq_name x <> u -> answer (fa ++ x :: fs ++ fb) u rv conf = answer (fa ++ [x]) u rv conf.
Proof.
  intros Hp Hne. replace (fa ++ x :: fs ++ fb) with ([] ++ (fa ++ [x]) ++ (fs ++ fb)) by (cbn; by rewrite <- app_assoc).
  apply answer_drop; [constructor|]. by apply (right_of_extension u [] x (fs ++ fb)).
Qed.

Lemma case_beyond_other :
  u `prefix_of` lq_name x -> lq_name x <> u -> redirects u x = false ->
  answer (fa ++ x :: fs ++ fb) u rv conf = answer fa u rv conf.
Proof.
  intros Hp Hne Hr. rewrite case_beyond by done. replace (fa ++ [x]) with ([] ++ fa ++ [x]) by done.
  apply answer_drop; [constructor|]. constructor; [|constructor]. apply irrelevant_gt; [|done].
  by destruct (lex_prefix slash_lowest _ _ Hp) as [?|?].
Qed.

Lemma case_redirect c :
  lq_name x = u ++ [47] -> item_redirects x = true ->
  match lq_exact x with Some c => Some c | None => lq_inclusive x end = Some c ->
  answer (fa ++ x :: fs ++ fb) u rv conf = answer fa u NGX_DONE (c_id c).
Proof.
  intros Hx Hr Hc. assert (u `prefix_of` lq_name x) as Hp by (rewrite Hx; by eexists).
  rewrite case_beyond; [|done|rewrite Hx; intros E; apply (f_equal length) in E; rewrite length_app in E; cbn in E; lia].
  apply answer_redirect; [by apply (left_no_redirect u fa x)|by apply (left_no_cover u fa x)|done..].
Qed.
End Cases.

(** How the URI and the relative name of a node compare, by what the search tests *)
Lemma compare_cases p v m n :
  ok_name v -> ok_name m -> n = Nat.min (length v) (length m) ->
  let rc := ngx_filename_cmp v m n in
  (rc < 0 /\ before (p ++ v) (p ++ m) /\ ~ (p ++ v) `prefix_of` (p ++ m)) \/
  (0 < rc /\ before (p ++ m) (p ++ v) /\ ~ (p ++ m) `prefix_of` (p ++ v)) \/
  (rc = 0 /\ exists k, v = m ++ k /\ k <> []) \/ (rc = 0 /\ v = m) \/ (rc = 0 /\ exists k, m = v ++ k /\ k <> []).
Proof.
  intros Hv Hm -> rc. destruct (filename_cmp_cases v m (Nat.min (length v) (length m)) Hv Hm) as [[Hrc E]|[[Hrc H]|[Hrc H]]].
  - right. right. destruct (Nat.lt_trichotomy (length v) (length m)) as [Hl|[Hl|Hl]].
    + right. right. split; [done|]. rewrite Nat.min_l, firstn_all in E by lia. exists (drop (length v) m). split.
      * rewrite E at 1. by rewrite take_drop.
      * intros Hd%(f_equal length). rewrite length_drop in Hd. cbn in Hd. lia.
    + right. left. split; [done|]. rewrite Nat.min_l, firstn_all, take_ge in E by lia. done.
    + left. split; [done|]. rewrite Nat.min_r, firstn_all in E by lia. exists (drop (length m) v). split.
      * rewrite <- E at 1. by rewrite take_drop.
      * intros Hd%(f_equal length). rewrite length_drop in Hd. cbn in Hd. lia.
  - left. destruct (unrelated p v m _ eq_refl H) as (? & ? & ?). done.
  - right. left. destruct (unrelated p m v _ (Nat.min_comm _ _) H) as (? & ? & ?). done.
Qed.

(** The search at a node, given that the searches in its subtrees give the answers there *)
Section AtNode.
Context (p v m : str) (x : lq_t) (fa fs fb : list lq_t) (lt rt st : tree) (rv : Z) (conf : nat).
Hypothesis Hu : ok_name (p ++ v).
Hypothesis Hok : Forall ok_item (x :: fs ++ fb).
Hypothesis Hlo : forall y, y ∈ fa -> before (lq_name y) (lq_name x).
Hypothesis Hhi : forall y, y ∈ fs ++ fb -> before (lq_name x) (lq_name y).
Hypothesis Hsep : forall y, y ∈ fa -> is_Some (lq_inclusive y) -> ~ lq_name y `prefix_of` lq_name x.
Hypothesis Hname : lq_name x = p ++ m.
Hypothesis Hfs : Forall (fun y => lq_name x `prefix_of` lq_name y) fs.
Hypothesis Hexact : lq_inclusive x = None -> fs = [].
Hypothesis Hfb : is_Some (lq_inclusive x) -> Forall (fun y => ~ lq_name x `prefix_of` lq_name y) fb.
Hypothesis Hlt : forall rv conf, find_static_location lt v rv conf = answer fa (p ++ v) rv conf.
Hypothesis Hrt : forall rv conf, find_static_location rt v rv conf = answer fb (p ++ v) rv conf.
Hypothesis Hst : forall k rv conf, v = m ++ k -> find_static_location st k rv conf = answer fs (p ++ v) rv conf.

Lemma find_node :
  find_static_location (Node lt rt st (lq_exact x) (lq_inclusive x) (item_redirects x) (Z.of_nat (length m)) m) v rv conf
    = answer (fa ++ x :: fs ++ fb) (p ++ v) rv conf.
Proof.
  pose proof Hok as Ox. apply Forall_cons_1 in Ox as [(Nx & _ & Cx & Rx) _].
  assert (ok_name v) as Ov by (rewrite list.Forall_app in Hu; tauto).
  assert (ok_name m) as Om by (rewrite Hname, list.Forall_app in Nx; tauto).
  cbn [find_static_location].
  replace (if Z.of_nat (length v) <=? Z.of_nat (length m) then length v else Z.to_nat (Z.of_nat (length m)))
    with (Nat.min (length v) (length m)) by (destruct (Z.leb_spec (Z.of_nat (length v)) (Z.of_nat (length m))); lia).
  destruct (compare_cases p v m _ Ov Om eq_refl) as [(Hrc & H1 & H2)|[(Hrc & H1 & H2)|[(-> & k & Ev & Hk)|[(-> & Ev)|(-> & k & Em & Hk)]]]];
    rewrite <- ?Hname in *; cbn [Z.eqb negb].
  - destruct (Z.eqb_spec (ngx_filename_cmp v m (Nat.min (length v) (length m))) 0); [lia|]. cbn [negb].
    destruct (Z.ltb_spec (ngx_filename_cmp v m (Nat.min (length v) (length m))) 0); [|lia]. rewrite Hlt. symmetry. by apply case_before.
  - destruct (Z.eqb_spec (ngx_filename_cmp v m (Nat.min (length v) (length m))) 0); [lia|]. cbn [negb].
    destruct (Z.ltb_spec (ngx_filename_cmp v m (Nat.min (length v) (length m))) 0); [lia|]. rewrite Hrt. symmetry. apply case_behind; try done.
    eapply list.Forall_impl; [exact Hfs|]. cbn. intros y Hy. apply irrelevant_lt; [by eapply lex_extension|].
    intros _ Hyu. apply H2. by etransitivity.
  - assert (lq_name x `prefix_of` p ++ v) as Hp by (exists k; by rewrite Hname, Ev, app_assoc).
    assert (lq_name x <> p ++ v) as Hne.
    { rewrite Hname, Ev. intros E%app_inv_head. apply (f_equal length) in E. rewrite length_app in E. destruct k; [done|cbn in E; lia]. }
    assert (length v = length m + length k)%nat as El by (by rewrite Ev, length_app).
    assert (0 < length k)%nat by (destruct k; [done|cbn; lia]).
    destruct (Z.of_nat (length v) >? Z.of_nat (length m)) eqn:Eg; [|lia].
    destruct (lq_inclusive x) as [c|] eqn:Ei.
    + rewrite (case_inside _ x fa fs fb rv conf Hu Hok Hlo Hhi Hsep c Ei Hp Hne) by (apply Hfb; by eexists).
      rewrite Nat.min_r by lia. rewrite Ev at 1. rewrite drop_app_length. by apply Hst.
    + rewrite Hrt. symmetry. apply case_behind; try done; [|by rewrite Ei; intros [? ?]|by rewrite (Hexact eq_refl)].
      by destruct (lex_prefix slash_lowest _ _ Hp).
  - subst m. destruct (Z.of_nat (length v) >? Z.of_nat (length v)) eqn:Eg; [lia|]. rewrite Z.eqb_refl.
    rewrite (answer_hit fa x (fs ++ fb)) by first [done|by apply (left_no_hit (p ++ v) fa x)].
    unfold pick. destruct (lq_exact x); [done|]. by destruct (lq_inclusive x).
  - assert (lq_name x = (p ++ v) ++ k) as En by (by rewrite Hname, Em, app_assoc).
    assert (length m = length v + length k)%nat as El by (by rewrite Em, length_app).
    assert (0 < length k)%nat by (destruct k; [done|cbn; lia]).
    destruct (Z.of_nat (length v) >? Z.of_nat (length m)) eqn:Eg; [lia|].
    destruct (Z.of_nat (length v) =? Z.of_nat (length m)) eqn:Ee; [lia|].
    assert (p ++ v `prefix_of` lq_name x) as Hp by (by exists k).
    assert (lq_name x <> p ++ v) as Hne.
    { intros E. rewrite E in En. apply (f_equal length) in En. rewrite (length_app (p ++ v)) in En. lia. }
    destruct ((Z.of_nat (length v) + 1 =? Z.of_nat (length m)) && item_redirects x) eqn:Er.
    + apply andb_true_iff in Er as [Er1%Z.eqb_eq Er2]. destruct (Rx Er2) as [d Ed].
      assert (lq_name x = (p ++ v) ++ [47]) as Exs.
      { destruct k as [|c [|? ?]]; [done| |cbn [length] in *; lia]. rewrite En in Ed |- *. by apply app_inj_tail in Ed as [_ ->]. }
      assert (forall c, match lq_exact x with Some c => Some c | None => lq_inclusive x end = Some c ->
        answer (fa ++ x :: fs ++ fb) (p ++ v) rv conf = answer fa (p ++ v) NGX_DONE (c_id c)) as Hred by (intros c; by apply case_redirect).
      destruct (lq_exact x) as [c|]; [rewrite (Hred c eq_refl); apply Hlt|].
      destruct (lq_inclusive x) as [c|]; [rewrite (Hred c eq_refl); apply Hlt|]. by destruct Cx as [[? ?]|[? ?]].
    + rewrite Hlt. symmetry. apply case_beyond_other; try done. unfold redirects.
      destruct (bool_decide_reflect (lq_name x = (p ++ v) ++ [47])) as [Exs|]; [|done]. cbn [andb].
      rewrite En in Exs. apply app_inv_head in Exs. subst k. cbn [length] in El. destruct (item_redirects x); [|done].
      rewrite andb_true_r in Er. apply Z.eqb_neq in Er. lia.
Qed.
End AtNode.

(** The search in the tree of grouped locations gives the answer. *)
Lemma find_grouped fuel : forall p l fl t v rv conf,
  grouped p l fl -> sorted_names fl -> Forall ok_item fl -> ok_name (p ++ v) ->
  create_locations_tree fuel l (length p) = Some t ->
  find_static_location t v rv conf = answer fl (p ++ v) rv conf.
Proof.
  induction fuel as [|fuel IH]; intros p l fl t v rv conf Hg Hs Hok Hu Ht; [done|].
  destruct (tree_parts _ _ _ _ Ht) as (a & x0 & b & lt & rt & st & -> & -> & Hlt & Hrt & Hst). clear Ht.
  destruct (grouped_app p a (x0 :: b) fl Hg) as (fa & fr & -> & Ga & Gr & Hsep).
  inversion Gr as [|p' x sub fs b' fb Hp Hne Gs Hn Hf Gb E1 E2 E3]; subst. clear Gr.
  cbn [lq_name lq_exact lq_inclusive lq_list] in *. unfold item_redirects. cbn [lq_exact lq_inclusive]. fold (item_redirects x).
  pose proof (sorted_parts _ _ _ Hs) as (Sa & Sfb & Hlo & Hhi). apply StronglySorted_app in Sfb as (_ & Sfs & Sb).
  rewrite list.Forall_app in Hok. destruct Hok as [Oa Ox]. pose proof Ox as Ox0.
  apply Forall_cons_1 in Ox0 as [(_ & Lx & _) Ofb]. rewrite list.Forall_app in Ofb. destruct Ofb as [Ofs Ob].
  destruct Hp as [m Em]. assert (length (lq_name x) - length p = length m)%nat as Elen by (rewrite Em, length_app; lia).
  rewrite Elen in *. replace (drop (length p) (lq_name x)) with m by (by rewrite Em, drop_app_length).
  rewrite (Z.mod_small (Z.of_nat (length m)) 256) by (rewrite Em, length_app in Lx; lia).
  apply find_node; try done.
  - intros y Hy Hi. apply (Hsep y x Hy Hi). left.
  - apply grouped_extends in Gs. eapply list.Forall_impl; [exact Gs|]. by intros y [? _].
  - intros rv' conf'. destruct Hlt as [[-> ->]|Hlt]; [by inversion Ga; subst|by apply (IH p a fa)].
  - intros rv' conf'. destruct Hrt as [[-> ->]|Hrt]; [by inversion Gb; subst|by apply (IH p b fb)].
  - intros k rv' conf' Ev. destruct Hst as [[-> ->]|Hst]; [by inversion Gs; subst|].
    assert (p ++ v = lq_name x ++ k) as Eu by (by rewrite Em, Ev, app_assoc). rewrite Eu.
    eapply IH; [exact Gs|done|done|by rewrite <- Eu|]. by rewrite Em, length_app.
Qed.

(** ** Grouping *)

Lemma prefix_span_ok name l a b :
  ok_name name -> Forall (fun x => ok_name (lq_name x)) l -> prefix_span name l = (a, b) ->
  l = a ++ b /\ Forall (fun x => name `prefix_of` lq_name x) a /\
  match b with x :: _ => ~ name `prefix_of` lq_name x | [] => True end.
Proof.
  intros Hn Hl. revert a b. induction Hl as [|x l Hx Hl IH]; intros a b; cbn [prefix_span]; [by intros [= <- <-]|].
  assert ((length (lq_name x) <? length name)%nat || negb (ngx_filename_cmp name (lq_name x) (length name) =? 0) = true
          <-> ~ name `prefix_of` lq_name x) as Htest.
  { rewrite orb_true_iff, negb_true_iff, Nat.ltb_lt, Z.eqb_neq. destruct (decide (length name <= length (lq_name x))%nat) as [Hle|Hle].
    - rewrite (filename_cmp_prefix name (lq_name x) Hn Hx Hle). split; [intros [?|?]; [lia|done]|tauto].
    - split; [|lia]. intros _ Hp%prefix_length. lia. }
  destruct (_ || _) eqn:E.
  - intros [= <- <-]. split; [done|]. split; [constructor|]. by apply Htest.
  - assert (name `prefix_of` lq_name x) as Hp.
    { destruct (decide (name `prefix_of` lq_name x)) as [?|Hc]; [done|]. apply Htest in Hc. congruence. }
    destruct (prefix_span name l) as [a' b']. intros [= <- <-]. destruct (IH a' b' eq_refl) as (-> & Ha & Hb).
    split; [done|]. split; [by constructor|done].
Qed.

Lemma span_rest q a b :
  sorted_names (q :: a ++ b) -> match b with x :: _ => ~ lq_name q `prefix_of` lq_name x | [] => True end ->
  Forall (fun x => ~ lq_name q `prefix_of` lq_name x) b.
Proof.
  intros Hs Hb. destruct b as [|x b]; [constructor|]. constructor; [done|].
  apply StronglySorted_inv in Hs as [Hs Hq]. rewrite list.Forall_app in Hq. destruct Hq as [_ Hq].
  apply StronglySorted_app in Hs as (_ & _ & Hs). apply StronglySorted_inv in Hs as [_ Hx].
  apply Forall_cons_1 in Hq as [Hqx _]. rewrite list.Forall_forall in Hx |- *. intros y Hy Hp. apply Hb.
  eapply lex_between; [exact Hp|done|by apply Hx].
Qed.

Definition fresh_item (x : lq_t) : Prop := ok_item x /\ lq_list x = [].

Lemma fresh_eta x : lq_list x = [] -> x = mk_lq (lq_name x) (lq_exact x) (lq_inclusive x) [].
Proof. destruct x; cbn. by intros ->. Qed.

Lemma grouped_single p x l fl :
  p `prefix_of` lq_name x -> lq_name x <> p -> lq_list x = [] ->
  (is_Some (lq_inclusive x) -> Forall (fun y => ~ lq_name x `prefix_of` lq_name y) fl) ->
  grouped p l fl -> grouped p (x :: l) (x :: fl).
Proof.
  intros H1 H2 H3 H4 H5. rewrite (fresh_eta x H3) at 1. apply (grouped_cons p x [] [] l fl); [done|done|constructor|done|done|done].
Qed.

Lemma create_list_grouped fuel : forall p l,
  (length l <= fuel)%nat -> sorted_names l -> Forall fresh_item l ->
  Forall (fun y => p `prefix_of` lq_name y /\ lq_name y <> p) l ->
  exists k, create_locations_list fuel l = Some k /\ grouped p k l.
Proof.
  induction fuel as [|fuel IH]; intros p l Hf Hs Hl Hp.
  - destruct l; [|cbn in Hf; lia]. exists []. split; [done|constructor].
  - destruct l as [|q l]; [exists []; split; [done|constructor]|].
    pose proof Hl as Hl0. apply Forall_cons_1 in Hl as [[Oq Lq] Hl]. apply Forall_cons_1 in Hp as [[Pq Nq] Hp].
    pose proof Hs as Hs0. apply StronglySorted_inv in Hs as [Hs Hq]. cbn in Hf.
    assert (forall l', sorted_names l' -> Forall fresh_item l' -> Forall (fun y => p `prefix_of` lq_name y /\ lq_name y <> p) l' ->
      (length l' <= fuel)%nat -> exists k, create_locations_list fuel l' = Some k /\ grouped p k l') as IHp by (intros; by apply IH).
    destruct l as [|x l]; [exists [q]; split; [done|]; apply grouped_single; try done; constructor|].
    remember (x :: l) as r eqn:Er. cbn [create_locations_list].
    replace (match r with [] => Some [q] | _ :: _ => _ end) with
      (match lq_inclusive q with
       | None => rest ← create_locations_list fuel r; Some (q :: rest)
       | Some _ =>
          let '(sub, rest) := prefix_span (lq_name q) r in
          match sub with
          | [] => rest ← create_locations_list fuel r; Some (q :: rest)
          | _ :: _ =>
              sub ← create_locations_list fuel (lq_list q ++ sub);
              rest ← create_locations_list fuel rest;
              Some (mk_lq (lq_name q) (lq_exact q) (lq_inclusive q) sub :: rest)
          end
      end) by (rewrite Er; done).
    assert (forall k, create_locations_list fuel r = Some k -> grouped p k r ->
      (is_Some (lq_inclusive q) -> Forall (fun y => ~ lq_name q `prefix_of` lq_name y) r) ->
      exists k, (rest ← create_locations_list fuel r; Some (q :: rest)) = Some k /\ grouped p k (q :: r)) as Hone.
    { intros k Hk Hg Hn. rewrite Hk. eexists. split; [done|]. by apply grouped_single. }
    destruct (lq_inclusive q) as [c|] eqn:Ei.
    + destruct (prefix_span (lq_name q) r) as [a b] eqn:Esp.
      apply prefix_span_ok in Esp as (E & Ha & Hb); [|apply Oq|eapply list.Forall_impl; [exact Hl|intros y [Hy _]; apply Hy]].
      assert (length r <= fuel)%nat as Hr by lia. rewrite E, length_app in Hr.
      rewrite E in Hs0, Hl, Hp, Hs. pose proof (span_rest q a b Hs0 Hb) as Hrest.
      destruct a as [|y a].
      * cbn [app length] in *. subst b. destruct (IHp r) as (k & Hk & Hg); [done..|lia|]. by apply (Hone k).
      * rewrite Lq. cbn [app]. cbn [length] in Hr.
        rewrite list.Forall_app in Hl, Hp. destruct Hl as [La Lb], Hp as [Pa Pb].
        apply StronglySorted_app in Hs as (_ & Sa & Sb).
        destruct (IH (lq_name q) (y :: a)) as (ka & Hka & Ga); [cbn; lia|done|done| |].
        { rewrite list.Forall_forall in Ha, Hq |- *. intros z Hz. split; [by apply Ha|]. intros Ez.
          apply (lex_irrefl slash_lowest (lq_name q)). rewrite <- Ez at 2. apply Hq. rewrite E. apply elem_of_app. by left. }
        destruct (IHp b) as (kb & Hkb & Gb); [done..|lia|].
        rewrite Hka. cbn [mbind option_bind]. rewrite Hkb. cbn [mbind option_bind]. eexists. split; [done|]. rewrite E, <- Ei.
        change (q :: (y :: a) ++ b) with (q :: ((y :: a) ++ b)). constructor; [done|done|done|by rewrite Ei|done|done].
    + destruct (IHp r) as (k & Hk & Hg); [done..|lia|]. apply (Hone k); [done|done|]. by intros [? ?].
Qed.

(** ** The tree exists *)

Lemma grouped_length p l fl : grouped p l fl -> (length l <= length fl)%nat.
Proof. induction 1; cbn; [lia|]. rewrite length_app. lia. Qed.

Lemma tree_total fuel : forall p l fl,
  grouped p l fl -> l <> [] -> (length fl <= fuel)%nat -> is_Some (create_locations_tree fuel l (length p)).
Proof.
  induction fuel as [|fuel IH]; intros p l fl Hg Hne Hf.
  - pose proof (grouped_length _ _ _ Hg). destruct l; [done|cbn in *; lia].
  - cbn [create_locations_tree].
    destruct (lookup_lt_is_Some_2 l (length l / 2)%nat) as [x0 Ex].
    { apply Nat.div_lt; [destruct l; [done|cbn; lia]|lia]. }
    rewrite Ex. cbn [mbind option_bind]. pose proof (take_drop_middle _ _ _ Ex) as El.
    remember (take (length l / 2) l) as a. remember (drop (S (length l / 2)) l) as b. rewrite <- El in Hg.
    destruct (grouped_app _ _ _ _ Hg) as (fa & fr & -> & Ga & Gr & _).
    inversion Gr as [|p' x sub fs b' fb Hp Hn Gs Hi Hf' Gb E1 E2 E3]; subst x0 fr b' p'. clear Gr.
    cbn [lq_name lq_list lq_exact lq_inclusive]. rewrite length_app in Hf. cbn in Hf. rewrite length_app in Hf.
    assert (forall q k fk, grouped q k fk -> (length fk <= fuel)%nat ->
      is_Some (tree_or_null (fun l => create_locations_tree fuel l (length q)) k)) as Ht.
    { intros q k fk Hk Hl. destruct k as [|y k]; [by eexists|]. cbn [tree_or_null]. by eapply IH. }
    destruct (Ht p a fa Ga ltac:(lia)) as [lt ->]. cbn [mbind option_bind].
    assert (is_Some (if (length a =? 0)%nat then Some Leaf else tree_or_null (fun l => create_locations_tree fuel l (length p)) b)) as [rt ->].
    { destruct (length a =? 0)%nat; [by eexists|]. apply (Ht p b fb Gb). lia. }
    cbn [mbind option_bind]. destruct Hp as [m Em].
    replace (length p + (length (lq_name x) - length p))%nat with (length (lq_name x)) by (rewrite Em, length_app; lia).
    destruct (Ht (lq_name x) sub fs Gs ltac:(lia)) as [st ->]. by eexists.
Qed.

(** ** Sorting and splitting *)

(** The kinds of locations in the order in which they are sorted; a configuration is of one
    kind only. *)
Definition kind (c : clcf_t) : nat :=
  if noname c then 3 else if named c then 2 else if regex c then 1 else 0.

Definition one_kind (c : clcf_t) : Prop :=
  (named c = true -> noname c = false) /\ (regex c = true -> noname c = false /\ named c = false).

Lemma strcmp_cases a b :
  ok_name a -> ok_name b ->
  strcmp a b = 0 /\ a = b \/ strcmp a b < 0 /\ lex id a b \/ 0 < strcmp a b /\ lex id b a.
Proof.
  intros Ha. revert b. induction Ha as [|x a Hx Ha IH]; intros b Hb; destruct Hb as [|y b Hy Hb]; unfold ok_byte, id in *; cbn.
  - tauto.
  - right. left. split; [lia|done].
  - right. right. split; [lia|done].
  - destruct (Z.eqb_spec x y) as [->|Hne]; [destruct (IH b Hb) as [[-> ->]|[[? ?]|[? ?]]]; [by left|tauto|tauto]|].
    destruct (Z.lt_trichotomy x y) as [?|[?|?]]; [right; left|done|right; right]; (split; [lia|tauto]).
Qed.

(** The order of the configurations *)
Definition conf_le (c d : clcf_t) : Prop :=
  (kind c < kind d)%nat \/ kind c = kind d /\
    match kind c with
    | O => before (c_name c) (c_name d) \/ c_name c = c_name d /\ (exact_match d = true -> exact_match c = true)
    | 2%nat => lex id (c_name c) (c_name d) \/ c_name c = c_name d
    | _ => True
    end.

(** Comparisons that the kinds decide *)
Ltac by_kind :=
  split; [intros Hc0; first [lia | right; cbn; tauto | left; lia] | intros Hle; first [lia | destruct Hle as [?|[? _]]; lia]].

Lemma cmp_locations_le x y :
  ok_name (c_name (lq_conf x)) -> ok_name (c_name (lq_conf y)) ->
  cmp_locations x y <= 0 <-> conf_le (lq_conf x) (lq_conf y).
Proof.
  unfold cmp_locations, conf_le, kind. set (c := lq_conf x). set (d := lq_conf y). intros Hc Hd.
  destruct (noname c), (noname d); cbn [andb orb negb];
    [destruct (named c), (named d), (regex c), (regex d); by_kind..|].
  destruct (named c), (named d); cbn [andb orb negb]; [|destruct (regex c), (regex d); by_kind..|].
  { destruct (strcmp_cases (c_name c) (c_name d) Hc Hd) as [[-> ->]|[[? ?]|[? Hl]]]; [by_kind..|].
    split; [lia|]. intros [?|[_ [?|E]]]; [lia|exfalso; by apply (lex_irrefl id (c_name c)); eapply lex_trans|].
    rewrite E in Hl. by apply lex_irrefl in Hl. }
  destruct (regex c), (regex d); cbn [andb orb negb]; [by_kind..|].
  set (n := (Nat.min (length (c_name c)) (length (c_name d)) + 1)%nat).
  pose proof (filename_cmp_full (c_name c) (c_name d) Hc Hd) as Hcmp. cbv zeta in Hcmp. fold n in Hcmp.
  destruct Hcmp as [[-> E]|[[? ?]|[? Hl]]].
  - rewrite Z.eqb_refl. cbn [andb]. destruct (exact_match c), (exact_match d); cbn [andb negb]; [by_kind..| |by_kind].
    split; [lia|]. intros [?|[_ [Hl|[_ He]]]]; [lia| |by specialize (He eq_refl)]. rewrite E in Hl. by apply lex_irrefl in Hl.
  - destruct (Z.eqb_spec (ngx_filename_cmp (c_name c) (c_name d) n) 0); [lia|]. cbn [andb]. by_kind.
  - destruct (Z.eqb_spec (ngx_filename_cmp (c_name c) (c_name d) n) 0); [lia|].
    cbn [andb]. split; [lia|]. intros [?|[_ [?|[E _]]]]; [lia|exfalso; by apply (lex_irrefl slash_lowest (c_name c)); eapply lex_trans|].
    rewrite E in Hl. by apply lex_irrefl in Hl.
Qed.

Lemma conf_le_total c d : ok_name (c_name c) -> ok_name (c_name d) -> conf_le c d \/ conf_le d c.
Proof.
  intros Hc Hd. unfold conf_le. destruct (Nat.lt_trichotomy (kind c) (kind d)) as [?|[E|?]]; [tauto| |tauto].
  rewrite E. destruct (kind d) as [|[|[|k]]]; [|left; tauto| |left; tauto].
  - destruct (lex_total slash_lowest _ _ slash_lowest_inj Hc Hd) as [?|[En|?]]; [tauto| |tauto].
    rewrite En. destruct (exact_match c), (exact_match d); tauto.
  - destruct (lex_total id _ _ (fun x y _ _ => id) Hc Hd) as [?|[En|?]]; [tauto|rewrite En; tauto|tauto].
Qed.

Lemma conf_le_trans c d e : conf_le c d -> conf_le d e -> conf_le c e.
Proof.
  unfold conf_le. intros [?|[E1 H1]] [?|[E2 H2]]; [left; lia|left; lia|left; lia|]. right. split; [lia|].
  rewrite <- E1 in H2. destruct (kind c) as [|[|[|k]]]; [|done| |done].
  - destruct H1 as [H1|[N1 X1]], H2 as [H2|[N2 X2]].
    + left. by eapply lex_trans.
    + left. by rewrite <- N2.
    + left. by rewrite N1.
    + right. split; [congruence|tauto].
  - destruct H1 as [H1|N1], H2 as [H2|N2].
    + left. by eapply lex_trans.
    + left. by rewrite <- N2.
    + left. by rewrite N1.
    + right. congruence.
Qed.

Abbreviation sorted_confs := (StronglySorted (fun x y => conf_le (lq_conf x) (lq_conf y))).

Lemma sort_locations l :
  Forall (fun x => ok_name (c_name (lq_conf x))) l -> sorted_confs (insertion_sort cmp_locations l).
Proof.
  intros Hl. rewrite list.Forall_forall in Hl.
  assert (StronglySorted (fun p q => cmp_locations p q <= 0) (insertion_sort cmp_locations l)) as Hs.
  { apply insertion_sort_Sorted.
    - intros p q Hp Hq. rewrite !cmp_locations_le by eauto. apply conf_le_total; eauto.
    - intros p q r Hp Hq Hr. rewrite !cmp_locations_le by eauto. apply conf_le_trans. }
  assert (Forall (fun x => x ∈ l) (insertion_sort cmp_locations l)) as Hin.
  { apply list.Forall_forall. intros x. by rewrite (insertion_sort_Permutation cmp_locations l). }
  induction Hs as [|x k Hs IH Hx]; [constructor|]. apply Forall_cons_1 in Hin as [Hxl Hin]. constructor; [by apply IH|].
  rewrite list.Forall_forall in Hx, Hin |- *. intros y Hy. apply cmp_locations_le; eauto.
Qed.

Lemma filter_all {A} (P : A -> Prop) `{!forall x, Decision (P x)} l : Forall P l -> filter P l = l.
Proof. induction 1 as [|x l Hx _ IH]; [done|]. rewrite filter_cons_True by done. by f_equal. Qed.

(** A queue sorted by kind is cut where a kind begins. *)
Section Cut.
Context (f : lq_t -> bool) (k : nat).

Lemma first_at_cut l :
  StronglySorted (fun x y => kind (lq_conf x) <= kind (lq_conf y))%nat l ->
  Forall (fun x => kind (lq_conf x) <= k /\ (f x = true <-> kind (lq_conf x) = k))%nat l ->
  take (first_at f l) l = filter (fun x => kind (lq_conf x) < k)%nat l /\
  drop (first_at f l) l = filter (fun x => kind (lq_conf x) = k) l.
Proof.
  intros Hs Hl. induction Hs as [|x l Hs IH Hx]; [done|]. apply Forall_cons_1 in Hl as [[Hk Hf] Hl]. cbn [first_at].
  destruct (f x) eqn:E.
  - assert (kind (lq_conf x) = k) as Ek by (by apply Hf). cbn [take drop].
    assert (Forall (fun y => kind (lq_conf y) = k) (x :: l)) as Hall.
    { constructor; [done|]. rewrite list.Forall_forall in Hx, Hl |- *. intros y Hy. specialize (Hx y Hy). specialize (Hl y Hy) as [? _]. lia. }
    split.
    + symmetry. apply filter_none. eapply list.Forall_impl; [exact Hall|]. cbn. lia.
    + symmetry. by apply filter_all.
  - assert (kind (lq_conf x) < k)%nat as Ek.
    { destruct (decide (kind (lq_conf x) = k)) as [He|]; [|lia]. apply Hf in He. congruence. }
    cbn [take drop]. rewrite filter_cons_True, filter_cons_False by lia. destruct (IH Hl) as [E1 E2]. split; [by f_equal|done].
Qed.
End Cut.

Lemma first_at_take f n l :
  take (first_at f l) (take n l) = take (first_at f (take n l)) (take n l) /\
  drop (first_at f l) (take n l) = drop (first_at f (take n l)) (take n l).
Proof.
  revert n. induction l as [|x l IH]; intros n; [by rewrite take_nil|]. destruct n as [|n]; [by rewrite take_0, take_nil, drop_nil|].
  cbn [take first_at]. destruct (f x); [done|]. cbn [take drop]. destruct (IH n) as [-> ->]. done.
Qed.

Lemma StronglySorted_filter {A} (R : A -> A -> Prop) (P : A -> Prop) `{!forall x, Decision (P x)} l :
  StronglySorted R l -> StronglySorted R (filter P l).
Proof.
  induction 1 as [|x l Hs IH Hx]; [constructor|]. destruct (decide (P x)) as [Hp|Hp].
  - rewrite filter_cons_True by done. constructor; [done|]. rewrite list.Forall_forall in Hx |- *.
    intros y [_ Hy]%list_elem_of_filter. eauto.
  - by rewrite filter_cons_False.
Qed.

Lemma sorted_weaken {A} (R R' : A -> A -> Prop) l :
  (forall x y, R x y -> R' x y) -> StronglySorted R l -> StronglySorted R' l.
Proof.
  intros H. induction 1 as [|x l Hs IH Hx]; constructor; [done|]. eapply list.Forall_impl; [exact Hx|]. eauto.
Qed.

(** What [ngx_http_init_locations] makes of a queue: the static locations in order, and the
    regex locations in the order of the configuration. *)
Lemma init_locations_ok l :
  Forall (fun x => ok_name (c_name (lq_conf x)) /\ one_kind (lq_conf x)) l ->
  let '(static, regexes, nameds) := init_locations l in
  static = filter (fun x => kind (lq_conf x) = 0%nat) (insertion_sort cmp_locations l) /\
  regexes = lq_exact <$> filter (fun x => kind (lq_conf x) = 1%nat) l.
Proof.
  intros Hl. unfold init_locations. set (s := insertion_sort cmp_locations l).
  assert (Forall (fun x => one_kind (lq_conf x)) s) as H1.
  { rewrite list.Forall_forall in Hl |- *. intros x Hx. apply Hl. by rewrite <- (insertion_sort_Permutation cmp_locations l). }
  assert (StronglySorted (fun x y => kind (lq_conf x) <= kind (lq_conf y))%nat s) as Hs.
  { apply (sorted_weaken (fun x y => conf_le (lq_conf x) (lq_conf y))).
    - unfold conf_le. intros x y [?|[? _]]; lia.
    - apply sort_locations. eapply list.Forall_impl; [exact Hl|]. by intros x [? _]. }
  (* the cut before the nameless, the named and the regex locations *)
  destruct (first_at_cut is_noname 3 s Hs) as [E3 _].
  { eapply list.Forall_impl; [exact H1|]. intros x [K1 K2]. unfold is_noname, kind.
    destruct (noname (lq_conf x)), (named (lq_conf x)), (regex (lq_conf x)); cbn; split; try lia; naive_solver. }
  rewrite E3. set (s3 := filter _ s).
  assert (Forall (fun x => one_kind (lq_conf x) /\ (kind (lq_conf x) < 3)%nat) s3) as H3.
  { rewrite list.Forall_forall in H1 |- *. intros x [? ?]%list_elem_of_filter. auto. }
  destruct (first_at_cut is_named 2 s3 (StronglySorted_filter _ _ _ Hs)) as [E2 _].
  { eapply list.Forall_impl; [exact H3|]. intros x [[K1 K2] K3]. revert K3. unfold is_named, kind.
    destruct (noname (lq_conf x)), (named (lq_conf x)), (regex (lq_conf x)); cbn; split; try lia; naive_solver. }
  destruct (first_at_take is_regex (first_at is_named s3) s3) as [-> ->]. rewrite E2. set (s2 := filter _ s3).
  assert (Forall (fun x => one_kind (lq_conf x) /\ (kind (lq_conf x) < 2)%nat) s2) as H2.
  { rewrite list.Forall_forall in H3 |- *. intros x [? Hx]%list_elem_of_filter. split; [by apply H3|done]. }
  destruct (first_at_cut is_regex 1 s2) as [-> ->].
  { by apply StronglySorted_filter, StronglySorted_filter. }
  { eapply list.Forall_impl; [exact H2|]. intros x [[K1 K2] K3]. revert K3. unfold is_regex, kind.
    destruct (noname (lq_conf x)), (named (lq_conf x)), (regex (lq_conf x)); cbn; split; try lia; naive_solver. }
  unfold s2, s3. rewrite !list_filter_filter. split.
  - apply list_filter_iff. intros x. lia.
  - f_equal. transitivity (filter (fun x => kind (lq_conf x) = 1%nat) s); [apply list_filter_iff; intros x; lia|].
    apply insertion_sort_stable. intros p q Hp Hq. unfold cmp_locations, kind in *.
    destruct (noname (lq_conf p)); [done|]. destruct (named (lq_conf p)); [done|]. destruct (regex (lq_conf p)); [|done].
    destruct (noname (lq_conf q)); [done|]. destruct (named (lq_conf q)); [done|]. destruct (regex (lq_conf q)); [|done]. cbn. lia.
Qed.

(** ** Joining *)

Definition confs (x : lq_t) : list clcf_t := option_list (lq_exact x) ++ option_list (lq_inclusive x).

(** What tells two static locations apart *)
Definition key (c : clcf_t) : str * bool := (c_name c, exact_match c).

(** An element with its configurations in the right places *)
Definition wf_item (x : lq_t) : Prop :=
  (forall c, lq_exact x = Some c -> c_name c = lq_name x /\ exact_match c = true) /\
  (forall c, lq_inclusive x = Some c -> c_name c = lq_name x /\ exact_match c = false) /\
  (is_Some (lq_exact x) \/ is_Some (lq_inclusive x)) /\ lq_list x = [] /\ ok_name (lq_name x).

(** An element of the sorted queue, with one configuration *)
Definition single (x : lq_t) : Prop := wf_item x /\ (is_Some (lq_exact x) -> lq_inclusive x = None).

Definition item_le (x y : lq_t) : Prop :=
  before (lq_name x) (lq_name y) \/ lq_name x = lq_name y /\ (is_Some (lq_exact y) -> is_Some (lq_exact x)).

(** The element [q], which may be joined already, and one behind it *)
Definition joins (q x : lq_t) : Prop :=
  before (lq_name q) (lq_name x) \/ lq_name q = lq_name x /\ (is_Some (lq_exact x) -> lq_inclusive q = None).

Lemma same_name_test a b :
  ok_name a -> ok_name b ->
  ((length a =? length b)%nat && (ngx_filename_cmp a b (length b) =? 0) = true <-> a = b).
Proof.
  intros Ha Hb. rewrite andb_true_iff, Nat.eqb_eq, Z.eqb_eq. split.
  - intros [El Ec]. rewrite <- El in Ec. apply filename_cmp_prefix in Ec as [k ->]; [|done|done|lia].
    rewrite length_app in El. destruct k; [by rewrite app_nil_r|cbn in El; lia].
  - intros ->. split; [done|]. by apply filename_cmp_prefix.
Qed.

Lemma dup_keys {A B} (f : A -> B) a b l1 l2 : f a = f b -> a ∈ l1 -> b ∈ l2 -> ~ NoDup (f <$> (l1 ++ l2)).
Proof.
  intros E Ha Hb. rewrite fmap_app, list.NoDup_app. intros (_ & H & _).
  apply (H (f a)); [by apply list_elem_of_fmap_2|]. rewrite E. by apply list_elem_of_fmap_2.
Qed.

(** The test for a duplicate in the loop *)
Definition duplicate (q x : lq_t) : bool :=
  (bool_decide (is_Some (lq_exact q)) && bool_decide (is_Some (lq_exact x))) ||
  (bool_decide (is_Some (lq_inclusive q)) && bool_decide (is_Some (lq_inclusive x))).

Lemma duplicate_keys q x :
  wf_item q -> wf_item x -> lq_name q = lq_name x -> duplicate q x = true -> ~ NoDup (key <$> (confs q ++ confs x)).
Proof.
  intros (Q1 & Q2 & _) (X1 & X2 & _) En Hd. unfold duplicate in Hd.
  apply orb_true_iff in Hd as [Hd|Hd]; apply andb_true_iff in Hd as [[a Ha]%bool_decide_eq_true [b Hb]%bool_decide_eq_true].
  - assert (key a = key b) as E by (destruct (Q1 a Ha), (X1 b Hb); unfold key; congruence).
    apply (dup_keys key a b _ _ E); unfold confs; rewrite ?Ha, ?Hb; cbn [option_list app]; left.
  - assert (key a = key b) as E by (destruct (Q2 a Ha), (X2 b Hb); unfold key; congruence).
    apply (dup_keys key a b _ _ E); unfold confs; rewrite ?Ha, ?Hb; apply elem_of_app; right; left.
Qed.

(** Otherwise an inclusive location is joined to an exact one. *)
Lemma join_step q x :
  wf_item q -> single x -> lq_name q = lq_name x -> (is_Some (lq_exact x) -> lq_inclusive q = None) -> duplicate q x = false ->
  let q' := mk_lq (lq_name q) (lq_exact q) (lq_inclusive x) (lq_list q) in
  lq_exact x = None /\ confs q' = confs q ++ confs x /\ wf_item q'.
Proof.
  intros (Q1 & Q2 & Q3 & Q4 & Q5) [(X1 & X2 & X3 & X4 & X5) Sx] En Hj Hd. unfold duplicate in Hd.
  apply orb_false_iff in Hd as [Hd1 Hd2]. apply andb_false_iff in Hd1, Hd2. rewrite !bool_decide_eq_false in Hd1, Hd2.
  assert (lq_exact x = None) as Ex.
  { destruct (lq_exact x) as [b|] eqn:Eb; [|done]. destruct Hd1 as [Hd1|Hd1]; [|destruct Hd1; by eexists].
    rewrite Hj in Q3 by by eexists. destruct Q3 as [?|[? ?]]; done. }
  assert (exists d, lq_inclusive x = Some d) as [d Ed] by (destruct X3 as [[? ?]|?]; [congruence|done]).
  assert (lq_inclusive q = None) as Eq.
  { destruct (lq_inclusive q); [|done]. rewrite Ed in Hd2. destruct Hd2 as [Hd2|Hd2]; destruct Hd2; by eexists. }
  split; [done|]. split.
  - unfold confs. cbn. by rewrite Ex, Eq, app_nil_r.
  - split_and!; cbn; try done.
    + intros c Hc. rewrite En. by apply X2.
    + right. rewrite Ed. by eexists.
Qed.

Lemma join_ok l : forall q,
  wf_item q -> Forall single l -> StronglySorted item_le l -> Forall (joins q) l ->
  match join_exact_locations q l with
  | Some r => sorted_names r /\ Forall wf_item r /\ concat (confs <$> r) = confs q ++ concat (confs <$> l) /\
      (forall y, y ∈ r -> lq_name y = lq_name q \/ before (lq_name q) (lq_name y))
  | None => ~ NoDup (key <$> (confs q ++ concat (confs <$> l)))
  end.
Proof.
  induction l as [|x l IH]; intros q Hq Hl Hs Hj; cbn [join_exact_locations].
  - split_and!; [constructor; constructor|by constructor|done|]. intros y ->%list_elem_of_singleton. by left.
  - apply Forall_cons_1 in Hl as [Hx Hl]. apply StronglySorted_inv in Hs as [Hs Hxl]. apply Forall_cons_1 in Hj as [Hjx Hj].
    pose proof Hx as [Wx Sx]. assert (ok_name (lq_name q)) as Oq by apply Hq. assert (ok_name (lq_name x)) as Ox by apply Wx.
    cbn [fmap list_fmap concat]. fold (duplicate q x).
    destruct (_ && _) eqn:Et.
    + apply same_name_test in Et; [|done..].
      destruct Hjx as [Hb|[_ Hjx]]; [rewrite Et in Hb; by apply lex_irrefl in Hb|].
      rewrite app_assoc. destruct (duplicate q x) eqn:Ed.
      * rewrite fmap_app, list.NoDup_app. intros [Hnd _]. by apply (duplicate_keys q x) in Hnd.
      * destruct (join_step q x Hq Hx Et Hjx Ed) as (Ex & <- & Wq). refine (IH _ Wq Hl Hs _).
        rewrite list.Forall_forall in Hj, Hxl |- *. intros y Hy. specialize (Hj y Hy). specialize (Hxl y Hy).
        unfold joins, item_le in *. cbn. destruct Hj as [?|[Ny _]]; [by left|]. right. split; [done|].
        intros He. destruct Hxl as [Hb|[_ He']]; [rewrite <- Et, Ny in Hb; by apply lex_irrefl in Hb|].
        destruct (He' He) as [? ?]. congruence.
    + assert (lq_name q <> lq_name x) as Hne by (intros E; apply same_name_test in E; [congruence|done..]).
      destruct Hjx as [Hqx|[? _]]; [|done].
      assert (Forall (joins x) l) as Hjl.
      { rewrite list.Forall_forall in Hxl |- *. intros y Hy. destruct (Hxl y Hy) as [?|[? He]]; [by left|].
        right. split; [done|]. intros Hey. by apply Sx, He. }
      specialize (IH x Wx Hl Hs Hjl). destruct (join_exact_locations x l) as [r|]; cbn [mbind option_bind].
      * destruct IH as (S1 & S2 & S3 & S4).
        assert (forall y, y ∈ r -> before (lq_name q) (lq_name y)) as Hqr.
        { intros y Hy. destruct (S4 y Hy) as [->|?]; [done|]. by eapply lex_trans. }
        split_and!; [constructor; [done|by apply list.Forall_forall]|by constructor|cbn [fmap list_fmap concat]; by rewrite S3|].
        intros y Hy. rewrite elem_of_cons in Hy. destruct Hy as [->|Hy]; [by left|right; by apply Hqr].
      * intros Hnd. apply IH. rewrite fmap_app in Hnd. apply list.NoDup_app in Hnd. tauto.
Qed.

Lemma sorted_unique l x y : sorted_names l -> x ∈ l -> y ∈ l -> lq_name x = lq_name y -> x = y.
Proof.
  induction 1 as [|z l Hs IH Hz]; intros Hx Hy E; [by apply not_elem_of_nil in Hx|].
  rewrite list.Forall_forall in Hz. rewrite elem_of_cons in Hx, Hy.
  destruct Hx as [->|Hx], Hy as [->|Hy]; [done|..|by apply IH].
  - specialize (Hz y Hy). rewrite E in Hz. by apply lex_irrefl in Hz.
  - specialize (Hz x Hx). rewrite E in Hz. by apply lex_irrefl in Hz.
Qed.

Lemma elem_of_confs c l : c ∈ concat (confs <$> l) <-> exists x, x ∈ l /\ c ∈ confs x.
Proof.
  rewrite list_elem_of_In, in_concat. split.
  - intros (k & Hk & Hc). apply list_elem_of_In, list_elem_of_fmap in Hk as (x & -> & Hx). exists x. split; [done|]. by apply list_elem_of_In.
  - intros (x & Hx & Hc). exists (confs x). rewrite <- !list_elem_of_In. split; [by apply list_elem_of_fmap_2|done].
Qed.

Lemma joined_keys r : sorted_names r -> Forall wf_item r -> NoDup (key <$> concat (confs <$> r)).
Proof.
  induction 1 as [|x r Hs IH Hx]; intros Hw; [constructor|]. apply Forall_cons_1 in Hw as [Wx Hw].
  cbn [fmap list_fmap concat]. rewrite fmap_app. apply list.NoDup_app. split_and!; [..|by apply IH].
  - destruct Wx as (X1 & X2 & _). unfold confs. destruct (lq_exact x) as [a|], (lq_inclusive x) as [b|]; cbn;
      [|apply NoDup_singleton|apply NoDup_singleton|constructor].
    apply list.NoDup_cons. split; [|apply NoDup_singleton]. intros E%list_elem_of_singleton. unfold key in E.
    destruct (X1 a eq_refl), (X2 b eq_refl). congruence.
  - intros k Hk Hk'. apply list_elem_of_fmap in Hk as (c & -> & Hc). apply list_elem_of_fmap in Hk' as (d & E & Hd).
    apply elem_of_confs in Hd as (y & Hy & Hd).
    assert (forall z e, wf_item z -> e ∈ confs z -> c_name e = lq_name z) as Hname.
    { intros z e (Z1 & Z2 & _) He. unfold confs in He. rewrite elem_of_app in He. destruct He as [He|He].
      - destruct (lq_exact z); cbn in He; [apply list_elem_of_singleton in He as ->; by apply Z1|by apply not_elem_of_nil in He].
      - destruct (lq_inclusive z); cbn in He; [apply list_elem_of_singleton in He as ->; by apply Z2|by apply not_elem_of_nil in He]. }
    rewrite list.Forall_forall in Hx, Hw. specialize (Hx y Hy). unfold key in E. injection E as E _.
    rewrite (Hname x c Wx Hc), (Hname y d (Hw y Hy) Hd) in E. rewrite E in Hx. by apply lex_irrefl in Hx.
Qed.

(** ** From the configuration to the answer *)

Abbreviation static c := (kind c = 0%nat).

(** The [location] directives of a server or of a location, in any order *)
Definition ok_conf (c : clcf_t) : Prop :=
  ok_name (c_name c) /\ one_kind c /\
  (static c -> c_name c <> [] /\ (length (c_name c) <= 255)%nat /\
     (auto_redirect c = true -> exists d, c_name c = d ++ [47])).

(** The location of a request for [u]: the exact location of that name; or else the inclusive
    one; or else a redirect, when a location of the name with a slash asks for it; or else
    the inclusive location with the longest name that [u] begins with; or none. *)
Inductive located (ds : list clcf_t) (u : str) (conf : nat) : Z -> nat -> Prop :=
| located_exact c :
    c ∈ ds -> static c -> exact_match c = true -> c_name c = u -> located ds u conf NGX_OK (c_id c)
| located_same c :
    c ∈ ds -> static c -> exact_match c = false -> c_name c = u ->
    (forall d, d ∈ ds -> static d -> c_name d = u -> exact_match d = false) -> located ds u conf NGX_AGAIN (c_id c)
| located_redirect c d :
    (forall d, d ∈ ds -> static d -> c_name d <> u) ->
    c ∈ ds -> static c -> c_name c = u ++ [47] ->
    (exact_match c = false -> forall d, d ∈ ds -> static d -> c_name d = u ++ [47] -> exact_match d = false) ->
    d ∈ ds -> static d -> c_name d = u ++ [47] -> auto_redirect d = true ->
    located ds u conf NGX_DONE (c_id c)
| located_prefix c :
    (forall d, d ∈ ds -> static d -> c_name d <> u) ->
    (forall d, d ∈ ds -> static d -> c_name d = u ++ [47] -> auto_redirect d = false) ->
    c ∈ ds -> static c -> exact_match c = false -> c_name c `prefix_of` u ->
    (forall d, d ∈ ds -> static d -> exact_match d = false -> c_name d `prefix_of` u ->
       (length (c_name d) <= length (c_name c))%nat) ->
    located ds u conf NGX_AGAIN (c_id c)
| located_none :
    (forall d, d ∈ ds -> static d -> c_name d <> u) ->
    (forall d, d ∈ ds -> static d -> c_name d = u ++ [47] -> auto_redirect d = false) ->
    (forall d, d ∈ ds -> static d -> exact_match d = false -> ~ c_name d `prefix_of` u) ->
    located ds u conf NGX_DECLINED conf.

Lemma lq_conf_add c : lq_conf (add_location c) = c.
Proof. unfold add_location. by destruct (_ || _). Qed.

Lemma confs_add c : confs (add_location c) = [c].
Proof. unfold add_location. by destruct (_ || _). Qed.

(** The static part of the sorted queue *)
Definition static_queue (ds : list clcf_t) : list lq_t :=
  filter (fun x => kind (lq_conf x) = 0%nat) (insertion_sort cmp_locations (add_location <$> ds)).

Lemma elem_of_static_queue ds x :
  x ∈ static_queue ds <-> exists c, x = add_location c /\ c ∈ ds /\ static c.
Proof.
  unfold static_queue. rewrite list_elem_of_filter, (insertion_sort_Permutation cmp_locations), list_elem_of_fmap.
  split; [intros (Hk & c & -> & Hc); rewrite lq_conf_add in Hk; eauto|].
  intros (c & -> & Hc & Hk). rewrite lq_conf_add. eauto.
Qed.

Lemma static_queue_confs ds : concat (confs <$> static_queue ds) ≡ₚ filter (fun c => static c) ds.
Proof.
  unfold static_queue. rewrite (insertion_sort_Permutation cmp_locations). induction ds as [|c ds IH]; [done|].
  cbn [fmap list_fmap]. destruct (decide (static c)) as [Hc|Hc].
  - rewrite !filter_cons_True by (by rewrite ?lq_conf_add). cbn [fmap list_fmap concat]. rewrite confs_add. cbn. by rewrite IH.
  - by rewrite !filter_cons_False by (by rewrite ?lq_conf_add).
Qed.

Lemma static_single c : ok_conf c -> static c -> single (add_location c).
Proof.
  intros (Hn & _ & _) Hk. unfold kind in Hk. destruct (noname c) eqn:E1; [done|]. destruct (named c) eqn:E2; [done|].
  destruct (regex c) eqn:E3; [done|]. unfold add_location, single, wf_item. rewrite E1, E2, E3.
  destruct (exact_match c) eqn:E4; cbn; split_and!; try done; try (intros ? [= <-]; done);
    first [left; by eexists|right; by eexists|by intros [? ?]].
Qed.

Lemma static_queue_sorted ds :
  Forall ok_conf ds -> Forall single (static_queue ds) /\ StronglySorted item_le (static_queue ds).
Proof.
  intros Hd. rewrite list.Forall_forall in Hd.
  assert (Forall single (static_queue ds)) as Hs.
  { apply list.Forall_forall. intros x (c & -> & Hc & Hk)%elem_of_static_queue. apply static_single; eauto. }
  split; [done|].
  assert (sorted_confs (static_queue ds)) as Hso.
  { apply StronglySorted_filter, sort_locations. apply list.Forall_forall. intros x (c & -> & Hc)%list_elem_of_fmap.
    rewrite lq_conf_add. by apply Hd. }
  assert (forall x, x ∈ static_queue ds -> exists c, x = add_location c /\ static c) as Hst.
  { intros x (c & -> & _ & Hk)%elem_of_static_queue. eauto. }
  revert Hst Hs. generalize (static_queue ds) Hso. clear. intros l Hso Hst Hs.
  induction Hso as [|x l Hl IH Hx]; [constructor|]. apply Forall_cons_1 in Hs as [Sx Hs].
  constructor; [apply IH; [intros y Hy; apply Hst; by right|done]|].
  rewrite list.Forall_forall in Hx, Hs |- *. intros y Hy. specialize (Hx y Hy).
  destruct (Hst x ltac:(left)) as (c & -> & Kc), (Hst y ltac:(by right)) as (d & -> & Kd).
  rewrite !lq_conf_add in Hx. destruct Hx as [?|[_ Hx]]; [lia|]. rewrite Kc in Hx. unfold item_le.
  assert (forall e, static e -> lq_name (add_location e) = c_name e /\ (is_Some (lq_exact (add_location e)) <-> exact_match e = true)) as Ha.
  { intros e Ke. unfold kind in Ke. unfold add_location. destruct (noname e); [done|]. destruct (named e); [done|].
    destruct (regex e); [done|]. destruct (exact_match e); cbn; (split; [done|]); split; try done; first [by eexists|by intros [? ?]]. }
  destruct (Ha c Kc) as [-> Hc1], (Ha d Kd) as [-> Hd1]. rewrite Hc1, Hd1. done.
Qed.

Lemma item_conf x c : wf_item x -> c ∈ confs x ->
  c_name c = lq_name x /\ (if exact_match c then lq_exact x = Some c else lq_inclusive x = Some c).
Proof.
  intros (X1 & X2 & _) Hc. unfold confs in Hc. rewrite elem_of_app in Hc. destruct Hc as [Hc|Hc].
  - destruct (lq_exact x) as [a|]; cbn in Hc; [apply list_elem_of_singleton in Hc as ->|by apply not_elem_of_nil in Hc].
    destruct (X1 a eq_refl) as [? ->]. done.
  - destruct (lq_inclusive x) as [a|]; cbn in Hc; [apply list_elem_of_singleton in Hc as ->|by apply not_elem_of_nil in Hc].
    destruct (X2 a eq_refl) as [? ->]. done.
Qed.

Lemma find_Some_elem {A} (f : A -> bool) l x : List.find f l = Some x -> x ∈ l /\ f x = true.
Proof. intros [H1 H2]%find_some. by rewrite list_elem_of_In. Qed.

Lemma find_None_elem {A} (f : A -> bool) l x : List.find f l = None -> x ∈ l -> f x = false.
Proof. intros H Hx. apply (List.find_none f l H). by apply list_elem_of_In. Qed.

Lemma sorted_covers f l : sorted_names l -> sorted_names (List.filter f l).
Proof.
  induction 1 as [|z l Hs IH Hz]; cbn [List.filter]; [constructor|]. destruct (f z); [|exact IH].
  constructor; [done|]. rewrite list.Forall_forall in Hz |- *. intros w Hw. apply Hz.
  apply list_elem_of_In, filter_In in Hw as [Hw _]. by apply list_elem_of_In.
Qed.

(** The answer among the joined locations is the location of the request. *)
Section Located.
Context (ds : list clcf_t) (r : list lq_t) (u : str) (conf : nat).
Hypothesis Hr : sorted_names r.
Hypothesis Hw : Forall wf_item r.
Hypothesis Hc : forall c, c ∈ ds /\ static c <-> exists x, x ∈ r /\ c ∈ confs x.

Lemma in_directives x c : x ∈ r -> c ∈ confs x -> c ∈ ds /\ static c.
Proof. intros Hx Hcx. apply Hc. eauto. Qed.

Lemma item_of_name c n :
  c ∈ ds -> static c -> c_name c = n ->
  exists x, x ∈ r /\ lq_name x = n /\ c ∈ confs x /\ (if exact_match c then lq_exact x = Some c else lq_inclusive x = Some c).
Proof.
  intros H1 H2 <-. destruct (proj1 (Hc c) (conj H1 H2)) as (x & Hx & Hcx). exists x.
  pose proof (proj1 (list.Forall_forall _ _) Hw x Hx) as Wx. destruct (item_conf x c Wx Hcx) as [-> ?]. done.
Qed.

Lemma conf_exact x c : lq_exact x = Some c -> c ∈ confs x.
Proof. unfold confs. intros ->. left. Qed.

Lemma conf_inclusive x c : lq_inclusive x = Some c -> c ∈ confs x.
Proof. unfold confs. intros ->. apply elem_of_app. right. left. Qed.

(** When the exact place of an element is empty, no directive has its name and is exact. *)
Lemma no_exact x d : x ∈ r -> lq_exact x = None -> d ∈ ds -> static d -> c_name d = lq_name x -> exact_match d = false.
Proof.
  intros Hx He Hd Hk Hn. destruct (item_of_name d _ Hd Hk Hn) as (y & Hy & Ny & _ & E).
  rewrite (sorted_unique r y x Hr Hy Hx Ny) in E. destruct (exact_match d); congruence.
Qed.

Lemma pick_hit x :
  x ∈ r -> lq_name x = u -> exists rc loc, pick NGX_OK NGX_AGAIN x = Some (rc, loc) /\ located ds u conf rc loc.
Proof.
  intros Hx Hn. pose proof (proj1 (list.Forall_forall _ _) Hw x Hx) as Wx. unfold pick.
  destruct (lq_exact x) as [c|] eqn:Ee.
  - exists NGX_OK, (c_id c). split; [done|]. destruct (in_directives x c Hx (conf_exact _ _ Ee)).
    destruct (proj1 Wx c Ee). apply located_exact; congruence.
  - destruct (lq_inclusive x) as [c|] eqn:Ei.
    + exists NGX_AGAIN, (c_id c). split; [done|]. destruct (in_directives x c Hx (conf_inclusive _ _ Ei)).
      destruct (proj1 (proj2 Wx) c Ei). apply located_same; [done|done|done|congruence|].
      intros d Hd Hk Hdn. apply (no_exact x); congruence.
    + destruct Wx as (_ & _ & [[? ?]|[? ?]] & _); congruence.
Qed.

Lemma pick_redirect x :
  (forall d, d ∈ ds -> static d -> c_name d <> u) ->
  x ∈ r -> lq_name x = u ++ [47] -> item_redirects x = true ->
  exists rc loc, pick NGX_DONE NGX_DONE x = Some (rc, loc) /\ located ds u conf rc loc.
Proof.
  intros Hno Hx Hn Hi. pose proof (proj1 (list.Forall_forall _ _) Hw x Hx) as Wx.
  assert (exists d, d ∈ confs x /\ auto_redirect d = true) as (d & Hdx & Hda).
  { unfold item_redirects, conf_redirects in Hi. destruct (lq_exact x) as [a|] eqn:Ea; cbn in Hi.
    - destruct (auto_redirect a) eqn:Eau; [exists a; split; [by apply conf_exact|done]|].
      destruct (lq_inclusive x) as [b|] eqn:Eb; [|done]. exists b. split; [by apply conf_inclusive|done].
    - destruct (lq_inclusive x) as [b|] eqn:Eb; [|done]. exists b. split; [by apply conf_inclusive|done]. }
  destruct (in_directives x d Hx Hdx) as [Hd Kd]. destruct (item_conf x d Wx Hdx) as [Nd _].
  unfold pick. destruct (lq_exact x) as [c|] eqn:Ee.
  - exists NGX_DONE, (c_id c). split; [done|]. destruct (in_directives x c Hx (conf_exact _ _ Ee)).
    destruct (proj1 Wx c Ee). apply (located_redirect ds u conf c d); try done; congruence.
  - destruct (lq_inclusive x) as [c|] eqn:Ei; [|by destruct Wx as (_ & _ & [[? ?]|[? ?]] & _); congruence].
    exists NGX_DONE, (c_id c). split; [done|]. destruct (in_directives x c Hx (conf_inclusive _ _ Ei)).
    destruct (proj1 (proj2 Wx) c Ei). apply (located_redirect ds u conf c d); try done; [congruence| |congruence].
    intros _ e He Ke Ne. apply (no_exact x); congruence.
Qed.

(** Later elements with names the URI begins with are longer. *)
Lemma last_cover_longest x y :
  list.last (List.filter (covers u) r) = Some x -> y ∈ r -> covers u y = true ->
  (length (lq_name y) <= length (lq_name x))%nat.
Proof.
  intros Hl Hy Hcy. apply last_Some in Hl as [k Hk].
  assert (sorted_names (k ++ [x])) as Hs.
  { rewrite <- Hk. by apply sorted_covers. }
  assert (forall z, z ∈ k ++ [x] -> lq_name z `prefix_of` u) as Hp.
  { intros z Hz. rewrite <- Hk in Hz. apply list_elem_of_In, filter_In in Hz as [_ Hz]. unfold covers in Hz.
    apply andb_true_iff in Hz as [[_ Hz]%andb_true_iff _]. by apply bool_decide_eq_true in Hz. }
  assert (y ∈ k ++ [x]) as Hyk. { rewrite <- Hk. apply list_elem_of_In, filter_In. rewrite <- list_elem_of_In. done. }
  pose proof (Hp y Hyk) as Py. pose proof (Hp x ltac:(apply elem_of_app; right; left)) as Px.
  rewrite elem_of_app, list_elem_of_singleton in Hyk. destruct Hyk as [Hyk| ->]; [|lia].
  apply StronglySorted_app in Hs as (Hs & _ & _). specialize (Hs y x Hyk ltac:(left)).
  destruct (prefix_weak_total _ _ _ Py Px) as [H|H]; [by apply prefix_length|].
  destruct (lex_prefix slash_lowest _ _ H) as [E|Hb]; [rewrite E; lia|].
  exfalso. apply (lex_irrefl slash_lowest (lq_name x)). by eapply lex_trans.
Qed.

Lemma answer_located : exists rc loc, answer r u NGX_DECLINED conf = Some (rc, loc) /\ located ds u conf rc loc.
Proof.
  pose proof Hw as Hw'. rewrite list.Forall_forall in Hw'. unfold answer.
  destruct (List.find (hits u) r) as [x|] eqn:E1.
  { apply find_Some_elem in E1 as [Hx Hh]. apply pick_hit; [done|]. by apply bool_decide_eq_true in Hh. }
  assert (forall d, d ∈ ds -> static d -> c_name d <> u) as Hno.
  { intros d Hd Kd Nd. destruct (item_of_name d u Hd Kd Nd) as (y & Hy & Ny & _).
    pose proof (find_None_elem _ _ y E1 Hy) as Hf. by apply bool_decide_eq_false in Hf. }
  destruct (List.find (redirects u) r) as [x|] eqn:E2.
  { apply find_Some_elem in E2 as [Hx Hh]. apply andb_true_iff in Hh as [Hh1%bool_decide_eq_true Hh2]. by apply pick_redirect. }
  assert (forall d, d ∈ ds -> static d -> c_name d = u ++ [47] -> auto_redirect d = false) as Hnr.
  { intros d Hd Kd Nd. destruct (item_of_name d _ Hd Kd Nd) as (y & Hy & Ny & _ & Ey).
    pose proof (find_None_elem _ _ y E2 Hy) as Hf. unfold redirects in Hf. rewrite bool_decide_true in Hf by done. cbn in Hf.
    unfold item_redirects in Hf. apply orb_false_iff in Hf as [Hf1 Hf2].
    destruct (exact_match d); rewrite Ey in *; done. }
  assert (forall d, d ∈ ds -> static d -> exact_match d = false -> c_name d `prefix_of` u ->
    exists y, y ∈ r /\ lq_name y = c_name d /\ covers u y = true) as Hcov.
  { intros d Hd Kd Xd Pd. destruct (item_of_name d _ Hd Kd eq_refl) as (y & Hy & Ny & _ & Ey). rewrite Xd in Ey.
    exists y. split; [done|]. split; [done|]. unfold covers, hits. rewrite Ny, Ey.
    rewrite !bool_decide_true by first [done|by eexists]. rewrite bool_decide_false by (by apply Hno). done. }
  destruct (list.last (List.filter (covers u) r)) as [x|] eqn:E3.
  - assert (x ∈ r /\ covers u x = true) as [Hx Hcx].
    { apply last_Some in E3 as [k E3]. rewrite list_elem_of_In. apply filter_In. rewrite E3, in_app_iff. right. by left. }
    unfold covers in Hcx. apply andb_true_iff in Hcx as [[[c Ei]%bool_decide_eq_true Px%bool_decide_eq_true]%andb_true_iff _].
    exists NGX_AGAIN, (c_id c). unfold pick_inclusive. rewrite Ei. split; [done|].
    destruct (in_directives x c Hx (conf_inclusive _ _ Ei)). destruct (proj1 (proj2 (Hw' x Hx)) c Ei) as [Nc Xc].
    apply located_prefix; try done; [by rewrite Nc|]. intros d Hd Kd Xd Pd.
    destruct (Hcov d Hd Kd Xd Pd) as (y & Hy & Ny & Hcy). rewrite <- Ny, Nc. by eapply last_cover_longest.
  - exists NGX_DECLINED, conf. split; [done|]. apply located_none; [done|done|]. intros d Hd Kd Xd Pd.
    destruct (Hcov d Hd Kd Xd Pd) as (y & Hy & _ & Hcy). apply last_None in E3.
    assert (In y (List.filter (covers u) r)) as Hin by (apply filter_In; split; [by apply list_elem_of_In|done]).
    by rewrite E3 in Hin.
Qed.
End Located.

(** The joined elements are fit for the tree. *)
Lemma joined_fresh ds r :
  Forall ok_conf ds -> Forall wf_item r -> (forall c, c ∈ ds /\ static c <-> exists x, x ∈ r /\ c ∈ confs x) ->
  Forall (fun x => fresh_item x /\ lq_name x <> []) r.
Proof.
  intros Hd Wr Hc. rewrite list.Forall_forall in Hd. pose proof (proj1 (list.Forall_forall _ _) Wr) as Wr'. apply list.Forall_forall. intros x Hx.
  pose proof (Wr' x Hx) as (X1 & X2 & X3 & X4 & X5).
  assert (forall c, c ∈ confs x -> ok_conf c /\ static c /\ c_name c = lq_name x) as Hcx.
  { intros c Hcx. destruct (proj2 (Hc c)) as [H1 H2]; [eauto|]. split; [by apply Hd|]. split; [done|].
    by destruct (item_conf x c (Wr' x Hx) Hcx). }
  assert (exists c, c ∈ confs x) as [c Hcc].
  { destruct X3 as [[c Hcc]|[c Hcc]]; exists c; [by apply conf_exact|by apply conf_inclusive]. }
  destruct (Hcx c Hcc) as ((_ & _ & Hst) & Kc & Nc). destruct (Hst Kc) as (Hn0 & Hlen & _). rewrite Nc in Hn0, Hlen.
  split; [|done]. split; [|done]. split_and!; [done|done|done|]. intros Hi.
  unfold item_redirects, conf_redirects in Hi. apply orb_true_iff in Hi as [Hi|Hi].
  - destruct (lq_exact x) as [e|] eqn:Ee; [|done]. destruct (Hcx e (conf_exact x e Ee)) as ((_ & _ & He) & Ke & <-). by apply He.
  - destruct (lq_inclusive x) as [e|] eqn:Ee; [|done]. destruct (Hcx e (conf_inclusive x e Ee)) as ((_ & _ & He) & Ke & <-). by apply He.
Qed.

(** The tree of joined elements exists and its searches find the locations. *)
Lemma joined_tree ds r :
  Forall ok_conf ds -> sorted_names r -> Forall wf_item r -> r <> [] ->
  (forall c, c ∈ ds /\ static c <-> exists x, x ∈ r /\ c ∈ confs x) ->
  exists t, (k ← create_locations_list (length r) r; create_locations_tree (S (length r)) k 0) = Some t /\
    forall u conf, ok_name u ->
      exists rc loc, find_static_location t u NGX_DECLINED conf = Some (rc, loc) /\ located ds u conf rc loc.
Proof.
  intros Hd Sr Wr Hne Hc. pose proof (joined_fresh ds r Hd Wr Hc) as Hfr.
  destruct (create_list_grouped (length r) [] r) as (k & -> & Hg); [done|done|..].
  { eapply list.Forall_impl; [exact Hfr|]. by intros x [? _]. }
  { eapply list.Forall_impl; [exact Hfr|]. intros x [_ ?]. split; [apply prefix_nil|done]. }
  cbn [mbind option_bind]. destruct (tree_total (S (length r)) [] k r Hg) as [t Ht]; [|lia|].
  { intros ->. inversion Hg; subst. done. }
  cbn [length] in Ht. rewrite Ht. exists t. split; [done|]. intros u conf Hu.
  rewrite (find_grouped (S (length r)) [] k r t u NGX_DECLINED conf Hg Sr); [by apply answer_located| |done|done].
  eapply list.Forall_impl; [exact Hfr|]. by intros x [[? _] _].
Qed.

(** The tree is built exactly when no two static locations of a kind have the same name, and
    its searches find the locations. *)
Lemma tree_finds ds :
  Forall ok_conf ds ->
  (NoDup (key <$> filter (fun c => static c) ds) ->
     exists t, location_tree ds = Some t /\
       forall u conf, ok_name u ->
         exists rc loc, find_static_location t u NGX_DECLINED conf = Some (rc, loc) /\ located ds u conf rc loc) /\
  (~ NoDup (key <$> filter (fun c => static c) ds) -> location_tree ds = None).
Proof.
  intros Hd. pose proof (static_queue_sorted ds Hd) as [Hsi Hso]. unfold location_tree.
  pose proof (init_locations_ok (add_location <$> ds)) as Hinit.
  destruct (init_locations (add_location <$> ds)) as [[l rs] ns]. destruct Hinit as [-> _].
  { apply list.Forall_forall. intros x (c & -> & Hc)%list_elem_of_fmap. rewrite lq_conf_add.
    rewrite list.Forall_forall in Hd. by destruct (Hd c Hc) as (? & ? & _). }
  fold (static_queue ds). rewrite <- (static_queue_confs ds).
  assert (forall c, c ∈ ds /\ static c <-> c ∈ concat (confs <$> static_queue ds)) as Hcs.
  { intros c. rewrite (static_queue_confs ds), list_elem_of_filter. tauto. }
  assert (forall x, x ∈ static_queue ds -> exists c, x = add_location c /\ c ∈ ds /\ static c) as Hadd
    by (intros x; apply elem_of_static_queue).
  destruct (static_queue ds) as [|q l] eqn:Eq.
  - split; [|intros H; exfalso; apply H; constructor]. intros _. exists Leaf. split; [done|]. intros u conf _.
    exists NGX_DECLINED, conf. split; [done|].
    assert (forall d, d ∈ ds -> static d -> False) as Hno.
    { intros d H1 H2. by apply (not_elem_of_nil d), Hcs. }
    apply located_none; [intros d H1 H2; by destruct (Hno d)..|].
    intros d H1 H2. by destruct (Hno d).
  - apply Forall_cons_1 in Hsi as [[Wq Sq] Hsi]. apply StronglySorted_inv in Hso as [Hso Hq].
    cbn [init_static_location_tree].
    assert (Forall (joins q) l) as Hj.
    { eapply list.Forall_impl; [exact Hq|]. intros y [?|[? He]]; [by left|]. right. split; [done|]. intros Hy. by apply Sq, He. }
    pose proof (join_ok l q Wq Hsi Hso Hj) as Hjoin.
    change (confs q ++ concat (confs <$> l)) with (concat (confs <$> q :: l)) in Hjoin.
    destruct (join_exact_locations q l) as [r|]; cbn [mbind option_bind].
    2: { split; [done|]. intros _. done. }
    destruct Hjoin as (Sr & Wr & Er & _). rewrite <- Er in Hcs |- *. split; [intros _|intros H; exfalso; by apply H, joined_keys].
    assert (forall c, c ∈ ds /\ static c <-> exists x, x ∈ r /\ c ∈ confs x) as Hc by (intros c; by rewrite Hcs, elem_of_confs).
    assert (r <> []) as Hne.
    { intros ->. destruct (Hadd q ltac:(left)) as (c & _ & H1 & H2). by apply (not_elem_of_nil c), Hcs. }
    by apply joined_tree.
Qed.

(** ** Regular expressions and nested locations *)

Abbreviation is_regex_conf c := (kind c = 1%nat).

Lemma omap_regexes (ds : list clcf_t) :
  omap id (lq_exact <$> filter (fun x => kind (lq_conf x) = 1%nat) (add_location <$> ds)) = filter (fun c => is_regex_conf c) ds.
Proof.
  induction ds as [|c ds IH]; [done|]. cbn [fmap list_fmap]. destruct (decide (kind c = 1%nat)) as [Hc|Hc].
  - rewrite !filter_cons_True by (by rewrite ?lq_conf_add). cbn [fmap list_fmap omap list_omap].
    assert (lq_exact (add_location c) = Some c) as ->.
    { unfold kind in Hc. unfold add_location. destruct (noname c), (named c), (regex c); try done. by rewrite orb_true_r. }
    cbn. by f_equal.
  - by rewrite !filter_cons_False by (by rewrite ?lq_conf_add).
Qed.

(** A level has its regex locations in the order of the configuration. *)
Lemma level_of_eq nr ds :
  Forall ok_conf ds -> level_of nr ds = t ← location_tree ds; Some (mk_level nr t (filter (fun c => is_regex_conf c) ds)).
Proof.
  intros Hd. unfold level_of, location_tree. pose proof (init_locations_ok (add_location <$> ds)) as Hi.
  destruct (init_locations _) as [[l rs] ns]. destruct Hi as [_ ->]; [|by rewrite omap_regexes].
  apply list.Forall_forall. intros x (c & -> & Hc)%list_elem_of_fmap. rewrite lq_conf_add.
  rewrite list.Forall_forall in Hd. by destruct (Hd c Hc) as (? & ? & _).
Qed.

(** The loop over the regex locations stops at the first that does not decline. *)
Lemma try_regexes_first rx nested l u rc conf :
  try_regexes rx nested l u rc conf =
  match List.find (fun c => negb (rx c u =? NGX_DECLINED)) l with
  | None => Some (rc, conf)
  | Some c =>
      if rx c u =? NGX_OK then '(rc, conf) ← nested (c_id c); Some (if rc =? NGX_ERROR then rc else NGX_OK, conf)
      else Some (NGX_ERROR, conf)
  end.
Proof.
  induction l as [|c l IH]; [done|]. cbn [try_regexes List.find].
  destruct (Z.eqb_spec (rx c u) NGX_DECLINED) as [E|E]; cbn [negb].
  - rewrite E. cbn. exact IH.
  - by destruct (_ =? NGX_OK).
Qed.

(** *** What the directives of all levels say

    [kids conf] are the [location] directives inside the server or location [conf]; a static location inside another
    one begins with its name.  The location of a request is found level by level; of the regexes those of the innermost
    level are tried first. *)
Section Answers.
Context (rx : clcf_t -> str -> Z) (kids : nat -> list clcf_t) (u : str).

Definition final (rc : Z) : Prop := rc = NGX_OK \/ rc = NGX_DONE.

(** The first regex location of a level, in the order of the configuration, that does not decline *)
Definition first_regex (conf : nat) : option clcf_t :=
  List.find (fun c => negb (rx c u =? NGX_DECLINED)) (filter (fun c => is_regex_conf c) (kids conf)).

Inductive answers : nat -> Z -> nat -> Prop :=
| answers_final conf rc loc :
    located (kids conf) u conf rc loc -> final rc -> answers conf rc loc
| answers_nested conf c rc loc :
    c ∈ kids conf -> located (kids conf) u conf NGX_AGAIN (c_id c) -> answers (c_id c) rc loc ->
    final rc \/ noregex c = true -> answers conf rc loc
| answers_regex conf rc0 loc0 r rc loc :
    undecided conf rc0 loc0 -> first_regex conf = Some r -> rx r u = NGX_OK -> answers (c_id r) rc loc ->
    answers conf (if rc =? NGX_ERROR then NGX_ERROR else NGX_OK) loc
| answers_error conf rc0 loc0 r :
    undecided conf rc0 loc0 -> first_regex conf = Some r -> rx r u <> NGX_OK -> answers conf NGX_ERROR loc0
| answers_static conf rc loc :
    undecided conf rc loc -> first_regex conf = None -> answers conf rc loc
with undecided : nat -> Z -> nat -> Prop :=
| undecided_none conf :
    located (kids conf) u conf NGX_DECLINED conf -> undecided conf NGX_DECLINED conf
| undecided_prefix conf c rc loc :
    c ∈ kids conf -> located (kids conf) u conf NGX_AGAIN (c_id c) -> answers (c_id c) rc loc ->
    ~ final rc -> noregex c = false -> undecided conf rc loc.
End Answers.

(** One call of the search *)
Lemma find_location_S rx levels nl fuel conf u :
  hd 0 u <> 64 ->
  find_location rx levels nl (S fuel) conf u =
    '(rc0, loc) ← find_static_location (lv_static (levels conf)) u NGX_DECLINED conf;
    '(rc, loc') ← (if rc0 =? NGX_AGAIN then find_location rx levels nl fuel loc u else Some (rc0, loc));
    if (rc =? NGX_OK) || (rc =? NGX_DONE) || ((rc0 =? NGX_AGAIN) && lv_noregex (levels loc)) then Some (rc, loc')
    else try_regexes rx (fun c => find_location rx levels nl fuel c u) (lv_regex (levels conf)) u rc loc'.
Proof.
  intros Hu. cbn [find_location]. rewrite (proj2 (Z.eqb_neq _ _) Hu).
  destruct (find_static_location _ _ _ _) as [[rc0 loc]|]; [|done]. cbn [mbind option_bind].
  destruct (if rc0 =? NGX_AGAIN then _ else _) as [[rc loc']|]; [|done]. cbn [mbind option_bind].
  by destruct ((rc =? NGX_OK) || (rc =? NGX_DONE)), (_ && _).
Qed.

(** A location found is one of the directives. *)
Lemma located_cases ds u conf rc loc :
  located ds u conf rc loc -> rc = NGX_DECLINED /\ loc = conf \/ (exists c, c ∈ ds /\ loc = c_id c) /\ (rc = NGX_OK \/ rc = NGX_AGAIN \/ rc = NGX_DONE).
Proof. destruct 1; [right|right|right|right|by left]; split; eauto; tauto. Qed.

(** The loop over the regexes, when the search ends at each of their levels *)
Lemma regexes_answer rx kids u nested conf rc0 loc0 :
  undecided rx kids u conf rc0 loc0 ->
  (forall c, c ∈ kids conf -> exists rc loc, nested (c_id c) = Some (rc, loc) /\ answers rx kids u (c_id c) rc loc) ->
  exists rc loc, try_regexes rx nested (filter (fun c => is_regex_conf c) (kids conf)) u rc0 loc0 = Some (rc, loc) /\
    answers rx kids u conf rc loc.
Proof.
  intros Hu Hn. rewrite try_regexes_first. fold (first_regex rx kids u conf).
  destruct (first_regex rx kids u conf) as [c|] eqn:Ec.
  - destruct (Z.eqb_spec (rx c u) NGX_OK) as [Eo|Eo].
    + assert (c ∈ kids conf) as Hc.
      { unfold first_regex in Ec. apply find_Some_elem in Ec as [[_ ?]%list_elem_of_filter _]. done. }
      destruct (Hn c Hc) as (rc & loc & -> & Ha). cbn [mbind option_bind]. eexists _, _. split; [done|].
      destruct (Z.eqb_spec rc NGX_ERROR) as [->|Hne].
      * by apply (answers_regex rx kids u conf rc0 loc0 c NGX_ERROR loc).
      * pose proof (answers_regex rx kids u conf rc0 loc0 c rc loc Hu Ec Eo Ha) as H.
        by rewrite (proj2 (Z.eqb_neq _ _) Hne) in H.
    + eexists _, _. split; [done|]. by apply (answers_error rx kids u conf rc0 loc0 c).
  - eexists _, _. split; [done|]. by apply answers_static.
Qed.

Lemma final_test rc : (rc =? NGX_OK) || (rc =? NGX_DONE) = true <-> final rc.
Proof. unfold final. rewrite orb_true_iff, !Z.eqb_eq. done. Qed.

(** Every level has its directives, which are nested in it. *)
Section Levels.
Context (kids : nat -> list clcf_t) (noregex_at : nat -> bool) (depth : nat -> nat).
Context (levels : nat -> level) (named_locations : list clcf_t).
Hypothesis kids_ok : forall conf, Forall ok_conf (kids conf).
Hypothesis kids_nested : forall conf c, c ∈ kids conf -> (depth (c_id c) < depth conf)%nat /\ noregex_at (c_id c) = noregex c.
Hypothesis levels_ok : forall conf, level_of (noregex_at conf) (kids conf) = Some (levels conf).

Lemma level_parts conf : lv_noregex (levels conf) = noregex_at conf /\
  lv_regex (levels conf) = filter (fun c => is_regex_conf c) (kids conf) /\ location_tree (kids conf) = Some (lv_static (levels conf)).
Proof.
  pose proof (levels_ok conf) as H. rewrite (level_of_eq _ _ (kids_ok conf)) in H.
  destruct (location_tree (kids conf)) as [t|]; [|done]. cbn in H. injection H as <-. done.
Qed.

Lemma level_static conf u : ok_name u ->
  exists rc loc, find_static_location (lv_static (levels conf)) u NGX_DECLINED conf = Some (rc, loc) /\ located (kids conf) u conf rc loc.
Proof.
  intros Hu. destruct (level_parts conf) as (_ & _ & Et). destruct (tree_finds (kids conf) (kids_ok conf)) as [H1 H2].
  destruct (decide (NoDup (key <$> filter (fun c => static c) (kids conf)))) as [Hnd|Hnd]; [|rewrite H2 in Et; done].
  destruct (H1 Hnd) as (t & Et' & Ht). rewrite Et in Et'. injection Et' as <-. by apply Ht.
Qed.

Lemma find_location_answers rx u : ok_name u -> hd 0 u <> 64 -> forall fuel conf, (depth conf < fuel)%nat ->
  exists rc loc, find_location rx levels named_locations fuel conf u = Some (rc, loc) /\ answers rx kids u conf rc loc.
Proof.
  intros Hu Hat. induction fuel as [|fuel IH]; intros conf Hf; [lia|].
  assert (forall c, c ∈ kids conf -> exists rc loc, find_location rx levels named_locations fuel (c_id c) u = Some (rc, loc) /\
    answers rx kids u (c_id c) rc loc) as Hn.
  { intros c Hc. apply IH. destruct (kids_nested conf c Hc). lia. }
  rewrite find_location_S by done. destruct (level_static conf u Hu) as (rc0 & loc0 & -> & Hl). cbn [mbind option_bind].
  destruct (level_parts conf) as (_ & Er & _). rewrite Er. pose proof (located_cases _ _ _ _ _ Hl) as Hcases.
  destruct (Z.eqb_spec rc0 NGX_AGAIN) as [->|Hag].
  - destruct Hcases as [[? _]|[(c & Hc & ->) _]]; [done|]. destruct (Hn c Hc) as (rc & loc & -> & Ha). cbn [mbind option_bind andb].
    destruct (level_parts (c_id c)) as (-> & _ & _). destruct (kids_nested conf c Hc) as [_ ->].
    destruct ((rc =? NGX_OK) || (rc =? NGX_DONE)) eqn:Ef.
    + apply final_test in Ef. eexists _, _. split; [done|]. apply (answers_nested rx kids u conf c); auto.
    + destruct (noregex c) eqn:Enr; cbn [orb].
      * eexists _, _. split; [done|]. apply (answers_nested rx kids u conf c); auto.
      * apply regexes_answer; [|done]. apply (undecided_prefix rx kids u conf c); try done.
        intros Hfin. apply final_test in Hfin. congruence.
  - cbn [mbind option_bind andb]. rewrite orb_false_r. destruct Hcases as [[-> ->]|[_ Hcases]].
    + cbn [orb Z.eqb]. change ((NGX_DECLINED =? NGX_OK) || (NGX_DECLINED =? NGX_DONE)) with false.
      apply regexes_answer; [|done]. by apply undecided_none.
    + assert (final rc0) as Hfin by (unfold final; destruct Hcases as [?|[?|?]]; auto; done).
      rewrite (proj2 (final_test rc0) Hfin). eexists _, _. split; [done|]. by apply answers_final.
Qed.
End Levels.

(** *** Named locations *)

Lemma strncmp_full a : forall b, ok_name a -> length a = length b -> ngx_strncmp a b (length a) = 0 <-> a = b.
Proof.
  induction a as [|c a IH]; intros [|d b] Ha El; try done. apply Forall_cons_1 in Ha as [Hc Ha]. unfold ok_byte in Hc.
  cbn [length ngx_strncmp hd tl]. destruct (Z.eqb_spec c d) as [->|Hne].
  - rewrite (proj2 (Z.eqb_neq d 0)) by lia. rewrite IH by (done || (cbn in El; lia)). split; [by intros ->|by intros [= ->]].
  - split; [lia|]. intros [= ? ?]. done.
Qed.

Lemma find_named_spec l u conf : ok_name u ->
  find_named_location l u conf =
  match List.find (fun c => bool_decide (u = c_name c)) l with Some c => (NGX_OK, c_id c) | None => (NGX_DECLINED, conf) end.
Proof.
  intros Hu. induction l as [|c l IH]; [done|]. cbn [find_named_location List.find].
  destruct (Nat.eqb_spec (length u) (length (c_name c))) as [El|El]; cbn [negb orb].
  - destruct (Z.eqb_spec (ngx_strncmp u (c_name c) (length u)) 0) as [E|E]; cbn [negb].
    + apply strncmp_full in E; [|done..]. by rewrite bool_decide_true.
    + rewrite bool_decide_false; [done|]. intros Eq. apply E. by apply strncmp_full.
  - rewrite bool_decide_false; [done|]. intros Eq. by rewrite Eq in El.
Qed.


(** ** What the directive accepts *)

Lemma filename_cmp_begins b : forall a, ok_name b -> ngx_filename_cmp a b (length b) = 0 -> b `prefix_of` a.
Proof.
  induction b as [|c b IH]; intros a Hb H; [apply prefix_nil|]. apply Forall_cons_1 in Hb as [Hc Hb].
  cbn [length ngx_filename_cmp hd tl] in H. unfold ok_byte in Hc. destruct a as [|d a]; cbn [hd tl] in H.
  - destruct (Z.eqb_spec 0 c); [lia|]. cbn in H. lia.
  - destruct (Z.eqb_spec d c) as [->|Hn].
    + destruct (Z.eqb_spec c 0); [lia|]. apply prefix_cons, IH; done.
    + unfold slash_lowest in H. destruct (Z.eqb_spec d 0), (Z.eqb_spec c 0), (Z.eqb_spec d 47), (Z.eqb_spec c 47); cbn in H; lia.
Qed.

Lemma ok_name_tl a : ok_name a -> ok_name (tl a).
Proof. by destruct 1. Qed.

(** A location inside another one: its configuration is of one kind, goes to the end of the
    queue, and unless it is a regex its name begins with the name it is inside. *)
Theorem nested_inside compile id p args l c l' :
  Forall (fun a => ok_name a) args -> ok_name (c_name p) ->
  core_location compile id p args l = Some (c, l') ->
  ok_name (c_name c) /\ one_kind c /\ l' = l ++ [add_location c] /\ c_id c = id /\
  (c_name p <> [] -> exact_match p = false /\ named p = false /\ named c = false /\ (regex c = true \/ c_name p `prefix_of` c_name c)).
Proof.
  intros Ha Hp H. unfold core_location in H.
  destruct (match args with [md; name] => _ | _ => _ end) as [c0|] eqn:Ec; [|done]. cbn [mbind option_bind] in H.
  destruct (may_nest p c0) eqn:En; [|done]. injection H as -> <-.
  assert (forall nm e nr n r, ok_name nm -> (r = true -> n = false) ->
    let c := mk_clcf id nm e nr n false r false in ok_name (c_name c) /\ one_kind c /\ c_id c = id) as Hmk.
  { intros nm e nr n r H1 H2. unfold one_kind. cbn. tauto. }
  assert (forall nm cs, ok_name nm -> regex_location compile id nm cs = Some c -> ok_name (c_name c) /\ one_kind c /\ c_id c = id) as Hre.
  { intros nm cs Hnm H. unfold regex_location in H. destruct (compile nm cs); [|done]. injection H as <-. by apply (Hmk nm false false false true). }
  assert (ok_name (c_name c) /\ one_kind c /\ c_id c = id) as (H1 & H2 & H3).
  { destruct args as [|a [|b [|? ?]]]; [done|..|done]; apply Forall_cons_1 in Ha as [Ha Hb].
    - unfold without_modifier in Ec.
      pose proof (ok_name_tl a Ha) as Ht. pose proof (ok_name_tl _ Ht) as Htt.
      destruct (_ =? 61); [injection Ec as <-; by apply Hmk|]. destruct (_ && _); [injection Ec as <-; by apply Hmk|].
      destruct (_ =? 126); [destruct (_ =? 42); by refine (Hre _ _ _ Ec)|]. injection Ec as <-. by apply Hmk.
    - apply Forall_cons_1 in Hb as [Hb _]. unfold with_modifier in Ec.
      destruct (_ && _); [injection Ec as <-; by apply Hmk|]. destruct (_ && _); [injection Ec as <-; by apply Hmk|].
      destruct (_ && _); [by refine (Hre _ _ _ Ec)|]. destruct (_ && _); [by refine (Hre _ _ _ Ec)|done]. }
  split_and!; [done..|]. intros Hne. unfold may_nest in En.
  assert ((length (c_name p) =? 0)%nat = false) as El by (by destruct (c_name p)). rewrite El in En.
  destruct (exact_match p), (named p), (named c); try done. cbn in En.
  split_and!; [done..|]. apply orb_true_iff in En as [?|En]; [by left|right]. apply filename_cmp_begins; [done|]. lia.
Qed.

(** ** Examples *)

Definition st (i : nat) (name : str) (exact pre auto : bool) : clcf_t := mk_clcf i name exact pre false false false auto.
Definition re (i : nat) (name : str) : clcf_t := mk_clcf i name false false false false true false.

(** [location /], [= /a], [/a], [~ jpg], [/ab/] of a proxy, [^~ /static/], [~ php], [/a/b] *)
Definition demo : list clcf_t :=
  [st 1 (bs "/") false false false; st 2 (bs "/a") true false false; st 3 (bs "/a") false false false; re 4 (bs "jpg");
   st 5 (bs "/ab/") false false true; st 6 (bs "/static/") false true false; re 7 (bs "php"); st 8 (bs "/a/b") false false false].

Fixpoint contains (pat u : str) : bool :=
  bool_decide (take (length pat) u = pat) || match u with [] => false | _ :: u => contains pat u end.

Definition demo_rx (c : clcf_t) (u : str) : Z := if contains (c_name c) u then NGX_OK else NGX_DECLINED.

(** Inside [/a] are [/a/b/c] and [~ gif]. *)
Definition demo_kids (i : nat) : list clcf_t :=
  match i with
  | 0 => demo
  | 3 => [st 9 (bs "/a/b/c") false false false; re 10 (bs "gif")]
  | _ => []
  end%nat.

Definition demo_depth (i : nat) : nat := match i with 0 => 2 | 3 => 1 | _ => 0 end%nat.
Definition demo_noregex (i : nat) : bool := (i =? 6)%nat.
Definition demo_levels (i : nat) : level := default (mk_level false Leaf []) (level_of (demo_noregex i) (demo_kids i)).
Definition demo_find (u : str) : option (Z * nat) := find_location demo_rx demo_levels [] 3 0 u.

Example demo_answers :
  mapM demo_find
     [bs "/a"; bs "/ab"; bs "/ab/x"; bs "/a/bc"; bs "/x.php"; bs "/php.jpg"; bs "/static/x.php"; bs "x"; bs "/az.gif"; bs "/az.jpg"] =
  Some [(NGX_OK, 2); (NGX_DONE, 5); (NGX_DECLINED, 5); (NGX_DECLINED, 8); (NGX_OK, 7); (NGX_OK, 4); (NGX_DECLINED, 6); (NGX_DECLINED, 0);
        (NGX_OK, 10); (NGX_OK, 4)]%nat.
Proof. vm_compute. reflexivity. Qed.


(** A duplicate is refused. *)
Example demo_duplicate : level_of false (demo ++ [st 9 (bs "/a") true false false]) = None.
Proof. vm_compute. reflexivity. Qed.

(** The length of a name is kept in a byte: a location with a name of 256 bytes gets every
    request, one with a name of 257 bytes every request that begins with its first byte. *)
Example long_name_matches :
  (t ← location_tree [st 1 (bs "/" ++ replicate 255 97) false false false];
   find_static_location t (bs "x") NGX_DECLINED 0) = Some (NGX_AGAIN, 1%nat) /\
  (t ← location_tree [st 1 (bs "/" ++ replicate 256 97) false false false];
   find_static_location t (bs "/x") NGX_DECLINED 0) = Some (NGX_AGAIN, 1%nat).
Proof. split; vm_compute; reflexivity. Qed.

End Locations.
