(* ===== verification/Checksum.v ===== *)
(** * Checksums and hashes of byte strings

    The CRC-32 of [src/src/core/ngx_crc32.h] with the two tables of [ngx_crc32.c], and
    [ngx_murmur_hash2] of [ngx_murmurhash.c], which the consistent hash balancer uses.
    [None] is an access outside a table or the data. *)

From S2P Require Import Prelude.

Module Checksum.

(** ** CRC-32 *)

Definition ngx_crc32_table16 : list Z :=
  [
   0x00000000; 0x1db71064; 0x3b6e20c8; 0x26d930ac; 0x76dc4190; 0x6b6b51f4; 0x4db26158; 0x5005713c;
   0xedb88320; 0xf00f9344; 0xd6d6a3e8; 0xcb61b38c; 0x9b64c2b0; 0x86d3d2d4; 0xa00ae278; 0xbdbdf21c
  ].

Definition ngx_crc32_table256 : list Z :=
  [
   0x00000000; 0x77073096; 0xee0e612c; 0x990951ba; 0x076dc419; 0x706af48f; 0xe963a535; 0x9e6495a3;
   0x0edb8832; 0x79dcb8a4; 0xe0d5e91e; 0x97d2d988; 0x09b64c2b; 0x7eb17cbd; 0xe7b82d07; 0x90bf1d91;
   0x1db71064; 0x6ab020f2; 0xf3b97148; 0x84be41de; 0x1adad47d; 0x6ddde4eb; 0xf4d4b551; 0x83d385c7;
   0x136c9856; 0x646ba8c0; 0xfd62f97a; 0x8a65c9ec; 0x14015c4f; 0x63066cd9; 0xfa0f3d63; 0x8d080df5;
   0x3b6e20c8; 0x4c69105e; 0xd56041e4; 0xa2677172; 0x3c03e4d1; 0x4b04d447; 0xd20d85fd; 0xa50ab56b;
   0x35b5a8fa; 0x42b2986c; 0xdbbbc9d6; 0xacbcf940; 0x32d86ce3; 0x45df5c75; 0xdcd60dcf; 0xabd13d59;
   0x26d930ac; 0x51de003a; 0xc8d75180; 0xbfd06116; 0x21b4f4b5; 0x56b3c423; 0xcfba9599; 0xb8bda50f;
   0x2802b89e; 0x5f058808; 0xc60cd9b2; 0xb10be924; 0x2f6f7c87; 0x58684c11; 0xc1611dab; 0xb6662d3d;
   0x76dc4190; 0x01db7106; 0x98d220bc; 0xefd5102a; 0x71b18589; 0x06b6b51f; 0x9fbfe4a5; 0xe8b8d433;
   0x7807c9a2; 0x0f00f934; 0x9609a88e; 0xe10e9818; 0x7f6a0dbb; 0x086d3d2d; 0x91646c97; 0xe6635c01;
   0x6b6b51f4; 0x1c6c6162; 0x856530d8; 0xf262004e; 0x6c0695ed; 0x1b01a57b; 0x8208f4c1; 0xf50fc457;
   0x65b0d9c6; 0x12b7e950; 0x8bbeb8ea; 0xfcb9887c; 0x62dd1ddf; 0x15da2d49; 0x8cd37cf3; 0xfbd44c65;
   0x4db26158; 0x3ab551ce; 0xa3bc0074; 0xd4bb30e2; 0x4adfa541; 0x3dd895d7; 0xa4d1c46d; 0xd3d6f4fb;
   0x4369e96a; 0x346ed9fc; 0xad678846; 0xda60b8d0; 0x44042d73; 0x33031de5; 0xaa0a4c5f; 0xdd0d7cc9;
   0x5005713c; 0x270241aa; 0xbe0b1010; 0xc90c2086; 0x5768b525; 0x206f85b3; 0xb966d409; 0xce61e49f;
   0x5edef90e; 0x29d9c998; 0xb0d09822; 0xc7d7a8b4; 0x59b33d17; 0x2eb40d81; 0xb7bd5c3b; 0xc0ba6cad;
   0xedb88320; 0x9abfb3b6; 0x03b6e20c; 0x74b1d29a; 0xead54739; 0x9dd277af; 0x04db2615; 0x73dc1683;
   0xe3630b12; 0x94643b84; 0x0d6d6a3e; 0x7a6a5aa8; 0xe40ecf0b; 0x9309ff9d; 0x0a00ae27; 0x7d079eb1;
   0xf00f9344; 0x8708a3d2; 0x1e01f268; 0x6906c2fe; 0xf762575d; 0x806567cb; 0x196c3671; 0x6e6b06e7;
   0xfed41b76; 0x89d32be0; 0x10da7a5a; 0x67dd4acc; 0xf9b9df6f; 0x8ebeeff9; 0x17b7be43; 0x60b08ed5;
   0xd6d6a3e8; 0xa1d1937e; 0x38d8c2c4; 0x4fdff252; 0xd1bb67f1; 0xa6bc5767; 0x3fb506dd; 0x48b2364b;
   0xd80d2bda; 0xaf0a1b4c; 0x36034af6; 0x41047a60; 0xdf60efc3; 0xa867df55; 0x316e8eef; 0x4669be79;
   0xcb61b38c; 0xbc66831a; 0x256fd2a0; 0x5268e236; 0xcc0c7795; 0xbb0b4703; 0x220216b9; 0x5505262f;
   0xc5ba3bbe; 0xb2bd0b28; 0x2bb45a92; 0x5cb36a04; 0xc2d7ffa7; 0xb5d0cf31; 0x2cd99e8b; 0x5bdeae1d;
   0x9b64c2b0; 0xec63f226; 0x756aa39c; 0x026d930a; 0x9c0906a9; 0xeb0e363f; 0x72076785; 0x05005713;
   0x95bf4a82; 0xe2b87a14; 0x7bb12bae; 0x0cb61b38; 0x92d28e9b; 0xe5d5be0d; 0x7cdcefb7; 0x0bdbdf21;
   0x86d3d2d4; 0xf1d4e242; 0x68ddb3f8; 0x1fda836e; 0x81be16cd; 0xf6b9265b; 0x6fb077e1; 0x18b74777;
   0x88085ae6; 0xff0f6a70; 0x66063bca; 0x11010b5c; 0x8f659eff; 0xf862ae69; 0x616bffd3; 0x166ccf45;
   0xa00ae278; 0xd70dd2ee; 0x4e048354; 0x3903b3c2; 0xa7672661; 0xd06016f7; 0x4969474d; 0x3e6e77db;
   0xaed16a4a; 0xd9d65adc; 0x40df0b66; 0x37d83bf0; 0xa9bcae53; 0xdebb9ec5; 0x47b2cf7f; 0x30b5ffe9;
   0xbdbdf21c; 0xcabac28a; 0x53b39330; 0x24b4a3a6; 0xbad03605; 0xcdd70693; 0x54de5729; 0x23d967bf;
   0xb3667a2e; 0xc4614ab8; 0x5d681b02; 0x2a6f2b94; 0xb40bbe37; 0xc30c8ea1; 0x5a05df1b; 0x2d02ef8d
  ].

(** [ngx_crc32_table_init]: the address [p] of [ngx_crc32_table_short] is aligned already,
    or the table is copied to the first aligned address of a new block; the
    table's content stays.  [mem] is the address of the block. *)
Definition ngx_crc32_table_init (cacheline p : Z) (mem : option Z) : Z * Z :=
  if Z.land p (Z.lnot (cacheline - 1)) =? p then (NGX_OK, p)
  else
    match mem with
    | None => (NGX_ERROR, p)
    | Some q => (NGX_OK, Z.land (q + (cacheline - 1)) (Z.lnot (cacheline - 1)))
    end.

(** The bodies of the loops. *)
Definition short_step (crc c : Z) : option Z :=
  t ← ngx_crc32_table16 !! Z.to_nat (Z.land (Z.lxor crc (Z.land c 0xf)) 0xf);
  let crc := Z.lxor t (Z.shiftr crc 4) in
  t ← ngx_crc32_table16 !! Z.to_nat (Z.land (Z.lxor crc (Z.shiftr c 4)) 0xf);
  Some (Z.lxor t (Z.shiftr crc 4)).

Definition long_step (crc c : Z) : option Z :=
  t ← ngx_crc32_table256 !! Z.to_nat (Z.land (Z.lxor crc c) 0xff);
  Some (Z.lxor t (Z.shiftr crc 8)).

Fixpoint short_loop (p : list Z) (crc : Z) : option Z :=
  match p with [] => Some crc | c :: p' => crc ← short_step crc c; short_loop p' crc end.

(** [ngx_crc32_update] *)
Fixpoint ngx_crc32_update (crc : Z) (p : list Z) : option Z :=
  match p with [] => Some crc | c :: p' => crc ← long_step crc c; ngx_crc32_update crc p' end.

Definition ngx_crc32_init : Z := 0xffffffff.
Definition ngx_crc32_final (crc : Z) : Z := Z.lxor crc 0xffffffff.

Definition ngx_crc32_short (p : list Z) : option Z :=
  crc ← short_loop p 0xffffffff; Some (Z.lxor crc 0xffffffff).

(** The loop of [ngx_crc32_long] is that of [ngx_crc32_update]. *)
Definition ngx_crc32_long (p : list Z) : option Z :=
  crc ← ngx_crc32_update 0xffffffff p; Some (Z.lxor crc 0xffffffff).

(** ** MurmurHash2 *)

Definition murmur_m : Z := 0x5bd1e995.

Definition murmur_block (h a b c d : Z) : Z :=
  let k := Z.lor (Z.lor (Z.lor a (Z.shiftl b 8)) (Z.shiftl c 16)) (Z.shiftl d 24) in
  let k := u32 (k * murmur_m) in
  let k := Z.lxor k (Z.shiftr k 24) in
  let k := u32 (k * murmur_m) in
  Z.lxor (u32 (h * murmur_m)) k.

(** The loop over blocks of four bytes and the cases of the rest, which fall through. *)
Fixpoint murmur_loop (data : list Z) (h : Z) : Z :=
  match data with
  | a :: b :: c :: d :: data' => murmur_loop data' (murmur_block h a b c d)
  | [a; b; c] => u32 (Z.lxor (Z.lxor (Z.lxor h (Z.shiftl c 16)) (Z.shiftl b 8)) a * murmur_m)
  | [a; b] => u32 (Z.lxor (Z.lxor h (Z.shiftl b 8)) a * murmur_m)
  | [a] => u32 (Z.lxor h a * murmur_m)
  | [] => h
  end.

Definition ngx_murmur_hash2 (data : list Z) : Z :=
  let h := murmur_loop data (u32 (Z.of_nat (length data))) in
  let h := Z.lxor h (Z.shiftr h 13) in
  let h := u32 (h * murmur_m) in
  Z.lxor h (Z.shiftr h 15).

(** ** The polynomial *)

(** CRC-32 bit by bit: the definition of the PNG specification. *)
Definition crc_bit (c : Z) : Z :=
  if Z.testbit c 0 then Z.lxor (Z.shiftr c 1) 0xedb88320 else Z.shiftr c 1.

Definition crc_bits (n : nat) (c : Z) : Z := Nat.iter n crc_bit c.

Definition crc32_reference (p : list Z) : Z :=
  Z.lxor (foldl (fun crc c => crc_bits 8 (Z.lxor crc c)) 0xffffffff p) 0xffffffff.

Lemma crc_bit_lxor a b : crc_bit (Z.lxor a b) = Z.lxor (crc_bit a) (crc_bit b).
Proof.
  unfold crc_bit. rewrite Z.lxor_spec, Z.shiftr_lxor.
  destruct (Z.testbit a 0), (Z.testbit b 0); cbn [xorb]; apply Z.bits_inj'; intros n _; rewrite !Z.lxor_spec;
    repeat match goal with |- context [Z.testbit ?x n] => destruct (Z.testbit x n) end; done.
Qed.

Lemma crc_bits_lxor n a b : crc_bits n (Z.lxor a b) = Z.lxor (crc_bits n a) (crc_bits n b).
Proof.
  induction n as [|n IH]; [done|]. unfold crc_bits in *. rewrite !Nat.iter_succ. by rewrite IH, crc_bit_lxor.
Qed.

Lemma crc_bits_shiftl n x : crc_bits n (Z.shiftl x (Z.of_nat n)) = x.
Proof.
  revert x. induction n as [|n IH]; intros x; [apply Z.shiftl_0_r|].
  unfold crc_bits in *. rewrite Nat.iter_succ_r. rewrite <- (IH x) at 2. f_equal. unfold crc_bit.
  rewrite Z.shiftl_spec_low, Z.shiftr_shiftl_l by lia. f_equal. lia.
Qed.

Lemma crc_bits_add m n c : crc_bits (m + n) c = crc_bits m (crc_bits n c).
Proof. apply Nat.iter_add. Qed.

(** A value is its low bits and its high bits. *)
Lemma lxor_split n x : 0 <= n -> Z.lxor (Z.land x (Z.ones n)) (Z.shiftl (Z.shiftr x n) n) = x.
Proof.
  intros Hn. apply Z.bits_inj'. intros i Hi. rewrite Z.lxor_spec, Z.land_spec.
  destruct (decide (i < n)).
  - rewrite Z.shiftl_spec_low, Z.ones_spec_low by lia. by destruct (Z.testbit x i).
  - rewrite Z.shiftl_spec_high, Z.shiftr_spec, Z.ones_spec_high by lia.
    replace (i - n + n) with i by lia. by rewrite andb_false_r, xorb_false_l.
Qed.

Lemma shiftr_below n b : 0 <= b < 2 ^ n -> Z.shiftr b n = 0.
Proof.
  intros Hb. destruct (decide (0 <= n)); [|rewrite Z.pow_neg_r in Hb; lia].
  rewrite Z.shiftr_div_pow2 by lia. by apply Z.div_small.
Qed.

(** A table of the values of [n] bits advances the checksum by [n] bits. *)
Lemma table_step (n : nat) (tbl : list Z) c b :
  (forall i, 0 <= i < 2 ^ Z.of_nat n -> tbl !! Z.to_nat i = Some (crc_bits n i)) -> 0 <= b < 2 ^ Z.of_nat n ->
  exists t, tbl !! Z.to_nat (Z.land (Z.lxor c b) (Z.ones (Z.of_nat n))) = Some t /\
    Z.lxor t (Z.shiftr c (Z.of_nat n)) = crc_bits n (Z.lxor c b).
Proof.
  intros Ht Hb. eexists. split.
  - apply Ht. rewrite Z.land_ones by lia. apply Z.mod_pos_bound. lia.
  - rewrite <- (lxor_split (Z.of_nat n) (Z.lxor c b)) at 2 by lia.
    rewrite crc_bits_lxor, crc_bits_shiftl, Z.shiftr_lxor, (shiftr_below _ b Hb), Z.lxor_0_r. done.
Qed.

Lemma table16_bits i : 0 <= i < 2 ^ Z.of_nat 4 -> ngx_crc32_table16 !! Z.to_nat i = Some (crc_bits 4 i).
Proof. revert i. apply range_eq. by vm_compute. Qed.

Lemma table256_bits i : 0 <= i < 2 ^ Z.of_nat 8 -> ngx_crc32_table256 !! Z.to_nat i = Some (crc_bits 8 i).
Proof. revert i. apply range_eq. by vm_compute. Qed.

Lemma long_step_bits crc c : is_byte c -> long_step crc c = Some (crc_bits 8 (Z.lxor crc c)).
Proof.
  intros Hc. unfold long_step. destruct (table_step 8 _ crc c table256_bits Hc) as (t & Ht & Hx).
  change (Z.ones (Z.of_nat 8)) with 255 in Ht. rewrite Ht. cbn [mbind option_bind]. by rewrite <- Hx.
Qed.

Lemma nibbles c : is_byte c -> c = Z.lxor (Z.land c 15) (Z.shiftl (Z.shiftr c 4) 4) /\ 0 <= Z.land c 15 < 16 /\ 0 <= Z.shiftr c 4 < 16.
Proof.
  intros Hc. pose proof (byte_forall (fun c => (c =? Z.lxor (Z.land c 15) (Z.shiftl (Z.shiftr c 4) 4)) &&
    (0 <=? Z.land c 15) && (Z.land c 15 <? 16) && (0 <=? Z.shiftr c 4) && (Z.shiftr c 4 <? 16)) eq_refl c Hc) as H.
  cbv beta in H. lia.
Qed.

Lemma short_step_bits crc c : is_byte c -> short_step crc c = Some (crc_bits 8 (Z.lxor crc c)).
Proof.
  intros Hc. destruct (nibbles c Hc) as (Hsplit & Hlo & Hhi). unfold short_step.
  destruct (table_step 4 _ crc (Z.land c 15) table16_bits Hlo) as (t & Ht & Hx).
  change (Z.ones (Z.of_nat 4)) with 15 in Ht. rewrite Ht. cbn [mbind option_bind].
  change (Z.shiftr crc (Z.of_nat 4)) with (Z.shiftr crc 4) in Hx. rewrite Hx.
  destruct (table_step 4 _ (crc_bits 4 (Z.lxor crc (Z.land c 15))) (Z.shiftr c 4) table16_bits Hhi) as (t' & Ht' & Hx').
  change (Z.ones (Z.of_nat 4)) with 15 in Ht'. rewrite Ht'. cbn [mbind option_bind].
  change (Z.of_nat 4) with 4 in Hx'. rewrite Hx'. f_equal.
  rewrite <- (crc_bits_shiftl 4 (Z.shiftr c 4)) at 1. rewrite <- crc_bits_lxor, <- crc_bits_add.
  rewrite Z.lxor_assoc. change (Z.of_nat 4) with 4. by rewrite <- Hsplit.
Qed.

Lemma update_reference p : bytes p -> forall crc,
  ngx_crc32_update crc p = Some (foldl (fun crc c => crc_bits 8 (Z.lxor crc c)) crc p).
Proof.
  induction 1 as [|c p Hc _ IH]; intros crc; [done|]. cbn [ngx_crc32_update foldl].
  rewrite long_step_bits by done. apply IH.
Qed.

Lemma short_reference p : bytes p -> forall crc,
  short_loop p crc = Some (foldl (fun crc c => crc_bits 8 (Z.lxor crc c)) crc p).
Proof.
  induction 1 as [|c p Hc _ IH]; intros crc; [done|]. cbn [short_loop foldl].
  rewrite short_step_bits by done. apply IH.
Qed.

(** The table-driven checksums are CRC-32: with the table of 16 and with the
    table of 256 elements, for every byte string, no access is outside the table
    and the result is that of the polynomial division bit by bit; feeding the
    string to [ngx_crc32_update] in pieces gives the same. *)
Theorem crc32_correct ps :
  let p := concat ps in
  bytes p ->
  ngx_crc32_short p = Some (crc32_reference p) /\ ngx_crc32_long p = Some (crc32_reference p) /\
  ngx_crc32_final <$> foldl (fun crc q => crc ← crc; ngx_crc32_update crc q) (Some ngx_crc32_init) ps =
    Some (crc32_reference p).
Proof.
  intros p Hp. unfold ngx_crc32_short, ngx_crc32_long, crc32_reference.
  rewrite short_reference, update_reference by done. split; [done|]. split; [done|]. unfold ngx_crc32_init, p in *. clear p.
  assert (forall crc, foldl (fun crc q => crc ← crc; ngx_crc32_update crc q) (Some crc) ps =
    Some (foldl (fun crc c => crc_bits 8 (Z.lxor crc c)) crc (concat ps))) as H; [|by rewrite H].
  induction ps as [|q ps IH]; intros crc; [done|]. cbn [concat foldl]. apply Forall_app in Hp as [Hq Hp].
  cbn [mbind option_bind]. rewrite update_reference by done. rewrite foldl_app. by apply IH.
Qed.

Lemma crc32_correct_witness :
  ngx_crc32_short (bs "123456789") = Some 0xcbf43926 /\ ngx_crc32_long (bs "123456789") = Some 0xcbf43926.
Proof.
  destruct (crc32_correct [bs "1234"; bs "56789"]) as (H1 & H2 & _).
  - repeat (constructor; [cbv; by split|]). constructor.
  - split; [exact H1|exact H2].
Defined.
End Checksum.
