(* ===== verification/LimitReq.v ===== *)
(** * The request limiter

    [src/src/http/modules/ngx_http_limit_req_module.c]: a zone of shared memory with a leaky
    bucket for each value of the limited variables, in a red-black tree ([RbTree]) under the
    CRC-32 of the value ([Checksum]) and in a queue by last use, and the handler that
    admits, delays or refuses a request by the rules of its location.

    A zone has the nodes of the tree in memory, the part of each node behind its links, and
    the queue from its head.  The slab allocator is a parameter: for the zone it
    gives a node whose contents are arbitrary, or nothing.  [None] is undefined behaviour. *)

From stdpp Require Import gmap.
From S2P Require Import Prelude NgxString RbTree Checksum.

Module LimitReq.
Import NgxString RbTree Checksum.

(** [ngx_http_limit_req_node_t] without the links *)
Record lr_t : Type := mk_lr { lr_len : Z; lr_last : Z; lr_excess : Z; lr_data : list Z }.

#[export] Instance eta_lr : Eta lr_t := fun l => mk_lr (lr_len l) (lr_last l) (lr_excess l) (lr_data l).

(** [ngx_http_limit_req_shctx_t] with the memory of its nodes *)
Record zone_t : Type := mk_zone { z_tree : store; z_lrs : gmap Z lr_t; z_queue : list ptr }.

#[export] Instance eta_zone : Eta zone_t := fun z => mk_zone (z_tree z) (z_lrs z) (z_queue z).

(** The bytes of a node the comparisons look at. *)
Definition node_text (l : lr_t) : list Z := take (Z.to_nat (lr_len l)) (lr_data l).
Definition text_at (lrs : gmap Z lr_t) (p : ptr) : list Z :=
  match lrs !! p with Some l => node_text l | None => [] end.

(** The comparison of [ngx_http_limit_req_rbtree_insert_value]. *)
Definition lr_less (lrs : gmap Z lr_t) (node temp : ptr * Z) : bool :=
  if node.2 <? temp.2 then true
  else if node.2 >? temp.2 then false
  else ngx_memn2cmp (text_at lrs node.1) (text_at lrs temp.1) <? 0.

(** A request has, for each variable of the zone, a value or none. *)
Definition values : Type := list (option (list Z)).

(** [ngx_http_limit_req_copy_variables] without a node: the length and the hash. *)
Fixpoint copy_variables (vars : values) (hash total_len : Z) : option (Z * Z) :=
  match vars with
  | [] => Some (total_len, hash)
  | None :: _ => Some (0, hash)
  | Some vv :: vars' =>
      let len := Z.of_nat (length vv) in
      if len =? 0 then Some (0, hash)
      else if len >? 65535 then Some (0, hash)
      else
        hash ← ngx_crc32_update hash vv;
        copy_variables vars' hash (total_len + len)
  end.

(** With a node: the bytes that are copied. *)
Fixpoint copied (vars : values) : list Z :=
  match vars with
  | Some vv :: vars' =>
      let len := Z.of_nat (length vv) in
      if (len =? 0) || (len >? 65535) then [] else vv ++ copied vars'
  | _ => []
  end.

(** The comparison of the variables with a node in [ngx_http_limit_req_lookup]; [lr_data] is what is left of
    its text. *)
Fixpoint compare_vars (vars : values) (lr_data : list Z) (rc : Z) : option (Z * list Z) :=
  match vars with
  | [] => Some (rc, lr_data)
  | None :: _ => None
  | Some vv :: vars' =>
      let lr_vv_len := Nat.min (length lr_data) (length vv) in
      let rc := memcmp vv lr_data lr_vv_len in
      if negb (rc =? 0) then Some (rc, lr_data)
      else if negb (lr_vv_len =? length vv)%nat then Some (1, lr_data)
      else compare_vars vars' (drop lr_vv_len lr_data) rc
  end.

Definition compare_node (vars : values) (l : lr_t) (rc : Z) : option Z :=
  '(rc, rest) ← compare_vars vars (node_text l) rc;
  Some (if (rc =? 0) && (0 <? length rest)%nat then -1 else rc).

(** [ngx_abs((ngx_msec_int_t) (now - lr->last))] *)
Definition elapsed (now last : Z) : Z := let ms := i64 (now - last) in if ms >=? 0 then ms else i64 (- ms).

(** The new excess of a bucket. *)
Definition new_excess (rate now : Z) (l : lr_t) : Z :=
  let excess := i64 (u64 (u64 (lr_excess l - u64 (rate * elapsed now (lr_last l)) / 1000) + 1000)) in
  if excess <? 0 then 0 else excess.

Definition queue_remove (p : ptr) (q : list ptr) : list ptr := filter (fun x => x <> p) q.

Section Zone.
(** The sentinel of the zone's tree. *)
Variable sentinel : ptr.

(** [ngx_http_limit_req_lookup]: the code, the excess and the zone. *)
Fixpoint lookup_loop (fuel : nat) (rate burst now : Z) (hash : Z) (vars : values) (node : ptr) (rc : Z) (z : zone_t)
    : option (Z * Z * zone_t) :=
  match fuel with
  | O => None
  | S fuel' =>
      if node =? sentinel then Some (NGX_DECLINED, 0, z)
      else
        n ← nodes (z_tree z) !! node;
        if hash <? key n then lookup_loop fuel' rate burst now hash vars (left n) rc z
        else if hash >? key n then lookup_loop fuel' rate burst now hash vars (right n) rc z
        else
          l ← z_lrs z !! node;
          rc ← compare_node vars l rc;
          if rc =? 0 then
            let z := z <| z_queue := node :: queue_remove node (z_queue z) |> in
            let excess := new_excess rate now l in
            if excess >? burst then Some (NGX_BUSY, excess, z)
            else
              let z := z <| z_lrs := <[node := l <| lr_excess := excess |> <| lr_last := now |>]> (z_lrs z) |> in
              Some (if negb (excess =? 0) then NGX_AGAIN else NGX_OK, excess, z)
          else lookup_loop fuel' rate burst now hash vars (if rc <? 0 then left n else right n) rc z
  end.

(** With a pass for each node in memory. *)
Definition limit_req_lookup (rate burst now hash : Z) (vars : values) (z : zone_t) : option (Z * Z * zone_t) :=
  lookup_loop (S (size (nodes (z_tree z)))) rate burst now hash vars (root (z_tree z)) (-1) z.

(** A node leaves the zone: [ngx_queue_remove], [ngx_rbtree_delete], [ngx_slab_free_locked]. *)
Definition drop_node (p : ptr) (z : zone_t) : option zone_t :=
  '(_, s) ← ngx_rbtree_delete sentinel p (z_tree z);
  Some (mk_zone (mk_store (delete p (nodes s)) (root s)) (delete p (z_lrs z)) (queue_remove p (z_queue z))).

(** [ngx_http_limit_req_expire]: [passes] is [3 - n]. *)
Fixpoint lr_expire_loop (passes : nat) (rate now n : Z) (z : zone_t) : option zone_t :=
  match passes with
  | O => Some z
  | S passes' =>
      match list.last (z_queue z) with
      | None => Some z
      | Some q =>
          l ← z_lrs z !! q;
          let ms := elapsed now (lr_last l) in
          if negb (n =? 0) && ((ms <? 60000) || (i64 (u64 (lr_excess l - u64 (rate * ms) / 1000)) >? 0)) then Some z
          else z ← drop_node q z; lr_expire_loop passes' rate now (n + 1) z
      end
  end.

Definition limit_req_expire (rate now n : Z) (z : zone_t) : option zone_t :=
  lr_expire_loop (Z.to_nat (3 - n)) rate now n z.

(** A bucket for a new value. *)
Definition new_node (now hash total_len : Z) (vars : values) (p : ptr) (junk : node_t) (z : zone_t) : option zone_t :=
  let s := mk_store (<[p := junk <| key := hash |>]> (nodes (z_tree z))) (root (z_tree z)) in
  let lrs := <[p := mk_lr (u16 total_len) now 0 (copied vars)]> (z_lrs z) in
  '(_, s) ← ngx_rbtree_insert sentinel (lr_less lrs) p s;
  Some (mk_zone s lrs (p :: z_queue z)).

(** What one rule says: the value is not there to be limited, there was no memory for a new bucket, or the
    code and the excess ([NGX_DECLINED] for a new bucket). *)
Inductive rule_verdict : Type := NotLimited | NoMemory (z : zone_t) | Verdict (rc excess : Z) (z : zone_t).

(** The body of the loop over the rules in [ngx_http_limit_req_handler]; [alloc] is
    [ngx_slab_alloc_locked]. *)
Definition apply_rule (rate burst now : Z) (vars : values) (alloc : zone_t -> option (ptr * node_t)) (z : zone_t)
    : option rule_verdict :=
  '(total_len, hash) ← copy_variables vars ngx_crc32_init 0;
  if total_len =? 0 then Some NotLimited
  else
    let hash := ngx_crc32_final hash in
    z ← limit_req_expire rate now 1 z;
    '(rc, excess, z) ← limit_req_lookup rate burst now hash vars z;
    if rc =? NGX_DECLINED then
      match alloc z with
      | Some (p, junk) =>
          z ← new_node now hash total_len vars p junk z; Some (Verdict rc excess z)
      | None =>
          z ← limit_req_expire rate now 0 z;
          match alloc z with
          | Some (p, junk) =>
              z ← new_node now hash total_len vars p junk z; Some (Verdict rc excess z)
          | None => Some (NoMemory z)
          end
      end
    else Some (Verdict rc excess z).
End Zone.

(** ** The handler *)

(** [ngx_http_limit_req_t]; [r_zone] is the zone's number, [r_rate] the rate of its context. *)
Record rule_t : Type := mk_rule { r_zone : nat; r_rate : Z; r_nodelay : bool; r_burst : Z; r_forbid : list Z }.

(** What the handler does with the request. *)
Inductive answer : Type :=
| Declined                       (* the next handler runs *)
| Refused                        (* [lrcf->status_code] *)
| Named (l : list Z)             (* a named location or a redirect runs instead *)
| Redirected (l : list Z)
| Delayed (ms : Z)
| InternalError.

(** The state of the loop over the rules: the zones, with the sentinels of their trees, and the locals
    [rc], [excess], [delay_excess], [nodelay] and the rate of [ctx]. *)
Record loop_t : Type := mk_loop {
  lz : list (ptr * zone_t); l_rc : Z; l_excess : Z; l_delay : Z; l_nodelay : bool; l_rate : Z }.

#[export] Instance eta_loop : Eta loop_t := fun l =>
  mk_loop (lz l) (l_rc l) (l_excess l) (l_delay l) (l_nodelay l) (l_rate l).

(** How the loop ends: after all rules, at the rule that refuses, or without memory. *)
Inductive loop_end : Type := AllRules (s : loop_t) | Stopped (s : loop_t) (r : rule_t) | Full (s : loop_t).

Fixpoint rules_loop (now : Z) (vars : nat -> values) (alloc : zone_t -> option (ptr * node_t))
    (rules : list rule_t) (s : loop_t) : option loop_end :=
  match rules with
  | [] => Some (AllRules s)
  | r :: rules' =>
      '(sentinel, z) ← lz s !! r_zone r;
      let s := s <| l_rate := r_rate r |> in
      v ← apply_rule sentinel (r_rate r) (r_burst r) now (vars (r_zone r)) alloc z;
      match v with
      | NotLimited => rules_loop now vars alloc rules' s
      | NoMemory z => Some (Full (s <| lz := <[r_zone r := (sentinel, z)]> (lz s) |>))
      | Verdict rc excess z =>
          let s := s <| lz := <[r_zone r := (sentinel, z)]> (lz s) |> <| l_rc := rc |> <| l_excess := excess |> in
          if rc =? NGX_DECLINED then rules_loop now vars alloc rules' s
          else if (rc =? NGX_BUSY) || (rc =? NGX_ERROR) then Some (Stopped s r)
          else
            rules_loop now vars alloc rules'
              (if l_delay s <? excess then s <| l_delay := excess |> <| l_nodelay := r_nodelay r |> else s)
      end
  end.

(** [ngx_http_limit_req_handler]: [set] is [r->main->limit_req_set], [rules] is [None] when the location has
    none, [white] whether [ngx_http_limit_req_ip_filter] answers [NGX_OK], [read_ok] whether the read event can be
    armed.  The result is the answer, the flag and the zones. *)
Definition limit_req_handler (set enable white read_ok : bool) (now : Z) (vars : nat -> values)
    (alloc : zone_t -> option (ptr * node_t)) (rules : option (list rule_t)) (zones : list (ptr * zone_t))
    : option (answer * bool * list (ptr * zone_t)) :=
  if set then Some (Declined, set, zones)
  else
    match rules with
    | None => Some (Declined, set, zones)
    | Some rules =>
        if negb enable then Some (Declined, set, zones)
        else if white then Some (Declined, set, zones)
        else
          e ← rules_loop now vars alloc rules (mk_loop zones NGX_DECLINED 0 0 false 0);
          match e with
          | Full s => Some (Refused, set, lz s)
          | Stopped s r =>
              Some (if (l_rc s =? NGX_ERROR) || (length (r_forbid r) =? 0)%nat then Refused
                    else if hd 0 (r_forbid r) =? "@"%ch then Named (r_forbid r) else Redirected (r_forbid r),
                    true, lz s)
          | AllRules s =>
              if negb (l_delay s =? 0) then
                if l_nodelay s then Some (Declined, true, lz s)
                else if l_rate s =? 0 then None
                else Some (if read_ok then Delayed (u64 (l_delay s * 1000) / l_rate s) else InternalError, true, lz s)
              else Some (Declined, true, lz s)
          end
    end.

(** [ngx_http_limit_req_ip_filter]: the value of the white list and the variable. *)
Definition ip_filter (geo_value : option (list Z)) (vv : option (list Z)) : bool :=
  match geo_value, vv with
  | Some g, Some v => (length v =? length g)%nat && (memcmp v g (length v) =? 0)
  | _, _ => false
  end.
(** ** The order of the texts *)

(** The order [ngx_memn2cmp] decides, by recursion. *)
Fixpoint lex (a b : list Z) : Z :=
  match a, b with
  | [], [] => 0
  | [], _ :: _ => -1
  | _ :: _, [] => 1
  | x :: a', y :: b' => if x =? y then lex a' b' else x - y
  end.

Lemma memn2cmp_lex a b : ngx_memn2cmp a b = lex a b.
Proof.
  revert b. induction a as [|x a IH]; intros [|y b]; try done. cbn [lex]. rewrite <- IH.
  unfold ngx_memn2cmp. cbn [length Nat.leb Nat.eqb].
  destruct (Z.eqb_spec x y) as [->|Hne]; destruct (length a <=? length b)%nat; cbn [memcmp]; rewrite ?Z.eqb_refl; try done;
    rewrite (proj2 (Z.eqb_neq x y)), (proj2 (Z.eqb_neq (x - y) 0)) by lia; done.
Qed.

Lemma lex_zero a b : lex a b = 0 <-> a = b.
Proof.
  revert b. induction a as [|x a IH]; intros [|y b]; cbn [lex]; try (split; done).
  destruct (Z.eqb_spec x y) as [->|Hne]; [rewrite IH; split; congruence|]. split; [lia|congruence].
Qed.

Lemma lex_anti a b : lex a b < 0 <-> 0 < lex b a.
Proof.
  revert b. induction a as [|x a IH]; intros [|y b]; cbn [lex]; try lia.
  rewrite (Z.eqb_sym y x). destruct (Z.eqb_spec x y); [apply IH|lia].
Qed.

(** A text between two others. *)
Lemma lex_split a b c : lex a c < 0 -> lex a b < 0 \/ lex b c < 0.
Proof.
  revert b c. induction a as [|x a IH]; intros [|y b] [|w c]; cbn [lex]; try lia.
  destruct (Z.eqb_spec x w), (Z.eqb_spec x y), (Z.eqb_spec y w); subst; try lia; try congruence. apply IH.
Qed.

(** The first variable decides, or is a prefix of the node's text. *)
Lemma memcmp_lex v w d :
  let n := Nat.min (length d) (length v) in
  (memcmp v d n <> 0 -> memcmp v d n = lex (v ++ w) d) /\
  (memcmp v d n = 0 -> (n <> length v -> lex (v ++ w) d = 1) /\ (n = length v -> lex (v ++ w) d = lex w (drop n d))).
Proof.
  revert d. induction v as [|x v IH]; intros [|y d]; cbn [length Nat.min memcmp app lex drop]; try done.
  destruct (Z.eqb_spec x y) as [->|Hne]; [|split; [done|lia]].
  destruct (IH d) as [H1 H2]. split; [done|]. intros H. destruct (H2 H) as [H3 H4]. split; intros; [apply H3|apply H4]; lia.
Qed.

(** The comparison of the variables with a node is that of their concatenation with its text. *)
Lemma compare_vars_lex vs : forall d rc, exists rc' rest,
  compare_vars (Some <$> vs) d rc = Some (rc', rest) /\
  (if (rc' =? 0) && (0 <? length rest)%nat then -1 else rc') =
  match vs with [] => if (rc =? 0) && (0 <? length d)%nat then -1 else rc | _ => lex (concat vs) d end.
Proof.
  assert (forall vs d rc, rc = 0 \/ vs <> [] -> exists rc' rest, compare_vars (Some <$> vs) d rc = Some (rc', rest) /\
    (if (rc' =? 0) && (0 <? length rest)%nat then -1 else rc') = lex (concat vs) d) as H.
  { clear. induction vs as [|v vs IH]; intros d rc Hrc; cbn [fmap list_fmap compare_vars concat].
    { destruct Hrc as [->|]; [|done]. exists 0, d. split; [done|]. by destruct d. }
    destruct (memcmp_lex v (concat vs) d) as [H1 H2]. destruct (Z.eqb_spec (memcmp v d (Nat.min (length d) (length v))) 0) as [E|E]; cbn [negb].
    - destruct (H2 E) as [H3 H4]. destruct (Nat.eqb_spec (Nat.min (length d) (length v)) (length v)) as [En|En]; cbn [negb].
      + rewrite H4 by done. rewrite E. apply IH. by left.
      + exists 1, d. split; [done|]. by rewrite H3.
    - eexists _, _. split; [done|]. rewrite (proj2 (Z.eqb_neq _ _) E). by apply H1. }
  intros d rc. destruct vs as [|v vs].
  - exists rc, d. done.
  - apply (H (v :: vs) d rc). by right.
Qed.

Lemma compare_node_lex vs l rc : vs <> [] -> compare_node (Some <$> vs) l rc = Some (lex (concat vs) (node_text l)).
Proof.
  intros Hne. destruct (compare_vars_lex vs (node_text l) rc) as (rc' & rest & E & H). unfold compare_node. rewrite E.
  cbn [mbind option_bind]. rewrite H. by destruct vs.
Qed.

(** The nodes are ordered by key and text. *)
Lemma lr_less_iff lrs a b :
  lr_less lrs a b = true <-> a.2 < b.2 \/ (a.2 = b.2 /\ lex (text_at lrs a.1) (text_at lrs b.1) < 0).
Proof.
  unfold lr_less. rewrite memn2cmp_lex. destruct (Z.ltb_spec a.2 b.2), (Z.gtb_spec a.2 b.2); try lia; split; intros; try done; try lia.
Qed.

Lemma lr_less_order lrs ks : order_on (lr_less lrs) ks.
Proof.
  split.
  - intros a b _ _ H%lr_less_iff. apply not_true_iff_false. rewrite lr_less_iff.
    pose proof (lex_anti (text_at lrs a.1) (text_at lrs b.1)). lia.
  - intros a b c _ _ _. rewrite !lr_less_iff. pose proof (lex_split (text_at lrs a.1) (text_at lrs b.1) (text_at lrs c.1)). lia.
Qed.

(** The order depends on the texts only. *)
Lemma lr_less_ext lrs lrs' a b :
  text_at lrs a.1 = text_at lrs' a.1 -> text_at lrs b.1 = text_at lrs' b.1 -> lr_less lrs a b = lr_less lrs' a b.
Proof. intros Ha Hb. unfold lr_less. by rewrite Ha, Hb. Qed.

Lemma sorted_lrs lrs lrs' l :
  sorted (lr_less lrs) l -> (forall a, a ∈ l -> text_at lrs a.1 = text_at lrs' a.1) -> sorted (lr_less lrs') l.
Proof.
  intros H Ht i j a b Hij Ha Hb. rewrite <- (lr_less_ext lrs); [by eapply H| |]; apply Ht; by eapply list_elem_of_lookup_2.
Qed.

(** ** Looking up a value *)

(** The key of a text. *)
Definition hash_of (w : list Z) : Z :=
  ngx_crc32_final (foldl (fun crc c => crc_bits 8 (Z.lxor crc c)) ngx_crc32_init w).

Definition value_ok (v : list Z) : Prop := bytes v /\ (1 <= length v)%nat /\ Z.of_nat (length v) <= 65535.

Lemma copy_variables_run vs : Forall value_ok vs -> forall h n,
  copy_variables (Some <$> vs) h n =
  Some (n + Z.of_nat (length (concat vs)), foldl (fun crc c => crc_bits 8 (Z.lxor crc c)) h (concat vs)).
Proof.
  induction 1 as [|v vs (Hb & H1 & H2) Hvs IH]; intros h n; cbn [fmap list_fmap copy_variables concat].
  { by rewrite Z.add_0_r. }
  rewrite (proj2 (Z.eqb_neq _ _)), Z.gtb_ltb, (proj2 (Z.ltb_ge _ _)) by lia. rewrite update_reference by done.
  cbn [mbind option_bind]. rewrite IH, length_app, foldl_app. f_equal. f_equal. lia.
Qed.

Lemma copied_run vs : Forall value_ok vs -> copied (Some <$> vs) = concat vs.
Proof.
  induction 1 as [|v vs (Hb & H1 & H2) Hvs IH]; [done|]. cbn [fmap list_fmap copied concat].
  rewrite (proj2 (Z.eqb_neq _ _)), Z.gtb_ltb, (proj2 (Z.ltb_ge _ _)) by lia. cbn [orb]. by rewrite IH.
Qed.

Section Zones.
Variable sentinel : ptr.

(** What the lookup does with the node it finds. *)
Definition found (rate burst now : Z) (p : ptr) (l : lr_t) (z : zone_t) : Z * Z * zone_t :=
  let z := z <| z_queue := p :: queue_remove p (z_queue z) |> in
  let excess := new_excess rate now l in
  if excess >? burst then (NGX_BUSY, excess, z)
  else (if negb (excess =? 0) then NGX_AGAIN else NGX_OK, excess,
        z <| z_lrs := <[p := l <| lr_excess := excess |> <| lr_last := now |>]> (z_lrs z) |>).

(** The part of a sorted tree a search leaves out does not have its node. *)
Lemma absent_right lrs p k l h w :
  sorted (lr_less lrs) ((p, k) :: l) -> h < k \/ (h = k /\ lex w (text_at lrs p) < 0) ->
  forall p', (p', h) ∈ (p, k) :: l -> text_at lrs p' <> w.
Proof.
  intros Hs Hlt p' Hin E. rewrite <- E in Hlt. apply elem_of_cons in Hin as [[= -> ->]|H].
  - assert (lex (text_at lrs p) (text_at lrs p) = 0) by (by apply lex_zero). lia.
  - change ((p, k) :: l) with ([(p, k)] ++ l) in Hs.
    pose proof (sorted_cross _ _ _ (p, k) (p', h) Hs ltac:(set_solver) H) as Hx. apply not_true_iff_false in Hx.
    rewrite lr_less_iff in Hx. cbn [fst snd] in Hx. lia.
Qed.

Lemma absent_left lrs p k l h w :
  sorted (lr_less lrs) (l ++ [(p, k)]) -> h > k \/ (h = k /\ 0 < lex w (text_at lrs p)) ->
  forall p', (p', h) ∈ l ++ [(p, k)] -> text_at lrs p' <> w.
Proof.
  intros Hs Hgt p' Hin E. rewrite <- E in Hgt. apply elem_of_app in Hin as [H|[= -> ->]%list_elem_of_singleton].
  - pose proof (sorted_cross _ _ _ (p', h) (p, k) Hs H ltac:(set_solver)) as Hx. apply not_true_iff_false in Hx.
    rewrite lr_less_iff in Hx. cbn [fst snd] in Hx. pose proof (lex_anti (text_at lrs p) (text_at lrs p')). lia.
  - assert (lex (text_at lrs p) (text_at lrs p) = 0) by (by apply lex_zero). lia.
Qed.

(** The outcome of a search among the nodes [nds]. *)
Definition looked_up (rate burst now h : Z) (w : list Z) (nds : list (ptr * Z)) (z : zone_t) (res : option (Z * Z * zone_t)) : Prop :=
  (exists p l, (p, h) ∈ nds /\ z_lrs z !! p = Some l /\ node_text l = w /\ res = Some (found rate burst now p l z)) \/
  ((forall p, (p, h) ∈ nds -> text_at (z_lrs z) p <> w) /\ res = Some (NGX_DECLINED, 0, z)).

Lemma looked_up_app rate burst now h w nds nds1 nds2 z res :
  looked_up rate burst now h w nds z res -> (forall x, x ∈ nds -> x ∈ nds1 ++ nds2) ->
  (forall x, x ∈ nds1 ++ nds2 -> x ∈ nds \/ (forall p, x = (p, h) -> text_at (z_lrs z) p <> w)) ->
  looked_up rate burst now h w (nds1 ++ nds2) z res.
Proof.
  intros [(p & l & H1 & H2)|[H1 H2]] Hin Hout; [left; exists p, l; split; [by apply Hin|done]|].
  right. split; [|done]. intros p Hp. destruct (Hout (p, h) Hp) as [H|H]; [by apply H1|by apply H].
Qed.

Lemma lookup_loop_runs rate burst now vs z h : vs <> [] -> forall t fuel par rc,
  rep sentinel (nodes (z_tree z)) par t -> sorted (lr_less (z_lrs z)) (inorder t) -> sentinel ∉ ptrs t ->
  (forall p, p ∈ ptrs t -> is_Some (z_lrs z !! p)) -> (length (ptrs t) < fuel)%nat ->
  looked_up rate burst now h (concat vs) (inorder t) z
    (lookup_loop sentinel fuel rate burst now h (Some <$> vs) (tptr sentinel t) rc z).
Proof.
  intros Hvs. induction t as [|c p k tl IHl tr IHr]; intros fuel par rc Hrep Hs Hsn Hl Hf; (destruct fuel as [|fuel]; [cbn in Hf; lia|]).
  { right. cbn [lookup_loop tptr]. rewrite Z.eqb_refl. split; [intros p; set_solver|done]. }
  cbn [ptrs length] in Hsn, Hl, Hf. rewrite length_app in Hf. destruct Hrep as (Hp & Hrl & Hrr). cbn [inorder] in Hs |- *.
  cbn [lookup_loop tptr]. rewrite (proj2 (Z.eqb_neq p sentinel)) by set_solver. rewrite Hp. cbn [mbind option_bind key left right].
  assert (sorted (lr_less (z_lrs z)) ((p, k) :: inorder tr)) as Hsr by (by eapply sorted_app_r).
  assert (sorted (lr_less (z_lrs z)) (inorder tl ++ [(p, k)])) as Hsl.
  { change ((p, k) :: inorder tr) with ([(p, k)] ++ inorder tr) in Hs. rewrite app_assoc in Hs. by eapply sorted_app_l. }
  assert (forall rc', h < k \/ (h = k /\ lex (concat vs) (text_at (z_lrs z) p) < 0) ->
    looked_up rate burst now h (concat vs) (inorder tl ++ (p, k) :: inorder tr) z
      (lookup_loop sentinel fuel rate burst now h (Some <$> vs) (tptr sentinel tl) rc' z)) as HL.
  { intros rc' Hlt. eapply looked_up_app.
    - eapply IHl; [done|by eapply sorted_app_l|set_solver|set_solver|lia].
    - set_solver.
    - intros x [H|H]%elem_of_app; [by left|]. right. intros p' ->. by eapply absent_right. }
  assert (forall rc', h > k \/ (h = k /\ 0 < lex (concat vs) (text_at (z_lrs z) p)) ->
    looked_up rate burst now h (concat vs) (inorder tl ++ (p, k) :: inorder tr) z
      (lookup_loop sentinel fuel rate burst now h (Some <$> vs) (tptr sentinel tr) rc' z)) as HR.
  { intros rc' Hgt. change ((p, k) :: inorder tr) with ([(p, k)] ++ inorder tr) in Hsr |- *. rewrite app_assoc. eapply looked_up_app.
    - eapply IHr; [done|by eapply sorted_app_r|set_solver|set_solver|lia].
    - set_solver.
    - intros x [H|H]%elem_of_app; [|by left]. right. intros p' ->. by eapply absent_left. }
  destruct (Z.ltb_spec h k); [by apply HL; left|]. destruct (Z.gtb_spec h k); [apply HR; left; lia|]. assert (h = k) as -> by lia.
  destruct (Hl p ltac:(set_solver)) as [l El]. rewrite El. cbn [mbind option_bind]. rewrite compare_node_lex by done. cbn [mbind option_bind].
  assert (text_at (z_lrs z) p = node_text l) as Et by (unfold text_at; by rewrite El). rewrite Et in HL, HR.
  destruct (Z.eqb_spec (lex (concat vs) (node_text l)) 0) as [E0|E0].
  - left. exists p, l. split; [set_solver|]. split; [done|]. split; [symmetry; by apply lex_zero|].
    unfold found. by destruct (new_excess rate now l >? burst).
  - destruct (Z.ltb_spec (lex (concat vs) (node_text l)) 0); [apply HL|apply HR]; right; split; (done || lia).
Qed.

(** ** The buckets a zone holds *)

Record bucket : Type := mk_bucket { b_text : list Z; b_last : Z; b_excess : Z }.

Definition lr_of (b : bucket) : lr_t := mk_lr (Z.of_nat (length (b_text b))) (b_last b) (b_excess b) (b_text b).

(** The zone [z] holds the buckets [bs], the one used last first. *)
Record zone_ok (z : zone_t) (bs : list bucket) : Prop := mk_zone_ok {
  zo_tree : exists sn rp t, holds sentinel (nodes (z_tree z)) sn rp [] t (z_tree z) /\ red_black t /\
    sorted (lr_less (z_lrs z)) (inorder t) /\ ptrs t ≡ₚ z_queue z /\
    (forall p k, (p, k) ∈ inorder t -> k = hash_of (text_at (z_lrs z) p));
  zo_lrs : Forall2 (fun p b => z_lrs z !! p = Some (lr_of b)) (z_queue z) bs;
  zo_nodup : NoDup (b_text <$> bs)
}.

Lemma node_text_lr b : node_text (lr_of b) = b_text b.
Proof. unfold node_text, lr_of. cbn [lr_len lr_data]. rewrite Nat2Z.id. apply firstn_all. Qed.

Lemma queue_nodup z bs : zone_ok z bs -> NoDup (z_queue z).
Proof.
  intros [(sn & rp & t & Ht & _ & _ & Hq & _) _ _]. apply h_nodup in Ht. rewrite <- Hq. rewrite app_nil_r in Ht.
  by apply list.NoDup_cons in Ht as [_ Ht].
Qed.

Lemma queue_remove_app q1 p q2 : NoDup (q1 ++ p :: q2) -> queue_remove p (q1 ++ p :: q2) = q1 ++ q2.
Proof.
  intros H. unfold queue_remove. rewrite list.filter_app, filter_cons_False by (by intros []).
  assert (forall l : list ptr, p ∉ l -> filter (fun x => x <> p) l = l) as Hf.
  { induction l as [|x l IH]; [done|]. intros Hp. rewrite filter_cons_True by set_solver. f_equal. apply IH. set_solver. }
  apply list.NoDup_app in H as (_ & Hd & [Hp _]%list.NoDup_cons). rewrite !Hf; [done|done|]. intros Hin. by eapply Hd; [exact Hin|left].
Qed.

(** The node of a bucket. *)
Lemma bucket_node z bs p l :
  zone_ok z bs -> p ∈ z_queue z -> z_lrs z !! p = Some l ->
  exists q1 q2 b1 b b2, z_queue z = q1 ++ p :: q2 /\ bs = b1 ++ b :: b2 /\ l = lr_of b /\
    Forall2 (fun p b => z_lrs z !! p = Some (lr_of b)) q1 b1 /\ Forall2 (fun p b => z_lrs z !! p = Some (lr_of b)) q2 b2.
Proof.
  intros [_ Hf _] (q1 & q2 & Eq)%list_elem_of_split Hl. rewrite Eq in Hf.
  apply Forall2_app_inv_l in Hf as (b1 & b' & H1 & H2 & ->). apply Forall2_cons_inv_l in H2 as (b & b2 & Hb & H2 & ->).
  exists q1, q2, b1, b, b2. split_and!; try done. rewrite Hl in Hb. by injection Hb.
Qed.
(** A bucket is used: its node moves to the front of the queue. *)
Lemma zone_touch z p q1 q2 b1 b b2 b' :
  zone_ok z (b1 ++ b :: b2) -> z_queue z = q1 ++ p :: q2 -> z_lrs z !! p = Some (lr_of b) ->
  Forall2 (fun p b => z_lrs z !! p = Some (lr_of b)) q1 b1 -> Forall2 (fun p b => z_lrs z !! p = Some (lr_of b)) q2 b2 ->
  b_text b' = b_text b ->
  zone_ok (mk_zone (z_tree z) (<[p := lr_of b']> (z_lrs z)) (p :: queue_remove p (z_queue z))) (b' :: b1 ++ b2).
Proof.
  intros H Eq Hl H1 H2 Hb'. pose proof (queue_nodup z _ H) as Hnd.
  rewrite Eq in Hnd |- *. rewrite queue_remove_app by done.
  assert (p ∉ q1 ++ q2) as Hpn. { rewrite <- Permutation_middle in Hnd. by apply list.NoDup_cons in Hnd as [? _]. }
  destruct H as [(sn & rp & t & Ht & Hrb & Hs & Hq & Hk) _ Hno]. 
  assert (forall q, text_at (<[p := lr_of b']> (z_lrs z)) q = text_at (z_lrs z) q) as Htext.
  { intros q. unfold text_at. destruct (decide (q = p)) as [->|]; [rewrite lookup_insert_eq, Hl, !node_text_lr; done|by rewrite lookup_insert_ne]. }
  assert (forall q bs', p ∉ q -> Forall2 (fun p b => z_lrs z !! p = Some (lr_of b)) q bs' ->
    Forall2 (fun p0 b => <[p := lr_of b']> (z_lrs z) !! p0 = Some (lr_of b)) q bs') as Hf.
  { intros q bs' Hq' HF. induction HF; constructor; [|set_solver]. rewrite lookup_insert_ne by set_solver. done. }
  split; cbn [z_tree z_lrs z_queue].
  - exists sn, rp, t. split_and!; try done.
    + eapply sorted_lrs; [exact Hs|]. intros a _. by rewrite Htext.
    + rewrite Hq, Eq. by rewrite Permutation_middle.
    + intros q k Hin. rewrite Htext. by apply Hk.
  - constructor; [by rewrite lookup_insert_eq|]. apply Forall2_app; apply Hf; (done || set_solver).
  - rewrite fmap_app, fmap_cons in Hno. cbn [fmap list_fmap]. rewrite Hb', fmap_app. by rewrite <- Permutation_middle in Hno.
Qed.

(** The buckets after a lookup. *)
Definition bucket_excess (rate now : Z) (b : bucket) : Z := new_excess rate now (lr_of b).

Fixpoint find_bucket (w : list Z) (bs : list bucket) : option (bucket * list bucket) :=
  match bs with
  | [] => None
  | b :: bs' =>
      if decide (b_text b = w) then Some (b, bs')
      else '(x, rest) ← find_bucket w bs'; Some (x, b :: rest)
  end.

Definition use_bucket (rate burst now : Z) (w : list Z) (bs : list bucket) : Z * Z * list bucket :=
  match find_bucket w bs with
  | None => (NGX_DECLINED, 0, bs)
  | Some (b, rest) =>
      let excess := bucket_excess rate now b in
      if excess >? burst then (NGX_BUSY, excess, b :: rest)
      else (if negb (excess =? 0) then NGX_AGAIN else NGX_OK, excess, mk_bucket w now excess :: rest)
  end.

Lemma find_bucket_at b1 b b2 : NoDup (b_text <$> b1 ++ b :: b2) -> find_bucket (b_text b) (b1 ++ b :: b2) = Some (b, b1 ++ b2).
Proof.
  induction b1 as [|x b1 IH]; cbn [app fmap list_fmap find_bucket]; intros H.
  - by rewrite decide_True.
  - apply list.NoDup_cons in H as [Hx H]. rewrite decide_False.
    + by rewrite IH.
    + intros E. apply Hx. rewrite E, fmap_app, fmap_cons. set_solver.
Qed.

Lemma find_bucket_none w bs : w ∉ b_text <$> bs -> find_bucket w bs = None.
Proof.
  induction bs as [|b bs IH]; [done|]. cbn [fmap list_fmap find_bucket]. intros H. rewrite decide_False by set_solver.
  by rewrite IH by set_solver.
Qed.

(** The lookup in the tree is the lookup of the bucket. *)
Lemma lookup_refines z bs rate burst now vs :
  zone_ok z bs -> vs <> [] ->
  let '(rc, excess, bs') := use_bucket rate burst now (concat vs) bs in
  exists z', limit_req_lookup sentinel rate burst now (hash_of (concat vs)) (Some <$> vs) z = Some (rc, excess, z') /\ zone_ok z' bs'.
Proof.
  intros H Hvs. pose proof H as [(sn & rp & t & Ht & Hrb & Hs & Hq & Hk) Hl Hno]. unfold limit_req_lookup.
  pose proof (ptrs_size _ _ _ _ _ _ Ht) as Hsz. pose proof (h_nodup _ _ _ _ _ _ _ Ht) as Hnd. rewrite app_nil_r in Hnd.
  assert (forall p, p ∈ ptrs t -> exists b, b ∈ bs /\ z_lrs z !! p = Some (lr_of b)) as Hb.
  { intros p Hp. rewrite Hq in Hp. apply list_elem_of_lookup in Hp as [i Hi].
    destruct (Forall2_lookup_l _ _ _ _ _ Hl Hi) as (b & Hbi & E). exists b. split; [by eapply list_elem_of_lookup_2|done]. }
  assert (root (z_tree z) = tptr sentinel t) as -> by (by destruct Ht).
  destruct (lookup_loop_runs rate burst now vs z (hash_of (concat vs)) Hvs t (S (size (nodes (z_tree z)))) rp (-1))
    as [(p & l & Hin & El & Et & ->)|[Hnone ->]]; [by destruct Ht|done|by apply list.NoDup_cons in Hnd as [? _]| |lia| |].
  { intros p Hp. destruct (Hb p Hp) as (b & _ & ->). by eexists. }
  - assert (p ∈ z_queue z) as Hp by (rewrite <- Hq; apply elem_of_ptrs; by eexists).
    destruct (bucket_node z bs p l H Hp El) as (q1 & q2 & b1 & b & b2 & Eq & -> & -> & H1 & H2).
    pose proof (fun b' => zone_touch z p q1 q2 b1 b b2 b' H Eq El H1 H2) as Hz.
    rewrite node_text_lr in Et. unfold use_bucket. rewrite <- Et, find_bucket_at by done. cbv zeta. unfold found, bucket_excess.
    destruct (new_excess rate now (lr_of b) >? burst).
    + eexists. split; [done|]. specialize (Hz b eq_refl). rewrite insert_id in Hz by done. exact Hz.
    + eexists. split; [done|]. apply (Hz (mk_bucket (b_text b) now (new_excess rate now (lr_of b)))). done.
  - assert (concat vs ∉ b_text <$> bs) as Hnot.
    { intros (b & Eb & Hbin)%list_elem_of_fmap. apply list_elem_of_lookup in Hbin as [i Hi].
      destruct (Forall2_lookup_r _ _ _ _ _ Hl Hi) as (p & Hpi & E). apply list_elem_of_lookup_2 in Hpi. rewrite <- Hq in Hpi.
      apply elem_of_ptrs in Hpi as [k Hin]. pose proof (Hk p k Hin) as Ek. unfold text_at in Ek. rewrite E, node_text_lr, <- Eb in Ek. subst k.
      apply (Hnone p Hin). unfold text_at. by rewrite E, node_text_lr. }
    unfold use_bucket. rewrite find_bucket_none by done. by exists z.
Qed.

(** The bucket of a node leaves. *)
Lemma drop_node_runs z p q1 q2 b1 b b2 :
  zone_ok z (b1 ++ b :: b2) -> z_queue z = q1 ++ p :: q2 -> 
  Forall2 (fun p b => z_lrs z !! p = Some (lr_of b)) q1 b1 -> Forall2 (fun p b => z_lrs z !! p = Some (lr_of b)) q2 b2 ->
  exists z', drop_node sentinel p z = Some z' /\ zone_ok z' (b1 ++ b2).
Proof.
  intros H Eq H1 H2. pose proof (queue_nodup z _ H) as Hnd. destruct H as [(sn & rp & t & Ht & Hrb & Hs & Hq & Hk) _ Hno].
  assert (p ∈ ptrs t) as Hp by (rewrite Hq, Eq; set_solver). pose proof (ptrs_size _ _ _ _ _ _ Ht) as Hsz.
  destruct (rbtree_delete_runs sentinel _ _ _ _ p _ (S (size (nodes (z_tree z)))) Ht Hrb Hp ltac:(lia))
    as ([] & s' & E & cn & sn' & rp' & t' & A & B & k & H' & Hrb' & Ht' & Et').
  unfold drop_node, ngx_rbtree_delete. rewrite E. cbn [mbind option_bind]. eexists. split; [done|].
  rewrite Eq in Hnd |- *. rewrite queue_remove_app by done.
  assert (p ∉ q1 ++ q2) as Hpn. { rewrite <- Permutation_middle in Hnd. by apply list.NoDup_cons in Hnd as [? _]. }
  assert (ptrs t' ≡ₚ q1 ++ q2) as Hq'.
  { rewrite <- inorder_ptrs, Et'. apply (Permutation_cons_inv (a := p)). rewrite Permutation_middle, <- Eq, <- Hq, <- inorder_ptrs, Ht'.
    rewrite !fmap_app, fmap_cons. cbn [fst]. by rewrite Permutation_middle. }
  assert (forall q, q <> p -> text_at (delete p (z_lrs z)) q = text_at (z_lrs z) q) as Htext.
  { intros q Hne. unfold text_at. by rewrite lookup_delete_ne. }
  assert (forall q k', (q, k') ∈ inorder t' -> q <> p) as Hne.
  { intros q k' Hin ->. apply Hpn. rewrite <- Hq'. apply elem_of_ptrs. by eexists. }
  assert (forall q bs', p ∉ q -> Forall2 (fun p b => z_lrs z !! p = Some (lr_of b)) q bs' ->
    Forall2 (fun p0 b => delete p (z_lrs z) !! p0 = Some (lr_of b)) q bs') as Hf.
  { intros q bs' Hq0 HF. induction HF; constructor; [|set_solver]. rewrite lookup_delete_ne by set_solver. done. }
  split; cbn [z_tree z_lrs z_queue nodes].
  - exists sn', rp', t'. split_and!.
    + eapply holds_free; [exact H'|]. apply not_elem_of_cons. split; [|by rewrite Hq'].
      intros ->. apply h_nodup in Ht. apply list.NoDup_cons in Ht as [Ht _]. apply Ht. rewrite app_nil_r. done.
    + done.
    + rewrite Et'. rewrite Ht' in Hs. apply sorted_delete in Hs. eapply sorted_lrs; [exact Hs|].
      intros [q k'] Hin. rewrite <- Et' in Hin. symmetry. apply Htext. by eapply Hne.
    + done.
    + intros q k' Hin. rewrite Htext by (by eapply Hne). apply Hk. rewrite Ht'. rewrite Et' in Hin. set_solver.
  - apply Forall2_app; apply Hf; (done || set_solver).
  - rewrite fmap_app, fmap_cons in Hno. rewrite fmap_app. rewrite <- Permutation_middle in Hno. by apply list.NoDup_cons in Hno as [_ ?].
Qed.

(** The buckets that expire. *)
Definition drained (rate now : Z) (b : bucket) : bool :=
  let ms := elapsed now (b_last b) in negb ((ms <? 60000) || (i64 (u64 (b_excess b - u64 (rate * ms) / 1000)) >? 0)).

Fixpoint expire_buckets (passes : nat) (rate now n : Z) (bs : list bucket) : list bucket :=
  match passes with
  | O => bs
  | S passes' =>
      match list.last bs with
      | None => bs
      | Some b => if negb (n =? 0) && negb (drained rate now b) then bs else expire_buckets passes' rate now (n + 1) (removelast bs)
      end
  end.

Lemma lr_expire_loop_refines rate now passes : forall n z bs,
  zone_ok z bs -> exists z', lr_expire_loop sentinel passes rate now n z = Some z' /\ zone_ok z' (expire_buckets passes rate now n bs).
Proof.
  induction passes as [|passes IH]; intros n z bs H; [by exists z|]. cbn [lr_expire_loop expire_buckets].
  pose proof (zo_lrs _ _ H) as Hl. destruct bs as [|b bs _] using rev_ind.
  { apply Forall2_nil_inv_r in Hl. rewrite Hl. cbn [list.last]. by exists z. }
  apply Forall2_app_inv_r in Hl as (q1 & q' & H1 & H2 & Eq). apply Forall2_cons_inv_r in H2 as (p & q2 & Hp & H2 & ->).
  apply Forall2_nil_inv_r in H2. subst q2. rewrite Eq, !last_snoc, Hp. cbn [mbind option_bind].
  change (lr_last (lr_of b)) with (b_last b). change (lr_excess (lr_of b)) with (b_excess b).
  unfold drained. rewrite negb_involutive. destruct (negb (n =? 0) && _); [by exists z|].
  destruct (drop_node_runs z p q1 [] bs b [] H Eq H1) as (z1 & -> & Hz); [constructor|]. cbn [mbind option_bind].
  rewrite removelast_last. rewrite app_nil_r in Hz. by apply IH.
Qed.

(** A new bucket. *)
Lemma new_node_runs z bs now vs p junk :
  zone_ok z bs -> Forall value_ok vs -> Z.of_nat (length (concat vs)) <= 65535 -> concat vs ∉ b_text <$> bs -> nodes (z_tree z) !! p = None ->
  exists z', new_node sentinel now (hash_of (concat vs)) (Z.of_nat (length (concat vs))) (Some <$> vs) p junk z = Some z' /\
    zone_ok z' (mk_bucket (concat vs) now 0 :: bs).
Proof.
  intros [(sn & rp & t & Ht & Hrb & Hs & Hq & Hk) Hl Hno] Hvs Hlen Hnot Hfresh. unfold new_node. cbv zeta. rewrite copied_run by done.
  assert (u16 (Z.of_nat (length (concat vs))) = Z.of_nat (length (concat vs))) as -> by (apply wrap_u_small; lia).
  assert (p ∉ sentinel :: ptrs t) as Hp.
  { apply not_elem_of_cons. split.
    - intros ->. destruct Ht. congruence.
    - intros Hin. destruct (rep_dom sentinel _ _ _ p (h_tree _ _ _ _ _ _ _ Ht) Hin) as [? ?]. congruence. }
  set (b' := mk_bucket (concat vs) now 0). change (mk_lr (Z.of_nat (length (concat vs))) now 0 (concat vs)) with (lr_of b').
  set (lrs := <[p := lr_of b']> (z_lrs z)). set (n' := junk <| key := hash_of (concat vs) |>).
  assert (forall q, q ∈ ptrs t -> text_at lrs q = text_at (z_lrs z) q) as Htext.
  { intros q Hin. unfold text_at, lrs. rewrite lookup_insert_ne; [done|]. intros ->. set_solver. }
  pose proof (holds_write sentinel _ _ _ _ _ _ p n' Ht) as Ht'. cbn [cptrs] in Ht'. rewrite app_nil_r in Ht'. specialize (Ht' Hp).
  assert (key n' = hash_of (concat vs)) as Hkey by (by destruct junk).
  destruct (rbtree_insert_runs sentinel (lr_less lrs) _ _ _ _ p n' _ (S (size (<[p := n']> (nodes (z_tree z))))) Ht' Hrb)
    as ([] & s' & E & rp' & t' & H' & Hrb' & Hins).
  { eapply sorted_lrs; [exact Hs|]. intros [q k] Hin. symmetry. apply Htext, elem_of_ptrs. by eexists. }
  { apply lr_less_order. }
  { cbn [nodes]. by rewrite lookup_insert_eq. }
  { done. }
  { pose proof (ptrs_size _ _ _ _ _ _ Ht'). cbn [nodes] in *. lia. }
  unfold ngx_rbtree_insert. cbn [nodes]. rewrite E. cbn [mbind option_bind]. eexists. split; [done|].
  rewrite Hkey in Hins. assert (forall q k, (q, k) ∈ inorder t' <-> (q, k) = (p, hash_of (concat vs)) \/ (q, k) ∈ inorder t) as Hin.
  { destruct Hins as (A & B & -> & -> & _). intros q k. rewrite !elem_of_app, elem_of_cons. tauto. }
  split; cbn [z_tree z_lrs z_queue].
  - exists sn, rp', t'. split; [by eapply holds_self|]. split; [done|]. split; [|split].
    + eapply inserted_sorted; [apply lr_less_order|exact Hins|]. eapply sorted_lrs; [exact Hs|].
      intros [q k] Hq'. symmetry. apply Htext, elem_of_ptrs. by eexists.
    + rewrite <- inorder_ptrs. destruct Hins as (A & B & EA & -> & _). rewrite fmap_app, fmap_cons. cbn [fst].
      rewrite <- Permutation_middle, <- fmap_app, <- EA, inorder_ptrs, Hq. done.
    + intros q k [[= -> ->]|Hq']%Hin.
      * unfold text_at, lrs. by rewrite lookup_insert_eq, node_text_lr.
      * rewrite Htext by (apply elem_of_ptrs; by eexists). by apply Hk.
  - constructor; [unfold lrs; by rewrite lookup_insert_eq|]. assert (p ∉ z_queue z) as Hpq by (rewrite <- Hq; set_solver). clear -Hl Hpq.
    unfold lrs. clearbody b'. induction Hl; constructor; [|set_solver]. rewrite lookup_insert_ne by set_solver. done.
  - cbn [fmap list_fmap b_text b']. by apply list.NoDup_cons.
Qed.

(** ** One request *)

(** What a request does to the buckets; [forced] is whether there was no memory for a new one at first. *)
Definition serve (rate burst now : Z) (w : list Z) (forced : bool) (bs : list bucket) : Z * Z * list bucket :=
  let '(rc, excess, bs) := use_bucket rate burst now w (expire_buckets 2 rate now 1 bs) in
  if rc =? NGX_DECLINED then (rc, excess, mk_bucket w now 0 :: if forced then expire_buckets 3 rate now 0 bs else bs)
  else (rc, excess, bs).

(** Only buckets at the end go, and without force only drained ones. *)
Lemma expire_buckets_prefix rate now passes : forall n bs, exists gone, bs = expire_buckets passes rate now n bs ++ gone /\
  (0 < n -> Forall (fun b => drained rate now b = true) gone).
Proof.
  induction passes as [|passes IH]; intros n bs; [exists []; by rewrite app_nil_r|]. cbn [expire_buckets].
  destruct bs as [|b bs _] using rev_ind; [by exists []|]. rewrite last_snoc, removelast_last.
  destruct (negb (n =? 0) && negb (drained rate now b)) eqn:E; [exists []; by rewrite app_nil_r|].
  destruct (IH (n + 1) bs) as (gone & Hg & Hd). exists (gone ++ [b]). split; [by rewrite app_assoc, <- Hg|].
  intros Hn. apply Forall_app. split; [apply Hd; lia|]. constructor; [|constructor].
  rewrite (proj2 (Z.eqb_neq n 0)) in E by lia. cbn [negb andb] in E. by destruct (drained rate now b).
Qed.

Lemma use_bucket_declined rate burst now w bs :
  (use_bucket rate burst now w bs).1.1 = NGX_DECLINED -> w ∉ b_text <$> bs /\ use_bucket rate burst now w bs = (NGX_DECLINED, 0, bs).
Proof.
  unfold use_bucket. destruct (find_bucket w bs) as [[b rest]|] eqn:E.
  - destruct (_ >? _); [done|]. by destruct (negb _).
  - intros _. split; [|done]. clear -E. induction bs as [|b bs IH]; [set_solver|]. cbn [find_bucket] in E.
    destruct (decide (b_text b = w)); [done|]. destruct (find_bucket w bs) as [[? ?]|]; [done|]. specialize (IH eq_refl). set_solver.
Qed.

(** The contract of the slab allocator: what it gives is not in use. *)
Definition alloc_fresh (alloc : zone_t -> option (ptr * node_t)) : Prop :=
  forall z p junk, alloc z = Some (p, junk) -> nodes (z_tree z) !! p = None.

Definition request_ok (vs : list (list Z)) : Prop :=
  vs <> [] /\ Forall value_ok vs /\ Z.of_nat (length (concat vs)) <= 65535.

Lemma apply_rule_refines rate burst now vs alloc z bs :
  zone_ok z bs -> request_ok vs -> alloc_fresh alloc ->
  exists v, apply_rule sentinel rate burst now (Some <$> vs) alloc z = Some v /\
    match v with
    | NotLimited => False
    | Verdict rc excess z' => exists forced bs', serve rate burst now (concat vs) forced bs = (rc, excess, bs') /\ zone_ok z' bs' /\
        (forced = true -> exists z, alloc z = None)
    | NoMemory z' => zone_ok z' (expire_buckets 3 rate now 0 (expire_buckets 2 rate now 1 bs)) /\ exists z, alloc z = None
    end.
Proof.
  intros H (Hne & Hvs & Hlen) Hal. unfold apply_rule. rewrite copy_variables_run by done. cbn [mbind option_bind]. rewrite Z.add_0_l.
  assert (1 <= length (concat vs))%nat as H1.
  { destruct vs as [|v vs]; [done|]. apply Forall_cons_1 in Hvs as [(_ & Hv & _) _]. cbn [concat]. rewrite length_app. lia. }
  rewrite (proj2 (Z.eqb_neq _ _)) by lia. cbv zeta. fold (hash_of (concat vs)). unfold limit_req_expire.
  change (Z.to_nat (3 - 1)) with 2%nat. change (Z.to_nat (3 - 0)) with 3%nat.
  destruct (lr_expire_loop_refines rate now 2 1 z bs H) as (z1 & -> & Hz1). cbn [mbind option_bind].
  pose proof (lookup_refines z1 _ rate burst now vs Hz1 Hne) as Hlk. unfold serve.
  pose proof (use_bucket_declined rate burst now (concat vs) (expire_buckets 2 rate now 1 bs)) as Hdec.
  destruct (use_bucket rate burst now (concat vs) (expire_buckets 2 rate now 1 bs)) as [[rc excess] bs1]. cbn [fst] in Hdec.
  destruct Hlk as (z2 & -> & Hz2). cbn [mbind option_bind].
  destruct (Z.eqb_spec rc NGX_DECLINED) as [->|Hrc]; [|by eexists; split; [done|]; exists false, bs1].
  destruct (Hdec eq_refl) as [Hnot [= -> ->]].
  destruct (alloc z2) as [[p junk]|] eqn:Ea.
  - destruct (new_node_runs z2 _ now vs p junk Hz2 Hvs Hlen Hnot (Hal _ _ _ Ea)) as (z3 & -> & Hz3). cbn [mbind option_bind].
    eexists. split; [done|]. by exists false, (mk_bucket (concat vs) now 0 :: expire_buckets 2 rate now 1 bs).
  - destruct (lr_expire_loop_refines rate now 3 0 z2 _ Hz2) as (z3 & -> & Hz3). cbn [mbind option_bind].
    destruct (alloc z3) as [[p junk]|] eqn:Ea'.
    + assert (concat vs ∉ b_text <$> expire_buckets 3 rate now 0 (expire_buckets 2 rate now 1 bs)) as Hnot'.
      { destruct (expire_buckets_prefix rate now 3 0 (expire_buckets 2 rate now 1 bs)) as (gone & E & _).
        rewrite E, fmap_app in Hnot. set_solver. }
      destruct (new_node_runs z3 _ now vs p junk Hz3 Hvs Hlen Hnot' (Hal _ _ _ Ea')) as (z4 & -> & Hz4). cbn [mbind option_bind].
      eexists. split; [done|]. eexists true, _. split; [done|]. split; [done|]. by exists z2.
    + eexists. split; [done|]. split; [done|]. by exists z2.
Qed.

(** ** The rate *)

Definition bucket_of (w : list Z) (bs : list bucket) : option bucket := fst <$> find_bucket w bs.

Lemma bucket_of_cons w b bs : bucket_of w (b :: bs) = if decide (b_text b = w) then Some b else bucket_of w bs.
Proof. unfold bucket_of. cbn [find_bucket]. destruct (decide _); [done|]. by destruct (find_bucket w bs) as [[? ?]|]. Qed.

Lemma bucket_of_app w b1 b2 : bucket_of w (b1 ++ b2) = match bucket_of w b1 with Some b => Some b | None => bucket_of w b2 end.
Proof. induction b1 as [|b b1 IH]; [done|]. cbn [app]. rewrite !bucket_of_cons. by destruct (decide _). Qed.

Lemma bucket_of_elem w bs b : bucket_of w bs = Some b -> b ∈ bs /\ b_text b = w.
Proof.
  induction bs as [|x bs IH]; [done|]. rewrite bucket_of_cons. destruct (decide (b_text x = w)); [intros [= ->]; set_solver|].
  intros [? ?]%IH. set_solver.
Qed.

(** Taking the bucket of another value out does not matter. *)
Lemma find_bucket_rest w w' bs b rest : find_bucket w' bs = Some (b, rest) ->
  b_text b = w' /\ (w <> w' -> bucket_of w rest = bucket_of w bs) /\ (forall x, x ∈ b :: rest -> x ∈ bs).
Proof.
  revert b rest. induction bs as [|x bs IH]; intros b rest; [done|]. cbn [find_bucket]. destruct (decide (b_text x = w')) as [E|E].
  - intros [= <- <-]. split; [done|]. split; [|done]. intros Hne. rewrite bucket_of_cons, decide_False; congruence.
  - destruct (find_bucket w' bs) as [[y r]|] eqn:Ef; [|done]. cbn [mbind option_bind]. intros [= <- <-].
    destruct (IH y r eq_refl) as (H1 & H2 & H3). split; [done|]. split; [|set_solver].
    intros Hne. rewrite !bucket_of_cons. destruct (decide _); [done|]. by apply H2.
Qed.

Section Rate.
Variables rate burst t0 span : Z.
Hypothesis Hrate : 0 < rate.
Hypothesis Hburst : 0 <= burst < 2 ^ 62.
Hypothesis Ht0 : 0 <= t0.
Hypothesis Hspan : t0 + span < 2 ^ 62.
Hypothesis Hmul : rate * span < 2 ^ 62.

(** The buckets at the time [now]. *)
Definition ranged (now : Z) (bs : list bucket) : Prop :=
  Forall (fun b => t0 <= b_last b <= now /\ 0 <= b_excess b < 2 ^ 62) bs.

Lemma elapsed_exact now last : t0 <= last <= now -> now <= t0 + span ->
  elapsed now last = now - last /\ 0 <= rate * (now - last) < 2 ^ 62.
Proof. intros H1 H2. split; [unfold elapsed; rewrite i64_small by lia; destruct (Z.geb_spec (now - last) 0); lia|]. nia. Qed.

Lemma bucket_excess_exact now b : t0 <= b_last b <= now -> 0 <= b_excess b < 2 ^ 62 -> now <= t0 + span ->
  bucket_excess rate now b = Z.max 0 (b_excess b - rate * (now - b_last b) / 1000 + 1000).
Proof.
  intros H1 H2 H3. destruct (elapsed_exact now (b_last b) H1 H3) as [E Hm]. unfold bucket_excess, new_excess, lr_of.
  cbn [lr_excess lr_last]. rewrite E, (u64_small (rate * _)) by lia.
  assert (0 <= rate * (now - b_last b) / 1000 < 2 ^ 62) as Hd.
  { split; [apply Z.div_pos; lia|]. apply Z.div_lt_upper_bound; lia. }
  set (q := rate * (now - b_last b) / 1000) in *. clearbody q.
  assert (i64 (u64 (u64 (b_excess b - q) + 1000)) = b_excess b - q + 1000) as ->.
  { rewrite <- (i64_small (b_excess b - q + 1000)) by lia. apply i64_congr. unfold u64, wrap_u.
    rewrite Zmod_mod, Zplus_mod_idemp_l. done. }
  destruct (Z.ltb_spec (b_excess b - q + 1000) 0); lia.
Qed.

Lemma drained_exact now b : t0 <= b_last b <= now -> 0 <= b_excess b < 2 ^ 62 -> now <= t0 + span ->
  drained rate now b = true -> 60000 <= now - b_last b /\ b_excess b <= rate * (now - b_last b) / 1000.
Proof.
  intros H1 H2 H3. destruct (elapsed_exact now (b_last b) H1 H3) as [E Hm]. unfold drained. cbv zeta. rewrite E, (u64_small (rate * _)) by lia.
  assert (0 <= rate * (now - b_last b) / 1000 < 2 ^ 62) as Hd.
  { split; [apply Z.div_pos; lia|]. apply Z.div_lt_upper_bound; lia. }
  set (q := rate * (now - b_last b) / 1000) in *. clearbody q.
  assert (i64 (u64 (b_excess b - q)) = b_excess b - q) as ->.
  { transitivity (i64 (b_excess b - q)); [|apply i64_small; lia]. apply i64_congr. unfold u64, wrap_u. by rewrite Zmod_mod. }
  rewrite negb_true_iff, orb_false_iff, Z.ltb_ge, Z.gtb_ltb, Z.ltb_ge. lia.
Qed.

(** What the bucket of [w] says about the [n] requests it took between [t1] and [tn]. *)
Definition quota (t1 tn : Z) : Z := rate * (tn - t1) / 1000 + 1000 * ((tn - t1) / 60000).

Definition counted (w : list Z) (n t1 tn now : Z) (bs : list bucket) : Prop :=
  t1 <= tn <= now /\ 1000 * (n - 1) <= burst + quota t1 tn /\
  match bucket_of w bs with
  | Some b => b_last b = tn /\ 0 <= b_excess b <= burst /\ 1000 * (n - 1) <= b_excess b + quota t1 tn
  | None => 60000 <= now - tn /\ 1000 * (n - 1) <= rate * (now - t1) / 1000 + 1000 * ((tn - t1) / 60000)
  end.

Lemma quota_add t1 tn now : t1 <= tn <= now ->
  rate * (tn - t1) / 1000 + rate * (now - tn) / 1000 <= rate * (now - t1) / 1000 /\
  (tn - t1) / 60000 + (now - tn) / 60000 <= (now - t1) / 60000.
Proof.
  intros H. assert (0 <= rate * (tn - t1) /\ 0 <= rate * (now - tn)) as [Ha Hb] by nia.
  replace (rate * (now - t1)) with (rate * (tn - t1) + rate * (now - tn)) by lia.
  split; [|replace (now - t1) with (tn - t1 + (now - tn)) by lia]; Z.to_euclidean_division_equations; lia.
Qed.

Lemma counted_same w n t1 tn now bs bs' : bucket_of w bs' = bucket_of w bs -> counted w n t1 tn now bs -> counted w n t1 tn now bs'.
Proof. unfold counted. by intros ->. Qed.

Lemma ranged_later now now' bs : now <= now' -> ranged now bs -> ranged now' bs.
Proof. intros H Hr. eapply list.Forall_impl; [exact Hr|]. intros b. cbn. lia. Qed.

Lemma ranged_bucket now bs w b : ranged now bs -> bucket_of w bs = Some b -> t0 <= b_last b <= now /\ 0 <= b_excess b < 2 ^ 62.
Proof. intros H [Hb _]%bucket_of_elem. unfold ranged in H. rewrite list.Forall_forall in H. by apply H. Qed.

(** Time passes, and drained buckets go. *)
Lemma counted_expire w n t1 tn now0 now bs passes :
  ranged now0 bs -> now0 <= now <= t0 + span -> counted w n t1 tn now0 bs ->
  counted w n t1 tn now (expire_buckets passes rate now 1 bs).
Proof.
  intros Hr Hnow (Ht & Hb & Hm). destruct (expire_buckets_prefix rate now passes 1 bs) as (gone & E & Hd). specialize (Hd ltac:(lia)).
  split; [lia|]. split; [done|]. pose proof (bucket_of_app w (expire_buckets passes rate now 1 bs) gone) as Happ. rewrite <- E in Happ.
  destruct (bucket_of w (expire_buckets passes rate now 1 bs)) as [b|]; [by rewrite Happ in Hm|].
  destruct (bucket_of w bs) as [b|] eqn:Eb.
  - destruct (ranged_bucket now0 bs w b Hr Eb) as [Hl He]. symmetry in Happ. apply bucket_of_elem in Happ as [Hg _].
    rewrite list.Forall_forall in Hd. specialize (Hd b Hg). destruct Hm as (<- & _ & Hm).
    destruct (drained_exact now b ltac:(lia) He ltac:(lia) Hd) as [H1 H2]. split; [lia|]. unfold quota in Hm.
    destruct (quota_add t1 (b_last b) now ltac:(lia)) as [H3 _]. lia.
  - split; [lia|]. destruct Hm as [_ Hm]. assert (rate * (now0 - t1) / 1000 <= rate * (now - t1) / 1000); [|lia].
    apply Z.div_le_mono; [lia|]. nia.
Qed.

(** The next request of the value is admitted. *)
Lemma counted_next w n t1 tn now bs ex rest :
  counted w n t1 tn now bs -> ranged now bs -> now <= t0 + span ->
  match bucket_of w bs with Some b => ex = bucket_excess rate now b | None => ex = 0 end -> 0 <= ex <= burst ->
  counted w (n + 1) t1 now now (mk_bucket w now ex :: rest).
Proof.
  intros (Ht & Hb & Hm) Hr Hnow Hex Hle. assert (1000 * (n + 1 - 1) <= ex + quota t1 now) as Hn.
  { destruct (quota_add t1 tn now Ht) as [H3 H4]. unfold quota in *. destruct (bucket_of w bs) as [b|] eqn:Eb.
    - destruct (ranged_bucket now bs w b Hr Eb) as [Hl He]. rewrite bucket_excess_exact in Hex by (done || lia).
      destruct Hm as (<- & _ & Hm). assert (0 <= (now - b_last b) / 60000) by (apply Z.div_pos; lia). lia.
    - destruct Hm as [H1 H2]. assert (1 <= (now - tn) / 60000) by (apply Z.div_le_lower_bound; lia). lia. }
  split; [lia|]. split; [lia|]. rewrite bucket_of_cons, decide_True by done. cbn [b_last b_excess]. done.
Qed.

Lemma counted_first w now ex rest : 0 <= ex <= burst -> counted w 1 now now now (mk_bucket w now ex :: rest).
Proof.
  intros H. unfold counted, quota. rewrite bucket_of_cons, decide_True by done. cbn [b_last b_excess].
  rewrite !Z.sub_diag, !Z.mul_0_r. change (0 / 1000) with 0. change (1000 * (0 / 60000)) with 0. split_and!; (done || lia).
Qed.

Lemma expire_ranged now bs passes n now' : ranged now bs -> ranged now (expire_buckets passes rate now' n bs).
Proof.
  intros H. destruct (expire_buckets_prefix rate now' passes n bs) as (gone & E & _). rewrite E in H. by apply Forall_app in H as [? _].
Qed.

(** What a request does to the buckets. *)
Lemma serve_step now0 now w' bs rc ex bs' :
  ranged now0 bs -> now0 <= now <= t0 + span -> t0 <= now -> serve rate burst now w' false bs = (rc, ex, bs') ->
  ranged now bs' /\ rc <> NGX_ERROR /\
  (forall w n t1 tn, counted w n t1 tn now0 bs -> w <> w' \/ rc = NGX_BUSY -> counted w n t1 tn now bs') /\
  (rc <> NGX_BUSY -> counted w' 1 now now now bs' /\ forall n t1 tn, counted w' n t1 tn now0 bs -> counted w' (n + 1) t1 now now bs').
Proof.
  intros Hr Hnow Hn0. unfold serve, use_bucket. pose proof (fun w n t1 tn => counted_expire w n t1 tn now0 now bs 2 Hr Hnow) as HC.
  pose proof (expire_ranged now bs 2 1 now (ranged_later now0 now bs ltac:(lia) Hr)) as Hr1.
  set (bs1 := expire_buckets 2 rate now 1 bs) in *. clearbody bs1.
  assert (forall b rest, ranged now (b :: rest) <-> (t0 <= b_last b <= now /\ 0 <= b_excess b < 2 ^ 62) /\ ranged now rest) as Hcons
    by (intros; unfold ranged; by rewrite list.Forall_cons).
  destruct (find_bucket w' bs1) as [[b rest]|] eqn:Ef.
  - destruct (find_bucket_rest w' w' bs1 b rest Ef) as (Hw & _ & Hin).
    assert (bucket_of w' bs1 = Some b) as Hb by (unfold bucket_of; by rewrite Ef).
    assert (forall x, b_text x = w' -> forall w, w <> w' -> bucket_of w (x :: rest) = bucket_of w bs1) as Hother.
    { intros x Hx w Hne. rewrite bucket_of_cons, decide_False by congruence. by apply (find_bucket_rest w w' bs1 b rest Ef). }
    assert (ranged now (b :: rest)) as Hrb.
    { unfold ranged in *. rewrite list.Forall_forall in *. intros x Hx. by apply Hr1, Hin. }
    apply Hcons in Hrb as [Hrb Hrr].
    pose proof (bucket_excess_exact now b ltac:(lia) ltac:(lia) ltac:(lia)) as Hex.
    assert (0 <= rate * (now - b_last b) / 1000) by (apply Z.div_pos; nia).
    destruct (Z.gtb_spec (bucket_excess rate now b) burst) as [Hgt|Hle].
    + intros [= <- <- <-]. split; [by apply Hcons|]. split; [done|]. split; [|done].
      intros w n t1 tn Hc _. eapply counted_same; [|by apply HC]. destruct (decide (w = w')) as [->|Hne]; [|by apply Hother].
      by rewrite bucket_of_cons, decide_True, Hb.
    + intros E. assert (rc <> NGX_ERROR /\ rc <> NGX_BUSY /\ bs' = mk_bucket w' now (bucket_excess rate now b) :: rest) as (H1 & H2 & ->).
      { destruct (negb (bucket_excess rate now b =? 0)); injection E as <- <- <-; by split_and!. }
      split; [apply Hcons; cbn [b_last b_excess]; split; [lia|done]|]. split; [done|]. split.
      * intros w n t1 tn Hc [Hne|]; [|done]. eapply counted_same; [|by apply HC]. by apply Hother.
      * intros _. split; [apply counted_first; lia|]. intros n t1 tn Hc. eapply counted_next; [by apply HC|done|lia|by rewrite Hb|lia].
  - assert (bucket_of w' bs1 = None) as Hb by (unfold bucket_of; by rewrite Ef).
    change (NGX_DECLINED =? NGX_DECLINED) with true. cbv iota. intros [= <- <- <-].
    split; [apply Hcons; cbn [b_last b_excess]; split; [lia|done]|]. split; [done|]. split.
    + intros w n t1 tn Hc [Hne|]; [|done]. eapply counted_same; [|by apply HC]. by rewrite bucket_of_cons, decide_False by (cbn; congruence).
    + intros _. split; [apply counted_first; lia|]. intros n t1 tn Hc. eapply counted_next; [by apply HC|done|lia|by rewrite Hb|lia].
Qed.
End Rate.

(** ** The leaky bucket

    The specification of a request, in integers without a width: a bucket drains by [rate] thousandths of a request
    per millisecond and a request adds a whole one. *)

(** What a bucket holds with a request at the time [now], and whether it has been empty for a minute *)
Definition level (rate now : Z) (b : bucket) : Z := Z.max 0 (b_excess b - rate * (now - b_last b) / 1000 + 1000).
Definition run_dry (rate now : Z) (b : bucket) : bool :=
  (60000 <=? now - b_last b) && (b_excess b <=? rate * (now - b_last b) / 1000).

(** At most [n] dry buckets go, from the one used longest ago on. *)
Fixpoint drop_dry (n : nat) (rate now : Z) (bs : list bucket) : list bucket :=
  match n, list.last bs with
  | S n, Some b => if run_dry rate now b then drop_dry n rate now (removelast bs) else bs
  | _, _ => bs
  end.

(** Without memory for a new bucket the one used longest ago goes in any case. *)
Definition make_room (rate now : Z) (bs : list bucket) : list bucket := drop_dry 2 rate now (removelast bs).

(** The code, what the bucket then holds, and the buckets, the one used last first *)
Definition leaky_bucket (rate burst now : Z) (w : list Z) (forced : bool) (bs : list bucket) : Z * Z * list bucket :=
  let bs := drop_dry 2 rate now bs in
  match find_bucket w bs with
  | Some (b, others) =>
      let l := level rate now b in
      if burst <? l then (NGX_BUSY, l, b :: others)
      else (if l =? 0 then NGX_OK else NGX_AGAIN, l, mk_bucket w now l :: others)
  | None => (NGX_DECLINED, 0, mk_bucket w now 0 :: if forced then make_room rate now bs else bs)
  end.

(** Times, rates and levels fit their integers, and no bucket was used after [now]. *)
Definition timely (rate now : Z) (bs : list bucket) : Prop :=
  0 < rate /\ now < 2 ^ 62 /\
  Forall (fun b => 0 <= b_last b <= now /\ 0 <= b_excess b < 2 ^ 62 /\ rate * (now - b_last b) < 2 ^ 62) bs.

Lemma level_exact rate now b : timely rate now [b] -> bucket_excess rate now b = level rate now b.
Proof.
  intros (Hr & Hn & H). apply Forall_cons_1 in H as [(H1 & H2 & H3) _].
  apply (bucket_excess_exact rate (b_last b) (now - b_last b)); lia.
Qed.

Lemma run_dry_exact rate now b : timely rate now [b] -> drained rate now b = run_dry rate now b.
Proof.
  intros (Hr & Hn & H). apply Forall_cons_1 in H as [(H1 & H2 & H3) _].
  destruct (elapsed_exact rate (b_last b) (now - b_last b)) with (now := now) (last := b_last b) as [E Hm]; [lia..|].
  unfold drained, run_dry. cbv zeta. rewrite E, (u64_small (rate * _)) by lia.
  assert (0 <= rate * (now - b_last b) / 1000 < 2 ^ 62) as Hd.
  { split; [apply Z.div_pos; lia|]. apply Z.div_lt_upper_bound; lia. }
  set (q := rate * (now - b_last b) / 1000) in *. clearbody q.
  assert (i64 (u64 (b_excess b - q)) = b_excess b - q) as ->.
  { transitivity (i64 (b_excess b - q)); [|apply i64_small; lia]. apply i64_congr. unfold u64, wrap_u. by rewrite Zmod_mod. }
  rewrite negb_orb. f_equal.
  - destruct (Z.ltb_spec (now - b_last b) 60000), (Z.leb_spec 60000 (now - b_last b)); (done || lia).
  - rewrite Z.gtb_ltb. destruct (Z.ltb_spec 0 (b_excess b - q)), (Z.leb_spec (b_excess b) q); (done || lia).
Qed.

Lemma timely_sub rate now bs bs' : (forall b, b ∈ bs' -> b ∈ bs) -> timely rate now bs -> timely rate now bs'.
Proof. intros H (H1 & H2 & H3). split_and!; [done..|]. rewrite list.Forall_forall in *. auto. Qed.

Lemma timely_one rate now bs b : b ∈ bs -> timely rate now bs -> timely rate now [b].
Proof. intros Hb. apply timely_sub. by intros x ->%list_elem_of_singleton. Qed.

Lemma expire_dry rate now passes : forall n bs, 0 < n -> timely rate now bs ->
  expire_buckets passes rate now n bs = drop_dry passes rate now bs.
Proof.
  induction passes as [|passes IH]; intros n bs Hn Ht; [done|]. cbn [expire_buckets drop_dry].
  destruct bs as [|b bs _] using rev_ind; [done|]. rewrite last_snoc, removelast_last.
  rewrite (proj2 (Z.eqb_neq n 0)) by lia. cbn [negb andb].
  rewrite (run_dry_exact rate now b) by (eapply timely_one; [|exact Ht]; apply elem_of_app; right; left).
  destruct (run_dry rate now b); cbn [negb]; [|done]. apply IH; [lia|].
  eapply timely_sub; [|exact Ht]. intros x Hx. apply elem_of_app. by left.
Qed.

Lemma drop_dry_prefix rate now n : forall bs, exists gone, bs = drop_dry n rate now bs ++ gone.
Proof.
  induction n as [|n IH]; intros bs; cbn [drop_dry]; [exists []; by rewrite app_nil_r|].
  destruct bs as [|b bs _] using rev_ind; [by exists []|]. rewrite last_snoc, removelast_last.
  destruct (run_dry rate now b); [|exists []; by rewrite app_nil_r]. destruct (IH bs) as [gone Hg].
  exists (gone ++ [b]). by rewrite app_assoc, <- Hg.
Qed.

Lemma timely_dry rate now n bs : timely rate now bs -> timely rate now (drop_dry n rate now bs).
Proof.
  intros Ht. destruct (drop_dry_prefix rate now n bs) as [gone Hg]. eapply timely_sub; [|exact Ht].
  intros b Hb. rewrite Hg. apply elem_of_app. by left.
Qed.

Lemma expire_forced rate now bs : timely rate now bs -> expire_buckets 3 rate now 0 bs = make_room rate now bs.
Proof.
  intros Ht. unfold make_room. change (expire_buckets 3 rate now 0 bs) with
    (match list.last bs with None => bs | Some b => expire_buckets 2 rate now (0 + 1) (removelast bs) end).
  destruct bs as [|b bs _] using rev_ind; [done|]. rewrite last_snoc, removelast_last. apply expire_dry; [lia|].
  eapply timely_sub; [|exact Ht]. intros x Hx. apply elem_of_app. by left.
Qed.

(** The code's arithmetic is that of the leaky bucket. *)
Lemma serve_leaky rate burst now w forced bs : timely rate now bs ->
  serve rate burst now w forced bs = leaky_bucket rate burst now w forced bs.
Proof.
  intros Ht. unfold serve, leaky_bucket, use_bucket. rewrite expire_dry by (done || lia).
  pose proof (timely_dry rate now 2 bs Ht) as Ht2. set (bs2 := drop_dry 2 rate now bs) in *.
  destruct (find_bucket w bs2) as [[b others]|] eqn:Ef.
  - destruct (find_bucket_rest w w bs2 b others Ef) as (_ & _ & Hin).
    rewrite (level_exact rate now b) by (eapply timely_one; [|exact Ht2]; apply Hin; left). rewrite Z.gtb_ltb.
    destruct (burst <? level rate now b); [done|]. by destruct (level rate now b =? 0).
  - cbn [Z.eqb]. change (NGX_DECLINED =? NGX_DECLINED) with true. cbv iota. destruct forced; [|done]. by rewrite expire_forced.
Qed.

(** C23: one request under one rule, with non-empty values of at most 65535 bytes together and times that fit their
    integers, on the tree and the queue in shared memory, does to the buckets what a leaky bucket does, in integers without
    a width: after at most two buckets that have been empty for a minute have been dropped, the bucket of its value (the
    concatenation of the variables) is found through the CRC-32 tree exactly when there is one, moves to the front and takes
    the request or refuses it; otherwise a new bucket is made, for which the one used longest ago is dropped, and two more if
    they are empty, if memory is short.  The zone stays a red-black tree with its queue. *)
Theorem limit_req_refines rate burst now vs alloc z bs :
  zone_ok z bs -> request_ok vs -> alloc_fresh alloc -> timely rate now bs ->
  exists v, apply_rule sentinel rate burst now (Some <$> vs) alloc z = Some v /\
    match v with
    | NotLimited => False
    | Verdict rc excess z' => exists forced bs', leaky_bucket rate burst now (concat vs) forced bs = (rc, excess, bs') /\ zone_ok z' bs' /\
        (forced = true -> exists z, alloc z = None)
    | NoMemory z' => zone_ok z' (make_room rate now (drop_dry 2 rate now bs)) /\ exists z, alloc z = None
    end.
Proof.
  intros Hz Hrq Hal Ht. destruct (apply_rule_refines rate burst now vs alloc z bs Hz Hrq Hal) as (v & Ev & Hv).
  exists v. split; [done|]. destruct v as [|z'|rc excess z']; [done| |].
  - rewrite (expire_dry rate now 2 1 bs), expire_forced in Hv by (done || lia || by apply timely_dry). done.
  - destruct Hv as (forced & bs' & Hs & H). exists forced, bs'. by rewrite <- serve_leaky.
Qed.

(** ** Sequences of requests *)

(** A request: the time, the values of the variables and the allocator. *)
Record hit_t : Type := mk_hit { h_now : Z; h_values : list (list Z); h_alloc : zone_t -> option (ptr * node_t) }.

Definition handle (r : rule_t) (h : hit_t) (z : zone_t) : option (answer * zone_t) :=
  '(a, _, zs) ← limit_req_handler false true false true (h_now h) (fun _ => Some <$> h_values h) (h_alloc h) (Some [r]) [(sentinel, z)];
  '(_, z) ← zs !! 0%nat;
  Some (a, z).

Fixpoint handle_all (r : rule_t) (hits : list hit_t) (z : zone_t) : option (list answer * zone_t) :=
  match hits with
  | [] => Some ([], z)
  | h :: hits' => '(a, z) ← handle r h z; '(l, z) ← handle_all r hits' z; Some (a :: l, z)
  end.

(** The request is served, at once or after a delay. *)
Definition admitted (a : answer) : bool :=
  match a with Refused | Named _ | Redirected _ => false | _ => true end.

(** When requests for [w] were admitted. *)
Fixpoint times (w : list Z) (hits : list hit_t) (answers : list answer) : list Z :=
  match hits, answers with
  | h :: hits', a :: answers' =>
      (if admitted a && bool_decide (concat (h_values h) = w) then [h_now h] else []) ++ times w hits' answers'
  | _, _ => []
  end.

(** The requests come in order, until [finish], and memory does not run out. *)
Fixpoint hits_ok (start finish : Z) (hits : list hit_t) : Prop :=
  match hits with
  | [] => True
  | h :: hits' =>
      start <= h_now h <= finish /\ request_ok (h_values h) /\ alloc_fresh (h_alloc h) /\
      (forall z, h_alloc h z <> None) /\ hits_ok (h_now h) finish hits'
  end.

Lemma handle_runs r h z bs :
  r_zone r = 0%nat -> 0 < r_rate r -> zone_ok z bs -> request_ok (h_values h) -> alloc_fresh (h_alloc h) ->
  (forall z, h_alloc h z <> None) ->
  exists a z' rc ex bs', handle r h z = Some (a, z') /\ serve (r_rate r) (r_burst r) (h_now h) (concat (h_values h)) false bs = (rc, ex, bs') /\
    zone_ok z' bs' /\ (rc <> NGX_ERROR -> admitted a = negb (rc =? NGX_BUSY)).
Proof.
  intros Hz Hr H Hrq Hal Htot.
  destruct (apply_rule_refines (r_rate r) (r_burst r) (h_now h) (h_values h) (h_alloc h) z bs H Hrq Hal) as (v & Ev & Hv).
  destruct v as [|z'|rc ex z']; [done|destruct Hv as [_ [zn Hn]]; by destruct (Htot zn)|].
  destruct Hv as (forced & bs' & Hs & Hz' & Hf). destruct forced; [destruct (Hf eq_refl) as [zn Hn]; by destruct (Htot zn)|].
  unfold handle, limit_req_handler. cbn [negb rules_loop]. rewrite Hz. cbn [lz lookup list_lookup mbind option_bind]. rewrite Ev.
  cbn [mbind option_bind]. destruct (Z.eqb_spec rc NGX_DECLINED) as [->|Hd].
  { eexists _, z', _, _, _. split; [reflexivity|]. by split_and!. }
  destruct ((rc =? NGX_BUSY) || (rc =? NGX_ERROR)) eqn:Eb.
  - eexists _, z', _, _, _. split; [reflexivity|]. split_and!; [done|done|]. intros He.
    apply orb_true_iff in Eb as [Eb%Z.eqb_eq|Eb%Z.eqb_eq]; [|done]. subst rc. cbn [l_rc update].
    by destruct (_ || _); [|destruct (_ =? _)].
  - apply orb_false_iff in Eb as [Eb _].
    exists (if 0 <? ex then if r_nodelay r then Declined else Delayed (u64 (ex * 1000) / r_rate r) else Declined), z', rc, ex, bs'.
    split; [|split_and!; [done|done|]].
    + cbn -[Z.eqb Z.ltb u64 Z.div Z.mul]. destruct (Z.ltb_spec 0 ex) as [Hex|Hex]; [|reflexivity].
      cbn -[Z.eqb Z.ltb u64 Z.div Z.mul]. rewrite (proj2 (Z.eqb_neq ex 0)), (proj2 (Z.eqb_neq (r_rate r) 0)) by lia.
      by destruct (r_nodelay r).
    + intros _. rewrite Eb. by destruct (0 <? ex), (r_nodelay r).
Qed.

Lemma last_cons {A} (l : list A) x d : List.last (x :: l) d = List.last l x.
Proof. revert x d. induction l as [|y l IH]; intros x d; [done|]. change (List.last (y :: l) d = List.last (y :: l) x). by rewrite !IH. Qed.

Lemma handle_all_counted r w t0 span : r_zone r = 0%nat -> 0 < r_rate r -> 0 <= r_burst r < 2 ^ 62 -> 0 <= t0 ->
  t0 + span < 2 ^ 62 -> r_rate r * span < 2 ^ 62 -> forall hits start z bs,
  zone_ok z bs -> t0 <= start -> ranged t0 start bs -> hits_ok start (t0 + span) hits ->
  exists answers z', handle_all r hits z = Some (answers, z') /\
    (forall n t1 tn, counted (r_rate r) (r_burst r) w n t1 tn start bs ->
      1000 * (n + Z.of_nat (length (times w hits answers)) - 1) <=
      r_burst r + quota (r_rate r) t1 (List.last (times w hits answers) tn)) /\
    (forall t1 ts, times w hits answers = t1 :: ts ->
      1000 * Z.of_nat (length ts) <= r_burst r + quota (r_rate r) t1 (List.last ts t1)).
Proof.
  intros Hrz Hr Hb Ht0 Hs Hm. induction hits as [|h hits IH]; intros start z bs Hz Hst Hrg Hh.
  { eexists _, _. split; [done|]. cbn [times length]. split; [|done]. intros n t1 tn (_ & Hc & _). cbn [List.last]. lia. }
  destruct Hh as (Hnow & Hrq & Hal & Htot & Hh). cbn [handle_all].
  destruct (handle_runs r h z bs Hrz Hr Hz Hrq Hal Htot) as (a & z1 & rc & ex & bs1 & -> & Hsv & Hz1 & Had). cbn [mbind option_bind].
  destruct (serve_step _ _ t0 span Hr Hb Ht0 Hs Hm start (h_now h) _ bs rc ex bs1 Hrg Hnow ltac:(lia) Hsv) as (Hrg1 & Herr & Hkeep & Hadm).
  destruct (IH (h_now h) z1 bs1 Hz1 ltac:(lia) Hrg1 Hh) as (answers & z' & -> & IHa & IHb). cbn [mbind option_bind].
  exists (a :: answers), z'. split; [done|]. cbn [times]. rewrite (Had Herr).
  destruct (Z.eqb_spec rc NGX_BUSY) as [Ebz|Ebz]; cbn [negb andb app].
  { split; [|done]. intros n t1 tn Hc. apply IHa, Hkeep; [done|by right]. }
  destruct (Hadm Ebz) as [Hfirst Hnext]. destruct (bool_decide_reflect (concat (h_values h) = w)) as [Ew|Ew]; cbn [app].
  - rewrite Ew in *. split.
    + intros n t1 tn Hc. cbn [length]. rewrite last_cons. specialize (IHa _ _ _ (Hnext _ _ _ Hc)). lia.
    + intros t1 ts [= <- <-]. specialize (IHa _ _ _ Hfirst). lia.
  - split; [|done]. intros n t1 tn Hc. apply IHa, Hkeep; [done|]. left. congruence.
Qed.

(** C24: the limiter keeps its rate.  Over any sequence of requests in order of time, for all values together and
    however the buckets expire, the requests for a value that are served between two of them, the first at [t1] and
    the last at [tn], are at most one, plus the burst, plus what the rate allows for the time between, plus one for
    every full minute: when a bucket has drained for a minute and is dropped, the next request is not counted.  (One
    rule, memory does not run out, values are not empty and have at most 65535 bytes together, and the rate times
    the time fits the integers.) *)
Theorem rate_limited r w t0 span hits start z bs :
  r_zone r = 0%nat -> 0 < r_rate r -> 0 <= r_burst r < 2 ^ 62 -> 0 <= t0 <= start ->
  t0 + span < 2 ^ 62 -> r_rate r * span < 2 ^ 62 ->
  zone_ok z bs -> ranged t0 start bs -> hits_ok start (t0 + span) hits ->
  exists answers z', handle_all r hits z = Some (answers, z') /\
    (forall t1 ts, times w hits answers = t1 :: ts ->
      let tn := List.last ts t1 in
      1000 * Z.of_nat (length ts) <= r_burst r + r_rate r * (tn - t1) / 1000 + 1000 * ((tn - t1) / 60000)).
Proof.
  intros Hrz Hr Hb [Ht0 Hst] Hs Hm Hz Hrg Hh.
  destruct (handle_all_counted r w t0 span Hrz Hr Hb Ht0 Hs Hm hits start z bs Hz Hst Hrg Hh) as (answers & z' & Hrun & _ & H).
  exists answers, z'. split; [done|]. intros t1 ts Hts. specialize (H t1 ts Hts). unfold quota in H. cbv zeta. lia.
Qed.

End Zones.


(** ** A zone in memory *)

(** The empty zone with its sentinel at address 1. *)
Definition demo_zone : zone_t := mk_zone (mk_store {[1 := mk_node 0 0 0 0 0]} 1) ∅ [].

Lemma demo_zone_ok : zone_ok 1 demo_zone [].
Proof.
  split; [|constructor|constructor]. exists (mk_node 0 0 0 0 0), 0, E. split_and!; try done.
  - split; try done. by repeat constructor; set_solver.
  - split; [done|]. by exists 0%nat.
  - intros p k. set_solver.
Qed.

(** An allocator that never fails. *)
Definition demo_alloc (z : zone_t) : option (ptr * node_t) :=
  Some (fresh (dom (nodes (z_tree z))), mk_node 7 7 7 7 7).

Lemma demo_alloc_fresh : alloc_fresh demo_alloc.
Proof. intros z p junk [= <- <-]. apply not_elem_of_dom, is_fresh. Qed.

Definition demo_rule : rule_t := mk_rule 0 1000 false 2000 [].

Lemma demo_request_ok : request_ok [bs "10.0.0.7"].
Proof. split; [done|]. split; [|by vm_compute]. constructor; [|constructor]. split; [|by vm_compute; split; [lia|done]].
  repeat constructor; by vm_compute.
Qed.

Lemma limit_req_refines_witness :
  exists v, apply_rule 1 1000 2000 5 (Some <$> [bs "10.0.0.7"]) demo_alloc demo_zone = Some v /\
    match v with
    | NotLimited => False
    | Verdict rc excess z' => exists forced bs', leaky_bucket 1000 2000 5 (bs "10.0.0.7") forced [] = (rc, excess, bs') /\ zone_ok 1 z' bs' /\
        (forced = true -> exists z, demo_alloc z = None)
    | NoMemory z' => zone_ok 1 z' (make_room 1000 5 (drop_dry 2 1000 5 [])) /\ exists z, demo_alloc z = None
    end.
Proof.
  exact (limit_req_refines 1 1000 2000 5 [bs "10.0.0.7"] demo_alloc demo_zone [] demo_zone_ok demo_request_ok demo_alloc_fresh
    (conj eq_refl (conj eq_refl (Forall_nil_2 _)))).
Defined.

Definition demo_hits : list hit_t := (fun t => mk_hit t [bs "10.0.0.7"] demo_alloc) <$> [5; 6; 7; 8; 1500].

Lemma demo_hits_ok : hits_ok 0 2000 demo_hits.
Proof. cbn [hits_ok demo_hits fmap list_fmap h_now h_values h_alloc]. split_and!; try lia; try done; try apply demo_request_ok; apply demo_alloc_fresh. Qed.

Lemma rate_limited_witness :
  exists answers z', handle_all 1 demo_rule demo_hits demo_zone = Some (answers, z') /\
    (forall t1 ts, times (bs "10.0.0.7") demo_hits answers = t1 :: ts ->
      let tn := List.last ts t1 in
      1000 * Z.of_nat (length ts) <= 2000 + 1000 * (tn - t1) / 1000 + 1000 * ((tn - t1) / 60000)).
Proof.
  exact (rate_limited 1 demo_rule (bs "10.0.0.7") 0 2000 demo_hits 0 demo_zone [] eq_refl ltac:(done) ltac:(done) ltac:(done)
    ltac:(done) ltac:(done) demo_zone_ok ltac:(constructor) demo_hits_ok).
Defined.


(** ** Behaviour on concrete requests *)

(** Nodes at 16, 32 and so on; the zones of these examples never drop one. *)
Definition next_alloc (z : zone_t) : option (ptr * node_t) :=
  Some (16 * (Z.of_nat (size (z_lrs z)) + 1), mk_node 7 7 7 7 7).

Definition answers_of (r : rule_t) (reqs : list (Z * list (list Z))) : option (list answer) :=
  fst <$> handle_all 1 r ((fun q => mk_hit q.1 q.2 next_alloc) <$> reqs) demo_zone.

(** One request per second with a burst of two: the fourth in the same second is refused, and others are delayed; a
    second value has a bucket of its own. *)
Example burst_and_delay :
  answers_of (mk_rule 0 1000 false 2000 []) (((fun t => (t, [bs "a"])) <$> [5; 5; 5; 5; 1005]) ++ [(1005, [bs "b"])]) =
  Some [Declined; Delayed 1000; Delayed 2000; Refused; Delayed 2000; Declined].
Proof. vm_compute. reflexivity. Qed.

(** The values of several variables are concatenated without a separator: different values share a bucket. *)
Example values_run_together :
  answers_of (mk_rule 0 1000 false 0 []) [(5, [bs "ab"; bs "c"]); (5, [bs "a"; bs "bc"])] = Some [Declined; Refused].
Proof. vm_compute. reflexivity. Qed.

(** The length of the node's text is kept in 16 bits: when the values together are longer, no request finds the bucket
    of the one before, and none is refused. *)
Example long_values_unlimited :
  answers_of (mk_rule 0 1000 false 0 []) (replicate 3 (5, [replicate 32768 97; replicate 32768 98])) =
  Some [Declined; Declined; Declined].
Proof. vm_compute. reflexivity. Qed.

(** With two rules the delay is computed with the rate of the last one, whichever asks for the delay: the zone with
    one request per second makes the second request wait 10 ms instead of a second. *)
Definition two_rules : list rule_t := [mk_rule 0 1000 false 5000 []; mk_rule 1 100000 false 5000 []].

Example delay_by_wrong_rate :
  (let go zs := limit_req_handler false true false true 5 (fun _ => [Some (bs "a")]) next_alloc (Some two_rules) zs in
   '(a1, _, zs) ← go [(1, demo_zone); (1, demo_zone)];
   '(a2, _, _) ← go zs;
   Some (a1, a2)) = Some (Declined, Delayed 10).
Proof. vm_compute. reflexivity. Qed.

End LimitReq.
