(* ===== verification/RadixTree.v ===== *)
(** * Radix trees

    [src/src/core/ngx_radix_tree.c] and [ngx_radix_tree.h]: the binary tries the geo module keeps networks in,
    with IPv4 keys (32 bits) and IPv6 keys (16 bytes).  A node is reached by the bits of a prefix;
    the nodes live in a store indexed by address with their parent links, and the nodes of
    deleted prefixes are chained into a free list.  [None] is a dereference of an address
    that holds no node, a read outside a key, or a loop that does not end.

    The functions for the two kinds of key are the same code up to the way they step through the
    bits; here they are one definition over a [cursor], which has an instance for each kind. *)

From stdpp Require Import gmap.
From S2P Require Import Prelude.

Module RadixTree.

(** ** Nodes and the store *)

Abbreviation ptr := Z.
Definition NULL : ptr := 0.

(** [ngx_radix_node_s] *)
Record node_t : Type := mk_node { right : ptr; left : ptr; parent : ptr; value : Z }.

#[export] Instance eta_node : Eta node_t := fun n => mk_node (right n) (left n) (parent n) (value n).

(** [NGX_RADIX_NO_VALUE]: [(uintptr_t) -1] *)
Definition NO_VALUE : Z := 2 ^ 64 - 1.

(** [sizeof(ngx_radix_node_t)] *)
Definition node_size : Z := 32.

(** [ngx_radix_tree_t] with the nodes in memory; [pages] are the addresses the next calls of
    [ngx_pmemalign] on the pool return, until there is no more memory. *)
Record tree_t : Type := mk_tree {
  nodes : gmap Z node_t;
  root : ptr;
  free : ptr;
  start : Z;
  size : Z;
  pages : list Z
}.

#[export] Instance eta_tree : Eta tree_t := fun t =>
  mk_tree (nodes t) (root t) (free t) (start t) (size t) (pages t).

(** ** Computations on the store *)
Definition M (A : Type) : Type := tree_t -> option (A * tree_t).

Definition ret {A} (x : A) : M A := fun t => Some (x, t).
Definition bind {A B} (m : M A) (f : A -> M B) : M B := fun t =>
  match m t with Some (x, t') => f x t' | None => None end.

#[export] Instance M_ret : MRet M := @ret.
#[export] Instance M_bind : MBind M := fun _ _ f m => bind m f.

Definition undefined {A} : M A := fun _ => None.
Definition lift {A} (o : option A) : M A := fun t => match o with Some x => Some (x, t) | None => None end.
Definition read {A} (f : tree_t -> A) : M A := fun t => Some (f t, t).
Definition write (f : tree_t -> tree_t) : M unit := fun t => Some (tt, f t).
Definition get {A} (f : node_t -> A) (p : ptr) : M A := fun t =>
  match nodes t !! p with Some n => Some (f n, t) | None => None end.
Definition modify (p : ptr) (f : node_t -> node_t) : M unit := fun t =>
  match nodes t !! p with
  | Some n => Some (tt, t <| nodes := <[p := f n]> (nodes t) |>)
  | None => None
  end.
Definition put (p : ptr) (n : node_t) : M unit := fun t => Some (tt, t <| nodes := <[p := n]> (nodes t) |>).
Definition set_value (p : ptr) (v : Z) : M unit := modify p (fun n => n <| value := v |>).

(** The child a bit leads to: [key & bit] goes right. *)
Definition child (b : bool) (n : node_t) : ptr := if b then right n else left n.
Definition set_child (b : bool) (p q : ptr) : M unit :=
  modify p (fun n => if b then n <| right := q |> else n <| left := q |>).

(** ** Cursors: the bits of a key and a mask

    [in_mask] is the loop test [bit & mask]; [branch] is [key & bit]; [advance] shifts the bit, and is [None] where the
    loops of insertion and deletion break at the end of the key; [next] is the same in the
    search, which does not test for the end. *)
Record cursor : Type := mk_cursor {
  cur : Type;
  first : cur;
  in_mask : cur -> option bool;
  branch : cur -> option bool;
  advance : cur -> option cur;
  next : cur -> cur
}.

(** [uint32_t key, mask] *)
Definition cursor32 (key mask : Z) : cursor := {|
  cur := Z;
  first := 0x80000000;
  in_mask := fun bit => Some (negb (Z.land bit mask =? 0));
  branch := fun bit => Some (negb (Z.land key bit =? 0));
  advance := fun bit => Some (Z.shiftr bit 1);
  next := fun bit => Z.shiftr bit 1
|}.

(** [u_char *key, *mask]: the index of a byte and the bit in it *)
Definition cursor128 (key mask : list Z) : cursor := {|
  cur := nat * Z;
  first := (0%nat, 0x80);
  in_mask := fun '(i, bit) => m ← mask !! i; Some (negb (Z.land bit m =? 0));
  branch := fun '(i, bit) => k ← key !! i; Some (negb (Z.land k bit =? 0));
  advance := fun '(i, bit) =>
    let bit := Z.shiftr bit 1 in
    if bit =? 0 then (if (S i =? 16)%nat then None else Some (S i, 0x80)) else Some (i, bit);
  next := fun '(i, bit) =>
    let bit := Z.shiftr bit 1 in if bit =? 0 then (S i, 0x80) else (i, bit)
|}.

Section Tree.
(** [ngx_pagesize] *)
Variable pagesize : Z.

(** ** Allocation *)

(** The end of [ngx_radix_alloc]: the next node of the page *)
Definition carve : M ptr :=
  p ← read start;
  write (fun t => t <| start := start t + node_size |>);;
  write (fun t => t <| size := size t - node_size |>);;
  ret p.

(** [ngx_radix_alloc] *)
Definition ngx_radix_alloc : M ptr :=
  f ← read free;
  if negb (f =? NULL) then
    r ← get right f;
    write (fun t => t <| free := r |>);;
    ret f
  else
    sz ← read size;
    if sz <? node_size then
      ps ← read pages;
      match ps with
      | [] => write (fun t => t <| start := NULL |>);; ret NULL
      | p :: ps' =>
          write (fun t => t <| start := p |>);;
          write (fun t => t <| pages := ps' |>);;
          write (fun t => t <| size := pagesize |>);;
          carve
      end
    else carve.

Section Walk.
(** The key and mask of the call, and the number of steps after which a loop is taken not to end. *)
Variable c : cursor.
Variable fuel : nat.

(** ** Insertion *)

(** The first loop of the insertion: how far the tree has the prefix.  The result is [node], the
    cursor, unless the loop broke at the end of the key, and whether [next] is not [NULL]. *)
Fixpoint walk (fuel : nat) (b : cur c) (node : ptr) : M (ptr * option (cur c) * bool) :=
  match fuel with
  | O => undefined
  | S fuel' =>
      go ← lift (in_mask c b);
      if (go : bool) then
        d ← lift (branch c b);
        nx ← get (child d) node;
        if nx =? NULL then ret (node, Some b, false)
        else
          match advance c b with
          | Some b' => walk fuel' b' nx
          | None => ret (nx, None, true)
          end
      else ret (node, Some b, true)
  end.

(** The second loop: the nodes that are missing.  The result is the last node, [NULL] when there is no memory. *)
Fixpoint grow (fuel : nat) (b : cur c) (node : ptr) : M ptr :=
  match fuel with
  | O => undefined
  | S fuel' =>
      go ← lift (in_mask c b);
      if (go : bool) then
        nx ← ngx_radix_alloc;
        if nx =? NULL then ret NULL
        else
          put nx (mk_node NULL NULL node NO_VALUE);;
          d ← lift (branch c b);
          set_child d node nx;;
          match advance c b with
          | Some b' => grow fuel' b' nx
          | None => ret nx
          end
      else ret node
  end.

(** [ngx_radix32tree_insert], [ngx_radix128tree_insert] *)
Definition insert (v : Z) : M Z :=
  r ← read root;
  '(node, b, found) ← walk fuel (first c) r;
  if (found : bool) then
    old ← get value node;
    if negb (old =? NO_VALUE) then ret NGX_BUSY
    else set_value node v;; ret NGX_OK
  else
    b ← lift b;
    node ← grow fuel b node;
    if node =? NULL then ret NGX_ERROR
    else set_value node v;; ret NGX_OK.

(** ** Deletion *)

(** The first loop: the node of the prefix or [NULL] *)
Fixpoint seek (fuel : nat) (b : cur c) (node : ptr) : M ptr :=
  match fuel with
  | O => undefined
  | S fuel' =>
      if node =? NULL then ret NULL
      else
        go ← lift (in_mask c b);
        if (go : bool) then
          d ← lift (branch c b);
          nx ← get (child d) node;
          match advance c b with
          | Some b' => seek fuel' b' nx
          | None => ret nx
          end
        else ret node
  end.

Definition has_child (p : ptr) : M bool :=
  r ← get right p;
  l ← get left p;
  ret (negb (r =? NULL) || negb (l =? NULL)).

(** The first half of the second loop: [node] is cut from the node above it and goes to the free list. *)
Definition unlink (up node : ptr) : M unit :=
  r ← get right up;
  (if r =? node then set_child true up NULL else set_child false up NULL);;
  f ← read free;
  set_child true node f;;
  write (fun t => t <| free := node |>).

(** The second loop: [node] goes to the free list, and so do the nodes above it that have nothing below
    them and no value. *)
Fixpoint prune (fuel : nat) (node : ptr) : M unit :=
  match fuel with
  | O => undefined
  | S fuel' =>
      up ← get parent node;
      unlink up node;;
      node ← get parent node;
      k ← has_child node;
      if (k : bool) then ret tt
      else
        v ← get value node;
        if negb (v =? NO_VALUE) then ret tt
        else
          up ← get parent node;
          if up =? NULL then ret tt else prune fuel' node
  end.

(** [ngx_radix32tree_delete], [ngx_radix128tree_delete] *)
Definition remove : M Z :=
  r ← read root;
  node ← seek fuel (first c) r;
  if node =? NULL then ret NGX_ERROR
  else
    k ← has_child node;
    if (k : bool) then
      v ← get value node;
      if negb (v =? NO_VALUE) then set_value node NO_VALUE;; ret NGX_OK else ret NGX_ERROR
    else prune fuel node;; ret NGX_OK.

(** ** Search *)

Fixpoint find_loop (fuel : nat) (b : cur c) (node : ptr) (v : Z) : M Z :=
  match fuel with
  | O => undefined
  | S fuel' =>
      if node =? NULL then ret v
      else
        nv ← get value node;
        let v := if negb (nv =? NO_VALUE) then nv else v in
        d ← lift (branch c b);
        nx ← get (child d) node;
        find_loop fuel' (next c b) nx v
  end.

(** [ngx_radix32tree_find], [ngx_radix128tree_find] *)
Definition find : M Z := r ← read root; find_loop fuel (first c) r NO_VALUE.
End Walk.

(** ** The functions for the two kinds of key

    A path has at most 32 or 128 bits, so no loop makes more than two steps beyond that. *)
Definition ngx_radix32tree_insert (key mask v : Z) : M Z := insert (cursor32 key mask) 34 v.
Definition ngx_radix32tree_delete (key mask : Z) : M Z := remove (cursor32 key mask) 34.
Definition ngx_radix32tree_find (key : Z) : M Z := find (cursor32 key 0) 34.
Definition ngx_radix128tree_insert (key mask : list Z) (v : Z) : M Z := insert (cursor128 key mask) 130 v.
Definition ngx_radix128tree_delete (key mask : list Z) : M Z := remove (cursor128 key mask) 130.
Definition ngx_radix128tree_find (key : list Z) : M Z := find (cursor128 key []) 130.

(** ** Creation *)

(** The loop over the keys of a level, [do ... while (key)]; whether all were inserted *)
Fixpoint prealloc_level (fuel : nat) (key mask inc : Z) : M bool :=
  match fuel with
  | O => undefined
  | S fuel' =>
      rc ← ngx_radix32tree_insert key mask NO_VALUE;
      if negb (rc =? NGX_OK) then ret false
      else
        let key := u32 (key + inc) in
        if key =? 0 then ret true else prealloc_level fuel' key mask inc
  end.

(** The loop over the levels; a level has [2 ^ 32 / inc] keys *)
Fixpoint prealloc (levels : nat) (mask inc : Z) : M bool :=
  match levels with
  | O => ret true
  | S levels' =>
      let mask := Z.lor (Z.shiftr mask 1) 0x80000000 in
      ok ← prealloc_level (S (Z.to_nat (2 ^ 32 / inc))) 0 mask inc;
      if (ok : bool) then prealloc levels' mask (Z.shiftr inc 1) else ret false
  end.

(** [preallocate] when it is -1 *)
Definition prealloc_bits (preallocate : Z) : Z :=
  if preallocate =? -1 then
    let n := pagesize / node_size in
    if n =? 128 then 6 else if n =? 256 then 7 else 8
  else preallocate.

(** [ngx_radix_tree_create], from the pages of the pool: the tree, or [None] for [NULL].  (A
    negative number other than -1 would be counted down to the smallest integer and beyond.) *)
Definition ngx_radix_tree_create (supply : list Z) (preallocate : Z) : option (option tree_t) :=
  let t := mk_tree ∅ NULL NULL NULL 0 supply in
  '(r, t) ← ngx_radix_alloc t;
  if r =? NULL then Some None
  else
    let t := t <| root := r |> <| nodes := <[r := mk_node NULL NULL NULL NO_VALUE]> (nodes t) |> in
    if preallocate =? 0 then Some (Some t)
    else
      let n := prealloc_bits preallocate in
      if n <? 0 then None
      else
        '(ok, t) ← prealloc (Z.to_nat n) 0 0x80000000 t;
        Some (if (ok : bool) then Some t else None).
End Tree.

(** ** The shape of a tree

    A path is the bits from a node up to the root, so that the parent of [b :: w] is [w]; [pos] has the
    address of the node at each path. *)
Abbreviation path := (list bool).

Ltac munfold :=
  unfold set_value, set_child, mbind, M_bind, bind, lift, read, write, get, modify, put, ret; cbn beta iota.
Lemma bind_some {A B} (m : M A) (f : A -> M B) t x t' : m t = Some (x, t') -> (m ≫= f) t = f x t'.
Proof. intros E. unfold mbind, M_bind, bind. rewrite E. reflexivity. Qed.

Ltac mstep E := rewrite (bind_some _ _ _ _ _ E).
Ltac fields := cbv [update] in *; cbn [nodes root free start size pages right left parent value] in *.

Section Shape.
Variable pagesize : Z.
Hypothesis Hpage : node_size <= pagesize.
Variable depth : nat.

Definition at_path (pos : gmap path Z) (w : path) : ptr := default NULL (pos !! w).
Definition above (pos : gmap path Z) (w : path) : ptr :=
  match w with [] => NULL | _ :: w' => at_path pos w' end.

Record shape (ns : gmap Z node_t) (r : ptr) (pos : gmap path Z) : Prop := {
  sh_root : pos !! [] = Some r;
  sh_node : forall w a, pos !! w = Some a -> a <> NULL /\
    exists v, ns !! a = Some (mk_node (at_path pos (true :: w)) (at_path pos (false :: w)) (above pos w) v);
  sh_closed : forall b w, is_Some (pos !! (b :: w)) -> is_Some (pos !! w);
  sh_inj : forall w1 w2 a, pos !! w1 = Some a -> pos !! w2 = Some a -> w1 = w2;
  sh_depth : forall w, is_Some (pos !! w) -> (length w <= depth)%nat
}.

(** The addresses from which nodes are carved, the chain of free nodes, and that all of them are apart
    from the nodes of the tree. *)
Definition chunk (p n : Z) : list Z :=
  (fun i => p + node_size * Z.of_nat i) <$> seq 0 (Z.to_nat (n / node_size)).
Definition avail (t : tree_t) : list Z :=
  chunk (start t) (size t) ++ concat ((fun p => chunk p pagesize) <$> pages t).

Fixpoint chain (ns : gmap Z node_t) (p : ptr) (fl : list ptr) : Prop :=
  match fl with
  | [] => p = NULL
  | a :: fl' => p = a /\ exists n, ns !! a = Some n /\ chain ns (right n) fl'
  end.

Record inv (t : tree_t) (pos : gmap path Z) (fl : list ptr) : Prop := {
  inv_shape : shape (nodes t) (root t) pos;
  inv_chain : chain (nodes t) (free t) fl;
  inv_size : 0 <= size t;
  inv_nodup : NoDup (fl ++ avail t);
  inv_fresh : forall a, a ∈ fl ++ avail t -> a <> NULL /\ forall w, pos !! w <> Some a
}.

(** The value stored at a path. *)
Definition value_at (ns : gmap Z node_t) (pos : gmap path Z) (w : path) : option Z :=
  a ← pos !! w; n ← ns !! a; if value n =? NO_VALUE then None else Some (value n).

(** *** Carving *)

Lemma chunk_small p n : n < node_size -> chunk p n = [].
Proof.
  intros Hn. unfold chunk. replace (Z.to_nat (n / node_size)) with 0%nat; [reflexivity|].
  unfold node_size in *. destruct (Z.lt_ge_cases n 0); [|rewrite Z.div_small by lia; reflexivity].
  assert (n / 32 < 0) by (apply Z.div_lt_upper_bound; lia). lia.
Qed.

Lemma chunk_cons p n : node_size <= n -> chunk p n = p :: chunk (p + node_size) (n - node_size).
Proof.
  intros Hn. unfold chunk, node_size in *.
  replace (n - 32) with (n + (-1) * 32) by lia. rewrite Z.div_add by lia.
  assert (1 <= n / 32) by (apply Z.div_le_lower_bound; lia).
  replace (Z.to_nat (n / 32)) with (S (Z.to_nat (n / 32 + -1))) by lia.
  cbn [seq]. rewrite fmap_cons. f_equal; [lia|]. rewrite <- fmap_S_seq, <- list_fmap_compose.
  apply list_fmap_ext. intros i x _. unfold compose. lia.
Qed.

Lemma chain_not_null ns p fl : chain ns p fl -> (forall a, a ∈ fl -> a <> NULL) ->
  (p = NULL <-> fl = []).
Proof.
  destruct fl as [|a fl]; cbn; [naive_solver|]. intros (-> & _) Ha. split; [|done].
  intros ->. destruct (Ha NULL); [left|done].
Qed.

(** What an allocation does: there is no memory at all, or the first of the addresses is taken. *)
Lemma alloc_ok t pos fl : inv t pos fl ->
  exists p t', ngx_radix_alloc pagesize t = Some (p, t') /\ nodes t' = nodes t /\ root t' = root t /\
    ((p = NULL /\ fl = [] /\ avail t = [] /\ avail t' = [] /\ inv t' pos []) \/
     (p <> NULL /\ exists fl', inv t' pos fl' /\ fl ++ avail t = p :: fl' ++ avail t')).
Proof.
  intros [Hsh Hch Hsz Hnd Hfr].
  assert (Hnn : free t = NULL <-> fl = []) by (apply (chain_not_null _ _ _ Hch); intros a Ha; apply Hfr; set_solver).
  unfold ngx_radix_alloc, carve. munfold.
  destruct (decide (free t = NULL)) as [E|E].
  - rewrite E, Z.eqb_refl. cbn. assert (fl = []) as -> by tauto. cbn in *.
    assert (Hcase : forall t0, nodes t0 = nodes t -> root t0 = root t -> free t0 = NULL ->
      avail t0 = avail t -> node_size <= size t0 ->
      exists p t', Some (start t0, t0 <| start := start t0 + node_size |> <| size := size t0 - node_size |>) =
        Some (p, t') /\ nodes t' = nodes t /\ root t' = root t /\
        ((p = NULL /\ @nil Z = [] /\ avail t = [] /\ avail t' = [] /\ inv t' pos []) \/
         (p <> NULL /\ exists fl', inv t' pos fl' /\ avail t = p :: fl' ++ avail t'))).
    { intros t0 En Er Ef Ea Es.
      assert (Ha : avail t = start t0 :: avail (t0 <| start := start t0 + node_size |> <| size := size t0 - node_size |>)).
      { rewrite <- Ea. unfold avail. fields. rewrite (chunk_cons (start t0) (size t0)) by done. reflexivity. }
      rewrite Ha in Hnd, Hfr. apply list.NoDup_cons in Hnd as [Hni Hnd].
      eexists _, _. split; [reflexivity|]. fields. rewrite En, Er. split; [done|]. split; [done|]. right.
      split; [apply Hfr; left|]. exists []. split; [|exact Ha].
      constructor; fields; [congruence|done|lia|done|]. intros a Hin. apply Hfr. right. exact Hin. }
    destruct (Z.ltb_spec (size t) node_size) as [Hlt|Hge]; cbn.
    + destruct (pages t) as [|p ps] eqn:Ep; cbn.
      * assert (Ha : avail t = []) by (unfold avail; rewrite Ep, chunk_small by done; reflexivity).
        assert (Ha' : avail (t <| start := NULL |>) = []) by (unfold avail; fields; rewrite Ep, chunk_small by done; reflexivity).
        eexists _, _. split; [reflexivity|]. fields. split; [done|]. split; [done|]. left.
        split; [done|]. split; [done|]. split; [done|]. split; [exact Ha'|]. constructor; fields; [done..| |].
        -- rewrite Ha'. constructor.
        -- rewrite Ha'. intros a Hin. inversion Hin.
      * apply (Hcase (t <| start := p |> <| pages := ps |> <| size := pagesize |>)); fields; [done..| |done].
        unfold avail. fields. rewrite Ep, (chunk_small (start t)) by done. reflexivity.
    + apply (Hcase t); done.
  - rewrite (proj2 (Z.eqb_neq _ _) E). cbn. destruct fl as [|f fl]; [tauto|].
    cbn in Hch. destruct Hch as (Ef & n & En & Hch). rewrite Ef, En. cbn.
    apply list.NoDup_cons in Hnd as [Hni Hnd].
    eexists _, _. split; [reflexivity|]. fields. split; [done|]. split; [done|]. right.
    split; [congruence|]. exists fl. split; [|done]. constructor; fields; try done.
    intros a Hin. apply Hfr. right. exact Hin.
Qed.

(** *** Adding and removing a node *)

Lemma at_path_some pos w a : pos !! w = Some a -> at_path pos w = a.
Proof. intros E. unfold at_path. rewrite E. reflexivity. Qed.

Lemma at_path_none pos w : pos !! w = None -> at_path pos w = NULL.
Proof. intros E. unfold at_path. rewrite E. reflexivity. Qed.

Lemma at_path_insert_ne pos w w' p : w <> w' -> at_path (<[w := p]> pos) w' = at_path pos w'.
Proof. intros E. unfold at_path. rewrite lookup_insert_ne by done. reflexivity. Qed.

Lemma at_path_delete_ne pos w w' : w <> w' -> at_path (delete w pos) w' = at_path pos w'.
Proof. intros E. unfold at_path. rewrite lookup_delete_ne by done. reflexivity. Qed.

Lemma cons_ne (b : bool) w : b :: w <> w.
Proof. intros E. apply (f_equal length) in E. cbn in E. lia. Qed.

Lemma chain_ext ns ns' p fl : (forall a, a ∈ fl -> ns' !! a = ns !! a) -> chain ns p fl -> chain ns' p fl.
Proof.
  revert p. induction fl as [|a fl IH]; intros p He; cbn; [done|].
  intros (-> & n & En & Hc). split; [done|]. exists n. rewrite He by left. split; [done|].
  apply IH; [|done]. intros x Hx. apply He. right. exact Hx.
Qed.

Lemma shape_child ns r pos w b : shape ns r pos ->
  pos !! (b :: w) = None -> forall x, pos !! (x :: b :: w) = None.
Proof.
  intros Hs Hn x. destruct (pos !! (x :: b :: w)) eqn:E; [|done].
  destruct (sh_closed _ _ _ Hs x (b :: w)) as [? ?]; [eauto|congruence].
Qed.

Lemma closed_below ns r pos u w : shape ns r pos -> pos !! w = None -> pos !! rev_append u w = None.
Proof.
  intros Hs. revert w. induction u as [|y u IH]; intros w Hw; [done|]. apply IH.
  destruct (pos !! (y :: w)) eqn:E; [|done].
  destruct (sh_closed _ _ _ Hs y w) as [? ?]; [eauto|congruence].
Qed.

Lemma shape_not_null ns r pos w : shape ns r pos -> (at_path pos w = NULL <-> pos !! w = None).
Proof.
  intros Hs. unfold at_path. destruct (pos !! w) eqn:E; cbn; [|done].
  split; [|done]. intros ->. destruct (sh_node _ _ _ Hs w NULL E) as [Hn _]. congruence.
Qed.

Definition new_child (b : bool) (q : ptr) (n : node_t) : node_t :=
  if b then n <| right := q |> else n <| left := q |>.

(** A new node [p] below the node [a] of path [w]. *)
Lemma shape_link ns r pos w a b p n : shape ns r pos ->
  pos !! w = Some a -> ns !! a = Some n -> pos !! (b :: w) = None -> p <> NULL ->
  (forall w', pos !! w' <> Some p) -> (length w < depth)%nat ->
  shape (<[a := new_child b p n]> (<[p := mk_node NULL NULL a NO_VALUE]> ns)) r (<[b :: w := p]> pos).
Proof.
  intros Hs Hw Hn Hb Hp Hfr Hd.
  assert (Hap : a <> p) by (intros ->; exact (Hfr w Hw)).
  assert (Hbw : b :: w <> w) by apply cons_ne.
  constructor.
  - rewrite lookup_insert_ne by done. apply Hs.
  - intros w' a' Hl. apply lookup_insert_Some in Hl as [[<- <-]|[Hne Hl]].
    { split; [done|]. exists NO_VALUE. rewrite lookup_insert_ne, lookup_insert_eq by done.
      rewrite !at_path_insert_ne by apply not_eq_sym, cons_ne. cbn. rewrite at_path_insert_ne by done.
      rewrite !(at_path_none pos (_ :: _ :: _)) by (apply (shape_child ns r); done).
      rewrite (at_path_some _ _ _ Hw). reflexivity. }
    destruct (sh_node _ _ _ Hs w' a' Hl) as [Ha' [v Hv]]. split; [done|].
    assert (Hup : above (<[b :: w := p]> pos) w' = above pos w').
    { destruct w' as [|y w']; [done|]. cbn. apply at_path_insert_ne. intros <-.
      rewrite (shape_child ns r) in Hl by done. discriminate. }
    destruct (decide (w' = w)) as [->|Hne'].
    + assert (a' = a) as -> by congruence. rewrite Hn in Hv. injection Hv as ->. exists v.
      rewrite lookup_insert_eq, Hup. f_equal.
      destruct b; unfold new_child; fields;
        [rewrite (at_path_insert_ne pos _ (false :: w)) by congruence|rewrite (at_path_insert_ne pos _ (true :: w)) by congruence];
        rewrite (at_path_some (<[_ := p]> pos) _ p) by apply lookup_insert_eq; reflexivity.
    + exists v. rewrite !lookup_insert_ne; [|naive_solver| intros ->; exact (Hne' (sh_inj _ _ _ Hs _ _ _ Hl Hw))].
      rewrite Hup, !at_path_insert_ne by congruence. exact Hv.
  - intros y w' Hl. destruct (decide (w' = b :: w)) as [->|Hne]; [rewrite lookup_insert_eq; eauto|].
    rewrite lookup_insert_ne by done. destruct (decide (y :: w' = b :: w)) as [E|E].
    + injection E as -> ->. eauto.
    + rewrite lookup_insert_ne in Hl by done. exact (sh_closed _ _ _ Hs y w' Hl).
  - intros w1 w2 x H1 H2. apply lookup_insert_Some in H1, H2.
    destruct H1 as [[<- <-]|[N1 H1]], H2 as [[<- E2]|[N2 H2]]; try done.
    + destruct (Hfr _ H2).
    + subst. destruct (Hfr _ H1).
    + exact (sh_inj _ _ _ Hs _ _ _ H1 H2).
  - intros w' Hl. destruct (decide (w' = b :: w)) as [->|Hne]; [cbn; lia|].
    rewrite lookup_insert_ne in Hl by done. exact (sh_depth _ _ _ Hs w' Hl).
Qed.

Lemma value_link ns r pos w a b p n w' : shape ns r pos ->
  pos !! w = Some a -> ns !! a = Some n -> pos !! (b :: w) = None -> (forall w', pos !! w' <> Some p) ->
  value_at (<[a := new_child b p n]> (<[p := mk_node NULL NULL a NO_VALUE]> ns)) (<[b :: w := p]> pos) w' =
  value_at ns pos w'.
Proof.
  intros Hs Hw Hn Hb Hfr. unfold value_at.
  assert (Hap : a <> p) by (intros ->; exact (Hfr w Hw)).
  destruct (decide (w' = b :: w)) as [->|Hne].
  - rewrite lookup_insert_eq, Hb. cbn. rewrite lookup_insert_ne, lookup_insert_eq by done. reflexivity.
  - rewrite lookup_insert_ne by done. destruct (pos !! w') as [a'|] eqn:E; [|done]. cbn.
    destruct (decide (a' = a)) as [->|Ha].
    + rewrite lookup_insert_eq, Hn. cbn. destruct b; reflexivity.
    + rewrite !lookup_insert_ne by (naive_solver). reflexivity.
Qed.

(** A leaf [a] of path [b :: w] is cut from the node [u] above it; its [right] is then a link of
    the free list. *)
Lemma shape_unlink ns r pos w a b u n m q : shape ns r pos ->
  pos !! (b :: w) = Some a -> pos !! w = Some u -> ns !! u = Some n ->
  (forall x, pos !! (x :: b :: w) = None) ->
  shape (<[a := m <| right := q |>]> (<[u := new_child b NULL n]> ns)) r (delete (b :: w) pos).
Proof.
  intros Hs Ha Hu Hn Hleaf.
  assert (Hua : u <> a).
  { intros ->. apply (cons_ne b w). exact (sh_inj _ _ _ Hs _ _ _ Ha Hu). }
  constructor.
  - rewrite lookup_delete_ne by done. apply Hs.
  - intros w' a' Hl. apply lookup_delete_Some in Hl as [Hne Hl].
    destruct (sh_node _ _ _ Hs w' a' Hl) as [Ha' [v Hv]]. split; [done|].
    assert (Hup : above (delete (b :: w) pos) w' = above pos w').
    { destruct w' as [|y w']; [done|]. cbn. apply at_path_delete_ne. intros <-.
      rewrite Hleaf in Hl. discriminate. }
    assert (Ha2 : a <> a') by (intros ->; exact (Hne (sh_inj _ _ _ Hs _ _ _ Ha Hl))).
    destruct (decide (w' = w)) as [->|Hne'].
    + assert (a' = u) as -> by congruence. rewrite Hn in Hv. injection Hv as ->. exists v.
      rewrite lookup_insert_ne, lookup_insert_eq, Hup by done. f_equal.
      destruct b; unfold new_child; fields;
        [rewrite (at_path_delete_ne pos _ (false :: w)) by congruence|rewrite (at_path_delete_ne pos _ (true :: w)) by congruence];
        rewrite (at_path_none (delete _ pos)) by apply lookup_delete_eq; reflexivity.
    + exists v. rewrite !lookup_insert_ne; [|intros ->; exact (Hne' (sh_inj _ _ _ Hs _ _ _ Hl Hu))|done].
      rewrite Hup, !at_path_delete_ne by congruence. exact Hv.
  - intros y w' Hl. destruct (decide (w' = b :: w)) as [->|Hne].
    { rewrite lookup_delete_ne, Hleaf in Hl by apply not_eq_sym, cons_ne. destruct Hl; discriminate. }
    rewrite lookup_delete_ne by done. destruct (decide (y :: w' = b :: w)) as [E|E].
    + rewrite E, lookup_delete_eq in Hl. destruct Hl; discriminate.
    + rewrite lookup_delete_ne in Hl by done. exact (sh_closed _ _ _ Hs y w' Hl).
  - intros w1 w2 x H1 H2. apply lookup_delete_Some in H1 as [_ H1], H2 as [_ H2].
    exact (sh_inj _ _ _ Hs _ _ _ H1 H2).
  - intros w' [x Hl]. apply lookup_delete_Some in Hl as [_ Hl]. apply (sh_depth _ _ _ Hs). eauto.
Qed.

Lemma value_unlink ns r pos w a b u n m q w' : shape ns r pos ->
  pos !! (b :: w) = Some a -> pos !! w = Some u -> ns !! u = Some n ->
  value_at (<[a := m <| right := q |>]> (<[u := new_child b NULL n]> ns)) (delete (b :: w) pos) w' =
  if decide (w' = b :: w) then None else value_at ns pos w'.
Proof.
  intros Hs Ha Hu Hn. unfold value_at. case_decide as E.
  - subst. rewrite lookup_delete_eq. reflexivity.
  - rewrite lookup_delete_ne by done. destruct (pos !! w') as [a'|] eqn:El; [|done]. cbn.
    rewrite lookup_insert_ne by (intros ->; exact (E (sh_inj _ _ _ Hs _ _ _ El Ha))).
    destruct (decide (a' = u)) as [->|Hne].
    + rewrite lookup_insert_eq, Hn. cbn. destruct b; reflexivity.
    + rewrite lookup_insert_ne by done. reflexivity.
Qed.

(** *** What the operations keep

    The invariant, and the number of nodes there are in all: those of the tree, the free ones and those
    that can still be carved. *)
Definition capacity (t : tree_t) (pos : gmap path Z) (fl : list ptr) : nat :=
  (base.size pos + length (fl ++ avail t))%nat.

Lemma avail_nodes t ns : avail (t <| nodes := ns |>) = avail t.
Proof. reflexivity. Qed.

Lemma avail_free t ns p : avail (mk_tree ns (root t) p (start t) (size t) (pages t)) = avail t.
Proof. reflexivity. Qed.

Lemma node_of t pos fl w a : inv t pos fl -> pos !! w = Some a ->
  a <> NULL /\ exists v, nodes t !! a =
    Some (mk_node (at_path pos (true :: w)) (at_path pos (false :: w)) (above pos w) v).
Proof. intros Hi. apply (sh_node _ _ _ (inv_shape _ _ _ Hi)). Qed.

Lemma get_child t pos fl w a d : inv t pos fl -> pos !! w = Some a ->
  get (child d) a t = Some (at_path pos (d :: w), t).
Proof.
  intros Hi Hw. destruct (node_of _ _ _ _ _ Hi Hw) as [_ [v Hv]]. unfold get. rewrite Hv. destruct d; reflexivity.
Qed.

Lemma value_at_node ns pos w a n : pos !! w = Some a -> ns !! a = Some n ->
  value_at ns pos w = if value n =? NO_VALUE then None else Some (value n).
Proof. intros Hw Hn. unfold value_at. rewrite Hw. cbn. rewrite Hn. reflexivity. Qed.

(** Assigning to the value of a node of the tree. *)
Lemma set_value_ok t pos fl w a v : inv t pos fl -> pos !! w = Some a ->
  exists t', set_value a v t = Some (tt, t') /\ inv t' pos fl /\ avail t' = avail t /\
    forall w', value_at (nodes t') pos w' =
      if decide (w' = w) then (if v =? NO_VALUE then None else Some v) else value_at (nodes t) pos w'.
Proof.
  intros Hi Hw. destruct (node_of _ _ _ _ _ Hi Hw) as [Ha [v0 Hv]]. unfold set_value, modify. rewrite Hv.
  eexists. split; [reflexivity|]. fields. split; [|split; [reflexivity|]].
  - destruct Hi as [Hsh Hch Hsz Hnd Hfr]. constructor; fields; try done.
    + destruct Hsh as [H1 H2 H3 H4 H5]. constructor; try done. intros w' a' Hl.
      destruct (H2 w' a' Hl) as [Hn' [v' Hv']]. split; [done|].
      destruct (decide (a' = a)) as [->|Hne].
      * assert (w' = w) as -> by (eapply H4; eassumption). exists v. rewrite lookup_insert_eq. reflexivity.
      * exists v'. rewrite lookup_insert_ne by done. exact Hv'.
    + apply (chain_ext (nodes t)); [|done]. intros x Hx. rewrite lookup_insert_ne; [done|].
      intros <-. destruct (Hfr a) as [_ Hno]; [set_solver|]. exact (Hno w Hw).
  - intros w'. unfold value_at. case_decide as E.
    + subst. rewrite Hw. cbn. rewrite lookup_insert_eq. reflexivity.
    + destruct (pos !! w') as [a'|] eqn:El; [|done]. cbn.
      rewrite lookup_insert_ne; [done|]. intros <-. apply E.
      exact (sh_inj _ _ _ (inv_shape _ _ _ Hi) _ _ _ El Hw).
Qed.

(** Linking a node that was just allocated. *)
Lemma link_ok t pos fl fl0 w a b p : inv t pos fl -> pos !! w = Some a -> pos !! (b :: w) = None ->
  (length w < depth)%nat -> p <> NULL -> p ∉ fl ++ avail t -> (forall w', pos !! w' <> Some p) ->
  fl0 = length (fl ++ avail t) ->
  exists t', (put p (mk_node NULL NULL a NO_VALUE);; set_child b a p) t = Some (tt, t') /\
    inv t' (<[b :: w := p]> pos) fl /\ capacity t' (<[b :: w := p]> pos) fl = S (base.size pos + fl0) /\
    forall w', value_at (nodes t') (<[b :: w := p]> pos) w' = value_at (nodes t) pos w'.
Proof.
  intros Hi Hw Hb Hd Hp Hnew Hfr ->. destruct (node_of _ _ _ _ _ Hi Hw) as [Ha [v Hv]].
  assert (Hap : p <> a) by (intros ->; exact (Hfr w Hw)).
  munfold. fields. rewrite lookup_insert_ne, Hv by done. eexists. split; [reflexivity|]. fields.
  destruct Hi as [Hsh Hch Hsz Hnd Hf].
  split; [|split].
  - constructor; fields; try done.
    + exact (shape_link _ _ _ _ _ b p _ Hsh Hw Hv Hb Hp Hfr Hd).
    + apply (chain_ext (nodes t)); [|done]. intros x Hx. rewrite !lookup_insert_ne; [done| |].
      * intros <-. apply Hnew. set_solver.
      * intros <-. destruct (Hf a) as [_ Hno]; [set_solver|]. exact (Hno w Hw).
    + intros x Hx. destruct (Hf x Hx) as [Hx0 Hno]. split; [done|]. intros w' Hl.
      apply lookup_insert_Some in Hl as [[_ <-]|[_ Hl]]; [exact (Hnew Hx)|exact (Hno w' Hl)].
  - unfold capacity. rewrite map_size_insert_None by done. reflexivity.
  - intros w'. exact (value_link _ _ _ _ _ b p _ w' Hsh Hw Hv Hb Hfr).
Qed.

Section Cursor.
Variable c : cursor.

(** The bits the masked loops read from a cursor. *)
Fixpoint spells (b : cur c) (u : path) : Prop :=
  match u with
  | [] => in_mask c b = Some false
  | d :: u' => in_mask c b = Some true /\ branch c b = Some d /\
      match advance c b with Some b' => spells b' u' | None => u' = [] end
  end.

Lemma walk_ok fuel t pos fl b u w a : inv t pos fl -> spells b u -> pos !! w = Some a ->
  (length u < fuel)%nat ->
  exists u1 u2 a' ob found, walk c fuel b a t = Some ((a', ob, found), t) /\ u = u1 ++ u2 /\
    pos !! rev_append u1 w = Some a' /\
    if (found : bool) then u2 = []
    else exists d u3 b', u2 = d :: u3 /\ ob = Some b' /\ spells b' u2 /\ pos !! (d :: rev_append u1 w) = None.
Proof.
  intros Hi. revert fuel b w a. induction u as [|d u IH]; intros fuel b w a Hs Hw Hf;
    (destruct fuel as [|fuel]; [cbn in Hf; lia|]); cbn [walk spells] in *.
  - munfold. rewrite Hs. exists [], [], a, (Some b), true. done.
  - pose proof Hs as (Hm & Hb & Hrest). munfold. rewrite Hm, Hb.
    pose proof (get_child _ _ _ _ _ d Hi Hw) as Hg. unfold get in Hg. rewrite Hg.
    destruct (Z.eqb_spec (at_path pos (d :: w)) NULL) as [E|E].
    + apply (shape_not_null _ _ _ _ (inv_shape _ _ _ Hi)) in E.
      exists [], (d :: u), a, (Some b), false. repeat (split; [done|]). exists d, u, b. done.
    + destruct (pos !! (d :: w)) as [a'|] eqn:El; [|exfalso; apply E, at_path_none, El].
      rewrite (at_path_some _ _ _ El). destruct (advance c b) as [b'|].
      * destruct (IH fuel b' (d :: w) a' Hrest El ltac:(cbn in Hf; lia)) as (u1 & u2 & a2 & ob & fo & Ew & -> & H).
        exists (d :: u1), u2, a2, ob, fo. split; [exact Ew|]. split; [done|]. exact H.
      * subst u. exists [d], [], a', None, true. done.
Qed.

Lemma grow_ok fuel t pos fl b u w a : inv t pos fl -> spells b u -> pos !! w = Some a ->
  (forall d u', u = d :: u' -> pos !! (d :: w) = None) ->
  (length u < fuel)%nat -> (length w + length u <= depth)%nat ->
  exists p t' pos' fl', grow pagesize c fuel b a t = Some (p, t') /\ inv t' pos' fl' /\
    capacity t' pos' fl' = capacity t pos fl /\
    (forall w', value_at (nodes t') pos' w' = value_at (nodes t) pos w') /\
    if p =? NULL then fl' ++ avail t' = [] else pos' !! rev_append u w = Some p.
Proof.
  revert fuel t pos fl b w a. induction u as [|d u IH]; intros fuel t pos fl b w a Hi Hs Hw Hno Hf Hd;
    (destruct fuel as [|fuel]; [cbn in Hf; lia|]); cbn [grow spells] in *.
  - munfold. rewrite Hs. exists a, t, pos, fl. repeat (split; [done|]).
    destruct (node_of _ _ _ _ _ Hi Hw) as [Ha _]. rewrite (proj2 (Z.eqb_neq _ _) Ha). exact Hw.
  - destruct Hs as (Hm & Hb & Hrest).
    destruct (alloc_ok _ _ _ Hi) as (p & t1 & Ea & En & Er & [(-> & -> & Hav & Hav' & Hi')|(Hp & fl' & Hi' & Hav)]).
    + unfold mbind, M_bind, bind, lift, ret. cbn beta iota. rewrite Hm, Ea, Z.eqb_refl.
      exists NULL, t1, pos, []. split; [done|]. split; [done|]. rewrite En. unfold capacity. rewrite Hav, Hav'. done.
    + pose proof (inv_nodup _ _ _ Hi) as Hnd. rewrite Hav in Hnd. apply list.NoDup_cons in Hnd as [Hnew _].
      destruct (inv_fresh _ _ _ Hi p) as [_ Hpp]; [rewrite Hav; left|].
      destruct (link_ok t1 pos fl' _ w a d p Hi' Hw (Hno d u eq_refl) ltac:(cbn in Hd; lia) Hp Hnew Hpp eq_refl)
        as (t2 & El & Hi2 & Hc2 & Hv2).
      assert (Hcap : capacity t2 (<[d :: w := p]> pos) fl' = capacity t pos fl).
      { rewrite Hc2. unfold capacity. rewrite Hav. cbn. lia. }
      revert El. unfold mbind, M_bind, bind at 1. intros El.
      unfold mbind, M_bind. unfold bind at 1, lift at 1. rewrite Hm. unfold bind at 1. rewrite Ea.
      rewrite (proj2 (Z.eqb_neq _ _) Hp). unfold bind at 1. unfold put in *.
      unfold bind at 1, lift at 1. rewrite Hb. unfold bind at 1. rewrite El.
      destruct (advance c b) as [b'|].
      * edestruct (IH fuel t2 (<[d :: w := p]> pos) fl' b' (d :: w) p) as (p' & t' & pos' & fl2 & E & I & C & V & F);
          [done|done|apply lookup_insert_eq| |cbn in Hf; lia|cbn in Hd |- *; lia|].
        { intros d' u' ->. rewrite lookup_insert_ne by apply not_eq_sym, cons_ne.
          apply (shape_child _ _ _ _ _ (inv_shape _ _ _ Hi)). exact (Hno d _ eq_refl). }
        exists p', t', pos', fl2. split; [exact E|]. split; [done|]. split; [congruence|].
        split; [|exact F]. intros w'. rewrite V, Hv2, En. done.
      * subst u. exists p, t2, (<[d :: w := p]> pos), fl'. split; [done|]. split; [done|]. split; [done|].
        split; [intros w'; rewrite Hv2, En; done|]. rewrite (proj2 (Z.eqb_neq _ _) Hp). apply lookup_insert_eq.
Qed.

(** *** The abstract contents

    [m] has the value of each prefix, in reading order. *)
Definition rep (t : tree_t) (m : gmap path Z) (N : nat) : Prop :=
  exists pos fl, inv t pos fl /\ capacity t pos fl = N /\
    forall w, value_at (nodes t) pos w = m !! rev w.

(** There is neither a free node nor memory for another one. *)
Definition exhausted (t : tree_t) : Prop := free t = NULL /\ avail t = [].

(** Storing [NO_VALUE] stores nothing. *)
Definition stored (u : path) (v : Z) (m : gmap path Z) : gmap path Z :=
  if v =? NO_VALUE then m else <[u := v]> m.

Lemma stored_lookup u v m w : m !! u = None ->
  (if decide (w = u) then (if v =? NO_VALUE then None else Some v) else m !! w) = stored u v m !! w.
Proof.
  intros Hu. unfold stored. case_decide as E.
  - subst. destruct (v =? NO_VALUE); [done|]. rewrite lookup_insert_eq. done.
  - destruct (v =? NO_VALUE); [done|]. rewrite lookup_insert_ne by done. done.
Qed.

Lemma rev_eq (w u : path) : w = rev u <-> rev w = u.
Proof. split; [intros ->|intros <-]; rewrite rev_involutive; done. Qed.

Lemma decide_rev (w u : path) {A} (x y : A) :
  (if decide (w = rev u) then x else y) = if decide (rev w = u) then x else y.
Proof. do 2 case_decide; try done; exfalso; [apply H0, rev_eq, H|apply H, rev_eq, H0]. Qed.

Lemma insert_ok fuel t m N u v : rep t m N -> spells (first c) u -> (length u <= depth)%nat ->
  (length u < fuel)%nat ->
  match m !! u with
  | Some _ => insert pagesize c fuel v t = Some (NGX_BUSY, t)
  | None => exists rc t', insert pagesize c fuel v t = Some (rc, t') /\
      ((rc = NGX_OK /\ rep t' (stored u v m) N) \/ (rc = NGX_ERROR /\ u <> [] /\ rep t' m N /\ exhausted t'))
  end.
Proof.
  intros (pos & fl & Hi & Hc & Hv) Hs Hd Hf.
  pose proof (sh_root _ _ _ (inv_shape _ _ _ Hi)) as Hr.
  destruct (walk_ok fuel t pos fl (first c) u [] (root t) Hi Hs Hr Hf) as (u1 & u2 & a & ob & fo & Ew & -> & Ha & Hfo).
  assert (Hset : forall t1 pos1 fl1 p, inv t1 pos1 fl1 -> capacity t1 pos1 fl1 = N ->
    (forall w, value_at (nodes t1) pos1 w = m !! rev w) -> pos1 !! rev_append (u1 ++ u2) [] = Some p ->
    m !! (u1 ++ u2) = None ->
    exists t', (set_value p v;; ret NGX_OK) t1 = Some (NGX_OK, t') /\ rep t' (stored (u1 ++ u2) v m) N).
  { intros t1 pos1 fl1 p Hi1 Hc1 Hv1 Hp Hm. rewrite rev_append_rev, app_nil_r in Hp.
    destruct (set_value_ok t1 pos1 fl1 _ p v Hi1 Hp) as (t' & E & Hi' & Hav & Hv').
    exists t'. mstep E. split; [done|]. exists pos1, fl1. split; [done|].
    split; [unfold capacity in *; rewrite Hav; done|]. intros w. rewrite Hv', decide_rev, Hv1. apply stored_lookup. done. }
  unfold insert. mstep (eq_refl : read root t = Some (root t, t)). mstep Ew.
  destruct fo.
  - subst u2. rewrite app_nil_r in *. destruct (node_of _ _ _ _ _ Hi Ha) as [_ [v0 Hn]].
    assert (Hm : m !! u1 = if v0 =? NO_VALUE then None else Some v0).
    { specialize (Hv (rev u1)). rewrite rev_involutive in Hv. rewrite <- Hv.
      rewrite rev_append_rev, app_nil_r in Ha. exact (value_at_node _ _ _ _ _ Ha Hn). }
    assert (Hg : get value a t = Some (v0, t)) by (unfold get; rewrite Hn; done). mstep Hg.
    rewrite Hm. destruct (v0 =? NO_VALUE); cbn [negb].
    + destruct (Hset t pos fl a Hi Hc Hv Ha Hm) as (t' & E & Hrep).
      eexists _, t'. split; [exact E|]. left. done.
    + done.
  - destruct Hfo as (d & u3 & b' & -> & -> & Hs' & Hno).
    assert (Hm : m !! (u1 ++ d :: u3) = None).
    { specialize (Hv (rev (u1 ++ d :: u3))). rewrite rev_involutive in Hv. rewrite <- Hv.
      unfold value_at. replace (rev (u1 ++ d :: u3)) with (rev_append u3 (d :: rev_append u1 [])).
      2:{ rewrite rev_append_rev, rev_append_rev, app_nil_r, rev_app_distr. cbn. rewrite <- app_assoc. done. }
      rewrite (closed_below _ _ _ _ _ (inv_shape _ _ _ Hi)) by done. done. }
    rewrite Hm. mstep (eq_refl : lift (Some b') t = Some (b', t)).
    rewrite length_app in Hd, Hf.
    destruct (grow_ok fuel t pos fl b' (d :: u3) (rev_append u1 []) a Hi Hs' Ha) as (p & t' & pos' & fl' & E & I & C & V & F).
    { intros d' u' [= <- <-]. exact Hno. }
    { lia. }
    { rewrite rev_append_rev, app_nil_r, length_rev. lia. }
    mstep E. destruct (Z.eqb_spec p NULL) as [->|Hp].
    + eexists _, t'. split; [reflexivity|]. right. split; [done|]. split; [by destruct u1|].
      apply app_eq_nil in F as [-> F]. split.
      * exists pos', []. split; [done|]. split; [congruence|]. intros w. rewrite V. apply Hv.
      * split; [apply (inv_chain _ _ _ I)|done].
    + assert (Hp' : pos' !! rev_append (u1 ++ d :: u3) [] = Some p).
      { rewrite <- F. f_equal. rewrite !rev_append_rev, rev_app_distr, !app_nil_r. done. }
      destruct (Hset t' pos' fl' p I ltac:(congruence) ltac:(intros w; rewrite V; apply Hv) Hp' Hm) as (t2 & E2 & Hrep).
      eexists _, t2. split; [exact E2|]. left. done.
Qed.

(** *** Deletion *)

Lemma seek_ok fuel t pos fl b u w : inv t pos fl -> spells b u -> (length u < fuel)%nat ->
  seek c fuel b (at_path pos w) t = Some (at_path pos (rev_append u w), t).
Proof.
  intros Hi. pose proof (inv_shape _ _ _ Hi) as Hsh.
  revert fuel b w. induction u as [|d u IH]; intros fuel b w Hs Hf;
    (destruct fuel as [|fuel]; [cbn in Hf; lia|]); cbn [seek];
    (destruct (Z.eqb_spec (at_path pos w) NULL) as [E|E];
      [apply (shape_not_null _ _ _ _ Hsh) in E; rewrite at_path_none by (eapply closed_below; done); done|]).
  - cbn in Hs. unfold lift. rewrite Hs. done.
  - destruct Hs as (Hm & Hb & Hrest).
    destruct (pos !! w) as [a|] eqn:Ew; [|exfalso; apply E, at_path_none, Ew].
    rewrite (at_path_some _ _ _ Ew), Hm, Hb. mstep (eq_refl : lift (Some true) t = Some (true, t)).
    mstep (eq_refl : lift (Some d) t = Some (d, t)). mstep (get_child _ _ _ _ _ d Hi Ew).
    destruct (advance c b) as [b'|]; [|subst u; done].
    apply IH; [done|cbn in Hf; lia].
Qed.

Lemma has_child_ok t pos fl w a : inv t pos fl -> pos !! w = Some a ->
  exists k, has_child a t = Some (k, t) /\ (k = false <-> forall x, pos !! (x :: w) = None).
Proof.
  intros Hi Hw. destruct (node_of _ _ _ _ _ Hi Hw) as [_ [v Hn]]. unfold has_child. munfold. rewrite Hn. cbn beta iota. rewrite Hn. fields.
  eexists. split; [reflexivity|]. rewrite orb_false_iff, !negb_false_iff, !Z.eqb_eq.
  rewrite !(shape_not_null _ _ _ _ (inv_shape _ _ _ Hi)). split; [intros [? ?] []; done|eauto].
Qed.

(** One turn of the second loop: a leaf leaves the tree for the free list. *)
Lemma unlink_ok t pos fl w a b u : inv t pos fl -> pos !! (b :: w) = Some a -> pos !! w = Some u ->
  (forall x, pos !! (x :: b :: w) = None) ->
  exists t', unlink u a t = Some (tt, t') /\
    inv t' (delete (b :: w) pos) (a :: fl) /\
    capacity t' (delete (b :: w) pos) (a :: fl) = capacity t pos fl /\
    get parent a t' = Some (u, t') /\
    forall w', value_at (nodes t') (delete (b :: w) pos) w' =
      if decide (w' = b :: w) then None else value_at (nodes t) pos w'.
Proof.
  intros Hi Ha Hu Hleaf. pose proof (inv_shape _ _ _ Hi) as Hsh.
  destruct (node_of _ _ _ _ _ Hi Ha) as [Ha0 [va Hna]]. destruct (node_of _ _ _ _ _ Hi Hu) as [_ [vu Hnu]].
  cbn [above] in Hna. rewrite (at_path_some _ _ _ Hu) in Hna.
  assert (Hua : a <> u).
  { intros ->. apply (cons_ne b w). exact (sh_inj _ _ _ Hsh _ _ _ Ha Hu). }
  assert (Hb : at_path pos (true :: w) =? a = b).
  { destruct b; [rewrite (at_path_some _ _ _ Ha); apply Z.eqb_refl|]. apply Z.eqb_neq. intros E.
    destruct (pos !! (true :: w)) as [x|] eqn:Ex; [|rewrite (at_path_none _ _ Ex) in E; congruence].
    rewrite (at_path_some _ _ _ Ex) in E. subst x. discriminate (sh_inj _ _ _ Hsh _ _ _ Ha Ex). }
  unfold unlink. munfold. rewrite Hnu. cbn [right]. rewrite Hb.
  set (n := mk_node _ _ _ vu) in *. set (m := mk_node _ _ _ va) in *.
  assert (Hrun : (if b then match nodes t !! u with
      | Some n0 => Some (tt, t <| nodes := <[u := n0 <| right := NULL |>]> (nodes t) |>) | None => None end
    else match nodes t !! u with
      | Some n0 => Some (tt, t <| nodes := <[u := n0 <| left := NULL |>]> (nodes t) |>) | None => None end) =
    Some (tt, t <| nodes := <[u := new_child b NULL n]> (nodes t) |>)) by (rewrite Hnu; destruct b; done).
  match goal with |- context [match ?e with Some _ => _ | None => None end] =>
    replace e with (Some (tt, t <| nodes := <[u := new_child b NULL n]> (nodes t) |>)) by
      (rewrite <- Hrun; destruct b; done) end.
  fields. rewrite lookup_insert_ne, Hna by done. eexists. split; [reflexivity|]. fields.
  destruct Hi as [_ Hch Hsz Hnd Hfr].
  assert (Hafl : a ∉ fl ++ avail t) by (intros Hin; destruct (Hfr a Hin) as [_ H]; exact (H _ Ha)).
  assert (Hufl : u ∉ fl ++ avail t) by (intros Hin; destruct (Hfr u Hin) as [_ H]; exact (H _ Hu)).
  split; [|split; [|split]].
  - constructor; fields.
    + exact (shape_unlink _ _ _ _ _ _ _ _ m (free t) Hsh Ha Hu Hnu Hleaf).
    + split; [done|]. eexists. split; [apply lookup_insert_eq|]. cbn [right].
      apply (chain_ext (nodes t)); [|done]. intros x Hx. rewrite !lookup_insert_ne; [done|set_solver|set_solver].
    + done.
    + cbn. constructor; done.
    + intros x Hx. apply elem_of_cons in Hx as [->|Hx].
      * split; [done|]. intros w' Hl. apply lookup_delete_Some in Hl as [Hne Hl].
        exact (Hne (sh_inj _ _ _ Hsh _ _ _ Ha Hl)).
      * destruct (Hfr x Hx) as [H0 H1]. split; [done|]. intros w' Hl. apply lookup_delete_Some in Hl as [_ Hl].
        exact (H1 _ Hl).
  - unfold capacity. rewrite map_size_delete_Some by eauto. cbn.
    assert (base.size pos <> 0%nat) by (intros E; apply map_size_empty_iff in E; subst; discriminate).
    rewrite avail_free. lia.
  - unfold get. fields. rewrite lookup_insert_eq. done.
  - intros w'. exact (value_unlink _ _ _ _ _ _ _ _ m (free t) w' Hsh Ha Hu Hnu).
Qed.

Lemma prune_ok fuel t pos fl w a b : inv t pos fl -> pos !! (b :: w) = Some a ->
  (forall x, pos !! (x :: b :: w) = None) -> (length w < fuel)%nat ->
  exists t' pos' fl', prune fuel a t = Some (tt, t') /\ inv t' pos' fl' /\
    capacity t' pos' fl' = capacity t pos fl /\
    forall w', value_at (nodes t') pos' w' = if decide (w' = b :: w) then None else value_at (nodes t) pos w'.
Proof.
  revert fuel t pos fl a b. induction w as [|b' w IH]; intros fuel t pos fl a b Hi Ha Hleaf Hf;
    (destruct fuel as [|fuel]; [cbn in Hf; lia|]); cbn [prune].
  all: destruct (sh_closed _ _ _ (inv_shape _ _ _ Hi) _ _ (mk_is_Some _ _ Ha)) as [u Hu].
  all: destruct (unlink_ok t pos fl _ a b u Hi Ha Hu Hleaf) as (t1 & E1 & I1 & C1 & P1 & V1).
  all: destruct (node_of _ _ _ _ _ Hi Ha) as [_ [va Hna]]; cbn [above] in Hna; rewrite (at_path_some _ _ _ Hu) in Hna.
  all: assert (Hg : get parent a t = Some (u, t)) by (unfold get; rewrite Hna; done); mstep Hg.
  all: assert (Hu1 : delete (b :: _) pos !! _ = Some u) by (rewrite lookup_delete_ne by apply cons_ne; exact Hu).
  all: destruct (node_of _ _ _ _ _ I1 Hu1) as [_ [vu Hnu]].
  all: destruct (has_child_ok _ _ _ _ _ I1 Hu1) as (k & Hk & Hk').
  all: mstep E1; mstep P1; mstep Hk; destruct k;
    [eexists t1, _, (a :: fl); done|].
  all: assert (Hgv : get value u t1 = Some (vu, t1)) by (unfold get; rewrite Hnu; done); mstep Hgv.
  all: destruct (Z.eqb_spec vu NO_VALUE) as [->|Hvu]; cbn [negb];
    [|eexists t1, _, (a :: fl); done].
  - assert (Hgp : get parent u t1 = Some (NULL, t1)) by (unfold get; rewrite Hnu; done). mstep Hgp.
    rewrite Z.eqb_refl. eexists t1, _, (a :: fl). done.
  - destruct (sh_closed _ _ _ (inv_shape _ _ _ I1) _ _ (mk_is_Some _ _ Hu1)) as [g Hgr].
    assert (Hgp : get parent u t1 = Some (g, t1)).
    { unfold get. rewrite Hnu. cbn [parent above]. rewrite (at_path_some _ _ _ Hgr). done. }
    mstep Hgp. destruct (node_of _ _ _ _ _ I1 Hgr) as [Hg0 _]. rewrite (proj2 (Z.eqb_neq _ _) Hg0).
    destruct (IH fuel t1 _ _ u b' I1 Hu1 (proj1 Hk' eq_refl) ltac:(cbn in Hf; lia)) as (t' & pos' & fl' & E & I & C & V).
    exists t', pos', fl'. split; [exact E|]. split; [done|]. split; [congruence|].
    intros w'. rewrite V, V1. case_decide as D; [|done]. subst w'.
    pose proof (V1 (b' :: w)) as Hv. rewrite (value_at_node _ _ _ _ _ Hu1 Hnu), Z.eqb_refl in Hv.
    case_decide; done.
Qed.

(** The root has no node below it. *)
Definition bare (t : tree_t) : Prop :=
  exists n, nodes t !! root t = Some n /\ right n = NULL /\ left n = NULL.

Lemma remove_ok fuel t m N u : rep t m N -> spells (first c) u -> (length u < fuel)%nat ->
  (u = [] -> ~ bare t) ->
  exists rc t', remove c fuel t = Some (rc, t') /\ rep t' (delete u m) N /\
    (rc = NGX_OK \/ rc = NGX_ERROR /\ m !! u = None).
Proof.
  intros (pos & fl & Hi & Hc & Hv) Hs Hf Hb.
  pose proof (inv_shape _ _ _ Hi) as Hsh. pose proof (sh_root _ _ _ Hsh) as Hr.
  pose proof (seek_ok fuel t pos fl (first c) u [] Hi Hs Hf) as Hk.
  rewrite (at_path_some _ _ _ Hr), rev_append_rev, app_nil_r in Hk.
  assert (Hm : value_at (nodes t) pos (rev u) = m !! u) by (rewrite Hv, rev_involutive; done).
  assert (Hdel : forall t' pos' fl', inv t' pos' fl' -> capacity t' pos' fl' = N ->
    (forall w', value_at (nodes t') pos' w' = if decide (w' = rev u) then None else value_at (nodes t) pos w') ->
    rep t' (delete u m) N).
  { intros t' pos' fl' Hi' Hc' Hv'. exists pos', fl'. split; [done|]. split; [done|]. intros w.
    rewrite Hv', decide_rev, Hv. case_decide as E; [subst; rewrite lookup_delete_eq; done|].
    rewrite lookup_delete_ne by done. done. }
  assert (Hsame : m !! u = None -> rep t (delete u m) N).
  { intros E. apply (Hdel t pos fl); [done..|]. intros w'. case_decide as D; [subst; congruence|done]. }
  unfold remove. mstep (eq_refl : read root t = Some (root t, t)). mstep Hk.
  destruct (pos !! rev u) as [a|] eqn:Ea.
  2:{ rewrite (at_path_none _ _ Ea), Z.eqb_refl. assert (E : m !! u = None) by (rewrite <- Hm; unfold value_at; rewrite Ea; done).
      eexists _, t. split; [reflexivity|]. auto. }
  rewrite (at_path_some _ _ _ Ea). destruct (node_of _ _ _ _ _ Hi Ea) as [Ha0 [v Hn]].
  rewrite (proj2 (Z.eqb_neq _ _) Ha0).
  rewrite (value_at_node _ _ _ _ _ Ea Hn) in Hm. cbn [value] in Hm.
  destruct (has_child_ok _ _ _ _ _ Hi Ea) as (k & Hhk & Hk'). mstep Hhk. destruct k.
  - assert (Hg : get value a t = Some (v, t)) by (unfold get; rewrite Hn; done). mstep Hg.
    destruct (v =? NO_VALUE); cbn [negb].
    + eexists _, t. split; [reflexivity|]. auto.
    + destruct (set_value_ok t pos fl _ a NO_VALUE Hi Ea) as (t' & E & Hi' & Hav & Hv'). mstep E.
      eexists _, t'. split; [reflexivity|]. split; [|by left].
      apply (Hdel t' pos fl); [done|unfold capacity in *; rewrite Hav; done|exact Hv'].
  - pose proof (proj1 Hk' eq_refl) as Hleaf. destruct (rev u) as [|b w] eqn:Eu.
    { exfalso. apply (f_equal (@rev bool)) in Eu. rewrite rev_involutive in Eu. cbn in Eu. apply (Hb Eu).
      assert (a = root t) as -> by congruence. eexists. split; [exact Hn|]. cbn.
      rewrite !at_path_none by apply Hleaf. done. }
    assert (Hlen : (length w < fuel)%nat).
    { apply (f_equal length) in Eu. rewrite length_rev in Eu. cbn in Eu. lia. }
    destruct (prune_ok fuel t pos fl w a b Hi Ea Hleaf Hlen) as (t' & pos' & fl' & E & I & C & V). mstep E.
    eexists _, t'. split; [reflexivity|]. split; [|by left]. apply (Hdel t' pos' fl'); [done|congruence|exact V].
Qed.

(** *** Search *)

(** The bits the search reads from a cursor: one more than the key has when it meets a node of full
    length. *)
Fixpoint reads (b : cur c) (u : path) : Prop :=
  match u with
  | [] => is_Some (branch c b)
  | d :: u' => branch c b = Some d /\ reads (next c b) u'
  end.

(** The value of the longest of the prefixes of [key] of at most [k] bits that has one. *)
Fixpoint longest_upto (m : gmap path Z) (key : path) (k : nat) : option Z :=
  match m !! take k key with
  | Some v => Some v
  | None => match k with O => None | S k' => longest_upto m key k' end
  end.
Definition longest_match (m : gmap path Z) (key : path) : option Z := longest_upto m key (length key).

(** The same from the shortest prefix on, as the search goes. *)
Fixpoint descend (val : path -> option Z) (v : Z) (w u : path) : Z :=
  let v := default v (val w) in
  match u with [] => v | d :: u' => descend val v (d :: w) u' end.

Lemma descend_none val v w u : (forall x, val (rev_append x w) = None) -> descend val v w u = v.
Proof.
  revert v w. induction u as [|d u IH]; intros v w Hn; cbn; rewrite (Hn [] : val w = None); cbn; [done|].
  apply IH. intros x. exact (Hn (d :: x)).
Qed.

Lemma find_loop_ok fuel t pos fl b u w v : inv t pos fl -> reads b u -> (S (length u) < fuel)%nat ->
  (length w + length u = depth)%nat ->
  find_loop c fuel b (at_path pos w) v t = Some (descend (value_at (nodes t) pos) v w u, t).
Proof.
  intros Hi. pose proof (inv_shape _ _ _ Hi) as Hsh.
  revert fuel b w v. induction u as [|d u IH]; intros fuel b w v Hr Hf Hd;
    (destruct fuel as [|fuel]; [cbn in Hf; lia|]); cbn [find_loop];
    (destruct (Z.eqb_spec (at_path pos w) NULL) as [E|E];
      [apply (shape_not_null _ _ _ _ Hsh) in E; rewrite descend_none; [done|];
       intros x; unfold value_at; rewrite (closed_below _ _ _ _ _ Hsh E); done|]).
  all: destruct (pos !! w) as [a|] eqn:Ew; [|exfalso; apply E, at_path_none, Ew].
  all: rewrite (at_path_some _ _ _ Ew); destruct (node_of _ _ _ _ _ Hi Ew) as [_ [nv Hn]].
  all: assert (Hg : get value a t = Some (nv, t)) by (unfold get; rewrite Hn; done); mstep Hg.
  all: assert (Hv : (if negb (nv =? NO_VALUE) then nv else v) = default v (value_at (nodes t) pos w)) by
    (rewrite (value_at_node _ _ _ _ _ Ew Hn); cbn [value]; destruct (nv =? NO_VALUE); done).
  all: cbn zeta; rewrite Hv; cbn [descend reads] in *.
  - destruct Hr as [d Hd']. rewrite Hd'. mstep (eq_refl : lift (Some d) t = Some (d, t)).
    mstep (get_child _ _ _ _ _ d Hi Ew). rewrite at_path_none; [destruct fuel; [cbn in Hf; lia|done]|].
    destruct (pos !! (d :: w)) eqn:El; [|done].
    pose proof (sh_depth _ _ _ Hsh _ (mk_is_Some _ _ El)) as Hl. cbn in Hl, Hd. lia.
  - destruct Hr as [Hd' Hr]. rewrite Hd'. mstep (eq_refl : lift (Some d) t = Some (d, t)).
    mstep (get_child _ _ _ _ _ d Hi Ew). apply IH; [done|cbn in Hf; lia|cbn in Hd |- *; lia].
Qed.

Lemma longest_upto_app m u d k : (k <= length u)%nat -> longest_upto m (u ++ d) k = longest_upto m u k.
Proof.
  induction k as [|k IH]; intros Hk; cbn [longest_upto]; rewrite take_app_le by lia; [done|].
  rewrite IH by lia. done.
Qed.

Lemma descend_snoc val v w u d :
  descend val v w (u ++ [d]) = default (descend val v w u) (val (rev_append (u ++ [d]) w)).
Proof. revert v w. induction u as [|x u IH]; intros v w; cbn; [done|apply IH]. Qed.

Lemma descend_longest m val v u : (forall w, val w = m !! rev w) ->
  descend val v [] u = default v (longest_match m u).
Proof.
  intros Hv. unfold longest_match. induction u as [|d u IH] using rev_ind.
  - cbn. rewrite Hv. cbn. destruct (m !! []); done.
  - rewrite descend_snoc, IH, Hv, rev_append_rev, app_nil_r, rev_involutive, length_app, Nat.add_comm. cbn [length Nat.add longest_upto].
    rewrite firstn_all2 by (rewrite length_app; cbn; lia).
    destruct (m !! (u ++ [d])); [done|]. rewrite longest_upto_app by done. done.
Qed.

Lemma find_ok fuel t m N u : rep t m N -> reads (first c) u -> length u = depth -> (S depth < fuel)%nat ->
  find c fuel t = Some (default NO_VALUE (longest_match m u), t).
Proof.
  intros (pos & fl & Hi & Hc & Hv) Hr Hd Hf. unfold find. mstep (eq_refl : read root t = Some (root t, t)).
  rewrite <- (at_path_some _ _ _ (sh_root _ _ _ (inv_shape _ _ _ Hi))).
  rewrite (find_loop_ok fuel t pos fl (first c) u [] NO_VALUE Hi Hr) by (cbn; lia).
  rewrite (descend_longest m _ _ _ Hv). done.
Qed.
End Cursor.

End Shape.

(** ** The bits of keys and masks *)

(** The [n] low bits, from the highest. *)
Fixpoint bits (n : nat) (x : Z) : path :=
  match n with O => [] | S n' => Z.testbit x (Z.of_nat n') :: bits n' x end.

(** The bits of a key under the leading ones of a mask. *)
Fixpoint masked (key mask : path) : path :=
  match key, mask with
  | k :: key', true :: mask' => k :: masked key' mask'
  | _, _ => []
  end.

Definition bits32 (key : Z) : path := bits 32 key.
Definition bits128 (key : list Z) : path := concat (bits 8 <$> take 16 key).
Definition prefix32 (key mask : Z) : path := masked (bits32 key) (bits32 mask).
Definition prefix128 (key mask : list Z) : path := masked (bits128 key) (bits128 mask).

Lemma length_bits n x : length (bits n x) = n.
Proof. induction n; cbn; auto. Qed.

Lemma length_masked ks ms : (length (masked ks ms) <= length ks)%nat.
Proof.
  revert ms. induction ks as [|k ks IH]; intros [|[] ms]; cbn; try lia. specialize (IH ms). lia.
Qed.

Lemma length_bits8 l : length (concat (bits 8 <$> l)) = (8 * length l)%nat.
Proof.
  induction l as [|x l IH]; [done|]. change (length (bits 8 x ++ concat (bits 8 <$> l)) = (8 * S (length l))%nat).
  rewrite length_app, length_bits, IH. lia.
Qed.

Lemma length_bits128 key : (16 <= length key)%nat -> length (bits128 key) = 128%nat.
Proof. intros Hl. unfold bits128. rewrite length_bits8, length_take. lia. Qed.

Lemma land_pow2 x n : 0 <= n -> negb (Z.land x (2 ^ n) =? 0) = Z.testbit x n.
Proof.
  intros Hn. destruct (Z.testbit x n) eqn:E.
  - apply negb_true_iff, Z.eqb_neq. intros H. apply (f_equal (fun z => Z.testbit z n)) in H.
    rewrite Z.land_spec, E, Z.pow2_bits_true, Z.bits_0 in H by lia. discriminate.
  - apply negb_false_iff, Z.eqb_eq, Z.bits_inj'. intros k Hk. rewrite Z.land_spec, Z.bits_0.
    destruct (Z.eq_dec k n) as [->|Hne]; [rewrite E; done|].
    rewrite Z.pow2_bits_false by lia. apply andb_false_r.
Qed.

Lemma shiftr_pow2 n : Z.shiftr (2 ^ Z.of_nat (S n)) 1 = 2 ^ Z.of_nat n.
Proof.
  rewrite Z.shiftr_div_pow2 by lia. replace (Z.of_nat (S n)) with (Z.of_nat n + 1) by lia.
  rewrite Z.pow_add_r by lia. apply Z.div_mul. lia.
Qed.

(** The value of [bit] when [n] bits are left. *)
Definition bit_of (n : nat) : Z := match n with O => 0 | S n' => 2 ^ Z.of_nat n' end.

Lemma shiftr_bit n : Z.shiftr (bit_of (S n)) 1 = bit_of n.
Proof. destruct n as [|n]; [done|]. apply shiftr_pow2. Qed.

Lemma spells32 n key mask : spells (cursor32 key mask) (bit_of n) (masked (bits n key) (bits n mask)).
Proof.
  induction n as [|n IH]; [done|]. cbn [bits masked].
  assert (Hm : in_mask (cursor32 key mask) (bit_of (S n)) = Some (Z.testbit mask (Z.of_nat n))).
  { cbn [in_mask cursor32 bit_of]. rewrite Z.land_comm, land_pow2 by lia. done. }
  destruct (Z.testbit mask (Z.of_nat n)); [|exact Hm]. cbn [spells]. split; [exact Hm|].
  split; [cbn [branch cursor32 bit_of]; rewrite land_pow2 by lia; done|].
  cbn [advance cursor32]. rewrite shiftr_bit. exact IH.
Qed.

Lemma reads32 n key mask : reads (cursor32 key mask) (bit_of n) (bits n key).
Proof.
  induction n as [|n IH]; [cbn; eauto|]. cbn [bits reads]. split.
  - cbn [branch cursor32 bit_of]. rewrite land_pow2 by lia. done.
  - cbn [next cursor32]. rewrite shiftr_bit. exact IH.
Qed.

(** In the bytes from [i] on, with [S n] bits left of the first of them. *)
Lemma spells128 key mask i n ks ms : drop i (take 16 key) = ks -> drop i (take 16 mask) = ms ->
  length ks = length ms -> (i + length ks = 16)%nat -> (n < 8)%nat ->
  match ks, ms with
  | k :: ks', m :: ms' => spells (cursor128 key mask) (i, 2 ^ Z.of_nat n)
      (masked (bits (S n) k ++ concat (bits 8 <$> ks')) (bits (S n) m ++ concat (bits 8 <$> ms')))
  | _, _ => True
  end.
Proof.
  revert i n ms. induction ks as [|k ks IHk]; intros i n ms Hk Hm Hl Hi Hn; [done|].
  destruct ms as [|m ms]; [done|].
  assert (Hki : key !! i = Some k).
  { rewrite <- (lookup_take_lt _ 16) by (cbn in Hi; lia). rewrite <- (Nat.add_0_r i), <- lookup_drop, Hk. done. }
  assert (Hmi : mask !! i = Some m).
  { rewrite <- (lookup_take_lt _ 16) by (cbn in Hi; lia). rewrite <- (Nat.add_0_r i), <- lookup_drop, Hm. done. }
  assert (Hk' : drop (S i) (take 16 key) = ks) by (rewrite <- Nat.add_1_r, <- drop_drop, Hk; done).
  assert (Hm' : drop (S i) (take 16 mask) = ms) by (rewrite <- Nat.add_1_r, <- drop_drop, Hm; done).
  induction n as [|n IHn]; cbn [bits app masked].
  all: set (c := cursor128 key mask).
  - assert (Em : in_mask c (i, 2 ^ Z.of_nat 0) = Some (Z.testbit m (Z.of_nat 0))).
    { cbn. rewrite Hmi. cbn. rewrite Z.land_comm. f_equal. apply (land_pow2 m 0). lia. }
    destruct (Z.testbit m (Z.of_nat 0)); [|exact Em]. cbn [spells]. split; [exact Em|]. split.
    { cbn. rewrite Hki. cbn. f_equal. apply (land_pow2 k 0). lia. }
    cbn [advance c cursor128]. change (Z.shiftr (2 ^ Z.of_nat 0) 1 =? 0) with true. cbn iota.
    destruct (Nat.eqb_spec (S i) 16) as [E|E].
    + destruct ks; [|cbn in Hi; lia]. done.
    + specialize (IHk (S i) 7%nat ms Hk' Hm' ltac:(cbn in Hl; lia) ltac:(cbn in Hi; lia) ltac:(lia)).
      destruct ks as [|k' ks]; [cbn in Hi; lia|]. destruct ms as [|m' ms]; [discriminate|]. exact IHk.
  - assert (Em : in_mask c (i, 2 ^ Z.of_nat (S n)) = Some (Z.testbit m (Z.of_nat (S n)))).
    { unfold c. cbn [in_mask cursor128]. rewrite Hmi. cbn [mbind option_bind]. rewrite Z.land_comm, land_pow2 by lia. done. }
    destruct (Z.testbit m (Z.of_nat (S n))); [|exact Em]. cbn [spells]. split; [exact Em|]. split.
    { unfold c. cbn [branch cursor128]. rewrite Hki. cbn [mbind option_bind]. rewrite land_pow2 by lia. done. }
    unfold c. cbn [advance cursor128]. rewrite shiftr_pow2.
    rewrite (proj2 (Z.eqb_neq _ 0)) by lia. apply IHn. lia.
Qed.

Lemma reads128 key mask i n ks : drop i (take 16 key) = ks -> (17 <= length key)%nat ->
  (i + length ks = 16)%nat -> (n < 8)%nat ->
  match ks with
  | k :: ks' => reads (cursor128 key mask) (i, 2 ^ Z.of_nat n) (bits (S n) k ++ concat (bits 8 <$> ks'))
  | _ => True
  end.
Proof.
  intros Hk H17. revert i n Hk. induction ks as [|k ks IHk]; intros i n Hk Hi Hn; [done|].
  assert (Hki : key !! i = Some k).
  { rewrite <- (lookup_take_lt _ 16) by (cbn in Hi; lia). rewrite <- (Nat.add_0_r i), <- lookup_drop, Hk. done. }
  assert (Hk' : drop (S i) (take 16 key) = ks) by (rewrite <- Nat.add_1_r, <- drop_drop, Hk; done).
  induction n as [|n IHn]; cbn [bits app reads]; split.
  - cbn. rewrite Hki. cbn. f_equal. apply (land_pow2 k 0). lia.
  - cbn [next cursor128]. change (Z.shiftr (2 ^ Z.of_nat 0) 1 =? 0) with true. cbn iota.
    specialize (IHk (S i) 7%nat Hk' ltac:(cbn in Hi; lia) ltac:(lia)). destruct ks as [|k' ks]; [|exact IHk].
    assert (S i = 16%nat) as -> by (cbn in Hi; lia).
    destruct (lookup_lt_is_Some_2 key 16 ltac:(lia)) as [x Hx]. cbn. rewrite Hx. cbn. eauto.
  - cbn [branch cursor128]. rewrite Hki. cbn [mbind option_bind]. rewrite land_pow2 by lia. done.
  - cbn [next cursor128]. rewrite shiftr_pow2, (proj2 (Z.eqb_neq _ 0)) by lia. apply IHn. lia.
Qed.

Lemma spells128_first key mask : (16 <= length key)%nat -> (16 <= length mask)%nat ->
  spells (cursor128 key mask) (0%nat, 0x80) (prefix128 key mask).
Proof.
  intros Hk Hm. unfold prefix128, bits128.
  assert (Lk : length (take 16 key) = 16%nat) by (rewrite length_take; lia).
  assert (Lm : length (take 16 mask) = 16%nat) by (rewrite length_take; lia).
  pose proof (spells128 key mask 0 7 _ _ eq_refl eq_refl ltac:(rewrite !drop_0; congruence) ltac:(rewrite drop_0; lia) ltac:(lia)) as H.
  rewrite !drop_0 in H. destruct (take 16 key) as [|k ks]; [discriminate|].
  destruct (take 16 mask) as [|m ms]; [discriminate|]. exact H.
Qed.

Lemma reads128_first key mask : (17 <= length key)%nat ->
  reads (cursor128 key mask) (0%nat, 0x80) (bits128 key).
Proof.
  intros Hk. unfold bits128. assert (Lk : length (take 16 key) = 16%nat) by (rewrite length_take; lia).
  pose proof (reads128 key mask 0 7 _ eq_refl Hk ltac:(rewrite drop_0; lia) ltac:(lia)) as H.
  rewrite drop_0 in H. destruct (take 16 key) as [|k ks]; [discriminate|]. exact H.
Qed.

(** ** The interface

    The operations of a kind of key, and what they promise: the tree is a map from prefixes to values, with
    the search for the longest prefix. *)
Record ops (K : Type) : Type := mk_ops {
  p_insert : K -> K -> Z -> M Z;
  p_delete : K -> K -> M Z;
  p_find : K -> M Z
}.
Arguments p_insert {K}. Arguments p_delete {K}. Arguments p_find {K}.

Section Interface.
Variable pagesize : Z.

(** The outcomes of an insertion: [NGX_BUSY] for a prefix that has a value, [NGX_ERROR] when a node is needed
    and there is no memory. *)
Definition inserted (depth : nat) (t : tree_t) (m : gmap path Z) (N : nat) (u : path) (v : Z)
    (r : option (Z * tree_t)) : Prop :=
  match m !! u with
  | Some _ => r = Some (NGX_BUSY, t)
  | None => exists rc t', r = Some (rc, t') /\
      ((rc = NGX_OK /\ rep pagesize depth t' (stored u v m) N) \/
       (rc = NGX_ERROR /\ u <> [] /\ rep pagesize depth t' m N /\ exhausted pagesize t'))
  end.

(** The outcomes of a deletion; [NGX_OK] is also returned for a leaf that has no value. *)
Definition deleted (depth : nat) (m : gmap path Z) (N : nat) (u : path) (r : option (Z * tree_t)) : Prop :=
  exists rc t', r = Some (rc, t') /\ rep pagesize depth t' (delete u m) N /\
    (rc = NGX_OK \/ rc = NGX_ERROR /\ m !! u = None).

Class PrefixMap {K} (o : ops K) (depth : nat) (valid readable : K -> Prop)
    (prefix : K -> K -> path) (all : K -> path) : Prop := {
  insert_law t m N key mask v : rep pagesize depth t m N -> valid key -> valid mask ->
    inserted depth t m N (prefix key mask) v (p_insert o key mask v t);
  delete_law t m N key mask : rep pagesize depth t m N -> valid key -> valid mask ->
    (prefix key mask = [] -> ~ bare t) ->
    deleted depth m N (prefix key mask) (p_delete o key mask t);
  find_law t m N key : rep pagesize depth t m N -> readable key ->
    p_find o key t = Some (default NO_VALUE (longest_match m (all key)), t)
}.

Definition radix32 : ops Z :=
  mk_ops Z (ngx_radix32tree_insert pagesize) ngx_radix32tree_delete ngx_radix32tree_find.
Definition radix128 : ops (list Z) :=
  mk_ops (list Z) (ngx_radix128tree_insert pagesize) ngx_radix128tree_delete ngx_radix128tree_find.

Hypothesis Hpage : node_size <= pagesize.

#[export] Instance radix32_prefix_map :
  PrefixMap radix32 32 (fun _ => True) (fun _ => True) prefix32 bits32.
Proof.
  assert (Hlen : forall key mask, (length (prefix32 key mask) <= 32)%nat).
  { intros key mask. unfold prefix32. etrans; [apply length_masked|]. unfold bits32. rewrite length_bits. done. }
  split.
  - intros t m N key mask v Hr _ _. specialize (Hlen key mask).
    exact (insert_ok pagesize Hpage 32 (cursor32 key mask) 34 t m N (prefix32 key mask) v Hr (spells32 32 key mask) Hlen ltac:(lia)).
  - intros t m N key mask Hr _ _ Hb. specialize (Hlen key mask).
    exact (remove_ok pagesize Hpage 32 (cursor32 key mask) 34 t m N (prefix32 key mask) Hr (spells32 32 key mask) ltac:(lia) Hb).
  - intros t m N key Hr _.
    exact (find_ok pagesize 32 (cursor32 key 0) 34 t m N _ Hr (reads32 32 key 0) (length_bits _ _) ltac:(lia)).
Qed.

#[export] Instance radix128_prefix_map :
  PrefixMap radix128 128 (fun k => 16 <= length k)%nat (fun k => 17 <= length k)%nat prefix128 bits128.
Proof.
  assert (Hlen : forall key mask, (16 <= length key)%nat -> (length (prefix128 key mask) <= 128)%nat).
  { intros key mask Hk. unfold prefix128. etrans; [apply length_masked|]. rewrite length_bits128; done. }
  split.
  - intros t m N key mask v Hr Hk Hm. specialize (Hlen key mask Hk).
    exact (insert_ok pagesize Hpage 128 (cursor128 key mask) 130 t m N (prefix128 key mask) v Hr (spells128_first key mask Hk Hm) Hlen ltac:(lia)).
  - intros t m N key mask Hr Hk Hm Hb. specialize (Hlen key mask Hk).
    exact (remove_ok pagesize Hpage 128 (cursor128 key mask) 130 t m N (prefix128 key mask) Hr (spells128_first key mask Hk Hm) ltac:(lia) Hb).
  - intros t m N key Hr Hk.
    refine (find_ok pagesize 128 (cursor128 key []) 130 t m N _ Hr (reads128_first key [] Hk) _ ltac:(lia)).
    apply length_bits128. lia.
Qed.
End Interface.

(** ** Creation *)

Section Create.
Variable pagesize : Z.
Hypothesis Hpage : node_size <= pagesize.

Lemma rep_mono d d' t m N : (d <= d')%nat -> rep pagesize d t m N -> rep pagesize d' t m N.
Proof.
  intros Hd (pos & fl & [[H1 H2 H3 H4 H5] Hc Hs Hn Hf] & Hcap & Hv). exists pos, fl. split; [|done].
  constructor; [|done..]. constructor; try done. intros w Hw. specialize (H5 w Hw). lia.
Qed.

(** All paths of at most [n] bits. *)
Fixpoint paths (n : nat) : list path :=
  match n with
  | O => [[]]
  | S n' => [] :: ((cons true) <$> paths n') ++ ((cons false) <$> paths n')
  end.

Lemma length_paths n : Z.of_nat (length (paths n)) = 2 ^ (Z.of_nat n + 1) - 1.
Proof.
  induction n as [|n IH]; [done|]. cbn [paths length]. rewrite length_app, !length_fmap.
  replace (Z.of_nat (S n) + 1) with (Z.of_nat n + 1 + 1) by lia. rewrite Z.pow_add_r with (c := 1) by lia. lia.
Qed.

Lemma in_paths n w : (length w <= n)%nat -> w ∈ paths n.
Proof.
  revert w. induction n as [|n IH]; intros [|b w] Hl; cbn in *; try lia; [by left|by left|].
  right. apply elem_of_app. specialize (IH w ltac:(lia)).
  destruct b; [left|right]; apply list_elem_of_fmap; eauto.
Qed.

(** The memory of a tree is used up only if it is less than that of all short paths. *)
Lemma exhausted_bound d t m N : rep pagesize d t m N -> exhausted pagesize t ->
  Z.of_nat N < 2 ^ (Z.of_nat d + 1).
Proof.
  intros (pos & fl & Hi & <- & _) [Hf Ha].
  assert (fl = []) as ->.
  { apply (chain_not_null _ _ _ (inv_chain _ _ _ _ _ Hi)); [|done]. intros a Hin.
    apply (inv_fresh _ _ _ _ _ Hi). set_solver. }
  unfold capacity. rewrite Ha. cbn. rewrite Nat.add_0_r, <- length_map_to_list.
  rewrite <- (length_fmap fst). pose proof (length_paths d) as Hp.
  enough (length ((map_to_list pos).*1) <= length (paths d))%nat by lia.
  apply submseteq_length, NoDup_submseteq; [apply NoDup_fst_map_to_list|].
  intros w Hw. apply list_elem_of_fmap in Hw as ([w' a] & -> & Hw). apply elem_of_map_to_list in Hw.
  apply in_paths. apply (sh_depth _ _ _ _ (inv_shape _ _ _ _ _ Hi)). eauto.
Qed.

(** The masks of the levels: [j] ones. *)
Definition level_mask (j : Z) : Z := 2 ^ 32 - 2 ^ (32 - j).

Lemma level_mask_next j : 0 <= j < 32 -> Z.lor (Z.shiftr (level_mask j) 1) 0x80000000 = level_mask (j + 1).
Proof.
  intros Hj. apply (range_eq (fun j => Z.lor (Z.shiftr (level_mask j) 1) 0x80000000) (fun j => level_mask (j + 1)) 32);
    [vm_compute; reflexivity|lia].
Qed.

Fixpoint ones (l : path) : nat := match l with true :: l' => S (ones l') | _ => O end.

Lemma length_masked_ones ks ms : (length (masked ks ms) <= ones ms)%nat.
Proof. revert ms. induction ks as [|k ks IH]; intros [|[] ms]; cbn; try lia. specialize (IH ms). lia. Qed.

Lemma level_mask_prefix key j : 0 <= j <= 32 -> (length (prefix32 key (level_mask j)) <= Z.to_nat j)%nat.
Proof.
  intros Hj. unfold prefix32. etrans; [apply length_masked_ones|].
  assert (H : forallb (fun j => ones (bits32 (level_mask j)) <=? Z.to_nat j)%nat (Z.of_nat <$> seq 0 33) = true)
    by (vm_compute; reflexivity).
  rewrite forallb_forall in H. apply Nat.leb_le, H.
  apply list_elem_of_In, list_elem_of_fmap. exists (Z.to_nat j). split; [lia|]. apply elem_of_seq. lia.
Qed.

Section Levels.
Variable n : nat.
Hypothesis Hn : (n <= 32)%nat.
Variable N : nat.
Hypothesis HN : 2 ^ (Z.of_nat n + 1) <= Z.of_nat N.

Lemma prealloc_one t key mask : rep pagesize n t ∅ N -> (length (prefix32 key mask) <= n)%nat ->
  exists t', ngx_radix32tree_insert pagesize key mask NO_VALUE t = Some (NGX_OK, t') /\ rep pagesize n t' ∅ N.
Proof.
  intros Hr Hl.
  pose proof (insert_ok pagesize Hpage n (cursor32 key mask) 34 t ∅ N (prefix32 key mask) NO_VALUE Hr
    (spells32 32 key mask) Hl ltac:(lia)) as H.
  rewrite lookup_empty in H. destruct H as (rc & t' & E & [(-> & H)|(_ & _ & H & Hx)]); [eauto|].
  pose proof (exhausted_bound _ _ _ _ H Hx). lia.
Qed.

Lemma prealloc_level_ok fuel t e mask r : rep pagesize n t ∅ N ->
  (forall key, length (prefix32 key mask) <= n)%nat -> 0 <= e <= 31 ->
  (0 < r)%nat -> Z.of_nat r <= 2 ^ (32 - e) -> (r <= fuel)%nat ->
  exists t', prealloc_level pagesize fuel (2 ^ 32 - Z.of_nat r * 2 ^ e) mask (2 ^ e) t = Some (true, t') /\
    rep pagesize n t' ∅ N.
Proof.
  intros Hr Hm He. revert t Hr fuel. induction r as [|r IH]; intros t Hr fuel Hr0 Hr1 Hf; [lia|].
  destruct fuel as [|fuel]; [lia|]. cbn [prealloc_level].
  destruct (prealloc_one t (2 ^ 32 - Z.of_nat (S r) * 2 ^ e) mask Hr (Hm _)) as (t1 & E & Hr'). mstep E.
  cbn [negb]. change (NGX_OK =? NGX_OK) with true. cbn [negb]. cbn zeta.
  assert (Hpow : 0 < 2 ^ e) by (apply Z.pow_pos_nonneg; lia).
  assert (Htot : 2 ^ (32 - e) * 2 ^ e = 2 ^ 32) by (rewrite <- Z.pow_add_r by lia; f_equal; lia).
  replace (2 ^ 32 - Z.of_nat (S r) * 2 ^ e + 2 ^ e) with (2 ^ 32 - Z.of_nat r * 2 ^ e) by lia.
  destruct r as [|r].
  - change (Z.of_nat 0 * 2 ^ e) with 0. change (u32 (2 ^ 32 - 0) =? 0) with true. exists t1. done.
  - assert (Hb : 0 < 2 ^ 32 - Z.of_nat (S r) * 2 ^ e < 2 ^ 32) by nia.
    unfold u32. rewrite wrap_u_small by lia. rewrite (proj2 (Z.eqb_neq _ 0)) by lia.
    apply IH; [done|lia..].
Qed.

Lemma prealloc_ok l t j : rep pagesize n t ∅ N -> 0 <= j -> j + Z.of_nat l = Z.of_nat n ->
  exists t', prealloc pagesize l (level_mask j) (bit_of (Z.to_nat (32 - j))) t = Some (true, t') /\
    rep pagesize n t' ∅ N.
Proof.
  revert t j. induction l as [|l IH]; intros t j Hr Hj Hl; cbn [prealloc]; [eauto|]. cbn zeta.
  rewrite level_mask_next by lia.
  assert (Ei : bit_of (Z.to_nat (32 - j)) = 2 ^ (31 - j)).
  { replace (Z.to_nat (32 - j)) with (S (Z.to_nat (31 - j))) by lia. cbn [bit_of]. f_equal. lia. }
  assert (Htot : 2 ^ (32 - (31 - j)) * 2 ^ (31 - j) = 2 ^ 32) by (rewrite <- Z.pow_add_r by lia; f_equal; lia).
  assert (Hpow : 0 < 2 ^ (31 - j)) by (apply Z.pow_pos_nonneg; lia).
  assert (Hpos : 0 < 2 ^ (32 - (31 - j))) by (apply Z.pow_pos_nonneg; lia).
  destruct (prealloc_level_ok (S (Z.to_nat (2 ^ 32 / bit_of (Z.to_nat (32 - j))))) t (31 - j) (level_mask (j + 1))
    (Z.to_nat (2 ^ (32 - (31 - j)))) Hr) as (t1 & E & Hr1).
  - intros key. etrans; [apply level_mask_prefix; lia|lia].
  - lia.
  - lia.
  - lia.
  - rewrite Ei, <- Htot, Z.div_mul by lia. lia.
  - rewrite Z2Nat.id, Htot, Z.sub_diag, <- Ei in E by lia. mstep E.
    replace (Z.shiftr (bit_of (Z.to_nat (32 - j))) 1) with (bit_of (Z.to_nat (32 - (j + 1)))).
    + apply IH; [done|lia..].
    + replace (Z.to_nat (32 - j)) with (S (Z.to_nat (32 - (j + 1)))) by lia. symmetry. apply shiftr_bit.
Qed.
End Levels.

(** A pool whose pages are apart. *)
Definition supplies (supply : list Z) (N : nat) : Prop :=
  let all := concat ((fun p => chunk p pagesize) <$> supply) in
  NoDup all /\ NULL ∉ all /\ length all = N.

(** With memory for all prefixes of the preallocated bits and one node more, an empty tree is created. *)
Lemma create_ok supply N preallocate :
  supplies supply N -> 0 <= prealloc_bits pagesize preallocate <= 32 ->
  2 ^ (prealloc_bits pagesize preallocate + 1) <= Z.of_nat N ->
  exists t, ngx_radix_tree_create pagesize supply preallocate = Some (Some t) /\
    rep pagesize 32 t ∅ N /\ rep pagesize 128 t ∅ N.
Proof.
  intros (Hnd & Hnull & Hlen) Hb HN. unfold ngx_radix_tree_create.
  set (n := prealloc_bits pagesize preallocate) in *.
  assert (Hone : 1 <= Z.of_nat N).
  { assert (0 < 2 ^ (n + 1)) by (apply Z.pow_pos_nonneg; lia). lia. }
  destruct supply as [|p ps]; [cbn in Hlen; lia|].
  unfold ngx_radix_alloc, carve. munfold. cbn [free size pages]. rewrite Z.eqb_refl. cbn [negb].
  cbv [mbind option_bind]. fields. change (0 <? node_size) with true. cbn beta iota. fields.
  cbn in Hnd, Hnull, Hlen. rewrite chunk_cons in Hnd, Hnull, Hlen by done. cbn [app length] in Hnd, Hnull, Hlen.
  assert (Hp : p <> NULL) by set_solver. rewrite (proj2 (Z.eqb_neq _ _) Hp).
  apply list.NoDup_cons in Hnd as [Hpn Hnd].
  set (t := mk_tree _ _ _ _ _ _).
  assert (Hr : rep pagesize (Z.to_nat n) t ∅ N).
  { exists {[ [] := p ]}, []. split; [|split].
    - constructor; cbn.
      + constructor.
        * apply lookup_singleton_eq.
        * intros w a Hl. apply lookup_singleton_Some in Hl as [<- <-]. split; [done|]. exists NO_VALUE.
          rewrite lookup_insert_eq. unfold at_path. rewrite !lookup_singleton_ne by done. done.
        * intros b w [x Hx]. apply lookup_singleton_Some in Hx as [Hx _]. discriminate.
        * intros w1 w2 a H1 H2. apply lookup_singleton_Some in H1 as [<- _], H2 as [<- _]. done.
        * intros w [x Hx]. apply lookup_singleton_Some in Hx as [<- _]. cbn. lia.
      + done.
      + lia.
      + exact Hnd.
      + intros a Ha. split; [set_solver|]. intros w Hw. apply lookup_singleton_Some in Hw as [_ <-]. exact (Hpn Ha).
    - unfold capacity. rewrite map_size_singleton. exact Hlen.
    - intros w. rewrite lookup_empty. unfold value_at. destruct (decide (w = [])) as [->|Hw].
      + rewrite lookup_singleton_eq. cbn. rewrite lookup_insert_eq. done.
      + rewrite lookup_singleton_ne by done. done. }
  destruct (Z.eqb_spec preallocate 0) as [->|Hpre].
  { exists t. split; [done|]. split; apply (rep_mono (Z.to_nat n)); (lia || done). }
  rewrite (proj2 (Z.ltb_ge n 0)) by lia.
  destruct (prealloc_ok (Z.to_nat n) ltac:(lia) N ltac:(rewrite Z2Nat.id by lia; done) (Z.to_nat n) t 0 Hr ltac:(lia) ltac:(lia))
    as (t' & E & Hr').
  change (level_mask 0) with 0 in E. change (bit_of (Z.to_nat (32 - 0))) with 0x80000000 in E.
  rewrite E. exists t'. split; [done|]. split; apply (rep_mono (Z.to_nat n)); (lia || done).
Qed.
End Create.

(** ** Refinement *)

(** C27: a radix tree implements a map from prefixes to values.  [ngx_radix_tree_create] with memory for
    the preallocated nodes gives the empty map; an insertion stores a value under a prefix that has none,
    answers [NGX_BUSY] otherwise, and [NGX_ERROR] only when no memory is left; a deletion removes the
    prefix, and answers [NGX_ERROR] only if it has no value, except that the prefix of length 0
    needs a node below the root; the search gives the value of the longest prefix of the key.
    No node is lost: the capacity stays the same.  An IPv6 key is searched with one more byte than it has. *)
Theorem radix_refines (pagesize : Z) (Hpage : node_size <= pagesize) :
  (forall supply N preallocate, supplies pagesize supply N -> 0 <= prealloc_bits pagesize preallocate <= 32 ->
    2 ^ (prealloc_bits pagesize preallocate + 1) <= Z.of_nat N ->
    exists t, ngx_radix_tree_create pagesize supply preallocate = Some (Some t) /\
      rep pagesize 32 t ∅ N /\ rep pagesize 128 t ∅ N) /\
  (forall t m N key mask v, rep pagesize 32 t m N ->
    inserted pagesize 32 t m N (prefix32 key mask) v (ngx_radix32tree_insert pagesize key mask v t) /\
    ((prefix32 key mask = [] -> ~ bare t) ->
      deleted pagesize 32 m N (prefix32 key mask) (ngx_radix32tree_delete key mask t)) /\
    ngx_radix32tree_find key t = Some (default NO_VALUE (longest_match m (bits32 key)), t)) /\
  (forall t m N key mask v, rep pagesize 128 t m N -> length key = 16%nat -> length mask = 16%nat ->
    inserted pagesize 128 t m N (prefix128 key mask) v (ngx_radix128tree_insert pagesize key mask v t) /\
    ((prefix128 key mask = [] -> ~ bare t) ->
      deleted pagesize 128 m N (prefix128 key mask) (ngx_radix128tree_delete key mask t)) /\
    forall x, ngx_radix128tree_find (key ++ [x]) t = Some (default NO_VALUE (longest_match m (bits128 key)), t)).
Proof.
  split; [intros; apply create_ok; done|]. split.
  - intros t m N key mask v Hr. pose proof (radix32_prefix_map pagesize Hpage) as [I D F].
    split; [exact (I t m N key mask v Hr Logic.I Logic.I)|].
    split; [exact (D t m N key mask Hr Logic.I Logic.I)|exact (F t m N key Hr Logic.I)].
  - intros t m N key mask v Hr Hk Hm. pose proof (radix128_prefix_map pagesize Hpage) as [I D F].
    split; [apply (I t m N key mask v Hr); lia|]. split; [apply (D t m N key mask Hr); lia|].
    intros x. assert (Hx : (17 <= length (key ++ [x]))%nat) by (rewrite length_app; cbn; lia).
    replace (bits128 key) with (bits128 (key ++ [x])); [exact (F t m N _ Hr Hx)|].
    unfold bits128. rewrite take_app_le by lia. done.
Qed.

(** On amd64 one page of 4096 bytes holds the preallocated nodes. *)
Lemma radix_refines_witness :
  exists t, ngx_radix_tree_create 4096 [4096] (-1) = Some (Some t) /\ rep 4096 32 t ∅ 128 /\ rep 4096 128 t ∅ 128.
Proof.
  destruct (radix_refines 4096 ltac:(vm_compute; discriminate)) as [H _].
  apply (H [4096] 128%nat (-1)).
  - split; [apply (bool_decide_unpack _); vm_compute; exact I|].
    split; [apply (bool_decide_unpack _); vm_compute; exact I|reflexivity].
  - vm_compute. split; discriminate.
  - vm_compute. discriminate.
Defined.

(** A computation on a new tree, and its result. *)
Definition on_new (supply : list Z) (preallocate : Z) {A} (f : M A) : option A :=
  match ngx_radix_tree_create 4096 supply preallocate with
  | Some (Some t) => fst <$> f t
  | _ => None
  end.

(** With the networks 10.0.0.0/8 and 10.1.0.0/16 the longer prefix wins, until it is deleted. *)
Lemma longest_prefix_example :
  on_new [4096; 8192] (-1) (
    a ← ngx_radix32tree_insert 4096 0x0a000000 0xff000000 7;
    b ← ngx_radix32tree_insert 4096 0x0a010000 0xffff0000 8;
    c ← ngx_radix32tree_insert 4096 0x0a010000 0xffff0000 9;
    x ← ngx_radix32tree_find 0x0a010203;
    y ← ngx_radix32tree_find 0x0a020203;
    z ← ngx_radix32tree_find 0x0b020203;
    d ← ngx_radix32tree_delete 0x0a010000 0xffff0000;
    w ← ngx_radix32tree_find 0x0a010203;
    ret [a; b; c; x; y; z; d; w])
  = Some [NGX_OK; NGX_OK; NGX_BUSY; 8; 7; NO_VALUE; NGX_OK; 7].
Proof. vm_compute. reflexivity. Qed.

(** Without preallocated nodes, deleting the prefix of length 0 reads the parent of the root, [NULL], even
    though the prefix has a value. *)
Lemma bare_root_delete :
  on_new [4096] 0 (ngx_radix32tree_insert 4096 0 0 7) = Some NGX_OK /\
  on_new [4096] 0 (ngx_radix32tree_insert 4096 0 0 7;; ngx_radix32tree_delete 0 0) = None.
Proof. vm_compute. split; reflexivity. Qed.

(** A preallocated node that has no value is deleted with [NGX_OK]. *)
Lemma valueless_leaf_delete :
  on_new [4096] (-1) (ngx_radix32tree_delete 0 0xfc000000) = Some NGX_OK.
Proof. vm_compute. reflexivity. Qed.

(** The search for an address that is in the tree as a network of 128 bits reads the byte after it. *)
Lemma key_overread :
  let key := repeat 0 15 ++ [1] in
  let add := ngx_radix128tree_insert 4096 key (repeat 255 16) 7 in
  on_new [4096; 8192] 0 (add;; ngx_radix128tree_find key) = None /\
  on_new [4096; 8192] 0 (add;; ngx_radix128tree_find (key ++ [0])) = Some 7.
Proof. vm_compute. split; reflexivity. Qed.

End RadixTree.
