(* ===== verification/Geo.v ===== *)
(** * The geo module

    [src/src/http/modules/ngx_http_geo_module.c]: a variable whose value depends on the address of the
    client.  The networks of a [geo] block are kept in two radix trees ([RadixTree]), one for IPv4
    and one for IPv6, or, after [ranges], in arrays of ranges for each of the 65536 values of the upper
    half of an IPv4 address.

    The table of values ([ngx_http_geo_value]) is the function [geo_value] from a text to the address of its
    value, [None] without memory; [null_value] is the address of [ngx_http_variable_null_value].  [None] in the
    results of the operations is undefined behaviour or a loop that does not end; the
    messages of the log are not modelled, nor is the binary form of the ranges. *)

From stdpp Require Import gmap.
From S2P Require Import Prelude NgxString NgxInet RadixTree.

Module Geo.
Import NgxString NgxInet RadixTree.

(** ** State *)

(** [ngx_http_geo_range_t] *)
Record range_t : Type := mk_range { r_value : Z; r_start : Z; r_end : Z }.

(** [ngx_http_geo_conf_ctx_t]: the part the operations use.  [low] is [high.low], the arrays by the upper
    half of the address. *)
Record conf_t : Type := mk_conf {
  low : option (gmap Z (list range_t));
  default_value : option Z;
  tree : option tree_t;
  tree6 : option tree_t;
  proxies : list cidr_t;
  entries : Z;
  outside_entries : bool;
  binary_include : bool;
  ranges : bool;
  proxy_recursive : bool
}.

#[export] Instance eta_conf : Eta conf_t := fun c =>
  mk_conf (low c) (default_value c) (tree c) (tree6 c) (proxies c) (entries c) (outside_entries c)
    (binary_include c) (ranges c) (proxy_recursive c).

(** [ngx_memzero(&ctx, ...)] *)
Definition conf_zero : conf_t := mk_conf None None None None [] 0 false false false false.

(** ** Ranges *)

(** The loop over the ranges of an array, from index [i] down; [None] when the new range overlaps one of
    them. *)
Fixpoint add_in_block (i : nat) (a : list range_t) (s e v : Z) : option (list range_t) :=
  match i with
  | O => Some (a ++ [mk_range v (u16 s) (u16 e)])
  | S i =>
      r ← a !! i;
      let new := mk_range v (u16 s) (u16 e) in
      let before := take i a in
      let after := drop (S i) a in
      if e <? r_start r then add_in_block i a s e v
      else if s >? r_end r then Some (before ++ r :: new :: after)
      else if (s =? r_start r) && (e =? r_end r) then
        Some (before ++ mk_range v (r_start r) (r_end r) :: after)
      else if (s >? r_start r) && (e <? r_end r) then
        Some (before ++ mk_range (r_value r) (r_start r) (u16 (s - 1)) :: new ::
              mk_range (r_value r) (u16 (e + 1)) (r_end r) :: after)
      else if (s =? r_start r) && (e <? r_end r) then
        Some (before ++ new :: mk_range (r_value r) (u16 (e + 1)) (r_end r) :: after)
      else if (s >? r_start r) && (e =? r_end r) then
        Some (before ++ mk_range (r_value r) (r_start r) (u16 (s - 1)) :: new :: after)
      else None
  end.

(** The part of the range in the block of [n]. *)
Definition part_start (n start : Z) : Z := if n =? start then Z.land n 0xffff else 0.
Definition part_end (n last : Z) : Z := if Z.lor n 0xffff >? last then Z.land last 0xffff else 0xffff.

(** [ngx_http_geo_add_range]: whether it was added, and the arrays *)
Fixpoint add_range_loop (fuel : nat) (n start last v : Z) (low : gmap Z (list range_t)) :
    option (bool * gmap Z (list range_t)) :=
  match fuel with
  | O => None
  | S fuel' =>
      if n <=? last then
        let h := Z.shiftr n 16 in
        let a := default [] (low !! h) in
        match add_in_block (length a) a (part_start n start) (part_end n last) v with
        | Some a' => add_range_loop fuel' (Z.land (u32 (n + 0x10000)) 0xffff0000) start last v (<[h := a']> low)
        | None => Some (false, <[h := a]> low)
        end
      else Some (true, low)
  end.

Definition range_fuel : nat := Z.to_nat 65537.

Definition ngx_http_geo_add_range (start last v : Z) (low : gmap Z (list range_t)) :
    option (bool * gmap Z (list range_t)) := add_range_loop range_fuel start start last v low.

(** The loop over an array in [ngx_http_geo_delete_range]: the array and [warn] *)
Fixpoint delete_in_block (a : list range_t) (s e : Z) : list range_t * bool :=
  match a with
  | [] => ([], false)
  | r :: a' =>
      if (s =? r_start r) && (e =? r_end r) then (a', false)
      else
        let '(a', warn) := delete_in_block a' s e in
        (r :: a', negb (negb (s =? r_start r) && negb (e =? r_end r)) || warn)
  end.

(** [ngx_http_geo_delete_range] *)
Fixpoint delete_range_loop (fuel : nat) (n start last : Z) (warn : bool) (low : gmap Z (list range_t)) :
    option (bool * gmap Z (list range_t)) :=
  match fuel with
  | O => None
  | S fuel' =>
      if n <=? last then
        let h := Z.shiftr n 16 in
        match low !! h with
        | None => delete_range_loop fuel' (u32 (n + 0x10000)) start last true low
        | Some a =>
            let '(a, w) := delete_in_block a (part_start n start) (part_end n last) in
            delete_range_loop fuel' (u32 (n + 0x10000)) start last (w || warn) (<[h := a]> low)
        end
      else Some (warn, low)
  end.

Definition ngx_http_geo_delete_range (start last : Z) (low : gmap Z (list range_t)) :
    option (bool * gmap Z (list range_t)) := delete_range_loop range_fuel start start last false low.

(** ** Networks *)

Section Conf.
(** The page size, the pages the pool gives to the two trees, the addresses of values, and reading
    an included file. *)
Variable pagesize : Z.
Variable supply supply6 : list Z.
Variable geo_value : list Z -> option Z.
Variable null_value : Z.
Variable include : list Z -> conf_t -> option (bool * conf_t).

(** The branch of [ngx_http_geo_cidr_add] for a kind of address; [key] is the memory at the address, which
    the search for the old value reads.  The result is whether it is [NGX_CONF_OK]. *)
Definition cidr_add_in {K} (o : ops K) (key addr mask : K) (val : Z) : M bool :=
  rc ← p_insert o addr mask val;
  if rc =? NGX_OK then ret true
  else if rc =? NGX_ERROR then ret false
  else
    p_find o key;;
    rc ← p_delete o addr mask;
    if rc =? NGX_ERROR then ret false
    else
      rc ← p_insert o addr mask val;
      ret (rc =? NGX_OK).

(** An operation on one of the trees of the context. *)
Definition in_tree {A} (f : M A) (c : conf_t) : option (A * conf_t) :=
  t ← tree c; '(x, t) ← f t; Some (x, c <| tree := Some t |>).
Definition in_tree6 {A} (f : M A) (c : conf_t) : option (A * conf_t) :=
  t ← tree6 c; '(x, t) ← f t; Some (x, c <| tree6 := Some t |>).

(** [ngx_http_geo_cidr_add]; [addr] of an IPv6 network is followed by its mask *)
Definition ngx_http_geo_cidr_add (cidr : cidr_t) (value : list Z) (c : conf_t) : option (bool * conf_t) :=
  match geo_value value with
  | None => Some (false, c)
  | Some val =>
      match cidr with
      | cidr_in6 addr mask => in_tree6 (cidr_add_in (radix128 pagesize) (addr ++ mask) addr mask val) c
      | cidr_in addr mask => in_tree (cidr_add_in (radix32 pagesize) addr addr mask val) c
      end
  end.

(** [ngx_http_geo_cidr_value] *)
Definition ngx_http_geo_cidr_value (net : list Z) : option cidr_t :=
  if decide (net = bs "255.255.255.255") then Some (cidr_in 0xffffffff 0xffffffff)
  else
    let '(rc, cidr) := ngx_ptocidr net in
    if rc =? NGX_ERROR then None else cidr.

(** [ctx->tree = ngx_radix_tree_create(ctx->pool, -1)] unless there is one *)
Definition make_tree (t : option tree_t) (pages : list Z) : option (option tree_t) :=
  match t with Some t => Some (Some t) | None => ngx_radix_tree_create pagesize pages (-1) end.
Definition make_trees (c : conf_t) : option (bool * conf_t) :=
  t ← make_tree (tree c) supply;
  match t with
  | None => Some (false, c)
  | Some t =>
      let c := c <| tree := Some t |> in
      t6 ← make_tree (tree6 c) supply6;
      match t6 with
      | None => Some (false, c)
      | Some t6 => Some (true, c <| tree6 := Some t6 |>)
      end
  end.

(** [ngx_http_geo_cidr], on the two words of the line *)
Definition ngx_http_geo_cidr (value0 value1 : list Z) (c : conf_t) : option (bool * conf_t) :=
  '(ok, c) ← make_trees c;
  if negb (ok : bool) then Some (false, c)
  else if decide (value0 = bs "default") then
    '(ok, c) ← ngx_http_geo_cidr_add (cidr_in 0 0) value1 c;
    if negb (ok : bool) then Some (false, c)
    else ngx_http_geo_cidr_add (cidr_in6 (repeat 0 16) (repeat 0 16)) value1 c
  else
    let del := bool_decide (value0 = bs "delete") in
    match ngx_http_geo_cidr_value (if del then value1 else value0) with
    | None => Some (false, c)
    | Some cidr =>
        let cidr := match cidr with cidr_in addr mask => cidr_in (ntohl addr) (ntohl mask) | _ => cidr end in
        if del then
          match cidr with
          | cidr_in6 addr mask => '(_, c) ← in_tree6 (ngx_radix128tree_delete addr mask) c; Some (true, c)
          | cidr_in addr mask => '(_, c) ← in_tree (ngx_radix32tree_delete addr mask) c; Some (true, c)
          end
        else ngx_http_geo_cidr_add cidr value1 c
    end.

(** ** Lines of the block *)

(** [ngx_http_geo_range] *)
Definition ngx_http_geo_range (value0 value1 : list Z) (c : conf_t) : option (bool * conf_t) :=
  if decide (value0 = bs "default") then
    let v := geo_value value1 in
    Some (bool_decide (is_Some v), c <| default_value := v |>)
  else if binary_include c then Some (false, c)
  else
    let lows := default ∅ (low c) in
    let c := c <| low := Some lows |> <| entries := entries c + 1 |> <| outside_entries := true |> in
    let del := bool_decide (value0 = bs "delete") in
    let net := if del then value1 else value0 in
    match ngx_strlchr net "-"%ch with
    | None => Some (false, c)
    | Some p =>
        let start := ngx_inet_addr (take p net) in
        let last := ngx_inet_addr (drop (S p) net) in
        if (start =? INADDR_NONE) || (last =? INADDR_NONE) then Some (false, c)
        else
          let start := ntohl start in
          let last := ntohl last in
          if start >? last then Some (false, c)
          else if del then
            '(_, l) ← ngx_http_geo_delete_range start last lows;
            Some (true, c <| low := Some l |>)
          else
            match geo_value value1 with
            | None => Some (false, c)
            | Some v =>
                '(ok, l) ← ngx_http_geo_add_range start last v lows;
                Some (ok, c <| low := Some l |>)
            end
    end.

(** [ngx_http_geo], on the words of the line *)
Definition ngx_http_geo (args : list (list Z)) (c : conf_t) : option (bool * conf_t) :=
  match args with
  | [value0] =>
      if decide (value0 = bs "ranges") then
        match tree c, tree6 c with
        | None, None => Some (true, c <| ranges := true |>)
        | _, _ => Some (false, c)
        end
      else if decide (value0 = bs "proxy_recursive") then Some (true, c <| proxy_recursive := true |>)
      else Some (false, c)
  | [value0; value1] =>
      if decide (value0 = bs "include") then include value1 c
      else if decide (value0 = bs "proxy") then
        match ngx_http_geo_cidr_value value1 with
        | None => Some (false, c)
        | Some cidr => Some (true, c <| proxies := proxies c ++ [cidr] |>)
        end
      else if ranges c then ngx_http_geo_range value0 value1 c
      else ngx_http_geo_cidr value0 value1 c
  | _ => Some (false, c)
  end.

(** ** The end of the block *)

(** What [high.low] points to: an array with its terminator, or, for an array that has become empty, still the
    [ngx_array_t] in [temp_pool], which is destroyed. *)
Inductive block_t : Type := Ranges (a : list range_t) | Dangling.

(** [ngx_http_geo_ctx_t]: the arrays, or the trees *)
Inductive geo_t : Type :=
  | geo_high (lows : option (gmap Z block_t)) (default_value : Z)
  | geo_trees (t t6 : tree_t).

(** The copy of an array to the pool of the configuration *)
Definition finish_block (a : list range_t) : block_t :=
  match a with [] => Dangling | _ => Ranges a end.

(** The end of [ngx_http_geo_block], after [ngx_conf_parse], without a binary base; [None] inside is
    [NGX_CONF_ERROR] *)
Definition geo_block_end (c : conf_t) : option (option geo_t) :=
  if ranges c then
    let lows := match low c with Some l => Some (finish_block <$> l) | None => None end in
    Some (Some (geo_high lows (default null_value (default_value c))))
  else
    '(ok, c) ← make_trees c;
    if negb (ok : bool) then Some None
    else
      '(rc, c) ← in_tree (ngx_radix32tree_insert pagesize 0 0 null_value) c;
      if rc =? NGX_ERROR then Some None
      else
        '(rc, c) ← in_tree6 (ngx_radix128tree_insert pagesize (repeat 0 16) (repeat 0 16) null_value) c;
        if rc =? NGX_ERROR then Some None
        else t ← tree c; t6 ← tree6 c; Some (Some (geo_trees t t6)).
End Conf.

(** ** The variable *)

(** The address [ngx_http_geo_addr] finds: [s_addr] of a [sockaddr_in], or the memory at [sin6_addr] of a
    [sockaddr_in6]: the 16 bytes of the address and those of [sin6_scope_id]. *)
Inductive client_t : Type := Client4 (s_addr : Z) | Client6 (mem : list Z) | NoClient.

(** [IN6_IS_ADDR_V4MAPPED], and the IPv4 address of a mapped one *)
Definition v4mapped (p : list Z) : bool := bool_decide (take 12 p = repeat 0 10 ++ [0xff; 0xff]).
Definition mapped_addr (p : list Z) : Z :=
  u32 (Z.shiftl (nth 12 p 0) 24 + Z.shiftl (nth 13 p 0) 16 + Z.shiftl (nth 14 p 0) 8 + nth 15 p 0).

(** [ngx_http_geo_cidr_variable]: the address of the value *)
Definition ngx_http_geo_cidr_variable (t t6 : tree_t) (addr : client_t) : option Z :=
  fst <$> match addr with
  | NoClient => ngx_radix32tree_find INADDR_NONE t
  | Client6 p => if v4mapped p then ngx_radix32tree_find (mapped_addr p) t else ngx_radix128tree_find p t6
  | Client4 a => ngx_radix32tree_find (ntohl a) t
  end.

(** The loop of [ngx_http_geo_range_variable] over an array *)
Fixpoint range_lookup (a : list range_t) (n : Z) : option Z :=
  match a with
  | [] => None
  | r :: a' => if (n >=? r_start r) && (n <=? r_end r) then Some (r_value r) else range_lookup a' n
  end.

(** [ngx_http_geo_range_variable] *)
Definition ngx_http_geo_range_variable (lows : option (gmap Z block_t)) (dflt : Z) (addr : client_t) : option Z :=
  let inaddr :=
    match addr with
    | NoClient => INADDR_NONE
    | Client6 p => if v4mapped p then mapped_addr p else INADDR_NONE
    | Client4 a => ntohl a
    end in
  match lows with
  | None => Some dflt
  | Some l =>
      match l !! Z.shiftr inaddr 16 with
      | None => Some dflt
      | Some Dangling => None
      | Some (Ranges a) => Some (default dflt (range_lookup a (Z.land inaddr 0xffff)))
      end
  end.

(** ** Arrays of ranges

    The ranges of an array in growing order, from [lo] on. *)
Fixpoint asc (lo : Z) (a : list range_t) : Prop :=
  match a with
  | [] => True
  | r :: a' => lo <= r_start r /\ r_start r <= r_end r /\ r_end r <= 65535 /\ asc (r_end r + 1) a'
  end.

(** The first number above the ranges. *)
Fixpoint upper (lo : Z) (a : list range_t) : Z :=
  match a with [] => lo | r :: a' => upper (r_end r + 1) a' end.

Lemma asc_app lo a b : asc lo (a ++ b) <-> asc lo a /\ asc (upper lo a) b.
Proof. revert lo. induction a as [|r a IH]; intros lo; cbn; [tauto|]. rewrite IH. tauto. Qed.

Lemma asc_mono lo lo' a : lo' <= lo -> asc lo a -> asc lo' a.
Proof. destruct a; cbn; [done|]. intros. intuition lia. Qed.

Lemma asc_upper lo a : asc lo a -> lo <= upper lo a.
Proof. revert lo. induction a as [|r a IH]; intros lo; cbn; [lia|]. intros (? & ? & ? & H). apply IH in H. lia. Qed.

Lemma range_lookup_app a b n :
  range_lookup (a ++ b) n = match range_lookup a n with Some v => Some v | None => range_lookup b n end.
Proof. induction a as [|r a IH]; cbn; [done|]. destruct (_ && _); [done|apply IH]. Qed.

Lemma range_lookup_in lo a n v : asc lo a -> range_lookup a n = Some v -> lo <= n < upper lo a.
Proof.
  revert lo. induction a as [|r a IH]; intros lo; cbn; [done|]. intros (H1 & H2 & H3 & H4).
  destruct (Z.geb_spec n (r_start r)), (Z.leb_spec n (r_end r)); cbn; intros E.
  1: apply asc_upper in H4; lia.
  all: specialize (IH _ H4 E); lia.
Qed.

Lemma drop_middle {A} (a b : list A) x : drop (S (length a)) (a ++ x :: b) = b.
Proof. induction a; cbn; auto. Qed.

Lemma u16_small x : 0 <= x <= 65535 -> u16 x = x.
Proof. intros. apply wrap_u_small. lia. Qed.

(** The new range meets a range of the array without lying in it. *)
Definition straddles (s e : Z) (r : range_t) : Prop :=
  r_start r <= e /\ s <= r_end r /\ ~ (r_start r <= s /\ e <= r_end r).

(** What adding a range to an array should give. *)
Definition added (a : list range_t) (s e v : Z) (res : option (list range_t)) : Prop :=
  match res with
  | Some a' =>
      (a = [] \/ (exists r, r ∈ a /\ r_start r <= e) -> asc 0 a') /\
      forall n, range_lookup a' n = if bool_decide (s <= n <= e) then Some v else range_lookup a n
  | None => exists r, r ∈ a /\ straddles s e r
  end.

(** The lookups of both sides, by cases on the ranges that are met. *)
Ltac lookup_cases n :=
  rewrite ?range_lookup_app; cbn [range_lookup r_start r_end r_value];
  repeat match goal with |- context [range_lookup ?b n] => destruct (range_lookup b n) eqn:?E end;
  repeat match goal with H : range_lookup ?b n = Some _, A : asc ?lo ?b |- _ =>
    pose proof (range_lookup_in _ _ _ _ A H); clear A end;
  repeat case_bool_decide;
  repeat match goal with
  | |- context [?x >=? ?y] => destruct (Z.geb_spec x y)
  | |- context [?x <=? ?y] => destruct (Z.leb_spec x y)
  end; cbn [andb]; try reflexivity; exfalso; lia.

Ltac asc_solve :=
  apply asc_app; split; [assumption|]; cbn; repeat (split; [lia|]);
  first [assumption|eapply asc_mono; [|eassumption]; lia].

Lemma add_in_block_ok s e v b1 b2 : 0 <= s -> s <= e -> e <= 65535 ->
  asc 0 (b1 ++ b2) -> asc (e + 1) b2 -> added (b1 ++ b2) s e v (add_in_block (length b1) (b1 ++ b2) s e v).
Proof.
  intros Hs Hse He. revert b2. induction b1 as [|r b1 IH] using rev_ind; intros b2 Ha Hb2.
  - cbn in *. rewrite !u16_small by lia. split.
    + intros [->|(r & Hr & Hle)]; [cbn; lia|]. exfalso. clear - Hb2 Hr Hle He.
      assert (Hlow : forall lo b, asc lo b -> r ∈ b -> lo <= r_start r).
      { intros lo b. revert lo. induction b as [|x b IHb]; intros lo Hb Hin; [inversion Hin|].
        cbn in Hb. apply elem_of_cons in Hin as [->|Hin]; [lia|]. destruct Hb as (? & ? & ? & Hb).
        specialize (IHb _ Hb Hin). lia. }
      specialize (Hlow _ _ Hb2 Hr). lia.
    + intros n. lookup_cases n.
  - rewrite length_app, Nat.add_comm. cbn [length Nat.add add_in_block].
    rewrite <- app_assoc in *. cbn [app] in *.
    rewrite list_lookup_middle by done. cbn [mbind option_bind].
    rewrite take_app_length, drop_middle, !u16_small by lia.
    pose proof Ha as Ha0. apply asc_app in Ha as [Ha1 (Hr1 & Hr2 & Hr3 & Hr4)].
    pose proof (asc_upper _ _ Ha1) as Hup.
    assert (Hex : r ∈ b1 ++ r :: b2) by set_solver.
    destruct (Z.ltb_spec e (r_start r)) as [H1|H1].
    { apply IH; [done|]. cbn. repeat split; try lia. done. }
    destruct (Z.gtb_spec s (r_end r)) as [H2|H2].
    { split; [intros _; asc_solve|]. intros n. lookup_cases n. }
    destruct (Z.eqb_spec s (r_start r)) as [E1|E1], (Z.eqb_spec e (r_end r)) as [E2|E2],
      (Z.gtb_spec s (r_start r)) as [H3|H3], (Z.ltb_spec e (r_end r)) as [H4|H4]; try lia; cbn [andb].
    all: rewrite ?u16_small by lia.
    all: try (split; [intros _; asc_solve|]; intros n; lookup_cases n).
    all: exists r; split; [done|]; unfold straddles; lia.
Qed.

(** ** Addresses *)

(** The value of an address in the arrays. *)
Definition addr_lookup (low : gmap Z (list range_t)) (x : Z) : option Z :=
  range_lookup (default [] (low !! Z.shiftr x 16)) (Z.land x 0xffff).

Definition good (low : gmap Z (list range_t)) : Prop := forall h a, low !! h = Some a -> asc 0 a.

(** The arrays the new range touches are empty or have a range that starts at or below its end: the
    order of additions for which "add the first range" is right. *)
Definition not_first (low : gmap Z (list range_t)) (last : Z) : Prop :=
  forall h a, low !! h = Some a -> a <> [] -> exists r, r ∈ a /\ h * 65536 + r_start r <= last.

(** No array has lost all its ranges. *)
Definition no_empty (low : gmap Z (list range_t)) : Prop := forall h, low !! h <> Some [].

Lemma shiftr16 n : Z.shiftr n 16 = n / 65536.
Proof. apply Z.shiftr_div_pow2. lia. Qed.

Lemma land16 n : Z.land n 0xffff = n mod 65536.
Proof. apply (Z.land_ones n 16). lia. Qed.

Lemma lor16 n : Z.lor n 0xffff = n / 65536 * 65536 + 65535.
Proof.
  pose proof (Z.add_lor_land n 0xffff) as H. rewrite land16 in H.
  pose proof (Z.div_mod n 65536 ltac:(lia)). lia.
Qed.

Lemma land_high n : 0 <= n < 2 ^ 32 -> Z.land n 0xffff0000 = n / 65536 * 65536.
Proof.
  intros Hn. assert (E : 0xffff0000 = Z.ldiff (Z.ones 32) (Z.ones 16)) by reflexivity. rewrite E.
  assert (Z.land n (Z.ldiff (Z.ones 32) (Z.ones 16)) = Z.ldiff (Z.land n (Z.ones 32)) (Z.ones 16)) as ->.
  { apply Z.bits_inj'. intros k Hk. rewrite Z.land_spec, !Z.ldiff_spec, Z.land_spec. apply andb_assoc. }
  rewrite Z.land_ones, Z.mod_small, Z.ldiff_ones_r, Z.shiftl_mul_pow2, shiftr16 by lia. done.
Qed.

(** The addresses of a block and their low halves. *)
Lemma part_bounds n start last : 0 <= start -> start <= n -> n <= last -> (n = start \/ n mod 65536 = 0) ->
  let h := n / 65536 in
  0 <= part_start n start <= part_end n last /\ part_end n last <= 65535 /\
  h * 65536 + part_start n start = n /\
  h * 65536 + part_end n last = Z.min last (h * 65536 + 65535).
Proof.
  intros H0 H1 H2 Hc h. unfold part_start, part_end. rewrite !land16, lor16. fold h.
  pose proof (Z.div_mod n 65536 ltac:(lia)) as Dn. pose proof (Z.mod_pos_bound n 65536 ltac:(lia)).
  pose proof (Z.div_mod last 65536 ltac:(lia)) as Dl. pose proof (Z.mod_pos_bound last 65536 ltac:(lia)).
  fold h in Dn.
  assert (Hs : (if n =? start then n mod 65536 else 0) = n mod 65536) by (destruct (Z.eqb_spec n start); lia).
  rewrite Hs. destruct (Z.gtb_spec (h * 65536 + 65535) last) as [Hg|Hg]; [|lia].
  assert (last / 65536 = h) by (symmetry; apply (Z.div_unique _ _ _ (last - h * 65536)); lia). lia.
Qed.

(** Changing the array of one block. *)
Lemma addr_lookup_insert low h a x : 
  addr_lookup (<[h := a]> low) x = if x / 65536 =? h then range_lookup a (x mod 65536) else addr_lookup low x.
Proof.
  unfold addr_lookup. rewrite shiftr16, land16. destruct (Z.eqb_spec (x / 65536) h) as [<-|Hne].
  - rewrite lookup_insert_eq. done.
  - rewrite lookup_insert_ne by done. done.
Qed.

(** The outcome of an addition. *)
Definition range_added (low : gmap Z (list range_t)) (start last v : Z)
    (res : option (bool * gmap Z (list range_t))) : Prop :=
  exists ok low', res = Some (ok, low') /\
    if (ok : bool) then
      (not_first low last -> good low') /\ (no_empty low -> no_empty low') /\
      forall x, 0 <= x < 2 ^ 32 ->
        addr_lookup low' x = if bool_decide (start <= x <= last) then Some v else addr_lookup low x
    else exists h a r, low !! h = Some a /\ r ∈ a /\ straddles (start - h * 65536) (last - h * 65536) r.

Section Add.
Variable low0 : gmap Z (list range_t).
Variable start last v : Z.
Hypothesis Hgood : good low0.
Hypothesis Hstart : 0 <= start.
Hypothesis Hlast : last < 0xffff0000.

(** The arrays when the blocks below [n] are done. *)
Record done_upto (n : Z) (low : gmap Z (list range_t)) : Prop := {
  du_good : not_first low0 last -> good low;
  du_full : no_empty low0 -> no_empty low;
  du_rest : forall h, n / 65536 <= h -> low !! h = low0 !! h;
  du_lookup : forall x, 0 <= x < 2 ^ 32 -> addr_lookup low x =
    if bool_decide (start <= x <= last /\ x < n) then Some v else addr_lookup low0 x
}.

Lemma add_range_block n low a' : start <= n -> n <= last -> (n = start \/ n mod 65536 = 0) ->
  done_upto n low -> let h := n / 65536 in let a := default [] (low !! h) in
  add_in_block (length a) a (part_start n start) (part_end n last) v = Some a' ->
  done_upto ((h + 1) * 65536) (<[h := a']> low).
Proof.
  intros H1 H2 Hc [Dg Df Dr Dl] h a Ea.
  destruct (part_bounds n start last Hstart H1 H2 Hc) as (Hp1 & Hp2 & Hp3 & Hp4). fold h in Hp3, Hp4.
  set (s := part_start n start) in *. set (e := part_end n last) in *.
  assert (Ha0 : low !! h = low0 !! h) by (apply Dr; done).
  assert (Ha : asc 0 a).
  { unfold a. rewrite Ha0. destruct (low0 !! h) eqn:E; cbn; [exact (Hgood _ _ E)|exact I]. }
  pose proof (add_in_block_ok s e v a [] ltac:(lia) ltac:(lia) ltac:(lia)) as Hadd.
  rewrite app_nil_r in Hadd. specialize (Hadd Ha I). rewrite Ea in Hadd. destruct Hadd as [Hasc Hlk].
  assert (Hn : n = h * 65536 + n mod 65536) by (pose proof (Z.div_mod n 65536 ltac:(lia)); unfold h; lia).
  pose proof (Z.mod_pos_bound n 65536 ltac:(lia)).
  constructor.
  - intros Hnf h' x Hx. destruct (decide (h' = h)) as [->|Hne].
    + rewrite lookup_insert_eq in Hx. injection Hx as <-. apply Hasc.
      unfold a. rewrite Ha0. destruct (low0 !! h) as [a0|] eqn:E; cbn; [|by left].
      destruct a0 as [|r0 a0]; [by left|]. right. destruct (Hnf h _ E ltac:(done)) as (r & Hr & Hle).
      exists r. split; [done|]. pose proof (Hgood _ _ E) as Hg.
      assert (r_start r <= 65535).
      { assert (Hall : forall lo b, asc lo b -> r ∈ b -> r_start r <= 65535).
        { intros lo b. revert lo. induction b as [|y b IHb]; intros lo Hb Hin; [inversion Hin|].
          cbn in Hb. apply elem_of_cons in Hin as [->|Hin]; [lia|]. destruct Hb as (_ & _ & _ & Hb). eauto. }
        exact (Hall _ _ Hg Hr). }
      lia.
    + rewrite lookup_insert_ne in Hx by done. exact (Dg Hnf h' x Hx).
  - intros Hne h' Hx. destruct (decide (h' = h)) as [->|Hneq].
    + rewrite lookup_insert_eq in Hx. injection Hx as ->. specialize (Hlk s).
      rewrite bool_decide_true in Hlk by lia. discriminate.
    + rewrite lookup_insert_ne in Hx by done. exact (Df Hne h' Hx).
  - intros h' Hh'. rewrite Z.div_mul in Hh' by lia. rewrite lookup_insert_ne by lia. apply Dr. unfold h in *. lia.
  - intros x Hx. rewrite addr_lookup_insert, Dl by done.
    pose proof (Z.div_mod x 65536 ltac:(lia)) as Dx. pose proof (Z.mod_pos_bound x 65536 ltac:(lia)).
    destruct (Z.eqb_spec (x / 65536) h) as [Eh|Eh].
    + rewrite Hlk. rewrite Eh in Dx. repeat case_bool_decide; try lia; try done.
      * unfold a. rewrite Ha0. unfold addr_lookup. rewrite shiftr16, land16, Eh. done.
    + assert (x < n <-> x < (h + 1) * 65536) by nia.
      repeat case_bool_decide; try done; exfalso; lia.
Qed.

Lemma add_range_loop_ok fuel n low : start <= n -> (n <= last -> n = start \/ n mod 65536 = 0) -> n < 2 ^ 32 ->
  0 < Z.of_nat fuel -> last / 65536 - n / 65536 + 1 < Z.of_nat fuel ->
  done_upto n low -> range_added low0 start last v (add_range_loop fuel n start last v low).
Proof.
  revert n low. induction fuel as [|fuel IH]; intros n low H1 Hc H32 Hf0 Hf Hd; [lia|]. cbn [add_range_loop].
  destruct (Z.leb_spec n last) as [H2|H2].
  - specialize (Hc H2). rewrite shiftr16. set (h := n / 65536). set (a := default [] (low !! h)).
    destruct (part_bounds n start last Hstart H1 H2 Hc) as (Hp1 & Hp2 & Hp3 & Hp4). fold h in Hp3, Hp4.
    pose proof (Z.div_mod n 65536 ltac:(lia)) as Dn. pose proof (Z.mod_pos_bound n 65536 ltac:(lia)). fold h in Dn, Hf.
    assert (Hh : h <= last / 65536) by (apply Z.div_le_mono; lia).
    assert (Hl : last / 65536 < 65535) by (apply Z.div_lt_upper_bound; lia).
    destruct (add_in_block _ _ _ _ _) as [a'|] eqn:Ea.
    + assert (En : Z.land (u32 (n + 65536)) 0xffff0000 = (h + 1) * 65536).
      { unfold u32. rewrite wrap_u_small by lia. rewrite land_high by lia.
        replace (n + 65536) with (n + 1 * 65536) by lia. rewrite Z.div_add by lia. done. }
      rewrite En. apply IH; try lia.
      * right. apply Z.mod_mul. lia.
      * rewrite Z.div_mul by lia. lia.
      * exact (add_range_block n low a' H1 H2 Hc Hd Ea).
    + eexists false, _. split; [reflexivity|].
      assert (Ha0 : low !! h = low0 !! h) by (apply (du_rest _ _ Hd); done).
      pose proof (add_in_block_ok (part_start n start) (part_end n last) v a [] ltac:(lia) ltac:(lia) ltac:(lia)) as Hadd.
      rewrite app_nil_r, Ea in Hadd. destruct Hadd as (r & Hr & Hst); [|exact I|].
      { unfold a. rewrite Ha0. destruct (low0 !! h) eqn:E; cbn; [exact (Hgood _ _ E)|exact I]. }
      unfold a in Hr. rewrite Ha0 in Hr. destruct (low0 !! h) as [a0|] eqn:E; [|inversion Hr].
      exists h, a0, r. split; [done|]. split; [done|]. unfold straddles in *. lia.
  - eexists true, low. split; [reflexivity|]. split; [apply (du_good _ _ Hd)|]. split; [apply (du_full _ _ Hd)|].
    intros x Hx. rewrite (du_lookup _ _ Hd x Hx). repeat case_bool_decide; try done; exfalso; lia.
Qed.
End Add.

Lemma add_range_ok low start last v : good low -> 0 <= start -> last < 0xffff0000 ->
  start <= last -> range_added low start last v (ngx_http_geo_add_range start last v low).
Proof.
  intros Hg H0 Hl Hsl. assert (0 <= last / 65536 <= 65535) by (split; [apply Z.div_pos|apply Z.div_le_upper_bound]; lia).
  assert (0 <= start / 65536) by (apply Z.div_pos; lia).
  assert (Hfu : Z.of_nat range_fuel = 65537) by (unfold range_fuel; lia).
  unfold ngx_http_geo_add_range. revert Hfu. generalize range_fuel. intros f Hf.
  apply add_range_loop_ok; try lia; try done; try (by left).
  constructor; try done. intros x Hx. rewrite bool_decide_false by lia. done.
Qed.

(** The variable reads the arrays by the halves of the address. *)
Lemma range_variable_ok low dflt a : no_empty low ->
  ngx_http_geo_range_variable (Some (finish_block <$> low)) dflt (Client4 a) =
  Some (default dflt (addr_lookup low (ntohl a))).
Proof.
  intros Hne. unfold ngx_http_geo_range_variable, addr_lookup. rewrite lookup_fmap.
  destruct (low !! Z.shiftr (ntohl a) 16) as [l|] eqn:E; [|done]. cbn.
  destruct l; [destruct (Hne _ E)|done].
Qed.

Lemma ntohl_range a : 0 <= ntohl a < 2 ^ 32.
Proof.
  unfold ntohl, htonl. pose proof (le_value_range (rev (le_bytes 4 a))) as H.
  rewrite length_rev, length_le_bytes in H. apply H.
  apply Forall_forall. intros x Hx. apply in_rev in Hx.
  pose proof (le_bytes_bytes 4 a) as Hb. unfold bytes in Hb. rewrite Forall_forall in Hb. exact (Hb x Hx).
Qed.

(** adding a range of addresses below 255.255.0.0 to arrays of disjoint ranges ends, and is refused only
    if the range meets an existing one without lying in it.  Otherwise it gives its value to
    exactly the addresses of the range, splitting or replacing the range it lies in, and leaves the others
    as they were: that is the value the variable then has for a client.  The arrays stay in order
    unless the new range comes before all those of an array. *)
Theorem geo_range_correct (low : gmap Z (list range_t)) (start last v dflt : Z)
    (Hgood : good low) (Hempty : no_empty low) (H0 : 0 <= start) (H1 : start <= last) (H2 : last < 0xffff0000) :
  exists ok low', ngx_http_geo_add_range start last v low = Some (ok, low') /\
    if (ok : bool) then
      (not_first low last -> good low') /\ no_empty low' /\
      forall a, ngx_http_geo_range_variable (Some (finish_block <$> low')) dflt (Client4 a) =
        if bool_decide (start <= ntohl a <= last) then Some v
        else ngx_http_geo_range_variable (Some (finish_block <$> low)) dflt (Client4 a)
    else exists h a r, low !! h = Some a /\ r ∈ a /\ straddles (start - h * 65536) (last - h * 65536) r.
Proof.
  destruct (add_range_ok low start last v Hgood H0 H2 H1) as (ok & low' & E & H). exists ok, low'. split; [done|].
  destruct ok; [|exact H]. destruct H as (Hg & He & Hl). specialize (He Hempty). split; [done|]. split; [done|].
  intros a. rewrite !range_variable_ok, Hl by (done || apply ntohl_range). case_bool_decide; done.
Qed.

(** 10.0.0.0 - 10.0.0.255 inside 10.0.0.0 - 10.1.255.255. *)
Lemma geo_range_correct_witness :
  let low := {[ 2560 := [mk_range 1 0 65535]; 2561 := [mk_range 1 0 65535] ]} in
  exists low', ngx_http_geo_add_range 0x0a000000 0x0a0000ff 2 low = Some (true, low') /\
    low' !! 2560 = Some [mk_range 2 0 255; mk_range 1 256 65535] /\ no_empty low'.
Proof.
  intros low.
  assert (Hcases : forall h a, low !! h = Some a -> a = [mk_range 1 0 65535]).
  { intros h a Hl. unfold low in Hl. apply lookup_insert_Some in Hl as [[_ <-]|[_ Hl]]; [done|].
    apply lookup_singleton_Some in Hl as [_ <-]. done. }
  destruct (geo_range_correct low 0x0a000000 0x0a0000ff 2 0) as (ok & low' & E & H); try lia.
  - intros h a Hl. rewrite (Hcases h a Hl). cbn. lia.
  - intros h Hl. discriminate (Hcases h _ Hl).
  - assert (Er : exists l, ngx_http_geo_add_range 0x0a000000 0x0a0000ff 2 low = Some (true, l) /\
      l !! 2560 = Some [mk_range 2 0 255; mk_range 1 256 65535]) by (eexists; split; vm_compute; reflexivity).
    destruct Er as (l & Er & El). rewrite Er in E. injection E as <- <-. exists l.
    split; [done|]. split; [done|apply H].
Defined.

(** *** Ranges that come in the wrong order

    [add_all] adds ranges to empty arrays. *)
Definition add_all (rs : list (Z * Z * Z)) : option (bool * gmap Z (list range_t)) :=
  foldl (fun acc '(s, e, v) => '(ok, low) ← acc;
    if (ok : bool) then ngx_http_geo_add_range s e v low else Some (false, low)) (Some (true, ∅)) rs.

(** A range below all others is put at the end of the array.  A range inside an earlier one is
    then accepted without splitting it, and never found. *)
Lemma descending_ranges :
  (fun '(ok, low) => (ok, low !! 0, addr_lookup low 16)) <$>
    add_all [(10, 20, 1); (1, 5, 2); (6, 8, 3); (15, 18, 4)] =
  Some (true, Some [mk_range 1 10 20; mk_range 2 1 5; mk_range 3 6 8; mk_range 4 15 18], Some 1).
Proof. vm_compute. reflexivity. Qed.

(** *** Ranges that reach 255.255.0.0

    [n] wraps to 0 after the last block, which is below every end: from a start with a low half of 0 the loop
    fills the arrays and never ends. *)
Section Endless.
Variable start last v : Z.
Hypothesis Hs0 : 0 <= start.
Hypothesis Hs1 : start mod 65536 = 0.
Hypothesis Hl0 : 0xffff0000 <= last.
Hypothesis Hl1 : last < 2 ^ 32.

Definition whole (h : Z) : range_t := mk_range v 0 (if h =? 65535 then last mod 65536 else 65535).
Definition wholes (low : gmap Z (list range_t)) : Prop := forall h a, low !! h = Some a -> a = [whole h].

Lemma add_range_endless fuel n low : 0 <= n <= 0xffff0000 -> n mod 65536 = 0 -> wholes low ->
  add_range_loop fuel n start last v low = None.
Proof.
  revert n low. induction fuel as [|fuel IH]; intros n low Hn Hm Hw; [done|]. cbn [add_range_loop].
  rewrite (proj2 (Z.leb_le n last)) by lia. rewrite shiftr16. set (h := n / 65536).
  pose proof (Z.div_mod n 65536 ltac:(lia)) as Dn. fold h in Dn.
  pose proof (Z.mod_pos_bound last 65536 ltac:(lia)).
  assert (Ps : part_start n start = 0) by (unfold part_start; rewrite land16, Hm; destruct (n =? start); done).
  assert (Pe : part_end n last = r_end (whole h)).
  { unfold part_end, whole. cbn. rewrite lor16, land16. fold h.
    destruct (Z.gtb_spec (h * 65536 + 65535) last), (Z.eqb_spec h 65535); try lia.
    pose proof (Z.div_mod last 65536 ltac:(lia)). lia. }
  assert (Hin : add_in_block (length (default [] (low !! h))) (default [] (low !! h)) 0 (r_end (whole h)) v = Some [whole h]).
  { assert (He : 0 <= r_end (whole h) <= 65535) by (unfold whole; cbn; destruct (h =? 65535); lia).
    change [whole h] with [mk_range v 0 (r_end (whole h))]. revert He.
    assert (Hc : default [] (low !! h) = [] \/ default [] (low !! h) = [mk_range v 0 (r_end (whole h))]).
    { destruct (low !! h) as [a|] eqn:E; [right; exact (Hw h a E)|by left]. }
    revert Hc. generalize (r_end (whole h)) as e. intros e [->| ->] He; cbn.
    - rewrite !u16_small by lia. done.
    - rewrite (proj2 (Z.ltb_ge e 0)), Z.eqb_refl by lia. destruct (Z.gtb_spec 0 e); [lia|]. done. }
  rewrite Ps, Pe, Hin. apply IH.
  - unfold u32, wrap_u. pose proof (Z.mod_pos_bound (n + 65536) (2 ^ 32) ltac:(lia)).
    rewrite land_high by lia. pose proof (Z.div_mod ((n + 65536) mod 2 ^ 32) 65536 ltac:(lia)).
    pose proof (Z.mod_pos_bound ((n + 65536) mod 2 ^ 32) 65536 ltac:(lia)).
    assert (0 <= (n + 65536) mod 2 ^ 32 / 65536) by (apply Z.div_pos; lia).
    assert ((n + 65536) mod 2 ^ 32 / 65536 < 65536) by (apply Z.div_lt_upper_bound; lia). lia.
  - rewrite land_high by (apply wrap_u_range; lia). apply Z.mod_mul. lia.
  - intros h' a Hl. apply lookup_insert_Some in Hl as [[<- <-]|[_ Hl]]; [done|exact (Hw h' a Hl)].
Qed.
End Endless.

(** For instance 240.0.0.0 - 255.255.255.254, with any number of steps. *)
Lemma last_range_endless fuel v : add_range_loop fuel 0xf0000000 0xf0000000 0xfffffffe v ∅ = None.
Proof. apply add_range_endless; try lia; try done. Qed.

(** *** Deleting ranges *)

Lemma delete_in_block_outside a s e n : ~ (s <= n <= e) ->
  range_lookup (delete_in_block a s e).1 n = range_lookup a n.
Proof.
  intros Hn. induction a as [|r a IH]; [done|]. cbn [delete_in_block].
  destruct (Z.eqb_spec s (r_start r)) as [Es|Es], (Z.eqb_spec e (r_end r)) as [Ee|Ee]; cbn [andb].
  { cbn. destruct (Z.geb_spec n (r_start r)), (Z.leb_spec n (r_end r)); try done; lia. }
  all: destruct (delete_in_block a s e) as [a' w]; cbn in *; destruct (_ && _); done.
Qed.

Lemma delete_range_loop_ok fuel start last : 0 <= start -> last < 0xffff0000 -> forall n warn low,
  n = start \/ start + 65536 <= n -> last / 65536 - n / 65536 + 1 < Z.of_nat fuel -> 0 < Z.of_nat fuel ->
  exists warn' low', delete_range_loop fuel n start last warn low = Some (warn', low') /\
    forall x, 0 <= x -> ~ (start <= x <= last) -> addr_lookup low' x = addr_lookup low x.
Proof.
  intros H0 H2. induction fuel as [|fuel IH]; intros n warn low Hn Hf Hf0; [lia|]. cbn [delete_range_loop].
  destruct (Z.leb_spec n last) as [Hle|Hgt]; [|eauto]. rewrite shiftr16. set (h := n / 65536) in *.
  pose proof (Z.div_mod n 65536 ltac:(lia)) as Dn. pose proof (Z.mod_pos_bound n 65536 ltac:(lia)). fold h in Dn.
  assert (Hh : h <= last / 65536) by (apply Z.div_le_mono; lia).
  assert (En : u32 (n + 65536) = n + 65536) by (unfold u32; rewrite wrap_u_small; lia). rewrite En.
  assert (Hd : (n + 65536) / 65536 = h + 1) by (replace (n + 65536) with (n + 1 * 65536) by lia; apply Z.div_add; lia).
  destruct (low !! h) as [a|] eqn:El; [|apply IH; lia].
  destruct (delete_in_block a (part_start n start) (part_end n last)) as [a' w] eqn:Ea.
  destruct (IH (n + 65536) (w || warn) (<[h := a']> low)) as (warn' & low' & E & Hx); [lia..|].
  exists warn', low'. split; [done|]. intros x Hx0 Hxo. rewrite (Hx x Hx0 Hxo), addr_lookup_insert.
  destruct (Z.eqb_spec (x / 65536) h) as [Eh|Eh]; [|done].
  unfold addr_lookup. rewrite shiftr16, land16, Eh, El. cbn.
  pose proof (delete_in_block_outside a (part_start n start) (part_end n last) (x mod 65536)) as Ho.
  rewrite Ea in Ho. apply Ho. intros Hin. apply Hxo.
  pose proof (Z.div_mod x 65536 ltac:(lia)) as Dx. rewrite Eh in Dx.
  pose proof (Z.mod_pos_bound x 65536 ltac:(lia)).
  unfold part_start, part_end in Hin. rewrite !land16, lor16 in Hin. fold h in Hin.
  pose proof (Z.div_mod last 65536 ltac:(lia)). pose proof (Z.mod_pos_bound last 65536 ltac:(lia)).
  pose proof (Z.div_mod start 65536 ltac:(lia)). pose proof (Z.mod_pos_bound start 65536 ltac:(lia)).
  assert (start / 65536 <= h) by (apply Z.div_le_mono; lia).
  assert (n <> start -> start / 65536 + 1 <= h).
  { intros Hne. replace (start / 65536 + 1) with ((start + 65536) / 65536); [apply Z.div_le_mono; lia|].
    replace (start + 65536) with (start + 1 * 65536) by lia. apply Z.div_add. lia. }
  destruct (Z.eqb_spec n start) as [->|Hne], (Z.gtb_spec (h * 65536 + 65535) last); lia.
Qed.

(** Deleting below 255.255.0.0 ends and changes no address outside the range. *)
Theorem geo_delete_outside low start last : 0 <= start -> start <= last -> last < 0xffff0000 ->
  exists warn low', ngx_http_geo_delete_range start last low = Some (warn, low') /\
    forall x, 0 <= x -> ~ (start <= x <= last) -> addr_lookup low' x = addr_lookup low x.
Proof.
  intros H0 H1 H2. unfold ngx_http_geo_delete_range.
  assert (Hfu : Z.of_nat range_fuel = 65537) by (unfold range_fuel; lia).
  revert Hfu. generalize range_fuel. intros fuel Hf.
  assert (last / 65536 <= 65535) by (apply Z.div_le_upper_bound; lia).
  assert (0 <= start / 65536) by (apply Z.div_pos; lia).
  apply delete_range_loop_ok; lia.
Qed.

(** The steps of the deletion are not aligned: a range whose end has a smaller low half than its start keeps its last
    part, without a warning. *)
Lemma deleted_tail_stays :
  (fun '(ok, low) => (ok, (fun '(warn, low') => (warn, addr_lookup low' 0x0a00ff00, addr_lookup low' 0x0a010000)) <$>
      ngx_http_geo_delete_range 0x0a00ff00 0x0a0100ff low)) <$> add_all [(0x0a00ff00, 0x0a0100ff, 1)] =
  Some (true, Some (false, None, Some 1)).
Proof. vm_compute. reflexivity. Qed.

(** A range that lies strictly inside another one is not deleted, and there is no warning either. *)
Lemma inner_range_stays :
  (fun '(ok, low) => (ok, (fun '(warn, low') => (warn, low' !! 0)) <$> ngx_http_geo_delete_range 12 15 low)) <$>
    add_all [(10, 20, 1)] = Some (true, Some (false, Some [mk_range 1 10 20])).
Proof. vm_compute. reflexivity. Qed.

(** An array that has lost its last range is left as it is when the temporary pool is destroyed: the
    variable of any address of the block then reads freed memory. *)
Lemma emptied_array_dangles :
  (fun '(_, low) => (fun '(_, low') =>
      ngx_http_geo_range_variable (Some (finish_block <$> low')) 0 (Client4 0)) <$>
    ngx_http_geo_delete_range 10 20 low) <$> add_all [(10, 20, 1)] = Some (Some None).
Proof. vm_compute. reflexivity. Qed.

(** ** Networks in the radix trees *)

Ltac cfields := cbv [update] in *; cbn [low default_value tree tree6 ranges] in *.

Section Cidr.
Variable pagesize : Z.
Hypothesis Hpage : node_size <= pagesize.

(** Adding a network replaces its value; it is refused only without memory. *)
Lemma cidr_add_in_ok {K} (o : ops K) depth valid readable prefix all
    `{!PrefixMap pagesize o depth valid readable prefix all} t m N key addr mask val :
  rep pagesize depth t m N -> valid addr -> valid mask -> readable key -> val <> NO_VALUE ->
  (prefix addr mask = [] -> is_Some (m !! []) -> ~ bare t) ->
  exists ok t', cidr_add_in o key addr mask val t = Some (ok, t') /\
    if (ok : bool) then rep pagesize depth t' (<[prefix addr mask := val]> m) N else exhausted pagesize t'.
Proof.
  intros Hr Ha Hm Hk Hv Hb. unfold cidr_add_in.
  assert (Hst : forall m', stored (prefix addr mask) val m' = <[prefix addr mask := val]> m').
  { intros m'. unfold stored. rewrite (proj2 (Z.eqb_neq _ _) Hv). done. }
  pose proof (insert_law pagesize t m N addr mask val Hr Ha Hm) as Hi. unfold inserted in Hi.
  destruct (m !! prefix addr mask) as [old|] eqn:Em.
  - mstep Hi. change (NGX_BUSY =? NGX_OK) with false. change (NGX_BUSY =? NGX_ERROR) with false. cbn iota.
    mstep (find_law pagesize t m N key Hr Hk).
    destruct (delete_law pagesize t m N addr mask Hr Ha Hm) as (rc & t1 & E1 & Hr1 & Hrc).
    { intros E. apply Hb; [done|]. rewrite <- E, Em. eauto. }
    mstep E1. destruct Hrc as [->|[_ Hno]]; [|congruence].
    change (NGX_OK =? NGX_ERROR) with false. cbn iota.
    pose proof (insert_law pagesize t1 _ N addr mask val Hr1 Ha Hm) as Hi2. unfold inserted in Hi2.
    rewrite lookup_delete_eq in Hi2. destruct Hi2 as (rc & t2 & E2 & [(-> & Hr2)|(-> & _ & _ & Hx)]); mstep E2.
    + eexists _, t2. split; [reflexivity|]. rewrite Hst, insert_delete_eq in Hr2. exact Hr2.
    + eexists _, t2. split; [reflexivity|exact Hx].
  - destruct Hi as (rc & t1 & E1 & [(-> & Hr1)|(-> & _ & _ & Hx)]); mstep E1.
    + eexists true, t1. split; [reflexivity|]. rewrite Hst in Hr1. exact Hr1.
    + eexists false, t1. split; [reflexivity|exact Hx].
Qed.

(** *** The contents of the two trees *)

Definition nets : Type := gmap path Z * gmap path Z.

Definition conf_rep (c : conf_t) (m4 m6 : gmap path Z) (N4 N6 : nat) : Prop :=
  ranges c = false /\ exists t t6, tree c = Some t /\ tree6 c = Some t6 /\
    rep pagesize 32 t m4 N4 /\ rep pagesize 128 t6 m6 N6.

(** One of the trees has no memory left. *)
Definition no_memory (c : conf_t) : Prop :=
  (exists t, tree c = Some t /\ exhausted pagesize t) \/ (exists t, tree6 c = Some t /\ exhausted pagesize t).

Lemma add4_ok c m4 m6 N4 N6 addr mask val : conf_rep c m4 m6 N4 N6 -> val <> NO_VALUE ->
  (prefix32 addr mask = [] -> m4 !! [] = None) ->
  exists ok c', in_tree (cidr_add_in (radix32 pagesize) addr addr mask val) c = Some (ok, c') /\
    if (ok : bool) then conf_rep c' (<[prefix32 addr mask := val]> m4) m6 N4 N6 else no_memory c'.
Proof.
  intros (Hrg & t & t6 & Et & E6 & Hr & Hr6) Hv Hb. unfold in_tree. rewrite Et. cbn [mbind option_bind].
  pose proof (radix32_prefix_map pagesize Hpage) as Hpm.
  destruct (cidr_add_in_ok (radix32 pagesize) 32 _ _ _ _ t m4 N4 addr addr mask val Hr I I I Hv) as (ok & t' & E & H).
  { intros Hp Hs. rewrite (Hb Hp) in Hs. destruct Hs; done. }
  rewrite E. eexists ok, _. split; [reflexivity|]. destruct ok; [split; [exact Hrg|exists t', t6; done]|left; exists t'; done].
Qed.

Lemma add6_ok c m4 m6 N4 N6 addr mask val : conf_rep c m4 m6 N4 N6 -> val <> NO_VALUE ->
  length addr = 16%nat -> length mask = 16%nat -> (prefix128 addr mask = [] -> m6 !! [] = None) ->
  exists ok c', in_tree6 (cidr_add_in (radix128 pagesize) (addr ++ mask) addr mask val) c = Some (ok, c') /\
    if (ok : bool) then conf_rep c' m4 (<[prefix128 addr mask := val]> m6) N4 N6 else no_memory c'.
Proof.
  intros (Hrg & t & t6 & Et & E6 & Hr & Hr6) Hv La Lm Hb. unfold in_tree6. rewrite E6. cbn [mbind option_bind].
  pose proof (radix128_prefix_map pagesize Hpage) as Hpm.
  destruct (cidr_add_in_ok (radix128 pagesize) 128 (fun k => 16 <= length k)%nat (fun k => 17 <= length k)%nat _ _
    t6 m6 N6 (addr ++ mask) addr mask val Hr6) as (ok & t' & E & H); [lia|lia|rewrite length_app; lia|done| |].
  { intros Hp Hs. rewrite (Hb Hp) in Hs. destruct Hs; done. }
  rewrite E. eexists ok, _. split; [reflexivity|]. destruct ok; [split; [exact Hrg|exists t, t'; done]|right; exists t'; done].
Qed.

Section Lines.
Variable supply supply6 : list Z.
Variable geo_value : list Z -> option Z.
Variable null_value : Z.
Variable include : list Z -> conf_t -> option (bool * conf_t).
Variable N4 N6 : nat.
Hypothesis Hsup : supplies pagesize supply N4.
Hypothesis Hsup6 : supplies pagesize supply6 N6.
Hypothesis HN4 : 2 ^ (prealloc_bits pagesize (-1) + 1) <= Z.of_nat N4.
Hypothesis HN6 : 2 ^ (prealloc_bits pagesize (-1) + 1) <= Z.of_nat N6.
Hypothesis Hvalue : forall text v, geo_value text = Some v -> v <> NO_VALUE.
Hypothesis Hnull : null_value <> NO_VALUE.

(** The contents of the trees after some lines; the trees are created by the first of them. *)
Definition conf_state (c : conf_t) (m : nets) : Prop :=
  conf_rep c m.1 m.2 N4 N6 \/ (ranges c = false /\ tree c = None /\ tree6 c = None /\ m = (∅, ∅)).

Lemma make_trees_ok c m : conf_state c m ->
  exists c', make_trees pagesize supply supply6 c = Some (true, c') /\ conf_rep c' m.1 m.2 N4 N6.
Proof.
  assert (Hb : 0 <= prealloc_bits pagesize (-1) <= 32).
  { unfold prealloc_bits. cbn. repeat case_match; lia. }
  intros [(Hrg & t & t6 & Et & E6 & Hr & Hr6)|(Hrg & Et & E6 & ->)]; unfold make_trees; rewrite Et; cbn [make_tree].
  - cbn [mbind option_bind]. cfields. rewrite E6. cbn [make_tree mbind option_bind]. cfields. eexists. split; [reflexivity|]. split; [exact Hrg|]. exists t, t6. done.
  - destruct (create_ok pagesize Hpage supply N4 (-1) Hsup Hb HN4) as (t & -> & Hr & _).
    cbn [mbind option_bind]. cfields. rewrite E6. cbn [make_tree].
    destruct (create_ok pagesize Hpage supply6 N6 (-1) Hsup6 Hb HN6) as (t6 & -> & _ & Hr6).
    eexists. split; [reflexivity|]. split; [exact Hrg|]. exists t, t6. done.
Qed.

(** What a line asks for. *)
Inductive effect : Type :=
  | Set4 (u : path) (v : Z)
  | Set6 (u : path) (v : Z)
  | SetBoth (v : Z)
  | Del4 (u : path)
  | Del6 (u : path)
  | Reject.

Definition line_effect (value0 value1 : list Z) : effect :=
  if decide (value0 = bs "default") then
    match geo_value value1 with Some v => SetBoth v | None => Reject end
  else
    let del := bool_decide (value0 = bs "delete") in
    match ngx_http_geo_cidr_value (if del then value1 else value0) with
    | None => Reject
    | Some (cidr_in addr mask) =>
        let u := prefix32 (ntohl addr) (ntohl mask) in
        if del then Del4 u else match geo_value value1 with Some v => Set4 u v | None => Reject end
    | Some (cidr_in6 addr mask) =>
        let u := prefix128 addr mask in
        if del then Del6 u else match geo_value value1 with Some v => Set6 u v | None => Reject end
    end.

Definition apply_effect (e : effect) (m : nets) : option nets :=
  match e with
  | Set4 u v => Some (<[u := v]> m.1, m.2)
  | Set6 u v => Some (m.1, <[u := v]> m.2)
  | SetBoth v => Some (<[[] := v]> m.1, <[[] := v]> m.2)
  | Del4 u => Some (delete u m.1, m.2)
  | Del6 u => Some (m.1, delete u m.2)
  | Reject => None
  end.

(** The network of length 0 is set once and not deleted. *)
Definition careful (e : effect) (m : nets) : Prop :=
  match e with
  | Set4 u _ => u = [] -> m.1 !! [] = None
  | Set6 u _ => u = [] -> m.2 !! [] = None
  | SetBoth _ => m.1 !! [] = None /\ m.2 !! [] = None
  | Del4 u | Del6 u => u <> []
  | Reject => True
  end.

Lemma length_mask6 addr shift :
  length (mask6 addr shift).1.1 = length addr /\ length (mask6 addr shift).1.2 = length addr.
Proof.
  revert shift. induction addr as [|a addr IH]; intros shift; [done|]. cbn [mask6]. cbv zeta.
  specialize (IH (shift - (if shift >? 8 then 8 else shift))).
  destruct (mask6 addr _) as [[x y] z]. cbn in *. lia.
Qed.

(** The networks of texts have addresses of 16 bytes. *)
Lemma cidr_value6 net addr mask : ngx_http_geo_cidr_value net = Some (cidr_in6 addr mask) ->
  length addr = 16%nat /\ length mask = 16%nat.
Proof.
  unfold ngx_http_geo_cidr_value. case_decide; [done|]. unfold ngx_ptocidr.
  repeat (case_match; try done).
  all: intros E; repeat match goal with H : (_, _) = (_, _) |- _ => injection H as <- <- end; simplify_eq.
  all: repeat match goal with H : ngx_inet6_addr _ = Some _ |- _ => apply inet6_addr_bytes in H as [_ H] end.
  all: try done.
  all: match goal with H : mask6 ?a ?s = _ |- _ => pose proof (length_mask6 a s) as L; rewrite H in L; cbn in L; lia end.
Qed.

Lemma del4_ok c m4 m6 addr mask : conf_rep c m4 m6 N4 N6 -> prefix32 addr mask <> [] ->
  exists rc c', in_tree (ngx_radix32tree_delete addr mask) c = Some (rc, c') /\
    conf_rep c' (delete (prefix32 addr mask) m4) m6 N4 N6.
Proof.
  intros (Hrg & t & t6 & Et & E6 & Hr & Hr6) Hne. unfold in_tree. rewrite Et. cbn [mbind option_bind].
  destruct (radix32_prefix_map pagesize Hpage) as [_ D _].
  destruct (D t m4 N4 addr mask Hr I I ltac:(done)) as (rc & t' & E & Hr' & _).
  cbn [p_delete radix32] in E. rewrite E. eexists rc, _. split; [reflexivity|]. split; [exact Hrg|]. exists t', t6. done.
Qed.

Lemma del6_ok c m4 m6 addr mask : conf_rep c m4 m6 N4 N6 -> prefix128 addr mask <> [] ->
  length addr = 16%nat -> length mask = 16%nat ->
  exists rc c', in_tree6 (ngx_radix128tree_delete addr mask) c = Some (rc, c') /\
    conf_rep c' m4 (delete (prefix128 addr mask) m6) N4 N6.
Proof.
  intros (Hrg & t & t6 & Et & E6 & Hr & Hr6) Hne La Lm. unfold in_tree6. rewrite E6. cbn [mbind option_bind].
  destruct (radix128_prefix_map pagesize Hpage) as [_ D _].
  destruct (D t6 m6 N6 addr mask Hr6 ltac:(lia) ltac:(lia) ltac:(done)) as (rc & t' & E & Hr' & _).
  cbn [p_delete radix128] in E. rewrite E. eexists rc, _. split; [reflexivity|]. split; [exact Hrg|]. exists t, t'. done.
Qed.

Definition geo_cidr : list Z -> list Z -> conf_t -> option (bool * conf_t) :=
  ngx_http_geo_cidr pagesize supply supply6 geo_value.

(** A line does to the contents what it asks for, and is refused only if it is invalid or there is no
    memory. *)
Lemma geo_cidr_ok value0 value1 c m : conf_state c m -> careful (line_effect value0 value1) m ->
  exists ok c', geo_cidr value0 value1 c = Some (ok, c') /\
    if (ok : bool) then exists m', apply_effect (line_effect value0 value1) m = Some m' /\ conf_rep c' m'.1 m'.2 N4 N6
    else apply_effect (line_effect value0 value1) m = None \/ no_memory c'.
Proof.
  intros Hc Hcare. destruct (make_trees_ok c m Hc) as (c1 & E1 & Hr). unfold geo_cidr, ngx_http_geo_cidr.
  rewrite E1. cbn [mbind option_bind negb]. unfold line_effect in *. unfold ngx_http_geo_cidr_add.
  case_decide as Hdef.
  - destruct (geo_value value1) as [v|] eqn:Ev; cbn [mbind option_bind].
    2:{ eexists false, _. split; [reflexivity|]. by left. }
    pose proof (Hvalue _ _ Ev) as Hv. destruct Hcare as [Hc4 Hc6].
    destruct (add4_ok c1 m.1 m.2 N4 N6 0 0 v Hr Hv (fun _ => Hc4)) as (ok & c2 & E2 & H2). rewrite E2. cbn [mbind option_bind].
    destruct ok; cbn [negb].
    + change (prefix32 0 0) with (@nil bool) in H2.
      destruct (add6_ok c2 _ m.2 N4 N6 (repeat 0 16) (repeat 0 16) v H2 Hv eq_refl eq_refl (fun _ => Hc6)) as (ok & c3 & E3 & H3).
      rewrite E3. exists ok, c3. split; [done|]. destruct ok; [|by right].
      change (prefix128 (repeat 0 16) (repeat 0 16)) with (@nil bool) in H3. eexists. split; [reflexivity|exact H3].
    + eexists false, _. split; [reflexivity|]. by right.
  - set (del := bool_decide (value0 = bs "delete")) in *.
    destruct (ngx_http_geo_cidr_value (if del then value1 else value0)) as [[addr mask|addr mask]|] eqn:Ec.
    3:{ eexists false, _. split; [reflexivity|]. by left. }
    all: destruct del; cbn [careful apply_effect] in *.
    + destruct (del4_ok c1 m.1 m.2 _ _ Hr Hcare) as (rc & c2 & E2 & H2). rewrite E2.
      eexists true, c2. split; [reflexivity|]. eexists. split; [reflexivity|exact H2].
    + destruct (geo_value value1) as [v|] eqn:Ev; [|eexists false, _; split; [reflexivity|by left]].
      cbn [careful] in Hcare.
      destruct (add4_ok c1 m.1 m.2 N4 N6 _ _ v Hr (Hvalue _ _ Ev) Hcare) as (ok & c2 & E2 & H2). rewrite E2.
      exists ok, c2. split; [done|]. destruct ok; [|by right]. eexists. split; [reflexivity|exact H2].
    + destruct (cidr_value6 _ _ _ Ec) as [La Lm].
      destruct (del6_ok c1 m.1 m.2 _ _ Hr Hcare La Lm) as (rc & c2 & E2 & H2). rewrite E2.
      eexists true, c2. split; [reflexivity|]. eexists. split; [reflexivity|exact H2].
    + destruct (cidr_value6 _ _ _ Ec) as [La Lm].
      destruct (geo_value value1) as [v|] eqn:Ev; [|eexists false, _; split; [reflexivity|by left]].
      cbn [careful] in Hcare.
      destruct (add6_ok c1 m.1 m.2 N4 N6 _ _ v Hr (Hvalue _ _ Ev) La Lm Hcare) as (ok & c2 & E2 & H2). rewrite E2.
      exists ok, c2. split; [done|]. destruct ok; [|by right]. eexists. split; [reflexivity|exact H2].
Qed.

(** *** The end of the block and the variable *)

(** The value of the network of length 0, unless a line has set it. *)
Definition with_null (m : gmap path Z) : gmap path Z :=
  match m !! [] with Some _ => m | None => <[[] := null_value]> m end.

Lemma with_null_lookup m p :
  with_null m !! p = if decide (p = []) then Some (default null_value (m !! [])) else m !! p.
Proof.
  unfold with_null. destruct (m !! []) as [v|] eqn:E; case_decide as D; try done; [by subst| |].
  - subst. apply lookup_insert_eq.
  - apply lookup_insert_ne. done.
Qed.

Lemma longest_null m key k :
  longest_upto (with_null m) key k = Some (default null_value (longest_upto m key k)).
Proof.
  induction k as [|k IH]; cbn [longest_upto]; rewrite with_null_lookup.
  - rewrite decide_True by apply take_0. rewrite take_0. destruct (m !! []); done.
  - case_decide as D; [|destruct (m !! take (S k) key); [done|apply IH]].
    rewrite D. destruct (m !! []) as [v|] eqn:E; [done|]. destruct key; [|discriminate].
    enough (Hn : longest_upto m [] k = None) by (rewrite Hn; done).
    clear - E. induction k as [|k IH]; cbn [longest_upto]; rewrite take_nil, E; [done|exact IH].
Qed.

Lemma insert_null_ok {K} (o : ops K) depth valid readable prefix all
    `{!PrefixMap pagesize o depth valid readable prefix all} t m N key :
  rep pagesize depth t m N -> valid key -> prefix key key = [] ->
  exists rc t', p_insert o key key null_value t = Some (rc, t') /\ rc <> NGX_ERROR /\
    rep pagesize depth t' (with_null m) N.
Proof.
  intros Hr Hv Hp. pose proof (insert_law pagesize t m N key key null_value Hr Hv Hv) as Hi.
  unfold inserted in Hi. rewrite Hp in Hi. unfold with_null. destruct (m !! []) as [v|].
  - exists NGX_BUSY, t. done.
  - destruct Hi as (rc & t' & E & [(-> & Hr')|(_ & Hne & _)]); [|done].
    exists NGX_OK, t'. split; [done|]. split; [done|]. unfold stored in Hr'.
    rewrite (proj2 (Z.eqb_neq _ _) Hnull) in Hr'. done.
Qed.

Lemma block_end_ok c m : conf_state c m ->
  exists t t6, geo_block_end pagesize supply supply6 null_value c = Some (Some (geo_trees t t6)) /\
    rep pagesize 32 t (with_null m.1) N4 /\ rep pagesize 128 t6 (with_null m.2) N6.
Proof.
  intros Hc. assert (Hrg : ranges c = false) by (destruct Hc as [(H & _)|(H & _)]; exact H).
  destruct (make_trees_ok c m Hc) as (c1 & E1 & (_ & t & t6 & Et & E6 & Hr & Hr6)).
  unfold geo_block_end. rewrite Hrg, E1. cbn [mbind option_bind negb]. unfold in_tree at 1. rewrite Et. cbn [mbind option_bind].
  pose proof (radix32_prefix_map pagesize Hpage) as Hpm. pose proof (radix128_prefix_map pagesize Hpage) as Hpm6.
  destruct (insert_null_ok (radix32 pagesize) 32 _ _ _ _ t m.1 N4 0 Hr I eq_refl) as (rc & t' & E & Hrc & Hr').
  cbn [p_insert radix32] in E. rewrite E. cbn [mbind option_bind]. rewrite (proj2 (Z.eqb_neq _ _) Hrc). unfold in_tree6. cfields. rewrite E6.
  cbn [mbind option_bind].
  destruct (insert_null_ok (radix128 pagesize) 128 (fun k => 16 <= length k)%nat _ _ _ t6 m.2 N6 (repeat 0 16) Hr6
    ltac:(cbn; lia) eq_refl) as (rc6 & t6' & E' & Hrc' & Hr6').
  cbn [p_insert radix128] in E'. rewrite E'. cbn [mbind option_bind]. rewrite (proj2 (Z.eqb_neq _ _) Hrc'). cfields. cbn [mbind option_bind].
  exists t', t6'. done.
Qed.

(** The networks and the bits by which a client is searched. *)
Definition client_value (m : nets) (client : client_t) : Z :=
  default null_value
    match client with
    | NoClient => longest_match m.1 (bits32 INADDR_NONE)
    | Client4 a => longest_match m.1 (bits32 (ntohl a))
    | Client6 p => if v4mapped p then longest_match m.1 (bits32 (mapped_addr p)) else longest_match m.2 (bits128 p)
    end.

Definition client_ok (client : client_t) : Prop :=
  match client with Client6 p => length p = 20%nat | _ => True end.

Lemma variable_ok t t6 m client : rep pagesize 32 t (with_null m.1) N4 -> rep pagesize 128 t6 (with_null m.2) N6 ->
  client_ok client -> ngx_http_geo_cidr_variable t t6 client = Some (client_value m client).
Proof.
  intros Hr Hr6 Hc. destruct (radix32_prefix_map pagesize Hpage) as [_ _ F].
  destruct (radix128_prefix_map pagesize Hpage) as [_ _ F6].
  assert (H4 : forall x, fst <$> ngx_radix32tree_find x t = Some (default null_value (longest_match m.1 (bits32 x)))).
  { intros x. pose proof (F t _ N4 x Hr I) as E. cbn [p_find radix32] in E. rewrite E.
    unfold longest_match at 1. rewrite longest_null. done. }
  unfold ngx_http_geo_cidr_variable, client_value. destruct client as [a|p|]; [apply H4| |apply H4].
  destruct (v4mapped p); [apply H4|]. cbn in Hc.
  pose proof (F6 t6 _ N6 p Hr6 ltac:(cbn; lia)) as E. cbn [p_find radix128] in E. rewrite E.
  unfold longest_match at 1. rewrite longest_null. done.
Qed.

(** *** Blocks of networks *)

Definition geo_line : list (list Z) -> conf_t -> option (bool * conf_t) :=
  ngx_http_geo pagesize supply supply6 geo_value include.

(** The lines of a block, up to the first that is refused. *)
Fixpoint run_lines (lines : list (list Z * list Z)) (c : conf_t) : option (bool * conf_t) :=
  match lines with
  | [] => Some (true, c)
  | (value0, value1) :: lines' =>
      '(ok, c) ← geo_line [value0; value1] c;
      if (ok : bool) then run_lines lines' c else Some (false, c)
  end.

(** What they ask for. *)
Fixpoint spec_lines (lines : list (list Z * list Z)) (m : nets) : option nets :=
  match lines with
  | [] => Some m
  | (value0, value1) :: lines' => m ← apply_effect (line_effect value0 value1) m; spec_lines lines' m
  end.

Fixpoint careful_lines (lines : list (list Z * list Z)) (m : nets) : Prop :=
  match lines with
  | [] => True
  | (value0, value1) :: lines' =>
      value0 <> bs "include" /\ value0 <> bs "proxy" /\ careful (line_effect value0 value1) m /\
      match apply_effect (line_effect value0 value1) m with Some m' => careful_lines lines' m' | None => True end
  end.

Lemma run_lines_ok lines c m : conf_state c m -> careful_lines lines m ->
  exists ok c', run_lines lines c = Some (ok, c') /\
    if (ok : bool) then exists m', spec_lines lines m = Some m' /\ conf_state c' m'
    else spec_lines lines m = None \/ no_memory c'.
Proof.
  revert c m. induction lines as [|[value0 value1] lines IH]; intros c m Hc Hcare; cbn [run_lines spec_lines].
  { exists true, c. split; [done|]. exists m. done. }
  cbn [careful_lines] in Hcare. destruct Hcare as (Hi & Hp & Hcl & Hrest).
  assert (Hrg : ranges c = false) by (destruct Hc as [(H & _)|(H & _)]; exact H).
  unfold geo_line, ngx_http_geo. rewrite !decide_False, Hrg by done. fold (geo_cidr value0 value1 c).
  destruct (geo_cidr_ok value0 value1 c m Hc Hcl) as (ok & c1 & E & H). rewrite E. cbn [mbind option_bind].
  destruct ok.
  - destruct H as (m' & Em & Hr). rewrite Em in Hrest |- *. cbn [mbind option_bind]. apply IH; [by left|done].
  - exists false, c1. split; [done|]. destruct H as [H|H]; [left; rewrite H; done|by right].
Qed.

(** C28: the value of a [geo] variable is that of the most specific network: after a block of lines that
    is accepted, the variable of a client has the value of the longest network that contains its
    address, networks being replaced and deleted by later lines, and the default of the block or the
    empty value when there is none; an IPv4 address mapped to IPv6 counts as IPv4.  A block is refused only for an
    invalid line or for lack of memory.  The network of length 0 is to be set once and not deleted. *)
Theorem geo_most_specific lines (Hcare : careful_lines lines (∅, ∅)) :
  exists ok c, run_lines lines conf_zero = Some (ok, c) /\
    if (ok : bool) then
      exists m t t6, spec_lines lines (∅, ∅) = Some m /\
        geo_block_end pagesize supply supply6 null_value c = Some (Some (geo_trees t t6)) /\
        forall client, client_ok client -> ngx_http_geo_cidr_variable t t6 client = Some (client_value m client)
    else spec_lines lines (∅, ∅) = None \/ no_memory c.
Proof.
  destruct (run_lines_ok lines conf_zero (∅, ∅)) as (ok & c & E & H); [by right|done|].
  exists ok, c. split; [done|]. destruct ok; [|exact H]. destruct H as (m & Em & Hc).
  destruct (block_end_ok c m Hc) as (t & t6 & Eb & Hr & Hr6).
  exists m, t, t6. split; [done|]. split; [done|]. intros client Hcl. apply variable_ok; done.
Qed.
End Lines.
End Cidr.

(** A default, two networks of which one is inside the other, and one of IPv6; the value of a text is the number of
    its first character. *)
Definition demo_value (text : list Z) : option Z := u8 <$> head text.
Definition demo_lines : list (list Z * list Z) :=
  [(bs "default", bs "d"); (bs "10.0.0.0/8", bs "a"); (bs "10.1.0.0/16", bs "b"); (bs "2001:db8::/32", bs "c");
   (bs "delete", bs "10.1.2.0/24"); (bs "10.0.0.0/8", bs "e")].

Lemma geo_most_specific_witness :
  let include := fun _ c => Some (false, c) in
  exists c m t t6,
    run_lines 4096 [4096; 8192] [16384; 20480] demo_value include demo_lines conf_zero = Some (true, c) /\
    spec_lines demo_value demo_lines (∅, ∅) = Some m /\
    geo_block_end 4096 [4096; 8192] [16384; 20480] 1 c = Some (Some (geo_trees t t6)) /\
    ngx_http_geo_cidr_variable t t6 (Client4 (ntohl 0x0a010203)) = Some "b"%ch /\
    ngx_http_geo_cidr_variable t t6 (Client4 (ntohl 0x0a020203)) = Some "e"%ch /\
    ngx_http_geo_cidr_variable t t6 NoClient = Some "d"%ch.
Proof.
  intros include.
  assert (Hsup : forall p, p = 4096 \/ p = 16384 -> supplies 4096 [p; p + 4096] 256).
  { intros p [-> | ->]; (split; [apply (bool_decide_unpack _); vm_compute; exact I|]);
      (split; [apply (bool_decide_unpack _); vm_compute; exact I|reflexivity]). }
  assert (Hlook : option_map (fun m => (client_value 1 m (Client4 (ntohl 0x0a010203)),
      client_value 1 m (Client4 (ntohl 0x0a020203)), client_value 1 m NoClient)) (spec_lines demo_value demo_lines (∅, ∅)) =
    Some ("b"%ch, "e"%ch, "d"%ch)) by (vm_compute; reflexivity).
  assert (Hrun : option_map fst (run_lines 4096 [4096; 8192] [16384; 20480] demo_value include demo_lines conf_zero) =
    Some true) by (vm_compute; reflexivity).
  destruct (geo_most_specific 4096 ltac:(vm_compute; discriminate) [4096; 8192] [16384; 20480] demo_value 1 include 256 256
    (Hsup 4096 (or_introl eq_refl)) (Hsup 16384 (or_intror eq_refl)) ltac:(vm_compute; discriminate)
    ltac:(vm_compute; discriminate)) with (lines := demo_lines) as (ok & c & E & H).
  - intros text v. unfold demo_value. destruct text as [|x text]; [discriminate|]. intros [= <-].
    pose proof (wrap_u_range 8 x ltac:(lia)). unfold u8, NO_VALUE. lia.
  - discriminate.
  - vm_compute. repeat split; discriminate.
  - rewrite E in Hrun. injection Hrun as ->. destruct H as (m & t & t6 & Em & Eb & Hv).
    rewrite Em in Hlook. injection Hlook as H1 H2 H3.
    exists c, m, t, t6. split; [done|]. split; [done|]. split; [done|].
    split; [|split]; rewrite Hv by exact I; congruence.
Defined.

End Geo.
