(* ===== verification/ClientAddr.v ===== *)
(** * The address of the client

    Where the address of a client comes from and what is allowed to it: [ngx_http_get_forwarded_addr]
    ([src/src/http/ngx_http_core_module.c]), which reads the address behind trusted proxies from a header, the realip
    module, which gives it to the connection, the access module, whose rules test it, and the address of the geo
    module.  The addresses and the blocks are those of [NgxInet]. *)

From stdpp Require Import gmap.
From S2P Require Import Prelude NgxString HeaderLine NgxInet Geo.

Module ClientAddr.
Import NgxInet.

Definition NGX_HTTP_FORBIDDEN : Z := 403.
Definition NGX_HTTP_INTERNAL_SERVER_ERROR : Z := 500.

(** ** Blocks and addresses *)

(** The family and the address that are compared: an IPv6 address that contains an IPv4 address is taken as that. *)
Inductive view_t : Type := Inet (inaddr : Z) | Inet6 (inaddr6 : list Z) | Unix | OtherFamily.

Definition view (sa : sockaddr) : view_t :=
  match sa with
  | sockaddr_in _ addr => Inet addr
  | sockaddr_in6 _ p => if Geo.v4mapped p then Inet (htonl (Geo.mapped_addr p)) else Inet6 p
  | sockaddr_un _ => Unix
  | sockaddr_other _ => OtherFamily
  end.

(** An [ngx_cidr_t], whose family may also be [AF_UNIX] *)
Inductive proxy_t : Type := Block (c : cidr_t) | UnixSockets.

(** The loop over the bytes of an IPv6 address *)
Fixpoint match6 (p mask addr : list Z) : bool :=
  match p, mask, addr with
  | a :: p', m :: mask', b :: addr' => if negb (Z.land a m =? b) then false else match6 p' mask' addr'
  | _, _, _ => true
  end.

Definition in_block (v : view_t) (c : cidr_t) : bool :=
  match v, c with
  | Inet inaddr, cidr_in addr mask => Z.land inaddr mask =? addr
  | Inet6 p, cidr_in6 addr mask => match6 p mask addr
  | _, _ => false
  end.

Definition is_proxy (v : view_t) (p : proxy_t) : bool :=
  match p with Block c => in_block v c | UnixSockets => match v with Unix => true | _ => false end end.

(** Whether the loop over the proxies finds one that contains the address *)
Definition trusted (proxies : list proxy_t) (sa : sockaddr) : bool := existsb (is_proxy (view sa)) proxies.

(** ** Forwarded addresses *)

(** An [ngx_addr_t], without its text *)
Abbreviation address := (sockaddr * Z)%type.

(** The value of a header, and the byte of memory in front of it *)
Record value_t : Type := mk_value { before : Z; text : list Z }.

Definition is_sep (c : Z) : bool := (c =? " "%ch) || (c =? ","%ch).

(** The first loop, from [p] down to the start: the last byte that is not a separator *)
Fixpoint skip_seps (xff : list Z) (p : nat) : nat :=
  match p with
  | O => O
  | S p' => if is_sep (nth p xff 0) then skip_seps xff p' else p
  end.

(** The second loop: the first byte of the address that ends at [p] *)
Fixpoint token_start (xff : list Z) (p : nat) : nat :=
  match p with
  | O => O
  | S p' => if is_sep (nth p xff 0) then S p else token_start xff p'
  end.

Section Forwarded.
(** Whether the pool has memory *)
Variable mem : bool.
Variable proxies : list proxy_t.

(** [ngx_http_get_forwarded_addr_internal] on the first [xfflen] bytes of the value; for an empty value the
    address is the byte in front of it. *)
Fixpoint forwarded_internal (fuel : nat) (addr : address) (xff : value_t) (xfflen : nat) (recursive : bool)
    : option (Z * address) :=
  match fuel with
  | O => None
  | S fuel' =>
      if trusted proxies addr.1 then
        match xfflen with
        | O =>
            match ngx_parse_addr mem [before xff] with
            | (rc, Some paddr) => if rc =? NGX_OK then Some (NGX_OK, paddr) else Some (NGX_DECLINED, addr)
            | (_, None) => Some (NGX_DECLINED, addr)
            end
        | S last =>
            let e := skip_seps (text xff) last in
            let p := token_start (text xff) e in
            match ngx_parse_addr mem (take (S e - p) (drop p (text xff))) with
            | (rc, Some paddr) =>
                if negb (rc =? NGX_OK) then Some (NGX_DECLINED, addr)
                else if recursive && (0 <? p)%nat then
                  '(rc, addr) ← forwarded_internal fuel' paddr xff (p - 1) true;
                  if rc =? NGX_DECLINED then Some (NGX_DONE, addr) else Some (rc, addr)
                else Some (NGX_OK, paddr)
            | (_, None) => Some (NGX_DECLINED, addr)
            end
        end
      else Some (NGX_DECLINED, addr)
  end.

Definition forwarded_addr_internal (addr : address) (xff : value_t) (recursive : bool) : option (Z * address) :=
  forwarded_internal (S (length (text xff))) addr xff (length (text xff)) recursive.

(** The loop of [ngx_http_get_forwarded_addr] over the headers, from the last to the first; [rc] is the code so far *)
Fixpoint forwarded_headers (rc : Z) (found : bool) (addr : address) (hs : list value_t) (recursive : bool)
    : option (Z * address) :=
  match hs with
  | [] => Some (rc, addr)
  | h :: hs' =>
      '(rc, addr) ← forwarded_addr_internal addr h recursive;
      if negb recursive then Some (rc, addr)
      else if (rc =? NGX_DECLINED) && found then Some (NGX_DONE, addr)
      else if negb (rc =? NGX_OK) then Some (rc, addr)
      else forwarded_headers rc true addr hs' recursive
  end.

(** [ngx_http_get_forwarded_addr]: a single value, or an array of headers *)
Definition ngx_http_get_forwarded_addr (addr : address) (src : value_t + list value_t) (recursive : bool)
    : option (Z * address) :=
  match src with
  | inl value => forwarded_addr_internal addr value recursive
  | inr headers => forwarded_headers NGX_DECLINED false addr (rev headers) recursive
  end.
End Forwarded.

(** ** The realip module *)

Inductive realip_type : Type := XREALIP | XFWD | HEADER | PROXY.

(** [ngx_http_realip_loc_conf_t] *)
Record realip_conf : Type := mk_realip {
  from : option (list proxy_t);
  type : realip_type;
  header_hash : Z;
  header : list Z;
  recursive : bool
}.

(** What the module uses of a connection *)
Record conn_t : Type := mk_conn { c_sockaddr : sockaddr; c_socklen : Z; c_addr_text : list Z }.

(** An element of [headers_in.headers]: hash, lower-case key and value *)
Record table_elt : Type := mk_elt { h_hash : Z; lowcase_key : list Z; h_value : value_t }.

(** What the module uses of a request; [saved] is its context with the connection's own address. *)
Record req_t : Type := mk_req {
  x_real_ip : option value_t;
  x_forwarded_for : list value_t;
  proxy_protocol_addr : value_t;
  headers : list table_elt;
  conn : conn_t;
  ctx : bool;
  saved : option conn_t
}.

#[export] Instance eta_req : Eta req_t := fun r => mk_req (x_real_ip r) (x_forwarded_for r) (proxy_protocol_addr r)
  (headers r) (conn r) (ctx r) (saved r).

(** The loop over the headers of a request *)
Fixpoint find_header (hash : Z) (key : list Z) (hs : list table_elt) : option value_t :=
  match hs with
  | [] => None
  | h :: hs' =>
      if (hash =? h_hash h) && bool_decide (key = lowcase_key h) then Some (h_value h) else find_header hash key hs'
  end.

(** The header that is read, or [None] for [NGX_DECLINED] *)
Definition realip_source (cf : realip_conf) (r : req_t) : option (value_t + list value_t) :=
  match type cf with
  | XREALIP => match x_real_ip r with None => None | Some v => Some (inl v) end
  | XFWD => match x_forwarded_for r with [] => None | hs => Some (inr hs) end
  | PROXY => match text (proxy_protocol_addr r) with [] => None | _ => Some (inl (proxy_protocol_addr r)) end
  | HEADER => match find_header (header_hash cf) (header cf) (headers r) with None => None | Some v => Some (inl v) end
  end.

Section Realip.
Variable mem : bool.
(** The allocations of [ngx_http_realip_set_addr] that succeed: of the handler and of the text *)
Variable cleanup_mem text_mem : bool.
(** [NGX_SOCKADDR_STRLEN] bytes are given to [ngx_sock_ntop] *)
Variable sock_ntop : sockaddr -> Z -> list Z.

(** [ngx_http_realip_set_addr] *)
Definition ngx_http_realip_set_addr (r : req_t) (addr : address) : Z * req_t :=
  if negb cleanup_mem then (NGX_HTTP_INTERNAL_SERVER_ERROR, r)
  else
    let r := r <| ctx := true |> in
    let name := sock_ntop addr.1 addr.2 in
    match name with
    | [] => (NGX_HTTP_INTERNAL_SERVER_ERROR, r)
    | _ =>
        if negb text_mem then (NGX_HTTP_INTERNAL_SERVER_ERROR, r)
        else (NGX_DECLINED, r <| saved := Some (conn r) |> <| conn := mk_conn addr.1 addr.2 name |>)
    end.

(** [ngx_http_realip_handler] *)
Definition ngx_http_realip_handler (cf : realip_conf) (r : req_t) : option (Z * req_t) :=
  if ctx r then Some (NGX_DECLINED, r)
  else
    match from cf with
    | None => Some (NGX_DECLINED, r)
    | Some proxies =>
        match realip_source cf r with
        | None => Some (NGX_DECLINED, r)
        | Some src =>
            '(rc, addr) ← ngx_http_get_forwarded_addr mem proxies (c_sockaddr (conn r), c_socklen (conn r)) src (recursive cf);
            if negb (rc =? NGX_DECLINED) then Some (ngx_http_realip_set_addr r addr)
            else Some (NGX_DECLINED, r)
        end
    end.

(** [ngx_http_realip_cleanup], when the request's pool is destroyed; its handler is set last. *)
Definition ngx_http_realip_cleanup (r : req_t) : req_t :=
  match saved r with Some c => r <| conn := c |> | None => r end.
End Realip.

(** [ngx_http_realip_from]: the directive [set_real_ip_from] *)
Definition ngx_http_realip_from (arg : list Z) (fr : option (list proxy_t)) : bool * option (list proxy_t) :=
  let l := default [] fr in
  if bool_decide (arg = bs "unix:") then (true, Some (l ++ [UnixSockets]))
  else
    match ngx_ptocidr arg with
    | (rc, Some c) => if rc =? NGX_ERROR then (false, fr) else (true, Some (l ++ [Block c]))
    | (_, None) => (false, fr)
    end.

(** [ngx_http_realip]: the directive [real_ip_header]; the name is lowered in place *)
Definition ngx_http_realip (arg : list Z) (cf : realip_conf) : realip_conf :=
  if bool_decide (arg = bs "X-Real-IP") then mk_realip (from cf) XREALIP (header_hash cf) (header cf) (recursive cf)
  else if bool_decide (arg = bs "X-Forwarded-For") then mk_realip (from cf) XFWD (header_hash cf) (header cf) (recursive cf)
  else if bool_decide (arg = bs "proxy_protocol") then mk_realip (from cf) PROXY (header_hash cf) (header cf) (recursive cf)
  else let '(low, hash) := HeaderLine.ngx_hash_strlow arg in mk_realip (from cf) HEADER hash low (recursive cf).

(** ** The access module *)

(** [ngx_http_access_rule_t] and its relatives, with [deny] *)
Record access_conf : Type := mk_access {
  rules : option (list (Z * Z * bool));
  rules6 : option (list (list Z * list Z * bool));
  rules_un : option (list bool)
}.

Definition access_none : access_conf := mk_access None None None.

(** [ngx_http_access_found] *)
Definition ngx_http_access_found (deny : bool) : Z := if deny then NGX_HTTP_FORBIDDEN else NGX_OK.

(** [ngx_http_access_inet], [ngx_http_access_inet6], [ngx_http_access_unix] *)
Fixpoint ngx_http_access_inet (rs : list (Z * Z * bool)) (addr : Z) : Z :=
  match rs with
  | [] => NGX_DECLINED
  | (mask, a, deny) :: rs' =>
      if Z.land addr mask =? a then ngx_http_access_found deny else ngx_http_access_inet rs' addr
  end.

Fixpoint ngx_http_access_inet6 (rs : list (list Z * list Z * bool)) (p : list Z) : Z :=
  match rs with
  | [] => NGX_DECLINED
  | (mask, a, deny) :: rs' => if match6 p mask a then ngx_http_access_found deny else ngx_http_access_inet6 rs' p
  end.

Definition ngx_http_access_unix (rs : list bool) : Z :=
  match rs with [] => NGX_DECLINED | deny :: _ => ngx_http_access_found deny end.

(** [ngx_http_access_handler] *)
Definition ngx_http_access_handler (cf : access_conf) (sa : sockaddr) : Z :=
  match sa with
  | sockaddr_in _ addr => match rules cf with Some rs => ngx_http_access_inet rs addr | None => NGX_DECLINED end
  | sockaddr_in6 _ p =>
      match rules cf with
      | Some rs =>
          if Geo.v4mapped p then ngx_http_access_inet rs (htonl (Geo.mapped_addr p))
          else match rules6 cf with Some rs6 => ngx_http_access_inet6 rs6 p | None => NGX_DECLINED end
      | None => match rules6 cf with Some rs6 => ngx_http_access_inet6 rs6 p | None => NGX_DECLINED end
      end
  | sockaddr_un _ => match rules_un cf with Some rs => ngx_http_access_unix rs | None => NGX_DECLINED end
  | sockaddr_other _ => NGX_DECLINED
  end.

(** What the argument of a rule denotes: everything, or a block; [None] is an error. *)
Definition rule_arg (arg : list Z) : option (option proxy_t) :=
  if bool_decide (arg = bs "all") then Some None
  else if bool_decide (arg = bs "unix:") then Some (Some UnixSockets)
  else match ngx_ptocidr arg with
       | (rc, Some c) => if rc =? NGX_ERROR then None else Some (Some (Block c))
       | (_, None) => None
       end.

(** [ngx_http_access_rule]: for [all] the mask and the address are zero. *)
Definition ngx_http_access_rule (deny : bool) (arg : list Z) (cf : access_conf) : option access_conf :=
  what ← rule_arg arg;
  let add4 mask addr cf := mk_access (Some (default [] (rules cf) ++ [(mask, addr, deny)])) (rules6 cf) (rules_un cf) in
  let add6 mask addr cf := mk_access (rules cf) (Some (default [] (rules6 cf) ++ [(mask, addr, deny)])) (rules_un cf) in
  let add_un cf := mk_access (rules cf) (rules6 cf) (Some (default [] (rules_un cf) ++ [deny])) in
  Some match what with
       | None => add_un (add6 (repeat 0 16) (repeat 0 16) (add4 0 0 cf))
       | Some (Block (cidr_in addr mask)) => add4 mask addr cf
       | Some (Block (cidr_in6 addr mask)) => add6 mask addr cf
       | Some UnixSockets => add_un cf
       end.

(** [ngx_http_access_merge_loc_conf] *)
Definition ngx_http_access_merge_loc_conf (prev conf : access_conf) : access_conf :=
  match rules conf, rules6 conf, rules_un conf with None, None, None => prev | _, _, _ => conf end.

(** ** The address of the geo module *)

(** [ngx_http_geo_real_addr]: the address of the connection, or that in a variable *)
Definition ngx_http_geo_real_addr (mem : bool) (index : option (option (list Z))) (c : conn_t) : option address :=
  match index with
  | None => Some (c_sockaddr c, c_socklen c)
  | Some None => None
  | Some (Some v) => match ngx_parse_addr mem v with (rc, Some a) => if rc =? NGX_OK then Some a else None | _ => None end
  end.

(** [ngx_http_geo_addr] *)
Definition ngx_http_geo_addr (mem : bool) (index : option (option (list Z))) (proxies : option (list proxy_t))
    (proxy_recursive : bool) (xfwd : list value_t) (c : conn_t) : option (option address) :=
  match ngx_http_geo_real_addr mem index c with
  | None => Some None
  | Some addr =>
      match xfwd, proxies with
      | _ :: _, Some ps => '(_, addr) ← ngx_http_get_forwarded_addr mem ps addr (inr xfwd) proxy_recursive; Some (Some addr)
      | _, _ => Some (Some addr)
      end
  end.
(** ** The addresses of a header *)

(** The words between spaces and commas *)
Fixpoint words (cur v : list Z) : list (list Z) :=
  match v with
  | [] => match cur with [] => [] | _ => [cur] end
  | c :: v' =>
      if is_sep c then match cur with [] => words [] v' | _ => cur :: words [] v' end
      else words (cur ++ [c]) v'
  end.

(** The words of a value, the last one first *)
Definition hops (v : list Z) : list (list Z) := rev (words [] v).

(** The first byte of a value is part of an address. *)
Definition value_ok (v : value_t) : Prop := exists c l, text v = c :: l /\ is_sep c = false.

Lemma words_sep cur v c w : is_sep c = true -> words cur (v ++ c :: w) = words cur v ++ words [] w.
Proof.
  intros Hc. revert cur. induction v as [|d v IH]; intros cur; cbn [app words].
  - rewrite Hc. destruct cur; done.
  - destruct (is_sep d); [|apply IH]. destruct cur; rewrite IH; done.
Qed.

Lemma words_word cur v : Forall (fun c => is_sep c = false) v -> cur ++ v <> [] -> words cur v = [cur ++ v].
Proof.
  intros Hv. revert cur. induction Hv as [|c v Hc Hv IH]; intros cur Hne; cbn [words].
  - rewrite app_nil_r in *. destruct cur; done.
  - rewrite Hc, IH, <- app_assoc; [done|]. destruct cur; discriminate.
Qed.

Lemma words_seps v : Forall (fun c => is_sep c = true) v -> words [] v = [].
Proof. induction 1 as [|c v Hc Hv IH]; cbn [words]; [done|]. rewrite Hc. exact IH. Qed.

(** A word with separators behind it *)
Lemma words_last w s : Forall (fun c => is_sep c = false) w -> w <> [] -> Forall (fun c => is_sep c = true) s ->
  words [] (w ++ s) = [w].
Proof.
  intros Hw Hne Hs. destruct Hs as [|c s Hc Hs]; [rewrite app_nil_r; apply words_word; done|].
  rewrite words_sep, (words_seps s), words_word by done. done.
Qed.

(** *** The two loops *)

Lemma skip_seps_ok T p : let e := skip_seps T p in
  (e <= p)%nat /\ (forall i, (e < i <= p)%nat -> is_sep (nth i T 0) = true) /\ (e = 0%nat \/ is_sep (nth e T 0) = false).
Proof.
  induction p as [|p IH]; cbn [skip_seps]; [split; [lia|]; split; [lia|by left]|].
  destruct (is_sep (nth (S p) T 0)) eqn:E; [|split; [lia|]; split; [lia|by right]].
  destruct IH as (H1 & H2 & H3). split; [lia|]. split; [|done]. intros i Hi.
  destruct (decide (i = S p)) as [->|]; [done|]. apply H2. lia.
Qed.

Lemma token_start_ok T p : is_sep (nth 0 T 0) = false -> is_sep (nth p T 0) = false -> let q := token_start T p in
  (q <= p)%nat /\ (forall i, (q <= i <= p)%nat -> is_sep (nth i T 0) = false) /\
  (q = 0%nat \/ (1 < q)%nat /\ is_sep (nth (q - 1) T 0) = true).
Proof.
  intros H0. revert p.
  assert (G : forall p k, (p <= k)%nat -> (forall i, (p < i <= k)%nat -> is_sep (nth i T 0) = false) ->
    (k = p -> is_sep (nth p T 0) = false) -> let q := token_start T p in
    (q <= k)%nat /\ (forall i, (q <= i <= k)%nat -> is_sep (nth i T 0) = false) /\
    (q = 0%nat \/ (1 < q)%nat /\ is_sep (nth (q - 1) T 0) = true)).
  { induction p as [|p IH]; intros k Hk Hi He; cbn [token_start].
    - split; [lia|]. split; [|by left]. intros i Hik. destruct i as [|i]; [done|]. apply Hi. lia.
    - destruct (is_sep (nth (S p) T 0)) eqn:E.
      + destruct (decide (k = S p)) as [->|Hne]; [exfalso; discriminate (He eq_refl)|].
        split; [lia|]. split; [intros i Hik; apply Hi; lia|]. right. split; [lia|]. replace (S (S p) - 1)%nat with (S p) by lia. done.
      + apply IH; [lia| |lia]. intros i Hik. destruct (decide (i = S p)) as [->|]; [done|]. apply Hi. lia. }
  intros p Hp. apply (G p p); [lia|lia|done].
Qed.

Lemma Forall_take_drop (P : Z -> Prop) T a b : (b <= length T)%nat -> (forall i, (a <= i < b)%nat -> P (nth i T 0)) ->
  Forall P (take (b - a) (drop a T)).
Proof.
  intros Hb H. apply list.Forall_forall. intros x Hx. apply list_elem_of_lookup in Hx as [i Hi].
  apply lookup_take_Some in Hi as [Hi Hlt]. rewrite lookup_drop in Hi. rewrite <- (nth_lookup_Some T (a + i) 0 x Hi).
  apply H. lia.
Qed.

(** The value in front of the last separators and the last word, and the word *)
Lemma hops_last T L : (L < length T)%nat -> is_sep (nth 0 T 0) = false ->
  let e := skip_seps T L in let p := token_start T e in
  let w := take (S e - p) (drop p T) in
  ((p = 0%nat /\ hops (take (S L) T) = [w]) \/
   (1 < p)%nat /\ (p <= L)%nat /\ hops (take (S L) T) = w :: hops (take (p - 1) T)).
Proof.
  intros HL H0 e p w. destruct (skip_seps_ok T L) as (E1 & E2 & E3). fold e in E1, E2, E3.
  assert (He : is_sep (nth e T 0) = false) by (destruct E3 as [->|]; done).
  destruct (token_start_ok T e H0 He) as (P1 & P2 & P3). fold p in P1, P2, P3.
  assert (Hw : Forall (fun c => is_sep c = false) w) by (apply Forall_take_drop; [lia|]; intros i Hi; apply P2; lia).
  assert (Hlen : length w = (S e - p)%nat) by (unfold w; rewrite length_take, length_drop; lia).
  set (s := take (S L - S e) (drop (S e) T)).
  assert (Hs : Forall (fun c => is_sep c = true) s) by (apply Forall_take_drop; [lia|]; intros i Hi; apply E2; lia).
  assert (Hne : w <> []) by (intros E; rewrite E in Hlen; cbn in Hlen; lia).
  assert (Hsplit : take (S L) T = take p T ++ w ++ s).
  { pose proof (take_take_drop T p (S L - p)) as A1. replace (p + (S L - p))%nat with (S L) in A1 by lia.
    pose proof (take_take_drop (drop p T) (S e - p) (S L - S e)) as A2. rewrite drop_drop in A2.
    replace (S e - p + (S L - S e))%nat with (S L - p)%nat in A2 by lia. replace (p + (S e - p))%nat with (S e) in A2 by lia.
    unfold w, s. rewrite A2, A1. done. }
  unfold hops. destruct P3 as [Hp|[Hp Hsep]].
  - left. split; [done|]. rewrite Hsplit, Hp, take_0. cbn [app]. rewrite words_last by done. done.
  - right. split; [lia|]. split; [lia|]. rewrite Hsplit.
    assert (Hpre : take p T = take (p - 1) T ++ [nth (p - 1) T 0]).
    { replace p with (S (p - 1)) at 1 by lia. apply take_S_r.
      destruct (nth_lookup_or_length T (p - 1) 0) as [E|]; [exact E|lia]. }
    rewrite Hpre, <- app_assoc. cbn [app]. rewrite words_sep, words_last by done. rewrite rev_app_distr. done.
Qed.

(** ** The address behind the proxies *)

Section Walk.
Variable mem : bool.
Variable proxies : list proxy_t.

Definition parse (w : list Z) : option address :=
  match ngx_parse_addr mem w with (rc, Some a) => if rc =? NGX_OK then Some a else None | (_, None) => None end.

(** From the connection back along the hops, as long as the sender is trusted and the next address can be read: the
    address and the number of hops *)
Fixpoint walk (a : address) (ts : list (list Z)) : address * nat :=
  match ts with
  | [] => (a, 0%nat)
  | t :: ts' =>
      if trusted proxies a.1 then
        match parse t with Some b => let '(c, n) := walk b ts' in (c, S n) | None => (a, 0%nat) end
      else (a, 0%nat)
  end.

(** The return code for [n] of [k] hops *)
Definition code (n k : nat) : Z := if (n =? 0)%nat then NGX_DECLINED else if (n =? k)%nat then NGX_OK else NGX_DONE.

Lemma walk_le a ts : (snd (walk a ts) <= length ts)%nat.
Proof.
  revert a. induction ts as [|t ts IH]; intros a; cbn [walk length]; [cbn; lia|].
  destruct (trusted _ _); [|cbn; lia]. destruct (parse t) as [b|]; [|cbn; lia].
  specialize (IH b). destruct (walk b ts). cbn in *. lia.
Qed.

Lemma walk_app a l l' : walk a (l ++ l') =
  if (snd (walk a l) =? length l)%nat then ((walk (fst (walk a l)) l').1, (length l + snd (walk (fst (walk a l)) l'))%nat)
  else walk a l.
Proof.
  revert a. induction l as [|t l IH]; intros a; cbn [walk app length].
  - cbn. destruct (walk a l'); done.
  - destruct (trusted _ _); [|done]. destruct (parse t) as [b|]; [|done]. rewrite IH.
    destruct (walk b l) as [c n]. cbn [fst snd]. change (S n =? S (length l))%nat with (n =? length l)%nat.
    destruct (n =? length l)%nat; done.
Qed.

Lemma code_small n k : (0 < n)%nat -> (n < k)%nat -> code n k = NGX_DONE.
Proof. intros H1 H2. unfold code. destruct n; [lia|]. cbn. destruct k; [lia|]. rewrite (proj2 (Nat.eqb_neq n k)) by lia. done. Qed.

Lemma code_all k : (0 < k)%nat -> code k k = NGX_OK.
Proof. intros H. unfold code. destruct k; [lia|]. cbn. rewrite Nat.eqb_refl. done. Qed.

(** [ngx_parse_addr], as the code tests it *)
Lemma parse_cases w : (exists b, parse w = Some b /\ ngx_parse_addr mem w = (NGX_OK, Some b)) \/
  (parse w = None /\ exists rc r, ngx_parse_addr mem w = (rc, r) /\ (r = None \/ rc <> NGX_OK)).
Proof.
  unfold parse. destruct (ngx_parse_addr mem w) as [rc [b|]]; [|right; eauto 10].
  destruct (Z.eqb_spec rc NGX_OK) as [->|]; [left; eauto|right; eauto 10].
Qed.

(** One value, with the recursion *)
Lemma forwarded_internal_ok v a fuel L : (L <= length (text v))%nat -> (0 < L)%nat -> is_sep (nth 0 (text v) 0) = false ->
  (L <= fuel)%nat ->
  forwarded_internal mem proxies fuel a v L true =
    Some (code (snd (walk a (hops (take L (text v))))) (length (hops (take L (text v)))), fst (walk a (hops (take L (text v))))).
Proof.
  intros HL H0 Hs. revert a L HL H0. induction fuel as [|fuel IH]; intros a L HL H0 Hf; [lia|].
  destruct L as [|L]; [lia|]. cbn [forwarded_internal]. set (e := skip_seps (text v) L). set (p := token_start (text v) e).
  set (w := take (S e - p) (drop p (text v))). pose proof (hops_last (text v) L ltac:(lia) Hs) as Hh.
  cbn zeta in Hh. fold e in Hh. fold p in Hh. fold w in Hh.
  assert (Hw : exists rest, hops (take (S L) (text v)) = w :: rest) by (destruct Hh as [[_ ->]|(_ & _ & ->)]; eauto).
  destruct Hw as [rest Hw]. rewrite Hw. cbn [walk]. destruct (trusted proxies a.1); [|done].
  destruct (parse_cases w) as [(b & Eb & Ep)|[Eb Ep]].
  - rewrite Ep, Eb. cbn [negb Z.eqb andb]. change (NGX_OK =? NGX_OK) with true. cbn [negb].
    destruct Hh as [[Hp Hr]|(Hp1 & Hp2 & Hr)]; rewrite Hw in Hr; injection Hr as ->.
    + rewrite Hp. cbn. done.
    + rewrite (proj2 (Nat.ltb_lt 0 p)) by lia. cbn [andb]. rewrite IH by lia. cbn [mbind option_bind].
      destruct (walk b (hops (take (p - 1) (text v)))) as [c n] eqn:E. cbn [fst snd length].
      pose proof (hops_last (text v) (p - 2) ltac:(lia) Hs) as Hk. replace (S (p - 2)) with (p - 1)%nat in Hk by lia.
      assert (Hpos : (0 < length (hops (take (p - 1) (text v))))%nat) by (destruct Hk as [[_ ->]|(_ & _ & ->)]; cbn; lia).
      set (k := length (hops (take (p - 1) (text v)))) in *. unfold code. cbn [Nat.eqb].
      destruct n as [|n]; [destruct k; [lia|reflexivity]|]. destruct k as [|k']; [lia|]. cbn.
      destruct (n =? k')%nat; reflexivity.
  - destruct Ep as (rc & r & -> & Hrc). rewrite Eb. destruct r as [b|]; [|done].
    destruct Hrc as [|Hrc]; [done|]. rewrite (proj2 (Z.eqb_neq _ _) Hrc). done.
Qed.

Lemma value_first v : value_ok v -> (0 < length (text v))%nat /\ is_sep (nth 0 (text v) 0) = false.
Proof. intros (c & l & E & Hc). rewrite E. cbn. split; [lia|done]. Qed.

Lemma hops_ne v : value_ok v -> exists w ws, hops (text v) = w :: ws /\
  w = take (S (skip_seps (text v) (length (text v) - 1)) - token_start (text v) (skip_seps (text v) (length (text v) - 1)))
        (drop (token_start (text v) (skip_seps (text v) (length (text v) - 1))) (text v)).
Proof.
  intros Hv. destruct (value_first v Hv) as [H1 H2]. pose proof (hops_last (text v) (length (text v) - 1) ltac:(lia) H2) as H.
  replace (S (length (text v) - 1)) with (length (text v)) in H by lia. rewrite take_ge in H by lia. cbn zeta in H.
  destruct H as [[_ E]|(_ & _ & E)]; rewrite E; eauto.
Qed.

Lemma forwarded_value_ok v a : value_ok v -> forwarded_addr_internal mem proxies a v true =
  Some (code (snd (walk a (hops (text v)))) (length (hops (text v))), fst (walk a (hops (text v)))).
Proof.
  intros Hv. destruct (value_first v Hv) as [H1 H2]. unfold forwarded_addr_internal.
  rewrite forwarded_internal_ok by (done || lia). rewrite take_ge by lia. done.
Qed.

Lemma forwarded_value_once v a : value_ok v -> forwarded_addr_internal mem proxies a v false =
  Some (code (snd (walk a (take 1 (hops (text v))))) 1, fst (walk a (take 1 (hops (text v))))).
Proof.
  intros Hv. destruct (value_first v Hv) as [H1 H2]. destruct (hops_ne v Hv) as (w & ws & E & Ew). rewrite E.
  unfold forwarded_addr_internal. cbn [take walk]. destruct (length (text v)) as [|L] eqn:EL; [lia|]. cbn [forwarded_internal].
  destruct (trusted proxies a.1); [|done]. replace (S L - 1)%nat with L in Ew by lia. rewrite <- Ew.
  destruct (parse_cases w) as [(b & Eb & Ep)|(Eb & rc & r & Ep & Hr)]; rewrite Ep, Eb; [done|].
  destruct r as [b|]; [|done]. destruct Hr as [|Hr]; [done|]. rewrite (proj2 (Z.eqb_neq _ _) Hr). done.
Qed.

(** The addresses of headers, from the last to the first *)
Definition all_hops (hs : list value_t) : list (list Z) := concat ((fun h => hops (text h)) <$> hs).

Lemma forwarded_headers_ok hs a k : Forall value_ok hs ->
  forwarded_headers mem proxies (code k k) (0 <? k)%nat a hs true =
  Some (code (k + snd (walk a (all_hops hs))) (k + length (all_hops hs)), fst (walk a (all_hops hs))).
Proof.
  intros Hs. revert a k. induction Hs as [|h hs Hh Hs IH]; intros a k; cbn [forwarded_headers].
  { cbn. rewrite !Nat.add_0_r. done. }
  rewrite forwarded_value_ok by done. cbn [mbind option_bind negb]. unfold all_hops. rewrite fmap_cons. cbn [concat].
  fold (all_hops hs). set (l := hops (text h)). assert (Hl : (0 < length l)%nat).
  { destruct (hops_ne h Hh) as (w & ws & E & _). unfold l. rewrite E. cbn. lia. }
  pose proof (walk_le a l) as Hle. rewrite walk_app, length_app. destruct (walk a l) as [b n]. cbn [fst snd] in *.
  destruct (Nat.eqb_spec n (length l)) as [->|Hn]; cbn [fst snd].
  - rewrite code_all by done. change (NGX_OK =? NGX_DECLINED) with false. change (NGX_OK =? NGX_OK) with true. cbn [andb negb].
    specialize (IH b (k + length l)%nat). rewrite code_all in IH by lia.
    replace (0 <? k + length l)%nat with true in IH by (symmetry; apply Nat.ltb_lt; lia). rewrite IH, !Nat.add_assoc. done.
  - destruct n as [|n].
    + change (code 0 (length l)) with NGX_DECLINED. rewrite Z.eqb_refl. cbn [andb]. rewrite Nat.add_0_r. destruct k as [|k]; cbn [Nat.ltb Nat.leb].
      * done.
      * rewrite (code_small (S k)) by lia. done.
    + rewrite (code_small (S n)), (code_small (k + S n)) by lia. change (NGX_DONE =? NGX_DECLINED) with false.
      change (NGX_DONE =? NGX_OK) with false. done.
Qed.

(** The headers, or the value, that are read *)
Definition values (src : value_t + list value_t) : list value_t := match src with inl v => [v] | inr hs => rev hs end.

(** The addresses that count: all, or the last one *)
Definition candidates (src : value_t + list value_t) (recursive : bool) : list (list Z) :=
  let ts := all_hops (values src) in if recursive then ts else take 1 ts.

Lemma forwarded_addr_walk src a recursive : Forall value_ok (values src) ->
  ngx_http_get_forwarded_addr mem proxies a src recursive =
    Some (code (snd (walk a (candidates src recursive))) (length (candidates src recursive)), fst (walk a (candidates src recursive))).
Proof.
  intros Hs. unfold candidates. destruct recursive.
  - destruct src as [v|hs]; cbn [ngx_http_get_forwarded_addr values] in *.
    + inversion_clear Hs as [|? ? Hv _]. rewrite forwarded_value_ok by done. unfold all_hops. cbn. rewrite app_nil_r. done.
    + exact (forwarded_headers_ok (rev hs) a 0 Hs).
  - assert (Hone : forall v vs, value_ok v -> take 1 (all_hops (v :: vs)) = take 1 (hops (text v)) /\ length (take 1 (hops (text v))) = 1%nat).
    { intros v vs Hv. destruct (hops_ne v Hv) as (w & ws & E & _). unfold all_hops. cbn. rewrite E. done. }
    destruct src as [v|hs]; cbn [ngx_http_get_forwarded_addr values] in *.
    + inversion_clear Hs as [|? ? Hv _]. destruct (Hone v [] Hv) as [-> ->]. apply forwarded_value_once. done.
    + destruct Hs as [|v vs Hv Hs]; [done|]. destruct (Hone v vs Hv) as [-> ->]. cbn [forwarded_headers].
      rewrite forwarded_value_once by done. done.
Qed.

(** When the walk ends at an address that is not trusted, nothing behind it counts. *)
Lemma walk_untrusted a ts more : trusted proxies (fst (walk a ts)).1 = false -> fst (walk a (ts ++ more)) = fst (walk a ts).
Proof.
  revert a. induction ts as [|t ts IH]; intros a; cbn [walk app].
  - cbn. intros H. destruct more as [|m more]; cbn [walk]; [done|]. rewrite H. done.
  - destruct (trusted proxies a.1) eqn:Ht; [|done]. destruct (parse t) as [b|]; [|done]. specialize (IH b).
    destruct (walk b ts), (walk b (ts ++ more)). exact IH.
Qed.
End Walk.

(** C25: The address taken from the headers is found by walking back from the connection, one hop for each address of
    the headers from the last to the first, as long as the sender is a trusted proxy and the address can be read (only
    one hop without [recursive]); the code tells whether none, some or all of the addresses were used.  When the address
    found is not a trusted proxy, nobody can change it by putting other addresses, or headers, in front.  The value of
    every header, also after the addition, is not empty and does not begin with a separator (with one that does, see
    [leading_comma]). *)
Theorem forwarded_addr_correct mem proxies addr src recursive :
  Forall value_ok (values src) ->
  let w := walk mem proxies addr (candidates src recursive) in
  ngx_http_get_forwarded_addr mem proxies addr src recursive = Some (code w.2 (length (candidates src recursive)), w.1) /\
  (trusted proxies w.1.1 = false -> forall src', Forall value_ok (values src') ->
    (exists more, candidates src' recursive = candidates src recursive ++ more) ->
    exists rc, ngx_http_get_forwarded_addr mem proxies addr src' recursive = Some (rc, w.1)).
Proof.
  intros Hs w. split; [apply forwarded_addr_walk; done|]. intros Hw src' Hs' (more & E). eexists.
  rewrite forwarded_addr_walk, E by done. unfold w. rewrite walk_untrusted by exact Hw. reflexivity.
Qed.

(** Another header in front, or another text in front of the first header, are such additions. *)
Lemma header_in_front h hs : candidates (inr (h :: hs)) true = candidates (inr hs) true ++ hops (text h).
Proof. unfold candidates, all_hops. cbn [values rev]. rewrite fmap_app, concat_app. cbn. rewrite app_nil_r. done. Qed.

Lemma text_in_front pre c v : is_sep c = true -> hops (pre ++ c :: v) = hops v ++ hops pre.
Proof. intros Hc. unfold hops. rewrite words_sep, rev_app_distr by done. done. Qed.

(** ** The realip module *)

(** The address of the connection is changed once for a request, and is restored when the request ends, whatever
    has failed before. *)
Theorem realip_restores mem cmem tmem ntop cf r rc r' : saved r = None -> ctx r = false ->
  ngx_http_realip_handler mem cmem tmem ntop cf r = Some (rc, r') ->
  conn (ngx_http_realip_cleanup r') = conn r /\
  (conn r' <> conn r -> forall mem' cmem' tmem' cf', ngx_http_realip_handler mem' cmem' tmem' ntop cf' r' = Some (NGX_DECLINED, r')).
Proof.
  intros Hs Hc. unfold ngx_http_realip_handler at 1. rewrite Hc.
  assert (Hsame : conn (ngx_http_realip_cleanup r) = conn r) by (unfold ngx_http_realip_cleanup; rewrite Hs; done).
  destruct (from cf) as [ps|]; [|by intros [= <- <-]]. destruct (realip_source cf r) as [src|]; [|by intros [= <- <-]].
  destruct (ngx_http_get_forwarded_addr _ _ _ _ _) as [[code addr]|]; [|done]. cbn [mbind option_bind].
  destruct (negb (code =? NGX_DECLINED)); [|by intros [= <- <-]]. unfold ngx_http_realip_set_addr.
  destruct cmem; cbn [negb]; [|by intros [= <- <-]]. destruct (ntop addr.1 addr.2) as [|x name].
  { intros [= <- <-]. unfold ngx_http_realip_cleanup. cbv [update]. cbn. rewrite Hs. done. }
  destruct tmem; cbn [negb]; intros [= <- <-]; [done|]. unfold ngx_http_realip_cleanup. cbv [update]. cbn. rewrite Hs. done.
Qed.

(** ** The access module *)

(** The directives of a location, in order: [deny], and the argument *)
Fixpoint access_lines (lines : list (bool * list Z)) (cf : access_conf) : option access_conf :=
  match lines with
  | [] => Some cf
  | (deny, arg) :: lines' => cf ← ngx_http_access_rule deny arg cf; access_lines lines' cf
  end.

(** A rule applies to an address: everything of the three families, or the addresses of its block. *)
Definition rule_hits (v : view_t) (what : option proxy_t) : bool :=
  match what with None => match v with OtherFamily => false | _ => true end | Some p => is_proxy v p end.

(** The first rule that applies decides. *)
Fixpoint first_match (v : view_t) (lines : list (bool * list Z)) : Z :=
  match lines with
  | [] => NGX_DECLINED
  | (deny, arg) :: lines' =>
      match rule_arg arg with
      | Some what => if rule_hits v what then ngx_http_access_found deny else first_match v lines'
      | None => first_match v lines'
      end
  end.

(** A rule for IPv4 *)
Definition rule4 (l : bool * list Z) : option (Z * Z * bool) :=
  match rule_arg l.2 with
  | Some None => Some (0, 0, l.1)
  | Some (Some (Block (cidr_in addr mask))) => Some (mask, addr, l.1)
  | _ => None
  end.
Definition rule6 (l : bool * list Z) : option (list Z * list Z * bool) :=
  match rule_arg l.2 with
  | Some None => Some (repeat 0 16, repeat 0 16, l.1)
  | Some (Some (Block (cidr_in6 addr mask))) => Some (mask, addr, l.1)
  | _ => None
  end.
Definition rule_un (l : bool * list Z) : option bool :=
  match rule_arg l.2 with Some None | Some (Some UnixSockets) => Some l.1 | _ => None end.

(** An IPv6 address that contains an IPv4 address is tested as that when the location has rules for IPv4. *)
Definition access_view (lines : list (bool * list Z)) (sa : sockaddr) : view_t :=
  match sa with
  | sockaddr_in6 _ p => match omap rule4 lines with [] => Inet6 p | _ => view sa end
  | _ => view sa
  end.

Definition array {A} (l : list A) : option (list A) := match l with [] => None | _ => Some l end.

Lemma array_app {A} (l : list A) x : Some (default [] (array l) ++ [x]) = array (l ++ [x]).
Proof. destruct l; done. Qed.

Lemma access_lines_conf lines cf l4 l6 lu :
  access_lines lines (mk_access (array l4) (array l6) (array lu)) = Some cf ->
  cf = mk_access (array (l4 ++ omap rule4 lines)) (array (l6 ++ omap rule6 lines)) (array (lu ++ omap rule_un lines)).
Proof.
  revert l4 l6 lu. induction lines as [|[deny arg] lines IH]; intros l4 l6 lu; cbn [access_lines].
  { intros [= <-]. cbn. rewrite !app_nil_r. done. }
  unfold ngx_http_access_rule. destruct (rule_arg arg) as [[[[addr mask|addr mask]|]|]|] eqn:E; cbn [mbind option_bind];
    [| | | |done]; cbn [rules rules6 rules_un]; rewrite ?array_app; intros H; apply IH in H; rewrite H;
    unfold rule4, rule6, rule_un; cbn [omap list_omap fst snd]; rewrite E; cbn [option_bind]; rewrite <- ?app_assoc; done.
Qed.

Lemma match6_zero p m : match6 p (repeat 0 m) (repeat 0 m) = true.
Proof. revert p. induction m as [|m IH]; intros [|a p]; try done. cbn. rewrite Z.land_0_r. apply IH. Qed.

Lemma access_inet_first lines addr : ngx_http_access_inet (omap rule4 lines) addr = first_match (Inet addr) lines.
Proof.
  induction lines as [|[deny arg] lines IH]; [done|]. cbn [omap list_omap first_match]. unfold rule4 at 1. cbn [fst snd].
  destruct (rule_arg arg) as [[[[a m|a m]|]|]|]; cbn [ngx_http_access_inet rule_hits is_proxy in_block]; try exact IH.
  - destruct (_ =? _); [done|exact IH].
  - rewrite Z.land_0_r. done.
Qed.

Lemma access_inet6_first lines p : ngx_http_access_inet6 (omap rule6 lines) p = first_match (Inet6 p) lines.
Proof.
  induction lines as [|[deny arg] lines IH]; [done|]. cbn [omap list_omap first_match]. unfold rule6 at 1. cbn [fst snd].
  destruct (rule_arg arg) as [[[[a m|a m]|]|]|]; cbn [ngx_http_access_inet6 rule_hits is_proxy in_block]; try exact IH.
  - destruct (match6 _ _ _); [done|exact IH].
  - rewrite match6_zero. done.
Qed.

Lemma access_unix_first lines : ngx_http_access_unix (omap rule_un lines) = first_match Unix lines.
Proof.
  induction lines as [|[deny arg] lines IH]; [done|]. cbn [omap list_omap first_match]. unfold rule_un at 1. cbn [fst snd].
  destruct (rule_arg arg) as [[[[a m|a m]|]|]|]; try exact IH; done.
Qed.

Lemma first_match_other lines : first_match OtherFamily lines = NGX_DECLINED.
Proof.
  induction lines as [|[deny arg] lines IH]; [done|]. cbn [first_match]. destruct (rule_arg arg) as [[[[a m|a m]|]|]|]; exact IH.
Qed.

Lemma access_first_match_lemma lines cf sa : access_lines lines access_none = Some cf ->
  ngx_http_access_handler cf sa = first_match (access_view lines sa) lines.
Proof.
  intros H. apply (access_lines_conf lines cf [] [] []) in H. subst cf. cbn [app].
  assert (H4 : forall a, match array (omap rule4 lines) with Some rs => ngx_http_access_inet rs a | None => NGX_DECLINED end =
    first_match (Inet a) lines) by (intros a; rewrite <- access_inet_first; destruct (omap rule4 lines); done).
  assert (H6 : forall p, match array (omap rule6 lines) with Some rs => ngx_http_access_inet6 rs p | None => NGX_DECLINED end =
    first_match (Inet6 p) lines) by (intros p; rewrite <- access_inet6_first; destruct (omap rule6 lines); done).
  destruct sa as [port a|port p|path|f]; cbn [ngx_http_access_handler access_view view rules rules6 rules_un].
  - apply H4.
  - destruct (omap rule4 lines) as [|r rs] eqn:E; cbn [array]; [apply H6|]. destruct (Geo.v4mapped p); [|apply H6].
    rewrite <- E. apply access_inet_first.
  - rewrite <- access_unix_first. destruct (omap rule_un lines); done.
  - symmetry. apply first_match_other.
Qed.

(** C26: The access rules of a location, read from its directives, decide about a client by the first one that applies to
    its address: 403 for [deny], [NGX_OK] for [allow], and [NGX_DECLINED] when no rule applies.  An IPv4 address mapped
    to IPv6 counts as IPv4 when the location has rules for IPv4, and as IPv6 when it has none. *)
Theorem access_first_match lines cf sa : access_lines lines access_none = Some cf ->
  ngx_http_access_handler cf sa = first_match (access_view lines sa) lines.
Proof. apply access_first_match_lemma. Qed.

(** The decision is about the address behind the proxies, when realip has taken it from the headers. *)
Theorem access_of_forwarded mem cmem tmem ntop cf ps src lines acf r r' :
  from cf = Some ps -> realip_source cf r = Some src -> ctx r = false -> Forall value_ok (values src) ->
  ngx_http_realip_handler mem cmem tmem ntop cf r = Some (NGX_DECLINED, r') -> access_lines lines access_none = Some acf ->
  ngx_http_access_handler acf (c_sockaddr (conn r')) =
    first_match (access_view lines (walk mem ps (c_sockaddr (conn r), c_socklen (conn r)) (candidates src (recursive cf))).1.1) lines.
Proof.
  intros Hf Hsrc Hc Hv. unfold ngx_http_realip_handler. rewrite Hf, Hsrc, Hc, forwarded_addr_walk by done. cbn [mbind option_bind].
  set (a0 := (c_sockaddr (conn r), c_socklen (conn r))). set (ts := candidates src (recursive cf)).
  destruct (walk mem ps a0 ts) as [b n] eqn:E. cbn [fst snd]. destruct (negb (code n (length ts) =? NGX_DECLINED)) eqn:En.
  - unfold ngx_http_realip_set_addr. destruct cmem; [|done]. cbn [negb]. destruct (ntop b.1 b.2); [done|].
    destruct tmem; [|done]. intros [= <-] Hl. cbn. apply (access_first_match_lemma lines). done.
  - intros [= <-] Hl. assert (n = 0%nat) as ->.
    { apply negb_false_iff, Z.eqb_eq in En. unfold code in En. destruct n; [done|]. cbn in En. destruct (length ts); [done|].
      destruct (n =? n0)%nat; discriminate. }
    assert (b = a0) as ->.
    { destruct ts as [|t ts]; cbn in E; [congruence|]. destruct (trusted ps (c_sockaddr (conn r))); [|congruence].
      destruct (parse mem t) as [c|]; [|congruence]. destruct (walk mem ps c ts). congruence. }
    apply (access_first_match_lemma lines). done.
Qed.

(** ** Examples *)

(** A client at 10.0.0.1, which is a trusted proxy like all of 10.0.0.0/8 *)
Definition demo_proxies : list proxy_t := [Block (cidr_in 10 255); UnixSockets].
Definition demo_client : address := (sockaddr_in 0 (htonl 0x0a000001), sizeof_in).
Definition demo_header : value_t := mk_value 32 (bs "1.2.3.4, 5.6.7.8 , 10.0.0.2, ").

Lemma forwarded_addr_correct_witness :
  ngx_http_get_forwarded_addr true demo_proxies demo_client (inr [demo_header]) true =
    Some (NGX_DONE, (sockaddr_in 0 (htonl 0x05060708), sizeof_in)) /\
  exists rc, ngx_http_get_forwarded_addr true demo_proxies demo_client (inr [mk_value 32 (bs "8.8.8.8,9.9.9.9"); demo_header]) true =
    Some (rc, (sockaddr_in 0 (htonl 0x05060708), sizeof_in)).
Proof.
  assert (Hv : Forall value_ok (values (inr [demo_header]))).
  { repeat constructor. eexists _, _. split; [vm_compute; reflexivity|reflexivity]. }
  destruct (forwarded_addr_correct true demo_proxies demo_client (inr [demo_header]) true Hv) as [H1 H2].
  split; [rewrite H1; vm_compute; reflexivity|].
  destruct (H2 ltac:(vm_compute; reflexivity) (inr [mk_value 32 (bs "8.8.8.8,9.9.9.9"); demo_header])) as [rc Hrc].
  - repeat constructor; eexists _, _; (split; [vm_compute; reflexivity|reflexivity]).
  - eexists. apply header_in_front.
  - exists rc. rewrite Hrc. vm_compute. reflexivity.
Defined.

Definition demo_lines : list (bool * list Z) := [(true, bs "10.0.0.1"); (false, bs "10.0.0.0/8"); (true, bs "all")].

Lemma access_first_match_witness :
  exists cf, access_lines demo_lines access_none = Some cf /\
    ngx_http_access_handler cf (sockaddr_in 0 (htonl 0x0a000001)) = NGX_HTTP_FORBIDDEN /\
    ngx_http_access_handler cf (sockaddr_in 0 (htonl 0x0a000002)) = NGX_OK /\
    ngx_http_access_handler cf (sockaddr_in6 0 (repeat 0 16)) = NGX_HTTP_FORBIDDEN.
Proof.
  eexists. split; [vm_compute; reflexivity|]. split; [|split].
  - rewrite (access_first_match demo_lines) by (vm_compute; reflexivity). vm_compute. reflexivity.
  - rewrite (access_first_match demo_lines) by (vm_compute; reflexivity). vm_compute. reflexivity.
  - rewrite (access_first_match demo_lines) by (vm_compute; reflexivity). vm_compute. reflexivity.
Defined.

(** The loop that looks for the beginning of an address does not look at the first byte of the value: an address right
    behind a leading comma cannot be read. *)
Example leading_comma :
  ngx_http_get_forwarded_addr true demo_proxies demo_client (inr [mk_value 32 (bs ",5.6.7.8")]) true = Some (NGX_DECLINED, demo_client) /\
  ngx_http_get_forwarded_addr true demo_proxies demo_client (inr [mk_value 32 (bs "5.6.7.8")]) true =
    Some (NGX_OK, (sockaddr_in 0 (htonl 0x05060708), sizeof_in)).
Proof. vm_compute. split; reflexivity. Qed.

(** For an empty value the text that is parsed is the byte in front of it, whatever it is; no single byte is an
    address. *)
Example empty_value_read : forallb (fun c =>
    match ngx_http_get_forwarded_addr true demo_proxies demo_client (inr [mk_value c []]) true with
    | Some (rc, _) => rc =? NGX_DECLINED
    | None => false
    end) (Z.of_nat <$> seq 0 256) = true.
Proof. vm_compute. reflexivity. Qed.

(** A rule for IPv4 addresses inside IPv6 is not looked at when there is any rule for IPv4, such as [all]. *)
Example mapped_rule_ignored :
  (cf ← access_lines [(false, bs "::ffff:1.2.3.0/120"); (true, bs "all")] access_none;
   Some (ngx_http_access_handler cf (sockaddr_in6 0 (repeat 0 10 ++ [255; 255; 1; 2; 3; 4])))) = Some NGX_HTTP_FORBIDDEN.
Proof. vm_compute. reflexivity. Qed.

End ClientAddr.
