(* ===== verification/HealthCheck.v ===== *)
(** * Health checks of upstream servers

    [src/src/http/ngx_http_upstream_check_module.c]: the worker processes take turns in probing the servers of an
    upstream.  What is known of a server is in shared memory: whether it is down, how often in a row it has answered or
    failed, when it was last probed, and which process is probing it.  The balancers ask whether it is down.

    One server is modelled, with the state each process keeps for it; the kernel's answers to system calls are
    arguments of the handlers.  The processes run at the same time: a handler is a sequence of accesses to the shared
    memory, with the mutex it takes, between which other processes may run. *)

From stdpp Require Import gmap.
From S2P Require Import Prelude NgxString HttpRequest StatusLine.

Module HealthCheck.
Import NgxString StatusLine.

(** ** State *)

Definition NGX_INVALID_PID : Z := -1.

(** [ngx_http_upstream_check_peer_shm_t]; [deleted] is [delete == PEER_DELETED]. *)
Record shm_t : Type := mk_shm {
  owner : Z; access_time : Z; fall_count : Z; rise_count : Z; busyness : Z; access_count : Z; deleted : bool; down : bool }.

#[export] Instance eta_shm : Eta shm_t := fun s =>
  mk_shm (owner s) (access_time s) (fall_count s) (rise_count s) (busyness s) (access_count s) (deleted s) (down s).

(** The kinds of probes, but for FastCGI *)
Inductive check_type : Type := Tcp | Http | SslHello | Mysql | Ajp.

(** [ngx_http_upstream_check_srv_conf_s] *)
Record conf_t : Type := mk_conf {
  cf_fall : Z; cf_rise : Z; check_interval : Z; check_timeout : Z; check_keepalive_requests : Z;
  ctype : check_type; send : list Z; status_alive : Z }.

(** [need_keepalive] and [need_pool] of [ngx_check_types] *)
Definition need_keepalive (t : check_type) : bool := match t with Tcp | Http => true | _ => false end.
Definition need_pool (t : check_type) : bool := match t with Tcp => false | _ => true end.

(** The connection of a probe; [idle] when its handlers only wait for it to be closed. *)
Record conn_t : Type := mk_conn { error : bool; requests : Z; idle : bool }.

#[export] Instance eta_conn : Eta conn_t := fun c => mk_conn (error c) (requests c) (idle c).

(** The part of [ngx_http_status_t] the probe fills *)
Record hstatus_t : Type := mk_hstatus { h_code : Z; h_count : Z; h_start : ptr; h_end : ptr }.

#[export] Instance eta_hstatus : Eta hstatus_t := fun s => mk_hstatus (h_code s) (h_count s) (h_start s) (h_end s).

Definition hstatus_init : hstatus_t := mk_hstatus 0 0 None None.

(** [ngx_http_upstream_check_ctx_t]: how much is sent, what is received, in a buffer of [recv_end] bytes, and how
    much of it is parsed *)
Record ctx_t : Type := mk_ctx {
  send_pos : nat; recv : list Z; recv_pos : nat; recv_end : nat; cstate : sw; status : hstatus_t }.

#[export] Instance eta_ctx : Eta ctx_t := fun c =>
  mk_ctx (send_pos c) (recv c) (recv_pos c) (recv_end c) (cstate c) (status c).

(** [peer->state] *)
Inductive pstate : Type := INITIAL | CONNECT_DONE | SEND_DONE | RECV_DONE | ALL_DONE.

(** [ngx_http_upstream_check_peer_s] in a process *)
Record proc_t : Type := mk_proc {
  state : pstate; connection : option conn_t; timeout_set : bool; check_data : option ctx_t }.

#[export] Instance eta_proc : Eta proc_t := fun p => mk_proc (state p) (connection p) (timeout_set p) (check_data p).

(** ** What the balancers use *)

(** [ngx_http_upstream_check_peer_down], [_get_peer], [_free_peer]; [None] is an invalid index *)
Definition ngx_http_upstream_check_peer_down (s : option shm_t) : bool :=
  match s with None => false | Some s => down s end.
Definition ngx_http_upstream_check_get_peer (s : option shm_t) : option shm_t :=
  match s with
  | None => None
  | Some s => Some (s <| busyness := u64 (busyness s + 1) |> <| access_count := u64 (access_count s + 1) |>)
  end.
Definition ngx_http_upstream_check_free_peer (s : option shm_t) : option shm_t :=
  match s with
  | None => None
  | Some s => Some (if busyness s >? 0 then s <| busyness := busyness s - 1 |> else s)
  end.

(** ** Answers *)

Definition hstep (buf : list Z) (pos : nat) (ch : Z) (st : sw * hstatus_t) : action (sw * hstatus_t) label :=
  let '(state, s) := st in
  let p := Z.of_nat pos in
  let expect c next := if negb (ch =? c) then Stop Failed st else Next (next, s) in
  match state with
  | sw_start => expect "H"%ch sw_H
  | sw_H => expect "T"%ch sw_HT
  | sw_HT => expect "T"%ch sw_HTT
  | sw_HTT => expect "P"%ch sw_HTTP
  | sw_HTTP => expect "/"%ch sw_first_major_digit
  | sw_first_major_digit => if (ch <? "1"%ch) || (ch >? "9"%ch) then Stop Failed st else Next (sw_major_digit, s)
  | sw_major_digit =>
      if ch =? "."%ch then Next (sw_first_minor_digit, s)
      else if (ch <? "0"%ch) || (ch >? "9"%ch) then Stop Failed st else Next st
  | sw_first_minor_digit => if (ch <? "0"%ch) || (ch >? "9"%ch) then Stop Failed st else Next (sw_minor_digit, s)
  | sw_minor_digit =>
      if ch =? " "%ch then Next (sw_status, s)
      else if (ch <? "0"%ch) || (ch >? "9"%ch) then Stop Failed st else Next st
  | sw_status =>
      if ch =? " "%ch then Next st
      else if (ch <? "0"%ch) || (ch >? "9"%ch) then Stop Failed st
      else
        let s := s <| h_code := u64 (h_code s * 10 + ch - "0"%ch) |> <| h_count := u64 (h_count s + 1) |> in
        if h_count s =? 3 then Next (sw_space_after_status, s <| h_start := Some (p - 2) |>) else Next (sw_status, s)
  | sw_space_after_status =>
      if ch =? " "%ch then Next (sw_status_text, s)
      else if ch =? "."%ch then Next (sw_status_text, s)
      else if ch =? CR then Next (sw_almost_done, s)
      else if ch =? LF then Stop Done st
      else Stop Failed st
  | sw_status_text =>
      if ch =? CR then Next (sw_almost_done, s)
      else if ch =? LF then Stop Done st
      else Next st
  | sw_almost_done =>
      let s := s <| h_end := Some (p - 1) |> in
      if ch =? LF then Stop Done (state, s) else Stop Failed (state, s)
  end.

(** [ngx_http_upstream_check_parse_status_line]: the code, the position, the state and the status *)
Definition check_parse_status_line (buf : list Z) (pos : nat) (state : sw) (s : hstatus_t) : Z * nat * sw * hstatus_t :=
  match run_scan hstep 0 buf pos (state, s) with
  | Exhausted p (state, s) => (NGX_AGAIN, p, state, s)
  | Stopped Failed _ (_, s) => (NGX_ERROR, pos, state, s)
  | Stopped Done p (_, s) =>
      (NGX_OK, S p, sw_start, match h_end s with None => s <| h_end := Some (Z.of_nat p) |> | Some _ => s end)
  | NoFuel => (NGX_ABORT, pos, state, s)
  end.

Definition NGX_CHECK_HTTP_2XX : Z := 0x0002.
Definition NGX_CHECK_HTTP_3XX : Z := 0x0004.
Definition NGX_CHECK_HTTP_4XX : Z := 0x0008.
Definition NGX_CHECK_HTTP_5XX : Z := 0x0010.
Definition NGX_CHECK_HTTP_ERR : Z := 0x8000.

(** The class of a status, and whether the connection is given up *)
Definition code_class (code : Z) : Z * bool :=
  if (code >=? 200) && (code <? 300) then (NGX_CHECK_HTTP_2XX, false)
  else if (code >=? 300) && (code <? 400) then (NGX_CHECK_HTTP_3XX, false)
  else if (code >=? 400) && (code <? 500) then (NGX_CHECK_HTTP_4XX, true)
  else if (code >=? 500) && (code <? 600) then (NGX_CHECK_HTTP_5XX, true)
  else (NGX_CHECK_HTTP_ERR, true).

(** [ngx_http_upstream_check_http_parse]: the code, the context, and whether [connection->error] is set *)
Definition http_parse (cf : conf_t) (c : ctx_t) : Z * ctx_t * bool :=
  if (recv_pos c <? length (recv c))%nat then
    let '(rc, pos, cst, s) := check_parse_status_line (recv c) (recv_pos c) (cstate c) (status c) in
    let c := c <| recv_pos := pos |> <| cstate := cst |> <| status := s |> in
    if rc =? NGX_AGAIN then (rc, c, false)
    else if rc =? NGX_ERROR then (rc, c, false)
    else
      let '(code_n, err) := code_class (h_code s) in
      (if negb (Z.land code_n (status_alive cf) =? 0) then NGX_OK else NGX_ERROR, c, err)
  else (NGX_AGAIN, c, false).

(** [ngx_http_upstream_check_ssl_hello_parse], [_mysql_parse] and [_ajp_parse]; the first structure has 47 bytes,
    its handshake type is the sixth. *)
Definition ssl_hello_parse (b : list Z) : Z :=
  if (length b <? 47)%nat then NGX_AGAIN
  else if negb (nth 0 b 0 =? 0x16) then NGX_ERROR
  else if negb (nth 5 b 0 =? 0x02) then NGX_ERROR
  else NGX_OK.
Definition mysql_parse (b : list Z) : Z :=
  if (length b <? 5)%nat then NGX_AGAIN else if negb (nth 3 b 0 =? 0) then NGX_ERROR else NGX_OK.
Definition ngx_ajp_cpong_packet : list Z := [0x41; 0x42; 0x00; 0x01; 0x09].
Definition ajp_parse (b : list Z) : Z :=
  if (length b <? 5)%nat then NGX_AGAIN
  else if bool_decide (take 5 b = ngx_ajp_cpong_packet) then NGX_OK else NGX_ERROR.

(** [peer->parse] *)
Definition parse (cf : conf_t) (c : ctx_t) : Z * ctx_t * bool :=
  let b := drop (recv_pos c) (recv c) in
  match ctype cf with
  | Http | Tcp => http_parse cf c
  | SslHello => (ssl_hello_parse b, c, false)
  | Mysql => (mysql_parse b, c, false)
  | Ajp => (ajp_parse b, c, false)
  end.

(** [peer->init] and [peer->reinit]; the buffer for the answer is kept *)
Definition init_ctx : ctx_t := mk_ctx 0 [] 0 0 sw_start hstatus_init.
Definition reinit_ctx (c : ctx_t) : ctx_t := mk_ctx 0 [] 0 (recv_end c) sw_start hstatus_init.

(** ** Handlers *)

(** [ngx_http_upstream_check_status_update] *)
Definition status_update (cf : conf_t) (now : Z) (result : bool) (s : shm_t) : shm_t :=
  if deleted s then s
  else
    let s :=
      if result then
        let s := s <| rise_count := u64 (rise_count s + 1) |> <| fall_count := 0 |> in
        if down s && (rise_count s >=? cf_rise cf) then s <| down := false |> else s
      else
        let s := s <| rise_count := 0 |> <| fall_count := u64 (fall_count s + 1) |> in
        if negb (down s) && (fall_count s >=? cf_fall cf) then s <| down := true |> else s in
    s <| access_time := now |>.

(** [ngx_http_upstream_check_clean_event]; its last line frees the server. *)
Definition clean_event (cf : conf_t) (p : proc_t) (s : shm_t) : proc_t * shm_t :=
  let conn :=
    match connection p with
    | None => None
    | Some c =>
        if negb (error c) && need_keepalive (ctype cf) && (requests c <? check_keepalive_requests cf)
        then Some (c <| idle := true |>) else None
    end in
  let data :=
    match check_data p with Some d => Some (if need_pool (ctype cf) then reinit_ctx d else d) | None => None end in
  (mk_proc ALL_DONE conn false data, s <| owner := NGX_INVALID_PID |>).

(** What happens to a connection: the answer of the peek at an idle one, of [ngx_event_connect_peer], and what the
    write handler meets when it is called at once *)
Record io_t : Type := mk_io {
  io_idle : bool; io_connect : Z; io_peek : bool; io_pool : bool; io_wok : bool; io_mem : bool; io_sends : list Z }.

(** What a handler has still to do with the memory the processes share, one access or one critical section's part
    after the other; another process may run between any two of them.  A handler works on the state of its own
    process and leaves the rest as tasks. *)
Inductive task : Type :=
| ReadOwner (now : Z) (current : bool) (io : io_t)
| ReadTime (now : Z) (current : bool) (io : io_t)
| Lock
| Test (now : Z) (current : bool) (io : io_t) (interval : Z)
| Take
| TakeOver (now : Z)
| Unlock
| Reread (now : Z) (io : io_t)
| Update (now : Z) (result : bool)
| Clean.

(** [ngx_http_upstream_check_status_update] and then [ngx_http_upstream_check_clean_event] *)
Definition ends (now : Z) (result : bool) : list task := [Lock; Update now result; Unlock; Clean].

Definition set_error (p : proc_t) : proc_t :=
  match connection p with Some c => p <| connection := Some (c <| error := true |>) |> | None => p end.

(** [ngx_http_upstream_check_peek_handler]; [ok] is the answer of [recv] with [MSG_PEEK] *)
Definition peek_handler (now : Z) (ok : bool) (p : proc_t) : proc_t * list task :=
  if ok then (p, ends now true) else (set_error p, ends now false).

(** The loop of [ngx_http_upstream_check_send_handler] over the answers of [send]: all is sent, the socket is full, or
    an error *)
Fixpoint send_loop (total pos : nat) (answers : list Z) : nat * option bool :=
  if (pos <? total)%nat then
    match answers with
    | [] => (pos, Some false)
    | n :: answers' =>
        if n >=? 0 then send_loop total (pos + Z.to_nat n) answers'
        else if n =? NGX_AGAIN then (pos, Some false)
        else (pos, None)
    end
  else (pos, Some true).

(** [ngx_http_upstream_check_send_handler]; [pool] tells whether the connection has one, [wok] is the answer of
    [ngx_handle_write_event] and [mem] tells whether the pool has memory.  [peer->init] is there for every kind of
    probe that sends, and always returns [NGX_OK]. *)
Definition send_handler (cf : conf_t) (now : Z) (pool wok mem : bool) (answers : list Z) (p : proc_t) : proc_t * list task :=
  if negb pool then (p, ends now false)
  else
    match state p with
    | CONNECT_DONE =>
        match (match check_data p with Some d => Some d | None => if mem then Some init_ctx else None end) with
        | None => (p, ends now false)
        | Some d =>
            let '(pos, r) := send_loop (length (send cf)) (send_pos d) answers in
            let p := p <| check_data := Some (d <| send_pos := pos |>) |> in
            match r with
            | None => (set_error p, ends now false)
            | Some false => (p, [])
            | Some true =>
                if (pos =? length (send cf))%nat then
                  let conn := match connection p with Some c => Some (c <| requests := requests c + 1 |>) | None => None end in
                  (p <| state := SEND_DONE |> <| connection := conn |>, [])
                else (p, [])
            end
        end
    | _ => if wok then (p, []) else (p, ends now false)
    end.

(** The answers of [recv] *)
Inductive answer_t : Type := Bytes (b : list Z) | Closed | Again | Broken.

(** How the loop of [ngx_http_upstream_check_recv_handler] ends *)
Inductive received_t : Type := Ready | NoMemory | ReadError.

(** The loop, with a buffer that doubles; the data is then at its start again. *)
Fixpoint recv_loop (mem : bool) (answers : list answer_t) (d : ctx_t) : ctx_t * received_t :=
  let full := (length (recv d) =? recv_end d)%nat in
  if full && negb mem then (d, NoMemory)
  else
    let d := if full then d <| recv_pos := 0%nat |> <| recv_end := (recv_end d * 2)%nat |> else d in
    match answers with
    | [] | Again :: _ | Closed :: _ => (d, Ready)
    | Broken :: _ => (d, ReadError)
    | Bytes b :: answers' =>
        recv_loop mem answers' (d <| recv := recv d ++ take (recv_end d - length (recv d)) b |>)
    end.

(** [ngx_http_upstream_check_recv_handler] *)
Definition recv_handler (pagesize : nat) (cf : conf_t) (now : Z) (rok mem : bool) (answers : list answer_t)
    (p : proc_t) : proc_t * list task :=
  match state p, check_data p with
  | SEND_DONE, Some d =>
      if (recv_end d =? 0)%nat && negb mem then (p, ends now false)
      else
        let d := if (recv_end d =? 0)%nat then d <| recv := [] |> <| recv_pos := 0%nat |> <| recv_end := (pagesize / 2)%nat |> else d in
        let '(d, r) := recv_loop mem answers d in
        match r with
        | ReadError => (set_error (p <| check_data := Some d |>), ends now false)
        | NoMemory => (p <| check_data := Some d |>, ends now false)
        | Ready =>
            let '(rc, d, err) := parse cf d in
            let p := p <| check_data := Some d |> in
            let p := if err then set_error p else p in
            if rc =? NGX_AGAIN then (p, [])
            else (p <| state := RECV_DONE |>, ends now (negb (rc =? NGX_ERROR)))
        end
  | _, _ => if rok then (p, []) else (p, ends now false)
  end.

(** [ngx_http_upstream_check_discard_handler]: the server has closed the idle connection, or an error *)
Definition discard_handler (failed : bool) (p : proc_t) : proc_t * list task :=
  if failed then (set_error p, [Clean]) else (p, []).

(** [ngx_http_upstream_check_timeout_handler]; the timer has fired.  [None] is the use of a connection that is
    [NULL]. *)
Definition timeout_handler (now : Z) (p : proc_t) : option (proc_t * list task) :=
  match connection p with
  | None => None
  | Some c => Some (p <| timeout_set := false |> <| connection := Some (c <| error := true |>) |>, ends now false)
  end.

(** [upstream_check_connect_done] *)
Definition connect_done (cf : conf_t) (now : Z) (io : io_t) (c : conn_t) (rc : Z) (p : proc_t) : proc_t * list task :=
  let p := p <| connection := Some (c <| idle := false |>) |> <| state := CONNECT_DONE |> <| timeout_set := true |> in
  if rc =? NGX_OK then
    match ctype cf with
    | Tcp => peek_handler now (io_peek io) p
    | _ => send_handler cf now (io_pool io) (io_wok io) (io_mem io) (io_sends io) p
    end
  else (p, []).

(** [ngx_http_upstream_check_connect_handler] *)
Definition connect_handler (cf : conf_t) (now : Z) (io : io_t) (p : proc_t) : proc_t * list task :=
  match connection p, io_idle io with
  | Some c, true => connect_done cf now io c NGX_OK p
  | _, _ =>
      let rc := io_connect io in
      if (rc =? NGX_ERROR) || (rc =? NGX_DECLINED)
      then (p <| connection := None |>, [Lock; Update now false; Unlock])
      else connect_done cf now io (mk_conn false 0 false) rc p
  end.

(** [ngx_http_upstream_check_begin_handler]; [current] tells that the shared memory is of the generation of the
    process. *)
Definition begin_handler (now : Z) (current : bool) (io : io_t) (p : proc_t) : proc_t * list task :=
  (p, [ReadOwner now current io]).

(** What it does under the lock, with the interval it has computed before *)
Definition acquire (cf : conf_t) (now : Z) (current : bool) (io : io_t) (interval : Z) (s : shm_t) : list task :=
  if negb current then [Unlock]
  else if (interval >=? check_interval cf) && (owner s =? NGX_INVALID_PID) then [Take; Unlock; Reread now io]
  else if interval >=? u64 (Z.shiftl (check_interval cf) 4) then [TakeOver now; Unlock; Reread now io]
  else [Unlock; Reread now io].

(** [ngx_shmtx_lock] of the process [pid], which waits while another has the lock *)
Definition shmtx_lock (pid : Z) (mutex : option Z) : option (option Z) :=
  match mutex with None => Some (Some pid) | Some _ => None end.

(** One task of the process [pid]: the state of the process, the shared memory with its mutex, and the tasks that take
    its place.  [None]: it waits for the lock. *)
Definition exec_task (cf : conf_t) (pid : Z) (t : task) (p : proc_t) (s : shm_t) (mutex : option Z)
    : option (proc_t * shm_t * option Z * list task) :=
  match t with
  | ReadOwner now current io =>
      Some (p, s, mutex, if (owner s =? pid) || timeout_set p then [] else [ReadTime now current io])
  | ReadTime now current io => Some (p, s, mutex, [Lock; Test now current io (u64 (now - access_time s))])
  | Lock => m ← shmtx_lock pid mutex; Some (p, s, m, [])
  | Test now current io interval => Some (p, s, mutex, acquire cf now current io interval s)
  | Take => Some (p, s <| owner := pid |>, mutex, [])
  | TakeOver now => Some (p, s <| owner := pid |> <| access_time := now |>, mutex, [])
  | Unlock => Some (p, s, None, [])
  | Reread now io =>
      let '(p, ts) := if owner s =? pid then connect_handler cf now io p else (p, []) in Some (p, s, mutex, ts)
  | Update now result => Some (p, status_update cf now result s, mutex, [])
  | Clean => let '(p, s) := clean_event cf p s in Some (p, s, mutex, [])
  end.

(** ** The status *)

(** The results of the probes, the last one first; the length of the last run of equal results *)
Fixpoint run_of (r : bool) (h : list bool) : nat :=
  match h with x :: h' => if eqb x r then S (run_of r h') else 0%nat | [] => 0%nat end.

(** What is known after the probes [h], of a server that was down or not at the beginning *)
Fixpoint down_after (cf : conf_t) (d0 : bool) (h : list bool) : bool :=
  match h with
  | [] => d0
  | r :: h' =>
      if r then if (cf_rise cf <=? Z.of_nat (run_of true h)) then false else down_after cf d0 h'
      else if (cf_fall cf <=? Z.of_nat (run_of false h)) then true else down_after cf d0 h'
  end.

Definition update_all (cf : conf_t) (now : Z) (h : list bool) (s : shm_t) : shm_t :=
  foldr (fun r s => status_update cf now r s) s h.

Lemma run_of_le r h : (run_of r h <= length h)%nat.
Proof. induction h as [|x h IH]; cbn [run_of length]; [lia|]. destruct (eqb x r); lia. Qed.

Lemma update_all_ok cf now h s : deleted s = false -> rise_count s = 0 -> fall_count s = 0 -> Z.of_nat (length h) < 2 ^ 64 ->
  let s' := update_all cf now h s in
  deleted s' = false /\ rise_count s' = Z.of_nat (run_of true h) /\ fall_count s' = Z.of_nat (run_of false h) /\
  down s' = down_after cf (down s) h /\ owner s' = owner s.
Proof.
  intros Hd Hr Hf. induction h as [|r h IH]; intros Hlen; [done|].
  cbn [length] in Hlen. destruct (IH ltac:(lia)) as (I1 & I2 & I3 & I4 & I5). cbn [update_all foldr].
  fold (update_all cf now h s). set (t := update_all cf now h s) in *. unfold status_update. rewrite I1. clearbody t.
  pose proof (run_of_le true h). pose proof (run_of_le false h). cbv [update].
  destruct r; cbn [deleted rise_count fall_count down run_of eqb down_after].
  - rewrite I2, u64_small by lia. rewrite Z.geb_leb.
    replace (Z.of_nat (run_of true h) + 1) with (Z.of_nat (S (run_of true h))) by lia.
    destruct (down t) eqn:Ed; cbn [andb]; destruct (_ <=? _) eqn:El; cbn; rewrite <- ?I4; repeat split; try done.
  - rewrite I3, u64_small by lia. rewrite Z.geb_leb.
    replace (Z.of_nat (run_of false h) + 1) with (Z.of_nat (S (run_of false h))) by lia.
    destruct (down t) eqn:Ed; cbn [andb negb]; destruct (_ <=? _) eqn:El; cbn; rewrite <- ?I4; repeat split; try done.
Qed.

(** [n] equal results in a row *)
Definition has_run (r : bool) (n : nat) (h : list bool) : Prop := exists recent older, h = recent ++ repeat r n ++ older.

Lemma run_of_prefix r n h : (n <= run_of r h)%nat <-> exists older, h = repeat r n ++ older.
Proof.
  revert h. induction n as [|n IH]; intros h; cbn [repeat app].
  - split; [eauto|lia].
  - destruct h as [|x h]; cbn [run_of].
    + split; [lia|]. intros [? ?]. done.
    + destruct (eqb x r) eqn:E.
      * apply eqb_prop in E as ->. split.
        -- intros H. destruct (proj1 (IH h) ltac:(lia)) as [o ->]. eauto.
        -- intros [o Ho]. injection Ho as Ho. pose proof (proj2 (IH h) ltac:(eauto)). lia.
      * split; [lia|]. intros [o Ho]. injection Ho as Hx _. subst. rewrite eqb_reflx in E. done.
Qed.

Lemma has_run_cons r n x h : has_run r n (x :: h) <-> (n <= run_of r (x :: h))%nat \/ has_run r n h.
Proof.
  unfold has_run. rewrite run_of_prefix. split.
  - intros ([|y rec] & o & E); cbn [app] in E; [left; eauto|right]. injection E as _ E. eauto.
  - intros [[o E]|(rec & o & E)]; [exists [], o; done|exists (x :: rec), o; rewrite E; done].
Qed.

Lemma has_run_nil r n : has_run r n [] -> n = 0%nat.
Proof. intros (rec & o & E). symmetry in E. apply app_eq_nil in E as [_ E]. apply app_eq_nil in E as [E _]. destruct n; done. Qed.

(** The results since the last [fall] failures in a row, or all of them, have no [rise] successes in a row. *)
Definition counted_down (fall rise : nat) (d0 : bool) (h : list bool) : Prop :=
  (exists recent older, h = recent ++ repeat false fall ++ older /\ ~ has_run true rise recent) \/
  (d0 = true /\ ~ has_run true rise h).

Section Counted.
Variables fall rise : nat.
Hypothesis fall_pos : (0 < fall)%nat.
Hypothesis rise_pos : (0 < rise)%nat.

(** A failure does not end a run of successes, nor begin one. *)
Lemma run_failed l : has_run true rise (false :: l) <-> has_run true rise l.
Proof. rewrite has_run_cons. cbn [run_of eqb]. split; [intros [|]; [lia|done]|by right]. Qed.

Lemma counted_success d0 h : (rise <= run_of true (true :: h))%nat -> ~ counted_down fall rise d0 (true :: h).
Proof.
  intros Hrun [(recent & older & E & Hn)|[_ Hn]].
  - apply Hn. apply run_of_prefix in Hrun as [o Ho]. rewrite E in Ho. clear E Hn.
    exists []. cbn [app]. revert recent Ho. clear rise_pos. induction rise as [|k IH]; intros recent Ho; [exists recent; done|].
    destruct recent as [|x recent].
    + destruct fall; [lia|]. cbn in Ho. discriminate Ho.
    + cbn [app repeat] in Ho. injection Ho as -> Ho. destruct (IH recent Ho) as [o' ->]. exists o'. done.
  - apply Hn, has_run_cons. by left.
Qed.

Lemma counted_step_success d0 h : (run_of true (true :: h) < rise)%nat ->
  counted_down fall rise d0 (true :: h) <-> counted_down fall rise d0 h.
Proof.
  intros Hrun. assert (Hh : has_run true rise (true :: h) <-> has_run true rise h).
  { rewrite has_run_cons. split; [intros [|]; [lia|done]|by right]. }
  unfold counted_down. rewrite Hh. split; (intros [(recent & older & E & Hn)|H]; [left|by right]).
  - destruct recent as [|x recent]; [destruct fall; [lia|discriminate E]|]. injection E as <- E. exists recent, older. split; [done|].
    intros Hr. apply Hn, has_run_cons. by right.
  - exists (true :: recent), older. split; [rewrite E; done|]. intros Hr. apply has_run_cons in Hr as [Hr|Hr]; [|done].
    apply run_of_prefix in Hr as [o Ho]. assert (Hge : (rise <= run_of true (true :: h))%nat); [|lia].
    apply run_of_prefix. exists (o ++ repeat false fall ++ older). rewrite E, app_comm_cons, Ho, <- app_assoc. done.
Qed.

Lemma counted_failure d0 h : (fall <= run_of false (false :: h))%nat -> counted_down fall rise d0 (false :: h).
Proof.
  intros Hrun. apply run_of_prefix in Hrun as [o Ho]. left. exists [], o. split; [done|]. intros H. apply has_run_nil in H. lia.
Qed.

Lemma counted_step_failure d0 h : (run_of false (false :: h) < fall)%nat ->
  counted_down fall rise d0 (false :: h) <-> counted_down fall rise d0 h.
Proof.
  intros Hrun. unfold counted_down. rewrite run_failed. split; (intros [(recent & older & E & Hn)|H]; [left|by right]).
  - destruct recent as [|x recent].
    + assert (Hge : (fall <= run_of false (false :: h))%nat) by (apply run_of_prefix; eauto). lia.
    + injection E as <- E. exists recent, older. split; [done|]. intros Hr. apply Hn. apply run_failed. done.
  - exists (false :: recent), older. split; [rewrite E; done|]. rewrite run_failed. done.
Qed.
End Counted.

Lemma down_after_counted cf d0 h : 0 < cf_fall cf -> 0 < cf_rise cf ->
  down_after cf d0 h = true <-> counted_down (Z.to_nat (cf_fall cf)) (Z.to_nat (cf_rise cf)) d0 h.
Proof.
  intros Hf Hr. induction h as [|r h IH].
  - cbn. unfold counted_down. split.
    + intros ->. right. split; [done|]. intros H. apply has_run_nil in H. lia.
    + intros [(rec & o & E & _)|[-> _]]; [|done]. symmetry in E. apply app_eq_nil in E as [_ E]. apply app_eq_nil in E as [E _].
      destruct (Z.to_nat (cf_fall cf)) eqn:En; [lia|done].
  - cbn [down_after]. destruct r.
    + destruct (Z.leb_spec (cf_rise cf) (Z.of_nat (run_of true (true :: h)))).
      * split; [done|]. intros Hc. exfalso. revert Hc. apply counted_success; lia.
      * rewrite counted_step_success by lia. exact IH.
    + destruct (Z.leb_spec (cf_fall cf) (Z.of_nat (run_of false (false :: h)))).
      * split; [|done]. intros _. apply counted_failure; lia.
      * rewrite counted_step_failure by lia. exact IH.
Qed.

(** C16: A server that is checked is taken for down exactly when, since its last [fall] failures in a row (or since the
    beginning, if it began as down), it has not answered [rise] times in a row, whatever the results of the probes
    were. *)
Theorem down_by_runs cf now s h : 0 < cf_fall cf -> 0 < cf_rise cf -> deleted s = false -> rise_count s = 0 ->
  fall_count s = 0 -> Z.of_nat (length h) < 2 ^ 64 ->
  ngx_http_upstream_check_peer_down (Some (update_all cf now h s)) = true <->
  counted_down (Z.to_nat (cf_fall cf)) (Z.to_nat (cf_rise cf)) (down s) h.
Proof.
  intros Hf Hr Hd H1 H2 Hlen. cbn. destruct (update_all_ok cf now h s Hd H1 H2 Hlen) as (_ & _ & _ & -> & _).
  apply down_after_counted; done.
Qed.

(** ** The processes *)

(** The events a process meets *)
Inductive event_t : Type :=
| Begin (now : Z) (current : bool) (io : io_t)
| Sending (now : Z) (pool wok mem : bool) (answers : list Z)
| Receiving (now : Z) (rok mem : bool) (answers : list answer_t)
| Peeking (now : Z) (ok : bool)
| Discarding (failed : bool)
| Timeout (now : Z).

Definition active (p : proc_t) : bool := match connection p with Some c => negb (idle c) | None => false end.
Definition waiting (p : proc_t) : bool := match connection p with Some c => idle c | None => false end.

(** The events of a connection happen when it is there, and a timer fires when it is set. *)
Definition enabled (e : event_t) (p : proc_t) : bool :=
  match e with
  | Begin _ _ _ => true
  | Sending _ _ _ _ _ | Receiving _ _ _ _ | Peeking _ _ => active p
  | Discarding _ => waiting p
  | Timeout _ => timeout_set p
  end.

Definition start (pagesize : nat) (cf : conf_t) (e : event_t) (p : proc_t) : option (proc_t * list task) :=
  match e with
  | Begin now current io => Some (begin_handler now current io p)
  | Sending now pool wok mem answers => Some (send_handler cf now pool wok mem answers p)
  | Receiving now rok mem answers => Some (recv_handler pagesize cf now rok mem answers p)
  | Peeking now ok => Some (peek_handler now ok p)
  | Discarding failed => Some (discard_handler failed p)
  | Timeout now => timeout_handler now p
  end.

(** The processes, each with what it has still to do for its last event, and the memory they share *)
Record world_t : Type := mk_world { procs : gmap Z (proc_t * list task); shm : shm_t; mutex : option Z }.

(** Nobody takes the server over from a process that has not touched it for long, and no idle connection is closed
    while another process owns the server. *)
Definition calm (cf : conf_t) (pid : Z) (t : task) (s : shm_t) : Prop :=
  match t with
  | Test _ _ _ interval => owner s = NGX_INVALID_PID \/ interval < u64 (Z.shiftl (check_interval cf) 4)
  | Clean => owner s = NGX_INVALID_PID \/ owner s = pid
  | _ => True
  end.

(** A process that is idle meets an event, or one that is busy does its next task. *)
Inductive step (pagesize : nat) (cf : conf_t) : world_t -> world_t -> Prop :=
| step_event w pid e p p' ts :
    procs w !! pid = Some (p, []) -> enabled e p = true -> start pagesize cf e p = Some (p', ts) ->
    step pagesize cf w (mk_world (<[pid := (p', ts)]> (procs w)) (shm w) (mutex w))
| step_task w pid t ts p p' s' m' ts' :
    procs w !! pid = Some (p, t :: ts) -> calm cf pid t (shm w) ->
    exec_task cf pid t p (shm w) (mutex w) = Some (p', s', m', ts') ->
    step pagesize cf w (mk_world (<[pid := (p', ts' ++ ts)]> (procs w)) s' m').

(** At the beginning nobody has anything to do, and who probes owns the server. *)
Definition at_rest (w : world_t) : Prop :=
  mutex w = None /\ forall pid p ts, procs w !! pid = Some (p, ts) ->
    pid <> NGX_INVALID_PID /\ ts = [] /\ timeout_set p = active p /\ (active p = true -> owner (shm w) = pid).

(** *** What the tasks of a process say about it *)

Definition quiet (p : proc_t) : Prop := timeout_set p = false /\ active p = false.

Inductive tasks_ok (p : proc_t) : list task -> Prop :=
| ok_idle : timeout_set p = active p -> tasks_ok p []
| ok_read_owner now c io : timeout_set p = active p -> tasks_ok p [ReadOwner now c io]
| ok_read_time now c io : quiet p -> tasks_ok p [ReadTime now c io]
| ok_wait now c io i : quiet p -> tasks_ok p [Lock; Test now c io i]
| ok_test now c io i : quiet p -> tasks_ok p [Test now c io i]
| ok_take now io : quiet p -> tasks_ok p [Take; Unlock; Reread now io]
| ok_take_over n now io : quiet p -> tasks_ok p [TakeOver n; Unlock; Reread now io]
| ok_taken now io : quiet p -> tasks_ok p [Unlock; Reread now io]
| ok_reread now io : quiet p -> tasks_ok p [Reread now io]
| ok_unlock : quiet p -> tasks_ok p [Unlock]
| ok_update_wait now : quiet p -> tasks_ok p [Lock; Update now false; Unlock]
| ok_update now : quiet p -> tasks_ok p [Update now false; Unlock]
| ok_end now r ts : (timeout_set p = true -> active p = true) -> ts `suffix_of` ends now r -> ts <> [] -> tasks_ok p ts.

(** Inside a critical section; about to write the owner *)
Definition in_crit (ts : list task) : bool :=
  match ts with (Test _ _ _ _ | Take | TakeOver _ | Unlock | Update _ _) :: _ => true | _ => false end.
Definition takes (ts : list task) : bool := match ts with (Take | TakeOver _) :: _ => true | _ => false end.

Definition proc_ok (s : shm_t) (mutex : option Z) (pid : Z) (p : proc_t) (ts : list task) : Prop :=
  pid <> NGX_INVALID_PID /\ tasks_ok p ts /\ (active p = true -> owner s = pid) /\
  (in_crit ts = true <-> mutex = Some pid) /\ (takes ts = true -> owner s = NGX_INVALID_PID).

Definition world_ok (w : world_t) : Prop :=
  (forall pid p ts, procs w !! pid = Some (p, ts) -> proc_ok (shm w) (mutex w) pid p ts) /\
  (forall pid, mutex w = Some pid -> is_Some (procs w !! pid)).

(** A handler of a connection in use leaves it so, and ends the probe or waits for more. *)
Definition handled (p : proc_t) (r : proc_t * list task) : Prop :=
  active r.1 = active p /\ timeout_set r.1 = timeout_set p /\ (r.2 = [] \/ exists now b, r.2 = ends now b).

Lemma active_error p : active (set_error p) = active p.
Proof. unfold active, set_error. destruct (connection p) as [c|] eqn:E; cbn; [done|]. rewrite E. done. Qed.

Lemma timeout_error p : timeout_set (set_error p) = timeout_set p.
Proof. unfold set_error. destruct (connection p); done. Qed.

Lemma handled_stays p p' : active p' = active p -> timeout_set p' = timeout_set p -> handled p (p', []).
Proof. intros. split_and!; [done..|by left]. Qed.

Lemma handled_ends p p' now b : active p' = active p -> timeout_set p' = timeout_set p -> handled p (p', ends now b).
Proof. intros. split_and!; [done..|]. right. eauto. Qed.

#[local] Hint Resolve handled_stays handled_ends active_error timeout_error : core.

Lemma peek_handled now ok p : handled p (peek_handler now ok p).
Proof. unfold peek_handler. destruct ok; auto. Qed.

Lemma send_handled cf now pool wok mem answers p : handled p (send_handler cf now pool wok mem answers p).
Proof.
  unfold send_handler. destruct pool; cbn [negb]; [|auto].
  destruct (state p); try (destruct wok; by auto).
  destruct (match check_data p with Some d => _ | None => _ end) as [d|]; [|auto].
  destruct (send_loop _ _ _) as [pos r]. destruct r as [[]|].
  - destruct (_ =? _)%nat; [|auto]. apply handled_stays; [|done]. unfold active. cbv [update]. cbn. destruct (connection p); done.
  - auto.
  - apply handled_ends; [rewrite active_error|rewrite timeout_error]; done.
Qed.

Lemma recv_handled pagesize cf now rok mem answers p : handled p (recv_handler pagesize cf now rok mem answers p).
Proof.
  unfold recv_handler. destruct (state p), (check_data p) as [d|]; try (destruct rok; by auto).
  destruct (_ && _); [auto|]. destruct (recv_loop _ _ _) as [d' []]; [|auto|].
  2: { apply handled_ends; [rewrite active_error|rewrite timeout_error]; done. }
  destruct (parse cf d') as [[rc d2] err].
  set (q := p <| check_data := Some d2 |>). set (q' := if err then set_error q else q).
  assert (active q' = active p /\ timeout_set q' = timeout_set p) as [Ea Et].
  { unfold q'. destruct err; [rewrite active_error, timeout_error|]; done. }
  cbv zeta. destruct (rc =? NGX_AGAIN); [by apply handled_stays|]. by apply handled_ends.
Qed.

Lemma handled_tasks p r : timeout_set p = active p -> handled p r -> tasks_ok r.1 r.2.
Proof.
  intros Hp (Ha & Ht & [E|(now & b & E)]); rewrite E.
  - apply ok_idle. congruence.
  - apply (ok_end _ now b); [congruence|done|done].
Qed.

(** An event of an idle process *)
Lemma start_ok pagesize cf e p : timeout_set p = active p -> enabled e p = true ->
  exists p' ts, start pagesize cf e p = Some (p', ts) /\ tasks_ok p' ts /\ active p' = active p /\
    in_crit ts = false /\ takes ts = false.
Proof.
  intros Hp He.
  assert (forall r, handled p r -> exists p' ts, Some r = Some (p', ts) /\ tasks_ok p' ts /\ active p' = active p /\
    in_crit ts = false /\ takes ts = false) as Hh.
  { intros r Hr. exists r.1, r.2. split; [by destruct r|]. split; [by apply (handled_tasks p)|].
    destruct Hr as (Ha & _ & [E|(now & b & E)]); rewrite E; done. }
  destruct e as [now c io|now pool wok mem ans|now rok mem ans|now ok|failed|now]; cbn [start enabled] in *.
  - eexists _, _. split; [done|]. split; [by apply ok_read_owner|done].
  - apply Hh, send_handled.
  - apply Hh, recv_handled.
  - apply Hh, peek_handled.
  - unfold discard_handler. destruct failed; [|apply Hh; auto]. eexists _, _. split; [done|].
    rewrite active_error. split; [|done]. apply (ok_end _ 0 true); [rewrite timeout_error, active_error; congruence| |done].
    by exists [Lock; Update 0 true; Unlock].
  - unfold timeout_handler. rewrite He in Hp. unfold active in *. destruct (connection p) as [c|] eqn:Ec; [|done].
    eexists _, _. split; [done|]. split; [|done]. by apply (ok_end _ now false).
Qed.

(** Beginning a probe *)
Lemma connect_ok cf now io p : quiet p ->
  let r := connect_handler cf now io p in tasks_ok r.1 r.2 /\ in_crit r.2 = false /\ takes r.2 = false.
Proof.
  intros [Ht Ha]. unfold connect_handler.
  assert (forall c rc, let r := connect_done cf now io c rc p in tasks_ok r.1 r.2 /\ in_crit r.2 = false /\ takes r.2 = false) as Hd.
  { intros c rc. unfold connect_done. set (p1 := p <| connection := _ |> <| state := _ |> <| timeout_set := true |>).
    assert (forall r, handled p1 r -> tasks_ok r.1 r.2 /\ in_crit r.2 = false /\ takes r.2 = false) as Hh.
    { intros r Hr. split; [by apply (handled_tasks p1)|]. destruct Hr as (_ & _ & [E|(n & b & E)]); rewrite E; done. }
    destruct (rc =? NGX_OK); [|apply Hh; auto]. destruct (ctype cf); apply Hh; auto using peek_handled, send_handled. }
  assert (forall rc, let r := if (rc =? NGX_ERROR) || (rc =? NGX_DECLINED) then (p <| connection := None |>, [Lock; Update now false; Unlock])
    else connect_done cf now io (mk_conn false 0 false) rc p in tasks_ok r.1 r.2 /\ in_crit r.2 = false /\ takes r.2 = false) as Hn.
  { intros rc. destruct (_ || _); [|apply Hd]. split; [|done]. by apply ok_update_wait. }
  destruct (connection p) as [c|]; [|apply Hn]. destruct (io_idle io); [apply Hd|apply Hn].
Qed.

(** *** One task *)

Lemma update_owner cf now r s : owner (status_update cf now r s) = owner s.
Proof. unfold status_update. destruct (deleted s); [done|]. cbv [update]. destruct r; destruct (_ && _); done. Qed.

(** Who changes the owner has the lock and found the server free, or frees it and had it or found it free; who
    changes the lock takes it when it is free, or gives it back. *)
Definition owner_moves (pid : Z) (s s' : shm_t) (m : option Z) : Prop :=
  owner s' = owner s \/ (owner s = NGX_INVALID_PID /\ m = Some pid) \/
  (owner s' = NGX_INVALID_PID /\ (owner s = NGX_INVALID_PID \/ owner s = pid)).
Definition mutex_moves (pid : Z) (m m' : option Z) : Prop :=
  m' = m \/ (m = None /\ m' = Some pid) \/ (m = Some pid /\ m' = None).

Lemma ends_suffix now r t ts : t :: ts `suffix_of` ends now r ->
  (t = Lock /\ ts = [Update now r; Unlock; Clean]) \/ (t = Update now r /\ ts = [Unlock; Clean]) \/
  (t = Unlock /\ ts = [Clean]) \/ (t = Clean /\ ts = []).
Proof.
  intros [k Hk]. unfold ends in Hk. destruct k as [|? [|? [|? [|? [|? ?]]]]]; cbn in Hk; simplify_eq; auto 6.
Qed.

Lemma ends_tail now r t ts : t :: ts `suffix_of` ends now r -> ts `suffix_of` ends now r.
Proof. intros H. etrans; [|exact H]. by apply suffix_cons_r. Qed.

(** The lock, seen from the tasks *)
Lemma lock_ok pid s m p t ts m' : shmtx_lock pid m = Some m' -> in_crit (t :: ts) = true -> takes (t :: ts) = false ->
  tasks_ok p (t :: ts) -> proc_ok s m pid p (Lock :: t :: ts) ->
  proc_ok s m' pid p (t :: ts) /\ mutex_moves pid m m'.
Proof.
  intros Hm Hc Ht Hok (H1 & _ & H3 & _ & _). unfold shmtx_lock in Hm. destruct m; [done|]. injection Hm as <-.
  split; [|right; by left]. split_and!; try done. rewrite Ht. done.
Qed.

(** A task of an ending probe *)
Lemma end_task cf pid s m p now r t ts p' s' m' ts' :
  t :: ts `suffix_of` ends now r -> (timeout_set p = true -> active p = true) ->
  proc_ok s m pid p (t :: ts) -> calm cf pid t s -> exec_task cf pid t p s m = Some (p', s', m', ts') ->
  proc_ok s' m' pid p' (ts' ++ ts) /\ owner_moves pid s s' m /\ mutex_moves pid m m'.
Proof.
  intros Hsu Hta (H1 & H2 & H3 & H4 & H5) Hc E. pose proof (ends_tail _ _ _ _ Hsu) as Htl.
  destruct (ends_suffix _ _ _ _ Hsu) as [[-> ->]|[[-> ->]|[[-> ->]|[-> ->]]]]; cbn [exec_task] in E.
  - unfold shmtx_lock in E. destruct m; [done|]. cbn in E. simplify_eq. split; [|split; [by left|right; by left]].
    split_and!; try done. by apply (ok_end _ now r).
  - simplify_eq. rewrite <- update_owner with (cf := cf) (now := now) (r := r) in H3. split; [|split; [left; apply update_owner|by left]].
    split_and!; try done. by apply (ok_end _ now r).
  - simplify_eq. assert (m = Some pid) as -> by (by apply H4). split; [|split; [by left|right; by right]].
    split_and!; try done. by apply (ok_end _ now r).
  - destruct (clean_event cf p s) as [p2 s2] eqn:Ec. simplify_eq. unfold clean_event in Ec. simplify_eq. cbn in Hc.
    split; [|split; [right; right; cbn; tauto|by left]]. cbn [app].
    assert (active (mk_proc ALL_DONE (match connection p with
      | Some c => if negb (error c) && need_keepalive (ctype cf) && (requests c <? check_keepalive_requests cf) then Some (c <| idle := true |>) else None
      | None => None end) false (match check_data p with Some d => Some (if need_pool (ctype cf) then reinit_ctx d else d) | None => None end)) = false) as Ha.
    { unfold active. cbn. destruct (connection p) as [c|]; [|done]. by destruct (_ && _). }
    split_and!; [done|apply ok_idle; by rewrite Ha|by rewrite Ha|done|done].
Qed.

(** The other tasks *)
Lemma task_ok cf pid s m p t ts p' s' m' ts' :
  proc_ok s m pid p (t :: ts) -> calm cf pid t s -> exec_task cf pid t p s m = Some (p', s', m', ts') ->
  proc_ok s' m' pid p' (ts' ++ ts) /\ owner_moves pid s s' m /\ mutex_moves pid m m'.
Proof.
  intros Hok Hc E. pose proof Hok as (H1 & H2 & H3 & H4 & H5). cbn [in_crit takes] in H4, H5.
  inversion H2 as [|now c io Hq|now c io Hq|now c io i Hq|now c io i Hq|now io Hq|n now io Hq|now io Hq|now io Hq|Hq|now Hq|now Hq|now r ts0 Hta Hsu Hne];
    subst; [..|by apply (end_task cf pid s m p now r t ts)]; cbn [exec_task] in E.
  all: try (assert (m = Some pid) as -> by (by apply H4)).
  - simplify_eq. split; [|split; by left]. destruct (Z.eqb_spec (owner s') pid) as [Es|Es]; cbn [orb app].
    { split_and!; try done. by apply ok_idle. }
    destruct (timeout_set p') eqn:Et; split_and!; try done; [apply ok_idle; congruence|apply ok_read_time; by split].
  - simplify_eq. split; [|split; by left]. split_and!; try done. by apply ok_wait.
  - destruct (shmtx_lock pid m) as [m2|] eqn:Em; [|done]. cbn in E. simplify_eq.
    destruct (lock_ok pid s' m p' (Test now c io i) [] _ Em eq_refl eq_refl (ok_test _ now c io i Hq) Hok) as [? ?]. split; [done|]. split; [by left|done].
  - simplify_eq. split; [|split; by left]. rewrite app_nil_r. cbn in Hc. unfold acquire.
    destruct c; cbn [negb]; [|split_and!; try done; by apply ok_unlock].
    destruct (Z.eqb_spec (owner s') NGX_INVALID_PID) as [Eo|Eo].
    + rewrite andb_true_r. destruct (_ >=? check_interval cf); [split_and!; try done; by apply ok_take|].
      destruct (_ >=? _); split_and!; try done; [by apply ok_take_over|by apply ok_taken].
    + rewrite andb_false_r. destruct Hc as [|Hc]; [done|]. rewrite Z.geb_leb, (proj2 (Z.leb_gt _ _) Hc).
      split_and!; try done. by apply ok_taken.
  - simplify_eq. cbn [app]. split; [|split; [right; left; split; [by apply H5|done]|by left]].
    split_and!; try done. by apply ok_taken.
  - simplify_eq. cbn [app]. split; [|split; [right; left; split; [by apply H5|done]|by left]].
    split_and!; try done. by apply ok_taken.
  - simplify_eq. split; [|split; [by left|right; by right]]. split_and!; try done. by apply ok_reread.
  - destruct (Z.eqb_spec (owner s) pid) as [Eo|Eo].
    + pose proof (connect_ok cf now io p Hq) as Hr. destruct (connect_handler cf now io p) as [p2 t2]. cbn [fst snd] in Hr.
      simplify_eq. destruct Hr as (R1 & R2 & R3). split; [|split; by left]. rewrite app_nil_r. split_and!; try done.
      * rewrite R2. done.
      * rewrite R3. done.
    + simplify_eq. split; [|split; by left]. split_and!; try done. apply ok_idle. destruct Hq. congruence.
  - simplify_eq. split; [|split; [by left|right; by right]]. split_and!; try done. apply ok_idle. destruct Hq. congruence.
  - destruct (shmtx_lock pid m) as [m2|] eqn:Em; [|done]. cbn in E. simplify_eq.
    destruct (lock_ok pid s' m p' (Update now false) [Unlock] _ Em eq_refl eq_refl (ok_update _ now Hq) Hok) as [? ?]. split; [done|]. split; [by left|done].
  - simplify_eq. rewrite <- update_owner with (cf := cf) (now := now) (r := false) in H3.
    split; [|split; [left; apply update_owner|by left]]. split_and!; try done. by apply ok_unlock.
Qed.

(** *** The world *)

(** A task of one process leaves what is known of the others. *)
Lemma other_ok pid q pq tq s s' m m' : q <> pid -> owner_moves pid s s' m -> mutex_moves pid m m' ->
  proc_ok s m q pq tq -> proc_ok s' m' q pq tq.
Proof.
  intros Hne Ho Hm (H1 & H2 & H3 & H4 & H5). split_and!; try done.
  - intros Ha. specialize (H3 Ha). destruct Ho as [->|[[? _]|[_ [?|?]]]]; congruence.
  - rewrite H4. destruct Hm as [->|[[-> ->]|[-> ->]]]; split; congruence.
  - intros Ht. specialize (H5 Ht). destruct Ho as [->|[[_ Hp]|[? _]]]; [done| |done].
    exfalso. assert (m = Some q) by (apply H4; destruct tq as [|[] ?]; done). congruence.
Qed.

Lemma world_ok_insert w pid p' ts' s' m' x : world_ok w -> procs w !! pid = Some x ->
  proc_ok s' m' pid p' ts' -> owner_moves pid (shm w) s' (mutex w) -> mutex_moves pid (mutex w) m' ->
  world_ok (mk_world (<[pid := (p', ts')]> (procs w)) s' m').
Proof.
  intros [Hw Hm] Hx Hp Ho Hmm. split; cbn.
  - intros q pq tq Hq. apply lookup_insert_Some in Hq as [[<- [= <- <-]]|[Hne Hq]]; [done|].
    by apply (other_ok pid q pq tq (shm w) s' (mutex w) m'); [| | |apply Hw].
  - intros q Hq. destruct (decide (q = pid)) as [->|Hne]; [rewrite lookup_insert_eq; by eexists|].
    rewrite lookup_insert_ne by done. apply Hm. destruct Hmm as [<-|[[_ E]|[_ E]]]; [done|congruence|congruence].
Qed.

Lemma world_ok_step pagesize cf w w' : world_ok w -> step pagesize cf w w' -> world_ok w'.
Proof.
  intros Hw Hst. destruct Hst as [w0 pid e p p' ts Hp He Hs|w0 pid t ts p p' s' m' ts' Hp Hc He].
  - destruct (proj1 Hw _ _ _ Hp) as (H1 & H2 & H3 & H4 & H5).
    assert (timeout_set p = active p) as Hta by (inversion H2; done).
    destruct (start_ok pagesize cf e p Hta He) as (p2 & ts2 & E & T & A & C & K). rewrite Hs in E. injection E as <- <-.
    apply (world_ok_insert w0 pid p' ts _ _ (p, [])); [done|done| |by left|by left].
    split_and!; try done; [by rewrite A|rewrite C; cbn in H4; exact H4|by rewrite K].
  - destruct (task_ok _ _ _ _ _ _ _ _ _ _ _ (proj1 Hw _ _ _ Hp) Hc He) as (K1 & K2 & K3).
    by apply (world_ok_insert w0 pid p' _ s' m' (p, t :: ts)).
Qed.

Lemma at_rest_ok w : at_rest w -> world_ok w.
Proof.
  intros [Hm Hr]. split; [|by rewrite Hm]. intros pid p ts Hp. destruct (Hr pid p ts Hp) as (H1 & -> & H3 & H4).
  split_and!; try done; [by apply ok_idle|rewrite Hm; done].
Qed.

(** A task waits only for the lock, and only while another process has it. *)
Lemma task_defined cf pid t p s m : (t = Lock -> m = None) -> exec_task cf pid t p s m <> None.
Proof.
  intros Hm. destruct t; cbn [exec_task]; try done.
  - rewrite Hm by done. done.
  - by destruct (if owner s =? pid then connect_handler cf now io p else (p, [])).
Qed.

(** C17: over any interleaving of the processes, in which another may run between any two accesses of a handler to the
    shared memory, and as long as no process takes a server over from one that was silent for sixteen intervals and no idle
    connection is closed while another owns the server: at most one process probes the server, and it owns it; at most one
    is in a critical section; no handler uses a connection that is not there; and a process that cannot go on waits for
    the lock of another that can. *)
Theorem one_prober pagesize cf w0 w : at_rest w0 -> rtc (step pagesize cf) w0 w ->
  (forall pid pid' p p' ts ts', procs w !! pid = Some (p, ts) -> procs w !! pid' = Some (p', ts') ->
     active p = true -> active p' = true -> pid = pid') /\
  (forall pid p ts, procs w !! pid = Some (p, ts) -> active p = true \/ timeout_set p = true -> active p = true /\ owner (shm w) = pid) /\
  (forall pid pid' p p' ts ts', procs w !! pid = Some (p, ts) -> procs w !! pid' = Some (p', ts') ->
     in_crit ts = true -> in_crit ts' = true -> pid = pid') /\
  (forall pid p e, procs w !! pid = Some (p, []) -> enabled e p = true -> start pagesize cf e p <> None) /\
  (forall pid p t ts, procs w !! pid = Some (p, t :: ts) -> exec_task cf pid t p (shm w) (mutex w) = None ->
     exists pid' p' t' ts', mutex w = Some pid' /\ pid' <> pid /\ procs w !! pid' = Some (p', t' :: ts') /\
       exec_task cf pid' t' p' (shm w) (mutex w) <> None).
Proof.
  intros H0 Hr. assert (world_ok w) as [Hw Hm].
  { apply at_rest_ok in H0. revert H0. induction Hr as [|x y z Hxy _ IH]; [done|]. intros H. by apply IH, (world_ok_step pagesize cf x). }
  assert (forall pid p ts, procs w !! pid = Some (p, ts) -> timeout_set p = true -> active p = true) as Hta.
  { intros pid p ts Hp Ht. destruct (Hw _ _ _ Hp) as (_ & H & _). inversion H; unfold quiet in *; intuition congruence. }
  split_and!.
  - intros pid pid' p p' ts ts' Hp Hp' Ha Ha'. destruct (Hw _ _ _ Hp) as (_ & _ & H & _), (Hw _ _ _ Hp') as (_ & _ & H' & _).
    rewrite <- (H Ha), <- (H' Ha'). done.
  - intros pid p ts Hp Ha. assert (active p = true) as Hact by (destruct Ha; eauto). split; [done|].
    destruct (Hw _ _ _ Hp) as (_ & _ & H & _). auto.
  - intros pid pid' p p' ts ts' Hp Hp' Hc Hc'. destruct (Hw _ _ _ Hp) as (_ & _ & _ & H & _), (Hw _ _ _ Hp') as (_ & _ & _ & H' & _).
    apply H in Hc. apply H' in Hc'. congruence.
  - intros pid p e Hp He. destruct (Hw _ _ _ Hp) as (_ & H & _). assert (timeout_set p = active p) as Ht by (inversion H; done).
    destruct (start_ok pagesize cf e p Ht He) as (? & ? & -> & _). done.
  - intros pid p t ts Hp He. destruct (mutex w) as [q|] eqn:Eq; [|exfalso; by apply (task_defined cf pid t p (shm w) None)].
    destruct (Hm q eq_refl) as [[pq tq] Hq]. destruct (Hw _ _ _ Hq) as (_ & _ & _ & Hc & _).
    apply proj2 in Hc. specialize (Hc ltac:(congruence)). destruct tq as [|t' ts']; [done|]. exists q, pq, t', ts'.
    split; [done|]. split; [|split; [done|]].
    + intros ->. rewrite Hp in Hq. injection Hq as <- <- <-. apply (task_defined cf pid t p (shm w) (Some pid)); [|done].
      intros ->. done.
    + apply task_defined. intros ->. done.
Qed.

(** ** A process alone *)

(** The tasks of a process without another that runs between them *)
Fixpoint run_alone (fuel : nat) (cf : conf_t) (pid : Z) (p : proc_t) (s : shm_t) (m : option Z) (ts : list task)
    : option (proc_t * shm_t * option Z) :=
  match fuel, ts with
  | _, [] => Some (p, s, m)
  | O, _ => None
  | S fuel, t :: ts => '(p, s, m, ts') ← exec_task cf pid t p s m; run_alone fuel cf pid p s m (ts' ++ ts)
  end.

Definition handle_alone (pagesize : nat) (cf : conf_t) (pid : Z) (e : event_t) (p : proc_t) (s : shm_t) : option (proc_t * shm_t * option Z) :=
  '(p, ts) ← start pagesize cf e p; run_alone 12 cf pid p s None ts.

(** ** The two parsers of status lines *)

(** What the probes keep of an [ngx_http_status_t] *)
Definition erase (s : status_t) : hstatus_t := mk_hstatus (s_code s) (s_count s) (s_start s) (s_end s).

Definition erase_action (a : action (sw * status_t) label) : action (sw * hstatus_t) label :=
  match a with
  | Next (q, s) => Next (q, erase s)
  | Redo (q, s) => Redo (q, erase s)
  | Stop l (q, s) => Stop l (q, erase s)
  end.

Lemma not_digit ch : (ch <? "0"%ch) || (ch >? "9"%ch) = negb (is_digit ch).
Proof.
  unfold is_digit, in_range. rewrite negb_andb, Z.gtb_ltb. f_equal; destruct (Z.ltb_spec ch "0"%ch), (Z.leb_spec "0"%ch ch); try done; try lia;
    destruct (Z.ltb_spec "9"%ch ch), (Z.leb_spec ch "9"%ch); try done; lia.
Qed.

Lemma hstep_erase buf p ch q s : hstep buf p ch (q, erase s) = erase_action (status_step buf p ch (q, s)).
Proof.
  destruct q; cbn [hstep status_step]; unfold expect_byte; rewrite ?not_digit;
    repeat match goal with |- context [if ?b then _ else _] => destruct b eqn:? end; try done; cbv [update] in *; cbn in *; congruence.
Qed.

Lemma scan_erase fuel buf p q s : scan hstep fuel buf p (q, erase s) =
  match scan status_step fuel buf p (q, s) with
  | Exhausted p (q, s) => Exhausted p (q, erase s)
  | Stopped l p (q, s) => Stopped l p (q, erase s)
  | NoFuel => NoFuel
  end.
Proof.
  revert p q s. induction fuel as [|fuel IH]; intros p q s; cbn [scan]; [done|]. destruct (buf !! p) as [c|]; [|done].
  rewrite hstep_erase. destruct (status_step buf p c (q, s)) as [[q' s']|[q' s']|l [q' s']]; cbn [erase_action]; [apply IH..|done].
Qed.

(** The parser of the probes decides like [ngx_http_parse_status_line], with the same position, state and status. *)
Theorem check_status_line_same buf pos state s :
  let o := parse_status_line buf pos state s in
  check_parse_status_line buf pos state (erase s) = (rc o, b_pos o, r_state o, erase (st o)).
Proof.
  unfold check_parse_status_line, parse_status_line, run_scan. rewrite scan_erase.
  destruct (scan status_step _ buf pos (state, s)) as [p [q s']|[] p [q s']|]; try done. cbn. destruct (s_end s'); done.
Qed.

(** ** A connection that fails at once *)

(** When the connection to the server fails at once, the process remains the owner of the server: no event of its own
    changes anything any more, so that a single process never probes the server again. *)
Theorem connect_failure_stuck pagesize cf pid now io p s : pid <> NGX_INVALID_PID -> timeout_set p = false -> connection p = None ->
  owner s = NGX_INVALID_PID -> check_interval cf <= u64 (now - access_time s) -> io_connect io = NGX_ERROR ->
  exists p1 s1, handle_alone pagesize cf pid (Begin now true io) p s = Some (p1, s1, None) /\
    owner s1 = pid /\ forall e, enabled e p1 = true -> handle_alone pagesize cf pid e p1 s1 = Some (p1, s1, None).
Proof.
  intros Hpid Ht Hc Ho Hi Hio.
  exists (p <| connection := None |>), (status_update cf now false (s <| owner := pid |>)).
  split; [|split; [rewrite update_owner; done|]].
  - unfold handle_alone. cbn [start begin_handler mbind option_bind]. unfold run_alone. cbn [exec_task]. rewrite Ho, Ht.
    replace (NGX_INVALID_PID =? pid) with false by (symmetry; apply Z.eqb_neq; congruence).
    cbn [orb mbind option_bind app exec_task shmtx_lock]. unfold acquire. rewrite Ho, Z.geb_leb, (proj2 (Z.leb_le _ _) Hi).
    cbn [negb andb mbind option_bind app exec_task]. rewrite Z.eqb_refl. cbn [mbind option_bind app exec_task].
    replace (owner (s <| owner := pid |>) =? pid) with true by (symmetry; apply Z.eqb_refl).
    unfold connect_handler. rewrite Hc, Hio. change (NGX_ERROR =? NGX_ERROR) with true.
    cbn [orb mbind option_bind app exec_task shmtx_lock]. done.
  - intros e He. destruct e as [n c i|? ? ? ? ?|? ? ? ?|? ?|?|?]; cbv [update] in He; cbn in He; try discriminate He; [|congruence].
    unfold handle_alone. cbn [start begin_handler mbind option_bind]. unfold run_alone. cbn [exec_task]. rewrite update_owner.
    replace (owner (s <| owner := pid |>) =? pid) with true by (symmetry; apply Z.eqb_refl). done.
Qed.

(** ** Examples *)

Definition demo_conf : conf_t := mk_conf 2 3 1000 500 100 Http (bs "GET / HTTP/1.0") (Z.lor 2 4).
Definition demo_shm : shm_t := mk_shm NGX_INVALID_PID 0 0 0 0 0 false false.
Definition demo_proc : proc_t := mk_proc INITIAL None false None.
Definition demo_world : world_t := mk_world {[ 7 := (demo_proc, []); 8 := (demo_proc, []) ]} demo_shm None.

Lemma down_by_runs_witness : down (update_all demo_conf 0 [true; true; false; false; true] demo_shm) = true /\
  down (update_all demo_conf 0 [false; true; true; true; false; false; true] demo_shm) = false.
Proof.
  split.
  - apply (down_by_runs demo_conf 0 demo_shm [true; true; false; false; true]); try done. left. exists [true; true], [true].
    split; [done|]. intros (rec & o & E). change (Z.to_nat (cf_rise demo_conf)) with 3%nat in E.
    apply (f_equal length) in E. rewrite !length_app in E. cbn in E. lia.
  - apply not_true_is_false. intros H.
    apply (down_by_runs demo_conf 0 demo_shm [false; true; true; true; false; false; true]) in H; try done.
    vm_compute in H. destruct H as [(rec & o & E & Hn)|[H _]]; [|discriminate H].
    destruct rec as [|[] [|[] [|[] [|[] [|[] [|[] [|[] [|? ?]]]]]]]]; cbn in E; try discriminate E.
    apply Hn. exists [false], []. done.
Defined.

Definition demo_io : io_t := mk_io false NGX_AGAIN false true false true [].

(** Processes 7 and 8 find the server free at the same time; 7 gets the lock first, and 8 waits. *)
Definition demo_busy : world_t :=
  mk_world (<[7 := (demo_proc, [Take; Unlock; Reread 2000 demo_io])]>
    (<[8 := (demo_proc, [Lock; Test 2000 true demo_io 2000])]> (procs demo_world))) demo_shm (Some 7).

Lemma demo_task pid t ts p p' s' m' ts' w : procs w !! pid = Some (p, t :: ts) -> calm demo_conf pid t (shm w) ->
  exec_task demo_conf pid t p (shm w) (mutex w) = Some (p', s', m', ts') ->
  rtc (step 4096 demo_conf) w (mk_world (<[pid := (p', ts' ++ ts)]> (procs w)) s' m').
Proof. intros. by eapply rtc_once, step_task. Qed.

Lemma demo_begin pid p w : procs w !! pid = Some (p, []) ->
  rtc (step 4096 demo_conf) w (mk_world (<[pid := (p, [ReadOwner 2000 true demo_io])]> (procs w)) (shm w) (mutex w)).
Proof. intros Hp. by eapply rtc_once, (step_event _ _ _ _ (Begin 2000 true demo_io)). Qed.

Lemma demo_reaches : rtc (step 4096 demo_conf) demo_world demo_busy.
Proof.
  etrans; [by apply (demo_begin 8 demo_proc)|]. etrans; [by eapply (demo_task 8)|]. etrans; [by eapply (demo_task 8)|].
  etrans; [by apply (demo_begin 7 demo_proc)|]. etrans; [by eapply (demo_task 7)|]. etrans; [by eapply (demo_task 7)|].
  etrans; [by eapply (demo_task 7)|]. etrans; [eapply (demo_task 7); [done|by left|done]|].
  match goal with |- rtc _ ?w demo_busy => assert (w = demo_busy) as -> by (vm_compute; reflexivity) end. done.
Qed.

Lemma one_prober_witness :
  (forall p t ts, procs demo_busy !! 8 = Some (p, t :: ts) -> exec_task demo_conf 8 t p (shm demo_busy) (mutex demo_busy) = None ->
     exists pid' p' t' ts', mutex demo_busy = Some pid' /\ pid' <> 8 /\ procs demo_busy !! pid' = Some (p', t' :: ts') /\
       exec_task demo_conf pid' t' p' (shm demo_busy) (mutex demo_busy) <> None) /\
  exec_task demo_conf 8 Lock demo_proc (shm demo_busy) (mutex demo_busy) = None.
Proof.
  assert (H0 : at_rest demo_world).
  { split; [done|]. intros pid p ts Hp. unfold demo_world in Hp. cbn in Hp. apply lookup_insert_Some in Hp as [[<- [= <- <-]]|[_ Hp]]; [done|].
    apply lookup_singleton_Some in Hp as [<- [= <- <-]]. done. }
  destruct (one_prober 4096 demo_conf demo_world demo_busy H0 demo_reaches) as (_ & _ & _ & _ & H).
  split; [exact (H 8)|reflexivity].
Defined.

(** Closing an idle connection frees the server although another process is probing it: here process 8 owns it, and
    the connection of process 7 is closed by the server. *)
Example idle_close_frees :
  (fun r => owner (snd (fst r))) <$> handle_alone 4096 demo_conf 7 (Discarding true)
    (mk_proc ALL_DONE (Some (mk_conn false 1 true)) false None) (mk_shm 8 0 0 0 0 0 false false) = Some NGX_INVALID_PID.
Proof. reflexivity. Qed.

(** When the buffer grows, what is received is parsed again from the start, in the state reached before: an answer
    whose first 2048 bytes end inside the version is refused. *)
Example grown_buffer_reparsed :
  let line := bs "HTTP/1." ++ repeat "0"%ch 2041 in
  let d := mk_ctx 14 line (length line) 2048 sw_minor_digit hstatus_init in
  let '(d', r) := recv_loop true [Bytes (bs " 200 OK" ++ [13; 10])] d in
  fst (fst (parse demo_conf d')) = NGX_ERROR /\
  fst (fst (parse demo_conf (mk_ctx 14 (recv d') 0 4096 sw_start hstatus_init))) = NGX_OK.
Proof. vm_compute. split; reflexivity. Qed.

End HealthCheck.
