(* ===== verification/SegmentTree.v ===== *)
(** * Segment trees

    [src/src/core/ngx_segment_tree.c]: a binary tree over the positions of an
    interval, kept in an array (the children of the node [i] are [2 * i] and
    [2 * i + 1]), that finds the smallest position of a range that has not been deleted.
    The consistent hash balancer ([ConsistentHash]) keeps its live servers in one.

    [None] is an access outside the array or a recursion that does not end.
    Positions are 32-bit numbers and the code calculates in [ngx_int_t], so that no sum overflows. *)

From stdpp Require Import gmap.
From S2P Require Import Prelude.

Module SegmentTree.

(** [NGX_MAX_UINT32_VALUE] *)
Definition NGX_MAX_UINT32_VALUE : Z := 4294967295.

(** [ngx_segment_node_t] *)
Record snode : Type := mk_snode { sg_key : Z; sg_data : Z }.

#[export] Instance eta_snode : Eta snode := fun n => mk_snode (sg_key n) (sg_data n).

(** [ngx_segment_tree_t], without the pool and the methods *)
Record stree : Type := mk_stree { extreme : Z; st_num : Z; segments : list snode }.

#[export] Instance eta_stree : Eta stree := fun t => mk_stree (extreme t) (st_num t) (segments t).

(** [tree->segments[i]] *)
Definition seg_get (t : stree) (i : Z) : option snode :=
  if i <? 0 then None else segments t !! Z.to_nat i.

(** Changing [tree->segments[i]]. *)
Definition seg_set (t : stree) (i : Z) (f : snode -> snode) : option stree :=
  n ← seg_get t i; Some (t <| segments := <[Z.to_nat i := f n]> (segments t) |>).

(** [ngx_segment_tree_min] *)
Definition ngx_segment_tree_min (one two : snode) : Z := sg_key two - sg_key one.

(** [ngx_segment_tree_init]; [mem] tells whether the zeroed array is allocated. *)
Definition ngx_segment_tree_init (mem : bool) (num : Z) : Z * option stree :=
  if mem then
    let nodes := replicate (Z.to_nat (Z.shiftl (num + 1) 2)) (mk_snode 0 0) in
    (NGX_OK, Some (mk_stree NGX_MAX_UINT32_VALUE num (<[0%nat := mk_snode NGX_MAX_UINT32_VALUE 0]> nodes)))
  else (NGX_ERROR, None).

(** The end of [ngx_segment_tree_build], [ngx_segment_tree_insert] and
    [ngx_segment_tree_delete]: the smaller child is copied. *)
Definition pull (t : stree) (index child : Z) : option stree :=
  one ← seg_get t child; two ← seg_get t (child + 1);
  seg_set t index (fun _ => if ngx_segment_tree_min one two >? 0 then one else two).

Fixpoint build_loop (fuel : nat) (t : stree) (index l r : Z) : option stree :=
  match fuel with
  | O => None
  | S fuel' =>
      if l =? r then seg_set t index (fun n => n <| sg_key := l |>)
      else
        let child := Z.shiftl index 1 in
        let mid := Z.shiftr (l + r) 1 in
        t ← build_loop fuel' t child l mid;
        t ← build_loop fuel' t (child + 1) (mid + 1) r;
        pull t index child
  end.

(** The descent of [ngx_segment_tree_insert] and [ngx_segment_tree_delete] to the
    leaf of [pos], which [leaf] changes, and the way back. *)
Fixpoint update_loop (fuel : nat) (leaf : snode -> snode) (t : stree) (index l r pos : Z) : option stree :=
  match fuel with
  | O => None
  | S fuel' =>
      if (l =? r) && (l =? pos) then seg_set t index leaf
      else
        let child := Z.shiftl index 1 in
        let mid := Z.shiftr (l + r) 1 in
        t ← (if pos <=? mid then update_loop fuel' leaf t child l mid pos
             else update_loop fuel' leaf t (child + 1) (mid + 1) r pos);
        pull t index child
  end.

(** The result is a pointer to a node, here its index. *)
Fixpoint query_loop (fuel : nat) (t : stree) (index l r ll rr : Z) : option Z :=
  match fuel with
  | O => None
  | S fuel' =>
      if ll >? rr then Some 0
      else if (l =? ll) && (r =? rr) then Some index
      else
        let child := Z.shiftl index 1 in
        let mid := Z.shiftr (l + r) 1 in
        if rr <=? mid then query_loop fuel' t child l mid ll rr
        else if ll >? mid then query_loop fuel' t (child + 1) (mid + 1) r ll rr
        else
          l_node ← query_loop fuel' t child l mid ll mid;
          r_node ← query_loop fuel' t (child + 1) (mid + 1) r (mid + 1) rr;
          one ← seg_get t l_node; two ← seg_get t r_node;
          Some (if ngx_segment_tree_min one two >? 0 then l_node else r_node)
  end.

(** An interval of [k] positions is halved at most [k] times. *)
Definition depth (l r : Z) : nat := S (Z.to_nat (r - l)).

Definition ngx_segment_tree_build (t : stree) (index l r : Z) : option stree :=
  build_loop (depth l r) t index l r.

Definition ngx_segment_tree_insert (t : stree) (index l r pos : Z) (node : snode) : option stree :=
  update_loop (depth l r) (fun _ => node) t index l r pos.

Definition ngx_segment_tree_delete (t : stree) (index l r pos : Z) : option stree :=
  update_loop (depth l r) (fun n => n <| sg_key := extreme t |>) t index l r pos.

Definition ngx_segment_tree_query (t : stree) (index l r ll rr : Z) : option Z :=
  query_loop (depth l r) t index l r ll rr.

(** ** The nodes below a node *)

Definition below (index i : Z) : Prop := exists k, 0 <= k /\ i / 2 ^ k = index.

Lemma below_refl i : below i i.
Proof. exists 0. split; [done|]. apply Z.div_1_r. Qed.

Lemma below_child index i b : 0 <= b <= 1 -> below (2 * index + b) i -> below index i.
Proof.
  intros Hb (k & Hk & E). exists (k + 1). split; [lia|].
  rewrite Z.pow_add_r, <- Z.div_div by lia. rewrite E. change (2 ^ 1) with 2.
  Z.to_euclidean_division_equations; lia.
Qed.

Lemma below_le index i : 0 < index -> below index i -> index <= i.
Proof.
  intros Hi (k & Hk & E). assert (0 < 2 ^ k) by (apply Z.pow_pos_nonneg; lia).
  assert (0 <= i \/ i < 0) as [] by lia.
  - rewrite <- E. apply Z.div_le_upper_bound; nia.
  - pose proof (Z.div_lt_upper_bound i (2 ^ k) 0 ltac:(lia) ltac:(lia)). lia.
Qed.

(** The subtrees of the two children have no node in common, and not the parent. *)
Lemma below_siblings index i : 0 < index -> below (2 * index) i -> below (2 * index + 1) i -> False.
Proof.
  intros Hi (j & Hj & E) (k & Hk & F).
  assert (forall a b x y, 0 <= a < b -> i / 2 ^ a = x -> i / 2 ^ b = y -> 0 < x -> y <= x / 2) as Hhalf.
  { intros a b x y Hab Hx Hy Hpos. replace b with (a + 1 + (b - a - 1)) in Hy by lia.
    rewrite !Z.pow_add_r, <- !Z.div_div in Hy by (lia || apply Z.pow_nonzero; lia).
    rewrite Hx in Hy. change (2 ^ 1) with 2 in Hy. subst y.
    assert (0 < 2 ^ (b - a - 1)) by (apply Z.pow_pos_nonneg; lia).
    assert (0 <= x / 2) by (apply Z.div_pos; lia). apply Z.div_le_upper_bound; nia. }
  destruct (Z.lt_trichotomy j k) as [Hlt|[->|Hlt]]; [|lia|].
  - specialize (Hhalf j k _ _ (conj Hj Hlt) E F). Z.to_euclidean_division_equations; lia.
  - specialize (Hhalf k j _ _ (conj Hk Hlt) F E). Z.to_euclidean_division_equations; lia.
Qed.

(** ** What the array stands for *)

(** [k] is the smallest element of [X] between [l] and [r], or [extreme] if there
    is none. *)
Definition is_least (X : gset Z) (l r k : Z) : Prop :=
  (k ∈ X /\ l <= k <= r /\ forall i, i ∈ X -> l <= i <= r -> k <= i) \/
  (k = NGX_MAX_UINT32_VALUE /\ forall i, i ∈ X -> ~ l <= i <= r).

Lemma is_least_one X l : is_least X l l (if decide (l ∈ X) then l else NGX_MAX_UINT32_VALUE).
Proof.
  case_decide; [left|right].
  - split; [done|]. split; [lia|]. intros; lia.
  - split; [done|]. intros i Hi Hl. by replace i with l in Hi by lia.
Qed.

Lemma is_least_min X l mid r one two :
  r < NGX_MAX_UINT32_VALUE -> l <= mid < r ->
  is_least X l mid (sg_key one) -> is_least X (mid + 1) r (sg_key two) ->
  is_least X l r (sg_key (if ngx_segment_tree_min one two >? 0 then one else two)).
Proof.
  intros Hr Hm H1 H2. unfold ngx_segment_tree_min.
  destruct (Z.gtb_spec (sg_key two - sg_key one) 0) as [Hlt|Hge];
    destruct H1 as [(H1 & H1r & H1m)|[H1 H1n]]; destruct H2 as [(H2 & H2r & H2m)|[H2 H2n]]; try lia.
  - left. split; [done|]. split; [lia|]. intros i Hi Hir. destruct (decide (i <= mid)); [apply H1m; [done|lia]|lia].
  - left. split; [done|]. split; [lia|]. intros i Hi Hir. destruct (decide (i <= mid)); [apply H1m; [done|lia]|lia].
  - left. split; [done|]. split; [lia|]. intros i Hi Hir. destruct (decide (i <= mid)); [|apply H2m; [done|lia]].
    exfalso. apply (H1n i Hi). lia.
  - right. split; [done|]. intros i Hi Hir. destruct (decide (i <= mid)); [apply (H1n i Hi); lia|apply (H2n i Hi); lia].
Qed.

(** The subtree at [index] covers [l .. r], and every node has the smallest
    element of [X] in its interval. *)
Inductive covers (t : stree) (X : gset Z) : Z -> Z -> Z -> Prop :=
| covers_leaf index l n :
    seg_get t index = Some n -> is_least X l l (sg_key n) -> covers t X index l l
| covers_node index l mid r n :
    mid = (l + r) / 2 -> l < r ->
    covers t X (2 * index) l mid -> covers t X (2 * index + 1) (mid + 1) r ->
    seg_get t index = Some n -> is_least X l r (sg_key n) -> covers t X index l r.

Lemma covers_root t X index l r :
  covers t X index l r -> exists n, seg_get t index = Some n /\ is_least X l r (sg_key n).
Proof. destruct 1; eauto. Qed.

Lemma covers_frame t t' X X' index l r :
  covers t X index l r ->
  (forall i, below index i -> seg_get t' i = seg_get t i) ->
  (forall i, l <= i <= r -> i ∈ X' <-> i ∈ X) -> covers t' X' index l r.
Proof.
  intros H. assert (forall l r k, (forall i, l <= i <= r -> i ∈ X' <-> i ∈ X) -> is_least X l r k -> is_least X' l r k) as Hl.
  { intros l' r' k HX [(H1 & H2 & H3)|[H1 H2]]; [left|right].
    - split; [by apply HX|]. split; [done|]. intros i Hi Hr. apply H3; [by apply HX|done].
    - split; [done|]. intros i Hi Hr. apply (H2 i); [by apply HX|done]. }
  induction H as [index l n Hg Hk|index l mid r n Hmid Hlr H1 IH1 H2 IH2 Hg Hk]; intros Hf HX.
  - econstructor; [|by apply Hl]. by rewrite Hf by apply below_refl.
  - econstructor; [done|done| | | |by apply Hl]; [apply IH1|apply IH2|by rewrite Hf by apply below_refl].
    + intros i Hi. apply Hf. apply (below_child index i 0); [lia|]. by rewrite Z.add_0_r.
    + intros i Hi. apply HX. Z.to_euclidean_division_equations; lia.
    + intros i Hi. apply Hf. apply (below_child index i 1); [lia|done].
    + intros i Hi. apply HX. Z.to_euclidean_division_equations; lia.
Qed.

(** A tree for [n] positions has room for [4 * (n + 1)] nodes; a node whose
    interval has [r - l + 1] positions lies inside. *)
Definition inside (n index l r : Z) : Prop :=
  exists d, 0 <= d /\ 2 ^ d <= index < 2 ^ (d + 1) /\ (r - l) * 2 ^ d <= n - 1 /\ 2 ^ d <= 2 * n.

Lemma inside_root n : 1 <= n -> inside n 1 1 n.
Proof. intros Hn. exists 0. cbn. lia. Qed.

Lemma inside_child n index l r l' r' b :
  inside n index l r -> l < r -> 0 <= b <= 1 -> 2 * (r' - l') <= r - l -> inside n (2 * index + b) l' r'.
Proof.
  intros (d & Hd & Hi & Hs & Hn) Hlr Hb Hh. exists (d + 1).
  rewrite !Z.pow_add_r in * by lia. change (2 ^ 1) with 2 in *.
  assert (0 < 2 ^ d) by (apply Z.pow_pos_nonneg; lia). split; [lia|]. split; [lia|]. split; nia.
Qed.

Lemma inside_bound n index l r : inside n index l r -> 0 < index < 4 * (n + 1).
Proof.
  intros (d & Hd & Hi & Hs & Hn). rewrite Z.pow_add_r in Hi by lia. change (2 ^ 1) with 2 in *.
  assert (0 < 2 ^ d) by (apply Z.pow_pos_nonneg; lia). lia.
Qed.

(** The size of the array does not change. *)
Definition sized (n : Z) (t : stree) : Prop :=
  Z.of_nat (length (segments t)) = 4 * (n + 1) /\ extreme t = NGX_MAX_UINT32_VALUE /\ st_num t = n.

Lemma seg_set_spec n t index l r f :
  sized n t -> inside n index l r ->
  exists nd t', seg_get t index = Some nd /\ seg_set t index f = Some t' /\ sized n t' /\
    seg_get t' index = Some (f nd) /\ forall i, i <> index -> seg_get t' i = seg_get t i.
Proof.
  intros (Hl & He & Hn) Hi. apply inside_bound in Hi. unfold seg_set, seg_get in *.
  destruct (Z.ltb_spec index 0); [lia|].
  destruct (lookup_lt_is_Some_2 (segments t) (Z.to_nat index) ltac:(lia)) as [nd Hnd]. rewrite Hnd.
  eexists nd, _. split; [done|]. split; [done|]. split; [|split].
  - split_and!; [|done|done]. rewrite <- Hl. f_equal. apply length_insert.
  - apply list_lookup_insert_eq. lia.
  - intros i Hne. destruct (Z.ltb_spec i 0); [done|]. apply list_lookup_insert_ne. lia.
Qed.

(** [pull] restores the node above two correct subtrees. *)
Lemma pull_spec n t X index l r :
  let mid := (l + r) / 2 in
  sized n t -> inside n index l r -> l < r -> r < NGX_MAX_UINT32_VALUE ->
  covers t X (2 * index) l mid -> covers t X (2 * index + 1) (mid + 1) r ->
  exists t', pull t index (2 * index) = Some t' /\ sized n t' /\ covers t' X index l r /\
    forall i, i <> index -> seg_get t' i = seg_get t i.
Proof.
  intros mid Hs Hi Hlr Hr H1 H2. unfold pull.
  destruct (covers_root _ _ _ _ _ H1) as (one & -> & K1). destruct (covers_root _ _ _ _ _ H2) as (two & -> & K2).
  cbn [mbind option_bind]. set (f := fun _ : snode => if ngx_segment_tree_min one two >? 0 then one else two).
  destruct (seg_set_spec n t index l r f Hs Hi) as (nd & t' & _ & -> & Hs' & Hg & Hf).
  exists t'. split; [done|]. split; [done|]. split; [|done]. apply inside_bound in Hi.
  econstructor; [reflexivity|done| | |exact Hg|].
  - eapply covers_frame; [exact H1| |done]. intros i Hb. apply Hf. apply below_le in Hb; lia.
  - eapply covers_frame; [exact H2| |done]. intros i Hb. apply Hf. apply below_le in Hb; lia.
  - apply is_least_min with mid; try done. unfold mid. Z.to_euclidean_division_equations; lia.
Qed.

(** ** The operations *)

Lemma shift_child index : Z.shiftl index 1 = 2 * index.
Proof. rewrite Z.shiftl_mul_pow2 by lia. lia. Qed.

Lemma shift_mid l r : Z.shiftr (l + r) 1 = (l + r) / 2.
Proof. by rewrite Z.shiftr_div_pow2. Qed.

(** The two halves of an interval. *)
Lemma halves n index l r :
  inside n index l r -> l < r ->
  let mid := (l + r) / 2 in
  l <= mid < r /\ 0 < index /\ inside n (2 * index) l mid /\ inside n (2 * index + 1) (mid + 1) r.
Proof.
  intros Hi Hlr mid.
  assert (l <= mid < r /\ 2 * (mid - l) <= r - l /\ 2 * (r - (mid + 1)) <= r - l) as (Hm & Hh1 & Hh2)
    by (unfold mid; Z.to_euclidean_division_equations; lia).
  pose proof (inside_bound _ _ _ _ Hi). split; [done|]. split; [lia|]. split.
  - rewrite <- (Z.add_0_r (2 * index)). by eapply inside_child; [|done|lia|].
  - by eapply inside_child; [|done|lia|].
Qed.

Lemma outside_left index i : ~ below index i -> ~ below (2 * index) i.
Proof. intros Hb Hb'. apply Hb. apply (below_child index i 0); [lia|]. by rewrite Z.add_0_r. Qed.

Lemma outside_right index i : ~ below index i -> ~ below (2 * index + 1) i.
Proof. intros Hb Hb'. apply Hb. by apply (below_child index i 1); [lia|]. Qed.

Lemma outside_self index i : ~ below index i -> i <> index.
Proof. intros Hb ->. apply Hb, below_refl. Qed.

(** A change below one child leaves the other child's subtree alone. *)
Lemma covers_other t t' X X' index b l r :
  0 < index -> 0 <= b <= 1 -> covers t X (2 * index + b) l r ->
  (forall i, ~ below (2 * index + (1 - b)) i -> seg_get t' i = seg_get t i) ->
  (forall i, l <= i <= r -> i ∈ X' <-> i ∈ X) -> covers t' X' (2 * index + b) l r.
Proof.
  intros Hi Hb Hc Hf HX. eapply covers_frame; [exact Hc| |done]. intros i Hbi. apply Hf. intros Hbi'.
  assert (b = 0 \/ b = 1) as [-> | ->] by lia.
  - rewrite Z.add_0_r in Hbi. by apply (below_siblings index i Hi).
  - rewrite Z.sub_diag, Z.add_0_r in Hbi'. by apply (below_siblings index i Hi).
Qed.

Lemma build_loop_spec n X : forall fuel t index l r,
  sized n t -> inside n index l r -> l <= r < NGX_MAX_UINT32_VALUE -> (Z.to_nat (r - l) < fuel)%nat ->
  (forall i, l <= i <= r -> i ∈ X) ->
  exists t', build_loop fuel t index l r = Some t' /\ sized n t' /\ covers t' X index l r /\
    forall i, ~ below index i -> seg_get t' i = seg_get t i.
Proof.
  induction fuel as [|fuel IH]; intros t index l r Hs Hi Hlr Hfuel HX; [lia|]. cbn [build_loop].
  destruct (Z.eqb_spec l r) as [->|Hne].
  - destruct (seg_set_spec n t index r r (fun n => n <| sg_key := r |>) Hs Hi) as (nd & t' & _ & -> & Hs' & Hg & Hf).
    exists t'. split; [done|]. split; [done|]. split; [|intros i Hb; by apply Hf, outside_self].
    econstructor; [exact Hg|]. cbn. pose proof (is_least_one X r) as H. rewrite decide_True in H by (apply HX; lia). done.
  - rewrite shift_child, shift_mid. destruct (halves n index l r Hi ltac:(lia)) as (Hm & Hpos & Hi1 & Hi2).
    set (mid := (l + r) / 2) in *.
    destruct (IH t (2 * index) l mid) as (t1 & -> & Hs1 & Hc1 & Hf1); try done; [lia|lia|intros; apply HX; lia|].
    cbn [mbind option_bind].
    destruct (IH t1 (2 * index + 1) (mid + 1) r) as (t2 & -> & Hs2 & Hc2 & Hf2); try done; [lia|lia|intros; apply HX; lia|].
    cbn [mbind option_bind].
    destruct (pull_spec n t2 X index l r Hs2 Hi ltac:(lia) ltac:(lia)) as (t3 & -> & Hs3 & Hc3 & Hf3); [|done|].
    { rewrite <- (Z.add_0_r (2 * index)) in Hc1 |- *. eapply covers_other; [lia| |exact Hc1|exact Hf2|done]; lia. }
    exists t3. split; [done|]. split; [done|]. split; [done|]. intros i Hb.
    rewrite Hf3, Hf2, Hf1; auto using outside_left, outside_right, outside_self.
Qed.

Lemma update_spec n X X' leaf pos : forall fuel t index l r,
  sized n t -> inside n index l r -> l <= pos <= r -> r < NGX_MAX_UINT32_VALUE -> (Z.to_nat (r - l) < fuel)%nat ->
  covers t X index l r -> (forall i, i <> pos -> i ∈ X' <-> i ∈ X) ->
  (forall nd, sg_key (leaf nd) = if decide (pos ∈ X') then pos else NGX_MAX_UINT32_VALUE) ->
  exists t', update_loop fuel leaf t index l r pos = Some t' /\ sized n t' /\ covers t' X' index l r /\
    forall i, ~ below index i -> seg_get t' i = seg_get t i.
Proof.
  induction fuel as [|fuel IH]; intros t index l r Hs Hi Hpos Hr Hfuel Hc HX Hleaf; [lia|]. cbn [update_loop].
  destruct (Z.eqb_spec l r) as [->|Hne]; cbn [andb].
  - replace pos with r in * by lia. rewrite Z.eqb_refl.
    destruct (seg_set_spec n t index r r leaf Hs Hi) as (nd & t' & _ & -> & Hs' & Hg & Hf).
    exists t'. split; [done|]. split; [done|]. split; [|intros i Hb; by apply Hf, outside_self].
    econstructor; [exact Hg|]. rewrite Hleaf. apply is_least_one.
  - rewrite shift_child, shift_mid. destruct (halves n index l r Hi ltac:(lia)) as (Hm & Hip & Hi1 & Hi2).
    inversion Hc as [|? ? mid' ? ? Em' _ Hc1 Hc2]; subst; [lia|]. set (mid := (l + r) / 2) in *.
    assert (exists t1, (if pos <=? mid then update_loop fuel leaf t (2 * index) l mid pos
        else update_loop fuel leaf t (2 * index + 1) (mid + 1) r pos) = Some t1 /\ sized n t1 /\
        covers t1 X' (2 * index) l mid /\ covers t1 X' (2 * index + 1) (mid + 1) r /\
        forall i, ~ below index i -> seg_get t1 i = seg_get t i) as (t1 & -> & Hs1 & Hd1 & Hd2 & Hf1).
    { destruct (Z.leb_spec pos mid) as [Hle|Hgt].
      - destruct (IH t (2 * index) l mid) as (t1 & -> & Hs1 & Hd1 & Hf1); try done; [lia|lia|lia|].
        exists t1. split_and!; try done; [|auto using outside_left].
        eapply covers_other; [lia| |exact Hc2| |intros; apply HX; lia]; [lia|]. by rewrite Z.sub_diag, Z.add_0_r.
      - destruct (IH t (2 * index + 1) (mid + 1) r) as (t1 & -> & Hs1 & Hd1 & Hf1); try done; [lia|lia|].
        exists t1. split_and!; try done; [|auto using outside_right].
        rewrite <- (Z.add_0_r (2 * index)) in Hc1 |- *.
        eapply covers_other; [lia| |exact Hc1|done|intros; apply HX; lia]; lia. }
    cbn [mbind option_bind].
    destruct (pull_spec n t1 X' index l r Hs1 Hi ltac:(lia) ltac:(lia)) as (t2 & -> & Hs2 & Hd & Hf2); [done|done|].
    exists t2. split; [done|]. split; [done|]. split; [done|]. intros i Hb. rewrite Hf2; auto using outside_self.
Qed.

Lemma query_spec n t X : forall fuel index l r ll rr,
  sized n t -> seg_get t 0 = Some (mk_snode NGX_MAX_UINT32_VALUE 0) -> covers t X index l r ->
  l <= ll -> rr <= r < NGX_MAX_UINT32_VALUE -> (Z.to_nat (r - l) < fuel)%nat ->
  exists i nd, query_loop fuel t index l r ll rr = Some i /\ seg_get t i = Some nd /\ is_least X ll rr (sg_key nd).
Proof.
  induction fuel as [|fuel IH]; intros index l r ll rr Hs H0 Hc Hll Hrr Hfuel; [lia|]. cbn [query_loop].
  destruct (Z.gtb_spec ll rr) as [Hgt|Hle].
  { eexists 0, _. split; [done|]. split; [exact H0|]. right. split; [done|]. lia. }
  destruct (Z.eqb_spec l ll) as [->|Hne1]; [destruct (Z.eqb_spec r rr) as [->|Hne2]|]; cbn [andb].
  { destruct (covers_root _ _ _ _ _ Hc) as (nd & Hg & Hk). by exists index, nd. }
  all: rewrite shift_child, shift_mid; inversion Hc as [|? ? mid' ? ? Em' Hlr Hc1 Hc2]; subst; [lia|].
  all: match goal with |- context [(?a + ?b) / 2] => set (mid := (a + b) / 2) in * end.
  all: match type of Hlr with ?a < ?b => assert (a <= mid < b) as Hm by (unfold mid; Z.to_euclidean_division_equations; lia) end.
  all: destruct (Z.leb_spec rr mid); [eapply IH; try done; lia|].
  all: destruct (Z.gtb_spec ll mid); [eapply IH; try done; lia|].
  all: match type of Hlr with ?a < ?b =>
    destruct (IH (2 * index) a mid ll mid) as (i1 & one & -> & G1 & K1); try done; try lia;
    destruct (IH (2 * index + 1) (mid + 1) b (mid + 1) rr) as (i2 & two & -> & G2 & K2); try done; try lia end.
  all: cbn [mbind option_bind]; rewrite G1; cbn [mbind option_bind]; rewrite G2; cbn [mbind option_bind].
  all: eexists _, (if ngx_segment_tree_min one two >? 0 then one else two); split; [done|];
    split; [by destruct (_ >? 0)|]; apply is_least_min with mid; try done; lia.
Qed.

(** ** The tree as a set of positions *)

(** The tree [t] over the positions [1 .. n] holds the positions of [X]. *)
Definition represents (n : Z) (t : stree) (X : gset Z) : Prop :=
  1 <= n < NGX_MAX_UINT32_VALUE /\ sized n t /\
  seg_get t 0 = Some (mk_snode NGX_MAX_UINT32_VALUE 0) /\ covers t X 1 1 n.

Lemma not_below_zero index : 0 < index -> ~ below index 0.
Proof. intros Hi Hb. apply below_le in Hb; lia. Qed.

Lemma represents_build n X :
  1 <= n < NGX_MAX_UINT32_VALUE -> (forall i, 1 <= i <= n -> i ∈ X) ->
  exists t t', ngx_segment_tree_init true n = (NGX_OK, Some t) /\
    ngx_segment_tree_build t 1 1 n = Some t' /\ represents n t' X.
Proof.
  intros Hn HX. unfold ngx_segment_tree_init. set (t := mk_stree _ _ _). exists t.
  assert (sized n t) as Hs.
  { split_and!; try done. cbn [segments t]. rewrite length_insert, length_replicate, Z.shiftl_mul_pow2 by lia. lia. }
  assert (seg_get t 0 = Some (mk_snode NGX_MAX_UINT32_VALUE 0)) as H0.
  { unfold seg_get. cbn [segments t]. apply list_lookup_insert_eq. rewrite length_replicate, Z.shiftl_mul_pow2 by lia. lia. }
  destruct (build_loop_spec n X (depth 1 n) t 1 1 n) as (t' & Hb & Hs' & Hc & Hf); try done.
  { apply inside_root. lia. } { unfold depth. lia. }
  exists t'. split; [done|]. split; [exact Hb|]. split; [done|]. split; [done|]. split; [|done]. rewrite Hf; [done|].
  apply not_below_zero. lia.
Qed.

Lemma represents_insert n t X pos d :
  represents n t X -> 1 <= pos <= n ->
  exists t', ngx_segment_tree_insert t 1 1 n pos (mk_snode pos d) = Some t' /\ represents n t' ({[pos]} ∪ X).
Proof.
  intros (Hn & Hs & H0 & Hc) Hp.
  destruct (update_spec n X ({[pos]} ∪ X) (fun _ => mk_snode pos d) pos (depth 1 n) t 1 1 n)
    as (t' & Hu & Hs' & Hc' & Hf); try done; try lia.
  { apply inside_root. lia. } { unfold depth. lia. } { set_solver. } { intros _. by rewrite decide_True by set_solver. }
  exists t'. split; [exact Hu|]. split; [done|]. split; [done|]. split; [|done]. rewrite Hf; [done|]. apply not_below_zero. lia.
Qed.

Lemma represents_delete n t X pos :
  represents n t X -> 1 <= pos <= n ->
  exists t', ngx_segment_tree_delete t 1 1 n pos = Some t' /\ represents n t' (X ∖ {[pos]}).
Proof.
  intros (Hn & Hs & H0 & Hc) Hp.
  destruct (update_spec n X (X ∖ {[pos]}) (fun nd => nd <| sg_key := extreme t |>) pos (depth 1 n) t 1 1 n)
    as (t' & Hu & Hs' & Hc' & Hf); try done; try lia.
  { apply inside_root. lia. } { unfold depth. lia. } { set_solver. }
  { intros nd. rewrite decide_False by set_solver. apply Hs. }
  exists t'. split; [exact Hu|]. split; [done|]. split; [done|]. split; [|done]. rewrite Hf; [done|]. apply not_below_zero. lia.
Qed.

Lemma represents_query n t X ll rr :
  represents n t X -> 1 <= ll -> rr <= n ->
  exists i nd, ngx_segment_tree_query t 1 1 n ll rr = Some i /\ seg_get t i = Some nd /\ is_least X ll rr (sg_key nd).
Proof.
  intros (Hn & Hs & H0 & Hc) Hl Hr. eapply query_spec; try done; [lia|]. unfold depth. lia.
Qed.

(** The changes a client makes, on the tree and on the set. *)
Inductive change : Type := Insert (pos d : Z) | Delete (pos : Z).

Definition apply_tree (n : Z) (t : option stree) (c : change) : option stree :=
  t ← t;
  match c with
  | Insert pos d => ngx_segment_tree_insert t 1 1 n pos (mk_snode pos d)
  | Delete pos => ngx_segment_tree_delete t 1 1 n pos
  end.

Definition apply_set (X : gset Z) (c : change) : gset Z :=
  match c with Insert pos _ => {[pos]} ∪ X | Delete pos => X ∖ {[pos]} end.

Definition position (c : change) : Z := match c with Insert pos _ => pos | Delete pos => pos end.

Lemma apply_represents n cs : forall t X,
  represents n t X -> Forall (fun c => 1 <= position c <= n) cs ->
  exists t', foldl (apply_tree n) (Some t) cs = Some t' /\ represents n t' (foldl apply_set X cs).
Proof.
  induction cs as [|c cs IH]; intros t X Hr Hcs; [by exists t|].
  apply Forall_cons_1 in Hcs as [Hc Hcs]. cbn [foldl].
  assert (exists t1, apply_tree n (Some t) c = Some t1 /\ represents n t1 (apply_set X c)) as (t1 & -> & Hr1).
  { destruct c as [pos d|pos]; [by apply represents_insert|by apply represents_delete]. }
  by apply IH.
Qed.

(** C21: A segment tree implements a set of positions: after [init] and [build] over
    [1 .. n] and any insertions and deletions at these positions, a query for a range
    stays inside the array, ends, and points to a node whose key is the smallest
    position of the range in the set, or [extreme] if there is none. *)
Theorem segment_tree_refines n cs ll rr :
  1 <= n < NGX_MAX_UINT32_VALUE -> Forall (fun c => 1 <= position c <= n) cs -> 1 <= ll -> rr <= n ->
  exists t0 t1 t i nd, ngx_segment_tree_init true n = (NGX_OK, Some t0) /\
    ngx_segment_tree_build t0 1 1 n = Some t1 /\ foldl (apply_tree n) (Some t1) cs = Some t /\
    ngx_segment_tree_query t 1 1 n ll rr = Some i /\ seg_get t i = Some nd /\
    is_least (foldl apply_set (list_to_set (seqZ 1 n)) cs) ll rr (sg_key nd).
Proof.
  intros Hn Hcs Hl Hr.
  destruct (represents_build n (list_to_set (seqZ 1 n)) Hn) as (t0 & t1 & H0 & H1 & Hrep).
  { intros i Hi. rewrite elem_of_list_to_set, elem_of_seqZ. lia. }
  destruct (apply_represents n cs _ _ Hrep Hcs) as (t & Ht & Hrep').
  destruct (represents_query n t _ ll rr Hrep' Hl Hr) as (i & nd & Hq & Hg & Hk).
  by exists t0, t1, t, i, nd.
Qed.

Lemma segment_tree_refines_witness :
  exists t0 t1 t i nd, ngx_segment_tree_init true 5 = (NGX_OK, Some t0) /\
    ngx_segment_tree_build t0 1 1 5 = Some t1 /\
    foldl (apply_tree 5) (Some t1) [Delete 2; Delete 3; Delete 1; Insert 3 7] = Some t /\
    ngx_segment_tree_query t 1 1 5 1 4 = Some i /\ seg_get t i = Some nd /\
    is_least (foldl apply_set (list_to_set (seqZ 1 5)) [Delete 2; Delete 3; Delete 1; Insert 3 7]) 1 4 (sg_key nd).
Proof.
  apply (segment_tree_refines 5 [Delete 2; Delete 3; Delete 1; Insert 3 7] 1 4).
  - unfold NGX_MAX_UINT32_VALUE. lia.
  - repeat constructor; cbn; lia.
  - lia.
  - lia.
Defined.

End SegmentTree.
