(* ===== verification/Pool.v ===== *)
(** * Memory pools

    [src/src/core/ngx_palloc.c] and [ngx_palloc.h]: the allocator every request and the configuration use.  A pool
    is a chain of blocks from which small pieces are cut, a list of large pieces that are allocated one by one, and a
    list of handlers that run when it is destroyed.

    The memory of the process is a map from the addresses of live blocks of [malloc] to their sizes.  The C library is
    a parameter: [memalign] chooses an address for a block or fails.  [None] is undefined behaviour: freeing what is
    not a live block.  The contents of the memory are not modelled, only where it is. *)

From stdpp Require Import gmap.
From S2P Require Import Prelude.

Module Pool.

(** ** State *)

Abbreviation ptr := Z.
Definition NULL : ptr := 0.

Abbreviation heap := (gmap Z Z).

(** [ngx_pool_data_t] with the address of its block; [next] is the order of the blocks *)
Record block_t : Type := mk_block { b_addr : Z; b_last : Z; b_end : Z; b_failed : Z }.

#[export] Instance eta_block : Eta block_t := fun b => mk_block (b_addr b) (b_last b) (b_end b) (b_failed b).

(** [ngx_pool_large_t] *)
Record large_t : Type := mk_large { l_addr : Z; l_alloc : ptr }.

(** [ngx_pool_cleanup_t]: the handler, if any, and its data *)
Record cleanup_t : Type := mk_cleanup { c_addr : Z; c_handler : option Z; c_data : ptr }.

(** [ngx_pool_s]: its block is the first one, [current] is the index of a block. *)
Record pool_t : Type := mk_pool {
  blocks : list block_t;
  max : Z;
  current : nat;
  large : list large_t;
  cleanup : list cleanup_t
}.

#[export] Instance eta_pool : Eta pool_t := fun p =>
  mk_pool (blocks p) (max p) (current p) (large p) (cleanup p).

(** [sizeof(ngx_pool_t)], [sizeof(ngx_pool_data_t)], [sizeof(ngx_pool_large_t)], [sizeof(ngx_pool_cleanup_t)],
    [NGX_ALIGNMENT], [NGX_POOL_ALIGNMENT] *)
Definition sizeof_pool : Z := 80.
Definition sizeof_pool_data : Z := 32.
Definition sizeof_large : Z := 16.
Definition sizeof_cleanup : Z := 24.
Definition NGX_ALIGNMENT : Z := 8.
Definition NGX_POOL_ALIGNMENT : Z := 16.

(** [ngx_align_ptr(p, a)] for a power of two [a] *)
Definition ngx_align_ptr (p a : Z) : Z := Z.land (p + (a - 1)) (Z.lnot (a - 1)).

(** [ngx_free]; nothing happens for [NULL] *)
Definition ngx_free (p : ptr) (h : heap) : option heap :=
  if p =? NULL then Some h
  else match h !! p with Some _ => Some (delete p h) | None => None end.

(** [NGX_MIN_POOL_SIZE] and the check of the directives [connection_pool_size] and [request_pool_size] *)
Definition NGX_MIN_POOL_SIZE : Z := ngx_align_ptr (sizeof_pool + 2 * sizeof_large) NGX_POOL_ALIGNMENT.
Definition ngx_http_core_pool_size (size : Z) : bool :=
  if size <? NGX_MIN_POOL_SIZE then false
  else if negb (size mod NGX_POOL_ALIGNMENT =? 0) then false
  else true.

Section Alloc.
(** [ngx_memalign(alignment, size)], of which [ngx_alloc] is the case of the smallest alignment *)
Variable memalign : heap -> Z -> Z -> option Z.
Variable pagesize : Z.

Definition ngx_memalign (alignment size : Z) (h : heap) : ptr * heap :=
  match memalign h alignment size with
  | Some p => (p, <[p := size]> h)
  | None => (NULL, h)
  end.
Definition ngx_alloc (size : Z) (h : heap) : ptr * heap := ngx_memalign NGX_POOL_ALIGNMENT size h.

(** ** Creation *)

(** [ngx_create_pool] *)
Definition ngx_create_pool (size : Z) (h : heap) : option pool_t * heap :=
  let '(p, h) := ngx_memalign NGX_POOL_ALIGNMENT size h in
  if p =? NULL then (None, h)
  else
    let rest := u64 (size - sizeof_pool) in
    let max := if rest <? pagesize - 1 then rest else pagesize - 1 in
    (Some (mk_pool [mk_block p (p + sizeof_pool) (p + size) 0] max 0 [] []), h).

(** ** Allocation *)

(** The loop over the blocks from [current] on in [ngx_palloc] ([aligned]) and [ngx_pnalloc]: the address and
    the blocks, or [None] when no block has room.  The difference of pointers is compared as [size_t]. *)
Fixpoint from_blocks (aligned : bool) (size : Z) (bs : list block_t) : option (Z * list block_t) :=
  match bs with
  | [] => None
  | b :: bs' =>
      let m := if aligned then ngx_align_ptr (b_last b) NGX_ALIGNMENT else b_last b in
      if u64 (b_end b - m) >=? size then Some (m, b <| b_last := m + size |> :: bs')
      else
        match from_blocks aligned size bs' with
        | Some (m, bs') => Some (m, b :: bs')
        | None => None
        end
  end.

(** The loop of [ngx_palloc_block]: [failed] is counted in all blocks but the last, and [current] moves behind
    those that have failed more than four times. *)
Fixpoint count_failed (i : nat) (bs : list block_t) (cur : nat) : list block_t * nat :=
  match bs with
  | [] => ([], cur)
  | [b] => ([b], cur)
  | b :: bs' =>
      let cur := if b_failed b >? 4 then S i else cur in
      let '(bs', cur) := count_failed (S i) bs' cur in
      (b <| b_failed := b_failed b + 1 |> :: bs', cur)
  end.

(** [ngx_palloc_block] *)
Definition ngx_palloc_block (size : Z) (p : pool_t) (h : heap) : option (ptr * pool_t * heap) :=
  b0 ← head (blocks p);
  let psize := b_end b0 - b_addr b0 in
  let '(m, h) := ngx_memalign NGX_POOL_ALIGNMENT psize h in
  if m =? NULL then Some (NULL, p, h)
  else
    let start := ngx_align_ptr (m + sizeof_pool_data) NGX_ALIGNMENT in
    let new := mk_block m (start + size) (m + psize) 0 in
    let before := take (current p) (blocks p) in
    let '(bs, cur) := count_failed (current p) (drop (current p) (blocks p)) (current p) in
    Some (start, p <| blocks := before ++ bs ++ [new] |> <| current := cur |>, h).

(** The branch [size <= pool->max] *)
Definition palloc_small (aligned : bool) (size : Z) (p : pool_t) (h : heap) : option (ptr * pool_t * heap) :=
  match from_blocks aligned size (drop (current p) (blocks p)) with
  | Some (m, bs) => Some (m, p <| blocks := take (current p) (blocks p) ++ bs |>, h)
  | None => ngx_palloc_block size p h
  end.

(** The loop of [ngx_palloc_large] over the first entries, for one that was freed *)
Fixpoint reuse_large (n : nat) (ls : list large_t) (a : ptr) : option (list large_t) :=
  match ls with
  | [] => None
  | l :: ls' =>
      if l_alloc l =? NULL then Some (mk_large (l_addr l) a :: ls')
      else if (3 <? n)%nat then None
      else cons l <$> reuse_large (S n) ls' a
  end.

(** The entry of a large piece is itself allocated from the pool, whose [max] is not less than its size
    (otherwise the functions would call each other without end). *)
Definition add_large (a : ptr) (p : pool_t) (h : heap) : option (ptr * pool_t * heap) :=
  if sizeof_large <=? max p then
    '(l, p, h) ← palloc_small true sizeof_large p h;
    if l =? NULL then h ← ngx_free a h; Some (NULL, p, h)
    else Some (a, p <| large := mk_large l a :: large p |>, h)
  else None.

(** [ngx_palloc_large] *)
Definition ngx_palloc_large (size : Z) (p : pool_t) (h : heap) : option (ptr * pool_t * heap) :=
  let '(a, h) := ngx_alloc size h in
  if a =? NULL then Some (NULL, p, h)
  else
    match reuse_large 0 (large p) a with
    | Some ls => Some (a, p <| large := ls |>, h)
    | None => add_large a p h
    end.

(** [ngx_palloc], [ngx_pnalloc] *)
Definition palloc (aligned : bool) (size : Z) (p : pool_t) (h : heap) : option (ptr * pool_t * heap) :=
  if size <=? max p then palloc_small aligned size p h else ngx_palloc_large size p h.
Definition ngx_palloc : Z -> pool_t -> heap -> option (ptr * pool_t * heap) := palloc true.
Definition ngx_pnalloc : Z -> pool_t -> heap -> option (ptr * pool_t * heap) := palloc false.

(** [ngx_pmemalign] *)
Definition ngx_pmemalign (size alignment : Z) (p : pool_t) (h : heap) : option (ptr * pool_t * heap) :=
  let '(a, h) := ngx_memalign alignment size h in
  if a =? NULL then Some (NULL, p, h) else add_large a p h.

(** [ngx_pool_cleanup_add]: the address of the entry *)
Definition ngx_pool_cleanup_add (size : Z) (p : pool_t) (h : heap) : option (ptr * pool_t * heap) :=
  '(c, p, h) ← ngx_palloc sizeof_cleanup p h;
  if c =? NULL then Some (NULL, p, h)
  else
    '(d, p, h) ← (if size =? 0 then Some (NULL, p, h) else ngx_palloc size p h);
    if negb (size =? 0) && (d =? NULL) then Some (NULL, p, h)
    else Some (c, p <| cleanup := mk_cleanup c None d :: cleanup p |>, h).

(** ** Release *)

(** The loop of [ngx_pfree] *)
Fixpoint pfree_loop (ls : list large_t) (a : ptr) (h : heap) : option (Z * list large_t * heap) :=
  match ls with
  | [] => Some (NGX_DECLINED, [], h)
  | l :: ls' =>
      if a =? l_alloc l then h ← ngx_free (l_alloc l) h; Some (NGX_OK, mk_large (l_addr l) NULL :: ls', h)
      else '(rc, ls', h) ← pfree_loop ls' a h; Some (rc, l :: ls', h)
  end.

(** [ngx_pfree] *)
Definition ngx_pfree (a : ptr) (p : pool_t) (h : heap) : option (Z * pool_t * heap) :=
  '(rc, ls, h) ← pfree_loop (large p) a h; Some (rc, p <| large := ls |>, h).

(** [ngx_prealloc]: the loop over the nodes *)
Fixpoint resize_in (a old_size new_size : Z) (bs : list block_t) : option (list block_t) :=
  match bs with
  | [] => None
  | b :: bs' =>
      if (a + old_size =? b_last b) && (a + new_size <=? b_end b)
      then Some (b <| b_last := a + new_size |> :: bs')
      else cons b <$> resize_in a old_size new_size bs'
  end.

(** [ngx_prealloc] *)
Definition ngx_prealloc (a old_size new_size : Z) (p : pool_t) (h : heap) : option (ptr * pool_t * heap) :=
  if a =? NULL then ngx_palloc new_size p h
  else if new_size =? 0 then
    match blocks p with
    | [] => None
    | b0 :: bs =>
        if a + old_size =? b_last b0 then Some (NULL, p <| blocks := b0 <| b_last := a |> :: bs |>, h)
        else '(_, p, h) ← ngx_pfree a p h; Some (NULL, p, h)
    end
  else
    match (if old_size <=? max p then resize_in a old_size new_size (blocks p) else None) with
    | Some bs => Some (a, p <| blocks := bs |>, h)
    | None =>
        if new_size <=? old_size then Some (a, p, h)
        else
          '(new, p, h) ← ngx_palloc new_size p h;
          if new =? NULL then Some (NULL, p, h)
          else '(_, p, h) ← ngx_pfree a p h; Some (new, p, h)
    end.

(** The loops over the large pieces in [ngx_destroy_pool] and [ngx_reset_pool] *)
Fixpoint free_large (ls : list large_t) (h : heap) : option heap :=
  match ls with
  | [] => Some h
  | l :: ls' => h ← (if l_alloc l =? NULL then Some h else ngx_free (l_alloc l) h); free_large ls' h
  end.

Fixpoint free_blocks (bs : list block_t) (h : heap) : option heap :=
  match bs with [] => Some h | b :: bs' => h ← ngx_free (b_addr b) h; free_blocks bs' h end.

(** The first loop of [ngx_destroy_pool]: the calls of the handlers, each with its data and the memory it finds.  What
    the handlers do (close files and the like) is their own. *)
Definition run_cleanup (h : heap) (cs : list cleanup_t) : list (Z * ptr * heap) :=
  omap (fun c => match c_handler c with Some f => Some (f, c_data c, h) | None => None end) cs.

(** [ngx_pool_run_cleanup_file]: the first open file [fd] is closed now; [file] is the handler
    [ngx_pool_cleanup_file] and [fd_of] reads the descriptor of the data of an entry. *)
Fixpoint ngx_pool_run_cleanup_file (file : Z) (fd_of : ptr -> Z) (fd : Z) (cs : list cleanup_t)
    : option (Z * ptr) * list cleanup_t :=
  match cs with
  | [] => (None, [])
  | c :: cs' =>
      if bool_decide (c_handler c = Some file) && (fd_of (c_data c) =? fd)
      then (Some (file, c_data c), mk_cleanup (c_addr c) None (c_data c) :: cs')
      else let '(r, cs') := ngx_pool_run_cleanup_file file fd_of fd cs' in (r, c :: cs')
  end.

(** [ngx_destroy_pool]: the handlers run first, in the memory as it is then; their calls, and the memory that is left *)
Definition ngx_destroy_pool (p : pool_t) (h : heap) : option (list (Z * ptr * heap) * heap) :=
  let calls := run_cleanup h (cleanup p) in
  h ← free_large (large p) h;
  h ← free_blocks (blocks p) h;
  Some (calls, h).

(** [ngx_reset_pool] *)
Definition ngx_reset_pool (p : pool_t) (h : heap) : option (pool_t * heap) :=
  h ← free_large (large p) h;
  let bs := (fun b => b <| b_last := b_addr b + sizeof_pool |> <| b_failed := 0 |>) <$> blocks p in
  Some (p <| blocks := bs |> <| current := 0%nat |> <| large := [] |>, h).
End Alloc.
End Pool.
