(* ===== verification/PoolSafety.v ===== *)
(** * Memory pools are safe

    The contract of [Pool] with its clients: an invariant of a pool and of the memory it has taken from [malloc],
    which every operation of [src/src/core/ngx_palloc.c] keeps, and what follows for any sequence of operations. *)

From stdpp Require Import gmap.
From S2P Require Import Prelude Pool.

Module PoolSafety.
Import Pool.

(** ** Ranges of memory *)

(** No byte of one range is in the other. *)
Definition disj (r s : Z * Z) : Prop := forall x, ~ (r.1 <= x < r.1 + r.2 /\ s.1 <= x < s.1 + s.2).
Definition pairwise (l : list (Z * Z)) : Prop := ForallOrdPairs disj l.

Lemma disj_sym r s : disj r s -> disj s r.
Proof. intros H x Hx. apply (H x). tauto. Qed.

Lemma pairwise_app l k : pairwise (l ++ k) <-> pairwise l /\ pairwise k /\ forall r s, r ∈ l -> s ∈ k -> disj r s.
Proof.
  unfold pairwise. induction l as [|x l IH]; cbn.
  - split; [intros H; split; [constructor|]; split; [done|]; intros r s Hr; inversion Hr|tauto].
  - split.
    + inversion_clear 1 as [|? ? Hx Hl]. apply IH in Hl as (H1 & H2 & H3). apply Forall_app in Hx as [Hx1 Hx2].
      split; [constructor; done|]. split; [done|]. intros r s Hr Hs. apply elem_of_cons in Hr as [->|Hr]; [|eauto].
      rewrite list.Forall_forall in Hx2. auto.
    + intros (H1 & H2 & H3). inversion_clear H1 as [|? ? Hx Hl]. constructor.
      * apply Forall_app. split; [done|]. apply list.Forall_forall. intros s Hs. apply H3; [left|done].
      * apply IH. split; [done|]. split; [done|]. intros r s Hr Hs. apply H3; [by right|done].
Qed.

Lemma pairwise_cons x l : pairwise (x :: l) <-> pairwise l /\ forall s, s ∈ l -> disj x s.
Proof.
  rewrite (pairwise_app [x] l). split.
  - intros (_ & H & Hx). split; [done|]. intros s. apply Hx. left.
  - intros [H Hx]. split; [repeat constructor|]. split; [done|]. intros r s Hr. apply list_elem_of_singleton in Hr as ->. auto.
Qed.

Lemma pairwise_perm l k : l ≡ₚ k -> pairwise l -> pairwise k.
Proof.
  induction 1 as [|x l k P IH|x y l|l k m P1 IH1 P2 IH2]; intros H; [done| | |by apply IH2, IH1].
  - apply pairwise_cons in H as [H Hx]. apply pairwise_cons. split; [auto|]. intros s Hs. apply Hx. rewrite P. done.
  - apply pairwise_cons in H as [H Hy]. apply pairwise_cons in H as [H Hx].
    apply pairwise_cons. split; [apply pairwise_cons; split; [done|]; intros s Hs; apply Hy; right; done|].
    intros s Hs. apply elem_of_cons in Hs as [->|Hs]; [apply disj_sym, Hy; left|auto].
Qed.

(** ** Alignment *)

Lemma align_ptr8 x : ngx_align_ptr x 8 = (x + 7) / 8 * 8.
Proof.
  unfold ngx_align_ptr. change (8 - 1) with 7. rewrite <- Z.ldiff_land. change 7 with (Z.ones 3) at 2.
  rewrite Z.ldiff_ones_r, Z.shiftl_mul_pow2, Z.shiftr_div_pow2 by lia. done.
Qed.

Lemma align8_bounds x : x <= ngx_align_ptr x 8 < x + 8 /\ (8 | ngx_align_ptr x 8).
Proof.
  rewrite align_ptr8. pose proof (Z.div_mod (x + 7) 8 ltac:(lia)). pose proof (Z.mod_pos_bound (x + 7) 8 ltac:(lia)).
  split; [lia|]. exists ((x + 7) / 8). done.
Qed.

(** An aligned address is not pushed over an aligned end. *)
Lemma align8_le x e : x <= e -> (8 | e) -> ngx_align_ptr x 8 <= e.
Proof. intros Hx [k ->]. destruct (align8_bounds x) as [Hb [j Hj]]. rewrite Hj in *. lia. Qed.

(** ** The invariant of a pool *)

(** The live blocks of the process are apart from each other. *)
Definition heap_ok (h : heap) : Prop :=
  (forall a n, h !! a = Some n -> 0 < a /\ 0 < n /\ a + n < 2 ^ 64) /\
  (forall a n b m, h !! a = Some n -> h !! b = Some m -> a <> b -> disj (a, n) (b, m)).

(** What is documented of [malloc] and [posix_memalign]: the block is apart from the live ones and aligned for any
    object. *)
Class MallocSpec (memalign : heap -> Z -> Z -> option Z) : Prop := {
  malloc_fresh h al n a : heap_ok h -> 0 < n -> memalign h al n = Some a ->
    0 < a /\ a + n < 2 ^ 64 /\ (8 | a) /\ forall b m, h !! b = Some m -> disj (a, n) (b, m)
}.

(** The addresses a pool has to free. *)
Definition allocs (ls : list large_t) : list Z := filter (fun a => a <> NULL) (l_alloc <$> ls).
Definition owned (p : pool_t) : list Z := (b_addr <$> blocks p) ++ allocs (large p).

(** A range lies in the used part of a block or is a large piece. *)
Definition placed (p : pool_t) (h : heap) (r : Z * Z) : Prop :=
  (exists b, b ∈ blocks p /\ b_addr b <= r.1 /\ r.1 + r.2 <= b_last b) \/
  (r.1 ∈ allocs (large p) /\ exists n, h !! r.1 = Some n /\ r.2 <= n).

(** The structures of the pool itself: the heads of the blocks and the entries of the two lists *)
Definition heads (l : list Z) : list (Z * Z) :=
  match l with [] => [] | a :: l => (a, sizeof_pool) :: ((fun a => (a, sizeof_pool_data)) <$> l) end.
Definition structs (p : pool_t) : list (Z * Z) :=
  heads (b_addr <$> blocks p) ++ ((fun l => (l_addr l, sizeof_large)) <$> large p) ++
  ((fun c => (c_addr c, sizeof_cleanup)) <$> cleanup p).

Definition covers (l : list (Z * Z)) (p : pool_t) : Prop :=
  Forall (fun r => exists n, r.2 <= n /\ (r.1, n) ∈ l) (structs p).
(** With the ranges [extra], what covered the structures of [p] covers those of [p']. *)
Definition keeps (p p' : pool_t) (extra : list (Z * Z)) : Prop :=
  forall l, covers l p -> covers (extra ++ l) p'.

Definition block_ok (h : heap) (psize : Z) (b : block_t) : Prop :=
  h !! b_addr b = Some psize /\ b_end b = b_addr b + psize /\ (8 | b_end b) /\
  b_addr b + sizeof_pool_data <= b_last b /\ b_last b <= b_end b.

(** [h0] is the memory without the pool; [live] are the ranges that are in use, with the pool's own structures. *)
Record inv (h0 : heap) (psize : Z) (p : pool_t) (h : heap) (live : list (Z * Z)) : Prop := {
  i_size : sizeof_large <= max p /\ max p + sizeof_pool <= psize /\ (8 | psize);
  i_blocks : Forall (block_ok h psize) (blocks p);
  i_cur : (current p < length (blocks p))%nat;
  i_nodup : NoDup (owned p);
  i_large : Forall (fun a => is_Some (h !! a)) (allocs (large p));
  i_heap : heap_ok h;
  i_rest : forall a, (a ∈ owned p -> h0 !! a = None) /\ (a ∉ owned p -> h !! a = h0 !! a);
  i_placed : Forall (placed p h) live;
  i_live : pairwise live
}.

Ltac fields := cbv [update]; cbn [blocks max current large cleanup b_addr b_last b_end b_failed l_addr l_alloc fst snd].

Section Proofs.
Context {memalign : heap -> Z -> Z -> option Z} `{!MallocSpec memalign}.
Variable h0 : heap.
Variable psize : Z.

Lemma placed_blocks p bs h r : (forall b, b ∈ blocks p -> exists b', b' ∈ bs /\ b_addr b' = b_addr b /\ b_last b <= b_last b') ->
  placed p h r -> placed (p <| blocks := bs |>) h r.
Proof.
  intros Hb [(b & Hin & H1 & H2)|H]; [|by right]. left. destruct (Hb b Hin) as (b' & Hin' & Ha & Hl).
  exists b'. cbn. split; [done|]. lia.
Qed.

Lemma placed_heap p h h' r : h ⊆ h' -> placed p h r -> placed p h' r.
Proof. intros Hs [H|(H1 & n & H2 & H3)]; [by left|right]. split; [done|]. exists n. split; [exact (lookup_weaken _ _ _ _ H2 Hs)|done]. Qed.

(** Ranges of different owners are apart. *)
Lemma heap_disj h a n b m r s : heap_ok h -> h !! a = Some n -> h !! b = Some m -> a <> b ->
  a <= r.1 -> r.1 + r.2 <= a + n -> b <= s.1 -> s.1 + s.2 <= b + m -> disj r s.
Proof. intros [_ Hd] Ha Hb Hne H1 H2 H3 H4 x Hx. apply (Hd a n b m Ha Hb Hne x). cbn. lia. Qed.

(** The owner of a placed range. *)
Lemma placed_owner p h live r : inv h0 psize p h live -> placed p h r ->
  exists a n, a ∈ owned p /\ h !! a = Some n /\ a <= r.1 /\ r.1 + r.2 <= a + n.
Proof.
  intros Hi [(b & Hb & H1 & H2)|(H1 & n & H2 & H3)].
  - pose proof (i_blocks _ _ _ _ _ Hi) as Hbs. rewrite list.Forall_forall in Hbs.
    destruct (Hbs b Hb) as (E1 & E2 & _ & _ & E3). exists (b_addr b), psize.
    split; [|split; [done|lia]]. unfold owned. apply elem_of_app. left. apply list_elem_of_fmap. eauto.
  - exists r.1, n. split; [unfold owned; apply elem_of_app; by right|]. split; [done|lia].
Qed.

(** A range behind the used part of a block is apart from all that is placed. *)
Lemma behind_last p h live b m n : inv h0 psize p h live -> b ∈ blocks p -> b_last b <= m -> m + n <= b_end b ->
  forall r, placed p h r -> disj (m, n) r.
Proof.
  intros Hi Hb H1 H2 r Hr. pose proof (i_blocks _ _ _ _ _ Hi) as Hbs. rewrite list.Forall_forall in Hbs.
  destruct (Hbs b Hb) as (E1 & E2 & _ & E4 & E3). pose proof (i_nodup _ _ _ _ _ Hi) as Hnd.
  unfold sizeof_pool_data in E4.
  destruct Hr as [(b' & Hb' & H3 & H4)|(H3 & k & H4 & H5)].
  - destruct (Hbs b' Hb') as (F1 & F2 & _ & F4 & F3). destruct (decide (b_addr b' = b_addr b)) as [E|E].
    + assert (b' = b) as ->.
      { apply list_elem_of_lookup in Hb as [i Hi1], Hb' as [j Hj1]. unfold owned in Hnd. apply list.NoDup_app in Hnd as [Hnd _].
        assert (i = j) as <-; [|congruence]. apply (NoDup_lookup (b_addr <$> blocks p) i j (b_addr b) Hnd).
        - rewrite list_lookup_fmap, Hi1. done.
        - rewrite list_lookup_fmap, Hj1. cbn. f_equal. done. }
      intros x Hx. cbn in Hx. lia.
    + apply (heap_disj h (b_addr b) psize (b_addr b') psize); cbn; try done; try lia; try congruence. apply Hi.
  - apply (heap_disj h (b_addr b) psize r.1 k); cbn; try done; try lia; [apply Hi|].
    intros E. unfold owned in Hnd. apply list.NoDup_app in Hnd as (_ & Hnd & _). apply (Hnd r.1); [|done].
    rewrite <- E. apply list_elem_of_fmap. eauto.
Qed.

Lemma from_blocks_ok aligned size bs : 0 <= size -> size < 2 ^ 64 ->
  (forall b, b ∈ bs -> b_last b <= b_end b /\ b_end b - b_last b < 2 ^ 64 /\ (8 | b_end b)) ->
  match from_blocks aligned size bs with
  | Some (m, bs') => exists pre b post, bs = pre ++ b :: post /\ bs' = pre ++ b <| b_last := m + size |> :: post /\
      b_last b <= m /\ m + size <= b_end b /\ (aligned = true -> (8 | m))
  | None => True
  end.
Proof.
  intros H0 H64. induction bs as [|b bs IH]; intros Hb; cbn [from_blocks]; [done|].
  destruct (Hb b ltac:(left)) as (B1 & B2 & B3).
  set (m := if aligned then ngx_align_ptr (b_last b) NGX_ALIGNMENT else b_last b).
  assert (Hm : b_last b <= m <= b_end b /\ (aligned = true -> (8 | m))).
  { unfold m. destruct aligned; [|split; [lia|done]]. pose proof (align8_bounds (b_last b)) as [? ?].
    pose proof (align8_le _ _ B1 B3). unfold NGX_ALIGNMENT. split; [lia|done]. }
  rewrite u64_small by lia. destruct (Z.geb_spec (b_end b - m) size) as [Hge|Hlt].
  - exists [], b, bs. split; [done|]. split; [done|]. split; [lia|]. split; [lia|]. apply Hm.
  - specialize (IH ltac:(intros b' Hin; apply Hb; by right)).
    destruct (from_blocks aligned size bs) as [[m' bs']|]; [|done].
    destruct IH as (pre & b1 & post & -> & -> & H). exists (b :: pre), b1, post. done.
Qed.

(** *** Changes of a pool *)

Definition shape (b : block_t) : Z * Z * Z := (b_addr b, b_last b, b_end b).

Lemma shape_elem (bs bs' : list block_t) b : shape <$> bs = shape <$> bs' -> b ∈ bs -> exists b', b' ∈ bs' /\ shape b' = shape b.
Proof.
  intros E Hb. assert (Hs : shape b ∈ shape <$> bs) by (apply list_elem_of_fmap; eauto).
  rewrite E in Hs. apply list_elem_of_fmap in Hs as (b' & Hs & Hb'). eauto.
Qed.

Lemma shape_addr (bs bs' : list block_t) : shape <$> bs = shape <$> bs' -> b_addr <$> bs = b_addr <$> bs'.
Proof.
  intros E. apply (f_equal (fmap (fun s : Z * Z * Z => s.1.1))) in E. rewrite <- !list_fmap_compose in E. exact E.
Qed.

(** The counters of failures and the current block do not matter. *)
Lemma inv_reshape p h live bs cur : inv h0 psize p h live -> shape <$> bs = shape <$> blocks p ->
  (cur < length bs)%nat -> inv h0 psize (p <| blocks := bs |> <| current := cur |>) h live.
Proof.
  intros [H1 H2 H3 H4 H5 H6 H7 H8 H9] E Hc.
  assert (Eo : owned (p <| blocks := bs |> <| current := cur |>) = owned p).
  { unfold owned. cbv [update]. cbn [blocks large]. rewrite (shape_addr _ _ E). done. }
  constructor; rewrite ?Eo; try done.
  - apply list.Forall_forall. intros b Hb. destruct (shape_elem _ _ _ E Hb) as (b' & Hb' & Es).
    rewrite list.Forall_forall in H2. specialize (H2 b' Hb'). unfold block_ok in *.
    injection Es as E1 E2 E3. rewrite E1, E2, E3 in H2. done.
  - eapply list.Forall_impl; [exact H8|]. intros r Hr.
    apply (placed_blocks p bs); [|done]. intros b Hb.
    destruct (shape_elem (blocks p) bs b ltac:(done) Hb) as (b' & Hb' & Es). injection Es as E1 E2 E3.
    exists b'. split; [done|]. split; [done|lia].
Qed.

Lemma heap_ok_insert h a n : heap_ok h -> 0 < a -> 0 < n -> a + n < 2 ^ 64 ->
  (forall b m, h !! b = Some m -> disj (a, n) (b, m)) -> heap_ok (<[a := n]> h).
Proof.
  intros [H1 H2] Ha Hn H64 Hd. split.
  - intros b m Hl. apply lookup_insert_Some in Hl as [[<- <-]|[_ Hl]]; [done|exact (H1 b m Hl)].
  - intros b m c k Hb Hc Hne. apply lookup_insert_Some in Hb as [[<- <-]|[N1 Hb]];
      apply lookup_insert_Some in Hc as [[<- <-]|[N2 Hc]]; try done; [by apply Hd| |by eapply H2].
    apply disj_sym, Hd. done.
Qed.

Lemma heap_fresh h a n : heap_ok h -> 0 < n -> (forall b m, h !! b = Some m -> disj (a, n) (b, m)) -> h !! a = None.
Proof.
  intros [H1 _] Hn Hd. destruct (h !! a) as [m|] eqn:E; [|done]. destruct (H1 a m E) as (_ & Hm & _).
  destruct (Hd a m E a). cbn. lia.
Qed.

(** A new block of [malloc] changes nothing for the pool. *)
Lemma inv_malloc p h live a n : inv h0 psize p h live -> 0 < a -> 0 < n -> a + n < 2 ^ 64 ->
  (forall b m, h !! b = Some m -> disj (a, n) (b, m)) ->
  heap_ok (<[a := n]> h) /\ h ⊆ <[a := n]> h /\ h !! a = None /\ a ∉ owned p /\ h0 !! a = None /\
  Forall (block_ok (<[a := n]> h) psize) (blocks p) /\
  Forall (fun x => is_Some (<[a := n]> h !! x)) (allocs (large p)) /\
  (forall r, r ∈ live -> disj (a, n) r).
Proof.
  intros Hi Ha Hn H64 Hd. pose proof (i_heap _ _ _ _ _ Hi) as Hh. pose proof (heap_fresh h a n Hh Hn Hd) as Hf.
  assert (Hs : h ⊆ <[a := n]> h) by (apply insert_subseteq; done).
  assert (Ho : a ∉ owned p).
  { intros Hin. unfold owned in Hin. apply elem_of_app in Hin as [Hin|Hin].
    - apply list_elem_of_fmap in Hin as (b & -> & Hb). pose proof (i_blocks _ _ _ _ _ Hi) as Hbs.
      rewrite list.Forall_forall in Hbs. destruct (Hbs b Hb) as [E _]. congruence.
    - pose proof (i_large _ _ _ _ _ Hi) as Hl. rewrite list.Forall_forall in Hl. destruct (Hl a Hin). congruence. }
  split; [apply heap_ok_insert; done|]. split; [done|]. split; [done|]. split; [done|].
  split; [rewrite <- (proj2 (i_rest _ _ _ _ _ Hi a) Ho); done|].
  split; [|split].
  - eapply list.Forall_impl; [apply (i_blocks _ _ _ _ _ Hi)|]. intros b (E & Hb). split; [|done].
    exact (lookup_weaken _ _ _ _ E Hs).
  - eapply list.Forall_impl; [apply (i_large _ _ _ _ _ Hi)|]. intros x [y Hy]. exists y. exact (lookup_weaken _ _ _ _ Hy Hs).
  - intros r Hr. pose proof (i_placed _ _ _ _ _ Hi) as Hp. rewrite list.Forall_forall in Hp.
    destruct (placed_owner _ _ _ _ Hi (Hp r Hr)) as (b & m & _ & Hb & H1 & H2).
    intros x Hx. apply (Hd b m Hb x). cbn in *. lia.
Qed.

(** Adding a block, from which the first piece is cut. *)
Lemma inv_add_block p h live a size : inv h0 psize p h live -> memalign h NGX_POOL_ALIGNMENT psize = Some a ->
  0 <= size <= max p -> let m := ngx_align_ptr (a + sizeof_pool_data) NGX_ALIGNMENT in
  a <> NULL /\ m <> NULL /\ (8 | m) /\ h ⊆ <[a := psize]> h /\
  inv h0 psize (p <| blocks := blocks p ++ [mk_block a (m + size) (a + psize) 0] |>) (<[a := psize]> h)
    ((m, size) :: (a, sizeof_pool_data) :: live).
Proof.
  intros Hi Em Hsz m. destruct (i_size _ _ _ _ _ Hi) as (S1 & S2 & S3). unfold sizeof_pool, sizeof_large in *.
  destruct (malloc_fresh h _ psize a (i_heap _ _ _ _ _ Hi) ltac:(lia) Em) as (Ha & H64 & H8 & Hd).
  destruct (inv_malloc p h live a psize Hi Ha ltac:(lia) H64 Hd) as (Hh & Hs & Hf & Ho & H0 & Hbs & Hl & Hlive).
  assert (Hm : m = a + 32).
  { unfold m, NGX_ALIGNMENT, sizeof_pool_data. rewrite align_ptr8. destruct H8 as [k ->].
    replace (k * 8 + 32 + 7) with (7 + (k + 4) * 8) by lia. rewrite Z.div_add by lia. change (7 / 8) with 0. lia. }
  assert (H8m : (8 | m)) by (rewrite Hm; apply Z.divide_add_r; [done|exists 4; done]).
  assert (Hin : forall r, r ∈ live -> forall s, a <= s.1 -> s.1 + s.2 <= a + psize -> disj s r).
  { intros r Hr s Hs1 Hs2 x Hx. apply (Hlive r Hr x). cbn. lia. }
  split; [unfold NULL; lia|]. split; [unfold NULL; lia|]. split; [done|]. split; [done|].
  assert (Eo : owned (p <| blocks := blocks p ++ [mk_block a (m + size) (a + psize) 0] |>) ≡ₚ a :: owned p).
  { unfold owned. cbv [update]. cbn [blocks large]. rewrite fmap_app. cbn. rewrite <- app_assoc. symmetry. apply Permutation_middle. }
  constructor; cbv [update]; cbn [max blocks current large cleanup].
  - done.
  - apply Forall_app. split; [done|]. constructor; [|constructor]. split; [apply lookup_insert_eq|]. cbn.
    split; [done|]. split; [apply Z.divide_add_r; done|]. unfold sizeof_pool_data. lia.
  - rewrite length_app. pose proof (i_cur _ _ _ _ _ Hi). cbn. lia.
  - rewrite Eo. constructor; [done|apply (i_nodup _ _ _ _ _ Hi)].
  - done.
  - done.
  - intros x. rewrite Eo, elem_of_cons. destruct (i_rest _ _ _ _ _ Hi x) as [R1 R2]. split.
    + intros [->|Hx]; [done|auto].
    + intros Hx. rewrite lookup_insert_ne by (intros ->; tauto). apply R2. tauto.
  - assert (Hnew : forall r, a <= r.1 -> r.1 + r.2 <= m + size ->
      placed (p <| blocks := blocks p ++ [mk_block a (m + size) (a + psize) 0] |>) (<[a := psize]> h) r).
    { intros r H1 H2. left. eexists. split; [cbn; apply elem_of_app; right; left|]. cbn. lia. }
    constructor; [apply Hnew; cbn; lia|]. constructor; [apply Hnew; unfold sizeof_pool_data; cbn; lia|].
    eapply list.Forall_impl; [apply (i_placed _ _ _ _ _ Hi)|]. intros r Hr. apply (placed_heap _ h); [done|].
    apply (placed_blocks p); [|done]. intros b Hb. exists b. split; [apply elem_of_app; by left|]. split; [done|lia].
  - apply pairwise_cons. split.
    + apply pairwise_cons. split; [apply (i_live _ _ _ _ _ Hi)|]. intros r Hr. apply Hin; unfold sizeof_pool_data; cbn; try done; lia.
    + intros r Hr. apply elem_of_cons in Hr as [->|Hr]; [|apply Hin; cbn; try done; lia].
      intros x Hx. unfold sizeof_pool_data in Hx. cbn in Hx. lia.
Qed.

Lemma inv_perm p h live live' : live ≡ₚ live' -> inv h0 psize p h live -> inv h0 psize p h live'.
Proof.
  intros P [H1 H2 H3 H4 H5 H6 H7 H8 H9]. constructor; try done; [rewrite <- P; done|].
  apply (pairwise_perm live); done.
Qed.

(** Moving the end of the used part of a block. *)
Definition set_last (p : pool_t) (pre : list block_t) (b : block_t) (post : list block_t) (l : Z) : pool_t :=
  p <| blocks := pre ++ b <| b_last := l |> :: post |>.

Lemma inv_set_last p h live live' pre b post l : inv h0 psize p h live -> blocks p = pre ++ b :: post ->
  b_addr b + sizeof_pool_data <= l <= b_end b ->
  Forall (placed (set_last p pre b post l) h) live' -> pairwise live' ->
  inv h0 psize (set_last p pre b post l) h live'.
Proof.
  intros [H1 H2 H3 H4 H5 H6 H7 H8 H9] E Hl Hp Hd.
  assert (Eo : owned (set_last p pre b post l) = owned p).
  { unfold owned, set_last. cbv [update]. cbn [blocks large]. rewrite E, !fmap_app. done. }
  constructor; rewrite ?Eo; try done; unfold set_last; cbv [update]; cbn [blocks large current max].
  - rewrite E in H2. apply Forall_app in H2 as [F1 F2]. inversion_clear F2 as [|? ? Fb F3].
    apply Forall_app. split; [done|]. constructor; [|done]. destruct Fb as (B1 & B2 & B3 & B4 & B5). unfold block_ok. cbn. split; [done|]. split; [done|]. split; [done|]. exact Hl.
  - rewrite E, length_app in H3. rewrite length_app. cbn in *. done.
Qed.

Lemma placed_set_last p h pre b post l r : blocks p = pre ++ b :: post -> b_last b <= l ->
  placed p h r -> placed (set_last p pre b post l) h r.
Proof.
  intros E Hl. apply placed_blocks. rewrite E. intros b' Hb'. apply elem_of_app in Hb' as [Hb'|Hb'].
  - exists b'. split; [set_solver|]. split; [done|lia].
  - apply elem_of_cons in Hb' as [->|Hb'].
    + exists (b <| b_last := l |>). split; [apply elem_of_app; right; left|]. fields. done.
    + exists b'. split; [set_solver|]. split; [done|lia].
Qed.

(** Cutting a piece from a block. *)
Lemma inv_cut p h live pre b post m size : inv h0 psize p h live -> blocks p = pre ++ b :: post ->
  b_last b <= m -> m + size <= b_end b -> 0 <= size ->
  m <> NULL /\ inv h0 psize (set_last p pre b post (m + size)) h ((m, size) :: live).
Proof.
  intros Hi E H1 H2 H3. assert (Hb : b ∈ blocks p) by (rewrite E; set_solver).
  pose proof (i_blocks _ _ _ _ _ Hi) as Hbs. rewrite list.Forall_forall in Hbs. destruct (Hbs b Hb) as (E1 & E2 & E3 & E4 & E5).
  unfold sizeof_pool_data in E4. destruct (proj1 (i_heap _ _ _ _ _ Hi) _ _ E1) as [Hpos _].
  split; [unfold NULL; lia|].
  apply (inv_set_last p h live); try done; [unfold sizeof_pool_data; lia| |].
  - constructor.
    + left. exists (b <| b_last := m + size |>). split; [apply elem_of_app; right; left|]. fields. lia.
    + eapply list.Forall_impl; [apply (i_placed _ _ _ _ _ Hi)|]. intros r. apply placed_set_last; [done|lia].
  - apply pairwise_cons. split; [apply (i_live _ _ _ _ _ Hi)|]. intros r Hr.
    pose proof (i_placed _ _ _ _ _ Hi) as Hp. rewrite list.Forall_forall in Hp.
    apply (behind_last p h live b m size Hi Hb H1 H2 r (Hp r Hr)).
Qed.

Lemma count_failed_ok i bs cur : let '(bs', cur') := count_failed i bs cur in
  shape <$> bs' = shape <$> bs /\ ((cur < i + length bs)%nat -> (cur' < i + length bs)%nat).
Proof.
  revert i cur. induction bs as [|b bs IH]; intros i cur; [done|]. destruct bs as [|b' bs]; [done|].
  cbn [count_failed]. specialize (IH (S i) (if b_failed b >? 4 then S i else cur)).
  change (match bs with [] => ([b'], if b_failed b >? 4 then S i else cur) | _ :: _ => _ end) with
    (count_failed (S i) (b' :: bs) (if b_failed b >? 4 then S i else cur)) in *.
  destruct (count_failed (S i) (b' :: bs) _) as [bs' cur']. destruct IH as [IH1 IH2]. split.
  - rewrite !fmap_cons. f_equal. exact IH1.
  - intros Hc. cbn [length] in *. destruct (b_failed b >? 4); lia.
Qed.

Lemma keeps_refl p : keeps p p [].
Proof. intros l Hl. exact Hl. Qed.

Lemma covers_more l l' p : covers l p -> covers (l' ++ l) p.
Proof. intros H. eapply list.Forall_impl; [exact H|]. intros r (n & Hn & Hin). exists n. split; [done|]. apply elem_of_app. by right. Qed.

(** Nothing is added to the pool but blocks, whose heads are in [extra]. *)
Lemma keeps_blocks p bs cur extra new : b_addr <$> bs = (b_addr <$> blocks p) ++ new -> blocks p <> [] ->
  (forall a, a ∈ new -> (a, sizeof_pool_data) ∈ extra) -> keeps p (p <| blocks := bs |> <| current := cur |>) extra.
Proof.
  intros E Hne Hnew l Hl. unfold covers, structs in *. fields. rewrite E. apply (Forall_app _ (heads _)) in Hl as [Hl1 Hl2].
  apply Forall_app. split; [|apply (covers_more l extra (mk_pool [] (max p) 0 (large p) (cleanup p))); exact Hl2].
  destruct (blocks p) as [|b0 bs0]; [done|]. cbn in *. rewrite fmap_app, app_comm_cons. apply Forall_app. split.
  - eapply list.Forall_impl; [exact Hl1|]. intros r (n & Hn & Hin). exists n. split; [done|]. apply elem_of_app. by right.
  - apply list.Forall_forall. intros r Hr. apply list_elem_of_fmap in Hr as (a & -> & Ha).
    exists sizeof_pool_data. split; [cbn; lia|]. apply elem_of_app. left. auto.
Qed.

(** The outcome of an allocation: [NULL], or a piece apart from all others. *)
Definition allocated (p : pool_t) (live : list (Z * Z)) (aligned : bool) (n : Z)
    (res : option (ptr * pool_t * heap)) : Prop :=
  exists m p' h' extra, res = Some (m, p', h') /\ cleanup p' = cleanup p /\ max p' = max p /\ keeps p p' extra /\
    if m =? NULL then inv h0 psize p' h' (extra ++ live)
    else (aligned = true -> (8 | m)) /\ inv h0 psize p' h' ((m, n) :: extra ++ live).

Lemma allocated_null p p' h' live aligned n : cleanup p' = cleanup p -> max p' = max p ->
  keeps p p' [] -> inv h0 psize p' h' live -> allocated p live aligned n (Some (NULL, p', h')).
Proof. intros. exists NULL, p', h', []. done. Qed.

Lemma palloc_small_ok aligned size p h live : inv h0 psize p h live -> 0 <= size <= max p ->
  allocated p live aligned size (palloc_small memalign aligned size p h) /\
  (forall m p' h', palloc_small memalign aligned size p h = Some (m, p', h') -> large p' = large p /\ h ⊆ h' /\ (m = NULL -> h' = h)).
Proof.
  intros Hi Hs. destruct (i_size _ _ _ _ _ Hi) as (S1 & S2 & S3). unfold sizeof_pool, sizeof_large in *.
  pose proof (i_blocks _ _ _ _ _ Hi) as Hbs. pose proof (i_cur _ _ _ _ _ Hi) as Hc.
  assert (Hsz : psize < 2 ^ 64).
  { destruct (blocks p) as [|b bs] eqn:E; [cbn in Hc; lia|]. inversion_clear Hbs as [|? ? Hb _]. destruct Hb as (E1 & _).
    destruct (proj1 (i_heap _ _ _ _ _ Hi) _ _ E1). lia. }
  rewrite list.Forall_forall in Hbs. unfold palloc_small.
  pose proof (from_blocks_ok aligned size (drop (current p) (blocks p)) ltac:(lia) ltac:(lia)) as Hf.
  destruct (from_blocks aligned size (drop (current p) (blocks p))) as [[m bs']|].
  - destruct Hf as (pre & b & post & Eb & -> & B1 & B2 & B3).
    { intros b Hb. assert (Hj : b ∈ blocks p) by (rewrite <- (take_drop (current p) (blocks p)); apply elem_of_app; by right).
      destruct (Hbs b Hj) as (E1 & E2 & E3 & E4 & E5). unfold sizeof_pool_data in E4. split; [lia|]. split; [lia|done]. }
    assert (E : blocks p = (take (current p) (blocks p) ++ pre) ++ b :: post).
    { rewrite <- app_assoc, <- Eb, take_drop. done. }
    destruct (inv_cut p h live _ b post m size Hi E B1 B2 ltac:(lia)) as [Hm Hi'].
    unfold set_last in Hi'. rewrite <- app_assoc in Hi'. split.
    + exists m, (p <| blocks := take (current p) (blocks p) ++ pre ++ b <| b_last := m + size |> :: post |>), h, [].
      split; [done|]. split; [done|]. split; [done|]. split.
      { apply (keeps_blocks p _ (current p) [] []); [|intros E0; rewrite E0 in Hc; cbn in Hc; lia|intros a Ha; inversion Ha].
        pose proof (f_equal (fmap b_addr) E) as E'. rewrite !fmap_app, <- app_assoc in E'.
        rewrite app_nil_r. etransitivity; [|symmetry; exact E']. rewrite <- !fmap_app.
        change (b_addr <$> take (current p) (blocks p) ++ pre ++ b <| b_last := m + size |> :: post =
          b_addr <$> take (current p) (blocks p) ++ pre ++ b :: post). rewrite !fmap_app. done. }
      rewrite (proj2 (Z.eqb_neq _ _) Hm). split; [done|exact Hi'].
    + intros m' p' h' [= <- <- <-]. done.
  - unfold ngx_palloc_block. destruct (blocks p) as [|b0 bs] eqn:E; [cbn in Hc; lia|]. cbn [head mbind option_bind].
    rewrite <- E in *. destruct (Hbs b0 ltac:(rewrite E; left)) as (E1 & E2 & _).
    replace (b_end b0 - b_addr b0) with psize by lia. unfold ngx_memalign.
    destruct (memalign h NGX_POOL_ALIGNMENT psize) as [a|] eqn:Em.
    + destruct (inv_add_block p h live a size Hi Em Hs) as (Ha & Hm & H8 & Hsub & Hi').
      rewrite (proj2 (Z.eqb_neq _ _) Ha).
      pose proof (count_failed_ok (current p) (drop (current p) (blocks p)) (current p)) as Hcf.
      destruct (count_failed _ _ _) as [bs' cur']. destruct Hcf as [Hsh Hcur]. rewrite length_drop in Hcur.
      set (m := ngx_align_ptr (a + sizeof_pool_data) NGX_ALIGNMENT) in *.
      split; [|intros m' p' h' [= <- <- <-]; done].
      eexists m, _, _, [(a, sizeof_pool_data)]. split; [reflexivity|]. split; [done|]. split; [done|].
      rewrite (proj2 (Z.eqb_neq _ _) Hm).
      assert (Esh : shape <$> (take (current p) (blocks p) ++ bs' ++ [mk_block a (m + size) (a + psize) 0]) =
        shape <$> (blocks p ++ [mk_block a (m + size) (a + psize) 0])).
      { rewrite !fmap_app, Hsh, app_assoc, <- fmap_app, take_drop. done. }
      split; [apply (keeps_blocks p _ cur' _ [a]); [|congruence|intros x Hx; apply list_elem_of_singleton in Hx as ->; left]|].
      { rewrite (shape_addr _ _ Esh), fmap_app. done. }
      split; [done|]. refine (inv_reshape _ _ _ _ cur' Hi' Esh _).
      apply (f_equal length) in Esh. rewrite !length_fmap in Esh. rewrite Esh, length_app. cbn. lia.
    + change (NULL =? NULL) with true. cbn iota. split; [apply allocated_null; try done; apply keeps_refl|]. intros m' p' h' [= <- <- <-]. done.
Qed.
End Proofs.

Section Large.
Context {memalign : heap -> Z -> Z -> option Z} `{!MallocSpec memalign}.
Variable psize : Z.

Lemma not_owned h0 p h live a n : inv (<[a := n]> h0) psize p h live -> a ∉ owned p /\ h !! a = Some n.
Proof.
  intros Hi. destruct (i_rest _ _ _ _ _ Hi a) as [R1 R2]. rewrite lookup_insert_eq in *.
  assert (Ho : a ∉ owned p) by (intros Hin; discriminate (R1 Hin)). split; [done|]. apply R2. done.
Qed.

(** A block of [malloc] that is not part of the pool yet. *)
Lemma inv_frame h0 p h live al a n : inv h0 psize p h live -> 0 < n -> memalign h al n = Some a ->
  a <> NULL /\ (8 | a) /\ h0 !! a = None /\ inv (<[a := n]> h0) psize p (<[a := n]> h) live.
Proof.
  intros Hi Hn Em. destruct (malloc_fresh h al n a (i_heap _ _ _ _ _ Hi) Hn Em) as (Ha & H64 & H8 & Hd).
  destruct (inv_malloc h0 psize p h live a n Hi Ha Hn H64 Hd) as (Hh & Hs & Hf & Ho & H0 & Hbs & Hl & Hlive).
  split; [unfold NULL; lia|]. split; [done|]. split; [done|].
  destruct Hi as [I1 I2 I3 I4 I5 I6 I7 I8 I9]. constructor; try done.
  - intros x. destruct (I7 x) as [R1 R2]. split.
    + intros Hx. rewrite lookup_insert_ne by (intros ->; done). auto.
    + intros Hx. destruct (decide (x = a)) as [->|Hne]; [rewrite !lookup_insert_eq; done|].
      rewrite !lookup_insert_ne by done. auto.
  - eapply list.Forall_impl; [exact I8|]. intros r. apply placed_heap. done.
Qed.

Lemma heap_ok_delete h a : heap_ok h -> heap_ok (delete a h).
Proof.
  intros [H1 H2]. split.
  - intros b m Hb. apply lookup_delete_Some in Hb as [_ Hb]. eauto.
  - intros b m c k Hb Hc. apply lookup_delete_Some in Hb as [_ Hb], Hc as [_ Hc]. eauto.
Qed.

(** It is freed again. *)
Lemma inv_unframe h0 p h live a n : inv (<[a := n]> h0) psize p h live -> h0 !! a = None ->
  inv h0 psize p (delete a h) live.
Proof.
  intros Hi H0. destruct (not_owned _ _ _ _ _ _ Hi) as [Ho Ha]. destruct Hi as [I1 I2 I3 I4 I5 I6 I7 I8 I9].
  assert (Hb : forall b, b ∈ blocks p -> b_addr b <> a).
  { intros b Hb <-. apply Ho. unfold owned. apply elem_of_app. left. apply list_elem_of_fmap. eauto. }
  assert (Hl : forall x, x ∈ allocs (large p) -> x <> a).
  { intros x Hx ->. apply Ho. unfold owned. apply elem_of_app. by right. }
  constructor; try done.
  - apply list.Forall_forall. intros b Hin. rewrite list.Forall_forall in I2. destruct (I2 b Hin) as [E Hrest].
    split; [|done]. rewrite lookup_delete_ne by (apply not_eq_sym, Hb, Hin). done.
  - apply list.Forall_forall. intros x Hx. rewrite list.Forall_forall in I5.
    rewrite lookup_delete_ne by (apply not_eq_sym, Hl, Hx). auto.
  - apply heap_ok_delete. done.
  - intros x. destruct (I7 x) as [R1 R2]. destruct (decide (x = a)) as [->|Hne].
    + split; [done|]. intros _. rewrite lookup_delete_eq. done.
    + rewrite lookup_delete_ne by done. rewrite lookup_insert_ne in * by done. done.
  - eapply list.Forall_impl; [exact I8|]. intros r [Hr|(Hr1 & k & Hr2)]; [by left|right]. split; [done|].
    exists k. rewrite lookup_delete_ne by (apply not_eq_sym, Hl, Hr1). done.
Qed.

(** It becomes a large piece of the pool. *)
Lemma inv_adopt h0 p h live a n ls : inv (<[a := n]> h0) psize p h live -> h0 !! a = None -> a <> NULL ->
  allocs ls ≡ₚ a :: allocs (large p) -> inv h0 psize (p <| large := ls |>) h ((a, n) :: live).
Proof.
  intros Hi H0 Hn El. destruct (not_owned _ _ _ _ _ _ Hi) as [Ho Ha].
  assert (Hd : forall r, r ∈ live -> disj (a, n) r).
  { intros r Hr. pose proof (i_placed _ _ _ _ _ Hi) as Hp. rewrite list.Forall_forall in Hp.
    destruct (placed_owner _ _ _ _ _ _ Hi (Hp r Hr)) as (b & m & Hb & Eb & H1 & H2).
    apply (heap_disj h a n b m); cbn; try done; try lia; [apply Hi|]. intros ->. done. }
  assert (Eo : owned (p <| large := ls |>) ≡ₚ a :: owned p).
  { unfold owned. fields. rewrite El. symmetry. apply Permutation_middle. }
  destruct Hi as [I1 I2 I3 I4 I5 I6 I7 I8 I9].
  assert (Hpl : forall r, placed p h r -> placed (p <| large := ls |>) h r).
  { intros r [Hr|[Hr1 Hr2]]; [by left|right]. split; [|done]. fields. rewrite El. by right. }
  constructor; try done.
  - rewrite Eo. constructor; done.
  - fields. rewrite El. constructor; [eauto|done].
  - intros x. rewrite Eo, elem_of_cons. destruct (I7 x) as [R1 R2]. split.
    + intros [->|Hx]; [done|]. rewrite lookup_insert_ne in R1 by (intros ->; done). auto.
    + intros Hx. rewrite lookup_insert_ne in R2 by (intros ->; tauto). apply R2. tauto.
  - constructor; [|eapply list.Forall_impl; [exact I8|done]]. right. cbn. split; [|exists n; split; [done|lia]]. fields. rewrite El. left.
  - apply pairwise_cons. done.
Qed.

Lemma allocs_cons l a ls : a <> NULL -> allocs (mk_large l a :: ls) = a :: allocs ls.
Proof. intros Ha. unfold allocs. cbn. rewrite decide_True by done. done. Qed.

Lemma reuse_large_ok k ls a ls' : a <> NULL -> reuse_large k ls a = Some ls' -> allocs ls' ≡ₚ a :: allocs ls.
Proof.
  intros Ha. revert k ls'. induction ls as [|[l b] ls IH]; intros k ls'; cbn [reuse_large l_alloc l_addr]; [done|].
  destruct (Z.eqb_spec b NULL) as [->|Hb].
  - intros [= <-]. rewrite allocs_cons by done. unfold allocs. cbn. done.
  - destruct (3 <? k)%nat; [done|]. destruct (reuse_large (S k) ls a) as [ls2|] eqn:E; [|done].
    intros [= <-]. rewrite !allocs_cons, (IH _ _ E) by done. constructor.
Qed.

Lemma reuse_large_addr k ls a ls' : reuse_large k ls a = Some ls' -> l_addr <$> ls' = l_addr <$> ls.
Proof.
  revert k ls'. induction ls as [|[l b] ls IH]; intros k ls'; cbn [reuse_large l_alloc l_addr]; [done|].
  destruct (b =? NULL); [intros [= <-]; done|]. destruct (3 <? k)%nat; [done|].
  destruct (reuse_large (S k) ls a) as [ls2|] eqn:E; [|done]. intros [= <-]. cbn. f_equal. exact (IH _ _ E).
Qed.

Lemma keeps_reuse p ls : l_addr <$> ls = l_addr <$> large p -> keeps p (p <| large := ls |>) [].
Proof.
  intros E l Hl. unfold covers, structs in *. fields.
  replace ((fun x => (l_addr x, sizeof_large)) <$> ls) with ((fun x => (l_addr x, sizeof_large)) <$> large p); [done|].
  apply (f_equal (fmap (fun x : Z => (x, sizeof_large)))) in E. rewrite <- !list_fmap_compose in E. symmetry. exact E.
Qed.

Lemma keeps_large p p' l a extra : large p' = large p -> keeps p p' extra ->
  keeps p (p' <| large := mk_large l a :: large p' |>) ((l, sizeof_large) :: extra).
Proof.
  intros E Hk k Hl. specialize (Hk k Hl). unfold covers, structs in *. fields. rewrite fmap_cons.
  apply Forall_app in Hk as [H1 H2].
  assert (Hm : forall r : Z * Z, (exists n, r.2 <= n /\ (r.1, n) ∈ extra ++ k) -> exists n, r.2 <= n /\ (r.1, n) ∈ ((l, sizeof_large) :: extra) ++ k).
  { intros r (n & Hn & Hin). exists n. split; [done|]. right. done. }
  apply Forall_app. split; [eapply list.Forall_impl; [exact H1|done]|]. constructor.
  - exists sizeof_large. split; [cbn; lia|]. left.
  - eapply list.Forall_impl; [exact H2|done].
Qed.

Lemma ngx_free_some a n h : a <> NULL -> h !! a = Some n -> ngx_free a h = Some (delete a h).
Proof. intros Ha E. unfold ngx_free. rewrite (proj2 (Z.eqb_neq _ _) Ha), E. done. Qed.

Lemma add_large_ok h0 p h live a n aligned : inv (<[a := n]> h0) psize p h live -> h0 !! a = None -> a <> NULL ->
  (8 | a) -> allocated h0 psize p live aligned n (add_large memalign a p h).
Proof.
  intros Hi H0 Hn H8. destruct (i_size _ _ _ _ _ Hi) as (S1 & _). unfold add_large.
  rewrite (proj2 (Z.leb_le _ _) S1).
  destruct (palloc_small_ok (<[a := n]> h0) psize true sizeof_large p h live Hi ltac:(unfold sizeof_large in *; lia))
    as [(l & p' & h' & extra & E & Ec & Em & Hk & H) Hkeep].
  destruct (Hkeep _ _ _ E) as (El & _ & _). rewrite E. cbn [mbind option_bind].
  destruct (Z.eqb_spec l NULL) as [->|Hl].
  - destruct (not_owned _ _ _ _ _ _ H) as [_ Ha]. rewrite (ngx_free_some a n h' Hn Ha). cbn [mbind option_bind].
    exists NULL, p', (delete a h'), extra. split; [done|]. split; [done|]. split; [done|]. split; [done|].
    change (NULL =? NULL) with true. cbn iota. apply (inv_unframe _ _ _ _ a n); done.
  - destruct H as [_ H]. eexists a, _, h', ((l, sizeof_large) :: extra). split; [reflexivity|]. split; [done|]. split; [done|].
    split; [apply keeps_large; done|].
    rewrite (proj2 (Z.eqb_neq _ _) Hn). split; [done|]. apply inv_adopt; try done. apply reflexive_eq, allocs_cons. done.
Qed.

Lemma ngx_palloc_large_ok h0 p h live n aligned : inv h0 psize p h live -> 0 < n ->
  allocated h0 psize p live aligned n (ngx_palloc_large memalign n p h).
Proof.
  intros Hi Hn. unfold ngx_palloc_large, ngx_alloc, ngx_memalign.
  destruct (memalign h NGX_POOL_ALIGNMENT n) as [a|] eqn:Em.
  - destruct (inv_frame h0 p h live _ a n Hi Hn Em) as (Ha & H8 & H0 & Hf). rewrite (proj2 (Z.eqb_neq _ _) Ha).
    destruct (reuse_large 0 (large p) a) as [ls|] eqn:Er; [|apply add_large_ok; done].
    eexists a, _, _, []. split; [reflexivity|]. split; [done|]. split; [done|].
    split; [apply keeps_reuse, (reuse_large_addr _ _ _ _ Er)|].
    rewrite (proj2 (Z.eqb_neq _ _) Ha). split; [done|]. apply inv_adopt; try done. exact (reuse_large_ok _ _ _ _ Ha Er).
  - apply allocated_null; try done. apply keeps_refl.
Qed.

Lemma palloc_ok h0 p h live n aligned : inv h0 psize p h live -> 0 <= n ->
  allocated h0 psize p live aligned n (palloc memalign aligned n p h).
Proof.
  intros Hi Hn. unfold palloc. destruct (Z.leb_spec n (max p)).
  - apply palloc_small_ok; [done|lia].
  - apply ngx_palloc_large_ok; [done|]. destruct (i_size _ _ _ _ _ Hi). unfold sizeof_large in *. lia.
Qed.

Lemma ngx_pmemalign_ok h0 p h live n al : inv h0 psize p h live -> 0 < n ->
  allocated h0 psize p live true n (ngx_pmemalign memalign n al p h).
Proof.
  intros Hi Hn. unfold ngx_pmemalign, ngx_memalign. destruct (memalign h al n) as [a|] eqn:Em.
  - destruct (inv_frame h0 p h live _ a n Hi Hn Em) as (Ha & H8 & H0 & Hf). rewrite (proj2 (Z.eqb_neq _ _) Ha).
    apply add_large_ok; done.
  - apply allocated_null; try done. apply keeps_refl.
Qed.

(** ** The contract with the clients *)

(** [pieces] are the ranges the clients hold; with the structures of the pool they are ranges apart from each
    other in the memory the pool owns. *)
Definition pool_ok (h0 : heap) (p : pool_t) (h : heap) (pieces : list (Z * Z)) : Prop :=
  exists extra, covers extra p /\ inv h0 psize p h (pieces ++ extra) /\ Forall (fun r => 0 < r.2) (pieces ++ extra).

Lemma pairwise_sublist l k : l `sublist_of` k -> pairwise k -> pairwise l.
Proof.
  induction 1 as [|x l k Hs IH|x l k Hs IH]; intros H; [done| |]; apply pairwise_cons in H as [H Hx]; [|auto].
  apply pairwise_cons. split; [auto|]. intros s Hin. apply Hx. exact (elem_of_sublist _ _ _ Hin Hs).
Qed.

Lemma inv_sublist h0 p h live live' : inv h0 psize p h live -> live' `sublist_of` live -> inv h0 psize p h live'.
Proof.
  intros [I1 I2 I3 I4 I5 I6 I7 I8 I9] Hs. constructor; try done; [|exact (pairwise_sublist _ _ Hs I9)].
  rewrite list.Forall_forall in *. intros r Hr. apply I8. exact (elem_of_sublist _ _ _ Hr Hs).
Qed.

Lemma structs_pos p r : r ∈ structs p -> 0 < r.2.
Proof.
  unfold structs, heads, sizeof_pool, sizeof_pool_data, sizeof_large, sizeof_cleanup. rewrite !elem_of_app.
  intros [H|[H|H]]; [|apply list_elem_of_fmap in H as (? & -> & _); done..].
  destruct (b_addr <$> blocks p); [inversion H|]. apply elem_of_cons in H as [->|H]; [done|].
  apply list_elem_of_fmap in H as (? & -> & _). done.
Qed.

Lemma pool_ok_intro h0 p h pieces extra : covers extra p -> inv h0 psize p h (pieces ++ extra) ->
  pool_ok h0 p h (filter (fun r => 0 < r.2) pieces).
Proof.
  intros Hc Hi. exists (filter (fun r => 0 < r.2) extra). rewrite <- list.filter_app. split.
  - unfold covers in *. rewrite list.Forall_forall in *. intros r Hr. destruct (Hc r Hr) as (n & Hn & Hin).
    exists n. split; [done|]. apply list_elem_of_filter. split; [|done]. pose proof (structs_pos p r Hr). cbn. lia.
  - split; [apply (inv_sublist _ _ _ _ _ Hi), sublist_filter|].
    apply list.Forall_forall. intros r Hr. apply list_elem_of_filter in Hr. apply Hr.
Qed.

Lemma filter_pos (l : list (Z * Z)) : Forall (fun r => 0 < r.2) l -> filter (fun r => 0 < r.2) l = l.
Proof.
  induction 1 as [|r l Hr Hl IH]; [done|]. rewrite filter_cons, decide_True by done. congruence.
Qed.

(** A client may forget pieces. *)
Lemma pool_ok_sublist h0 p h pieces pieces' : pool_ok h0 p h pieces -> pieces' `sublist_of` pieces ->
  pool_ok h0 p h pieces'.
Proof.
  intros (extra & Hc & Hi & Hp) Hs. exists extra. split; [done|].
  assert (Hs' : pieces' ++ extra `sublist_of` pieces ++ extra) by (apply sublist_app; done).
  split; [exact (inv_sublist _ _ _ _ _ Hi Hs')|].
  rewrite list.Forall_forall in *. intros r Hr. apply Hp. exact (elem_of_sublist _ _ _ Hr Hs').
Qed.

Lemma pool_ok_perm h0 p h pieces pieces' : pieces ≡ₚ pieces' -> pool_ok h0 p h pieces -> pool_ok h0 p h pieces'.
Proof.
  intros E (extra & Hc & Hi & Hp). exists extra. split; [done|].
  split; [apply (inv_perm _ _ _ _ (pieces ++ extra)); [rewrite E|]; done|]. rewrite <- E. done.
Qed.

(** What a client holds after an allocation *)
Definition got (m n : Z) (pieces : list (Z * Z)) : list (Z * Z) :=
  if (m =? NULL) || (n =? 0) then pieces else (m, n) :: pieces.

Lemma allocated_pool_ok h0 p h pieces aligned n res : pool_ok h0 p h pieces -> 0 <= n ->
  (forall live, inv h0 psize p h live -> allocated h0 psize p live aligned n res) ->
  exists m p' h', res = Some (m, p', h') /\ cleanup p' = cleanup p /\ max p' = max p /\
    (m <> NULL -> aligned = true -> (8 | m)) /\ pool_ok h0 p' h' (got m n pieces).
Proof.
  intros (extra & Hc & Hi & Hp) Hn Ha. destruct (Ha _ Hi) as (m & p' & h' & ex & E & Ec & Em & Hk & H).
  exists m, p', h'. split; [done|]. split; [done|]. split; [done|]. unfold got. apply Forall_app in Hp as [Hp _].
  destruct (Z.eqb_spec m NULL) as [->|Hm]; cbn [orb].
  - split; [done|]. rewrite <- (filter_pos pieces) by done. apply (pool_ok_intro _ _ _ _ (ex ++ extra)); [auto|].
    apply (inv_perm _ _ _ _ (ex ++ pieces ++ extra)); [|done]. apply Permutation_app_swap_app.
  - destruct H as [H8 H]. split; [auto|].
    apply (inv_perm _ _ _ _ _ (((m, n) :: pieces) ++ ex ++ extra)) in H; [|cbn; constructor; apply Permutation_app_swap_app].
    apply pool_ok_intro in H; [|auto]. rewrite filter_cons in H. rewrite filter_pos in H by done. cbn in H.
    destruct (Z.eqb_spec n 0) as [->|Hn0]; [exact H|]. rewrite decide_True in H by lia. done.
Qed.

(** [ngx_pool_cleanup_add]: its entry becomes a structure of the pool. *)
Lemma pool_ok_cleanup h0 p h pieces c f d : pool_ok h0 p h ((c, sizeof_cleanup) :: pieces) ->
  pool_ok h0 (p <| cleanup := mk_cleanup c f d :: cleanup p |>) h pieces.
Proof.
  intros (extra & Hc & Hi & Hp).
  assert (E : ((c, sizeof_cleanup) :: pieces) ++ extra ≡ₚ pieces ++ (c, sizeof_cleanup) :: extra) by apply Permutation_middle.
  rewrite E in Hp. apply (inv_perm _ _ _ _ _ _ E) in Hi.
  exists ((c, sizeof_cleanup) :: extra). split; [|split; [|done]].
  - unfold covers, structs in *. fields. rewrite list.Forall_forall in *. intros r Hr.
    rewrite fmap_cons, !elem_of_app, elem_of_cons in Hr. destruct (decide (r = (c, sizeof_cleanup))) as [->|Hne].
    + exists sizeof_cleanup. split; [done|left].
    + destruct (Hc r) as (n & Hn & Hin); [|exists n; split; [done|by right]].
      rewrite !elem_of_app. tauto.
  - destruct Hi as [I1 I2 I3 I4 I5 I6 I7 I8 I9]. constructor; done.
Qed.

Lemma ngx_pool_cleanup_add_ok h0 p h pieces n : pool_ok h0 p h pieces -> 0 <= n ->
  exists c p' h', ngx_pool_cleanup_add memalign n p h = Some (c, p', h') /\
    ((c = NULL /\ cleanup p' = cleanup p /\ exists d, pool_ok h0 p' h' (got d n pieces)) \/
     exists d, c <> NULL /\ cleanup p' = mk_cleanup c None d :: cleanup p /\ (n <> 0 -> d <> NULL) /\ pool_ok h0 p' h' (got d n pieces)).
Proof.
  intros Hok Hn. unfold ngx_pool_cleanup_add, ngx_palloc.
  destruct (allocated_pool_ok h0 p h pieces true sizeof_cleanup _ Hok ltac:(done)
    (fun live Hi => palloc_ok h0 p h live sizeof_cleanup true Hi ltac:(done))) as (c & p1 & h1 & E1 & C1 & _ & _ & Ok1).
  rewrite E1. cbn [mbind option_bind]. unfold got in Ok1. destruct (Z.eqb_spec c NULL) as [->|Hc]; cbn [orb] in Ok1.
  { exists NULL, p1, h1. split; [done|]. left. split; [done|]. split; [done|]. exists NULL. done. }
  change (sizeof_cleanup =? 0) with false in Ok1. cbn iota in Ok1.
  destruct (Z.eqb_spec n 0) as [->|Hn0]; cbn [negb andb mbind option_bind].
  { eexists c, _, h1. split; [reflexivity|]. right. exists NULL. split; [done|]. split; [fields; congruence|]. split; [done|].
    apply pool_ok_cleanup. done. }
  destruct (allocated_pool_ok h0 p1 h1 _ true n _ Ok1 Hn
    (fun live Hi => palloc_ok h0 p1 h1 live n true Hi Hn)) as (d & p2 & h2 & E2 & C2 & _ & _ & Ok2).
  rewrite E2. cbn [mbind option_bind]. unfold got in Ok2. destruct (Z.eqb_spec d NULL) as [->|Hd]; cbn [orb] in Ok2.
  - exists NULL, p2, h2. split; [done|]. left. split; [done|]. split; [congruence|]. exists NULL. unfold got. cbn [orb Z.eqb].
    change (NULL =? NULL) with true. cbn [orb]. apply (pool_ok_sublist _ _ _ _ _ Ok2). apply sublist_cons. done.
  - eexists c, _, h2. split; [reflexivity|]. right. exists d. split; [done|]. split; [fields; congruence|]. split; [done|].
    unfold got. rewrite (proj2 (Z.eqb_neq _ _) Hd), (proj2 (Z.eqb_neq _ _) Hn0) in *. cbn [orb] in *.
    apply pool_ok_cleanup. apply (pool_ok_perm _ _ _ ((d, n) :: (c, sizeof_cleanup) :: pieces)); [constructor|done].
Qed.

(** *** Release of a large piece *)

Lemma allocs_null l ls : allocs (mk_large l NULL :: ls) = allocs ls.
Proof. reflexivity. Qed.

Lemma allocs_not_null ls : NULL ∉ allocs ls.
Proof. unfold allocs. intros H. apply list_elem_of_filter in H. tauto. Qed.

Lemma pfree_loop_ok a ls h : NoDup (allocs ls) -> Forall (fun x => is_Some (h !! x)) (allocs ls) ->
  exists rc ls', l_addr <$> ls' = l_addr <$> ls /\
    if decide (a ∈ allocs ls) then
      rc = NGX_OK /\ pfree_loop ls a h = Some (rc, ls', delete a h) /\ allocs ls ≡ₚ a :: allocs ls'
    else pfree_loop ls a h = Some (rc, ls', h) /\ allocs ls' = allocs ls /\ (a <> NULL -> rc = NGX_DECLINED /\ ls' = ls).
Proof.
  induction ls as [|[l b] ls IH]; intros Hnd Hs; cbn [pfree_loop l_alloc l_addr].
  { exists NGX_DECLINED, []. split; [done|]. rewrite decide_False by (cbn; intros H; inversion H). done. }
  destruct (Z.eqb_spec a b) as [<-|Hne].
  - exists NGX_OK, (mk_large l NULL :: ls). split; [done|]. destruct (decide (a = NULL)) as [->|Ha].
    + rewrite decide_False by apply allocs_not_null. unfold ngx_free. change (NULL =? NULL) with true. done.
    + rewrite allocs_cons in * by done. rewrite decide_True by left. split; [done|].
      inversion_clear Hs as [|? ? [n En] _]. rewrite (ngx_free_some a n h Ha En). done.
  - destruct (decide (b = NULL)) as [->|Hb].
    + rewrite allocs_null in *. destruct (IH Hnd Hs) as (rc & ls' & Ea & H).
      exists rc, (mk_large l NULL :: ls'). split; [cbn; congruence|].
      destruct (decide (a ∈ allocs ls)); [destruct H as (-> & -> & H)|destruct H as (-> & H & Hr)]; cbn [mbind option_bind];
        rewrite allocs_null; [done|]. split; [done|]. split; [done|]. intros Ha. destruct (Hr Ha) as [-> ->]. done.
    + rewrite allocs_cons in * by done. inversion_clear Hs as [|? ? _ Hs']. apply list.NoDup_cons in Hnd as [_ Hnd].
      destruct (IH Hnd Hs') as (rc & ls' & Ea & H). exists rc, (mk_large l b :: ls'). split; [cbn; congruence|].
      rewrite allocs_cons by done. destruct (decide (a ∈ allocs ls)) as [Hin|Hin].
      * destruct H as (-> & -> & H). rewrite decide_True by (right; done). split; [done|]. split; [done|].
        rewrite H. constructor.
      * destruct H as (-> & H & Hr). rewrite decide_False by (rewrite elem_of_cons; tauto). split; [done|]. split; [congruence|].
        intros Ha. destruct (Hr Ha) as [-> ->]. done.
Qed.

Lemma inv_disown h0 p h live a ls : inv h0 psize p h live -> allocs (large p) ≡ₚ a :: allocs ls ->
  inv h0 psize (p <| large := ls |>) (delete a h) (filter (fun r => r.1 <> a) live).
Proof.
  intros [I1 I2 I3 I4 I5 I6 I7 I8 I9] El.
  assert (Eo : owned p ≡ₚ a :: owned (p <| large := ls |>)).
  { unfold owned. fields. rewrite El. symmetry. apply Permutation_middle. }
  rewrite Eo in I4. apply list.NoDup_cons in I4 as [Ha I4].
  assert (Hd : forall x, x ∈ owned (p <| large := ls |>) -> delete a h !! x = h !! x).
  { intros x Hx. apply lookup_delete_ne. intros ->. done. }
  constructor; try done.
  - fields. rewrite list.Forall_forall in *. intros b Hb. destruct (I2 b Hb) as [E H]. split; [|done].
    rewrite Hd; [done|]. unfold owned. fields. apply elem_of_app. left. apply list_elem_of_fmap. eauto.
  - fields. rewrite El in I5. inversion_clear I5 as [|? ? _ I5']. rewrite list.Forall_forall in *. intros x Hx.
    rewrite Hd; [auto|]. unfold owned. fields. apply elem_of_app. by right.
  - apply heap_ok_delete. done.
  - intros x. destruct (I7 x) as [R1 R2]. rewrite Eo, elem_of_cons in R1, R2. split; [tauto|]. intros Hx.
    destruct (decide (x = a)) as [->|Hne]; [rewrite lookup_delete_eq, R1; tauto|]. rewrite lookup_delete_ne by done. tauto.
  - rewrite list.Forall_forall in *. intros r Hr. apply list_elem_of_filter in Hr as [Hra Hr].
    destruct (I8 r Hr) as [H|(H1 & n & H2)]; [by left|right]. rewrite El, elem_of_cons in H1.
    destruct H1 as [H1|H1]; [done|]. split; [done|]. exists n. rewrite lookup_delete_ne by done. done.
  - apply (pairwise_sublist _ live); [apply sublist_filter|done].
Qed.

Definition without (a : Z) (l : list (Z * Z)) : list (Z * Z) := filter (fun r => r.1 <> a) l.

Lemma without_fresh a l : (forall r, r ∈ l -> r.1 <> a) -> without a l = l.
Proof.
  unfold without. induction l as [|r l IH]; intros H; [done|]. rewrite filter_cons, decide_True by (apply H; left).
  rewrite IH; [done|]. intros s Hs. apply H. by right.
Qed.

(** Ranges apart from each other begin at different addresses. *)
Lemma disj_fst r s : disj r s -> 0 < r.2 -> 0 < s.2 -> r.1 <> s.1.
Proof. intros Hd Hr Hs E. apply (Hd r.1). lia. Qed.

Lemma without_perm a n l : pairwise l -> Forall (fun r => 0 < r.2) l -> (a, n) ∈ l -> l ≡ₚ (a, n) :: without a l.
Proof.
  induction l as [|r l IH]; intros Hd Hp Hin; [inversion Hin|]. apply pairwise_cons in Hd as [Hd Hr].
  inversion_clear Hp as [|? ? Hrp Hlp]. pose proof Hlp as Hlp'. rewrite list.Forall_forall in Hlp.
  apply elem_of_cons in Hin as [<-|Hin].
  - unfold without. rewrite filter_cons, decide_False by (cbn; tauto). constructor. fold (without a l).
    rewrite without_fresh; [done|]. intros s Hs. apply not_eq_sym, (disj_fst (a, n) s); auto.
  - unfold without. rewrite filter_cons, decide_True; [|apply (disj_fst r (a, n)); auto].
    fold (without a l). rewrite (IH Hd Hlp' Hin) at 1. constructor.
Qed.

(** What is known of a piece a client holds. *)
Lemma held_piece h0 p h pieces extra a n : inv h0 psize p h (pieces ++ extra) -> Forall (fun r => 0 < r.2) (pieces ++ extra) ->
  (a, n) ∈ pieces ->
  0 < n /\ placed p h (a, n) /\ pieces ++ extra ≡ₚ (a, n) :: without a pieces ++ extra /\
  (forall r, r ∈ without a pieces ++ extra -> 0 < r.2 /\ placed p h r /\ disj (a, n) r) /\ without a extra = extra.
Proof.
  intros Hi Hp Hin. pose proof (i_live _ _ _ _ _ Hi) as Hd. pose proof (i_placed _ _ _ _ _ Hi) as Hpl.
  pose proof Hp as Hp'. apply Forall_app in Hp' as [Hp1 _]. pose proof Hd as Hd1. apply pairwise_app in Hd1 as (Hd1 & _ & _).
  assert (E : pieces ++ extra ≡ₚ (a, n) :: without a pieces ++ extra).
  { rewrite (without_perm a n pieces Hd1 Hp1 Hin) at 1. done. }
  rewrite E in Hp, Hpl. apply (pairwise_perm _ _ E), pairwise_cons in Hd as [_ Hd].
  inversion_clear Hp as [|? ? Hn Hp2]. inversion_clear Hpl as [|? ? Hpa Hpl2]. rewrite list.Forall_forall in Hp2, Hpl2.
  split; [exact Hn|]. split; [exact Hpa|]. split; [exact E|]. split; [auto|].
  apply without_fresh. intros r Hr. assert (Hr' : r ∈ without a pieces ++ extra) by (apply elem_of_app; by right).
  apply not_eq_sym. exact (disj_fst (a, n) r (Hd r Hr') Hn (Hp2 r Hr')).
Qed.

Lemma held_not_null h0 p h pieces a n : pool_ok h0 p h pieces -> (a, n) ∈ pieces -> a <> NULL.
Proof.
  intros (extra & Hc & Hi & Hp) Hin. destruct (held_piece _ _ _ _ _ _ _ Hi Hp Hin) as (Hn & Hpl & _).
  destruct (placed_owner _ _ _ _ _ _ Hi Hpl) as (b & m & _ & Eb & H1 & _).
  destruct (proj1 (i_heap _ _ _ _ _ Hi) _ _ Eb). cbn in H1. unfold NULL. lia.
Qed.

(** [ngx_pfree] *)
Lemma ngx_pfree_ok h0 p h pieces a n : pool_ok h0 p h pieces -> (a, n) ∈ pieces ->
  exists rc p' h', ngx_pfree a p h = Some (rc, p', h') /\ cleanup p' = cleanup p /\ max p' = max p /\
    (rc = NGX_DECLINED /\ p' = p /\ h' = h \/ rc = NGX_OK /\ pool_ok h0 p' h' (without a pieces)).
Proof.
  intros Hok Hin. pose proof (held_not_null _ _ _ _ _ _ Hok Hin) as Ha. destruct Hok as (extra & Hc & Hi & Hp).
  destruct (held_piece _ _ _ _ _ _ _ Hi Hp Hin) as (Hn & Hpl & E & Hrest & Ew).
  pose proof (i_nodup _ _ _ _ _ Hi) as Hnd. unfold owned in Hnd. apply list.NoDup_app in Hnd as (_ & _ & Hnd).
  destruct (pfree_loop_ok a (large p) h Hnd (i_large _ _ _ _ _ Hi)) as (rc & ls' & Ea & H). unfold ngx_pfree.
  destruct (decide (a ∈ allocs (large p))).
  - destruct H as (-> & -> & El). cbn [mbind option_bind]. eexists _, _, _. split; [reflexivity|]. split; [done|]. split; [done|].
    right. split; [done|]. pose proof (inv_disown _ _ _ _ _ _ Hi El) as Hi'. fold (without a (pieces ++ extra)) in Hi'.
    unfold without in Hi' at 1. rewrite list.filter_app in Hi'. fold (without a pieces) (without a extra) in Hi'. rewrite Ew in Hi'.
    exists extra. split; [exact (keeps_reuse p ls' Ea extra Hc)|]. split; [exact Hi'|].
    apply list.Forall_forall. intros r Hr. apply (Hrest r Hr).
  - destruct H as (-> & El & Hr). destruct (Hr Ha) as [-> ->]. cbn [mbind option_bind].
    eexists _, _, _. split; [reflexivity|]. split; [done|]. split; [done|]. left. split; [done|]. destruct p; done.
Qed.

(** *** Changing the size of a piece *)

Lemma pool_ok_shrink h0 p h pieces a n k : pool_ok h0 p h pieces -> (a, n) ∈ pieces -> 0 < k <= n ->
  pool_ok h0 p h ((a, k) :: without a pieces).
Proof.
  intros (extra & Hc & Hi & Hp) Hin Hk. destruct (held_piece _ _ _ _ _ _ _ Hi Hp Hin) as (Hn & Hpl & E & Hrest & _).
  exists extra. split; [done|]. pose proof (i_live _ _ _ _ _ Hi) as Hd. apply (pairwise_perm _ _ E), pairwise_cons in Hd as [Hd _].
  split; [|constructor; [cbn; lia|apply list.Forall_forall; intros r Hr; apply (Hrest r Hr)]].
  destruct Hi as [I1 I2 I3 I4 I5 I6 I7 I8 I9]. constructor; try done.
  - constructor; [|apply list.Forall_forall; intros r Hr; apply (Hrest r Hr)].
    destruct Hpl as [(b & Hb & H1 & H2)|(H1 & m & H2 & H3)]; [left; exists b|right]; cbn in *.
    + split; [done|lia].
    + split; [done|]. exists m. split; [done|lia].
  - apply pairwise_cons. split; [done|]. intros s Hs x Hx. destruct (Hrest s Hs) as (_ & _ & Hds). apply (Hds x). cbn in *. lia.
Qed.

(** The block whose used part ends with a piece is the one the piece lies in. *)
Lemma piece_block h0 p h live b a n : inv h0 psize p h live -> placed p h (a, n) -> 0 < n -> b ∈ blocks p ->
  a + n = b_last b -> b_addr b <= a.
Proof.
  intros Hi Hpl Hn Hb E. destruct (Z.le_gt_cases (b_addr b) a) as [H|Hlt]; [done|exfalso].
  destruct (placed_owner _ _ _ _ _ _ Hi Hpl) as (c & m & Hc & Ec & H1 & H2). cbn in H1, H2.
  pose proof (i_blocks _ _ _ _ _ Hi) as Hbs. rewrite list.Forall_forall in Hbs. destruct (Hbs b Hb) as (E1 & E2 & _ & E4 & E5).
  unfold sizeof_pool_data in E4.
  apply (proj2 (i_heap _ _ _ _ _ Hi) c m (b_addr b) psize Ec E1 ltac:(lia) (b_last b - 1)). cbn. lia.
Qed.

Lemma covers_set_last p pre b post l extra : blocks p = pre ++ b :: post -> covers extra p ->
  covers extra (set_last p pre b post l).
Proof.
  intros E Hc. refine (keeps_blocks p (pre ++ b <| b_last := l |> :: post) (current p) [] [] _ _ _ extra Hc).
  - rewrite app_nil_r, E, !fmap_app. done.
  - rewrite E. destruct pre; done.
  - intros a Ha. inversion Ha.
Qed.

(** The last piece of a block is given back to it. *)
Lemma inv_cut_back h0 p h pieces extra pre b post a n : covers extra p -> inv h0 psize p h (pieces ++ extra) ->
  Forall (fun r => 0 < r.2) (pieces ++ extra) -> (a, n) ∈ pieces -> blocks p = pre ++ b :: post -> a + n = b_last b ->
  inv h0 psize (set_last p pre b post a) h (without a pieces ++ extra) /\ b_addr b + sizeof_pool_data <= a.
Proof.
  intros Hc Hi Hp Hin E Ea. destruct (held_piece _ _ _ _ _ _ _ Hi Hp Hin) as (Hn & Hpl & Eq & Hrest & _).
  assert (Hb : b ∈ blocks p) by (rewrite E; set_solver).
  pose proof (piece_block _ _ _ _ _ _ _ Hi Hpl Hn Hb Ea) as Hle.
  pose proof (i_blocks _ _ _ _ _ Hi) as Hbs. rewrite list.Forall_forall in Hbs. destruct (Hbs b Hb) as (E1 & E2 & E3 & E4 & E5).
  assert (Hh : b_addr b + sizeof_pool_data <= a).
  { unfold covers in Hc. rewrite list.Forall_forall in Hc.
    assert (Hs : exists s, s ∈ structs p /\ s.1 = b_addr b /\ sizeof_pool_data <= s.2).
    { unfold structs, heads. assert (Hm : b_addr b ∈ b_addr <$> blocks p) by (apply list_elem_of_fmap; eauto).
      destruct (b_addr <$> blocks p) as [|x l]; [inversion Hm|]. apply elem_of_cons in Hm as [->|Hm].
      - exists (x, sizeof_pool). split; [left|]. split; done.
      - exists (b_addr b, sizeof_pool_data). split; [|split; done]. apply elem_of_app. left. right. apply list_elem_of_fmap. eauto. }
    destruct Hs as (s & Hs & Es & Hs2). destruct (Hc s Hs) as (k & Hk & Hex). rewrite Es in Hex.
    destruct (Hrest _ ltac:(apply elem_of_app; right; exact Hex)) as (_ & _ & Hd).
    destruct (Z.le_gt_cases (b_addr b + sizeof_pool_data) a) as [|Hlt]; [done|]. destruct (Hd a). cbn. lia. }
  split; [|done]. apply (inv_set_last h0 psize p h (pieces ++ extra)); try done; [lia| |].
  - apply list.Forall_forall. intros r Hr. destruct (Hrest r Hr) as (Hr0 & Hrp & Hd).
    destruct Hrp as [(b' & Hb' & H1 & H2)|Hl]; [|by right]. left. unfold set_last. fields.
    rewrite E in Hb'. apply elem_of_app in Hb' as [Hb'|Hb']; [exists b'; split; [set_solver|done]|].
    apply elem_of_cons in Hb' as [->|Hb']; [|exists b'; split; [set_solver|done]].
    eexists. split; [apply elem_of_app; right; left|]. fields. split; [done|].
    destruct (Z.le_gt_cases (r.1 + r.2) a) as [|Hlt]; [done|]. destruct (Hd (r.1 + r.2 - 1)). cbn. lia.
  - pose proof (i_live _ _ _ _ _ Hi) as Hd. apply (pairwise_perm _ _ Eq), pairwise_cons in Hd. apply Hd.
Qed.

(** [ngx_prealloc] in place *)
Lemma pool_ok_resize h0 p h pieces pre b post a n k : pool_ok h0 p h pieces -> (a, n) ∈ pieces ->
  blocks p = pre ++ b :: post -> a + n = b_last b -> a + k <= b_end b -> 0 <= k ->
  pool_ok h0 (set_last p pre b post (a + k)) h (got a k (without a pieces)).
Proof.
  intros Hok Hin E Ea He Hk. pose proof (held_not_null _ _ _ _ _ _ Hok Hin) as Hnn. destruct Hok as (extra & Hc & Hi & Hp).
  destruct (inv_cut_back _ _ _ _ _ _ _ _ _ _ Hc Hi Hp Hin E Ea) as [Hi' Ha].
  destruct (held_piece _ _ _ _ _ _ _ Hi Hp Hin) as (Hn & _ & _ & Hrest & _).
  assert (Hpos : Forall (fun r => 0 < r.2) (without a pieces ++ extra)).
  { apply list.Forall_forall. intros r Hr. apply (Hrest r Hr). }
  unfold got. rewrite (proj2 (Z.eqb_neq _ _) Hnn). cbn [orb]. destruct (Z.eqb_spec k 0) as [->|Hk0].
  - rewrite Z.add_0_r. exists extra. split; [apply covers_set_last; done|]. done.
  - destruct (inv_cut h0 psize _ h _ pre (b <| b_last := a |>) post a k Hi' eq_refl) as [_ Hi2]; fields; try lia.
    exists extra. split; [apply covers_set_last; done|]. split; [exact Hi2|]. constructor; [cbn; lia|done].
Qed.

Lemma resize_in_ok a n k bs bs' : resize_in a n k bs = Some bs' ->
  exists pre b post, bs = pre ++ b :: post /\ bs' = pre ++ b <| b_last := a + k |> :: post /\ a + n = b_last b /\ a + k <= b_end b.
Proof.
  revert bs'. induction bs as [|b bs IH]; intros bs'; cbn [resize_in]; [done|].
  destruct (Z.eqb_spec (a + n) (b_last b)) as [E|E]; destruct (Z.leb_spec (a + k) (b_end b)) as [L|L]; cbn [andb].
  1: intros [= <-]; exists [], b, bs; done.
  all: destruct (resize_in a n k bs) as [bs2|]; [|done]; intros [= <-];
    destruct (IH _ eq_refl) as (pre & b1 & post & -> & -> & H); exists (b :: pre), b1, post; done.
Qed.

(** What the clients hold after [ngx_prealloc] has returned [m] *)
Definition realloc_got (a new_size m : Z) (pieces : list (Z * Z)) : list (Z * Z) :=
  if a =? NULL then got m new_size pieces
  else if new_size =? 0 then without a pieces
  else if m =? NULL then pieces else (m, new_size) :: without a pieces.

Definition held (a n : Z) (pieces : list (Z * Z)) : Prop := a = NULL \/ (a, n) ∈ pieces.

(** The old piece is released after the new one was allocated. *)
Lemma release_old h0 p h pieces m k a n : pool_ok h0 p h ((m, k) :: pieces) -> (a, n) ∈ pieces ->
  exists rc p' h', ngx_pfree a p h = Some (rc, p', h') /\ cleanup p' = cleanup p /\ max p' = max p /\
    pool_ok h0 p' h' ((m, k) :: without a pieces).
Proof.
  intros Hok Hin. assert (Hin' : (a, n) ∈ (m, k) :: pieces) by (right; done).
  assert (E : without a ((m, k) :: pieces) = (m, k) :: without a pieces).
  { unfold without. rewrite filter_cons, decide_True; [done|]. destruct Hok as (extra & _ & Hi & Hp).
    pose proof (i_live _ _ _ _ _ Hi) as Hd. apply pairwise_app in Hd as [Hd _]. apply pairwise_cons in Hd as [_ Hd].
    apply Forall_app in Hp as [Hp _]. inversion_clear Hp as [|? ? Hk Hp2]. rewrite list.Forall_forall in Hp2.
    exact (disj_fst (m, k) (a, n) (Hd _ Hin) Hk (Hp2 _ Hin)). }
  destruct (ngx_pfree_ok h0 p h _ a n Hok Hin') as (rc & p' & h' & Ep & Ec & Em & H). exists rc, p', h'.
  split; [done|]. split; [done|]. split; [done|]. destruct H as [(_ & -> & ->)|[_ H]]; [|rewrite E in H; done].
  apply (pool_ok_sublist _ _ _ _ _ Hok). apply sublist_skip, sublist_filter.
Qed.

Lemma ngx_prealloc_ok h0 p h pieces a n k : pool_ok h0 p h pieces -> held a n pieces -> 0 <= k ->
  exists m p' h', ngx_prealloc memalign a n k p h = Some (m, p', h') /\ cleanup p' = cleanup p /\ max p' = max p /\
    pool_ok h0 p' h' (realloc_got a k m pieces).
Proof.
  intros Hok Hheld Hk. unfold ngx_prealloc, realloc_got.
  assert (Hpa : exists m p' h', ngx_palloc memalign k p h = Some (m, p', h') /\ cleanup p' = cleanup p /\ max p' = max p /\
    (m <> NULL -> true = true -> (8 | m)) /\ pool_ok h0 p' h' (got m k pieces)).
  { apply (allocated_pool_ok h0 p h pieces true k _ Hok Hk). intros live Hi. apply palloc_ok; done. }
  destruct Hheld as [->|Hin]; [change (NULL =? NULL) with true; cbn iota|].
  { destruct Hpa as (m & p' & h' & E & H1 & H2 & _ & H3). exists m, p', h'. done. }
  pose proof (held_not_null _ _ _ _ _ _ Hok Hin) as Ha. rewrite (proj2 (Z.eqb_neq _ _) Ha).
  destruct (Z.eqb_spec k 0) as [->|Hk0].
  - destruct (blocks p) as [|b0 bs] eqn:Eb.
    { destruct Hok as (? & _ & Hi & _). pose proof (i_cur _ _ _ _ _ Hi) as Hc. rewrite Eb in Hc. cbn in Hc. lia. }
    destruct (Z.eqb_spec (a + n) (b_last b0)) as [El|El].
    + eexists NULL, _, h. split; [reflexivity|]. split; [done|]. split; [done|].
      assert (He : a + 0 <= b_end b0).
      { pose proof Hok as (extra & _ & Hi & Hp). pose proof (i_blocks _ _ _ _ _ Hi) as Hbs. rewrite Eb in Hbs.
        inversion_clear Hbs as [|? ? (_ & _ & _ & _ & Hl) _]. apply Forall_app in Hp as [Hp _]. rewrite list.Forall_forall in Hp.
        specialize (Hp _ Hin). cbn in Hp. lia. }
      pose proof (pool_ok_resize _ _ _ _ [] b0 bs a n 0 Hok Hin Eb El He ltac:(lia)) as H.
      rewrite Z.add_0_r in H. unfold got in H. rewrite orb_true_r in H. exact H.
    + destruct (ngx_pfree_ok h0 p h pieces a n Hok Hin) as (rc & p' & h' & -> & H1 & H2 & H). cbn [mbind option_bind].
      exists NULL, p', h'. split; [done|]. split; [done|]. split; [done|]. destruct H as [(_ & -> & ->)|[_ H]]; [|done].
      apply (pool_ok_sublist _ _ _ _ _ Hok), sublist_filter.
  - destruct (if n <=? max p then resize_in a n k (blocks p) else None) as [bs|] eqn:Er.
    + destruct (n <=? max p); [|done]. apply resize_in_ok in Er as (pre & b & post & Eb & -> & El & He).
      eexists a, _, h. split; [reflexivity|]. split; [done|]. split; [done|]. rewrite (proj2 (Z.eqb_neq _ _) Ha).
      pose proof (pool_ok_resize _ _ _ _ pre b post a n k Hok Hin Eb El He Hk) as H.
      unfold got in H. rewrite (proj2 (Z.eqb_neq _ _) Ha), (proj2 (Z.eqb_neq _ _) Hk0) in H. exact H.
    + destruct (Z.leb_spec k n).
      * exists a, p, h. rewrite (proj2 (Z.eqb_neq _ _) Ha). split; [done|]. split; [done|]. split; [done|].
        apply (pool_ok_shrink _ _ _ _ a n); [done..|lia].
      * destruct Hpa as (m & p' & h' & -> & H1 & H2 & _ & H3). cbn [mbind option_bind]. unfold got in H3.
        rewrite (proj2 (Z.eqb_neq _ _) Hk0), orb_false_r in H3.
        destruct (Z.eqb_spec m NULL) as [->|Hm]; [exists NULL, p', h'; done|].
        destruct (release_old h0 p' h' pieces m k a n H3 Hin) as (rc & p2 & h2 & -> & G1 & G2 & G3). cbn [mbind option_bind].
        exists m, p2, h2. rewrite (proj2 (Z.eqb_neq _ _) Hm). split; [done|]. split; [congruence|]. split; [congruence|done].
Qed.

Lemma pairwise_addrs h n k (l : list Z) : heap_ok h -> NoDup l -> Forall (fun a => h !! a = Some n) l -> k <= n ->
  pairwise ((fun a => (a, k)) <$> l).
Proof.
  intros Hh Hnd Hl Hk. induction l as [|a l IH]; [constructor|]. apply list.NoDup_cons in Hnd as [Ha Hnd].
  inversion_clear Hl as [|? ? Ea Hl']. rewrite fmap_cons. apply pairwise_cons. split; [auto|]. intros s Hs.
  apply list_elem_of_fmap in Hs as (b & -> & Hb). rewrite list.Forall_forall in Hl'.
  apply (heap_disj h a n b n); cbn; try done; try lia; [auto|]. intros ->. done.
Qed.

(** *** Giving everything back *)

Lemma free_large_ok ls h : NoDup (allocs ls) -> Forall (fun x => is_Some (h !! x)) (allocs ls) ->
  exists h', free_large ls h = Some h' /\ forall x, h' !! x = if decide (x ∈ allocs ls) then None else h !! x.
Proof.
  revert h. induction ls as [|[l a] ls IH]; intros h Hnd Hs; cbn [free_large l_alloc].
  { exists h. split; [done|]. intros x. rewrite decide_False by (intros H; inversion H). done. }
  destruct (Z.eqb_spec a NULL) as [->|Ha]; cbn [mbind option_bind]; [apply IH; done|].
  rewrite allocs_cons in * by done. apply list.NoDup_cons in Hnd as [Hna Hnd]. inversion_clear Hs as [|? ? Hna' Hs']. destruct Hna' as [n En].
  rewrite (ngx_free_some a n h Ha En). cbn [mbind option_bind]. destruct (IH (delete a h) Hnd) as (h' & -> & H).
  { rewrite list.Forall_forall in Hs' |- *. intros y Hy. rewrite lookup_delete_ne by (intros ->; done). auto. }
  exists h'. split; [done|]. intros x. rewrite H. destruct (decide (x ∈ allocs ls)) as [Hx|Hx].
  - rewrite decide_True by (right; done). done.
  - destruct (decide (x = a)) as [->|Hne]; [rewrite decide_True by left; apply lookup_delete_eq|].
    rewrite lookup_delete_ne by done. rewrite decide_False by (rewrite elem_of_cons; tauto). done.
Qed.

Lemma free_blocks_ok bs h : NoDup (b_addr <$> bs) -> Forall (fun b => b_addr b <> NULL /\ is_Some (h !! b_addr b)) bs ->
  exists h', free_blocks bs h = Some h' /\ forall x, h' !! x = if decide (x ∈ b_addr <$> bs) then None else h !! x.
Proof.
  revert h. induction bs as [|b bs IH]; intros h Hnd Hs; cbn [free_blocks fmap list_fmap].
  { exists h. split; [done|]. intros x. rewrite decide_False by (intros H; inversion H). done. }
  apply list.NoDup_cons in Hnd as [Hna Hnd]. inversion_clear Hs as [|? ? Hb' Hs']. destruct Hb' as (Hb & n & En).
  rewrite (ngx_free_some _ n h Hb En). cbn [mbind option_bind]. destruct (IH (delete (b_addr b) h) Hnd) as (h' & -> & H).
  { rewrite list.Forall_forall in Hs' |- *. intros b' Hb'. destruct (Hs' b' Hb') as [H1 H2]. split; [done|].
    rewrite lookup_delete_ne; [done|]. intros E. apply Hna. rewrite E. apply list_elem_of_fmap. eauto. }
  exists h'. split; [done|]. intros x. rewrite H. destruct (decide (x ∈ b_addr <$> bs)) as [Hx|Hx].
  - rewrite decide_True by (right; done). done.
  - destruct (decide (x = b_addr b)) as [->|Hne]; [rewrite decide_True by left; apply lookup_delete_eq|].
    rewrite lookup_delete_ne by done. rewrite decide_False by (rewrite elem_of_cons; tauto). done.
Qed.

Lemma inv_free_large h0 p h live : inv h0 psize p h live -> exists h', free_large (large p) h = Some h' /\
  forall x, h' !! x = if decide (x ∈ allocs (large p)) then None else h !! x.
Proof.
  intros Hi. apply free_large_ok; [|apply (i_large _ _ _ _ _ Hi)].
  pose proof (i_nodup _ _ _ _ _ Hi) as Hnd. unfold owned in Hnd. apply list.NoDup_app in Hnd. apply Hnd.
Qed.

Lemma block_not_large h0 p h live b : inv h0 psize p h live -> b ∈ blocks p -> b_addr b ∉ allocs (large p).
Proof.
  intros Hi Hb. pose proof (i_nodup _ _ _ _ _ Hi) as Hnd. unfold owned in Hnd. apply list.NoDup_app in Hnd as (_ & Hnd & _).
  apply Hnd. apply list_elem_of_fmap. eauto.
Qed.

(** [ngx_destroy_pool]: nothing else is freed, nothing is left. *)
Lemma ngx_destroy_pool_ok h0 p h live : inv h0 psize p h live ->
  ngx_destroy_pool p h = Some (run_cleanup h (cleanup p), h0).
Proof.
  intros Hi. unfold ngx_destroy_pool. destruct (inv_free_large _ _ _ _ Hi) as (h1 & -> & H1). cbn [mbind option_bind].
  destruct (free_blocks_ok (blocks p) h1) as (h2 & -> & H2).
  - pose proof (i_nodup _ _ _ _ _ Hi) as Hnd. unfold owned in Hnd. apply list.NoDup_app in Hnd. apply Hnd.
  - apply list.Forall_forall. intros b Hb. pose proof (i_blocks _ _ _ _ _ Hi) as Hbs. rewrite list.Forall_forall in Hbs.
    destruct (Hbs b Hb) as (E & _). rewrite H1, decide_False by exact (block_not_large _ _ _ _ _ Hi Hb).
    split; [|rewrite E; done]. destruct (proj1 (i_heap _ _ _ _ _ Hi) _ _ E). unfold NULL. lia.
  - cbn [mbind option_bind]. f_equal. f_equal. apply map_eq. intros x. rewrite H2, H1. destruct (i_rest _ _ _ _ _ Hi x) as [R1 R2].
    unfold owned in R1, R2. rewrite elem_of_app in R1, R2.
    destruct (decide (x ∈ b_addr <$> blocks p)); [symmetry; tauto|].
    destruct (decide (x ∈ allocs (large p))); [symmetry; tauto|]. tauto.
Qed.

(** [ngx_reset_pool] *)
Lemma ngx_reset_pool_ok h0 p h pieces : pool_ok h0 p h pieces -> cleanup p = [] ->
  exists p' h', ngx_reset_pool p h = Some (p', h') /\ cleanup p' = [] /\ max p' = max p /\ pool_ok h0 p' h' [].
Proof.
  intros (extra & _ & Hi & _) Hcl. unfold ngx_reset_pool. destruct (inv_free_large _ _ _ _ Hi) as (h1 & -> & H1).
  cbn [mbind option_bind]. set (f := fun b : block_t => _). eexists _, h1. split; [reflexivity|]. split; [done|]. split; [done|].
  assert (Ea : b_addr <$> (f <$> blocks p) = b_addr <$> blocks p) by (rewrite <- list_fmap_compose; done).
  pose proof (i_blocks _ _ _ _ _ Hi) as Hbs. rewrite list.Forall_forall in Hbs.
  assert (Hh1 : forall b, b ∈ blocks p -> h1 !! b_addr b = Some psize).
  { intros b Hb. rewrite H1, decide_False by exact (block_not_large _ _ _ _ _ Hi Hb). apply (Hbs b Hb). }
  destruct (i_size _ _ _ _ _ Hi) as (S1 & S2 & S3). unfold sizeof_large in S1.
  exists ((fun a => (a, sizeof_pool)) <$> (b_addr <$> blocks p)). split; [|split].
  - unfold covers, structs. fields. rewrite Ea, Hcl. cbn. rewrite app_nil_r.
    destruct (b_addr <$> blocks p) as [|a l]; [constructor|]. cbn. constructor; [exists sizeof_pool; split; [done|left]|].
    apply list.Forall_forall. intros r Hr. apply list_elem_of_fmap in Hr as (x & -> & Hx). exists sizeof_pool. split; [done|].
    right. apply list_elem_of_fmap. eauto.
  - pose proof (i_nodup _ _ _ _ _ Hi) as Hnd. unfold owned in Hnd. apply list.NoDup_app in Hnd as [Hnd _].
    assert (Hok : heap_ok h1).
    { destruct (i_heap _ _ _ _ _ Hi) as [G1 G2]. split.
      - intros a n Ha. rewrite H1 in Ha. destruct (decide _); [done|eauto].
      - intros a n b m Ha Hb. rewrite H1 in Ha, Hb. destruct (decide _), (decide _); try done. eauto. }
    constructor; unfold owned; fields; rewrite ?Ea; try done.
    + apply list.Forall_forall. intros b Hb. apply list_elem_of_fmap in Hb as (b' & -> & Hb').
      destruct (Hbs b' Hb') as (_ & B2 & B3 & _). unfold f, block_ok. fields. unfold sizeof_pool in S2. split; [auto|]. split; [done|]. split; [done|].
      unfold sizeof_pool_data, sizeof_pool. lia.
    + rewrite length_fmap. pose proof (i_cur _ _ _ _ _ Hi). lia.
    + rewrite app_nil_r. done.
    + intros x. rewrite app_nil_r, H1. destruct (i_rest _ _ _ _ _ Hi x) as [R1 R2]. unfold owned in R1, R2. rewrite elem_of_app in R1, R2.
      split; [tauto|]. intros Hx. destruct (decide (x ∈ allocs (large p))); [symmetry; tauto|]. tauto.
    + apply list.Forall_forall. intros r Hr. apply list_elem_of_fmap in Hr as (a & -> & Ha).
      apply list_elem_of_fmap in Ha as (b & -> & Hb). left. exists (f b). split; [apply list_elem_of_fmap; eauto|].
      unfold f. fields. cbn. lia.
    + cbn. apply (pairwise_addrs h1 psize); try done; [|unfold sizeof_pool in *; lia].
      apply list.Forall_forall. intros a Ha. apply list_elem_of_fmap in Ha as (b & -> & Hb). auto.
  - cbn. apply list.Forall_forall. intros r Hr. apply list_elem_of_fmap in Hr as (a & -> & _). done.
Qed.

(** [ngx_create_pool] *)
Lemma ngx_create_pool_ok h0 pagesize : heap_ok h0 -> sizeof_pool + sizeof_large <= psize -> (8 | psize) ->
  sizeof_large < pagesize ->
  match ngx_create_pool memalign pagesize psize h0 with
  | (Some p, h) => cleanup p = [] /\ pool_ok h0 p h []
  | (None, h) => h = h0
  end.
Proof.
  intros Hh Hs H8 Hpg. unfold ngx_create_pool, ngx_memalign, sizeof_pool, sizeof_large in *.
  destruct (memalign h0 NGX_POOL_ALIGNMENT psize) as [a|] eqn:Em; [|done].
  destruct (malloc_fresh h0 _ psize a Hh ltac:(lia) Em) as (Ha & H64 & Ha8 & Hd).
  rewrite (proj2 (Z.eqb_neq a NULL)) by (unfold NULL; lia). split; [done|].
  rewrite u64_small by lia. set (mx := if _ : bool then _ else _).
  assert (Hmx : 16 <= mx <= psize - 80) by (unfold mx; destruct (Z.ltb_spec (psize - 80) (pagesize - 1)); lia).
  exists [(a, sizeof_pool)]. split; [|split; [|repeat constructor]].
  - unfold covers, structs. fields. cbn. constructor; [|constructor]. exists sizeof_pool. split; [done|left].
  - constructor; unfold owned; fields; cbn.
    + unfold sizeof_large, sizeof_pool. split; [lia|]. split; [lia|done].
    + constructor; [|constructor]. unfold block_ok. fields. split; [apply lookup_insert_eq|]. split; [done|].
      split; [apply Z.divide_add_r; done|]. unfold sizeof_pool_data. lia.
    + lia.
    + apply NoDup_singleton.
    + constructor.
    + apply heap_ok_insert; try done; lia.
    + intros x. rewrite list_elem_of_singleton. split.
      * intros ->. apply (heap_fresh h0 a psize); try done. lia.
      * intros Hx. apply lookup_insert_ne. done.
    + constructor; [|constructor]. left. eexists. split; [left|]. fields. unfold sizeof_pool. lia.
    + repeat constructor.
Qed.

(** ** Sequences of operations *)

(** Storing the handler of an entry, as the callers of [ngx_pool_cleanup_add] do *)
Definition set_handler (c : ptr) (f : Z) (p : pool_t) : pool_t :=
  p <| cleanup := (fun x => if c_addr x =? c then mk_cleanup c (Some f) (c_data x) else x) <$> cleanup p |>.

Inductive op : Type :=
| Palloc (aligned : bool) (n : Z)
| Pmemalign (n alignment : Z)
| CleanupAdd (n : Z)
| SetHandler (c : ptr) (f : Z)
| RunFile (file : Z) (fd_of : ptr -> Z) (fd : Z)
| Pfree (a : ptr)
| Prealloc (a old_size new_size : Z)
| Reset.

(** The pool, the memory and what the clients hold after an operation; [None] is undefined behaviour. *)
Definition exec (o : op) (p : pool_t) (h : heap) (pieces : list (Z * Z)) : option (pool_t * heap * list (Z * Z)) :=
  match o with
  | Palloc aligned n => '(m, p, h) ← palloc memalign aligned n p h; Some (p, h, got m n pieces)
  | Pmemalign n al => '(m, p, h) ← ngx_pmemalign memalign n al p h; Some (p, h, got m n pieces)
  | CleanupAdd n =>
      '(c, p, h) ← ngx_pool_cleanup_add memalign n p h;
      Some (p, h, if c =? NULL then pieces else got (default NULL (c_data <$> head (cleanup p))) n pieces)
  | SetHandler c f => Some (set_handler c f p, h, pieces)
  | RunFile file fd_of fd => Some (p <| cleanup := snd (ngx_pool_run_cleanup_file file fd_of fd (cleanup p)) |>, h, pieces)
  | Pfree a => '(rc, p, h) ← ngx_pfree a p h; Some (p, h, if rc =? NGX_OK then without a pieces else pieces)
  | Prealloc a old new => '(m, p, h) ← ngx_prealloc memalign a old new p h; Some (p, h, realloc_got a new m pieces)
  | Reset => '(p, h) ← ngx_reset_pool p h; Some (p, h, [])
  end.

(** The obligations of a client: it passes pieces it holds, with their sizes, and does not reset a pool that has
    handlers. *)
Definition legal (o : op) (p : pool_t) (pieces : list (Z * Z)) : Prop :=
  match o with
  | Palloc _ n | CleanupAdd n => 0 <= n
  | Pmemalign n _ => 0 < n
  | SetHandler _ _ | RunFile _ _ _ => True
  | Pfree a => exists n, (a, n) ∈ pieces
  | Prealloc a old new => held a old pieces /\ 0 <= new
  | Reset => cleanup p = []
  end.

Lemma pool_ok_handlers h0 p h pieces cs : c_addr <$> cs = c_addr <$> cleanup p -> pool_ok h0 p h pieces ->
  pool_ok h0 (p <| cleanup := cs |>) h pieces.
Proof.
  intros E (extra & Hc & Hi & Hp). exists extra. split; [|split; [|done]].
  - unfold covers, structs in *. fields.
    apply (f_equal (fmap (fun x : Z => (x, sizeof_cleanup)))) in E. rewrite <- !list_fmap_compose in E.
    replace ((fun c => (c_addr c, sizeof_cleanup)) <$> cs) with ((fun c => (c_addr c, sizeof_cleanup)) <$> cleanup p) by (symmetry; exact E). done.
  - destruct Hi as [I1 I2 I3 I4 I5 I6 I7 I8 I9]. constructor; done.
Qed.

Lemma run_cleanup_file_addr file fd_of fd cs :
  c_addr <$> snd (ngx_pool_run_cleanup_file file fd_of fd cs) = c_addr <$> cs.
Proof.
  induction cs as [|c cs IH]; cbn [ngx_pool_run_cleanup_file]; [done|]. destruct (_ && _); [done|].
  destruct (ngx_pool_run_cleanup_file file fd_of fd cs) as [r cs']. cbn in *. congruence.
Qed.

Lemma exec_ok h0 o p h pieces : pool_ok h0 p h pieces -> legal o p pieces ->
  exists p' h' pieces', exec o p h pieces = Some (p', h', pieces') /\ pool_ok h0 p' h' pieces'.
Proof.
  intros Hok Hl. destruct o as [al n|n al|n|c f|file fd_of fd|a|a old new|]; cbn [exec legal] in *.
  - destruct (allocated_pool_ok h0 p h pieces al n _ Hok Hl (fun live Hi => palloc_ok h0 p h live n al Hi Hl))
      as (m & p' & h' & -> & _ & _ & _ & H). cbn [mbind option_bind]. eauto.
  - destruct (allocated_pool_ok h0 p h pieces true n _ Hok ltac:(lia) (fun live Hi => ngx_pmemalign_ok h0 p h live n al Hi Hl))
      as (m & p' & h' & -> & _ & _ & _ & H). cbn [mbind option_bind]. eauto.
  - destruct (ngx_pool_cleanup_add_ok h0 p h pieces n Hok Hl) as (c & p' & h' & -> & H). cbn [mbind option_bind].
    eexists p', h', _. split; [reflexivity|]. destruct H as [(-> & _ & d & H)|(d & Hc & Ec & _ & H)].
    + change (NULL =? NULL) with true. cbn iota. apply (pool_ok_sublist _ _ _ _ _ H). unfold got.
      destruct (_ || _); [done|apply sublist_cons; done].
    + rewrite (proj2 (Z.eqb_neq _ _) Hc), Ec. exact H.
  - eexists _, _, _. split; [reflexivity|]. apply pool_ok_handlers; [|done]. rewrite <- list_fmap_compose.
    apply list_fmap_ext. intros i x _. cbn. destruct (Z.eqb_spec (c_addr x) c) as [->|]; done.
  - eexists _, _, _. split; [reflexivity|]. apply pool_ok_handlers; [|done]. apply run_cleanup_file_addr.
  - destruct Hl as [n Hin]. destruct (ngx_pfree_ok h0 p h pieces a n Hok Hin) as (rc & p' & h' & -> & _ & _ & H).
    cbn [mbind option_bind]. eexists p', h', _. split; [reflexivity|]. destruct H as [(-> & -> & ->)|[-> H]]; done.
  - destruct Hl as [Hh Hn]. destruct (ngx_prealloc_ok h0 p h pieces a old new Hok Hh Hn) as (m & p' & h' & -> & _ & _ & H).
    cbn [mbind option_bind]. eauto.
  - destruct (ngx_reset_pool_ok h0 p h pieces Hok Hl) as (p' & h' & -> & _ & _ & H). cbn [mbind option_bind]. eauto.
Qed.
End Large.

(** The states that are reached from the creation of a pool *)
Inductive reachable (memalign : heap -> Z -> Z -> option Z) (pagesize size : Z) (h0 : heap)
    : pool_t -> heap -> list (Z * Z) -> Prop :=
| reach_create p h : ngx_create_pool memalign pagesize size h0 = (Some p, h) -> reachable memalign pagesize size h0 p h []
| reach_op o p h pieces p' h' pieces' : reachable memalign pagesize size h0 p h pieces -> legal o p pieces ->
    exec (memalign := memalign) o p h pieces = Some (p', h', pieces') -> reachable memalign pagesize size h0 p' h' pieces'.

Lemma reachable_ok memalign `{!MallocSpec memalign} pagesize size h0 p h pieces :
  heap_ok h0 -> sizeof_pool + sizeof_large <= size -> (8 | size) -> sizeof_large < pagesize ->
  reachable memalign pagesize size h0 p h pieces -> pool_ok size h0 p h pieces.
Proof.
  intros Hh Hs H8 Hpg. induction 1 as [p h E|o p h pieces p' h' pieces' _ IH Hl E].
  - pose proof (ngx_create_pool_ok size h0 pagesize Hh Hs H8 Hpg) as H. rewrite E in H. apply H.
  - destruct (exec_ok size h0 o p h pieces IH Hl) as (p2 & h2 & ps2 & E2 & H). rewrite E in E2. injection E2 as <- <- <-. done.
Qed.

(** C29: Whatever the clients of a pool do with it, as long as they pass it pieces they hold and do not reset it while it
    has cleanup handlers ([reset_dangling_cleanup]), and its size is a multiple of 8 ([odd_pool_size]): no operation
    frees memory that is not allocated; [ngx_palloc] returns aligned addresses; the pieces the clients hold do not
    overlap each other or the structures of the pool, and lie in memory the pool has allocated; and [ngx_destroy_pool]
    runs the handlers while all of the pool is still allocated, then frees all the pool has allocated and nothing
    else. *)
Theorem pool_safe memalign `{!MallocSpec memalign} pagesize size h0 p h pieces :
  heap_ok h0 -> sizeof_pool + sizeof_large <= size -> (8 | size) -> sizeof_large < pagesize ->
  reachable memalign pagesize size h0 p h pieces ->
  (forall o, legal o p pieces -> exec (memalign := memalign) o p h pieces <> None) /\
  (forall n m p' h', 0 <= n -> ngx_palloc memalign n p h = Some (m, p', h') -> m <> NULL -> (8 | m)) /\
  pairwise pieces /\
  (forall r s, r ∈ pieces -> s ∈ structs p -> disj r s) /\
  (forall r, r ∈ pieces -> exists a n, h !! a = Some n /\ h0 !! a = None /\ a <= r.1 /\ r.1 + r.2 <= a + n) /\
  ngx_destroy_pool p h = Some (run_cleanup h (cleanup p), h0).
Proof.
  intros Hh Hs H8 Hpg Hr. pose proof (reachable_ok _ _ _ _ _ _ _ Hh Hs H8 Hpg Hr) as Hok. split; [|split].
  - intros o Hl. destruct (exec_ok size h0 o p h pieces Hok Hl) as (p' & h' & ps & -> & _). done.
  - intros n m p' h' Hn E Hm.
    destruct (allocated_pool_ok size h0 p h pieces true n _ Hok Hn (fun live Hi => palloc_ok size h0 p h live n true Hi Hn))
      as (m2 & p2 & h2 & E2 & _ & _ & Ha & _). unfold ngx_palloc in E. rewrite E in E2. injection E2 as <- <- <-. auto.
  - destruct Hok as (extra & Hc & Hi & Hp). pose proof (i_live _ _ _ _ _ Hi) as Hd. apply pairwise_app in Hd as (Hd & _ & Hx).
    split; [done|]. split; [|split; [|exact (ngx_destroy_pool_ok size h0 p h _ Hi)]].
    + intros r s Hr1 Hs1. unfold covers in Hc. rewrite list.Forall_forall in Hc. destruct (Hc s Hs1) as (n & Hn & Hin).
      intros x Hxx. apply (Hx r (s.1, n) Hr1 Hin x). cbn. lia.
    + intros r Hr1. pose proof (i_placed _ _ _ _ _ Hi) as Hpl. rewrite list.Forall_forall in Hpl.
      destruct (placed_owner _ _ _ _ _ _ Hi (Hpl r ltac:(apply elem_of_app; by left))) as (a & n & Ho & Ea & Hb).
      exists a, n. split; [done|]. split; [apply (i_rest _ _ _ _ _ Hi a); done|done].
Qed.

(** A size the directives accept is a size for which pools are safe. *)
Lemma pool_size_ok size : ngx_http_core_pool_size size = true -> sizeof_pool + sizeof_large <= size /\ (8 | size).
Proof.
  unfold ngx_http_core_pool_size. change NGX_MIN_POOL_SIZE with 112. change (sizeof_pool + sizeof_large) with 96.
  destruct (Z.ltb_spec size 112); [done|]. destruct (Z.eqb_spec (size mod NGX_POOL_ALIGNMENT) 0) as [E|]; [|done]. intros _.
  split; [lia|]. apply Z.mod_divide in E; [|done]. destruct E as [k ->]. exists (2 * k). unfold NGX_POOL_ALIGNMENT. lia.
Qed.

(** ** A concrete allocator *)

(** The end of the highest block *)
Definition top (h : heap) : Z := map_fold (fun a n t => Z.max t (a + n)) 0 h.

Definition bump (h : heap) (alignment n : Z) : option Z :=
  let a := (top h / 16 + 1) * 16 in
  if a + n <? 2 ^ 64 then Some a else None.

Lemma top_ok h : 0 <= top h /\ forall a n, h !! a = Some n -> a + n <= top h.
Proof.
  unfold top. apply (map_fold_weak_ind (fun t (m : heap) => 0 <= t /\ forall a n, m !! a = Some n -> a + n <= t)).
  - split; [done|]. intros a n H. rewrite lookup_empty in H. done.
  - intros a n m t _ [H1 H2]. split; [lia|]. intros b k Hb. apply lookup_insert_Some in Hb as [[<- <-]|[_ Hb]]; [lia|].
    specialize (H2 _ _ Hb). lia.
Qed.

#[export] Instance bump_malloc : MallocSpec bump.
Proof.
  constructor. intros h al n a Hh Hn. unfold bump. set (b := (top h / 16 + 1) * 16).
  destruct (Z.ltb_spec (b + n) (2 ^ 64)) as [H64|]; [|done]. intros [= <-]. destruct (top_ok h) as [H1 H2].
  pose proof (Z.div_mod (top h) 16 ltac:(lia)). pose proof (Z.mod_pos_bound (top h) 16 ltac:(lia)).
  assert (Hb : top h < b) by (unfold b; lia). split; [lia|]. split; [done|]. split.
  - exists (2 * (top h / 16 + 1)). unfold b. lia.
  - intros c m Hc x Hx. cbn in Hx. specialize (H2 _ _ Hc). lia.
Qed.

(** A session: two pieces, one of which grows, and a handler, which is set *)
Definition demo_ops : list op :=
  [Palloc true 10; Palloc false 5000; Prealloc 128 10 20; CleanupAdd 8; SetHandler 184 7; Pfree 320].

(** Running operations one after the other, as long as the clients keep their obligations *)
Fixpoint exec_all (memalign : heap -> Z -> Z -> option Z) (os : list op) (p : pool_t) (h : heap) (ps : list (Z * Z))
    (k : pool_t -> heap -> list (Z * Z) -> Prop) : Prop :=
  match os with
  | [] => k p h ps
  | o :: os' =>
      legal o p ps /\
      match exec (memalign := memalign) o p h ps with Some (p, h, ps) => exec_all memalign os' p h ps k | None => False end
  end.

Lemma exec_all_reachable memalign pagesize size h0 os p h ps k : reachable memalign pagesize size h0 p h ps ->
  exec_all memalign os p h ps k -> exists p' h' ps', reachable memalign pagesize size h0 p' h' ps' /\ k p' h' ps'.
Proof.
  revert p h ps. induction os as [|o os IH]; intros p h ps Hr; cbn [exec_all]; [eauto 10|].
  intros [Hl He]. destruct (exec o p h ps) as [[[p1 h1] ps1]|] eqn:E; [|done].
  exact (IH _ _ _ (reach_op _ _ _ _ _ _ _ _ _ _ _ Hr Hl E) He).
Qed.

Definition demo_heap : heap := {[16 := 16]}.

Lemma demo_heap_ok : heap_ok demo_heap.
Proof.
  split.
  - intros a n H. unfold demo_heap in H. apply lookup_singleton_Some in H as [<- <-]. done.
  - intros a n b m H1 H2 Hne. unfold demo_heap in H1, H2. apply lookup_singleton_Some in H1 as [<- <-], H2 as [<- <-]. done.
Qed.

(** The session runs: the pieces left are the small ones, and the memory is given back. *)
Lemma demo_reachable : exists p h ps, reachable bump 4096 256 demo_heap p h ps /\
  ps = [(208, 8); (160, 20)] /\ run_cleanup h (cleanup p) = [(7, 208, h)] /\ map_to_list h = [(48, 256); (16, 16)].
Proof.
  destruct (ngx_create_pool bump 4096 256 demo_heap) as [[p|] h] eqn:E; [|vm_compute in E; discriminate].
  destruct (exec_all_reachable bump 4096 256 demo_heap demo_ops p h [] (fun p h ps =>
    ps = [(208, 8); (160, 20)] /\ run_cleanup h (cleanup p) = [(7, 208, h)] /\ map_to_list h = [(48, 256); (16, 16)]))
    as (p' & h' & ps' & H1 & H2); [apply reach_create; done| |exists p', h', ps'; done].
  vm_compute in E. injection E as <- <-. vm_compute. split_and!; try discriminate; try exact I; try reflexivity.
  - right. vm_compute. set_solver.
  - exists 5000. set_solver.
Qed.

Lemma pool_safe_witness : exists p h ps, reachable bump 4096 256 demo_heap p h ps /\ ps = [(208, 8); (160, 20)] /\
  pairwise ps /\ ngx_destroy_pool p h = Some ([(7, 208, h)], demo_heap).
Proof.
  destruct demo_reachable as (p & h & ps & Hr & E & Ec & _). exists p, h, ps. split; [done|]. split; [done|].
  destruct (pool_safe bump 4096 256 demo_heap p h ps demo_heap_ok ltac:(done) ltac:(exists 32; done) ltac:(done) Hr)
    as (_ & _ & H1 & _ & _ & H2). split; [done|]. rewrite Ec in H2. done.
Defined.

(** ** Where the contract of the clients ends *)

(** [ngx_reset_pool] keeps the list of handlers, whose entries are in the memory it gives back: the next piece is
    the entry itself. *)
Example reset_dangling_cleanup :
  (let '(p, h) := ngx_create_pool bump 4096 256 ∅ in
   p ← p; '(c, p, h) ← ngx_pool_cleanup_add bump 0 p h; '(p, h) ← ngx_reset_pool p h;
   '(m, p, h) ← ngx_palloc bump 24 p h; Some (m =? c, c_addr <$> cleanup p, c)) = Some (true, [96], 96).
Proof. vm_compute. reflexivity. Qed.

(** The size of a pool must be a multiple of the alignment: here the rest of the block is smaller than the padding,
    the difference wraps around, and the piece lies behind the end of the block.  The directives refuse such sizes. *)
Example odd_pool_size :
  (let '(p, h) := ngx_create_pool bump 4096 100 ∅ in
   p ← p; '(m, p, h) ← ngx_pnalloc bump 18 p h; '(m, p, h) ← ngx_palloc bump 8 p h;
   Some (m, b_end <$> blocks p)) = Some (120, [116]) /\ ngx_http_core_pool_size 100 = false.
Proof. vm_compute. split; reflexivity. Qed.
End PoolSafety.
