(* ===== verification/RedisProto.v ===== *)
(** * Redis replies

    [src/module_qkpack/src/qkupstream/ngx_redis_protocol.c]: the test whether a
    reply of a Redis server has been received completely.

    The functions get a pointer into the receive buffer and the number of bytes
    received, but read the numbers with [strtol], which does not know that
    length.  The model therefore has the memory [mem] from [rdata] on, received
    bytes and what lies behind them, and positions in it; a byte outside it is
    read as NUL. *)

From S2P Require Import Prelude NgxString.

Module RedisProto.
Import NgxString.

(** ** [strtol] of the C library, with base 0 *)

Definition is_space (c : Z) : bool := (c =? 32) || in_range 9 13 c.

Fixpoint skip_spaces (s : list Z) : list Z :=
  match s with
  | c :: s' => if is_space c then skip_spaces s' else s
  | [] => []
  end.

Definition digit_val (base c : Z) : option Z :=
  let v := if is_digit c then c - "0"%ch
           else if is_alpha20 c then lower20 c - "a"%ch + 10 else base in
  if v <? base then Some v else None.

(** The digits at the front of [s]: their value and what follows. *)
Fixpoint digit_run (base : Z) (s : list Z) (v : Z) : Z * list Z :=
  match s with
  | [] => (v, [])
  | c :: s' => match digit_val base c with
               | Some d => digit_run base s' (v * base + d)
               | None => (v, s)
               end
  end.

Definition LONG_MAX : Z := 2 ^ 63 - 1.
Definition LONG_MIN : Z := - 2 ^ 63.

(** An optional sign, then [0x] before a hexadecimal digit, [0] for octal, or
    decimal. *)
Definition sign_of (s : list Z) : bool * list Z :=
  match s with
  | c :: s' => if c =? "-"%ch then (true, s')
               else if c =? "+"%ch then (false, s') else (false, s)
  | [] => (false, s)
  end.

Definition base_of (s : list Z) : Z * list Z :=
  match s with
  | z :: x :: h :: s' =>
      if (z =? "0"%ch) && (lower20 x =? "x"%ch) && bool_decide (is_Some (digit_val 16 h))
      then (16, h :: s')
      else if z =? "0"%ch then (8, s) else (10, s)
  | z :: _ => if z =? "0"%ch then (8, s) else (10, s)
  | [] => (10, s)
  end.

(** The value and the number of bytes up to [*endptr]: none when there is no
    digit. *)
Definition strtol (s : list Z) : Z * nat :=
  let '(neg, s2) := sign_of (skip_spaces s) in
  let '(base, s3) := base_of s2 in
  let '(v, rest) := digit_run base s3 0 in
  if (length rest =? length s3)%nat then (0, 0%nat)
  else (Z.max LONG_MIN (Z.min LONG_MAX (if neg then - v else v)), (length s - length rest)%nat).

(** ** The decoder *)

(** [do { i = i / 10; n++; } while (i > 0);] on a [uint64_t]; 20 divisions end
    it for every value. *)
Fixpoint num_size_loop (fuel : nat) (i n : Z) : Z :=
  match fuel with
  | O => n
  | S fuel' => let i := i / 10 in
               let n := n + 1 in
               if i >? 0 then num_size_loop fuel' i n else n
  end.

Definition ngx_get_num_size (i : Z) : Z := num_size_loop 20 (u64 i) 0.

(** The memory at a position, which may lie outside it. *)
Definition at_pos (mem : list Z) (p : Z) : list Z := if p <? 0 then [] else drop (Z.to_nat p) mem.

(** [bulklen = strtol(p, &rest, 0)]: the result is stored in an [int]. *)
Definition read_int (mem : list Z) (p : Z) : Z * Z :=
  let '(v, k) := strtol (at_pos mem p) in (i32 v, p + Z.of_nat k).

(** [len += n] on an [int] *)
Definition ngx_parse_bulk (mem : list Z) (rdata rdata_len : Z) : Z :=
  let len := 1 in
  let '(bulklen, rest) := read_int mem rdata in
  if bulklen =? -1 then NGX_OK
  else
    let len := i32 (len + ngx_get_num_size bulklen) in
    let len := i32 (len + 2) in
    let len := i32 (len + i32 (bulklen + 2)) in
    if len >? rdata_len then NGX_AGAIN else NGX_OK.

(** The loop over the elements; [n] of them are left. *)
Fixpoint multibulk_loop (n : nat) (mem : list Z) (rest len rdata_len : Z) : Z :=
  match n with
  | O => NGX_OK
  | S n' =>
      if len >? rdata_len then NGX_AGAIN
      else
        let rest := rest + 1 in
        let len := i32 (len + 1) in
        let '(bulklen, rest) := read_int mem rest in
        if bulklen =? -1 then multibulk_loop n' mem rest len rdata_len
        else
          let len := i32 (len + ngx_get_num_size bulklen) in
          let rest := rest + 2 in
          let len := i32 (len + 2) in
          let rest := rest + i32 (bulklen + 2) in
          let len := i32 (len + i32 (bulklen + 2)) in
          multibulk_loop n' mem rest len rdata_len
  end.

Definition ngx_parse_multibulk (mem : list Z) (rdata rdata_len : Z) : Z :=
  let '(multibulkSize, rest) := read_int mem rdata in
  let len := 1 + 2 in
  let rest := rest + 2 in
  multibulk_loop (Z.to_nat multibulkSize) mem rest len rdata_len.

Definition ngx_redis_proto_decode (mem : list Z) (len : Z) : Z :=
  let c := hd 0 mem in
  if (c =? "-"%ch) || (c =? "+"%ch) || (c =? ":"%ch) then NGX_OK
  else if c =? "$"%ch then ngx_parse_bulk mem 1 len
  else if c =? "*"%ch then ngx_parse_multibulk mem 1 len
  else NGX_ERROR.

(** ** Replies as Redis writes them *)

Definition CRLF : list Z := [CR; LF].
Definition dec_text (n : Z) : list Z := num_digits 0 n.

Definition bulk (d : list Z) : list Z :=
  bs "$" ++ dec_text (Z.of_nat (length d)) ++ CRLF ++ d ++ CRLF.

Definition multibulk (es : list (list Z)) : list Z :=
  bs "*" ++ dec_text (Z.of_nat (length es)) ++ CRLF ++ concat (bulk <$> es).

Example redis_ex :
  (ngx_redis_proto_decode (bulk (bs "abc")) 9, ngx_redis_proto_decode (bulk (bs "abc")) 8,
   ngx_redis_proto_decode (multibulk [bs "SET"; bs "k"]) 20)
  = (NGX_OK, NGX_AGAIN, NGX_OK).
Proof. vm_compute. reflexivity. Qed.

(** ** Reading the numbers *)

Lemma digit_val_10 c : is_byte c -> digit_val 10 c = if is_digit c then Some (c - 48) else None.
Proof.
  intros Hc.
  pose proof (byte_forall (fun c => bool_decide (digit_val 10 c =
    if is_digit c then Some (c - 48) else None)) eq_refl c Hc) as H.
  by apply bool_decide_eq_true in H.
Qed.

Lemma digit_byte c : is_digit c = true -> is_byte c.
Proof. rewrite is_digit_iff. unfold is_byte. lia. Qed.

Lemma digit_run_dec ds s v :
  digits ds -> digit_run 10 (ds ++ CR :: s) v = (fold_left dec_step ds v, CR :: s).
Proof.
  intros Hd. revert v. induction Hd as [|c ds Hc Hd IH]; intros v; [done|].
  cbn [app digit_run fold_left]. rewrite digit_val_10 by (by apply digit_byte).
  rewrite Hc. apply IH.
Qed.

(** A number above zero is written without leading zeros. *)
Lemma dec_digits_head fuel n :
  0 < n < 10 ^ Z.of_nat fuel -> hd 0 (dec_digits fuel n []) <> "0"%ch.
Proof.
  revert n. induction fuel as [|f IH]; intros n Hn; [simpl in Hn; lia|]. cbn [dec_digits].
  pose proof (Z.div_mod n 10 ltac:(lia)) as Hdm.
  pose proof (Z.mod_pos_bound n 10 ltac:(lia)) as Hm.
  destruct (Z.eqb_spec (n / 10) 0) as [E|E]; [cbn; lia|].
  assert (0 <= n / 10) by (apply Z.div_pos; lia).
  rewrite dec_digits_acc. rewrite Nat2Z.inj_succ, Z.pow_succ_r in Hn by lia.
  assert (n / 10 < 10 ^ Z.of_nat f) by (apply Z.div_lt_upper_bound; lia).
  specialize (IH (n / 10) ltac:(lia)).
  destruct f as [|f]; [simpl in *; lia|].
  destruct (dec_digits_val (S f) (n / 10)) as (_ & _ & Hne & _); [lia|lia|].
  by destruct (dec_digits (S f) (n / 10) []).
Qed.

Lemma dec_text_head n : 0 < n < 2 ^ 31 -> hd 0 (dec_text n) <> "0"%ch.
Proof.
  intros Hn. unfold dec_text, num_digits. cbn [Z.eqb].
  destruct (Z.leb_spec n 0xffffffff); [|lia]. unfold u32. rewrite wrap_u_small by lia.
  apply dec_digits_head. change (10 ^ Z.of_nat NGX_INT64_LEN) with (10 ^ 20). lia.
Qed.

Lemma digit_not_space c s : is_digit c = true -> skip_spaces (c :: s) = c :: s.
Proof.
  rewrite is_digit_iff. intros H. cbn. unfold is_space, in_range.
  destruct (_ || _) eqn:E; [lia|done].
Qed.

Lemma base_of_dec c s : c <> "0"%ch -> base_of (c :: s) = (10, c :: s).
Proof.
  intros Hc. unfold base_of. destruct s as [|x [|h s]];
    by rewrite (proj2 (Z.eqb_neq c 48)) by done.
Qed.

(** [strtol] reads a decimal number up to the CR after it. *)
Lemma strtol_dec n s :
  0 <= n < 2 ^ 31 -> strtol (dec_text n ++ CR :: s) = (n, length (dec_text n)).
Proof.
  intros Hn. destruct (Z.eq_dec n 0) as [-> |Hnz].
  { unfold strtol. change (dec_text 0 ++ CR :: s) with ("0"%ch :: CR :: s).
    cbn [skip_spaces]. change (is_space 48) with false. cbv iota. cbn [sign_of].
    change (48 =? 45) with false. change (48 =? 43) with false. cbv iota.
    assert (base_of (48 :: CR :: s) = (8, 48 :: CR :: s)) as -> by (by destruct s).
    assert (digit_run 8 (48 :: CR :: s) 0 = (0, CR :: s)) as -> by done.
    cbn [length]. destruct (Nat.eqb_spec (S (length s)) (S (S (length s)))); [lia|].
    cbn. f_equal. change (length (dec_text 0)) with 1%nat. lia. }
  destruct (num_digits_dec n) as (Hd & Hv & Hne & _); [lia|].
  pose proof (dec_text_head n ltac:(lia)) as Hh. unfold dec_text in *.
  assert (digit_run 10 (num_digits 0 n ++ CR :: s) 0 = (n, CR :: s)) as Hrun
    by (rewrite digit_run_dec by done; unfold dec_val in Hv; by rewrite Hv).
  unfold strtol. destruct (num_digits 0 n) as [|c ds]; [done|]. cbn [app hd] in *.
  apply Forall_cons_1 in Hd as [Hc _]. rewrite digit_not_space by done.
  assert (sign_of (c :: ds ++ CR :: s) = (false, c :: ds ++ CR :: s)) as ->.
  { apply is_digit_iff in Hc. cbn. by rewrite !(proj2 (Z.eqb_neq c _)) by lia. }
  rewrite base_of_dec, Hrun by done. cbn [length]. rewrite length_app. cbn [length].
  destruct (Nat.eqb_spec (S (length s)) (S (length ds + S (length s)))); [lia|].
  unfold LONG_MIN, LONG_MAX. f_equal; lia.
Qed.

Lemma num_size_loop_dec fuel n k :
  num_size_loop fuel n k = k + Z.of_nat (length (dec_digits fuel n [])) \/ n < 0.
Proof.
  revert n k. induction fuel as [|f IH]; intros n k; [left; cbn; lia|].
  destruct (Z.lt_ge_cases n 0) as [|Hn]; [by right|left].
  cbn [num_size_loop dec_digits]. assert (0 <= n / 10) by (apply Z.div_pos; lia).
  destruct (Z.gtb_spec (n / 10) 0), (Z.eqb_spec (n / 10) 0); try lia.
  - rewrite dec_digits_acc, length_app. cbn [length].
    destruct (IH (n / 10) (k + 1)) as [-> |]; lia.
  - cbn. lia.
Qed.

Lemma num_size_dec n : 0 <= n < 2 ^ 31 -> ngx_get_num_size n = Z.of_nat (length (dec_text n)).
Proof.
  intros Hn. unfold ngx_get_num_size. rewrite u64_small by lia.
  unfold dec_text, num_digits. cbn [Z.eqb]. destruct (Z.leb_spec n 0xffffffff); [|lia].
  unfold u32. rewrite wrap_u_small by lia.
  destruct (num_size_loop_dec 20 n 0) as [-> |]; [done|lia].
Qed.

Lemma at_pos_app a b p : p = Z.of_nat (length a) -> at_pos (a ++ b) p = b.
Proof.
  intros ->. unfold at_pos. destruct (Z.ltb_spec (Z.of_nat (length a)) 0); [lia|].
  by rewrite Nat2Z.id, drop_app_length.
Qed.

Lemma read_int_dec a n s p :
  p = Z.of_nat (length a) -> 0 <= n < 2 ^ 31 ->
  read_int (a ++ dec_text n ++ CR :: s) p = (n, p + Z.of_nat (length (dec_text n))).
Proof.
  intros Hp Hn. unfold read_int. rewrite at_pos_app by done.
  rewrite strtol_dec by done. by rewrite i32_small by lia.
Qed.

Lemma dec_text_length n : 0 <= n < 2 ^ 31 -> (1 <= length (dec_text n) <= 20)%nat.
Proof.
  intros Hn. destruct (num_digits_dec n) as (_ & _ & H1 & H2); [lia|].
  unfold dec_text, NGX_INT64_LEN in *. destruct (num_digits 0 n); [done|]. cbn in *. lia.
Qed.

Lemma bulk_length d :
  Z.of_nat (length (bulk d)) =
  Z.of_nat (length (dec_text (Z.of_nat (length d)))) + Z.of_nat (length d) + 5.
Proof. unfold bulk. rewrite !length_app. change (length (bs "$")) with 1%nat. cbn. lia. Qed.

Lemma bulk_reply d junk k :
  Z.of_nat (length d) < 2 ^ 31 - 32 ->
  ngx_redis_proto_decode (bs "$" ++ dec_text (Z.of_nat (length d)) ++ CR :: junk) k =
  if k <? Z.of_nat (length (bulk d)) then NGX_AGAIN else NGX_OK.
Proof.
  intros Hd. rewrite bulk_length.
  unfold ngx_redis_proto_decode. change (hd 0 _) with 36. cbn [Z.eqb Pos.eqb orb].
  unfold ngx_parse_bulk. rewrite read_int_dec by (done || lia).
  pose proof (dec_text_length (Z.of_nat (length d)) ltac:(lia)).
  destruct (Z.eqb_spec (Z.of_nat (length d)) (-1)); [lia|].
  rewrite num_size_dec by lia. set (m := Z.of_nat (length (dec_text _))) in *.
  unwrap.
  replace (_ >? k) with (k <? m + Z.of_nat (length d) + 5) by bool_lia. done.
Qed.

(** a bulk reply.  Once its length line has arrived, up to the CR, the
    decoder waits exactly until the last byte of the reply is there, whatever
    the memory behind the received bytes contains. *)
Theorem bulk_reply_complete d junk k :
  Z.of_nat (length d) < 2 ^ 31 - 32 ->
  ngx_redis_proto_decode (bs "$" ++ dec_text (Z.of_nat (length d)) ++ CR :: junk) k =
  if k <? Z.of_nat (length (bulk d)) then NGX_AGAIN else NGX_OK.
Proof. apply bulk_reply. Qed.

Lemma bulk_reply_complete_witness :
  ngx_redis_proto_decode (bs "$5" ++ CR :: bs "anything") 10 = NGX_AGAIN.
Proof. exact (bulk_reply_complete (bs "hello") (bs "anything") 10 eq_refl). Defined.

(** One element that is in memory. *)
Lemma multibulk_loop_bulk n mem a d s len k :
  mem = a ++ bulk d ++ s -> 0 <= len -> len <= k ->
  len + Z.of_nat (length (bulk d)) < 2 ^ 31 ->
  multibulk_loop (S n) mem (Z.of_nat (length a)) len k =
  multibulk_loop n mem (Z.of_nat (length (a ++ bulk d))) (len + Z.of_nat (length (bulk d))) k.
Proof.
  intros Hm Hl Hk Hlt. pose proof (bulk_length d) as Hb. cbn [multibulk_loop].
  destruct (Z.gtb_spec len k); [lia|].
  assert (mem = (a ++ bs "$") ++ dec_text (Z.of_nat (length d)) ++ CR :: [LF] ++ d ++ CRLF ++ s) as E.
  { rewrite Hm. unfold bulk. by rewrite <- !app_assoc. }
  rewrite E at 1. rewrite read_int_dec by
    (rewrite ?length_app; change (length (bs "$")) with 1%nat; lia).
  pose proof (dec_text_length (Z.of_nat (length d)) ltac:(lia)).
  destruct (Z.eqb_spec (Z.of_nat (length d)) (-1)); [lia|].
  rewrite num_size_dec by lia. set (m := Z.of_nat (length (dec_text _))) in *.
  unwrap.
  rewrite length_app. f_equal; lia.
Qed.

Lemma multibulk_loop_spec es mem a junk len k :
  mem = a ++ concat (bulk <$> es) ++ junk -> 0 <= len ->
  len + Z.of_nat (length (concat (bulk <$> es))) < 2 ^ 31 ->
  multibulk_loop (S (length es)) mem (Z.of_nat (length a)) len k =
  if k <? len + Z.of_nat (length (concat (bulk <$> es))) then NGX_AGAIN else NGX_OK.
Proof.
  revert a len. induction es as [|d es IH]; intros a len Hm Hl Hlt.
  { cbn [length fmap list_fmap concat]. rewrite Z.add_0_r. cbn [multibulk_loop].
    replace (len >? k) with (k <? len) by bool_lia. destruct (k <? len); [done|].
    destruct (read_int _ _) as [b r]. by destruct (b =? -1). }
  cbn [length fmap list_fmap concat] in *. rewrite length_app in *.
  destruct (Z.lt_ge_cases k len) as [Hk|Hk].
  { cbn [multibulk_loop]. destruct (Z.gtb_spec len k); [|lia].
    destruct (Z.ltb_spec k (len + Z.of_nat (length (bulk d) + length (concat (bulk <$> es)))));
      [done|lia]. }
  rewrite (multibulk_loop_bulk _ mem a d (concat (bulk <$> es) ++ junk)) by
    (rewrite ?Hm, <- ?app_assoc; done || lia).
  rewrite (IH (a ++ bulk d)) by (rewrite ?Hm, <- ?app_assoc; done || lia).
  by replace (len + Z.of_nat (length (bulk d) + length (concat (bulk <$> es)))) with
    (len + Z.of_nat (length (bulk d)) + Z.of_nat (length (concat (bulk <$> es)))) by lia.
Qed.

Lemma multibulk_reply_decide es junk k :
  Z.of_nat (length es) < 2 ^ 30 ->
  Z.of_nat (length (concat (bulk <$> es))) < 2 ^ 30 ->
  ngx_redis_proto_decode
    (bs "*" ++ dec_text (Z.of_nat (S (length es))) ++ CRLF ++ concat (bulk <$> es) ++ junk) k =
  if k <? 3 + Z.of_nat (length (concat (bulk <$> es))) then NGX_AGAIN else NGX_OK.
Proof.
  intros Hn Hl. set (n := Z.of_nat (S (length es))).
  unfold ngx_redis_proto_decode. change (hd 0 _) with 42. cbn [Z.eqb Pos.eqb orb].
  unfold ngx_parse_multibulk. set (mem := bs "*" ++ _).
  assert (mem = bs "*" ++ dec_text n ++ CR :: [LF] ++ concat (bulk <$> es) ++ junk) as E by done.
  rewrite E at 1. rewrite read_int_dec; [|reflexivity|lia].
  replace (Z.to_nat n) with (S (length es)) by lia.
  replace (1 + Z.of_nat (length (dec_text n)) + 2) with
    (Z.of_nat (length (bs "*" ++ dec_text n ++ CRLF))) by
    (rewrite !length_app; change (length (bs "*")) with 1%nat; change (length CRLF) with 2%nat; lia).
  apply multibulk_loop_spec with (junk := junk); [|lia|lia].
  rewrite E. by rewrite <- !app_assoc.
Qed.

(** what the decoder decides on a multi-bulk reply of [n + 1] elements, of
    which the first [n] are in memory: it waits while fewer than [3] bytes and
    those [n] elements have been received, and then reports a complete reply,
    whatever follows them.  A complete reply is therefore always accepted, but
    neither the digits of the element count nor the last element are waited
    for. *)
Theorem multibulk_reply_decision es junk k :
  Z.of_nat (length es) < 2 ^ 30 ->
  Z.of_nat (length (concat (bulk <$> es))) < 2 ^ 30 ->
  ngx_redis_proto_decode
    (bs "*" ++ dec_text (Z.of_nat (S (length es))) ++ CRLF ++ concat (bulk <$> es) ++ junk) k =
  if k <? 3 + Z.of_nat (length (concat (bulk <$> es))) then NGX_AGAIN else NGX_OK.
Proof. apply multibulk_reply_decide. Qed.

Lemma multibulk_reply_decision_witness :
  ngx_redis_proto_decode (bs "*2" ++ CRLF ++ bulk (bs "SET") ++ bs "$3") 12 = NGX_OK.
Proof. exact (multibulk_reply_decision [bs "SET"] (bs "$3") 12 eq_refl eq_refl). Defined.

Lemma multibulk_length e es :
  Z.of_nat (length (multibulk (es ++ [e]))) =
  3 + Z.of_nat (length (dec_text (Z.of_nat (S (length es))))) +
  Z.of_nat (length (concat (bulk <$> es))) + Z.of_nat (length (bulk e)).
Proof.
  unfold multibulk. rewrite fmap_app, concat_app. cbn [fmap list_fmap concat].
  rewrite app_nil_r, !length_app. change (length [e]) with 1%nat. rewrite Nat.add_1_r.
  change (length (bs "*")) with 1%nat. change (length CRLF) with 2%nat. lia.
Qed.

(** every complete multi-bulk reply is accepted, for any number of
    non-null elements and any bytes received after it. *)
Theorem multibulk_reply_accepted es junk k :
  Z.of_nat (length es) < 2 ^ 30 -> Z.of_nat (length (multibulk es)) < 2 ^ 30 ->
  Z.of_nat (length (multibulk es)) <= k ->
  ngx_redis_proto_decode (multibulk es ++ junk) k = NGX_OK.
Proof.
  intros Hn Hl Hk. destruct es as [|e0 es0].
  { unfold ngx_redis_proto_decode, ngx_parse_multibulk. change (hd 0 _) with 42.
    cbn [Z.eqb Pos.eqb orb].
    change (multibulk [] ++ junk) with (bs "*" ++ dec_text 0 ++ CR :: LF :: junk).
    rewrite read_int_dec; [done|reflexivity|lia]. }
  destruct (exists_last (l := e0 :: es0) ltac:(done)) as (es & e & E). rewrite E in *. clear E.
  rewrite multibulk_length in Hl, Hk. rewrite length_app in Hn. change (length [e]) with 1%nat in Hn.
  assert (multibulk (es ++ [e]) ++ junk =
    bs "*" ++ dec_text (Z.of_nat (S (length es))) ++ CRLF ++ concat (bulk <$> es) ++ bulk e ++ junk) as ->.
  { unfold multibulk. rewrite fmap_app, concat_app, length_app, Nat.add_1_r.
    cbn [fmap list_fmap concat]. by rewrite app_nil_r, <- !app_assoc. }
  rewrite multibulk_reply_decide by lia.
  destruct (Z.ltb_spec k (3 + Z.of_nat (length (concat (bulk <$> es))))); [lia|done].
Qed.

Lemma multibulk_reply_accepted_witness :
  ngx_redis_proto_decode (multibulk [bs "SET"; bs "mykey"] ++ bs "+OK") 24 = NGX_OK.
Proof. exact (multibulk_reply_accepted [bs "SET"; bs "mykey"] (bs "+OK") 24 eq_refl eq_refl ltac:(vm_compute; done)). Defined.

(** A reply without its last element is reported complete; a length cut inside its
    digits is read on into the memory behind it, base 0 makes [010] eight, and
    after a null element, whose line end is not skipped, the next length is read
    as 0. *)
Example multibulk_truncated : ngx_redis_proto_decode (bs "*1" ++ CRLF) 4 = NGX_OK.
Proof. reflexivity. Qed.

Example bulk_octal :
  ngx_redis_proto_decode (bs "$010" ++ CRLF ++ bs "12345678" ++ CRLF) 15 = NGX_OK.
Proof. vm_compute. reflexivity. Qed.

Example bulk_split_digits :
  ngx_redis_proto_decode (bs "$1" ++ bs "000" ++ CRLF) 2 = NGX_AGAIN /\
  ngx_redis_proto_decode (bs "$" ++ bs "-1" ++ CRLF) 1 = NGX_OK.
Proof. split; reflexivity. Qed.

Example multibulk_null :
  ngx_redis_proto_decode
    (bs "*3" ++ CRLF ++ bs "$-1" ++ CRLF ++ bulk (bs "hello") ++ bulk (bs "world")) 10 = NGX_OK.
Proof. vm_compute. reflexivity. Qed.

End RedisProto.
