(* ===== verification/RoundRobin.v ===== *)
(** * Upstreams and the round-robin balancer

    The data of an upstream ([src/src/http/ngx_http_upstream.h],
    [ngx_http_upstream_round_robin.h]) and the stock balancer of
    [src/src/http/ngx_http_upstream_round_robin.c]: smooth weighted round robin with
    passive health checks and backup servers.  The QKPack node balancer works on the
    same data and falls back to this one.

    [ngx_time], [ngx_inet_resolve_host] (see [NgxInet]) and the health check module ([ngx_http_upstream_check_peer_down])
    are parameters.  [None] is undefined behaviour of the C code. *)

From stdpp Require Import relations.
From S2P Require Import Prelude NgxInet.

Module RoundRobin.
Import Sockaddr.

Definition str : Type := list Z.

(** [ngx_http_upstream_server_t] *)
Record server_t : Type := mk_server {
  s_host : str;
  s_id : str;
  s_addrs : list addr_t;
  s_weight : Z;
  s_max_fails : Z;
  s_fail_timeout : Z;
  s_down : bool;
  s_backup : bool
}.

(** [ngx_http_upstream_rr_peer_t], without the SSL session *)
Record peer_t : Type := mk_peer {
  p_sockaddr : option sockaddr;
  p_socklen : Z;
  p_name : str;
  p_id : str;
  p_host : str;
  current_weight : Z;
  effective_weight : Z;
  weight : Z;
  fails : Z;
  accessed : Z;
  checked : Z;
  max_fails : Z;
  fail_timeout : Z;
  check_index : Z;
  down : bool
}.

#[export] Instance eta_peer : Eta peer_t := fun p =>
  mk_peer (p_sockaddr p) (p_socklen p) (p_name p) (p_id p) (p_host p) (current_weight p)
    (effective_weight p) (weight p) (fails p) (accessed p) (checked p) (max_fails p)
    (fail_timeout p) (check_index p) (down p).

(** [ngx_http_upstream_rr_peers_t]; [number] is the length of [peer]. *)
Inductive peers_t : Type := mk_peers {
  peer : list peer_t;
  init_number : nat;
  total_weight : Z;
  single : bool;
  weighted : bool;
  ps_name : str;
  next : option peers_t
}.

#[export] Instance eta_peers : Eta peers_t := fun ps =>
  mk_peers (peer ps) (init_number ps) (total_weight ps) (single ps) (weighted ps) (ps_name ps)
    (next ps).

Definition number (ps : peers_t) : Z := Z.of_nat (length (peer ps)).

(** [ngx_http_upstream_srv_conf_t] *)
Record upstream_t : Type := mk_upstream {
  host : str;
  port : Z;
  default_port : Z;
  servers : option (list server_t);
  peer_data : option peers_t
}.

#[export] Instance eta_upstream : Eta upstream_t := fun u =>
  mk_upstream (host u) (port u) (default_port u) (servers u) (peer_data u).

(** What the balancers set of [ngx_peer_connection_t]. *)
Record pc_t : Type := mk_pc {
  pc_sockaddr : option sockaddr;
  pc_socklen : Z;
  pc_name : str;
  pc_host : str;
  pc_tries : Z;
  pc_cached : bool;
  pc_connection : option Z
}.

#[export] Instance eta_pc : Eta pc_t := fun c =>
  mk_pc (pc_sockaddr c) (pc_socklen c) (pc_name c) (pc_host c) (pc_tries c) (pc_cached c)
    (pc_connection c).

(** [ngx_http_upstream_rr_peer_data_t]: [rrp->peers] is the list the request
    works on, given as the number of [next] links followed; [tried] is a bitmap in
    words of 64 bits. *)
Record rrp_t : Type := mk_rrp { level : nat; current : nat; tried : list Z }.

#[export] Instance eta_rrp : Eta rrp_t := fun r => mk_rrp (level r) (current r) (tried r).

(** ** Building the lists *)

Section Init.
(** [ngx_http_upstream_check_add_peer] and [ngx_inet_resolve_host] with the
    addresses it finds. *)
Variable check_add_peer : addr_t -> Z.
Variable resolve_host : str -> Z -> Z * list addr_t.

(** The body of the loop over the addresses of a server. *)
Definition server_peer (s : server_t) (a : addr_t) : peer_t :=
  mk_peer (a_sockaddr a) (a_socklen a) (a_name a) (s_id s) (s_host s) 0 (s_weight s) (s_weight s)
    0 0 0 (s_max_fails s) (s_fail_timeout s)
    (if s_down s then u64 NGX_ERROR else check_add_peer a) (s_down s).

Definition server_peers (ss : list server_t) : list peer_t :=
  concat ((fun s => server_peer s <$> s_addrs s) <$> ss).

(** [w += server[i].naddrs * server[i].weight] *)
Definition servers_weight (ss : list server_t) : Z :=
  foldl (fun w s => u64 (w + Z.of_nat (length (s_addrs s)) * s_weight s)) 0 ss.

(** The zeroed structure with the fields set from the servers. *)
Definition make_peers (name : str) (ss : list server_t) : peers_t :=
  let l := server_peers ss in
  let n := Z.of_nat (length l) in
  let w := servers_weight ss in
  mk_peers l 0 w (n =? 1) (negb (w =? n)) name None.

(** A peer of an implicitly defined upstream. *)
Definition implicit_peer (h : str) (a : addr_t) : peer_t :=
  mk_peer (a_sockaddr a) (a_socklen a) (a_name a) [] h 0 1 1 0 0 0 1 10 (u64 NGX_ERROR) false.

(** [ngx_http_upstream_init_round_robin]; [mem] is the number of allocations
    that succeed. *)
Definition init_round_robin (mem : nat) (us : upstream_t) : Z * upstream_t :=
  match servers us with
  | Some ss =>
      let main := List.filter (fun s => negb (s_backup s)) ss in
      let spare := List.filter s_backup ss in
      if (length (server_peers main) =? 0)%nat then (NGX_ERROR, us)
      else if (mem <? 1)%nat then (NGX_ERROR, us)
      else
        let peers := make_peers (host us) main in
        if (length (server_peers spare) =? 0)%nat
        then (NGX_OK, us <| peer_data := Some peers |>)
        else if (mem <? 2)%nat then (NGX_ERROR, us <| peer_data := Some peers |>)
        else
          let backup := (make_peers (host us) spare) <| single := false |> in
          (NGX_OK, us <| peer_data := Some (peers <| single := false |> <| next := Some backup |>) |>)
  | None =>
      if port us =? 0 then (NGX_ERROR, us)
      else
        let '(rc, addrs) := resolve_host (host us) (port us) in
        if negb (rc =? NGX_OK) then (NGX_ERROR, us)
        else if (mem <? 1)%nat then (NGX_ERROR, us)
        else
          let n := Z.of_nat (length addrs) in
          (NGX_OK, us <| peer_data := Some (mk_peers (implicit_peer (host us) <$> addrs) 0 n (n =? 1)
                                              false (host us) None) |>)
  end.
End Init.

(** ** A request *)

(** [rrp->tried[n] & m] and [rrp->tried[n] |= m] *)
Definition tried_bit (t : list Z) (i : nat) : option bool :=
  w ← t !! (i / 64)%nat; Some (Z.testbit w (Z.of_nat (i mod 64))).

Definition set_tried (t : list Z) (i : nat) : option (list Z) :=
  w ← t !! (i / 64)%nat; Some (<[(i / 64)%nat := Z.lor w (Z.shiftl 1 (Z.of_nat (i mod 64)))]> t).

(** The words of a bitmap for [n] peers. *)
Definition tried_words (n : nat) : nat := ((n + 63) / 64)%nat.

(** [ngx_http_upstream_init_round_robin_peer] for a request whose [peer.data] is
    [rrp] or [NULL]; [mem] is the number of allocations that succeed. *)
Definition init_round_robin_peer (mem : nat) (rrp : option rrp_t) (us : upstream_t) (pc : pc_t)
    : option (Z * option rrp_t * pc_t) :=
  match rrp, mem with
  | None, O => Some (NGX_ERROR, None, pc)
  | _, _ =>
      let mem := match rrp with Some _ => mem | None => pred mem end in
      ps ← peer_data us;
      let n := match next ps with
               | Some b => Nat.max (length (peer ps)) (length (peer b))
               | None => length (peer ps)
               end in
      if (n <=? 64)%nat then
        Some (NGX_OK, Some (mk_rrp 0 0 [0]), pc <| pc_tries := number ps |>)
      else if (mem <? 1)%nat then Some (NGX_ERROR, Some (mk_rrp 0 0 []), pc)
      else Some (NGX_OK, Some (mk_rrp 0 0 (replicate (tried_words n) 0)),
                 pc <| pc_tries := number ps |>)
  end.

Section Balance.
(** [ngx_http_upstream_check_peer_down] and [ngx_time] *)
Variable check_peer_down : Z -> bool.
Variable now : Z.

(** The tests of the loop that skip a peer. *)
Definition eligible (p : peer_t) : bool :=
  negb (down p) && negb (check_peer_down (check_index p)) &&
  negb (negb (max_fails p =? 0) && (fails p >=? max_fails p) &&
        (now - checked p <=? fail_timeout p)).

(** The weights of a peer the loop considers. *)
Definition bump (p : peer_t) : peer_t :=
  p <| current_weight := i64 (current_weight p + effective_weight p) |>
    <| effective_weight := if effective_weight p <? weight p
                           then i64 (effective_weight p + 1) else effective_weight p |>.

(** One pass of the loop for the peer [i]: the peers, [best] and [total]. *)
Definition rr_pass (t : list Z) (i : nat) (s : list peer_t * option nat * Z)
    : option (list peer_t * option nat * Z) :=
  let '(l, best, total) := s in
  was_tried ← tried_bit t i;
  if was_tried : bool then Some s
  else
    p ← l !! i;
    if negb (eligible p) then Some s
    else
      let l' := <[i := bump p]> l in
      let total' := i64 (total + effective_weight p) in
      match best with
      | None => Some (l', Some i, total')
      | Some b =>
          q ← l' !! b;
          Some (l', if current_weight (bump p) >? current_weight q then Some i else best, total')
      end.

(** [for (i = init; i != init || flag; i = (i + 1) % number)] *)
Fixpoint rr_loop (fuel : nat) (t : list Z) (init : nat) (flag : bool) (i : nat)
    (s : list peer_t * option nat * Z) : option (list peer_t * option nat * Z) :=
  match fuel with
  | O => None
  | S fuel' =>
      if negb (i =? init)%nat || flag then
        s' ← rr_pass t i s;
        let n := length s'.1.1 in
        if (n =? 0)%nat then None
        else rr_loop fuel' t init false ((i + 1) mod n) s'
      else Some s
  end.

(** What the chosen peer pays. *)
Definition charge (total : Z) (p : peer_t) : peer_t :=
  let p := p <| current_weight := i64 (current_weight p - total) |> in
  if now - checked p >? fail_timeout p then p <| checked := now |> else p.

(** [ngx_http_upstream_get_peer]: the index of the best peer, the peers and the
    bitmap; every index is visited once, so that [number + 1] tests end the
    loop. *)
Definition get_peer (l : list peer_t) (init : nat) (t : list Z)
    : option (option (nat * list peer_t * list Z)) :=
  '(l', best, total) ← rr_loop (S (length l)) t init true init (l, None, 0);
  match best with
  | None => Some None
  | Some i =>
      t' ← set_tried t i;
      p ← l' !! i;
      Some (Some (i, <[i := charge total p]> l', t'))
  end.

(** [peer->down] and the health check of a single peer. *)
Definition single_peer (l : list peer_t) : option (option peer_t) :=
  p ← l !! 0%nat;
  Some (if down p || check_peer_down (check_index p) then None else Some p).

(** [peers->peer[i].fails = 0] *)
Definition mark_live (ps : peers_t) : peers_t :=
  ps <| peer := (fun p => p <| fails := 0 |>) <$> peer ps |>.

(** [rrp->tried[i] = 0] for the first [n] words *)
Definition clear_tried (n : nat) (t : list Z) : option (list Z) :=
  if (n <=? length t)%nat then Some (replicate n 0 ++ drop n t) else None.

(** The end of [ngx_http_upstream_get_round_robin_peer] with a peer. *)
Definition connect_to (p : peer_t) (ps : peers_t) (pc : pc_t) : pc_t :=
  let pc := pc <| pc_sockaddr := p_sockaddr p |> <| pc_socklen := p_socklen p |>
               <| pc_name := p_name p |> <| pc_host := p_host p |> in
  match next ps with
  | Some b => if pc_tries pc =? 1 then pc <| pc_tries := u64 (pc_tries pc + number b) |> else pc
  | None => pc
  end.

(** The choice in the list [rrp->peers] points to. *)
Definition choose (ps : peers_t) (rrp : rrp_t) : option (option (peer_t * peers_t * rrp_t)) :=
  if single ps
  then option_map (option_map (fun p => (p, ps, rrp))) (single_peer (peer ps))
  else
    r ← get_peer (peer ps) (init_number ps) (tried rrp);
    match r with
    | None => Some None
    | Some (i, l, t) =>
        p ← l !! i;
        Some (Some (p, ps <| peer := l |>, rrp <| current := i |> <| tried := t |>))
    end.

(** [ngx_http_upstream_get_round_robin_peer] on the list [rrp->peers] points to,
    with the lists behind it. *)
Fixpoint get_round_robin_peer (ps : peers_t) (rrp : rrp_t) (pc : pc_t)
    : option (Z * peers_t * rrp_t * pc_t) :=
  let pc := pc <| pc_cached := false |> <| pc_connection := None |> in
  found ← choose ps rrp;
  match found with
  | Some (p, ps, rrp) => Some (NGX_OK, ps, rrp, connect_to p ps pc)
  | None =>
      match ps with
      | mk_peers l i tw sg w nm (Some b) =>
          t ← clear_tried (tried_words (length (peer b))) (tried rrp);
          '(rc, b', rrp, pc) ← get_round_robin_peer b
             (rrp <| level := S (level rrp) |> <| tried := t |>) (pc <| pc_tries := number b |>);
          let ps := mk_peers l i tw sg w nm (Some b') in
          if negb (rc =? NGX_BUSY) then Some (rc, ps, rrp, pc)
          else Some (NGX_BUSY, mark_live ps, rrp, pc <| pc_name := nm |>)
      | _ => Some (NGX_BUSY, mark_live ps, rrp, pc <| pc_name := ps_name ps |>)
      end
  end.

(** [ngx_http_upstream_free_round_robin_peer] on the list [rrp->peers] points
    to; [failed] is [state & NGX_PEER_FAILED]. *)
Definition failed_peer (p : peer_t) : peer_t :=
  let p := p <| fails := u64 (fails p + 1) |> <| accessed := now |> <| checked := now |> in
  let ew := if max_fails p =? 0 then effective_weight p
            else i64 (effective_weight p - u64 (weight p) / max_fails p) in
  p <| effective_weight := if ew <? 0 then 0 else ew |>.

Definition live_peer (p : peer_t) : peer_t :=
  if accessed p <? checked p then p <| fails := 0 |> else p.

Definition free_round_robin_peer (failed : bool) (ps : peers_t) (rrp : rrp_t) (pc : pc_t)
    : option (peers_t * pc_t) :=
  if single ps then Some (ps, pc <| pc_tries := 0 |>)
  else
    p ← peer ps !! current rrp;
    let p := if failed then failed_peer p else live_peer p in
    let tries := if pc_tries pc =? 0 then 0 else pc_tries pc - 1 in
    Some (ps <| peer := <[current rrp := p]> (peer ps) |>, pc <| pc_tries := tries |>).
End Balance.

(** ** The loop visits every peer once *)

Section Spec.
Variable check_peer_down : Z -> bool.
Variable now : Z.

Abbreviation eligible := (eligible check_peer_down now).
Abbreviation rr_pass := (rr_pass check_peer_down now).
Abbreviation rr_loop := (rr_loop check_peer_down now).

Definition order (init n : nat) : list nat := (fun j => ((init + j) mod n)%nat) <$> seq 0 n.

Fixpoint passes (t : list Z) (idx : list nat) (s : list peer_t * option nat * Z)
    : option (list peer_t * option nat * Z) :=
  match idx with
  | [] => Some s
  | i :: idx' => s' ← rr_pass t i s; passes t idx' s'
  end.

Lemma rr_pass_length t i s s' : rr_pass t i s = Some s' -> length s'.1.1 = length s.1.1.
Proof.
  destruct s as [[l best] total]. unfold RoundRobin.rr_pass.
  intros H. repeat (case_match || simplify_option_eq); simplify_eq/=; rewrite ?length_insert; done.
Qed.

Lemma mod_wrap a n : (0 < n)%nat -> (a < 2 * n)%nat ->
  (a mod n = if (a <? n)%nat then a else a - n)%nat.
Proof.
  intros Hn Ha. destruct (Nat.ltb_spec a n); [by apply Nat.mod_small|].
  replace a with (a - n + 1 * n)%nat at 1 by lia. rewrite Nat.Div0.mod_add.
  apply Nat.mod_small. lia.
Qed.

Lemma rr_loop_from t init n j s :
  (init < n)%nat -> (0 < j <= n)%nat -> length s.1.1 = n ->
  rr_loop (S (n - j)) t init false ((init + j) mod n) s =
  passes t ((fun j => ((init + j) mod n)%nat) <$> seq j (n - j)) s.
Proof.
  intros Hi Hj. remember (n - j)%nat as k eqn:Hk. revert j s Hj Hk.
  induction k as [|k IH]; intros j s Hj Hk Hl; cbn [RoundRobin.rr_loop seq fmap list_fmap passes].
  - rewrite mod_wrap by lia. replace j with n by lia.
    destruct (Nat.ltb_spec (init + n) n); [lia|].
    replace (init + n - n =? init)%nat with true by (symmetry; apply Nat.eqb_eq; lia). done.
  - assert (((init + j) mod n =? init)%nat = false) as ->.
    { apply Nat.eqb_neq. rewrite mod_wrap by lia. destruct (Nat.ltb_spec (init + j) n); lia. }
    cbn [negb orb]. destruct (rr_pass t ((init + j) mod n) s) as [s'|] eqn:E; [|done].
    cbn [mbind option_bind]. pose proof (rr_pass_length _ _ _ _ E) as Hl'. rewrite Hl', Hl.
    destruct (Nat.eqb_spec n 0); [lia|].
    replace (((init + j) mod n + 1) mod n)%nat with ((init + S j) mod n)%nat.
    + apply IH; lia.
    + rewrite Nat.Div0.add_mod_idemp_l. f_equal. lia.
Qed.

Lemma rr_loop_order t init s :
  (init < length s.1.1)%nat ->
  rr_loop (S (length s.1.1)) t init true init s = passes t (order init (length s.1.1)) s.
Proof.
  set (n := length s.1.1). intros Hi. unfold order.
  destruct n as [|n'] eqn:En; [lia|]. cbn [RoundRobin.rr_loop seq fmap list_fmap passes].
  rewrite orb_true_r, Nat.add_0_r, (Nat.mod_small init) by lia.
  destruct (rr_pass t init s) as [s'|] eqn:E; [|done]. cbn [mbind option_bind].
  pose proof (rr_pass_length _ _ _ _ E) as Hl. fold n in Hl. rewrite Hl, En.
  cbn [Nat.eqb]. pose proof (rr_loop_from t init (S n') 1 s' ltac:(lia) ltac:(lia)) as H.
  rewrite <- En in H at 1. specialize (H Hl). replace (S n' - 1)%nat with n' in H by lia. exact H.
Qed.

Lemma order_spec init n : (init < n)%nat ->
  NoDup (order init n) /\ forall i, i ∈ order init n <-> (i < n)%nat.
Proof.
  intros Hi. unfold order. split.
  - apply NoDup_fmap_2_strong; [|apply NoDup_seq].
    intros x y Hx Hy. rewrite !elem_of_seq in *. rewrite !mod_wrap by lia.
    destruct (Nat.ltb_spec (init + x) n), (Nat.ltb_spec (init + y) n); lia.
  - intros i. rewrite list_elem_of_fmap. split.
    + intros (j & -> & Hj). apply Nat.mod_upper_bound. lia.
    + intros Hin. exists (if (i <? init)%nat then i + n - init else i - init)%nat.
      rewrite elem_of_seq, mod_wrap by (destruct (Nat.ltb_spec i init); lia).
      destruct (Nat.ltb_spec i init), (Nat.ltb_spec (init + (i + n - init)) n),
        (Nat.ltb_spec (init + (i - init)) n); lia.
Qed.

(** ** What the loop computes *)

(** The peers the loop considers. *)
Definition sel (t : list Z) (i : nat) (p : peer_t) : bool :=
  negb (default true (tried_bit t i)) && eligible p.

Definition sel_weight (t : list Z) (l : list peer_t) (i : nat) : Z :=
  match l !! i with
  | Some p => if sel t i p then effective_weight p else 0
  | None => 0
  end.

(** A peer the loop skips or that is not ahead of [q]. *)
Definition below (t : list Z) (q : peer_t) (j : nat) (p : peer_t) : Prop :=
  sel t j p = true -> current_weight (bump p) <= current_weight (bump q).

(** [b] is a considered peer with the largest weight among [seen]. *)
Definition is_best (t : list Z) (l0 : list peer_t) (seen : list nat) (b : nat) : Prop :=
  b ∈ seen /\ exists q, l0 !! b = Some q /\ sel t b q = true /\
    forall j p, j ∈ seen -> l0 !! j = Some p -> below t q j p.

(** After the passes over [seen], from the peers [l0]. *)
Definition loop_inv (t : list Z) (l0 : list peer_t) (seen : list nat)
    (s : list peer_t * option nat * Z) : Prop :=
  let '(l, best, total) := s in
  length l = length l0 /\
  (forall i p, l0 !! i = Some p ->
     l !! i = Some (if bool_decide (i ∈ seen) && sel t i p then bump p else p)) /\
  total = i64 (zsum (sel_weight t l0 <$> seen)) /\
  match best with
  | None => forall j p, j ∈ seen -> l0 !! j = Some p -> sel t j p = false
  | Some b => is_best t l0 seen b
  end.

Lemma seen_snoc_ne (j i : nat) seen :
  j <> i -> bool_decide (j ∈ seen ++ [i]) = bool_decide (j ∈ seen).
Proof. intros H. apply bool_decide_ext. rewrite elem_of_app, list_elem_of_singleton. tauto. Qed.

Lemma sel_weight_snoc t l0 seen i :
  i64 (zsum (sel_weight t l0 <$> seen ++ [i])) =
  i64 (i64 (zsum (sel_weight t l0 <$> seen)) + sel_weight t l0 i).
Proof. rewrite i64_add_l, fmap_app, zsum_app. cbn. rewrite zsum_cons. f_equal. unfold zsum. cbn. lia. Qed.

(** A property of the peers seen, with one more. *)
Lemma seen_snoc_forall (P : nat -> peer_t -> Prop) (l0 : list peer_t) seen i p :
  l0 !! i = Some p -> P i p ->
  (forall j q, j ∈ seen -> l0 !! j = Some q -> P j q) ->
  forall j q, j ∈ seen ++ [i] -> l0 !! j = Some q -> P j q.
Proof.
  intros Hp HP H j q Hj Hq. apply elem_of_app in Hj as [Hj|Hj]; [by apply H|].
  apply list_elem_of_singleton in Hj as ->. by simplify_eq.
Qed.

Lemma loop_inv_skip t l0 seen s i p :
  loop_inv t l0 seen s -> l0 !! i = Some p -> sel t i p = false -> loop_inv t l0 (seen ++ [i]) s.
Proof.
  destruct s as [[l best] total]. intros (Hlen & Hl & Ht & Hb) Hp Hf.
  split; [done|]. split; [|split].
  - intros j q Hq. rewrite (Hl j q Hq). destruct (decide (j = i)) as [->|Hne].
    + simplify_eq. by rewrite Hf, !andb_false_r.
    + by rewrite seen_snoc_ne.
  - rewrite sel_weight_snoc. unfold sel_weight at 2. rewrite Hp, Hf, i64_add_l, Z.add_0_r. done.
  - destruct best as [b|].
    + destruct Hb as (Hb & q & Hq & Hsq & Hmax). split; [set_solver|]. exists q.
      split_and!; try done. apply (seen_snoc_forall (below t q) _ _ _ p); [done| |done].
      unfold below. congruence.
    + by apply (seen_snoc_forall (fun j p => sel t j p = false) _ _ _ p).
Qed.

(** The list after a considered peer. *)
Lemma bump_lookup t (l0 l : list peer_t) seen i p :
  length l = length l0 -> l0 !! i = Some p -> sel t i p = true ->
  (forall j q, l0 !! j = Some q ->
     l !! j = Some (if bool_decide (j ∈ seen) && sel t j q then bump q else q)) ->
  forall j q, l0 !! j = Some q ->
    <[i := bump p]> l !! j =
    Some (if bool_decide (j ∈ seen ++ [i]) && sel t j q then bump q else q).
Proof.
  intros Hlen Hp Hs Hl j q Hq. destruct (decide (j = i)) as [->|Hne].
  - simplify_eq. rewrite list_lookup_insert_eq by (rewrite Hlen; by eapply lookup_lt_Some).
    by rewrite bool_decide_true, Hs by set_solver.
  - rewrite list_lookup_insert_ne by done. by rewrite (Hl j q Hq), seen_snoc_ne.
Qed.

Lemma is_best_first t l0 seen i p :
  l0 !! i = Some p -> sel t i p = true ->
  (forall j q, j ∈ seen -> l0 !! j = Some q -> below t p j q) ->
  is_best t l0 (seen ++ [i]) i.
Proof.
  intros Hp Hs H. split; [set_solver|]. exists p. split_and!; try done.
  apply (seen_snoc_forall (below t p) _ _ _ p); [done| |done]. unfold below. lia.
Qed.

Lemma loop_inv_pass t l0 seen s i :
  loop_inv t l0 seen s -> i ∉ seen -> (i < length l0)%nat -> is_Some (tried_bit t i) ->
  exists s', rr_pass t i s = Some s' /\ loop_inv t l0 (seen ++ [i]) s'.
Proof.
  destruct s as [[l best] total]. intros Hinv Hi Hlt [w Hw].
  destruct (lookup_lt_is_Some_2 l0 i Hlt) as [p Hp].
  pose proof Hinv as (Hlen & Hl & Ht & Hb).
  pose proof (Hl i p Hp) as Hlp. rewrite bool_decide_false in Hlp by done. cbn in Hlp.
  assert (sel t i p = negb w && eligible p) as Hsel by (unfold sel; by rewrite Hw).
  unfold RoundRobin.rr_pass. rewrite Hw. cbn [mbind option_bind].
  destruct w; [eexists; split; [done|]; by eapply loop_inv_skip|].
  rewrite Hlp. cbn [mbind option_bind]. cbn in Hsel.
  destruct (eligible p) eqn:Hel; cbn [negb];
    [|eexists; split; [done|]; by eapply loop_inv_skip].
  pose proof (bump_lookup t l0 l seen i p Hlen Hp Hsel Hl) as Hl'.
  assert (i64 (total + effective_weight p) = i64 (zsum (sel_weight t l0 <$> seen ++ [i]))) as Hsum.
  { rewrite sel_weight_snoc, <- Ht. unfold sel_weight. by rewrite Hp, Hsel. }
  destruct best as [b|].
  - pose proof Hb as (Hin & q & Hq & Hsq & Hmax).
    rewrite (Hl' b q Hq), bool_decide_true, Hsq by set_solver. cbn [andb mbind option_bind].
    eexists. split; [done|]. unfold loop_inv. rewrite length_insert. split_and!; try done.
    destruct (Z.gtb_spec (current_weight (bump p)) (current_weight (bump q))) as [Hgt|Hle].
    + apply (is_best_first _ _ _ _ p); [done..|]. intros j q' Hj Hq' Hs.
      specialize (Hmax j q' Hj Hq' Hs). lia.
    + split; [set_solver|]. exists q. split_and!; try done.
      apply (seen_snoc_forall (below t q) _ _ _ p); [done| |done]. unfold below. lia.
  - eexists. split; [done|]. unfold loop_inv. rewrite length_insert. split_and!; try done.
    apply (is_best_first _ _ _ _ p); [done..|]. intros j q' Hj Hq' Hs.
    by rewrite (Hb j q' Hj Hq') in Hs.
Qed.

(** All the passes. *)
Lemma passes_inv t l0 idx seen s :
  loop_inv t l0 seen s -> NoDup (seen ++ idx) ->
  Forall (fun i => (i < length l0)%nat /\ is_Some (tried_bit t i)) idx ->
  exists s', passes t idx s = Some s' /\ loop_inv t l0 (seen ++ idx) s'.
Proof.
  revert seen s. induction idx as [|i idx IH]; intros seen s Hs Hn Hf.
  { exists s. by rewrite app_nil_r. }
  apply Forall_cons_1 in Hf as [[Hi Ht] Hf].
  assert (i ∉ seen) as Hni.
  { apply list.NoDup_app in Hn as (_ & Hd & _). intros Hin. by apply (Hd i Hin); left. }
  destruct (loop_inv_pass t l0 seen s i Hs Hni Hi Ht) as (s1 & E1 & H1).
  destruct (IH (seen ++ [i]) s1 H1) as (s2 & E2 & H2); [by rewrite <- app_assoc|done|].
  exists s2. cbn [passes]. rewrite E1. rewrite <- app_assoc in H2. done.
Qed.

Lemma rr_loop_spec t l0 init :
  (init < length l0)%nat -> (forall i, (i < length l0)%nat -> is_Some (tried_bit t i)) ->
  exists s, rr_loop (S (length l0)) t init true init (l0, None, 0) = Some s /\
            loop_inv t l0 (order init (length l0)) s.
Proof.
  intros Hi Ht. pose proof (order_spec init (length l0) Hi) as [Hnd Hin].
  pose proof (rr_loop_order t init (l0, None, 0) Hi) as E. cbn [fst] in E. rewrite E.
  apply (passes_inv t l0 _ [] (l0, None, 0)).
  - split_and!; try done. intros j p Hj. apply not_elem_of_nil in Hj. done.
  - done.
  - apply List.Forall_forall. intros i Hii. apply list_elem_of_In, Hin in Hii. auto.
Qed.

Abbreviation get_peer := (get_peer check_peer_down now).

(** The peers after the loop, and its total. *)
Definition bumped (t : list Z) (l : list peer_t) : list peer_t :=
  imap (fun i p => if sel t i p then bump p else p) l.

Definition sel_total (t : list Z) (l : list peer_t) : Z :=
  i64 (zsum (sel_weight t l <$> seq 0 (length l))).

(** The peer [b] is considered and no considered peer is ahead of it. *)
Definition wins (t : list Z) (l : list peer_t) (b : nat) (q : peer_t) : Prop :=
  l !! b = Some q /\ sel t b q = true /\ forall j p, l !! j = Some p -> below t q j p.

Lemma get_peer_spec t l init :
  (init < length l)%nat -> (forall i, (i < length l)%nat -> is_Some (tried_bit t i)) ->
  (exists b q t', wins t l b q /\ set_tried t b = Some t' /\
     get_peer l init t =
       Some (Some (b, <[b := charge now (sel_total t l) (bump q)]> (bumped t l), t'))) \/
  (get_peer l init t = Some None /\ forall j p, l !! j = Some p -> sel t j p = false).
Proof.
  intros Hi Ht. destruct (rr_loop_spec t l init Hi Ht) as ([[l' best] total] & E & Hinv).
  destruct Hinv as (Hlen & Hl & Htot & Hb).
  pose proof (order_spec init (length l) Hi) as [Hnd Hin].
  assert (Hall : forall j p, l !! j = Some p -> j ∈ order init (length l))
    by (intros j p Hj; apply Hin; by eapply lookup_lt_Some).
  assert (l' = bumped t l) as ->.
  { apply list_eq. intros i. unfold bumped. rewrite list_lookup_imap.
    destruct (l !! i) as [p|] eqn:Hp; cbn.
    - by rewrite (Hl i p Hp), bool_decide_true by (by eapply Hall).
    - apply lookup_ge_None in Hp. apply lookup_ge_None. lia. }
  assert (total = sel_total t l) as ->.
  { rewrite Htot. unfold sel_total. f_equal. apply zsum_perm, fmap_Permutation.
    apply NoDup_Permutation; [done|apply NoDup_seq|]. intros i. rewrite Hin, elem_of_seq. lia. }
  unfold RoundRobin.get_peer. rewrite E. cbn [mbind option_bind].
  destruct best as [b|]; [left|right].
  - destruct Hb as (_ & q & Hq & Hs & Hmax).
    destruct (Ht b ltac:(by eapply lookup_lt_Some)) as [w Hw].
    unfold tried_bit, set_tried in *. destruct (t !! (b / 64)%nat) as [word|] eqn:Ew; [|done].
    assert (bumped t l !! b = Some (bump q)) as Hbq
      by (unfold bumped; rewrite list_lookup_imap, Hq; cbn; by rewrite Hs).
    cbn [mbind option_bind]. rewrite Hbq. cbn [mbind option_bind].
    exists b, q. eexists. split; [split_and!; try done; eauto|]. by rewrite Ew.
  - split; [done|]. eauto.
Qed.
End Spec.

(** ** Fairness *)

Section Fair.
Variable check_peer_down : Z -> bool.

(** A peer the balancer always considers, at its full weight. *)
Definition healthy (p : peer_t) : Prop :=
  down p = false /\ check_peer_down (check_index p) = false /\
  (max_fails p = 0 \/ fails p < max_fails p) /\ effective_weight p = weight p /\ 0 <= weight p.

(** The bitmap of a new request. *)
Definition fresh_words (t : list Z) (n : nat) : Prop :=
  forall i, (i < n)%nat -> tried_bit t i = Some false.

Lemma healthy_sel now t n i p :
  healthy p -> fresh_words t n -> (i < n)%nat -> sel check_peer_down now t i p = true.
Proof.
  intros (Hd & Hc & Hf & _) Ht Hi. unfold sel, eligible. rewrite (Ht i Hi), Hd, Hc. cbn.
  apply negb_true_iff, andb_false_iff. left. apply andb_false_iff.
  destruct Hf as [-> |Hf]; [by left|right]. destruct (Z.geb_spec (fails p) (max_fails p)); lia.
Qed.

Definition count (i : nat) (picks : list nat) : Z := Z.of_nat (count_occ Nat.eq_dec picks i).

(** After the choices [picks], from weights that were zero: every peer has
    gained its weight on each choice and paid the total for each time it was
    chosen, and owes less than one round. *)
Definition fair_inv (ws : list Z) (picks : list nat) (l : list peer_t) : Prop :=
  weight <$> l = ws /\ Forall healthy l /\ zsum (current_weight <$> l) = 0 /\
  forall i p, l !! i = Some p ->
    current_weight p = Z.of_nat (length picks) * weight p - count i picks * zsum ws /\
    - zsum ws < current_weight p.

(** A choice among healthy peers, without overflow. *)
Lemma healthy_bump p :
  healthy p -> - 2 ^ 63 <= current_weight p + weight p < 2 ^ 63 ->
  bump p = p <| current_weight := current_weight p + weight p |>.
Proof.
  intros (_ & _ & _ & He & _) Hr. destruct p. unfold bump. cbn in *. subst.
  rewrite Z.ltb_irrefl, i64_small by lia. done.
Qed.

Definition gain (p : peer_t) : peer_t := p <| current_weight := current_weight p + weight p |>.

(** The bounds that follow from the invariant. *)
Lemma fair_bounds ws picks l i p :
  fair_inv ws picks l -> 0 < zsum ws -> l !! i = Some p ->
  - zsum ws < current_weight p <= zsum ws * Z.of_nat (length l) /\ 0 <= weight p <= zsum ws.
Proof.
  intros (Hw & Hh & Hz & Hi) HW Hp. destruct (Hi i p Hp) as [_ Hlo].
  assert (Forall (Z.le (- zsum ws)) (current_weight <$> l)) as Hf.
  { apply Forall_fmap, Forall_lookup. intros j q Hq. cbn. destruct (Hi j q Hq). lia. }
  assert (Forall (Z.le 0) ws) as Hf0.
  { rewrite <- Hw. apply Forall_fmap. eapply Forall_impl; [|exact Hh].
    intros q (_ & _ & _ & _ & H). exact H. }
  pose proof (zsum_term (- zsum ws) _ i (current_weight p) ltac:(lia) Hf) as H1.
  rewrite list_lookup_fmap, Hp, length_fmap in H1. specialize (H1 eq_refl).
  pose proof (zsum_term 0 ws i (weight p) ltac:(lia) Hf0) as H2.
  rewrite <- Hw, list_lookup_fmap, Hp in H2. specialize (H2 eq_refl). rewrite Hw in H2.
  rewrite Forall_lookup in Hh. destruct (Hh i p Hp) as (_ & _ & _ & _ & H0).
  split_and!; lia.
Qed.

Lemma fair_bumped now ws picks l t :
  fair_inv ws picks l -> fresh_words t (length l) -> 0 < zsum ws ->
  (Z.of_nat (length l) + 1) * zsum ws < 2 ^ 63 ->
  (forall i p, l !! i = Some p -> sel check_peer_down now t i p = true /\ bump p = gain p) /\
  bumped check_peer_down now t l = gain <$> l /\ sel_total check_peer_down now t l = zsum ws.
Proof.
  intros Hinv Ht HW Hmax.
  assert (Hone : forall i p, l !! i = Some p ->
    sel check_peer_down now t i p = true /\ bump p = gain p).
  { intros i p Hp. pose proof (fair_bounds ws picks l i p Hinv HW Hp).
    destruct Hinv as (_ & Hh & _). rewrite Forall_lookup in Hh. split.
    - by eapply healthy_sel; [eapply Hh| |eapply lookup_lt_Some].
    - apply healthy_bump; [by eapply Hh|]. nia. }
  split_and!; [done| |].
  - apply list_eq. intros i. unfold bumped. rewrite list_lookup_imap, list_lookup_fmap.
    destruct (l !! i) as [p|] eqn:Hp; [|done]. cbn. by destruct (Hone i p Hp) as [-> ->].
  - destruct Hinv as (Hw & Hh & _). rewrite Forall_lookup in Hh. unfold sel_total.
    replace (sel_weight check_peer_down now t l <$> seq 0 (length l)) with ws;
      [apply i64_small; nia|].
    rewrite <- Hw. apply list_eq. intros i. rewrite !list_lookup_fmap.
    destruct (l !! i) as [p|] eqn:Hp.
    + rewrite lookup_seq_lt by (by eapply lookup_lt_Some). cbn. unfold sel_weight. cbn.
      rewrite Hp. destruct (Hone i p Hp) as [-> _]. by destruct (Hh i p Hp) as (_ & _ & _ & -> & _).
    + rewrite lookup_seq_ge by (by apply lookup_ge_None). done.
Qed.

Lemma zsum_gain l : zsum (current_weight <$> (gain <$> l)) = zsum (current_weight <$> l) + zsum (weight <$> l).
Proof. induction l as [|p l IH]; [done|]. rewrite !fmap_cons, !zsum_cons, IH. destruct p. cbn. lia. Qed.

Lemma count_snoc i picks b : count i (picks ++ [b]) = count i picks + if decide (b = i) then 1 else 0.
Proof.
  unfold count. rewrite count_occ_app. cbn. destruct (Nat.eq_dec b i), (decide (b = i)); lia || done.
Qed.

Lemma charge_fields now total p :
  - 2 ^ 63 <= current_weight p - total < 2 ^ 63 ->
  current_weight (charge now total p) = current_weight p - total /\
  weight (charge now total p) = weight p /\ (healthy p -> healthy (charge now total p)).
Proof.
  intros H. destruct p. unfold charge. cbn in *. rewrite i64_small by lia.
  by destruct (_ >? _).
Qed.

(** One more request. *)
Lemma fair_pick now ws picks l init t :
  fair_inv ws picks l -> fresh_words t (length l) -> (init < length l)%nat -> 0 < zsum ws ->
  (Z.of_nat (length l) + 1) * zsum ws < 2 ^ 63 ->
  exists b l' t', get_peer check_peer_down now l init t = Some (Some (b, l', t')) /\
    fair_inv ws (picks ++ [b]) l' /\ length l' = length l /\ (b < length l)%nat.
Proof.
  intros Hinv Ht Hi HW Hmax.
  destruct (fair_bumped now ws picks l t Hinv Ht HW Hmax) as (Hone & Hbd & Htot).
  destruct (get_peer_spec check_peer_down now t l init Hi) as
    [(b & q & t' & (Hq & _ & Hwin) & _ & E)|[_ Hno]].
  { intros i Hlt. by rewrite (Ht i Hlt). }
  2: { destruct (lookup_lt_is_Some_2 l init Hi) as [p Hp].
       destruct (Hone init p Hp) as [Hs _]. by rewrite (Hno init p Hp) in Hs. }
  rewrite Hbd, Htot in E. destruct (Hone b q Hq) as [_ Hbq]. rewrite Hbq in E.
  exists b. eexists _, t'. split; [exact E|]. split;
    [|rewrite length_insert, length_fmap; split; [done|by eapply lookup_lt_Some]].
  pose proof (fair_bounds ws picks l b q Hinv HW Hq) as Hbb.
  destruct Hinv as (Hw & Hh & Hz & Hcw).
  assert (Hpos : 0 < current_weight q + weight q).
  { apply (zsum_pos (current_weight <$> (gain <$> l))); [rewrite zsum_gain, Hw; lia|].
    apply Forall_fmap, Forall_fmap, Forall_lookup. intros j p Hp. cbn.
    destruct (Hone j p Hp) as [Hs Hg]. pose proof (Hwin j p Hp Hs) as Hle.
    by rewrite Hg, Hbq in Hle. }
  destruct (charge_fields now (zsum ws) (gain q)) as (Hc1 & Hc2 & Hc3).
  { destruct q. cbn in *. nia. }
  rewrite Forall_lookup in Hh. unfold fair_inv.
  rewrite !list_fmap_insert, Hc1, Hc2. split_and!.
  - rewrite <- list_fmap_compose. rewrite list_insert_id;
      [rewrite <- Hw; apply list_fmap_ext; by intros ? []|].
    rewrite list_lookup_fmap, Hq. done.
  - apply Forall_insert; [|exact (Hc3 (Hh b q Hq))].
    apply Forall_fmap, Forall_lookup. intros j p Hp. exact (Hh j p Hp).
  - rewrite (zsum_insert _ _ (current_weight (gain q))), zsum_gain, Hz, Hw; [lia|].
    by rewrite !list_lookup_fmap, Hq.
  - rewrite length_app, Nat2Z.inj_add. cbn [length]. intros i p.
    rewrite count_snoc. destruct (decide (b = i)) as [->|Hne].
    + rewrite list_lookup_insert_eq by (rewrite length_fmap; by eapply lookup_lt_Some).
      intros [= <-]. rewrite Hc1, Hc2. destruct (Hcw i q Hq) as [Hv _].
      destruct q. cbn in *. split; lia.
    + rewrite list_lookup_insert_ne, list_lookup_fmap by done.
      destruct (l !! i) as [p0|] eqn:Hp0; [|done]. intros [= <-].
      destruct (Hcw i p0 Hp0) as [Hv Hlo]. destruct (Hh i p0 Hp0) as (_ & _ & _ & _ & H0).
      destruct p0. cbn in *. split; lia.
Qed.
End Fair.

Lemma fresh_replicate k n : (n <= 64 * k)%nat -> fresh_words (replicate k 0) n.
Proof.
  intros H i Hi. unfold tried_bit. rewrite lookup_replicate_2 by (apply Nat.Div0.div_lt_upper_bound; lia).
  cbn. by rewrite Z.testbit_0_l.
Qed.

Lemma tried_words_enough n : (n <= 64 * tried_words n)%nat.
Proof.
  unfold tried_words. pose proof (Nat.div_mod_eq (n + 63) 64) as H.
  pose proof (Nat.mod_upper_bound (n + 63) 64). lia.
Qed.

(** The bitmap of a new request covers both lists. *)
Lemma init_peer_fresh mem us ps pc :
  (2 <= mem)%nat -> peer_data us = Some ps ->
  exists rrp, init_round_robin_peer mem None us pc =
    Some (NGX_OK, Some rrp, pc <| pc_tries := number ps |>) /\ level rrp = 0%nat /\
    fresh_words (tried rrp) (length (peer ps)) /\
    (forall b, next ps = Some b -> fresh_words (tried rrp) (length (peer b))).
Proof.
  intros Hm Hps. unfold init_round_robin_peer. destruct mem as [|[|mem]]; [lia..|].
  rewrite Hps. cbn [mbind option_bind pred].
  set (n := match next ps with Some b => _ | None => _ end).
  assert (length (peer ps) <= n)%nat as H1 by (unfold n; destruct (next ps); lia).
  assert (forall b, next ps = Some b -> (length (peer b) <= n)%nat) as H2
    by (intros b Hb; unfold n; rewrite Hb; lia).
  destruct (Nat.leb_spec n 64).
  - eexists. split; [done|]. split; [done|]. cbn. change [0] with (replicate 1 0).
    split; [|intros b Hb; specialize (H2 b Hb)]; apply fresh_replicate; lia.
  - eexists. split; [done|]. split; [done|]. cbn [tried].
    pose proof (tried_words_enough n).
    split; [|intros b Hb; specialize (H2 b Hb)]; apply fresh_replicate; lia.
Qed.

(** ** Requests one after the other *)

(** A request that connects at the first attempt: the index of its peer. *)
Definition serve (check_peer_down : Z -> bool) (now : Z) (us : upstream_t)
    : option (nat * upstream_t) :=
  '(_, rrp, pc) ← init_round_robin_peer 2 None us (mk_pc None 0 [] [] 0 false None);
  rrp ← rrp;
  ps ← peer_data us;
  '(rc, ps, rrp, _) ← get_round_robin_peer check_peer_down now ps rrp pc;
  if rc =? NGX_OK then Some (current rrp, us <| peer_data := Some ps |>) else None.

Fixpoint serve_all (check_peer_down : Z -> bool) (times : list Z) (us : upstream_t)
    : option (list nat * upstream_t) :=
  match times with
  | [] => Some ([], us)
  | now :: times' =>
      '(i, us) ← serve check_peer_down now us;
      '(idx, us) ← serve_all check_peer_down times' us;
      Some (i :: idx, us)
  end.

Lemma serve_fair check now us ps ws picks :
  peer_data us = Some ps -> single ps = false -> (init_number ps < length (peer ps))%nat ->
  fair_inv check ws picks (peer ps) -> 0 < zsum ws ->
  (Z.of_nat (length (peer ps)) + 1) * zsum ws < 2 ^ 63 ->
  exists b us' ps', serve check now us = Some (b, us') /\ peer_data us' = Some ps' /\
    single ps' = false /\ init_number ps' = init_number ps /\ length (peer ps') = length (peer ps) /\
    fair_inv check ws (picks ++ [b]) (peer ps').
Proof.
  intros Hps Hsg Hin Hinv HW Hmax. unfold serve.
  destruct (init_peer_fresh 2 us ps (mk_pc None 0 [] [] 0 false None) ltac:(lia) Hps)
    as (rrp & -> & _ & Hfr & _).
  destruct (fair_pick check now ws picks (peer ps) (init_number ps) (tried rrp) Hinv Hfr Hin HW Hmax)
    as (b & l' & t' & E & Hinv' & Hlen & Hb).
  cbn [mbind option_bind]. rewrite Hps. cbn [mbind option_bind].
  destruct ps as [l i tw sg w nm nx]. cbn in Hsg. subst sg. cbn in E, Hin, Hlen |- *.
  rewrite E. cbn.
  destruct (lookup_lt_is_Some_2 l' b) as [p ->]; [by rewrite Hlen|].
  cbn. eexists b, _, _. split; [done|]. cbn. done.
Qed.

Lemma serve_all_fair check times us ps ws picks :
  peer_data us = Some ps -> single ps = false -> (init_number ps < length (peer ps))%nat ->
  fair_inv check ws picks (peer ps) -> 0 < zsum ws ->
  (Z.of_nat (length (peer ps)) + 1) * zsum ws < 2 ^ 63 ->
  exists more us' ps', serve_all check times us = Some (more, us') /\ peer_data us' = Some ps' /\
    length more = length times /\ fair_inv check ws (picks ++ more) (peer ps').
Proof.
  revert us ps picks. induction times as [|now times IH];
    intros us ps picks Hps Hsg Hin Hinv HW Hmax.
  { exists [], us, ps. by rewrite app_nil_r. }
  destruct (serve_fair check now us ps ws picks Hps Hsg Hin Hinv HW Hmax)
    as (b & us1 & ps1 & E1 & Hps1 & Hsg1 & Hin1 & Hlen1 & Hinv1).
  destruct (IH us1 ps1 (picks ++ [b])) as (more & us2 & ps2 & E2 & Hps2 & Hm & Hinv2);
    [done|done|lia|done|done|by rewrite Hlen1|].
  exists (b :: more), us2, ps2. cbn [serve_all]. rewrite E1. cbn [mbind option_bind].
  rewrite E2. cbn. split; [done|]. split; [done|]. split; [by rewrite Hm|].
  by rewrite <- app_assoc in Hinv2.
Qed.

(** C14: smooth weighted round robin is fair.  Let the peers be healthy, with
    weights [ws] and current weights zero.  Then any number [k] of requests is
    served, no peer gets more than its share [k * w / W], rounded up, at any
    moment, and after [W] requests ([W] being the sum of the weights) every
    peer has got exactly as many as its weight and the current weights are back
    at zero. *)
Theorem round_robin_fair check times us ps :
  peer_data us = Some ps -> single ps = false -> (init_number ps < length (peer ps))%nat ->
  Forall (healthy check) (peer ps) -> Forall (fun p => current_weight p = 0) (peer ps) ->
  let ws := weight <$> peer ps in
  0 < zsum ws -> (Z.of_nat (length ws) + 1) * zsum ws < 2 ^ 63 ->
  exists picks us' ps', serve_all check times us = Some (picks, us') /\
    peer_data us' = Some ps' /\ length picks = length times /\
    (forall i w, ws !! i = Some w ->
       count i picks * zsum ws < Z.of_nat (length times) * w + zsum ws) /\
    (Z.of_nat (length times) = zsum ws ->
       (forall i w, ws !! i = Some w -> count i picks = w) /\
       Forall (fun p => current_weight p = 0) (peer ps')).
Proof.
  intros Hps Hsg Hin Hh Hz ws HW Hmax. unfold ws in Hmax. rewrite length_fmap in Hmax. fold ws in Hmax.
  rewrite Forall_lookup in Hz.
  destruct (serve_all_fair check times us ps ws [] Hps Hsg Hin) as
    (picks & us' & ps' & E & Hps' & Hlen & Hw' & Hh' & Hz' & Hcw); [|done|done|].
  { split_and!; [done|done| |].
    - replace (current_weight <$> peer ps) with (replicate (length (peer ps)) 0).
      + clear. induction (length (peer ps)) as [|n IH]; [done|]. cbn. by rewrite zsum_cons, IH.
      + apply replicate_as_elem_of. rewrite length_fmap. split; [done|].
        intros x (p & -> & Hp)%list_elem_of_fmap. apply list_elem_of_lookup in Hp as [i Hp].
        by apply (Hz i).
    - intros i p Hp. rewrite (Hz i p Hp). change (count i []) with 0. cbn [length]. lia. }
  cbn [app] in *. rewrite Hlen in Hcw.
  assert (Hof : forall i w, ws !! i = Some w -> exists p, peer ps' !! i = Some p /\ weight p = w).
  { intros i w. rewrite <- Hw', list_lookup_fmap. destruct (peer ps' !! i) as [p|]; [|done].
    intros [= <-]. eauto. }
  clearbody ws. exists picks, us', ps'. split_and!; try done.
  - intros i w (p & Hp & <-)%Hof. destruct (Hcw i p Hp) as [Hv Hlo]. lia.
  - intros Hk. rewrite Hk in Hcw.
    assert (Hzero : Forall (eq 0) (current_weight <$> peer ps')).
    { apply zsum_zero; [|done]. apply Forall_fmap, Forall_lookup. intros i p Hp. cbn.
      destruct (Hcw i p Hp) as [Hv Hlo]. rewrite Hv in *.
      destruct (Z.le_gt_cases (count i picks) (weight p)); nia. }
    rewrite Forall_fmap, Forall_lookup in Hzero. split.
    + intros i w (p & Hp & <-)%Hof. destruct (Hcw i p Hp) as [Hv _].
      pose proof (Hzero i p Hp) as H0. cbn in H0. nia.
    + apply Forall_lookup. intros i p Hp. symmetry. exact (Hzero i p Hp).
Qed.

(** Three peers of weights 5, 1 and 1: the order of the first round. *)
Definition demo_rr_peer (w : Z) : peer_t := mk_peer (Some (sockaddr_in 1 1)) 16 [w] [] [] 0 w w 0 0 0 1 10 0 false.

Definition demo_rr_upstream : upstream_t :=
  mk_upstream (bs "u") 0 0 None
    (Some (mk_peers (demo_rr_peer <$> [5; 1; 1]) 0 7 false true (bs "u") None)).

Example smooth_order :
  option_map fst (serve_all (fun _ => false) (replicate 7 100) demo_rr_upstream)
  = Some [0; 0; 1; 0; 2; 0; 0]%nat.
Proof. vm_compute. reflexivity. Qed.

Lemma round_robin_fair_witness :
  exists picks us' ps',
    serve_all (fun _ => false) (replicate 7 100) demo_rr_upstream = Some (picks, us') /\
    peer_data us' = Some ps' /\ length picks = 7%nat /\
    (forall i w, [5; 1; 1] !! i = Some w -> count i picks * 7 < 7 * w + 7) /\
    (7 = 7 -> (forall i w, [5; 1; 1] !! i = Some w -> count i picks = w) /\
              Forall (fun p => current_weight p = 0) (peer ps')).
Proof.
  refine (round_robin_fair (fun _ => false) (replicate 7 100) demo_rr_upstream _ eq_refl eq_refl
    _ _ _ _ _); [cbn; lia| | |reflexivity|reflexivity];
    repeat constructor; cbn; lia.
Defined.

(** ** The attempts of one request *)

Lemma set_tried_bit t i t' j :
  set_tried t i = Some t' ->
  tried_bit t' j = if decide (j = i) then Some true else tried_bit t j.
Proof.
  unfold set_tried, tried_bit. destruct (t !! (i / 64)%nat) as [w|] eqn:Hw; [|done].
  cbn [mbind option_bind]. intros [= <-]. pose proof (lookup_lt_Some _ _ _ Hw) as Hlt.
  pose proof (Nat.div_mod_eq i 64) as Ei. pose proof (Nat.div_mod_eq j 64) as Ej.
  destruct (decide (j / 64 = i / 64)%nat) as [Ed|Ed].
  - rewrite Ed, list_lookup_insert_eq, Hw by done. cbn [mbind option_bind].
    rewrite Z.lor_spec, Z.shiftl_1_l, Z.pow2_bits_eqb by lia.
    destruct (decide (j = i)) as [->|Hne]; [by rewrite Z.eqb_refl, orb_true_r|].
    rewrite (proj2 (Z.eqb_neq _ _)), orb_false_r; [done|].
    intros Em%Nat2Z.inj. apply Hne. assert (j mod 64 = i mod 64)%nat as E by exact (eq_sym Em).
    etransitivity; [exact Ej|]. rewrite Ed, E. symmetry. exact Ei.
  - rewrite list_lookup_insert_ne by done. destruct (decide (j = i)) as [->|]; done.
Qed.

(** A call of [get_peer] for the request, or anything that happens to the peers
    in between: the end of an attempt, other requests, the passing of time. *)
Inductive try_step (check_peer_down : Z -> bool) (init : nat)
    : list peer_t * list Z * list nat -> list peer_t * list Z * list nat -> Prop :=
| try_get now l t picks i l' t' :
    get_peer check_peer_down now l init t = Some (Some (i, l', t')) ->
    try_step check_peer_down init (l, t, picks) (l', t', picks ++ [i])
| try_other l l' t picks :
    length l' = length l -> try_step check_peer_down init (l, t, picks) (l', t, picks).

Definition tried_inv (n : nat) (s : list peer_t * list Z * list nat) : Prop :=
  let '(l, t, picks) := s in
  length l = n /\ NoDup picks /\ Forall (fun i => (i < n)%nat) picks /\
  forall i, (i < n)%nat -> tried_bit t i = Some (bool_decide (i ∈ picks)).

Lemma try_step_inv check init n s s' :
  (init < n)%nat -> tried_inv n s -> try_step check init s s' -> tried_inv n s'.
Proof.
  intros Hi Hs Hst. destruct Hst as [now l t picks i l' t' E|l l' t picks Hl].
  2: { destruct Hs as (Hn & Hnd & Hp & Hb). split_and!; [congruence|done..]. }
  destruct Hs as (Hn & Hnd & Hp & Hb). subst n.
  destruct (get_peer_spec check now t l init Hi) as [(b & q & t1 & (Hq & Hs & _) & Ht & E')|[E' _]];
    [intros j Hj; by rewrite (Hb j Hj)| |by rewrite E in E'].
  rewrite E in E'. injection E' as -> -> ->.
  pose proof (lookup_lt_Some _ _ _ Hq) as Hlt. pose proof (Hb b Hlt) as Hbb.
  unfold sel in Hs. rewrite Hbb in Hs. cbn in Hs.
  apply andb_true_iff in Hs as [Hs%negb_true_iff%bool_decide_eq_false _].
  split_and!.
  - unfold bumped. by rewrite length_insert, length_imap.
  - apply list.NoDup_app. split; [done|]. split; [|apply NoDup_singleton].
    intros x Hx. by rewrite list_elem_of_singleton; intros ->.
  - apply Forall_app. split; [done|]. by constructor.
  - intros j Hj. rewrite (set_tried_bit _ _ _ j Ht). destruct (decide (j = b)) as [->|Hne].
    + by rewrite bool_decide_true by set_solver.
    + by rewrite (Hb j Hj), seen_snoc_ne.
Qed.

(** a request that retries never gets the same peer twice, whatever happens
    to the peers between its attempts; the balancer never runs out of its bitmap,
    and gives up only when every peer it could use has been tried. *)
Theorem attempts_distinct check init l t l' t' picks :
  fresh_words t (length l) -> (init < length l)%nat ->
  rtc (try_step check init) (l, t, []) (l', t', picks) ->
  NoDup picks /\ (length picks <= length l)%nat /\
  forall now, is_Some (get_peer check now l' init t') /\
    (get_peer check now l' init t' = Some None ->
     forall i p, l' !! i = Some p -> eligible check now p = true -> i ∈ picks).
Proof.
  intros Hf Hi Hr. assert (tried_inv (length l) (l', t', picks)) as (Hn & Hnd & Hp & Hb).
  { remember (l, t, []) as s eqn:Es. remember (l', t', picks) as s' eqn:Es'.
    assert (tried_inv (length l) s) as H0.
    { subst s. split_and!; [done|constructor|constructor|]. intros i Hlt. rewrite (Hf i Hlt). done. }
    clear Es Es' Hf. revert H0. induction Hr; [done|]. eauto using try_step_inv. }
  split; [done|]. split.
  - rewrite <- (length_seq (length l) 0). apply submseteq_length, NoDup_submseteq; [done|].
    intros i Hii. rewrite elem_of_seq. rewrite Forall_forall in Hp.
    specialize (Hp i ltac:(by apply list_elem_of_In)). lia.
  - intros now. rewrite <- Hn in Hi, Hb.
    destruct (get_peer_spec check now t' l' init Hi) as [(b & q & t1 & _ & _ & E)|[E Hno]];
      [intros j Hj; by rewrite (Hb j Hj)| |]; rewrite E; [done|].
    split; [done|]. intros _ i p Hip He. pose proof (Hno i p Hip) as Hs. unfold sel in Hs.
    rewrite (Hb i (lookup_lt_Some _ _ _ Hip)), He, andb_true_r in Hs. cbn in Hs.
    apply negb_false_iff, bool_decide_eq_true in Hs. done.
Qed.

Definition demo_pair : list peer_t := demo_rr_peer <$> [5; 1].

(** The peers and the bitmap after one more attempt. *)
Definition demo_attempt (s : list peer_t * list Z) : list peer_t * list Z :=
  match get_peer (fun _ => false) 100 s.1 0 s.2 with
  | Some (Some (_, l, t)) => (l, t)
  | _ => s
  end.

Lemma attempts_distinct_witness :
  let s := demo_attempt (demo_attempt (demo_pair, [0])) in
  NoDup [0%nat; 1%nat] /\ (length [0%nat; 1%nat] <= length demo_pair)%nat /\
  forall now, is_Some (get_peer (fun _ => false) now s.1 0 s.2) /\
    (get_peer (fun _ => false) now s.1 0 s.2 = Some None ->
     forall i p, s.1 !! i = Some p -> eligible (fun _ => false) now p = true ->
       i ∈ [0%nat; 1%nat]).
Proof.
  set (s0 := (demo_pair, [0])). set (s1 := demo_attempt s0).
  apply (attempts_distinct (fun _ => false) 0 demo_pair [0] (demo_attempt s1).1
           (demo_attempt s1).2 [0%nat; 1%nat]).
  - exact (fresh_replicate 1 2 ltac:(lia)).
  - cbn. lia.
  - apply (rtc_l _ _ (s1.1, s1.2, [0%nat])).
    + apply (try_get (fun _ => false) 0 100 _ _ []). vm_compute. reflexivity.
    + apply rtc_once. apply (try_get (fun _ => false) 0 100 _ _ [0%nat]). vm_compute. reflexivity.
Defined.

(** ** The weights stay in range *)

(** The peers of a list and of its backup lists. *)
Fixpoint all_peers (ps : peers_t) : list peer_t :=
  match ps with
  | mk_peers l _ _ _ _ _ (Some b) => l ++ all_peers b
  | mk_peers l _ _ _ _ _ None => l
  end.

Lemma peers_chain_ind (P : peers_t -> Prop) :
  (forall l i tw sg w nm, P (mk_peers l i tw sg w nm None)) ->
  (forall l i tw sg w nm b, P b -> P (mk_peers l i tw sg w nm (Some b))) -> forall ps, P ps.
Proof. intros H1 H2. fix IH 1. intros [l i tw sg w nm [b|]]; [apply H2, IH|apply H1]. Qed.

Definition ew_ok (p : peer_t) : Prop :=
  0 <= effective_weight p <= weight p /\ weight p < 2 ^ 63 /\ 0 <= max_fails p.

Lemma bump_ok p : ew_ok p -> ew_ok (bump p).
Proof.
  destruct p. unfold ew_ok, bump. cbn. intros H. destruct (Z.ltb_spec effective_weight0 weight0);
    [rewrite i64_small|]; lia.
Qed.

Lemma charge_ok now total p : ew_ok p -> ew_ok (charge now total p).
Proof. destruct p. unfold charge, ew_ok. cbn. by destruct (_ >? _). Qed.

Lemma live_peer_ok p : ew_ok p -> ew_ok (live_peer p).
Proof. destruct p. unfold live_peer, ew_ok. cbn. by destruct (_ <? _). Qed.

Lemma failed_peer_ok now p : ew_ok p -> ew_ok (failed_peer now p).
Proof.
  destruct p as [sa sl nm id h cw ew w f acc ch mf ft ci dn]. unfold failed_peer, ew_ok. cbn.
  intros (He & Hw & Hm). destruct (Z.eqb_spec mf 0) as [->|Hm0].
  - destruct (Z.ltb_spec ew 0); lia.
  - rewrite u64_small by lia. pose proof (Z.div_le_upper_bound w mf w ltac:(lia)) as Hd.
    pose proof (Z.div_pos w mf ltac:(lia) ltac:(lia)). rewrite i64_small by nia.
    destruct (Z.ltb_spec (ew - w / mf) 0); nia.
Qed.

Lemma get_peer_ok check now l init t i l' t' :
  (init < length l)%nat -> (forall j, (j < length l)%nat -> is_Some (tried_bit t j)) ->
  get_peer check now l init t = Some (Some (i, l', t')) -> Forall ew_ok l -> Forall ew_ok l'.
Proof.
  intros Hi Ht E Hl. destruct (get_peer_spec check now t l init Hi Ht)
    as [(b & q & t1 & (Hq & _) & _ & E')|[E' _]]; rewrite E in E'; [|done].
  injection E' as -> -> ->. rewrite Forall_lookup in Hl. apply Forall_insert.
  - apply Forall_lookup. intros j p. unfold bumped. rewrite list_lookup_imap.
    destruct (l !! j) as [p0|] eqn:Hp; [|done]. cbn. intros [= <-].
    destruct (sel _ _ _ _ _); [apply bump_ok|]; by apply (Hl j).
  - by apply charge_ok, bump_ok, (Hl b).
Qed.

(** A list and its backups that a bitmap of [words] words covers. *)
Fixpoint covers (words : nat) (ps : peers_t) : Prop :=
  match ps with
  | mk_peers l i _ _ _ _ nx =>
      (i < length l <= 64 * words)%nat /\
      match nx with
      | Some b => covers words b
      | None => True
      end
  end.

Lemma covers_here words ps :
  covers words ps -> (init_number ps < length (peer ps) <= 64 * words)%nat.
Proof. by destruct ps as [l i tw sg w nm [b|]]; intros [H _]. Qed.

Lemma covers_bit n t i : (n <= 64 * length t)%nat -> (i < n)%nat -> is_Some (tried_bit t i).
Proof.
  intros H Hi. unfold tried_bit.
  destruct (lookup_lt_is_Some_2 t (i / 64)) as [w Hw]; [apply Nat.Div0.div_lt_upper_bound; lia|].
  by rewrite Hw.
Qed.

Lemma set_tried_length t i t' : set_tried t i = Some t' -> length t' = length t.
Proof.
  unfold set_tried. destruct (t !! _); [|done]. cbn [mbind option_bind]. intros [= <-].
  apply length_insert.
Qed.

Lemma clear_tried_ok n t :
  (n <= 64 * length t)%nat ->
  exists t', clear_tried (tried_words n) t = Some t' /\ length t' = length t.
Proof.
  intros H. unfold clear_tried, tried_words.
  assert ((n + 63) / 64 <= length t)%nat as Hle.
  { apply Nat.lt_succ_r, Nat.Div0.div_lt_upper_bound. lia. }
  rewrite (proj2 (Nat.leb_le _ _) Hle). eexists. split; [done|].
  rewrite length_app, length_replicate, length_drop. lia.
Qed.

Lemma mark_live_ok words ps :
  covers words ps -> Forall ew_ok (all_peers ps) ->
  covers words (mark_live ps) /\ Forall ew_ok (all_peers (mark_live ps)).
Proof.
  destruct ps as [l i tw sg w nm nx]. intros [Hc Hn] H. split; [by split; [rewrite length_fmap|]|].
  destruct nx as [b|]; cbn in *; rewrite ?Forall_app, Forall_fmap in *;
    [destruct H as [H Hb]; split; [|done]|]; (eapply Forall_impl; [|exact H]); by intros [].
Qed.

(** A choice that was made, in range. *)
Lemma choose_ok check now ps rrp :
  covers (length (tried rrp)) ps -> Forall ew_ok (all_peers ps) ->
  exists r, choose check now ps rrp = Some r /\
    match r with
    | None => True
    | Some (_, ps', rrp') =>
        length (tried rrp') = length (tried rrp) /\ covers (length (tried rrp)) ps' /\
        Forall ew_ok (all_peers ps') /\ level rrp' = level rrp /\ (single ps' = false -> (current rrp' < length (peer ps'))%nat)
    end.
Proof.
  intros Hc Hok. pose proof (covers_here _ _ Hc) as [Hi Hn]. unfold choose.
  destruct (single ps) eqn:Hsg.
  - unfold single_peer. destruct (peer ps !! 0%nat) as [p|] eqn:Hp.
    + cbn. eexists. split; [done|]. destruct (_ || _); cbn; [done|].
      split_and!; try done. congruence.
    + apply lookup_ge_None in Hp. lia.
  - pose proof (fun j => covers_bit _ (tried rrp) j Hn) as Ht.
    destruct (get_peer_spec check now (tried rrp) (peer ps) (init_number ps) Hi Ht)
      as [(b & q & t' & (Hq & _) & Hst & E)|[E _]]; [|rewrite E; by eexists].
    pose proof (set_tried_length _ _ _ Hst) as Hlen.
    pose proof (get_peer_ok _ _ _ _ _ _ _ _ Hi Ht E) as Hl'. rewrite E.
    set (l' := <[b := _]> _) in *.
    assert (length l' = length (peer ps)) as Hll
      by (unfold l', bumped; by rewrite length_insert, length_imap).
    pose proof (lookup_lt_Some _ _ _ Hq) as Hb.
    destruct (lookup_lt_is_Some_2 l' b) as [p Hp]; [by rewrite Hll|].
    cbn [mbind option_bind]. rewrite Hp. cbn [mbind option_bind].
    eexists. split; [done|]. destruct ps as [l i tw sg w nm nx], rrp as [lv cu tr]. cbn in *.
    rewrite Hll. destruct Hc as [Hc Hnx]. split_and!; try done.
    destruct nx as [nb|]; [|by apply Hl']. apply Forall_app in Hok as [Hok1 Hok2].
    apply Forall_app. auto.
Qed.

(** What a call of the balancer guarantees. *)
Definition rr_result_ok (words lv : nat) (r : option (Z * peers_t * rrp_t * pc_t)) : Prop :=
  exists rc ps' rrp' pc', r = Some (rc, ps', rrp', pc') /\
    (rc = NGX_OK \/ rc = NGX_BUSY) /\ length (tried rrp') = words /\ covers words ps' /\
    Forall ew_ok (all_peers ps') /\ pc_connection pc' = None /\
    (rc = NGX_BUSY -> Forall (fun p => fails p = 0) (all_peers ps')) /\
    (rc = NGX_OK -> level rrp' = lv -> single ps' = false ->
       (current rrp' < length (peer ps'))%nat) /\
    (lv <= level rrp')%nat.

Lemma mark_live_fails l i tw sg w nm nx :
  (forall b, nx = Some b -> Forall (fun p => fails p = 0) (all_peers b)) ->
  Forall (fun p => fails p = 0) (all_peers (mark_live (mk_peers l i tw sg w nm nx))).
Proof.
  intros Hb. assert (Forall (fun p => fails p = 0) ((fun p => p <| fails := 0 |>) <$> l)) as H.
  { apply Forall_fmap, Forall_forall. by intros [] _. }
  destruct nx as [b|]; cbn; [|done]. apply Forall_app. auto.
Qed.

Lemma connect_to_connection p ps pc : pc_connection (connect_to p ps pc) = pc_connection pc.
Proof. unfold connect_to. destruct (next ps), pc; cbn; [|done]. by destruct (_ =? _). Qed.

Lemma get_round_robin_peer_ok check now ps rrp pc :
  covers (length (tried rrp)) ps -> Forall ew_ok (all_peers ps) ->
  rr_result_ok (length (tried rrp)) (level rrp) (get_round_robin_peer check now ps rrp pc).
Proof.
  revert rrp pc. induction ps as [l i tw sg w nm|l i tw sg w nm b IH] using peers_chain_ind;
    intros rrp pc Hc Hok; cbn [get_round_robin_peer];
    destruct (choose_ok check now _ rrp Hc Hok) as ([[[p ps'] rrp']|] & -> & H);
    cbn [mbind option_bind].
  - destruct H as (Ht & H1 & H2 & H3 & H4). eexists _, _, _, _. split; [done|].
    rewrite connect_to_connection. split_and!; try done; [by left|lia].
  - destruct (mark_live_ok _ _ Hc Hok) as [Hm1 Hm2].
    eexists _, _, _, _. split; [done|].
    split_and!; try done; [by right|]. intros _. by apply mark_live_fails.
  - destruct H as (Ht & H1 & H2 & H3 & H4). eexists _, _, _, _. split; [done|].
    rewrite connect_to_connection. split_and!; try done; [by left|lia].
  - destruct Hc as [Hc Hcb]. cbn [all_peers] in Hok. apply Forall_app in Hok as [Hl Hb].
    pose proof (covers_here _ _ Hcb) as [_ Hbn].
    destruct (clear_tried_ok (length (peer b)) (tried rrp) Hbn) as (t' & -> & Ht').
    cbn [mbind option_bind].
    set (rrp1 := rrp <| level := _ |> <| tried := t' |>).
    match goal with |- context [get_round_robin_peer _ _ b rrp1 ?pc1] =>
      destruct (IH rrp1 pc1) as (rc & b' & rrp' & pc' & -> & Hrc & Htl & Hcb' & Hb' & Hcn & Hf & _ & Hlv) end.
    { destruct rrp. cbn in *. by rewrite Ht'. }
    { done. }
    assert (level rrp1 = S (level rrp)) as Hl1 by (by destruct rrp). rewrite Hl1 in Hlv.
    cbn [mbind option_bind].
    assert (length (tried rrp1) = length (tried rrp)) as Ht1 by (by destruct rrp).
    rewrite Ht1 in Htl, Hcb'. set (ps1 := mk_peers l i tw sg w nm (Some b')).
    assert (covers (length (tried rrp)) ps1) as Hc1 by done.
    assert (Forall ew_ok (all_peers ps1)) as Hok1 by (apply Forall_app; done).
    destruct (mark_live_ok _ _ Hc1 Hok1) as [Hm1 Hm2].
    destruct Hrc as [-> | ->]; cbn [Z.eqb negb NGX_OK NGX_BUSY].
    + eexists _, _, _, _. split; [done|]. split_and!; try done; [by left| |lia].
      intros _ He. lia.
    + eexists _, _, _, _. split; [done|].
      split_and!; try done; [by right| |lia].
      intros _. apply mark_live_fails. intros b0 [= <-]. by apply Hf.
Qed.

Lemma free_round_robin_peer_ok now failed words ps rrp pc :
  covers words ps -> Forall ew_ok (all_peers ps) ->
  (single ps = false -> (current rrp < length (peer ps))%nat) ->
  exists ps' pc', free_round_robin_peer now failed ps rrp pc = Some (ps', pc') /\
    covers words ps' /\ Forall ew_ok (all_peers ps').
Proof.
  intros Hc Hok Hcur. unfold free_round_robin_peer. destruct (single ps); [by eexists _, _|].
  destruct (lookup_lt_is_Some_2 (peer ps) (current rrp) (Hcur eq_refl)) as [p Hp].
  rewrite Hp. cbn [mbind option_bind]. eexists _, _. split; [done|].
  destruct ps as [l i tw sg w nm nx]. cbn in *. rewrite length_insert. split; [done|].
  assert (Forall ew_ok l -> Forall ew_ok (<[current rrp := if failed then failed_peer now p
                                                     else live_peer p]> l)) as Hl.
  { intros Hl. apply Forall_insert; [done|]. rewrite Forall_lookup in Hl.
    destruct failed; [apply failed_peer_ok|apply live_peer_ok]; by apply (Hl (current rrp)). }
  destruct nx as [b|]; [|by apply Hl]. apply Forall_app in Hok as [H1 H2]. apply Forall_app. auto.
Qed.

(** C15: a call of the balancer with a bitmap that covers the peers has no
    undefined behaviour and returns [NGX_OK] or [NGX_BUSY]; every effective weight
    stays between zero and the configured weight, also in the backup list; when it
    is busy, the failure counters of all lists are cleared; and the peer it
    chose in its own list can be given back with the same guarantees. *)
Theorem balancer_safe check now ps rrp pc :
  covers (length (tried rrp)) ps -> Forall ew_ok (all_peers ps) ->
  exists rc ps' rrp' pc',
    get_round_robin_peer check now ps rrp pc = Some (rc, ps', rrp', pc') /\
    (rc = NGX_OK \/ rc = NGX_BUSY) /\ covers (length (tried rrp')) ps' /\
    Forall ew_ok (all_peers ps') /\
    (rc = NGX_BUSY -> Forall (fun p => fails p = 0) (all_peers ps')) /\
    (rc = NGX_OK -> level rrp' = level rrp -> forall later failed, exists ps'' pc'',
       free_round_robin_peer later failed ps' rrp' pc' = Some (ps'', pc'') /\
       covers (length (tried rrp')) ps'' /\ Forall ew_ok (all_peers ps'')).
Proof.
  intros Hc Hok. destruct (get_round_robin_peer_ok check now ps rrp pc Hc Hok)
    as (rc & ps' & rrp' & pc' & E & Hrc & Ht & Hc' & Hok' & _ & Hbusy & Hcur & _).
  exists rc, ps', rrp', pc'. rewrite Ht. split_and!; try done.
  intros Hrc' Hlv later failed. apply free_round_robin_peer_ok; auto.
Qed.

Lemma balancer_safe_witness :
  exists ps, peer_data demo_rr_upstream = Some ps /\ exists rc ps' rrp' pc',
    get_round_robin_peer (fun _ => false) 100 ps (mk_rrp 0 0 [0]) (mk_pc None 0 [] [] 3 false None)
      = Some (rc, ps', rrp', pc') /\
    (rc = NGX_OK \/ rc = NGX_BUSY) /\ covers (length (tried rrp')) ps' /\
    Forall ew_ok (all_peers ps') /\
    (rc = NGX_BUSY -> Forall (fun p => fails p = 0) (all_peers ps')) /\
    (rc = NGX_OK -> level rrp' = 0%nat -> forall later failed, exists ps'' pc'',
       free_round_robin_peer later failed ps' rrp' pc' = Some (ps'', pc'') /\
       covers (length (tried rrp')) ps'' /\ Forall ew_ok (all_peers ps'')).
Proof.
  eexists. split; [reflexivity|].
  apply (balancer_safe (fun _ => false) 100 _ (mk_rrp 0 0 [0])).
  - cbn. split; [lia|done].
  - cbn. repeat constructor; cbn; lia.
Defined.

(** ** A list that grew *)

(** The bitmap of a request is made for the peers there are when it starts.  A
    peer added to the same array later can lie outside it: with a 65th peer the
    balancer reads the word after [rrp->data]. *)
Example tried_too_small :
  let l := replicate 64 (demo_rr_peer 1) in
  is_Some (get_peer (fun _ => false) 100 l 0 [0]) /\
  get_peer (fun _ => false) 100 (l ++ [demo_rr_peer 0]) 0 [0] = None.
Proof. split; [vm_compute; eauto|vm_compute; reflexivity]. Qed.

End RoundRobin.
