(* ===== verification/ConsistentHash.v ===== *)
(** * The consistent hash balancer

    [src/src/http/modules/ngx_http_upstream_consistent_hash_module.c]: every peer of
    an upstream gets virtual nodes on a circle of 32-bit hashes; a request goes to
    the node at or behind its own hash, and when that node's peer is unusable, to another live node,
    which a segment tree ([SegmentTree]) finds.  Nodes of unusable peers are taken out of the tree and
    queued until [fail_timeout] has passed.

    [ngx_time], the health check module and [qsort] are parameters.  [None] is undefined
    behaviour of the C code. *)

From stdpp Require Import gmap sorting.
From S2P Require Import Prelude NgxString Sprintf Checksum SegmentTree NgxInet RoundRobin.

Module ConsistentHash.
Import NgxString Sprintf Checksum SegmentTree Sockaddr RoundRobin.

Definition VIRTUAL_NODE_NUMBER : Z := 160.

(** [ngx_http_upstream_chash_server_t]; [cs_peer] is the index of the peer pointed to. *)
Record cserver : Type := mk_cs {
  cs_down : bool;
  cs_hash : Z;
  cs_index : Z;
  rnindex : nat;
  cs_peer : option nat
}.

#[export] Instance eta_cs : Eta cserver := fun c =>
  mk_cs (cs_down c) (cs_hash c) (cs_index c) (rnindex c) (cs_peer c).

(** [ngx_http_upstream_chash_down_server_t]; the queue it is linked into is a list of
    indices. *)
Record dserver : Type := mk_ds { ds_timeout : Z; ds_id : Z }.

#[export] Instance eta_ds : Eta dserver := fun d => mk_ds (ds_timeout d) (ds_id d).

(** [ngx_http_upstream_chash_srv_conf_t] with the peers of the upstream the servers
    point to; [real_node] holds indices of [ch_servers], without the terminating [NULL]s. *)
Record chash : Type := mk_chash {
  ch_number : Z;
  down_servers : list Z;
  ch_tree : stree;
  real_node : list (list Z);
  ch_servers : list cserver;
  d_servers : list dserver;
  ch_peers : list peer_t
}.

#[export] Instance eta_chash : Eta chash := fun c =>
  mk_chash (ch_number c) (down_servers c) (ch_tree c) (real_node c) (ch_servers c) (d_servers c) (ch_peers c).

(** [ngx_http_upstream_chash_peer_data_t] *)
Record cpd_t : Type := mk_cpd { cp_hash : Z; cp_server : option Z }.

(** ** Building the circle *)

(** [ngx_strlen] *)
Fixpoint ngx_strlen (s : list Z) : option nat :=
  match s with [] => None | c :: s' => if c =? 0 then Some 0%nat else S <$> ngx_strlen s' end.

(** The identifier of a peer: its [id] if that is a number of 16 bits, otherwise the
    hash of its name, which is printed to a buffer of 256 bytes. *)
Definition server_sid (p : peer_t) : option Z :=
  let sid := u64 (ngx_atoi (p_id p)) in
  if (sid =? u64 NGX_ERROR) || (sid >? 65535) then
    hash_buf ← ngx_vslprintf 256 (bs "%V%Z") [AStr (p_name p)];
    n ← ngx_strlen hash_buf;
    Some (ngx_murmur_hash2 (take n hash_buf))
  else Some sid.

Definition node_weight (p : peer_t) : Z :=
  let w := weight p * VIRTUAL_NODE_NUMBER in
  if w >=? Z.shiftl 1 14 then Z.shiftl 1 14 else w.

(** [id = sid * 256 * 16 + j], of which the first four bytes are hashed. *)
Definition node_hash (sid j : Z) : Z := ngx_murmur_hash2 (take 4 (le_bytes 8 (u64 (sid * 256 * 16 + j)))).

Definition virtual_nodes (i : nat) (p : peer_t) : option (list cserver) :=
  sid ← server_sid p;
  Some ((fun j => mk_cs false (node_hash sid j) 0 i (Some i)) <$> seqZ 0 (node_weight p)).

Fixpoint all_nodes (i : nat) (ps : list peer_t) : option (list cserver) :=
  match ps with
  | [] => Some []
  | p :: ps' => l ← virtual_nodes i p; l' ← all_nodes (S i) ps'; Some (l ++ l')
  end.

(** The numbers of elements of [servers] and of [real_node[i]], without the last one. *)
Definition real_room (p : peer_t) : Z := weight p * VIRTUAL_NODE_NUMBER.
Definition servers_room (ps : list peer_t) : Z := zsum (real_room <$> ps).

(** The loop that numbers the sorted nodes and collects the nodes of each peer; the last
    element of [real_node[i]] must stay [NULL]. *)
Fixpoint number_nodes (i : Z) (sorted : list cserver) (ps : list peer_t) (rn : list (list Z))
    : option (list cserver * list dserver * list (list Z)) :=
  match sorted with
  | [] => Some ([], [], rn)
  | c :: sorted' =>
      l ← rn !! rnindex c; p ← ps !! rnindex c;
      if Z.of_nat (length l) <? real_room p then
        '(cs, ds, rn) ← number_nodes (i + 1) sorted' ps (<[rnindex c := l ++ [i]]> rn);
        Some (c <| cs_index := i |> :: cs, mk_ds 0 i :: ds, rn)
      else None
  end.

Section Balancer.
(** [ngx_http_upstream_check_peer_down] *)
Variable check_peer_down : Z -> bool.
(** [ngx_qsort] with [ngx_http_upstream_chash_cmp] *)
Variable qsort : list cserver -> list cserver.
(** What the stack variable [node.data] holds. *)
Variable junk : Z.

(** [ngx_http_upstream_chash_cmp] *)
Definition chash_cmp (one two : cserver) : Z :=
  if cs_hash one >? cs_hash two then 1 else if cs_hash one =? cs_hash two then 0 else -1.

(** [ngx_http_upstream_init_chash] after [ngx_http_upstream_init_round_robin], for the
    peers it made.  [mem] tells which of the allocations succeed, in their order,
    those of [real_node[i]] as one; the last one is made by [ngx_segment_tree_init], whose
    result the code does not look at. *)
Definition init_nodes (mem : nat) (ps : list peer_t) : option (Z * option chash) :=
  if (mem <? 4)%nat then Some (NGX_ERROR, None)
  else
    nodes ← all_nodes 0 ps;
    let number := Z.of_nat (length nodes) in
    if number >? servers_room ps then None
    else
      let sorted := qsort nodes in
      if (mem <? 5)%nat then Some (NGX_ERROR, None)
      else
        '(cs, ds, rn) ← number_nodes 1 sorted ps (replicate (length ps) []);
        if (mem <? 6)%nat then Some (NGX_ERROR, None)
        else
          tree ← snd (ngx_segment_tree_init (7 <=? mem)%nat number);
          tree ← ngx_segment_tree_build tree 1 1 number;
          Some (NGX_OK, Some (mk_chash number [] tree rn (mk_cs false 0 0 0 None :: cs) (mk_ds 0 0 :: ds) ps)).

Definition init_chash (check_add_peer : addr_t -> Z) (resolve_host : str -> Z -> Z * list addr_t)
    (mem_rr mem : nat) (us : upstream_t) : option (Z * upstream_t * option chash) :=
  let '(rc, us) := init_round_robin check_add_peer resolve_host mem_rr us in
  if rc =? NGX_ERROR then Some (NGX_ERROR, us, None)
  else
    match peer_data us with
    | None => Some (NGX_ERROR, us, None)
    | Some ps => '(rc, c) ← init_nodes mem (peer ps); Some (rc, us, c)
    end.

(** [ngx_http_upstream_init_chash_peer]; [value] is the result of [ngx_http_script_run]. *)
Definition init_chash_peer (mem : bool) (value : option (list Z)) : Z * option cpd_t :=
  if mem then
    match value with
    | None => (NGX_ERROR, None)
    | Some v => (NGX_OK, Some (mk_cpd (ngx_murmur_hash2 v) None))
    end
  else (NGX_ERROR, None).

(** ** Finding the owner of a hash *)

Definition server_at (s : list cserver) (i : Z) : option cserver := s !! Z.to_nat i.

Fixpoint search (fuel : nat) (servers : list cserver) (low hight hash : Z) : option (Z + Z) :=
  match fuel with
  | O => None
  | S fuel' =>
      if low <? hight then
        let mid := Z.shiftr (u32 (low + hight)) 1 in
        c ← server_at servers mid;
        if cs_hash c =? hash then Some (inl mid)
        else if cs_hash c <? hash then search fuel' servers (u32 (mid + 1)) hight hash
        else search fuel' servers low mid hash
      else Some (inr low)
  end.

(** [ngx_http_upstream_chash_get_server_index]: [inl] is the return inside the loop. *)
Definition get_server_index (servers : list cserver) (n hash : Z) : option Z :=
  r ← search (S (Z.to_nat n)) servers 1 n hash;
  match r with
  | inl mid => Some mid
  | inr low =>
      if low =? n then c ← server_at servers low; Some (if cs_hash c <? hash then 1 else low)
      else Some low
  end.

(** ** Nodes going down and up *)

Definition peer_of (s : chash) (c : cserver) : option peer_t := i ← cs_peer c; ch_peers s !! i.

Definition unusable (p : peer_t) : bool := check_peer_down (check_index p) || (fails p >? max_fails p) || down p.

(** [ngx_queue_insert_head]; linking a node that is in the queue already would
    break the queue. *)
Definition queue_insert (q : list Z) (i : Z) : option (list Z) :=
  if bool_decide (i ∈ q) then None else Some (i :: q).

(** The body of the loop of [ngx_http_upstream_chash_delete_node]. *)
Definition take_down (now i : Z) (s : chash) : option chash :=
  p ← server_at (ch_servers s) i;
  if cs_down p then Some s
  else
    tree ← ngx_segment_tree_delete (ch_tree s) 1 1 (ch_number s) (cs_index p);
    pr ← peer_of s p;
    d ← d_servers s !! Z.to_nat (cs_index p);
    q ← queue_insert (down_servers s) (cs_index p);
    Some (s <| ch_tree := tree |> <| ch_servers := <[Z.to_nat i := p <| cs_down := true |>]> (ch_servers s) |>
            <| d_servers := <[Z.to_nat (cs_index p) := d <| ds_timeout := now + fail_timeout pr |>]> (d_servers s) |>
            <| down_servers := q |>).

Fixpoint delete_loop (now : Z) (servers : list Z) (s : chash) : option chash :=
  match servers with
  | [] => Some s
  | i :: servers' => s ← take_down now i s; delete_loop now servers' s
  end.

(** [ngx_http_upstream_chash_delete_node] *)
Definition delete_node (now : Z) (server : cserver) (s : chash) : option chash :=
  servers ← real_node s !! rnindex server; delete_loop now servers s.

(** The part of [ngx_http_upstream_get_chash_peer] that ends the time of an element of the queue. *)
Definition bring_up (now i : Z) (s : chash) : option chash :=
  d ← d_servers s !! Z.to_nat i;
  if now >=? ds_timeout d then
    c ← server_at (ch_servers s) (ds_id d);
    k ← cs_peer c; p ← ch_peers s !! k;
    if check_peer_down (check_index p) then Some s
    else
      tree ← ngx_segment_tree_insert (ch_tree s) 1 1 (ch_number s) (ds_id d) (mk_snode (ds_id d) junk);
      Some (s <| ch_peers := <[k := p <| fails := 0 |> <| down := false |>]> (ch_peers s) |>
              <| ch_servers := <[Z.to_nat (ds_id d) := c <| cs_down := false |>]> (ch_servers s) |>
              <| down_servers := List.filter (fun j => negb (j =? i)) (down_servers s) |>
              <| ch_tree := tree |>)
  else Some s.

(** The walk over the queue: the next element is read before one is removed. *)
Fixpoint bring_up_loop (now : Z) (q : list Z) (s : chash) : option chash :=
  match q with
  | [] => Some s
  | i :: q' => s ← bring_up now i s; bring_up_loop now q' s
  end.

(** ** Choosing a peer *)

(** The node the loop tries next: [None] inside the option is that all are down. *)
Definition next_node (hash index : Z) (s : chash) : option (option Z) :=
  let key_of l r :=
    i ← ngx_segment_tree_query (ch_tree s) 1 1 (ch_number s) l r;
    n ← seg_get (ch_tree s) i; Some (u32 (sg_key n)) in
  index1 ← key_of 1 (u32 (index - 1));
  index2 ← key_of (u32 (index + 1)) (ch_number s);
  if index1 =? extreme (ch_tree s) then
    if index2 =? extreme (ch_tree s) then Some None else Some (Some index2)
  else if index2 =? extreme (ch_tree s) then Some (Some index1)
  else
    c1 ← server_at (ch_servers s) index1; c2 ← server_at (ch_servers s) index2;
    let diff1 := if cs_hash c1 >? hash then u32 (cs_hash c1 - hash) else u32 (hash - cs_hash c1) in
    let diff2 := if hash >? cs_hash c2 then u32 (hash - cs_hash c2) else u32 (cs_hash c2 - hash) in
    Some (Some (if diff1 >? diff2 then index2 else index1)).

(** [while (1)]: the index of the node whose peer is usable, or [None] for [NGX_BUSY]. *)
Fixpoint choose_loop (fuel : nat) (now hash index : Z) (s : chash) : option (option Z * chash) :=
  match fuel with
  | O => None
  | S fuel' =>
      o ← next_node hash index s;
      match o with
      | None => Some (None, s)
      | Some index1 =>
          server ← server_at (ch_servers s) index1;
          p ← peer_of s server;
          if unusable p then
            s ← delete_node now server s;
            choose_loop fuel' now hash index1 s
          else Some (Some index1, s)
      end
  end.

(** [ngx_http_upstream_get_chash_peer] *)
Definition get_chash_peer (now : Z) (s : chash) (d : cpd_t) (pc : pc_t) : option (Z * chash * cpd_t * pc_t) :=
  s ← bring_up_loop now (down_servers s) s;
  let pc := pc <| pc_cached := false |> <| pc_connection := None |> in
  index ← get_server_index (ch_servers s) (u32 (ch_number s)) (cp_hash d);
  server ← server_at (ch_servers s) index;
  p ← peer_of s server;
  '(o, s) ← (if unusable p then
               s ← delete_node now server s;
               choose_loop (S (Z.to_nat (ch_number s))) now (cp_hash d) index s
             else Some (Some index, s));
  match o with
  | None => Some (NGX_BUSY, s, d, pc)
  | Some i =>
      server ← server_at (ch_servers s) i;
      if cs_down server then Some (NGX_BUSY, s, d, pc)
      else
        p ← peer_of s server;
        Some (NGX_OK, s, mk_cpd (cp_hash d) (Some i),
              pc <| pc_name := p_name p |> <| pc_sockaddr := p_sockaddr p |> <| pc_socklen := p_socklen p |>)
  end.

(** [ngx_http_upstream_free_chash_peer]; [failed] is [state & NGX_PEER_FAILED]. *)
Definition free_chash_peer (s : chash) (d : cpd_t) (failed : bool) : option chash :=
  match cp_server d with
  | None => Some s
  | Some i =>
      if failed then
        c ← server_at (ch_servers s) i; k ← cs_peer c; p ← ch_peers s !! k;
        Some (s <| ch_peers := <[k := p <| fails := u64 (fails p + 1) |>]> (ch_peers s) |>)
      else Some s
  end.
End Balancer.

(** ** The owner of a hash *)

(** The nodes [1 .. n] have the hashes [h]. *)
Definition hashes (n : Z) (h : Z -> Z) (servers : list cserver) : Prop :=
  forall i, 1 <= i <= n -> exists c, server_at servers i = Some c /\ cs_hash c = h i.

Definition sorted (n : Z) (h : Z -> Z) : Prop := forall i j, 1 <= i <= j -> j <= n -> h i <= h j.

(** [i] is the node at the hash or the first one behind it, on the circle. *)
Definition owner (n : Z) (h : Z -> Z) (hash i : Z) : Prop :=
  (hash = h i /\ forall j, 1 <= j < i -> h j <= hash) \/
  (hash < h i /\ forall j, 1 <= j < i -> h j < hash) \/
  (i = 1 /\ forall j, 1 <= j <= n -> h j < hash).

Lemma search_spec n h servers hash : forall fuel low hight,
  hashes n h servers -> n < 2 ^ 31 -> 1 <= low <= hight -> hight <= n -> (Z.to_nat (hight - low) < fuel)%nat ->
  exists r, search fuel servers low hight hash = Some r /\
    match r with inl i => 1 <= i <= n | inr i => 1 <= i <= n end /\
    (sorted n h -> (forall j, 1 <= j < low -> h j < hash) -> (hight < n -> hash < h hight) ->
     match r with
     | inl i => hash = h i
     | inr i => (forall j, 1 <= j < i -> h j < hash) /\ (i < n -> hash < h i)
     end).
Proof.
  induction fuel as [|fuel IH]; intros low hight Hh Hn Hlow Hhn Hfuel; [lia|]. cbn [search].
  destruct (Z.ltb_spec low hight) as [Hlt|Hge].
  - assert (exists mid, mid = Z.shiftr (u32 (low + hight)) 1 /\ low <= mid < hight) as (mid & Em & Hm).
    { eexists. split; [done|]. unfold u32, wrap_u. rewrite Z.mod_small, Z.shiftr_div_pow2 by lia.
      Z.to_euclidean_division_equations; lia. }
    rewrite <- Em. destruct (Hh mid ltac:(lia)) as (c & -> & Hc). cbn [mbind option_bind]. rewrite Hc.
    destruct (Z.eqb_spec (h mid) hash) as [He|He]; [exists (inl mid); split; [done|]; split; [lia|done]|].
    destruct (Z.ltb_spec (h mid) hash) as [Hl|Hl].
    + unfold u32, wrap_u. rewrite Z.mod_small by lia.
      destruct (IH (mid + 1) hight) as (r & Hr & Hin & Hs); [done|done|lia|lia|lia|].
      exists r. split; [done|]. split; [done|]. intros Hsort Hb Ha. apply Hs; [done| |done].
      intros j Hj. pose proof (Hsort j mid ltac:(lia) ltac:(lia)). lia.
    + destruct (IH low mid) as (r & Hr & Hin & Hs); [done|done|lia|lia|lia|].
      exists r. split; [done|]. split; [done|]. intros Hsort Hb Ha. apply Hs; [done|done|lia].
  - exists (inr low). split; [done|]. split; [lia|]. intros Hsort Hb Ha. replace hight with low in Ha by lia. done.
Qed.

Lemma get_server_index_spec n h servers hash :
  hashes n h servers -> 1 <= n < 2 ^ 31 ->
  exists i, get_server_index servers n hash = Some i /\ 1 <= i <= n /\ (sorted n h -> owner n h hash i).
Proof.
  intros Hh Hn. unfold get_server_index.
  destruct (search_spec n h servers hash (S (Z.to_nat n)) 1 n) as (r & -> & Hr & Hs); [done|lia..|].
  cbn [mbind option_bind]. destruct r as [i|i].
  - exists i. split; [done|]. split; [done|]. intros Hsort. specialize (Hs Hsort ltac:(lia) ltac:(lia)).
    left. split; [done|]. intros j Hj. rewrite Hs. apply Hsort; lia.
  - destruct (Z.eqb_spec i n) as [->|Hne].
    + destruct (Hh n ltac:(lia)) as (c & -> & Hc). cbn [mbind option_bind]. rewrite Hc.
      destruct (Z.ltb_spec (h n) hash) as [Hl|Hl].
      * exists 1. split; [done|]. split; [lia|]. intros Hsort. right; right. split; [done|].
        intros j Hj. pose proof (Hsort j n ltac:(lia) ltac:(lia)). lia.
      * exists n. split; [done|]. split; [lia|]. intros Hsort. destruct (Hs Hsort ltac:(lia) ltac:(lia)) as [Hb _].
        destruct (decide (hash = h n)); [left|right; left]; (split; [lia|]); intros j Hj; specialize (Hb j Hj); lia.
    + exists i. split; [done|]. split; [done|]. intros Hsort. destruct (Hs Hsort ltac:(lia) ltac:(lia)) as [Hb Ha].
      right; left. split; [apply Ha; lia|done].
Qed.

(** The hashes are fixed, so that the owner of a hash does not depend on which nodes are down. *)
Lemma search_ext n h s1 s2 hash : hashes n h s1 -> hashes n h s2 -> n < 2 ^ 31 -> forall fuel low hight,
  1 <= low <= hight -> hight <= n -> search fuel s1 low hight hash = search fuel s2 low hight hash.
Proof.
  intros H1 H2 Hn. induction fuel as [|fuel IH]; intros low hight Hl Hh; [done|]. cbn [search].
  destruct (Z.ltb_spec low hight) as [Hlt|]; [|done].
  assert (exists mid, mid = Z.shiftr (u32 (low + hight)) 1 /\ low <= mid < hight) as (mid & Em & Hm).
  { eexists. split; [done|]. unfold u32, wrap_u. rewrite Z.mod_small, Z.shiftr_div_pow2 by lia.
    Z.to_euclidean_division_equations; lia. }
  rewrite <- Em. destruct (H1 mid ltac:(lia)) as (c1 & -> & E1). destruct (H2 mid ltac:(lia)) as (c2 & -> & E2).
  cbn [mbind option_bind]. rewrite E1, E2. unfold u32, wrap_u. rewrite Z.mod_small by lia. rewrite !IH by lia. done.
Qed.

Lemma get_server_index_ext n h s1 s2 hash : hashes n h s1 -> hashes n h s2 -> 1 <= n < 2 ^ 31 ->
  get_server_index s1 n hash = get_server_index s2 n hash.
Proof.
  intros H1 H2 Hn. unfold get_server_index. rewrite (search_ext n h s1 s2) by (done || lia).
  destruct (search_spec n h s2 hash (S (Z.to_nat n)) 1 n) as (r & -> & Hr & _); [done|lia..|].
  cbn [mbind option_bind]. destruct r as [i|i]; [done|]. case_match; [|done].
  destruct (H1 i Hr) as (c1 & -> & E1). destruct (H2 i Hr) as (c2 & -> & E2). cbn. by rewrite E1, E2.
Qed.

(** ** The state of the balancer *)

Definition upd {A} (f : Z -> A) (i : Z) (x : A) : Z -> A := fun j => if j =? i then x else f j.

(** The nodes [1 .. n] with their hashes [h] and peers [rn], which of them are
    [dn] down, and the times [tm] the down ones come up again. *)
Record wf (n : Z) (h : Z -> Z) (rn : Z -> nat) (dn : Z -> bool) (tm : Z -> Z) (s : chash) : Prop := mk_wf {
  wf_number : ch_number s = n /\ 1 <= n < 2 ^ 31;
  wf_servers i : 1 <= i <= n -> server_at (ch_servers s) i = Some (mk_cs (dn i) (h i) i (rn i) (Some (rn i)));
  wf_dservers i : 1 <= i <= n -> d_servers s !! Z.to_nat i = Some (mk_ds (tm i) i);
  wf_rn i : 1 <= i <= n -> (rn i < length (ch_peers s))%nat;
  wf_real i : 1 <= i <= n ->
    exists l, real_node s !! rn i = Some l /\ forall j, j ∈ l <-> 1 <= j <= n /\ rn j = rn i;
  wf_tree : exists X, represents n (ch_tree s) X /\ forall i, 1 <= i <= n -> i ∈ X <-> dn i = false;
  wf_queue : NoDup (down_servers s) /\ forall i, i ∈ down_servers s <-> 1 <= i <= n /\ dn i = true
}.

Arguments wf_number {n h rn dn tm s} _.
Arguments wf_servers {n h rn dn tm s} _ i _.
Arguments wf_dservers {n h rn dn tm s} _ i _.
Arguments wf_rn {n h rn dn tm s} _ i _.
Arguments wf_real {n h rn dn tm s} _ i _.
Arguments wf_tree {n h rn dn tm s} _.
Arguments wf_queue {n h rn dn tm s} _.

Section Operations.
Context (check_peer_down : Z -> bool) (junk : Z) (n : Z) (h : Z -> Z) (rn : Z -> nat) (now : Z).

Notation unusable := (unusable check_peer_down).

Lemma wf_ext dn dn' tm tm' s :
  (forall i, 1 <= i <= n -> dn' i = dn i /\ tm' i = tm i) -> wf n h rn dn tm s -> wf n h rn dn' tm' s.
Proof.
  intros He [Hn Hs Hd Hr Hl (X & HX & HX') (Hnd & Hq)]. constructor; try done.
  - intros i Hi. rewrite Hs by done. by destruct (He i Hi) as [-> _].
  - intros i Hi. rewrite Hd by done. by destruct (He i Hi) as [_ ->].
  - exists X. split; [done|]. intros i Hi. rewrite HX' by done. by destruct (He i Hi) as [-> _].
  - split; [done|]. intros i. rewrite Hq. split; intros [Hi Hx]; split; try done; destruct (He i Hi); congruence.
Qed.

Lemma wf_peer dn tm s i : wf n h rn dn tm s -> 1 <= i <= n -> exists p, ch_peers s !! rn i = Some p.
Proof. intros Hw Hi. apply lookup_lt_is_Some_2. by eapply wf_rn. Qed.

Lemma lookup_upd {A} (l : list A) (f : Z -> A) i x :
  (forall j, 1 <= j <= n -> l !! Z.to_nat j = Some (f j)) -> 1 <= i <= n ->
  forall j, 1 <= j <= n -> <[Z.to_nat i := x]> l !! Z.to_nat j = Some (upd f i x j).
Proof.
  intros Hl Hi j Hj. unfold upd. destruct (Z.eqb_spec j i) as [->|Hne].
  - apply list_lookup_insert_eq. eapply lookup_lt_Some, Hl, Hi.
  - rewrite list_lookup_insert_ne by lia. by apply Hl.
Qed.

(** A node goes down. *)
Lemma take_down_spec dn tm s i p :
  wf n h rn dn tm s -> 1 <= i <= n -> ch_peers s !! rn i = Some p -> dn i = false ->
  exists s', take_down now i s = Some s' /\ ch_peers s' = ch_peers s /\
    wf n h rn (upd dn i true) (upd tm i (now + fail_timeout p)) s'.
Proof.
  intros Hw Hi Hp Hdn. destruct (wf_number Hw) as [Hnum Hn]. destruct (wf_tree Hw) as (X & HX & HX').
  destruct (wf_queue Hw) as [Hnd Hq]. unfold take_down.
  rewrite (wf_servers Hw i Hi). cbn [mbind option_bind cs_down cs_index]. rewrite Hdn, Hnum.
  destruct (represents_delete n _ X i HX Hi) as (t' & -> & HX2). cbn [mbind option_bind].
  unfold peer_of. cbn [cs_peer mbind option_bind]. rewrite Hp. cbn [mbind option_bind].
  rewrite (wf_dservers Hw i Hi). cbn [mbind option_bind]. unfold queue_insert.
  rewrite bool_decide_eq_false_2 by (rewrite Hq; intros [_ ?]; congruence). cbn [mbind option_bind].
  eexists. split; [done|]. split; [done|]. constructor; try apply Hw; cbn [ch_number ch_servers d_servers ch_peers ch_tree down_servers].
  - intros j Hj. unfold server_at.
    refine (eq_trans (lookup_upd _ (fun j => mk_cs (dn j) (h j) j (rn j) (Some (rn j))) i _ (wf_servers Hw) Hi j Hj) _).
    unfold upd. by destruct (Z.eqb_spec j i) as [->|].
  - intros j Hj. refine (eq_trans (lookup_upd _ (fun j => mk_ds (tm j) j) i _ (wf_dservers Hw) Hi j Hj) _).
    unfold upd. by destruct (Z.eqb_spec j i) as [->|].
  - exists (X ∖ {[i]}). split; [done|]. intros j Hj. unfold upd. rewrite elem_of_difference, elem_of_singleton, HX' by done.
    destruct (Z.eqb_spec j i); naive_solver.
  - split; [by constructor; [rewrite Hq; intros [_ ?]; congruence|]|]. intros j. change (j ∈ i :: down_servers s <-> 1 <= j <= n /\ upd dn i true j = true).
    rewrite elem_of_cons, Hq. unfold upd.
    destruct (Z.eqb_spec j i); naive_solver.
Qed.

(** The functions after the nodes of [l] went down. *)
Definition down_after (l : list Z) (dn : Z -> bool) : Z -> bool := fun j => dn j || bool_decide (j ∈ l).
Definition times_after (ps : list peer_t) (l : list Z) (dn : Z -> bool) (tm : Z -> Z) : Z -> Z :=
  fun j => if negb (dn j) && bool_decide (j ∈ l)
           then now + from_option fail_timeout 0 (ps !! rn j) else tm j.

Lemma delete_loop_spec l : forall dn tm s,
  wf n h rn dn tm s -> (forall i, i ∈ l -> 1 <= i <= n) ->
  exists s', delete_loop now l s = Some s' /\ ch_peers s' = ch_peers s /\
    wf n h rn (down_after l dn) (times_after (ch_peers s) l dn tm) s'.
Proof.
  induction l as [|i l IH]; intros dn tm s Hw Hl; cbn [delete_loop].
  { exists s. split; [done|]. split; [done|]. eapply wf_ext; [|exact Hw]. intros i _. unfold down_after, times_after.
    rewrite bool_decide_eq_false_2 by apply not_elem_of_nil. by rewrite orb_false_r, andb_false_r. }
  assert (1 <= i <= n) as Hi by (apply Hl; set_solver). destruct (wf_peer _ _ _ i Hw Hi) as [p Hp].
  destruct (dn i) eqn:Hdn.
  - unfold take_down. rewrite (wf_servers Hw i Hi). cbn [mbind option_bind cs_down]. rewrite Hdn.
    destruct (IH dn tm s Hw) as (s' & Hs' & Hps & Hw'); [set_solver|]. exists s'. split; [done|]. split; [done|].
    eapply wf_ext; [|exact Hw']. intros j _. unfold down_after, times_after.
    destruct (decide (j = i)) as [->|Hne]; [by rewrite Hdn|].
    by rewrite (bool_decide_ext (j ∈ i :: l) (j ∈ l)) by set_solver.
  - destruct (take_down_spec dn tm s i p Hw Hi Hp Hdn) as (s1 & -> & Hp1 & Hw1). cbn [mbind option_bind].
    destruct (IH _ _ s1 Hw1) as (s' & Hs' & Hps & Hw'); [set_solver|].
    exists s'. split; [done|]. split; [congruence|]. eapply wf_ext; [|exact Hw'].
    intros j _. unfold down_after, times_after, upd. rewrite Hp1.
    destruct (Z.eqb_spec j i) as [->|Hne].
    + rewrite Hdn, (bool_decide_eq_true_2 (i ∈ i :: l)) by set_solver. by rewrite Hp.
    + by rewrite (bool_decide_ext (j ∈ i :: l) (j ∈ l)) by set_solver.
Qed.

(** All nodes of the peer of [i] go down. *)
Definition down_peer (i : Z) (dn : Z -> bool) : Z -> bool := fun j => dn j || (rn j =? rn i)%nat.

Lemma delete_node_spec dn tm s i c :
  wf n h rn dn tm s -> 1 <= i <= n -> rnindex c = rn i ->
  exists s' tm', delete_node now c s = Some s' /\ ch_peers s' = ch_peers s /\ wf n h rn (down_peer i dn) tm' s' /\
    forall j, 1 <= j <= n -> tm' j = if negb (dn j) && (rn j =? rn i)%nat
                then now + from_option fail_timeout 0 (ch_peers s !! rn j) else tm j.
Proof.
  intros Hw Hi Hc. unfold delete_node. rewrite Hc. destruct (wf_real Hw i Hi) as (l & -> & Hl). cbn [mbind option_bind].
  destruct (delete_loop_spec l dn tm s Hw) as (s' & Hs' & Hps & Hw').
  { intros j Hj. by apply Hl in Hj as [? _]. }
  assert (forall j, 1 <= j <= n -> bool_decide (j ∈ l) = (rn j =? rn i)%nat) as Hin.
  { intros j Hj. apply eq_true_iff_eq. rewrite bool_decide_eq_true, Hl, Nat.eqb_eq. tauto. }
  exists s', (times_after (ch_peers s) l dn tm). split; [done|]. split; [done|]. split.
  - eapply wf_ext; [|exact Hw']. intros j Hj. unfold down_after, down_peer. by rewrite Hin.
  - intros j Hj. unfold times_after. by rewrite Hin.
Qed.
(** [ngx_http_upstream_get_chash_peer] resets a peer whose node comes up. *)
Definition reset (p : peer_t) : peer_t := p <| fails := 0 |> <| down := false |>.

(** The time of a down node is over and the health check does not object. *)
Definition due (ps : list peer_t) (tm : Z -> Z) (j : Z) : bool :=
  (now >=? tm j) && from_option (fun p => negb (check_peer_down (check_index p))) false (ps !! rn j).

Definition up_after (ps : list peer_t) (tm : Z -> Z) (q : list Z) (dn : Z -> bool) : Z -> bool :=
  fun j => dn j && negb (bool_decide (j ∈ q) && due ps tm j).

(** The peers after the nodes of [q] that are due came up. *)
Definition reset_after (tm : Z -> Z) (q : list Z) (ps ps' : list peer_t) : Prop :=
  forall k p, ps !! k = Some p ->
    ps' !! k = Some (if existsb (fun j => (rn j =? k)%nat && due ps tm j) q then reset p else p).

Lemma bring_up_spec dn tm s i :
  wf n h rn dn tm s -> 1 <= i <= n -> dn i = true ->
  exists s', bring_up check_peer_down junk now i s = Some s' /\
    length (ch_peers s') = length (ch_peers s) /\ reset_after tm [i] (ch_peers s) (ch_peers s') /\
    wf n h rn (up_after (ch_peers s) tm [i] dn) tm s'.
Proof.
  intros Hw Hi Hdn. destruct (wf_number Hw) as [Hnum Hn]. destruct (wf_peer _ _ _ i Hw Hi) as [p Hp].
  assert (forall j, up_after (ch_peers s) tm [i] dn j = if due (ch_peers s) tm i && (j =? i) then false else dn j) as Hup.
  { intros j. unfold up_after. destruct (Z.eqb_spec j i) as [->|Hne].
    - rewrite bool_decide_eq_true_2 by set_solver. rewrite Hdn. by destruct (due _ _ i).
    - rewrite bool_decide_eq_false_2 by set_solver. by rewrite !andb_false_r, andb_true_r. }
  unfold bring_up. rewrite (wf_dservers Hw i Hi). cbn [mbind option_bind ds_timeout ds_id].
  assert (due (ch_peers s) tm i = (now >=? tm i) && negb (check_peer_down (check_index p))) as Hdue
    by (unfold due; by rewrite Hp).
  assert (due (ch_peers s) tm i = false -> exists s', Some s = Some s' /\
    length (ch_peers s') = length (ch_peers s) /\ reset_after tm [i] (ch_peers s) (ch_peers s') /\
    wf n h rn (up_after (ch_peers s) tm [i] dn) tm s') as Hsame.
  { intros Hd. exists s. split; [done|]. split; [done|]. split.
    - intros k p' Hk. cbn. by rewrite Hd, andb_false_r.
    - eapply wf_ext; [|exact Hw]. intros j _. by rewrite Hup, Hd. }
  destruct (now >=? tm i) eqn:Et; [|by apply Hsame; rewrite Hdue].
  rewrite (wf_servers Hw i Hi). cbn [mbind option_bind cs_peer]. rewrite Hp. cbn [mbind option_bind].
  destruct (check_peer_down (check_index p)) eqn:Ec; [by apply Hsame; rewrite Hdue|]. cbn [andb negb] in Hdue.
  clear Hsame. destruct (wf_tree Hw) as (X & HX & HX'). destruct (wf_queue Hw) as [Hnd Hq]. rewrite Hnum.
  destruct (represents_insert n _ X i junk HX Hi) as (t' & -> & HX2). cbn [mbind option_bind].
  eexists. split; [done|]. split; [apply length_insert|]. split.
  - intros k p' Hk. cbn [existsb]. rewrite Hdue, andb_true_r, orb_false_r. destruct (Nat.eqb_spec (rn i) k) as [<-|Hne].
    + replace p' with p by congruence. apply list_lookup_insert_eq. by eapply lookup_lt_Some.
    + by refine (eq_trans (list_lookup_insert_ne _ _ _ _ Hne) _).
  - constructor; try apply Hw.
    + intros j Hj. unfold server_at.
      refine (eq_trans (lookup_upd _ (fun j => mk_cs (dn j) (h j) j (rn j) (Some (rn j))) i _ (wf_servers Hw) Hi j Hj) _).
      rewrite Hup, Hdue. unfold upd. by destruct (Z.eqb_spec j i) as [->|].
    + intros j Hj. pose proof (wf_rn Hw j Hj). by refine (eq_ind_r (fun l => (rn j < l)%nat) _ (length_insert _ _ _)).
    + exists ({[i]} ∪ X). split; [done|]. intros j Hj. rewrite Hup, Hdue, elem_of_union, elem_of_singleton, HX' by done.
      destruct (Z.eqb_spec j i); naive_solver.
    + split; [by apply NoDup_ListNoDup, List.NoDup_filter, NoDup_ListNoDup|]. intros j.
      change (j ∈ List.filter (fun j => negb (j =? i)) (down_servers s) <->
        1 <= j <= n /\ up_after (ch_peers s) tm [i] dn j = true).
      rewrite list_elem_of_In, filter_In, <- list_elem_of_In, Hq, Hup, Hdue.
      destruct (Z.eqb_spec j i); naive_solver.
Qed.

Lemma due_reset tm q ps ps' : reset_after tm q ps ps' -> length ps' = length ps ->
  forall j, due ps' tm j = due ps tm j.
Proof.
  intros Hr Hl j. unfold due. destruct (ps !! rn j) as [p|] eqn:Hp.
  - rewrite (Hr _ _ Hp). by case_match.
  - apply lookup_ge_None in Hp. by rewrite (proj2 (lookup_ge_None ps' _)) by lia.
Qed.

Lemma bring_up_loop_spec q : forall dn tm s,
  wf n h rn dn tm s -> NoDup q -> (forall i, i ∈ q -> 1 <= i <= n /\ dn i = true) ->
  exists s', bring_up_loop check_peer_down junk now q s = Some s' /\
    length (ch_peers s') = length (ch_peers s) /\ reset_after tm q (ch_peers s) (ch_peers s') /\
    wf n h rn (up_after (ch_peers s) tm q dn) tm s'.
Proof.
  induction q as [|i q IH]; intros dn tm s Hw Hnd Hq; cbn [bring_up_loop].
  { exists s. split; [done|]. split; [done|]. split; [by intros k p Hk|]. eapply wf_ext; [|exact Hw]. intros j _. unfold up_after.
    rewrite bool_decide_eq_false_2 by apply not_elem_of_nil. cbn. by rewrite andb_true_r. }
  apply list.NoDup_cons in Hnd as [Hni Hnd]. destruct (Hq i ltac:(set_solver)) as [Hi Hdn].
  destruct (bring_up_spec dn tm s i Hw Hi Hdn) as (s1 & -> & Hl1 & Hr1 & Hw1). cbn [mbind option_bind].
  pose proof (due_reset tm [i] _ _ Hr1 Hl1) as Hdue.
  destruct (IH _ _ s1 Hw1 Hnd) as (s' & Hs' & Hl & Hr & Hw').
  { intros j Hj. destruct (Hq j ltac:(set_solver)) as [Hjr Hjd]. split; [done|]. unfold up_after.
    rewrite bool_decide_eq_false_2 by set_solver. by rewrite Hjd. }
  exists s'. split; [done|]. split; [congruence|]. split.
  - intros k p Hk. rewrite (Hr _ _ (Hr1 _ _ Hk)). cbn [existsb]. rewrite orb_false_r. f_equal.
    assert (existsb (fun j => (rn j =? k)%nat && due (ch_peers s1) tm j) q =
            existsb (fun j => (rn j =? k)%nat && due (ch_peers s) tm j) q) as ->
      by (clear -Hdue; induction q as [|j q IH]; [done|]; cbn; by rewrite Hdue, IH).
    by destruct ((rn i =? k)%nat && due (ch_peers s) tm i), (existsb _ q).
  - eapply wf_ext; [|exact Hw']. intros j _. split; [|done]. unfold up_after. rewrite Hdue.
    destruct (decide (j = i)) as [->|Hne].
    + rewrite !(bool_decide_eq_true_2 (i ∈ _ :: _)), (bool_decide_eq_false_2 (i ∈ q)) by set_solver.
      by destruct (dn i), (due (ch_peers s) tm i).
    + rewrite (bool_decide_ext (j ∈ i :: q) (j ∈ q)), (bool_decide_eq_false_2 (j ∈ [i])) by set_solver.
      by destruct (dn j), (bool_decide (j ∈ q)), (due (ch_peers s) tm j).
Qed.

(** ** Choosing *)

Lemma next_node_spec dn tm s hash index :
  wf n h rn dn tm s -> 1 <= index <= n -> dn index = true ->
  exists o, next_node hash index s = Some o /\
    match o with
    | Some i => 1 <= i <= n /\ dn i = false
    | None => forall j, 1 <= j <= n -> dn j = true
    end.
Proof.
  intros Hw Hi Hdn. destruct (wf_number Hw) as [Hnum Hn]. destruct (wf_tree Hw) as (X & HX & HX').
  assert (u32 (index - 1) = index - 1 /\ u32 (index + 1) = index + 1) as [E1 E2]
    by (unfold u32, wrap_u; rewrite !Z.mod_small by lia; done).
  unfold next_node. rewrite Hnum, E1, E2. cbv zeta.
  assert (extreme (ch_tree s) = NGX_MAX_UINT32_VALUE) as -> by apply HX.
  assert (forall l r, 1 <= l -> r <= n -> exists k,
    (i ← ngx_segment_tree_query (ch_tree s) 1 1 n l r; nd ← seg_get (ch_tree s) i; Some (u32 (sg_key nd))) = Some k /\
    ((l <= k <= r /\ dn k = false) \/ (k = NGX_MAX_UINT32_VALUE /\ forall j, l <= j <= r -> dn j = true))) as Hkey.
  { intros l r Hl Hr. destruct (represents_query n _ X l r HX Hl Hr) as (i & nd & -> & Hg & Hk).
    cbn [mbind option_bind]. rewrite Hg. cbn [mbind option_bind]. eexists. split; [done|].
    unfold u32, wrap_u, NGX_MAX_UINT32_VALUE in *. destruct Hk as [(Hx & Hb & _)|[-> Hno]]; [left|right].
    - rewrite Z.mod_small by lia. split; [done|]. apply HX'; [lia|done].
    - split; [done|]. intros j Hj. destruct (dn j) eqn:E; [done|]. exfalso. apply (Hno j); [apply HX'; [lia|done]|done]. }
  destruct (Hkey 1 (index - 1)) as (k1 & -> & H1); [lia|lia|]. destruct (Hkey (index + 1) n) as (k2 & -> & H2); [lia|lia|].
  clear Hkey. cbn [mbind option_bind]. unfold NGX_MAX_UINT32_VALUE in *.
  destruct (Z.eqb_spec k1 4294967295) as [->|N1], (Z.eqb_spec k2 4294967295) as [->|N2].
  - exists None. split; [done|]. intros j Hj. destruct (Z.lt_trichotomy j index) as [Hlt|[->|Hlt]]; [|done|].
    + destruct H1 as [[? _]|[_ H1]]; [lia|]. apply H1. lia.
    + destruct H2 as [[? _]|[_ H2]]; [lia|]. apply H2. lia.
  - exists (Some k2). split; [done|]. destruct H2 as [[? ?]|[? _]]; [split; [lia|done]|done].
  - exists (Some k1). split; [done|]. destruct H1 as [[? ?]|[? _]]; [split; [lia|done]|done].
  - destruct H1 as [[R1 D1]|[? _]]; [|done]. destruct H2 as [[R2 D2]|[? _]]; [|done].
    rewrite (wf_servers Hw k1), (wf_servers Hw k2) by lia. cbn [mbind option_bind]. eexists. split; [done|].
    cbn [cs_hash]. case_match; (split; [lia|done]).
Qed.

(** The number of live nodes. *)
Definition live (dn : Z -> bool) : nat := length (List.filter (fun j => negb (dn j)) (seqZ 1 n)).

Lemma live_less dn dn' i :
  1 <= i <= n -> (forall j, dn j = true -> dn' j = true) -> dn i = false -> dn' i = true -> (live dn' < live dn)%nat.
Proof.
  intros Hi Hm Hd Hd'. unfold live. assert (i ∈ seqZ 1 n) as Hin by (apply elem_of_seqZ; lia).
  assert (forall l, length (List.filter (fun j => negb (dn' j)) l) <= length (List.filter (fun j => negb (dn j)) l))%nat as Hle.
  { induction l as [|j l IH]; [done|]. cbn. specialize (Hm j). destruct (dn j), (dn' j); cbn; try lia; by discriminate Hm. }
  induction (seqZ 1 n) as [|j l IH]; [by apply not_elem_of_nil in Hin|]. cbn. specialize (Hle l).
  destruct (decide (j = i)) as [->|Hne]; [rewrite Hd, Hd'; cbn; lia|].
  assert (length (List.filter (fun j => negb (dn' j)) l) < length (List.filter (fun j => negb (dn j)) l))%nat by (apply IH; set_solver).
  specialize (Hm j). destruct (dn j), (dn' j); cbn; try lia; by discriminate Hm.
Qed.

(** The nodes of a peer go down and come up together. *)
Definition grouped (dn : Z -> bool) (tm : Z -> Z) : Prop :=
  forall i j, 1 <= i <= n -> 1 <= j <= n -> rn i = rn j -> dn i = dn j /\ (dn i = true -> tm i = tm j).

(** The peers of down nodes are unusable. *)
Definition coherent (ps : list peer_t) (dn : Z -> bool) : Prop :=
  forall j p, 1 <= j <= n -> dn j = true -> ps !! rn j = Some p -> unusable p = true.

Lemma delete_grouped dn tm tm' (ps : list peer_t) i :
  grouped dn tm -> 1 <= i <= n ->
  (forall j, 1 <= j <= n -> tm' j = if negb (dn j) && (rn j =? rn i)%nat
                then now + from_option fail_timeout 0 (ps !! rn j) else tm j) ->
  grouped (down_peer i dn) tm'.
Proof.
  intros Hg Hi Htm a b Ha Hb Hab. destruct (Hg a b Ha Hb Hab) as [Hd Ht]. unfold down_peer.
  rewrite Hab, Hd, !Htm, Hd, Hab by done. split; [done|]. intros Hor.
  destruct (dn b) eqn:E; cbn [negb andb]; [by apply Ht|]. cbn [orb] in Hor. by rewrite Hor.
Qed.

Lemma delete_coherent dn ps i p :
  coherent ps dn -> ps !! rn i = Some p -> unusable p = true -> coherent ps (down_peer i dn).
Proof.
  intros Hc Hp Hu j q Hj Hd Hq. unfold down_peer in Hd. apply orb_true_iff in Hd as [Hd|Hd]; [by eapply Hc|].
  apply Nat.eqb_eq in Hd. congruence.
Qed.

Lemma choose_loop_spec hash : forall fuel dn tm s index,
  wf n h rn dn tm s -> grouped dn tm -> coherent (ch_peers s) dn ->
  1 <= index <= n -> dn index = true -> (live dn < fuel)%nat ->
  exists o s' dn' tm', choose_loop check_peer_down fuel now hash index s = Some (o, s') /\
    ch_peers s' = ch_peers s /\ wf n h rn dn' tm' s' /\ grouped dn' tm' /\ coherent (ch_peers s) dn' /\
    match o with
    | Some i => 1 <= i <= n /\ dn' i = false /\ exists p, ch_peers s !! rn i = Some p /\ unusable p = false
    | None => forall j, 1 <= j <= n -> dn' j = true
    end.
Proof.
  induction fuel as [|fuel IH]; intros dn tm s index Hw Hg Hco Hi Hdn Hfuel; [lia|]. cbn [choose_loop].
  destruct (next_node_spec dn tm s hash index Hw Hi Hdn) as (o & -> & Ho). cbn [mbind option_bind].
  destruct o as [k|]; [|by exists None, s, dn, tm]. destruct Ho as [Hk Hkd].
  rewrite (wf_servers Hw k Hk). cbn [mbind option_bind]. unfold peer_of. cbn [cs_peer mbind option_bind].
  destruct (wf_peer _ _ _ k Hw Hk) as [p Hp]. rewrite Hp. cbn [mbind option_bind].
  destruct (ConsistentHash.unusable check_peer_down p) eqn:Hu; [|exists (Some k), s, dn, tm; do 7 (split; [done|]); by exists p].
  set (c := mk_cs _ _ _ _ _).
  destruct (delete_node_spec dn tm s k c Hw Hk eq_refl) as (s1 & tm1 & -> & Hps & Hw1 & Htm). cbn [mbind option_bind].
  rewrite <- Hps in Hp, Hco, Htm.
  destruct (IH _ _ s1 k Hw1) as (o & s' & dn' & tm' & Hrun & Hps' & Hrest); try done.
  - by eapply delete_grouped.
  - by eapply delete_coherent.
  - unfold down_peer. by rewrite Nat.eqb_refl, orb_true_r.
  - assert (live (down_peer k dn) < live dn)%nat; [|lia]. apply live_less with k; [done| |done|].
    + intros j Hj. unfold down_peer. by rewrite Hj.
    + unfold down_peer. by rewrite Nat.eqb_refl, orb_true_r.
  - exists o, s', dn', tm'. split; [done|]. split; [congruence|]. by rewrite <- Hps.
Qed.

(** The walk over the queue keeps the invariant; [coherent] needs that the health check never
    objects, as in builds without it. *)
Lemma restore_spec dn tm s :
  wf n h rn dn tm s -> grouped dn tm ->
  exists s' dn', bring_up_loop check_peer_down junk now (down_servers s) s = Some s' /\
    wf n h rn dn' tm s' /\ grouped dn' tm /\ length (ch_peers s') = length (ch_peers s) /\
    ((forall c, check_peer_down c = false) -> coherent (ch_peers s) dn -> coherent (ch_peers s') dn').
Proof.
  intros Hw Hg. destruct (wf_queue Hw) as [Hnd Hq].
  destruct (bring_up_loop_spec (down_servers s) dn tm s Hw Hnd) as (s' & Hs' & Hl & Hr & Hw').
  { intros i Hi. by apply Hq. }
  set (ps := ch_peers s) in *. assert (forall j, 1 <= j <= n ->
    up_after ps tm (down_servers s) dn j = dn j && negb (due ps tm j)) as Hup.
  { intros j Hj. unfold up_after. destruct (dn j) eqn:E; [|done].
    by rewrite bool_decide_eq_true_2 by (by apply Hq). }
  assert (forall i j, 1 <= i <= n -> 1 <= j <= n -> rn i = rn j -> dn i = true -> due ps tm i = due ps tm j) as Hdue.
  { intros i j Hi Hj Hij Hd. destruct (Hg i j Hi Hj Hij) as [_ Ht]. unfold due. by rewrite Hij, (Ht Hd). }
  exists s', (up_after ps tm (down_servers s) dn). split; [done|]. split; [done|]. split; [|split; [done|]].
  - intros i j Hi Hj Hij. destruct (Hg i j Hi Hj Hij) as [Hd Ht]. rewrite !Hup by done. split.
    + rewrite <- Hd. destruct (dn i) eqn:E; [|done]. by rewrite (Hdue i j).
    + intros Hu. apply andb_true_iff in Hu as [Hu _]. by apply Ht.
  - intros Hck Hco j p' Hj Hd Hp'. rewrite Hup in Hd by done. apply andb_true_iff in Hd as [Hd Hnd'].
    destruct (wf_peer _ _ _ j Hw Hj) as [p Hp]. rewrite (Hr _ _ Hp) in Hp'.
    destruct (existsb _ _) eqn:Ee in Hp'; simplify_eq; [|by eapply Hco].
    apply existsb_exists in Ee as (i & Hi & Hx). apply list_elem_of_In, Hq in Hi as [Hi Hdi].
    apply andb_true_iff in Hx as [Hij Hdi']. apply Nat.eqb_eq in Hij.
    rewrite <- (Hdue i j), Hdi' in Hnd' by done. done.
Qed.

Lemma wf_hashes dn tm s : wf n h rn dn tm s -> hashes n h (ch_servers s).
Proof. intros Hw i Hi. eexists. split; [by apply (wf_servers Hw)|done]. Qed.

Lemma get_chash_peer_spec dn tm s d pc :
  wf n h rn dn tm s -> grouped dn tm -> (forall c, check_peer_down c = false) -> coherent (ch_peers s) dn ->
  exists rc s' d' pc' dn' tm', get_chash_peer check_peer_down junk now s d pc = Some (rc, s', d', pc') /\
    wf n h rn dn' tm' s' /\ grouped dn' tm' /\ coherent (ch_peers s') dn' /\ length (ch_peers s') = length (ch_peers s) /\
    ((rc = NGX_OK /\ exists i o p, cp_server d' = Some i /\ 1 <= i <= n /\ dn' i = false /\
        ch_peers s' !! rn i = Some p /\ unusable p = false /\
        pc_name pc' = p_name p /\ pc_sockaddr pc' = p_sockaddr p /\ pc_socklen pc' = p_socklen p /\
        get_server_index (ch_servers s) n (cp_hash d) = Some o /\
        (forall q, ch_peers s' !! rn o = Some q -> unusable q = false -> i = o)) \/
     (rc = NGX_BUSY /\ d' = d /\ forall i q, 1 <= i <= n -> ch_peers s' !! rn i = Some q -> unusable q = true)).
Proof.
  intros Hw Hg Hck Hco. destruct (restore_spec dn tm s Hw Hg) as (s1 & dn1 & Hrun & Hw1 & Hg1 & Hlen & Hco1).
  specialize (Hco1 Hck Hco). unfold get_chash_peer. rewrite Hrun. cbn [mbind option_bind].
  destruct (wf_number Hw1) as [Hnum Hn]. rewrite Hnum. unfold u32 at 1, wrap_u. rewrite Z.mod_small by lia.
  rewrite (get_server_index_ext n h (ch_servers s) (ch_servers s1)) by (done || by eapply wf_hashes).
  destruct (get_server_index_spec n h (ch_servers s1) (cp_hash d)) as (o & -> & Ho & _); [by eapply wf_hashes|done|].
  cbn [mbind option_bind]. rewrite (wf_servers Hw1 o Ho). cbn [mbind option_bind]. unfold peer_of.
  cbn [cs_peer mbind option_bind]. destruct (wf_peer _ _ _ o Hw1 Ho) as [p Hp]. rewrite Hp. cbn [mbind option_bind].
  destruct (ConsistentHash.unusable check_peer_down p) eqn:Hu.
  - destruct (delete_node_spec dn1 tm s1 o (mk_cs (dn1 o) (h o) o (rn o) (Some (rn o))) Hw1 Ho eq_refl)
      as (s2 & tm2 & -> & Hps & Hw2 & Htm). cbn [mbind option_bind]. rewrite <- Hps in Hp, Hco1, Htm.
    destruct (wf_number Hw2) as [-> _].
    destruct (choose_loop_spec (cp_hash d) (S (Z.to_nat n)) _ _ s2 o Hw2) as (r & s3 & dn3 & tm3 & -> & Hps3 & Hw3 & Hg3 & Hco3 & Hr).
    { by eapply delete_grouped. } { by eapply delete_coherent. } { done. }
    { unfold down_peer. by rewrite Nat.eqb_refl, orb_true_r. }
    { unfold live. pose proof (List.filter_length_le (fun j => negb (down_peer o dn1 j)) (seqZ 1 n)).
      rewrite length_seqZ in *. lia. }
    cbn [mbind option_bind]. destruct r as [i|].
    + destruct Hr as (Hi & Hd & q & Hq & Hqu). rewrite (wf_servers Hw3 i Hi). cbn [mbind option_bind cs_down]. rewrite Hd.
      unfold peer_of. cbn [cs_peer mbind option_bind]. rewrite Hps3, Hq. cbn [mbind option_bind].
      do 6 eexists. split; [done|]. split; [exact Hw3|]. split; [done|]. rewrite Hps3. split; [done|]. split; [congruence|].
      left. split; [done|]. exists i, o, q. do 9 (split; [done|]). intros q' Hq'. congruence.
    + do 6 eexists. split; [done|]. split; [exact Hw3|]. split; [done|]. rewrite Hps3. split; [done|]. split; [congruence|].
      right. split; [done|]. split; [done|]. intros i q Hi Hq. eapply Hco3; [exact Hi|by apply Hr|done].
  - cbn [mbind option_bind]. rewrite (wf_servers Hw1 o Ho). cbn [mbind option_bind cs_down].
    destruct (dn1 o) eqn:Ed. { pose proof (Hco1 o p Ho Ed Hp). congruence. }
    unfold peer_of. cbn [cs_peer mbind option_bind]. rewrite Hp. cbn [mbind option_bind].
    do 6 eexists. split; [done|]. split; [exact Hw1|]. split; [done|]. split; [done|]. split; [done|].
    left. split; [done|]. exists o, o, p. by do 9 (split; [done|]).
Qed.
End Operations.

(** ** The circle is built *)

Lemma emits_Z f fmt args : emits (S f) f (bs "%Z" ++ fmt) fmt args args [0].
Proof. eapply emits_directive; [done|done|]. done. Qed.

Lemma strlen_some s l : exists k, ngx_strlen (s ++ 0 :: l) = Some k.
Proof.
  induction s as [|c s [k IH]]; [by exists 0%nat|]. cbn [app ngx_strlen]. rewrite IH. case_match; eauto.
Qed.

(** A peer with a name that fits the buffer. *)
Definition named (p : peer_t) : Prop := p_name p <> [] /\ (length (p_name p) < 256)%nat.

Lemma server_sid_some p : named p -> exists sid, server_sid p = Some sid.
Proof.
  intros [Hne Hl]. unfold server_sid. case_match; [|eauto].
  assert (ngx_vslprintf 256 (bs "%V%Z") [AStr (p_name p)] = Some (p_name p ++ [0])) as ->.
  { unfold ngx_vslprintf. eapply (emits_run _ 2); [|rewrite length_app; cbn [length]; lia].
    change (bs "%V%Z") with (bs "%V" ++ bs "%Z" ++ []). eapply emits_app; [by apply emits_V|]. apply emits_Z. }
  cbn [mbind option_bind]. destruct (strlen_some (p_name p) []) as [k ->]. cbn. eauto.
Qed.

Lemma node_weight_room p : 1 <= weight p -> 1 <= node_weight p <= real_room p.
Proof.
  intros Hw. unfold node_weight, real_room, VIRTUAL_NODE_NUMBER. change (Z.shiftl 1 14) with 16384.
  destruct (Z.geb_spec (weight p * 160) 16384); lia.
Qed.

(** The number of the nodes of the peer [k]. *)
Definition of_peer (k : nat) (c : cserver) : bool := (rnindex c =? k)%nat.
Definition nodes_of (k : nat) (l : list cserver) : Z := Z.of_nat (length (List.filter (of_peer k) l)).

Lemma nodes_of_app k a b : nodes_of k (a ++ b) = nodes_of k a + nodes_of k b.
Proof. unfold nodes_of. rewrite List.filter_app, length_app. lia. Qed.

Lemma nodes_of_cons k c l : nodes_of k (c :: l) = (if of_peer k c then 1 else 0) + nodes_of k l.
Proof. unfold nodes_of. cbn [List.filter]. case_match; cbn [length]; lia. Qed.

Lemma nodes_of_perm k a b : a ≡ₚ b -> nodes_of k a = nodes_of k b.
Proof. induction 1; rewrite ?nodes_of_cons in *; lia. Qed.

Lemma virtual_nodes_spec i p : named p -> 1 <= weight p ->
  exists l, virtual_nodes i p = Some l /\ Z.of_nat (length l) = node_weight p /\
    Forall (fun c => cs_down c = false /\ cs_peer c = Some (rnindex c) /\ rnindex c = i) l.
Proof.
  intros Hn Hw. destruct (server_sid_some p Hn) as [sid Hs]. unfold virtual_nodes. rewrite Hs. cbn [mbind option_bind].
  eexists. split; [done|]. rewrite length_fmap, length_seqZ. pose proof (node_weight_room p Hw). split; [lia|].
  apply list.Forall_forall. intros c Hc. apply list_elem_of_fmap in Hc as (j & -> & _). done.
Qed.

Lemma nodes_of_const k i l : Forall (fun c => rnindex c = i) l ->
  nodes_of k l = if (i =? k)%nat then Z.of_nat (length l) else 0.
Proof.
  induction 1 as [|c l Hc _ IH]; [unfold nodes_of; cbn; by case_match|]. rewrite nodes_of_cons, IH. unfold of_peer. rewrite Hc.
  cbn [length]. case_match; lia.
Qed.

Lemma all_nodes_spec ps : forall i, Forall (fun p => named p /\ 1 <= weight p) ps ->
  exists l, all_nodes i ps = Some l /\
    Forall (fun c => cs_down c = false /\ cs_peer c = Some (rnindex c) /\ (i <= rnindex c < i + length ps)%nat) l /\
    Z.of_nat (length ps) <= Z.of_nat (length l) <= servers_room ps /\
    (forall k p, ps !! k = Some p -> nodes_of (i + k) l = node_weight p).
Proof.
  induction ps as [|p ps IH]; intros i H; cbn [all_nodes].
  { exists []. split; [done|]. split; [constructor|]. split; [done|]. intros k p Hk. done. }
  apply Forall_cons_1 in H as [[Hn Hw] H]. destruct (virtual_nodes_spec i p Hn Hw) as (l & -> & Hl & Hf).
  cbn [mbind option_bind]. destruct (IH (S i) H) as (l' & -> & Hf' & Hl' & Hc'). cbn [mbind option_bind].
  pose proof (node_weight_room p Hw) as Hr. exists (l ++ l'). split; [done|]. split; [|split].
  - apply Forall_app. split; eapply list.Forall_impl; [exact Hf| |exact Hf'|]; cbn; intros c (? & ? & ?); split_and!; try done; lia.
  - rewrite length_app. unfold servers_room in *. rewrite fmap_cons, zsum_cons. cbn [length]. lia.
  - assert (forall k, nodes_of k l = if (i =? k)%nat then Z.of_nat (length l) else 0) as Hk1.
    { intros k. apply nodes_of_const. eapply list.Forall_impl; [exact Hf|]. cbn. by intros c (_ & _ & ?). }
    assert (nodes_of i l' = 0) as Hk2.
    { clear -Hf'. induction Hf' as [|c l' (_ & _ & Hc) _ IH]; [done|]. rewrite nodes_of_cons, IH. unfold of_peer.
      destruct (Nat.eqb_spec (rnindex c) i); lia. }
    intros [|k] q Hk; rewrite nodes_of_app, Hk1.
    + injection Hk as <-. rewrite Nat.add_0_r, Nat.eqb_refl, Hk2. lia.
    + destruct (Nat.eqb_spec i (i + S k)); [lia|]. rewrite <- (Hc' k q Hk), Nat.add_succ_r. done.
Qed.

Lemma number_nodes_spec ps l : forall i rn,
  length rn = length ps -> Forall (fun c => (rnindex c < length ps)%nat) l ->
  (forall k p r, ps !! k = Some p -> rn !! k = Some r -> Z.of_nat (length r) + nodes_of k l <= real_room p) ->
  exists cs ds rn', number_nodes i l ps rn = Some (cs, ds, rn') /\
    (forall j c, l !! j = Some c ->
       cs !! j = Some (c <| cs_index := i + Z.of_nat j |>) /\ ds !! j = Some (mk_ds 0 (i + Z.of_nat j))) /\
    (forall k, nodes_of k cs = nodes_of k l) /\ length cs = length l /\
    forall k r, rn !! k = Some r -> exists r', rn' !! k = Some r' /\
      forall x, x ∈ r' <-> x ∈ r \/ exists j c, l !! j = Some c /\ rnindex c = k /\ x = i + Z.of_nat j.
Proof.
  induction l as [|c l IH]; intros i rn Hlen Hf Hroom; cbn [number_nodes].
  { exists [], [], rn. do 4 (split; [done|]). intros k r Hk. exists r. split; [done|]. set_solver. }
  apply Forall_cons_1 in Hf as [Hc Hf].
  destruct (lookup_lt_is_Some_2 ps (rnindex c) Hc) as [p Hp].
  destruct (lookup_lt_is_Some_2 rn (rnindex c) ltac:(lia)) as [r Hr]. rewrite Hr, Hp. cbn [mbind option_bind].
  pose proof (Hroom _ _ _ Hp Hr) as Hb. rewrite nodes_of_cons in Hb. unfold of_peer at 1 in Hb. rewrite Nat.eqb_refl in Hb.
  destruct (Z.ltb_spec (Z.of_nat (length r)) (real_room p)) as [_|Hge]; [|unfold nodes_of in Hb; lia].
  destruct (IH (i + 1) (<[rnindex c := r ++ [i]]> rn)) as (cs & ds & rn' & -> & Hcs & Hcnt & Hl & Hrn).
  { by rewrite length_insert. } { done. }
  { intros k p' r' Hp' Hr'. destruct (decide (k = rnindex c)) as [->|Hne].
    - rewrite list_lookup_insert_eq in Hr' by lia. simplify_eq. rewrite length_app. cbn [length]. lia.
    - rewrite list_lookup_insert_ne in Hr' by done. specialize (Hroom _ _ _ Hp' Hr'). rewrite nodes_of_cons in Hroom.
      unfold of_peer at 1 in Hroom. destruct (Nat.eqb_spec (rnindex c) k); [congruence|lia]. }
  cbn [mbind option_bind]. do 3 eexists. split; [done|]. split.
  - intros [|j] c' Hj.
    + injection Hj as <-. by rewrite Z.add_0_r.
    + destruct (Hcs j c' Hj) as [E1 E2]. replace (i + Z.of_nat (S j)) with (i + 1 + Z.of_nat j) by lia. done.
  - split; [intros k; rewrite !nodes_of_cons, Hcnt; done|]. split; [cbn; lia|].
    intros k r0 Hk. destruct (decide (k = rnindex c)) as [->|Hne].
    + destruct (Hrn (rnindex c) (r ++ [i])) as (r' & Hr' & Hin); [apply list_lookup_insert_eq; lia|].
      exists r'. split; [done|]. intros x. rewrite Hin, elem_of_app, list_elem_of_singleton. simplify_eq. split.
      * intros [[?| ->]|(j & c' & ? & ? & ->)]; [by left| |]; right; [exists 0%nat, c|exists (S j), c']; split_and!; try done; lia.
      * intros [?|([|j] & c' & Hj & ? & ->)]; [by left; left|left; right; lia|]. right. exists j, c'. split_and!; try done; lia.
    + destruct (Hrn k r0) as (r' & Hr' & Hin); [by rewrite list_lookup_insert_ne|].
      exists r'. split; [done|]. intros x. rewrite Hin. split.
      * intros [?|(j & c' & ? & ? & ->)]; [by left|]. right. exists (S j), c'. split_and!; try done; lia.
      * intros [?|([|j] & c' & Hj & ? & ->)]; [by left| |].
        -- injection Hj as <-. congruence.
        -- right. exists j, c'. split_and!; try done; lia.
Qed.

(** What is assumed of [qsort]. *)
Definition sorts (qsort : list cserver -> list cserver) : Prop :=
  forall l, qsort l ≡ₚ l /\ StronglySorted (fun a b => chash_cmp a b <= 0) (qsort l).

(** The hashes and the peers of a list of nodes, by index. *)
Definition hash_of (l : list cserver) (i : Z) : Z := from_option cs_hash 0 (l !! Z.to_nat i).
Definition peer_index_of (l : list cserver) (i : Z) : nat := from_option rnindex 0%nat (l !! Z.to_nat i).

Lemma sorted_hash_of qsort l c0 :
  sorts qsort -> sorted (Z.of_nat (length (qsort l))) (hash_of (c0 :: qsort l)).
Proof.
  intros Hq i j Hi Hj. destruct (Hq l) as [_ Hs]. unfold hash_of.
  destruct (lookup_lt_is_Some_2 (qsort l) (Z.to_nat (i - 1)) ltac:(lia)) as [a Ha].
  destruct (lookup_lt_is_Some_2 (qsort l) (Z.to_nat (j - 1)) ltac:(lia)) as [b Hb].
  replace (Z.to_nat i) with (S (Z.to_nat (i - 1))) by lia. replace (Z.to_nat j) with (S (Z.to_nat (j - 1))) by lia.
  change ((c0 :: qsort l) !! S ?k) with (qsort l !! k). rewrite Ha, Hb. cbn [from_option].
  assert (a = b \/ chash_cmp a b <= 0) as [->|Hle]; [|done|].
  { assert (Z.to_nat (i - 1) <= Z.to_nat (j - 1))%nat as Hij by lia. revert Ha Hb Hij.
    generalize (Z.to_nat (i - 1)), (Z.to_nat (j - 1)). clear -Hs.
    induction Hs as [|x l' Hs IH Hx]; intros m k Ha Hb Hmk; [done|].
    destruct m as [|m], k as [|k]; [left; cbn in *; congruence| |lia|].
    - right. injection Ha as ->. rewrite Forall_lookup in Hx. by eapply Hx.
    - apply (IH m k); [done|done|lia]. }
  unfold chash_cmp in Hle. destruct (Z.gtb_spec (cs_hash a) (cs_hash b)); [done|lia].
Qed.

(** The numbered nodes of a sorted list [q], behind the unused element 0, satisfy the
    invariant. *)
Lemma circle_wf ps q cs ds rn t c0 d0 :
  let n := Z.of_nat (length q) in
  let c := mk_chash n [] t rn (c0 :: cs) (d0 :: ds) ps in
  1 <= n < 2 ^ 31 ->
  Forall (fun c => cs_down c = false /\ cs_peer c = Some (rnindex c) /\ (rnindex c < length ps)%nat) q ->
  (forall j c, q !! j = Some c ->
     cs !! j = Some (c <| cs_index := 1 + Z.of_nat j |>) /\ ds !! j = Some (mk_ds 0 (1 + Z.of_nat j))) ->
  (forall k, (k < length ps)%nat -> exists r, rn !! k = Some r /\
     forall x, x ∈ r <-> exists j c, q !! j = Some c /\ rnindex c = k /\ x = 1 + Z.of_nat j) ->
  represents n t (list_to_set (seqZ 1 n)) ->
  wf n (hash_of (ch_servers c)) (peer_index_of (ch_servers c)) (fun _ => false) (fun _ => 0) c /\
  forall i, 1 <= i <= n -> hash_of (ch_servers c) i = hash_of (c0 :: q) i.
Proof.
  intros n c Hn Hf Hcs Hrn Hrep. cbn [ch_servers c].
  assert (forall i, 1 <= i <= n -> exists c, q !! Z.to_nat (i - 1) = Some c /\ (c0 :: q) !! Z.to_nat i = Some c /\
    (c0 :: cs) !! Z.to_nat i = Some (c <| cs_index := i |>) /\ (d0 :: ds) !! Z.to_nat i = Some (mk_ds 0 i) /\
    cs_down c = false /\ cs_peer c = Some (rnindex c) /\ (rnindex c < length ps)%nat) as Hget.
  { intros i Hi. destruct (lookup_lt_is_Some_2 q (Z.to_nat (i - 1)) ltac:(lia)) as [b Hb]. exists b.
    destruct (Hcs _ _ Hb) as [E1 E2]. replace (1 + Z.of_nat (Z.to_nat (i - 1))) with i in * by lia.
    replace (Z.to_nat i) with (S (Z.to_nat (i - 1))) by lia. rewrite Forall_lookup in Hf.
    destruct (Hf _ _ Hb) as (? & ? & ?). by split_and!. }
  split; [|intros i Hi; destruct (Hget i Hi) as (b & _ & E & E1 & _); unfold hash_of; by rewrite E, E1].
  constructor; cbn [ch_number ch_servers d_servers ch_peers real_node ch_tree down_servers].
  - split; [done|lia].
  - intros i Hi. destruct (Hget i Hi) as (b & _ & _ & E1 & _ & Hd & Hp & _). unfold server_at, hash_of, peer_index_of.
    rewrite E1. cbn [from_option]. by destruct b; cbn in *; subst.
  - intros i Hi. by destruct (Hget i Hi) as (b & _ & _ & _ & E2 & _).
  - intros i Hi. destruct (Hget i Hi) as (b & _ & _ & E1 & _ & _ & _ & Hr). unfold peer_index_of. by rewrite E1.
  - intros i Hi. destruct (Hget i Hi) as (b & _ & _ & E1 & _ & _ & _ & Hr). unfold peer_index_of at 1. rewrite E1.
    cbn [from_option]. destruct (Hrn (rnindex b) Hr) as (r & Hr' & Hin).
    exists r. split; [exact Hr'|]. intros j. rewrite Hin. unfold peer_index_of. rewrite E1. cbn [from_option]. split.
    + intros (k & b' & Hk & Hkr & ->). pose proof (lookup_lt_Some _ _ _ Hk). split; [lia|].
      destruct (Hget (1 + Z.of_nat k) ltac:(lia)) as (b'' & Hb & _ & E & _).
      rewrite E. replace (Z.to_nat (1 + Z.of_nat k - 1)) with k in Hb by lia. simplify_eq. exact Hkr.
    + intros [Hj Hjr]. destruct (Hget j Hj) as (b' & Hb & _ & E & _). rewrite E in Hjr.
      exists (Z.to_nat (j - 1)), b'. split_and!; [done|exact Hjr|lia].
  - eexists. split; [exact Hrep|]. intros i Hi. rewrite elem_of_list_to_set, elem_of_seqZ. split; [done|lia].
  - split; [constructor|]. intros i. split; [|by intros [_ ?]]. intros Hi. by apply not_elem_of_nil in Hi.
Qed.

Lemma init_nodes_spec qsort mem ps :
  sorts qsort -> Forall (fun p => named p /\ 1 <= weight p) ps -> ps <> [] -> servers_room ps < 2 ^ 31 -> (7 <= mem)%nat ->
  exists c, init_nodes qsort mem ps = Some (NGX_OK, Some c) /\
    wf (ch_number c) (hash_of (ch_servers c)) (peer_index_of (ch_servers c)) (fun _ => false) (fun _ => 0) c /\
    sorted (ch_number c) (hash_of (ch_servers c)) /\ ch_peers c = ps /\ length (tail (ch_servers c)) = Z.to_nat (ch_number c) /\
    forall k p, ps !! k = Some p -> nodes_of k (tail (ch_servers c)) = node_weight p.
Proof.
  intros Hq Hps Hne Hroom Hmem. unfold init_nodes. destruct (Nat.ltb_spec mem 4); [lia|].
  destruct (all_nodes_spec ps 0 Hps) as (l & -> & Hf & Hl & Hc). cbn [mbind option_bind].
  destruct (Z.gtb_spec (Z.of_nat (length l)) (servers_room ps)); [lia|].
  destruct (Nat.ltb_spec mem 5); [lia|]. destruct (Hq l) as [Hperm _].
  pose proof (Permutation_length Hperm) as Hlen. assert (1 <= length ps)%nat by (destruct ps; [done|cbn; lia]).
  destruct (number_nodes_spec ps (qsort l) 1 (replicate (length ps) [])) as (cs & ds & rn & -> & Hcs & Hcnt & Hlcs & Hrn).
  { apply length_replicate. }
  { rewrite Hperm. eapply list.Forall_impl; [exact Hf|]. cbn. lia. }
  { intros k p r Hp Hr. apply lookup_replicate in Hr as [-> _]. rewrite (nodes_of_perm _ _ _ Hperm). cbn [length].
    change k with (0 + k)%nat. rewrite (Hc k p Hp). rewrite Forall_lookup in Hps. destruct (Hps k p Hp) as [_ Hw].
    pose proof (node_weight_room p Hw). lia. }
  cbn [mbind option_bind]. destruct (Nat.ltb_spec mem 6); [lia|]. rewrite (proj2 (Nat.leb_le 7 mem)) by lia.
  rewrite <- Hlen in *. set (n := Z.of_nat (length (qsort l))) in *.
  destruct (represents_build n (list_to_set (seqZ 1 n))) as (t0 & t & -> & Hb & Hrep).
  { unfold NGX_MAX_UINT32_VALUE. lia. } { intros i Hi. rewrite elem_of_list_to_set, elem_of_seqZ. lia. }
  cbn [snd mbind option_bind]. rewrite Hb. cbn [mbind option_bind]. eexists. split; [done|].
  set (c0 := mk_cs false 0 0 0 None).
  destruct (circle_wf ps (qsort l) cs ds rn t c0 (mk_ds 0 0)) as [Hwf Hh]; try done; [lia| | |].
  { rewrite Hperm. eapply list.Forall_impl; [exact Hf|]. cbn. intros c (? & ? & ?). split_and!; [done|done|lia]. }
  { intros k Hk. destruct (Hrn k []) as (r & Hr & Hin); [by apply lookup_replicate|]. exists r. split; [done|].
    intros x. rewrite Hin. set_solver. }
  split; [exact Hwf|]. split; [|split; [done|split; [cbn [ch_number ch_servers tail]; lia|]]].
  - intros i j Hi Hj. cbn [ch_number ch_servers] in *. rewrite !Hh by lia. by apply sorted_hash_of.
  - intros k p Hk. cbn [ch_servers tail]. rewrite Hcnt, (nodes_of_perm _ _ _ Hperm). by apply (Hc k p).
Qed.

(** ** The balancer in use *)

Section Use.
Context (check_peer_down : Z -> bool).

(** The requests of an upstream: choosing a peer, and reporting how a request ended.  The
    counter of failures has 64 bits. *)
Inductive step (s s' : chash) : Prop :=
| step_get junk now d pc rc d' pc' :
    get_chash_peer check_peer_down junk now s d pc = Some (rc, s', d', pc') -> step s s'
| step_free d failed :
    (forall i, cp_server d = Some i -> 1 <= i <= ch_number s) ->
    (forall p, p ∈ ch_peers s -> 0 <= fails p < 2 ^ 64 - 1) ->
    free_chash_peer s d failed = Some s' -> step s s'.

(** The invariant, for nodes with the hashes [h] and the peers [rn]. *)
Definition inv (n : Z) (h : Z -> Z) (rn : Z -> nat) (len : nat) (s : chash) : Prop :=
  length (ch_peers s) = len /\ exists dn tm, wf n h rn dn tm s /\ grouped n rn dn tm /\
    coherent check_peer_down n rn (ch_peers s) dn.

Context (Hcheck : forall c, check_peer_down c = false).

Lemma free_inv n h rn len s s' d failed :
  inv n h rn len s -> (forall i, cp_server d = Some i -> 1 <= i <= ch_number s) ->
  (forall p, p ∈ ch_peers s -> 0 <= fails p < 2 ^ 64 - 1) ->
  free_chash_peer s d failed = Some s' -> inv n h rn len s'.
Proof.
  intros (Hlen & dn & tm & Hw & Hg & Hco) Hd Hfails Hrun. unfold free_chash_peer in Hrun.
  destruct (cp_server d) as [i|]; [|injection Hrun as <-; split; [done|]; by exists dn, tm].
  destruct failed; [|injection Hrun as <-; split; [done|]; by exists dn, tm].
  destruct (wf_number Hw) as [Hnum Hn]. specialize (Hd i eq_refl). rewrite Hnum in Hd.
  rewrite (wf_servers Hw i Hd) in Hrun. cbn [mbind option_bind cs_peer] in Hrun.
  destruct (wf_peer n h rn dn tm s i Hw Hd) as [p Hp]. rewrite Hp in Hrun. cbn [mbind option_bind] in Hrun.
  injection Hrun as <-. split; [exact (eq_trans (length_insert _ _ _) Hlen)|]. exists dn, tm. split; [|split; [done|]].
  - constructor; try apply Hw. intros j Hj. pose proof (wf_rn Hw j Hj) as Hr.
    by refine (eq_ind_r (fun l => (rn j < l)%nat) _ (length_insert _ _ _)).
  - intros j q Hj Hdn Hq. change (<[rn i := p <| fails := u64 (fails p + 1) |>]> (ch_peers s) !! rn j = Some q) in Hq.
    destruct (decide (rn i = rn j)) as [He|Hne].
    + rewrite <- He, list_lookup_insert_eq in Hq by (by eapply lookup_lt_Some). injection Hq as <-.
      pose proof (Hco j p Hj Hdn ltac:(by rewrite <- He)) as Hu. unfold unusable in *.
      destruct (Hfails p) as [? ?]; [by eapply list_elem_of_lookup_2|].
      change (check_peer_down (check_index p) || (u64 (fails p + 1) >? max_fails p) || down p = true).
      rewrite u64_small, Hcheck in * by lia. destruct (down p); [apply orb_true_r|]. rewrite orb_false_r in *. cbn [orb] in *. lia.
    + rewrite list_lookup_insert_ne in Hq by done. by eapply Hco.
Qed.

Lemma step_inv n h rn len s s' : inv n h rn len s -> step s s' -> inv n h rn len s'.
Proof.
  intros Hinv [junk now d pc rc d' pc' Hrun|d failed Hd Hf Hrun]; [|by eapply free_inv].
  destruct Hinv as (Hlen & dn & tm & Hw & Hg & Hco).
  destruct (get_chash_peer_spec check_peer_down junk n h rn now dn tm s d pc Hw Hg Hcheck Hco)
    as (rc1 & s1 & d1 & pc1 & dn1 & tm1 & Hrun1 & Hw1 & Hg1 & Hco1 & Hl1 & _).
  rewrite Hrun in Hrun1. simplify_eq. split; [congruence|]. by exists dn1, tm1.
Qed.

Lemma steps_inv n h rn len s s' : rtc step s s' -> inv n h rn len s -> inv n h rn len s'.
Proof. induction 1 as [|s s1 s' Hs _ IH]; [done|]. intros Hi. apply IH. by eapply step_inv. Qed.
End Use.

(** Every peer has a node. *)
Lemma peer_has_node ps c :
  (forall k p, ps !! k = Some p -> nodes_of k (tail (ch_servers c)) = node_weight p) ->
  Forall (fun p => named p /\ 1 <= weight p) ps ->
  wf (ch_number c) (hash_of (ch_servers c)) (peer_index_of (ch_servers c)) (fun _ => false) (fun _ => 0) c ->
  length (tail (ch_servers c)) = Z.to_nat (ch_number c) ->
  forall k, (k < length ps)%nat -> exists i, 1 <= i <= ch_number c /\ peer_index_of (ch_servers c) i = k.
Proof.
  intros Hc Hps Hw Hlen k Hk. destruct (lookup_lt_is_Some_2 ps k Hk) as [p Hp].
  rewrite Forall_lookup in Hps. destruct (Hps k p Hp) as [_ Hwt]. pose proof (node_weight_room p Hwt) as [Hr _].
  specialize (Hc k p Hp). unfold nodes_of in Hc.
  destruct (List.filter (of_peer k) (tail (ch_servers c))) as [|x l] eqn:E; [cbn in Hc; lia|].
  assert (In x (List.filter (of_peer k) (tail (ch_servers c)))) as Hin by (rewrite E; by left).
  apply filter_In in Hin as [Hin Hx]. apply list_elem_of_In, list_elem_of_lookup in Hin as [j Hj].
  pose proof (lookup_lt_Some _ _ _ Hj). exists (Z.of_nat (S j)). split; [lia|]. unfold peer_index_of. rewrite Nat2Z.id.
  assert (ch_servers c !! S j = Some x) as -> by (destruct (ch_servers c); [done|exact Hj]). by apply Nat.eqb_eq.
Qed.

(** What the configuration must provide: servers with a weight and a name of an
    address, fewer than 2^31 virtual nodes, and memory. *)
Definition configured (ps : list peer_t) (mem : nat) : Prop :=
  Forall (fun p => named p /\ 1 <= weight p) ps /\ ps <> [] /\ servers_room ps < 2 ^ 31 /\ (7 <= mem)%nat.

(** Building the circle succeeds inside its arrays and gives every peer its virtual
    nodes (160 for each unit of weight, at most 16384), sorted by hash; the binary
    search then ends for every hash at its owner, the node with that hash or the
    first one behind it on the circle. *)
Theorem chash_circle qsort ps mem hash :
  sorts qsort -> configured ps mem ->
  exists c i, init_nodes qsort mem ps = Some (NGX_OK, Some c) /\
    (forall k p, ps !! k = Some p -> nodes_of k (tail (ch_servers c)) = node_weight p) /\
    sorted (ch_number c) (hash_of (ch_servers c)) /\
    get_server_index (ch_servers c) (ch_number c) hash = Some i /\ 1 <= i <= ch_number c /\
    owner (ch_number c) (hash_of (ch_servers c)) hash i.
Proof.
  intros Hq (Hps & Hne & Hroom & Hmem). destruct (init_nodes_spec qsort mem ps Hq Hps Hne Hroom Hmem) as (c & Hc & Hw & Hs & _ & _ & Hn).
  destruct (wf_number Hw) as [_ Hnum].
  destruct (get_server_index_spec (ch_number c) (hash_of (ch_servers c)) (ch_servers c) hash) as (i & Hi & Hr & Ho);
    [by eapply wf_hashes|done|]. exists c, i. split_and!; try done; [lia|lia|by apply Ho].
Qed.

(** C22: Whatever requests were served before, choosing a peer ends and stays inside the
    arrays, the tree and the queue of down servers.  It gives a live node of a
    usable peer, and the owner of the request's hash if the owner's peer is usable;
    [NGX_BUSY] only if no peer of the upstream is usable.  This is without the health check
    module, which takes no peer for down (with it, see [recovered_peer_busy]); the times of
    down servers that have passed are dealt with first. *)
Theorem chash_get_correct check_peer_down qsort ps mem c s junk now d pc :
  (forall i, check_peer_down i = false) -> sorts qsort -> configured ps mem ->
  init_nodes qsort mem ps = Some (NGX_OK, Some c) -> rtc (step check_peer_down) c s ->
  exists rc s' d' pc', get_chash_peer check_peer_down junk now s d pc = Some (rc, s', d', pc') /\
    ((rc = NGX_OK /\ exists i o node p, cp_server d' = Some i /\ server_at (ch_servers s') i = Some node /\
        cs_down node = false /\ peer_of s' node = Some p /\ unusable check_peer_down p = false /\
        pc_name pc' = p_name p /\ pc_sockaddr pc' = p_sockaddr p /\ pc_socklen pc' = p_socklen p /\
        get_server_index (ch_servers c) (ch_number c) (cp_hash d) = Some o /\
        (forall no q, server_at (ch_servers s') o = Some no -> peer_of s' no = Some q ->
           unusable check_peer_down q = false -> i = o)) \/
     (rc = NGX_BUSY /\ forall p, p ∈ ch_peers s' -> unusable check_peer_down p = true)).
Proof.
  intros Hck Hq (Hps & Hne & Hroom & Hmem) Hc Hsteps.
  destruct (init_nodes_spec qsort mem ps Hq Hps Hne Hroom Hmem) as (c' & Hc' & Hw0 & _ & Hpc & Hlc & Hcnt).
  rewrite Hc in Hc'. simplify_eq.
  pose proof (peer_has_node (ch_peers c') c' Hcnt Hps Hw0 Hlc) as Hnode.
  destruct (steps_inv check_peer_down Hck (ch_number c') (hash_of (ch_servers c')) (peer_index_of (ch_servers c'))
    (length (ch_peers c')) c' s Hsteps) as (Hlen & dn & tm & Hw & Hg & Hco).
  { split; [reflexivity|]. eexists _, _. split; [exact Hw0|]. split; [done|]. intros j p _ Hd. done. }
  destruct (get_chash_peer_spec check_peer_down junk _ _ _ now dn tm s d pc Hw Hg Hck Hco)
    as (rc & s' & d' & pc' & dn' & tm' & Hrun & Hw' & _ & _ & Hl' & Hres).
  exists rc, s', d', pc'. split; [done|]. destruct Hres as [(-> & i & o & p & Hs & Hi & Hd & Hp & Hu & E1 & E2 & E3 & Ho & Howner)|(-> & _ & Hall)].
  - left. split; [done|]. exists i, o. eexists _, p. split; [done|]. split; [by apply (wf_servers Hw')|]. split; [done|].
    split; [exact Hp|]. do 4 (split; [done|]). destruct (wf_number Hw0) as [_ Hnum].
    rewrite (get_server_index_ext (ch_number c') (hash_of (ch_servers c')) (ch_servers c') (ch_servers s));
      [|by eapply wf_hashes|by eapply wf_hashes|done].
    split; [done|]. intros no q Hno Hpq Hq'. apply (Howner q); [|done].
    destruct (get_server_index_spec _ _ (ch_servers s) (cp_hash d) (wf_hashes _ _ _ _ _ _ Hw) Hnum) as (o' & Ho' & Hor & _).
    rewrite Ho in Ho'. simplify_eq. rewrite (wf_servers Hw' _ Hor) in Hno. injection Hno as <-. exact Hpq.
  - right. split; [done|]. intros p Hp. apply list_elem_of_lookup in Hp as [k Hk].
    pose proof (lookup_lt_Some _ _ _ Hk). destruct (Hnode k ltac:(lia)) as (i & Hi & <-). by eapply Hall.
Qed.

(** ** A sort, and examples *)

Definition hash_le (a b : cserver) : Prop := cs_hash a <= cs_hash b.

#[export] Instance hash_le_dec : RelDecision hash_le.
Proof. intros a b. unfold hash_le. apply _. Defined.

Definition sort_nodes (l : list cserver) : list cserver := merge_sort hash_le l.

Lemma sort_nodes_sorts : sorts sort_nodes.
Proof.
  intros l. split; [apply merge_sort_Permutation|].
  assert (Total hash_le) by (intros a b; unfold hash_le; lia).
  assert (Transitive hash_le) by (intros a b c; unfold hash_le; lia).
  pose proof (StronglySorted_merge_sort hash_le l) as Hs. unfold sort_nodes. induction Hs as [|a k Hs IH Ha]; constructor; [done|].
  eapply list.Forall_impl; [exact Ha|]. intros b. unfold hash_le, chash_cmp. cbn.
  destruct (Z.gtb_spec (cs_hash a) (cs_hash b)); [lia|]. by destruct (_ =? _).
Qed.

Definition demo_peer (name : list Z) (is_down : bool) : peer_t :=
  mk_peer None 0 name [] [] 0 1 1 0 0 0 1 10 0 is_down.
Definition demo_peers : list peer_t := [demo_peer (bs "10.0.0.1:80") false; demo_peer (bs "10.0.0.2:80") false].
Definition demo_pc : pc_t := mk_pc None 0 [] [] 1 false None.

Lemma demo_configured : configured demo_peers 7.
Proof. split_and!; [|done|done|done]. repeat constructor; cbn; (lia || done). Qed.

Lemma chash_circle_witness :
  exists c i, init_nodes sort_nodes 7 demo_peers = Some (NGX_OK, Some c) /\
    nodes_of 1 (tail (ch_servers c)) = 160 /\ get_server_index (ch_servers c) (ch_number c) 5 = Some i /\
    owner (ch_number c) (hash_of (ch_servers c)) 5 i.
Proof.
  destruct (chash_circle sort_nodes demo_peers 7 5 sort_nodes_sorts demo_configured) as (c & i & H1 & H2 & _ & H4 & _ & H6).
  exists c, i. split; [exact H1|]. split; [exact (H2 1%nat _ eq_refl)|]. split; [exact H4|exact H6].
Defined.

Lemma chash_get_correct_witness :
  exists c rc s' d' pc', init_nodes sort_nodes 7 demo_peers = Some (NGX_OK, Some c) /\
    get_chash_peer (fun _ => false) 0 100 c (mk_cpd 5 None) demo_pc = Some (rc, s', d', pc') /\
    (rc = NGX_OK \/ forall p, p ∈ ch_peers s' -> unusable (fun _ => false) p = true).
Proof.
  destruct (init_nodes_spec sort_nodes 7 demo_peers sort_nodes_sorts) as (c & Hc & _); [apply demo_configured..|].
  destruct (chash_get_correct (fun _ => false) sort_nodes demo_peers 7 c c 0 100 (mk_cpd 5 None) demo_pc)
    as (rc & s' & d' & pc' & Hrun & Hres).
  - reflexivity.
  - exact sort_nodes_sorts.
  - exact demo_configured.
  - exact Hc.
  - apply rtc_refl.
  - exists c, rc, s', d', pc'. split; [exact Hc|]. split; [exact Hrun|].
    destruct Hres as [[-> _]|[_ H]]; [left; reflexivity|right; exact H].
Defined.

(** The results of requests with the hash 5, each with a time and the health check's opinion. *)
Definition demo_run (ps : list peer_t) (reqs : list (Z * (Z -> bool))) : option (list Z) :=
  '(_, c) ← init_nodes sort_nodes 7 ps; c ← c;
  '(rcs, _) ← foldl (fun acc '(now, check) =>
    '(rcs, s) ← acc;
    '(rc, s, _, _) ← get_chash_peer check 0 now s (mk_cpd 5 None) demo_pc;
    Some (rcs ++ [rc], s)) (Some ([], c)) reqs;
  Some rcs.

(** The identifiers of nodes with different [id]s overlap from the node 4096 of a peer on. *)
Lemma node_ids_overlap sid j : node_hash sid (4096 + j) = node_hash (sid + 1) j.
Proof. unfold node_hash. do 4 f_equal. lia. Qed.

(** A server marked [down] in the configuration is used when [fail_timeout] has passed. *)
Example down_server_comes_up :
  demo_run [demo_peer (bs "10.0.0.1:80") true] [(100, fun _ => false); (110, fun _ => false)] = Some [NGX_BUSY; NGX_OK].
Proof. vm_compute. reflexivity. Qed.

(** A peer that the health check reports as up again before [fail_timeout] has
    passed makes its requests fail, though the other peer is usable. *)
Example recovered_peer_busy :
  demo_run [demo_peer (bs "10.0.0.1:80") false; (demo_peer (bs "10.0.0.2:80") false) <| check_index := 1 |>]
    [(100, fun i => i =? 0); (101, fun _ => false)] = Some [NGX_OK; NGX_BUSY].
Proof. vm_compute. reflexivity. Qed.

End ConsistentHash.
