(* ===== verification/QkUpstream.v ===== *)
(** * Dynamic upstreams of the QKPack module

    [src/module_qkpack/src/qkupstream/]: the registry of upstream servers and
    peers ([ngx_upstream_util.c]), the node balancer that extends it while
    requests are served ([ngx_http_qkupstream_node_module.c]).

    The registry is a client of the interface [UrlParser], which [inet_parser], the
    [ngx_parse_url] of [NgxInet], implements.  The plugin behind
    [ngx_http_qkupstream_process_reinit_request] (C++) and [rand] are parameters.
    [None] as the result of an operation is undefined behaviour of the C code: a
    [NULL] dereference, a read of uninitialised memory or outside a buffer, or a
    division by zero. *)

From stdpp Require Import relations.
From S2P Require Import Prelude NgxString Sprintf NgxInet RoundRobin.

Module QkUpstream.
Import NgxString Sockaddr RoundRobin.

(** [a.len == b.len && ngx_memcmp(a.data, b.data, len) == 0] *)
Definition str_eqb (a b : str) : bool := bool_decide (a = b).

(** ** The registry *)

(** The zeroed element of [ngx_array_push] and [ngx_memzero]. *)
Definition server_zero : server_t := mk_server [] [] [] 0 0 0 false false.

(** [umcf->upstreams] *)
Abbreviation registry := (list upstream_t).

(** [ngx_http_qkupstream_find_upstream]: the position of the upstream. *)
Definition find_upstream (g : registry) (name : str) : option (nat * upstream_t) :=
  list_find (fun u => str_eqb (host u) name = true) g.

(** [ngx_http_qkupstream_compare_server] *)
Definition has_addr (name : str) (s : server_t) : bool :=
  existsb (fun a => str_eqb (a_name a) name) (s_addrs s).

Definition compare_server (u : upstream_t) (url : str) : option server_t :=
  match servers u with
  | None => None
  | Some ss => List.find (has_addr url) ss
  end.

(** [ngx_http_qkupstream_exist_peer] *)
Definition exist_peer (ps : option peers_t) (url : str) : bool :=
  match ps with
  | None => false
  | Some ps => existsb (fun p => str_eqb (p_name p) url) (peer ps)
  end.

(** [ngx_http_qkupstream_get_peers] *)
Definition get_peers (g : registry) (upstream_name upstream_ip : str) : option peer_t :=
  if bool_decide (upstream_name = [] \/ upstream_ip = []) then None
  else match find_upstream g upstream_name with
       | None => None
       | Some (_, u) =>
           match peer_data u with
           | None => None
           | Some ps => List.find (fun p => str_eqb (p_name p) upstream_ip) (peer ps)
           end
       end.

(** [ngx_http_qkupstream_upstream_add] *)
Definition upstream_add (g : registry) (url_host : str) (url_port url_default_port : Z)
    : option upstream_t :=
  List.find (fun u =>
    (length (host u) =? length url_host)%nat &&
    (ngx_strncasecmp (host u) url_host (length url_host) =? 0) &&
    (port u =? url_port) &&
    negb (negb (default_port u =? 0) && negb (url_default_port =? 0) &&
          negb (default_port u =? url_default_port))) g.

(** What [ngx_parse_url] leaves in an [ngx_url_t]. *)
Record url_t : Type := mk_url { url_rc : Z; url_err : bool; url_host : str; url_addrs : list addr_t }.

(** The interface of the URL parser and what its clients rely on: an address
    [a.b.c.d:port] is accepted and named as it was written. *)
Class UrlParser : Type := ngx_parse_url : str -> option url_t.

Class UrlParserNames (P : UrlParser) (is_addr : str -> Prop) : Prop :=
  parse_addr : forall ip, is_addr ip ->
    exists u a, ngx_parse_url ip = Some u /\ url_rc u = NGX_OK /\ url_addrs u = [a] /\
      a_name a = ip /\ is_Some (a_sockaddr a).

(** [ngx_parse_url] as the registry calls it: without a URI and without resolving
    names. *)
Definition inet_parser (room : nat) (resolve : str -> option (list (sockaddr * Z))) (behind : str)
    (mem : nat) : UrlParser := fun ip =>
  '(rc, u) ← NgxInet.ngx_parse_url room resolve mem (NgxInet.url_init ip behind 80 false false true);
  Some (mk_url rc (match NgxInet.err u with Some _ => true | None => false end) (NgxInet.host u)
          (NgxInet.addrs u)).

(** The addresses requests name: four octets and a port. *)
Definition node_addr (room : nat) (ip : str) : Prop :=
  (length ip <= room)%nat /\ exists h p, NgxInet.addr_url ip h p.

#[export] Instance inet_parser_names room resolve behind mem :
  UrlParserNames (inet_parser room resolve behind (S (S (S mem)))) (node_addr room).
Proof.
  intros ip [Hl (h & p & Hu)].
  destruct (NgxInet.parse_addr_url room resolve (S (S (S mem))) ip h p
    (NgxInet.url_init ip behind 80 false false true) Hu Hl ltac:(lia) eq_refl) as (u & E & Ha & _ & Hh & _ & _ & Hr).
  unfold ngx_parse_url, inet_parser. rewrite E. cbn [mbind option_bind]. eexists _, _. split; [reflexivity|].
  cbn [url_rc url_addrs]. rewrite Ha. split; [done|]. split; [done|]. split; [done|]. by eexists.
Qed.

Section Registry.
Context `{P : UrlParser}.

Definition set_upstream (g : registry) (i : nat) (u : upstream_t) : registry := <[i := u]> g.

(** [ngx_http_qkupstream_add_server]; [mem] tells whether [ngx_array_push] gets
    its memory; the copy of the address before it is taken to be allocated. *)
Definition add_server (mem : bool) (g : registry) (upstream_name upstream_ip : str)
    : option (Z * registry) :=
  if bool_decide (upstream_name = [] \/ upstream_ip = []) then Some (NGX_ERROR, g)
  else
    match find_upstream g upstream_name with
    | None => Some (NGX_ERROR, g)
    | Some (i, uscf) =>
        match servers uscf with
        | None => None                   (* uscf->servers->pool *)
        | Some ss =>
            if bool_decide (is_Some (compare_server uscf upstream_ip)) then Some (NGX_ERROR, g)
            else if bool_decide (ss = []) then Some (NGX_ERROR, g)
            else
              u ← ngx_parse_url upstream_ip;
              if negb (url_rc u =? NGX_OK) && url_err u then Some (NGX_ERROR, g)
              else if negb mem then Some (NGX_ERROR, g)
              else
                let push s := set_upstream g i (uscf <| servers := Some (ss ++ [s]) |>) in
                match url_addrs u with
                | a :: _ =>
                    match a_sockaddr a with
                    | Some _ =>
                        Some (NGX_OK, push (mk_server (url_host u) [] (url_addrs u) 0 6 0 false false))
                    | None => Some (NGX_ERROR, push server_zero)
                    end
                | [] => Some (NGX_ERROR, push server_zero)
                end
        end
    end.

(** [ngx_http_qkupstream_add_peer]; the array of peers is extended in place or
    copied by [ngx_prealloc_and_delay], which fails when [mem] is clear. *)
Definition add_peer (mem : bool) (g : registry) (upstream_name upstream_ip : str)
    : option (Z * registry) :=
  if bool_decide (upstream_name = [] \/ upstream_ip = []) then Some (NGX_ERROR, g)
  else
    match find_upstream g upstream_name with
    | None => Some (NGX_ERROR, g)
    | Some (i, uscf) =>
        match compare_server uscf upstream_ip with
        | None => Some (NGX_ERROR, g)
        | Some us =>
            if exist_peer (peer_data uscf) upstream_ip then Some (NGX_ERROR, g)
            else if negb mem then Some (NGX_ERROR, g)
            else
              match peer_data uscf, s_addrs us with
              | Some ps, a :: _ =>
                  let p := mk_peer (a_sockaddr a) (a_socklen a) (a_name a) (s_id us) (s_host us)
                             0 (s_weight us) (s_weight us) 0 0 0 (s_max_fails us)
                             (s_fail_timeout us) 0 (s_down us) in
                  let l := peer ps ++ [p] in
                  let n := Z.of_nat (length l) in
                  let tw := u64 (total_weight ps + weight p) in
                  let ps := ps <| peer := l |> <| total_weight := tw |> <| single := n =? 1 |>
                               <| weighted := negb (tw =? n) |> in
                  Some (NGX_OK, set_upstream g i (uscf <| peer_data := Some ps |>))
              | _, _ => None               (* peers->number is not initialised *)
              end
        end
    end.
End Registry.

(** ** The node balancer *)

Definition QKUPSTREAM_OK : Z := 0.
Definition QKUPSTREAM_MOVED : Z := 2.
Definition QKUPSTREAM_ASK : Z := 3.
Definition QKUPSTREAM_ASKING : Z := 4.
Definition QKUPSTREAM_ASKING_END : Z := 5.

(** The fields of [ngx_http_qkpack_ctx_t] the upstream side uses. *)
Record ctx_t : Type := mk_ctx {
  moved_ask : Z;
  has_processed : bool;
  request_buffer : str;
  response_buffer : str;
  upstream_name : str;
  upstream_ip : str;
  tries : Z
}.

#[export] Instance eta_ctx : Eta ctx_t := fun c =>
  mk_ctx (moved_ask c) (has_processed c) (request_buffer c) (response_buffer c)
    (upstream_name c) (upstream_ip c) (tries c).

(** [ngx_http_qkupstream_node_peer_data_t] *)
Record node_t : Type := mk_node { hp_rrp : rrp_t; key : str; hp_tries : Z }.

#[export] Instance eta_node : Eta node_t := fun n => mk_node (hp_rrp n) (key n) (hp_tries n).

(** [ngx_strncmp(a, b, n) != 0] on strings that end where their list ends. *)
Definition strncmp_differs (a b : str) (n : nat) : bool := negb (bool_decide (take n a = take n b)).

Definition default_server : str := bs "0.0.0.0:80".
Definition backup_server : str := bs "127.0.0.1:8010".

(** The test that ends the search for another node. *)
Definition rand_node_ok (key : str) (p : peer_t) : bool :=
  strncmp_differs (p_name p) key (length key) &&
  strncmp_differs (p_name p) default_server (length default_server) &&
  strncmp_differs (p_name p) backup_server (length backup_server).

(** The loop of [ngx_http_upstream_update_nodes]: [count] and [rand_num] start
    with what the stack contains, [rands] are the results of [rand]. *)
Fixpoint rand_node_loop (rands : list Z) (ps : list peer_t) (key : str) (count rand_num : Z)
    : option Z :=
  let count := u64 (count + 1) in
  if count >=? 10 then Some rand_num
  else
    match rands with
    | [] => None
    | x :: rands' =>
        match ps with
        | [] => None                       (* rand() % 0 *)
        | _ =>
            let n := x mod Z.of_nat (length ps) in
            match ps !! Z.to_nat n with
            | None => None
            | Some p => if rand_node_ok key p then Some n
                        else rand_node_loop rands' ps key count n
            end
        end
    end.

Section Node.
Context `{P : UrlParser}.
(** [ngx_http_qkupstream_process_reinit_request] asks the plugin for the node to
    try next. *)
Variable process_reinit_request : ctx_t -> Z * ctx_t.

Definition update_nodes (rands : list Z) (count0 rand0 : Z) (peers : list peer_t)
    (hp : node_t) (ctx : option ctx_t) : option (Z * node_t * option ctx_t) :=
  let reinit hp ctx :=
    let '(rc, ctx) := process_reinit_request (ctx <| tries := hp_tries hp |>) in
    if negb (rc =? NGX_OK) then Some (NGX_ERROR, hp, Some ctx)
    else Some (NGX_OK, hp <| key := upstream_ip ctx |>, Some ctx) in
  match ctx with
  | None => Some (NGX_ERROR, hp, None)
  | Some ctx =>
      if negb (moved_ask ctx =? QKUPSTREAM_OK) then reinit hp ctx
      else
        n ← rand_node_loop rands peers (key hp) count0 rand0;
        p ← peers !! Z.to_nat n;
        reinit (hp <| key := p_name p |>) (ctx <| upstream_ip := p_name p |>)
  end.

(** What the request has when [ngx_http_qkupstream_node_get_peer] is called:
    the clock, the random numbers, the garbage of the two locals, the peers its
    round-robin data points to, and the health check of the stock balancer. *)
Record env_t : Type := mk_env {
  now : Z;
  rands : list Z;
  count0 : Z;
  rand0 : Z;
  rrp_peers : peers_t;
  check_peer_down : Z -> bool;
  mem_ok : bool
}.

(** The result: the code, the registry, the request's data, the connection and
    the context; or the result of the stock balancer on the peers of the
    request. *)
Inductive peer_result : Type :=
| Got (rc : Z) (g : registry) (hp : node_t) (pc : pc_t) (ctx : option ctx_t)
| Balanced (rc : Z) (peers : peers_t) (rrp : rrp_t) (pc : pc_t).

(** [peer->checked = now] in the array the peer is in. *)
Definition touch_peer (now : Z) (name : str) (l : list peer_t) : list peer_t :=
  match list_find (fun p => str_eqb (p_name p) name = true) l with
  | Some (i, p) =>
      if now - checked p >? fail_timeout p then <[i := p <| checked := now |>]> l else l
  | None => l
  end.

Definition touch (now : Z) (g : registry) (name ip : str) : registry :=
  match find_upstream g name with
  | Some (i, u) =>
      match peer_data u with
      | Some ps => <[i := u <| peer_data := Some (ps <| peer := touch_peer now ip (peer ps) |>) |>]> g
      | None => g
      end
  | None => g
  end.

(** The end of the function, with a peer. *)
Definition use_peer (e : env_t) (g : registry) (hp : node_t) (pc : pc_t) (ctx : ctx_t) (p : peer_t)
    : peer_result :=
  let hp := hp <| hp_tries := u64 (hp_tries hp + 1) |> in
  let pc := pc <| pc_sockaddr := p_sockaddr p |> <| pc_socklen := p_socklen p |>
               <| pc_name := p_name p |> in
  Got NGX_OK (touch (now e) g (upstream_name ctx) (upstream_ip ctx)) hp pc (Some ctx).

(** The lookup of the peer, which is added when the upstream does not have it. *)
Definition find_or_add (e : env_t) (g : registry) (hp : node_t) (pc : pc_t) (ctx : ctx_t)
    : option peer_result :=
  match get_peers g (upstream_name ctx) (upstream_ip ctx) with
  | Some p => Some (use_peer e g hp pc ctx p)
  | None =>
      '(_, g) ← add_server (mem_ok e) g (upstream_name ctx) (upstream_ip ctx);
      '(_, g) ← add_peer (mem_ok e) g (upstream_name ctx) (upstream_ip ctx);
      match get_peers g (upstream_name ctx) (upstream_ip ctx) with
      | Some p => Some (use_peer e g hp pc ctx p)
      | None => Some (Got NGX_ERROR g hp pc (Some ctx))
      end
  end.

(** [ngx_http_qkupstream_node_get_peer] *)
Definition node_get_peer (e : env_t) (g : registry) (hp : node_t) (pc : pc_t) (ctx : option ctx_t)
    : option peer_result :=
  match ctx with
  | None => Some (Got NGX_ERROR g hp pc None)
  | Some c =>
      if hp_tries hp >? 50 then
        '(rc, ps, rrp, pc) ← get_round_robin_peer (check_peer_down e) (now e) (rrp_peers e)
                               (hp_rrp hp) pc;
        Some (Balanced rc ps rrp pc)
      else
        let pc := pc <| pc_cached := false |> <| pc_connection := None |> in
        if hp_tries hp >? 0 then
          '(rc, hp, ctx) ← update_nodes (rands e) (count0 e) (rand0 e) (peer (rrp_peers e)) hp
                             (Some c);
          match ctx with
          | Some c => if negb (rc =? NGX_OK) then Some (Got NGX_ERROR g hp pc (Some c))
                      else find_or_add e g hp pc c
          | None => Some (Got NGX_ERROR g hp pc None)
          end
        else find_or_add e g hp pc c
  end.
End Node.

(** ** Lemmas on the searches *)

Lemma str_eqb_true a b : str_eqb a b = true <-> a = b.
Proof. unfold str_eqb. apply bool_decide_eq_true. Qed.

Lemma find_upstream_insert g name i u u' :
  find_upstream g name = Some (i, u) -> host u' = host u ->
  find_upstream (<[i := u']> g) name = Some (i, u').
Proof.
  unfold find_upstream. rewrite !list_find_Some. intros (Hi & Hu & Hlt) Hh.
  pose proof (lookup_lt_Some _ _ _ Hi). split_and!.
  - by apply list_lookup_insert_eq.
  - by rewrite Hh.
  - intros j y Hy Hj. rewrite list_lookup_insert_ne in Hy by lia. by apply (Hlt j).
Qed.

Lemma find_upstream_lookup g name i u :
  find_upstream g name = Some (i, u) -> g !! i = Some u /\ host u = name.
Proof.
  unfold find_upstream. rewrite list_find_Some. intros (Hi & Hu & _).
  by apply str_eqb_true in Hu.
Qed.

Lemma find_snoc {A} (f : A -> bool) l x :
  existsb f l = false -> f x = true -> List.find f (l ++ [x]) = Some x.
Proof.
  induction l as [|y l IH]; cbn; intros H Hx; [by rewrite Hx|].
  apply orb_false_iff in H as [-> H]. by apply IH.
Qed.

Lemma find_existsb {A} (f : A -> bool) l : List.find f l = None <-> existsb f l = false.
Proof.
  induction l as [|y l IH]; cbn; [done|]. destruct (f y); [done|]. exact IH.
Qed.

(** ** The registry stays consistent *)

Definition weights (l : list peer_t) : Z := zsum (weight <$> l).

Definition no_backup (ps : peers_t) : bool := match next ps with None => true | Some _ => false end.

(** The names are distinct and the derived fields are those of the array. *)
Definition wf_peers (ps : peers_t) : Prop :=
  peer ps <> [] /\ NoDup (p_name <$> peer ps) /\ total_weight ps = u64 (weights (peer ps)) /\
  single ps = (number ps =? 1) && no_backup ps /\
  weighted ps = negb (total_weight ps =? number ps).

(** Every server has one address, or none when adding it failed half way. *)
Definition wf_upstream (u : upstream_t) : Prop :=
  (forall ss s, servers u = Some ss -> s ∈ ss -> (length (s_addrs s) <= 1)%nat) /\
  (forall ps, peer_data u = Some ps -> wf_peers ps).

Definition wf_registry (g : registry) : Prop := Forall wf_upstream g.

Lemma wf_set g i u : wf_registry g -> wf_upstream u -> wf_registry (set_upstream g i u).
Proof. intros Hg Hu. by apply Forall_insert. Qed.

Lemma wf_lookup g name i u :
  wf_registry g -> find_upstream g name = Some (i, u) -> wf_upstream u.
Proof.
  intros Hg H. apply find_upstream_lookup in H as [H _]. by apply (Forall_lookup_1 _ _ _ _ Hg H).
Qed.

Lemma compare_server_spec u url s :
  compare_server u url = Some s ->
  exists ss, servers u = Some ss /\ s ∈ ss /\ has_addr url s = true.
Proof.
  unfold compare_server. destruct (servers u) as [ss|]; [|done]. intros H.
  apply List.find_some in H as [H1 H2]. exists ss. by rewrite list_elem_of_In.
Qed.

(** In a consistent registry the address found is the first of its server. *)
Lemma compare_server_addr u url s :
  wf_upstream u -> compare_server u url = Some s ->
  exists a, s_addrs s = [a] /\ a_name a = url.
Proof.
  intros [Hs _] H. apply compare_server_spec in H as (ss & Hss & Hin & Ha).
  specialize (Hs ss s Hss Hin). unfold has_addr in Ha.
  destruct (s_addrs s) as [|a [|b l]]; cbn in *; [done| |lia].
  rewrite orb_false_r in Ha. apply str_eqb_true in Ha. by exists a.
Qed.

Lemma weights_snoc l p : weights (l ++ [p]) = weights l + weight p.
Proof. unfold weights. rewrite fmap_app, zsum_app. cbn. rewrite zsum_cons. unfold zsum. cbn. lia. Qed.

Section RegistryInv.
Context `{P : UrlParser} (is_addr : str -> Prop) `{HP : !UrlParserNames P is_addr}.

Lemma add_server_wf mem g name ip rc g' :
  is_addr ip -> wf_registry g -> add_server mem g name ip = Some (rc, g') -> wf_registry g'.
Proof.
  intros Hip Hg. unfold add_server.
  case_bool_decide; [by intros [= _ <-]|].
  destruct (find_upstream g name) as [[i u]|] eqn:Hf; [|by intros [= _ <-]].
  pose proof (wf_lookup _ _ _ _ Hg Hf) as [Hs Hp].
  destruct (servers u) as [ss|] eqn:Hss; [|done].
  destruct (parse_addr ip Hip) as (v & a & Hv & Hrc & Ha & _ & [sa Hsa]).
  rewrite Hv. cbn [mbind option_bind]. rewrite Hrc, Ha, Hsa. cbn [negb Z.eqb NGX_OK andb].
  do 2 (case_bool_decide; [by intros [= _ <-]|]). destruct mem; intros [= _ <-]; [|done].
  apply wf_set; [done|]. split; [|by destruct u].
  destruct u as [h pt dp sv pd]. cbn in *. subst sv. intros ss' s [= <-].
  rewrite elem_of_app, list_elem_of_singleton. intros [Hin| ->]; [by eapply Hs|done].
Qed.

Lemma add_peer_wf mem g name ip rc g' :
  wf_registry g -> add_peer mem g name ip = Some (rc, g') -> wf_registry g'.
Proof.
  intros Hg. unfold add_peer.
  case_bool_decide; [by intros [= _ <-]|].
  destruct (find_upstream g name) as [[i u]|] eqn:Hf; [|by intros [= _ <-]].
  pose proof (wf_lookup _ _ _ _ Hg Hf) as Hu.
  destruct (compare_server u ip) as [s|] eqn:Hc; [|by intros [= _ <-]].
  destruct (exist_peer (peer_data u) ip) eqn:He; [by intros [= _ <-]|].
  destruct (negb mem); [by intros [= _ <-]|].
  destruct (compare_server_addr u ip s Hu Hc) as (a & Ha & Hn). rewrite Ha.
  destruct Hu as [Hs Hp]. destruct u as [h pt dp sv pd]. cbn in *.
  destruct pd as [ps|]; [|done]. intros [= _ <-]. apply wf_set; [done|].
  split; [done|]. intros ps' [= <-]. destruct (Hp ps eq_refl) as (Hne & Hnd & Htw & _).
  destruct ps as [l pi tw sg w nm nx]. unfold wf_peers, number. cbn in *. split_and!; try done.
  - by destruct l.
  - rewrite fmap_app. apply list.NoDup_app. split; [done|]. split; [|apply NoDup_singleton].
    intros x Hx. cbn. rewrite list_elem_of_singleton. intros ->. rewrite Hn in Hx.
    apply list_elem_of_fmap in Hx as (q & -> & Hq).
    cbn in He. rewrite <- not_true_iff_false in He. apply He, existsb_exists.
    exists q. rewrite <- list_elem_of_In, str_eqb_true. done.
  - rewrite weights_snoc, Htw. cbn. unfold u64, wrap_u. by rewrite Zplus_mod_idemp_l.
  - rewrite (proj2 (Z.eqb_neq _ _)); [done|]. rewrite length_app. cbn. destruct l; [done|cbn; lia].
Qed.
End RegistryInv.

Lemma touch_peer_spec now name l :
  p_name <$> touch_peer now name l = p_name <$> l /\
  weights (touch_peer now name l) = weights l /\ length (touch_peer now name l) = length l.
Proof.
  unfold touch_peer. destruct (list_find _ l) as [[i p]|] eqn:Hf; [|done].
  destruct (_ >? _); [|done]. apply list_find_Some in Hf as (Hi & _ & _).
  rewrite length_insert. split_and!; [| |done].
  - rewrite list_fmap_insert. apply list_insert_id. by rewrite list_lookup_fmap, Hi.
  - unfold weights. f_equal. rewrite list_fmap_insert. apply list_insert_id.
    by rewrite list_lookup_fmap, Hi.
Qed.

Lemma touch_wf now g name ip : wf_registry g -> wf_registry (touch now g name ip).
Proof.
  intros Hg. unfold touch. destruct (find_upstream g name) as [[i u]|] eqn:Hf; [|done].
  pose proof (wf_lookup _ _ _ _ Hg Hf) as [Hs Hp].
  destruct u as [h pt dp sv pd]. cbn in *. destruct pd as [ps|]; [|done].
  apply (wf_set g i); [done|]. split; [done|]. intros ps' [= <-].
  destruct (Hp ps eq_refl) as (H0 & H1 & H2 & H3 & H4).
  destruct ps as [l pi tw sg w nm nx]. cbn in *.
  destruct (touch_peer_spec now ip l) as (E1 & E2 & E3).
  unfold wf_peers, number in *. cbn in *. rewrite E1, E2, E3. split_and!; try done.
  intros E. rewrite E in E3. by destruct l.
Qed.

(** ** Reachable registries *)

Section Reach.
Context `{P : UrlParser} (is_addr : str -> Prop) `{HP : !UrlParserNames P is_addr}.

(** The operations requests perform on the shared registry, in any order. *)
Inductive reg_step : registry -> registry -> Prop :=
| rs_server mem g name ip rc g' :
    is_addr ip -> add_server mem g name ip = Some (rc, g') -> reg_step g g'
| rs_peer mem g name ip rc g' :
    add_peer mem g name ip = Some (rc, g') -> reg_step g g'
| rs_touch now g name ip : reg_step g (touch now g name ip).

Lemma reg_step_wf g g' : wf_registry g -> reg_step g g' -> wf_registry g'.
Proof.
  intros Hg Hs. destruct Hs as [mem g name ip rc g' Hip H|mem g name ip rc g' H|now g name ip].
  - by eapply add_server_wf.
  - by eapply add_peer_wf.
  - by apply touch_wf.
Qed.

Lemma reg_steps_wf g g' : wf_registry g -> rtc reg_step g g' -> wf_registry g'.
Proof. intros Hg H. induction H; [done|]. eauto using reg_step_wf. Qed.

(** ** A request gets its node *)

(** The registry after the two additions has the peer, and only the named
    upstream changed. *)
Lemma add_both g name ip i u ss ps :
  wf_registry g -> is_addr ip -> name <> [] -> ip <> [] ->
  find_upstream g name = Some (i, u) -> servers u = Some ss -> ss <> [] ->
  peer_data u = Some ps -> exist_peer (Some ps) ip = false ->
  exists rc1 g1 g2 p,
    add_server true g name ip = Some (rc1, g1) /\ add_peer true g1 name ip = Some (NGX_OK, g2) /\
    get_peers g2 name ip = Some p /\ p_name p = ip /\
    (exists u2, find_upstream g2 name = Some (i, u2)) /\
    forall j, j <> i -> g2 !! j = g !! j.
Proof.
  intros Hg Hip Hne1 Hne2 Hf Hss Hne3 Hps Hex.
  destruct (parse_addr ip Hip) as (v & a & Hv & Hrc & Ha & Han & [sa Hsa]).
  assert (exists rc1 u1 s, add_server true g name ip = Some (rc1, <[i := u1]> g) /\
    host u1 = host u /\ peer_data u1 = Some ps /\ compare_server u1 ip = Some s) as
    (rc1 & u1 & s & E1 & Hh1 & Hp1 & Hc1).
  { unfold add_server. rewrite bool_decide_false by tauto. rewrite Hf, Hss.
    destruct (compare_server u ip) as [s|] eqn:Hc.
    - rewrite bool_decide_true by done. exists NGX_ERROR, u, s.
      apply find_upstream_lookup in Hf as [Hi _]. by rewrite list_insert_id.
    - rewrite bool_decide_false by (by intros [? ?]). rewrite bool_decide_false by done.
      rewrite Hv. cbn [mbind option_bind]. rewrite Hrc, Ha, Hsa. cbn [negb Z.eqb NGX_OK andb].
      eexists _, _, _. split; [done|]. split; [by destruct u|]. split; [by destruct u|].
      unfold compare_server in *. rewrite Hss in Hc. destruct u as [h pt dp sv pd]. cbn in *.
      apply find_snoc; [by apply find_existsb|]. unfold has_addr. cbn.
      by rewrite (proj2 (str_eqb_true _ _) Han). }
  pose proof (find_upstream_insert g name i u u1 Hf Hh1) as Hf1.
  assert (wf_registry (<[i := u1]> g)) as Hg1 by (by eapply add_server_wf).
  pose proof (wf_lookup _ _ _ _ Hg1 Hf1) as Hu1.
  destruct (compare_server_addr u1 ip s Hu1 Hc1) as (b & Hb & Hbn).
  exists rc1, (<[i := u1]> g).
  assert (exists u2 p, add_peer true (<[i := u1]> g) name ip =
      Some (NGX_OK, <[i := u2]> (<[i := u1]> g)) /\ host u2 = host u1 /\ p_name p = ip /\
      exists ps2, peer_data u2 = Some ps2 /\ peer ps2 = peer ps ++ [p]) as
    (u2 & p & E2 & Hh2 & Hpn & ps2 & Hp2 & Hps2).
  { unfold add_peer. rewrite bool_decide_false by tauto. rewrite Hf1, Hc1, Hp1, Hex, Hb.
    cbn [negb]. eexists _, _. split; [done|]. split; [by destruct u1|].
    split; [|by destruct u1, ps; repeat eexists]. done. }
  exists (<[i := u2]> (<[i := u1]> g)), p. split; [done|]. split; [done|]. split_and!.
  - unfold get_peers. rewrite bool_decide_false by tauto.
    rewrite (find_upstream_insert _ _ _ u1 u2) by done. rewrite Hp2, Hps2.
    apply find_snoc; [done|]. by apply str_eqb_true.
  - done.
  - exists u2. by apply (find_upstream_insert _ _ _ u1).
  - intros j Hj. by rewrite !list_lookup_insert_ne by done.
Qed.

Lemma touch_other now g name ip i u j :
  find_upstream g name = Some (i, u) -> j <> i ->
  touch now g name ip !! j = g !! j.
Proof.
  intros Hf Hj. unfold touch. rewrite Hf. destruct (peer_data u); [|done].
  by rewrite list_lookup_insert_ne by done.
Qed.
End Reach.

Lemma find_name_iff l ip :
  is_Some (List.find (fun p => str_eqb (p_name p) ip) l) <-> ip ∈ p_name <$> l.
Proof.
  rewrite list_elem_of_fmap. split.
  - intros [p H]. apply List.find_some in H as [H1 H2]. apply str_eqb_true in H2.
    exists p. by rewrite list_elem_of_In.
  - intros (p & -> & Hp). apply list_elem_of_In in Hp.
    destruct (List.find _ l) eqn:E; [done|].
    pose proof (List.find_none _ _ E _ Hp) as H. cbv beta in H.
    by rewrite (proj2 (str_eqb_true (p_name p) (p_name p)) eq_refl) in H.
Qed.

Lemma get_peers_touch now g name ip :
  is_Some (get_peers g name ip) -> is_Some (get_peers (touch now g name ip) name ip).
Proof.
  unfold get_peers, touch. case_bool_decide; [by intros [? ?]|].
  destruct (find_upstream g name) as [[i u]|] eqn:Hf; [|by intros [? ?]].
  destruct (peer_data u) as [ps|] eqn:Hp; [|by intros [? ?]]. intros Hs.
  rewrite (find_upstream_insert _ _ _ u) by (done || by destruct u).
  destruct u as [h pt dp sv pd], ps as [l pi tw sg w nm nx]. cbn in *. rewrite find_name_iff in *.
  destruct (touch_peer_spec now ip l) as (E & _ & _). by rewrite E.
Qed.

Lemma get_peers_name g name ip p : get_peers g name ip = Some p -> p_name p = ip.
Proof.
  unfold get_peers. case_bool_decide; [done|].
  destruct (find_upstream g name) as [[i u]|]; [|done]. destruct (peer_data u); [|done].
  intros Hf. apply List.find_some in Hf as [_ Hf]. by apply str_eqb_true in Hf.
Qed.

(** C35: whatever requests add to the upstreams, and in whatever order, every
    upstream keeps distinct peer names, and [total_weight], [single] and
    [weighted] agree with its peers, when they do at the beginning and the
    servers there have at most one address each. *)
Theorem registry_stays_consistent `{P : UrlParser} is_addr `{!UrlParserNames P is_addr} g g' :
  wf_registry g -> rtc (reg_step is_addr) g g' ->
  forall u ps, u ∈ g' -> peer_data u = Some ps ->
    NoDup (p_name <$> peer ps) /\ total_weight ps = u64 (weights (peer ps)) /\
    single ps = (number ps =? 1) && no_backup ps /\
    weighted ps = negb (total_weight ps =? number ps).
Proof.
  intros Hg Hs u ps Hu Hp. assert (wf_registry g') as Hg' by (by eapply reg_steps_wf).
  apply list_elem_of_In in Hu.
  destruct (proj1 (List.Forall_forall _ _) Hg' u Hu) as [_ H]. by destruct (H ps Hp).
Qed.

(** The loop for another node ends after at most nine draws. *)
Lemma rand_node_loop_ok rands ps key count rand_num :
  ps <> [] -> 0 <= count <= 10 -> (Z.to_nat (9 - count) <= length rands)%nat ->
  exists n, rand_node_loop rands ps key count rand_num = Some n /\
            (n = rand_num \/ 0 <= n < Z.of_nat (length ps)).
Proof.
  revert count rand_num. induction rands as [|x rands IH]; intros count rand_num Hps Hc Hl;
    cbn [rand_node_loop]; unfold u64; rewrite wrap_u_small by lia.
  - destruct (Z.geb_spec (count + 1) 10); [eauto|]. simpl in Hl. lia.
  - destruct (Z.geb_spec (count + 1) 10); [eauto|].
    destruct ps as [|p0 ps0] eqn:Eps; [done|]. rewrite <- Eps in *.
    assert (0 < Z.of_nat (length ps)) as Hlen by (rewrite Eps; simpl; lia).
    pose proof (Z.mod_pos_bound x _ Hlen) as Hm.
    destruct (lookup_lt_is_Some_2 ps (Z.to_nat (x mod Z.of_nat (length ps)))) as [p Hp]; [lia|].
    rewrite Hp. destruct (rand_node_ok key p); [eauto|].
    destruct (IH (count + 1) (x mod Z.of_nat (length ps))) as (n & Hn & Hr);
      [done|lia|simpl in Hl; lia|]. exists n. split; [done|]. right. destruct Hr; lia.
Qed.

(** When the counter begins below nine, at least one random node is drawn, and the loop ends on a peer of the array. *)
Lemma rand_node_in_range rands ps key count rand_num :
  ps <> [] -> 0 <= count < 9 -> (9 <= length rands)%nat ->
  exists n p, rand_node_loop rands ps key count rand_num = Some n /\ ps !! Z.to_nat n = Some p.
Proof.
  intros Hps Hc Hl. destruct rands as [|x rands]; [simpl in Hl; lia|].
  cbn [rand_node_loop]. unfold u64 at 1. rewrite wrap_u_small by lia. destruct (Z.geb_spec (count + 1) 10); [lia|].
  destruct ps as [|p0 ps0] eqn:Eps; [done|]. rewrite <- Eps in *.
  assert (0 < Z.of_nat (length ps)) as Hlen by (rewrite Eps; simpl; lia).
  pose proof (Z.mod_pos_bound x _ Hlen) as Hm.
  destruct (lookup_lt_is_Some_2 ps (Z.to_nat (x mod Z.of_nat (length ps)))) as [p Hp]; [lia|].
  rewrite Hp. destruct (rand_node_ok key p); [eauto|].
  destruct (rand_node_loop_ok rands ps key (u64 (count + 1)) (x mod Z.of_nat (length ps))) as (n & Hn & Hr);
    [done|unfold u64; rewrite wrap_u_small; lia|unfold u64; rewrite wrap_u_small by lia; simpl in Hl; lia|].
  assert (0 <= n < Z.of_nat (length ps)) as Hrange by (destruct Hr; lia).
  destruct (lookup_lt_is_Some_2 ps (Z.to_nat n)) as [q Hq]; [lia|]. eauto.
Qed.

(** The node a try is for, with the plugin's answer: the request's own at first; later the one the plugin names, from
    the address a MOVED or ASK reply gave, or else from that of a peer drawn at random. *)
Inductive chosen (reinit : ctx_t -> Z * ctx_t) (e : env_t) (hp : node_t) (ctx : ctx_t) : Z -> ctx_t -> Prop :=
| first_try : hp_tries hp = 0 -> chosen reinit e hp ctx NGX_OK ctx
| told rc tgt : 0 < hp_tries hp -> moved_ask ctx <> QKUPSTREAM_OK ->
    reinit (ctx <| tries := hp_tries hp |>) = (rc, tgt) -> chosen reinit e hp ctx rc tgt
| drawn p rc tgt : 0 < hp_tries hp -> moved_ask ctx = QKUPSTREAM_OK -> p ∈ peer (rrp_peers e) ->
    reinit (ctx <| upstream_ip := p_name p |> <| tries := hp_tries hp |>) = (rc, tgt) -> chosen reinit e hp ctx rc tgt.

(** The upstream a context names is there, with servers and peers, and its address is one of a node. *)
Record served (is_addr : str -> Prop) (g : registry) (ctx : ctx_t) (i : nat) : Prop := mk_served {
  sv_addr : is_addr (upstream_ip ctx);
  sv_name_set : upstream_name ctx <> [];
  sv_ip_set : upstream_ip ctx <> [];
  sv_found : exists u ss ps, find_upstream g (upstream_name ctx) = Some (i, u) /\ servers u = Some ss /\ ss <> [] /\
    peer_data u = Some ps
}.

Lemma find_or_add_ok `{P : UrlParser} is_addr `{!UrlParserNames P is_addr} e g hp pc ctx i :
  wf_registry g -> mem_ok e = true -> 0 <= hp_tries hp <= 50 -> served is_addr g ctx i ->
  exists g' hp' pc', find_or_add e g hp pc ctx = Some (Got NGX_OK g' hp' pc' (Some ctx)) /\
    pc_name pc' = upstream_ip ctx /\ pc_connection pc' = pc_connection pc /\ hp_tries hp' = hp_tries hp + 1 /\
    wf_registry g' /\ is_Some (get_peers g' (upstream_name ctx) (upstream_ip ctx)) /\
    (forall j, j <> i -> g' !! j = g !! j).
Proof.
  intros Hg Hmem Ht [Hip Hn1 Hn2 (u & ss & ps & Hf & Hss & Hne & Hps)].
  destruct hp as [rrp k t], pc as [sa sl pn ph pt pca pco]. cbn [hp_tries pc_connection] in *.
  unfold find_or_add, use_peer. rewrite Hmem. cbn [hp_tries].
  assert (u64 (t + 1) = t + 1) as Et by (unfold u64; apply wrap_u_small; lia). rewrite Et.
  destruct (get_peers g (upstream_name ctx) (upstream_ip ctx)) as [p|] eqn:Hgp.
  - eexists _, _, _. split; [done|]. cbn. rewrite (get_peers_name _ _ _ _ Hgp).
    split_and!; [done|done|done|by apply touch_wf|by apply get_peers_touch; rewrite Hgp|].
    intros j Hj. by apply (touch_other _ _ _ _ _ _ _ Hf).
  - assert (exist_peer (Some ps) (upstream_ip ctx) = false) as Hex.
    { unfold get_peers in Hgp. rewrite bool_decide_false in Hgp by tauto.
      rewrite Hf, Hps in Hgp. by apply find_existsb. }
    destruct (add_both is_addr g _ _ i u ss ps Hg Hip Hn1 Hn2 Hf Hss Hne Hps Hex) as
      (rc1 & g1 & g2 & p & E1 & E2 & E3 & Hpn & (u2 & Hf2) & Hoth).
    rewrite E1. cbn [mbind option_bind]. rewrite E2. cbn [mbind option_bind]. rewrite E3.
    assert (wf_registry g2) as Hg2.
    { eapply add_peer_wf; [|exact E2]. by eapply add_server_wf. }
    eexists _, _, _. split; [done|]. cbn. rewrite Hpn.
    split_and!; [done|done|done|by apply touch_wf|by apply get_peers_touch; rewrite E3|].
    intros j Hj. rewrite <- (Hoth j Hj).
    by apply (touch_other _ _ _ _ _ _ _ Hf2).
Qed.

(** What a retry asks the plugin for *)
Lemma update_nodes_ok reinit e hp ctx : 0 < hp_tries hp ->
  (moved_ask ctx = QKUPSTREAM_OK -> peer (rrp_peers e) <> [] /\ 0 <= count0 e < 9 /\ (9 <= length (rands e))%nat) ->
  exists rc tgt hp', chosen reinit e hp ctx rc tgt /\ hp_tries hp' = hp_tries hp /\
    update_nodes reinit (rands e) (count0 e) (rand0 e) (peer (rrp_peers e)) hp (Some ctx) =
      Some (if rc =? NGX_OK then NGX_OK else NGX_ERROR, hp', Some tgt).
Proof.
  intros Ht Hd. destruct hp as [rrp k t]. cbn [hp_tries] in *. unfold update_nodes.
  destruct (Z.eqb_spec (moved_ask ctx) QKUPSTREAM_OK) as [Hm|Hm]; cbn [negb].
  - destruct (Hd Hm) as (Hne & Hc & Hr).
    destruct (rand_node_in_range (rands e) (peer (rrp_peers e)) k (count0 e) (rand0 e) Hne Hc Hr) as (n & p & En & Ep).
    cbn [key]. rewrite En. cbn [mbind option_bind]. rewrite Ep. cbn [mbind option_bind hp_tries update eta_node].
    destruct (reinit _) as [rc tgt] eqn:E. exists rc, tgt. pose proof (list_elem_of_lookup_2 _ _ _ Ep) as Hin.
    destruct (rc =? NGX_OK); eexists; (split; [by eapply drawn|split; [|reflexivity]; done]).
  - cbn [hp_tries]. destruct (reinit _) as [rc tgt] eqn:E. exists rc, tgt.
    destruct (rc =? NGX_OK); eexists; (split; [by eapply told|split; [|reflexivity]; done]).
Qed.

(** C36: the node balancer gives a request its node, at the first try and at the up to 50 that follow (after that it
    leaves the choice to the stock balancer).  The node is the request's own at first; at a retry the one the plugin
    names, from the address of a MOVED or ASK reply or from a peer of the array drawn at random (for which the counter
    of draws, a local that is not initialised, has to begin below nine).  When the plugin refuses, the call fails and
    changes nothing.  Otherwise, when the upstream exists with servers and peers, the address is one the URL parser
    accepts and memory is available, the connection is set to the peer of that name, which is added when it was missing;
    the registry stays consistent and no other upstream changes. *)
Theorem node_gets_its_peer `{P : UrlParser} is_addr `{!UrlParserNames P is_addr} reinit e g hp pc ctx :
  wf_registry g -> mem_ok e = true -> 0 <= hp_tries hp <= 50 ->
  (0 < hp_tries hp -> moved_ask ctx = QKUPSTREAM_OK ->
     peer (rrp_peers e) <> [] /\ 0 <= count0 e < 9 /\ (9 <= length (rands e))%nat) ->
  exists rc tgt, chosen reinit e hp ctx rc tgt /\
    (rc <> NGX_OK ->
       exists hp' pc', node_get_peer reinit e g hp pc (Some ctx) = Some (Got NGX_ERROR g hp' pc' (Some tgt))) /\
    (rc = NGX_OK -> forall i, served is_addr g tgt i ->
       exists g' hp' pc', node_get_peer reinit e g hp pc (Some ctx) = Some (Got NGX_OK g' hp' pc' (Some tgt)) /\
         pc_name pc' = upstream_ip tgt /\ pc_connection pc' = None /\ hp_tries hp' = hp_tries hp + 1 /\
         wf_registry g' /\ is_Some (get_peers g' (upstream_name tgt) (upstream_ip tgt)) /\
         (forall j, j <> i -> g' !! j = g !! j)).
Proof.
  intros Hg Hmem Ht Hd. unfold node_get_peer. destruct (Z.gtb_spec (hp_tries hp) 50); [lia|].
  set (pc0 := pc <| pc_cached := false |> <| pc_connection := None |>).
  assert (pc_connection pc0 = None) as Hpc0 by done. rewrite <- Hpc0.
  destruct (Z.gtb_spec (hp_tries hp) 0) as [Hp|Hp].
  - destruct (update_nodes_ok reinit e hp ctx Hp (Hd Hp)) as (rc & tgt & hp1 & Hc & Ht1 & E).
    exists rc, tgt. split; [done|]. rewrite E. cbn [mbind option_bind]. split.
    + intros Hrc. rewrite (proj2 (Z.eqb_neq _ _) Hrc). eexists _, _. done.
    + intros -> i Hs. rewrite <- Ht1. exact (find_or_add_ok is_addr e g hp1 pc0 tgt i Hg Hmem ltac:(lia) Hs).
  - exists NGX_OK, ctx. split; [apply first_try; lia|]. split; [done|].
    intros _ i Hs. exact (find_or_add_ok is_addr e g hp pc0 ctx i Hg Hmem Ht Hs).
Qed.

(** Two upstreams, with the parser of [NgxInet]. *)
Definition demo_parser : UrlParser := inet_parser 64 (fun _ => None) [] 3.

Definition demo_names : UrlParserNames demo_parser (node_addr 64) := inet_parser_names 64 _ [] 0.

Lemma demo_addr : node_addr 64 (bs "10.0.0.9:7001").
Proof.
  split; [vm_compute; lia|]. exists (bs "10.0.0.9"), 7001.
  split; [vm_compute; reflexivity|]. split; [vm_compute; discriminate|lia].
Qed.

Definition demo_sockaddr : sockaddr := sockaddr_in 22555 16777226.
Definition demo_server (ip : str) : server_t :=
  mk_server ip [] [mk_addr ip (Some demo_sockaddr) 16] 1 1 10 false false.
Definition demo_peer (ip : str) : peer_t :=
  mk_peer (Some demo_sockaddr) 16 ip [] ip 0 1 1 0 0 0 1 10 0 false.
Definition demo_peers (name ip : str) : peers_t := mk_peers [demo_peer ip] 0 1 true false name None.

Definition demo_upstream (name ip : str) : upstream_t :=
  mk_upstream name 0 0 (Some [demo_server ip])
    (Some (demo_peers name ip)).

Definition demo_registry : registry :=
  [demo_upstream (bs "redis1") (bs "10.0.0.1:7000"); demo_upstream (bs "redis2") (bs "10.0.0.2:7000")].

Lemma demo_upstream_wf name ip : wf_upstream (demo_upstream name ip).
Proof.
  split.
  - intros ss s [= <-] Hs. apply list_elem_of_singleton in Hs as ->. cbn. lia.
  - intros ps [= <-]. split_and!; try done. apply NoDup_singleton.
Qed.

Lemma demo_wf : wf_registry demo_registry.
Proof. repeat apply Forall_cons_2; try apply demo_upstream_wf. constructor. Qed.

Lemma registry_stays_consistent_witness :
  exists g1 g2,
    @add_server demo_parser true demo_registry (bs "redis1") (bs "10.0.0.9:7001") = Some (NGX_OK, g1) /\
    add_peer true g1 (bs "redis1") (bs "10.0.0.9:7001") = Some (NGX_OK, g2) /\
    forall u ps, u ∈ g2 -> peer_data u = Some ps ->
      NoDup (p_name <$> peer ps) /\ total_weight ps = u64 (weights (peer ps)) /\
      single ps = (number ps =? 1) && no_backup ps /\
      weighted ps = negb (total_weight ps =? number ps).
Proof.
  destruct (@add_server demo_parser true demo_registry (bs "redis1") (bs "10.0.0.9:7001"))
    as [[rc1 g1]|] eqn:E1; [|discriminate E1].
  destruct (add_peer true g1 (bs "redis1") (bs "10.0.0.9:7001")) as [[rc2 g2]|] eqn:E2;
    [|vm_compute in E1; injection E1 as <- <-; discriminate E2].
  exists g1, g2. split; [|split].
  - vm_compute in E1. by injection E1 as <- <-.
  - vm_compute in E1. injection E1 as <- <-. vm_compute in E2. by injection E2 as <- <-.
  - apply (@registry_stays_consistent demo_parser (node_addr 64) demo_names demo_registry g2
      demo_wf).
    exact (rtc_l _ _ _ _ (@rs_server demo_parser _ _ _ _ _ _ _ demo_addr E1)
             (rtc_once _ _ (@rs_peer demo_parser _ _ _ _ _ _ _ E2))).
Defined.

Lemma demo_served : served (node_addr 64) demo_registry
  (mk_ctx QKUPSTREAM_OK false [] [] (bs "redis2") (bs "10.0.0.9:7001") 1) 1.
Proof.
  split; [exact demo_addr|done|done|].
  exists (demo_upstream (bs "redis2") (bs "10.0.0.2:7000")), [demo_server (bs "10.0.0.2:7000")],
    (demo_peers (bs "redis2") (bs "10.0.0.2:7000")). done.
Qed.

(** A second try, after a MOVED reply, with a plugin that names another node *)
Lemma node_gets_its_peer_witness :
  let ctx := mk_ctx 1 false [] [] (bs "redis2") (bs "10.0.0.2:7000") 0 in
  let e := mk_env 5 [] 0 0 (demo_peers (bs "redis2") (bs "10.0.0.2:7000")) (fun _ => false) true in
  let moved c := (NGX_OK, mk_ctx QKUPSTREAM_OK false [] [] (upstream_name c) (bs "10.0.0.9:7001") (tries c)) in
  exists g' hp' pc' ctx',
    @node_get_peer demo_parser moved e demo_registry
      (mk_node (mk_rrp 0 0 [0]) [] 1) (mk_pc None 0 [] [] 1 true (Some 3)) (Some ctx)
      = Some (Got NGX_OK g' hp' pc' (Some ctx')) /\
    pc_name pc' = bs "10.0.0.9:7001" /\ pc_connection pc' = None /\ hp_tries hp' = 2 /\ wf_registry g' /\
    is_Some (get_peers g' (bs "redis2") (bs "10.0.0.9:7001")) /\
    (forall j, j <> 1%nat -> g' !! j = demo_registry !! j).
Proof.
  intros ctx e moved.
  destruct (@node_gets_its_peer demo_parser (node_addr 64) demo_names moved e demo_registry (mk_node (mk_rrp 0 0 [0]) [] 1)
    (mk_pc None 0 [] [] 1 true (Some 3)) ctx demo_wf eq_refl ltac:(cbn; lia) ltac:(discriminate))
    as (rc & tgt & Hc & _ & H).
  destruct Hc as [Hc|rc tgt _ _ Hr|p rc tgt _ Hm _ _]; [discriminate Hc| |discriminate Hm].
  injection Hr as <- <-. destruct (H eq_refl 1%nat demo_served) as (g' & hp' & pc' & H').
  exists g', hp', pc'. eexists. exact H'.
Defined.

(** ** What the code does not guard against *)

(** A name the parser cannot resolve leaves an empty server in the upstream. *)
Example add_server_leaves_empty :
  option_map (fun r => (fst r, servers <$> head (snd r)))
    (add_server (P := demo_parser) true [demo_upstream (bs "u") (bs "a")] (bs "u") (bs "redis.local:6379"))
  = Some (NGX_ERROR, Some (Some [demo_server (bs "a"); server_zero])).
Proof. reflexivity. Qed.

(** [count] and [rand_num] are not initialised: when the stack holds 9 or more,
    no random node is drawn and the peer array is read at an arbitrary index. *)
Example update_nodes_uninitialised :
  rand_node_loop [] [demo_peer (bs "a")] (bs "k") 9 12345 = Some 12345 /\
  update_nodes (fun c => (NGX_OK, c)) [] 9 12345 [demo_peer (bs "a")]
    (mk_node (mk_rrp 0 0 [0]) (bs "k") 1)
    (Some (mk_ctx QKUPSTREAM_OK false [] [] [] [] 0)) = None.
Proof. split; vm_compute; reflexivity. Qed.

(** ** Upstreams as they are configured *)

Section Configured.
Variable check_add_peer : addr_t -> Z.
Variable resolve_host : str -> Z -> Z * list addr_t.

Lemma weights_app a b : weights (a ++ b) = weights a + weights b.
Proof. unfold weights. by rewrite fmap_app, zsum_app. Qed.

Lemma weights_server s addrs :
  weights (server_peer check_add_peer s <$> addrs) = Z.of_nat (length addrs) * s_weight s.
Proof.
  unfold weights. induction addrs as [|a addrs IH]; [done|].
  rewrite !fmap_cons, zsum_cons, IH. cbn [length weight server_peer]. lia.
Qed.

Lemma servers_weight_from w ss :
  foldl (fun w s => u64 (w + Z.of_nat (length (s_addrs s)) * s_weight s)) (u64 w) ss =
  u64 (w + weights (server_peers check_add_peer ss)).
Proof.
  revert w. induction ss as [|s ss IH]; intros w; cbn [foldl].
  { unfold weights, server_peers, zsum. cbn. by rewrite Z.add_0_r. }
  unfold server_peers in *. rewrite fmap_cons. cbn [concat]. rewrite weights_app, weights_server.
  replace (u64 (u64 w + Z.of_nat (length (s_addrs s)) * s_weight s)) with
    (u64 (w + Z.of_nat (length (s_addrs s)) * s_weight s)).
  - rewrite IH. f_equal. lia.
  - unfold u64, wrap_u. by rewrite Zplus_mod_idemp_l.
Qed.

(** The list of an upstream block, as [make_peers] builds it. *)
Lemma make_peers_wf name ss :
  server_peers check_add_peer ss <> [] ->
  NoDup (p_name <$> server_peers check_add_peer ss) -> wf_peers (make_peers check_add_peer name ss).
Proof.
  intros Hne Hnd. unfold wf_peers, number, make_peers. cbn. split_and!; try done.
  - exact (servers_weight_from 0 ss).
  - by rewrite andb_true_r.
Qed.

(** the upstream blocks of the configuration are consistent from the start:
    when initialisation succeeds and no two main addresses have the same name,
    the list of peers has one peer for each address of a server that is not a
    backup, in order, with derived fields that agree with it, and it is a list
    for a single peer only when there is no backup. *)
Theorem init_round_robin_consistent mem us ss us' :
  servers us = Some ss ->
  init_round_robin check_add_peer resolve_host mem us = (NGX_OK, us') ->
  let main := List.filter (fun s => negb (s_backup s)) ss in
  let names := concat ((fun s => a_name <$> s_addrs s) <$> main) in
  NoDup names ->
  exists ps, peer_data us' = Some ps /\ wf_peers ps /\ p_name <$> peer ps = names /\
    servers us' = servers us /\
    no_backup ps = bool_decide (server_peers check_add_peer (List.filter s_backup ss) = []).
Proof.
  intros Hss Hrun main names Hnd. unfold init_round_robin in Hrun. rewrite Hss in Hrun.
  cbv zeta in Hrun. change (List.filter (fun s => negb (s_backup s)) ss) with main in Hrun.
  assert (p_name <$> server_peers check_add_peer main = names) as Hn.
  { unfold server_peers, names. generalize main. clear. intros l. induction l as [|s l IH]; [done|].
    rewrite !fmap_cons. cbn [concat]. rewrite fmap_app, IH. f_equal. by rewrite <- list_fmap_compose. }
  assert (server_peers check_add_peer main <> [] -> wf_peers (make_peers check_add_peer (host us) main))
    as Hwf by (intros Hne; apply make_peers_wf; [done|by rewrite Hn]).
  set (spare := server_peers check_add_peer (List.filter s_backup ss)) in *.
  destruct (Nat.eqb_spec (length (server_peers check_add_peer main)) 0) as [|Hne]; [done|].
  assert (server_peers check_add_peer main <> []) as Hne' by (by intros E; rewrite E in Hne).
  specialize (Hwf Hne').
  destruct (mem <? 1)%nat; [done|].
  destruct (Nat.eqb_spec (length spare) 0) as [Hs|Hs].
  - injection Hrun as <-. eexists. split; [done|]. split; [done|]. split; [done|].
    split; [by destruct us|]. cbn. by rewrite bool_decide_true by (by apply nil_length_inv).
  - destruct (mem <? 2)%nat; [done|]. injection Hrun as <-. eexists. split; [done|].
    destruct Hwf as (H1 & H2 & H3 & _ & H5). split_and!; try done.
    + split_and!; try done. cbn. by rewrite andb_false_r.
    + cbn. rewrite bool_decide_false; [done|]. intros E. by rewrite E in Hs.
Qed.
End Configured.

Lemma init_round_robin_consistent_witness :
  let us := mk_upstream (bs "redis") 0 0
    (Some [demo_server (bs "a:1"); mk_server (bs "b:1") [] [mk_addr (bs "b:1") (Some demo_sockaddr) 16] 5 1 10 false true;
           mk_server (bs "c") [] [mk_addr (bs "c:1") (Some demo_sockaddr) 16; mk_addr (bs "c:2") (Some demo_sockaddr) 16] 2 1 10
             true false]) None in
  exists us' ps, init_round_robin (fun _ => 7) (fun _ _ => (NGX_ERROR, [])) 2 us =
    (NGX_OK, us') /\ peer_data us' = Some ps /\ wf_peers ps /\ p_name <$> peer ps = [bs "a:1"; bs "c:1"; bs "c:2"] /\
    no_backup ps = false.
Proof.
  intros us. destruct (init_round_robin (fun _ => 7) (fun _ _ => (NGX_ERROR, [])) 2 us)
    as [rc us'] eqn:E.
  assert (rc = NGX_OK) as -> by (vm_compute in E; by injection E as <- _).
  destruct (init_round_robin_consistent (fun _ => 7) (fun _ _ => (NGX_ERROR, [])) 2 us _ us'
    eq_refl E) as (ps & H1 & H2 & H3 & _ & H5).
  - apply (bool_decide_unpack _). by vm_compute.
  - exists us', ps. split_and!; [done|done|done|exact H3|by rewrite H5].
Defined.

End QkUpstream.
