(* ===== verification/QkRelease.v ===== *)
(** * Delayed release of peer arrays

    [src/module_qkpack/src/qkupstream/ngx_upstream_util.c]: when the array of peers of an upstream grows and moves,
    requests that are under way may still read the old one.  [ngx_prealloc_and_delay] is [ngx_prealloc] with the free
    of the old array left to a timer, whose handler frees it once the requests of all connections have started later
    than the move.

    The requests in memory are a map from their addresses to their start times; [None] is undefined behaviour: a
    read through a pointer that is not a request, or the free of what is not allocated.  The pools are those of
    [Pool]. *)

From stdpp Require Import gmap.
From S2P Require Import Prelude Pool PoolSafety.

Module QkRelease.
Import Pool.

(** ** Connections *)

(** [c->log->data]: nothing, the [ngx_http_log_ctx_t] of a client's connection with its [current_request], or,
    for a listening socket, the address of [ls->addr_text], behind which the listening structure has [type] and
    [backlog]. *)
Inductive log_data : Type :=
| NoData
| LogCtx (current_request : ptr)
| ListenText (type backlog : Z).

(** The pointer 16 bytes behind [log->data], where [ngx_http_log_ctx_t] has [current_request] *)
Definition current_request (d : log_data) : option ptr :=
  match d with
  | NoData => None
  | LogCtx r => Some r
  | ListenText type backlog => Some (type + Z.shiftl backlog 32)
  end.

Record connection_t : Type := mk_conn { c_fd : Z; c_log_data : log_data }.

(** [start_sec] and [start_msec] of a request *)
Abbreviation requests := (gmap Z (Z * Z)).

(** [ngx_delay_event_t]: the time of the move, the memory to free and the deadline of its timer *)
Record delay_event_t : Type := mk_delay { start_sec : Z; start_msec : Z; data : ptr; timer : Z }.

#[export] Instance eta_delay : Eta delay_event_t := fun e => mk_delay (start_sec e) (start_msec e) (data e) (timer e).

(** [NGX_DELAY_DELETE] *)
Definition NGX_DELAY_DELETE : Z := 100 * 1000.

(** The memory and the events whose timers are set *)
Record world : Type := mk_world { mem : heap; events : gmap Z delay_event_t }.

#[export] Instance eta_world : Eta world := fun w => mk_world (mem w) (events w).

(** A request that started before the move, or in the same millisecond *)
Definition started_before (q : Z * Z) (e : delay_event_t) : bool :=
  (q.1 <? start_sec e) || ((q.1 =? start_sec e) && (q.2 <=? start_msec e)).

(** The loop of [ngx_http_qkupstream_add_delay_delete]: [true] when it has to wait.  The pointer [r] is kept from
    one connection to the next. *)
Fixpoint scan (reqs : requests) (e : delay_event_t) (cs : list connection_t) (r : ptr) : option bool :=
  match cs with
  | [] => Some false
  | c :: cs' =>
      if c_fd c =? -1 then scan reqs e cs' r
      else
        let r := match current_request (c_log_data c) with Some r' => r' | None => r end in
        if r =? NULL then scan reqs e cs' r
        else
          q ← reqs !! r;
          if started_before q e then Some true else scan reqs e cs' r
  end.

(** [ngx_http_qkupstream_add_delay_delete] of the event [ev] at the time [now] *)
Definition ngx_http_qkupstream_add_delay_delete (now : Z) (reqs : requests) (cs : list connection_t) (ev : ptr)
    (w : world) : option world :=
  e ← events w !! ev;
  wait ← scan reqs e cs NULL;
  if (wait : bool) then Some (w <| events := <[ev := e <| timer := now + NGX_DELAY_DELETE |>]> (events w) |>)
  else
    h ← ngx_free (data e) (mem w);
    h ← ngx_free ev h;
    Some (mk_world h (delete ev (events w))).

Section Release.
Variable memalign : heap -> Z -> Z -> option Z.
(** [sizeof(ngx_delay_event_t)] *)
Variable sizeof_delay_event : Z.

(** [ngx_http_qkupstream_event_init] at the time [(sec, msec)]; when there is no memory for the event, the array
    is kept until the pool is destroyed. *)
Definition ngx_http_qkupstream_event_init (sec msec now : Z) (peers : ptr) (w : world) : world :=
  let '(ev, h) := ngx_alloc memalign sizeof_delay_event (mem w) in
  if ev =? NULL then w <| mem := h |>
  else mk_world h (<[ev := mk_delay sec msec peers (now + NGX_DELAY_DELETE)]> (events w)).

(** [ngx_pfree_and_delay] *)
Fixpoint pfree_and_delay_loop (sec msec now : Z) (ls : list large_t) (a : ptr) (w : world) : Z * world :=
  match ls with
  | [] => (NGX_DECLINED, w)
  | l :: ls' =>
      if a =? l_alloc l then (NGX_OK, ngx_http_qkupstream_event_init sec msec now (l_alloc l) w)
      else pfree_and_delay_loop sec msec now ls' a w
  end.
Definition ngx_pfree_and_delay (sec msec now : Z) (p : pool_t) (a : ptr) (w : world) : Z * world :=
  pfree_and_delay_loop sec msec now (large p) a w.

(** [ngx_prealloc_and_delay] *)
Definition ngx_prealloc_and_delay (sec msec now : Z) (p : pool_t) (a old_size new_size : Z) (w : world)
    : option (ptr * pool_t * world) :=
  if a =? NULL then '(m, p, h) ← ngx_palloc memalign new_size p (mem w); Some (m, p, w <| mem := h |>)
  else if new_size =? 0 then
    match blocks p with
    | [] => None
    | b0 :: bs =>
        if a + old_size =? b_last b0 then Some (NULL, p <| blocks := b0 <| b_last := a |> :: bs |>, w)
        else '(_, p, h) ← ngx_pfree a p (mem w); Some (NULL, p, w <| mem := h |>)
    end
  else
    match (if old_size <=? max p then resize_in a old_size new_size (blocks p) else None) with
    | Some bs => Some (a, p <| blocks := bs |>, w)
    | None =>
        if new_size <=? old_size then Some (a, p, w)
        else
          '(new, p, h) ← ngx_palloc memalign new_size p (mem w);
          if new =? NULL then Some (NULL, p, w <| mem := h |>)
          else let '(_, w) := ngx_pfree_and_delay sec msec now p a (w <| mem := h |>) in Some (new, p, w)
    end.
End Release.
(** ** When the handler frees *)

(** The time [q] is not later than that of the event. *)
Definition not_later (q : Z * Z) (e : delay_event_t) : Prop :=
  q.1 < start_sec e \/ (q.1 = start_sec e /\ q.2 <= start_msec e).

Lemma started_before_spec q e : started_before q e = true <-> not_later q e.
Proof.
  unfold started_before, not_later. rewrite orb_true_iff, andb_true_iff, Z.ltb_lt, Z.eqb_eq, Z.leb_le. done.
Qed.

(** The pointer the handler takes from an open connection *)
Definition followed (c : connection_t) : option ptr :=
  if c_fd c =? -1 then None
  else match current_request (c_log_data c) with Some r => if r =? NULL then None else Some r | None => None end.

(** What a connection means for the handler: it is closed, has no request or one that started later than the move; its
    request may use the old array; or what is taken for its request is none, as with a listening socket or a request
    that was freed. *)
Definition passes (reqs : requests) (e : delay_event_t) (c : connection_t) : Prop :=
  forall r, followed c = Some r -> exists q, reqs !! r = Some q /\ ~ not_later q e.
Definition holds_back (reqs : requests) (e : delay_event_t) (c : connection_t) : Prop :=
  exists r q, followed c = Some r /\ reqs !! r = Some q /\ not_later q e.
Definition wild (reqs : requests) (c : connection_t) : Prop := exists r, followed c = Some r /\ reqs !! r = None.

Lemma connection_cases reqs e c : passes reqs e c \/ holds_back reqs e c \/ wild reqs c.
Proof.
  unfold passes, holds_back, wild. destruct (followed c) as [r|]; [|left; done].
  destruct (reqs !! r) as [q|] eqn:Eq; [|right; right; eauto].
  destruct (started_before q e) eqn:Hs.
  - right. left. exists r, q. rewrite <- started_before_spec. done.
  - left. intros ? [= <-]. exists q. split; [done|]. rewrite <- started_before_spec. congruence.
Qed.

(** The first connection at which the handler does not go on, if there is one *)
Lemma connections_cases reqs e cs : Forall (passes reqs e) cs \/
  exists pre c post, cs = pre ++ c :: post /\ Forall (passes reqs e) pre /\ (holds_back reqs e c \/ wild reqs c).
Proof.
  induction cs as [|c cs IH]; [by left|]. destruct (connection_cases reqs e c) as [Hc|Hc].
  - destruct IH as [IH|(pre & c' & post & -> & Hpre & H)]; [left; by constructor|].
    right. exists (c :: pre), c', post. split; [done|]. split; [by constructor|done].
  - right. exists [], c, cs. done.
Qed.

(** The pointer kept from the connections before: none, or one that was found to be late enough *)
Definition harmless (reqs : requests) (e : delay_event_t) (r : ptr) : Prop :=
  r = NULL \/ exists q, reqs !! r = Some q /\ started_before q e = false.

(** Keeping the pointer from one connection to the next does no harm. *)
Lemma scan_pass reqs e c cs r : passes reqs e c -> harmless reqs e r ->
  exists r', harmless reqs e r' /\ scan reqs e (c :: cs) r = scan reqs e cs r'.
Proof.
  unfold passes, followed. intros Hp Hr. cbn [scan]. destruct (c_fd c =? -1); [by exists r|].
  destruct (current_request (c_log_data c)) as [r'|].
  - exists r'. destruct (r' =? NULL) eqn:En; [apply Z.eqb_eq in En; split; [by left|done]|].
    destruct (Hp r' eq_refl) as (q & Eq & Hq). rewrite <- started_before_spec, not_true_iff_false in Hq.
    rewrite Eq. cbn [mbind option_bind]. rewrite Hq. split; [right; eauto|done].
  - exists r. split; [done|]. destruct Hr as [->|(q & Eq & Hq)]; [done|]. destruct (r =? NULL); [done|].
    rewrite Eq. cbn [mbind option_bind]. rewrite Hq. done.
Qed.

Lemma scan_passes reqs e pre cs r : Forall (passes reqs e) pre -> harmless reqs e r ->
  exists r', harmless reqs e r' /\ scan reqs e (pre ++ cs) r = scan reqs e cs r'.
Proof.
  intros Hp. revert r. induction Hp as [|c pre Hc _ IH]; intros r Hr; [by exists r|].
  destruct (scan_pass reqs e c (pre ++ cs) r Hc Hr) as (r1 & H1 & E1). destruct (IH r1 H1) as (r2 & H2 & E2).
  exists r2. split; [done|]. rewrite <- E2, <- E1. done.
Qed.

Lemma scan_follow reqs e c cs r p : followed c = Some p ->
  scan reqs e (c :: cs) r = (q ← reqs !! p; if started_before q e then Some true else scan reqs e cs p).
Proof.
  unfold followed. cbn [scan]. destruct (c_fd c =? -1); [done|].
  destruct (current_request (c_log_data c)) as [r'|]; [|done]. destruct (r' =? NULL); [done|]. intros [= ->]. done.
Qed.

Lemma scan_all reqs e cs : Forall (passes reqs e) cs -> scan reqs e cs NULL = Some false.
Proof.
  intros H. destruct (scan_passes reqs e cs [] NULL H ltac:(by left)) as (r & _ & E). rewrite app_nil_r in E. done.
Qed.

Lemma scan_stops reqs e pre c post : Forall (passes reqs e) pre ->
  (holds_back reqs e c -> scan reqs e (pre ++ c :: post) NULL = Some true) /\
  (wild reqs c -> scan reqs e (pre ++ c :: post) NULL = None).
Proof.
  intros H. destruct (scan_passes reqs e pre (c :: post) NULL H ltac:(by left)) as (r & _ & ->). split.
  - intros (p & q & Hf & Eq & Hq). rewrite (scan_follow _ _ _ _ _ _ Hf), Eq. cbn [mbind option_bind].
    apply started_before_spec in Hq. rewrite Hq. done.
  - intros (p & Hf & Eq). rewrite (scan_follow _ _ _ _ _ _ Hf), Eq. done.
Qed.

(** A client's connection has a request that may use the old array. *)
Definition in_use (reqs : requests) (cs : list connection_t) (e : delay_event_t) : Prop :=
  exists c r q, c ∈ cs /\ c_fd c <> -1 /\ c_log_data c = LogCtx r /\ r <> NULL /\ reqs !! r = Some q /\
    not_later q e.

Lemma in_use_not_passed reqs cs e : in_use reqs cs e -> ~ Forall (passes reqs e) cs.
Proof.
  intros (c & r & q & Hc & Hfd & Hd & Hr & Eq & Hq) H. rewrite list.Forall_forall in H.
  destruct (H c Hc r) as (q' & Eq' & Hq'); [|congruence]. unfold followed.
  rewrite (proj2 (Z.eqb_neq _ _) Hfd), Hd. cbn [current_request]. rewrite (proj2 (Z.eqb_neq _ _) Hr). done.
Qed.

(** C34: The handler of the delayed release goes through the connections in their order, past those that are closed,
    have no request or a request that started later than the array moved.  When these are all, it frees the array and
    the event, and nothing else.  When it comes to one whose request started earlier, or in the same millisecond, it
    leaves the memory alone and sets its timer again.  When it comes to one where what it takes for the request is none
    (the type and backlog of a listening socket, or a request that was freed), its behaviour is undefined.  There is no
    fourth case, and so the array is never freed while a client's request that may use it is under way. *)
Theorem delay_delete_correct now reqs cs ev e n k w : events w !! ev = Some e ->
  mem w !! ev = Some n -> mem w !! data e = Some k -> ev <> NULL -> data e <> NULL -> data e <> ev ->
  let result := ngx_http_qkupstream_add_delay_delete now reqs cs ev w in
  (Forall (passes reqs e) cs ->
     result = Some (mk_world (delete ev (delete (data e) (mem w))) (delete ev (events w)))) /\
  (forall pre c post, cs = pre ++ c :: post -> Forall (passes reqs e) pre ->
     (holds_back reqs e c ->
        result = Some (mk_world (mem w) (<[ev := e <| timer := now + NGX_DELAY_DELETE |>]> (events w)))) /\
     (wild reqs c -> result = None)) /\
  (Forall (passes reqs e) cs \/
   exists pre c post, cs = pre ++ c :: post /\ Forall (passes reqs e) pre /\ (holds_back reqs e c \/ wild reqs c)) /\
  (in_use reqs cs e -> forall w', result = Some w' -> mem w' = mem w).
Proof.
  intros He Hev Hd H1 H2 H3. cbn zeta. unfold ngx_http_qkupstream_add_delay_delete. rewrite He. cbn [mbind option_bind].
  split_and!.
  - intros Hp. rewrite (scan_all _ _ _ Hp). cbn [mbind option_bind].
    rewrite (PoolSafety.ngx_free_some _ k _ H2 Hd). cbn [mbind option_bind].
    rewrite (PoolSafety.ngx_free_some _ n) by (rewrite ?lookup_delete_ne; done). done.
  - intros pre c post -> Hp. destruct (scan_stops reqs e pre c post Hp) as [Hh Hw].
    split; intros Hc; [rewrite (Hh Hc)|rewrite (Hw Hc)]; done.
  - apply connections_cases.
  - intros Hi w'. destruct (connections_cases reqs e cs) as [Hp|(pre & c & post & -> & Hp & Hc)].
    { destruct (in_use_not_passed _ _ _ Hi Hp). }
    destruct (scan_stops reqs e pre c post Hp) as [Hh Hw]. destruct Hc as [Hc|Hc]; [rewrite (Hh Hc)|rewrite (Hw Hc); done].
    intros [= <-]. done.
Qed.

(** ** The old array *)

Section Moved.
Context {memalign : heap -> Z -> Z -> option Z} `{!PoolSafety.MallocSpec memalign}.
Variables size sizeof_delay_event : Z.
Hypothesis event_pos : 0 < sizeof_delay_event.

Lemma pool_ok_frame h0 p h pieces al a n : PoolSafety.pool_ok size h0 p h pieces -> 0 < n -> memalign h al n = Some a ->
  a <> NULL /\ PoolSafety.pool_ok size (<[a := n]> h0) p (<[a := n]> h) pieces.
Proof.
  intros (extra & Hc & Hi & Hp) Hn Em. destruct (PoolSafety.inv_frame size h0 p h _ al a n Hi Hn Em) as (Ha & _ & _ & Hf).
  split; [done|]. exists extra. done.
Qed.

(** The old array is still held: by the pool alone, or until the new event fires. *)
Definition kept (sec msec now : Z) (h0 : heap) (p : pool_t) (pieces : list (Z * Z)) (a : ptr) (w w' : world) : Prop :=
  (events w' = events w /\ PoolSafety.pool_ok size h0 p (mem w') pieces) \/
  (exists ev, events w' = <[ev := mk_delay sec msec a (now + NGX_DELAY_DELETE)]> (events w) /\
    PoolSafety.pool_ok size (<[ev := sizeof_delay_event]> h0) p (mem w') pieces).

Lemma pfree_and_delay_kept sec msec now h0 p pieces a w : PoolSafety.pool_ok size h0 p (mem w) pieces ->
  kept sec msec now h0 p pieces a w (ngx_pfree_and_delay memalign sizeof_delay_event sec msec now p a w).2.
Proof.
  intros Hok. unfold ngx_pfree_and_delay. induction (large p) as [|l ls IH]; cbn [pfree_and_delay_loop]; [left; done|].
  destruct (Z.eqb_spec a (l_alloc l)) as [<-|]; [|exact IH]. cbn.
  unfold ngx_http_qkupstream_event_init, ngx_alloc, ngx_memalign.
  destruct (memalign (mem w) NGX_POOL_ALIGNMENT sizeof_delay_event) as [ev|] eqn:Em; [|left; done].
  destruct (pool_ok_frame _ _ _ _ _ _ _ Hok event_pos Em) as [Hev Hf]. rewrite (proj2 (Z.eqb_neq _ _) Hev).
  right. exists ev. done.
Qed.

(** C40: When the peer array of an upstream grows, nothing is freed: the array grows in place, or the request fails and
    keeps it, or there is a new array apart from the old one and from all else in the pool, while the old one is still
    allocated for the requests that read it, until the event set up for it fires. *)
Theorem moved_array_kept sec msec now h0 p pieces a n k w : PoolSafety.pool_ok size h0 p (mem w) pieces ->
  (a, n) ∈ pieces -> n < k ->
  exists m p' w', ngx_prealloc_and_delay memalign sizeof_delay_event sec msec now p a n k w = Some (m, p', w') /\
    ((m = NULL /\ events w' = events w /\ PoolSafety.pool_ok size h0 p' (mem w') pieces) \/
     (m = a /\ events w' = events w /\ PoolSafety.pool_ok size h0 p' (mem w') ((a, k) :: PoolSafety.without a pieces)) \/
     (m <> NULL /\ m <> a /\ kept sec msec now h0 p' ((m, k) :: pieces) a w w')).
Proof.
  intros Hok Hin Hk. pose proof (PoolSafety.held_not_null _ _ _ _ _ _ _ Hok Hin) as Ha.
  assert (Hn : 0 < n).
  { destruct Hok as (ex & _ & _ & Hp). apply Forall_app in Hp as [Hp _]. rewrite list.Forall_forall in Hp. exact (Hp _ Hin). }
  unfold ngx_prealloc_and_delay. rewrite (proj2 (Z.eqb_neq _ _) Ha), (proj2 (Z.eqb_neq k 0)) by lia.
  destruct (if n <=? max p then resize_in a n k (blocks p) else None) as [bs|] eqn:Er.
  - destruct (n <=? max p); [|done]. apply PoolSafety.resize_in_ok in Er as (pre & b & post & Eb & -> & El & He).
    eexists a, _, w. split; [reflexivity|]. right. left. split; [done|]. split; [done|].
    pose proof (PoolSafety.pool_ok_resize _ _ _ _ _ pre b post a n k Hok Hin Eb El He ltac:(lia)) as Hr.
    unfold PoolSafety.got in Hr. rewrite (proj2 (Z.eqb_neq _ _) Ha), (proj2 (Z.eqb_neq k 0)) in Hr by lia. exact Hr.
  - destruct (Z.leb_spec k n); [lia|].
    destruct (PoolSafety.allocated_pool_ok size h0 p (mem w) pieces true k _ Hok ltac:(lia)
      (fun live Hi => PoolSafety.palloc_ok size h0 p (mem w) live k true Hi ltac:(lia))) as (m & p' & h' & E & _ & _ & _ & Hal).
    unfold ngx_palloc. rewrite E. cbn [mbind option_bind]. unfold PoolSafety.got in Hal.
    rewrite (proj2 (Z.eqb_neq k 0)), orb_false_r in Hal by lia. destruct (Z.eqb_spec m NULL) as [->|Hm].
    + eexists NULL, p', _. split; [reflexivity|]. left. done.
    + pose proof (pfree_and_delay_kept sec msec now h0 p' ((m, k) :: pieces) a (w <| mem := h' |>) Hal) as Hkept.
      destruct (ngx_pfree_and_delay _ _ _ _ _ _ _ _) as [rc w']. eexists m, p', w'. split; [reflexivity|]. right. right.
      split; [done|]. split; [|exact Hkept]. destruct Hal as (ex & _ & Hi & Hp).
      pose proof (PoolSafety.i_live _ _ _ _ _ Hi) as Hd. apply PoolSafety.pairwise_app in Hd as [Hd _].
      apply PoolSafety.pairwise_cons in Hd as [_ Hd]. apply Forall_app in Hp as [Hp _]. inversion_clear Hp as [|? ? Hkk Hp2].
      rewrite list.Forall_forall in Hp2. exact (PoolSafety.disj_fst (m, k) (a, n) (Hd _ Hin) Hkk (Hp2 _ Hin)).
Qed.
End Moved.

(** ** What the release does to the pool *)

Lemma free_large_freed ls h a : a ∈ PoolSafety.allocs ls -> h !! a = None -> free_large ls h = None.
Proof.
  revert h. induction ls as [|[l b] ls IH]; intros h Hin Hn; [inversion Hin|]. cbn [free_large l_alloc].
  destruct (Z.eqb_spec b NULL) as [->|Hb]; cbn [mbind option_bind]; [apply IH; done|].
  rewrite PoolSafety.allocs_cons in Hin by done. unfold ngx_free. rewrite (proj2 (Z.eqb_neq _ _) Hb).
  destruct (h !! b) as [m|] eqn:E; [|done]. cbn [mbind option_bind].
  apply elem_of_cons in Hin as [->|Hin]; [congruence|]. apply IH; [done|]. apply lookup_delete_None. by right.
Qed.

(** The entry of the old array stays in the list of large pieces: when the handler has freed the array, the pool
    cannot be destroyed without freeing it again. *)
Theorem delayed_free_twice p h a : a ∈ PoolSafety.allocs (large p) -> ngx_destroy_pool p (delete a h) = None.
Proof.
  intros Hin. unfold ngx_destroy_pool. rewrite (free_large_freed (large p) _ a Hin (lookup_delete_eq _ _)). done.
Qed.

(** ** Examples *)

#[local] Existing Instance PoolSafety.bump_malloc.

Definition demo_event : delay_event_t := mk_delay 9 500 320 0.
Definition demo_world : world := mk_world {[320 := 5000; 5424 := 120]} {[5424 := demo_event]}.
Definition demo_conns : list connection_t := [mk_conn 5 (LogCtx 1000); mk_conn (-1) NoData; mk_conn 6 NoData].

Lemma demo_passes q : not_later q demo_event \/ Forall (passes {[1000 := q]} demo_event) demo_conns.
Proof.
  destruct (started_before q demo_event) eqn:Hs; [left; by apply started_before_spec|right].
  repeat apply Forall_cons; [| | |done]; intros r Hr; [|discriminate Hr..].
  injection Hr as <-. exists q. split; [apply lookup_singleton_eq|]. rewrite <- started_before_spec. congruence.
Qed.

(** A request of the same millisecond holds the array back, one of the next does not, and with a listening socket
    behind it the handler never gets to the end. *)
Lemma delay_delete_correct_witness :
  ngx_http_qkupstream_add_delay_delete 7 {[1000 := (9, 500)]} demo_conns 5424 demo_world =
    Some (mk_world (mem demo_world) {[5424 := demo_event <| timer := 100007 |>]}) /\
  ngx_http_qkupstream_add_delay_delete 7 {[1000 := (9, 501)]} demo_conns 5424 demo_world = Some (mk_world ∅ ∅) /\
  ngx_http_qkupstream_add_delay_delete 7 {[1000 := (9, 501)]} (demo_conns ++ [mk_conn 3 (ListenText 1 511)]) 5424 demo_world = None.
Proof.
  assert (Hp : Forall (passes {[1000 := (9, 501)]} demo_event) demo_conns).
  { destruct (demo_passes (9, 501)) as [Hn|H]; [|exact H]. exfalso. apply started_before_spec in Hn. discriminate Hn. }
  split_and!.
  - destruct (delay_delete_correct 7 {[1000 := (9, 500)]} demo_conns 5424 demo_event 120 5000 demo_world
      ltac:(done) ltac:(done) ltac:(done) ltac:(done) ltac:(done) ltac:(done)) as (_ & H & _).
    destruct (H [] (mk_conn 5 (LogCtx 1000)) [mk_conn (-1) NoData; mk_conn 6 NoData] eq_refl ltac:(constructor)) as [H1 _].
    rewrite H1; [reflexivity|]. exists 1000, (9, 500). split; [reflexivity|]. split; [reflexivity|]. right. split; [reflexivity|]. cbn. lia.
  - destruct (delay_delete_correct 7 {[1000 := (9, 501)]} demo_conns 5424 demo_event 120 5000 demo_world
      ltac:(done) ltac:(done) ltac:(done) ltac:(done) ltac:(done) ltac:(done)) as (H & _).
    rewrite (H Hp). reflexivity.
  - destruct (delay_delete_correct 7 {[1000 := (9, 501)]} (demo_conns ++ [mk_conn 3 (ListenText 1 511)]) 5424 demo_event 120 5000 demo_world
      ltac:(done) ltac:(done) ltac:(done) ltac:(done) ltac:(done) ltac:(done)) as (_ & H & _).
    destruct (H demo_conns (mk_conn 3 (ListenText 1 511)) [] eq_refl Hp) as [_ H2]. apply H2.
    exists (1 + Z.shiftl 511 32). split; reflexivity.
Defined.

(** A pool of 256 bytes with a large piece of 5000 *)
Lemma demo_pool_ok : exists p h, PoolSafety.pool_ok 256 PoolSafety.demo_heap p h [(320, 5000)] /\ large p = [mk_large 128 320].
Proof.
  destruct (ngx_create_pool PoolSafety.bump 4096 256 PoolSafety.demo_heap) as [[p|] h] eqn:E; [|vm_compute in E; discriminate].
  destruct (PoolSafety.exec_all_reachable PoolSafety.bump 4096 256 PoolSafety.demo_heap [PoolSafety.Palloc true 5000] p h []
    (fun p h ps => ps = [(320, 5000)] /\ large p = [mk_large 128 320])) as (p' & h' & ps' & H1 & H2 & H3).
  - apply PoolSafety.reach_create. done.
  - vm_compute in E. injection E as <- <-. vm_compute. split_and!; try discriminate; reflexivity.
  - exists p', h'. subst ps'. split; [|done].
    apply (PoolSafety.reachable_ok PoolSafety.bump 4096 256 PoolSafety.demo_heap p' h' [(320, 5000)]); try done.
    + apply PoolSafety.demo_heap_ok.
    + exists 32. done.
Qed.

Lemma moved_array_kept_witness : exists p h m p' w',
  ngx_prealloc_and_delay PoolSafety.bump 120 9 500 0 p 320 5000 6000 (mk_world h ∅) = Some (m, p', w') /\
  (m = NULL \/ m = 320 \/ kept 256 120 9 500 0 PoolSafety.demo_heap p' [(m, 6000); (320, 5000)] 320 (mk_world h ∅) w').
Proof.
  destruct demo_pool_ok as (p & h & Hok & _). exists p, h.
  destruct (moved_array_kept (memalign := PoolSafety.bump) 256 120 ltac:(done) 9 500 0 PoolSafety.demo_heap p [(320, 5000)] 320 5000 6000
    (mk_world h ∅) Hok ltac:(left) ltac:(done)) as (m & p' & w' & E & H).
  exists m, p', w'. split; [done|]. tauto.
Defined.

(** The whole life of an array that moves: the pool cannot be destroyed after the delayed release. *)
Example peer_array_freed_twice :
  (let '(p, h) := ngx_create_pool PoolSafety.bump 4096 256 ∅ in
   p ← p; '(a, p, h) ← ngx_palloc PoolSafety.bump 5000 p h;
   '(m, p, w) ← ngx_prealloc_and_delay PoolSafety.bump 120 9 500 0 p a 5000 6000 (mk_world h ∅);
   w ← ngx_http_qkupstream_add_delay_delete 100000 ∅ [] 11312 w;
   Some (bool_decide (map_size (mem w) = 2%nat), bool_decide (ngx_destroy_pool p (mem w) = None))) = Some (true, true).
Proof. vm_compute. reflexivity. Qed.

(** A listening socket is an open connection whose log does not have an [ngx_http_log_ctx_t]: the handler follows the
    socket type and the backlog as a pointer. *)
Example listening_socket_followed :
  scan ∅ demo_event [mk_conn 3 (ListenText 1 511)] NULL = None.
Proof. reflexivity. Qed.

(** [ngx_http_free_request] leaves [current_request] in the log of a connection that is kept alive: the handler reads
    the request that was freed. *)
Example idle_connection_read : scan ∅ demo_event [mk_conn 5 (LogCtx 1000)] NULL = None.
Proof. reflexivity. Qed.

End QkRelease.
