(* ===== verification/QkHandler.v ===== *)
(** * The upstream handler of the QKPack module

    [src/module_qkpack/src/qkupstream/ngx_upstream_handler.c]: sending the Redis
    command, re-sending it after a [MOVED] or [ASK] redirection, deciding when the
    reply is complete, and passing it on.

    The C++ plugin behind [ngx_http_qkupstream_process_request] and
    [ngx_http_qkupstream_process_response] is a parameter. *)

From S2P Require Import Prelude NgxString RedisProto RoundRobin QkUpstream.

Module QkHandler.
Import NgxString RedisProto RoundRobin QkUpstream.

Definition NGX_HTTP_UPSTREAM_INVALID_HEADER : Z := 40.

(** What the handler uses of [r->upstream]: the bytes queued for the server, the
    buffer [u->buffer] (its memory from [pos] on and [last - pos]), the chain of
    output buffers as ranges of it, and the counters of the body. *)
Record upstream_state : Type := mk_us {
  request_bufs : option str;
  buffer : list Z;
  buf_last : Z;
  out_bufs : list (Z * Z);
  content_length_n : Z;
  ulength : Z;
  keepalive : bool
}.

#[export] Instance eta_us : Eta upstream_state := fun u =>
  mk_us (request_bufs u) (buffer u) (buf_last u) (out_bufs u) (content_length_n u)
    (ulength u) (keepalive u).

(** [ngx_http_qkupstream_create_request]; [mem] is the number of allocations
    that succeed, [destroyed] tells that the plugin's request was destroyed. *)
Definition create_request (init process_request : ctx_t -> Z * ctx_t) (mem : nat)
    (ctx : option ctx_t) (u : upstream_state)
    : Z * option ctx_t * upstream_state * bool :=
  match ctx with
  | None => (NGX_ERROR, None, u, false)
  | Some ctx =>
      let '(rc, ctx) := init ctx in
      if negb (rc =? NGX_OK) then (NGX_ERROR, Some ctx, u, false)
      else
        let '(rc, ctx) := process_request ctx in
        if negb (rc =? NGX_OK) then (NGX_ERROR, Some ctx, u, true)
        else if (mem <? 2)%nat then (NGX_ERROR, Some ctx, u, false)
        else (NGX_OK, Some ctx, u <| request_bufs := Some (request_buffer ctx) |>, false)
  end.

(** [ngx_http_qkupstream_reinit_request] *)
Definition reinit_request (mem : nat) (ctx : option ctx_t) (u : upstream_state)
    : Z * option ctx_t * upstream_state :=
  match ctx with
  | None => (NGX_ERROR, None, u)
  | Some c =>
      if bool_decide (request_buffer c = []) then (NGX_ERROR, ctx, u)
      else if moved_ask c =? QKUPSTREAM_OK then (NGX_OK, ctx, u)
      else if moved_ask c =? QKUPSTREAM_MOVED then
        (NGX_OK, Some (c <| moved_ask := QKUPSTREAM_OK |>), u)
      else if moved_ask c =? QKUPSTREAM_ASKING then
        let c := c <| moved_ask := QKUPSTREAM_ASKING_END |> in
        if (mem <? 2)%nat then (NGX_ERROR, Some c, u)
        else (NGX_OK, Some c, u <| request_bufs := Some (request_buffer c) |>)
      else (NGX_ERROR, ctx, u)
  end.

Section ProcessHeader.
(** [ngx_http_qkupstream_process_response] *)
Variable process_response : ctx_t -> upstream_state -> Z * ctx_t * upstream_state.

(** The length of the [+OK] line of [ASKING] in front of the reply. *)
Definition reply_offset (c : ctx_t) : Z := if moved_ask c =? QKUPSTREAM_ASKING_END then 5 else 0.

Definition process_header (ctx : option ctx_t) (u : upstream_state)
    : Z * option ctx_t * upstream_state :=
  match ctx with
  | None => (NGX_ERROR, None, u)
  | Some c =>
      if (moved_ask c =? QKUPSTREAM_ASK) || (moved_ask c =? QKUPSTREAM_ASKING) then
        (NGX_HTTP_UPSTREAM_INVALID_HEADER, ctx, u)
      else
        let off := reply_offset c in
        let rc := ngx_redis_proto_decode (at_pos (buffer u) off) (buf_last u - off) in
        if negb (rc =? NGX_OK) then (rc, ctx, u)
        else
          let resp := take (Z.to_nat (buf_last u - off)) (at_pos (buffer u) off) in
          let '(rc, c, u) := process_response (c <| response_buffer := resp |>) u in
          (rc, Some (c <| has_processed := true |>), u)
  end.
End ProcessHeader.

(** [ngx_http_qkupstream_filter_init] *)
Definition filter_init (u : upstream_state) : upstream_state :=
  u <| ulength := content_length_n u |>.

(** [ngx_http_qkupstream_filter]; [mem] tells whether a buffer is available. *)
Definition filter (mem : bool) (u : upstream_state) (bytes : Z) : Z * upstream_state :=
  if negb mem then (NGX_ERROR, u)
  else
    let last := buf_last u in
    let u := u <| buf_last := last + bytes |>
               <| out_bufs := out_bufs u ++ [(last, last + bytes)] |>
               <| ulength := ulength u - bytes |> in
    (NGX_OK, if ulength u =? 0 then u <| keepalive := true |> else u).

(** ** The reply is waited for *)

(** C38: once the length line of a bulk reply has come up to its CR, the handler
    reads the reply exactly when it is complete.  While fewer bytes than the reply
    has are there, also behind the [+OK] line of an [ASKING] exchange,
    [process_header] asks for more and changes nothing; as soon as the last byte is
    there, the plugin gets exactly the bytes of the reply.  (When the buffer ends
    inside the digits of the length, what is there is taken for the length:
    [bulk_split_digits].) *)
Theorem process_header_waits process_response c u d junk k :
  moved_ask c = QKUPSTREAM_OK \/ moved_ask c = QKUPSTREAM_ASKING_END ->
  Z.of_nat (length d) < 2 ^ 31 - 32 ->
  let pre := if moved_ask c =? QKUPSTREAM_OK then [] else bs "+OK" ++ CRLF in
  let head := bs "$" ++ dec_text (Z.of_nat (length d)) ++ [CR] in
  (length head <= k <= length (bulk d))%nat ->
  buffer u = pre ++ take k (bulk d) ++ junk ->
  buf_last u = Z.of_nat (length pre) + Z.of_nat k ->
  process_header process_response (Some c) u =
  if (k <? length (bulk d))%nat then (NGX_AGAIN, Some c, u)
  else let '(rc, c', u') := process_response (c <| response_buffer := bulk d |>) u in
       (rc, Some (c' <| has_processed := true |>), u').
Proof.
  intros Hm Hd pre head Hk Hbuf Hlast.
  assert (reply_offset c = Z.of_nat (length pre) /\
          (moved_ask c =? QKUPSTREAM_ASK) || (moved_ask c =? QKUPSTREAM_ASKING) = false) as [Ho Hna]
    by (unfold pre, reply_offset; destruct Hm as [E | E]; rewrite E; split; reflexivity).
  unfold process_header. rewrite Hna, Ho, Hbuf, Hlast, at_pos_app by done.
  replace (Z.of_nat (length pre) + Z.of_nat k - Z.of_nat (length pre)) with (Z.of_nat k) by lia.
  assert (exists s, take k (bulk d) ++ junk =
    bs "$" ++ dec_text (Z.of_nat (length d)) ++ CR :: s) as [s Hs].
  { exists (take (k - length head) ([LF] ++ d ++ CRLF) ++ junk).
    assert (bulk d = head ++ [LF] ++ d ++ CRLF) as -> by (unfold bulk, head; by rewrite <- !app_assoc).
    rewrite take_app, take_ge by lia. unfold head. by rewrite <- !app_assoc. }
  assert (ngx_redis_proto_decode (take k (bulk d) ++ junk) (Z.of_nat k) =
    if Z.of_nat k <? Z.of_nat (length (bulk d)) then NGX_AGAIN else NGX_OK) as ->
    by (rewrite Hs; by apply bulk_reply).
  destruct (Nat.ltb_spec k (length (bulk d))) as [Hlt|Hge].
  - destruct (Z.ltb_spec (Z.of_nat k) (Z.of_nat (length (bulk d)))); [done|lia].
  - destruct (Z.ltb_spec (Z.of_nat k) (Z.of_nat (length (bulk d)))); [lia|].
    cbn [negb Z.eqb NGX_OK]. rewrite Nat2Z.id, (take_ge (bulk d)), take_app_length' by lia.
    done.
Qed.

Lemma process_header_waits_witness :
  let c := mk_ctx QKUPSTREAM_ASKING_END false (bs "GET k") [] [] [] 0 in
  let u := mk_us None (bs "+OK" ++ CRLF ++ bs "$2" ++ CRLF ++ bs "a" ++ bs "????") 10 [] 0 0 false in
  process_header (fun c u => (NGX_OK, c, u)) (Some c) u = (NGX_AGAIN, Some c, u).
Proof.
  apply (process_header_waits (fun c u => (NGX_OK, c, u))
    (mk_ctx QKUPSTREAM_ASKING_END false (bs "GET k") [] [] [] 0)
    (mk_us None (bs "+OK" ++ CRLF ++ bs "$2" ++ CRLF ++ bs "a" ++ bs "????") 10 [] 0 0 false)
    (bs "ab") (bs "????") 5).
  - by right.
  - reflexivity.
  - vm_compute. lia.
  - reflexivity.
  - reflexivity.
Defined.

(** ** Redirections *)

(** What re-initialising the request does to the redirection state. *)
Inductive redirect : Z -> Z -> Prop :=
| rd_none : redirect QKUPSTREAM_OK QKUPSTREAM_OK
| rd_moved : redirect QKUPSTREAM_MOVED QKUPSTREAM_OK
| rd_asking : redirect QKUPSTREAM_ASKING QKUPSTREAM_ASKING_END.

(** [reinit_request] succeeds exactly in the states with a successor in
    [redirect] (with memory and a request to send), ends in that successor,
    and queues a new copy of the request only for [ASKING]; in the other states,
    [ASK] and [ASKING_END] among them, it fails and changes nothing. *)
Theorem reinit_request_spec mem c u :
  (2 <= mem)%nat -> request_buffer c <> [] ->
  (forall m', redirect (moved_ask c) m' ->
     reinit_request mem (Some c) u =
       (NGX_OK, Some (c <| moved_ask := m' |>),
        if moved_ask c =? QKUPSTREAM_ASKING
        then u <| request_bufs := Some (request_buffer c) |> else u)) /\
  ((forall m', ~ redirect (moved_ask c) m') ->
     reinit_request mem (Some c) u = (NGX_ERROR, Some c, u)).
Proof.
  intros Hm Hb. unfold reinit_request. rewrite bool_decide_false by done.
  destruct (Nat.ltb_spec mem 2); [lia|]. destruct c as [m hp rb rs un ui tr]. cbn in *. split.
  - intros m' Hr. by inversion Hr; subst m.
  - intros Hno.
    destruct (Z.eqb_spec m QKUPSTREAM_OK) as [-> |_]; [destruct (Hno _ rd_none)|].
    destruct (Z.eqb_spec m QKUPSTREAM_MOVED) as [-> |_]; [destruct (Hno _ rd_moved)|].
    destruct (Z.eqb_spec m QKUPSTREAM_ASKING) as [-> |_]; [destruct (Hno _ rd_asking)|done].
Qed.

Lemma reinit_request_spec_witness :
  let c := mk_ctx QKUPSTREAM_MOVED false (bs "GET k") [] [] [] 0 in
  let u := mk_us None [] 0 [] 0 0 false in
  reinit_request 2 (Some c) u = (NGX_OK, Some (c <| moved_ask := QKUPSTREAM_OK |>), u).
Proof.
  refine (proj1 (reinit_request_spec 2 (mk_ctx QKUPSTREAM_MOVED false (bs "GET k") [] [] [] 0)
                   (mk_us None [] 0 [] 0 0 false) _ _) QKUPSTREAM_OK _); [lia|done|constructor].
Defined.

(** ** The body *)

Fixpoint filter_all (u : upstream_state) (sizes : list Z) : upstream_state :=
  match sizes with
  | [] => u
  | n :: sizes' => filter_all (snd (filter true u n)) sizes'
  end.

Definition sum (l : list Z) : Z := foldr Z.add 0 l.

Lemma sum_nonneg l : Forall (fun n => 0 < n) l -> 0 <= sum l.
Proof. unfold sum. induction 1; cbn; lia. Qed.

(** The ranges of reads of the given sizes from [last] on. *)
Fixpoint ranges (last : Z) (sizes : list Z) : list (Z * Z) :=
  match sizes with
  | [] => []
  | n :: sizes' => (last, last + n) :: ranges (last + n) sizes'
  end.

Lemma filter_all_fields u sizes :
  let u' := filter_all u sizes in
  out_bufs u' = out_bufs u ++ ranges (buf_last u) sizes /\
  buf_last u' = buf_last u + sum sizes /\ ulength u' = ulength u - sum sizes.
Proof.
  revert u. induction sizes as [|n sizes IH]; intros u; cbn [filter_all ranges sum foldr].
  - rewrite app_nil_r. split_and!; [done|lia|lia].
  - destruct (IH (snd (filter true u n))) as (H1 & H2 & H3). rewrite H1, H2, H3.
    destruct u as [rb b bl ob cl ul k]. unfold filter. cbn.
    destruct (ul - n =? 0); cbn; rewrite <- app_assoc; cbn; (split_and!; [done| |];
      unfold sum; lia).
Qed.

Lemma filter_all_keepalive u sizes :
  Forall (fun n => 0 < n) sizes -> keepalive u = false -> 0 < ulength u -> sum sizes <= ulength u ->
  keepalive (filter_all u sizes) = (sum sizes =? ulength u).
Proof.
  intros Hp. revert u. induction Hp as [|n sizes Hn Hp IH]; intros u Hk Hu Hs;
    cbn [filter_all sum foldr] in *.
  - rewrite Hk. symmetry. apply Z.eqb_neq. lia.
  - fold (sum sizes) in *. pose proof (sum_nonneg _ Hp) as Hss.
    destruct (Z.eq_dec n (ulength u)) as [E|E].
    + assert (sizes = []) as ->.
      { destruct Hp as [|m sizes Hm Hp]; [done|]. exfalso. cbn in Hs.
        pose proof (sum_nonneg _ Hp). unfold sum in *. lia. }
      destruct u as [rb b bl ob cl ul k]. cbn in *. unfold filter. cbn.
      rewrite (proj2 (Z.eqb_eq (ul - n) 0)) by lia. cbn. symmetry. apply Z.eqb_eq. lia.
    + destruct u as [rb b bl ob cl ul k]. cbn in *. unfold filter. cbn.
      rewrite (proj2 (Z.eqb_neq (ul - n) 0)) by lia. cbn. rewrite IH; [|done|cbn; lia|cbn; lia].
      cbn. bool_lia.
Qed.

(** the body filter forwards every byte once and in order, whatever the
    sizes of the reads: the output buffers are consecutive ranges of the receive
    buffer, and the connection is marked reusable exactly when as many bytes as
    announced have been passed on. *)
Theorem filter_forwards_body u sizes :
  Forall (fun n => 0 < n) sizes -> keepalive u = false -> 0 < content_length_n u ->
  sum sizes <= content_length_n u -> out_bufs u = [] ->
  let u' := filter_all (filter_init u) sizes in
  out_bufs u' = ranges (buf_last u) sizes /\ buf_last u' = buf_last u + sum sizes /\
  keepalive u' = (sum sizes =? content_length_n u).
Proof.
  intros Hp Hk Hc Hs Ho. destruct u as [rb b bl ob cl ul k]. cbn in *. subst ob.
  set (u0 := filter_init _). destruct (filter_all_fields u0 sizes) as (H1 & H2 & _).
  rewrite H1, H2. split_and!; [done|done|]. by apply filter_all_keepalive.
Qed.

Lemma filter_forwards_body_witness :
  keepalive (filter_all (filter_init (mk_us None [] 0 [] 7 0 false)) [3; 4]) = true.
Proof.
  pose proof (filter_forwards_body (mk_us None [] 0 [] 7 0 false) [3; 4]) as H.
  destruct H as (_ & _ & H); [repeat constructor; done|done|done|done|done|]. exact H.
Defined.

End QkHandler.
