(* ===== verification/QkLocation.v ===== *)
(** * Locations that pass requests to QKPack upstreams

    [src/module_qkpack/src/qkupstream/ngx_http_qkupstream_module.c]: the configuration of a
    location and its directives; [ngx_upstream_handler.c]: the content handler
    [ngx_http_qkupstream_handler], with the two functions of the engine between it and the
    choice of a server, [ngx_http_read_client_request_body] and
    [ngx_http_upstream_init_request]; and the directive and the peer data of the node
    balancer ([ngx_http_qkupstream_node_module.c]).

    A process serves many requests at once, and all requests of a location share its
    configuration, which the handler of a location with variables writes to.  The model is
    a world of locations and requests that events change one at a time, in any order.  An
    upstream is named by its position in the registry of [QkUpstream]; positions do not
    change, the registry only gets servers and peers while requests are served.

    Scripts are kept as their text and evaluated by a parameter.  Allocations, the plugin
    and the rest of the engine are parameters that tell what they returned. *)

From stdpp Require Import gmap.
From S2P Require Import Prelude NgxString NgxInet RoundRobin QkUpstream QkHandler.

Module QkLocation.
Import NgxString Sockaddr RoundRobin QkUpstream QkHandler.

Definition NGX_HTTP_SPECIAL_RESPONSE : Z := 300.
Definition HTTP_500 : Z := 500.

(** [(ngx_uint_t) -1], [(ngx_msec_t) -1] and [(size_t) -1] *)
Definition CONF_UNSET : Z := 2 ^ 64 - 1.

Definition NGX_CONF_BITMASK_SET : Z := 1.
Definition FT_ERROR : Z := 2.
Definition FT_TIMEOUT : Z := 4.
Definition FT_OFF : Z := 2147483648.

(** ** The configuration of a location *)

(** [ngx_http_qkupstream_loc_conf_t]: the fields of [upstream] the module sets.  The script
    of [complex_target] is its text. *)
Record loc_conf : Type := mk_loc {
  upstream_tries : Z;
  connect_timeout : Z;
  send_timeout : Z;
  read_timeout : Z;
  buffer_size : Z;
  next_upstream : Z;
  cyclic_temp_file : bool;
  buffering : bool;
  ignore_client_abort : bool;
  send_lowat : Z;
  bufs_num : Z;
  bufs_size : Z;
  busy_buffers_size : Z;
  max_temp_file_size : Z;
  temp_file_write_size : Z;
  intercept_errors : bool;
  intercept_404 : bool;
  pass_request_headers : bool;
  pass_request_body : bool;
  upstream : option nat;
  complex_target : option str
}.

#[export] Instance eta_loc : Eta loc_conf := fun c =>
  mk_loc (upstream_tries c) (connect_timeout c) (send_timeout c) (read_timeout c) (buffer_size c)
    (next_upstream c) (cyclic_temp_file c) (buffering c) (ignore_client_abort c) (send_lowat c)
    (bufs_num c) (bufs_size c) (busy_buffers_size c) (max_temp_file_size c)
    (temp_file_write_size c) (intercept_errors c) (intercept_404 c) (pass_request_headers c)
    (pass_request_body c) (upstream c) (complex_target c).

(** [ngx_http_qkupstream_create_loc_conf] *)
Definition create_loc_conf (mem : bool) (ngx_pagesize : Z) : option loc_conf :=
  if negb mem then None
  else Some (mk_loc CONF_UNSET CONF_UNSET CONF_UNSET CONF_UNSET CONF_UNSET 0 false false true 0 8
               ngx_pagesize (2 * ngx_pagesize) (1024 * 1024 * 1024) 0 true true false false
               None None).

(** [ngx_conf_merge_uint_value] and the like, and [ngx_conf_merge_bitmask_value] *)
Definition merge_value (unset conf prev default : Z) : Z :=
  if conf =? unset then (if prev =? unset then default else prev) else conf.

(** [ngx_http_qkupstream_merge_loc_conf]: the settings, the conditions for the next server and
    the upstream *)
Definition merge_settings (prev conf : loc_conf) : loc_conf :=
  conf <| connect_timeout := merge_value CONF_UNSET (connect_timeout conf) (connect_timeout prev) 60000 |>
       <| send_timeout := merge_value CONF_UNSET (send_timeout conf) (send_timeout prev) 60000 |>
       <| read_timeout := merge_value CONF_UNSET (read_timeout conf) (read_timeout prev) 60000 |>
       <| upstream_tries := merge_value CONF_UNSET (upstream_tries conf) (upstream_tries prev) 0 |>
       <| buffer_size := merge_value CONF_UNSET (buffer_size conf) (buffer_size prev) 8096 |>.

Definition merge_next_upstream (conf prev : Z) : Z :=
  let n := merge_value 0 conf prev (Z.lor NGX_CONF_BITMASK_SET (Z.lor FT_ERROR FT_TIMEOUT)) in
  if negb (Z.land n FT_OFF =? 0) then Z.lor NGX_CONF_BITMASK_SET FT_OFF else n.

Definition merge_loc_conf (prev conf : loc_conf) : loc_conf :=
  let conf := merge_settings prev conf in
  let conf := conf <| next_upstream := merge_next_upstream (next_upstream conf) (next_upstream prev) |> in
  match upstream conf with
  | None => conf <| upstream := upstream prev |>
  | Some _ => conf
  end.

(** [ngx_http_script_variables_count] *)
Fixpoint ngx_http_script_variables_count (value : str) : nat :=
  match value with
  | [] => 0%nat
  | c :: value => ((if (c =? 36)%Z then 1 else 0) + ngx_http_script_variables_count value)%nat
  end.

Inductive conf_result : Type := CONF_OK | CONF_ERROR | CONF_DUPLICATE.

(** What the directive changes of the core's configuration of the location. *)
Record core_conf : Type := mk_core { clcf_name : str; clcf_qk_handler : bool; auto_redirect : bool }.

#[export] Instance eta_core : Eta core_conf := fun c =>
  mk_core (clcf_name c) (clcf_qk_handler c) (auto_redirect c).

(** [ngx_http_qkupstream_pass]; [None] is the read in front of an empty name.  [add] is
    [ngx_http_upstream_add]; [mem] and [compiled] tell whether the allocation and the
    compilation of the script succeed. *)
Definition qkupstream_pass (add : str -> option nat) (mem compiled : bool) (value1 : str)
    (clcf : core_conf) (rlcf : loc_conf) : option (conf_result * core_conf * loc_conf) :=
  match upstream rlcf with
  | Some _ => Some (CONF_DUPLICATE, clcf, rlcf)
  | None =>
      let clcf := clcf <| clcf_qk_handler := true |> in
      c ← clcf_name clcf !! pred (length (clcf_name clcf));
      let clcf := if c =? 47 then clcf <| auto_redirect := true |> else clcf in
      if negb (ngx_http_script_variables_count value1 =? 0)%nat then
        if negb mem then Some (CONF_ERROR, clcf, rlcf <| complex_target := None |>)
        else
          let rlcf := rlcf <| complex_target := Some value1 |> in
          Some (if compiled then CONF_OK else CONF_ERROR, clcf, rlcf)
      else
        let rlcf := rlcf <| complex_target := None |> in
        let rlcf := rlcf <| upstream := add value1 |> in
        Some (match upstream rlcf with None => CONF_ERROR | Some _ => CONF_OK end, clcf, rlcf)
  end.

(** ** The upstream a URL names *)

(** The tests of [ngx_http_qkupstream_upstream_add] *)
Definition upstream_match (url_host : str) (url_port url_default_port : Z) (u : upstream_t) : bool :=
  (length (host u) =? length url_host)%nat &&
  (ngx_strncasecmp (host u) url_host (length url_host) =? 0) &&
  (port u =? url_port) &&
  negb (negb (default_port u =? 0) && negb (url_default_port =? 0) &&
        negb (default_port u =? url_default_port)).

(** The position of the upstream [ngx_http_qkupstream_upstream_add] returns *)
Definition upstream_add_at (g : registry) (url_host : str) (url_port url_default_port : Z)
    : option nat :=
  fst <$> list_find (fun u => upstream_match url_host url_port url_default_port u = true) g.

(** ** Requests *)

(** What the handler and the functions it calls read of a request: its location,
    [r == r->main], whether [request_body] or [discard_body] is set, and the length its
    headers announce. *)
Record request : Type := mk_request {
  r_loc : nat;
  r_main : bool;
  r_body : bool;
  r_content_length : Z;
  r_chunked : bool
}.

(** What the handler sets in [r->upstream]: [u->conf] points into the location's
    configuration. *)
Record ups : Type := mk_ups {
  u_schema : str;
  u_conf : nat;
  u_buffering : bool;
  u_ctx : option ctx_t;
  u_state : upstream_state
}.

#[export] Instance eta_ups : Eta ups := fun u =>
  mk_ups (u_schema u) (u_conf u) (u_buffering u) (u_ctx u) (u_state u).

(** A request waits for its body, has begun with an upstream, or is finalized. *)
Inductive phase : Type :=
| Waiting (u : ups)
| Sent (i : nat) (u : ups)
| Finalized (rc : Z).

(** What [ngx_http_upstream_init_request] gets from the rest of the program: whether the
    allocations of its own succeed, the plugin, the allocations of [create_request] and
    [uscf->peer.init]. *)
Record init_env : Type := mk_ienv {
  i_filter : bool;
  i_init : ctx_t -> Z * ctx_t;
  i_process : ctx_t -> Z * ctx_t;
  i_mem : nat;
  i_states : bool;
  i_cleanup : bool;
  i_peer_init : nat -> Z
}.

(** [ngx_http_upstream_init_request] for a location without a cache, outside file I/O and
    with [u->resolved == NULL], as the module leaves it.  [c] is [*u->conf]. *)
Definition ngx_http_upstream_init_request (e : init_env) (c : loc_conf) (u : ups) : phase :=
  if negb (i_filter e) then Finalized HTTP_500
  else
    let '(rc, ctx, us, _) := create_request (i_init e) (i_process e) (i_mem e) (u_ctx u) (u_state u) in
    let u := u <| u_ctx := ctx |> <| u_state := us |> in
    if negb (rc =? NGX_OK) then Finalized HTTP_500
    else if negb (i_states e) then Finalized HTTP_500
    else if negb (i_cleanup e) then Finalized HTTP_500
    else match upstream c with
         | None => Finalized HTTP_500
         | Some i => if negb (i_peer_init e i =? NGX_OK) then Finalized HTTP_500 else Sent i u
         end.

(** What happens to a body that has to be read: it is there, it has to be waited for, or
    reading fails with a code. *)
Inductive body_io : Type := BodyThere | BodyLater | BodyFails (rc : Z).

(** [ngx_http_read_client_request_body] outside SPDY: the code and whether the post handler
    runs at once.  [expect] tells that [ngx_http_test_expect] succeeds, [mem] that the
    allocation does. *)
Definition ngx_http_read_client_request_body (expect mem : bool) (io : body_io) (r : request)
    : Z * bool :=
  if negb (r_main r) || r_body r then (NGX_OK, true)
  else if negb expect then (HTTP_500, false)
  else if negb mem then (HTTP_500, false)
  else if (r_content_length r <? 0) && negb (r_chunked r) then (NGX_OK, true)
  else match io with
       | BodyThere => (NGX_OK, true)
       | BodyLater => (NGX_AGAIN, false)
       | BodyFails rc => (rc, false)
       end.

(** What the handler gets from the rest of the program; [h_junk] is what the uninitialised
    [url.default_port] holds. *)
Record handler_env : Type := mk_henv {
  h_content_type : bool;
  h_create : bool;
  h_eval : str -> option str;
  h_junk : Z;
  h_ctx : bool;
  h_expect : bool;
  h_body_mem : bool;
  h_io : body_io;
  h_init : init_env
}.

(** The zeroed context with the fields the handler sets, and the zeroed [r->upstream]. *)
Definition fresh_ctx : ctx_t := mk_ctx QKUPSTREAM_OK false [] [] [] [] 0.
Definition fresh_state : upstream_state := mk_us None [] 0 [] (-1) 0 false.

Definition schema : str := bs "qkpack://".

(** The part of [ngx_http_qkupstream_handler] that chooses the upstream: the code with which
    it returns, if it does, and the configuration. *)
Definition choose_upstream (g : registry) (e : handler_env) (rlcf : loc_conf)
    : option Z * loc_conf :=
  match complex_target rlcf with
  | None => (None, rlcf)
  | Some script =>
      match h_eval e script with
      | None => (Some NGX_ERROR, rlcf)
      | Some target =>
          if (length target =? 0)%nat then (Some HTTP_500, rlcf)
          else
            let rlcf := rlcf <| upstream := upstream_add_at g target 0 (h_junk e) |> in
            match upstream rlcf with
            | None => (Some HTTP_500, rlcf)
            | Some _ => (None, rlcf)
            end
      end
  end.

(** [ngx_http_qkupstream_handler]: the code, the configuration of the location, and the
    phase of the request when the handler has not failed.  What the caller does with the
    code is in [content_phase]. *)
Definition ngx_http_qkupstream_handler (g : registry) (e : handler_env) (r : request) (rlcf : loc_conf)
    : Z * loc_conf * option phase :=
  if negb (h_content_type e) then (HTTP_500, rlcf, None)
  else if negb (h_create e) then (HTTP_500, rlcf, None)
  else
    match choose_upstream g e rlcf with
    | (Some rc, rlcf) => (rc, rlcf, None)
    | (None, rlcf) =>
        if negb (h_ctx e) then (HTTP_500, rlcf, None)
        else
          let u := mk_ups schema (r_loc r) (buffering rlcf) (Some fresh_ctx) fresh_state in
          let '(rc, run) := ngx_http_read_client_request_body (h_expect e) (h_body_mem e) (h_io e) r in
          let p := if run then ngx_http_upstream_init_request (h_init e) rlcf u else Waiting u in
          if rc >=? NGX_HTTP_SPECIAL_RESPONSE then (rc, rlcf, None)
          else (NGX_DONE, rlcf, Some p)
    end.

(** [ngx_http_finalize_request(r, r->content_handler(r))] *)
Definition handler_phase (rc : Z) (p : option phase) : phase :=
  match p with Some p => p | None => Finalized rc end.

(** ** The world *)

Record world : Type := mk_world { locs : list loc_conf; reqs : gmap nat phase }.

(** An event: the content handler of a new request runs, the last byte of a body has come
    and the post handler runs, or reading the body fails. *)
Inductive event : Type :=
| Start (id : nat) (r : request) (e : handler_env)
| BodyDone (id : nat) (e : init_env)
| BodyBroken (id : nat) (rc : Z).

Definition handle (g : registry) (ev : event) (w : world) : world :=
  match ev with
  | Start id r e =>
      match reqs w !! id, locs w !! r_loc r with
      | None, Some rlcf =>
          let '(rc, rlcf, p) := ngx_http_qkupstream_handler g e r rlcf in
          mk_world (<[r_loc r := rlcf]> (locs w)) (<[id := handler_phase rc p]> (reqs w))
      | _, _ => w
      end
  | BodyDone id e =>
      match reqs w !! id with
      | Some (Waiting u) =>
          match locs w !! u_conf u with
          | Some c => mk_world (locs w) (<[id := ngx_http_upstream_init_request e c u]> (reqs w))
          | None => w
          end
      | _ => w
      end
  | BodyBroken id rc =>
      match reqs w !! id with
      | Some (Waiting _) => mk_world (locs w) (<[id := Finalized rc]> (reqs w))
      | _ => w
      end
  end.

Fixpoint handle_all (g : registry) (evs : list event) (w : world) : world :=
  match evs with [] => w | ev :: evs => handle_all g evs (handle g ev w) end.

(** ** The node balancer *)

(** [ngx_http_qkupstream_node_init] *)
Definition node_init (check_add_peer : addr_t -> Z) (resolve : str -> Z -> Z * list addr_t) (mem : nat)
    (us : upstream_t) : Z * upstream_t * bool :=
  let '(rc, us) := init_round_robin check_add_peer resolve mem us in
  if negb (rc =? NGX_OK) then (NGX_ERROR, us, false) else (NGX_OK, us, true).

(** [ngx_http_qkupstream_node_init_peer]: the code, the peer data, the connection, and
    whether [peer.get] is the node balancer's.  [mem] is the number of allocations that
    succeed, [eval] the value of the key. *)
Definition node_init_peer (mem : nat) (eval : option str) (us : upstream_t) (pc : pc_t)
    : option (Z * option node_t * pc_t * bool) :=
  match mem with
  | O => Some (NGX_ERROR, None, pc, false)
  | S mem =>
      '(rc, rrp, pc) ← init_round_robin_peer mem (Some (mk_rrp 0 0 [])) us pc;
      rrp ← rrp;
      if negb (rc =? NGX_OK) then Some (NGX_ERROR, None, pc, false)
      else match eval with
           | None => Some (NGX_ERROR, None, pc, true)
           | Some key => Some (NGX_OK, Some (mk_node rrp key 0), pc, true)
           end
  end.

(** The flags of an upstream with the directive [qkupstream_node]: [CREATE], [WEIGHT],
    [MAX_FAILS], [FAIL_TIMEOUT] and [DOWN]; [BACKUP] is not among them. *)
Definition node_flags : Z := Z.lor 1 (Z.lor 2 (Z.lor 4 (Z.lor 8 16))).

Record node_conf : Type := mk_nconf { n_key : option str; n_flags : Z; n_node_init : bool }.

(** [ngx_http_qkupstream_node] with the [args] behind the name of the directive *)
Definition qkupstream_node (compiled : bool) (args : list str) (conf : node_conf)
    : option (conf_result * node_conf) :=
  v1 ← args !! 0%nat;
  if negb compiled then Some (CONF_ERROR, conf)
  else if (length args =? 1)%nat then Some (CONF_OK, mk_nconf (Some v1) node_flags true)
  else Some (CONF_ERROR, mk_nconf (Some v1) node_flags (n_node_init conf)).

(** ** Lemmas *)

Lemma upstream_add_at_spec g h p d : upstream_add g h p d = upstream_add_at g h p d ≫= (fun i => g !! i).
Proof.
  unfold upstream_add, upstream_add_at. induction g as [|u g IH]; [done|].
  cbn [List.find list_find]. fold (upstream_match h p d u).
  destruct (upstream_match h p d u) eqn:E.
  - rewrite decide_True by done. done.
  - rewrite decide_False by congruence. rewrite IH. by destruct (list_find _ g) as [[i v]|].
Qed.

Lemma upstream_add_at_Some g h p d i :
  upstream_add_at g h p d = Some i ->
  exists u, g !! i = Some u /\ upstream_match h p d u = true /\
    forall j v, (j < i)%nat -> g !! j = Some v -> upstream_match h p d v = false.
Proof.
  unfold upstream_add_at. intros H.
  destruct (list_find (fun u => upstream_match h p d u = true) g) as [[k u]|] eqn:E; [|done].
  injection H as <-. apply list_find_Some in E as (Hi & Hu & Hj). exists u. split_and!; [done..|].
  intros j v Hlt Hv. apply not_true_is_false. eauto.
Qed.

(** In a registry the configuration builds, an upstream without a port has no default port,
    and the uninitialised [url.default_port] does not matter. *)
Definition ports_set (g : registry) : Prop := Forall (fun u => port u = 0 -> default_port u = 0) g.

Lemma upstream_match_junk h d d' u :
  (port u = 0 -> default_port u = 0) -> upstream_match h 0 d u = upstream_match h 0 d' u.
Proof.
  intros H. unfold upstream_match. destruct (port u =? 0) eqn:E; [|by rewrite !andb_false_r].
  rewrite H by lia. by rewrite Z.eqb_refl.
Qed.

Lemma upstream_add_at_junk g h d d' : ports_set g -> upstream_add_at g h 0 d = upstream_add_at g h 0 d'.
Proof.
  unfold upstream_add_at. induction 1 as [|u g Hu _ IH]; [done|]. cbn [list_find].
  rewrite (upstream_match_junk h d d' u Hu). case_decide; [done|].
  destruct (list_find (fun v => upstream_match h 0 d v = true) g) as [[i v]|],
    (list_find (fun v => upstream_match h 0 d' v = true) g) as [[j v']|]; cbn in *; congruence.
Qed.

(** ** The upstream a request names *)

(** What the handler of a request stores in the configuration of its location: nothing in a
    location without variables, and nothing when it fails before the lookup. *)
Definition names (g : registry) (e : handler_env) (c : loc_conf) : option (option nat) :=
  if h_content_type e && h_create e then
    match complex_target c with
    | Some script =>
        match h_eval e script with
        | Some target => if (length target =? 0)%nat then None
                         else Some (upstream_add_at g target 0 (h_junk e))
        | None => None
        end
    | None => None
    end
  else None.

(** The handler changes nothing else in the configuration. *)
Lemma handler_conf g e r c rc c' p :
  ngx_http_qkupstream_handler g e r c = (rc, c', p) ->
  c' = match names g e c with Some o => c <| upstream := o |> | None => c end.
Proof.
  unfold ngx_http_qkupstream_handler, choose_upstream, names.
  destruct (h_content_type e), (h_create e); cbn [negb andb]; try congruence.
  destruct (complex_target c) as [script|].
  - destruct (h_eval e script) as [target|]; [|congruence].
    destruct (length target =? 0)%nat; [congruence|].
    cbv [update]; cbn [upstream].
    destruct (upstream_add_at g target 0 (h_junk e)); [|congruence].
    destruct (h_ctx e); cbn [negb]; [|congruence].
    destruct (ngx_http_read_client_request_body _ _ _ r) as [rc0 run].
    destruct (rc0 >=? _); congruence.
  - destruct (h_ctx e); cbn [negb]; [|congruence].
    destruct (ngx_http_read_client_request_body _ _ _ r) as [rc0 run].
    destruct (rc0 >=? _); congruence.
Qed.

Lemma names_conf g e c o : names g e (c <| upstream := o |>) = names g e c.
Proof. done. Qed.

(** ** Which upstream a request gets *)

(** The upstream a request should get: the one its target names, or the one of a location
    without variables. *)
Definition wanted (g : registry) (e : handler_env) (c : loc_conf) : option nat :=
  match complex_target c with
  | None => upstream c
  | Some script =>
      match h_eval e script with
      | Some (b :: t) => upstream_add_at g (b :: t) 0 (h_junk e)
      | _ => None
      end
  end.

(** The body has to be read from the client. *)
Definition needs_body (r : request) : bool :=
  r_main r && negb (r_body r) && ((0 <=? r_content_length r) || r_chunked r).

(** Nothing fails in the handler, and nothing in the start of the upstream [i]. *)
Definition handler_works (e : handler_env) : Prop :=
  h_content_type e = true /\ h_create e = true /\ h_ctx e = true /\ h_expect e = true /\ h_body_mem e = true.

Definition init_works (e : init_env) (i : nat) : Prop :=
  i_filter e = true /\ fst (i_init e fresh_ctx) = NGX_OK /\
  fst (i_process e (snd (i_init e fresh_ctx))) = NGX_OK /\ (2 <= i_mem e)%nat /\
  i_states e = true /\ i_cleanup e = true /\ i_peer_init e i = NGX_OK.

(** The context after the plugin has built the command of a request. *)
Definition command_ctx (e : init_env) : ctx_t := snd (i_process e (snd (i_init e fresh_ctx))).

(** [r->upstream] after the handler, and after the start of the upstream. *)
Definition fresh_ups (r : request) (c : loc_conf) : ups :=
  mk_ups schema (r_loc r) (buffering c) (Some fresh_ctx) fresh_state.

Definition started (r : request) (c : loc_conf) (e : init_env) : ups :=
  (fresh_ups r c) <| u_ctx := Some (command_ctx e) |>
    <| u_state := fresh_state <| request_bufs := Some (request_buffer (command_ctx e)) |> |>.

Lemma init_request_works e i c0 c r :
  init_works e i -> upstream c = Some i ->
  ngx_http_upstream_init_request e c (fresh_ups r c0) = Sent i (started r c0 e).
Proof.
  intros (Hf & Hi & Hp & Hm & Hs & Hc & Hpi) Hu.
  unfold ngx_http_upstream_init_request, create_request, started, command_ctx.
  rewrite Hf, Hs, Hc, Hu. cbn [negb fresh_ups u_ctx u_state].
  destruct (i_init e fresh_ctx) as [rc ctx]; cbn [fst snd] in *. rewrite Hi, Z.eqb_refl. cbn [negb].
  destruct (i_process e ctx) as [rc' ctx']; cbn [fst snd] in *. rewrite Hp, Z.eqb_refl. cbn [negb].
  destruct (i_mem e <? 2)%nat eqn:E; [apply Nat.ltb_lt in E; lia|].
  rewrite Z.eqb_refl, Hpi, Z.eqb_refl. done.
Qed.

(** The configuration the handler leaves. *)
Definition with_upstream (c : loc_conf) (i : nat) : loc_conf := c <| upstream := Some i |>.

Lemma with_same c i : upstream c = Some i -> with_upstream c i = c.
Proof. destruct c; cbn. by intros ->. Qed.

Lemma choose_wanted g e c i :
  wanted g e c = Some i -> choose_upstream g e c = (None, with_upstream c i).
Proof.
  unfold wanted, choose_upstream. destruct (complex_target c) as [s|].
  - destruct (h_eval e s) as [[|b t]|]; [done| |done]. cbn [length Nat.eqb].
    intros H. cbv [update]; cbn [upstream]. rewrite H. done.
  - intros H. by rewrite with_same.
Qed.

Lemma read_body_ready e r :
  handler_works e -> needs_body r = false \/ h_io e = BodyThere ->
  ngx_http_read_client_request_body (h_expect e) (h_body_mem e) (h_io e) r = (NGX_OK, true).
Proof.
  intros (_ & _ & _ & He & Hm) H. unfold ngx_http_read_client_request_body, needs_body in *.
  rewrite He, Hm. destruct (r_main r), (r_body r); cbn [negb orb andb] in *; try done.
  destruct (r_content_length r <? 0) eqn:E, (r_chunked r); cbn [negb andb orb] in *; try done;
    destruct H as [H| ->]; try done; rewrite ?orb_true_r in H; try done; lia.
Qed.

Lemma read_body_later e r :
  handler_works e -> needs_body r = true -> h_io e = BodyLater ->
  ngx_http_read_client_request_body (h_expect e) (h_body_mem e) (h_io e) r = (NGX_AGAIN, false).
Proof.
  intros (_ & _ & _ & He & Hm) H Hio. unfold ngx_http_read_client_request_body, needs_body in *.
  rewrite He, Hm, Hio. destruct (r_main r), (r_body r); cbn [negb orb andb] in *; try done.
  destruct (r_content_length r <? 0) eqn:E, (r_chunked r); cbn [negb andb orb] in *; try done; lia.
Qed.

Lemma handler_ready g e r c i :
  handler_works e -> wanted g e c = Some i -> init_works (h_init e) i ->
  needs_body r = false \/ h_io e = BodyThere ->
  ngx_http_qkupstream_handler g e r c =
    (NGX_DONE, with_upstream c i, Some (Sent i (started r c (h_init e)))).
Proof.
  intros He Hw Hi Hb. unfold ngx_http_qkupstream_handler. rewrite (choose_wanted _ _ _ _ Hw).
  rewrite (read_body_ready e r He Hb). destruct He as (-> & -> & -> & _ & _). cbn [negb].
  change (mk_ups schema (r_loc r) (buffering (with_upstream c i)) (Some fresh_ctx) fresh_state) with (fresh_ups r c).
  by rewrite (init_request_works _ i).
Qed.

Lemma handler_waits g e r c i :
  handler_works e -> wanted g e c = Some i -> needs_body r = true -> h_io e = BodyLater ->
  ngx_http_qkupstream_handler g e r c = (NGX_DONE, with_upstream c i, Some (Waiting (fresh_ups r c))).
Proof.
  intros He Hw Hb Hio. unfold ngx_http_qkupstream_handler. rewrite (choose_wanted _ _ _ _ Hw).
  rewrite (read_body_later e r He Hb Hio). by destruct He as (-> & -> & -> & _ & _).
Qed.

(** *** Other events *)

Definition event_id (ev : event) : nat :=
  match ev with Start id _ _ | BodyDone id _ | BodyBroken id _ => id end.

Lemma handle_other g ev w id : event_id ev <> id -> reqs (handle g ev w) !! id = reqs w !! id.
Proof.
  intros H. destruct ev as [k r e|k e|k rc]; cbn [handle event_id] in *.
  - destruct (reqs w !! k); [done|]. destruct (locs w !! r_loc r); [|done].
    destruct (ngx_http_qkupstream_handler g e r l) as [[rc c] p]. by apply lookup_insert_ne.
  - destruct (reqs w !! k) as [[u| |]|]; try done. destruct (locs w !! u_conf u); [|done].
    by apply lookup_insert_ne.
  - destruct (reqs w !! k) as [[u| |]|]; try done. by apply lookup_insert_ne.
Qed.

Lemma handle_all_other g evs w id :
  Forall (fun ev => event_id ev <> id) evs -> reqs (handle_all g evs w) !! id = reqs w !! id.
Proof.
  intros H. revert w. induction H as [|ev evs He _ IH]; intros w; [done|].
  cbn [handle_all]. rewrite IH. by apply handle_other.
Qed.

(** The handler of a request for the location [l], which has the configuration [c], stores
    [i] or nothing. *)
Definition keeps (g : registry) (l : nat) (c : loc_conf) (i : nat) (ev : event) : Prop :=
  match ev with
  | Start _ r e => r_loc r = l -> names g e c = None \/ names g e c = Some (Some i)
  | _ => True
  end.

Lemma handle_keeps g ev w l c i :
  locs w !! l = Some (with_upstream c i) -> keeps g l c i ev ->
  locs (handle g ev w) !! l = Some (with_upstream c i).
Proof.
  intros Hl Hk. destruct ev as [k r e|k e|k rc]; cbn [handle keeps] in *.
  - destruct (reqs w !! k); [done|]. destruct (locs w !! r_loc r) as [c1|] eqn:E; [|done].
    destruct (ngx_http_qkupstream_handler g e r c1) as [[rc c2] p] eqn:E2.
    apply handler_conf in E2. cbn [locs]. destruct (decide (r_loc r = l)) as [<-|Hne].
    + rewrite E in Hl. injection Hl as ->. rewrite list_lookup_insert_eq by by eapply lookup_lt_Some.
      f_equal. rewrite E2. change (names g e (with_upstream c i)) with (names g e c).
      by destruct (Hk eq_refl) as [-> | ->].
    + by rewrite list_lookup_insert_ne.
  - destruct (reqs w !! k) as [[u| |]|]; try done. by destruct (locs w !! u_conf u).
  - by destruct (reqs w !! k) as [[u| |]|].
Qed.

Lemma handle_all_keeps g evs w l c i :
  locs w !! l = Some (with_upstream c i) -> Forall (keeps g l c i) evs ->
  locs (handle_all g evs w) !! l = Some (with_upstream c i).
Proof.
  intros Hl H. revert w Hl. induction H as [|ev evs He _ IH]; intros w Hl; [done|].
  cbn [handle_all]. apply IH. by apply handle_keeps.
Qed.

Lemma handle_all_app g evs evs' w : handle_all g (evs ++ evs') w = handle_all g evs' (handle_all g evs w).
Proof. revert w. induction evs as [|ev evs IH]; intros w; [done|]. cbn. apply IH. Qed.

Lemma start_step g w id r e c rc c' p :
  locs w !! r_loc r = Some c -> reqs w !! id = None ->
  ngx_http_qkupstream_handler g e r c = (rc, c', Some p) ->
  locs (handle g (Start id r e) w) !! r_loc r = Some c' /\ reqs (handle g (Start id r e) w) !! id = Some p.
Proof.
  intros Hl Hr H. cbn [handle]. rewrite Hr, Hl, H. cbn [locs reqs handler_phase].
  split; [apply list_lookup_insert_eq; by eapply lookup_lt_Some|apply lookup_insert_eq].
Qed.

(** C37: in any world and for any upstream the registry has, a request for which nothing fails is
    sent to the upstream its own target names (or to that of a location without variables), with
    the command the plugin built from the request's own context: at once when no body has to be
    waited for, whatever the other requests do; and otherwise when its body has come, provided
    the requests that were begun in the meantime in the same location named the same upstream. *)
Theorem sent_to_its_target g w id r e c i evs :
  locs w !! r_loc r = Some c -> reqs w !! id = None ->
  handler_works e -> wanted g e c = Some i ->
  Forall (fun ev => event_id ev <> id) evs ->
  ((needs_body r = false \/ h_io e = BodyThere) -> init_works (h_init e) i ->
     reqs (handle_all g (Start id r e :: evs) w) !! id = Some (Sent i (started r c (h_init e)))) /\
  (needs_body r = true -> h_io e = BodyLater -> Forall (keeps g (r_loc r) c i) evs ->
     forall e', init_works e' i ->
       reqs (handle_all g (Start id r e :: evs ++ [BodyDone id e']) w) !! id = Some (Sent i (started r c e'))).
Proof.
  intros Hl Hr He Hw Hid. split.
  - intros Hb Hi. cbn [handle_all]. rewrite handle_all_other by done.
    eapply start_step; [done..|]. by apply handler_ready.
  - intros Hb Hio Hk e' Hi. cbn [handle_all]. rewrite handle_all_app. cbn [handle_all].
    destruct (start_step g w id r e c _ _ _ Hl Hr (handler_waits g e r c i He Hw Hb Hio)) as [Hl1 Hr1].
    pose proof (handle_all_keeps g evs _ _ _ _ Hl1 Hk) as Hl2.
    rewrite <- (handle_all_other g evs _ _ Hid) in Hr1.
    generalize dependent (handle_all g evs (handle g (Start id r e) w)). intros w' Hr1 Hl2.
    cbn [handle]. rewrite Hr1.
    cbn [fresh_ups u_conf]. fold (fresh_ups r c). rewrite Hl2. cbn [reqs]. rewrite lookup_insert_eq. f_equal.
    by apply init_request_works.
Qed.

(** Two requests for a location with [qkupstream_pass $backserver], for [redis1] and
    [redis2]; the first has a body that comes later. *)
Definition demo_loc : loc_conf :=
  mk_loc 0 60000 60000 60000 8096 7 false false true 0 8 4096 8192 1073741824 0 true true false false
    None (Some (bs "$backserver")).

Definition demo_world : world := mk_world [demo_loc] ∅.

Definition demo_init (cmd : str) : init_env :=
  mk_ienv true (fun c => (NGX_OK, c)) (fun c => (NGX_OK, c <| request_buffer := cmd |>)) 2 true true
    (fun _ => NGX_OK).

Definition demo_env (target : str) (io : body_io) : handler_env :=
  mk_henv true true (fun _ => Some target) 1234 true true true io (demo_init (bs "GET k")).

Definition demo_get : request := mk_request 0 true false (-1) false.
Definition demo_post : request := mk_request 0 true false 5 false.

Lemma demo_init_works cmd i : init_works (demo_init cmd) i.
Proof. by repeat split. Qed.

Lemma demo_handler_works target io : handler_works (demo_env target io).
Proof. by repeat split. Qed.

Lemma sent_to_its_target_witness :
  reqs (handle_all demo_registry [Start 1 demo_get (demo_env (bs "redis2") BodyLater)] demo_world) !! 1%nat
    = Some (Sent 1 (started demo_get demo_loc (demo_init (bs "GET k")))) /\
  reqs (handle_all demo_registry ([Start 1 demo_post (demo_env (bs "redis2") BodyLater);
          Start 2 demo_get (demo_env (bs "REDIS2") BodyLater); BodyDone 1 (demo_init (bs "SET k"))]) demo_world) !! 1%nat
    = Some (Sent 1 (started demo_post demo_loc (demo_init (bs "SET k")))).
Proof.
  split.
  - refine (proj1 (sent_to_its_target demo_registry demo_world 1 demo_get (demo_env (bs "redis2") BodyLater) demo_loc 1
      [] eq_refl eq_refl _ _ _) _ _); [apply demo_handler_works|reflexivity|apply List.Forall_nil|by left|apply demo_init_works].
  - refine (proj2 (sent_to_its_target demo_registry demo_world 1 demo_post (demo_env (bs "redis2") BodyLater) demo_loc 1
      [Start 2 demo_get (demo_env (bs "REDIS2") BodyLater)] eq_refl eq_refl _ _ _) _ _ _ _ _);
      try reflexivity; try apply demo_handler_works; try apply demo_init_works.
    + apply List.Forall_cons; [discriminate|apply List.Forall_nil].
    + apply List.Forall_cons; [intros _; right; reflexivity|apply List.Forall_nil].
Defined.

(** The first request, for [redis1], is sent to [redis2] when a request for [redis2] runs
    while its body is on the way; a request for an unknown upstream makes it fail. *)
Example waiting_request_rerouted :
  wanted demo_registry (demo_env (bs "redis1") BodyLater) demo_loc = Some 0%nat /\
  (exists u, reqs (handle_all demo_registry [Start 1 demo_post (demo_env (bs "redis1") BodyLater);
     Start 2 demo_get (demo_env (bs "redis2") BodyLater); BodyDone 1 (demo_init (bs "SET k"))] demo_world) !! 1%nat
     = Some (Sent 1 u)) /\
  reqs (handle_all demo_registry [Start 1 demo_post (demo_env (bs "redis1") BodyLater);
     Start 2 demo_get (demo_env (bs "redis9") BodyLater); BodyDone 1 (demo_init (bs "SET k"))] demo_world) !! 1%nat
     = Some (Finalized 500).
Proof. split; [reflexivity|]. split; [eexists; reflexivity|reflexivity]. Qed.

(** A request that waited gets whatever upstream the configuration of its location points to
    when its body has come. *)
Theorem waiting_follows_location g w id e u c :
  reqs w !! id = Some (Waiting u) -> locs w !! u_conf u = Some c ->
  forall i u', reqs (handle g (BodyDone id e) w) !! id = Some (Sent i u') -> upstream c = Some i.
Proof.
  intros Hr Hl i u'. cbn [handle]. rewrite Hr, Hl. cbn [reqs]. rewrite lookup_insert_eq.
  intros [= H]. revert H. unfold ngx_http_upstream_init_request.
  destruct (i_filter e); [cbn [negb]|done]. destruct (create_request _ _ _ _ _) as [[[rc ctx] us] d].
  destruct (rc =? NGX_OK); [cbn [negb]|done]. destruct (i_states e); [cbn [negb]|done].
  destruct (i_cleanup e); [cbn [negb]|done]. destruct (upstream c) as [k|]; [|done].
  destruct (i_peer_init e k =? NGX_OK); [cbn [negb]|done]. congruence.
Qed.

(** The uninitialised port of the URL does not matter in a registry the configuration
    builds. *)
Theorem wanted_ignores_junk g ct cr ev d d' cx ex bm io ie ct' cr' cx' ex' bm' io' ie' c :
  ports_set g ->
  wanted g (mk_henv ct cr ev d cx ex bm io ie) c = wanted g (mk_henv ct' cr' ev d' cx' ex' bm' io' ie') c.
Proof.
  intros Hg. unfold wanted. destruct (complex_target c) as [s|]; [|done]. cbn [h_eval h_junk].
  destruct (ev s) as [[|b t]|]; [done| |done]. by apply upstream_add_at_junk.
Qed.

(** ** Configurations *)

(** The value that applies in a location is the innermost one that is set. *)
Fixpoint innermost (unset default : Z) (vs : list Z) : Z :=
  match vs with
  | [] => default
  | v :: vs => if v =? unset then innermost unset default vs else v
  end.

Lemma merge_innermost unset default v vs :
  default <> unset -> merge_value unset v (innermost unset default vs) default = innermost unset default (v :: vs).
Proof.
  intros Hd. unfold merge_value. cbn [innermost]. destruct (v =? unset); [|done].
  destruct (innermost unset default vs =? unset) eqn:E; [|done].
  apply Z.eqb_eq in E. clear v. induction vs as [|v vs IH]; [done|]. cbn [innermost] in *.
  destruct (v =? unset) eqn:Ev; [by apply IH|]. lia.
Qed.

Lemma merged_field (f : loc_conf -> Z) unset default :
  default <> unset -> (forall p c, f (merge_loc_conf p c) = merge_value unset (f c) (f p) default) ->
  forall c0 cs c, f (foldl merge_loc_conf c0 (cs ++ [c])) = innermost unset default (f <$> rev (c0 :: cs ++ [c])).
Proof.
  intros Hd Hf c0 cs c. rewrite foldl_app. cbn [foldl]. rewrite Hf.
  cbn [rev]. rewrite rev_unit. cbn [app fmap list_fmap]. generalize (f c) as v. clear c.
  induction cs as [|x cs IH] using rev_ind; intros v.
  - cbn. unfold merge_value. done.
  - rewrite foldl_app. cbn [foldl]. rewrite Hf, rev_unit, IH. by apply merge_innermost.
Qed.

Lemma merge_loc_conf_fields p c :
  let m := merge_loc_conf p c in
  connect_timeout m = merge_value CONF_UNSET (connect_timeout c) (connect_timeout p) 60000 /\
  send_timeout m = merge_value CONF_UNSET (send_timeout c) (send_timeout p) 60000 /\
  read_timeout m = merge_value CONF_UNSET (read_timeout c) (read_timeout p) 60000 /\
  upstream_tries m = merge_value CONF_UNSET (upstream_tries c) (upstream_tries p) 0 /\
  buffer_size m = merge_value CONF_UNSET (buffer_size c) (buffer_size p) 8096 /\
  complex_target m = complex_target c /\
  upstream m = match upstream c with Some i => Some i | None => upstream p end.
Proof.
  cbv zeta. unfold merge_loc_conf. change (upstream ((merge_settings p c) <| next_upstream := _ |>)) with (upstream c).
  destruct (upstream c) eqn:E; split_and!; try reflexivity. exact E.
Qed.

(** Through the levels of a configuration, from the outermost [c0] to the location [c]. *)
Theorem merged_settings c0 cs c :
  let merged := foldl merge_loc_conf c0 (cs ++ [c]) in
  let levels := rev (c0 :: cs ++ [c]) in
  connect_timeout merged = innermost CONF_UNSET 60000 (connect_timeout <$> levels) /\
  send_timeout merged = innermost CONF_UNSET 60000 (send_timeout <$> levels) /\
  read_timeout merged = innermost CONF_UNSET 60000 (read_timeout <$> levels) /\
  upstream_tries merged = innermost CONF_UNSET 0 (upstream_tries <$> levels) /\
  buffer_size merged = innermost CONF_UNSET 8096 (buffer_size <$> levels).
Proof.
  cbv zeta. split_and!; apply merged_field; try done; intros p x; apply (merge_loc_conf_fields p x).
Qed.

(** [off] is never kept with another condition. *)
Lemma merge_off p c :
  Z.testbit (next_upstream (merge_loc_conf p c)) 31 = true ->
  next_upstream (merge_loc_conf p c) = Z.lor NGX_CONF_BITMASK_SET FT_OFF.
Proof.
  assert (next_upstream (merge_loc_conf p c) = merge_next_upstream (next_upstream c) (next_upstream p)) as ->
    by (unfold merge_loc_conf; destruct (upstream _); reflexivity).
  unfold merge_next_upstream. set (n := merge_value 0 _ _ _).
  destruct (Z.land n FT_OFF =? 0) eqn:E; cbn [negb]; [|done]. intros H. exfalso. apply Z.eqb_eq in E.
  assert (Z.testbit (Z.land n FT_OFF) 31 = true) as Ht by (rewrite Z.land_spec, H; done).
  by rewrite E, Z.testbit_0_l in Ht.
Qed.

(** The target with variables is not inherited: an [if] block in such a location keeps the
    handler and has neither target nor upstream, so that every request in it fails. *)
Theorem inherited_target_fails g e r w id p m c :
  create_loc_conf true p = Some c -> upstream m = None ->
  locs w !! r_loc r = Some (merge_loc_conf m c) -> reqs w !! id = None ->
  forall i u, reqs (handle g (Start id r e) w) !! id <> Some (Sent i u).
Proof.
  intros Hc Hm Hl Hr i u. cbn [handle]. rewrite Hr, Hl.
  destruct (merge_loc_conf_fields m c) as (_ & _ & _ & _ & _ & Ht & Hu).
  revert Hc Ht Hu. generalize (merge_loc_conf m c) as mc. intros mc [= <-]. cbn [complex_target upstream].
  rewrite Hm. intros Ht Hu. unfold ngx_http_qkupstream_handler, choose_upstream. rewrite Ht.
  destruct (h_content_type e); cbn [negb reqs handler_phase]; [|by rewrite lookup_insert_eq].
  destruct (h_create e); cbn [negb reqs handler_phase]; [|by rewrite lookup_insert_eq].
  destruct (h_ctx e); cbn [negb reqs handler_phase]; [|by rewrite lookup_insert_eq].
  destruct (ngx_http_read_client_request_body _ _ _ r) as [rc run].
  destruct (rc >=? _); cbn [reqs handler_phase]; rewrite lookup_insert_eq; [done|].
  destruct run; [|done]. unfold ngx_http_upstream_init_request. rewrite Hu.
  destruct (i_filter (h_init e)); [cbn [negb]|done]. destruct (create_request _ _ _ _ _) as [[[rc' ctx] us] d].
  destruct (rc' =? NGX_OK); [cbn [negb]|done]. destruct (i_states _); [cbn [negb]|done].
  by destruct (i_cleanup _).
Qed.

(** A second directive with variables is not reported as a duplicate. *)
Example second_pass_accepted :
  exists clcf c1, qkupstream_pass (fun _ => None) true true (bs "$a") (mk_core (bs "/") false false)
    (demo_loc <| complex_target := None |>) = Some (CONF_OK, clcf, c1) /\
  exists c2, qkupstream_pass (fun _ => None) true true (bs "$b") clcf c1 = Some (CONF_OK, clcf, c2) /\
    complex_target c2 = Some (bs "$b").
Proof. repeat eexists. Qed.

Lemma variables_count_0 v : ngx_http_script_variables_count v = 0%nat <-> ~ In 36 v.
Proof.
  induction v as [|c v IH]; cbn; [tauto|]. destruct (c =? 36) eqn:E.
  - apply Z.eqb_eq in E. split; [lia|]. intros H. exfalso. apply H. by left.
  - apply Z.eqb_neq in E. rewrite IH. split; [intros H [?|?]; [lia|done]|tauto].
Qed.

(** A directive in a fresh location leaves it with exactly one of a target and an upstream. *)
Theorem pass_sets_one add mem compiled v clcf p c rlcf clcf' :
  create_loc_conf true p = Some c ->
  qkupstream_pass add mem compiled v clcf c = Some (CONF_OK, clcf', rlcf) ->
  clcf_qk_handler clcf' = true /\
  match complex_target rlcf with
  | Some s => s = v /\ In 36 v /\ upstream rlcf = None
  | None => ~ In 36 v /\ upstream rlcf = add v /\ is_Some (add v)
  end.
Proof.
  intros [= <-]. unfold qkupstream_pass. cbn [upstream]. destruct clcf as [name h a].
  cbv [update]; cbn [eta_loc eta_core clcf_name mbind option_bind].
  destruct (name !! pred (length name)) as [ch|]; [|done]. cbn [option_bind].
  destruct (ngx_http_script_variables_count v =? 0)%nat eqn:E; cbn [negb].
  - apply Nat.eqb_eq, variables_count_0 in E. cbn. destruct (add v) eqn:Ea; [|done].
    intros [= <- <-]. destruct (ch =? 47); cbn; eauto.
  - apply Nat.eqb_neq in E. assert (In 36 v) as Hin.
    { destruct (in_dec Z.eq_dec 36 v) as [?|Hn]; [done|]. by apply variables_count_0 in Hn. }
    destruct mem; [cbn [negb]|done]. destruct compiled; [|done]. intros [= <- <-].
    destruct (ch =? 47); cbn; eauto.
Qed.

(** ** The peer data of the node balancer *)

(** The data of a request: the node balancer runs first, with no try counted, and the bitmap
    the stock balancer falls back to covers the peers. *)
Theorem node_peer_fresh mem key us ps pc :
  (2 <= mem)%nat -> peer_data us = Some ps ->
  exists rrp, node_init_peer mem (Some key) us pc =
    Some (NGX_OK, Some (mk_node rrp key 0), pc <| pc_tries := number ps |>, true) /\
    level rrp = 0%nat /\ fresh_words (tried rrp) (length (peer ps)).
Proof.
  intros Hm Hps. destruct (init_peer_fresh mem us ps pc Hm Hps) as (rrp & H & Hl & Hf & _).
  exists rrp. split; [|done]. unfold node_init_peer. destruct mem as [|[|mem]]; [lia..|].
  revert H. unfold init_round_robin_peer. rewrite Hps. cbn [mbind option_bind pred].
  set (n := match next ps with Some b => _ | None => _ end).
  destruct (n <=? 64)%nat; [by intros [= <-]|].
  destruct (S mem <? 1)%nat; [done|]. by intros [= <-].
Qed.

End QkLocation.
