(* ===== verification/QkSubrequest.v ===== *)
(** * The subrequest handler of the QKPack module

    [ngx_http_qksubrequest_handler] of
    [src/module_qkpack/src/qksubrequest/ngx_http_qksubrequest_module.c]: the phases
    of a request that is answered by subrequests.

    The steps of the C++ interface ([ngx_http_qksubrequest_init],
    [..._process_request], [..._check], [..._post], [..._output], [..._done]) are
    given by the code each returns in a call of the handler. *)

From stdpp Require Import relations.
From S2P Require Import Prelude.

Module QkSubrequest.

(** [QKSUBREQUEST_STATE_*] *)
Inductive phase_t : Type :=
| INIT | PROCESS | WAIT_SUBREQUEST | POST_SUBREQUEST | FINAL | DONE | ERROR.

#[export] Instance phase_eq_dec : EqDecision phase_t.
Proof. solve_decision. Defined.

(** [ctx->phase == QKSUBREQUEST_STATE_...] *)
Definition phase_eqb (a b : phase_t) : bool :=
  match a, b with
  | INIT, INIT | PROCESS, PROCESS | WAIT_SUBREQUEST, WAIT_SUBREQUEST
  | POST_SUBREQUEST, POST_SUBREQUEST | FINAL, FINAL | DONE, DONE | ERROR, ERROR => true
  | _, _ => false
  end.

Definition NGX_HTTP_SPECIAL_RESPONSE : Z := 300.

(** The context with [r->main->count], a 16-bit field, and what the calls of the
    interface do that concerns the handler: how often the plugin's request was
    destroyed and the response was sent. *)
Record sreq_t : Type := mk_sreq {
  phase : phase_t;
  waiting_more_body : bool;
  count : Z;
  destroyed : nat;
  outputs : nat
}.

#[export] Instance eta_sreq : Eta sreq_t := fun s =>
  mk_sreq (phase s) (waiting_more_body s) (count s) (destroyed s) (outputs s).

(** The codes the interface returns during one call of the handler. *)
Record codes_t : Type := mk_codes {
  rc_init : Z;
  rc_process : Z;
  rc_check : Z;
  rc_post : Z;
  rc_output : Z;
  rc_done : Z
}.

(** A phase of the handler either falls through to the next [if] or returns. *)
Inductive flow : Type :=
| Fall (s : sreq_t)
| Ret (rc : Z) (s : sreq_t).

Definition seq (f : flow) (k : sreq_t -> flow) : flow :=
  match f with Fall s => k s | Ret rc s => Ret rc s end.

(** [r->main->count++] *)
Definition count_inc (s : sreq_t) : sreq_t := s <| count := u16 (count s + 1) |>.

Definition in_init (c : codes_t) (s : sreq_t) : flow :=
  if phase_eqb (phase s) INIT then
    let rc := rc_init c in
    if rc >=? NGX_HTTP_SPECIAL_RESPONSE then Ret rc s
    else if rc =? NGX_AGAIN then Ret NGX_DONE (s <| waiting_more_body := true |>)
    else if rc =? NGX_OK then Fall (s <| phase := PROCESS |>)
    else Fall (s <| phase := ERROR |>)
  else Fall s.

Definition in_process (c : codes_t) (s : sreq_t) : flow :=
  if phase_eqb (phase s) PROCESS then
    let rc := rc_process c in
    if rc =? NGX_AGAIN then Ret NGX_DONE (count_inc (s <| phase := WAIT_SUBREQUEST |>))
    else if rc =? NGX_OK then Fall (s <| phase := FINAL |>)
    else Fall (s <| phase := ERROR |>)
  else Fall s.

Definition in_wait (c : codes_t) (s : sreq_t) : flow :=
  if phase_eqb (phase s) WAIT_SUBREQUEST then
    let rc := rc_check c in
    if rc =? NGX_AGAIN then Ret NGX_DONE (count_inc s)
    else if rc =? NGX_OK then Fall (s <| phase := POST_SUBREQUEST |>)
    else Fall (s <| phase := ERROR |>)
  else Fall s.

Definition in_post (c : codes_t) (s : sreq_t) : flow :=
  if phase_eqb (phase s) POST_SUBREQUEST then
    let rc := rc_post c in
    if rc =? NGX_AGAIN then Ret NGX_DONE (count_inc (s <| phase := WAIT_SUBREQUEST |>))
    else if rc =? NGX_OK then Fall (s <| phase := FINAL |>)
    else Fall (s <| phase := ERROR |>)
  else Fall s.

Definition in_final (c : codes_t) (s : sreq_t) : flow :=
  if phase_eqb (phase s) FINAL then
    let s := s <| phase := DONE |> in
    Ret (rc_output c) (s <| outputs := S (outputs s) |> <| destroyed := S (destroyed s) |>)
  else Fall s.

Definition in_done (c : codes_t) (s : sreq_t) : flow :=
  if phase_eqb (phase s) DONE then Ret (rc_done c) s else Fall s.

Definition in_error (s : sreq_t) : flow :=
  if phase_eqb (phase s) ERROR then Ret NGX_ERROR (s <| destroyed := S (destroyed s) |>)
  else Fall s.

(** The context created by the first call. *)
Definition sreq_init (main_count : Z) : sreq_t := mk_sreq INIT false main_count 0 0.

(** [ngx_http_qksubrequest_handler]; [None] is a request without context, [mem]
    tells whether one can be allocated. *)
Definition qksubrequest_handler (mem : bool) (main_count : Z) (c : codes_t) (ctx : option sreq_t)
    : Z * option sreq_t :=
  match ctx, mem with
  | None, false => (NGX_ERROR, None)
  | _, _ =>
      let s := match ctx with Some s => s | None => sreq_init main_count end in
      match seq (seq (seq (seq (seq (seq (in_init c s) (in_process c)) (in_wait c)) (in_post c))
              (in_final c)) (in_done c)) in_error with
      | Ret rc s => (rc, Some s)
      | Fall s => (NGX_OK, Some s)
      end
  end.

(** Decide the code the phase in front looks at. *)
Ltac phase_case :=
  match goal with
  | |- context [seq (if ?a =? ?b then _ else _) _] => destruct (Z.eqb_spec a b)
  | |- context [seq (if ?a >=? ?b then _ else _) _] => destruct (Z.geb_spec a b)
  end; cbn -[NGX_HTTP_SPECIAL_RESPONSE NGX_AGAIN NGX_OK NGX_DONE NGX_ERROR Z.eqb Z.geb u16].

(** ** A request from its first call on *)

(** One more call, by the core or by a finished subrequest, as long as the
    handler has not failed. *)
Definition call (s s' : sreq_t) : Prop :=
  phase s <> ERROR /\
  exists mem main_count c rc, qksubrequest_handler mem main_count c (Some s) = (rc, Some s').

Definition sreq_inv (s : sreq_t) : Prop :=
  match phase s with
  | DONE => destroyed s = 1%nat /\ outputs s = 1%nat
  | ERROR => destroyed s = 1%nat /\ outputs s = 0%nat
  | _ => destroyed s = 0%nat /\ outputs s = 0%nat
  end.

Lemma call_inv s s' : sreq_inv s -> call s s' -> sreq_inv s'.
Proof.
  destruct s as [ph w n d o]. intros Hi (Hne & mem & k & [ri rp rk rt ro rd] & rc & H). revert H.
  unfold qksubrequest_handler, in_init, in_process, in_wait, in_post, in_final, in_done, in_error, sreq_inv in *.
  destruct ph; cbn in Hi, Hne; destruct Hi as [-> ->];
    cbn -[NGX_HTTP_SPECIAL_RESPONSE NGX_AGAIN NGX_OK NGX_DONE NGX_ERROR Z.eqb Z.geb u16];
    repeat phase_case; intros [= _ <-]; done.
Qed.

(** C39: over any sequence of calls up to the first that fails, the response is sent at most once and the
    plugin's request is destroyed at most once: exactly once when the request is
    done or has failed, and not before.  (A request that [init] refuses with an
    HTTP status stays in [INIT] and is not destroyed.) *)
Theorem destroyed_at_most_once main_count s :
  rtc call (sreq_init main_count) s ->
  (outputs s <= 1)%nat /\ (destroyed s <= 1)%nat /\
  (destroyed s = 1%nat <-> phase s = DONE \/ phase s = ERROR) /\
  (outputs s = 1%nat <-> phase s = DONE).
Proof.
  intros H. assert (sreq_inv s) as Hi.
  { assert (sreq_inv (sreq_init main_count)) as H0 by done.
    induction H as [|s1 s2 s3 Hc H IH]; [done|]. apply IH. by eapply call_inv. }
  unfold sreq_inv in Hi. destruct (phase s); destruct Hi as [-> ->]; split_and!; naive_solver lia.
Qed.

Lemma destroyed_at_most_once_witness :
  let s := mk_sreq DONE false 3 1 1 in
  (outputs s <= 1)%nat /\ (destroyed s <= 1)%nat /\
  (destroyed s = 1%nat <-> phase s = DONE \/ phase s = ERROR) /\
  (outputs s = 1%nat <-> phase s = DONE).
Proof.
  apply (destroyed_at_most_once 1).
  eapply rtc_l; [split; [done|]; by exists true, 1, (mk_codes NGX_OK NGX_AGAIN 0 0 0 0), NGX_DONE|].
  eapply rtc_l; [split; [done|]; by exists true, 1, (mk_codes 0 0 NGX_AGAIN 0 0 0), NGX_DONE|].
  apply rtc_once. split; [done|]. by exists true, 1, (mk_codes 0 0 NGX_OK NGX_OK NGX_OK 0), NGX_OK.
Defined.

(** The phase stays [ERROR], so that a further call destroys again. *)
Example destroyed_twice_after_error :
  let c := mk_codes NGX_ERROR 0 0 0 0 0 in
  let s1 := snd (qksubrequest_handler true 1 c None) in
  option_map destroyed (snd (qksubrequest_handler true 1 c s1)) = Some 2%nat.
Proof. reflexivity. Qed.

End QkSubrequest.
