(* ===== verification/QkPlugin.v ===== *)
(** * Plugin configuration of the QKPack module

    [src/module_qkpack/src/qkplugin/ngx_http_qkplugin_module.c]: the
    [qkplugin_conf] directive, the loading of the plugins in a worker and the
    publish timer.  The plugin manager (C++) is a parameter. *)

From S2P Require Import Prelude.

Module QkPlugin.

(** [qkplugin_conf_ctx_t]; a field that was not yet written is [None]. *)
Record plugin_conf : Type := mk_conf {
  name : option (list Z);
  so_path : option (list Z);
  so_conf : option (list Z)
}.

(** [ngx_strncmp(value.data, prefix, len) == 0], then [value + len]. *)
Definition after_prefix (prefix value : list Z) : option (list Z) :=
  if bool_decide (take (length prefix) value = prefix)
  then Some (drop (length prefix) value) else None.

(** [ngx_http_qkplugin_set_conf]: the element is pushed first and stays when an
    argument is refused; [true] is [NGX_CONF_OK].  [init_ok] tells whether the
    array, created by the first directive, gets its memory, [push_ok] whether the
    element does.  The result of [ngx_array_push] is not tested: [None] is the
    [NULL] dereference. *)
Definition set_conf (init_ok push_ok : bool) (confs : list plugin_conf) (v1 v2 v3 : list Z)
    : option (bool * list plugin_conf) :=
  if bool_decide (confs = []) && negb init_ok then Some (false, confs)
  else if negb push_ok then None
  else
    Some match after_prefix (bs "name=") v1 with
         | None => (false, confs ++ [mk_conf None None None])
         | Some n =>
             match after_prefix (bs "so_path=") v2 with
             | None => (false, confs ++ [mk_conf (Some n) None None])
             | Some p =>
                 match after_prefix (bs "so_conf=") v3 with
                 | None => (false, confs ++ [mk_conf (Some n) (Some p) None])
                 | Some c => (true, confs ++ [mk_conf (Some n) (Some p) (Some c)])
                 end
             end
         end.

Section InitProcess.
(** The state of the plugin manager, [ngx_load_qkplugin],
    [ngx_init_master_qkplugin] and [ngx_init_process_qkplugin]. *)
Context {M : Type}.
Variables (load : M -> plugin_conf -> Z * M) (init_master init_process : M -> Z * M).

(** [for (i = 0; i < nelts; ++i) rc = ngx_load_qkplugin(cycle, ctx);] *)
Fixpoint load_loop (n : nat) (ctx : plugin_conf) (m : M) : Z * M :=
  match n with
  | O => (NGX_OK, m)
  | S n' => let '(rc, m) := load m ctx in
            if negb (rc =? NGX_OK) then (NGX_ERROR, m) else load_loop n' ctx m
  end.

(** [ngx_http_qkplugin_init_process]; the third result is whether the publish
    timer was added by [ngx_http_publish_init_process]. *)
Definition qkplugin_init_process (confs : list plugin_conf) (m : M) : Z * M * bool :=
  let '(rc, m) := match confs with
                  | [] => (NGX_OK, m)
                  | ctx :: _ => load_loop (length confs) ctx m
                  end in
  if negb (rc =? NGX_OK) then (NGX_ERROR, m, false)
  else
    let '(rc, m) := init_master m in
    if negb (rc =? NGX_OK) then (NGX_ERROR, m, false)
    else
      let '(rc, m) := init_process m in
      if negb (rc =? NGX_OK) then (NGX_ERROR, m, false) else (NGX_OK, m, true).
End InitProcess.

(** [ngx_http_publish_handler]: [publish] is [ngx_publish_process_qkplugin],
    whose failure is only logged; the second result is whether the timer is set
    again. *)
Definition publish_handler {M} (publish : M -> Z * M) (exiting : bool) (m : M) : M * bool :=
  let '(rc, m) := publish m in (m, negb exiting).

(** The directive stores what follows each of its three prefixes. *)
Lemma set_conf_stores confs n p c :
  set_conf true true confs (bs "name=" ++ n) (bs "so_path=" ++ p) (bs "so_conf=" ++ c) =
  Some (true, confs ++ [mk_conf (Some n) (Some p) (Some c)]).
Proof.
  unfold set_conf, after_prefix. cbn [negb]. rewrite andb_false_r.
  rewrite !take_app_length, !drop_app_length, !bool_decide_true by done. done.
Qed.

(** A manager that records what it is asked to load. *)
Definition recorder (m : list plugin_conf) (c : plugin_conf) : Z * list plugin_conf :=
  (NGX_OK, m ++ [c]).

Lemma load_loop_recorder n ctx m :
  load_loop recorder n ctx m = (NGX_OK, m ++ replicate n ctx).
Proof.
  revert m. induction n as [|n IH]; intros m; cbn; [by rewrite app_nil_r|].
  rewrite IH, <- app_assoc. done.
Qed.

(** A worker loads the first configured plugin once for each
    [qkplugin_conf] directive and no other one: [ctx] is not advanced in the
    loop. *)
Lemma init_process_loads_first ctx confs :
  qkplugin_init_process recorder (fun m => (NGX_OK, m)) (fun m => (NGX_OK, m)) (ctx :: confs) [] =
  (NGX_OK, replicate (S (length confs)) ctx, true).
Proof. unfold qkplugin_init_process. by rewrite load_loop_recorder. Qed.

End QkPlugin.
