(* ===== verification/QkManager.v ===== *)
(** * The manager process of QKPack

    [src/module_qkpack/src/qkmanager/ngx_qkpack_manager_module.c]: a process of its own that
    listens on a port and answers every connection with a fixed text.

    The descriptors of the process are a set of open ones; closing or writing to a
    descriptor that is not open is recorded.  What the system calls and the connection
    table return is a parameter. *)

From stdpp Require Import gmap.
From S2P Require Import Prelude NgxString.

Module QkManager.
Import NgxString.

Abbreviation str := (list Z).

(** [(ngx_uint_t) -1] and [(ngx_msec_t) -1]; [NGX_CONF_UNSET] *)
Definition UNSET_UINT : Z := 2 ^ 64 - 1.
Definition CONF_UNSET : Z := -1.

(** [ngx_qkpack_manager_conf_t]: the fields the module uses *)
Record conf_t : Type := mk_conf { enable : Z; c_port : Z; interval : Z; c_fd : Z }.

#[export] Instance eta_conf : Eta conf_t := fun c => mk_conf (enable c) (c_port c) (interval c) (c_fd c).

(** The process: the open descriptors, the port on which a descriptor listens, what was
    written, and the calls on descriptors that were not open. *)
Record proc_t : Type := mk_proc {
  fds : gset Z;
  ports : gmap Z Z;
  sent : list (Z * str);
  bad : list Z
}.

#[export] Instance eta_proc : Eta proc_t := fun p => mk_proc (fds p) (ports p) (sent p) (bad p).

(** [ngx_qkpack_manager_create_conf] *)
Definition create_conf (mem : bool) : option conf_t :=
  if negb mem then None else Some (mk_conf 1 UNSET_UINT UNSET_UINT 0).

Definition merge_value (unset conf prev default : Z) : Z :=
  if conf =? unset then (if prev =? unset then default else prev) else conf.

(** [ngx_qkpack_manager_merge_conf] *)
Definition merge_conf (prev conf : conf_t) : conf_t :=
  conf <| enable := merge_value CONF_UNSET (enable conf) (enable prev) 1 |>
       <| c_port := merge_value UNSET_UINT (c_port conf) (c_port prev) 1 |>
       <| interval := merge_value UNSET_UINT (interval conf) (interval prev) 3000 |>.

(** [ngx_qkpack_manager_prepare] *)
Definition prepare (conf : conf_t) : Z := if enable conf =? 0 then NGX_DECLINED else NGX_OK.

(** [ngx_close_socket] and [ngx_write_fd] *)
Definition close_socket (fd : Z) (p : proc_t) : proc_t :=
  if bool_decide (fd ∈ fds p)
  then p <| fds := fds p ∖ {[fd]} |> <| ports := delete fd (ports p) |>
  else p <| bad := bad p ++ [fd] |>.

Definition write_fd (fd : Z) (data : str) (p : proc_t) : proc_t :=
  if bool_decide (fd ∈ fds p) then p <| sent := sent p ++ [(fd, data)] |>
  else p <| bad := bad p ++ [fd] |>.

(** What the calls of [process_init] return: the new descriptor or [-1], and whether each of
    the others succeeds. *)
Record init_io : Type := mk_io {
  io_socket : Z;
  io_reuseaddr : bool;
  io_nonblocking : bool;
  io_bind : bool;
  io_listen : bool;
  io_connection : bool;
  io_event : bool
}.

Definition open_fd (fd : Z) (p : proc_t) : proc_t := p <| fds := {[fd]} ∪ fds p |>.

(** [htons(conf->port)] takes the low 16 bits. *)
Definition bound_port (conf : conf_t) : Z := c_port conf mod 2 ^ 16.

(** [ngx_qkpack_manager_process_init] *)
Definition process_init (exiting : bool) (io : init_io) (conf : conf_t) (p : proc_t)
    : Z * conf_t * proc_t :=
  if exiting then (NGX_OK, conf, p)
  else
    let fd := io_socket io in
    if fd =? -1 then (NGX_ERROR, conf, p)
    else
      let p := open_fd fd p in
      if negb (io_reuseaddr io) then (NGX_ERROR, conf, close_socket fd p)
      else if negb (io_nonblocking io) then (NGX_ERROR, conf, close_socket fd p)
      else if negb (io_bind io) then (NGX_ERROR, conf, p)
      else if negb (io_listen io) then (NGX_ERROR, conf, p)
      else
        let p := p <| ports := <[fd := bound_port conf]> (ports p) |> in
        if negb (io_connection io) then (NGX_ERROR, conf, p)
        else if negb (io_event io) then (NGX_ERROR, conf, p)
        else (NGX_OK, conf <| c_fd := fd |>, p).

(** [ngx_qkpack_manager_process_exit] *)
Definition process_exit (conf : conf_t) (p : proc_t) : proc_t :=
  if negb (c_fd conf =? 0) then close_socket (c_fd conf) p else p.

Definition output : str := bs "test".

(** [ngx_qkpack_manager_accept]; [s] is what [accept] returns. *)
Definition accept (s : Z) (nonblocking : bool) (p : proc_t) : proc_t :=
  if s =? -1 then p
  else
    let p := open_fd s p in
    let p := if negb nonblocking then close_socket s p else p in
    let p := write_fd s output p in
    close_socket s p.

(** Connections one after the other *)
Fixpoint serve (conns : list (Z * bool)) (p : proc_t) : proc_t :=
  match conns with [] => p | (s, nb) :: conns => serve conns (accept s nb p) end.

(** ** Lemmas *)

Lemma close_open fd p : fd ∉ fds p -> ports p !! fd = None -> close_socket fd (open_fd fd p) = p.
Proof.
  intros H Hp. unfold close_socket, open_fd. cbv [update]; cbn.
  rewrite bool_decide_true by set_solver. destruct p as [f q s b]; cbn in *. f_equal.
  - set_solver.
  - by apply delete_id.
Qed.

(** A new descriptor is one that is not open; [ports] is about open descriptors. *)
Definition wf_proc (p : proc_t) : Prop := dom (ports p) ⊆ fds p.

Lemma wf_fresh p fd : wf_proc p -> fd ∉ fds p -> ports p !! fd = None.
Proof. intros H Hf. apply not_elem_of_dom. set_solver. Qed.

(** The module is always enabled: the only directives are [listen] and [interval]. *)
Theorem always_prepared mem mem' c0 c :
  create_conf mem = Some c0 -> create_conf mem' = Some c ->
  prepare (merge_conf c0 c) = NGX_OK /\ c_port (merge_conf c0 c) = 1 /\ interval (merge_conf c0 c) = 3000.
Proof. destruct mem, mem'; try done. intros [= <-] [= <-]. done. Qed.

(** The socket of the process: when the initialisation succeeds the process listens on the low
    16 bits of the configured port and the end of the process closes exactly that socket; when
    it fails before the address is bound, nothing stays open. *)
Theorem socket_lifecycle io conf p :
  wf_proc p -> 0 < io_socket io -> io_socket io ∉ fds p -> c_fd conf = 0 ->
  let '(rc, conf', p') := process_init false io conf p in
  (rc = NGX_OK ->
     fds p' = {[io_socket io]} ∪ fds p /\ ports p' !! io_socket io = Some (c_port conf mod 2 ^ 16) /\
     process_exit conf' p' = p) /\
  (rc <> NGX_OK ->
     conf' = conf /\ process_exit conf' p' = p' /\ bad p' = bad p /\
     (io_reuseaddr io = false \/ io_nonblocking io = false -> p' = p) /\
     (io_reuseaddr io = true -> io_nonblocking io = true -> fds p' = {[io_socket io]} ∪ fds p)).
Proof.
  intros Hw H0 Hf Hc. pose proof (wf_fresh p _ Hw Hf) as Hp. unfold process_init, process_exit.
  destruct (io_socket io =? -1) eqn:E; [lia|].
  destruct (io_reuseaddr io) eqn:E1; cbn [negb].
  2: { rewrite close_open by done. split; [done|]. intros _. rewrite Hc. split_and!; done. }
  destruct (io_nonblocking io) eqn:E2; cbn [negb].
  2: { rewrite close_open by done. split; [done|]. intros _. rewrite Hc. split_and!; done. }
  assert (forall q, fds q = {[io_socket io]} ∪ fds p -> bad q = bad p -> 
    conf = conf /\ (if negb (c_fd conf =? 0) then close_socket (c_fd conf) q else q) = q /\ bad q = bad p /\
     (true = false \/ true = false -> q = p) /\ (true = true -> true = true -> fds q = {[io_socket io]} ∪ fds p)) as Hfail.
  { intros q Hq Hb. rewrite Hc. split_and!; try done. by intros [?|?]. }
  destruct (io_bind io); cbn [negb]; [|split; [done|]; intros _; by apply Hfail].
  destruct (io_listen io); cbn [negb]; [|split; [done|]; intros _; by apply Hfail].
  destruct (io_connection io); cbn [negb]; [|split; [done|]; intros _; by apply Hfail].
  destruct (io_event io); cbn [negb]; [|split; [done|]; intros _; by apply Hfail].
  split; [intros _|done]. cbv [update]; cbn. split; [done|]. split; [apply lookup_insert_eq|].
  destruct (io_socket io =? 0) eqn:E3; [lia|]. cbn [negb]. unfold close_socket, open_fd. cbv [update]; cbn.
  rewrite bool_decide_true by set_solver. destruct p as [f q s b]; cbn in *. f_equal.
  - set_solver.
  - rewrite delete_insert_eq. by apply delete_id.
Qed.

Lemma accept_answers s p :
  s <> -1 -> s ∉ fds p -> ports p !! s = None -> accept s true p = p <| sent := sent p ++ [(s, output)] |>.
Proof.
  intros Hs Hf Hp. unfold accept. destruct (s =? -1) eqn:E; [lia|]. cbn [negb].
  unfold write_fd. rewrite bool_decide_true by (unfold open_fd; cbv [update]; cbn; set_solver).
  unfold close_socket, open_fd. cbv [update]; cbn. rewrite bool_decide_true by set_solver.
  destruct p as [f q l b]; cbn in *. f_equal.
  - set_solver.
  - by apply delete_id.
Qed.

(** Every connection is answered once and closed, and the other descriptors stay as they
    are. *)
Theorem serve_answers conns p :
  wf_proc p -> Forall (fun c => fst c <> -1 /\ fst c ∉ fds p /\ snd c = true) conns ->
  serve conns p = p <| sent := sent p ++ ((fun c => (fst c, output)) <$> conns) |>.
Proof.
  intros Hw H. revert p Hw H. induction conns as [|[s nb] conns IH]; intros p Hw H.
  - cbn. destruct p; cbv [update]; cbn. by rewrite app_nil_r.
  - apply Forall_cons_1 in H as [(Hs & Hf & Hn) H]. cbn in Hs, Hf, Hn. subst nb. cbn [serve].
    rewrite accept_answers by eauto using wf_fresh. rewrite IH; [|done|done].
    destruct p; cbv [update]; cbn. by rewrite <- app_assoc.
Qed.

(** After a failure of [ngx_nonblocking] the connection is closed, written to and closed
    again. *)
Theorem accept_closes_twice s p :
  s <> -1 -> s ∉ fds p -> ports p !! s = None ->
  accept s false p = p <| bad := bad p ++ [s; s] |>.
Proof.
  intros Hs Hf Hp. unfold accept. destruct (s =? -1) eqn:E; [lia|]. cbn [negb].
  rewrite close_open by done. unfold write_fd. rewrite bool_decide_false by done.
  unfold close_socket. cbv [update]; cbn. rewrite bool_decide_false by done.
  destruct p; cbn. by rewrite <- app_assoc.
Qed.

(** A process that is started, serves two connections and ends. *)
Example manager_run :
  let p0 := mk_proc {[1; 2]} ∅ [] [] in
  let conf := mk_conf 1 70000 3000 0 in
  let '(rc, conf, p) := process_init false (mk_io 5 true true true true true true) conf p0 in
  rc = NGX_OK /\ ports p !! 5 = Some 4464 /\
  sent (process_exit conf (serve [(6, true); (6, true)] p)) = [(6, output); (6, output)] /\
  fds (process_exit conf (serve [(6, true); (6, true)] p)) = {[1; 2]}.
Proof. vm_compute. split_and!; reflexivity. Qed.

End QkManager.
